(* ===== verification/_CoqProject ===== *)
-Q . S2P
Prelude.v
DiffRange.v
DiffText.v
DiffChanges.v
DiffChunks.v
DiffLines.v
DiffLinesCorrect.v
DiffTracker.v
DiffTrackerCorrect.v
DiffProperties.v
DiffUtf8.v
DiffWords.v
DiffSplitter.v
DiffInner.v
DiffWordsCorrect.v
DiffCorrections.v
DiffSplitterCorrect.v
DiffFragments.v
DiffInnerCorrect.v
DiffInnerProperties.v
EditDocument.v
EditDocumentCorrect.v
EditSplice.v
EditSpliceCorrect.v
EditHistory.v
EditHistoryCorrect.v
EditDisk.v
EditDiskCorrect.v
EditCursor.v
EditCursorCorrect.v
EditView.v
EditViewCorrect.v
EditViewHandlers.v
EditViewBlocks.v
EditViewWorld.v
EditDiskSync.v
EditDiskSyncWorld.v
EditProperties.v
EditSyncProperties.v
Float.v
LayoutTree.v
LayoutFacts.v
LayoutMove.v
LayoutNavigation.v
LayoutSchema.v
LayoutSchemaFacts.v
LayoutProperties.v
OrderedMap.v
AgentActivity.v
AgentSession.v
AgentWorker.v
AgentFacts.v
AgentProperties.v
GitTypes.v
GitRenames.v
GitSpans.v
GitMatch.v
GitRenamesCorrect.v
GitContents.v
GitContentsCorrect.v
GitEngine.v
GitEngineCorrect.v
GitStatus.v
GitStatusCorrect.v
GitListing.v
GitListingCorrect.v
GitProperties.v
UsageLedger.v
UsageTokens.v
UsageLedgerCorrect.v
UsageLedgerBatches.v
UsageTokensCorrect.v
UsageProperties.v
FlowSpec.v
FlowEngine.v
FlowSpecCorrect.v
FlowPlan.v
FlowEngineCorrect.v
FlowRun.v
FlowProperties.v
