(* ===== verification/Prelude.v ===== *)
(** * Paneflow: a verified model of its core logic

    Paneflow is a terminal multiplexer for coding agents, written in Rust.  This
    library models the parts of it that are pure logic and proves what the rest
    of the program relies on.  Seven subsystems are modelled, in seven groups of
    files; they share this prelude and the model of text.

    ** Line diffs (files [Diff*], crate [paneflow-textdiff])

    The crate compares two texts line by line for the diff view and tracks the
    changed blocks of an edited document incrementally.

    - [DiffRange]: [Range] and [ComparisonPolicy] ([iterable.rs], [lib.rs]), and
      the specification of an edit script ([script], [matching], [patch]).
    - [DiffText]: character classes, equality and hash under a policy, trimming
      and expanding of ranges ([text.rs]).
    - [DiffChanges]: [Changes], [complement], the two change builders and [lcs]
      ([iterable.rs]).  The Myers diff of the crate [imara_diff] is the class
      [MyersDiff], its laws the class [MyersDiffLaws]; [ReferenceDiff] is an
      executable instance of both.
    - [DiffChunks]: [chunk_optimizer.rs]; the trait [BoundaryShift] is a class.
    - [DiffLines]: all of [by_line.rs] and [compare_lines] of [lib.rs];
      [DiffLinesCorrect] proves it correct.
    - [DiffTracker]: [BlockTracker] of [tracker.rs]; [DiffTrackerCorrect] proves that
      edits and refreshes keep its invariant.
    - [DiffUtf8]: byte offsets into a text, its lines; slicing fails
      off the boundary of a character.
    - [DiffWords]: the comparison by words ([by_word.rs], [compare_punctuation]
      of [by_char.rs]); [DiffWordsCorrect] and
      [DiffCorrections] prove that its steps turn an edit script of words into one
      of bytes.
    - [DiffSplitter]: [splitter.rs]; [DiffSplitterCorrect] shows that its blocks
      are a chain of corners on the path of the comparison.
    - [DiffInner]: [manager.rs], [compare_and_split] of [by_word.rs], the entries
      [compare_lines_inner] and [compare_lines_inner_report] of [lib.rs].
      [DiffSplitterCorrect] and [DiffInnerCorrect] prove the blocks, [DiffFragments]
      the line offsets and the merging of fragments,
      [DiffInnerCorrect] the comparison.
    - [DiffProperties], [DiffInnerProperties]: the properties.

    A text is a list of code points, offsets inside a line are bytes of its
    UTF-8 encoding.  [char::is_alphabetic] is the argument [is_alphabetic].  The crate
    is modelled with its debug assertions and overflow checks on: an index out of range,
    a [usize] below zero and a failed [debug_assert!] are the panic [None], and every
    theorem of the group shows that there is none.  A comparison of two items
    ([PartialEq]) may panic as well: that of two [Line]s asserts that their policies are
    the same.  [while] loops take fuel, at most one
    more than the number of items they scan; running out of it is [None] too, so
    the theorems also show that the loops terminate.

    ** The editor (files [Edit*], [src-app/src/app/diff_dock/code])

    The code editor of the diff dock: a document, the undo history, the caret, the
    markers of changed lines, and the file the text is read from and saved to.

    - [EditDocument]: the rope of the crate [ropey], the class [Rope] with its
      documented laws [RopeLaws]; [TextRope] is an executable instance.  On it,
      [CodeDocument] ([document.rs]); [EditDocumentCorrect] proves its edits, line
      endings and the cached length of the longest line.
    - [EditSplice]: splices, their records and tracker windows, indentation and
      pasted text ([edit.rs]); [EditSpliceCorrect].
    - [EditHistory]: [UndoHistory] ([edit.rs]).  [EditHistoryCorrect] shows that
      its stacks are a path of texts, what a saved mark stands for, its bounds, the
      revision and the undo of one edit.
    - [EditCursor]: the motions ([cursor.rs]); grapheme clusters are the class
      [Graphemes].  [EditCursorCorrect] relates offsets to a grid.
    - [EditView]: the handlers of [CodeView] on the fields they share, the record
      [Editor] ([view/editing.rs], [motion.rs], [input_handler.rs],
      [change_markers.rs], [base.rs]).  [EditViewCorrect], [EditViewHandlers] and
      [EditViewBlocks] prove that each keeps the invariant [ok]; [EditViewWorld]
      that none changes a read-only document.
    - [EditViewWorld]: all handlers and background refreshes as the events of a
      transition system.
    - [EditDisk]: the splices that turn the text into that of the file
      ([edit.rs]), on the class [HistogramDiff]; [EditDiskCorrect].
    - [EditDiskSync]: loading, saving, reloading and conflicts ([load.rs],
      [save.rs], [view/disk_sync.rs], [view/mod.rs]) on the record [View];
      [EditDiskSyncWorld] proves its parts, and all events in any order.
    - [EditProperties], [EditSyncProperties]: the properties; the latter ends with
      evaluated runs in which the code does not do what it means to.

    [CodeView] is a GPUI entity whose methods run one at a time on the main
    thread; a background task is a value that an event hands back.  Its answers -
    what was read from a file, the time - are arguments of that event.  Panics are
    [None].  Each theorem names what it asks for: room in the 64-bit revision and
    transaction ids and in the 32-bit line numbers of the tracker; texts that hold no
    [\r] once their line endings are normalized; for [clean_is_synced] a typing group
    that is closed when a reload is forced; and no load after an unreadable file.  The
    evaluated runs of [EditSyncProperties] show what happens without.

    ** The pane layout (files [Float], [Layout*])

    A workspace is a tree of splits whose leaves are panes, with a ratio per
    child.

    - [Float]: the [f32] and [f64] operations the code uses, on the Standard
      Library's IEEE 754 [spec_float].
    - [LayoutTree]: the tree and its operations ([layout/tree.rs], [queries.rs],
      [mutations.rs], [close.rs], [presets.rs]); [LayoutFacts]
      proves them correct with respect to [collect_leaves] and [wf].
    - [LayoutMove]: drag and drop ([pane_drag.rs], the [DropPaneMove] event of
      [app/event_handlers/mod.rs]).
    - [LayoutNavigation]: rectangles, focus in a direction, card frames
      ([layout/navigation.rs], [density.rs], [queries.rs]).
    - [LayoutSchema]: the saved form, its validation, saving, restoring and
      templates ([schema/layout.rs] of [paneflow-config], [layout/serde.rs],
      [workspace_ops/templates.rs]); [LayoutSchemaFacts] proves them.
    - [LayoutProperties]: the properties.

    A pane is an element of an arbitrary type with decidable equality: the code
    holds handles of GPUI entities.  What an operation asks a pane for
    ([is_focused], [is_detached], its surfaces) is a function argument.  The
    [Cell] with the ratio of a child is a field of the tree: no tree shares one
    with another.  This group follows the release build: [debug_assert!] is off.

    ** Agent activity (files [OrderedMap], [Agent*])

    The worker process follows what the agents of the sessions do, from hook
    events and from the status their programs declare.

    - [OrderedMap]: [BTreeMap] as a sorted association list.
    - [AgentActivity]: decoding of hook events and the reducer of an agent's
      activity ([agent.rs] and [ai_hook.rs] of [paneflow-ipc-client], [agent.rs]
      of [paneflow-host], [activity.rs] of [paneflow-serve]).
    - [AgentSession]: the entry of a session, the derivation of its status and
      notifications ([state.rs], [notifications.rs] of [paneflow-serve]).
    - [AgentWorker]: [WorkerState], one definition per operation of [state.rs],
      with the queue of turn signals and the activity log.
    - [AgentFacts]: their lemmas and the reachable states.
    - [AgentProperties]: the properties.

    What the worker asks the system - the time, whether a process lives, the
    environment - is the record [Os], an argument of each operation, so that a
    theorem holds whatever the answers are.  The catalog of runtimes is generated
    by the build: it is the argument [RUNTIMES].  The decoders that [serde]
    derives are the class [Decoders].  Sequence numbers wrap at 64 bits.

    ** Git integration (files [Git*])

    The changed files of a worktree, read in this process through the crate [gix]
    and listed as [git] would.

    - [GitTypes]: errors, and the monad of calls that read the repository; [total] is
      its total correctness.
    - [GitRenames]: pairing deleted with added files by content, name and similarity
      ([renames.rs] of [paneflow-git]); [GitSpans] proves the similarity, [GitMatch]
      says what a pairing promises of any [Contents], [GitRenamesCorrect] proves it.
    - [GitContents]: the [Contents] of the repository, what is read and kept of each
      side ([RepositoryContents] of [renames.rs]); [GitContentsCorrect] proves that it
      obeys the laws of [GitMatch].
    - [GitEngine]: which engine answers a probe ([engine.rs]); [GitEngineCorrect]
      proves it for every interleaving of runs.
    - [GitStatus]: the snapshot made of the items of a status, and porcelain records
      ([lib.rs], [snapshot.rs], [submodule.rs], [porcelain.rs]); [GitStatusCorrect].
    - [GitListing]: raw changes and the listing of the diff view ([workspace/git.rs],
      [diff/git.rs] of [src-app]); [GitListingCorrect].
    - [GitProperties]: the properties.

    The functions of [gix] and the file system are the classes [Repository] and
    [Lookup_]; those of [Repository] are given all that was asked before, so that a
    file may change between two reads.  The items of a status, the index and the
    states of submodules are arguments.

    ** The usage ledger (files [Usage*], [usage/ledger.rs] and [tokens.rs] of [paneflow-serve])

    The worker keeps, per day and account, how many turns the agents took, how long
    they worked and how many tokens they used.  Its input are the signals that
    [AgentWorker] queues and passes over transcripts.

    - [UsageLedger]: [TurnBook] and its operations, the file, [Ledger] with the cap on
      what is read ([read.rs] of [paneflow-home]).
    - [UsageTokens]: [usage/tokens.rs], a pass over what a transcript has gained.
    - [UsageLedgerCorrect]: spans of time and days, open turns, signals; the time of a
      turn by the milliseconds at which its signals say that it is at work ([traced],
      [worked_in]).
    - [UsageLedgerBatches]: sweeps, imports, passes, the file, and every run, with the
      signals of a session's open turn ([run_traced]).
    - [UsageTokensCorrect]: passes and lines; the passes over a growing transcript, and
      their booking.
    - [UsageProperties]: the properties; a ledger over the cap that is not read back, and
      evaluated runs in which working time is not written and a copied message counts
      twice.

    Times are milliseconds.  The dates of a zone are the class [TimeZone], what the
    ledger asks of a calendar [Calendar], its laws [CalendarLaws]; they hold of zones
    with a fixed offset ([fixed_laws]) up to [MAX_AT], the year 144683.  The decoding of
    JSON and of time stamps is the class [Decoding], of which nothing is assumed; the
    bytes of a file are an argument of the pass that reads it.  The bytes of a ledger are
    the class [LedgerEncoding], whose law is that what is written is read back; what the
    file system answers for its path is the record [LedgerIo].  A sum that
    leaves 64 bits is the panic [None]; the theorems ask for [room].

    ** Flows (files [Flow*], [cli/flow_spec.rs], [flow_cmd.rs] and [surface_read.rs] of [src-app])

    A flow is a graph of steps in a file.  A step opens a pane or sends a text to one,
    once the steps it needs are ready; it is ready when a pattern appears in its pane,
    and may capture lines of it for the texts of later steps.

    - [FlowSpec]: the data of a flow, its validation and its expansion to the units of a
      [FlowPlan] ([flow_spec.rs], the panes of [workspace_spec.rs], [branch_slug]);
      [load] is their composition.
    - [FlowEngine]: reading a surface ([surface_read.rs]), the texts, ports and
      environments ([flow_cmd.rs], [up_cmd.rs]), the [Engine] and every step of a run
      ([flow_cmd.rs]); [run] is the command.
    - [FlowSpecCorrect]: the dependency walks, and what validation and loading decide.
    - [FlowPlan]: new text, tokens, the units of a loaded plan, ports.
    - [FlowEngineCorrect]: the rules of the engine's monad, the invariant [inv], and that
      each step moves one unit forward.
    - [FlowRun]: a round, the loop, the bootstrap, and what a report says.
    - [FlowProperties]: the properties, and evaluated flows whose texts are not what
      validation or the capture took them for.

    What the engine asks of the running instance, the clock and [git] is the class
    [Client], on a state of the outside; [ClockLaws] asks that its clock does not go
    back, moves on while the thread sleeps, and can be advanced by 2^32 seconds.  The
    regular expressions are the class [Regexes].  What a plan asks of the configuration
    and of worktrees is the class [Preparation], of which only the length of a list is
    used.  The fuel of the walks over steps and of the strides is computed from what
    they scan; that of [execute_loop] is an argument, and [run_rounds], computed from
    the timeouts, is enough.

    ** What the theorems show

    - [DiffProperties]: [compare_lines] never panics and returns a minimal edit
      script, which under the default policy is a patch; the blocks of the
      tracker are an edit script after every history, edits keep it and a refresh
      settles it; the routines in between meet their contracts.
    - [DiffInnerProperties]: [compare_lines_inner] never panics; its fragments are
      the ranges of [compare_lines] with their byte offsets, and the ranges inside
      a fragment are an edit script of its bytes: a patch under the default
      policy, a patch up to whitespace under the others.
    - [EditProperties]: from a document that was opened, no event of the editor panics;
      the text, the selection and the markers keep their invariants; splices, undo,
      redo, reverts and motions do what their specification says; the history and the
      longest line keep their bounds.
    - [EditSyncProperties]: a document that is not dirty is the text of its file,
      whatever the order of edits, saves and reloads; reloads keep unsaved edits
      and take over what they read; files are written as they were read; no event
      panics, with any reload.
    - [LayoutProperties]: no operation loses, duplicates or reorders a pane it
      was not asked to; a dropped pane is beside its target, at the edge it was dropped
      on; saved layouts are within their bounds whatever the file says, and restore to
      the tree they were saved from, with its ratios as saving has normalized them; the
      focus goes to the nearest pane; ratios stay in their bounds.
    - [AgentProperties]: the invariant of the worker; frames are handled once;
      a sweep settles every session; a snapshot is taken over exactly;
      notifications are derived exactly when they should.
    - [GitProperties]: renames pair each file once, with a file of the same or of
      similar content, and leave no better pair; a file is read once; an engine that
      failed twice in a row is not asked again, whatever the interleaving; a snapshot
      is well-formed whatever items it is made of, and does not depend on their
      order; the listing accounts for every change, told from the sides of each path
      and not from the code's own list of them.
    - [UsageProperties]: a signal counts exactly the turn it opens and, of the one it
      ends, the milliseconds that were worked, on their days; signals, passes and imports
      that come again count nothing; what is imported is never changed; a restart keeps a
      ledger of at most 8 MiB; a transcript is booked once, message by message, however
      its growth is cut into passes.
    - [FlowProperties]: loading accepts exactly the well-formed flows and finds a cycle
      when there is one; a run ends, with every step in a final state; a step starts
      after all it needs, and what its text names has been captured; the report says so;
      the text waited in is what a surface gained: the rest when it continues what was
      there before, else its lines but for a longest common subsequence; ports are the
      first that are free.

    ** Not modelled

    The functions of [by_char.rs] and [by_word.rs] that are built for tests only
    are left out.  Of the editor, the highlighter, scrolling, the mouse, painting
    and the file watcher are left out, and the transition system of
    [EditDiskSyncWorld] has neither [open] nor the load that follows an unreadable
    file, where [EditSyncProperties] shows what goes wrong.  Of the git integration,
    opening a repository, preparing the status of [gix], line statistics, reading the
    base texts and the listing through the command line are left out.  Of usage, the
    limits of plans, the walk over past transcripts and the JSON views of the ledger
    are left out.  Of flows, parsing TOML, printing, the dry run's plan, the resolution
    of panes outside a flow, the confirmation of a turn and the creation of worktrees are
    left out.  The MCP installer is not modelled.  Out of reach are the rendering and event glue of the GPUI
    application, the terminal emulator behind [libghostty], processes, PTYs and
    sockets, and code the repository only calls or generates. *)

From Stdlib Require Export Lia.
From stdpp Require Export base numbers option list.
From stdpp Require Import sorting.

(** ** Panics

    A Rust computation that can panic (an index out of range, a [usize]
    subtraction below zero, a failed [debug_assert!]) is an [option]: [None] is
    the panic.  [runs m P] is total correctness: [m] does not panic and its
    result satisfies [P]. *)
Definition runs {A} (m : option A) (P : A → Prop) : Prop :=
  match m with Some a => P a | None => False end.

(** [debug_assert!(b)]. *)
Definition assert (b : bool) : option unit := if b then Some tt else None.

(** [a - b] on [usize]. *)
Definition checked_sub (a b : nat) : option nat := if b <=? a then Some (a - b) else None.

(** [&l[a..b]]. *)
Definition slice {A} (l : list A) (a b : nat) : option (list A) :=
  if (a <=? b) && (b <=? length l) then Some (take (b - a) (drop a l)) else None.

(** A [for] loop over an exact sequence of items, its body free to panic. *)
Fixpoint for_each {A S} (xs : list A) (body : A → S → option S) (st : S) : option S :=
  match xs with
  | [] => Some st
  | x :: xs => st ← body x st; for_each xs body st
  end.

(** Addition of [u64] with its overflow check. *)
Definition add_u64 (a b : N) : option N :=
  if (a + b <? 2 ^ 64)%N then Some (a + b)%N else None.

(** A loop of at most [2^n] steps that ends with a result: [inl] goes on. *)
Fixpoint loop {S R} (n : nat) (step : S → option (S + R)) (st : S) : option (S + R) :=
  match n with
  | O => step st
  | S n =>
      r ← loop n step st;
      match r with inl st => loop n step st | inr r => Some (inr r) end
  end.

Definition run_loop {S R} (n : nat) (step : S → option (S + R)) (st : S) : option R :=
  r ← loop n step st; match r with inl _ => None | inr r => Some r end.

(** [while cond(count) { count += 1 }]: [cond] may panic; running out of fuel
    is [None] as well, so a [runs] fact about it also proves termination. *)
Fixpoint count_while (fuel : nat) (cond : nat → option bool) (count : nat) : option nat :=
  match fuel with
  | O => None
  | S fuel => b ← cond count; if (b : bool) then count_while fuel cond (S count) else Some count
  end.

(** [iter.find(pred)] over an exact sequence, [pred] free to panic. *)
Fixpoint find_some {A} (xs : list A) (pred : A → option bool) : option (option A) :=
  match xs with
  | [] => Some None
  | x :: xs => b ← pred x; if (b : bool) then Some (Some x) else find_some xs pred
  end.

(** Short-circuit [&&] whose right operand may panic. *)
Definition and_then (b : bool) (m : option bool) : option bool := if b then m else Some false.

(** ** Rust's [PartialEq] *)

(** [eq]; [None] when one of its assertions fails. *)
Class PartialEq (A : Type) := eq_checked : A → A → option bool.

(** The items are equal. *)
Definition partial_eq {A} `{PartialEq A} (a b : A) : bool := default false (eq_checked a b).
Infix "≡?" := partial_eq (at level 50, no associativity) : stdpp_scope.

(** No comparison of an item of the first list with one of the second panics. *)
Class Comparable {A} `{PartialEq A} (l1 l2 : list A) : Prop :=
  comparable a b : a ∈ l1 → b ∈ l2 → is_Some (eq_checked a b).

(** No comparison at all panics. *)
Class EqTotal (A : Type) `{PartialEq A} : Prop := eq_total (a b : A) : is_Some (eq_checked a b).

#[export] Instance comparable_total {A} `{EqTotal A} (l1 l2 : list A) : Comparable l1 l2.
Proof. intros a b _ _. apply eq_total. Qed.

Lemma eq_checked_some {A} `{PartialEq A} (l1 l2 : list A) `{!Comparable l1 l2} a b :
  a ∈ l1 → b ∈ l2 → eq_checked a b = Some (a ≡? b).
Proof. intros Ha Hb. unfold partial_eq. by destruct (comparable a b Ha Hb) as [? ->]. Qed.

(** Rust's [Eq] on the items of a list: the comparison does not panic and is an
    equivalence there. *)
Record eq_on {A} `{PartialEq A} (l : list A) : Prop := {
  eq_on_total : Comparable l l;
  eq_on_refl x : x ∈ l → x ≡? x = true;
  eq_on_sym x y : x ∈ l → y ∈ l → x ≡? y = true → y ≡? x = true;
  eq_on_trans x y z :
    x ∈ l → y ∈ l → z ∈ l → x ≡? y = true → y ≡? z = true → x ≡? z = true }.

(** ** Rules for [runs] *)

Lemma runs_some {A} (m : option A) (P : A → Prop) : runs m P ↔ ∃ a, m = Some a ∧ P a.
Proof. destruct m; simpl; naive_solver. Qed.

Lemma runs_intro {A} (m : option A) (P : A → Prop) a : m = Some a → P a → runs m P.
Proof. by intros ->. Qed.

Lemma runs_bind {A B} (m : option A) (f : A → option B) (P : A → Prop) (Q : B → Prop) :
  runs m P → (∀ a, P a → runs (f a) Q) → runs (m ≫= f) Q.
Proof. destruct m; simpl; naive_solver. Qed.

Lemma runs_mono {A} (m : option A) (P Q : A → Prop) :
  runs m P → (∀ a, P a → Q a) → runs m Q.
Proof. destruct m; simpl; naive_solver. Qed.

Lemma runs_conj {A} (m : option A) (P Q : A → Prop) :
  runs m P → runs m Q → runs m (λ a, P a ∧ Q a).
Proof. destruct m; simpl; naive_solver. Qed.

Lemma runs_assert (b : bool) (P : unit → Prop) : b = true → P tt → runs (assert b) P.
Proof. by intros ->. Qed.

Lemma assert_some (b : bool) : b = true → assert b = Some tt.
Proof. by intros ->. Qed.

Lemma checked_sub_some a b : b ≤ a → checked_sub a b = Some (a - b).
Proof. intros Hle. unfold checked_sub. by rewrite (proj2 (Nat.leb_le _ _) Hle). Qed.

Lemma runs_checked_sub a b (P : nat → Prop) : b ≤ a → P (a - b) → runs (checked_sub a b) P.
Proof. intros. by rewrite checked_sub_some. Qed.

Lemma slice_some {A} (l : list A) a b :
  a ≤ b → b ≤ length l → slice l a b = Some (take (b - a) (drop a l)).
Proof.
  intros H1 H2. unfold slice.
  by rewrite (proj2 (Nat.leb_le _ _) H1), (proj2 (Nat.leb_le _ _) H2).
Qed.

Lemma runs_slice {A} (l : list A) a b (P : list A → Prop) :
  a ≤ b → b ≤ length l →
  (∀ s, s = take (b - a) (drop a l) → length s = b - a →
        (∀ i, i < b - a → s !! i = l !! (a + i)) → P s) →
  runs (slice l a b) P.
Proof.
  intros H1 H2 HP. rewrite slice_some by done. simpl. apply HP; [done| |].
  - rewrite length_take, length_drop. lia.
  - intros i Hi. by rewrite lookup_take_lt, lookup_drop by lia.
Qed.

Lemma runs_lookup {A} (l : list A) i (P : A → Prop) :
  i < length l → (∀ x, l !! i = Some x → P x) → runs (l !! i) P.
Proof. intros [x Hx]%lookup_lt_is_Some_2 HP. rewrite Hx. by apply HP. Qed.

Lemma runs_for_each {A S} (xs : list A) (body : A → S → option S)
    (Inv : list A → S → Prop) st (Q : S → Prop) :
  Inv [] st →
  (∀ done x rest st, xs = done ++ x :: rest → Inv done st →
     runs (body x st) (Inv (done ++ [x]))) →
  (∀ st, Inv xs st → Q st) →
  runs (for_each xs body st) Q.
Proof.
  intros H0 Hstep HQ.
  assert (∀ rest done st, xs = done ++ rest → Inv done st →
            runs (for_each rest body st) (Inv xs)) as Hgen.
  { induction rest as [|x rest IH]; intros done0 s Hxs Hinv; simpl.
    - rewrite app_nil_r in Hxs. by subst.
    - eapply runs_bind; [by eapply Hstep|]. intros s' Hs'. simpl in Hs'.
      apply (IH (done0 ++ [x])); [by rewrite <- app_assoc|done]. }
  eapply runs_mono; [by apply (Hgen xs [])|done].
Qed.

Lemma runs_find_some {A} (xs : list A) (pred : A → option bool) (P : A → Prop) :
  (∀ x, x ∈ xs → runs (pred x) (λ b : bool, b = true → P x)) →
  runs (find_some xs pred) (λ o, ∀ x, o = Some x → x ∈ xs ∧ P x).
Proof.
  induction xs as [|x xs IH]; intros Hpred; simpl; [done|].
  eapply runs_bind; [by apply Hpred; left|]. intros [] Hx; simpl in *.
  - intros ? [= <-]. split; [by left|auto].
  - eapply runs_mono; [apply IH; intros; apply Hpred; by right|].
    intros o Ho y Hy. destruct (Ho y Hy). split; [by right|done].
Qed.

Lemma runs_mapM {A B} (f : A → option B) (l : list A) (Q : B → Prop) :
  (∀ x, x ∈ l → runs (f x) Q) →
  runs (mapM f l) (λ l', length l' = length l ∧ Forall Q l').
Proof.
  induction l as [|x l IH]; intros Hf; simpl; [by split|].
  eapply runs_bind; [apply Hf; by left|]. intros y Hy.
  eapply runs_bind; [apply IH; intros; apply Hf; by right|]. intros l' [Hlen Hl'].
  simpl. split; [by rewrite Hlen|by constructor].
Qed.

Lemma for_each_app {A S} (xs ys : list A) (body : A → S → option S) st :
  for_each (xs ++ ys) body st = for_each xs body st ≫= for_each ys body.
Proof.
  revert st. induction xs as [|x xs IH]; intros st; simpl; [done|].
  destruct (body x st); simpl; [apply IH|done].
Qed.

Lemma add_u64_some a b : (a + b < 2 ^ 64)%N → add_u64 a b = Some (a + b)%N.
Proof. intros H. unfold add_u64. by rewrite (proj2 (N.ltb_lt _ _) H). Qed.

(** A loop ends when a measure below [2^n] falls with every step. *)
Lemma runs_loop {S R} (n : nat) (step : S → option (S + R)) (measure : S → N) (Inv : S → Prop)
    (Q : R → Prop) (st : S) :
  Inv st → (measure st < 2 ^ N.of_nat n)%N →
  (∀ st, Inv st → runs (step st) (λ r, match r with
     | inl st' => Inv st' ∧ (measure st' < measure st)%N | inr r => Q r end)) →
  runs (run_loop n step st) Q.
Proof.
  intros Hinv Hm Hstep.
  assert (∀ n st, Inv st → runs (loop n step st) (λ r, match r with
     | inl st' => Inv st' ∧ (measure st' + 2 ^ N.of_nat n ≤ measure st)%N | inr r => Q r end)) as Hgen.
  { clear st n Hinv Hm. induction n as [|n IH]; intros st Hinv; simpl.
    - eapply runs_mono; [by apply Hstep|]. intros [st'|r]; [|done].
      change (2 ^ N.of_nat 0)%N with 1%N. intros [? ?]. split; [done|lia].
    - eapply runs_bind; [by apply IH|]. intros [st'|r]; [|done]. intros [Hinv' Hle].
      eapply runs_mono; [by apply IH|]. intros [st''|r]; [|done]. intros [? ?]. split; [done|].
      change (N.of_nat (Datatypes.S n)) with (N.of_nat (1 + n)).
      rewrite Nat2N.inj_add, N.pow_add_r. lia. }
  unfold run_loop. eapply runs_bind; [by apply (Hgen n)|]. intros [st'|r]; [|done]. intros [_ ?]. lia.
Qed.

(** [count_while] stops at the first count whose condition is false. *)
Lemma runs_count_while fuel cond c (Pos : nat → Prop) lim (Q : nat → Prop) :
  c ≤ lim → lim < c + fuel →
  (∀ n, c ≤ n → n ≤ lim → (∀ k, c ≤ k → k < n → Pos k) →
     runs (cond n) (λ b : bool, if b then n < lim ∧ Pos n
                         else (∀ k, c ≤ k → k < n → Pos k) → Q n)) →
  runs (count_while fuel cond c) Q.
Proof.
  intros Hc Hfuel Hcond.
  assert (∀ f n, c ≤ n → n ≤ lim → lim < n + f → (∀ k, c ≤ k → k < n → Pos k) →
            runs (count_while f cond n) Q) as Hgen.
  { induction f as [|f IH]; intros n Hn Hlim Hf Hpos; [lia|]. simpl.
    eapply runs_bind; [by apply Hcond|]. intros [] Hb; simpl in *.
    - destruct Hb as [Hlt HPn]. apply IH; [lia..|].
      intros k Hk1 Hk2. destruct (decide (k = n)) as [->|]; [done|]. apply Hpos; lia.
    - by apply Hb. }
  apply Hgen; [lia..|]. intros k ??; lia.
Qed.

(** ** Lists *)

Lemma lookup_seq_lt' s n i : i < n → seq s n !! i = Some (s + i).
Proof. intros. by apply lookup_seq_lt. Qed.

Lemma Forall_snoc {A} (P : A → Prop) l x : Forall P l → P x → Forall P (l ++ [x]).
Proof. intros. apply Forall_app; split; [done|by constructor]. Qed.

Lemma StronglySorted_sublist {A} (R : A → A → Prop) l1 l2 :
  l1 `sublist_of` l2 → StronglySorted R l2 → StronglySorted R l1.
Proof.
  induction 1 as [|x l1 l2 Hsub IH|x l1 l2 Hsub IH]; intros Hsort; [constructor|..].
  - apply StronglySorted_cons in Hsort as [Hall Hsort]. constructor; [by apply IH|].
    rewrite Forall_forall in Hall |- *. intros y Hy. apply Hall. by eapply sublist_subseteq.
  - apply StronglySorted_cons in Hsort as [_ Hsort]. by apply IH.
Qed.

Lemma StronglySorted_NoDup {A} (R : A → A → Prop) l :
  (∀ x, ¬ R x x) → StronglySorted R l → NoDup l.
Proof.
  intros Hirr. induction 1 as [|x l Hs IH Hall]; [constructor|].
  apply NoDup_cons. split; [|done]. intros Hx. rewrite Forall_forall in Hall. by apply (Hirr x), Hall.
Qed.

(** ** Automation *)

Create HintDb paneflow.
#[export] Hint Resolve Forall_snoc : paneflow.

(** Turns every boolean comparison of the context into its proposition. *)
Ltac bool_to_prop :=
  repeat match goal with
  | H : (_ && _) = true |- _ => apply andb_prop in H; destruct H
  | H : (_ || _) = false |- _ => apply orb_false_elim in H; destruct H
  | H : (_ <=? _) = true |- _ => apply Nat.leb_le in H
  | H : (_ <=? _) = false |- _ => apply Nat.leb_gt in H
  | H : (_ <? _) = true |- _ => apply Nat.ltb_lt in H
  | H : (_ <? _) = false |- _ => apply Nat.ltb_ge in H
  | H : (_ =? _) = true |- _ => apply Nat.eqb_eq in H
  | H : (_ =? _) = false |- _ => apply Nat.eqb_neq in H
  | H : negb _ = true |- _ => apply negb_true_iff in H
  | H : negb _ = false |- _ => apply negb_false_iff in H
  end.

(** One step of a [runs] goal: a bind whose first computation is closed by [tac]. *)
Tactic Notation "step" "with" tactic3(tac) := eapply runs_bind; [tac|].

(** Runs the leading subtractions that do not underflow. *)
Ltac run_subs :=
  repeat match goal with
  | |- runs (checked_sub ?a ?b ≫= _) _ =>
      rewrite (checked_sub_some a b) by lia; cbn [mbind option_bind]
  end.
