(* ===== verification/DiffRange.v ===== *)
(** * paneflow-textdiff: ranges and edit scripts

    [Range] and its constructor ([iterable.rs]), the comparison policies
    ([lib.rs]), and the specification every comparison of the crate is proved
    against: a list of changed ranges is an edit [script] between two
    sequences when the items outside the ranges pair up one to one. *)

From S2P Require Import Prelude.

(** ** Data *)

Inductive ComparisonPolicy := Default | TrimWhitespaces | IgnoreWhitespaces.

#[export] Instance ComparisonPolicy_eq_dec : EqDecision ComparisonPolicy.
Proof. solve_decision. Defined.

Record Range := mkRange { start1 : nat; end1 : nat; start2 : nat; end2 : nat }.

#[export] Instance Range_eq_dec : EqDecision Range.
Proof. solve_decision. Defined.

Module Range.
(** [Range::new], its [debug_assert!] included. *)
Definition new (s1 e1 s2 e2 : nat) : option Range :=
  _ ← assert ((s1 <=? e1) && (s2 <=? e2)); Some (mkRange s1 e1 s2 e2).

Definition is_empty (r : Range) : bool := (start1 r =? end1 r) && (start2 r =? end2 r).
End Range.

Lemma range_new_some s1 e1 s2 e2 :
  s1 ≤ e1 → s2 ≤ e2 → Range.new s1 e1 s2 e2 = Some (mkRange s1 e1 s2 e2).
Proof.
  intros H1 H2. unfold Range.new.
  by rewrite (proj2 (Nat.leb_le _ _) H1), (proj2 (Nat.leb_le _ _) H2).
Qed.

Lemma runs_range_new s1 e1 s2 e2 (P : Range → Prop) :
  s1 ≤ e1 → s2 ≤ e2 → P (mkRange s1 e1 s2 e2) → runs (Range.new s1 e1 s2 e2) P.
Proof. intros. by rewrite range_new_some. Qed.

Lemma is_empty_true r : Range.is_empty r = true ↔ start1 r = end1 r ∧ start2 r = end2 r.
Proof. unfold Range.is_empty. rewrite andb_true_iff, !Nat.eqb_eq. done. Qed.

Lemma is_empty_false r : Range.is_empty r = false ↔ start1 r ≠ end1 r ∨ start2 r ≠ end2 r.
Proof. unfold Range.is_empty. rewrite andb_false_iff, !Nat.eqb_neq. done. Qed.

(** ** The specification: gaps, scripts and matchings

    [E i j] says that item [i] of the first sequence equals item [j] of the
    second. *)
Section script.
Context (E : nat → nat → Prop).

(** The items from [(p1,p2)] up to [(q1,q2)] pair up one to one. *)
Definition gap (p1 p2 q1 q2 : nat) : Prop :=
  p1 ≤ q1 ∧ p2 ≤ q2 ∧ q1 - p1 = q2 - p2 ∧ ∀ i, i < q1 - p1 → E (p1 + i) (p2 + i).

(** [rs] are the changed ranges from [(p1,p2)] to the ends [(l1,l2)]:
    ordered, and everything outside of them is a gap. *)
Fixpoint script (p1 p2 : nat) (rs : list Range) (l1 l2 : nat) : Prop :=
  match rs with
  | [] => gap p1 p2 l1 l2
  | r :: rs =>
      gap p1 p2 (start1 r) (start2 r) ∧ start1 r ≤ end1 r ∧ start2 r ≤ end2 r ∧
      script (end1 r) (end2 r) rs l1 l2
  end.

(** [us] are unchanged ranges from [(p1,p2)] to [(l1,l2)]: ordered, non-empty,
    each of them a gap. *)
Fixpoint matching (p1 p2 : nat) (us : list Range) (l1 l2 : nat) : Prop :=
  match us with
  | [] => p1 ≤ l1 ∧ p2 ≤ l2
  | u :: us =>
      p1 ≤ start1 u ∧ p2 ≤ start2 u ∧ start1 u < end1 u ∧
      gap (start1 u) (start2 u) (end1 u) (end2 u) ∧
      matching (end1 u) (end2 u) us l1 l2
  end.

(** Every changed range is non-empty, and between two of them at least one
    pair of items is unchanged. *)
Fixpoint separated (rs : list Range) : Prop :=
  match rs with
  | [] => True
  | r :: rs =>
      Range.is_empty r = false ∧
      match rs with [] => True | r' :: _ => end1 r < start1 r' end ∧
      separated rs
  end.
End script.

#[export] Instance gap_params : Params (@gap) 1 := {}.

Lemma gap_refl E p1 p2 : gap E p1 p2 p1 p2.
Proof. unfold gap. split_and!; lia. Qed.

Lemma gap_app E p1 p2 q1 q2 r1 r2 :
  gap E p1 p2 q1 q2 → gap E q1 q2 r1 r2 → gap E p1 p2 r1 r2.
Proof.
  intros (?&?&?&Ha) (?&?&?&Hb). unfold gap; split_and!; [lia..|]. intros i Hi.
  destruct (decide (i < q1 - p1)); [by apply Ha|].
  replace (p1 + i) with (q1 + (i - (q1 - p1))) by lia.
  replace (p2 + i) with (q2 + (i - (q1 - p1))) by lia. apply Hb. lia.
Qed.

Lemma gap_mono (E E' : nat → nat → Prop) p1 p2 q1 q2 :
  (∀ i j, p1 ≤ i → i < q1 → p2 ≤ j → j < q2 → E i j → E' i j) →
  gap E p1 p2 q1 q2 → gap E' p1 p2 q1 q2.
Proof. intros HE (?&?&?&H). unfold gap; split_and!; [done..|]. intros i Hi. apply HE; [lia..|auto]. Qed.

Lemma gap_one (E : nat → nat → Prop) i j : E i j → gap E i j (S i) (S j).
Proof.
  intros. unfold gap; split_and!; [lia..|]. intros k Hk. replace k with 0 by lia.
  by rewrite !Nat.add_0_r.
Qed.

Lemma gap_sub E p1 p2 q1 q2 a b :
  gap E p1 p2 q1 q2 → a ≤ b → b ≤ q1 - p1 → gap E (p1 + a) (p2 + a) (p1 + b) (p2 + b).
Proof.
  intros (?&?&?&H) ??. unfold gap; split_and!; [lia..|]. intros i Hi.
  replace (p1 + a + i) with (p1 + (a + i)) by lia.
  replace (p2 + a + i) with (p2 + (a + i)) by lia. apply H. lia.
Qed.

(** A gap of an inner comparison, moved to the outer coordinates. *)
Lemma gap_shift (E E' : nat → nat → Prop) s1 s2 p1 p2 q1 q2 :
  (∀ i j, i < q1 → j < q2 → E i j → E' (s1 + i) (s2 + j)) →
  gap E p1 p2 q1 q2 → gap E' (s1 + p1) (s2 + p2) (s1 + q1) (s2 + q2).
Proof.
  intros HE (?&?&?&H). unfold gap; split_and!; [lia..|]. intros i Hi.
  rewrite <-!Nat.add_assoc. apply HE; [lia..|]. apply H. lia.
Qed.

Lemma script_bounds E rs p1 p2 l1 l2 : script E p1 p2 rs l1 l2 → p1 ≤ l1 ∧ p2 ≤ l2.
Proof.
  revert p1 p2. induction rs as [|r rs IH]; intros p1 p2; simpl.
  - intros (?&?&?&?). lia.
  - intros ((?&?&?&?)&?&?&?%IH). lia.
Qed.

Lemma script_mono (E E' : nat → nat → Prop) rs p1 p2 l1 l2 :
  (∀ i j, i < l1 → j < l2 → E i j → E' i j) →
  script E p1 p2 rs l1 l2 → script E' p1 p2 rs l1 l2.
Proof.
  intros HE. revert p1 p2. induction rs as [|r rs IH]; intros p1 p2; simpl.
  - apply gap_mono. eauto.
  - intros (Hg&?&?&Hs). pose proof (script_bounds _ _ _ _ _ _ Hs).
    split_and!; [|done..|by apply IH].
    eapply gap_mono, Hg. intros i j ????. apply HE; lia.
Qed.

(** The last gap of a script can be extended by a gap. *)
Lemma script_extend E rs p1 p2 q1 q2 l1 l2 :
  script E p1 p2 rs q1 q2 → gap E q1 q2 l1 l2 → script E p1 p2 rs l1 l2.
Proof.
  intros Hs Hg. revert p1 p2 Hs. induction rs as [|r rs IH]; intros p1 p2; simpl.
  - intros. by eapply gap_app.
  - intros (?&?&?&?). auto.
Qed.

(** ... or by one more changed range followed by a gap. *)
Lemma script_snoc E rs p1 p2 q1 q2 r l1 l2 :
  script E p1 p2 rs q1 q2 → gap E q1 q2 (start1 r) (start2 r) →
  start1 r ≤ end1 r → start2 r ≤ end2 r → gap E (end1 r) (end2 r) l1 l2 →
  script E p1 p2 (rs ++ [r]) l1 l2.
Proof.
  intros Hs Hg ? ? ?. revert p1 p2 Hs. induction rs as [|x rs IH]; intros p1 p2; simpl.
  - intros. split_and!; [by eapply gap_app|done..].
  - intros (?&?&?&?). auto.
Qed.

Lemma script_app E rs rs' p1 p2 q1 q2 l1 l2 :
  script E p1 p2 rs q1 q2 → script E q1 q2 rs' l1 l2 → script E p1 p2 (rs ++ rs') l1 l2.
Proof.
  revert q1 q2 rs. induction rs' as [|r rs' IH]; intros q1 q2 rs Hs Hs'.
  - rewrite app_nil_r. by eapply script_extend.
  - destruct Hs' as (?&?&?&?). replace (rs ++ r :: rs') with ((rs ++ [r]) ++ rs') by by rewrite <- app_assoc.
    eapply IH; [|done]. eapply script_snoc; eauto using gap_refl.
Qed.

Lemma script_shift (E E' : nat → nat → Prop) s1 s2 rs p1 p2 l1 l2 :
  (∀ i j, i < l1 → j < l2 → E i j → E' (s1 + i) (s2 + j)) →
  script E p1 p2 rs l1 l2 →
  script E' (s1 + p1) (s2 + p2)
    ((λ r, mkRange (s1 + start1 r) (s1 + end1 r) (s2 + start2 r) (s2 + end2 r)) <$> rs)
    (s1 + l1) (s2 + l2).
Proof.
  intros HE. revert p1 p2. induction rs as [|r rs IH]; intros p1 p2; simpl.
  - by apply gap_shift.
  - intros (Hg&?&?&Hs). pose proof (script_bounds _ _ _ _ _ _ Hs).
    split_and!; [|lia|lia|by apply IH].
    eapply gap_shift, Hg. intros i j ???. apply HE; [lia..|done].
Qed.

Lemma matching_bounds E us p1 p2 l1 l2 : matching E p1 p2 us l1 l2 → p1 ≤ l1 ∧ p2 ≤ l2.
Proof.
  revert p1 p2. induction us as [|u us IH]; intros p1 p2; simpl; [done|].
  intros (?&?&?&(?&?&?&?)&?%IH). lia.
Qed.

Lemma matching_mono (E E' : nat → nat → Prop) us p1 p2 l1 l2 :
  (∀ i j, i < l1 → j < l2 → E i j → E' i j) →
  matching E p1 p2 us l1 l2 → matching E' p1 p2 us l1 l2.
Proof.
  intros HE. revert p1 p2. induction us as [|u us IH]; intros p1 p2; simpl; [done|].
  intros (?&?&?&Hg&Hs). pose proof (matching_bounds _ _ _ _ _ _ Hs).
  split_and!; [done..| |by apply IH].
  eapply gap_mono, Hg. intros i j ????. apply HE; lia.
Qed.

(** The starting point of a matching only bounds its first range. *)
Lemma matching_start E us p1 p2 q1 q2 l1 l2 :
  matching E p1 p2 us l1 l2 → q1 ≤ p1 → q2 ≤ p2 → matching E q1 q2 us l1 l2.
Proof. destruct us; simpl; [lia|]. intros (?&?&?&?&?) ??. split_and!; try done; lia. Qed.

(** ... and its end point the last one. *)
Lemma matching_end E us p1 p2 l1 l2 m1 m2 :
  matching E p1 p2 us l1 l2 → l1 ≤ m1 → l2 ≤ m2 → matching E p1 p2 us m1 m2.
Proof.
  revert p1 p2. induction us as [|u us IH]; intros p1 p2; simpl; [lia|]. naive_solver.
Qed.

Lemma matching_snoc E us p1 p2 q1 q2 l1 l2 u :
  matching E p1 p2 us q1 q2 → q1 ≤ start1 u → q2 ≤ start2 u → start1 u < end1 u →
  gap E (start1 u) (start2 u) (end1 u) (end2 u) → end1 u ≤ l1 → end2 u ≤ l2 →
  matching E p1 p2 (us ++ [u]) l1 l2.
Proof.
  intros Hm ??????. revert p1 p2 Hm. induction us as [|x us IH]; intros p1 p2; simpl.
  - intros. split_and!; try done; lia.
  - intros (?&?&?&?&?). split_and!; auto.
Qed.

Lemma matching_app_inv E us us' p1 p2 l1 l2 :
  matching E p1 p2 (us ++ us') l1 l2 →
  ∃ q1 q2, matching E p1 p2 us q1 q2 ∧ matching E q1 q2 us' l1 l2.
Proof.
  revert p1 p2. induction us as [|u us IH]; intros p1 p2; simpl.
  - intros. exists p1, p2. naive_solver.
  - intros (?&?&?&?&(q1&q2&?&?)%IH). exists q1, q2. naive_solver.
Qed.

(** ** Edit scripts as patches *)

(** The first sequence with every changed range replaced by the range of the
    second: what applying the diff produces. *)
Fixpoint patch {A} (p1 : nat) (items1 items2 : list A) (rs : list Range) : list A :=
  match rs with
  | [] => drop p1 items1
  | r :: rs =>
      take (start1 r - p1) (drop p1 items1) ++
      take (end2 r - start2 r) (drop (start2 r) items2) ++
      patch (end1 r) items1 items2 rs
  end.

Lemma take_drop_app {A} (l : list A) a b : a ≤ b → take (b - a) (drop a l) ++ drop b l = drop a l.
Proof.
  intros. rewrite <- (take_drop (b - a) (drop a l)) at 2. rewrite drop_drop.
  by replace (a + (b - a)) with b by lia.
Qed.

Lemma gap_slices {A} (items1 items2 : list A) p1 p2 q1 q2 :
  gap (λ i j, ∃ x, items1 !! i = Some x ∧ items2 !! j = Some x) p1 p2 q1 q2 →
  take (q1 - p1) (drop p1 items1) = take (q2 - p2) (drop p2 items2).
Proof.
  intros (?&?&Heq&H). apply list_eq. intros i.
  destruct (decide (i < q1 - p1)).
  - rewrite !lookup_take_lt, !lookup_drop by lia. destruct (H i) as (x&->&->); [lia|done].
  - rewrite !lookup_take_ge by lia. done.
Qed.

(** A script whose gaps are equal items turns the first sequence into the second. *)
Lemma patch_script {A} (items1 items2 : list A) rs p1 p2 :
  script (λ i j, ∃ x, items1 !! i = Some x ∧ items2 !! j = Some x)
    p1 p2 rs (length items1) (length items2) →
  patch p1 items1 items2 rs = drop p2 items2.
Proof.
  revert p1 p2. induction rs as [|r rs IH]; intros p1 p2; simpl.
  - intros Hg%gap_slices. by rewrite !take_ge in Hg by (rewrite length_drop; lia).
  - intros (Hg&?&?&Hs). rewrite (IH _ _ Hs), (gap_slices _ _ _ _ _ _ Hg).
    destruct Hg as (?&?&?&?). by rewrite !take_drop_app by lia.
Qed.
