(* ===== verification/DiffText.v ===== *)
(** * paneflow-textdiff: characters, texts and item comparison ([text.rs])

    A [&str] is the list of its scalar values; [bytes] is its UTF-8 encoding.
    Bytes, scalar values and the 64-bit hash are [N].  Loops over two cursors
    are [count_while] loops, so that a [runs] theorem about them covers the
    indexing and the termination of the Rust loop. *)

From S2P Require Import Prelude DiffRange.

Notation str := (list N).

(** ** UTF-8 (the standard library's encoding of a [char]) *)

Definition utf8 (c : N) : list N :=
  (if c <? 0x80 then [c]
   else if c <? 0x800 then [0xC0 + c / 64; 0x80 + c mod 64]
   else if c <? 0x10000 then [0xE0 + c / 4096; 0x80 + (c / 64) mod 64; 0x80 + c mod 64]
   else [0xF0 + c / 262144; 0x80 + (c / 4096) mod 64; 0x80 + (c / 64) mod 64;
         0x80 + c mod 64])%N.

Definition bytes (text : str) : list N := mjoin (utf8 <$> text).

(** ** Character classes *)

Definition UNIMPORTANT_LINE_CHAR_COUNT : nat := 3.

(** [matches!(byte, b' ' | b'\t' | b'\n' | b'\r')] *)
Definition is_whitespace_byte (byte : N) : bool :=
  ((byte =? 32) || (byte =? 9) || (byte =? 10) || (byte =? 13))%N.

Definition is_whitespace (c : N) : bool :=
  ((c =? 32) || (c =? 9) || (c =? 10) || (c =? 13))%N.

Definition is_punctuation_byte (byte : N) : bool :=
  if (byte =? 95)%N then false
  else ((33 <=? byte) && (byte <=? 47) || (58 <=? byte) && (byte <=? 64)
        || (91 <=? byte) && (byte <=? 96) || (123 <=? byte) && (byte <=? 126))%N.

Definition is_punctuation (c : N) : bool := (c <? 128)%N && is_punctuation_byte c.

Definition is_alpha (c : N) : bool := negb (is_whitespace c) && negb (is_punctuation c).

(** [slice::binary_search] on a sorted slice: the index of the element, or the
    index where it would be inserted. *)
Definition insertion_point (starts : list N) (code : N) : nat :=
  length (filter (λ s, (s < code)%N) starts).

Definition binary_search (starts : list N) (code : N) : nat + nat :=
  let i := insertion_point starts code in
  match starts !! i with
  | Some s => if (s =? code)%N then inl i else inr i
  | None => inr i
  end.

Definition in_ranges (code : N) (starts ends : list N) : option bool :=
  match binary_search starts code with
  | inl _ => Some true
  | inr O => Some false
  | inr (S insertion) => e ← ends !! insertion; Some (code <=? e)%N
  end.

Definition IDEOGRAPHIC_STARTS : list N :=
  [0x3006; 0x3007; 0x3021; 0x3038; 0x3400; 0x4e00; 0xf900; 0xfa70; 0x16fe4; 0x17000; 0x18800;
   0x18cff; 0x1b170; 0x20000; 0x2a700; 0x2b740; 0x2b820; 0x2ceb0; 0x2ebf0; 0x2f800; 0x30000;
   0x31350]%N.

Definition IDEOGRAPHIC_ENDS : list N :=
  [0x3006; 0x3007; 0x3029; 0x303a; 0x4dbf; 0x9fff; 0xfa6d; 0xfad9; 0x16fe4; 0x187f7; 0x18cd5;
   0x18d08; 0x1b2fb; 0x2a6df; 0x2b739; 0x2b81d; 0x2cea1; 0x2ebe0; 0x2ee5d; 0x2fa1d; 0x3134a;
   0x323af]%N.

Definition HIRAGANA_STARTS : list N :=
  [0x3041; 0x309d; 0x309f; 0x1b001; 0x1b132; 0x1b150; 0x1f200]%N.

Definition HIRAGANA_ENDS : list N :=
  [0x3096; 0x309e; 0x309f; 0x1b11f; 0x1b132; 0x1b152; 0x1f200]%N.

Definition KATAKANA_STARTS : list N :=
  [0x30a1; 0x30fd; 0x30ff; 0x31f0; 0x32d0; 0x3300; 0xff66; 0xff71; 0x1aff0; 0x1aff5; 0x1affd;
   0x1b000; 0x1b120; 0x1b155; 0x1b164]%N.

Definition KATAKANA_ENDS : list N :=
  [0x30fa; 0x30fe; 0x30ff; 0x31ff; 0x32fe; 0x3357; 0xff6f; 0xff9d; 0x1aff3; 0x1affb; 0x1affe;
   0x1b000; 0x1b122; 0x1b155; 0x1b167]%N.

Definition THAI_STARTS : list N :=
  [0xe01; 0xe31; 0xe32; 0xe34; 0xe40; 0xe46; 0xe47; 0xe4f; 0xe50; 0xe5a]%N.

Definition THAI_ENDS : list N :=
  [0xe30; 0xe31; 0xe33; 0xe3a; 0xe45; 0xe46; 0xe4e; 0xe4f; 0xe59; 0xe5b]%N.

Definition JAVANESE_STARTS : list N :=
  [0xa980; 0xa983; 0xa984; 0xa9b3; 0xa9b4; 0xa9b6; 0xa9ba; 0xa9bc; 0xa9be; 0xa9c1; 0xa9d0;
   0xa9de]%N.

Definition JAVANESE_ENDS : list N :=
  [0xa982; 0xa983; 0xa9b2; 0xa9b3; 0xa9b5; 0xa9b9; 0xa9bb; 0xa9bd; 0xa9c0; 0xa9cd; 0xa9d9;
   0xa9df]%N.

Definition DECIMAL_DIGIT_STARTS : list N :=
  [0x30; 0x660; 0x6f0; 0x7c0; 0x966; 0x9e6; 0xa66; 0xae6; 0xb66; 0xbe6; 0xc66; 0xce6; 0xd66;
   0xde6; 0xe50; 0xed0; 0xf20; 0x1040; 0x1090; 0x17e0; 0x1810; 0x1946; 0x19d0; 0x1a80;
   0x1a90; 0x1b50; 0x1bb0; 0x1c40; 0x1c50; 0xa620; 0xa8d0; 0xa900; 0xa9d0; 0xa9f0; 0xaa50;
   0xabf0; 0xff10; 0x104a0; 0x10d30; 0x10d40; 0x11066; 0x110f0; 0x11136; 0x111d0; 0x112f0;
   0x11450; 0x114d0; 0x11650; 0x116c0; 0x116d0; 0x11730; 0x118e0; 0x11950; 0x11bf0; 0x11c50;
   0x11d50; 0x11da0; 0x11f50; 0x16130; 0x16a60; 0x16ac0; 0x16b50; 0x16d70; 0x1ccf0; 0x1d7ce;
   0x1e140; 0x1e2f0; 0x1e4f0; 0x1e5f1; 0x1e950]%N.

Definition DECIMAL_DIGIT_ENDS : list N :=
  [0x39; 0x669; 0x6f9; 0x7c9; 0x96f; 0x9ef; 0xa6f; 0xaef; 0xb6f; 0xbef; 0xc6f; 0xcef; 0xd6f;
   0xdef; 0xe59; 0xed9; 0xf29; 0x1049; 0x1099; 0x17e9; 0x1819; 0x194f; 0x19d9; 0x1a89;
   0x1a99; 0x1b59; 0x1bb9; 0x1c49; 0x1c59; 0xa629; 0xa8d9; 0xa909; 0xa9d9; 0xa9f9; 0xaa59;
   0xabf9; 0xff19; 0x104a9; 0x10d39; 0x10d49; 0x1106f; 0x110f9; 0x1113f; 0x111d9; 0x112f9;
   0x11459; 0x114d9; 0x11659; 0x116c9; 0x116e3; 0x11739; 0x118e9; 0x11959; 0x11bf9; 0x11c59;
   0x11d59; 0x11da9; 0x11f59; 0x16139; 0x16a69; 0x16ac9; 0x16b59; 0x16d79; 0x1ccf9; 0x1d7ff;
   0x1e149; 0x1e2f9; 0x1e4f9; 0x1e5fa; 0x1e959]%N.

(** [is_continuous_script]: [is_alphabetic] is the Unicode table behind
    [char::is_alphabetic]. *)
Definition is_continuous_script (is_alphabetic : N → bool) (code : N) : option bool :=
  if (code <? 128)%N then Some false
  else
    digit ← in_ranges code DECIMAL_DIGIT_STARTS DECIMAL_DIGIT_ENDS;
    if (digit : bool) then Some false
    else if (0xFFFF <? code)%N then Some true
    else
      ideographic ← in_ranges code IDEOGRAPHIC_STARTS IDEOGRAPHIC_ENDS;
      if (ideographic : bool) then Some true
      else if negb (is_alphabetic code) then Some true
      else
        h ← in_ranges code HIRAGANA_STARTS HIRAGANA_ENDS;
        if (h : bool) then Some true
        else
          k ← in_ranges code KATAKANA_STARTS KATAKANA_ENDS;
          if (k : bool) then Some true
          else
            t ← in_ranges code THAI_STARTS THAI_ENDS;
            if (t : bool) then Some true
            else in_ranges code JAVANESE_STARTS JAVANESE_ENDS.

(** ** Line equality under a policy *)

(** [text.split('\n')] *)
Fixpoint split_newline (text : str) : list str :=
  match text with
  | [] => [[]]
  | c :: text =>
      match split_newline text with
      | line :: rest => if (c =? 10)%N then [] :: line :: rest else (c :: line) :: rest
      | [] => [[c]]
      end
  end.

Fixpoint trim_leading (line : str) : str :=
  match line with
  | [] => []
  | c :: rest => if is_whitespace c then trim_leading rest else line
  end.

(** [line.trim_matches(is_whitespace)] *)
Definition trim_line (line : str) : str :=
  reverse (trim_leading (reverse (trim_leading line))).

(** The loop of [equals_trim_whitespaces], over the two line iterators. *)
Fixpoint equals_trimmed_lines (lines1 lines2 : list str) : bool :=
  match lines1, lines2 with
  | line1 :: lines1, line2 :: lines2 =>
      if bool_decide (trim_line line1 ≠ trim_line line2) then false
      else equals_trimmed_lines lines1 lines2
  | [], [] => true
  | _, _ => false
  end.

Definition equals_trim_whitespaces (text1 text2 : str) : bool :=
  equals_trimmed_lines (split_newline text1) (split_newline text2).

(** The loop of [equals_ignore_whitespaces], over the two byte iterators. *)
Fixpoint equals_bytes (bytes1 bytes2 : list N) : bool :=
  match bytes1, bytes2 with
  | a :: bytes1, b :: bytes2 => if negb (a =? b)%N then false else equals_bytes bytes1 bytes2
  | [], [] => true
  | _, _ => false
  end.

Definition non_space_bytes (text : str) : list N :=
  filter (λ byte, is_whitespace_byte byte = false) (bytes text).

Definition equals_ignore_whitespaces (text1 text2 : str) : bool :=
  equals_bytes (non_space_bytes text1) (non_space_bytes text2).

Definition is_equals (text1 text2 : str) (policy : ComparisonPolicy) : bool :=
  match policy with
  | Default => bool_decide (text1 = text2)
  | TrimWhitespaces => equals_trim_whitespaces text1 text2
  | IgnoreWhitespaces => equals_ignore_whitespaces text1 text2
  end.

(** ** The 64-bit FNV-1a hash *)

Definition feed (state byte : N) : N :=
  (N.lxor state byte * 0x100000001b3 mod 2 ^ 64)%N.

Definition hash (text : str) (policy : ComparisonPolicy) : N :=
  let state := 0xcbf29ce484222325%N in
  match policy with
  | Default => foldl feed state (bytes text)
  | TrimWhitespaces => foldl feed state (bytes (trim_line text))
  | IgnoreWhitespaces => foldl feed state (non_space_bytes text)
  end.

Definition count_non_space_chars (text : str) : nat :=
  length (filter (λ c, is_whitespace c = false) text).

(** ** Cursor loops

    The subtractions of the backward loops are guarded by the bounds test that
    precedes them, so they are written on [nat] directly. *)

Definition trim_start (bytes : list N) (start end_ : nat) : option nat :=
  n ← count_while (S (end_ - start))
        (λ k, and_then (start + k <? end_)
                (b ← bytes !! (start + k); Some (is_whitespace_byte b))) 0;
  Some (start + n).

Definition trim_end (bytes : list N) (start end_ : nat) : option nat :=
  n ← count_while (S (end_ - start))
        (λ k, and_then (start <? end_ - k)
                (b ← bytes !! (end_ - k - 1); Some (is_whitespace_byte b))) 0;
  Some (end_ - n).

Definition trim_range (bytes1 bytes2 : list N) (range : Range) : option Range :=
  s1 ← trim_start bytes1 (start1 range) (end1 range);
  e1 ← trim_end bytes1 s1 (end1 range);
  s2 ← trim_start bytes2 (start2 range) (end2 range);
  e2 ← trim_end bytes2 s2 (end2 range);
  Range.new s1 e1 s2 e2.

Definition expand_whitespaces_forward (bytes1 bytes2 : list N) (s1 s2 e1 e2 : nat) : option nat :=
  count_while (S (e1 - s1))
    (λ count, and_then ((s1 + count <? e1) && (s2 + count <? e2))
       (a ← bytes1 !! (s1 + count); b ← bytes2 !! (s2 + count);
        Some ((a =? b)%N && is_whitespace_byte a))) 0.

Definition expand_whitespaces_backward (bytes1 bytes2 : list N) (s1 s2 e1 e2 : nat) : option nat :=
  count_while (S (e1 - s1))
    (λ count, and_then ((s1 + count <? e1) && (s2 + count <? e2))
       (a ← bytes1 !! (e1 - count - 1); b ← bytes2 !! (e2 - count - 1);
        Some ((a =? b)%N && is_whitespace_byte a))) 0.

Definition expand_whitespaces (bytes1 bytes2 : list N) (range : Range) : option Range :=
  forward ← expand_whitespaces_forward bytes1 bytes2
              (start1 range) (start2 range) (end1 range) (end2 range);
  let s1 := start1 range + forward in
  let s2 := start2 range + forward in
  backward ← expand_whitespaces_backward bytes1 bytes2 s1 s2 (end1 range) (end2 range);
  Range.new s1 (end1 range - backward) s2 (end2 range - backward).

Section expand.
Context {T : Type} `{PartialEq T}.

Definition expand_forward (items1 items2 : list T) (s1 s2 e1 e2 : nat) : option nat :=
  count_while (S (e1 - s1))
    (λ count, and_then ((s1 + count <? e1) && (s2 + count <? e2))
       (a ← items1 !! (s1 + count); b ← items2 !! (s2 + count); eq_checked a b)) 0.

Definition expand_backward (items1 items2 : list T) (s1 s2 e1 e2 : nat) : option nat :=
  count_while (S (e1 - s1))
    (λ count, and_then ((s1 + count <? e1) && (s2 + count <? e2))
       (a ← items1 !! (e1 - count - 1); b ← items2 !! (e2 - count - 1); eq_checked a b)) 0.

Definition expand (items1 items2 : list T) (s1 s2 e1 e2 : nat) : option Range :=
  forward ← expand_forward items1 items2 s1 s2 e1 e2;
  let s1 := s1 + forward in
  let s2 := s2 + forward in
  backward ← expand_backward items1 items2 s1 s2 e1 e2;
  Range.new s1 (e1 - backward) s2 (e2 - backward).
End expand.

(** ** Specifications of the cursor loops *)

(** Item [i] of the first sequence equals item [j] of the second. *)
Definition item_eq {T} `{PartialEq T} (items1 items2 : list T) (i j : nat) : Prop :=
  ∃ a b, items1 !! i = Some a ∧ items2 !! j = Some b ∧ a ≡? b = true.

Section expand_spec.
Context {T : Type} `{PartialEq T} (items1 items2 : list T) `{!Comparable items1 items2}.

Lemma expand_forward_spec s1 s2 e1 e2 :
  e1 ≤ length items1 → e2 ≤ length items2 → s1 ≤ e1 → s2 ≤ e2 →
  runs (expand_forward items1 items2 s1 s2 e1 e2) (λ n,
    s1 + n ≤ e1 ∧ s2 + n ≤ e2 ∧ (∀ k, k < n → item_eq items1 items2 (s1 + k) (s2 + k)) ∧
    (s1 + n < e1 → s2 + n < e2 → ¬ item_eq items1 items2 (s1 + n) (s2 + n))).
Proof.
  intros ????. unfold expand_forward.
  apply (runs_count_while _ _ _
           (λ k, s2 + k < e2 ∧ item_eq items1 items2 (s1 + k) (s2 + k)) (e1 - s1)); [lia..|].
  intros n _ Hn Hpos.
  assert (s2 + n ≤ e2) by (destruct n as [|m]; [lia|destruct (Hpos m); lia]).
  unfold and_then. destruct ((s1 + n <? e1) && (s2 + n <? e2)) eqn:Hb; bool_to_prop.
  - eapply runs_bind; [apply runs_lookup; [lia|]; intros a Ha; exact Ha|].
    intros a Ha. simpl in Ha.
    eapply runs_bind; [apply runs_lookup; [lia|]; intros b Hb'; exact Hb'|].
    intros b Hb'. simpl in Hb'.
    rewrite (eq_checked_some items1 items2) by (by eapply list_elem_of_lookup_2).
    simpl. destruct (a ≡? b) eqn:Hab.
    + split; [lia|]. split; [lia|]. by exists a, b.
    + intros Hall. split_and!; [lia..|naive_solver lia|].
      intros _ _ (a'&b'&?&?&?). simplify_eq. congruence.
  - simpl. intros Hall. split_and!; [lia..|naive_solver lia|].
    intros ??. apply andb_false_iff in Hb as [Hb|Hb]; bool_to_prop; lia.
Qed.

Lemma expand_backward_spec s1 s2 e1 e2 :
  e1 ≤ length items1 → e2 ≤ length items2 → s1 ≤ e1 → s2 ≤ e2 →
  runs (expand_backward items1 items2 s1 s2 e1 e2) (λ n,
    s1 + n ≤ e1 ∧ s2 + n ≤ e2 ∧
    (∀ k, k < n → item_eq items1 items2 (e1 - k - 1) (e2 - k - 1)) ∧
    (s1 + n < e1 → s2 + n < e2 → ¬ item_eq items1 items2 (e1 - n - 1) (e2 - n - 1))).
Proof.
  intros ????. unfold expand_backward.
  apply (runs_count_while _ _ _
           (λ k, s2 + k < e2 ∧ item_eq items1 items2 (e1 - k - 1) (e2 - k - 1)) (e1 - s1));
    [lia..|].
  intros n _ Hn Hpos.
  assert (s2 + n ≤ e2) by (destruct n as [|m]; [lia|destruct (Hpos m); lia]).
  unfold and_then. destruct ((s1 + n <? e1) && (s2 + n <? e2)) eqn:Hb; bool_to_prop.
  - eapply runs_bind; [apply runs_lookup; [lia|]; intros a Ha; exact Ha|].
    intros a Ha. simpl in Ha.
    eapply runs_bind; [apply runs_lookup; [lia|]; intros b Hb'; exact Hb'|].
    intros b Hb'. simpl in Hb'.
    rewrite (eq_checked_some items1 items2) by (by eapply list_elem_of_lookup_2).
    simpl. destruct (a ≡? b) eqn:Hab.
    + split; [lia|]. split; [lia|]. by exists a, b.
    + intros Hall. split_and!; [lia..|naive_solver lia|].
      intros _ _ (a'&b'&?&?&?). simplify_eq. congruence.
  - simpl. intros Hall. split_and!; [lia..|naive_solver lia|].
    intros ??. apply andb_false_iff in Hb as [Hb|Hb]; bool_to_prop; lia.
Qed.

(** The two items at a corner of a range, when both sides have one, differ. *)
Definition trimmed (r : Range) : Prop :=
  start1 r < end1 r → start2 r < end2 r →
  ¬ item_eq items1 items2 (start1 r) (start2 r) ∧
  ¬ item_eq items1 items2 (end1 r - 1) (end2 r - 1).

Lemma expand_spec s1 s2 e1 e2 :
  e1 ≤ length items1 → e2 ≤ length items2 → s1 ≤ e1 → s2 ≤ e2 →
  runs (expand items1 items2 s1 s2 e1 e2) (λ r,
    gap (item_eq items1 items2) s1 s2 (start1 r) (start2 r) ∧
    start1 r ≤ end1 r ∧ start2 r ≤ end2 r ∧
    gap (item_eq items1 items2) (end1 r) (end2 r) e1 e2 ∧ trimmed r).
Proof.
  intros ????. unfold expand.
  eapply runs_bind; [by apply expand_forward_spec|]. intros f (?&?&Hf&Hmax); simpl.
  eapply runs_bind; [by apply expand_backward_spec|]. intros b (?&?&Hb&Hmaxb).
  apply runs_range_new; simpl; [lia..|]. split_and!.
  - unfold gap. split_and!; [lia..|]. intros i Hi. apply Hf. lia.
  - lia.
  - lia.
  - unfold gap. split_and!; [lia..|]. intros i Hi.
    replace (e1 - b + i) with (e1 - (b - i - 1) - 1) by lia.
    replace (e2 - b + i) with (e2 - (b - i - 1) - 1) by lia. apply Hb. lia.
  - intros ??; simpl in *. split; [apply Hmax; lia|apply Hmaxb; lia].
Qed.
End expand_spec.

(** The whitespace loops are the generic loops at the comparison [equal and blank]. *)
Definition blank_eq : PartialEq N := λ a b, Some ((a =? b)%N && is_whitespace_byte a).

Lemma blank_comparable l1 l2 : @Comparable N blank_eq l1 l2.
Proof. intros a b _ _. by eexists. Qed.

Lemma expand_whitespaces_is_expand (bytes1 bytes2 : list N) r :
  expand_whitespaces bytes1 bytes2 r =
  @expand N blank_eq bytes1 bytes2 (start1 r) (start2 r) (end1 r) (end2 r).
Proof. reflexivity. Qed.

(** ** Equality under a policy *)

Lemma equals_bytes_spec l1 l2 : equals_bytes l1 l2 = true ↔ l1 = l2.
Proof.
  revert l2. induction l1 as [|a l1 IH]; intros [|b l2]; simpl; try done.
  destruct (N.eqb_spec a b) as [->|]; simpl; [|naive_solver].
  rewrite IH. naive_solver.
Qed.

Lemma equals_trimmed_lines_spec l1 l2 :
  equals_trimmed_lines l1 l2 = true ↔ trim_line <$> l1 = trim_line <$> l2.
Proof.
  revert l2. induction l1 as [|a l1 IH]; intros [|b l2]; csimpl; try done.
  case_bool_decide as Hab; csimpl.
  - split; [done|]. intros [=]. done.
  - rewrite IH, Hab. split; [by intros ->|by intros [=]].
Qed.

(** What a line is compared by under a policy. *)
Definition line_key (policy : ComparisonPolicy) (text : str) : list (list N) :=
  match policy with
  | Default => [text]
  | TrimWhitespaces => trim_line <$> split_newline text
  | IgnoreWhitespaces => [non_space_bytes text]
  end.

Lemma is_equals_spec t1 t2 policy :
  is_equals t1 t2 policy = true ↔ line_key policy t1 = line_key policy t2.
Proof.
  destruct policy; simpl.
  - rewrite bool_decide_eq_true. split; [by intros ->|by intros [= ->]].
  - apply equals_trimmed_lines_spec.
  - unfold equals_ignore_whitespaces. rewrite equals_bytes_spec.
    split; [by intros ->|by intros [=]].
Qed.

Lemma is_equals_refl t policy : is_equals t t policy = true.
Proof. by apply is_equals_spec. Qed.

Lemma is_equals_sym t1 t2 policy : is_equals t1 t2 policy = true → is_equals t2 t1 policy = true.
Proof. rewrite !is_equals_spec. done. Qed.

Lemma is_equals_trans t1 t2 t3 policy :
  is_equals t1 t2 policy = true → is_equals t2 t3 policy = true → is_equals t1 t3 policy = true.
Proof. rewrite !is_equals_spec. congruence. Qed.
#[export] Hint Resolve is_equals_refl is_equals_sym is_equals_trans : paneflow.

Lemma whitespace_utf8 c : is_whitespace c = true → utf8 c = [c] ∧ is_whitespace_byte c = true.
Proof.
  unfold is_whitespace, utf8. intros Hw. split; [|done].
  rewrite !orb_true_iff, !N.eqb_eq in Hw. destruct (N.ltb_spec c 0x80); [done|lia].
Qed.

Lemma non_space_bytes_app t1 t2 :
  non_space_bytes (t1 ++ t2) = non_space_bytes t1 ++ non_space_bytes t2.
Proof. unfold non_space_bytes, bytes. by rewrite fmap_app, join_app, filter_app. Qed.

Lemma non_space_bytes_cons c t :
  non_space_bytes (c :: t) = non_space_bytes [c] ++ non_space_bytes t.
Proof. apply (non_space_bytes_app [c] t). Qed.

Lemma non_space_bytes_ws c : is_whitespace c = true → non_space_bytes [c] = [].
Proof.
  intros [Hu Hb]%whitespace_utf8. unfold non_space_bytes, bytes. simpl. rewrite Hu. simpl.
  rewrite filter_cons_False; [done|congruence].
Qed.

Lemma non_space_bytes_trim_leading t : non_space_bytes (trim_leading t) = non_space_bytes t.
Proof.
  induction t as [|c t IH]; simpl; [done|]. destruct (is_whitespace c) eqn:Hc; [|done].
  by rewrite IH, non_space_bytes_cons, (non_space_bytes_ws c Hc).
Qed.

Lemma trim_leading_suffix t : ∃ p, t = p ++ trim_leading t ∧ Forall (λ c, is_whitespace c = true) p.
Proof.
  induction t as [|c t (p&Hp&Hall)]; simpl; [by exists []|].
  destruct (is_whitespace c) eqn:Hc; [|by exists []].
  exists (c :: p). simpl. split; [by f_equal|by constructor].
Qed.

Lemma non_space_bytes_all_ws t : Forall (λ c, is_whitespace c = true) t → non_space_bytes t = [].
Proof.
  induction 1 as [|c t Hc _ IH]; [done|].
  by rewrite non_space_bytes_cons, (non_space_bytes_ws c Hc), IH.
Qed.

Lemma non_space_bytes_trim_line t : non_space_bytes (trim_line t) = non_space_bytes t.
Proof.
  unfold trim_line. destruct (trim_leading_suffix (reverse (trim_leading t))) as (p&Hp&Hall).
  rewrite <- (non_space_bytes_trim_leading t).
  apply (f_equal reverse) in Hp. rewrite reverse_involutive, reverse_app in Hp.
  rewrite Hp at 2. rewrite non_space_bytes_app.
  rewrite (non_space_bytes_all_ws (reverse p)); [by rewrite app_nil_r|].
  by apply Forall_reverse.
Qed.

Lemma non_space_bytes_split t : non_space_bytes t = mjoin (non_space_bytes <$> split_newline t).
Proof.
  induction t as [|c t IH]; [done|].
  rewrite non_space_bytes_cons, IH. simpl.
  destruct (split_newline t) as [|line rest]; simpl.
  - by rewrite !app_nil_r.
  - destruct (N.eqb_spec c 10) as [->|]; simpl.
    + done.
    + by rewrite (non_space_bytes_cons c line), <- app_assoc.
Qed.

(** Every policy refines [IgnoreWhitespaces]. *)
Lemma is_equals_iw t1 t2 policy :
  is_equals t1 t2 policy = true → is_equals t1 t2 IgnoreWhitespaces = true.
Proof.
  rewrite !is_equals_spec. destruct policy; simpl.
  - by intros [= ->].
  - intros Heq. f_equal. rewrite !non_space_bytes_split.
    assert (∀ ls : list str, non_space_bytes <$> ls = non_space_bytes <$> (trim_line <$> ls)) as Ht.
    { intros ls. rewrite <- list_fmap_compose. apply list_fmap_ext. intros ? l ?. simpl.
      by rewrite non_space_bytes_trim_line. }
    by rewrite (Ht (split_newline t1)), (Ht (split_newline t2)), Heq.
  - done.
Qed.

(** ** The hash is consistent with the equality of the policy *)

Lemma split_newline_none t : 10%N ∉ t → split_newline t = [t].
Proof.
  induction t as [|c t IH]; [done|]. intros [Hc Ht]%not_elem_of_cons. simpl.
  rewrite IH by done. destruct (N.eqb_spec c 10); [congruence|done].
Qed.

Lemma hash_is_equals t1 t2 policy :
  (policy = TrimWhitespaces → 10%N ∉ t1 ∧ 10%N ∉ t2) →
  is_equals t1 t2 policy = true → hash t1 policy = hash t2 policy.
Proof.
  rewrite is_equals_spec. destruct policy; simpl; intros Hnl.
  - by intros [= ->].
  - destruct Hnl as [H1 H2]; [done|]. rewrite !split_newline_none by done. csimpl.
    by intros [= ->].
  - by intros [= ->].
Qed.

(** ** The range tables *)

(** Every entry is a non-empty interval and ends before the next one starts. *)
Fixpoint table_ok (starts ends : list N) : bool :=
  match starts, ends with
  | [], [] => true
  | s :: starts, e :: ends =>
      (s <=? e)%N && match starts with s' :: _ => (e <? s')%N | [] => true end
      && table_ok starts ends
  | _, _ => false
  end.

(** Membership in one of the intervals [starts[i] .. ends[i]]. *)
Definition covered (code : N) (starts ends : list N) : Prop :=
  ∃ i s e, starts !! i = Some s ∧ ends !! i = Some e ∧ (s ≤ code ≤ e)%N.

Lemma table_ok_head s e starts ends i s' :
  table_ok (s :: starts) (e :: ends) = true → starts !! i = Some s' → (e < s')%N.
Proof.
  revert s e ends i. induction starts as [|s1 starts IH]; intros s e ends i; [done|].
  destruct ends as [|e1 ends]; simpl; [by rewrite andb_false_r|].
  rewrite !andb_true_iff, !N.leb_le, N.ltb_lt. intros [[Hse He] [[Hs1 Hn] Ht]].
  destruct i as [|i]; simpl; [by intros [= <-]|].
  intros Hi. assert (e1 < s')%N; [|lia]. apply (IH s1 e1 ends i); [|done]. simpl.
  by rewrite !andb_true_iff, N.leb_le.
Qed.

Lemma table_ok_lookup starts ends i :
  table_ok starts ends = true → i < length starts →
  ∃ s e, starts !! i = Some s ∧ ends !! i = Some e ∧ (s ≤ e)%N ∧
    ∀ j s', i < j → starts !! j = Some s' → (e < s')%N.
Proof.
  revert ends i. induction starts as [|s starts IH]; intros [|e ends] [|i] Ht Hi;
    simpl in Hi; try done; try lia.
  - exists s, e. split_and!; [done..| |].
    + simpl in Ht. rewrite !andb_true_iff, N.leb_le in Ht. tauto.
    + intros [|j] s' ? Hj; [lia|]. by apply (table_ok_head s e starts ends j).
  - simpl in Ht. apply andb_prop in Ht as [_ Ht].
    destruct (IH ends i Ht) as (s1&e1&?&?&?&Hall); [lia|]. exists s1, e1. simpl.
    split_and!; [done..|]. intros [|j] s' ? Hj; [lia|]. apply (Hall j); [lia|done].
Qed.

Lemma insertion_point_spec starts ends code i s :
  table_ok starts ends = true → starts !! i = Some s →
  (i < insertion_point starts code ↔ (s < code)%N).
Proof.
  unfold insertion_point. revert ends i.
  induction starts as [|s0 starts IH]; intros [|e0 ends] i Ht Hi; try done.
  destruct (decide (s0 < code)%N) as [Hlt|Hge].
  - rewrite filter_cons_True by done. simpl in *. apply andb_prop in Ht as [_ Ht].
    destruct i as [|i]; simpl in *; [naive_solver lia|].
    rewrite <- (IH ends i Ht Hi). lia.
  - rewrite filter_cons_False by done.
    assert (∀ j s', (s0 :: starts) !! j = Some s' → ¬ (s' < code)%N) as Hall.
    { intros [|j] s' Hj; simpl in Hj; [by simplify_eq|].
      pose proof (table_ok_head s0 e0 starts ends j s' Ht Hj).
      destruct (table_ok_lookup _ _ 0 Ht) as (?&?&?&?&?&_); simpl in *; [lia|].
      simplify_eq. lia. }
    destruct (filter _ starts) as [|x l] eqn:Hf; simpl.
    + split; [lia|]. intros ?. by destruct (Hall i s Hi).
    + assert (x ∈ x :: l) as Hx by apply list_elem_of_here.
      rewrite <- Hf, list_elem_of_filter, list_elem_of_lookup in Hx.
      destruct Hx as (?&j&Hj). by destruct (Hall (S j) x).
Qed.

(** The only interval that can hold [code] is the last one starting before it,
    unless [code] is itself a start. *)
Lemma covering_candidate code starts ends i s e :
  table_ok starts ends = true → starts !! i = Some s → ends !! i = Some e → (s ≤ code ≤ e)%N →
  starts !! insertion_point starts code = Some code ∨ S i = insertion_point starts code.
Proof.
  intros Ht Hs He [Hle1 Hle2].
  pose proof (λ i s, insertion_point_spec starts ends code i s Ht) as Hip.
  set (n := insertion_point starts code) in *.
  destruct (decide (s = code)) as [->|].
  - left. destruct (decide (i = n)) as [<-|]; [done|].
    assert (¬ i < n) by (intros ?%(Hip _ _ Hs); lia).
    destruct (table_ok_lookup starts ends n Ht) as (sn&en&Hsn&?&?&Hall);
      [apply lookup_lt_Some in Hs; lia|].
    assert (en < code)%N by (apply (Hall i code); [lia|done]).
    assert (n < n); [|lia]. apply (Hip n sn); [done|lia].
  - right. assert (i < n) by (apply (Hip _ _ Hs); lia).
    destruct (decide (S i < n)) as [Hlt|]; [|lia].
    destruct (lookup_lt_is_Some_2 starts (S i)) as [s1 Hs1].
    { assert (n ≤ length starts) by apply length_filter. lia. }
    destruct (table_ok_lookup starts ends i Ht) as (?&?&?&?&?&Hall);
      [by apply lookup_lt_Some in Hs|]. simplify_eq.
    assert (e < s1)%N by (apply (Hall (S i)); [lia|done]).
    apply (Hip _ _ Hs1) in Hlt. lia.
Qed.

Lemma covered_before code starts ends m :
  table_ok starts ends = true → insertion_point starts code = S m →
  starts !! insertion_point starts code ≠ Some code →
  ∃ e, ends !! m = Some e ∧ ((code ≤ e)%N ↔ covered code starts ends).
Proof.
  intros Ht Hm Hn.
  assert (insertion_point starts code ≤ length starts) by apply length_filter.
  destruct (table_ok_lookup starts ends m Ht) as (sm&em&Hsm&Hem&?&_); [lia|].
  exists em. split; [done|]. split.
  - intros. exists m, sm, em. split_and!; [done..| |lia].
    apply N.lt_le_incl, (insertion_point_spec _ _ code m sm Ht Hsm). lia.
  - intros (i&s'&e&?&?&?).
    destruct (covering_candidate code starts ends i s' e) as [|Hi]; [done..|].
    rewrite Hm in Hi. simplify_eq. lia.
Qed.

Lemma covered_none code starts ends :
  table_ok starts ends = true → insertion_point starts code = 0 →
  starts !! insertion_point starts code ≠ Some code → ¬ covered code starts ends.
Proof.
  intros Ht Hm Hn (i&s'&e&?&?&?).
  destruct (covering_candidate code starts ends i s' e) as [|]; [done..|congruence].
Qed.

Lemma in_ranges_spec code starts ends :
  table_ok starts ends = true →
  ∃ b, in_ranges code starts ends = Some b ∧ (b = true ↔ covered code starts ends).
Proof.
  intros Ht. unfold in_ranges, binary_search.
  assert (starts !! insertion_point starts code ≠ Some code →
    ∃ b, match insertion_point starts code with
         | 0 => Some false
         | S insertion => e ← ends !! insertion; Some (code <=? e)%N
         end = Some b ∧ (b = true ↔ covered code starts ends)) as Hne.
  { intros Hne. destruct (insertion_point starts code) as [|m] eqn:Hm.
    - exists false. split; [done|]. split; [done|]. intros []%covered_none; congruence.
    - destruct (covered_before code starts ends m) as (e&->&He); [done..|congruence|].
      eexists. split; [done|]. by rewrite N.leb_le. }
  destruct (starts !! insertion_point starts code) as [s|] eqn:Hn; [|by apply Hne].
  destruct (N.eqb_spec s code) as [->|]; [|apply Hne; congruence].
  exists true. split; [done|]. split; [|done]. intros _.
  destruct (table_ok_lookup starts ends _ Ht (lookup_lt_Some _ _ _ Hn)) as (s&e&?&?&?&_).
  simplify_eq. exists (insertion_point starts code), code, e. split_and!; [done..|lia].
Qed.

Lemma tables_ok :
  Forall (λ t, table_ok (fst t) (snd t) = true)
    [(DECIMAL_DIGIT_STARTS, DECIMAL_DIGIT_ENDS); (IDEOGRAPHIC_STARTS, IDEOGRAPHIC_ENDS);
     (HIRAGANA_STARTS, HIRAGANA_ENDS); (KATAKANA_STARTS, KATAKANA_ENDS);
     (THAI_STARTS, THAI_ENDS); (JAVANESE_STARTS, JAVANESE_ENDS)].
Proof. by repeat constructor. Qed.
