(* ===== verification/DiffChanges.v ===== *)
(** * paneflow-textdiff: changes and their builders ([iterable.rs])

    [Changes], its complement view [unchanged], the two builders, and [lcs].
    The Myers diff of the [imara_diff] crate is the class [MyersDiff]: its
    documented contract, that the tokens between two hunks are equal, is
    [MyersDiffLaws].  Everything below is proved against the class. *)

From S2P Require Import Prelude DiffRange DiffText.

Definition DELTA_THRESHOLD_SIZE : N := 20000.

(** ** Changes *)
Module Changes.
Record t := new { changed : list Range; len1 : nat; len2 : nat }.
End Changes.

(** [complement], from the cursor [(last1, last2)] on. *)
Fixpoint complement_from (last1 last2 : nat) (ranges : list Range) (len1 len2 : nat)
  : option (list Range) :=
  match ranges with
  | [] =>
      tail ← Range.new last1 len1 last2 len2;
      Some (if Range.is_empty tail then [] else [tail])
  | range :: ranges =>
      gap ← Range.new last1 (start1 range) last2 (start2 range);
      result ← complement_from (end1 range) (end2 range) ranges len1 len2;
      Some (if Range.is_empty gap then result else gap :: result)
  end.

Definition complement (ranges : list Range) (len1 len2 : nat) : option (list Range) :=
  complement_from 0 0 ranges len1 len2.

Definition from_unchanged (unchanged : list Range) (len1 len2 : nat) : option Changes.t :=
  changed ← complement unchanged len1 len2; Some (Changes.new changed len1 len2).

Definition unchanged (c : Changes.t) : option (list Range) :=
  complement (Changes.changed c) (Changes.len1 c) (Changes.len2 c).

(** The nested loop [for range in unchanged { for i in 0..count { .. } }] that
    visits every unchanged pair. *)
Definition for_each_pair {S} (us : list Range) (body : nat → nat → S → option S) (st : S)
  : option S :=
  for_each us (λ range st,
    count ← checked_sub (end1 range) (start1 range);
    for_each (seq 0 count) (λ i st, body (start1 range + i) (start2 range + i) st) st) st.

(** ** ChangeBuilder *)
Module ChangeBuilder.
Record t := mk {
  len1 : nat; len2 : nat; index1 : nat; index2 : nat; changes : list Range }.

Definition new (len1 len2 : nat) : t := mk len1 len2 0 0 [].

Definition mark_equal (self : t) (i1 i2 e1 e2 : nat) : option t :=
  if (i1 =? e1) && (i2 =? e2) then Some self
  else
    _ ← assert ((index1 self <=? i1) && (index2 self <=? i2));
    _ ← assert ((i1 <=? e1) && (i2 <=? e2));
    changes' ← (if negb (index1 self =? i1) || negb (index2 self =? i2)
                then r ← Range.new (index1 self) i1 (index2 self) i2;
                     Some (changes self ++ [r])
                else Some (changes self));
    Some (mk (len1 self) (len2 self) e1 e2 changes').

Definition mark_equal_count (self : t) (i1 i2 count : nat) : option t :=
  mark_equal self i1 i2 (i1 + count) (i2 + count).

Definition mark_equal_one (self : t) (i1 i2 : nat) : option t :=
  mark_equal_count self i1 i2 1.

Definition finish (self : t) : option Changes.t :=
  _ ← assert ((index1 self <=? len1 self) && (index2 self <=? len2 self));
  changes' ← (if negb (len1 self =? index1 self) || negb (len2 self =? index2 self)
              then r ← Range.new (index1 self) (len1 self) (index2 self) (len2 self);
                   Some (changes self ++ [r])
              else Some (changes self));
  Some (Changes.new changes' (len1 self) (len2 self)).
End ChangeBuilder.

(** ** ExpandChangeBuilder: every change is trimmed of its equal borders *)
Module ExpandChangeBuilder.
Section builder.
Context {T : Type} `{PartialEq T}.

Record t := mk {
  items1 : list T; items2 : list T; index1 : nat; index2 : nat; changes : list Range }.

Definition new (items1 items2 : list T) : t := mk items1 items2 0 0 [].

Definition add_change (self : t) (s1 s2 e1 e2 : nat) : option t :=
  range ← expand (items1 self) (items2 self) s1 s2 e1 e2;
  Some (if Range.is_empty range then self
        else mk (items1 self) (items2 self) (index1 self) (index2 self)
               (changes self ++ [range])).

Definition mark_equal_one (self : t) (i1 i2 : nat) : option t :=
  _ ← assert ((index1 self <=? i1) && (index2 self <=? i2));
  self ← (if negb (index1 self =? i1) || negb (index2 self =? i2)
          then add_change self (index1 self) (index2 self) i1 i2
          else Some self);
  Some (mk (items1 self) (items2 self) (i1 + 1) (i2 + 1) (changes self)).

Definition finish (self : t) : option Changes.t :=
  let len1 := length (items1 self) in
  let len2 := length (items2 self) in
  self ← (if negb (len1 =? index1 self) || negb (len2 =? index2 self)
          then add_change self (index1 self) (index2 self) len1 len2
          else Some self);
  Some (Changes.new (changes self) len1 len2).
End builder.
Arguments t : clear implicits.
End ExpandChangeBuilder.

(** ** The longest common subsequence *)

(** The hunks of [Diff::compute_with(Algorithm::Myers, ..)] on the interned
    items: the changed ranges, [before] first.  It panics only where the comparison of
    the items does. *)
Class MyersDiff := hunks : ∀ {T : Type} `{PartialEq T}, list T → list T → option (list Range).

Class MyersDiffLaws `{MyersDiff} : Prop :=
  hunks_script : ∀ {T : Type} `{PartialEq T} (l1 l2 : list T),
    eq_on (l1 ++ l2) →
    runs (hunks l1 l2) (λ rs, script (item_eq l1 l2) 0 0 rs (length l1) (length l2)).

Section lcs.
Context `{MyersDiff} {T : Type} `{PartialEq T}.

Definition lcs (items1 items2 : list T) : option Changes.t :=
  let len1 := length items1 in
  let len2 := length items2 in
  if (len1 =? 0) || (len2 =? 0) then
    whole ← Range.new 0 len1 0 len2;
    Some (Changes.new (if Range.is_empty whole then [] else [whole]) len1 len2)
  else
    found ← hunks items1 items2;
    changed ← mapM (λ hunk, Range.new (start1 hunk) (end1 hunk) (start2 hunk) (end2 hunk)) found;
    Some (Changes.new changed len1 len2).

(** [Err(DiffTooBig)] is [inl]; the outer [option] is the panic. *)
Definition lcs_bounded (items1 items2 : list T) : option (unit + Changes.t) :=
  if (DELTA_THRESHOLD_SIZE <? N.of_nat (length items1))%N
     || (DELTA_THRESHOLD_SIZE <? N.of_nat (length items2))%N
  then Some (inl tt)
  else c ← lcs items1 items2; Some (inr c).
End lcs.

(** ** Correctness of the views *)

(** [c] is an edit script between two sequences of the given lengths. *)
Definition changes_ok (E : nat → nat → Prop) (l1 l2 : nat) (c : Changes.t) : Prop :=
  Changes.len1 c = l1 ∧ Changes.len2 c = l2 ∧ script E 0 0 (Changes.changed c) l1 l2.

Lemma complement_of_script E rs p1 p2 l1 l2 :
  script E p1 p2 rs l1 l2 →
  runs (complement_from p1 p2 rs l1 l2) (λ us, matching E p1 p2 us l1 l2).
Proof.
  revert p1 p2. induction rs as [|r rs IH]; intros p1 p2; simpl.
  - intros Hg. pose proof Hg as (?&?&?&?).
    rewrite range_new_some by lia. simpl.
    destruct (Range.is_empty _) eqn:He; simpl; [lia|].
    apply is_empty_false in He. simpl in *. split_and!; try lia. done.
  - intros (Hg&?&?&Hs). pose proof Hg as (?&?&?&?).
    rewrite range_new_some by lia. cbn [mbind option_bind].
    eapply runs_bind; [by apply IH|]. intros us Hm. simpl in *.
    destruct (Range.is_empty _) eqn:He.
    + apply is_empty_true in He. simpl in He. eapply matching_start; [done|lia..].
    + apply is_empty_false in He. simpl in *. split_and!; try lia; [done|].
      eapply matching_start; [done|lia..].
Qed.

Lemma complement_of_matching E us p1 p2 l1 l2 :
  matching E p1 p2 us l1 l2 →
  runs (complement_from p1 p2 us l1 l2) (λ rs, script E p1 p2 rs l1 l2 ∧ separated rs ∧
    Forall (λ r, p1 ≤ start1 r) rs).
Proof.
  revert p1 p2. induction us as [|u us IH]; intros p1 p2; simpl.
  - intros [??].
    rewrite range_new_some by lia. simpl.
    destruct (Range.is_empty _) eqn:He; simpl.
    + apply is_empty_true in He as [??]; simpl in *; subst.
      split_and!; [apply gap_refl|done|constructor].
    + split_and!; try done; [apply gap_refl..|]. by repeat constructor.
  - intros (?&?&?&Hg&Hm).
    rewrite range_new_some by lia. cbn [mbind option_bind].
    eapply runs_bind; [by apply IH|]. intros rs (Hs&Hsep&Hall). simpl in *.
    assert (script E (start1 u) (start2 u) rs l1 l2) as Hs'.
    { destruct rs as [|r rs]; simpl in *; [by eapply gap_app|].
      destruct Hs as (?&?&?&?). split_and!; try done. by eapply gap_app. }
    destruct (Range.is_empty _) eqn:He.
    + apply is_empty_true in He as [??]; simpl in *; subst. split_and!; [done..|].
      eapply Forall_impl; [done|]. intros ??; simpl in *; lia.
    + simpl. split_and!; try done; [apply gap_refl| |].
      * destruct rs as [|r rs]; [done|]. inversion Hall; subst. simpl. lia.
      * constructor; simpl; [done|]. eapply Forall_impl; [done|]. intros ??; simpl in *; lia.
Qed.

Lemma unchanged_spec E l1 l2 c :
  changes_ok E l1 l2 c → runs (unchanged c) (λ us, matching E 0 0 us l1 l2).
Proof. intros (<-&<-&Hs). by apply complement_of_script. Qed.

Lemma from_unchanged_spec E us l1 l2 :
  matching E 0 0 us l1 l2 →
  runs (from_unchanged us l1 l2) (λ c, changes_ok E l1 l2 c ∧ separated (Changes.changed c)).
Proof.
  intros Hm. eapply runs_bind; [by apply complement_of_matching|].
  intros rs (?&?&_). by split_and!.
Qed.

(** Complementing twice gives the ranges back.  [(s1,s2)] is where the range
    that ends at [(e1,e2)] starts. *)
Lemma complement_complement E rs s1 s2 e1 e2 l1 l2 us :
  script E e1 e2 rs l1 l2 → separated rs → (∀ r, head rs = Some r → e1 < start1 r) →
  s1 ≤ e1 → s2 ≤ e2 → complement_from e1 e2 rs l1 l2 = Some us →
  complement_from s1 s2 us l1 l2 =
    Some (if Range.is_empty (mkRange s1 e1 s2 e2) then rs else mkRange s1 e1 s2 e2 :: rs).
Proof.
  revert s1 s2 e1 e2 us. induction rs as [|r rs IH]; intros s1 s2 e1 e2 us Hs Hsep Hhead H1 H2 Hc.
  - destruct Hs as (?&?&Hlen&_). simpl in Hc. rewrite range_new_some in Hc by done. simpl in Hc.
    destruct (Range.is_empty (mkRange e1 l1 e2 l2)) eqn:He; injection Hc as <-; simpl.
    + apply is_empty_true in He as [H3 H4]. simpl in H3, H4. subst.
      rewrite range_new_some by done. simpl. by destruct (Range.is_empty _).
    + rewrite !range_new_some by done. simpl. unfold Range.is_empty. simpl.
      rewrite !Nat.eqb_refl. simpl. by destruct (_ && _).
  - destruct Hs as ((?&?&Hlen&_)&?&?&Hs). destruct Hsep as (Hne&Hnext&Hsep).
    specialize (Hhead r eq_refl). simpl in Hc. rewrite range_new_some in Hc by done. simpl in Hc.
    destruct (complement_from (end1 r) (end2 r) rs l1 l2) as [us'|] eqn:Hus; [|done]. simpl in Hc.
    replace (Range.is_empty (mkRange e1 (start1 r) e2 (start2 r))) with false in Hc
      by (symmetry; apply is_empty_false; simpl; lia).
    injection Hc as <-. simpl. rewrite range_new_some by done. simpl.
    rewrite (IH (start1 r) (start2 r) (end1 r) (end2 r) us'); try done.
    + replace (mkRange (start1 r) (end1 r) (start2 r) (end2 r)) with r by by destruct r.
      rewrite Hne. simpl. unfold Range.is_empty. simpl. by destruct (_ && _).
    + intros r' Hr'. by destruct rs; simplify_eq/=.
Qed.

Lemma unchanged_inverse_spec E l1 l2 c :
  changes_ok E l1 l2 c → separated (Changes.changed c) →
  runs (unchanged c) (λ us, matching E 0 0 us l1 l2 ∧ from_unchanged us l1 l2 = Some c).
Proof.
  intros (Hl1 & Hl2 & Hs) Hsep. unfold unchanged, complement. destruct c as [rs n1 n2]. simpl in *.
  subst. pose proof (complement_of_script E rs 0 0 l1 l2 Hs) as Hm.
  apply runs_some in Hm as (us & Hus & Hm). rewrite Hus. simpl. split; [done|].
  unfold from_unchanged, complement.
  assert (complement_from 0 0 us l1 l2 = Some rs) as ->; [|done].
  destruct rs as [|r rs].
  - exact (complement_complement E [] 0 0 0 0 l1 l2 us Hs Hsep ltac:(done) (le_n _) (le_n _) Hus).
  - destruct (decide (start1 r = 0)) as [H0|H0].
    + destruct Hs as ((?&?&Hlen&_)&?&?&Hs). destruct Hsep as (Hne&Hnext&Hsep).
      assert (start2 r = 0) as H0' by lia. cbn [complement_from] in Hus.
      rewrite range_new_some in Hus by lia. simpl in Hus.
      destruct (complement_from (end1 r) (end2 r) rs l1 l2) as [us'|] eqn:Hus'; [|done].
      rewrite H0, H0' in Hus. injection Hus as <-.
      rewrite (complement_complement E rs 0 0 (end1 r) (end2 r) l1 l2); try done; try lia.
      * replace (mkRange 0 (end1 r) 0 (end2 r)) with r by (destruct r; simpl in *; by subst).
        by rewrite Hne.
      * intros r' Hr'. by destruct rs; simplify_eq/=.
    + apply (complement_complement E (r :: rs) 0 0 0 0 l1 l2 us Hs Hsep); try done.
      intros r' [= <-]. lia.
Qed.

(** Induction over the unchanged ranges: [Inv p1 p2 st] holds when every range
    visited so far ends before [(p1,p2)]. *)
Lemma runs_for_each_range {S} E us p1 p2 l1 l2 body (Inv : nat → nat → S → Prop) st :
  (∀ u q1 q2 st, q1 ≤ start1 u → q2 ≤ start2 u → start1 u < end1 u →
     gap E (start1 u) (start2 u) (end1 u) (end2 u) → end1 u ≤ l1 → end2 u ≤ l2 →
     Inv q1 q2 st → runs (body u st) (Inv (end1 u) (end2 u))) →
  matching E p1 p2 us l1 l2 → Inv p1 p2 st →
  runs (for_each us body st) (λ st, ∃ q1 q2, q1 ≤ l1 ∧ q2 ≤ l2 ∧ Inv q1 q2 st).
Proof.
  intros Hbody. revert p1 p2 st. induction us as [|u us IH]; intros p1 p2 st; simpl.
  - naive_solver.
  - intros (?&?&?&Hg&Hm) Hinv. pose proof (matching_bounds _ _ _ _ _ _ Hm).
    eapply runs_bind; [apply (Hbody u p1 p2); naive_solver|]. intros st' ?. by eapply IH.
Qed.

(** Induction over the unchanged pairs. *)
Lemma runs_for_each_pair {S} E us p1 p2 l1 l2 body (Inv : nat → nat → S → Prop) st :
  (∀ i j q1 q2 st, E i j → q1 ≤ i → q2 ≤ j → i < l1 → j < l2 → Inv q1 q2 st →
     runs (body i j st) (Inv (i + 1) (j + 1))) →
  matching E p1 p2 us l1 l2 → Inv p1 p2 st →
  runs (for_each_pair us body st) (λ st, ∃ q1 q2, q1 ≤ l1 ∧ q2 ≤ l2 ∧ Inv q1 q2 st).
Proof.
  intros Hbody. apply runs_for_each_range. clear st. intros u p1' p2' st ??? Hg ?? Hinv.
  destruct Hg as (?&?&Heq&HE). rewrite checked_sub_some by lia. cbn [mbind option_bind].
  remember (end1 u - start1 u) as n eqn:Hn.
  apply (runs_for_each _ _ (λ done st, length done ≤ n ∧
    ∃ q1 q2, q1 ≤ start1 u + length done ∧ q2 ≤ start2 u + length done ∧
      (length done = n → q1 = end1 u ∧ q2 = end2 u) ∧ Inv q1 q2 st)).
  - split; [simpl; lia|]. exists p1', p2'. simpl. split_and!; [lia..|done].
  - intros dn x rest st' Hx (Hle&q1&q2&?&?&_&Hst).
    assert (x = length dn ∧ length dn < n) as [-> Hlt].
    { assert (seq 0 n !! length dn = Some x) as Hl%lookup_seq; [|lia].
      by rewrite Hx, lookup_app_r, Nat.sub_diag by lia. }
    eapply runs_mono; [apply (Hbody _ _ q1 q2); [apply HE; lia|lia..|done]|].
    intros st'' Hst''. rewrite length_app; simpl. split; [lia|].
    exists (start1 u + length dn + 1), (start2 u + length dn + 1). split_and!; [lia..|done].
  - rewrite length_seq. intros st' (_&q1&q2&?&?&Hq&Hst'). by destruct Hq as [-> ->].
Qed.

(** ** Correctness of the builders *)

Definition ends_before (rs : list Range) (n : nat) : Prop :=
  ∀ r, last rs = Some r → end1 r < n.

Lemma ends_before_mono rs n m : ends_before rs n → n ≤ m → ends_before rs m.
Proof. intros H ? r ?%H. lia. Qed.

Lemma ends_before_snoc rs r n : end1 r < n → ends_before (rs ++ [r]) n.
Proof. intros ? x. rewrite last_snoc. by intros [= <-]. Qed.

Lemma separated_snoc rs r :
  separated rs → Range.is_empty r = false → ends_before rs (start1 r) → separated (rs ++ [r]).
Proof.
  intros Hs Hr. induction rs as [|x rs IH]; intros Hb; [done|].
  destruct Hs as (?&Hx&Hs). simpl. split_and!; [done| |].
  - destruct rs; simpl in *; [by apply Hb|done].
  - apply IH; [done|]. intros y Hy. apply Hb. by destruct rs.
Qed.
#[export] Hint Resolve ends_before_mono ends_before_snoc separated_snoc : paneflow.

Module ChangeBuilderFacts.
Import ChangeBuilder.

(** What the builder has recorded is a script up to its cursor. *)
Definition ok (E : nat → nat → Prop) (b : t) : Prop :=
  script E 0 0 (changes b) (index1 b) (index2 b) ∧
  separated (changes b) ∧ ends_before (changes b) (index1 b).

Lemma builder_new_ok E l1 l2 : ok E (new l1 l2).
Proof. unfold ok; simpl. split_and!; [apply gap_refl|done|]. by intros ?. Qed.

Lemma builder_mark_equal_spec E b i1 i2 e1 e2 :
  ok E b → index1 b ≤ i1 → index2 b ≤ i2 → gap E i1 i2 e1 e2 →
  runs (mark_equal b i1 i2 e1 e2) (λ b',
    ok E b' ∧ len1 b' = len1 b ∧ len2 b' = len2 b ∧
    index1 b' ≤ e1 ∧ index2 b' ≤ e2 ∧
    (i1 < e1 → index1 b' = e1 ∧ index2 b' = e2)).
Proof.
  intros (Hs&Hsep&Hb) H1 H2 Hg. pose proof Hg as (?&?&?&_). unfold mark_equal.
  destruct ((i1 =? e1) && (i2 =? e2)) eqn:He; bool_to_prop; [split_and!; [done..|lia|lia|lia]|].
  apply andb_false_iff in He. rewrite !Nat.eqb_neq in He.
  rewrite !assert_some by (rewrite andb_true_iff, !Nat.leb_le; lia). cbn [mbind option_bind].
  destruct (negb _ || negb _) eqn:Hc.
  - apply orb_true_iff in Hc. rewrite !negb_true_iff, !Nat.eqb_neq in Hc.
    rewrite range_new_some by lia. unfold ok; simpl. split_and!; try done; try lia.
    + eapply script_snoc; [done|apply gap_refl|done..].
    + apply separated_snoc; [done| |done]. apply is_empty_false. simpl. lia.
    + apply ends_before_snoc. simpl. lia.
  - bool_to_prop. subst. unfold ok; simpl. split_and!; try done; try lia.
    + by eapply script_extend.
    + eapply ends_before_mono; [done|simpl; lia].
Qed.

Lemma builder_finish_spec E b :
  ok E b → index1 b ≤ len1 b → index2 b ≤ len2 b →
  runs (finish b) (λ c, changes_ok E (len1 b) (len2 b) c ∧ separated (Changes.changed c)).
Proof.
  intros (Hs&Hsep&Hb) H1 H2. unfold finish.
  rewrite assert_some by (rewrite andb_true_iff, !Nat.leb_le; lia). cbn [mbind option_bind].
  destruct (negb _ || negb _) eqn:Hc.
  - apply orb_true_iff in Hc. rewrite !negb_true_iff, !Nat.eqb_neq in Hc.
    rewrite range_new_some by lia. unfold changes_ok; simpl. split_and!; try done.
    + eapply script_snoc; [done|apply gap_refl|done..|apply gap_refl].
    + apply separated_snoc; [done| |done]. apply is_empty_false. simpl. lia.
  - assert (len1 b = index1 b ∧ len2 b = index2 b) as [Hl1 Hl2] by (bool_to_prop; done).
    unfold changes_ok; simpl. rewrite Hl1, Hl2. by split_and!.
Qed.
End ChangeBuilderFacts.

Module ExpandChangeBuilderFacts.
Import ExpandChangeBuilder.
Section facts.
Context {T : Type} `{PartialEq T}.
Implicit Types b : t T.

Definition ok (b : t T) : Prop :=
  Comparable (items1 b) (items2 b) ∧
  script (item_eq (items1 b) (items2 b)) 0 0 (changes b) (index1 b) (index2 b) ∧
  separated (changes b) ∧ ends_before (changes b) (index1 b) ∧
  Forall (trimmed (items1 b) (items2 b)) (changes b).

Lemma expand_builder_new_ok l1 l2 : Comparable l1 l2 → ok (new l1 l2).
Proof. intros Hc. unfold ok; simpl. split_and!; [done|apply gap_refl|done|by intros ?|constructor]. Qed.

(** Closing the open change at [(e1,e2)]. *)
Lemma add_change_spec b e1 e2 :
  ok b → index1 b ≤ e1 → index2 b ≤ e2 → e1 ≤ length (items1 b) → e2 ≤ length (items2 b) →
  runs (add_change b (index1 b) (index2 b) e1 e2) (λ b',
    items1 b' = items1 b ∧ items2 b' = items2 b ∧
    script (item_eq (items1 b) (items2 b)) 0 0 (changes b') e1 e2 ∧
    separated (changes b') ∧ ends_before (changes b') (S e1) ∧
    Forall (trimmed (items1 b) (items2 b)) (changes b')).
Proof.
  intros (Hcmp&Hs&Hsep&Hb&Ht) ????. unfold add_change.
  eapply runs_bind; [by apply expand_spec|]. intros r (Hg1&?&?&Hg2&Htr). simpl.
  pose proof Hg1 as (?&?&_&_). pose proof Hg2 as (?&?&_&_).
  destruct (Range.is_empty r) eqn:He; simpl; split_and!; try done.
  - apply is_empty_true in He as [He1 He2]. rewrite He1, He2 in Hg1.
    eapply script_extend; [done|]. by eapply gap_app.
  - eapply ends_before_mono; [done|lia].
  - eapply script_snoc; [done|done..].
  - apply separated_snoc; [done..|]. by eapply ends_before_mono.
  - apply ends_before_snoc. lia.
  - by apply Forall_snoc.
Qed.

Lemma mark_equal_one_spec b i1 i2 :
  ok b → index1 b ≤ i1 → index2 b ≤ i2 → item_eq (items1 b) (items2 b) i1 i2 →
  runs (mark_equal_one b i1 i2) (λ b',
    ok b' ∧ items1 b' = items1 b ∧ items2 b' = items2 b ∧
    index1 b' = i1 + 1 ∧ index2 b' = i2 + 1).
Proof.
  intros Hok H1 H2 Hij. pose proof Hij as (a&c&?%lookup_lt_Some&?%lookup_lt_Some&_).
  unfold mark_equal_one.
  rewrite !assert_some by (rewrite andb_true_iff, !Nat.leb_le; lia). cbn [mbind option_bind].
  eapply (runs_bind _ _ (λ b', items1 b' = items1 b ∧ items2 b' = items2 b ∧
    script (item_eq (items1 b) (items2 b)) 0 0 (changes b') i1 i2 ∧
    separated (changes b') ∧ ends_before (changes b') (S i1) ∧
    Forall (trimmed (items1 b) (items2 b)) (changes b'))).
  - destruct (negb _ || negb _) eqn:Hc.
    + apply add_change_spec; [done..|lia|lia].
    + assert (index1 b = i1 ∧ index2 b = i2) as [<- <-] by (bool_to_prop; done).
      destruct Hok as (?&?&?&?&?). simpl. split_and!; try done. eapply ends_before_mono; [done|lia].
  - intros b' (Hi1&Hi2&?&?&?&?). simpl. rewrite Hi1, Hi2. unfold ok; simpl.
    rewrite !Nat.add_1_r. destruct Hok as [Hcmp _]. split_and!; try done.
    eapply script_extend; [done|by apply gap_one].
Qed.

Lemma expand_builder_finish_spec b :
  ok b → index1 b ≤ length (items1 b) → index2 b ≤ length (items2 b) →
  runs (finish b) (λ c,
    changes_ok (item_eq (items1 b) (items2 b)) (length (items1 b)) (length (items2 b)) c ∧
    separated (Changes.changed c) ∧
    Forall (trimmed (items1 b) (items2 b)) (Changes.changed c)).
Proof.
  intros Hok H1 H2. unfold finish. destruct (negb _ || negb _) eqn:Hc.
  - eapply runs_bind; [by apply add_change_spec|].
    intros b' (?&?&?&?&_&?). unfold changes_ok; simpl. by split_and!.
  - assert (length (items1 b) = index1 b ∧ length (items2 b) = index2 b) as [Hl1 Hl2]
      by (bool_to_prop; done).
    destruct Hok as (?&?&?&?&?). unfold changes_ok; simpl. rewrite Hl1, Hl2. by split_and!.
Qed.
End facts.
End ExpandChangeBuilderFacts.

(** ** Correctness of [lcs] *)

Section lcs_facts.
Context `{MyersDiffLaws} {T : Type} `{PartialEq T}.

Lemma mapM_ranges E rs p1 p2 l1 l2 :
  script E p1 p2 rs l1 l2 →
  mapM (λ hunk, Range.new (start1 hunk) (end1 hunk) (start2 hunk) (end2 hunk)) rs = Some rs.
Proof.
  revert p1 p2. induction rs as [|r rs IH]; intros p1 p2; simpl; [done|].
  intros (?&?&?&Hs). rewrite range_new_some by done. simpl. rewrite (IH _ _ Hs). simpl.
  by destruct r.
Qed.

Lemma lcs_spec (items1 items2 : list T) :
  eq_on (items1 ++ items2) →
  runs (lcs items1 items2)
    (changes_ok (item_eq items1 items2) (length items1) (length items2)).
Proof.
  intros Heq. unfold lcs. destruct (_ || _) eqn:Hz.
  - rewrite range_new_some by lia. simpl.
    destruct (Range.is_empty _) eqn:He; split_and!; try done; simpl.
    + apply is_empty_true in He. simpl in He. destruct He as [<- <-]. apply gap_refl.
    + split_and!; [apply gap_refl|lia..|apply gap_refl].
  - eapply runs_bind; [by apply hunks_script|]. intros rs Hs. cbn beta.
    rewrite (mapM_ranges _ _ _ _ _ _ Hs). by split_and!.
Qed.
End lcs_facts.

(** ** A diff satisfying the contract

    The dynamic-programming-free longest common subsequence, for evaluating the
    development on concrete inputs. *)
Module ReferenceDiff.
Section reference.
Context {T : Type} `{PartialEq T}.

Fixpoint pairs (l1 : list T) (i : nat) : list T → nat → list (nat * nat) :=
  match l1 with
  | [] => λ _ _, []
  | a :: l1' =>
      fix inner (l2 : list T) (j : nat) : list (nat * nat) :=
        match l2 with
        | [] => []
        | b :: l2' =>
            if a ≡? b then (i, j) :: pairs l1' (S i) l2' (S j)
            else let x := pairs l1' (S i) l2 j in
                 let y := inner l2' (S j) in
                 if length y <=? length x then x else y
        end
  end.

Fixpoint hunks_of (p1 p2 : nat) (ps : list (nat * nat)) (l1 l2 : nat) : list Range :=
  match ps with
  | [] => if (p1 =? l1) && (p2 =? l2) then [] else [mkRange p1 l1 p2 l2]
  | (i, j) :: ps =>
      if (p1 =? i) && (p2 =? j) then hunks_of (S i) (S j) ps l1 l2
      else mkRange p1 i p2 j :: hunks_of (S i) (S j) ps l1 l2
  end.

Fixpoint pairs_ok (E : nat → nat → Prop) (p1 p2 : nat) (ps : list (nat * nat)) (l1 l2 : nat)
  : Prop :=
  match ps with
  | [] => p1 ≤ l1 ∧ p2 ≤ l2
  | (i, j) :: ps => p1 ≤ i ∧ p2 ≤ j ∧ E i j ∧ pairs_ok E (S i) (S j) ps l1 l2
  end.

Lemma pairs_ok_start E p1 p2 q1 q2 ps l1 l2 :
  pairs_ok E p1 p2 ps l1 l2 → q1 ≤ p1 → q2 ≤ p2 → pairs_ok E q1 q2 ps l1 l2.
Proof. destruct ps as [|[i j] ps]; simpl; [lia|]. intros (?&?&?&?) ??. split_and!; try done; lia. Qed.

Lemma hunks_of_script E p1 p2 ps l1 l2 :
  pairs_ok E p1 p2 ps l1 l2 → script E p1 p2 (hunks_of p1 p2 ps l1 l2) l1 l2.
Proof.
  revert p1 p2. induction ps as [|[i j] ps IH]; intros p1 p2; simpl.
  - intros [??]. destruct (_ && _) eqn:He; bool_to_prop; simpl; subst.
    + apply gap_refl.
    + split_and!; [apply gap_refl|done..|apply gap_refl].
  - intros (?&?&HE&Hps%IH).
    assert (script E i j (hunks_of (S i) (S j) ps l1 l2) l1 l2) as Hs.
    { apply (script_app E [] _ i j (S i) (S j)); [by apply gap_one|done]. }
    destruct (_ && _) eqn:He; bool_to_prop; simpl; subst; [done|].
    split_and!; [apply gap_refl|done..].
Qed.

Lemma pairs_spec (l1 l2 s1 s2 : list T) i j :
  drop i s1 = l1 → drop j s2 = l2 → i ≤ length s1 → j ≤ length s2 →
  pairs_ok (item_eq s1 s2) i j (pairs l1 i l2 j) (length s1) (length s2).
Proof.
  revert i j l2. induction l1 as [|a l1 IH]; intros i j l2 H1 H2 ??; [done|].
  assert (s1 !! i = Some a ∧ drop (S i) s1 = l1 ∧ S i ≤ length s1) as (Ha&Hd1&?).
  { assert (s1 !! i = Some a) as Ha by (by rewrite <- (Nat.add_0_r i), <- lookup_drop, H1).
    split_and!; [done| |by apply lookup_lt_Some in Ha].
    by rewrite <- Nat.add_1_r, <- drop_drop, H1. }
  clear H1. revert j H2 H3. induction l2 as [|b l2 IH2]; intros j H2 ?; simpl; [done|].
  assert (s2 !! j = Some b ∧ drop (S j) s2 = l2 ∧ S j ≤ length s2) as (Hb&Hd2&?).
  { assert (s2 !! j = Some b) as Hb by (by rewrite <- (Nat.add_0_r j), <- lookup_drop, H2).
    split_and!; [done| |by apply lookup_lt_Some in Hb].
    by rewrite <- Nat.add_1_r, <- drop_drop, H2. }
  destruct (a ≡? b) eqn:Hab; simpl.
  - split_and!; [lia|lia|by exists a, b|by apply IH].
  - destruct (_ <=? _).
    + eapply pairs_ok_start; [by apply IH|lia..].
    + eapply pairs_ok_start; [by apply IH2|lia..].
Qed.
End reference.

Definition reference_hunks : MyersDiff := λ T _ l1 l2,
  Some (hunks_of 0 0 (pairs l1 0 l2 0) (length l1) (length l2)).

Lemma reference_laws : @MyersDiffLaws reference_hunks.
Proof. intros T HT l1 l2 _. apply hunks_of_script, pairs_spec; simpl; [done..|lia|lia]. Qed.
End ReferenceDiff.
