(* ===== verification/DiffChunks.v ===== *)
(** * paneflow-textdiff: the chunk optimiser ([chunk_optimizer.rs])

    Slides a changed chunk between two touching unchanged ranges.  The trait
    [BoundaryShift] is a class; its law bounds the shift by the equal items on
    either side, and the optimiser is proved correct against the law alone. *)

From S2P Require Import Prelude DiffRange DiffText DiffChanges.

(** ** The trait *)

(** [fn shift(&self, touch_left, equal_forward, equal_backward, range1, range2) -> isize] *)
Class BoundaryShift := shift : bool → nat → nat → Range → Range → option Z.

(** Two touching unchanged ranges and the room on either side of the boundary,
    as [process_last_ranges] calls [shift]. *)
Record boundary (len1 len2 : nat) (touch_left : bool) (forward backward : nat)
    (r1 r2 : Range) : Prop := {
  boundary_len1 : end1 r1 - start1 r1 = end2 r1 - start2 r1;
  boundary_len2 : end1 r2 - start1 r2 = end2 r2 - start2 r2;
  boundary_order1 : start1 r1 ≤ end1 r1 ≤ start1 r2;
  boundary_order2 : start2 r1 ≤ end2 r1 ≤ start2 r2;
  boundary_forward : forward < end1 r2 - start1 r2;
  boundary_backward : backward < end1 r1 - start1 r1;
  boundary_end1 : end1 r2 ≤ len1;
  boundary_end2 : end2 r2 ≤ len2;
  boundary_touch : if touch_left then end1 r1 = start1 r2 else end2 r1 = start2 r2 }.

Class BoundaryShiftLaws (len1 len2 : nat) `{BoundaryShift} : Prop :=
  shift_bounds : ∀ touch_left forward backward r1 r2,
    boundary len1 len2 touch_left forward backward r1 r2 →
    runs (shift touch_left forward backward r1 r2)
      (λ d, (- Z.of_nat backward ≤ d ≤ Z.of_nat forward)%Z).

(** ** The optimiser *)

Definition offset (index : nat) (delta : Z) : option nat :=
  if (0 <=? delta)%Z then Some (index + Z.to_nat delta)
  else checked_sub index (Z.to_nat (Z.abs delta)).

Definition select {A} (left : bool) (a b : A) : A := if left then a else b.

Section optimize.
Context {T : Type} `{PartialEq T} `{BoundaryShift} (data1 data2 : list T).

(** The [Vec] of ranges is kept last element first: [range2] is the range just
    pushed and [below] the ones under it. *)
Fixpoint process_last_ranges (range2 : Range) (below : list Range) : option (list Range) :=
  match below with
  | [] => Some [range2]
  | range1 :: rest =>
      if negb (end1 range1 =? start1 range2) && negb (end2 range1 =? start2 range2)
      then Some (range2 :: below)
      else
        count1 ← checked_sub (end1 range1) (start1 range1);
        count2 ← checked_sub (end1 range2) (start1 range2);
        equal_forward ← expand_forward data1 data2 (end1 range1) (end2 range1)
                          (end1 range1 + count2) (end2 range1 + count2);
        back1 ← checked_sub (start1 range2) count1;
        back2 ← checked_sub (start2 range2) count1;
        equal_backward ← expand_backward data1 data2 back1 back2
                           (start1 range2) (start2 range2);
        if (equal_forward =? 0) && (equal_backward =? 0) then Some (range2 :: below)
        else if equal_forward =? count2 then
          merged ← Range.new (start1 range1) (end1 range1 + count2)
                     (start2 range1) (end2 range1 + count2);
          process_last_ranges merged rest
        else if equal_backward =? count1 then
          merged ← Range.new back1 (end1 range2) back2 (end2 range2);
          process_last_ranges merged rest
        else
          let touch_left := end1 range1 =? start1 range2 in
          delta ← shift touch_left equal_forward equal_backward range1 range2;
          if (delta =? 0)%Z then Some (range2 :: below)
          else
            e1 ← offset (end1 range1) delta; e2 ← offset (end2 range1) delta;
            range1' ← Range.new (start1 range1) e1 (start2 range1) e2;
            s1 ← offset (start1 range2) delta; s2 ← offset (start2 range2) delta;
            range2' ← Range.new s1 (end1 range2) s2 (end2 range2);
            Some (range2' :: range1' :: rest)
  end.

Definition optimize_chunks (iterable : Changes.t) : option Changes.t :=
  us ← unchanged iterable;
  ranges ← for_each us process_last_ranges [];
  from_unchanged (reverse ranges) (length data1) (length data2).
End optimize.

(** ** Correctness *)

(** A matching with its last range first. *)
Fixpoint matching_rev (E : nat → nat → Prop) (us : list Range) (l1 l2 : nat) : Prop :=
  match us with
  | [] => True
  | u :: us =>
      start1 u < end1 u ∧ gap E (start1 u) (start2 u) (end1 u) (end2 u) ∧
      end1 u ≤ l1 ∧ end2 u ≤ l2 ∧ matching_rev E us (start1 u) (start2 u)
  end.

Lemma matching_rev_mono E us l1 l2 m1 m2 :
  matching_rev E us l1 l2 → l1 ≤ m1 → l2 ≤ m2 → matching_rev E us m1 m2.
Proof. destruct us; simpl; [done|]. intros (?&?&?&?&?) ??. split_and!; try done; lia. Qed.

Lemma matching_of_rev E us l1 l2 : matching_rev E us l1 l2 → matching E 0 0 (reverse us) l1 l2.
Proof.
  revert l1 l2. induction us as [|u us IH]; intros l1 l2; [simpl; lia|].
  simpl. rewrite reverse_cons. intros (?&?&?&?&Hm%IH). by eapply matching_snoc.
Qed.

(** The number of items covered by a list of ranges, on the first side. *)
Definition covered1 (rs : list Range) : nat := sum_list_with (λ r, end1 r - start1 r) rs.

Lemma covered1_reverse rs : covered1 (reverse rs) = covered1 rs.
Proof. apply sum_list_with_reverse. Qed.

Lemma complement_covered E p1 p2 us l1 l2 rs :
  matching E p1 p2 us l1 l2 → complement_from p1 p2 us l1 l2 = Some rs →
  covered1 rs + covered1 us = l1 - p1.
Proof.
  unfold covered1. revert p1 p2 rs. induction us as [|u us IH]; intros p1 p2 rs; simpl.
  - intros [??]. rewrite range_new_some by lia. simpl.
    destruct (Range.is_empty _) eqn:He; intros [= <-]; simpl; [|lia].
    apply is_empty_true in He. simpl in He. lia.
  - intros (?&?&?&?&Hm). pose proof (matching_bounds _ _ _ _ _ _ Hm).
    rewrite range_new_some by lia. simpl.
    destruct (complement_from _ _ us l1 l2) as [rs'|] eqn:Hrs; simpl; [|done].
    pose proof (IH _ _ _ Hm Hrs) as IH'.
    destruct (Range.is_empty _) eqn:He; intros [= <-]; simpl; [|lia].
    apply is_empty_true in He. simpl in He. lia.
Qed.

Lemma unchanged_covered E p1 p2 rs l1 l2 us :
  script E p1 p2 rs l1 l2 → complement_from p1 p2 rs l1 l2 = Some us →
  covered1 rs + covered1 us = l1 - p1.
Proof.
  unfold covered1. revert p1 p2 us. induction rs as [|r rs IH]; intros p1 p2 us; simpl.
  - intros (?&?&?&?). rewrite range_new_some by lia. simpl.
    destruct (Range.is_empty _) eqn:He; intros [= <-]; simpl; [|lia].
    apply is_empty_true in He. simpl in He. lia.
  - intros ((?&?&?&?)&?&?&Hs). pose proof (script_bounds _ _ _ _ _ _ Hs).
    rewrite range_new_some by lia. simpl.
    destruct (complement_from _ _ rs l1 l2) as [us'|] eqn:Hus; simpl; [|done].
    pose proof (IH _ _ _ Hs Hus) as IH'.
    destruct (Range.is_empty _) eqn:He; intros [= <-]; simpl; [|lia].
    apply is_empty_true in He. simpl in He. lia.
Qed.

Lemma offset_spec index delta (P : nat → Prop) :
  (- Z.of_nat index ≤ delta)%Z → P (Z.to_nat (Z.of_nat index + delta)) →
  runs (offset index delta) P.
Proof.
  intros Hd HP. unfold offset. destruct (Z.leb_spec 0 delta).
  - simpl. by replace (index + Z.to_nat delta) with (Z.to_nat (Z.of_nat index + delta)) by lia.
  - apply runs_checked_sub; [lia|].
    by replace (index - Z.to_nat (Z.abs delta)) with (Z.to_nat (Z.of_nat index + delta)) by lia.
Qed.

Section optimize_facts.
Context {T : Type} `{PartialEq T} (data1 data2 : list T) `{!Comparable data1 data2}.
Context `{!BoundaryShift} `{!BoundaryShiftLaws (length data1) (length data2)}.
Context (E : nat → nat → Prop) (HE : ∀ i j, item_eq data1 data2 i j → E i j).

Lemma gap_data p1 p2 n :
  (∀ k, k < n → item_eq data1 data2 (p1 + k) (p2 + k)) → gap E p1 p2 (p1 + n) (p2 + n).
Proof. intros Hk. unfold gap. split_and!; [lia..|]. intros i Hi. apply HE, Hk. lia. Qed.

Lemma gap_data_back p1 p2 n :
  n ≤ p1 → n ≤ p2 → (∀ k, k < n → item_eq data1 data2 (p1 - k - 1) (p2 - k - 1)) →
  gap E (p1 - n) (p2 - n) p1 p2.
Proof.
  intros ?? Hk. unfold gap. split_and!; [lia..|]. intros i Hi. apply HE.
  replace (p1 - n + i) with (p1 - (n - i - 1) - 1) by lia.
  replace (p2 - n + i) with (p2 - (n - i - 1) - 1) by lia. apply Hk. lia.
Qed.

(** Moving the boundary of two touching ranges by [d]. *)
Lemma shifted_ranges r1 r2 rest l1 l2 f b d :
  matching_rev E (r2 :: r1 :: rest) l1 l2 →
  f < end1 r2 - start1 r2 → b < end1 r1 - start1 r1 →
  (∀ k, k < f → item_eq data1 data2 (end1 r1 + k) (end2 r1 + k)) →
  (∀ k, k < b → item_eq data1 data2 (start1 r2 - k - 1) (start2 r2 - k - 1)) →
  (- Z.of_nat b ≤ d ≤ Z.of_nat f)%Z →
  let moved n := Z.to_nat (Z.of_nat n + d) in
  let r1' := mkRange (start1 r1) (moved (end1 r1)) (start2 r1) (moved (end2 r1)) in
  let r2' := mkRange (moved (start1 r2)) (end1 r2) (moved (start2 r2)) (end2 r2) in
  matching_rev E (r2' :: r1' :: rest) l1 l2 ∧
  covered1 [r2'; r1'] = covered1 [r2; r1].
Proof.
  intros (?&Hg2&?&?&?&Hg1&?&?&Hrest) ?? Hf Hb Hd moved r1' r2'.
  pose proof Hg1 as (?&?&?&_). pose proof Hg2 as (?&?&?&_).
  assert (∀ n, moved n = if (0 <=? d)%Z then n + Z.to_nat d else n - Z.to_nat (- d)) as Hmv.
  { intros n. unfold moved. destruct (Z.leb_spec 0 d); lia. }
  split; [|unfold covered1; simpl; rewrite !Hmv; destruct (Z.leb_spec 0 d); lia].
  simpl. rewrite !Hmv. destruct (Z.leb_spec 0 d); split_and!; try done; try lia.
  - replace (end1 r2) with (start1 r2 + (end1 r2 - start1 r2)) by lia.
    replace (end2 r2) with (start2 r2 + (end1 r2 - start1 r2)) by lia.
    apply (gap_sub E _ _ (end1 r2) (end2 r2)); [done|lia..].
  - eapply gap_app; [done|]. apply gap_data. intros; apply Hf. lia.
  - eapply gap_app; [|done]. apply gap_data_back; [lia..|]. intros; apply Hb. lia.
  - replace (end1 r1 - Z.to_nat (- d)) with (start1 r1 + (end1 r1 - start1 r1 - Z.to_nat (- d)))
      by lia.
    replace (end2 r1 - Z.to_nat (- d)) with (start2 r1 + (end1 r1 - start1 r1 - Z.to_nat (- d)))
      by lia.
    rewrite <- (Nat.add_0_r (start1 r1)) at 1. rewrite <- (Nat.add_0_r (start2 r1)) at 1.
    apply (gap_sub E _ _ (end1 r1) (end2 r1)); [done|lia..].
Qed.

Lemma process_last_ranges_spec r2 below l1 l2 :
  l1 ≤ length data1 → l2 ≤ length data2 → matching_rev E (r2 :: below) l1 l2 →
  runs (process_last_ranges data1 data2 r2 below) (λ us,
    matching_rev E us l1 l2 ∧ covered1 us = covered1 (r2 :: below)).
Proof.
  intros Hl1 Hl2. revert r2. induction below as [|r1 rest IH]; intros r2 Hm; [done|].
  pose proof Hm as (?&Hg2&?&?&?&Hg1&?&?&Hrest).
  pose proof Hg1 as (?&?&?&_). pose proof Hg2 as (?&?&?&_).
  cbn [process_last_ranges]. destruct (negb _ && negb _) eqn:Htouch; [done|].
  rewrite !checked_sub_some by lia. cbn [mbind option_bind].
  eapply runs_bind; [apply expand_forward_spec; [done|lia..]|]. intros f (?&?&Hf&_). cbn beta.
  rewrite !checked_sub_some by lia. cbn [mbind option_bind].
  eapply runs_bind; [apply expand_backward_spec; [done|lia..]|]. intros b (?&?&Hb&_). cbn beta.
  destruct ((f =? 0) && (b =? 0)); [done|].
  destruct (f =? end1 r2 - start1 r2) eqn:Hf2;
    [|destruct (b =? end1 r1 - start1 r1) eqn:Hb1]; bool_to_prop.
  - rewrite range_new_some by lia. cbn [mbind option_bind].
    eapply runs_mono; [apply IH|].
    + simpl. split_and!; try done; try lia.
      eapply gap_app; [done|]. apply gap_data. intros; apply Hf. lia.
    + intros us [? ->]. split; [done|]. unfold covered1; simpl. lia.
  - rewrite range_new_some by lia. cbn [mbind option_bind].
    eapply runs_mono; [apply IH|].
    + simpl. split_and!; try done; try lia; [|eapply matching_rev_mono; [done|lia..]].
      eapply gap_app; [|done]. apply gap_data_back; [lia..|]. intros; apply Hb. lia.
    + intros us [? ->]. split; [done|]. unfold covered1; simpl. lia.
  - eapply runs_bind.
    + apply shift_bounds. constructor; try lia.
      destruct (Nat.eqb_spec (end1 r1) (start1 r2)); [done|].
      rewrite andb_false_iff in Htouch. destruct Htouch as [Ht|Ht]; bool_to_prop; lia.
    + intros d Hd. cbn beta in *. destruct (Z.eqb_spec d 0) as [|Hne]; [done|].
      destruct (shifted_ranges r1 r2 rest l1 l2 f b d) as [Hm' Hc]; [done|lia|lia|done..|].
      do 2 (eapply (runs_bind _ _ (eq _)); [apply offset_spec; [lia|reflexivity]|intros ? <-]).
      rewrite range_new_some by lia. cbn [mbind option_bind].
      do 2 (eapply (runs_bind _ _ (eq _)); [apply offset_spec; [lia|reflexivity]|intros ? <-]).
      rewrite range_new_some by lia. simpl. split; [apply Hm'|].
      unfold covered1 in *; simpl in *. lia.
Qed.

Lemma optimize_chunks_spec c :
  changes_ok E (length data1) (length data2) c →
  runs (optimize_chunks data1 data2 c) (λ c',
    changes_ok E (length data1) (length data2) c' ∧ separated (Changes.changed c') ∧
    covered1 (Changes.changed c') = covered1 (Changes.changed c)).
Proof.
  intros Hc. unfold optimize_chunks.
  destruct (unchanged c) as [us|] eqn:Hus; [|by pose proof (unchanged_spec _ _ _ _ Hc);
    rewrite Hus in *].
  pose proof (unchanged_spec _ _ _ _ Hc) as Hm. rewrite Hus in Hm. simpl in Hm.
  cbn [mbind option_bind].
  eapply (runs_bind _ _ (λ st, matching_rev E st (length data1) (length data2) ∧
    covered1 st = covered1 us)).
  - apply (runs_for_each _ _ (λ dn st, covered1 st = covered1 dn ∧ ∀ q1 q2,
      matching E 0 0 dn q1 q2 → q1 ≤ length data1 → q2 ≤ length data2 → matching_rev E st q1 q2)).
    + done.
    + intros dn u rest st Heq (Hcov&Hst). subst us.
      apply matching_app_inv in Hm as (q1&q2&Hdn&?&?&?&Hg&Hrest).
      pose proof (matching_bounds _ _ _ _ _ _ Hrest). pose proof Hg as (?&?&?&_).
      eapply runs_mono; [apply (process_last_ranges_spec u st (end1 u) (end2 u)); [lia..|]|].
      * simpl. split_and!; [done..|lia|lia|].
        eapply matching_rev_mono; [apply (Hst q1 q2); [done|lia..]|lia..].
      * intros st' [Hm' Hcov']. split.
        { rewrite Hcov'. unfold covered1 in *. rewrite sum_list_with_app. simpl. lia. }
        intros p1 p2 (a1&a2&_&?&?&?&?&?)%matching_app_inv ??. simpl in *.
        eapply matching_rev_mono; [done|lia..].
    + intros st [? Hst]. split; [by apply (Hst _ _ Hm)|done].
  - intros st [Hst Hcov]. apply matching_of_rev in Hst.
    pose proof (from_unchanged_spec _ _ _ _ Hst) as Hf. unfold from_unchanged, complement in *.
    destruct (complement_from 0 0 (reverse st) _ _) as [rs|] eqn:Hrs; [|done]. simpl in *.
    destruct Hf as [Hok ?]. split_and!; [done..|].
    pose proof (complement_covered _ _ _ _ _ _ _ Hst Hrs) as Hcov1.
    destruct Hc as (Hc1&Hc2&Hs). unfold unchanged, complement in Hus. rewrite Hc1, Hc2 in Hus.
    pose proof (unchanged_covered _ _ _ _ _ _ _ Hs Hus) as Hcov2.
    rewrite covered1_reverse in Hcov1. lia.
Qed.
End optimize_facts.
