(* ===== verification/DiffLines.v ===== *)
(** * paneflow-textdiff: line comparison ([by_line.rs])

    Lines are matched first on the lines with more than three characters, the
    gaps are matched by a second comparison, the chunk boundaries are slid to
    unimportant lines, and for the strict policies the whitespace-insensitive
    matching is corrected line by line.  [compare] is proved to return an edit
    script for the policy, without a panic, for every diff engine that meets
    [MyersDiffLaws]. *)

From S2P Require Import Prelude DiffRange DiffText DiffChanges DiffChunks.

(** ** Lines *)

Record Line := mkLine {
  content : str; policy : ComparisonPolicy; line_hash : N; non_space_chars : nat }.

Module Line.
Definition new (content : str) (policy : ComparisonPolicy) : Line :=
  mkLine content policy (hash content policy) (count_non_space_chars content).

Definition with_policy (self : Line) (p : ComparisonPolicy) : Line :=
  if bool_decide (policy self = p) then self else new (content self) p.
End Line.

(** [PartialEq for Line]: the policies are the same, by a [debug_assert_eq!], and the
    hashes are compared before the contents. *)
#[export] Instance line_eq : PartialEq Line := λ self other,
  _ ← assert (bool_decide (policy self = policy other));
  Some ((line_hash self =? line_hash other)%N && is_equals (content self) (content other) (policy self)).

(** ** Boundary shifts *)

Definition next_unimportant_line (lines : list Line) (offset count threshold : nat)
  : option (option nat) :=
  find_some (seq 0 count) (λ i,
    line ← lines !! (offset + i); Some (non_space_chars line <=? threshold)).

Definition prev_unimportant_line (lines : list Line) (offset count threshold : nat)
  : option (option nat) :=
  find_some (seq 0 count) (λ i,
    at_ ← checked_sub offset i; line ← lines !! at_;
    Some (non_space_chars line <=? threshold)).

Definition combine_shift (forward backward : option nat) : option Z :=
  match forward, backward with
  | None, None => None
  | Some 0, _ | _, Some 0 => Some 0%Z
  | Some forward, _ => Some (Z.of_nat forward)
  | None, Some backward => Some (- Z.of_nat backward)%Z
  end.

Section LineBoundaryShift.
Context (lines1 lines2 : list Line).

Definition unchanged_boundary_shift (touch_left : bool) (equal_forward equal_backward : nat)
    (range2 : Range) (threshold : nat) : option (option Z) :=
  let touch_lines := select touch_left lines1 lines2 in
  let touch_start := select touch_left (start1 range2) (start2 range2) in
  forward ← next_unimportant_line touch_lines touch_start (equal_forward + 1) threshold;
  before ← checked_sub touch_start 1;
  backward ← prev_unimportant_line touch_lines before (equal_backward + 1) threshold;
  Some (combine_shift forward backward).

Definition changed_boundary_shift (touch_left : bool) (equal_forward equal_backward : nat)
    (range1 range2 : Range) (threshold : nat) : option (option Z) :=
  let non_touch_lines := select touch_left lines2 lines1 in
  let change_start := select touch_left (end2 range1) (end1 range1) in
  let change_end := select touch_left (start2 range2) (start1 range2) in
  forward ← next_unimportant_line non_touch_lines change_start (equal_forward + 1) threshold;
  before ← checked_sub change_end 1;
  backward ← prev_unimportant_line non_touch_lines before (equal_backward + 1) threshold;
  Some (combine_shift forward backward).

(** [for threshold in thresholds { .. return shift } 0] *)
Fixpoint shift_at_thresholds (thresholds : list nat) (touch_left : bool)
    (equal_forward equal_backward : nat) (range1 range2 : Range) : option Z :=
  match thresholds with
  | [] => Some 0%Z
  | threshold :: thresholds =>
      unchanged ← unchanged_boundary_shift touch_left equal_forward equal_backward
                    range2 threshold;
      match unchanged with
      | Some shift => Some shift
      | None =>
          changed ← changed_boundary_shift touch_left equal_forward equal_backward
                      range1 range2 threshold;
          match changed with
          | Some shift => Some shift
          | None => shift_at_thresholds thresholds touch_left equal_forward equal_backward
                      range1 range2
          end
      end
  end.

Definition line_boundary_shift : BoundaryShift :=
  shift_at_thresholds [0; UNIMPORTANT_LINE_CHAR_COUNT].
End LineBoundaryShift.

(** ** Alignment of runs of whitespace-equal lines *)

(** [combinations]: calls [process] on every strictly increasing filling of
    [comb] from position [k] on, with values in [start ..= n].  The fuel is the
    recursion depth; [comb] is the [&mut Vec] threaded through the calls. *)
Fixpoint combinations {S} (fuel start n k : nat) (comb : list nat)
    (process : list nat → S → option S) (st : S) : option (list nat * S) :=
  match fuel with
  | O => None
  | Datatypes.S fuel =>
      if k =? length comb then st ← process comb st; Some (comb, st)
      else
        for_each (seq start (n + 1 - start)) (λ i '(comb, st),
          _ ← comb !! k;
          combinations fuel (i + 1) n (k + 1) (<[k := i]> comb) process st) (comb, st)
  end.

Section alignment.
Context (sub_lines1 sub_lines2 : list nat) (lines1 lines2 : list Line).

(** [(0..size).filter(|&i| ..).count()] *)
Definition alignment_weight (comb : list nat) : option nat :=
  for_each (seq 0 (length sub_lines1)) (λ i weight,
    index1 ← sub_lines1 !! i;
    c ← comb !! i;
    index2 ← sub_lines2 !! c;
    line1 ← lines1 !! index1;
    line2 ← lines2 !! index2;
    equal ← eq_checked line1 line2;
    Some (if (equal : bool) then weight + 1 else weight)) 0.

(** The closure passed to [combinations]. *)
Definition keep_best (comb : list nat) (st : list nat * nat) : option (list nat * nat) :=
  weight ← alignment_weight comb;
  Some (if snd st <? weight then (comb, weight) else st).

Definition best_matching_alignment : option (list nat) :=
  _ ← assert (length sub_lines1 <? length sub_lines2);
  let size := length sub_lines1 in
  last2 ← checked_sub (length sub_lines2) 1;
  r ← combinations (S size) 0 last2 0 (replicate size 0) keep_best (seq 0 size, 0);
  Some (fst (snd r)).
End alignment.

(** ** The second step *)

Record SecondStep := mkStep {
  builder : ExpandChangeBuilder.t Line; sample : option str; last1 : nat; last2 : nat }.

Section second_step.
Context (lines1 lines2 : list Line).

Definition mark_if_equal (builder : ExpandChangeBuilder.t Line) (index1 index2 : nat)
  : option (ExpandChangeBuilder.t Line) :=
  line1 ← lines1 !! index1;
  line2 ← lines2 !! index2;
  equal ← eq_checked line1 line2;
  if (equal : bool) then ExpandChangeBuilder.mark_equal_one builder index1 index2
  else Some builder.

Definition align_exact_matching (builder : ExpandChangeBuilder.t Line)
    (sub_lines1 sub_lines2 : list nat) : option (ExpandChangeBuilder.t Line) :=
  let n := Nat.max (length sub_lines1) (length sub_lines2) in
  let skip_aligning := (10 <? n) || (length sub_lines1 =? length sub_lines2) in
  if skip_aligning then
    for_each (seq 0 (Nat.min (length sub_lines1) (length sub_lines2))) (λ i builder,
      index1 ← sub_lines1 !! i; index2 ← sub_lines2 !! i;
      mark_if_equal builder index1 index2) builder
  else if length sub_lines1 <? length sub_lines2 then
    matching ← best_matching_alignment sub_lines1 sub_lines2 lines1 lines2;
    for_each (seq 0 (length sub_lines1)) (λ i builder,
      index1 ← sub_lines1 !! i; m ← matching !! i; index2 ← sub_lines2 !! m;
      mark_if_equal builder index1 index2) builder
  else
    matching ← best_matching_alignment sub_lines2 sub_lines1 lines2 lines1;
    for_each (seq 0 (length sub_lines2)) (λ i builder,
      m ← matching !! i; index1 ← sub_lines1 !! m; index2 ← sub_lines2 !! i;
      mark_if_equal builder index1 index2) builder.

(** One of the two scans of [flush]: the lines of [start..stop] that equal the
    sample up to whitespace, and the cursor after the last of them. *)
Definition sample_lines (sample : str) (lines : list Line) (start stop last : nat)
  : option (list nat * nat) :=
  for_each (seq start (stop - start)) (λ i '(sub, last),
    line ← lines !! i;
    Some (if is_equals sample (content line) IgnoreWhitespaces
          then (sub ++ [i], i + 1) else (sub, last))) ([], last).

Definition flush (self : SecondStep) (line1 line2 : nat) : option SecondStep :=
  match sample self with
  | None => Some self
  | Some s =>
      let start1 := Nat.max (last1 self) (ExpandChangeBuilder.index1 (builder self)) in
      let start2 := Nat.max (last2 self) (ExpandChangeBuilder.index2 (builder self)) in
      r1 ← sample_lines s lines1 start1 line1 (last1 self);
      r2 ← sample_lines s lines2 start2 line2 (last2 self);
      _ ← assert (negb (length (fst r1) =? 0) && negb (length (fst r2) =? 0));
      builder ← align_exact_matching (builder self) (fst r1) (fst r2);
      Some (mkStep builder None (snd r1) (snd r2))
  end.

(** The body of the loop of [correct_changes_second_step]. *)
Definition second_step_pair (index1 index2 : nat) (step : SecondStep) : option SecondStep :=
  line1 ← lines1 !! index1;
  line2 ← lines2 !! index2;
  let same_as_sample :=
    match sample step with
    | Some s => is_equals s (content line1) IgnoreWhitespaces
    | None => false
    end in
  if same_as_sample then Some step
  else
    equal ← eq_checked line1 line2;
    if (equal : bool) then
      step ← flush step index1 index2;
      builder ← ExpandChangeBuilder.mark_equal_one (builder step) index1 index2;
      Some (mkStep builder (sample step) (last1 step) (last2 step))
    else
      step ← flush step index1 index2;
      Some (mkStep (builder step) (Some (content line1)) (last1 step) (last2 step)).

Definition correct_changes_second_step (changes : Changes.t) : option Changes.t :=
  us ← unchanged changes;
  step ← for_each_pair us second_step_pair
           (mkStep (ExpandChangeBuilder.new lines1 lines2) None 0 0);
  step ← flush step (Changes.len1 changes) (Changes.len2 changes);
  ExpandChangeBuilder.finish (builder step).
End second_step.

(** ** The comparison *)

Definition expand_ranges (lines1 lines2 : list Line) (changes : Changes.t) : option Changes.t :=
  expanded ← mapM (λ range, expand lines1 lines2 (start1 range) (start2 range)
                              (end1 range) (end2 range)) (Changes.changed changes);
  Some (Changes.new (filter (λ range, Range.is_empty range = false) expanded)
          (length lines1) (length lines2)).

(** [enumerate] from [index]: the lines with more than [threshold] characters
    and their indexes. *)
Fixpoint big_lines_from (index : nat) (lines : list Line) (threshold : nat)
  : list Line * list nat :=
  match lines with
  | [] => ([], [])
  | line :: lines =>
      let '(big, indexes) := big_lines_from (S index) lines threshold in
      if threshold <? non_space_chars line then (line :: big, index :: indexes)
      else (big, indexes)
  end.

Definition big_lines : list Line → nat → list Line * list nat := big_lines_from 0.

Definition optimize_line_chunks (lines1 lines2 : list Line) (changes : Changes.t)
  : option Changes.t :=
  @optimize_chunks Line _ (line_boundary_shift lines1 lines2) lines1 lines2 changes.

Section compare.
Context `{MyersDiff}.

Definition match_line_gap (lines1 lines2 : list Line) (builder : ChangeBuilder.t)
    (s1 e1 s2 e2 : nat) : option ChangeBuilder.t :=
  expanded ← expand lines1 lines2 s1 s2 e1 e2;
  inner1 ← slice lines1 (start1 expanded) (end1 expanded);
  inner2 ← slice lines2 (start2 expanded) (end2 expanded);
  inner_changes ← lcs inner1 inner2;
  builder ← ChangeBuilder.mark_equal builder s1 s2 (start1 expanded) (start2 expanded);
  us ← unchanged inner_changes;
  builder ← for_each us (λ chunk builder,
    count ← checked_sub (end1 chunk) (start1 chunk);
    ChangeBuilder.mark_equal_count builder
      (start1 expanded + start1 chunk) (start2 expanded + start2 chunk) count) builder;
  ChangeBuilder.mark_equal builder (end1 expanded) (end2 expanded) e1 e2.

Definition smart_line_change_correction (indexes1 indexes2 : list nat)
    (lines1 lines2 : list Line) (changes : Changes.t) : option Changes.t :=
  us ← unchanged changes;
  st ← for_each_pair us (λ i1 i2 '(builder, last1, last2),
    start1 ← indexes1 !! i1;
    start2 ← indexes2 !! i2;
    let end1 := start1 + 1 in
    let end2 := start2 + 1 in
    builder ← match_line_gap lines1 lines2 builder last1 start1 last2 start2;
    builder ← ChangeBuilder.mark_equal builder start1 start2 end1 end2;
    Some (builder, end1, end2))
    (ChangeBuilder.new (length lines1) (length lines2), 0, 0);
  let '(builder, last1, last2) := st in
  builder ← match_line_gap lines1 lines2 builder last1 (length lines1) last2 (length lines2);
  ChangeBuilder.finish builder.

Definition compare_smart (lines1 lines2 : list Line) : option Changes.t :=
  let threshold := UNIMPORTANT_LINE_CHAR_COUNT in
  let '(big_lines1, indexes1) := big_lines lines1 threshold in
  let '(big_lines2, indexes2) := big_lines lines2 threshold in
  changes ← lcs big_lines1 big_lines2;
  smart_line_change_correction indexes1 indexes2 lines1 lines2 changes.

Definition do_compare (lines1 lines2 : list Line) (policy : ComparisonPolicy)
  : option Changes.t :=
  if bool_decide (policy = IgnoreWhitespaces) then
    changes ← compare_smart lines1 lines2;
    changes ← optimize_line_chunks lines1 lines2 changes;
    expand_ranges lines1 lines2 changes
  else
    let iw_lines1 := (λ line, Line.with_policy line IgnoreWhitespaces) <$> lines1 in
    let iw_lines2 := (λ line, Line.with_policy line IgnoreWhitespaces) <$> lines2 in
    iw_changes ← compare_smart iw_lines1 iw_lines2;
    iw_changes ← optimize_line_chunks lines1 lines2 iw_changes;
    correct_changes_second_step lines1 lines2 iw_changes.

Definition compare (lines1 lines2 : list str) (policy : ComparisonPolicy) : option Changes.t :=
  do_compare ((λ line, Line.new line policy) <$> lines1)
    ((λ line, Line.new line policy) <$> lines2) policy.

(** [compare_lines] of [lib.rs]. *)
Definition compare_lines (lines1 lines2 : list str) (policy : ComparisonPolicy)
  : option (list Range) :=
  if bool_decide (lines1 = lines2) then Some []
  else changes ← compare lines1 lines2 policy; Some (Changes.changed changes).
End compare.
