(* ===== verification/DiffLinesCorrect.v ===== *)
(** * paneflow-textdiff: correctness of the line comparison

    [compare_lines] never panics, and what it returns is an edit script for the
    policy whose ranges are separated and trimmed.

    [combinations] enumerates exactly the strictly increasing index vectors, so
    [best_matching_alignment] is optimal; [flush] marks pairs in order, so
    [correct_changes_second_step] builds an edit script.

    The flush of the second step finds lines on both sides, so its
    [debug_assert!] holds; the whole comparison then runs without a panic and
    returns a separated and trimmed edit script for the policy. *)

From S2P Require Import Prelude DiffRange DiffText DiffChanges DiffChunks DiffLines.

(** ** Lines of one policy *)

Definition all_policy (p : ComparisonPolicy) (lines : list Line) : Prop :=
  Forall (λ line, policy line = p) lines.

Lemma line_eq_on p lines : all_policy p lines → eq_on lines.
Proof.
  intros Hp. pose proof (proj1 (Forall_forall _ _) Hp) as Hpol.
  assert (Heq : ∀ x y, x ∈ lines → y ∈ lines → eq_checked x y = Some ((line_hash x =? line_hash y)%N &&
    is_equals (content x) (content y) (policy x))).
  { intros x y Hx Hy. unfold eq_checked, line_eq. by rewrite (Hpol x Hx), (Hpol y Hy), bool_decide_true. }
  split; [intros x y Hx Hy; rewrite Heq by done; by eexists|..]; unfold partial_eq.
  - intros x Hx. rewrite Heq by done. simpl. by rewrite N.eqb_refl, is_equals_refl.
  - intros x y Hx Hy. rewrite !Heq by done. intros [Hh He]%andb_prop. simpl. rewrite N.eqb_eq in Hh.
    rewrite Hh, N.eqb_refl, (Hpol y Hy), <- (Hpol x Hx). simpl. by apply is_equals_sym.
  - intros x y z Hx Hy Hz. rewrite !Heq by done. intros [Hh He]%andb_prop [Hh' He']%andb_prop. simpl. rewrite N.eqb_eq in *.
    rewrite Hh, Hh', N.eqb_refl. simpl. eapply is_equals_trans; [done|].
    by rewrite (Hpol x Hx), <- (Hpol y Hy).
Qed.

Lemma lines_comparable p lines1 lines2 :
  all_policy p lines1 → all_policy p lines2 → Comparable lines1 lines2.
Proof.
  unfold all_policy. rewrite !Forall_forall. intros Hp1 Hp2 x y Hx Hy. unfold eq_checked, line_eq.
  rewrite (Hp1 x Hx), (Hp2 y Hy), bool_decide_true by done. by eexists.
Qed.

Lemma line_eq_true (a b : Line) : a ≡? b = true →
  policy a = policy b ∧ is_equals (content a) (content b) (policy a) = true.
Proof.
  unfold partial_eq, eq_checked, line_eq. case_bool_decide; simpl; [|done]. by intros [_ ?]%andb_prop.
Qed.

Lemma all_policy_slice p lines a n : all_policy p lines → all_policy p (take n (drop a lines)).
Proof. intros. by apply Forall_take, Forall_drop. Qed.

Lemma all_policy_new p (texts : list str) : all_policy p ((λ t, Line.new t p) <$> texts).
Proof. apply Forall_fmap, Forall_forall. done. Qed.

(** ** The boundary shift of lines *)

Lemma next_unimportant_line_spec lines offset count threshold :
  offset + count ≤ length lines →
  runs (next_unimportant_line lines offset count threshold) (λ o, ∀ i, o = Some i → i < count).
Proof.
  intros Hc. eapply runs_mono; [apply (runs_find_some _ _ (λ _, True))|].
  - intros i Hi%elem_of_seq. eapply runs_bind; [apply (runs_lookup _ _ (λ _, True)); [lia|done]|].
    done.
  - intros o Ho i [Hi%elem_of_seq _]%Ho. lia.
Qed.

Lemma prev_unimportant_line_spec lines offset count threshold :
  count ≤ offset + 1 → offset < length lines →
  runs (prev_unimportant_line lines offset count threshold) (λ o, ∀ i, o = Some i → i < count).
Proof.
  intros Hc Hl. eapply runs_mono; [apply (runs_find_some _ _ (λ _, True))|].
  - intros i Hi%elem_of_seq. rewrite checked_sub_some by lia. cbn [mbind option_bind].
    eapply runs_bind; [apply (runs_lookup _ _ (λ _, True)); [lia|done]|]. done.
  - intros o Ho i [Hi%elem_of_seq _]%Ho. lia.
Qed.

Lemma combine_shift_bounds forward backward f b d :
  (∀ i, forward = Some i → i ≤ f) → (∀ i, backward = Some i → i ≤ b) →
  combine_shift forward backward = Some d → (- Z.of_nat b ≤ d ≤ Z.of_nat f)%Z.
Proof.
  intros Hf Hb. destruct forward as [n|], backward as [m|];
    try pose proof (Hf _ eq_refl); try pose proof (Hb _ eq_refl); simpl;
    try destruct n; try destruct m; intros; simplify_eq; lia.
Qed.

Section shift.
Context (lines1 lines2 : list Line).
Let shift_ok (f b : nat) (m : option (option Z)) : Prop :=
  runs m (λ o, ∀ d, o = Some d → (- Z.of_nat b ≤ d ≤ Z.of_nat f)%Z).

(** Both shifts scan [f + 1] lines forward from one boundary and [b + 1]
    backward from another. *)
Lemma scan_both_spec lines from to f b threshold :
  from + f < length lines → b < to → to ≤ length lines →
  shift_ok f b (
    forward ← next_unimportant_line lines from (f + 1) threshold;
    before ← checked_sub to 1;
    backward ← prev_unimportant_line lines before (b + 1) threshold;
    Some (combine_shift forward backward)).
Proof.
  intros. eapply runs_bind; [apply next_unimportant_line_spec; lia|]. intros fo Hfo.
  rewrite checked_sub_some by lia. cbn [mbind option_bind].
  eapply runs_bind; [apply prev_unimportant_line_spec; lia|]. intros ba Hba. simpl in *.
  intros d. apply combine_shift_bounds.
  - intros i ?%Hfo. lia.
  - intros i ?%Hba. lia.
Qed.

Lemma shift_at_thresholds_spec thresholds touch_left f b r1 r2 :
  boundary (length lines1) (length lines2) touch_left f b r1 r2 →
  runs (shift_at_thresholds lines1 lines2 thresholds touch_left f b r1 r2)
    (λ d, (- Z.of_nat b ≤ d ≤ Z.of_nat f)%Z).
Proof.
  intros Hb. induction thresholds as [|t ts IH]; simpl; [lia|].
  destruct Hb as [Hl1 Hl2 [] [] ?? He1 He2 Ht].
  eapply runs_bind.
  - apply scan_both_spec; destruct touch_left; simpl; lia.
  - intros [d|] Hd; simpl; [by apply Hd|]. eapply runs_bind.
    + apply scan_both_spec; destruct touch_left; simpl; lia.
    + intros [d|] Hd'; simpl; [by apply Hd'|done].
Qed.

#[export] Instance line_boundary_shift_laws :
  @BoundaryShiftLaws (length lines1) (length lines2) (line_boundary_shift lines1 lines2).
Proof. intros ?????. apply shift_at_thresholds_spec. Qed.
End shift.

(** ** The big lines and their indexes *)

Record big_ok (lines big : list Line) (indexes : list nat) (base : nat) : Prop := {
  big_length : length big = length indexes;
  big_at k i : indexes !! k = Some i → base ≤ i ∧ i - base < length lines ∧
    big !! k = lines !! (i - base);
  big_sorted k k' i i' : indexes !! k = Some i → indexes !! k' = Some i' → k < k' → i < i' }.

Lemma big_lines_from_spec base lines threshold big indexes :
  big_lines_from base lines threshold = (big, indexes) → big_ok lines big indexes base.
Proof.
  revert base big indexes. induction lines as [|l lines IH]; intros base big indexes; simpl.
  { intros [= <- <-]. split; [done| |]; intros k; [intros i Hk|intros k' i i' Hk];
      by rewrite lookup_nil in Hk. }
  destruct (big_lines_from (S base) lines threshold) as [big' idx'] eqn:Hb.
  apply IH in Hb as [Hlen Hat Hsort].
  assert (∀ k i, idx' !! k = Some i → base < i ∧ i - base < S (length lines) ∧
            big' !! k = (l :: lines) !! (i - base)) as Hat'.
  { intros k i Hk. destruct (Hat k i Hk) as (?&?&->).
    replace (i - base) with (S (i - S base)) by lia. simpl. split_and!; lia || done. }
  destruct (_ <? _); intros [= <- <-].
  - split; [simpl; lia| |].
    + intros [|k] i; simpl.
      * intros [= <-]. rewrite Nat.sub_diag. split_and!; lia || done.
      * intros Hk. destruct (Hat' k i Hk) as (?&?&?). split_and!; lia || done.
    + intros [|k] [|k'] i i'; simpl; try lia.
      * intros [= <-] Hk' _. destruct (Hat' _ _ Hk'); lia.
      * intros Hk Hk' ?. eapply Hsort; [done..|lia].
  - split; [done| |done]. intros k i Hk. destruct (Hat' k i Hk) as (?&?&?).
    split_and!; lia || done.
Qed.

Lemma big_lines_from_policy p base lines threshold :
  all_policy p lines → all_policy p (fst (big_lines_from base lines threshold)).
Proof.
  intros Hp. revert base. induction Hp as [|l lines Hl _ IH]; intros base; simpl; [constructor|].
  specialize (IH (S base)). destruct (big_lines_from (S base) lines threshold).
  destruct (_ <? _); simpl; [by constructor|done].
Qed.

(** ** Matching a gap *)

Section smart.
Context `{MyersDiffLaws} (p : ComparisonPolicy) (lines1 lines2 : list Line).
Context (Hp1 : all_policy p lines1) (Hp2 : all_policy p lines2).
Let E := item_eq lines1 lines2.

Lemma item_eq_slice a1 n1 a2 n2 i j :
  item_eq (take n1 (drop a1 lines1)) (take n2 (drop a2 lines2)) i j → E (a1 + i) (a2 + j).
Proof.
  intros (x&y&Hx&Hy&Hxy). exists x, y. rewrite <-!lookup_drop. split_and!; [| |done].
  - destruct (decide (i < n1)); [by rewrite lookup_take_lt in Hx by done|].
    by rewrite lookup_take_ge in Hx by lia.
  - destruct (decide (j < n2)); [by rewrite lookup_take_lt in Hy by done|].
    by rewrite lookup_take_ge in Hy by lia.
Qed.

(** The builder stays correct and does not move past the end of the gap. *)
Definition builder_at (b : ChangeBuilder.t) (p1 p2 : nat) : Prop :=
  ChangeBuilderFacts.ok E b ∧
  ChangeBuilder.len1 b = length lines1 ∧ ChangeBuilder.len2 b = length lines2 ∧
  ChangeBuilder.index1 b ≤ p1 ∧ ChangeBuilder.index2 b ≤ p2.

Lemma builder_at_mono b p1 p2 q1 q2 :
  builder_at b p1 p2 → p1 ≤ q1 → p2 ≤ q2 → builder_at b q1 q2.
Proof. intros (?&?&?&?&?) ??. unfold builder_at. split_and!; try done; lia. Qed.

Lemma mark_equal_at b i1 i2 e1 e2 :
  builder_at b i1 i2 → gap E i1 i2 e1 e2 →
  runs (ChangeBuilder.mark_equal b i1 i2 e1 e2) (λ b', builder_at b' e1 e2).
Proof.
  intros (?&Hl1&Hl2&?&?) Hg.
  eapply runs_mono; [by apply (ChangeBuilderFacts.builder_mark_equal_spec E)|].
  intros b' (?&?&?&?&?&_). unfold builder_at. split_and!; try done; congruence.
Qed.

Lemma match_line_gap_spec b s1 e1 s2 e2 :
  builder_at b s1 s2 → s1 ≤ e1 → s2 ≤ e2 → e1 ≤ length lines1 → e2 ≤ length lines2 →
  runs (match_line_gap lines1 lines2 b s1 e1 s2 e2) (λ b', builder_at b' e1 e2).
Proof.
  intros Hb ????. unfold match_line_gap.
  eapply runs_bind; [by apply expand_spec; [apply (lines_comparable p)|..]|]. intros r (Hg1&?&?&Hg2&_). cbn beta.
  pose proof Hg1 as (?&?&_&_). pose proof Hg2 as (?&?&_&_).
  rewrite !slice_some by lia. cbn [mbind option_bind].
  set (inner1 := take _ (drop _ lines1)). set (inner2 := take _ (drop _ lines2)).
  assert (length inner1 = end1 r - start1 r ∧ length inner2 = end2 r - start2 r) as [Hi1 Hi2].
  { unfold inner1, inner2. rewrite !length_take, !length_drop. lia. }
  eapply runs_bind; [apply lcs_spec, (line_eq_on p)|].
  { apply Forall_app; split; by apply all_policy_slice. }
  intros c Hc. cbn beta.
  eapply runs_bind; [by eapply mark_equal_at|]. intros b1 Hb1. cbn beta in *.
  eapply runs_bind; [by eapply unchanged_spec|]. intros us Hus. cbn beta in *.
  eapply (runs_bind _ _ (λ b2, builder_at b2 (end1 r) (end2 r)));
    [|intros b2 Hb2; by apply mark_equal_at].
  eapply runs_mono;
    [eapply (runs_for_each_range _ us 0 0 _ _ _
       (λ q1 q2 b', builder_at b' (start1 r + q1) (start2 r + q2)));
     [|exact Hus|by rewrite !Nat.add_0_r]|].
  - intros u q1 q2 b' ??? Hg ?? Hb'. pose proof Hg as (?&?&?&_).
    rewrite checked_sub_some by lia. cbn [mbind option_bind].
    unfold ChangeBuilder.mark_equal_count.
    replace (start1 r + start1 u + (end1 u - start1 u)) with (start1 r + end1 u) by lia.
    replace (start2 r + start2 u + (end1 u - start1 u)) with (start2 r + end2 u) by lia.
    apply mark_equal_at; [eapply builder_at_mono; [done|lia..]|].
    eapply gap_shift; [|done]. intros i j _ _. apply item_eq_slice.
  - intros b' (q1&q2&?&?&Hb'). eapply builder_at_mono; [done|lia..].
Qed.

(** The next indexes are at or after the cursor. *)
Definition indexes_from (indexes : list nat) (k last : nat) : Prop :=
  ∀ k' i, k ≤ k' → indexes !! k' = Some i → last ≤ i.

Lemma indexes_from_next big lines indexes k i :
  big_ok lines big indexes 0 → indexes !! k = Some i → indexes_from indexes (k + 1) (i + 1).
Proof.
  intros Hok Hk k' i' Hle Hk'. pose proof (big_sorted _ _ _ _ Hok k k' i i' Hk Hk'). lia.
Qed.

Lemma smart_line_change_correction_spec big1 idx1 big2 idx2 c :
  big_ok lines1 big1 idx1 0 → big_ok lines2 big2 idx2 0 →
  changes_ok (item_eq big1 big2) (length big1) (length big2) c →
  runs (smart_line_change_correction idx1 idx2 lines1 lines2 c) (λ c',
    changes_ok E (length lines1) (length lines2) c' ∧ separated (Changes.changed c')).
Proof.
  intros Hb1 Hb2 Hc. unfold smart_line_change_correction.
  eapply runs_bind; [by eapply unchanged_spec|]. intros us Hus. cbn beta in *.
  eapply runs_bind.
  - apply (runs_for_each_pair (item_eq big1 big2) us 0 0 (length big1) (length big2) _
      (λ q1 q2 '(b, last1, last2),
      builder_at b last1 last2 ∧ last1 ≤ length lines1 ∧ last2 ≤ length lines2 ∧
      indexes_from idx1 q1 last1 ∧ indexes_from idx2 q2 last2)); [|exact Hus|].
    + intros i j q1 q2 [[b l1] l2] HE ?? Hi Hj (Hb&?&?&Hf1&Hf2).
      rewrite (big_length _ _ _ _ Hb1) in Hi. rewrite (big_length _ _ _ _ Hb2) in Hj.
      destruct (lookup_lt_is_Some_2 _ _ Hi) as [s1 Hs1].
      destruct (lookup_lt_is_Some_2 _ _ Hj) as [s2 Hs2].
      destruct (big_at _ _ _ _ Hb1 _ _ Hs1) as (_&?&Hx).
      destruct (big_at _ _ _ _ Hb2 _ _ Hs2) as (_&?&Hy).
      rewrite Nat.sub_0_r in *. rewrite Hs1. cbn [mbind option_bind].
      rewrite Hs2. cbn [mbind option_bind].
      assert (l1 ≤ s1) by (by eapply Hf1; [|exact Hs1]).
      assert (l2 ≤ s2) by (by eapply Hf2; [|exact Hs2]).
      eapply runs_bind; [apply match_line_gap_spec; [done|lia..]|]. intros b1 Hat1. cbn beta in *.
      eapply runs_bind; [apply mark_equal_at; [done|]|].
      { rewrite !Nat.add_1_r. apply gap_one. destruct HE as (x&y&?&?&?).
        exists x, y. by rewrite <- Hx, <- Hy. }
      intros b2 Hat2. cbn -[Nat.add]. split_and!; [done|lia|lia|..]; by eapply indexes_from_next.
    + split_and!; [|lia|lia|intros ????; lia..].
      unfold builder_at. split_and!; [apply ChangeBuilderFacts.builder_new_ok|done..].
  - intros [[b l1] l2] (q1&q2&_&_&Hat&?&?&_). cbn beta.
    eapply runs_bind; [apply match_line_gap_spec; [done|lia..]|].
    intros b' (Hok&Hl1&Hl2&?&?). cbn beta in *. rewrite <- Hl1, <- Hl2.
    apply ChangeBuilderFacts.builder_finish_spec; [done|lia..].
Qed.

Lemma compare_smart_spec :
  runs (compare_smart lines1 lines2) (λ c,
    changes_ok E (length lines1) (length lines2) c ∧ separated (Changes.changed c)).
Proof.
  unfold compare_smart, big_lines.
  pose proof (big_lines_from_policy p 0 lines1 UNIMPORTANT_LINE_CHAR_COUNT Hp1) as Hq1.
  pose proof (big_lines_from_policy p 0 lines2 UNIMPORTANT_LINE_CHAR_COUNT Hp2) as Hq2.
  destruct (big_lines_from 0 lines1 _) as [big1 idx1] eqn:Hb1.
  destruct (big_lines_from 0 lines2 _) as [big2 idx2] eqn:Hb2.
  apply big_lines_from_spec in Hb1, Hb2. simpl in *.
  eapply runs_bind; [apply lcs_spec, (line_eq_on p); by apply Forall_app|].
  intros c Hc. by apply (smart_line_change_correction_spec big1 idx1 big2 idx2).
Qed.
End smart.

(** ** Trimming the changed ranges *)

Lemma mapM_expand_spec lines1 lines2 `{!Comparable lines1 lines2} rs p1 p2 :
  let E := item_eq lines1 lines2 in
  script E p1 p2 rs (length lines1) (length lines2) → separated rs →
  runs (mapM (λ r, expand lines1 lines2 (start1 r) (start2 r) (end1 r) (end2 r)) rs)
    (λ rs', let fs := filter (λ r, Range.is_empty r = false) rs' in
       script E p1 p2 fs (length lines1) (length lines2) ∧ separated fs ∧
       Forall (trimmed lines1 lines2) fs ∧
       ∀ s, (∀ r, head rs = Some r → s ≤ start1 r) → Forall (λ r, s ≤ start1 r) fs).
Proof.
  cbn zeta. revert p1 p2. induction rs as [|r rs IH]; intros p1 p2; cbn [script separated].
  { simpl. intros. by split_and!. }
  intros (Hg&?&?&Hs) (_&Hnext&Hsep). pose proof (script_bounds _ _ _ _ _ _ Hs).
  cbn [mapM]. eapply runs_bind; [apply expand_spec; [done|lia..]|].
  intros x (Hg1&?&?&Hg2&Htr). cbn beta.
  eapply runs_bind; [by apply IH|]. intros rs' (Hs'&Hsep'&Htr'&Hhd). cbn beta.
  pose proof Hg1 as (?&?&_&_). pose proof Hg2 as (?&?&_&_).
  assert (Forall (λ y, S (end1 r) ≤ start1 y) (filter (λ r, Range.is_empty r = false) rs'))
    as Hafter.
  { apply Hhd. intros y Hy. destruct rs as [|r' rs]; simplify_eq/=. lia. }
  pose proof (script_app _ [] _ _ _ _ _ _ _ Hg2 Hs') as Hs''. simpl in Hs''.
  cbn [runs mret option_ret]. destruct (Range.is_empty x) eqn:Hx.
  - rewrite filter_cons_False by congruence. apply is_empty_true in Hx as [Hx1 Hx2].
    rewrite Hx1, Hx2 in *. split_and!; [|done..|].
    + eapply (script_app _ []); [by eapply gap_app|done].
    + intros s Hr. eapply Forall_impl; [done|]. intros y ?. specialize (Hr r eq_refl). simpl in *. lia.
  - rewrite filter_cons_True by done. cbn [script separated]. split_and!; try done.
    + by eapply gap_app.
    + destruct (filter _ rs'); [done|]. inversion Hafter; subst. lia.
    + by constructor.
    + intros s Hr. specialize (Hr r eq_refl). constructor; [lia|].
      eapply Forall_impl; [done|]. intros y ?. simpl in *. lia.
Qed.

Lemma expand_ranges_spec lines1 lines2 `{!Comparable lines1 lines2} c :
  changes_ok (item_eq lines1 lines2) (length lines1) (length lines2) c →
  separated (Changes.changed c) →
  runs (expand_ranges lines1 lines2 c) (λ c',
    changes_ok (item_eq lines1 lines2) (length lines1) (length lines2) c' ∧
    separated (Changes.changed c') ∧ Forall (trimmed lines1 lines2) (Changes.changed c')).
Proof.
  intros (_&_&Hs) Hsep. unfold expand_ranges.
  eapply runs_bind; [by eapply mapM_expand_spec|].
  intros rs' (?&?&?&_). unfold changes_ok. by split_and!.
Qed.

(** * paneflow-textdiff: the second step of the line comparison *)

(** ** Strictly increasing index vectors *)

Record sorted_in (lo hi : nat) (v : list nat) : Prop := {
  sorted_bound i x : v !! i = Some x → lo ≤ x < hi;
  sorted_lt i j x y : i < j → v !! i = Some x → v !! j = Some y → x < y }.

Lemma sorted_in_nil lo hi : sorted_in lo hi [].
Proof. split; intros i; intros; by rewrite lookup_nil in *. Qed.

Lemma sorted_in_mono lo hi lo' hi' v :
  sorted_in lo hi v → lo' ≤ lo → hi ≤ hi' → sorted_in lo' hi' v.
Proof.
  intros [Hb Hl] ??. split; [|done]. intros i x Hi. specialize (Hb i x Hi). lia.
Qed.

Lemma sorted_in_cons lo hi x v : sorted_in lo hi (x :: v) ↔ lo ≤ x < hi ∧ sorted_in (S x) hi v.
Proof.
  split.
  - intros [Hb Hl]. split; [by apply (Hb 0)|]. split.
    + intros i y Hi. pose proof (Hb (S i) y Hi). pose proof (Hl 0 (S i) x y ltac:(lia) eq_refl Hi). lia.
    + intros i j y z ? Hi Hj. apply (Hl (S i) (S j)); [lia|done..].
  - intros [Hx [Hb Hl]]. split.
    + intros [|i] y; simpl; [by intros [= <-]|]. intros Hi%Hb. lia.
    + intros [|i] [|j] y z; simpl; try lia.
      * intros _ [= <-] Hj%Hb. lia.
      * intros ?. apply Hl. lia.
Qed.

Lemma sorted_in_snoc lo hi x v : sorted_in lo x v → lo ≤ x < hi → sorted_in lo hi (v ++ [x]).
Proof.
  intros Hv Hx. revert lo Hv Hx. induction v as [|y v IH]; intros lo Hv Hx; simpl.
  - apply sorted_in_cons. split; [lia|apply sorted_in_nil].
  - apply sorted_in_cons in Hv as [??]. apply sorted_in_cons. split; [lia|]. apply IH; [done|lia].
Qed.

Lemma sorted_in_seq s n : sorted_in s (s + n) (seq s n).
Proof.
  split.
  - intros i x [-> ?]%lookup_seq. lia.
  - intros i j x y ? [-> ?]%lookup_seq [-> ?]%lookup_seq. lia.
Qed.

(** The items of [v] at the positions [m]. *)
Definition pick (v m : list nat) : list nat := (λ j, default 0 (v !! j)) <$> m.

Lemma pick_lookup v m i j x : m !! i = Some j → v !! j = Some x → pick v m !! i = Some x.
Proof. intros Hi Hj. unfold pick. by rewrite list_lookup_fmap, Hi; simpl; rewrite Hj. Qed.

Lemma sorted_in_pick lo hi v m :
  sorted_in lo hi v → sorted_in 0 (length v) m → sorted_in lo hi (pick v m).
Proof.
  intros [Hvb Hvl] [Hmb Hml].
  assert (∀ i x, pick v m !! i = Some x → ∃ j, m !! i = Some j ∧ v !! j = Some x) as Hp.
  { intros i x. unfold pick. rewrite list_lookup_fmap.
    destruct (m !! i) as [j|] eqn:Hj; simpl; [|done].
    destruct (lookup_lt_is_Some_2 v j) as [y Hy]; [by apply (Hmb i)|].
    rewrite Hy. intros [= <-]. by exists j. }
  split.
  - intros i x (j&_&Hj)%Hp. by eapply Hvb.
  - intros i k x y ? (j&?&?)%Hp (l&?&?)%Hp. eapply Hvl; [by eapply Hml|done..].
Qed.

(** ** [combinations] enumerates them all *)

Fixpoint combos (r start n : nat) : list (list nat) :=
  match r with
  | O => [[]]
  | S r => mjoin ((λ i, cons i <$> combos r (i + 1) n) <$> seq start (n + 1 - start))
  end.

Lemma elem_of_combos r start n v :
  v ∈ combos r start n ↔ length v = r ∧ sorted_in start (n + 1) v.
Proof.
  revert start v. induction r as [|r IH]; intros start v; simpl.
  - rewrite list_elem_of_singleton. split.
    + intros ->. split; [done|apply sorted_in_nil].
    + intros [Hv _]. by apply nil_length_inv.
  - rewrite list_elem_of_join. split.
    + intros (vs&Hv&Hvs). apply list_elem_of_fmap in Hvs as (i&->&Hi%elem_of_seq).
      apply list_elem_of_fmap in Hv as (w&->&[Hlen Hw]%IH). simpl.
      split; [lia|]. apply sorted_in_cons. rewrite Nat.add_1_r in Hw. split; [lia|done].
    + destruct v as [|x v]; intros [Hlen Hv]; [done|]. apply sorted_in_cons in Hv as [? Hv].
      exists (cons x <$> combos r (x + 1) n). split.
      * apply list_elem_of_fmap. exists v. split; [done|]. apply IH.
        rewrite Nat.add_1_r. simpl in Hlen. split; [lia|done].
      * apply list_elem_of_fmap. exists x. split; [done|]. apply elem_of_seq. lia.
Qed.

Section combinations.
Context {St : Type} (process : list nat → St → option St) (n : nat).

Lemma combinations_spec r fuel start k comb st :
  r < fuel → k + r = length comb →
  ∃ comb', take k comb' = take k comb ∧ length comb' = length comb ∧
    combinations fuel start n k comb process st =
    (st' ← for_each (app (take k comb) <$> combos r start n) process st; Some (comb', st')).
Proof.
  revert fuel start k comb st. induction r as [|r IH]; intros [|fuel] start k comb st Hf Hk;
    try lia; cbn [combinations].
  { replace k with (length comb) by lia. rewrite Nat.eqb_refl.
    exists comb. split_and!; [done..|]. csimpl. rewrite firstn_all, app_nil_r.
    by destruct (process comb st). }
  rewrite (proj2 (Nat.eqb_neq k (length comb))) by lia. cbn [combos].
  generalize (seq start (n + 1 - start)). intros xs. clear start.
  revert comb st Hk. induction xs as [|i xs IHxs]; intros comb st Hk; [by exists comb|].
  destruct (lookup_lt_is_Some_2 comb k) as [y Hy]; [lia|].
  cbn [for_each]. rewrite Hy. cbn [mbind option_bind].
  destruct (IH fuel (i + 1) (k + 1) (<[k:=i]> comb) st) as (comb1&Ht1&Hl1&->);
    [lia|rewrite length_insert; lia|].
  assert (take (k + 1) (<[k:=i]> comb) = take k comb ++ [i]) as Htake.
  { rewrite Nat.add_1_r, (take_S_r _ _ i) by (apply list_lookup_insert_eq; lia).
    by rewrite take_insert_ge by lia. }
  assert (take k comb1 = take k comb) as Ht.
  { apply (f_equal (take k)) in Ht1. rewrite !take_take, !Nat.min_l in Ht1 by lia.
    by rewrite Ht1, take_insert_ge by lia. }
  rewrite length_insert in Hl1. csimpl.
  rewrite fmap_app, for_each_app, <- list_fmap_compose, Htake.
  assert ((app (take k comb ++ [i]) <$> combos r (i + 1) n) =
          (app (take k comb) ∘ cons i <$> combos r (i + 1) n)) as ->.
  { apply list_fmap_ext. intros ? w _. simpl. by rewrite <- app_assoc. }
  destruct (for_each _ process st) as [st1|]; cbn [mbind option_bind]; [|by exists comb].
  destruct (IHxs comb1 st1) as (comb2&Ht2&Hl2&Heq2); [lia|].
  exists comb2. split_and!; [congruence|congruence|]. by rewrite Heq2, Ht.
Qed.
End combinations.

(** ** The best alignment *)

Section best.
Context (sub1 sub2 : list nat) (lines1 lines2 : list Line) `{!Comparable lines1 lines2}.
Context (Hsub1 : ∀ i x, sub1 !! i = Some x → x < length lines1).
Context (Hsub2 : ∀ i x, sub2 !! i = Some x → x < length lines2).

Lemma alignment_weight_runs comb :
  length comb = length sub1 → sorted_in 0 (length sub2) comb →
  runs (alignment_weight sub1 sub2 lines1 lines2 comb) (λ _, True).
Proof.
  intros Hlen [Hb _]. unfold alignment_weight.
  apply (runs_for_each _ _ (λ _ _, True)); [done| |done].
  intros dn i rest w Hi _.
  assert (i < length sub1) as Hlt.
  { assert (i ∈ seq 0 (length sub1)) as Hin%elem_of_seq; [|lia].
    rewrite Hi. apply elem_of_app. right. left. }
  destruct (lookup_lt_is_Some_2 sub1 i) as [x Hx]; [done|].
  destruct (lookup_lt_is_Some_2 comb i) as [c Hc]; [lia|].
  destruct (lookup_lt_is_Some_2 sub2 c) as [y Hy]; [by apply (Hb i)|].
  destruct (lookup_lt_is_Some_2 lines1 x) as [l1 Hl1]; [by eapply Hsub1|].
  destruct (lookup_lt_is_Some_2 lines2 y) as [l2 Hl2]; [by eapply Hsub2|].
  rewrite Hx. cbn [mbind option_bind]. rewrite Hc. cbn [mbind option_bind].
  rewrite Hy. cbn [mbind option_bind]. rewrite Hl1. cbn [mbind option_bind].
  rewrite Hl2. cbn [mbind option_bind].
  by rewrite (eq_checked_some lines1 lines2) by (by eapply list_elem_of_lookup_2).
Qed.

(** A vector of positions in [sub2], one for each index of [sub1], in order. *)
Definition alignment (m : list nat) : Prop :=
  length m = length sub1 ∧ sorted_in 0 (length sub2) m.

Lemma keep_best_spec vs best bound w0 :
  Forall alignment vs → alignment best →
  alignment_weight sub1 sub2 lines1 lines2 best = Some w0 → bound ≤ w0 →
  runs (for_each vs (keep_best sub1 sub2 lines1 lines2) (best, bound)) (λ st,
    alignment (fst st) ∧
    ∃ w, alignment_weight sub1 sub2 lines1 lines2 (fst st) = Some w ∧ bound ≤ snd st ∧
      snd st ≤ w ∧ ∀ v wv, v ∈ vs → alignment_weight sub1 sub2 lines1 lines2 v = Some wv →
                     wv ≤ snd st).
Proof.
  intros Hvs. revert best bound w0. induction Hvs as [|v vs Hv _ IH]; intros best bound w0 Hb Hw ?.
  - simpl. split; [done|]. exists w0. split_and!; [done..|]. intros v wv Hin.
    by apply not_elem_of_nil in Hin.
  - cbn [for_each]. destruct Hv as [Hvl Hvs'].
    pose proof (alignment_weight_runs v Hvl Hvs') as Hr.
    destruct (alignment_weight sub1 sub2 lines1 lines2 v) as [wv|] eqn:Hwv; [|done].
    clear Hr.
    assert (keep_best sub1 sub2 lines1 lines2 v (best, bound) =
            Some (if bound <? wv then (v, wv) else (best, bound))) as ->.
    { unfold keep_best. by rewrite Hwv. }
    cbn [mbind option_bind].
    assert (∀ st w', snd st ≤ w' → wv ≤ snd st →
      (∀ u wu, u ∈ vs → alignment_weight sub1 sub2 lines1 lines2 u = Some wu → wu ≤ snd st) →
      ∀ u wu, u ∈ v :: vs → alignment_weight sub1 sub2 lines1 lines2 u = Some wu →
        wu ≤ @snd (list nat) nat st) as Hcons.
    { intros st w' ? ? Hall u wu [->|Hu]%elem_of_cons Hwu; [by simplify_eq|by eapply Hall]. }
    destruct (bound <? wv) eqn:Hlt; bool_to_prop.
    + eapply runs_mono; [eapply (IH v wv wv); [by split|done|lia]|].
      intros st (?&w&?&?&?&Hall). split; [done|]. exists w. split_and!; [done|lia|done|].
      eapply Hcons; [done|lia|done].
    + eapply runs_mono; [by eapply IH|].
      intros st (?&w&?&?&?&Hall). split; [done|]. exists w. split_and!; [done..|].
      eapply Hcons; [done|lia|done].
Qed.

Lemma best_matching_alignment_spec :
  length sub1 < length sub2 →
  runs (best_matching_alignment sub1 sub2 lines1 lines2) (λ m,
    alignment m ∧ ∃ w, alignment_weight sub1 sub2 lines1 lines2 m = Some w ∧
      ∀ v wv, alignment v → alignment_weight sub1 sub2 lines1 lines2 v = Some wv → wv ≤ w).
Proof.
  intros Hlt. unfold best_matching_alignment.
  rewrite assert_some by (by apply Nat.ltb_lt). cbn [mbind option_bind].
  rewrite checked_sub_some by lia. cbn [mbind option_bind].
  set (size := length sub1). set (n := length sub2 - 1).
  assert (∀ v, v ∈ combos size 0 n ↔ alignment v) as Hcombos.
  { intros v. rewrite elem_of_combos. unfold alignment.
    by replace (n + 1) with (length sub2) by lia. }
  destruct (combinations_spec (keep_best sub1 sub2 lines1 lines2) n size (S size) 0 0
              (replicate size 0) (seq 0 size, 0)) as (comb'&_&_&->);
    [lia|by rewrite length_replicate|].
  assert (alignment (seq 0 size)) as Hinit.
  { split; [by rewrite length_seq|]. eapply sorted_in_mono; [apply sorted_in_seq|lia..]. }
  pose proof (alignment_weight_runs _ (proj1 Hinit) (proj2 Hinit)) as Hw0.
  destruct (alignment_weight _ _ _ _ (seq 0 size)) as [w0|] eqn:Hweight; [|done].
  assert (app (take 0 (replicate size 0)) <$> combos size 0 n = combos size 0 n) as ->.
  { simpl. apply list_fmap_id. }
  assert (Forall alignment (combos size 0 n)) as Hall by (apply Forall_forall; apply Hcombos).
  pose proof (keep_best_spec _ _ 0 w0 Hall Hinit Hweight ltac:(lia)) as Hk.
  destruct (for_each _ _ (seq 0 size, 0)) as [st|]; [|done]. cbn [runs mbind option_bind snd fst] in *.
  destruct Hk as (?&w&?&_&?&Hmax).
  split; [done|]. exists w. split; [done|].
  intros v wv Hv%Hcombos Hwv. specialize (Hmax v wv Hv Hwv). lia.
Qed.
End best.

(** ** Marking increasing pairs *)

Section marks.
Context (lines1 lines2 : list Line) `{!Comparable lines1 lines2, !Comparable lines2 lines1}.

Definition step_builder (b : ExpandChangeBuilder.t Line) (p1 p2 : nat) : Prop :=
  ExpandChangeBuilderFacts.ok b ∧
  ExpandChangeBuilder.items1 b = lines1 ∧ ExpandChangeBuilder.items2 b = lines2 ∧
  ExpandChangeBuilder.index1 b ≤ p1 ∧ ExpandChangeBuilder.index2 b ≤ p2.

Lemma step_builder_mono b p1 p2 q1 q2 :
  step_builder b p1 p2 → p1 ≤ q1 → p2 ≤ q2 → step_builder b q1 q2.
Proof. intros (?&?&?&?&?) ??. unfold step_builder. split_and!; try done; lia. Qed.

Lemma mark_one_at b i1 i2 :
  step_builder b i1 i2 → item_eq lines1 lines2 i1 i2 →
  runs (ExpandChangeBuilder.mark_equal_one b i1 i2)
    (λ b', step_builder b' (i1 + 1) (i2 + 1)).
Proof.
  intros (?&He1&He2&?&?) Hij.
  eapply runs_mono; [apply ExpandChangeBuilderFacts.mark_equal_one_spec; [done..|congruence]|].
  intros b' (?&?&?&?&?). unfold step_builder. split_and!; try done; try congruence; lia.
Qed.

Lemma mark_if_equal_spec b i1 i2 :
  step_builder b i1 i2 → i1 < length lines1 → i2 < length lines2 →
  runs (mark_if_equal lines1 lines2 b i1 i2) (λ b', step_builder b' (i1 + 1) (i2 + 1)).
Proof.
  intros Hb [l1 Hl1]%lookup_lt_is_Some_2 [l2 Hl2]%lookup_lt_is_Some_2.
  unfold mark_if_equal. rewrite Hl1. cbn [mbind option_bind]. rewrite Hl2. cbn [mbind option_bind].
  rewrite (eq_checked_some lines1 lines2) by (by eapply list_elem_of_lookup_2). cbn [mbind option_bind].
  destruct (l1 ≡? l2) eqn:Heq; [|eapply step_builder_mono; [exact Hb|lia..]].
  apply mark_one_at; [done|]. by exists l1, l2.
Qed.

(** A loop that marks the pairs of two increasing vectors one after the other. *)
Lemma mark_loop_spec (v1 v2 : list nat) count body b lo1 lo2 hi1 hi2 :
  count ≤ length v1 → count ≤ length v2 →
  sorted_in lo1 hi1 v1 → sorted_in lo2 hi2 v2 →
  lo1 ≤ hi1 → lo2 ≤ hi2 → hi1 ≤ length lines1 → hi2 ≤ length lines2 →
  (∀ i a c b, v1 !! i = Some a → v2 !! i = Some c →
     body i b = mark_if_equal lines1 lines2 b a c) →
  step_builder b lo1 lo2 →
  runs (for_each (seq 0 count) body b) (λ b', step_builder b' hi1 hi2).
Proof.
  intros Hc1 Hc2 Hv1 Hv2 ???? Hbody Hb.
  apply (runs_for_each _ _ (λ dn b', step_builder b' hi1 hi2 ∧
    ∀ a c, v1 !! length dn = Some a → v2 !! length dn = Some c → step_builder b' a c)).
  - split; [eapply step_builder_mono; [exact Hb|lia..]|]. simpl. intros a c Ha Hc.
    pose proof (sorted_bound _ _ _ Hv1 0 a Ha). pose proof (sorted_bound _ _ _ Hv2 0 c Hc).
    eapply step_builder_mono; [done|lia..].
  - intros dn i rest b' Hi [_ Hat].
    assert (i = length dn ∧ i < count) as [-> Hlt].
    { assert (seq 0 count !! length dn = Some i) as Hl%lookup_seq; [|lia].
      by rewrite Hi, lookup_app_r, Nat.sub_diag by lia. }
    destruct (lookup_lt_is_Some_2 v1 (length dn)) as [a Ha]; [lia|].
    destruct (lookup_lt_is_Some_2 v2 (length dn)) as [c Hc]; [lia|].
    pose proof (sorted_bound _ _ _ Hv1 _ _ Ha). pose proof (sorted_bound _ _ _ Hv2 _ _ Hc).
    rewrite (Hbody _ a c) by done.
    eapply runs_mono; [apply mark_if_equal_spec; [by apply Hat|lia..]|].
    intros b'' Hb''. rewrite length_app. simpl. split; [eapply step_builder_mono; [exact Hb''|lia..]|].
    intros a' c' Ha' Hc'.
    pose proof (sorted_lt _ _ _ Hv1 (length dn) (length dn + 1) a a' ltac:(lia) Ha Ha').
    pose proof (sorted_lt _ _ _ Hv2 (length dn) (length dn + 1) c c' ltac:(lia) Hc Hc').
    eapply step_builder_mono; [exact Hb''|lia..].
  - by intros b' [??].
Qed.

Lemma align_exact_matching_spec b sub1 sub2 lo1 lo2 hi1 hi2 :
  sorted_in lo1 hi1 sub1 → sorted_in lo2 hi2 sub2 →
  lo1 ≤ hi1 → lo2 ≤ hi2 → hi1 ≤ length lines1 → hi2 ≤ length lines2 →
  step_builder b lo1 lo2 →
  runs (align_exact_matching lines1 lines2 b sub1 sub2) (λ b', step_builder b' hi1 hi2).
Proof.
  intros H1 H2 ???? Hb. unfold align_exact_matching.
  assert (∀ i x, sub1 !! i = Some x → x < length lines1) as Hin1.
  { intros i x Hx%(sorted_bound _ _ _ H1). lia. }
  assert (∀ i x, sub2 !! i = Some x → x < length lines2) as Hin2.
  { intros i x Hx%(sorted_bound _ _ _ H2). lia. }
  destruct (_ || _) eqn:Hskip; [|destruct (length sub1 <? length sub2) eqn:Hlt; bool_to_prop].
  - eapply (mark_loop_spec sub1 sub2); [lia|lia|done..| |done].
    intros i a c b' Ha Hc. by rewrite Ha; cbn [mbind option_bind]; rewrite Hc.
  - eapply runs_bind; [by apply best_matching_alignment_spec|].
    intros m [[Hlen Hm] _]. cbn beta.
    eapply (mark_loop_spec sub1 (pick sub2 m)); [lia| |done|by apply sorted_in_pick|done..| |done].
    { unfold pick. rewrite length_fmap. lia. }
    intros i a c b' Ha Hc. rewrite Ha. cbn [mbind option_bind].
    destruct (lookup_lt_is_Some_2 m i) as [j Hj].
    { apply lookup_lt_Some in Ha. lia. }
    destruct (lookup_lt_is_Some_2 sub2 j) as [y Hy]; [by eapply sorted_bound|].
    rewrite Hj. cbn [mbind option_bind]. rewrite Hy. cbn [mbind option_bind].
    rewrite (pick_lookup sub2 m i j y Hj Hy) in Hc. by simplify_eq.
  - assert (length sub2 < length sub1) by lia.
    eapply runs_bind; [by apply best_matching_alignment_spec|].
    intros m [[Hlen Hm] _]. cbn beta.
    eapply (mark_loop_spec (pick sub1 m) sub2); [|lia|by apply sorted_in_pick|done..| |done].
    { unfold pick. rewrite length_fmap. lia. }
    intros i a c b' Ha Hc.
    destruct (lookup_lt_is_Some_2 m i) as [j Hj].
    { apply lookup_lt_Some in Hc. lia. }
    destruct (lookup_lt_is_Some_2 sub1 j) as [y Hy]; [by eapply sorted_bound|].
    rewrite Hj. cbn [mbind option_bind]. rewrite Hy. cbn [mbind option_bind].
    rewrite Hc. cbn [mbind option_bind].
    rewrite (pick_lookup sub1 m i j y Hj Hy) in Ha. by simplify_eq.
Qed.
End marks.

(** * paneflow-textdiff: [compare_lines] is correct *)

(** ** The second step *)

(** Line [i] of [lines] equals the text [s] up to whitespace. *)
Definition iw_at (s : str) (lines : list Line) (i : nat) : Prop :=
  ∃ line, lines !! i = Some line ∧ is_equals s (content line) IgnoreWhitespaces = true.

Lemma sample_lines_spec s lines start stop last :
  start ≤ stop → stop ≤ length lines → last ≤ stop →
  runs (sample_lines s lines start stop last) (λ r,
    sorted_in start stop (fst r) ∧ snd r ≤ stop ∧
    ∀ i, start ≤ i → i < stop → iw_at s lines i → i ∈ fst r).
Proof.
  intros ???. unfold sample_lines.
  apply (runs_for_each _ _ (λ dn r, sorted_in start (start + length dn) (fst r) ∧ snd r ≤ stop ∧
    ∀ i, start ≤ i → i < start + length dn → iw_at s lines i → i ∈ fst r)).
  - simpl. split_and!; [apply sorted_in_nil|done|]. intros; lia.
  - intros dn x rest [sub l'] Hx (Hsub&Hl&Hin).
    assert (x = start + length dn ∧ length dn < stop - start) as [-> ?].
    { assert (seq start (stop - start) !! length dn = Some x) as Hq%lookup_seq; [|lia].
      by rewrite Hx, lookup_app_r, Nat.sub_diag by lia. }
    destruct (lookup_lt_is_Some_2 lines (start + length dn)) as [line Hline]; [lia|].
    rewrite Hline. cbn [mbind option_bind runs]. rewrite length_app. cbn [length fst snd] in *.
    assert (∀ i, start ≤ i → i < start + (length dn + 1) → iw_at s lines i →
      i ∈ sub ∨ i = start + length dn) as Hcase.
    { intros i ???. destruct (decide (i < start + length dn)); [left; by apply Hin|right; lia]. }
    destruct (is_equals s (content line) IgnoreWhitespaces) eqn:Heq;
      cbn [fst snd]; split_and!; try lia.
    + eapply sorted_in_snoc; [exact Hsub|lia].
    + intros i ?? Hi. rewrite elem_of_app, list_elem_of_singleton. by apply Hcase.
    + eapply sorted_in_mono; [exact Hsub|lia..].
    + intros i ?? Hi. destruct (Hcase i) as [?| ->]; [done..|]. destruct Hi as (?&?&?). congruence.
  - intros r (Hsub&?&Hin). rewrite length_seq in *. replace (start + (stop - start)) with stop in * by lia.
    by split_and!.
Qed.

Section second_step_facts.
Context (lines1 lines2 : list Line) `{!Comparable lines1 lines2, !Comparable lines2 lines1}.

Definition pending (b : ExpandChangeBuilder.t Line) (l1 l2 q1 q2 : nat) (s : str) : Prop :=
  ∃ i j, Nat.max l1 (ExpandChangeBuilder.index1 b) ≤ i ∧ i < q1 ∧ iw_at s lines1 i ∧
         Nat.max l2 (ExpandChangeBuilder.index2 b) ≤ j ∧ j < q2 ∧ iw_at s lines2 j.

Definition step_ok (step : SecondStep) (q1 q2 : nat) : Prop :=
  step_builder lines1 lines2 (builder step) q1 q2 ∧ last1 step ≤ q1 ∧ last2 step ≤ q2 ∧
  ∀ s, sample step = Some s → pending (builder step) (last1 step) (last2 step) q1 q2 s.

Lemma step_ok_mono step q1 q2 r1 r2 :
  step_ok step q1 q2 → q1 ≤ r1 → q2 ≤ r2 → step_ok step r1 r2.
Proof.
  intros (?&?&?&Hs) ??. unfold step_ok. split_and!; [by eapply step_builder_mono|lia..|].
  intros s (i&j&?&?&?&?&?&?)%Hs. exists i, j. split_and!; done || lia.
Qed.

Lemma elem_of_length {A} (x : A) l : x ∈ l → negb (length l =? 0) = true.
Proof. destruct l; [by intros ?%not_elem_of_nil|done]. Qed.

Lemma flush_spec step q1 q2 p1 p2 :
  step_ok step q1 q2 → q1 ≤ p1 → q2 ≤ p2 → p1 ≤ length lines1 → p2 ≤ length lines2 →
  runs (flush lines1 lines2 step p1 p2) (λ s, step_ok s p1 p2 ∧ sample s = None).
Proof.
  intros Hok ????. pose proof Hok as (Hb&?&?&Hs). unfold flush.
  destruct (sample step) as [s|] eqn:Hsample.
  2: { simpl. split; [by eapply step_ok_mono|done]. }
  destruct (Hs s eq_refl) as (i&j&?&?&?&?&?&?). destruct Hb as (Hbok&Hi1&Hi2&?&?).
  eapply runs_bind; [apply sample_lines_spec; lia|]. intros [sub1 n1] (Hsub1&?&Hin1).
  eapply runs_bind; [apply sample_lines_spec; lia|]. intros [sub2 n2] (Hsub2&?&Hin2).
  simpl in *.
  rewrite assert_some.
  2: { apply andb_true_iff. split.
       - apply (elem_of_length i), Hin1; [lia|lia|done].
       - apply (elem_of_length j), Hin2; [lia|lia|done]. }
  cbn [mbind option_bind].
  eapply runs_bind.
  { eapply align_exact_matching_spec; [done|done|exact Hsub1|exact Hsub2|lia..|].
    unfold step_builder. split_and!; done || lia. }
  intros b' Hb'. simpl. unfold step_ok. simpl. split_and!; done || lia.
Qed.

Let E_iw i j := ∃ a b, lines1 !! i = Some a ∧ lines2 !! j = Some b ∧
  is_equals (content a) (content b) IgnoreWhitespaces = true.

Lemma second_step_pair_spec step i j q1 q2 :
  E_iw i j → q1 ≤ i → q2 ≤ j → i < length lines1 → j < length lines2 → step_ok step q1 q2 →
  runs (second_step_pair lines1 lines2 i j step) (λ s, step_ok s (i + 1) (j + 1)).
Proof.
  intros (a&c&Ha&Hc&Hac) ???? Hok. unfold second_step_pair.
  rewrite Ha. cbn [mbind option_bind]. rewrite Hc. cbn [mbind option_bind].
  destruct (match sample step with Some _ => _ | None => _ end).
  { simpl. eapply step_ok_mono; [exact Hok|lia..]. }
  rewrite (eq_checked_some lines1 lines2) by (by eapply list_elem_of_lookup_2). cbn [mbind option_bind].
  destruct (a ≡? c) eqn:Heq.
  - eapply runs_bind; [eapply flush_spec; [exact Hok|lia..]|].
    intros s [(Hb&?&?&_) Hs]. cbn beta.
    eapply runs_bind; [apply mark_one_at; [exact Hb|by exists a, c]|].
    intros b' Hb'. simpl. unfold step_ok. simpl. split_and!; [done|lia..|]. by rewrite Hs.
  - eapply runs_bind; [eapply flush_spec; [exact Hok|lia..]|].
    intros s [(Hb&?&?&_) Hs]. simpl. unfold step_ok. simpl.
    split_and!; [eapply step_builder_mono; [exact Hb|lia..]|lia..|].
    intros ? [= <-]. destruct Hb as (_&_&_&?&?). exists i, j.
    split_and!; try lia; [exists a|exists c]; split; [done|apply is_equals_refl|done..].
Qed.

Lemma correct_changes_second_step_spec c :
  changes_ok E_iw (length lines1) (length lines2) c →
  runs (correct_changes_second_step lines1 lines2 c) (λ c',
    changes_ok (item_eq lines1 lines2) (length lines1) (length lines2) c' ∧
    separated (Changes.changed c') ∧ Forall (trimmed lines1 lines2) (Changes.changed c')).
Proof.
  intros Hc. pose proof Hc as (Hl1&Hl2&_). unfold correct_changes_second_step.
  eapply runs_bind; [by apply unchanged_spec|]. intros us Hus. cbn beta.
  eapply runs_bind.
  - apply (runs_for_each_pair E_iw us 0 0 (length lines1) (length lines2) _
      (λ q1 q2 s, step_ok s q1 q2)); [|done|].
    + intros i j q1 q2 st ??????. by eapply second_step_pair_spec.
    + unfold step_ok, step_builder. simpl.
      split_and!; try done; try lia. by apply ExpandChangeBuilderFacts.expand_builder_new_ok.
  - intros st (q1&q2&?&?&Hst). cbn beta. rewrite Hl1, Hl2.
    eapply runs_bind; [by eapply flush_spec|].
    intros s [((?&He1&He2&?&?)&_) _]. cbn beta.
    eapply runs_mono; [apply ExpandChangeBuilderFacts.expand_builder_finish_spec; [done|congruence..]|].
    by rewrite He1, He2.
Qed.
End second_step_facts.

(** ** The comparison *)

Lemma with_policy_content p (lines : list Line) i line :
  ((λ l, Line.with_policy l p) <$> lines) !! i = Some line →
  ∃ l, lines !! i = Some l ∧ content l = content line ∧ policy line = p.
Proof.
  rewrite list_lookup_fmap. destruct (lines !! i) as [l|]; simpl; [|done].
  intros [= <-]. exists l. unfold Line.with_policy. by destruct (bool_decide_reflect (policy l = p)).
Qed.

Lemma all_policy_with_policy p (lines : list Line) :
  all_policy p ((λ l, Line.with_policy l p) <$> lines).
Proof.
  apply Forall_fmap, Forall_forall. intros l _. simpl. unfold Line.with_policy.
  by destruct (bool_decide_reflect (policy l = p)).
Qed.

Section compare_facts.
Context `{MyersDiffLaws}.

(** Lines [i] and [j] of the two texts are equal under the policy. *)
Definition text_eq (p : ComparisonPolicy) (texts1 texts2 : list str) (i j : nat) : Prop :=
  ∃ a b, texts1 !! i = Some a ∧ texts2 !! j = Some b ∧ is_equals a b p = true.

Lemma optimize_line_chunks_spec E (lines1 lines2 : list Line) `{!Comparable lines1 lines2} c :
  (∀ i j, item_eq lines1 lines2 i j → E i j) →
  changes_ok E (length lines1) (length lines2) c →
  runs (optimize_line_chunks lines1 lines2 c) (λ c',
    changes_ok E (length lines1) (length lines2) c' ∧ separated (Changes.changed c')).
Proof.
  intros HE Hc. eapply runs_mono; [exact (optimize_chunks_spec lines1 lines2 E HE c Hc)|].
  by intros c' (?&?&_).
Qed.

(** What a finished comparison of [Line]s guarantees. *)
Definition line_script (lines1 lines2 : list Line) (c : Changes.t) : Prop :=
  changes_ok (item_eq lines1 lines2) (length lines1) (length lines2) c ∧
  separated (Changes.changed c) ∧ Forall (trimmed lines1 lines2) (Changes.changed c).

Lemma do_compare_spec p (lines1 lines2 : list Line) :
  all_policy p lines1 → all_policy p lines2 →
  runs (do_compare lines1 lines2 p) (line_script lines1 lines2).
Proof.
  intros Hp1 Hp2. unfold do_compare.
  pose proof (lines_comparable _ _ _ Hp1 Hp2). pose proof (lines_comparable _ _ _ Hp2 Hp1).
  destruct (bool_decide_reflect (p = IgnoreWhitespaces)) as [->|Hp].
  - eapply runs_bind; [by apply (compare_smart_spec IgnoreWhitespaces)|].
    intros c [Hc _]. cbn beta.
    eapply runs_bind; [by apply optimize_line_chunks_spec; [done| |exact Hc]|].
    intros c' [Hc' Hsep]. by apply expand_ranges_spec.
  - set (iw := λ line, Line.with_policy line IgnoreWhitespaces).
    eapply runs_bind; [apply (compare_smart_spec IgnoreWhitespaces);
      apply all_policy_with_policy|].
    intros c [Hc _]. cbn beta. rewrite !length_fmap in Hc.
    set (E_iw := λ i j, ∃ a b, lines1 !! i = Some a ∧ lines2 !! j = Some b ∧
      is_equals (content a) (content b) IgnoreWhitespaces = true).
    assert (changes_ok E_iw (length lines1) (length lines2) c) as Hc'.
    { destruct Hc as (?&?&Hs). unfold changes_ok. split_and!; [done..|].
      eapply script_mono; [|exact Hs].
      intros i j ?? (a&b&Ha&Hb&[_ Hab]%line_eq_true).
      apply with_policy_content in Ha as (a'&?&Hac&Hap), Hb as (b'&?&Hbc&_).
      exists a', b'. rewrite Hac, Hbc, <- Hap. done. }
    eapply runs_bind; [apply optimize_line_chunks_spec; [done| |exact Hc']|].
    { intros i j (a&b&Ha&Hb&[_ Hab]%line_eq_true). exists a, b. split_and!; [done..|].
      by eapply is_equals_iw. }
    intros c' [Hc'' _]. by apply correct_changes_second_step_spec.
Qed.

(** Equality of [Line]s built from texts implies equality of the texts. *)
Lemma item_eq_texts p texts1 texts2 i j :
  item_eq ((λ t, Line.new t p) <$> texts1) ((λ t, Line.new t p) <$> texts2) i j →
  text_eq p texts1 texts2 i j.
Proof.
  intros (a&b&Ha&Hb&[_ Hab]%line_eq_true). rewrite list_lookup_fmap in Ha, Hb.
  destruct (texts1 !! i) as [x|] eqn:Hx, (texts2 !! j) as [y|] eqn:Hy; simplify_eq/=.
  by exists x, y.
Qed.

Definition text_script (p : ComparisonPolicy) (texts1 texts2 : list str) (rs : list Range)
  : Prop :=
  script (text_eq p texts1 texts2) 0 0 rs (length texts1) (length texts2) ∧ separated rs ∧
  Forall (trimmed ((λ t, Line.new t p) <$> texts1) ((λ t, Line.new t p) <$> texts2)) rs.

Lemma compare_spec p texts1 texts2 :
  runs (compare texts1 texts2 p) (λ c, Changes.len1 c = length texts1 ∧
    Changes.len2 c = length texts2 ∧ text_script p texts1 texts2 (Changes.changed c)).
Proof.
  unfold compare. eapply runs_mono; [apply do_compare_spec; apply all_policy_new|].
  intros c ((Hl1&Hl2&Hs)&?&?). rewrite !length_fmap in *. unfold text_script.
  split_and!; try done. eapply script_mono; [|exact Hs]. intros i j _ _. apply item_eq_texts.
Qed.

Lemma compare_lines_spec p texts1 texts2 :
  runs (compare_lines texts1 texts2 p) (text_script p texts1 texts2).
Proof.
  unfold compare_lines. destruct (bool_decide_reflect (texts1 = texts2)) as [<-|_].
  - unfold text_script; simpl. split_and!; [|done|constructor].
    unfold gap. split_and!; [lia..|]. simpl. rewrite Nat.sub_0_r.
    intros i [a Ha]%lookup_lt_is_Some_2. exists a, a. by rewrite is_equals_refl.
  - eapply runs_bind; [apply compare_spec|]. by intros c (_&_&?).
Qed.
End compare_facts.
