(* ===== verification/DiffTracker.v ===== *)
(** * paneflow-textdiff: the change tracker ([tracker.rs])

    [BlockTracker] keeps the changed blocks of an edited document against its
    base.  [u32] line numbers are [Z] with their width written out: conversions
    clamp or truncate as the code does, and an addition that overflows is a
    panic ([None]), as in a build with overflow checks. *)

From S2P Require Import Prelude DiffRange DiffText DiffChanges DiffLines DiffLinesCorrect.

Local Open Scope Z_scope.

Definition TOO_BIG_BLOCK_LINES : N := 100000.

(** ** Machine integers *)

Definition U32_MAX : Z := 2 ^ 32 - 1.
Definition U64_MAX : Z := 2 ^ 64 - 1.

(** [a + b] at a width whose largest value is [max], overflow checked. *)
Definition checked_add (max a b : Z) : option Z := if a + b <=? max then Some (a + b) else None.

(** [n as u32]. *)
Definition as_u32 (n : nat) : Z := Z.of_nat n mod 2 ^ 32.

(** ** Blocks *)

Inductive BlockKind := Added | Modified | Deleted.

#[export] Instance BlockKind_eq_dec : EqDecision BlockKind.
Proof. solve_decision. Defined.

(** [std::ops::Range<u32>]. *)
Record LineRange := mkLines { start : Z; end_ : Z }.

Module LineRange.
Definition is_empty (r : LineRange) : bool := negb (start r <? end_ r).
Definition contains (r : LineRange) (line : Z) : bool := (start r <=? line) && (line <? end_ r).
End LineRange.

Record Block := mkBlock {
  lines : LineRange; base_lines : LineRange; dirty : bool; too_big : bool }.

Module Block.
Definition kind (self : Block) : BlockKind :=
  if LineRange.is_empty (lines self) then Deleted
  else if LineRange.is_empty (base_lines self) then Added
  else Modified.

Definition is_empty (self : Block) : bool :=
  LineRange.is_empty (lines self) && LineRange.is_empty (base_lines self).

Definition touches (self next : Block) : bool :=
  (start (lines next) <=? end_ (lines self)) ||
  (start (base_lines next) <=? end_ (base_lines self)).

Definition covers_line (self : Block) (line : Z) : option bool :=
  match kind self with
  | Deleted =>
      if line =? start (lines self) then Some true
      else above ← checked_add U32_MAX line 1; Some (above =? start (lines self))
  | _ => Some (LineRange.contains (lines self) line)
  end.
End Block.

Record TrackerStats := mkStats { rediffs : Z; full_rediffs : Z; diffed_lines : Z }.

Record BlockTracker := mkTracker { active : bool; blocks : list Block; stats : TrackerStats }.

(** ** Conversions *)

Definition clamp_line (value : Z) : Z := Z.min (Z.max value 0) U32_MAX.

Definition clamp_range (range : LineRange) (len : nat) : nat * nat :=
  let end_ := Nat.min (Z.to_nat (end_ range)) len in
  (Nat.min (Z.to_nat (start range)) end_, end_).

Definition shift_range (range : LineRange) (delta : Z) : LineRange :=
  mkLines (clamp_line (start range + delta)) (clamp_line (end_ range + delta)).

(** ** A block too big to be compared *)

Section trimmed_block.
Context (doc_slice base_slice : list str) (policy : ComparisonPolicy).
Let dlen := length doc_slice.
Let blen := length base_slice.

Definition equal_prefix : option nat :=
  count_while (S (Nat.min dlen blen)) (λ prefix,
    and_then ((prefix <? dlen)%nat && (prefix <? blen)%nat)
      (a ← doc_slice !! prefix; b ← base_slice !! prefix; Some (is_equals a b policy))) 0.

Definition equal_suffix (prefix : nat) : option nat :=
  count_while (S (Nat.min dlen blen)) (λ suffix,
    drest ← checked_sub dlen prefix; 
    brest ← checked_sub blen prefix;
    and_then ((suffix <? drest)%nat && (suffix <? brest)%nat)
      (i ← checked_sub dlen suffix; i ← checked_sub i 1;
       j ← checked_sub blen suffix; j ← checked_sub j 1;
       a ← doc_slice !! i; b ← base_slice !! j; Some (is_equals a b policy))) 0.

Definition trimmed_block (doc_range base_range : nat * nat) : option (option Block) :=
  prefix ← equal_prefix;
  suffix ← equal_suffix prefix;
  doc_end ← checked_sub (snd doc_range) suffix;
  base_end ← checked_sub (snd base_range) suffix;
  let block := mkBlock
    (mkLines (as_u32 (fst doc_range + prefix)) (as_u32 doc_end))
    (mkLines (as_u32 (fst base_range + prefix)) (as_u32 base_end)) false true in
  Some (if Block.is_empty block then None else Some block).
End trimmed_block.

(** ** The tracker *)

Module BlockTracker.
Definition inactive : BlockTracker := mkTracker false [] (mkStats 0 0 0).

Definition reset (self : BlockTracker) (doc_lines base_lines : Z) : BlockTracker :=
  if negb (active self) then self
  else mkTracker (active self)
         [mkBlock (mkLines 0 doc_lines) (mkLines 0 base_lines) true false] (stats self).

Definition fresh (doc_lines base_lines : Z) : BlockTracker :=
  reset (mkTracker true [] (mkStats 0 0 0)) doc_lines base_lines.

Definition is_dirty (self : BlockTracker) : bool := existsb dirty (blocks self).

Definition block_at (self : BlockTracker) (line : Z) : option (option (nat * Block)) :=
  find_some (imap pair (blocks self)) (λ ib, Block.covers_line (snd ib) line).

(** The variables of the loop of [range_changed]. *)
Record Scan := mkScan {
  next : list Block; after : list Block; affected : option (Block * Block);
  shift_before : Z; any_too_big : bool }.

Definition scan_block (start_line end_line : Z) (s : Scan) (block : Block) : Scan :=
  if end_ (lines block) <? start_line then
    mkScan (next s ++ [block]) (after s) (affected s)
      (end_ (base_lines block) - end_ (lines block)) (any_too_big s)
  else if end_line <? start (lines block) then
    mkScan (next s) (after s ++ [block]) (affected s) (shift_before s) (any_too_big s)
  else
    mkScan (next s) (after s)
      (Some match affected s with
            | None => (block, block)
            | Some (first, _) => (first, block)
            end)
      (shift_before s) (any_too_big s || too_big block).

(** [(range_start, range_end, base_start, base_end)] of the dirty block. *)
Definition dirty_range (start_line end_line delta : Z) (s : Scan) : Z * Z * Z * Z :=
  match affected s with
  | None => (start_line, end_line + delta, start_line + shift_before s, end_line + shift_before s)
  | Some (first, last) =>
      let '(range_start, base_start) :=
        if start (lines first) <=? start_line
        then (start (lines first), start (base_lines first))
        else (start_line, start_line + start (base_lines first) - start (lines first)) in
      let '(range_end, base_end) :=
        if end_line <=? end_ (lines last)
        then (end_ (lines last) + delta, end_ (base_lines last))
        else (end_line + delta, end_line + end_ (base_lines last) - end_ (lines last)) in
      (range_start, range_end, base_start, base_end)
  end.

Definition range_changed (self : BlockTracker) (start_line before_len after_len : Z)
  : option BlockTracker :=
  if negb (active self) then Some self
  else
    end_line ← checked_add U32_MAX start_line before_len;
    let delta := after_len - before_len in
    let s := foldl (scan_block start_line end_line) (mkScan [] [] None 0 false) (blocks self) in
    let '(range_start, range_end, base_start, base_end) :=
      dirty_range start_line end_line delta s in
    let block := mkBlock
      (mkLines (clamp_line range_start) (clamp_line (Z.max range_end range_start)))
      (mkLines (clamp_line base_start) (clamp_line (Z.max base_end base_start)))
      true (any_too_big s) in
    Some (mkTracker (active self)
      (next s ++ [block] ++
       ((λ b, mkBlock (shift_range (lines b) delta) (base_lines b) (dirty b) (too_big b))
          <$> after s))
      (stats self)).

Section refresh.
Context `{MyersDiff} (doc_lines base_lines_ : list str) (policy : ComparisonPolicy).

(** The block that spans a group, from the first block to the last. *)
Definition merged (group : list Block) (first last : Block) : Block :=
  mkBlock
    (mkLines (start (lines first)) (Z.max (end_ (lines last)) (start (lines first))))
    (mkLines (start (base_lines first))
       (Z.max (end_ (base_lines last)) (start (base_lines first))))
    true (existsb too_big group).

Definition is_too_big (slice : list str) : bool :=
  (TOO_BIG_BLOCK_LINES <? N.of_nat (length slice))%N.

(** [self.stats] after a comparison of the two slices. *)
Definition count_rediff (st : TrackerStats) (doc_slice base_slice : list str)
  : option TrackerStats :=
  rediffs ← checked_add U32_MAX (rediffs st) 1;
  full ← (if (length doc_slice =? length doc_lines)%nat
             && (length base_slice =? length base_lines_)%nat
          then checked_add U32_MAX (full_rediffs st) 1 else Some (full_rediffs st));
  diffed ← checked_add U64_MAX (diffed_lines st)
             (Z.of_nat (length doc_slice + length base_slice));
  Some (mkStats rediffs full diffed).

(** A range of [compare_lines(base_slice, doc_slice)] as a block. *)
Definition block_of_range (doc_start base_start : nat) (range : Range) : Block :=
  mkBlock
    (mkLines (as_u32 (doc_start + start2 range)) (as_u32 (doc_start + end2 range)))
    (mkLines (as_u32 (base_start + start1 range)) (as_u32 (base_start + end1 range)))
    false false.

(** [flush_group]: the group is emptied; [out] and the statistics are
    returned. *)
Definition flush_group (st : TrackerStats) (group out : list Block)
  : option (TrackerStats * list Block) :=
  match head group, last group with
  | Some first, Some last =>
      if negb (existsb dirty group) then Some (st, out ++ group)
      else
        let merged := merged group first last in
        if Block.is_empty merged then Some (st, out)
        else
          let doc_range := clamp_range (lines merged) (length doc_lines) in
          let base_range := clamp_range (base_lines merged) (length base_lines_) in
          doc_slice ← slice doc_lines (fst doc_range) (snd doc_range);
          base_slice ← slice base_lines_ (fst base_range) (snd base_range);
          if too_big merged || is_too_big doc_slice || is_too_big base_slice then
            block ← trimmed_block doc_slice base_slice policy doc_range base_range;
            Some (st, out ++ match block with Some block => [block] | None => [] end)
          else
            st ← count_rediff st doc_slice base_slice;
            ranges ← compare_lines base_slice doc_slice policy;
            Some (st, out ++ (block_of_range (fst doc_range) (fst base_range) <$> ranges))
  | _, _ => Some (st, out)
  end.

(** The body of the loop of [refresh_dirty]: [(stats, group, refreshed)]. *)
Definition refresh_block (block : Block) (s : TrackerStats * list Block * list Block)
  : option (TrackerStats * list Block * list Block) :=
  let '(st, group, refreshed) := s in
  s ← (if match last group with
          | Some last => negb (Block.touches last block)
          | None => false
          end
       then r ← flush_group st group refreshed; Some (fst r, [], snd r)
       else Some (st, group, refreshed));
  let '(st, group, refreshed) := s in
  Some (st, group ++ [block], refreshed).

Definition refresh_dirty (self : BlockTracker) : option (BlockTracker * bool) :=
  if negb (active self) || negb (is_dirty self) then Some (self, false)
  else if forallb dirty (blocks self)
          && (length doc_lines =? length base_lines_)%nat
          && bool_decide (doc_lines = base_lines_)
  then Some (mkTracker (active self) [] (stats self), true)
  else
    s ← for_each (blocks self) refresh_block (stats self, [], []);
    let '(st, group, refreshed) := s in
    r ← flush_group st group refreshed;
    Some (mkTracker (active self) (snd r) (fst r), true).
End refresh.
End BlockTracker.
