(* ===== verification/DiffTrackerCorrect.v ===== *)
(** * paneflow-textdiff: correctness of the change tracker

    The blocks of a tracker are an edit script between the document and its
    base at all times: [fresh] and [reset] establish it, [range_changed]
    preserves it for the edited document, and [refresh_dirty] recomputes the
    dirty blocks without touching the others.

    [refresh_dirty] recompares the groups of touching blocks that hold a dirty
    one and keeps the others; its result is again an edit script, now with no
    dirty block, no empty block and no two blocks that touch.  The last section
    puts the operations together: whatever sequence of edits, resets and
    refreshes a tracker has seen, its blocks describe the document. *)

From stdpp Require Import sorting.
From S2P Require Import Prelude DiffRange DiffText DiffChanges DiffLines DiffLinesCorrect DiffTracker.

(** ** Blocks as ranges *)

Definition to_range (b : Block) : Range :=
  mkRange (Z.to_nat (start (lines b))) (Z.to_nat (end_ (lines b)))
    (Z.to_nat (start (base_lines b))) (Z.to_nat (end_ (base_lines b))).

Definition in_u32 (z : Z) : Prop := (0 ≤ z ≤ U32_MAX)%Z.

Definition block_wf (b : Block) : Prop :=
  in_u32 (start (lines b)) ∧ in_u32 (end_ (lines b)) ∧
  in_u32 (start (base_lines b)) ∧ in_u32 (end_ (base_lines b)).

(** The invariant: the blocks, dirty or not, are an edit script from the
    document to the base. *)
Definition tracks (p : ComparisonPolicy) (doc base : list str) (bs : list Block) : Prop :=
  Forall block_wf bs ∧
  script (text_eq p doc base) 0 0 (to_range <$> bs) (length doc) (length base).

(** Blocks that are not dirty are changes, and no two of them touch. *)
Fixpoint settled (bs : list Block) : Prop :=
  match bs with
  | [] => True
  | b :: bs =>
      (dirty b = false → Range.is_empty (to_range b) = false) ∧
      (dirty b = false → ∀ b', head bs = Some b' → dirty b' = false →
         end1 (to_range b) < start1 (to_range b')) ∧
      settled bs
  end.

Lemma clamp_line_id z : in_u32 z → clamp_line z = z.
Proof. unfold in_u32, clamp_line. lia. Qed.

Lemma as_u32_id n : (Z.of_nat n ≤ U32_MAX)%Z → as_u32 n = Z.of_nat n.
Proof. unfold as_u32, U32_MAX. intros. apply Z.mod_small. lia. Qed.

Lemma checked_add_some max a b : (a + b ≤ max)%Z → checked_add max a b = Some (a + b)%Z.
Proof. intros Hle. unfold checked_add. by rewrite (proj2 (Z.leb_le _ _) Hle). Qed.

Lemma settled_app bs1 bs2 :
  settled (bs1 ++ bs2) ↔ settled bs1 ∧ settled bs2 ∧
    ∀ b b', last bs1 = Some b → head bs2 = Some b' → dirty b = false → dirty b' = false →
            end1 (to_range b) < start1 (to_range b').
Proof.
  induction bs1 as [|b bs1 IH]; simpl; [naive_solver|]. rewrite IH. clear IH.
  destruct bs1 as [|c bs1]; simpl; [naive_solver|]. naive_solver.
Qed.

(** ** Cutting scripts *)

Definition last_end (p1 p2 : nat) (rs : list Range) : nat * nat :=
  match last rs with Some r => (end1 r, end2 r) | None => (p1, p2) end.

Lemma last_end_cons p1 p2 r rs : last_end p1 p2 (r :: rs) = last_end (end1 r) (end2 r) rs.
Proof. unfold last_end. rewrite last_cons. by destruct (last rs). Qed.

Lemma script_app_inv E rs1 rs2 p1 p2 l1 l2 :
  script E p1 p2 (rs1 ++ rs2) l1 l2 →
  script E p1 p2 rs1 (fst (last_end p1 p2 rs1)) (snd (last_end p1 p2 rs1)) ∧
  script E (fst (last_end p1 p2 rs1)) (snd (last_end p1 p2 rs1)) rs2 l1 l2.
Proof.
  revert p1 p2. induction rs1 as [|r rs1 IH]; intros p1 p2.
  - intros Hs. split; [apply gap_refl|done].
  - intros (?&?&?&[??]%IH). rewrite last_end_cons. split; [|done]. by split_and!.
Qed.

(** A script is cut at any line [s] between [rs1] and [rs2]. *)
Lemma script_cut E rs1 rs2 p1 p2 l1 l2 s :
  script E p1 p2 (rs1 ++ rs2) l1 l2 →
  fst (last_end p1 p2 rs1) ≤ s → s ≤ l1 → (∀ r, head rs2 = Some r → s ≤ start1 r) →
  ∃ s2, script E p1 p2 rs1 s s2 ∧ script E s s2 rs2 l1 l2 ∧
    s2 + fst (last_end p1 p2 rs1) = s + snd (last_end p1 p2 rs1) ∧
    ∀ r, head rs2 = Some r → s2 + start1 r = s + start2 r.
Proof.
  intros [Hs1 Hs2]%script_app_inv ?? Hhd.
  destruct (last_end p1 p2 rs1) as [e1 e2]; simpl in *.
  assert (∀ q1 q2, s ≤ q1 → gap E e1 e2 q1 q2 →
    gap E e1 e2 s (e2 + (s - e1)) ∧ gap E s (e2 + (s - e1)) q1 q2 ∧
    e2 + (s - e1) + q1 = s + q2) as Hcut.
  { intros q1 q2 ? Hg. pose proof Hg as (?&?&?&_).
    pose proof (gap_sub E e1 e2 q1 q2 0 (s - e1) Hg ltac:(lia) ltac:(lia)) as Ha.
    pose proof (gap_sub E e1 e2 q1 q2 (s - e1) (q1 - e1) Hg ltac:(lia) ltac:(lia)) as Hb.
    rewrite !Nat.add_0_r in Ha. replace (e1 + (s - e1)) with s in * by lia.
    replace (e1 + (q1 - e1)) with q1 in * by lia. replace (e2 + (q1 - e1)) with q2 in * by lia.
    split_and!; [done..|lia]. }
  exists (e2 + (s - e1)). destruct rs2 as [|r rs2]; simpl in *.
  - destruct (Hcut _ _ H0 Hs2) as (?&?&?).
    split_and!; [by eapply script_extend|done|lia|done].
  - destruct Hs2 as (Hg&?&?&?). destruct (Hcut _ _ (Hhd r eq_refl) Hg) as (?&?&?).
    split_and!; [by eapply script_extend|done..|lia|]. by intros ? [= <-].
Qed.

(** Moving the first sequence of a script: line [i] becomes line [i - e + c]. *)
Definition move1 (e c : nat) (r : Range) : Range :=
  mkRange (start1 r - e + c) (end1 r - e + c) (start2 r) (end2 r).

Lemma script_move (E E' : nat → nat → Prop) e c rs p1 p2 l1 l2 :
  (∀ i j, e ≤ i → E i j → E' (i - e + c) j) → e ≤ p1 →
  script E p1 p2 rs l1 l2 →
  script E' (p1 - e + c) p2 (move1 e c <$> rs) (l1 - e + c) l2.
Proof.
  intros HE.
  assert (∀ p1 p2 q1 q2, e ≤ p1 → gap E p1 p2 q1 q2 →
            gap E' (p1 - e + c) p2 (q1 - e + c) q2) as Hgap.
  { intros a1 a2 b1 b2 ? (?&?&?&H). unfold gap. split_and!; [lia..|]. intros i Hi.
    replace (a1 - e + c + i) with (a1 + i - e + c) by lia. apply HE; [lia|]. apply H. lia. }
  revert p1 p2. induction rs as [|r rs IH]; intros p1 p2 He; simpl; [by apply Hgap|].
  intros (Hg&?&?&?). pose proof Hg as (?&_&_&_). split_and!; [by apply Hgap|lia|done|].
  apply IH; [lia|done].
Qed.

(** ** Splitting the blocks around an edit *)

Lemma split_sorted {A} (R : A → A → Prop) (P : A → bool) (l : list A) :
  StronglySorted R l → (∀ x y, R x y → P x = false → P y = false) →
  ∃ l1 l2, l = l1 ++ l2 ∧ Forall (λ x, P x = true) l1 ∧ Forall (λ x, P x = false) l2.
Proof.
  intros Hs HR. induction Hs as [|x l Hs IH Hx]; [by exists [], []|].
  destruct (P x) eqn:Hpx.
  - destruct IH as (l1&l2&->&?&?). exists (x :: l1), l2. split_and!; [done|by constructor|done].
  - exists [], (x :: l). split_and!; [done|constructor|]. constructor; [done|].
    eapply Forall_impl; [exact Hx|]. intros y Hy. by eapply HR.
Qed.

Definition before (b b' : Block) : Prop :=
  (start (lines b) ≤ start (lines b') ∧ end_ (lines b) ≤ end_ (lines b'))%Z.

Lemma tracks_sorted E bs p1 p2 l1 l2 :
  Forall block_wf bs → script E p1 p2 (to_range <$> bs) l1 l2 →
  StronglySorted before bs ∧
  Forall (λ b, (Z.of_nat p1 ≤ start (lines b) ≤ end_ (lines b))%Z ∧
               (end_ (lines b) ≤ Z.of_nat l1)%Z ∧
               (Z.of_nat p2 ≤ start (base_lines b) ≤ end_ (base_lines b))%Z ∧
               (end_ (base_lines b) ≤ Z.of_nat l2)%Z) bs.
Proof.
  intros Hwf. revert p1 p2. induction Hwf as [|b bs (?&?&?&?) Hwf IH]; intros p1 p2.
  { repeat constructor. }
  simpl. intros ((?&?&_&_)&?&?&Hs). pose proof (script_bounds _ _ _ _ _ _ Hs).
  destruct (IH _ _ Hs) as [IHs IHb]. unfold in_u32 in *. simpl in *. split.
  - constructor; [done|]. eapply Forall_impl; [exact IHb|]. intros b' ?. unfold before. simpl in *. lia.
  - constructor; [lia|]. eapply Forall_impl; [exact IHb|]. intros b' ?. simpl in *. lia.
Qed.

(** ** The scan of [range_changed] *)

Section scan.
Import BlockTracker.
Context (s e : Z).

Definition is_before (b : Block) : bool := (end_ (lines b) <? s)%Z.
Definition is_after (b : Block) : bool := (e <? start (lines b))%Z.

Lemma scan_before bs sc :
  Forall (λ b, is_before b = true) bs →
  foldl (scan_block s e) sc bs =
    mkScan (next sc ++ bs) (after sc) (affected sc)
      (match last bs with
       | Some b => (end_ (base_lines b) - end_ (lines b))%Z
       | None => shift_before sc
       end) (any_too_big sc).
Proof.
  intros Hbs. revert sc. induction Hbs as [|b bs Hb _ IH]; intros sc; simpl.
  - rewrite app_nil_r. by destruct sc.
  - rewrite IH. unfold scan_block. unfold is_before in Hb. rewrite Hb. simpl.
    rewrite <- app_assoc. f_equal. rewrite last_cons. by destruct (last bs).
Qed.

Lemma scan_after bs sc :
  Forall (λ b, is_before b = false) bs → Forall (λ b, is_after b = true) bs →
  foldl (scan_block s e) sc bs =
    mkScan (next sc) (after sc ++ bs) (affected sc) (shift_before sc) (any_too_big sc).
Proof.
  intros Hbs. revert sc. induction Hbs as [|b bs Hb _ IH]; intros sc Ha; simpl.
  - rewrite app_nil_r. by destruct sc.
  - inversion Ha as [|?? Hab Ha']; subst. unfold is_before, is_after in *.
    rewrite IH by done. unfold scan_block. rewrite Hb, Hab. simpl. by rewrite <- app_assoc.
Qed.

Lemma scan_affected bs sc first0 :
  Forall (λ b, is_before b = false) bs → Forall (λ b, is_after b = false) bs →
  first0 = (match affected sc with Some (f, _) => Some f | None => head bs end) →
  foldl (scan_block s e) sc bs =
    mkScan (next sc) (after sc)
      (match last bs with
       | Some l => (λ f, (f, l)) <$> first0
       | None => affected sc
       end) (shift_before sc) (any_too_big sc || existsb too_big bs).
Proof.
  intros Hbs. revert sc first0. induction Hbs as [|b bs Hb _ IH]; intros sc first0 Ha Hf; simpl.
  - rewrite orb_false_r. by destruct sc.
  - inversion Ha as [|?? Hab Ha']; subst. unfold is_before, is_after in *.
    erewrite IH by done. unfold scan_block. rewrite Hb, Hab. simpl.
    rewrite orb_assoc, last_cons. f_equal.
    destruct (last bs) as [l|], (affected sc) as [[f l']|]; done.
Qed.

Lemma scan_spec E bs l1 l2 :
  (s ≤ e)%Z → Forall block_wf bs → script E 0 0 (to_range <$> bs) l1 l2 →
  ∃ bs1 bs2 bs3, bs = bs1 ++ bs2 ++ bs3 ∧
    Forall (λ b, end_ (lines b) < s)%Z bs1 ∧
    Forall (λ b, s ≤ end_ (lines b) ∧ start (lines b) ≤ e)%Z bs2 ∧
    Forall (λ b, e < start (lines b))%Z bs3 ∧
    foldl (scan_block s e) (mkScan [] [] None 0 false) bs =
      mkScan bs1 bs3
        (match last bs2 with Some l => (λ f, (f, l)) <$> head bs2 | None => None end)
        (match last bs1 with
         | Some b => (end_ (base_lines b) - end_ (lines b))%Z
         | None => 0%Z
         end) (existsb too_big bs2).
Proof.
  intros ? Hwf Hs. destruct (tracks_sorted _ _ _ _ _ _ Hwf Hs) as [Hsort Hb].
  destruct (split_sorted _ is_before bs Hsort) as (bs1&l&->&H1&Hl).
  { unfold before, is_before. intros x y [??] ?%Z.ltb_ge. apply Z.ltb_ge. lia. }
  apply StronglySorted_app in Hsort as (_&_&Hsort).
  destruct (split_sorted _ (λ b, negb (is_after b)) l Hsort) as (bs2&bs3&->&H2&H3).
  { unfold before, is_after. intros x y [??] ?%negb_false_iff%Z.ltb_lt.
    apply negb_false_iff, Z.ltb_lt. lia. }
  apply Forall_app in Hl as [Hl2 Hl3].
  exists bs1, bs2, bs3. split_and!; [done| | | |].
  - eapply Forall_impl; [exact H1|]. intros b. unfold is_before. lia.
  - apply Forall_and. split; [eapply Forall_impl; [exact Hl2|]|eapply Forall_impl; [exact H2|]].
    + intros b. unfold is_before. lia.
    + intros b. unfold is_after. simpl. lia.
  - eapply Forall_impl; [exact H3|]. intros b. unfold is_after. simpl. lia.
  - rewrite !foldl_app, (scan_before bs1) by done.
    rewrite (scan_affected bs2 _ (head bs2)); [|done| |done].
    2: { eapply Forall_impl; [exact H2|]. intros b. apply negb_true_iff. }
    rewrite scan_after; [done|done|].
    eapply Forall_impl; [exact H3|]. intros b. apply negb_false_iff.
Qed.
End scan.

(** ** The dirty block of an edit *)

Lemma last_end_blocks p1 p2 bs :
  last_end p1 p2 (to_range <$> bs) =
  match last bs with
  | Some b => (Z.to_nat (end_ (lines b)), Z.to_nat (end_ (base_lines b)))
  | None => (p1, p2)
  end.
Proof. unfold last_end. rewrite fmap_last. by destruct (last bs). Qed.

Lemma head_blocks bs (P : Range → Prop) :
  (∀ b, head bs = Some b → P (to_range b)) → ∀ r, head (to_range <$> bs) = Some r → P r.
Proof. destruct bs; simpl; [done|]. intros H r [= <-]. by apply H. Qed.

Lemma Forall_last {A} (P : A → Prop) l x : Forall P l → last l = Some x → P x.
Proof. intros Hl [l' ->]%last_Some. apply Forall_app in Hl as [_ Hx]. by inversion Hx. Qed.

Lemma Forall_head {A} (P : A → Prop) l x : Forall P l → head l = Some x → P x.
Proof. destruct 1; simpl; [done|]. by intros [= <-]. Qed.

Section edit_cut.
Import BlockTracker.
Context (E : nat → nat → Prop) (bs1 bs2 bs3 : list Block) (l1 l2 s e : nat).
Context (Hwf : Forall block_wf (bs1 ++ bs2 ++ bs3)).
Context (Hs : script E 0 0 (to_range <$> bs1 ++ bs2 ++ bs3) l1 l2).
Context (Hse : s ≤ e) (He : e ≤ l1).
Context (H1 : Forall (λ b, end_ (lines b) < Z.of_nat s)%Z bs1).
Context (H2 : Forall (λ b, Z.of_nat s ≤ end_ (lines b) ∧ start (lines b) ≤ Z.of_nat e)%Z bs2).
Context (H3 : Forall (λ b, Z.of_nat e < start (lines b))%Z bs3).

Lemma last_before : fst (last_end 0 0 (to_range <$> bs1)) ≤ s.
Proof.
  rewrite last_end_blocks. destruct (last bs1) eqn:Hl; simpl; [|lia].
  pose proof (Forall_last _ _ _ H1 Hl). simpl in *. lia.
Qed.

Lemma head_after : ∀ r, head (to_range <$> bs3) = Some r → e ≤ start1 r.
Proof. apply head_blocks. intros b Hb. pose proof (Forall_head _ _ _ H3 Hb). simpl in *. lia. Qed.

Lemma cut_none : bs2 = [] → ∀ q, s ≤ q → q ≤ e → ∃ q2,
  script E 0 0 (to_range <$> bs1) q q2 ∧ script E q q2 (to_range <$> bs3) l1 l2 ∧
  q2 + fst (last_end 0 0 (to_range <$> bs1)) = q + snd (last_end 0 0 (to_range <$> bs1)).
Proof.
  intros -> q ??. simpl in Hs. rewrite fmap_app in Hs. pose proof last_before.
  destruct (script_cut _ _ _ _ _ _ _ q Hs) as (q2&?&?&?&_); [lia|lia| |by exists q2].
  intros r Hr%head_after. lia.
Qed.

Lemma cut_first f t : bs2 = f :: t → ∃ u1 u2,
  (if (start (lines f) <=? Z.of_nat s)%Z
   then (start (lines f), start (base_lines f))
   else (Z.of_nat s, Z.of_nat s + start (base_lines f) - start (lines f)))%Z =
    (Z.of_nat u1, Z.of_nat u2) ∧
  u1 ≤ s ∧ u2 ≤ Z.to_nat (start (base_lines f)) ∧ script E 0 0 (to_range <$> bs1) u1 u2.
Proof.
  intros ->. rewrite fmap_app in Hs.
  assert (block_wf f) as (Hf1&_&Hf3&_).
  { apply Forall_app in Hwf as [_ Hwf']. by inversion Hwf'. }
  unfold in_u32 in *. pose proof last_before. destruct (Z.leb_spec (start (lines f)) (Z.of_nat s)).
  - exists (Z.to_nat (start (lines f))), (Z.to_nat (start (base_lines f))).
    rewrite !Z2Nat.id by lia. split_and!; [done|lia|lia|].
    apply script_app_inv in Hs as [Ha (Hg&_)]. by eapply script_extend.
  - destruct (script_cut _ _ _ _ _ _ _ s Hs) as (s2&?&Hs2&_&Hd); [done|lia| |].
    { intros r [= <-]. simpl. lia. }
    specialize (Hd _ eq_refl). simpl in Hd. exists s, s2. split_and!; [f_equal; lia|lia|lia|done].
Qed.

Lemma cut_last l : last bs2 = Some l → ∃ v1 v2,
  (if (Z.of_nat e <=? end_ (lines l))%Z
   then (end_ (lines l), end_ (base_lines l))
   else (Z.of_nat e, Z.of_nat e + end_ (base_lines l) - end_ (lines l)))%Z =
    (Z.of_nat v1, Z.of_nat v2) ∧
  e ≤ v1 ∧ Z.to_nat (end_ (base_lines l)) ≤ v2 ∧ script E v1 v2 (to_range <$> bs3) l1 l2.
Proof.
  intros Hl. rewrite app_assoc, fmap_app in Hs.
  assert (block_wf l) as (_&Hl2&_&Hl4).
  { apply Forall_app in Hwf as [_ Hwf']. apply Forall_app in Hwf' as [Hwf' _].
    exact (Forall_last _ _ _ Hwf' Hl). }
  assert (last (bs1 ++ bs2) = Some l) as Hl' by (by rewrite last_app, Hl).
  unfold in_u32 in *. destruct (Z.leb_spec (Z.of_nat e) (end_ (lines l))).
  - exists (Z.to_nat (end_ (lines l))), (Z.to_nat (end_ (base_lines l))).
    rewrite !Z2Nat.id by lia. apply script_app_inv in Hs as [_ Hs'].
    rewrite last_end_blocks, Hl' in Hs'. split_and!; [done|lia|lia|done].
  - destruct (script_cut _ _ _ _ _ _ _ e Hs) as (e2&_&?&Hd&_).
    + rewrite last_end_blocks, Hl'. simpl. lia.
    + done.
    + apply head_after.
    + rewrite last_end_blocks, Hl' in Hd. simpl in Hd. exists e, e2.
      split_and!; [f_equal; lia|lia|lia|done].
Qed.

Lemma dirty_range_spec delta sc :
  affected sc = (match last bs2 with Some l => (λ f, (f, l)) <$> head bs2 | None => None end) →
  shift_before sc = (match last bs1 with
                     | Some b => (end_ (base_lines b) - end_ (lines b))%Z | None => 0%Z end) →
  ∃ u1 u2 v1 v2,
    dirty_range (Z.of_nat s) (Z.of_nat e) delta sc =
      (Z.of_nat u1, Z.of_nat v1 + delta, Z.of_nat u2, Z.of_nat v2)%Z ∧
    u1 ≤ s ∧ e ≤ v1 ∧ u2 ≤ v2 ∧ script E 0 0 (to_range <$> bs1) u1 u2 ∧
    script E v1 v2 (to_range <$> bs3) l1 l2.
Proof.
  intros Haff Hshift. unfold dirty_range. rewrite Haff, Hshift.
  assert (bs2 = [] ∨ ∃ f t, bs2 = f :: t) as [Hn|(f&t&Hn)]
    by (destruct bs2; [by left|right; eauto]).
  - rewrite Hn. simpl. destruct (cut_none Hn s) as (u2&?&_&Hu); [lia..|].
    destruct (cut_none Hn e) as (v2&_&?&Hv); [lia..|].
    rewrite last_end_blocks in Hu, Hv. exists s, u2, e, v2.
    split_and!; [|lia|lia|lia|done..].
    destruct (last bs1) as [b|] eqn:Hb; simpl in *; [|repeat f_equal; lia].
    assert (block_wf b) as (_&?&_&?).
    { apply Forall_app in Hwf as [Hwf' _]. exact (Forall_last _ _ _ Hwf' Hb). }
    unfold in_u32 in *. repeat f_equal; lia.
  - assert (is_Some (last bs2)) as [l Hl] by (rewrite Hn; by apply last_is_Some).
    rewrite Hl, Hn. cbn [head fmap option_fmap option_map].
    destruct (cut_first f t Hn) as (u1&u2&->&?&?&?).
    destruct (cut_last l Hl) as (v1&v2&Hv&?&?&?).
    assert (Z.to_nat (start (base_lines f)) ≤ Z.to_nat (end_ (base_lines l))).
    { pose proof Hs as Hs'. rewrite !fmap_app in Hs'.
      apply script_app_inv in Hs' as [_ [Hm _]%script_app_inv].
      rewrite !last_end_blocks, Hl, Hn in Hm. destruct Hm as (_&_&?&Hb%script_bounds).
      simpl in *. lia. }
    exists u1, u2, v1, v2. split_and!; [|done|done|lia|done..].
    destruct (Z.of_nat e <=? _)%Z; injection Hv as <- <-; done.
Qed.
End edit_cut.

(** ** An edit of the document *)

(** [k] lines of [doc] from line [s] on are replaced by [new]. *)
Definition splice (doc : list str) (s k : nat) (new : list str) : list str :=
  take s doc ++ new ++ drop (s + k) doc.

(** The line numbers of the text fit in a [u32]. *)
Definition fits (lines : list str) : Prop := (Z.of_nat (length lines) ≤ U32_MAX)%Z.

Lemma length_splice doc s k new :
  s + k ≤ length doc → length (splice doc s k new) = length doc - (s + k) + (s + length new).
Proof. intros. unfold splice. rewrite !length_app, length_take, length_drop. lia. Qed.

Lemma splice_before doc s k new i : s ≤ length doc → i < s → splice doc s k new !! i = doc !! i.
Proof.
  intros. unfold splice. rewrite lookup_app_l by (rewrite length_take; lia).
  by apply lookup_take_lt.
Qed.

Lemma splice_after doc s k new i :
  s + k ≤ length doc → s + k ≤ i →
  splice doc s k new !! (i - (s + k) + (s + length new)) = doc !! i.
Proof.
  intros. unfold splice. rewrite app_assoc, lookup_app_r; rewrite length_app, length_take; [|lia].
  rewrite lookup_drop. f_equal. lia.
Qed.

(** Every block of the tracker on a dirty spot, the others as they were. *)
Lemma settled_middle bs1 b bs3 :
  dirty b = true → settled bs1 → settled bs3 → settled (bs1 ++ [b] ++ bs3).
Proof.
  intros Hb ??. simpl. rewrite settled_app. simpl. split_and!; [done|congruence|congruence|done|].
  intros b1 b2 _ [= <-]. congruence.
Qed.

Lemma settled_move e c bs (f : Block → Block) :
  (∀ b, b ∈ bs → to_range (f b) = move1 e c (to_range b) ∧ dirty (f b) = dirty b) →
  Forall (λ b, e ≤ start1 (to_range b) ∧ start1 (to_range b) ≤ end1 (to_range b)) bs →
  settled bs → settled (f <$> bs).
Proof.
  intros Hf Hbs. induction Hbs as [|b bs Hb Hbs IH]; [done|]. intros (Hne&Hnt&Hset).
  destruct (Hf b) as [Hfb Hdb]; [by left|]. rewrite fmap_cons. cbn [settled]. rewrite Hdb.
  split_and!; [| |apply IH; [intros; apply Hf; by right|done]].
  - intros Hd. specialize (Hne Hd). rewrite is_empty_false in *. rewrite Hfb. simpl in *. lia.
  - intros Hd b' Hb'. destruct bs as [|x bs]; [done|]. simpl in Hb'. injection Hb' as <-.
    destruct (Hf x) as [Hfx Hdx]; [by right; left|]. rewrite Hdx. intros Hd'.
    specialize (Hnt Hd x eq_refl Hd'). inversion Hbs; subst. rewrite Hfb, Hfx. simpl in *. lia.
Qed.

Section range_changed.
Import BlockTracker.
Context (p : ComparisonPolicy) (doc base new : list str) (s k : nat).
Context (Hsk : s + k ≤ length doc).
Context (Hdoc : fits doc) (Hdoc' : fits (splice doc s k new)) (Hbase : fits base).
Let c := s + length new.
Let delta := (Z.of_nat (length new) - Z.of_nat k)%Z.

Lemma shifted_block b :
  block_wf b → (Z.of_nat (s + k) ≤ start (lines b))%Z →
  (start (lines b) ≤ end_ (lines b) ≤ Z.of_nat (length doc))%Z →
  let b' := mkBlock (shift_range (lines b) delta) (base_lines b) (dirty b) (too_big b) in
  block_wf b' ∧ to_range b' = move1 (s + k) c (to_range b).
Proof.
  intros (?&?&?&?) ??. cbn zeta. unfold fits in *. rewrite length_splice in Hdoc' by done.
  unfold block_wf, to_range, shift_range, move1, in_u32 in *. simpl.
  rewrite !clamp_line_id by (unfold in_u32, delta; lia).
  split; [unfold delta; split_and!; lia|]. f_equal; unfold delta, c; lia.
Qed.

Lemma range_changed_spec t :
  active t = true → tracks p doc base (blocks t) →
  runs (range_changed t (Z.of_nat s) (Z.of_nat k) (Z.of_nat (length new))) (λ t',
    active t' = true ∧ stats t' = stats t ∧ is_dirty t' = true ∧
    tracks p (splice doc s k new) base (blocks t') ∧
    (settled (blocks t) → settled (blocks t'))).
Proof.
  intros Hact [Hwf Hs]. unfold range_changed. rewrite Hact. cbn [negb].
  pose proof (length_splice doc s k new Hsk) as Hlen. unfold fits in Hdoc, Hbase.
  rewrite checked_add_some by lia. cbn [mbind option_bind].
  rewrite <- Nat2Z.inj_add. fold delta.
  destruct (scan_spec (Z.of_nat s) (Z.of_nat (s + k)) _ _ _ _ ltac:(lia) Hwf Hs)
    as (bs1&bs2&bs3&Hbs&H1&H2&H3&->).
  rewrite Hbs in *.
  destruct (dirty_range_spec _ bs1 bs2 bs3 _ _ s (s + k) Hwf Hs ltac:(lia) Hsk H1 H2 H3 delta
    (mkScan bs1 bs3 _ _ (existsb too_big bs2)) eq_refl eq_refl)
    as (u1&u2&v1&v2&->&?&?&?&Hl&Hr).
  pose proof (script_bounds _ _ _ _ _ _ Hr). pose proof (script_bounds _ _ _ _ _ _ Hl).
  cbn [next after runs active blocks stats].
  assert (Forall (λ b, block_wf b ∧ (Z.of_nat (s + k) ≤ start (lines b))%Z ∧
    (start (lines b) ≤ end_ (lines b) ≤ Z.of_nat (length doc))%Z) bs3) as Hb3.
  { destruct (tracks_sorted _ bs3 _ _ _ _ ltac:(by apply Forall_app in Hwf as [_ [_ ?]%Forall_app]) Hr)
      as [_ Hb].
    apply Forall_app in Hwf as [_ [_ Hwf3]%Forall_app].
    rewrite !Forall_forall in *. intros b Hin.
    specialize (Hb b Hin). specialize (H3 b Hin). specialize (Hwf3 b Hin). simpl in *.
    split_and!; try done; lia. }
  set (f := λ b, mkBlock (shift_range (lines b) delta) (base_lines b) (dirty b) (too_big b)).
  set (nb := mkBlock _ _ true _).
  assert (block_wf nb ∧ to_range nb = mkRange u1 (v1 - (s + k) + c) u2 v2) as [Hnb Hrb].
  { unfold fits in *. unfold nb, block_wf, to_range. simpl.
    rewrite !Z.max_l by (unfold delta; lia).
    rewrite !clamp_line_id by (unfold in_u32, delta; lia).
    split; [unfold in_u32, delta; split_and!; lia|]. f_equal; unfold delta, c; lia. }
  assert (to_range <$> (f <$> bs3) = move1 (s + k) c <$> (to_range <$> bs3)) as Hmove.
  { rewrite <- !list_fmap_compose. apply list_fmap_ext. intros i b Hb. simpl.
    rewrite Forall_lookup in Hb3. destruct (Hb3 i b Hb) as (?&?&?). by apply shifted_block. }
  split_and!; [done..| | |].
  - unfold is_dirty. simpl. rewrite existsb_app. simpl. by rewrite orb_true_r.
  - split.
    + apply Forall_app in Hwf as [Hwf1 [_ Hwf3]%Forall_app].
      apply Forall_app; split; [done|]. constructor; [done|]. apply Forall_fmap.
      eapply Forall_impl; [exact Hb3|]. intros b (?&?&?). by apply shifted_block.
    + change (script (text_eq p (splice doc s k new) base) 0 0
        (to_range <$> bs1 ++ [nb] ++ (f <$> bs3)) (length (splice doc s k new)) (length base)).
      rewrite !fmap_app, Hmove. eapply script_app.
      * eapply script_mono; [|exact Hl]. intros i j ?? (a&b&?&?&?). exists a, b.
        by rewrite splice_before by lia.
      * change (script (text_eq p (splice doc s k new) base) u1 u2
          (to_range nb :: (move1 (s + k) c <$> (to_range <$> bs3)))
          (length (splice doc s k new)) (length base)).
        rewrite Hrb. simpl. split_and!; [apply gap_refl|unfold c; lia|done|].
        rewrite Hlen. eapply script_move; [|done|exact Hr].
        intros i j ? (a&b&?&?&?). exists a, b. unfold c. by rewrite splice_after by lia.
  - intros Hset. rewrite !settled_app in Hset. destruct Hset as (?&(_&?&_)&_).
    apply settled_middle; [done..|]. apply (settled_move (s + k) c); [| |done].
    + intros b Hb. rewrite Forall_forall in Hb3. destruct (Hb3 b Hb) as (?&?&?).
      split; [by apply shifted_block|done].
    + eapply Forall_impl; [exact Hb3|]. intros b (_&?&?). simpl. lia.
Qed.
End range_changed.

(** * paneflow-textdiff: refreshing the change tracker *)

(** ** Swapped and shifted ranges *)

Definition swap (r : Range) : Range := mkRange (start2 r) (end2 r) (start1 r) (end1 r).

Lemma script_swap (E E' : nat → nat → Prop) rs p1 p2 l1 l2 :
  (∀ i j, E i j → E' j i) → script E p1 p2 rs l1 l2 → script E' p2 p1 (swap <$> rs) l2 l1.
Proof.
  intros HE.
  assert (∀ a1 a2 b1 b2, gap E a1 a2 b1 b2 → gap E' a2 a1 b2 b1) as Hg.
  { intros ???? (?&?&Heq&H). unfold gap. split_and!; [done..|]. intros i Hi.
    apply HE, H. lia. }
  revert p1 p2. induction rs as [|r rs IH]; intros p1 p2; simpl; [by apply Hg|].
  intros (?&?&?&?). split_and!; auto.
Qed.

Lemma separated_of_swap E rs p1 p2 l1 l2 :
  script E p1 p2 rs l1 l2 → separated rs → separated (swap <$> rs).
Proof.
  revert p1 p2. induction rs as [|r rs IH]; intros p1 p2; [done|].
  intros (_&_&_&Hs) (Hne&Hlt&Hsep). simpl. split_and!.
  - apply is_empty_false in Hne. apply is_empty_false. simpl. lia.
  - destruct rs as [|r' rs]; [done|]. destruct Hs as ((?&?&?&?)&_). simpl. lia.
  - by eapply IH.
Qed.

Definition shift2 (d b : nat) (r : Range) : Range :=
  mkRange (d + start1 r) (d + end1 r) (b + start2 r) (b + end2 r).

Lemma separated_shift d b rs : separated rs → separated (shift2 d b <$> rs).
Proof.
  induction rs as [|r rs IH]; [done|]. intros (Hne&Hlt&Hsep). simpl. split_and!; [| |auto].
  - apply is_empty_false in Hne. apply is_empty_false. simpl. lia.
  - destruct rs; simpl; [done|lia].
Qed.

(** All ranges of a script lie between its two ends. *)
Lemma script_inside E rs p1 p2 l1 l2 :
  script E p1 p2 rs l1 l2 →
  Forall (λ r, p1 ≤ start1 r ∧ start1 r ≤ end1 r ∧ end1 r ≤ l1 ∧
               p2 ≤ start2 r ∧ start2 r ≤ end2 r ∧ end2 r ≤ l2) rs.
Proof.
  revert p1 p2. induction rs as [|r rs IH]; intros p1 p2; [done|].
  intros ((?&?&_&_)&?&?&Hs). pose proof (script_bounds _ _ _ _ _ _ Hs). constructor; [lia|].
  eapply Forall_impl; [by apply (IH _ _ Hs)|]. intros x ?. simpl in *. lia.
Qed.

(** ** The block of a range *)

(** Blocks that were just computed from the ranges [rs]. *)
Definition fresh_blocks (bs : list Block) (rs : list Range) : Prop :=
  to_range <$> bs = rs ∧ Forall block_wf bs ∧ Forall (λ b, dirty b = false) bs.

Lemma block_of_nats s1 e1 s2 e2 big :
  (Z.of_nat e1 ≤ U32_MAX)%Z → (Z.of_nat e2 ≤ U32_MAX)%Z → s1 ≤ e1 → s2 ≤ e2 →
  let b := mkBlock (mkLines (as_u32 s1) (as_u32 e1)) (mkLines (as_u32 s2) (as_u32 e2)) false big in
  block_wf b ∧ to_range b = mkRange s1 e1 s2 e2.
Proof.
  intros ???? b. subst b. rewrite !as_u32_id by lia. unfold block_wf, to_range, in_u32; simpl.
  rewrite !Nat2Z.id. split; [split_and!; lia|done].
Qed.

Lemma blocks_of_ranges E d b rs l1 l2 :
  script E 0 0 rs l1 l2 →
  (Z.of_nat (d + l2) ≤ U32_MAX)%Z → (Z.of_nat (b + l1) ≤ U32_MAX)%Z →
  fresh_blocks (BlockTracker.block_of_range d b <$> rs) (shift2 d b <$> (swap <$> rs)).
Proof.
  intros Hs%script_inside ??. unfold fresh_blocks. rewrite <- !list_fmap_compose.
  rewrite !Forall_fmap. split_and!.
  - apply list_fmap_ext. intros i r Hr. rewrite Forall_lookup in Hs. destruct (Hs i r Hr) as (?&?&?&?&?&?).
    unfold compose. by apply block_of_nats; simpl; lia.
  - eapply Forall_impl; [exact Hs|]. intros r (?&?&?&?&?&?). by apply block_of_nats; simpl; lia.
  - by apply Forall_forall.
Qed.

Lemma block_is_empty b :
  block_wf b → start1 (to_range b) ≤ end1 (to_range b) → start2 (to_range b) ≤ end2 (to_range b) →
  Block.is_empty b = Range.is_empty (to_range b).
Proof.
  intros (?&?&?&?) ??. unfold Block.is_empty, LineRange.is_empty, Range.is_empty, in_u32 in *.
  simpl in *. f_equal.
  - destruct (Z.ltb_spec (start (lines b)) (end_ (lines b))), (Nat.eqb_spec (Z.to_nat (start (lines b))) (Z.to_nat (end_ (lines b)))); simpl; try done; lia.
  - destruct (Z.ltb_spec (start (base_lines b)) (end_ (base_lines b))), (Nat.eqb_spec (Z.to_nat (start (base_lines b))) (Z.to_nat (end_ (base_lines b)))); simpl; try done; lia.
Qed.

(** ** A block too big to be compared *)

Section trimmed_block_facts.
Context (p : ComparisonPolicy) (ds bs : list str).
Let E := text_eq p ds bs.

Lemma equal_prefix_spec :
  runs (equal_prefix ds bs p) (λ n, n ≤ length ds ∧ n ≤ length bs ∧ gap E 0 0 n n).
Proof.
  unfold equal_prefix.
  apply (runs_count_while _ _ _ (λ k, E k k) (Nat.min (length ds) (length bs))); [lia|lia|].
  intros n _ Hn Hpos. unfold and_then. destruct (_ && _) eqn:Hlt; bool_to_prop.
  - destruct (lookup_lt_is_Some_2 ds n) as [x Hx]; [done|].
    destruct (lookup_lt_is_Some_2 bs n) as [y Hy]; [done|].
    rewrite Hx. cbn [mbind option_bind]. rewrite Hy. cbn [mbind option_bind runs].
    destruct (is_equals x y p) eqn:Heq; [split; [lia|by exists x, y]|].
    intros Hk. unfold gap. split_and!; [lia..|]. intros i Hi. apply Hk; lia.
  - simpl. intros Hk. unfold gap. split_and!; [lia..|]. intros i Hi. apply Hk; lia.
Qed.

Lemma equal_suffix_spec prefix :
  prefix ≤ length ds → prefix ≤ length bs →
  runs (equal_suffix ds bs p prefix) (λ n, n ≤ length ds - prefix ∧ n ≤ length bs - prefix ∧
    gap E (length ds - n) (length bs - n) (length ds) (length bs)).
Proof.
  intros ??. unfold equal_suffix.
  apply (runs_count_while _ _ _ (λ k, E (length ds - k - 1) (length bs - k - 1))
    (Nat.min (length ds - prefix) (length bs - prefix))); [lia|lia|].
  intros n _ Hn Hpos. run_subs.
  assert ((∀ k, 0 ≤ k → k < n → E (length ds - k - 1) (length bs - k - 1)) →
    gap E (length ds - n) (length bs - n) (length ds) (length bs)) as Hgap.
  { intros Hk. unfold gap. split_and!; [lia..|]. intros i Hi.
    replace (length ds - n + i) with (length ds - (n - i - 1) - 1) by lia.
    replace (length bs - n + i) with (length bs - (n - i - 1) - 1) by lia. apply Hk; lia. }
  unfold and_then. destruct (_ && _) eqn:Hlt; bool_to_prop.
  - run_subs.
    destruct (lookup_lt_is_Some_2 ds (length ds - n - 1)) as [x Hx]; [lia|].
    destruct (lookup_lt_is_Some_2 bs (length bs - n - 1)) as [y Hy]; [lia|].
    rewrite Hx. cbn [mbind option_bind]. rewrite Hy. cbn [mbind option_bind runs].
    destruct (is_equals x y p) eqn:Heq; [split; [lia|by exists x, y]|].
    intros Hk. split_and!; [lia..|by apply Hgap].
  - simpl. intros Hk. split_and!; [lia..|by apply Hgap].
Qed.

(** Whether or not a block remains, what remains is an edit script. *)
Lemma trimmed_block_spec d b :
  (Z.of_nat (d + length ds) ≤ U32_MAX)%Z → (Z.of_nat (b + length bs) ≤ U32_MAX)%Z →
  runs (trimmed_block ds bs p (d, d + length ds) (b, b + length bs)) (λ o,
    ∃ rs, fresh_blocks (match o with Some x => [x] | None => [] end) (shift2 d b <$> rs) ∧
      script E 0 0 rs (length ds) (length bs) ∧ separated rs).
Proof.
  intros ??. unfold trimmed_block.
  eapply runs_bind; [apply equal_prefix_spec|]. intros n (?&?&Hg). cbn beta.
  eapply runs_bind; [by apply equal_suffix_spec|]. intros m (?&?&Hg'). cbn [fst snd].
  run_subs. cbn [runs].
  set (x := mkBlock _ _ _ _).
  destruct (block_of_nats (d + n) (d + length ds - m) (b + n) (b + length bs - m) true)
    as [Hwf Hr]; [lia..|]. fold x in Hwf, Hr.
  rewrite block_is_empty by (done || rewrite Hr; simpl; lia). rewrite Hr.
  destruct (Range.is_empty _) eqn:He.
  - apply is_empty_true in He. simpl in He. exists [].
    split_and!; [by split_and!; constructor| |done]. simpl.
    replace (length ds - m) with n in Hg' by lia. replace (length bs - m) with n in Hg' by lia.
    by eapply gap_app.
  - exists [mkRange n (length ds - m) n (length bs - m)].
    apply is_empty_false in He. simpl in He. split_and!.
    + unfold fresh_blocks. simpl. rewrite Hr. split_and!; [|by apply Forall_singleton..].
      unfold shift2. simpl. repeat f_equal; lia.
    + simpl. split_and!; [done|lia|lia|done].
    + simpl. split_and!; try done. apply is_empty_false. simpl. lia.
Qed.
End trimmed_block_facts.

(** ** Flushing a group of touching blocks *)

Section flush.
Context `{MyersDiffLaws} (doc base : list str) (p : ComparisonPolicy).
Context (Hdoc : fits doc) (Hbase : fits base).
Let E := text_eq p doc base.

(** The counters have room for [n] more comparisons. *)
Definition room (st : TrackerStats) (n : nat) : Prop :=
  (rediffs st + Z.of_nat n ≤ U32_MAX)%Z ∧ (full_rediffs st + Z.of_nat n ≤ U32_MAX)%Z ∧
  (diffed_lines st + Z.of_nat n * Z.of_nat (length doc + length base) ≤ U64_MAX)%Z.

Lemma count_rediff_spec st (ds bs : list str) n :
  room st (S n) → length ds ≤ length doc → length bs ≤ length base →
  runs (BlockTracker.count_rediff doc base st ds bs) (λ st', room st' n).
Proof.
  intros (?&?&?) ??. unfold BlockTracker.count_rediff.
  rewrite (checked_add_some _ (rediffs st) 1) by lia. cbn [mbind option_bind].
  eapply (runs_bind _ _ (λ full, (full + Z.of_nat n ≤ U32_MAX)%Z)).
  { destruct (_ && _); [rewrite checked_add_some by lia|]; simpl; lia. }
  intros full ?. rewrite checked_add_some by nia. simpl. unfold room; simpl. split_and!; [lia..|nia].
Qed.

Lemma room_le st n m : room st n → m ≤ n → room st m.
Proof. unfold room. intros (?&?&?) ?. split_and!; [lia..|nia]. Qed.

(** What a flush appends: the blocks of an edit script from [(c1,c2)] to
    [(e1,e2)] that are changes and do not touch. *)
Definition refreshed (bs : list Block) (c1 c2 e1 e2 : nat) : Prop :=
  Forall block_wf bs ∧ Forall (λ b, dirty b = false) bs ∧
  script E c1 c2 (to_range <$> bs) e1 e2 ∧ separated (to_range <$> bs).

Lemma refreshed_of_local bs rs d1 d2 b1 b2 :
  d1 ≤ d2 → d2 ≤ length doc → b1 ≤ b2 → b2 ≤ length base →
  fresh_blocks bs (shift2 d1 b1 <$> rs) →
  script (text_eq p (take (d2 - d1) (drop d1 doc)) (take (b2 - b1) (drop b1 base)))
    0 0 rs (d2 - d1) (b2 - b1) →
  separated rs → refreshed bs d1 b1 d2 b2.
Proof.
  intros ???? (Hr&?&?) Hs ?. unfold refreshed. rewrite Hr.
  split_and!; [done..| |by apply separated_shift].
  eapply (script_shift _ E d1 b1) in Hs.
  - rewrite !Nat.add_0_r in Hs. replace (d1 + (d2 - d1)) with d2 in Hs by lia.
    by replace (b1 + (b2 - b1)) with b2 in Hs by lia.
  - intros i j ?? (a&c&Ha&Hc&?). rewrite lookup_take_lt, lookup_drop in Ha, Hc by lia.
    by exists a, c.
Qed.

(** The comparison of two slices, of [flush_group]. *)
Lemma flush_slices_spec st out big d1 d2 b1 b2 n :
  d1 ≤ d2 → d2 ≤ length doc → b1 ≤ b2 → b2 ≤ length base → room st (S n) →
  runs (doc_slice ← slice doc d1 d2;
        base_slice ← slice base b1 b2;
        if big || BlockTracker.is_too_big doc_slice || BlockTracker.is_too_big base_slice then
          block ← trimmed_block doc_slice base_slice p (d1, d2) (b1, b2);
          Some (st, out ++ match block with Some block => [block] | None => [] end)
        else
          st ← BlockTracker.count_rediff doc base st doc_slice base_slice;
          ranges ← compare_lines base_slice doc_slice p;
          Some (st, out ++ (BlockTracker.block_of_range d1 b1 <$> ranges)))
    (λ r, room (fst r) n ∧ ∃ bs, snd r = out ++ bs ∧ refreshed bs d1 b1 d2 b2).
Proof.
  intros ???? Hroom. unfold fits in *. rewrite slice_some by done. cbn [mbind option_bind].
  rewrite slice_some by done. cbn [mbind option_bind].
  set (ds := take _ (drop d1 doc)). set (bs := take _ (drop b1 base)).
  assert (length ds = d2 - d1 ∧ length bs = b2 - b1) as [Hd Hb].
  { unfold ds, bs. rewrite !length_take, !length_drop. lia. }
  destruct (big || _ || _).
  - assert ((d1, d2) = (d1, d1 + length ds) ∧ (b1, b2) = (b1, b1 + length bs)) as [-> ->]
      by (split; f_equal; lia).
    eapply runs_bind; [apply trimmed_block_spec; lia|].
    intros o (rs&Hf&Hs&Hsep). simpl. split; [by eapply room_le; [|apply Nat.le_succ_diag_r]|].
    eexists. split; [done|]. rewrite Hd, Hb in Hs. by eapply refreshed_of_local.
  - eapply runs_bind; [apply count_rediff_spec; [done|lia|lia]|]. intros st' Hst'.
    eapply runs_bind; [apply compare_lines_spec|]. intros rs (Hs&Hsep&_). simpl.
    split; [done|]. eexists. split; [done|].
    apply (refreshed_of_local _ (swap <$> rs)); [done..| | |by eapply separated_of_swap].
    + eapply blocks_of_ranges; [exact Hs|lia..].
    + eapply (script_swap _ (text_eq p ds bs)) in Hs; [by rewrite Hd, Hb in Hs|].
      intros i j (a&c&?&?&?). exists c, a. split_and!; [done..|by apply is_equals_sym].
Qed.

Lemma separated_of_settled bs :
  settled bs → Forall (λ b, dirty b = false) bs → separated (to_range <$> bs).
Proof.
  induction bs as [|b bs IH]; [done|]. intros (Hne&Hnt&Hset) Hd. inversion Hd as [|? ? Hb Hd']; subst.
  rewrite fmap_cons. cbn [separated]. split_and!; [by apply Hne| |by apply IH].
  destruct bs as [|b' bs]; [done|]. inversion Hd'; subst. by apply Hnt.
Qed.

Lemma flush_group_spec st group out f l c1 c2 n :
  head group = Some f → last group = Some l → Forall block_wf group → settled group →
  script E c1 c2 (to_range <$> group) (end1 (to_range l)) (end2 (to_range l)) →
  end1 (to_range l) ≤ length doc → end2 (to_range l) ≤ length base → room st (S n) →
  runs (BlockTracker.flush_group doc base p st group out) (λ r,
    room (fst r) n ∧ ∃ bs, snd r = out ++ bs ∧
      refreshed bs c1 c2 (end1 (to_range l)) (end2 (to_range l)) ∧
      Forall (λ b, start1 (to_range f) ≤ start1 (to_range b)) bs).
Proof.
  intros Hf Hl Hwf Hset Hs ?? Hroom. unfold BlockTracker.flush_group. rewrite Hf, Hl.
  destruct group as [|f' t]; [done|]. simpl in Hf. injection Hf as ->.
  pose proof Hs as (Hgap&?&?&Ht). pose proof (script_bounds _ _ _ _ _ _ Ht) as [??].
  inversion Hwf as [|? ? Hwff Hwft]; subst. pose proof (Forall_last _ _ _ Hwf Hl) as Hwfl.
  destruct (existsb dirty (f :: t)) eqn:Hd; cbn [negb].
  2: { simpl. split; [by eapply room_le; [|apply Nat.le_succ_diag_r]|]. exists (f :: t).
       assert (Forall (λ b, dirty b = false) (f :: t)) as Hclean.
       { apply Forall_forall. intros b Hb. destruct (dirty b) eqn:Hbd; [|done].
         rewrite <- Hd. symmetry. apply existsb_exists. exists b. by rewrite <- list_elem_of_In. }
       split; [done|]. split.
       - unfold refreshed. split_and!; [done..|by apply separated_of_settled].
       - constructor; [done|]. apply script_inside, Forall_fmap in Ht.
         eapply Forall_impl; [exact Ht|]. intros b ?. simpl in *. lia. }
  set (m := BlockTracker.merged (f :: t) f l).
  destruct Hwff as (?&?&?&?), Hwfl as (?&?&?&?). unfold in_u32 in *. simpl in * |-.
  assert (block_wf m ∧ to_range m = mkRange (start1 (to_range f)) (end1 (to_range l))
            (start2 (to_range f)) (end2 (to_range l))) as [Hm Hmr].
  { unfold m, block_wf, to_range, in_u32; simpl. rewrite !Z.max_l by lia. split; [lia|done]. }
  rewrite block_is_empty by (done || rewrite Hmr; simpl; lia). rewrite Hmr.
  destruct (Range.is_empty (mkRange _ _ _ _)) eqn:He.
  - apply is_empty_true in He as [He1 He2]. simpl in He1, He2. cbn [runs fst snd].
    split; [by eapply room_le; [|apply Nat.le_succ_diag_r]|]. exists [].
    rewrite app_nil_r. split; [done|]. split; [|done].
    unfold refreshed. split_and!; [done..| |done]. simpl. by rewrite <- He1, <- He2.
  - assert (clamp_range (lines m) (length doc) = (start1 (to_range f), end1 (to_range l)) ∧
            clamp_range (base_lines m) (length base) = (start2 (to_range f), end2 (to_range l)))
      as [-> ->].
    { unfold clamp_range, m; simpl. rewrite !Z.max_l by lia. split; f_equal; lia. }
    eapply runs_mono; [apply (flush_slices_spec st out); simpl; try lia; done|].
    intros r (?&bs&?&(?&?&Hsb&?)). split; [done|]. exists bs. split; [done|]. split.
    + unfold refreshed. split_and!; [done..| |done].
      apply (script_app _ [] _ _ _ _ _ _ _ Hgap Hsb).
    + apply script_inside, Forall_fmap in Hsb. eapply Forall_impl; [exact Hsb|].
      intros b ?. simpl in *. lia.
Qed.
End flush.

(** ** The loop of [refresh_dirty] *)

Section refresh.
Context `{MyersDiffLaws} (doc base : list str) (p : ComparisonPolicy).
Context (Hdoc : fits doc) (Hbase : fits base).
Let E := text_eq p doc base.
Let L1 := length doc.
Let L2 := length base.

(** [refreshed] holds everything before the group, the group and the blocks
    still to come hold the rest. *)
Record loop_ok (s : TrackerStats * list Block * list Block) (rest : list Block) : Prop := {
  loop_room : room doc base (fst (fst s)) (length rest + 1);
  loop_script : ∃ c1 c2, script E 0 0 (to_range <$> snd s) c1 c2 ∧
    script E c1 c2 (to_range <$> snd (fst s) ++ rest) L1 L2;
  loop_wf : Forall block_wf (snd (fst s) ++ rest);
  loop_settled : settled (snd (fst s) ++ rest);
  loop_out : Forall block_wf (snd s) ∧ Forall (λ b, dirty b = false) (snd s) ∧
    separated (to_range <$> snd s);
  loop_before : ∀ y, head (snd (fst s) ++ rest) = Some y →
    Forall (λ x, end1 (to_range x) < start1 (to_range y)) (snd s) }.

Lemma separated_app rs rs' :
  separated rs → separated rs' →
  (∀ x y, last rs = Some x → head rs' = Some y → end1 x < start1 y) → separated (rs ++ rs').
Proof.
  induction rs as [|r rs IH]; [done|]. intros (?&?&?) Hs' Hlt. simpl. split_and!; [done| |].
  - destruct rs as [|r2 rs]; [|done]. destruct rs' as [|r' rs']; [done|]. by apply Hlt.
  - apply IH; [done..|]. intros x y Hx Hy. apply Hlt; [|done]. rewrite last_cons. by rewrite Hx.
Qed.

(** Flushing a non-empty group in front of [rest]. *)
Lemma loop_flush st group out rest f l :
  loop_ok (st, group, out) rest → head group = Some f → last group = Some l →
  (∀ y, head rest = Some y → end1 (to_range l) < start1 (to_range y)) →
  runs (BlockTracker.flush_group doc base p st group out) (λ r,
    room doc base (fst r) (length rest) ∧
    (∃ c1 c2, script E 0 0 (to_range <$> snd r) c1 c2 ∧ script E c1 c2 (to_range <$> rest) L1 L2) ∧
    Forall block_wf (snd r) ∧ Forall (λ b, dirty b = false) (snd r) ∧
    separated (to_range <$> snd r) ∧
    ∀ y, head rest = Some y → Forall (λ x, end1 (to_range x) < start1 (to_range y)) (snd r)).
Proof.
  intros [Hroom (c1&c2&Hs1&Hs2) Hwf Hset (Ho1&Ho2&Ho3) Hb] Hf Hl Hrest. simpl in *.
  rewrite fmap_app in Hs2. apply script_app_inv in Hs2 as [Hg Hr].
  rewrite last_end_blocks, Hl in Hg, Hr. simpl in Hg, Hr.
  change (Z.to_nat (end_ (lines l))) with (end1 (to_range l)) in *.
  change (Z.to_nat (end_ (base_lines l))) with (end2 (to_range l)) in *.
  pose proof (script_bounds _ _ _ _ _ _ Hr) as [??].
  apply settled_app in Hset as (Hsg&_&_). apply Forall_app in Hwf as [Hwg _].
  assert (head (group ++ rest) = Some f) as Hhead by (by destruct group).
  specialize (Hb f Hhead). rewrite Nat.add_1_r in Hroom.
  eapply runs_mono; [by eapply (flush_group_spec doc base p Hdoc Hbase st group out f l)|].
  intros [st' out'] (?&bs&Heq&(?&?&Hsb&Hsep)&Hfb). simpl in *. subst out'.
  split_and!; [done| |by apply Forall_app|by apply Forall_app| |].
  - exists (end1 (to_range l)), (end2 (to_range l)). split; [|done].
    rewrite fmap_app. by eapply script_app.
  - rewrite fmap_app. apply separated_app; [done..|]. intros x y Hx Hy.
    rewrite fmap_last in Hx. destruct (last out) as [bx|] eqn:Hbx; [|done]. simpl in Hx.
    injection Hx as <-. destruct bs as [|by' bs]; [done|]. simpl in Hy. injection Hy as <-.
    pose proof (Forall_last _ _ _ Hb Hbx). inversion Hfb; subst. simpl in *. lia.
  - intros y Hy. apply Forall_app. specialize (Hrest y Hy).
    apply script_inside in Hsb, Hg. rewrite Forall_fmap in Hsb. split.
    + assert (start1 (to_range f) ≤ end1 (to_range l)).
      { destruct group as [|g t]; [done|]. simpl in Hf. injection Hf as ->.
        inversion Hg as [|? ? Hgf _]; subst. simpl in *. lia. }
      eapply Forall_impl; [exact Hb|]. intros x ?. simpl in *. lia.
    + eapply Forall_impl; [exact Hsb|]. intros x ?. simpl in *. lia.
Qed.

Lemma not_touching l b :
  block_wf l → block_wf b → Block.touches l b = false →
  end1 (to_range l) < start1 (to_range b).
Proof.
  unfold Block.touches, block_wf, in_u32. intros (?&?&?&?) (?&?&?&?) [?%Z.leb_gt _]%orb_false_iff.
  simpl. lia.
Qed.

Lemma refresh_block_spec s b rest :
  loop_ok s (b :: rest) →
  runs (BlockTracker.refresh_block doc base p b s) (λ s',
    loop_ok s' rest ∧ is_Some (last (snd (fst s')))).
Proof.
  destruct s as [[st group] out]. intros Hok. unfold BlockTracker.refresh_block.
  set (flushed := match last group with Some l => negb (Block.touches l b) | None => false end).
  eapply (runs_bind _ _ (λ s', loop_ok (fst (fst s'), snd (fst s') ++ [b], snd s') rest)).
  - assert (loop_ok (st, group ++ [b], out) rest) as Hpush.
    { destruct Hok as [Hroom Hsc Hwf Hset Hout Hb]. simpl in *.
      split; simpl; try rewrite <- app_assoc; try done.
      eapply room_le; [exact Hroom|simpl; lia]. }
    destruct (last group) as [l|] eqn:Hl; subst flushed; [|done].
    destruct (Block.touches l b) eqn:Ht; [done|]. cbn [negb].
    destruct (head group) as [f|] eqn:Hf; [|by destruct group].
    assert (block_wf l ∧ block_wf b) as [??].
    { pose proof (loop_wf _ _ Hok) as Hwf. simpl in Hwf. apply Forall_app in Hwf as [Hwg Hwb].
      apply Forall_cons in Hwb as [? _]. split; [exact (Forall_last _ _ _ Hwg Hl)|done]. }
    eapply runs_bind; [apply (loop_flush _ _ _ _ f l Hok Hf Hl)|].
    { intros y [= <-]. by apply not_touching. }
    intros [st' out'] (?&?&?&?&?&?). simpl in *.
    pose proof (loop_wf _ _ Hok) as Hwf. pose proof (loop_settled _ _ Hok) as Hset. simpl in *.
    apply settled_app in Hset as (_&Hset&_). apply Forall_app in Hwf as [_ Hwf].
    split; simpl; [by rewrite Nat.add_1_r|done..].
  - intros [[st' g'] out'] Hok'. simpl in *. split; [done|]. by rewrite last_snoc.
Qed.

(** The result of a refresh: the blocks are a separated edit script. *)
Lemma refresh_dirty_spec t :
  active t = true → tracks p doc base (blocks t) → settled (blocks t) →
  room doc base (stats t) (length (blocks t) + 1) →
  runs (BlockTracker.refresh_dirty doc base p t) (λ r,
    snd r = BlockTracker.is_dirty t ∧ active (fst r) = true ∧
    tracks p doc base (blocks (fst r)) ∧ separated (to_range <$> blocks (fst r)) ∧
    Forall (λ b, dirty b = false) (blocks (fst r))).
Proof.
  intros Hact [Hwf Hs] Hset Hroom. unfold BlockTracker.refresh_dirty. rewrite Hact. simpl.
  destruct (BlockTracker.is_dirty t) eqn:Hdirty; cbn [negb].
  2: { assert (Forall (λ b, dirty b = false) (blocks t)) as Hclean.
       { apply Forall_forall. intros b Hb. destruct (dirty b) eqn:Hbd; [|done].
         rewrite <- Hdirty. symmetry. apply existsb_exists. exists b. by rewrite <- list_elem_of_In. }
       simpl. split_and!; [done..|by apply separated_of_settled|done]. }
  destruct (_ && _ && bool_decide (doc = base)) eqn:Heq.
  { apply andb_prop in Heq as [_ <-%bool_decide_eq_true]. simpl. split_and!; [done..| |done|constructor].
    split; [constructor|]. simpl. unfold gap. split_and!; [lia..|]. simpl.
    intros i Hi. destruct (lookup_lt_is_Some_2 doc i) as [a Ha]; [lia|].
    exists a, a. split_and!; [done..|by apply is_equals_refl]. }
  clear Heq.
  eapply (runs_bind _ _ (λ s, loop_ok s [] ∧ is_Some (last (snd (fst s))))).
  - apply (runs_for_each _ _ (λ dn s, ∃ rest, blocks t = dn ++ rest ∧ loop_ok s rest ∧
      (dn ≠ [] → is_Some (last (snd (fst s)))))).
    + exists (blocks t). split; [done|]. split; [|done]. split; simpl; try done.
      exists 0, 0. split; [apply gap_refl|done].
    + intros dn b rest s Hb (rest'&Hrest&Hok&_). rewrite Hb in Hrest.
      apply app_inv_head in Hrest as <-.
      eapply runs_mono; [by apply refresh_block_spec|]. intros s' [? ?]. exists rest.
      by rewrite Hb, <- app_assoc.
    + intros s (rest&Hrest&Hok&Hsome). rewrite <- (app_nil_r (blocks t)) in Hrest at 1.
      apply app_inv_head in Hrest as <-. split; [done|]. apply Hsome.
      intros Hn. unfold BlockTracker.is_dirty in Hdirty. by rewrite Hn in Hdirty.
  - intros [[st group] out] [Hok [l Hl]]. simpl in Hl.
    destruct (head group) as [f|] eqn:Hf; [|by destruct group].
    eapply runs_bind; [by apply (loop_flush _ _ _ _ f l Hok Hf Hl)|].
    intros [st' out'] (_&(c1&c2&Hs1&Hs2)&?&?&?&_). simpl in *.
    split_and!; [done..| |done|done]. split; [done|]. by eapply script_extend.
Qed.
End refresh.

(** ** Every history of a tracker *)

Section reachable.
Context `{MyersDiffLaws} (p : ComparisonPolicy).

(** The trackers a history of [fresh], [reset], [range_changed] and
    [refresh_dirty] calls can produce for a document and its base. *)
Inductive reachable : list str → list str → BlockTracker → Prop :=
| reach_fresh doc base :
    fits doc → fits base →
    reachable doc base (BlockTracker.fresh (Z.of_nat (length doc)) (Z.of_nat (length base)))
| reach_reset doc base t doc' base' :
    reachable doc base t → fits doc' → fits base' →
    reachable doc' base'
      (BlockTracker.reset t (Z.of_nat (length doc')) (Z.of_nat (length base')))
| reach_edit doc base t s k new t' :
    reachable doc base t → s + k ≤ length doc → fits (splice doc s k new) →
    BlockTracker.range_changed t (Z.of_nat s) (Z.of_nat k) (Z.of_nat (length new)) = Some t' →
    reachable (splice doc s k new) base t'
| reach_refresh doc base t t' changed :
    reachable doc base t → room doc base (stats t) (length (blocks t) + 1) →
    BlockTracker.refresh_dirty doc base p t = Some (t', changed) →
    reachable doc base t'.

Lemma whole_block_tracks doc base :
  fits doc → fits base →
  let b := mkBlock (mkLines 0 (Z.of_nat (length doc))) (mkLines 0 (Z.of_nat (length base)))
             true false in
  tracks p doc base [b] ∧ settled [b].
Proof.
  unfold fits, tracks, block_wf, in_u32, U32_MAX. intros ??. simpl. rewrite !Nat2Z.id.
  split_and!; try done; try lia; try apply gap_refl.
  apply Forall_singleton. simpl. lia.
Qed.

Lemma reachable_ok doc base t :
  reachable doc base t →
  fits doc ∧ fits base ∧ active t = true ∧ tracks p doc base (blocks t) ∧ settled (blocks t).
Proof.
  induction 1 as [doc base Hd Hb|doc base t doc' base' _ (_&_&Hact&_) Hd Hb
                 |doc base t s k new t' _ (?&?&?&?&?) Hsk Hd Hrun
                 |doc base t t' ch _ (?&?&?&?&?) Hroom Hrun].
  - destruct (whole_block_tracks doc base Hd Hb). by split_and!.
  - destruct (whole_block_tracks doc' base' Hd Hb). unfold BlockTracker.reset. rewrite Hact.
    by split_and!.
  - pose proof (range_changed_spec p doc base new s k Hsk) as Hspec.
    specialize (Hspec ltac:(done) ltac:(done) ltac:(done) t). rewrite Hrun in Hspec.
    destruct Hspec as (?&_&_&?&Hset); [done..|]. split_and!; auto.
  - pose proof (refresh_dirty_spec doc base p) as Hspec.
    specialize (Hspec ltac:(done) ltac:(done) t). rewrite Hrun in Hspec.
    destruct Hspec as (_&?&?&Hsep&Hclean); [done..|]. split_and!; try done.
    clear -Hsep Hclean. simpl in *. induction (blocks t') as [|b bs IH]; [done|].
    rewrite fmap_cons in Hsep. destruct Hsep as (?&Hlt&?). inversion Hclean; subst.
    simpl. split_and!; [done| |by apply IH].
    intros _ b' Hb' _. destruct bs as [|x bs]; [done|]. simpl in Hb'. by injection Hb' as <-.
Qed.
End reachable.

Lemma existsb_Forall_false (bs : list Block) :
  Forall (λ b, dirty b = false) bs → existsb dirty bs = false.
Proof. induction 1 as [|b bs Hb _ IH]; [done|]. simpl. by rewrite Hb. Qed.

(** ** Looking up a line *)

(** The lines a block stands for in the gutter. *)
Definition covers (b : Block) (line : Z) : Prop :=
  if LineRange.is_empty (lines b) then line = start (lines b) ∨ (line + 1 = start (lines b))%Z
  else (start (lines b) ≤ line < end_ (lines b))%Z.

Lemma covers_line_spec b line :
  (line < U32_MAX)%Z → runs (Block.covers_line b line) (λ c, c = true ↔ covers b line).
Proof.
  intros Hline. unfold Block.covers_line, Block.kind, covers, LineRange.contains.
  destruct (LineRange.is_empty (lines b)) eqn:He.
  - destruct (Z.eqb_spec line (start (lines b))) as [->|Hne]; [simpl; tauto|].
    rewrite checked_add_some by lia. simpl. rewrite Z.eqb_eq. lia.
  - destruct (LineRange.is_empty (base_lines b)); simpl;
      rewrite andb_true_iff, Z.leb_le, Z.ltb_lt; lia.
Qed.

Lemma find_covering line bs i :
  (line < U32_MAX)%Z →
  runs (find_some (imap (λ k b, (i + k, b)) bs) (λ ib, Block.covers_line (snd ib) line)) (λ o,
    match o with
    | Some (k, b) => ∃ j, k = i + j ∧ bs !! j = Some b ∧ covers b line ∧
                     ∀ j' b', j' < j → bs !! j' = Some b' → ¬ covers b' line
    | None => Forall (λ b, ¬ covers b line) bs
    end).
Proof.
  intros Hline. revert i. induction bs as [|b bs IH]; intros i; [simpl; by constructor|].
  rewrite imap_cons. simpl. step with (by apply covers_line_spec).
  intros [|] Hc; simpl.
  - exists 0. split_and!; [lia|done|by apply Hc|lia].
  - assert (¬ covers b line) by (intros ?%Hc; done).
    rewrite (imap_ext _ (λ k b, (S i + k, b))) by (intros; simpl; f_equal; lia).
    eapply runs_mono; [apply IH|]. intros [[k b']|]; [|by constructor].
    intros (j & -> & Hj & Hcov & Hbefore). exists (S j). split_and!; [lia|done|done|].
    intros [|j'] b'' Hlt Hb; [by simplify_eq/=|]. apply (Hbefore j'); [lia|done].
Qed.

Lemma block_at_spec t line :
  (line < U32_MAX)%Z →
  runs (BlockTracker.block_at t line) (λ o,
    match o with
    | Some (i, b) => blocks t !! i = Some b ∧ covers b line ∧
                     ∀ j b', j < i → blocks t !! j = Some b' → ¬ covers b' line
    | None => Forall (λ b, ¬ covers b line) (blocks t)
    end).
Proof.
  intros Hline. unfold BlockTracker.block_at.
  eapply runs_mono; [apply (find_covering line (blocks t) 0 Hline)|].
  intros [[k b]|]; [|done]. intros (j & -> & ? & ? & ?). by split_and!.
Qed.
