(* ===== verification/DiffProperties.v ===== *)
(** * paneflow-textdiff: the properties of the crate

    What a caller of [compare_lines] and of the change tracker relies on, and
    the contracts of the routines in between.  The diff engine is the class
    [MyersDiff]; the witnesses run the reference diff. *)

From S2P Require Import Prelude DiffRange DiffText DiffChanges DiffChunks DiffLines DiffLinesCorrect DiffTracker DiffTrackerCorrect.

(** ** Concrete texts *)

(** The lines [foo();], an empty line, [x], [bar baz]. *)
Definition sample_old : list str :=
  [[102; 111; 111; 40; 41; 59]; []; [120]; [98; 97; 114; 32; 98; 97; 122]]%N.

(** The same with a line inserted, and [x] indented. *)
Definition sample_new : list str :=
  [[102; 111; 111; 40; 41; 59]; []; [32; 120]; [110; 101; 119; 49]; [98; 97; 114; 32; 98; 97; 122]]%N.

(** ** The comparison of two texts *)

Section compare.
Context `{MyersDiffLaws}.

(** C1: [compare_lines] never panics - no index out of range, no [usize]
    underflow, no failed [debug_assert!], in any of its steps - and returns,
    for every two texts and every policy, an edit script: ordered ranges
    outside of which the lines pair up one to one and are equal under the
    policy; no range is empty, two ranges are never adjacent, and no range
    can be shortened at either end. *)
Theorem compare_lines_correct (texts1 texts2 : list str) (p : ComparisonPolicy) :
  ∃ rs, compare_lines texts1 texts2 p = Some rs ∧ text_script p texts1 texts2 rs.
Proof. apply runs_some, compare_lines_spec. Qed.

(** C2: Under the default policy the ranges are a patch: replacing each changed
    range of the first text by the range of the second gives the second text. *)
Theorem compare_lines_patch (texts1 texts2 : list str) :
  runs (compare_lines texts1 texts2 Default) (λ rs, patch 0 texts1 texts2 rs = texts2).
Proof.
  eapply runs_mono; [apply compare_lines_spec|]. intros rs [Hs _]. apply (patch_script _ _ _ 0 0).
  eapply script_mono; [|exact Hs]. intros i j _ _ (a & b & Ha & Hb & Heq%bool_decide_eq_true).
  subst. eauto.
Qed.

(** A comparison finds no change only when the texts have the same number
    of lines and the lines are pairwise equal under the policy. *)
Theorem compare_lines_unchanged (texts1 texts2 : list str) (p : ComparisonPolicy) :
  runs (compare_lines texts1 texts2 p) (λ rs,
    rs = [] → length texts1 = length texts2 ∧
              ∀ i, i < length texts1 → text_eq p texts1 texts2 i i).
Proof.
  eapply runs_mono; [apply compare_lines_spec|]. intros rs [Hs _] ->.
  destruct Hs as (_ & _ & Hlen & Hall). split; [lia|].
  intros i Hi. apply (Hall i). lia.
Qed.
End compare.

Lemma compare_lines_correct_witness :
  @compare_lines ReferenceDiff.reference_hunks sample_old sample_new Default =
    Some [mkRange 2 3 2 4] ∧
  ∃ rs, @compare_lines ReferenceDiff.reference_hunks sample_old sample_new Default = Some rs ∧
        text_script Default sample_old sample_new rs.
Proof.
  split; [vm_compute; reflexivity|].
  exact (@compare_lines_correct ReferenceDiff.reference_hunks ReferenceDiff.reference_laws
           sample_old sample_new Default).
Defined.

Lemma compare_lines_patch_witness :
  runs (@compare_lines ReferenceDiff.reference_hunks sample_old sample_new Default)
    (λ rs, patch 0 sample_old sample_new rs = sample_new).
Proof.
  exact (@compare_lines_patch ReferenceDiff.reference_hunks ReferenceDiff.reference_laws
           sample_old sample_new).
Defined.

Lemma compare_lines_unchanged_witness :
  @compare_lines ReferenceDiff.reference_hunks [[120%N]] [[32%N; 120%N]] TrimWhitespaces = Some [] ∧
  length [[120%N]] = length [[32%N; 120%N]] ∧
  ∀ i, i < 1 → text_eq TrimWhitespaces [[120%N]] [[32%N; 120%N]] i i.
Proof.
  pose proof (@compare_lines_unchanged ReferenceDiff.reference_hunks ReferenceDiff.reference_laws
                [[120%N]] [[32%N; 120%N]] TrimWhitespaces) as Hw.
  assert (Hc : @compare_lines ReferenceDiff.reference_hunks [[120%N]] [[32%N; 120%N]]
                 TrimWhitespaces = Some []) by (vm_compute; reflexivity).
  rewrite Hc in Hw. split; [exact Hc|]. exact (Hw eq_refl).
Defined.

(** ** The change tracker *)

Section tracker.
Context `{MyersDiffLaws} (p : ComparisonPolicy).

(** C5: After any history of edits, resets and refreshes the blocks of a
    tracker, dirty ones included, are an edit script between the current
    document and its base: outside of the blocks the lines pair up one to one
    and are equal under the policy. *)
Theorem tracker_reachable_tracks (doc base : list str) (t : BlockTracker) :
  reachable p doc base t → tracks p doc base (blocks t).
Proof. intros (_&_&_&?&_)%reachable_ok. done. Qed.

(** In every reachable state an edit within the document neither overflows
    nor panics, keeps the statistics, leaves the tracker dirty and keeps the
    blocks an edit script for the edited document. *)
Theorem range_changed_tracks (doc base new : list str) (t : BlockTracker) (s k : nat) :
  reachable p doc base t → s + k ≤ length doc → fits (splice doc s k new) →
  runs (BlockTracker.range_changed t (Z.of_nat s) (Z.of_nat k) (Z.of_nat (length new))) (λ t',
    stats t' = stats t ∧ BlockTracker.is_dirty t' = true ∧
    tracks p (splice doc s k new) base (blocks t')).
Proof.
  intros (?&?&?&?&?)%reachable_ok ??.
  eapply runs_mono; [apply (range_changed_spec p doc base new s k); done|].
  intros t' (_&?&?&?&_). by split_and!.
Qed.

(** C6: In every reachable state, with room left in the counters, a refresh
    terminates without a panic, reports whether there was a dirty block, and
    leaves a separated edit script of the document with no dirty block. *)
Theorem refresh_dirty_settles (doc base : list str) (t : BlockTracker) :
  reachable p doc base t → room doc base (stats t) (length (blocks t) + 1) →
  runs (BlockTracker.refresh_dirty doc base p t) (λ r,
    snd r = BlockTracker.is_dirty t ∧ BlockTracker.is_dirty (fst r) = false ∧
    tracks p doc base (blocks (fst r)) ∧ separated (to_range <$> blocks (fst r))).
Proof.
  intros (?&?&?&?&?)%reachable_ok ?.
  eapply runs_mono; [apply (refresh_dirty_spec doc base p); done|].
  intros [t' ch] (?&_&?&?&Hclean). split_and!; try done. by apply existsb_Forall_false.
Qed.
End tracker.

(** Looking up a line below [u32::MAX] never panics and finds the first
    block covering it, none when there is none: a change or an addition covers
    its lines, a deletion the line after it and the line before it. *)
Theorem block_at_first (t : BlockTracker) (line : Z) :
  (line < U32_MAX)%Z →
  runs (BlockTracker.block_at t line) (λ o,
    match o with
    | Some (i, b) => blocks t !! i = Some b ∧ covers b line ∧
                     ∀ j b', j < i → blocks t !! j = Some b' → ¬ covers b' line
    | None => Forall (λ b, ¬ covers b line) (blocks t)
    end).
Proof. apply block_at_spec. Qed.

(** A tracker of [sample_new] against [sample_old], not refreshed yet. *)
Definition sample_tracker : BlockTracker := BlockTracker.fresh 5 4.

Lemma sample_reachable :
  @reachable ReferenceDiff.reference_hunks Default sample_new sample_old sample_tracker.
Proof. apply (reach_fresh Default sample_new sample_old); done. Qed.

Lemma tracker_reachable_tracks_witness :
  tracks Default sample_new sample_old (blocks sample_tracker).
Proof.
  apply (@tracker_reachable_tracks ReferenceDiff.reference_hunks ReferenceDiff.reference_laws).
  apply sample_reachable.
Defined.

(** Line 1 is replaced by two lines. *)
Lemma range_changed_tracks_witness :
  runs (BlockTracker.range_changed sample_tracker (Z.of_nat 1) (Z.of_nat 1)
          (Z.of_nat (length [[97]; [98]]%N))) (λ t',
    stats t' = stats sample_tracker ∧ BlockTracker.is_dirty t' = true ∧
    tracks Default (splice sample_new 1 1 [[97]; [98]]%N) sample_old (blocks t')).
Proof.
  apply (@range_changed_tracks ReferenceDiff.reference_hunks ReferenceDiff.reference_laws).
  - apply sample_reachable.
  - simpl. lia.
  - done.
Defined.

Lemma refresh_dirty_settles_witness :
  blocks <$> (fst <$> @BlockTracker.refresh_dirty ReferenceDiff.reference_hunks
                        sample_new sample_old Default sample_tracker) =
    Some [mkBlock (mkLines 2 4) (mkLines 2 3) false false] ∧
  runs (@BlockTracker.refresh_dirty ReferenceDiff.reference_hunks
          sample_new sample_old Default sample_tracker) (λ r,
    snd r = BlockTracker.is_dirty sample_tracker ∧ BlockTracker.is_dirty (fst r) = false ∧
    tracks Default sample_new sample_old (blocks (fst r)) ∧
    separated (to_range <$> blocks (fst r))).
Proof.
  split; [vm_compute; reflexivity|].
  apply (@refresh_dirty_settles ReferenceDiff.reference_hunks ReferenceDiff.reference_laws).
  - apply sample_reachable.
  - split_and!; done.
Defined.

Lemma block_at_first_witness :
  runs (BlockTracker.block_at
          (mkTracker true [mkBlock (mkLines 2 2) (mkLines 0 1) false false] (mkStats 0 0 0)) 1)
    (λ o, match o with
          | Some (i, b) => [mkBlock (mkLines 2 2) (mkLines 0 1) false false] !! i = Some b ∧
              covers b 1 ∧
              ∀ j b', j < i → [mkBlock (mkLines 2 2) (mkLines 0 1) false false] !! j = Some b' →
                      ¬ covers b' 1
          | None => Forall (λ b, ¬ covers b 1) [mkBlock (mkLines 2 2) (mkLines 0 1) false false]
          end).
Proof.
  apply (block_at_first
           (mkTracker true [mkBlock (mkLines 2 2) (mkLines 0 1) false false] (mkStats 0 0 0)) 1).
  done.
Defined.

(** ** The routines behind the comparison *)

(** Sliding the changed chunks of a comparison of lines of one policy never panics, gives
    an edit script again, without empty or adjacent ranges, and changes exactly
    as many lines as before. *)
Theorem optimize_line_chunks_slides p (lines1 lines2 : list Line) (c : Changes.t) :
  all_policy p lines1 → all_policy p lines2 →
  changes_ok (item_eq lines1 lines2) (length lines1) (length lines2) c →
  runs (optimize_line_chunks lines1 lines2 c) (λ c',
    changes_ok (item_eq lines1 lines2) (length lines1) (length lines2) c' ∧
    separated (Changes.changed c') ∧
    covered1 (Changes.changed c') = covered1 (Changes.changed c)).
Proof.
  intros Hp1 Hp2. pose proof (lines_comparable _ _ _ Hp1 Hp2).
  exact (optimize_chunks_spec lines1 lines2 (item_eq lines1 lines2) (λ i j H, H) c).
Qed.

(** When two runs of whitespace-equal lines of one policy have different lengths, the
    alignment of the shorter one is a strictly increasing choice of lines of
    the longer one, and no such choice pairs more equal lines. *)
Theorem best_matching_alignment_optimal p (sub1 sub2 : list nat) (lines1 lines2 : list Line) :
  all_policy p lines1 → all_policy p lines2 →
  Forall (λ i, i < length lines1) sub1 → Forall (λ i, i < length lines2) sub2 →
  length sub1 < length sub2 →
  runs (best_matching_alignment sub1 sub2 lines1 lines2) (λ m,
    alignment sub1 sub2 m ∧
    ∃ w, alignment_weight sub1 sub2 lines1 lines2 m = Some w ∧
      ∀ v wv, alignment sub1 sub2 v → alignment_weight sub1 sub2 lines1 lines2 v = Some wv →
              wv ≤ w).
Proof.
  intros Hp1 Hp2 H1 H2. rewrite Forall_lookup in H1, H2.
  pose proof (lines_comparable _ _ _ Hp1 Hp2). by apply best_matching_alignment_spec.
Qed.

(** On lines of one policy [expand] never panics, and trims a range by its longest
    equal prefix and then by the longest equal suffix of the rest: what it cuts
    off pairs up, and the corners of what is left differ. *)
Theorem expand_maximal p (items1 items2 : list Line) (s1 s2 e1 e2 : nat) :
  all_policy p items1 → all_policy p items2 →
  s1 ≤ e1 → s2 ≤ e2 → e1 ≤ length items1 → e2 ≤ length items2 →
  runs (expand items1 items2 s1 s2 e1 e2) (λ r,
    gap (item_eq items1 items2) s1 s2 (start1 r) (start2 r) ∧
    start1 r ≤ end1 r ∧ start2 r ≤ end2 r ∧
    gap (item_eq items1 items2) (end1 r) (end2 r) e1 e2 ∧ trimmed items1 items2 r).
Proof. intros Hp1 Hp2 ????. apply expand_spec; [by apply (lines_comparable p)|done..]. Qed.

(** The unchanged view of a set of changes loses nothing: it lists the
    pairs outside of the changes, and rebuilding the changes from it gives them
    back. *)
Theorem unchanged_inverse (E : nat → nat → Prop) (l1 l2 : nat) (c : Changes.t) :
  changes_ok E l1 l2 c → separated (Changes.changed c) →
  runs (unchanged c) (λ us, matching E 0 0 us l1 l2 ∧ from_unchanged us l1 l2 = Some c).
Proof. apply unchanged_inverse_spec. Qed.

(** Equality under a policy is an equivalence, and every policy refines the
    one that ignores whitespace. *)
Theorem is_equals_equivalence (p : ComparisonPolicy) :
  Equivalence (λ t1 t2, is_equals t1 t2 p = true) ∧
  ∀ t1 t2, is_equals t1 t2 p = true → is_equals t1 t2 IgnoreWhitespaces = true.
Proof.
  split; [|intros t1 t2; apply is_equals_iw].
  split; red; eauto with paneflow.
Qed.

(** Texts that are equal under a policy have the same hash, so that the
    comparison of [Line]s, which looks at the hashes first, decides exactly the
    equality of the policy; for [TrimWhitespaces] the texts have to be lines. *)
Theorem line_eq_is_equals (t1 t2 : str) (p : ComparisonPolicy) :
  (p = TrimWhitespaces → 10%N ∉ t1 ∧ 10%N ∉ t2) →
  eq_checked (Line.new t1 p) (Line.new t2 p) = Some (is_equals t1 t2 p).
Proof.
  intros Hnl. unfold eq_checked, line_eq. simpl. rewrite bool_decide_true by done. simpl. f_equal.
  destruct (is_equals t1 t2 p) eqn:He; [|by rewrite andb_false_r].
  by rewrite (hash_is_equals t1 t2 p Hnl He), N.eqb_refl.
Qed.

(** The binary search over a table of code point ranges never panics and
    decides membership in one of the ranges, for every table of the crate. *)
Theorem in_ranges_decides (code : N) (table : list N * list N) :
  table ∈ [(DECIMAL_DIGIT_STARTS, DECIMAL_DIGIT_ENDS); (IDEOGRAPHIC_STARTS, IDEOGRAPHIC_ENDS);
           (HIRAGANA_STARTS, HIRAGANA_ENDS); (KATAKANA_STARTS, KATAKANA_ENDS);
           (THAI_STARTS, THAI_ENDS); (JAVANESE_STARTS, JAVANESE_ENDS)] →
  ∃ b, in_ranges code (fst table) (snd table) = Some b ∧
       (b = true ↔ covered code (fst table) (snd table)).
Proof.
  intros Ht. apply in_ranges_spec. pose proof tables_ok as Hall.
  rewrite Forall_forall in Hall. by apply Hall.
Qed.

Definition lines_of (p : ComparisonPolicy) (texts : list str) : list Line :=
  (λ t, Line.new t p) <$> texts.

(** One inserted line among three equal ones slides to the end. *)
Lemma optimize_line_chunks_slides_witness :
  let l1 := lines_of Default [[120]; [120]]%N in
  let l2 := lines_of Default [[120]; [120]; [120]]%N in
  let c := Changes.new [mkRange 0 0 0 1] 2 3 in
  runs (optimize_line_chunks l1 l2 c) (λ c',
    changes_ok (item_eq l1 l2) (length l1) (length l2) c' ∧
    separated (Changes.changed c') ∧
    covered1 (Changes.changed c') = covered1 (Changes.changed c)).
Proof.
  intros l1 l2 c. apply (optimize_line_chunks_slides Default l1 l2 c); [apply all_policy_new..|]. split_and!; [done..|].
  cbn [script Changes.changed c start1 end1 start2 end2]. unfold gap.
  split_and!; try (simpl; lia). intros i Hi. simpl in Hi.
  assert (i = 0 ∨ i = 1) as [-> | ->] by lia; eexists _, _; split_and!; done.
Defined.

Lemma best_matching_alignment_optimal_witness :
  let l1 := lines_of Default [[120]]%N in
  let l2 := lines_of Default [[32; 120]; [120]]%N in
  best_matching_alignment [0] [0; 1] l1 l2 = Some [1] ∧
  runs (best_matching_alignment [0] [0; 1] l1 l2) (λ m,
    alignment [0] [0; 1] m ∧
    ∃ w, alignment_weight [0] [0; 1] l1 l2 m = Some w ∧
      ∀ v wv, alignment [0] [0; 1] v → alignment_weight [0] [0; 1] l1 l2 v = Some wv → wv ≤ w).
Proof.
  intros l1 l2. split; [vm_compute; reflexivity|].
  apply (best_matching_alignment_optimal Default [0] [0; 1] l1 l2);
    [apply all_policy_new..|repeat constructor; simpl; lia|repeat constructor; simpl; lia|simpl; lia].
Defined.

Lemma expand_maximal_witness :
  let l1 := lines_of Default sample_old in
  let l2 := lines_of Default sample_new in
  expand l1 l2 0 0 4 5 = Some (mkRange 2 3 2 4) ∧
  runs (expand l1 l2 0 0 4 5) (λ r,
    gap (item_eq l1 l2) 0 0 (start1 r) (start2 r) ∧
    start1 r ≤ end1 r ∧ start2 r ≤ end2 r ∧
    gap (item_eq l1 l2) (end1 r) (end2 r) 4 5 ∧ trimmed l1 l2 r).
Proof.
  intros l1 l2. split; [vm_compute; reflexivity|].
  apply (expand_maximal Default l1 l2 0 0 4 5); [apply all_policy_new..|simpl; lia|simpl; lia|simpl; lia|simpl; lia].
Defined.

Lemma unchanged_inverse_witness :
  let c := Changes.new [mkRange 1 2 1 1] 3 2 in
  let E i j := (i = 0 ∧ j = 0) ∨ (i = 2 ∧ j = 1) in
  runs (unchanged c) (λ us, matching E 0 0 us 3 2 ∧ from_unchanged us 3 2 = Some c).
Proof.
  intros c E. apply (unchanged_inverse E 3 2 c).
  - split_and!; [done..|]. unfold E. split_and!; simpl; try lia.
    + split_and!; [lia..|]. intros i Hi. lia.
    + split_and!; [lia..|]. intros i Hi. lia.
  - by split_and!.
Defined.

Lemma line_eq_is_equals_witness :
  eq_checked (Line.new [120; 32]%N TrimWhitespaces) (Line.new [9; 120]%N TrimWhitespaces) =
  Some (is_equals [120; 32]%N [9; 120]%N TrimWhitespaces).
Proof.
  apply line_eq_is_equals. intros _.
  split; apply (bool_decide_unpack _); vm_compute; exact I.
Defined.

Lemma in_ranges_decides_witness :
  ∃ b, in_ranges 0x3042 HIRAGANA_STARTS HIRAGANA_ENDS = Some b ∧
       (b = true ↔ covered 0x3042 HIRAGANA_STARTS HIRAGANA_ENDS).
Proof.
  apply (in_ranges_decides 0x3042 (HIRAGANA_STARTS, HIRAGANA_ENDS)).
  right; right; left.
Defined.
