(* ===== verification/DiffUtf8.v ===== *)
(** * paneflow-textdiff: byte offsets and lines of a text

    The word comparison addresses a [&str] by byte offsets.  A text stays the
    list of its scalar values; slicing it panics, as in Rust, when an offset is
    not on the boundary of a character.

    A text is the concatenation of its lines with their newlines: the pieces
    that both the comparison of texts and the rope of the editor count in. *)

From S2P Require Import Prelude DiffRange DiffText.

(** ** [str::len], [str::is_char_boundary] and [&text[a..b]] *)

Definition byte_len (text : str) : nat := length (bytes text).

(** The number of characters before byte [offset], if it is on a boundary. *)
Fixpoint char_index (text : str) (offset : nat) : option nat :=
  match offset, text with
  | O, _ => Some 0
  | S _, [] => None
  | S _, c :: rest => k ← checked_sub offset (length (utf8 c)); S <$> char_index rest k
  end.

Definition str_slice (text : str) (a b : nat) : option str :=
  i ← char_index text a; j ← char_index text b; slice text i j.

(** [is_equals_range] of [text.rs]. *)
Definition is_equals_range (text1 text2 : str) (range : Range) (policy : ComparisonPolicy)
  : option bool :=
  s1 ← str_slice text1 (start1 range) (end1 range);
  s2 ← str_slice text2 (start2 range) (end2 range);
  Some (is_equals s1 s2 policy).

(** The bytes of [l] from [a] up to [b]. *)
Definition cut {A} (l : list A) (a b : nat) : list A := take (b - a) (drop a l).

Definition char_boundary (text : str) (offset : nat) : Prop :=
  ∃ i, i ≤ length text ∧ offset = byte_len (take i text).

(** ** Cutting lists *)

Lemma length_cut {A} (l : list A) a b : b ≤ length l → length (cut l a b) = b - a.
Proof. intros. unfold cut. rewrite length_take, length_drop. lia. Qed.

Lemma lookup_cut {A} (l : list A) a b i : i < b - a → cut l a b !! i = l !! (a + i).
Proof. intros. unfold cut. by rewrite lookup_take_lt, lookup_drop by lia. Qed.

Lemma cut_app {A} (l : list A) a b c : a ≤ b → b ≤ c → cut l a b ++ cut l b c = cut l a c.
Proof.
  intros. unfold cut. replace (c - a) with ((b - a) + (c - b)) by lia.
  rewrite <- (take_take_drop (drop a l) (b - a) (c - b)), drop_drop.
  by replace (a + (b - a)) with b by lia.
Qed.

Lemma cut_cut {A} (l : list A) a b c d :
  d ≤ b - a → cut (cut l a b) c d = cut l (a + c) (a + d).
Proof.
  intros. unfold cut. rewrite skipn_firstn_comm, take_take, drop_drop.
  f_equal. lia.
Qed.

Lemma cut_all {A} (l : list A) n : n = length l → cut l 0 n = l.
Proof. intros ->. unfold cut. by rewrite drop_0, Nat.sub_0_r, take_ge. Qed.

Lemma cut_nil {A} (l : list A) a : cut l a a = [].
Proof. unfold cut. by rewrite Nat.sub_diag. Qed.

(** ** UTF-8 *)

Lemma utf8_ascii c : (c < 128)%N → utf8 c = [c].
Proof. intros Hc%N.ltb_lt. unfold utf8. by rewrite Hc. Qed.

Lemma utf8_wide c : (128 ≤ c)%N → Forall (λ b, (128 ≤ b)%N) (utf8 c).
Proof.
  intros Hc%N.ltb_ge. unfold utf8. rewrite Hc.
  repeat case_match; rewrite !Forall_cons, Forall_nil; split_and!;
    try done; try lia; (etransitivity; [|apply N.le_add_r]; lia).
Qed.

Lemma utf8_nonempty c : 1 ≤ length (utf8 c).
Proof. unfold utf8. repeat case_match; simpl; lia. Qed.

Lemma bytes_app t1 t2 : bytes (t1 ++ t2) = bytes t1 ++ bytes t2.
Proof. unfold bytes. by rewrite fmap_app, join_app. Qed.

Lemma byte_len_app t1 t2 : byte_len (t1 ++ t2) = byte_len t1 + byte_len t2.
Proof. unfold byte_len. by rewrite bytes_app, length_app. Qed.

Lemma byte_len_cons c t : byte_len (c :: t) = length (utf8 c) + byte_len t.
Proof. unfold byte_len, bytes. simpl. by rewrite length_app. Qed.

Lemma byte_len_take_lt text i j :
  i < j → j ≤ length text → byte_len (take i text) < byte_len (take j text).
Proof.
  intros Hij Hj. replace j with (i + (j - i)) by lia. rewrite <- take_take_drop, byte_len_app.
  assert (length (take (j - i) (drop i text)) = j - i) as Hlen
    by (rewrite length_take, length_drop; lia).
  destruct (take (j - i) (drop i text)) as [|c t]; [simpl in Hlen; lia|].
  rewrite byte_len_cons. pose proof (utf8_nonempty c). lia.
Qed.

Lemma byte_len_take_le text i : byte_len (take i text) ≤ byte_len text.
Proof. rewrite <- (take_drop i text) at 2. rewrite byte_len_app. lia. Qed.

(** ** Boundaries *)

Lemma boundary_0 text : char_boundary text 0.
Proof. exists 0. split; [lia|done]. Qed.

Lemma boundary_len text : char_boundary text (byte_len text).
Proof. exists (length text). by rewrite take_ge. Qed.

Lemma boundary_app t1 t2 : char_boundary (t1 ++ t2) (byte_len t1).
Proof. exists (length t1). rewrite take_app_length, length_app. split; [lia|done]. Qed.

Lemma boundary_le text o : char_boundary text o → o ≤ byte_len text.
Proof. intros (i&?&->). apply byte_len_take_le. Qed.
#[export] Hint Resolve boundary_0 boundary_len boundary_le : paneflow.

Lemma char_index_take text i :
  i ≤ length text → char_index text (byte_len (take i text)) = Some i.
Proof.
  revert i. induction text as [|c text IH]; intros [|i] Hi; simpl in *; try done; try lia.
  rewrite byte_len_cons. pose proof (utf8_nonempty c).
  destruct (length (utf8 c) + byte_len (take i text)) as [|n] eqn:Hn; [lia|].
  rewrite <- Hn, checked_sub_some by lia. simpl.
  replace (_ - _) with (byte_len (take i text)) by lia. rewrite IH by lia. done.
Qed.

(** A slice between two boundaries: its bytes, and the boundaries inside it. *)
Lemma str_slice_spec text a b :
  char_boundary text a → char_boundary text b → a ≤ b →
  runs (str_slice text a b) (λ s, bytes s = cut (bytes text) a b ∧ byte_len s = b - a ∧
    ∀ o, o ≤ b - a → char_boundary text (a + o) → char_boundary s o).
Proof.
  intros (i&Hi&->) (j&Hj&->) Hab. unfold str_slice.
  rewrite !char_index_take by done. cbn [mbind option_bind].
  assert (i ≤ j) as Hij.
  { destruct (decide (i ≤ j)); [done|]. pose proof (byte_len_take_lt text j i). lia. }
  rewrite slice_some by done. simpl.
  assert (bytes text = bytes (take i text) ++ bytes (take (j - i) (drop i text)) ++
            bytes (drop j text)) as Hb.
  { rewrite <- !bytes_app. f_equal. rewrite app_assoc, take_take_drop.
    replace (i + (j - i)) with j by lia. by rewrite take_drop. }
  assert (byte_len (take j text) =
    byte_len (take i text) + byte_len (take (j - i) (drop i text))) as Hlen.
  { rewrite <- byte_len_app, take_take_drop. f_equal. f_equal. lia. }
  split_and!.
  - unfold cut. rewrite Hb, (drop_app_length (bytes (take i text))), take_app_length'; [done|].
    unfold byte_len in *. lia.
  - lia.
  - intros o Ho (k&Hk&Hok). destruct (decide (i ≤ k)) as [Hik|]; [|pose proof (byte_len_take_lt text k i); lia].
    destruct (decide (k ≤ j)) as [Hkj|]; [|pose proof (byte_len_take_lt text j k); lia].
    exists (k - i). split; [rewrite length_take, length_drop; lia|].
    rewrite take_take. replace ((k - i) `min` (j - i)) with (k - i) by lia.
    assert (byte_len (take k text) = byte_len (take i text) + byte_len (take (k - i) (drop i text)));
      [|lia].
    rewrite <- byte_len_app, take_take_drop. f_equal. f_equal. lia.
Qed.

(** An ASCII byte is a character of its own. *)
Lemma ascii_boundary text o b :
  bytes text !! o = Some b → (b < 128)%N → char_boundary text o ∧ char_boundary text (S o).
Proof.
  revert o. induction text as [|c text IH]; intros o; [done|].
  change (bytes (c :: text)) with (utf8 c ++ bytes text). intros Ho Hb.
  destruct (decide (o < length (utf8 c))) as [Hlt|Hge].
  - rewrite lookup_app_l in Ho by done. destruct (decide (c < 128)%N) as [Hc|Hc].
    + rewrite utf8_ascii in Hlt by done. simpl in Hlt. assert (o = 0) as -> by lia.
      split; [apply boundary_0|]. exists 1. split; [simpl; lia|].
      simpl. rewrite firstn_O, byte_len_cons, utf8_ascii by done. done.
    + pose proof (utf8_wide c ltac:(lia)) as Hall. rewrite Forall_lookup in Hall.
      specialize (Hall _ _ Ho). simpl in Hall. lia.
  - rewrite lookup_app_r in Ho by lia.
    destruct (IH _ Ho Hb) as [(i&Hi&Ho1) (j&Hj&Ho2)].
    split; [exists (S i)|exists (S j)]; (split; [simpl; lia|]);
      cbn [take firstn]; rewrite byte_len_cons; unfold take in *; lia.
Qed.

Lemma whitespace_ascii b : is_whitespace_byte b = true → (b < 128)%N.
Proof. unfold is_whitespace_byte. rewrite !orb_true_iff, !N.eqb_eq. lia. Qed.

Lemma punctuation_ascii b : is_punctuation_byte b = true → (b < 128)%N.
Proof.
  unfold is_punctuation_byte. case_match; [done|].
  rewrite !orb_true_iff, !andb_true_iff, !N.leb_le. lia.
Qed.

Lemma is_equals_range_spec text1 text2 r policy :
  char_boundary text1 (start1 r) → char_boundary text1 (end1 r) → start1 r ≤ end1 r →
  char_boundary text2 (start2 r) → char_boundary text2 (end2 r) → start2 r ≤ end2 r →
  runs (is_equals_range text1 text2 r policy) (λ b, ∃ s1 s2,
    bytes s1 = cut (bytes text1) (start1 r) (end1 r) ∧
    bytes s2 = cut (bytes text2) (start2 r) (end2 r) ∧ b = is_equals s1 s2 policy).
Proof.
  intros. unfold is_equals_range.
  eapply runs_bind; [by apply str_slice_spec|]. intros s1 (?&_&_). cbn beta.
  eapply runs_bind; [by apply str_slice_spec|]. intros s2 (?&_&_). cbn beta.
  simpl. eauto.
Qed.

(** * Lines of a text and their byte offsets *)

(** [split_lines] of [manager.rs]. *)
Definition split_lines (text : str) : list str := split_newline text.

(** ** The pieces of a text *)

(** Every line but the last ends in a newline. *)
Fixpoint with_newlines (ls : list str) : list str :=
  match ls with
  | [] => []
  | [l] => [l]
  | l :: ls => (l ++ [10%N]) :: with_newlines ls
  end.

Definition pieces (text : str) : list str := with_newlines (split_lines text).

Lemma split_newline_cons text : ∃ l ls, split_newline text = l :: ls.
Proof.
  destruct text as [|c text]; simpl; [by eexists _, _|].
  repeat case_match; by eexists _, _.
Qed.

(** The pieces of a text with one more character. *)
Lemma pieces_cons c text :
  ∃ p ps, pieces text = p :: ps ∧
    pieces (c :: text) = (if (c =? 10)%N then [c] :: p :: ps else (c :: p) :: ps).
Proof.
  unfold pieces, split_lines. simpl. destruct (split_newline_cons text) as (l&ls&->).
  destruct (N.eqb_spec c 10) as [->|]; destruct ls; simpl; eauto.
Qed.

Lemma pieces_join text : mjoin (pieces text) = text.
Proof.
  induction text as [|c text IH]; [done|].
  destruct (pieces_cons c text) as (p&ps&Hp&->). rewrite Hp in IH. simpl in IH.
  destruct (N.eqb_spec c 10); simpl; by rewrite IH.
Qed.

Lemma pieces_length text : length (pieces text) = length (split_lines text).
Proof.
  unfold pieces. induction (split_lines text) as [|l ls IH]; [done|].
  destruct ls; [done|]. simpl in *. by rewrite IH.
Qed.

(** The offset of line [i], and of the end of the text. *)
Definition line_offset (text : str) (i : nat) : nat := byte_len (mjoin (take i (pieces text))).

Lemma line_offset_end text : line_offset text (length (split_lines text)) = byte_len text.
Proof. unfold line_offset. rewrite <- pieces_length, firstn_all. by rewrite pieces_join. Qed.

(** The lines from [i] up to [j], with their newlines. *)
Definition lines_text (text : str) (i j : nat) : str := mjoin (cut (pieces text) i j).

Lemma lines_text_app text i j k :
  i ≤ j → j ≤ k → lines_text text i k = lines_text text i j ++ lines_text text j k.
Proof. intros. unfold lines_text. by rewrite <- (cut_app _ i j k), join_app by done. Qed.

Lemma line_offset_add text i j :
  i ≤ j → line_offset text j = line_offset text i + byte_len (lines_text text i j).
Proof.
  intros. unfold line_offset. rewrite <- byte_len_app. f_equal.
  pose proof (lines_text_app text 0 i j ltac:(lia) ltac:(done)) as Happ.
  unfold lines_text, cut in *. rewrite !drop_0, !Nat.sub_0_r in Happ. exact Happ.
Qed.

Lemma line_offset_mono text i j : i ≤ j → line_offset text i ≤ line_offset text j.
Proof. intros Hij. rewrite (line_offset_add text i j Hij). lia. Qed.

Lemma line_offset_boundary text i : char_boundary text (line_offset text i).
Proof.
  unfold line_offset. rewrite <- (pieces_join text) at 1.
  rewrite <- (take_drop i (pieces text)) at 1. rewrite join_app. apply boundary_app.
Qed.

Lemma cut_lines text i j :
  i ≤ j → cut (bytes text) (line_offset text i) (line_offset text j) = bytes (lines_text text i j).
Proof.
  intros Hij. rewrite (line_offset_add text i j Hij).
  assert (text = mjoin (take i (pieces text)) ++ lines_text text i j ++ mjoin (drop j (pieces text)))
    as Htext.
  { unfold lines_text, cut. rewrite <- !join_app. rewrite <- (pieces_join text) at 1. f_equal.
    rewrite app_assoc, take_take_drop. replace (i + (j - i)) with j by lia. by rewrite take_drop. }
  unfold line_offset. rewrite Htext at 1. rewrite !bytes_app. unfold cut, byte_len.
  rewrite drop_app_length. rewrite take_app_length'; [done|]. lia.
Qed.

(** ** Newlines *)

Definition count_bytes_10 (l : list N) : nat := length (filter (λ b, b = 10%N) l).

Lemma count_bytes_10_app l1 l2 : count_bytes_10 (l1 ++ l2) = count_bytes_10 l1 + count_bytes_10 l2.
Proof. unfold count_bytes_10. by rewrite filter_app, length_app. Qed.

Lemma utf8_no_newline c : c ≠ 10%N → Forall (λ b, b ≠ 10%N) (utf8 c).
Proof.
  intros Hc. destruct (decide (c < 128)%N).
  - rewrite utf8_ascii by done. by constructor.
  - eapply Forall_impl; [apply utf8_wide; lia|]. simpl. lia.
Qed.

Lemma count_bytes_10_none l : Forall (λ b, b ≠ 10%N) l → count_bytes_10 l = 0.
Proof.
  unfold count_bytes_10. induction 1; [done|]. by rewrite filter_cons_False.
Qed.

Lemma bytes_no_newline (line : str) : 10%N ∉ line → Forall (λ b, b ≠ 10%N) (bytes line).
Proof.
  induction line as [|c line IH]; [constructor|]. intros [Hc Hl]%not_elem_of_cons.
  change (bytes (c :: line)) with (utf8 c ++ bytes line).
  apply Forall_app. split; [by apply utf8_no_newline|by apply IH].
Qed.

Lemma split_newline_lines text : Forall (λ l, 10%N ∉ l) (split_newline text).
Proof.
  induction text as [|c text IH]; simpl; [repeat constructor; by apply not_elem_of_nil|].
  destruct (split_newline_cons text) as (l&ls&Heq). rewrite Heq in *.
  apply Forall_cons in IH as [Hl Hls]. destruct (N.eqb_spec c 10).
  - repeat constructor; [by apply not_elem_of_nil|done..].
  - constructor; [|done]. rewrite not_elem_of_cons. split; [congruence|done].
Qed.

Lemma pieces_one_newline text : Forall (λ p, count_bytes_10 (bytes p) ≤ 1) (pieces text).
Proof.
  unfold pieces. pose proof (split_newline_lines text) as Hall. unfold split_lines.
  induction Hall as [|l ls Hl Hls IH]; [constructor|].
  apply bytes_no_newline, count_bytes_10_none in Hl.
  destruct ls; simpl; constructor; try done; [lia|].
  rewrite bytes_app, count_bytes_10_app, Hl. done.
Qed.

(** [n] lines hold at most [n] newlines. *)
Lemma lines_text_newlines text i j : count_bytes_10 (bytes (lines_text text i j)) ≤ j - i.
Proof.
  unfold lines_text. assert (Forall (λ p, count_bytes_10 (bytes p) ≤ 1) (cut (pieces text) i j)) as Hall.
  { unfold cut. apply Forall_take, Forall_drop, pieces_one_newline. }
  etransitivity; [|apply (firstn_le_length (j - i) (drop i (pieces text)))].
  change (firstn (j - i) (drop i (pieces text))) with (cut (pieces text) i j).
  induction Hall as [|p ps Hp Hps IH]; simpl; [done|].
  rewrite bytes_app, count_bytes_10_app. lia.
Qed.

(** Lines without a byte are the empty last line. *)
Lemma lines_text_empty text i j :
  i < j → j ≤ length (split_lines text) → byte_len (lines_text text i j) = 0 →
  j = length (split_lines text) ∧ i + 1 = j ∧ split_lines text !! i = Some [].
Proof.
  intros Hij Hj Hlen. rewrite <- (pieces_length text) in *.
  assert (∀ k p, pieces text !! k = Some p → i ≤ k → k < j → byte_len p = 0) as Hempty.
  { intros k p Hk ??. rewrite (lines_text_app text i k j), (lines_text_app text k (k + 1) j), !byte_len_app in Hlen by lia.
    assert (lines_text text k (k + 1) = p) as Hp; [|rewrite Hp in Hlen; lia].
    unfold lines_text, cut. rewrite (drop_S _ _ _ Hk). replace (k + 1 - k) with 1 by lia.
    simpl. apply app_nil_r. }
  assert (∀ ls k p, with_newlines ls !! k = Some p → byte_len p = 0 →
    k + 1 = length (with_newlines ls) ∧ ls !! k = Some []) as Hlast.
  { intros ls. induction ls as [|l ls IH]; intros k p; [done|].
    destruct ls as [|l' ls].
    - destruct k; [|done]. intros [= <-]. destruct l as [|c l]; [done|].
      rewrite byte_len_cons. pose proof (utf8_nonempty c). lia.
    - destruct k as [|k].
      + intros [= <-]. rewrite byte_len_app. cbn. lia.
      + intros Hk Hp. destruct (IH k p Hk Hp) as [Ha Hb]. split; [simpl in *; lia|done]. }
  assert (∀ k, i ≤ k → k < j → k + 1 = length (pieces text) ∧ split_lines text !! k = Some []) as Hone.
  { intros k ??. destruct (lookup_lt_is_Some_2 (pieces text) k) as [p Hp]; [lia|].
    eapply Hlast; [exact Hp|]. by eapply Hempty. }
  destruct (Hone i) as [? Hi]; [lia..|]. destruct (Hone (j - 1)) as [? _]; [lia..|].
  split_and!; [lia..|done].
Qed.
