(* ===== verification/DiffWords.v ===== *)
(** * paneflow-textdiff: word comparison ([by_word.rs], [by_char.rs])

    The comparison of two texts by words: chunking, the diff of the chunks, the
    matching of the punctuation between them, and the adjustment of the changed
    ranges to the policy.  Ranges are byte ranges.  [compare_and_split] is in
    [DiffInner], after the splitter it calls. *)

From S2P Require Import Prelude DiffRange DiffText DiffUtf8 DiffChanges DiffChunks.

(** ** Chunks *)

Inductive InlineChunk :=
| Word (start end_ : nat)
| Newline (offset : nat).

#[export] Instance InlineChunk_eq_dec : EqDecision InlineChunk.
Proof. solve_decision. Defined.

Module InlineChunk.
Definition start (self : InlineChunk) : nat :=
  match self with Word start _ => start | Newline offset => offset end.

Definition end_ (self : InlineChunk) : nat :=
  match self with Word _ end_ => end_ | Newline offset => offset + 1 end.

Definition is_newline (self : InlineChunk) : bool :=
  match self with Newline _ => true | _ => false end.
End InlineChunk.

Inductive ChunkToken := TokenWord (word : str) | TokenNewline.

#[export] Instance ChunkToken_eq_dec : EqDecision ChunkToken.
Proof. solve_decision. Defined.

(** The derived [PartialEq]. *)
#[export] Instance token_eq : PartialEq ChunkToken := λ a b, Some (bool_decide (a = b)).

#[export] Instance token_total : EqTotal ChunkToken.
Proof. by eexists. Qed.

Definition token (text : str) (chunk : InlineChunk) : option ChunkToken :=
  match chunk with
  | Word start end_ => word ← str_slice text start end_; Some (TokenWord word)
  | Newline _ => Some TokenNewline
  end.

(** A [ChunkView] is compared by its token; the tokens are computed here, where
    the code computes them at each comparison. *)
Definition views (text : str) (chunks : list InlineChunk) : option (list ChunkToken) :=
  mapM (token text) chunks.

Section inline_chunks.
Context (is_alphabetic : N → bool).

(** The word that is open when the loop leaves it at [offset]. *)
Definition close_word (word_start : option nat) (offset : nat) : list InlineChunk :=
  match word_start with Some start => [Word start offset] | None => [] end.

(** The loop over [char_indices], from byte [offset] on. *)
Fixpoint chunks_from (offset : nat) (word_start : option nat) (text : str)
  : option (list InlineChunk) :=
  match text with
  | [] => Some (close_word word_start offset)
  | c :: text =>
      let next := offset + length (utf8 c) in
      let alpha := is_alpha c in
      continuous ← (if alpha then is_continuous_script is_alphabetic c else Some false);
      if alpha && negb continuous
      then chunks_from next (Some (default offset word_start)) text
      else
        chunks ← chunks_from next None text;
        Some (close_word word_start offset ++
              (if alpha then [Word offset next]
               else if (c =? 10)%N then [Newline offset] else []) ++ chunks)
  end.

Definition inline_chunks (text : str) : option (list InlineChunk) := chunks_from 0 None text.
End inline_chunks.

Definition diff_chunks `{MyersDiff} (text1 : str) (words1 : list InlineChunk)
    (text2 : str) (words2 : list InlineChunk) : option (unit + Changes.t) :=
  tokens1 ← mapM (token text1) words1;
  tokens2 ← mapM (token text2) words2;
  lcs_bounded tokens1 tokens2.

(** ** Sliding a change to the edge of a word *)

Definition is_separated_with_whitespace (text : str) (word1 word2 : InlineChunk)
  : option bool :=
  if InlineChunk.is_newline word1 || InlineChunk.is_newline word2 then Some true
  else
    between ← slice (bytes text) (InlineChunk.end_ word1) (InlineChunk.start word2);
    Some (existsb is_whitespace_byte between).

(** The pair of words of iteration [i], and whether whitespace separates it. *)
Definition edge_separated (text : str) (words : list InlineChunk) (offset : nat)
    (left_to_right : bool) (i : nat) : option bool :=
  if left_to_right then
    word1 ← words !! (offset + i);
    word2 ← words !! (offset + i + 1);
    is_separated_with_whitespace text word1 word2
  else
    index2 ← checked_sub offset i;
    index1 ← checked_sub index2 1;
    word1 ← words !! index1;
    word2 ← words !! index2;
    is_separated_with_whitespace text word1 word2.

Definition sequence_edge_shift (text : str) (words : list InlineChunk) (offset count : nat)
    (left_to_right : bool) : option (option nat) :=
  found ← find_some (seq 0 count) (edge_separated text words offset left_to_right);
  Some (match found with Some i => Some (i + 1) | None => None end).

Definition word_boundary_shift (text1 text2 : str) (words1 words2 : list InlineChunk)
  : BoundaryShift := λ touch_left equal_forward equal_backward _ range2,
  let touch_words := select touch_left words1 words2 in
  let touch_text := select touch_left text1 text2 in
  let touch_start := select touch_left (start1 range2) (start2 range2) in
  before ← checked_sub touch_start 1;
  word1 ← touch_words !! before;
  word2 ← touch_words !! touch_start;
  separated ← is_separated_with_whitespace touch_text word1 word2;
  if (separated : bool) then Some 0%Z
  else
    left_shift ← sequence_edge_shift touch_text touch_words touch_start equal_forward true;
    match left_shift with
    | Some left_shift => Some (Z.of_nat left_shift)
    | None =>
        right_shift ← sequence_edge_shift touch_text touch_words before equal_backward false;
        Some (match right_shift with
              | Some right_shift => (- Z.of_nat right_shift)%Z
              | None => 0%Z
              end)
    end.

Definition optimize_word_chunks (text1 text2 : str) (words1 words2 : list InlineChunk)
    (changes : Changes.t) : option Changes.t :=
  data1 ← views text1 words1;
  data2 ← views text2 words2;
  @optimize_chunks _ _ (word_boundary_shift text1 text2 words1 words2) data1 data2 changes.

(** ** Punctuation ([by_char.rs]) *)

Record CodePointsOffsets := mkOffsets { code_points : list N; cp_offsets : list nat }.

(** The loop over [text.bytes().enumerate()], from index [offset] on. *)
Fixpoint punctuation_from (offset : nat) (bytes : list N) : CodePointsOffsets :=
  match bytes with
  | [] => mkOffsets [] []
  | byte :: bytes =>
      let rest := punctuation_from (S offset) bytes in
      if is_punctuation_byte byte
      then mkOffsets (byte :: code_points rest) (offset :: cp_offsets rest) else rest
  end.

Definition punctuation_chars (text : str) : CodePointsOffsets := punctuation_from 0 (bytes text).

(** The derived [PartialEq] of [char]. *)
Definition char_eq : PartialEq N := λ a b, Some (N.eqb a b).

#[export] Instance char_total : @EqTotal N char_eq.
Proof. by eexists. Qed.

Section words.
Context `{MyersDiff}.

Definition compare_punctuation (text1 text2 : str) : option Changes.t :=
  let chars1 := punctuation_chars text1 in
  let chars2 := punctuation_chars text2 in
  changes ← @lcs _ _ char_eq (code_points chars1) (code_points chars2);
  us ← unchanged changes;
  builder ← for_each_pair us (λ i1 i2 builder,
    offset1 ← cp_offsets chars1 !! i1;
    offset2 ← cp_offsets chars2 !! i2;
    ChangeBuilder.mark_equal_one builder offset1 offset2)
    (ChangeBuilder.new (byte_len text1) (byte_len text2));
  ChangeBuilder.finish builder.

(** The ranges of [ch] that fall on either side of [offset] in the second text. *)
Definition split_at_offset (offset : nat) (ch : Range) (acc : list Range * list Range)
  : option (list Range * list Range) :=
  let '(ranges1, ranges2) := acc in
  if end2 ch <=? offset then Some (ranges1 ++ [ch], ranges2)
  else if offset <=? start2 ch then
    s ← checked_sub (start2 ch) offset; e ← checked_sub (end2 ch) offset;
    r ← Range.new (start1 ch) (end1 ch) s e;
    Some (ranges1, ranges2 ++ [r])
  else
    len2 ← checked_sub offset (start2 ch);
    r1 ← Range.new (start1 ch) (start1 ch + len2) (start2 ch) offset;
    e ← checked_sub (end2 ch) offset;
    r2 ← Range.new (start1 ch + len2) (end1 ch) 0 e;
    Some (ranges1 ++ [r1], ranges2 ++ [r2]).

Definition compare_punctuation_two_side (text1 text21 text22 : str)
  : option (list Range * list Range) :=
  changes ← compare_punctuation text1 (text21 ++ text22);
  us ← unchanged changes;
  for_each us (split_at_offset (byte_len text21)) ([], []).

(** The loop that marks the ranges [us], moved by [(o1, o2)], as equal. *)
Definition mark_ranges (o1 o2 : nat) (us : list Range) (builder : ChangeBuilder.t)
  : option ChangeBuilder.t :=
  for_each us (λ ch builder,
    ChangeBuilder.mark_equal builder (o1 + start1 ch) (o2 + start2 ch)
      (o1 + end1 ch) (o2 + end2 ch)) builder.

(** The same for ranges with the sides exchanged. *)
Definition mark_ranges_swapped (o1 o2 : nat) (us : list Range) (builder : ChangeBuilder.t)
  : option ChangeBuilder.t :=
  for_each us (λ ch builder,
    ChangeBuilder.mark_equal builder (o1 + start2 ch) (o2 + start1 ch)
      (o1 + end2 ch) (o2 + end1 ch)) builder.

(** ** The punctuation matcher *)

Record PunctuationMatcher := mkMatcher { builder : ChangeBuilder.t; pm_last : option Range }.

Section matcher.
Context (text1 text2 : str) (words1 words2 : list InlineChunk) (start_shift1 start_shift2 : nat).

Definition start_offset1 (index : nat) : option nat :=
  w ← words1 !! index; checked_sub (InlineChunk.start w) start_shift1.

Definition start_offset2 (index : nat) : option nat :=
  w ← words2 !! index; checked_sub (InlineChunk.start w) start_shift2.

Definition end_offset1 (index : nat) : option nat :=
  w ← words1 !! index; checked_sub (InlineChunk.end_ w) start_shift1.

Definition end_offset2 (index : nat) : option nat :=
  w ← words2 !! index; checked_sub (InlineChunk.end_ w) start_shift2.

Definition match_range (b : ChangeBuilder.t) (range : Range) : option ChangeBuilder.t :=
  if Range.is_empty range then Some b
  else
    sequence1 ← str_slice text1 (start1 range) (end1 range);
    sequence2 ← str_slice text2 (start2 range) (end2 range);
    changes ← compare_punctuation sequence1 sequence2;
    us ← unchanged changes;
    mark_ranges (start1 range) (start2 range) us b.

Definition match_complex_range_left (b : ChangeBuilder.t) (start1 end1 start12 end12
    start22 end22 : nat) : option ChangeBuilder.t :=
  sequence1 ← str_slice text1 start1 end1;
  sequence21 ← str_slice text2 start12 end12;
  sequence22 ← str_slice text2 start22 end22;
  '(first, second) ← compare_punctuation_two_side sequence1 sequence21 sequence22;
  b ← mark_ranges start1 start12 first b;
  mark_ranges start1 start22 second b.

Definition match_complex_range_right (b : ChangeBuilder.t) (start2 end2 start11 end11
    start21 end21 : nat) : option ChangeBuilder.t :=
  sequence11 ← str_slice text1 start11 end11;
  sequence12 ← str_slice text1 start21 end21;
  sequence2 ← str_slice text2 start2 end2;
  '(first, second) ← compare_punctuation_two_side sequence2 sequence11 sequence12;
  b ← mark_ranges_swapped start11 start2 first b;
  mark_ranges_swapped start21 start2 second b.

Definition match_complex_range (b : ChangeBuilder.t) (first second : Range)
  : option ChangeBuilder.t :=
  if (start1 first =? start1 second) && (end1 first =? end1 second) then
    match_complex_range_left b (start1 first) (end1 first) (start2 first) (end2 first)
      (start2 second) (end2 second)
  else if (start2 first =? start2 second) && (end2 first =? end2 second) then
    match_complex_range_right b (start2 first) (end2 first) (start1 first) (end1 first)
      (start1 second) (end1 second)
  else None.

Definition match_backward (self : PunctuationMatcher) (range : Range) : option ChangeBuilder.t :=
  match pm_last self with
  | None => None
  | Some last =>
      if (start1 last =? start1 range) && (start2 last =? start2 range)
      then match_range (builder self) range
      else if (start1 last <? start1 range) && (start2 last <? start2 range)
      then b ← match_range (builder self) last; match_range b range
      else match_complex_range (builder self) last range
  end.

Definition match_backward_at (self : PunctuationMatcher) (index1 index2 : nat)
  : option PunctuationMatcher :=
  s1 ← match index1 with O => Some 0 | S index => end_offset1 index end;
  s2 ← match index2 with O => Some 0 | S index => end_offset2 index end;
  e1 ← (if index1 =? length words1 then Some (byte_len text1) else start_offset1 index1);
  e2 ← (if index2 =? length words2 then Some (byte_len text2) else start_offset2 index2);
  range ← Range.new s1 e1 s2 e2;
  b ← match_backward self range;
  Some (mkMatcher b None).

Definition match_forward_at (self : PunctuationMatcher) (index1 index2 : option nat)
  : option PunctuationMatcher :=
  s1 ← match index1 with None => Some 0 | Some index => end_offset1 index end;
  s2 ← match index2 with None => Some 0 | Some index => end_offset2 index end;
  let next1 := match index1 with None => 0 | Some index => index + 1 end in
  let next2 := match index2 with None => 0 | Some index => index + 1 end in
  e1 ← (if next1 =? length words1 then Some (byte_len text1) else start_offset1 next1);
  e2 ← (if next2 =? length words2 then Some (byte_len text2) else start_offset2 next2);
  _ ← assert (bool_decide (pm_last self = None));
  range ← Range.new s1 e1 s2 e2;
  Some (mkMatcher (builder self) (Some range)).

(** One matched pair of words in [build]. *)
Definition match_pair (index1 index2 : nat) (self : PunctuationMatcher)
  : option PunctuationMatcher :=
  s1 ← start_offset1 index1; s2 ← start_offset2 index2;
  e1 ← end_offset1 index1; e2 ← end_offset2 index2;
  self ← match_backward_at self index1 index2;
  b ← ChangeBuilder.mark_equal (builder self) s1 s2 e1 e2;
  match_forward_at (mkMatcher b (pm_last self)) (Some index1) (Some index2).

Definition build (self : PunctuationMatcher) (changes : Changes.t) : option Changes.t :=
  self ← match_forward_at self None None;
  us ← unchanged changes;
  self ← for_each_pair us match_pair self;
  self ← match_backward_at self (length words1) (length words2);
  ChangeBuilder.finish (builder self).

Definition match_adjustment_delimiters (changes : Changes.t) : option Changes.t :=
  build (mkMatcher (ChangeBuilder.new (byte_len text1) (byte_len text2)) None) changes.
End matcher.
End words.

(** ** Whitespace *)

Section corrections.
Context (text1 text2 : str).

Definition default_range (range : Range) : option Range :=
  end_cut ← expand_whitespaces_backward (bytes text1) (bytes text2)
              (start1 range) (start2 range) (end1 range) (end2 range);
  e1 ← checked_sub (end1 range) end_cut;
  e2 ← checked_sub (end2 range) end_cut;
  start_cut ← expand_whitespaces_forward (bytes text1) (bytes text2)
                (start1 range) (start2 range) e1 e2;
  Range.new (start1 range + start_cut) e1 (start2 range + start_cut) e2.

Definition default_correction (iterable : Changes.t) : option Changes.t :=
  expanded ← mapM default_range (Changes.changed iterable);
  Some (Changes.new (filter (λ range, Range.is_empty range = false) expanded)
          (byte_len text1) (byte_len text2)).

(** A range is kept unless it is empty or its texts are equal under [policy]. *)
Definition keep_unequal (policy : ComparisonPolicy) (range : Range) : option (option Range) :=
  if Range.is_empty range then Some None
  else
    equal ← is_equals_range text1 text2 range policy;
    Some (if (equal : bool) then None else Some range).

Definition ignore_spaces_range (range : Range) : option (option Range) :=
  expanded ← expand_whitespaces (bytes text1) (bytes text2) range;
  trimmed ← trim_range (bytes text1) (bytes text2) expanded;
  keep_unequal IgnoreWhitespaces trimmed.

Definition ignore_spaces_correction (iterable : Changes.t) : option Changes.t :=
  changes ← mapM ignore_spaces_range (Changes.changed iterable);
  Some (Changes.new (omap id changes) (byte_len text1) (byte_len text2)).
End corrections.

(** The loop of [is_leading_space], from [index] down. *)
Fixpoint only_spaces_before (bytes : list N) (index : nat) : option bool :=
  match index with
  | O => Some true
  | S index =>
      byte ← bytes !! index;
      if (byte =? 10)%N then Some true
      else if negb (is_whitespace_byte byte) then Some false
      else only_spaces_before bytes index
  end.

Definition is_leading_space (text : str) (start : nat) : option bool :=
  match bytes text !! start with
  | None => Some false
  | Some byte =>
      if negb (is_whitespace_byte byte) then Some false
      else only_spaces_before (bytes text) start
  end.

(** The loop of [is_trailing_space], over the bytes from [index] on. *)
Fixpoint only_spaces_after (bytes : list N) : bool :=
  match bytes with
  | [] => true
  | byte :: bytes =>
      if (byte =? 10)%N then true
      else if negb (is_whitespace_byte byte) then false
      else only_spaces_after bytes
  end.

Definition is_trailing_space (text : str) (end_ : nat) : bool :=
  match bytes text !! end_ with
  | None => false
  | Some byte =>
      if negb (is_whitespace_byte byte) then false else only_spaces_after (drop end_ (bytes text))
  end.

Definition is_leading_trailing_space (text : str) (offset : option nat) : option bool :=
  match offset with
  | None => Some false
  | Some offset =>
      leading ← is_leading_space text offset;
      Some (leading || is_trailing_space text offset)
  end.

(** One side of a range, trimmed where it borders on the edge of a line. *)
Definition trim_side (text : str) (start end_ : nat) : option (nat * nat) :=
  lead ← is_leading_trailing_space text (Some start);
  start ← (if (lead : bool) then trim_start (bytes text) start end_ else Some start);
  trail ← is_leading_trailing_space text
            (match end_ with O => None | S before => Some before end);
  end_ ← (if (trail : bool) then trim_end (bytes text) start end_ else Some end_);
  Some (start, end_).

Section trim.
Context (text1 text2 : str).

Definition trim_spaces_range (range : Range) : option (option Range) :=
  '(s1, e1) ← trim_side text1 (start1 range) (end1 range);
  '(s2, e2) ← trim_side text2 (start2 range) (end2 range);
  trimmed ← Range.new s1 e1 s2 e2;
  keep_unequal text1 text2 Default trimmed.

Definition trim_spaces_correction (iterable : Changes.t) : option Changes.t :=
  changes ← mapM trim_spaces_range (Changes.changed iterable);
  Some (Changes.new (omap id changes) (byte_len text1) (byte_len text2)).

Definition match_adjustment_whitespaces (iterable : Changes.t) (policy : ComparisonPolicy)
  : option Changes.t :=
  match policy with
  | Default => default_correction text1 text2 iterable
  | TrimWhitespaces =>
      d ← default_correction text1 text2 iterable;
      trim_spaces_correction d
  | IgnoreWhitespaces => ignore_spaces_correction text1 text2 iterable
  end.
End trim.
