(* ===== verification/DiffSplitter.v ===== *)
(** * paneflow-textdiff: splitting a word comparison into blocks of lines
    ([splitter.rs])

    The matched words of a comparison tie lines of the two texts together; the
    splitter cuts both texts into blocks of whole lines at such ties. *)

From S2P Require Import Prelude DiffRange DiffText DiffUtf8 DiffChanges DiffWords.

Record WordBlock := mkWordBlock { block_words : Range; block_offsets : Range }.

Record PendingChunk := mkPending {
  block : WordBlock;
  has_equal_words : bool;
  has_words_inside : bool;
  is_equal_ignore_whitespaces : bool }.

Record Splitter := mkSplitter {
  result : list WordBlock;
  last1 : option nat;
  last2 : option nat;
  pending : option PendingChunk }.

Definition after (last end_ : option nat) : bool :=
  match last, end_ with
  | Some last, Some end_ => end_ <? last
  | Some _, None => true
  | None, _ => false
  end.

Definition offset_at (words : list InlineChunk) (text : str) (index : option nat) : option nat :=
  match index with
  | None => Some 0
  | Some index =>
      if index =? length words then Some (byte_len text)
      else
        w ← words !! index;
        _ ← assert (InlineChunk.is_newline w);
        Some (InlineChunk.end_ w)
  end.

Definition is_first_in_line (words : list InlineChunk) (index : nat) : option bool :=
  match index with
  | O => Some true
  | S before => w ← words !! before; Some (InlineChunk.is_newline w)
  end.

Definition should_merge_chunks (chunk1 chunk2 : PendingChunk) : bool :=
  if negb (has_equal_words chunk1) && negb (has_equal_words chunk2) then true
  else if is_equal_ignore_whitespaces chunk1 && is_equal_ignore_whitespaces chunk2 then true
  else negb (has_words_inside chunk1) || negb (has_words_inside chunk2).

Definition merge_chunks (chunk1 chunk2 : PendingChunk) : option PendingChunk :=
  let block1 := block chunk1 in
  let block2 := block chunk2 in
  words ← Range.new (start1 (block_words block1)) (end1 (block_words block2))
            (start2 (block_words block1)) (end2 (block_words block2));
  offsets ← Range.new (start1 (block_offsets block1)) (end1 (block_offsets block2))
              (start2 (block_offsets block1)) (end2 (block_offsets block2));
  Some (mkPending (mkWordBlock words offsets)
          (has_equal_words chunk1 || has_equal_words chunk2)
          (has_words_inside chunk1 || has_words_inside chunk2)
          (is_equal_ignore_whitespaces chunk1 && is_equal_ignore_whitespaces chunk2)).

(** [index.checked_sub(1)] *)
Definition before (index : nat) : option nat :=
  match index with O => None | S before => Some before end.

Section splitter.
Context (text1 text2 : str) (words1 words2 : list InlineChunk).

(** The method [has_words_inside]. *)
Definition words_inside (words : Range) : option bool :=
  ws1 ← slice words1 (start1 words) (end1 words);
  ws2 ← slice words2 (start2 words) (end2 words);
  Some (existsb (λ chunk, negb (InlineChunk.is_newline chunk)) (ws1 ++ ws2)).

(** [start.map_or(0, |index| index + 1)] *)
Definition word_start (index : option nat) : nat :=
  match index with None => 0 | Some index => index + 1 end.

(** [end.map_or(0, |index| (index + 1).min(len))] *)
Definition word_end (index : option nat) (len : nat) : nat :=
  match index with None => 0 | Some index => Nat.min (index + 1) len end.

Definition create_chunk (start1 start2 end1 end2 : option nat) (equal_words : bool)
  : option PendingChunk :=
  start_offset1 ← offset_at words1 text1 start1;
  start_offset2 ← offset_at words2 text2 start2;
  end_offset1 ← offset_at words1 text1 end1;
  end_offset2 ← offset_at words2 text2 end2;
  words ← Range.new (word_start start1) (word_end end1 (length words1))
            (word_start start2) (word_end end2 (length words2));
  offsets ← Range.new start_offset1 end_offset1 start_offset2 end_offset2;
  inside ← words_inside words;
  equal ← is_equals_range text1 text2 offsets IgnoreWhitespaces;
  Some (mkPending (mkWordBlock words offsets) equal_words inside equal).

Definition add_line_chunk (self : Splitter) (end1 end2 : option nat) (equal_words : bool)
  : option Splitter :=
  if after (last1 self) end1 || after (last2 self) end2 then Some self
  else
    chunk ← create_chunk (last1 self) (last2 self) end1 end2 equal_words;
    if Range.is_empty (block_offsets (block chunk)) then Some self
    else
      '(result, chunk) ← match pending self with
        | Some previous =>
            if should_merge_chunks previous chunk
            then merged ← merge_chunks previous chunk; Some (result self, merged)
            else Some (result self ++ [block previous], chunk)
        | None => Some (result self, chunk)
        end;
      Some (mkSplitter result end1 end2 (Some chunk)).

(** One matched pair of words in [split_line_blocks]; the state is the splitter
    and [has_equal_words]. *)
Definition split_pair (index1 index2 : nat) (st : Splitter * bool) : option (Splitter * bool) :=
  let '(splitter, equal_words) := st in
  w1 ← words1 !! index1;
  w2 ← words2 !! index2;
  if InlineChunk.is_newline w1 && InlineChunk.is_newline w2 then
    splitter ← add_line_chunk splitter (Some index1) (Some index2) equal_words;
    Some (splitter, false)
  else
    first1 ← is_first_in_line words1 index1;
    first ← and_then first1 (is_first_in_line words2 index2);
    splitter ← (if (first : bool)
                then add_line_chunk splitter (before index1) (before index2) equal_words
                else Some splitter);
    Some (splitter, true).

Definition split_line_blocks (iterable : Changes.t) : option (list WordBlock) :=
  us ← unchanged iterable;
  '(splitter, equal_words) ← for_each_pair us split_pair (mkSplitter [] None None None, false);
  splitter ← add_line_chunk splitter (Some (length words1)) (Some (length words2)) equal_words;
  Some (match pending splitter with
        | Some pending => result splitter ++ [block pending]
        | None => result splitter
        end).
End splitter.
