(* ===== verification/DiffInner.v ===== *)
(** * paneflow-textdiff: line comparison with inner fragments ([manager.rs],
    [by_word.rs], [lib.rs])

    [compare_lines_inner] compares two texts by lines and, inside each changed
    range of lines, by words. *)

From S2P Require Import Prelude DiffRange DiffText DiffUtf8 DiffChanges DiffChunks DiffLines DiffWords DiffSplitter.

Inductive HighlightPolicy := HighlightLines | HighlightWords | HighlightNone.

Record DiffFragment := mkFragment { f_start1 : nat; f_end1 : nat; f_start2 : nat; f_end2 : nat }.

#[export] Instance DiffFragment_eq_dec : EqDecision DiffFragment.
Proof. solve_decision. Defined.

Record LineFragment := mkLineFragment {
  lines : Range;
  offsets : Range;
  inner : option (list DiffFragment) }.

(** ** [compare_and_split] ([by_word.rs]) *)

Record LineBlock := mkLineBlock {
  fragments : list DiffFragment;
  lb_offsets : Range;
  newlines1 : nat;
  newlines2 : nat }.

Definition convert_into_fragments (changes : Changes.t) : list DiffFragment :=
  (λ range, mkFragment (start1 range) (end1 range) (start2 range) (end2 range)) <$>
    Changes.changed changes.

(** The loop of [sub_iterable] over [&changed[first_index..]]. *)
Fixpoint clip_ranges (ranges : list Range) (words : Range) : option (list Range) :=
  match ranges with
  | [] => Some []
  | range :: ranges =>
      if (end1 range <? start1 words) || (end2 range <? start2 words)
      then clip_ranges ranges words
      else if (end1 words <? start1 range) || (end2 words <? start2 range) then Some []
      else
        s1 ← checked_sub (Nat.max (start1 range) (start1 words)) (start1 words);
        e1 ← checked_sub (Nat.min (end1 range) (end1 words)) (start1 words);
        s2 ← checked_sub (Nat.max (start2 range) (start2 words)) (start2 words);
        e2 ← checked_sub (Nat.min (end2 range) (end2 words)) (start2 words);
        clipped ← Range.new s1 e1 s2 e2;
        rest ← clip_ranges ranges words;
        Some (if Range.is_empty clipped then rest else clipped :: rest)
  end.

Definition sub_iterable (changed : list Range) (words : Range) (first_index : nat)
  : option Changes.t :=
  tail ← slice changed first_index (length changed);
  ranges ← clip_ranges tail words;
  len1 ← checked_sub (end1 words) (start1 words);
  len2 ← checked_sub (end2 words) (start2 words);
  Some (Changes.new ranges len1 len2).

(** The [while] loop that skips the ranges before [words], over the ranges from
    [index] on. *)
Fixpoint skip_ranges (ranges : list Range) (words : Range) (index : nat) : nat :=
  match ranges with
  | [] => index
  | range :: ranges =>
      if (end1 range <? start1 words) || (end2 range <? start2 words)
      then skip_ranges ranges words (index + 1) else index
  end.

Fixpoint sub_iterables_from (changed : list Range) (blocks : list WordBlock) (index : nat)
  : option (list Changes.t) :=
  match blocks with
  | [] => Some []
  | block :: blocks =>
      let words := block_words block in
      let index := skip_ranges (drop index changed) words index in
      sub ← sub_iterable changed words index;
      subs ← sub_iterables_from changed blocks index;
      Some (sub :: subs)
  end.

Definition collect_word_block_sub_iterables (changes : Changes.t) (word_blocks : list WordBlock)
  : option (list Changes.t) :=
  sub_iterables_from (Changes.changed changes) word_blocks 0.

Definition count_newlines (chunks : list InlineChunk) : nat :=
  length (filter (λ chunk, InlineChunk.is_newline chunk = true) chunks).

Section inner.
Context `{MyersDiff} (is_alphabetic : N → bool).

(** One block of [compare_and_split]. *)
Definition line_block (text1 text2 : str) (policy : ComparisonPolicy)
    (words1 words2 : list InlineChunk) (block : WordBlock) (sub : Changes.t)
  : option LineBlock :=
  let os := block_offsets block in
  let words := block_words block in
  subtext1 ← str_slice text1 (start1 os) (end1 os);
  subtext2 ← str_slice text2 (start2 os) (end2 os);
  subwords1 ← slice words1 (start1 words) (end1 words);
  subwords2 ← slice words2 (start2 words) (end2 words);
  delimiters ← match_adjustment_delimiters subtext1 subtext2 subwords1 subwords2
                 (start1 os) (start2 os) sub;
  iterable ← match_adjustment_whitespaces subtext1 subtext2 delimiters policy;
  Some (mkLineBlock (convert_into_fragments iterable) os
          (count_newlines subwords1) (count_newlines subwords2)).

(** [Err(DiffTooBig)] is [inl]. *)
Definition compare_and_split (text1 text2 : str) (policy : ComparisonPolicy)
  : option (unit + list LineBlock) :=
  words1 ← inline_chunks is_alphabetic text1;
  words2 ← inline_chunks is_alphabetic text2;
  diff ← diff_chunks text1 words1 text2 words2;
  match diff with
  | inl too_big => Some (inl too_big)
  | inr changes =>
      changes ← optimize_word_chunks text1 text2 words1 words2 changes;
      word_blocks ← split_line_blocks text1 text2 words1 words2 changes;
      sub_iterables ← collect_word_block_sub_iterables changes word_blocks;
      blocks ← mapM (λ '(block, sub), line_block text1 text2 policy words1 words2 block sub)
                 (zip word_blocks sub_iterables);
      Some (inr blocks)
  end.

(** ** Lines and their offsets ([manager.rs]) *)

Definition MAX_BAD_LINES : nat := 3.

Record LineOffsets := mkLineOffsets { starts : list nat; text_len : nat }.

(** The loop over [text.bytes().enumerate()], from [index] on. *)
Fixpoint starts_from (index : nat) (bytes : list N) : list nat :=
  match bytes with
  | [] => []
  | byte :: bytes =>
      let rest := starts_from (S index) bytes in
      if (byte =? 10)%N then index + 1 :: rest else rest
  end.

Definition line_offsets (text : str) : LineOffsets :=
  mkLineOffsets (0 :: starts_from 0 (bytes text)) (byte_len text).

Definition line_count (self : LineOffsets) : nat := length (starts self).

Definition line_start (self : LineOffsets) (line : nat) : option nat := starts self !! line.

Definition line_end_with_newline (self : LineOffsets) (line : nat) : option nat :=
  if line + 1 <? length (starts self) then starts self !! (line + 1) else Some (text_len self).

(** The method [offsets]. *)
Definition offsets_of (self : LineOffsets) (start end_ : nat) : option (nat * nat) :=
  if start =? end_ then
    offset ← (if start <? line_count self then line_start self start else Some (text_len self));
    Some (offset, offset)
  else
    s ← line_start self start;
    last ← checked_sub end_ 1;
    e ← line_end_with_newline self last;
    Some (s, e).

Definition line_fragment (lines : Range) (offsets1 offsets2 : LineOffsets)
  : option LineFragment :=
  '(s1, e1) ← offsets_of offsets1 (start1 lines) (end1 lines);
  '(s2, e2) ← offsets_of offsets2 (start2 lines) (end2 lines);
  os ← Range.new s1 e1 s2 e2;
  Some (mkLineFragment lines os None).

Record UnsquashedReport := mkUnsquashed {
  u_fragments : list LineFragment;
  u_too_big_blocks : nat }.

(** A single fragment that spans the whole range says nothing. *)
Definition with_inner (lines offsets : Range) (inner : option (list DiffFragment))
  : option LineFragment :=
  length1 ← checked_sub (end1 offsets) (start1 offsets);
  length2 ← checked_sub (end2 offsets) (start2 offsets);
  Some (mkLineFragment lines offsets
    (match inner with
     | Some [fragment] =>
         if (f_start1 fragment =? 0) && (f_start2 fragment =? 0)
            && (f_end1 fragment =? length1) && (f_end2 fragment =? length2)
         then None else inner
     | other => other
     end)).

(** The loop of [create_inner] over the blocks, the last of which ends where the
    fragment does. *)
Fixpoint inner_chunks (fragment : LineFragment) (current_start1 current_start2 : nat)
    (blocks : list LineBlock) : option (list LineFragment) :=
  match blocks with
  | [] => Some []
  | block :: blocks =>
      let '(current_end1, current_end2) :=
        match blocks with
        | [] => (end1 (lines fragment), end2 (lines fragment))
        | _ => (current_start1 + newlines1 block, current_start2 + newlines2 block)
        end in
      let base1 := start1 (offsets fragment) in
      let base2 := start2 (offsets fragment) in
      block_offsets ← Range.new (start1 (lb_offsets block) + base1) (end1 (lb_offsets block) + base1)
                        (start2 (lb_offsets block) + base2) (end2 (lb_offsets block) + base2);
      block_lines ← Range.new current_start1 current_end1 current_start2 current_end2;
      chunk ← with_inner block_lines block_offsets (Some (fragments block));
      chunks ← inner_chunks fragment current_end1 current_end2 blocks;
      Some (chunk :: chunks)
  end.

Definition create_inner (fragment : LineFragment) (text1 text2 : str)
    (policy : ComparisonPolicy) (try_compute : bool) : option (unit + list LineFragment) :=
  let os := offsets fragment in
  sub1 ← str_slice text1 (start1 os) (end1 os);
  sub2 ← str_slice text2 (start2 os) (end2 os);
  let ls := lines fragment in
  if (start1 ls =? end1 ls) || (start2 ls =? end2 ls) then
    Some (inr [mkLineFragment ls os (if is_equals sub1 sub2 policy then Some [] else None)])
  else if negb try_compute then Some (inr [fragment])
  else
    r ← compare_and_split sub1 sub2 policy;
    match r with
    | inl too_big => Some (inl too_big)
    | inr blocks =>
        _ ← assert (negb (bool_decide (length blocks = 0)));
        chunks ← inner_chunks fragment (start1 ls) (start2 ls) blocks;
        Some (inr chunks)
    end.

(** One fragment of [create_inner_fragments]; the state is [result] and
    [too_big_blocks]. *)
Definition add_inner (text1 text2 : str) (policy : ComparisonPolicy) (fragment : LineFragment)
    (st : list LineFragment * nat) : option (list LineFragment * nat) :=
  let '(result, too_big_blocks) := st in
  r ← create_inner fragment text1 text2 policy (too_big_blocks <? MAX_BAD_LINES);
  Some (match r with
        | inr inner => (result ++ inner, too_big_blocks)
        | inl _ => (result ++ [fragment], too_big_blocks + 1)
        end).

Definition create_inner_fragments (fragments : list LineFragment) (text1 text2 : str)
    (policy : ComparisonPolicy) : option UnsquashedReport :=
  '(result, too_big_blocks) ← for_each fragments (add_inner text1 text2 policy) ([], 0);
  Some (mkUnsquashed result too_big_blocks).

Definition compare_lines_inner_unsquashed (text1 text2 : str) (policy : ComparisonPolicy)
    (highlight : HighlightPolicy) : option UnsquashedReport :=
  if bool_decide (text1 = text2) then Some (mkUnsquashed [] 0)
  else
    let offsets1 := line_offsets text1 in
    let offsets2 := line_offsets text2 in
    changes ← compare (split_lines text1) (split_lines text2) policy;
    fragments ← mapM (λ range, line_fragment range offsets1 offsets2) (Changes.changed changes);
    match highlight with
    | HighlightWords => create_inner_fragments fragments text1 text2 policy
    | HighlightLines | HighlightNone => Some (mkUnsquashed fragments 0)
    end.

(** ** Squashing *)

Definition is_adjoining (before after : LineFragment) : bool :=
  (end1 (lines before) =? start1 (lines after)) && (end2 (lines before) =? start2 (lines after))
  && (end1 (offsets before) =? start1 (offsets after))
  && (end2 (offsets before) =? start2 (offsets after)).

Definition extract_inner_fragments (fragment : LineFragment) : option (list DiffFragment) :=
  match inner fragment with
  | Some inner => Some inner
  | None =>
      len1 ← checked_sub (end1 (offsets fragment)) (start1 (offsets fragment));
      len2 ← checked_sub (end2 (offsets fragment)) (start2 (offsets fragment));
      Some [mkFragment 0 len1 0 len2]
  end.

(** Appends a piece, merging it into the last one when they touch. *)
Definition push_piece (shifted : DiffFragment) (inner : list DiffFragment) : list DiffFragment :=
  match last inner with
  | Some previous =>
      if (f_end1 previous =? f_start1 shifted) && (f_end2 previous =? f_start2 shifted)
      then removelast inner ++
             [mkFragment (f_start1 previous) (f_end1 shifted) (f_start2 previous) (f_end2 shifted)]
      else inner ++ [shifted]
  | None => inner ++ [shifted]
  end.

Definition shift_piece (shift1 shift2 : nat) (piece : DiffFragment) : DiffFragment :=
  mkFragment (f_start1 piece + shift1) (f_end1 piece + shift1)
    (f_start2 piece + shift2) (f_end2 piece + shift2).

Definition squash_one (first : LineFragment) (fragment : LineFragment)
    (inner : list DiffFragment) : option (list DiffFragment) :=
  shift1 ← checked_sub (start1 (offsets fragment)) (start1 (offsets first));
  shift2 ← checked_sub (start2 (offsets fragment)) (start2 (offsets first));
  pieces ← extract_inner_fragments fragment;
  Some (foldl (λ inner piece, push_piece (shift_piece shift1 shift2 piece) inner) inner pieces).

Definition squash_group (fragments : list LineFragment) : option LineFragment :=
  match fragments with
  | [fragment] => Some fragment
  | _ =>
      first ← head fragments;
      last ← last fragments;
      inner ← for_each fragments (squash_one first) [];
      ls ← Range.new (start1 (lines first)) (end1 (lines last))
             (start2 (lines first)) (end2 (lines last));
      os ← Range.new (start1 (offsets first)) (end1 (offsets last))
             (start2 (offsets first)) (end2 (offsets last));
      with_inner ls os (Some inner)
  end.

(** The loop of [squash]; the state is [result] and [group]. *)
Definition squash_step (fragment : LineFragment)
    (st : list LineFragment * list LineFragment)
  : option (list LineFragment * list LineFragment) :=
  let '(result, group) := st in
  match last group with
  | Some previous =>
      if negb (is_adjoining previous fragment)
      then squashed ← squash_group group; Some (result ++ [squashed], [fragment])
      else Some (result, group ++ [fragment])
  | None => Some (result, group ++ [fragment])
  end.

Definition squash (fragments : list LineFragment) : option (list LineFragment) :=
  match fragments with
  | [] => Some []
  | _ =>
      '(result, group) ← for_each fragments squash_step ([], []);
      if bool_decide (length group = 0) then Some result
      else squashed ← squash_group group; Some (result ++ [squashed])
  end.

(** ** The entry points ([lib.rs]) *)

Record LineDiffReport := mkReport { r_fragments : list LineFragment; too_big_blocks : nat }.

Definition compare_lines_inner_report (text1 text2 : str) (policy : ComparisonPolicy)
    (highlight : HighlightPolicy) : option LineDiffReport :=
  report ← compare_lines_inner_unsquashed text1 text2 policy highlight;
  fragments ← squash (u_fragments report);
  Some (mkReport fragments (u_too_big_blocks report)).

Definition compare_lines_inner (text1 text2 : str) (policy : ComparisonPolicy)
    (highlight : HighlightPolicy) : option (list LineFragment) :=
  r_fragments <$> compare_lines_inner_report text1 text2 policy highlight.
End inner.
