(* ===== verification/DiffWordsCorrect.v ===== *)
(** * paneflow-textdiff: correctness of the punctuation matching

    Byte scripts whose ranges lie on character boundaries, and the matching of
    punctuation between two words.  Punctuation is ASCII, so a run of equal
    punctuation bytes begins and ends on a boundary of both texts.

    The chunks of a text are ordered and lie on character boundaries; matched
    chunks have the same bytes; the punctuation matcher returns a byte script. *)

From S2P Require Import Prelude DiffRange DiffText DiffChanges DiffChunks DiffUtf8 DiffWords.

(** Byte [i] of the first sequence is byte [j] of the second. *)
Definition same_byte (b1 b2 : list N) (i j : nat) : Prop :=
  ∃ b, b1 !! i = Some b ∧ b2 !! j = Some b.

(** ... and is a punctuation byte. *)
Definition same_punctuation (b1 b2 : list N) (i j : nat) : Prop :=
  ∃ b, b1 !! i = Some b ∧ b2 !! j = Some b ∧ is_punctuation_byte b = true.

Lemma same_punctuation_byte b1 b2 i j : same_punctuation b1 b2 i j → same_byte b1 b2 i j.
Proof. intros (b&?&?&_). by exists b. Qed.

Lemma cut_gap b1 b2 s1 s2 e1 e2 :
  s1 ≤ e1 → e1 ≤ length b1 → s2 ≤ e2 → e2 ≤ length b2 → cut b1 s1 e1 = cut b2 s2 e2 →
  gap (same_byte b1 b2) s1 s2 e1 e2.
Proof.
  intros ???? Heq. pose proof (f_equal length Heq) as Hlen. rewrite !length_cut in Hlen by done.
  unfold gap. split_and!; [done..|]. intros i Hi.
  destruct (lookup_lt_is_Some_2 b1 (s1 + i)) as [b Hb]; [lia|]. exists b. split; [done|].
  rewrite <- (lookup_cut b2 s2 e2) by lia. by rewrite <- Heq, lookup_cut.
Qed.

Lemma gap_cut b1 b2 s1 s2 e1 e2 :
  gap (same_byte b1 b2) s1 s2 e1 e2 → cut b1 s1 e1 = cut b2 s2 e2.
Proof. apply gap_slices. Qed.

(** ** Ranges on boundaries *)

Definition on_boundaries (text1 text2 : str) (r : Range) : Prop :=
  char_boundary text1 (start1 r) ∧ char_boundary text1 (end1 r) ∧
  char_boundary text2 (start2 r) ∧ char_boundary text2 (end2 r).

Section boundaries.
Context (text1 text2 : str).

(** A non-empty gap of ASCII bytes lies on boundaries. *)
Lemma ascii_gap_boundaries s1 s2 e1 e2 :
  gap (λ i j, ∃ b, bytes text1 !! i = Some b ∧ bytes text2 !! j = Some b ∧ (b < 128)%N)
    s1 s2 e1 e2 → s1 < e1 → on_boundaries text1 text2 (mkRange s1 e1 s2 e2).
Proof.
  intros (?&?&Hlen&Hall) Hlt.
  destruct (Hall 0) as (a&Ha1&Ha2&Ha); [lia|]. destruct (Hall (e1 - s1 - 1)) as (z&Hz1&Hz2&Hz); [lia|].
  rewrite Nat.add_0_r in Ha1, Ha2.
  destruct (ascii_boundary _ _ _ Ha1 Ha), (ascii_boundary _ _ _ Ha2 Ha).
  destruct (ascii_boundary _ _ _ Hz1 Hz) as [_ ?], (ascii_boundary _ _ _ Hz2 Hz) as [_ ?].
  replace e1 with (S (s1 + (e1 - s1 - 1))) by lia.
  replace e2 with (S (s2 + (e1 - s1 - 1))) by lia. by unfold on_boundaries.
Qed.

(** ** The builder of a byte script *)

Definition byte_builder (b : ChangeBuilder.t) : Prop :=
  ChangeBuilderFacts.ok (same_byte (bytes text1) (bytes text2)) b ∧
  ChangeBuilder.len1 b = byte_len text1 ∧ ChangeBuilder.len2 b = byte_len text2 ∧
  char_boundary text1 (ChangeBuilder.index1 b) ∧ char_boundary text2 (ChangeBuilder.index2 b) ∧
  Forall (on_boundaries text1 text2) (ChangeBuilder.changes b).

Lemma byte_builder_new :
  byte_builder (ChangeBuilder.new (byte_len text1) (byte_len text2)).
Proof.
  split; [apply ChangeBuilderFacts.builder_new_ok|]. simpl.
  split_and!; auto with paneflow.
Qed.

Lemma byte_builder_mark b i1 i2 e1 e2 :
  byte_builder b → ChangeBuilder.index1 b ≤ i1 → ChangeBuilder.index2 b ≤ i2 →
  gap (same_byte (bytes text1) (bytes text2)) i1 i2 e1 e2 →
  on_boundaries text1 text2 (mkRange i1 e1 i2 e2) →
  runs (ChangeBuilder.mark_equal b i1 i2 e1 e2) (λ b',
    byte_builder b' ∧ ChangeBuilder.index1 b' ≤ e1 ∧ ChangeBuilder.index2 b' ≤ e2).
Proof.
  intros (Hok&Hl1&Hl2&Hb1&Hb2&Hall) ?? Hg (Hi1&He1&Hi2&He2). simpl in *.
  pose proof (ChangeBuilderFacts.builder_mark_equal_spec _ _ _ _ _ _ Hok ltac:(done) ltac:(done) Hg)
    as Hspec.
  pose proof Hg as (?&?&_&_).
  apply runs_some in Hspec as (b'&Hrun&Hok'&Hl1'&Hl2'&?&?&_). eapply runs_intro; [exact Hrun|].
  split; [|done]. split; [done|]. rewrite Hl1', Hl2'. split_and!; [done..| | |].
  all: unfold ChangeBuilder.mark_equal in Hrun; destruct (_ && _); [by injection Hrun as <-|].
  all: rewrite !assert_some in Hrun by (rewrite andb_true_iff, !Nat.leb_le; lia);
    cbn [mbind option_bind] in Hrun.
  all: destruct (negb _ || negb _); [rewrite range_new_some in Hrun by lia|];
    simpl in Hrun; injection Hrun as <-; simpl; try done.
  apply Forall_snoc; [done|]. by unfold on_boundaries.
Qed.

Lemma byte_builder_finish b :
  byte_builder b →
  runs (ChangeBuilder.finish b) (λ c,
    changes_ok (same_byte (bytes text1) (bytes text2)) (byte_len text1) (byte_len text2) c ∧
    separated (Changes.changed c) ∧ Forall (on_boundaries text1 text2) (Changes.changed c)).
Proof.
  intros (Hok&Hl1&Hl2&Hb1&Hb2&Hall).
  pose proof (boundary_le _ _ Hb1). pose proof (boundary_le _ _ Hb2).
  pose proof (ChangeBuilderFacts.builder_finish_spec _ _ Hok ltac:(lia) ltac:(lia)) as Hspec.
  rewrite Hl1, Hl2 in Hspec. apply runs_some in Hspec as (c&Hrun&?&?).
  eapply runs_intro; [exact Hrun|]. split_and!; [done..|].
  unfold ChangeBuilder.finish in Hrun.
  rewrite assert_some in Hrun by (rewrite andb_true_iff, !Nat.leb_le; lia).
  cbn [mbind option_bind] in Hrun.
  destruct (negb _ || negb _); [rewrite range_new_some in Hrun by lia|];
    simpl in Hrun; injection Hrun as <-; simpl; [|done].
  apply Forall_snoc; [done|]. unfold on_boundaries. simpl. rewrite Hl1, Hl2.
  split_and!; auto with paneflow.
Qed.

(** Marking the ranges of an inner comparison of punctuation. *)
Lemma mark_ranges_spec E us p1 p2 l1 l2 o1 o2 b :
  (∀ i j, i < l1 → j < l2 → E i j →
     same_punctuation (bytes text1) (bytes text2) (o1 + i) (o2 + j)) →
  matching E p1 p2 us l1 l2 → byte_builder b →
  ChangeBuilder.index1 b ≤ o1 + p1 → ChangeBuilder.index2 b ≤ o2 + p2 →
  runs (mark_ranges o1 o2 us b) (λ b',
    byte_builder b' ∧ ChangeBuilder.index1 b' ≤ o1 + l1 ∧ ChangeBuilder.index2 b' ≤ o2 + l2).
Proof.
  intros HE Hm Hb Hi1 Hi2. unfold mark_ranges.
  eapply runs_mono; [eapply (runs_for_each_range E us p1 p2 l1 l2 _ (λ q1 q2 b, byte_builder b ∧
    ChangeBuilder.index1 b ≤ o1 + q1 ∧ ChangeBuilder.index2 b ≤ o2 + q2)); [|done|done]|].
  - intros u q1 q2 b' ??? Hg ?? (Hb'&?&?).
    assert (gap (same_punctuation (bytes text1) (bytes text2))
      (o1 + start1 u) (o2 + start2 u) (o1 + end1 u) (o2 + end2 u)) as Hg'.
    { eapply gap_shift, Hg. intros; apply HE; [lia..|done]. }
    apply byte_builder_mark; [done|lia|lia| |].
    + eapply gap_mono, Hg'. intros; by apply same_punctuation_byte.
    + apply ascii_gap_boundaries; [|lia]. eapply gap_mono, Hg'.
      intros i j _ _ _ _ (x&?&?&?). exists x. split_and!; [done..|by apply punctuation_ascii].
  - intros b' (q1&q2&?&?&?&?&?). split_and!; [done|lia|lia].
Qed.

Lemma mark_ranges_swapped_spec E us p1 p2 l1 l2 o1 o2 b :
  (∀ i j, i < l1 → j < l2 → E i j →
     same_punctuation (bytes text1) (bytes text2) (o1 + j) (o2 + i)) →
  matching E p1 p2 us l1 l2 → byte_builder b →
  ChangeBuilder.index1 b ≤ o1 + p2 → ChangeBuilder.index2 b ≤ o2 + p1 →
  runs (mark_ranges_swapped o1 o2 us b) (λ b',
    byte_builder b' ∧ ChangeBuilder.index1 b' ≤ o1 + l2 ∧ ChangeBuilder.index2 b' ≤ o2 + l1).
Proof.
  intros HE Hm Hb Hi1 Hi2. unfold mark_ranges_swapped.
  eapply runs_mono; [eapply (runs_for_each_range E us p1 p2 l1 l2 _ (λ q1 q2 b, byte_builder b ∧
    ChangeBuilder.index1 b ≤ o1 + q2 ∧ ChangeBuilder.index2 b ≤ o2 + q1)); [|done|done]|].
  - intros u q1 q2 b' ??? (?&?&Hlen&Hall) ?? (Hb'&?&?).
    assert (gap (same_punctuation (bytes text1) (bytes text2))
      (o1 + start2 u) (o2 + start1 u) (o1 + end2 u) (o2 + end1 u)) as Hg'.
    { unfold gap. split_and!; [lia..|]. intros i Hi. rewrite <- !Nat.add_assoc.
      apply HE; [lia..|]. apply Hall. lia. }
    apply byte_builder_mark; [done|lia|lia| |].
    + eapply gap_mono, Hg'. intros; by apply same_punctuation_byte.
    + apply ascii_gap_boundaries; [|lia]. eapply gap_mono, Hg'.
      intros i j _ _ _ _ (x&?&?&?). exists x. split_and!; [done..|by apply punctuation_ascii].
  - intros b' (q1&q2&?&?&?&?&?). split_and!; [done|lia|lia].
Qed.
End boundaries.

(** ** Comparing punctuation *)

(** The offsets are increasing, and each holds its code point. *)
Lemma punctuation_from_spec offset l :
  let cs := punctuation_from offset l in
  length (cp_offsets cs) = length (code_points cs) ∧
  (∀ i o, cp_offsets cs !! i = Some o → offset ≤ o ∧ ∃ b, code_points cs !! i = Some b ∧
     l !! (o - offset) = Some b ∧ is_punctuation_byte b = true) ∧
  (∀ i j o o', i < j → cp_offsets cs !! i = Some o → cp_offsets cs !! j = Some o' → o < o').
Proof.
  revert offset. induction l as [|b l IH]; intros offset; simpl; [split_and!; intros; simplify_eq/=; try done|].
  destruct (IH (S offset)) as (Hlen&Hall&Hord). destruct (is_punctuation_byte b) eqn:Hb; simpl.
  - split_and!; [by rewrite Hlen| |].
    + intros [|i] o Ho; simpl in Ho.
      * injection Ho as <-. split; [done|]. exists b. by rewrite Nat.sub_diag.
      * destruct (Hall i o Ho) as (?&c&?&?&?). split; [lia|]. exists c.
        replace (o - offset) with (S (o - S offset)) by lia. by split_and!.
    + intros [|i] [|j] o o' Hij Ho Ho'; simpl in Ho, Ho'; try lia.
      * injection Ho as <-. destruct (Hall j o' Ho'). lia.
      * eapply (Hord i j); [lia|done..].
  - split_and!; [done| |done]. intros i o Ho. destruct (Hall i o Ho) as (?&c&?&?&?).
    split; [lia|]. exists c. replace (o - offset) with (S (o - S offset)) by lia. by split_and!.
Qed.

Lemma char_eq_on l : @eq_on _ char_eq l.
Proof.
  constructor; [intros a b _ _; by eexists|..]; intros *; change (?a ≡? ?b) with (N.eqb a b);
    rewrite !N.eqb_eq; congruence.
Qed.

Section punctuation.
Context `{MyersDiffLaws}.

Lemma compare_punctuation_spec (t1 t2 : str) :
  runs (compare_punctuation t1 t2)
    (changes_ok (same_punctuation (bytes t1) (bytes t2)) (byte_len t1) (byte_len t2)).
Proof.
  unfold compare_punctuation, punctuation_chars.
  destruct (punctuation_from_spec 0 (bytes t1)) as (Hlen1&Hall1&Hord1).
  destruct (punctuation_from_spec 0 (bytes t2)) as (Hlen2&Hall2&Hord2).
  set (c1 := punctuation_from 0 (bytes t1)) in *. set (c2 := punctuation_from 0 (bytes t2)) in *.
  eapply runs_bind; [apply (@lcs_spec _ _ _ char_eq), char_eq_on|]. intros c Hc. cbn beta.
  eapply runs_bind; [by apply unchanged_spec, Hc|]. intros us Hm. cbn beta.
  set (E := same_punctuation (bytes t1) (bytes t2)).
  set (Inv := λ (q1 q2 : nat) (b : ChangeBuilder.t), ChangeBuilderFacts.ok E b ∧
    ChangeBuilder.len1 b = byte_len t1 ∧ ChangeBuilder.len2 b = byte_len t2 ∧
    ChangeBuilder.index1 b ≤ byte_len t1 ∧ ChangeBuilder.index2 b ≤ byte_len t2 ∧
    (∀ i o, q1 ≤ i → cp_offsets c1 !! i = Some o → ChangeBuilder.index1 b ≤ o) ∧
    (∀ i o, q2 ≤ i → cp_offsets c2 !! i = Some o → ChangeBuilder.index2 b ≤ o)).
  eapply runs_bind; [eapply (runs_for_each_pair _ us 0 0 _ _ _ Inv); [|exact Hm|]|].
  - intros i j q1 q2 b (x&y&Hx&Hy&Hxy%N.eqb_eq) ???? (Hok&Hl1&Hl2&_&_&Hi1&Hi2). subst y.
    destruct (lookup_lt_is_Some_2 (cp_offsets c1) i) as [o1 Ho1]; [lia|].
    destruct (lookup_lt_is_Some_2 (cp_offsets c2) j) as [o2 Ho2]; [lia|].
    rewrite Ho1, Ho2. cbn [mbind option_bind].
    destruct (Hall1 i o1 Ho1) as (_&x1&Hx1&Hb1&Hp1). destruct (Hall2 j o2 Ho2) as (_&x2&Hx2&Hb2&_).
    rewrite Nat.sub_0_r in Hb1, Hb2. assert (x1 = x) as -> by congruence.
    assert (x2 = x) as -> by congruence.
    pose proof (lookup_lt_Some _ _ _ Hb1). pose proof (lookup_lt_Some _ _ _ Hb2).
    unfold ChangeBuilder.mark_equal_one, ChangeBuilder.mark_equal_count.
    eapply runs_mono; [apply (ChangeBuilderFacts.builder_mark_equal_spec E); [done| | |]|].
    + by apply (Hi1 i).
    + by apply (Hi2 j).
    + rewrite !Nat.add_1_r. apply gap_one. by exists x.
    + intros b' (?&?&?&?&?&Hlast). destruct Hlast as [Hj1 Hj2]; [lia|].
      unfold Inv, byte_len in *. rewrite Hj1, Hj2. split_and!; try done; try congruence; try lia.
      * intros i' o' ? Ho'. pose proof (Hord1 i i' o1 o' ltac:(lia) Ho1 Ho'). lia.
      * intros i' o' ? Ho'. pose proof (Hord2 j i' o2 o' ltac:(lia) Ho2 Ho'). lia.
  - split; [apply ChangeBuilderFacts.builder_new_ok|]. simpl. split_and!; intros; try done; lia.
  - intros b (q1&q2&_&_&Hok&Hl1&Hl2&?&?&_&_). rewrite <- Hl1, <- Hl2.
    eapply runs_mono; [apply (ChangeBuilderFacts.builder_finish_spec E); [done|lia..]|].
    by intros c' [? _].
Qed.

(** The ranges of the two sides: those against [t21] come before those against
    [t22] in [t1]. *)
Lemma compare_punctuation_two_side_spec (t1 t21 t22 : str) :
  runs (compare_punctuation_two_side t1 t21 t22) (λ '(ranges1, ranges2), ∃ k, k ≤ byte_len t1 ∧
    matching (same_punctuation (bytes t1) (bytes t21)) 0 0 ranges1 k (byte_len t21) ∧
    matching (same_punctuation (bytes t1) (bytes t22)) k 0 ranges2 (byte_len t1) (byte_len t22)).
Proof.
  unfold compare_punctuation_two_side.
  eapply runs_bind; [apply compare_punctuation_spec|]. intros c Hc. cbn beta.
  eapply runs_bind; [by apply unchanged_spec, Hc|]. intros us Hm. cbn beta.
  rewrite byte_len_app, bytes_app in Hm.
  set (E1 := same_punctuation (bytes t1) (bytes t21)).
  set (E2 := same_punctuation (bytes t1) (bytes t22)).
  set (n := byte_len t21) in *.
  assert (∀ p1 p2 q1 q2, q2 ≤ n → gap (same_punctuation (bytes t1) (bytes t21 ++ bytes t22))
            p1 p2 q1 q2 → gap E1 p1 p2 q1 q2) as HE1.
  { intros p1 p2 q1 q2 ?. apply gap_mono. intros i j ???? (b&?&Hj&?).
    rewrite lookup_app_l in Hj by (unfold n, byte_len in *; lia). by exists b. }
  assert (∀ p1 p2 q1 q2, n ≤ p2 → gap (same_punctuation (bytes t1) (bytes t21 ++ bytes t22))
            p1 p2 q1 q2 → gap E2 p1 (p2 - n) q1 (q2 - n)) as HE2.
  { intros p1 p2 q1 q2 ? (?&?&?&Hall). unfold gap. split_and!; [lia..|].
    intros i Hi. destruct (Hall i Hi) as (b&?&Hj&?). exists b. split_and!; [done| |done].
    rewrite lookup_app_r in Hj by (unfold n, byte_len in *; lia).
    rewrite <- Hj. f_equal. unfold n, byte_len in *. lia. }
  set (Inv := λ (q1 q2 : nat) (acc : list Range * list Range), ∃ k, k ≤ q1 ∧
    matching E1 0 0 (fst acc) k (Nat.min q2 n) ∧
    matching E2 k 0 (snd acc) q1 (q2 - n) ∧ (q2 < n → snd acc = [])).
  eapply runs_mono; [eapply (runs_for_each_range _ us 0 0 _ _ _ Inv); [|exact Hm|]|].
  - intros u q1 q2 [rs1 rs2] ??? Hg ?? (k&?&Hm1&Hm2&Hnil). cbn [fst snd] in *.
    pose proof Hg as (?&?&Hlen&_). unfold split_at_offset.
    destruct (end2 u <=? n) eqn:Hc1; [|destruct (n <=? start2 u) eqn:Hc2]; bool_to_prop.
    + specialize (Hnil ltac:(lia)). subst rs2. exists (end1 u). cbn [fst snd].
      split_and!; [done| |simpl; lia|done].
      eapply matching_snoc; [exact Hm1|lia|lia|done|by apply HE1|lia|lia].
    + rewrite !checked_sub_some by lia. cbn [mbind option_bind].
      rewrite range_new_some by lia. cbn [mbind option_bind runs]. exists k. cbn [fst snd].
      replace (Nat.min (end2 u) n) with n by lia.
      split_and!; [lia| | |lia].
      * eapply matching_end; [exact Hm1|lia..].
      * eapply matching_snoc; [exact Hm2|simpl; lia..| |simpl; lia|simpl; lia]. simpl. by apply HE2.
    + specialize (Hnil ltac:(lia)). subst rs2. rewrite !checked_sub_some by lia.
      cbn [mbind option_bind]. rewrite !range_new_some by lia. cbn [mbind option_bind].
      rewrite ?range_new_some by lia. cbn [mbind option_bind runs]. exists (start1 u + (n - start2 u)). cbn [fst snd].
      replace (Nat.min (end2 u) n) with n by lia. split_and!; [lia| | |lia].
      * eapply matching_snoc; [exact Hm1|simpl; lia..| |simpl; lia|simpl; lia]. simpl.
        apply HE1; [lia|].
        pose proof (gap_sub _ _ _ _ _ 0 (n - start2 u) Hg ltac:(lia) ltac:(lia)) as Hs.
        rewrite !Nat.add_0_r in Hs. by replace (start2 u + (n - start2 u)) with n in Hs by lia.
      * simpl. split_and!; try lia.
        pose proof (gap_sub _ _ _ _ _ (n - start2 u) (end1 u - start1 u) Hg ltac:(lia) ltac:(lia)) as Hs.
        replace (start2 u + (n - start2 u)) with n in Hs by lia.
        replace (start1 u + (end1 u - start1 u)) with (end1 u) in Hs by lia.
        replace (start2 u + (end1 u - start1 u)) with (end2 u) in Hs by lia.
        apply HE2 in Hs; [|lia]. by rewrite Nat.sub_diag in Hs.
  - exists 0. cbn [fst snd]. split_and!; simpl; try lia. done.
  - intros [rs1 rs2] (q1&q2&?&?&k&?&Hm1&Hm2&_). cbn [fst snd] in *. exists k.
    split_and!; [lia|eapply matching_end; [exact Hm1|lia..]|eapply matching_end; [exact Hm2|lia..]].
Qed.
End punctuation.

(** * paneflow-textdiff: correctness of the word comparison *)

(** ** Ordered chunks *)

(** [c] is a chunk of [text], its offsets moved by [shift]. *)
Definition chunk_at (text : str) (shift : nat) (c : InlineChunk) : Prop :=
  shift ≤ InlineChunk.start c ∧ InlineChunk.start c < InlineChunk.end_ c ∧
  char_boundary text (InlineChunk.start c - shift) ∧
  char_boundary text (InlineChunk.end_ c - shift) ∧
  (InlineChunk.is_newline c = true → bytes text !! (InlineChunk.start c - shift) = Some 10%N).

(** [cs] are chunks of [text], in order between [p] and [q]. *)
Fixpoint chunks_in (text : str) (shift p q : nat) (cs : list InlineChunk) : Prop :=
  match cs with
  | [] => p ≤ q
  | c :: cs =>
      p ≤ InlineChunk.start c - shift ∧ chunk_at text shift c ∧
      chunks_in text shift (InlineChunk.end_ c - shift) q cs
  end.

Lemma chunks_in_mono text shift p p' q cs :
  chunks_in text shift p q cs → p' ≤ p → chunks_in text shift p' q cs.
Proof. destruct cs; simpl; [lia|]. intros (?&?&?) ?. split_and!; [lia|done..]. Qed.

Lemma chunks_in_lookup text shift p q cs i c :
  chunks_in text shift p q cs → cs !! i = Some c →
  p ≤ InlineChunk.start c - shift ∧ chunk_at text shift c ∧ InlineChunk.end_ c - shift ≤ q.
Proof.
  assert (∀ p cs, chunks_in text shift p q cs → p ≤ q) as Hle.
  { intros p0 cs0. revert p0. induction cs0 as [|c0 cs0 IH]; intros p0; simpl; [done|].
    intros (?&(?&?&_)&?%IH). lia. }
  revert p i. induction cs as [|c0 cs IH]; intros p [|i]; simpl; try done.
  - intros (?&?&?%Hle) [= ->]. done.
  - intros (?&(?&?&_)&Hcs) Hi. destruct (IH _ _ Hcs Hi) as (?&?&?). split_and!; [lia|done..].
Qed.

Lemma chunks_in_order text shift p q cs i j c c' :
  chunks_in text shift p q cs → i < j → cs !! i = Some c → cs !! j = Some c' →
  InlineChunk.end_ c - shift ≤ InlineChunk.start c' - shift.
Proof.
  revert p i j. induction cs as [|c0 cs IH]; intros p [|i] [|j]; simpl; try done; try lia.
  - intros (_&_&Hcs) _ [= ->] Hj. by destruct (chunks_in_lookup _ _ _ _ _ _ _ Hcs Hj).
  - intros (_&_&Hcs) ? Hi Hj. eapply (IH _ i j); [done|lia|done..].
Qed.

(** ** [inline_chunks] *)

Lemma is_continuous_script_runs alphabetic c :
  runs (is_continuous_script alphabetic c) (λ _, True).
Proof.
  pose proof tables_ok as Hall. rewrite !Forall_cons in Hall. destruct Hall as (H1&H2&H3&H4&H5&H6&_).
  cbn [fst snd] in *.
  unfold is_continuous_script. case_match; [done|].
  destruct (in_ranges_spec c _ _ H1) as (b1&->&_). simpl. destruct b1; [done|].
  case_match; [done|].
  destruct (in_ranges_spec c _ _ H2) as (b2&->&_). simpl. destruct b2; [done|].
  case_match; [done|].
  destruct (in_ranges_spec c _ _ H3) as (b3&->&_). simpl. destruct b3; [done|].
  destruct (in_ranges_spec c _ _ H4) as (b4&->&_). simpl. destruct b4; [done|].
  destruct (in_ranges_spec c _ _ H5) as (b5&->&_). simpl. destruct b5; [done|].
  by destruct (in_ranges_spec c _ _ H6) as (b6&->&_).
Qed.

Lemma chunks_from_spec alphabetic pre rest ws :
  let full := pre ++ rest in
  (∀ s, ws = Some s → s < byte_len pre ∧ char_boundary full s) →
  runs (chunks_from alphabetic (byte_len pre) ws rest)
    (chunks_in full 0 (default (byte_len pre) ws) (byte_len full)).
Proof.
  revert pre ws. induction rest as [|c rest IH]; intros pre ws full Hws.
  - assert (full = pre) as -> by (subst full; by rewrite app_nil_r).
    destruct ws as [s|]; simpl; [|done]. destruct (Hws s eq_refl).
    unfold chunk_at. simpl. rewrite !Nat.sub_0_r. split_and!; try done; auto with paneflow lia.
  - assert (full = (pre ++ [c]) ++ rest) as Hfull by (subst full; by rewrite <- app_assoc).
    assert (byte_len pre + length (utf8 c) = byte_len (pre ++ [c])) as Hnext
      by (rewrite byte_len_app, byte_len_cons; unfold byte_len; simpl; lia).
    assert (char_boundary full (byte_len pre)) as Hb1 by apply boundary_app.
    assert (char_boundary full (byte_len (pre ++ [c]))) as Hb2
      by (rewrite Hfull; apply boundary_app).
    pose proof (utf8_nonempty c).
    simpl. rewrite Hnext, Hfull.
    eapply (runs_bind _ _ (λ _, True)); [destruct (is_alpha c); [apply is_continuous_script_runs|done]|].
    intros continuous _. cbn beta. destruct (is_alpha c && negb continuous).
    + eapply runs_mono; [apply IH|].
      * intros s [= <-]. rewrite <- Hfull. destruct ws as [s|]; simpl; [|split; [lia|done]].
        destruct (Hws s eq_refl). split; [lia|done].
      * done.
    + eapply runs_bind; [apply IH; done|]. intros chunks Hch. simpl in Hch |- *.
      rewrite <- Hfull in *.
      set (this := if is_alpha c then [Word (byte_len pre) (byte_len (pre ++ [c]))]
                   else if (c =? 10)%N then [Newline (byte_len pre)] else []).
      assert (chunks_in full 0 (byte_len pre) (byte_len full) (this ++ chunks)) as Hthis.
      { subst this. destruct (is_alpha c); [|destruct (N.eqb_spec c 10) as [->|]].
        - simpl. unfold chunk_at. simpl. rewrite !Nat.sub_0_r. split_and!; try done; lia.
        - simpl. unfold chunk_at. simpl. rewrite !Nat.sub_0_r.
          change (length (utf8 10)) with 1 in Hnext. rewrite Hnext. split_and!; try done; try lia.
          intros _. subst full. rewrite bytes_app. unfold byte_len.
          rewrite lookup_app_r, Nat.sub_diag by done. done.
        - simpl. eapply chunks_in_mono; [exact Hch|lia]. }
      destruct ws as [s|]; simpl; [|done]. destruct (Hws s eq_refl).
      unfold chunk_at. simpl. rewrite !Nat.sub_0_r. split_and!; try done; lia.
Qed.

Lemma inline_chunks_spec alphabetic text :
  runs (inline_chunks alphabetic text) (chunks_in text 0 0 (byte_len text)).
Proof. by apply (chunks_from_spec alphabetic [] text None). Qed.

(** ** Tokens *)

Section tokens.
Context (text1 text2 : str) (words1 words2 : list InlineChunk).

(** The matched chunks have the same bytes. *)
Definition word_eq (shift1 shift2 : nat) (i j : nat) : Prop :=
  ∃ w1 w2, words1 !! i = Some w1 ∧ words2 !! j = Some w2 ∧
    cut (bytes text1) (InlineChunk.start w1 - shift1) (InlineChunk.end_ w1 - shift1) =
    cut (bytes text2) (InlineChunk.start w2 - shift2) (InlineChunk.end_ w2 - shift2).
End tokens.

Lemma newline_cut text c :
  chunk_at text 0 c → InlineChunk.is_newline c = true →
  cut (bytes text) (InlineChunk.start c) (InlineChunk.end_ c) = [10%N].
Proof.
  intros (_&_&_&_&Hnl) Hc. specialize (Hnl Hc). destruct c as [|o]; [done|]. simpl in *.
  rewrite Nat.sub_0_r in Hnl. unfold cut. replace (o + 1 - o) with 1 by lia.
  rewrite (drop_S _ _ _ Hnl). simpl. by rewrite firstn_O.
Qed.

Lemma token_spec text c :
  chunk_at text 0 c → runs (token text c) (λ t,
    match t with
    | TokenWord w => InlineChunk.is_newline c = false ∧
        bytes w = cut (bytes text) (InlineChunk.start c) (InlineChunk.end_ c)
    | TokenNewline => InlineChunk.is_newline c = true
    end).
Proof.
  intros (_&Hlt&Hb1&Hb2&_). destruct c as [s e|o]; simpl in *; [|done].
  rewrite !Nat.sub_0_r in *. eapply runs_bind; [by apply str_slice_spec; [..|lia]|].
  intros w (?&_&_). done.
Qed.

Definition tokens_of (text : str) (chunks : list InlineChunk) (ts : list ChunkToken) : Prop :=
  Forall2 (λ c t, token text c = Some t) chunks ts.

Lemma mapM_token_spec text p q cs :
  chunks_in text 0 p q cs → runs (mapM (token text) cs) (tokens_of text cs).
Proof.
  revert p. induction cs as [|c cs IH]; intros p; simpl; [constructor|].
  intros (_&Hc&Hcs). pose proof (token_spec text c Hc) as (t&Ht&_)%runs_some.
  rewrite Ht. cbn [mbind option_bind].
  eapply runs_bind; [by eapply IH|]. intros ts Hts. simpl. by constructor.
Qed.

Lemma token_eq_words text1 text2 p1 q1 p2 q2 cs1 cs2 ts1 ts2 i j :
  chunks_in text1 0 p1 q1 cs1 → chunks_in text2 0 p2 q2 cs2 →
  tokens_of text1 cs1 ts1 → tokens_of text2 cs2 ts2 →
  item_eq ts1 ts2 i j → word_eq text1 text2 cs1 cs2 0 0 i j.
Proof.
  intros H1 H2 Ht1 Ht2 (t&t'&Hi&Hj&->%bool_decide_eq_true).
  destruct (Forall2_lookup_r _ _ _ _ _ Ht1 Hi) as (c1&Hc1&Hk1).
  destruct (Forall2_lookup_r _ _ _ _ _ Ht2 Hj) as (c2&Hc2&Hk2).
  destruct (chunks_in_lookup _ _ _ _ _ _ _ H1 Hc1) as (_&Ho1&_).
  destruct (chunks_in_lookup _ _ _ _ _ _ _ H2 Hc2) as (_&Ho2&_).
  exists c1, c2. split_and!; [done..|]. rewrite !Nat.sub_0_r.
  pose proof (token_spec _ _ Ho1) as Hs1. pose proof (token_spec _ _ Ho2) as Hs2.
  rewrite Hk1 in Hs1. rewrite Hk2 in Hs2. simpl in Hs1, Hs2. destruct t' as [w|].
  - destruct Hs1 as [_ <-], Hs2 as [_ <-]. done.
  - by rewrite !newline_cut.
Qed.

Lemma token_eq_on (l : list ChunkToken) : eq_on l.
Proof.
  constructor; [intros a b _ _; by eexists|..]; intros *; unfold partial_eq, eq_checked, token_eq; simpl;
    rewrite !bool_decide_eq_true; congruence.
Qed.

(** ** Sliding changes to the edges of words *)

Lemma separated_runs text p q words i j w1 w2 :
  chunks_in text 0 p q words → words !! i = Some w1 → words !! j = Some w2 → i < j →
  runs (is_separated_with_whitespace text w1 w2) (λ _, True).
Proof.
  intros Hin Hi Hj Hij. unfold is_separated_with_whitespace. destruct (_ || _); [done|].
  pose proof (chunks_in_order _ _ _ _ _ _ _ _ _ Hin Hij Hi Hj).
  destruct (chunks_in_lookup _ _ _ _ _ _ _ Hin Hj) as (_&(_&_&Hb%boundary_le&_&_)&_).
  unfold byte_len in Hb. by rewrite slice_some by lia.
Qed.

Lemma edge_pair_runs text p q words i j :
  chunks_in text 0 p q words → i < j → j < length words →
  runs (w1 ← words !! i; w2 ← words !! j; is_separated_with_whitespace text w1 w2) (λ _, True).
Proof.
  intros Hin Hij Hj.
  destruct (lookup_lt_is_Some_2 words i) as [w1 Hw1]; [lia|].
  destruct (lookup_lt_is_Some_2 words j) as [w2 Hw2]; [lia|]. rewrite Hw1, Hw2.
  by eapply separated_runs.
Qed.

Lemma sequence_edge_shift_spec text p q words offset count ltr :
  chunks_in text 0 p q words →
  (if ltr : bool then offset + count < length words else count ≤ offset ∧ offset < length words) →
  runs (sequence_edge_shift text words offset count ltr) (λ r,
    ∀ n, r = Some n → n ≤ count).
Proof.
  intros Hin Hb. unfold sequence_edge_shift.
  eapply runs_bind; [apply (runs_find_some _ _ (λ _, True))|].
  - intros i [_ Hi]%elem_of_seq. unfold edge_separated. simpl in Hi.
    eapply (runs_mono _ (λ _, True)); [|done]. destruct ltr.
    + by apply (edge_pair_runs text p q); [|lia|lia].
    + rewrite checked_sub_some by lia. cbn [mbind option_bind].
      rewrite checked_sub_some by lia. cbn [mbind option_bind].
      apply (edge_pair_runs text p q); [done|lia|lia].
  - intros found Hf. simpl. destruct found as [i|]; [|done].
    destruct (Hf i eq_refl) as [[_ ?]%elem_of_seq _]. intros n [= <-]. lia.
Qed.

Section optimize.
Context (text1 text2 : str) (words1 words2 : list InlineChunk).
Context (Hw1 : chunks_in text1 0 0 (byte_len text1) words1).
Context (Hw2 : chunks_in text2 0 0 (byte_len text2) words2).

#[local] Instance word_boundary_shift_laws :
  @BoundaryShiftLaws (length words1) (length words2) (word_boundary_shift text1 text2 words1 words2).
Proof.
  intros touch_left fwd bwd r1 r2 [? ? ? ? ? ? ? ? Ht]. unfold shift, word_boundary_shift.
  set (words := select touch_left words1 words2). set (text := select touch_left text1 text2).
  set (at_ := select touch_left (start1 r2) (start2 r2)).
  assert (chunks_in text 0 0 (byte_len text) words) as Hin by (by destruct touch_left).
  assert (at_ + fwd < length words ∧ bwd + 1 ≤ at_) as [Hf Hb]
    by (subst words at_; destruct touch_left; simpl in *; lia).
  rewrite checked_sub_some by lia. cbn [mbind option_bind].
  destruct (lookup_lt_is_Some_2 words (at_ - 1)) as [w1 Hl1]; [lia|].
  destruct (lookup_lt_is_Some_2 words at_) as [w2 Hl2]; [lia|].
  rewrite Hl1, Hl2. cbn [mbind option_bind].
  eapply runs_bind; [by apply (separated_runs _ _ _ _ _ _ _ _ Hin Hl1 Hl2); lia|].
  intros sep _. cbn beta. destruct sep; [simpl; lia|].
  eapply runs_bind; [by apply (sequence_edge_shift_spec _ _ _ _ _ _ true Hin)|].
  intros left Hleft. cbn beta in *. destruct left as [n|]; [specialize (Hleft n eq_refl); simpl; lia|].
  eapply runs_bind; [apply (sequence_edge_shift_spec _ _ _ _ _ _ false Hin); lia|].
  intros right Hright. cbn beta in *. simpl.
  destruct right as [n|]; [specialize (Hright n eq_refl)|]; lia.
Qed.

Lemma optimize_word_chunks_spec c :
  changes_ok (word_eq text1 text2 words1 words2 0 0) (length words1) (length words2) c →
  runs (optimize_word_chunks text1 text2 words1 words2 c) (λ c',
    changes_ok (word_eq text1 text2 words1 words2 0 0) (length words1) (length words2) c' ∧
    separated (Changes.changed c')).
Proof.
  intros Hc. unfold optimize_word_chunks, views.
  eapply runs_bind; [by eapply mapM_token_spec|]. intros ts1 Ht1. cbn beta in *.
  eapply runs_bind; [by eapply mapM_token_spec|]. intros ts2 Ht2. cbn beta in *.
  pose proof (Forall2_length _ _ _ Ht1) as Hl1. pose proof (Forall2_length _ _ _ Ht2) as Hl2.
  pose proof word_boundary_shift_laws as Hlaws. rewrite Hl1, Hl2 in Hc, Hlaws |- *.
  eapply runs_mono; [exact (@optimize_chunks_spec _ _ ts1 ts2 _ _ Hlaws
    (word_eq text1 text2 words1 words2 0 0) (λ i j, token_eq_words text1 text2 0 (byte_len text1) 0
       (byte_len text2) words1 words2 ts1 ts2 i j Hw1 Hw2 Ht1 Ht2) c Hc)|].
  by intros c' (?&?&_).
Qed.

Lemma diff_chunks_spec `{MyersDiffLaws} :
  runs (diff_chunks text1 words1 text2 words2) (λ r,
    match r with
    | inl _ => True
    | inr c => changes_ok (word_eq text1 text2 words1 words2 0 0) (length words1) (length words2) c
    end).
Proof.
  unfold diff_chunks.
  eapply runs_bind; [by eapply mapM_token_spec|]. intros ts1 Ht1. cbn beta in *.
  eapply runs_bind; [by eapply mapM_token_spec|]. intros ts2 Ht2. cbn beta in *.
  unfold lcs_bounded. destruct (_ || _); [done|].
  eapply runs_bind; [apply lcs_spec, token_eq_on|]. intros c (Hc1&Hc2&Hs). simpl.
  pose proof (Forall2_length _ _ _ Ht1) as Hl1. pose proof (Forall2_length _ _ _ Ht2) as Hl2.
  unfold changes_ok. rewrite Hl1, Hl2. split_and!; [done..|].
  eapply script_mono; [|exact Hs]. intros i j _ _.
  by apply (token_eq_words text1 text2 0 (byte_len text1) 0 (byte_len text2)).
Qed.
End optimize.
