(* ===== verification/DiffCorrections.v ===== *)
(** * paneflow-textdiff: correctness of the punctuation matcher

    The matcher walks over the matched words and matches the punctuation of the
    gaps next to them.  [gap_range q1 q2] is the gap before words [q1] and [q2].

    Adjusting the changed ranges to a policy keeps them an edit script: of equal
    bytes under the default policy, of equal bytes other than whitespace under
    the others. *)

From S2P Require Import Prelude DiffRange DiffText DiffChanges DiffChunks DiffUtf8 DiffWords DiffWordsCorrect.

(** The byte range between word [q - 1] and word [q]. *)
Definition edge_l (words : list InlineChunk) (shift q : nat) : nat :=
  match q with
  | O => 0
  | S q => match words !! q with Some w => InlineChunk.end_ w - shift | None => 0 end
  end.

Definition edge_r (text : str) (words : list InlineChunk) (shift q : nat) : nat :=
  match words !! q with Some w => InlineChunk.start w - shift | None => byte_len text end.

Section edges.
Context (text : str) (words : list InlineChunk) (shift : nat).
Context (Hw : chunks_in text shift 0 (byte_len text) words).

Lemma edges_lt q q' :
  q < q' → q' ≤ length words → edge_r text words shift q < edge_l words shift q'.
Proof.
  intros Hlt Hle. destruct q' as [|k]; [lia|]. unfold edge_l, edge_r.
  destruct (lookup_lt_is_Some_2 words q) as [w Hq]; [lia|].
  destruct (lookup_lt_is_Some_2 words k) as [w' Hk]; [lia|]. rewrite Hq, Hk.
  destruct (chunks_in_lookup _ _ _ _ _ _ _ Hw Hq) as (_&(?&?&_)&_).
  destruct (chunks_in_lookup _ _ _ _ _ _ _ Hw Hk) as (_&(?&?&_)&_).
  destruct (decide (q = k)) as [->|]; [simplify_eq; lia|].
  pose proof (chunks_in_order _ _ _ _ _ q k _ _ Hw ltac:(lia) Hq Hk). lia.
Qed.

Lemma edges_ok q :
  q ≤ length words →
  edge_l words shift q ≤ edge_r text words shift q ∧
  char_boundary text (edge_l words shift q) ∧ char_boundary text (edge_r text words shift q).
Proof.
  intros Hq. assert (char_boundary text (edge_r text words shift q)) as Hr.
  { unfold edge_r. destruct (words !! q) as [w|] eqn:Hl; [|apply boundary_len].
    by destruct (chunks_in_lookup _ _ _ _ _ _ _ Hw Hl) as (_&(_&_&?&_)&_). }
  assert (char_boundary text (edge_l words shift q)) as Hl.
  { unfold edge_l. destruct q as [|k]; [apply boundary_0|].
    destruct (lookup_lt_is_Some_2 words k) as [w' Hk]; [lia|]. rewrite Hk.
    by destruct (chunks_in_lookup _ _ _ _ _ _ _ Hw Hk) as (_&(_&_&_&?&_)&_). }
  split_and!; [|done..]. unfold edge_r. destruct (words !! q) as [w|] eqn:Hlk; [|by apply boundary_le].
  destruct q as [|k]; simpl; [lia|].
  destruct (lookup_lt_is_Some_2 words k) as [w' Hk]; [lia|]. rewrite Hk.
  apply (chunks_in_order _ _ _ _ _ k (S k) _ _ Hw); [lia|done..].
Qed.

Lemma edge_l_mono q q' :
  q ≤ q' → q' ≤ length words → edge_l words shift q ≤ edge_l words shift q'.
Proof.
  intros Hle Hq'. destruct (decide (q = q')) as [->|]; [done|].
  pose proof (edges_lt q q' ltac:(lia) Hq'). destruct (edges_ok q ltac:(lia)). lia.
Qed.

Lemma start_of_word q :
  q < length words →
  (w ← words !! q; checked_sub (InlineChunk.start w) shift) = Some (edge_r text words shift q).
Proof.
  intros Hq. unfold edge_r. destruct (lookup_lt_is_Some_2 words q Hq) as [w Hl]. rewrite Hl. simpl.
  destruct (chunks_in_lookup _ _ _ _ _ _ _ Hw Hl) as (_&(?&_)&_). by rewrite checked_sub_some.
Qed.

Lemma end_of_word q :
  q < length words →
  (w ← words !! q; checked_sub (InlineChunk.end_ w) shift) = Some (edge_l words shift (S q)).
Proof.
  intros Hq. unfold edge_l. destruct (lookup_lt_is_Some_2 words q Hq) as [w Hl]. rewrite Hl. simpl.
  destruct (chunks_in_lookup _ _ _ _ _ _ _ Hw Hl) as (_&(?&?&_)&_). by rewrite checked_sub_some by lia.
Qed.

Lemma gap_end q :
  q ≤ length words →
  (if q =? length words then Some (byte_len text)
   else w ← words !! q; checked_sub (InlineChunk.start w) shift) = Some (edge_r text words shift q).
Proof.
  intros Hq. destruct (Nat.eqb_spec q (length words)) as [->|]; [|apply start_of_word; lia].
  unfold edge_r. by rewrite lookup_ge_None_2.
Qed.
End edges.

Section matcher.
Context `{MyersDiffLaws} (text1 text2 : str) (words1 words2 : list InlineChunk).
Context (shift1 shift2 : nat).
Context (Hw1 : chunks_in text1 shift1 0 (byte_len text1) words1).
Context (Hw2 : chunks_in text2 shift2 0 (byte_len text2) words2).

Definition gap_range (q1 q2 : nat) : Range :=
  mkRange (edge_l words1 shift1 q1) (edge_r text1 words1 shift1 q1)
          (edge_l words2 shift2 q2) (edge_r text2 words2 shift2 q2).

(** A builder whose cursor is at or before [(p1, p2)]. *)
Definition builder_to (p1 p2 : nat) (b : ChangeBuilder.t) : Prop :=
  byte_builder text1 text2 b ∧ ChangeBuilder.index1 b ≤ p1 ∧ ChangeBuilder.index2 b ≤ p2.

Lemma builder_to_mono p1 p2 q1 q2 b : builder_to p1 p2 b → p1 ≤ q1 → p2 ≤ q2 → builder_to q1 q2 b.
Proof. intros (?&?&?) ??. split_and!; [done|lia|lia]. Qed.

Lemma same_punctuation_cut s1 s2 a1 e1 a2 e2 i j :
  bytes s1 = cut (bytes text1) a1 e1 → bytes s2 = cut (bytes text2) a2 e2 →
  same_punctuation (bytes s1) (bytes s2) i j →
  i < e1 - a1 → j < e2 - a2 →
  same_punctuation (bytes text1) (bytes text2) (a1 + i) (a2 + j).
Proof.
  intros Hs1 Hs2 (b&Hi&Hj&?) ??. rewrite Hs1, lookup_cut in Hi by done.
  rewrite Hs2, lookup_cut in Hj by done. by exists b.
Qed.

Lemma match_range_spec b r :
  builder_to (start1 r) (start2 r) b → on_boundaries text1 text2 r →
  start1 r ≤ end1 r → start2 r ≤ end2 r →
  runs (match_range text1 text2 b r) (builder_to (end1 r) (end2 r)).
Proof.
  intros (Hb&?&?) (?&?&?&?) ??. unfold match_range.
  destruct (Range.is_empty r); [split_and!; [done|lia|lia]|].
  eapply runs_bind; [by apply str_slice_spec|]. intros s1 (Hs1&Hl1&_). cbn beta.
  eapply runs_bind; [by apply str_slice_spec|]. intros s2 (Hs2&Hl2&_). cbn beta.
  eapply runs_bind; [apply compare_punctuation_spec|]. intros c Hc. cbn beta.
  eapply runs_bind; [by apply unchanged_spec, Hc|]. intros us Hm. cbn beta.
  rewrite Hl1, Hl2 in Hm.
  eapply runs_mono; [eapply mark_ranges_spec; [|exact Hm|exact Hb|lia|lia]|].
  - intros i j ?? HE. by eapply same_punctuation_cut.
  - intros b' (?&?&?). split_and!; [done|lia|lia].
Qed.

Lemma match_complex_range_left_spec b s1 e1 s12 e12 s22 e22 :
  builder_to s1 s12 b → s1 ≤ e1 → s12 ≤ e12 → e12 ≤ s22 → s22 ≤ e22 →
  char_boundary text1 s1 → char_boundary text1 e1 → char_boundary text2 s12 →
  char_boundary text2 e12 → char_boundary text2 s22 → char_boundary text2 e22 →
  runs (match_complex_range_left text1 text2 b s1 e1 s12 e12 s22 e22) (builder_to e1 e22).
Proof.
  intros (Hb&?&?) ??????????. unfold match_complex_range_left.
  eapply runs_bind; [by apply str_slice_spec|]. intros t1 (Ht1&Hl1&_). cbn beta.
  eapply runs_bind; [by apply str_slice_spec|]. intros t21 (Ht21&Hl21&_). cbn beta.
  eapply runs_bind; [by apply str_slice_spec|]. intros t22 (Ht22&Hl22&_). cbn beta.
  eapply runs_bind; [apply compare_punctuation_two_side_spec|].
  intros [first second] (k&?&Hm1&Hm2). cbn beta iota. rewrite Hl1, Hl21, Hl22 in *.
  eapply runs_bind; [eapply mark_ranges_spec; [|exact Hm1|exact Hb|lia|lia]|].
  { intros i j ?? HE. eapply (same_punctuation_cut t1 t21 s1 e1 s12 e12); [done..|lia|lia]. }
  intros b1 (?&?&?). cbn beta.
  eapply runs_mono; [eapply mark_ranges_spec; [|exact Hm2|done|lia|lia]|].
  - intros i j ?? HE. by eapply same_punctuation_cut.
  - intros b' (?&?&?). split_and!; [done|lia|lia].
Qed.

Lemma match_complex_range_right_spec b s2 e2 s11 e11 s21 e21 :
  builder_to s11 s2 b → s2 ≤ e2 → s11 ≤ e11 → e11 ≤ s21 → s21 ≤ e21 →
  char_boundary text2 s2 → char_boundary text2 e2 → char_boundary text1 s11 →
  char_boundary text1 e11 → char_boundary text1 s21 → char_boundary text1 e21 →
  runs (match_complex_range_right text1 text2 b s2 e2 s11 e11 s21 e21) (builder_to e21 e2).
Proof.
  intros (Hb&?&?) ??????????. unfold match_complex_range_right.
  eapply runs_bind; [by apply str_slice_spec|]. intros t11 (Ht11&Hl11&_). cbn beta.
  eapply runs_bind; [by apply str_slice_spec|]. intros t12 (Ht12&Hl12&_). cbn beta.
  eapply runs_bind; [by apply str_slice_spec|]. intros t2 (Ht2&Hl2&_). cbn beta.
  eapply runs_bind; [apply compare_punctuation_two_side_spec|].
  intros [first second] (k&?&Hm1&Hm2). cbn beta iota. rewrite Hl2, Hl11, Hl12 in *.
  assert (∀ t a e i j, bytes t = cut (bytes text1) a e → same_punctuation (bytes t2) (bytes t) i j →
    i < e2 - s2 → j < e - a → same_punctuation (bytes text1) (bytes text2) (a + j) (s2 + i)) as Hsw.
  { intros t a e i j Ht (x&Hi&Hj&?) ??. rewrite Ht2, lookup_cut in Hi by done.
    rewrite Ht, lookup_cut in Hj by done. by exists x. }
  eapply runs_bind; [eapply mark_ranges_swapped_spec; [|exact Hm1|exact Hb|lia|lia]|].
  { intros i j ?? HE. eapply (Hsw t11); [done..|lia|done]. }
  intros b1 (?&?&?). cbn beta.
  eapply runs_mono; [eapply mark_ranges_swapped_spec; [|exact Hm2|done|lia|lia]|].
  - intros i j ?? HE. by eapply (Hsw t12).
  - intros b' (?&?&?). split_and!; [done|lia|lia].
Qed.

(** The matcher between two pairs of words: the gap after the last pair waits. *)
Definition waiting (q1 q2 : nat) (self : PunctuationMatcher) : Prop :=
  pm_last self = Some (gap_range q1 q2) ∧
  builder_to (edge_l words1 shift1 q1) (edge_l words2 shift2 q2) (builder self) ∧
  q1 ≤ length words1 ∧ q2 ≤ length words2.

Lemma gap_range_ok q1 q2 :
  q1 ≤ length words1 → q2 ≤ length words2 →
  on_boundaries text1 text2 (gap_range q1 q2) ∧
  start1 (gap_range q1 q2) ≤ end1 (gap_range q1 q2) ∧
  start2 (gap_range q1 q2) ≤ end2 (gap_range q1 q2).
Proof.
  intros H1 H2. destruct (edges_ok _ _ _ Hw1 q1 H1) as (?&?&?), (edges_ok _ _ _ Hw2 q2 H2) as (?&?&?).
  unfold on_boundaries. by split_and!.
Qed.

Lemma match_backward_spec self q1 q2 i j :
  waiting q1 q2 self → q1 ≤ i → q2 ≤ j → i ≤ length words1 → j ≤ length words2 →
  runs (match_backward text1 text2 self (gap_range i j))
    (builder_to (edge_r text1 words1 shift1 i) (edge_r text2 words2 shift2 j)).
Proof.
  intros (Hlast&Hb&?&?) ????. unfold match_backward. rewrite Hlast.
  destruct (gap_range_ok q1 q2) as (HF&?&?); [done..|].
  destruct (gap_range_ok i j) as (HR&?&?); [done..|].
  pose proof HF as (?&?&?&?). pose proof HR as (?&?&?&?).
  pose proof (edges_lt _ _ _ Hw1 q1 i) as Hlt1. pose proof (edges_lt _ _ _ Hw2 q2 j) as Hlt2.
  cbn [gap_range start1 end1 start2 end2] in *.
  destruct (decide (q1 = i)) as [<-|Hne1], (decide (q2 = j)) as [<-|Hne2].
  - rewrite !Nat.eqb_refl. cbn [andb]. by apply match_range_spec.
  - specialize (Hlt2 ltac:(lia) ltac:(lia)). rewrite Nat.eqb_refl, Nat.ltb_irrefl.
    rewrite (proj2 (Nat.eqb_neq _ _)) by lia. cbn [andb].
    unfold match_complex_range. cbn [gap_range start1 end1 start2 end2].
    rewrite !Nat.eqb_refl. cbn [andb]. apply match_complex_range_left_spec; (done || lia).
  - specialize (Hlt1 ltac:(lia) ltac:(lia)). rewrite Nat.eqb_refl, Nat.ltb_irrefl.
    rewrite (proj2 (Nat.eqb_neq (edge_l words1 shift1 q1) _)) by lia. rewrite !andb_false_r. cbn [andb].
    unfold match_complex_range. cbn [gap_range start1 end1 start2 end2].
    rewrite (proj2 (Nat.eqb_neq (edge_l words1 shift1 q1) _)) by lia.
    rewrite !Nat.eqb_refl. cbn [andb]. apply match_complex_range_right_spec; (done || lia).
  - specialize (Hlt1 ltac:(lia) ltac:(lia)). specialize (Hlt2 ltac:(lia) ltac:(lia)).
    rewrite (proj2 (Nat.eqb_neq _ _)) by lia. rewrite !(proj2 (Nat.ltb_lt _ _)) by lia. cbn [andb].
    eapply runs_bind; [by apply match_range_spec|]. intros b' Hb'.
    apply (match_range_spec b' (gap_range i j)); [|done..].
    eapply builder_to_mono; [exact Hb'|cbn [gap_range start1 end1 start2 end2]; lia..].
Qed.

Lemma match_backward_at_spec self q1 q2 i j :
  waiting q1 q2 self → q1 ≤ i → q2 ≤ j → i ≤ length words1 → j ≤ length words2 →
  runs (match_backward_at text1 text2 words1 words2 shift1 shift2 self i j) (λ self',
    pm_last self' = None ∧
    builder_to (edge_r text1 words1 shift1 i) (edge_r text2 words2 shift2 j) (builder self')).
Proof.
  intros Hwait ????. unfold match_backward_at, start_offset1, start_offset2, end_offset1, end_offset2.
  assert (match i with O => Some 0 | S index => w ← words1 !! index; checked_sub (InlineChunk.end_ w) shift1 end
    = Some (edge_l words1 shift1 i)) as ->.
  { destruct i; [done|]. apply (end_of_word text1); [done|lia]. }
  assert (match j with O => Some 0 | S index => w ← words2 !! index; checked_sub (InlineChunk.end_ w) shift2 end
    = Some (edge_l words2 shift2 j)) as ->.
  { destruct j; [done|]. apply (end_of_word text2); [done|lia]. }
  rewrite !gap_end by done. cbn [mbind option_bind].
  destruct (gap_range_ok i j) as (_&?&?); [done..|].
  rewrite range_new_some by done. cbn [mbind option_bind].
  eapply runs_bind; [by apply (match_backward_spec self q1 q2)|]. intros b Hb. done.
Qed.

(** The words before [q] are a prefix that [index] says is done. *)
Definition done_words (index : option nat) : nat :=
  match index with None => 0 | Some index => index + 1 end.

Lemma match_forward_at_spec self index1 index2 :
  pm_last self = None → done_words index1 ≤ length words1 → done_words index2 ≤ length words2 →
  match_forward_at text1 text2 words1 words2 shift1 shift2 self index1 index2 =
    Some (mkMatcher (builder self) (Some (gap_range (done_words index1) (done_words index2)))).
Proof.
  intros Hlast H1 H2.
  unfold match_forward_at, start_offset1, start_offset2, end_offset1, end_offset2.
  fold (done_words index1). fold (done_words index2).
  assert (match index1 with None => Some 0 | Some index => w ← words1 !! index; checked_sub (InlineChunk.end_ w) shift1 end
    = Some (edge_l words1 shift1 (done_words index1))) as ->.
  { destruct index1; [|done]. simpl in *. rewrite Nat.add_1_r in *.
    apply (end_of_word text1); [done|lia]. }
  assert (match index2 with None => Some 0 | Some index => w ← words2 !! index; checked_sub (InlineChunk.end_ w) shift2 end
    = Some (edge_l words2 shift2 (done_words index2))) as ->.
  { destruct index2; [|done]. simpl in *. rewrite Nat.add_1_r in *.
    apply (end_of_word text2); [done|lia]. }
  rewrite !gap_end by done. cbn [mbind option_bind]. rewrite Hlast. simpl.
  destruct (gap_range_ok (done_words index1) (done_words index2)) as (_&?&?); [done..|].
  by rewrite range_new_some by done.
Qed.

Lemma match_pair_spec self q1 q2 i j :
  word_eq text1 text2 words1 words2 shift1 shift2 i j → q1 ≤ i → q2 ≤ j →
  waiting q1 q2 self →
  runs (match_pair text1 text2 words1 words2 shift1 shift2 i j self) (waiting (i + 1) (j + 1)).
Proof.
  intros (w1&w2&Hl1&Hl2&Hcut) ?? Hwait. unfold match_pair, start_offset1, start_offset2, end_offset1, end_offset2.
  pose proof (lookup_lt_Some _ _ _ Hl1). pose proof (lookup_lt_Some _ _ _ Hl2).
  rewrite (start_of_word _ _ _ Hw1), (start_of_word _ _ _ Hw2), (end_of_word _ _ _ Hw1),
    (end_of_word _ _ _ Hw2) by done.
  cbn [mbind option_bind].
  eapply runs_bind; [apply (match_backward_at_spec self q1 q2); [done..|lia|lia]|].
  intros self' (Hlast&Hb&Hp1&Hp2). cbn beta.
  destruct (edges_ok _ _ _ Hw1 i ltac:(lia)) as (_&_&?), (edges_ok _ _ _ Hw2 j ltac:(lia)) as (_&_&?).
  destruct (edges_ok _ _ _ Hw1 (S i) ltac:(lia)) as (_&Hb1&_), (edges_ok _ _ _ Hw2 (S j) ltac:(lia)) as (_&Hb2&_).
  pose proof (edges_lt _ _ _ Hw1 i (S i) ltac:(lia) ltac:(lia)).
  pose proof (edges_lt _ _ _ Hw2 j (S j) ltac:(lia) ltac:(lia)).
  eapply runs_bind; [apply byte_builder_mark; [done..| |]|].
  - pose proof (boundary_le _ _ Hb1). pose proof (boundary_le _ _ Hb2). unfold byte_len in *.
    apply cut_gap; [lia..|]. unfold edge_l, edge_r in *. by rewrite Hl1, Hl2 in *.
  - unfold on_boundaries. by split_and!.
  - intros b (?&?&?). cbn beta.
    rewrite match_forward_at_spec by (cbn [pm_last done_words]; (done || lia)).
    unfold waiting, builder_to. simpl. rewrite !Nat.add_1_r. split_and!; (done || lia).
Qed.

(** The matcher returns a byte script on character boundaries. *)
Lemma match_adjustment_delimiters_spec changes :
  changes_ok (word_eq text1 text2 words1 words2 shift1 shift2) (length words1) (length words2) changes →
  runs (match_adjustment_delimiters text1 text2 words1 words2 shift1 shift2 changes) (λ c,
    changes_ok (same_byte (bytes text1) (bytes text2)) (byte_len text1) (byte_len text2) c ∧
    separated (Changes.changed c) ∧ Forall (on_boundaries text1 text2) (Changes.changed c)).
Proof.
  intros Hc. unfold match_adjustment_delimiters, build.
  rewrite match_forward_at_spec by (simpl; (done || lia)). cbn [mbind option_bind].
  eapply runs_bind; [by apply unchanged_spec, Hc|]. intros us Hm. cbn beta.
  eapply runs_bind; [eapply (runs_for_each_pair _ us 0 0 _ _ _ waiting); [|exact Hm|]|].
  - intros. by eapply match_pair_spec.
  - unfold waiting, builder_to. simpl. split_and!; try done; try lia. apply byte_builder_new.
  - intros self (q1&q2&?&?&Hwait). cbn beta.
    eapply runs_bind; [apply (match_backward_at_spec self q1 q2); [done..|lia|lia]|].
    intros self' (_&Hb&_&_). cbn beta. by apply byte_builder_finish.
Qed.
End matcher.

(** * paneflow-textdiff: correctness of the whitespace adjustment *)

(** ** Scripts up to whitespace *)

(** The bytes that are not whitespace. *)
Definition solid (l : list N) : list N := filter (λ b, is_whitespace_byte b = false) l.

Lemma solid_app l1 l2 : solid (l1 ++ l2) = solid l1 ++ solid l2.
Proof. apply filter_app. Qed.

(** All bytes of [b] from [i] up to [j] are whitespace. *)
Definition blank (b : list N) (i j : nat) : Prop :=
  ∀ k, i ≤ k → k < j → ∃ x, b !! k = Some x ∧ is_whitespace_byte x = true.

Lemma blank_empty b i : blank b i i.
Proof. intros k ??. lia. Qed.

Lemma solid_blank b i j : blank b i j → solid (cut b i j) = [].
Proof.
  intros Hb. unfold solid.
  assert (Forall (λ x, is_whitespace_byte x = true) (cut b i j)) as Hall.
  { apply Forall_lookup. intros k x Hx. unfold cut in Hx.
    destruct (decide (k < j - i)); [|by rewrite lookup_take_ge in Hx by lia].
    rewrite lookup_take_lt, lookup_drop in Hx by done.
    destruct (Hb (i + k)) as (y&?&?); [lia..|]. by simplify_eq. }
  induction Hall as [|x l Hx _ IH]; [done|]. rewrite filter_cons_False; [done|congruence].
Qed.

(** The bytes other than whitespace from [(p1, p2)] up to [(q1, q2)] are the same. *)
Definition spaced_gap (b1 b2 : list N) (p1 p2 q1 q2 : nat) : Prop :=
  p1 ≤ q1 ∧ p2 ≤ q2 ∧ solid (cut b1 p1 q1) = solid (cut b2 p2 q2).

Lemma spaced_gap_app b1 b2 p1 p2 q1 q2 r1 r2 :
  spaced_gap b1 b2 p1 p2 q1 q2 → spaced_gap b1 b2 q1 q2 r1 r2 → spaced_gap b1 b2 p1 p2 r1 r2.
Proof.
  intros (?&?&Ha) (?&?&Hb). split_and!; [lia..|].
  by rewrite <- (cut_app b1 p1 q1 r1), <- (cut_app b2 p2 q2 r2), !solid_app, Ha, Hb by done.
Qed.

Lemma spaced_gap_refl b1 b2 p1 p2 : spaced_gap b1 b2 p1 p2 p1 p2.
Proof. split_and!; [done..|]. by rewrite !cut_nil. Qed.

Lemma spaced_gap_blank b1 b2 p1 p2 q1 q2 :
  p1 ≤ q1 → p2 ≤ q2 → blank b1 p1 q1 → blank b2 p2 q2 → spaced_gap b1 b2 p1 p2 q1 q2.
Proof. intros. split_and!; [done..|]. by rewrite !solid_blank. Qed.

Lemma gap_spaced b1 b2 p1 p2 q1 q2 :
  gap (same_byte b1 b2) p1 p2 q1 q2 → spaced_gap b1 b2 p1 p2 q1 q2.
Proof. intros Hg. pose proof Hg as (?&?&_&_). split_and!; [done..|]. by rewrite (gap_cut _ _ _ _ _ _ Hg). Qed.

(** Edit scripts for any relation between the unchanged parts. *)
Fixpoint gap_script (G : nat → nat → nat → nat → Prop) (p1 p2 : nat) (rs : list Range)
    (l1 l2 : nat) : Prop :=
  match rs with
  | [] => G p1 p2 l1 l2
  | r :: rs =>
      G p1 p2 (start1 r) (start2 r) ∧ start1 r ≤ end1 r ∧ start2 r ≤ end2 r ∧
      gap_script G (end1 r) (end2 r) rs l1 l2
  end.

Lemma gap_script_mono (G G' : nat → nat → nat → nat → Prop) p1 p2 rs l1 l2 :
  (∀ a b c d, G a b c d → G' a b c d) →
  gap_script G p1 p2 rs l1 l2 → gap_script G' p1 p2 rs l1 l2.
Proof.
  intros HG. revert p1 p2. induction rs as [|r rs IH]; intros p1 p2; simpl; [apply HG|].
  intros (?&?&?&?). split_and!; auto.
Qed.

Lemma script_gap_script E p1 p2 rs l1 l2 :
  script E p1 p2 rs l1 l2 ↔ gap_script (gap E) p1 p2 rs l1 l2.
Proof.
  revert p1 p2. induction rs as [|r rs IH]; intros p1 p2; simpl; [done|]. by rewrite IH.
Qed.

(** Replacing the ranges of a script up to whitespace gives the second text up
    to whitespace. *)
Lemma patch_spaced b1 b2 p1 p2 rs :
  gap_script (spaced_gap b1 b2) p1 p2 rs (length b1) (length b2) →
  solid (patch p1 b1 b2 rs) = solid (drop p2 b2).
Proof.
  revert p1 p2. induction rs as [|r rs IH]; intros p1 p2; simpl.
  - intros (?&?&Heq). unfold cut in Heq. by rewrite !take_ge in Heq by (rewrite length_drop; lia).
  - intros ((?&?&Heq)&?&?&Hs). rewrite !solid_app, (IH _ _ Hs).
    change (take (start1 r - p1) (drop p1 b1)) with (cut b1 p1 (start1 r)).
    rewrite Heq, <- !solid_app. unfold cut. by rewrite !take_drop_app by done.
Qed.

(** ** Refining the ranges of a script *)

Definition refined (G : nat → nat → nat → nat → Prop) (Q : Range → Prop) (r : Range)
    (o : option Range) : Prop :=
  match o with
  | Some x => G (start1 r) (start2 r) (start1 x) (start2 x) ∧ start1 x ≤ end1 x ∧
      start2 x ≤ end2 x ∧ G (end1 x) (end2 x) (end1 r) (end2 r) ∧ Q x
  | None => G (start1 r) (start2 r) (end1 r) (end2 r)
  end.

Section refine.
Context (G : nat → nat → nat → nat → Prop).
Context (G_app : ∀ p1 p2 q1 q2 r1 r2, G p1 p2 q1 q2 → G q1 q2 r1 r2 → G p1 p2 r1 r2).

Lemma gap_script_before p1 p2 q1 q2 rs l1 l2 :
  G p1 p2 q1 q2 → gap_script G q1 q2 rs l1 l2 → gap_script G p1 p2 rs l1 l2.
Proof using G_app. destruct rs; simpl; [eauto|]. intros ? (?&?&?&?). split_and!; eauto. Qed.

Lemma gap_script_refine (P Q : Range → Prop) (f : Range → option (option Range)) rs p1 p2 l1 l2 :
  (∀ r, P r → start1 r ≤ end1 r → start2 r ≤ end2 r → runs (f r) (refined G Q r)) →
  gap_script G p1 p2 rs l1 l2 → Forall P rs →
  runs (mapM f rs) (λ os, gap_script G p1 p2 (omap id os) l1 l2 ∧ Forall Q (omap id os)).
Proof using G_app.
  intros Hf. revert p1 p2. induction rs as [|r rs IH]; intros p1 p2; simpl; [by split|].
  intros (?&?&?&Hs) [Hr Hrs]%Forall_cons.
  eapply runs_bind; [by apply Hf|]. intros o Ho. cbn beta.
  eapply runs_bind; [by apply IH|]. intros os (Hos&HQ). cbn beta. simpl.
  destruct o as [x|]; simpl in *.
  - destruct Ho as (?&?&?&?&?). split; [|by constructor]. split_and!; [by eapply G_app|done..|].
    by eapply gap_script_before.
  - split; [|done]. eapply gap_script_before; [|done]. by eapply G_app.
Qed.
End refine.

(** A pass that filters the empty ranges afterwards. *)
Definition drop_empty (x : Range) : option Range := if Range.is_empty x then None else Some x.

Lemma filter_drop_empty (xs : list Range) :
  filter (λ x, Range.is_empty x = false) xs = omap id (drop_empty <$> xs).
Proof.
  induction xs as [|x xs IH]; [done|]. rewrite fmap_cons. unfold drop_empty at 1. simpl.
  destruct (Range.is_empty x) eqn:Hx; simpl.
  - by rewrite filter_cons_False by congruence.
  - by rewrite filter_cons_True, IH.
Qed.

Lemma mapM_then {A B C} (f : A → option B) (g : B → C) (l : list A) (Q : list C → Prop) :
  runs (mapM (λ x, y ← f x; Some (g y)) l) Q → runs (mapM f l) (λ ys : list B, Q (g <$> ys)).
Proof.
  assert (∀ l', mapM (λ x, y ← f x; Some (g y)) l = Some l' → ∃ ys : list B, mapM f l = Some ys ∧ l' = g <$> ys)
    as Hall.
  { induction l as [|x l IH]; intros l'; simpl; [intros [= <-]; by exists []|].
    destruct (f x) as [y|]; simpl; [|done]. intros Hm. apply bind_Some in Hm as (zs&Hzs&[= <-]).
    destruct (IH _ Hzs) as (ys&->&->). simpl. by exists (y :: ys). }
  intros (l'&Hl&HQ)%runs_some. destruct (Hall _ Hl) as (ys&->&->). done.
Qed.

(** ** Blank borders *)

Lemma boundary_after_blank text s s' :
  char_boundary text s → s ≤ s' → blank (bytes text) s s' → char_boundary text s'.
Proof.
  intros ?? Hb. destruct (decide (s = s')) as [->|]; [done|].
  destruct (Hb (s' - 1)) as (x&Hx&Hw); [lia..|].
  destruct (ascii_boundary _ _ _ Hx (whitespace_ascii _ Hw)). by replace s' with (S (s' - 1)) by lia.
Qed.

Lemma boundary_before_blank text e e' :
  char_boundary text e → e' ≤ e → blank (bytes text) e' e → char_boundary text e'.
Proof.
  intros ?? Hb. destruct (decide (e = e')) as [->|]; [done|].
  destruct (Hb e') as (x&Hx&Hw); [lia..|].
  by destruct (ascii_boundary _ _ _ Hx (whitespace_ascii _ Hw)).
Qed.

Lemma blank_eq_gap b1 b2 p1 p2 q1 q2 :
  gap (@item_eq N blank_eq b1 b2) p1 p2 q1 q2 →
  gap (same_byte b1 b2) p1 p2 q1 q2 ∧ blank b1 p1 q1 ∧ blank b2 p2 q2.
Proof.
  intros Hg.
  assert (∀ i j, @item_eq N blank_eq b1 b2 i j →
    ∃ x, b1 !! i = Some x ∧ b2 !! j = Some x ∧ is_whitespace_byte x = true) as Hi.
  { intros i j (a&b&?&?&[Hab%N.eqb_eq ?]%andb_prop). subst. by exists b. }
  pose proof Hg as (?&?&?&Hall). split_and!.
  - eapply gap_mono, Hg. intros i j ???? (x&?&?&_)%Hi. by exists x.
  - intros k ??. destruct (Hi _ _ (Hall (k - p1) ltac:(lia))) as (x&Hx&_&?).
    replace (p1 + (k - p1)) with k in Hx by lia. by exists x.
  - intros k ??. destruct (Hi _ _ (Hall (k - p2) ltac:(lia))) as (x&_&Hx&?).
    replace (p2 + (k - p2)) with k in Hx by lia. by exists x.
Qed.

Lemma trim_start_spec b s e :
  s ≤ e → e ≤ length b → runs (trim_start b s e) (λ s', s ≤ s' ∧ s' ≤ e ∧ blank b s s').
Proof.
  intros ??. unfold trim_start.
  eapply (runs_bind _ _ (λ n, s + n ≤ e ∧ blank b s (s + n))).
  - apply (runs_count_while _ _ _ (λ k, ∃ x, b !! (s + k) = Some x ∧ is_whitespace_byte x = true)
             (e - s)); [lia..|].
    intros n _ Hn Hpos.
    assert (blank b s (s + n)) as Hb.
    { intros k ??. destruct (Hpos (k - s)) as (x&Hx&?); [lia..|].
      replace (s + (k - s)) with k in Hx by lia. by exists x. }
    unfold and_then. destruct (Nat.ltb_spec (s + n) e).
    + eapply runs_bind; [apply runs_lookup; [lia|]; intros x Hx; exact Hx|].
      intros x Hx. simpl in *. destruct (is_whitespace_byte x) eqn:Hw.
      * split; [lia|]. by exists x.
      * intros _. split; [lia|done].
    + simpl. intros _. split; [lia|done].
  - intros n (?&?). simpl. split_and!; [lia..|done].
Qed.

Lemma trim_end_spec b s e :
  s ≤ e → e ≤ length b → runs (trim_end b s e) (λ e', s ≤ e' ∧ e' ≤ e ∧ blank b e' e).
Proof.
  intros ??. unfold trim_end.
  eapply (runs_bind _ _ (λ n, s + n ≤ e ∧ blank b (e - n) e)).
  - apply (runs_count_while _ _ _ (λ k, ∃ x, b !! (e - k - 1) = Some x ∧ is_whitespace_byte x = true)
             (e - s)); [lia..|].
    intros n _ Hn Hpos.
    assert (blank b (e - n) e) as Hb.
    { intros k ??. destruct (Hpos (e - k - 1)) as (x&Hx&?); [lia..|].
      replace (e - (e - k - 1) - 1) with k in Hx by lia. by exists x. }
    unfold and_then. destruct (Nat.ltb_spec s (e - n)).
    + eapply runs_bind; [apply runs_lookup; [lia|]; intros x Hx; exact Hx|].
      intros x Hx. simpl in *. destruct (is_whitespace_byte x) eqn:Hw.
      * split; [lia|]. by exists x.
      * intros _. split; [lia|done].
    + simpl. intros _. split; [lia|done].
  - intros n (?&?). simpl. split_and!; [lia..|done].
Qed.

(** ** The corrections *)

Section corrections.
Context (text1 text2 : str).
#[local] Notation b1 := (bytes text1).
#[local] Notation b2 := (bytes text2).

(** What the changed ranges of every policy satisfy. *)
Definition kept (x : Range) : Prop := on_boundaries text1 text2 x ∧ Range.is_empty x = false.

Lemma blank_on_boundaries r x :
  on_boundaries text1 text2 r → start1 r ≤ start1 x → start2 r ≤ start2 x →
  end1 x ≤ end1 r → end2 x ≤ end2 r →
  blank b1 (start1 r) (start1 x) → blank b2 (start2 r) (start2 x) →
  blank b1 (end1 x) (end1 r) → blank b2 (end2 x) (end2 r) →
  on_boundaries text1 text2 x.
Proof.
  intros (?&?&?&?) ????????. unfold on_boundaries.
  split_and!; eauto using boundary_after_blank, boundary_before_blank.
Qed.

Lemma default_range_spec r :
  on_boundaries text1 text2 r → start1 r ≤ end1 r → start2 r ≤ end2 r →
  runs (x ← default_range text1 text2 r; Some (drop_empty x)) (refined (gap (same_byte b1 b2)) kept r).
Proof.
  intros Hr ??. pose proof Hr as (?&He1%boundary_le&?&He2%boundary_le). unfold byte_len in He1, He2.
  unfold default_range.
  change (expand_whitespaces_backward b1 b2) with (@expand_backward N blank_eq b1 b2).
  change (expand_whitespaces_forward b1 b2) with (@expand_forward N blank_eq b1 b2).
  eapply (runs_bind _ _ (λ x, start1 x ≤ end1 x ∧ start2 x ≤ end2 x ∧
    gap (@item_eq N blank_eq b1 b2) (start1 r) (start2 r) (start1 x) (start2 x) ∧
    gap (@item_eq N blank_eq b1 b2) (end1 x) (end2 x) (end1 r) (end2 r))).
  - eapply runs_bind; [by apply expand_backward_spec; [apply blank_comparable|..]|]. intros n (?&?&Hb&_). cbn beta.
    rewrite !checked_sub_some by lia. cbn [mbind option_bind].
    eapply runs_bind; [apply expand_forward_spec; [apply blank_comparable|lia..]|]. intros m (?&?&Hf&_). cbn beta.
    apply runs_range_new; simpl; [lia..|]. split_and!; [lia|lia| |].
    + unfold gap. split_and!; [lia..|]. intros i Hi. apply Hf. lia.
    + unfold gap. split_and!; [lia..|]. intros i Hi.
      replace (end1 r - n + i) with (end1 r - (n - i - 1) - 1) by lia.
      replace (end2 r - n + i) with (end2 r - (n - i - 1) - 1) by lia. apply Hb. lia.
  - intros x (?&?&Hg1&Hg2).
    pose proof Hg1 as (?&?&_&_). pose proof Hg2 as (?&?&_&_).
    apply blank_eq_gap in Hg1 as (Hg1&?&?), Hg2 as (Hg2&?&?). simpl. unfold drop_empty.
    destruct (Range.is_empty x) eqn:Hx; simpl.
    + apply is_empty_true in Hx as [Hx1 Hx2]. rewrite Hx1, Hx2 in Hg1. by eapply gap_app.
    + split_and!; try done. split; [by eapply blank_on_boundaries|done].
Qed.

Lemma default_correction_spec c :
  script (same_byte b1 b2) 0 0 (Changes.changed c) (byte_len text1) (byte_len text2) →
  Forall (on_boundaries text1 text2) (Changes.changed c) →
  runs (default_correction text1 text2 c) (λ c',
    changes_ok (same_byte b1 b2) (byte_len text1) (byte_len text2) c' ∧
    Forall kept (Changes.changed c')).
Proof.
  intros Hs%script_gap_script Hb. unfold default_correction.
  eapply runs_bind; [apply (mapM_then _ drop_empty);
    apply (gap_script_refine _ (gap_app _) _ kept _ _ _ _ _ _ default_range_spec Hs Hb)|].
  intros xs (Hs'&Hk). cbn [runs]. rewrite filter_drop_empty. unfold changes_ok. simpl.
  split_and!; [done|done|by apply script_gap_script|done].
Qed.

Lemma keep_unequal_spec policy r x :
  on_boundaries text1 text2 x → start1 x ≤ end1 x → start2 x ≤ end2 x →
  spaced_gap b1 b2 (start1 r) (start2 r) (start1 x) (start2 x) →
  spaced_gap b1 b2 (end1 x) (end2 x) (end1 r) (end2 r) →
  runs (keep_unequal text1 text2 policy x) (refined (spaced_gap b1 b2) kept r).
Proof.
  intros Hx ?? Hg1 Hg2. unfold keep_unequal. destruct (Range.is_empty x) eqn:He.
  - apply is_empty_true in He as [Hx1 Hx2]. rewrite Hx1, Hx2 in Hg1. simpl.
    by eapply spaced_gap_app.
  - pose proof Hx as (?&?&?&?).
    eapply runs_bind; [by apply is_equals_range_spec|]. intros equal (s1&s2&Hs1&Hs2&Heq). cbn [runs].
    destruct equal; simpl; [|by split_and!].
    eapply spaced_gap_app; [exact Hg1|]. eapply spaced_gap_app; [|exact Hg2].
    split_and!; [done..|]. rewrite <- Hs1, <- Hs2.
    symmetry in Heq. apply is_equals_iw, is_equals_spec in Heq. by injection Heq.
Qed.

Lemma ignore_spaces_range_spec r :
  on_boundaries text1 text2 r → start1 r ≤ end1 r → start2 r ≤ end2 r →
  runs (ignore_spaces_range text1 text2 r) (refined (spaced_gap b1 b2) kept r).
Proof.
  intros Hr ??. pose proof Hr as (?&He1%boundary_le&?&He2%boundary_le). unfold byte_len in He1, He2.
  unfold ignore_spaces_range. rewrite expand_whitespaces_is_expand.
  eapply runs_bind; [by apply expand_spec; [apply blank_comparable|..]|]. intros x (Hg1&?&?&Hg2&_). cbn beta.
  pose proof Hg1 as (?&?&_&_). pose proof Hg2 as (?&?&_&_).
  apply blank_eq_gap in Hg1 as (Hg1&?&?), Hg2 as (Hg2&?&?).
  assert (on_boundaries text1 text2 x) as Hx by (by eapply blank_on_boundaries).
  eapply (runs_bind _ _ (λ y, start1 x ≤ start1 y ∧ start1 y ≤ end1 y ∧ end1 y ≤ end1 x ∧
    start2 x ≤ start2 y ∧ start2 y ≤ end2 y ∧ end2 y ≤ end2 x ∧
    blank b1 (start1 x) (start1 y) ∧ blank b1 (end1 y) (end1 x) ∧
    blank b2 (start2 x) (start2 y) ∧ blank b2 (end2 y) (end2 x))).
  - unfold trim_range.
    eapply runs_bind; [apply trim_start_spec; lia|]. intros s1 (?&?&?). cbn beta.
    eapply runs_bind; [apply trim_end_spec; lia|]. intros e1 (?&?&?). cbn beta.
    eapply runs_bind; [apply trim_start_spec; lia|]. intros s2 (?&?&?). cbn beta.
    eapply runs_bind; [apply trim_end_spec; lia|]. intros e2 (?&?&?). cbn beta.
    apply runs_range_new; simpl; [lia..|]. by split_and!.
  - intros y (?&?&?&?&?&?&?&?&?&?). cbn beta.
    apply keep_unequal_spec; [|done|done| |].
    + eapply (blank_on_boundaries x y); done.
    + eapply spaced_gap_app; [by apply gap_spaced|]. by apply spaced_gap_blank.
    + eapply spaced_gap_app; [by apply spaced_gap_blank|]. by apply gap_spaced.
Qed.

(** ** Trimming at the edges of lines *)

Lemma only_spaces_before_runs b i : i ≤ length b → runs (only_spaces_before b i) (λ _, True).
Proof.
  induction i as [|i IH]; intros Hi; simpl; [done|].
  destruct (lookup_lt_is_Some_2 b i) as [x Hx]; [lia|]. rewrite Hx. simpl.
  repeat case_match; try done. apply IH. lia.
Qed.

Lemma is_leading_trailing_space_runs text o :
  runs (is_leading_trailing_space text o) (λ _, True).
Proof.
  destruct o as [o|]; [|done]. unfold is_leading_trailing_space, is_leading_space.
  eapply (runs_bind _ _ (λ _, True)); [|done].
  destruct (bytes text !! o) as [x|] eqn:Hx; [|done]. apply lookup_lt_Some in Hx.
  case_match; [done|]. apply only_spaces_before_runs. lia.
Qed.

Lemma trim_side_spec text s e :
  s ≤ e → e ≤ byte_len text →
  runs (trim_side text s e) (λ '(s', e'), s ≤ s' ∧ s' ≤ e' ∧ e' ≤ e ∧
    blank (bytes text) s s' ∧ blank (bytes text) e' e).
Proof.
  intros ? He. unfold byte_len in He. unfold trim_side.
  eapply runs_bind; [apply is_leading_trailing_space_runs|]. intros lead _. cbn beta.
  eapply (runs_bind _ _ (λ s', s ≤ s' ∧ s' ≤ e ∧ blank (bytes text) s s')).
  { destruct lead; [by apply trim_start_spec|]. simpl. split_and!; [done..|apply blank_empty]. }
  intros s' (?&?&?). cbn beta.
  eapply runs_bind; [apply is_leading_trailing_space_runs|]. intros trail _. cbn beta.
  eapply (runs_bind _ _ (λ e', s' ≤ e' ∧ e' ≤ e ∧ blank (bytes text) e' e)).
  { destruct trail; [by apply trim_end_spec|]. simpl. split_and!; [done..|apply blank_empty]. }
  intros e' (?&?&?). simpl. by split_and!.
Qed.

Lemma trim_spaces_range_spec r :
  on_boundaries text1 text2 r → start1 r ≤ end1 r → start2 r ≤ end2 r →
  runs (trim_spaces_range text1 text2 r) (refined (spaced_gap b1 b2) kept r).
Proof.
  intros Hr ??. pose proof Hr as (?&He1%boundary_le&?&He2%boundary_le).
  unfold trim_spaces_range.
  eapply runs_bind; [by apply trim_side_spec|]. intros [s1 e1] (?&?&?&?&?). cbn beta iota.
  eapply runs_bind; [by apply trim_side_spec|]. intros [s2 e2] (?&?&?&?&?). cbn beta iota.
  rewrite range_new_some by done. cbn [mbind option_bind].
  apply keep_unequal_spec; [|done|done|by apply spaced_gap_blank|by apply spaced_gap_blank].
  by eapply (blank_on_boundaries r).
Qed.

(** The ranges of [c] are an edit script for [policy]. *)
Definition policy_gap (policy : ComparisonPolicy) : nat → nat → nat → nat → Prop :=
  match policy with Default => gap (same_byte b1 b2) | _ => spaced_gap b1 b2 end.

Definition byte_script (policy : ComparisonPolicy) (c : Changes.t) : Prop :=
  gap_script (policy_gap policy) 0 0 (Changes.changed c) (byte_len text1) (byte_len text2) ∧
  Forall kept (Changes.changed c).

Lemma spaced_pass f c :
  (∀ r, on_boundaries text1 text2 r → start1 r ≤ end1 r → start2 r ≤ end2 r →
     runs (f r) (refined (spaced_gap b1 b2) kept r)) →
  script (same_byte b1 b2) 0 0 (Changes.changed c) (byte_len text1) (byte_len text2) →
  Forall (on_boundaries text1 text2) (Changes.changed c) →
  runs (changes ← mapM f (Changes.changed c);
        Some (Changes.new (omap id changes) (byte_len text1) (byte_len text2)))
    (λ c', gap_script (spaced_gap b1 b2) 0 0 (Changes.changed c') (byte_len text1) (byte_len text2) ∧
           Forall kept (Changes.changed c')).
Proof.
  intros Hf Hs%script_gap_script Hb.
  eapply runs_bind; [eapply (gap_script_refine _ (spaced_gap_app b1 b2) _ kept); [exact Hf| |exact Hb]|].
  - eapply gap_script_mono, Hs. intros *. apply gap_spaced.
  - intros os (?&?). done.
Qed.

Lemma match_adjustment_whitespaces_spec policy c :
  script (same_byte b1 b2) 0 0 (Changes.changed c) (byte_len text1) (byte_len text2) →
  Forall (on_boundaries text1 text2) (Changes.changed c) →
  runs (match_adjustment_whitespaces text1 text2 c policy) (byte_script policy).
Proof.
  intros Hs Hb. destruct policy; simpl.
  - eapply runs_mono; [by apply default_correction_spec|]. intros c' ((_&_&?)&?).
    split; [by apply script_gap_script|done].
  - eapply runs_bind; [by apply default_correction_spec|]. intros c' ((_&_&Hs')&Hk). cbn beta.
    apply spaced_pass; [apply trim_spaces_range_spec|done|].
    eapply Forall_impl; [exact Hk|]. by intros x [? _].
  - apply spaced_pass; [apply ignore_spaces_range_spec|done|done].
Qed.
End corrections.
