(* ===== verification/DiffSplitterCorrect.v ===== *)
(** * paneflow-textdiff: clipping a comparison to a block

    A corner that lies on the path of an edit script cuts it in two; clipping
    the changed ranges to the block between two such corners gives the edit
    script of the block.

    The blocks of [split_line_blocks] form a chain of corners from the start of
    both texts to their ends, and every corner lies on the path of the
    comparison. *)

From S2P Require Import Prelude DiffRange DiffText DiffChanges DiffChunks DiffUtf8 DiffWords DiffSplitter DiffInner DiffWordsCorrect DiffCorrections.

(** ** Corners on the path of a script *)

(** [(k1, k2)] can be reached between [(p1, p2)] and [(l1, l2)] by walking
    through unchanged pairs and changed ranges. *)
Fixpoint on_path (p1 p2 : nat) (rs : list Range) (l1 l2 k1 k2 : nat) : Prop :=
  match rs with
  | [] => p1 ≤ k1 ∧ k1 ≤ l1 ∧ p2 ≤ k2 ∧ k2 ≤ l2 ∧ k1 - p1 = k2 - p2
  | r :: rs =>
      (p1 ≤ k1 ∧ k1 ≤ start1 r ∧ p2 ≤ k2 ∧ k2 ≤ start2 r ∧ k1 - p1 = k2 - p2) ∨
      (start1 r ≤ k1 ∧ k1 ≤ end1 r ∧ start2 r ≤ k2 ∧ k2 ≤ end2 r) ∨
      on_path (end1 r) (end2 r) rs l1 l2 k1 k2
  end.

Lemma on_path_after E rs p1 p2 l1 l2 k1 k2 :
  script E p1 p2 rs l1 l2 → on_path p1 p2 rs l1 l2 k1 k2 →
  p1 ≤ k1 ∧ p2 ≤ k2 ∧ k1 ≤ l1 ∧ k2 ≤ l2.
Proof.
  revert p1 p2. induction rs as [|r rs IH]; intros p1 p2; simpl; [lia|].
  intros ((?&?&?&_)&?&?&Hs). pose proof (script_bounds _ _ _ _ _ _ Hs).
  intros [?|[?|Hp]]; [lia|lia|]. destruct (IH _ _ Hs Hp). lia.
Qed.

Lemma on_path_start E rs p1 p2 l1 l2 : script E p1 p2 rs l1 l2 → on_path p1 p2 rs l1 l2 p1 p2.
Proof.
  destruct rs as [|r rs]; simpl.
  - intros (?&?&?&_). lia.
  - intros ((?&?&?&_)&_). left. lia.
Qed.

Lemma on_path_end E rs p1 p2 l1 l2 : script E p1 p2 rs l1 l2 → on_path p1 p2 rs l1 l2 l1 l2.
Proof.
  revert p1 p2. induction rs as [|r rs IH]; intros p1 p2; simpl.
  - intros (?&?&?&_). lia.
  - intros (_&_&_&?). auto.
Qed.

(** Both corners of an unchanged pair are on the path. *)
Lemma script_on_path E rs p1 p2 l1 l2 :
  script E p1 p2 rs l1 l2 →
  script (λ i j, E i j ∧ on_path p1 p2 rs l1 l2 i j ∧ on_path p1 p2 rs l1 l2 (i + 1) (j + 1))
    p1 p2 rs l1 l2.
Proof.
  assert (∀ (E' : nat → nat → Prop) rs p1 p2, script E p1 p2 rs l1 l2 →
    (∀ i j, on_path p1 p2 rs l1 l2 i j → on_path p1 p2 rs l1 l2 (i + 1) (j + 1) → E i j → E' i j) →
    script E' p1 p2 rs l1 l2) as Hgen; [|intros; eapply Hgen; [done|]; naive_solver].
  clear rs p1 p2. intros E' rs. induction rs as [|r rs IH]; intros p1 p2; simpl.
  - intros (?&?&?&Hall) HE. unfold gap. split_and!; [done..|]. intros i Hi. apply HE; [lia..|].
    by apply Hall.
  - intros ((?&?&?&Hall)&?&?&Hs) HE. split_and!; [|done..|].
    + unfold gap. split_and!; [done..|]. intros i Hi. apply HE; [left; lia..|]. by apply Hall.
    + apply IH; [done|]. intros i j ??. apply HE; by right; right.
Qed.

(** ** Clipping a script to a block *)

Section clip.
Context (E : nat → nat → Prop) (l1 l2 a1 a2 b1 b2 : nat).
Context (Hab1 : a1 ≤ b1) (Hab2 : a2 ≤ b2).
#[local] Notation words := (mkRange a1 b1 a2 b2).
#[local] Notation E' := (λ i j, E (a1 + i) (a2 + j)).

Lemma clip_step r rs (Q : list Range → Prop) :
  (end1 r <? a1) || (end2 r <? a2) = false → (b1 <? start1 r) || (b2 <? start2 r) = false →
  start1 r ≤ end1 r → start2 r ≤ end2 r →
  (let x := mkRange (Nat.max (start1 r) a1 - a1) (Nat.min (end1 r) b1 - a1)
              (Nat.max (start2 r) a2 - a2) (Nat.min (end2 r) b2 - a2) in
   runs (clip_ranges rs words) (λ rest, Q (if Range.is_empty x then rest else x :: rest))) →
  runs (clip_ranges (r :: rs) words) Q.
Proof using Hab1 Hab2.
  intros H1 H2 ?? Hrest. cbn [clip_ranges start1 end1 start2 end2]. rewrite H1, H2.
  bool_to_prop. rewrite !checked_sub_some by lia. cbn [mbind option_bind].
  rewrite range_new_some by lia. cbn [mbind option_bind].
  eapply runs_bind; [exact Hrest|]. done.
Qed.

(** The ranges behind the block are dropped. *)
Lemma clip_after p1 p2 rs :
  script E p1 p2 rs l1 l2 → b1 ≤ p1 → b2 ≤ p2 → runs (clip_ranges rs words) (λ rs', rs' = []).
Proof using Hab1 Hab2.
  revert p1 p2. induction rs as [|r rs IH]; intros p1 p2; cbn [script]; [done|].
  intros ((?&?&?&_)&?&?&Hs) ??.
  destruct ((b1 <? start1 r) || (b2 <? start2 r)) eqn:Hb.
  - cbn [clip_ranges start1 end1 start2 end2]. rewrite Hb.
    rewrite !(proj2 (Nat.ltb_ge _ _)) by lia. done.
  - apply clip_step; [rewrite !(proj2 (Nat.ltb_ge _ _)) by lia; done|done..|]. cbn zeta.
    bool_to_prop. eapply runs_mono; [apply (IH _ _ Hs); lia|]. intros rest ->.
    rewrite (proj2 (is_empty_true _)); [done|]. simpl. lia.
Qed.

Lemma script_cons_opt p1 p2 q1 q2 (x : Range) rs :
  gap E' p1 p2 (start1 x) (start2 x) → start1 x ≤ end1 x → start2 x ≤ end2 x →
  script E' (end1 x) (end2 x) rs q1 q2 →
  script E' p1 p2 (if Range.is_empty x then rs else x :: rs) q1 q2.
Proof.
  intros Hg ?? Hs. destruct (Range.is_empty x) eqn:Hx; [|by split_and!].
  apply is_empty_true in Hx as [Hx1 Hx2]. rewrite Hx1, Hx2 in Hg.
  by apply (script_app _ [] _ _ _ _ _ _ _ Hg).
Qed.

Lemma gap_into p1 p2 q1 q2 :
  a1 ≤ p1 → a2 ≤ p2 → gap E p1 p2 q1 q2 → gap E' (p1 - a1) (p2 - a2) (q1 - a1) (q2 - a2).
Proof.
  intros ?? (?&?&?&Hall). unfold gap. split_and!; [lia..|]. intros i Hi.
  replace (a1 + (p1 - a1 + i)) with (p1 + i) by lia.
  replace (a2 + (p2 - a2 + i)) with (p2 + i) by lia. apply Hall. lia.
Qed.

(** The part of a gap up to a corner in it. *)
Lemma gap_to_corner p1 p2 q1 q2 k1 k2 :
  gap E p1 p2 q1 q2 → p1 ≤ k1 → k1 ≤ q1 → p2 ≤ k2 → k1 - p1 = k2 - p2 →
  gap E p1 p2 k1 k2 ∧ gap E k1 k2 q1 q2.
Proof.
  intros Hg ????. pose proof Hg as (?&?&?&_).
  pose proof (gap_sub _ _ _ _ _ 0 (k1 - p1) Hg ltac:(lia) ltac:(lia)) as Ha.
  pose proof (gap_sub _ _ _ _ _ (k1 - p1) (q1 - p1) Hg ltac:(lia) ltac:(lia)) as Hb.
  rewrite !Nat.add_0_r in Ha.
  replace (p1 + (k1 - p1)) with k1 in * by lia. replace (p2 + (k1 - p1)) with k2 in * by lia.
  replace (p1 + (q1 - p1)) with q1 in * by lia. by replace (p2 + (q1 - p1)) with q2 in * by lia.
Qed.

(** From a point of the block on. *)
Lemma clip_inside p1 p2 rs :
  script E p1 p2 rs l1 l2 → a1 ≤ p1 → a2 ≤ p2 → on_path p1 p2 rs l1 l2 b1 b2 →
  runs (clip_ranges rs words) (λ rs',
    script E' (p1 - a1) (p2 - a2) rs' (b1 - a1) (b2 - a2)).
Proof using Hab1 Hab2.
  revert p1 p2. induction rs as [|r rs IH]; intros p1 p2.
  - simpl. intros Hg ?? (?&?&?&?&?). apply gap_into; [done..|].
    by apply (gap_to_corner p1 p2 l1 l2 b1 b2).
  - intros Hs ?? Hb. pose proof Hs as (Hg&?&?&Hs'). pose proof Hg as (?&?&?&_).
    destruct Hb as [(?&?&?&?&?)|[(?&?&?&?)|Hb]].
    + destruct (gap_to_corner p1 p2 (start1 r) (start2 r) b1 b2) as [Hg1 Hg2]; [done..|].
      eapply runs_mono; [by apply (clip_after b1 b2); [split_and!; [exact Hg2|done..]|..]|].
      intros rs' ->. by apply gap_into.
    + apply clip_step; [rewrite !(proj2 (Nat.ltb_ge _ _)) by lia; done..|done|done|]. cbn zeta.
      eapply runs_mono; [apply (clip_after (end1 r) (end2 r)); [exact Hs'|done..]|].
      intros rest ->. rewrite !Nat.max_l, !Nat.min_r by lia.
      apply script_cons_opt; simpl; [by apply gap_into|lia|lia|apply gap_refl].
    + destruct (on_path_after _ _ _ _ _ _ _ _ Hs' Hb) as (?&?&_).
      apply clip_step; [rewrite !(proj2 (Nat.ltb_ge _ _)) by lia; done..|done|done|]. cbn zeta.
      eapply runs_mono; [apply (IH _ _ Hs'); [lia..|done]|].
      intros rest Hrest. rewrite !Nat.max_l, !Nat.min_l by lia.
      apply script_cons_opt; simpl; [by apply gap_into|lia|lia|done].
Qed.

(** From a point before the block on. *)
Lemma clip_before p1 p2 rs :
  script E p1 p2 rs l1 l2 → on_path p1 p2 rs l1 l2 a1 a2 → on_path p1 p2 rs l1 l2 b1 b2 →
  runs (clip_ranges rs words) (λ rs', script E' 0 0 rs' (b1 - a1) (b2 - a2)).
Proof using Hab1 Hab2.
  revert p1 p2. induction rs as [|r rs IH]; intros p1 p2.
  - simpl. intros Hg (?&?&?&?&?) (?&?&?&?&?).
    destruct (gap_to_corner p1 p2 l1 l2 a1 a2) as [_ Hg2]; [done..|].
    destruct (gap_to_corner a1 a2 l1 l2 b1 b2) as [Hg3 _]; [done|lia..|].
    apply gap_into in Hg3; [|done..]. by rewrite !Nat.sub_diag in Hg3.
  - intros Hs Ha Hb. pose proof Hs as (Hg&?&?&Hs'). pose proof Hg as (?&?&?&_).
    destruct Ha as [(?&?&?&?&?)|[(?&?&?&?)|Ha]].
    + destruct (gap_to_corner p1 p2 (start1 r) (start2 r) a1 a2) as [_ Hg2]; [done..|].
      pose proof (clip_inside a1 a2 (r :: rs)) as Hin. rewrite !Nat.sub_diag in Hin.
      apply Hin; [by split_and!|done..|].
      destruct Hb as [?|Hb]; [left; lia|by right].
    + assert (gap E' 0 0 (start1 r `max` a1 - a1) (start2 r `max` a2 - a2)) as Hz.
      { replace (start1 r `max` a1 - a1) with 0 by lia.
        replace (start2 r `max` a2 - a2) with 0 by lia. apply gap_refl. }
      destruct Hb as [(?&?&?&?&?)|[(?&?&?&?)|Hb]].
      * apply clip_step; [rewrite !(proj2 (Nat.ltb_ge _ _)) by lia; done..|done|done|]. cbn zeta.
        eapply runs_mono; [apply (clip_after (end1 r) (end2 r)); [exact Hs'|lia..]|].
        intros rest ->. apply script_cons_opt; simpl; [done|lia|lia|].
        rewrite !Nat.min_r by lia. apply gap_refl.
      * apply clip_step; [rewrite !(proj2 (Nat.ltb_ge _ _)) by lia; done..|done|done|]. cbn zeta.
        eapply runs_mono; [apply (clip_after (end1 r) (end2 r)); [exact Hs'|lia..]|].
        intros rest ->. apply script_cons_opt; simpl; [done|lia|lia|].
        rewrite !Nat.min_r by lia. apply gap_refl.
      * destruct (on_path_after _ _ _ _ _ _ _ _ Hs' Hb) as (?&?&_).
        apply clip_step; [rewrite !(proj2 (Nat.ltb_ge _ _)) by lia; done..|done|done|]. cbn zeta.
        eapply runs_mono; [apply (clip_inside _ _ _ Hs'); [lia..|done]|].
        intros rest Hrest. apply script_cons_opt; simpl; [done|lia|lia|].
        by rewrite !Nat.min_l by lia.
    + destruct (on_path_after _ _ _ _ _ _ _ _ Hs' Ha) as (?&?&_).
      assert (on_path (end1 r) (end2 r) rs l1 l2 b1 b2) as Hb'.
      { destruct Hb as [?|[?|Hb]]; [| |done]; assert (b1 = a1 ∧ b2 = a2) as [-> ->] by lia; done. }
      pose proof (IH _ _ Hs' Ha Hb') as IH'.
      destruct ((end1 r <? a1) || (end2 r <? a2)) eqn:Hskip.
      * cbn [clip_ranges start1 end1 start2 end2]. by rewrite Hskip.
      * apply clip_step; [done|rewrite !(proj2 (Nat.ltb_ge _ _)) by lia; done|done|done|]. cbn zeta.
        bool_to_prop. eapply runs_mono; [exact IH'|]. intros rest Hrest.
        rewrite (proj2 (is_empty_true _)); [done|]. simpl. lia.
Qed.
End clip.

(** * paneflow-textdiff: correctness of the splitter *)

(** A place in both texts: the words before it and its byte offsets. *)
Record Corner := mkCorner { cw1 : nat; cw2 : nat; co1 : nat; co2 : nat }.

(** The offset [o] lies between word [k - 1] and word [k]. *)
Definition between (text : str) (words : list InlineChunk) (k o : nat) : Prop :=
  k ≤ length words ∧ char_boundary text o ∧ edge_l words 0 k ≤ o ∧ o ≤ edge_r text words 0 k.

Section splitter.
Context (text1 text2 : str) (words1 words2 : list InlineChunk).
Context (Hw1 : chunks_in text1 0 0 (byte_len text1) words1).
Context (Hw2 : chunks_in text2 0 0 (byte_len text2) words2).
Context (rs : list Range).
Context (Hrs : script (word_eq text1 text2 words1 words2 0 0) 0 0 rs (length words1) (length words2)).
#[local] Notation path := (on_path 0 0 rs (length words1) (length words2)).

Definition corner_ok (c : Corner) : Prop :=
  path (cw1 c) (cw2 c) ∧ between text1 words1 (cw1 c) (co1 c) ∧ between text2 words2 (cw2 c) (co2 c).

Definition corner_le (c d : Corner) : Prop :=
  cw1 c ≤ cw1 d ∧ cw2 c ≤ cw2 d ∧ co1 c ≤ co1 d ∧ co2 c ≤ co2 d.

Definition block_of (c d : Corner) : WordBlock :=
  mkWordBlock (mkRange (cw1 c) (cw1 d) (cw2 c) (cw2 d)) (mkRange (co1 c) (co1 d) (co2 c) (co2 d)).

(** The blocks [bs] lead from corner to corner, from [c] to [d]. *)
Fixpoint chain (c : Corner) (bs : list WordBlock) (d : Corner) : Prop :=
  match bs with
  | [] => c = d
  | b :: bs => ∃ e, corner_ok e ∧ corner_le c e ∧ b = block_of c e ∧ chain e bs d
  end.

Lemma chain_snoc c bs d e :
  chain c bs d → corner_ok e → corner_le d e → chain c (bs ++ [block_of d e]) e.
Proof.
  revert c. induction bs as [|b bs IH]; intros c; simpl.
  - intros ->. exists e. by split_and!.
  - intros (f&?&?&?&?) ??. exists f. split_and!; auto.
Qed.

Definition origin : Corner := mkCorner 0 0 0 0.
Definition final : Corner :=
  mkCorner (length words1) (length words2) (byte_len text1) (byte_len text2).

Lemma between_0 text words : chunks_in text 0 0 (byte_len text) words → between text words 0 0.
Proof.
  intros Hw. destruct (edges_ok text words 0 Hw 0) as (?&?&?); [lia|].
  unfold between. split_and!; [lia|done..].
Qed.

Lemma between_len text words :
  chunks_in text 0 0 (byte_len text) words → between text words (length words) (byte_len text).
Proof.
  intros Hw. destruct (edges_ok text words 0 Hw (length words)) as (?&?&?); [lia|].
  unfold between, edge_r in *. rewrite lookup_ge_None_2 in * by lia.
  split_and!; [lia|apply boundary_len|done..].
Qed.

Lemma origin_ok : corner_ok origin.
Proof using Hw1 Hw2 Hrs.
  split_and!; [by eapply on_path_start|by apply between_0|by apply between_0].
Qed.

Lemma final_ok : corner_ok final.
Proof using Hw1 Hw2 Hrs.
  split_and!; [by eapply on_path_end|by apply between_len|by apply between_len].
Qed.

(** ** The corner of an index *)

(** The corner that the index [o] of a newline word, or of the end, stands for. *)
Definition index_at (text : str) (words : list InlineChunk) (o : option nat) (k p : nat) : Prop :=
  offset_at words text o = Some p ∧ k = word_end o (length words).

Lemma between_le text words k p k' p' :
  chunks_in text 0 0 (byte_len text) words →
  between text words k p → between text words k' p' → k < k' → p ≤ p'.
Proof.
  intros Hw (?&?&?&?) (?&?&?&?) Hk. pose proof (edges_lt _ _ _ Hw k k' Hk). lia.
Qed.

(** Indexes that are not out of order stand for corners in order. *)
Lemma index_le text words o o' k p k' p' :
  chunks_in text 0 0 (byte_len text) words →
  after o o' = false → (∀ i, o' = Some i → i ≤ length words) →
  index_at text words o k p → index_at text words o' k' p' →
  between text words k p → between text words k' p' → k ≤ k' ∧ p ≤ p'.
Proof.
  intros Hw Haft Hlen (Ho&->) (Ho'&->) Hb Hb'.
  destruct (decide (o = o')) as [<-|Hne]; [split; [done|]; by assert (p = p') as -> by congruence|].
  destruct o as [i|], o' as [j|]; simpl in Haft; try done.
  - bool_to_prop. specialize (Hlen j eq_refl). assert (i < j) by (destruct (decide (i = j)); [by subst|lia]).
    simpl in *. destruct (decide (j = length words)) as [->|].
    + rewrite !Nat.min_r, !Nat.min_l in * by lia. rewrite Nat.eqb_refl in Ho'. injection Ho' as <-.
      split; [lia|]. destruct Hb as (_&?&_&_). by apply boundary_le.
    + rewrite !Nat.min_l in * by lia. split; [lia|].
      eapply (between_le text words (i + 1) p (j + 1)); [done..|lia].
  - simpl in *. injection Ho as <-. lia.
Qed.

(** ** Chunks *)

Lemma words_inside_runs c d :
  corner_ok c → corner_ok d → corner_le c d →
  runs (words_inside words1 words2 (block_words (block_of c d))) (λ _, True).
Proof.
  intros (_&(?&_)&(?&_)) (_&(?&_)&(?&_)) (?&?&_). unfold words_inside. simpl.
  by rewrite !slice_some by done.
Qed.

Lemma create_chunk_spec c d s1 s2 e1 e2 eq :
  corner_ok c → corner_ok d → corner_le c d →
  index_at text1 words1 s1 (cw1 c) (co1 c) → index_at text2 words2 s2 (cw2 c) (co2 c) →
  (∀ i, s1 = Some i → i < length words1) → (∀ i, s2 = Some i → i < length words2) →
  index_at text1 words1 e1 (cw1 d) (co1 d) → index_at text2 words2 e2 (cw2 d) (co2 d) →
  runs (create_chunk text1 text2 words1 words2 s1 s2 e1 e2 eq) (λ chunk, block chunk = block_of c d).
Proof.
  intros Hc Hd Hcd (Hs1&Hk1) (Hs2&Hk2) Hi1 Hi2 (He1&Hk3) (He2&Hk4). unfold create_chunk.
  rewrite Hs1, Hs2, He1, He2. cbn [mbind option_bind].
  assert (word_start s1 = cw1 c) as ->.
  { rewrite Hk1. destruct s1 as [i|]; simpl; [|done]. specialize (Hi1 i eq_refl). lia. }
  assert (word_start s2 = cw2 c) as ->.
  { rewrite Hk2. destruct s2 as [i|]; simpl; [|done]. specialize (Hi2 i eq_refl). lia. }
  rewrite <- Hk3, <- Hk4. pose proof Hcd as (?&?&?&?).
  rewrite range_new_some by done. cbn [mbind option_bind].
  rewrite range_new_some by done. cbn [mbind option_bind].
  eapply runs_bind; [by apply (words_inside_runs c d)|]. intros inside _. cbn beta.
  pose proof Hc as (_&(_&?&_)&(_&?&_)). pose proof Hd as (_&(_&?&_)&(_&?&_)).
  eapply runs_bind; [by apply is_equals_range_spec|]. intros equal _. done.
Qed.

(** ** The state of the splitter *)

(** The blocks found so far lead from the origin to the corner [c] of the last
    cut. *)
Definition split_at (c : Corner) (st : Splitter) : Prop :=
  corner_ok c ∧
  index_at text1 words1 (last1 st) (cw1 c) (co1 c) ∧ index_at text2 words2 (last2 st) (cw2 c) (co2 c) ∧
  match pending st with
  | None => result st = [] ∧ last1 st = None ∧ last2 st = None
  | Some p => ∃ b, chain origin (result st) b ∧ corner_le b c ∧ block p = block_of b c
  end.

(** ... and there are words after it. *)
Definition open (st : Splitter) : Prop :=
  (∀ i, last1 st = Some i → i < length words1) ∧ (∀ i, last2 st = Some i → i < length words2).

Lemma chain_ends_ok c bs d : corner_ok c → chain c bs d → corner_ok d.
Proof.
  revert c. induction bs as [|b bs IH]; intros c Hc; simpl; [by intros <-|].
  intros (e&?&_&_&?). by eapply IH.
Qed.

Lemma corner_le_trans c d e : corner_le c d → corner_le d e → corner_le c e.
Proof. unfold corner_le. lia. Qed.

Lemma add_line_chunk_spec st c d e1 e2 eq :
  split_at c st → open st → corner_ok d →
  index_at text1 words1 e1 (cw1 d) (co1 d) → index_at text2 words2 e2 (cw2 d) (co2 d) →
  (∀ i, e1 = Some i → i ≤ length words1) → (∀ i, e2 = Some i → i ≤ length words2) →
  runs (add_line_chunk text1 text2 words1 words2 st e1 e2 eq) (λ st',
    (st' = st ∧ (after (last1 st) e1 = false → after (last2 st) e2 = false →
                 co1 c = co1 d ∧ co2 c = co2 d)) ∨
    (split_at d st' ∧ last1 st' = e1 ∧ last2 st' = e2 ∧ is_Some (pending st'))).
Proof using Hw1 Hw2 Hrs.
  intros (Hc&Hx1&Hx2&Hpend) (Hi1&Hi2) Hd Hy1 Hy2 Hj1 Hj2. unfold add_line_chunk.
  destruct (after (last1 st) e1 || after (last2 st) e2) eqn:Haft.
  { simpl. left. split; [done|]. intros Ha1 Ha2. by rewrite Ha1, Ha2 in Haft. }
  apply orb_false_elim in Haft as [Ha1 Ha2].
  pose proof Hc as (_&Hbc1&Hbc2). pose proof Hd as (_&Hbd1&Hbd2).
  destruct (index_le _ _ _ _ _ _ _ _ Hw1 Ha1 Hj1 Hx1 Hy1 Hbc1 Hbd1).
  destruct (index_le _ _ _ _ _ _ _ _ Hw2 Ha2 Hj2 Hx2 Hy2 Hbc2 Hbd2).
  assert (corner_le c d) as Hcd by done.
  eapply runs_bind; [by apply (create_chunk_spec c d)|]. intros chunk Hchunk. cbn beta in *.
  rewrite Hchunk. cbn [block_of block_offsets].
  destruct (Range.is_empty _) eqn:He.
  { simpl. left. split; [done|]. intros _ _. apply is_empty_true in He. done. }
  eapply (runs_bind _ _ (λ '(res, p), ∃ b, chain origin res b ∧ corner_le b d ∧ block p = block_of b d)).
  - destruct (pending st) as [prev|]; [|].
    + destruct Hpend as (b&Hchain&Hbc&Hprev). destruct (should_merge_chunks prev chunk).
      * pose proof (corner_le_trans _ _ _ Hbc Hcd) as Hbd. pose proof Hbd as (?&?&?&?).
        eapply (runs_bind _ _ (λ m, block m = block_of b d)).
        { unfold merge_chunks. rewrite Hprev, Hchunk. cbn [block_of block_words block_offsets start1 end1 start2 end2].
          rewrite range_new_some by done. cbn [mbind option_bind].
          rewrite range_new_some by done. done. }
        intros m Hm. simpl. exists b. done.
      * simpl. exists c. rewrite Hprev. split_and!; [by apply chain_snoc|done..].
    + destruct Hpend as (Hres&Hl1&Hl2). simpl. exists c. rewrite Hres. split; [|done].
      rewrite Hl1 in Hx1. rewrite Hl2 in Hx2. destruct Hx1 as ([= Ho1]&Hk1), Hx2 as ([= Ho2]&Hk2).
      simpl in Hk1, Hk2. simpl. unfold origin. destruct c; simpl in *. by subst.
  - intros [res p] (b&?&?&?). simpl. right. unfold split_at. cbn [last1 last2 pending result].
    split_and!; try done. by exists b.
Qed.

Lemma newline_index text words i w :
  chunks_in text 0 0 (byte_len text) words → words !! i = Some w →
  InlineChunk.is_newline w = true →
  index_at text words (Some i) (i + 1) (edge_l words 0 (i + 1)) ∧
  between text words (i + 1) (edge_l words 0 (i + 1)).
Proof.
  intros Hw Hl Hnl. pose proof (lookup_lt_Some _ _ _ Hl) as Hlt.
  destruct (edges_ok text words 0 Hw (i + 1)) as (?&?&?); [lia|].
  unfold index_at, offset_at, between. rewrite (proj2 (Nat.eqb_neq i (length words))) by lia.
  rewrite Hl. cbn [mbind option_bind]. rewrite Hnl. simpl. rewrite Nat.min_l by lia.
  rewrite Nat.add_1_r in *. simpl. rewrite Hl, Nat.sub_0_r in *. simpl in *. rewrite Hl in *.
  rewrite ?Nat.sub_0_r in *. split_and!; (done || lia).
Qed.

Lemma first_in_line_index text words i :
  chunks_in text 0 0 (byte_len text) words → i < length words →
  runs (is_first_in_line words i) (λ b, b = true →
    index_at text words (before i) i (edge_l words 0 i) ∧ between text words i (edge_l words 0 i)).
Proof.
  intros Hw Hi. destruct i as [|k].
  - simpl. intros _. split; [done|]. by apply between_0.
  - simpl. destruct (lookup_lt_is_Some_2 words k) as [w Hl]; [lia|]. rewrite Hl. simpl. intros Hnl.
    destruct (newline_index text words k w Hw Hl Hnl) as [Ha Hb].
    rewrite Nat.add_1_r in Ha, Hb. simpl in Ha, Hb. by rewrite Hl in *.
Qed.

Lemma split_pair_spec i j st eq c :
  word_eq text1 text2 words1 words2 0 0 i j → path i j → path (i + 1) (j + 1) →
  split_at c st → open st →
  runs (split_pair text1 text2 words1 words2 i j (st, eq)) (λ st', ∃ c',
    split_at c' (fst st') ∧ open (fst st')).
Proof using Hw1 Hw2 Hrs.
  intros (w1&w2&Hl1&Hl2&_) Hp Hp' Hst Hopen. unfold split_pair. rewrite Hl1, Hl2.
  cbn [mbind option_bind].
  pose proof (lookup_lt_Some _ _ _ Hl1). pose proof (lookup_lt_Some _ _ _ Hl2).
  destruct (InlineChunk.is_newline w1 && InlineChunk.is_newline w2) eqn:Hnl.
  - apply andb_prop in Hnl as [Hn1 Hn2].
    destruct (newline_index _ _ _ _ Hw1 Hl1 Hn1), (newline_index _ _ _ _ Hw2 Hl2 Hn2).
    eapply runs_bind; [apply (add_line_chunk_spec st c
      (mkCorner (i + 1) (j + 1) (edge_l words1 0 (i + 1)) (edge_l words2 0 (j + 1))));
      [done|done|by split_and!|done|done|intros ? [= <-]; lia|intros ? [= <-]; lia]|].
    intros st' [[-> _]|(Hst'&He1&He2&_)]; simpl; [by exists c|].
    eexists. split; [exact Hst'|]. unfold open. rewrite He1, He2. by split; intros ? [= <-].
  - eapply runs_bind; [by apply (first_in_line_index text1)|]. intros f1 Hf1. cbn beta.
    eapply (runs_bind _ _ (λ b, b = true → f1 = true ∧
      index_at text2 words2 (before j) j (edge_l words2 0 j) ∧ between text2 words2 j (edge_l words2 0 j))).
    { destruct f1; simpl; [|done]. eapply runs_mono; [by apply (first_in_line_index text2)|].
      naive_solver. }
    intros f Hf. cbn beta. destruct f; [|simpl; by exists c].
    destruct (Hf eq_refl) as (->&?&?). destruct (Hf1 eq_refl).
    eapply runs_bind; [apply (add_line_chunk_spec st c
      (mkCorner i j (edge_l words1 0 i) (edge_l words2 0 j)));
      [done|done|by split_and!|done|done| |]|].
    { destruct i; simpl; [done|]. intros ? [= <-]. lia. }
    { destruct j; simpl; [done|]. intros ? [= <-]. lia. }
    intros st' [[-> _]|(Hst'&He1&He2&_)]; simpl; [by exists c|].
    eexists. split; [exact Hst'|]. unfold open. rewrite He1, He2.
    split; [destruct i|destruct j]; simpl; try done; intros ? [= <-]; lia.
Qed.

Lemma end_index text words :
  index_at text words (Some (length words)) (length words) (byte_len text).
Proof. unfold index_at, offset_at. rewrite Nat.eqb_refl. simpl. split; [done|lia]. Qed.

(** A corner at the end of the text is behind all words. *)
Lemma between_end text words k :
  chunks_in text 0 0 (byte_len text) words → between text words k (byte_len text) →
  k = length words.
Proof.
  intros Hw (?&_&_&Hr). destruct (decide (k = length words)); [done|].
  pose proof (edges_lt _ _ _ Hw k (length words) ltac:(lia) ltac:(lia)).
  destruct (edges_ok _ _ _ Hw (length words) ltac:(lia)) as (?&?%boundary_le&_). lia.
Qed.

Lemma split_line_blocks_spec changes :
  Changes.changed changes = rs → Changes.len1 changes = length words1 →
  Changes.len2 changes = length words2 →
  runs (split_line_blocks text1 text2 words1 words2 changes) (λ bs,
    chain origin bs final ∧ (bs = [] → byte_len text1 = 0 ∧ byte_len text2 = 0)).
Proof using Hw1 Hw2 Hrs.
  intros Hc1 Hc2 Hc3. unfold split_line_blocks.
  pose proof (script_on_path _ _ _ _ _ _ Hrs) as Hs.
  assert (changes_ok _ (length words1) (length words2) changes) as Hok
    by (unfold changes_ok; rewrite Hc1; split_and!; [done|done|exact Hs]).
  eapply runs_bind; [by apply unchanged_spec, Hok|]. intros us Hm. cbn beta.
  eapply runs_bind; [eapply (runs_for_each_pair _ us 0 0 _ _ _
    (λ _ _ st, ∃ c, split_at c (fst st) ∧ open (fst st))); [|exact Hm|]|].
  - intros i j q1 q2 [st eq] (?&?&?) ???? (c&?&?). by eapply split_pair_spec.
  - exists origin. split; [|by split]. unfold split_at. simpl. split_and!; try done. apply origin_ok.
  - intros [st eq] (_&_&_&_&c&Hst&Hopen). cbn [fst] in *.
    eapply runs_bind; [apply (add_line_chunk_spec st c final); [done|done|apply final_ok|..]|].
    + apply end_index.
    + apply end_index.
    + intros ? [= <-]. done.
    + intros ? [= <-]. done.
    + intros st' Hst'. simpl.
      assert (∀ st, split_at final st → chain origin
        match pending st with Some p => result st ++ [block p] | None => result st end final) as Hchain.
      { intros s (_&Hx1&Hx2&Hp). destruct (pending s) as [p|].
        - destruct Hp as (b&?&?&->). apply chain_snoc; [done|apply final_ok|done].
        - destruct Hp as (->&Hl1&Hl2). rewrite Hl1 in Hx1. rewrite Hl2 in Hx2.
          destruct Hx1 as ([= Ho1]&Hk1), Hx2 as ([= Ho2]&Hk2). simpl in Hk1, Hk2, Ho1, Ho2.
          unfold final, origin in *. simpl. congruence. }
      destruct Hst' as [[-> Hend]|(Hst'&_&_&[p Hp])].
      * destruct Hopen as [Ho1 Ho2].
        assert (co1 c = byte_len text1 ∧ co2 c = byte_len text2) as [He1 He2].
        { apply Hend.
          - destruct (last1 st) as [i|]; simpl; [|done]. apply Nat.ltb_ge. specialize (Ho1 i eq_refl). lia.
          - destruct (last2 st) as [i|]; simpl; [|done]. apply Nat.ltb_ge. specialize (Ho2 i eq_refl). lia. }
        pose proof Hst as ((Hp&Hb1&Hb2)&Hx1&Hx2&Hpend). rewrite He1 in Hb1. rewrite He2 in Hb2.
        assert (c = final) as ->.
        { destruct c. unfold final. simpl in *. f_equal; try done; by eapply between_end. }
        split; [by apply Hchain|]. destruct (pending st); [by intros []%app_nil|].
        destruct Hpend as (_&Hl1&Hl2). rewrite Hl1 in Hx1. rewrite Hl2 in Hx2.
        destruct Hx1 as ([= Hz1]&_), Hx2 as ([= Hz2]&_). done.
      * split; [by apply Hchain|]. rewrite Hp. by intros []%app_nil.
Qed.
End splitter.
