(* ===== verification/DiffFragments.v ===== *)
(** * paneflow-textdiff: the byte offsets of lines

    [offsets_of] returns where the lines of a text start and end.

    The fragments of one changed range touch each other in lines and offsets;
    [squash] merges exactly those, and keeps the edit script of their bytes. *)

From S2P Require Import Prelude DiffRange DiffText DiffChanges DiffLinesCorrect DiffUtf8 DiffWords DiffSplitter DiffInner DiffWordsCorrect DiffCorrections.

(** The newlines among the words of a text. *)
Lemma count_newlines_app cs1 cs2 :
  count_newlines (cs1 ++ cs2) = count_newlines cs1 + count_newlines cs2.
Proof. unfold count_newlines. by rewrite filter_app, length_app. Qed.

Lemma chunks_newlines text p q cs :
  chunks_in text 0 p q cs → q ≤ byte_len text → count_newlines cs ≤ count_bytes_10 (cut (bytes text) p q).
Proof.
  revert p. induction cs as [|c cs IH]; intros p; simpl; [intros; apply Nat.le_0_l|].
  rewrite !Nat.sub_0_r. intros (?&Hc&Hcs) Hq. pose proof Hc as (_&Hlt&_).
  assert (InlineChunk.end_ c ≤ q) as He.
  { clear -Hcs. revert Hcs. generalize (InlineChunk.end_ c). induction cs as [|c' cs IH]; intros n; simpl; [done|].
    intros (?&(_&?&_)&Hcs%IH). lia. }
  change (c :: cs) with ([c] ++ cs). rewrite count_newlines_app.
  rewrite <- (cut_app _ p (InlineChunk.start c) q), <- (cut_app _ (InlineChunk.start c) (InlineChunk.end_ c) q),
    !count_bytes_10_app by lia.
  specialize (IH _ Hcs Hq).
  assert (count_newlines [c] ≤ count_bytes_10 (cut (bytes text) (InlineChunk.start c) (InlineChunk.end_ c)));
    [|lia].
  unfold count_newlines. destruct (InlineChunk.is_newline c) eqn:Hn.
  - by rewrite (newline_cut text c Hc Hn), filter_cons_True.
  - rewrite filter_cons_False by congruence. apply Nat.le_0_l.
Qed.

(** ** [line_offsets] *)

(** The start of every piece, the first one at [base]. *)
Fixpoint offsets_from (base : nat) (ps : list str) : list nat :=
  match ps with
  | [] => []
  | p :: ps => base :: offsets_from (base + byte_len p) ps
  end.

Lemma starts_from_skip l idx rest :
  Forall (λ b, b ≠ 10%N) l → starts_from idx (l ++ rest) = starts_from (idx + length l) rest.
Proof.
  intros Hall. revert idx. induction Hall as [|b l Hb _ IH]; intros idx; simpl.
  - by rewrite Nat.add_0_r.
  - rewrite (proj2 (N.eqb_neq b 10) Hb), IH. f_equal. lia.
Qed.

(** The first piece starts [n] bytes before the text. *)
Lemma starts_from_spec text base n :
  ∃ p ps, pieces text = p :: ps ∧
    starts_from (base + n) (bytes text) = offsets_from (base + n + byte_len p) ps.
Proof.
  revert base n. induction text as [|c text IH]; intros base n; [by exists [], []|].
  change (bytes (c :: text)) with (utf8 c ++ bytes text).
  destruct (pieces_cons c text) as (p&ps&Hp&->).
  destruct (N.eqb_spec c 10) as [->|Hc].
  - eexists _, _. split; [done|]. simpl.
    destruct (IH (base + n + 1) 0) as (p'&ps'&Hp'&Heq). rewrite Hp in Hp'. injection Hp' as -> ->.
    change (byte_len [10%N]) with 1. f_equal.
    replace (S (base + n)) with (base + n + 1 + 0) by lia. rewrite Heq. f_equal. lia.
  - eexists _, _. split; [done|]. rewrite (starts_from_skip (utf8 c)) by by apply utf8_no_newline.
    destruct (IH base (n + length (utf8 c))) as (p'&ps'&Hp'&Heq). rewrite Hp in Hp'. injection Hp' as -> ->.
    rewrite byte_len_cons. replace (base + n + length (utf8 c)) with (base + (n + length (utf8 c))) by lia.
    rewrite Heq. f_equal. lia.
Qed.

Lemma offsets_from_lookup base ps i :
  i < length ps → offsets_from base ps !! i = Some (base + byte_len (mjoin (take i ps))).
Proof.
  revert base i. induction ps as [|p ps IH]; intros base [|i] Hi; simpl in *; try lia.
  - f_equal. change (byte_len (mjoin (take 0 (p :: ps)))) with 0. by rewrite Nat.add_0_r.
  - rewrite IH by lia. f_equal. rewrite byte_len_app. unfold take. lia.
Qed.

Lemma offsets_from_length base ps : length (offsets_from base ps) = length ps.
Proof. revert base. induction ps as [|p ps IH]; intros base; simpl; [done|]. by rewrite IH. Qed.

Lemma line_offsets_starts text : starts (line_offsets text) = offsets_from 0 (pieces text).
Proof. destruct (starts_from_spec text 0 0) as (p&ps&->&Heq). simpl in *. by rewrite Heq. Qed.

Lemma line_count_spec text : line_count (line_offsets text) = length (split_lines text).
Proof. unfold line_count. by rewrite line_offsets_starts, offsets_from_length, pieces_length. Qed.

Lemma line_start_spec text i :
  i < length (split_lines text) → line_start (line_offsets text) i = Some (line_offset text i).
Proof.
  intros Hi. unfold line_start. rewrite line_offsets_starts, offsets_from_lookup; [done|].
  by rewrite pieces_length.
Qed.

Lemma line_end_spec text i :
  i < length (split_lines text) →
  line_end_with_newline (line_offsets text) i = Some (line_offset text (i + 1)).
Proof.
  intros Hi. unfold line_end_with_newline. change (length (starts (line_offsets text)))
    with (line_count (line_offsets text)). rewrite line_count_spec.
  destruct (Nat.ltb_spec (i + 1) (length (split_lines text))).
  - by apply line_start_spec.
  - replace (i + 1) with (length (split_lines text)) by lia. by rewrite line_offset_end.
Qed.

(** The method [offsets] finds the bytes of a range of lines. *)
Lemma offsets_of_spec text i j :
  i ≤ j → j ≤ length (split_lines text) →
  offsets_of (line_offsets text) i j = Some (line_offset text i, line_offset text j).
Proof.
  intros Hij Hj. unfold offsets_of. destruct (Nat.eqb_spec i j) as [<-|Hne].
  - rewrite line_count_spec. destruct (Nat.ltb_spec i (length (split_lines text))).
    + by rewrite line_start_spec.
    + replace i with (length (split_lines text)) by lia. by rewrite line_offset_end.
  - rewrite line_start_spec by lia. cbn [mbind option_bind].
    rewrite checked_sub_some by lia. cbn [mbind option_bind].
    rewrite line_end_spec by lia. by replace (j - 1 + 1) with j by lia.
Qed.

(** The offsets of a range of lines in both texts. *)
Definition offsets_range (text1 text2 : str) (r : Range) : Range :=
  mkRange (line_offset text1 (start1 r)) (line_offset text1 (end1 r))
    (line_offset text2 (start2 r)) (line_offset text2 (end2 r)).

Lemma line_fragment_spec text1 text2 r :
  start1 r ≤ end1 r → end1 r ≤ length (split_lines text1) →
  start2 r ≤ end2 r → end2 r ≤ length (split_lines text2) →
  line_fragment r (line_offsets text1) (line_offsets text2) =
    Some (mkLineFragment r (offsets_range text1 text2 r) None).
Proof.
  intros. unfold line_fragment. rewrite !offsets_of_spec by done. cbn [mbind option_bind].
  by rewrite range_new_some by (by apply line_offset_mono).
Qed.

(** ** Equal lines have equal bytes up to whitespace *)

Lemma solid_non_space text : solid (bytes text) = non_space_bytes text.
Proof. done. Qed.

Lemma lines_text_one text i l :
  split_lines text !! i = Some l → non_space_bytes (lines_text text i (i + 1)) = non_space_bytes l.
Proof.
  intros Hl. assert (∀ ls i l, ls !! i = Some l →
    ∃ p, with_newlines ls !! i = Some p ∧ non_space_bytes p = non_space_bytes l) as Hw.
  { clear. intros ls. induction ls as [|x ls IH]; intros i l; [done|].
    destruct ls as [|y ls].
    - destruct i; [|done]. intros [= <-]. by exists x.
    - destruct i as [|i].
      + intros [= <-]. eexists. split; [done|].
        unfold non_space_bytes. rewrite bytes_app, filter_app. apply app_nil_r.
      + intros Hi. destruct (IH i l Hi) as (p&?&?). by exists p. }
  destruct (Hw _ _ _ Hl) as (p&Hp&<-). unfold lines_text, cut.
  change (with_newlines (split_lines text)) with (pieces text) in Hp.
  rewrite (drop_S _ _ _ Hp). replace (i + 1 - i) with 1 by lia. simpl.
  by rewrite app_nil_r.
Qed.

Lemma line_gap_spaced p text1 text2 i j i' j' :
  gap (text_eq p (split_lines text1) (split_lines text2)) i j i' j' →
  spaced_gap (bytes text1) (bytes text2) (line_offset text1 i) (line_offset text2 j)
    (line_offset text1 i') (line_offset text2 j').
Proof.
  intros (Hi&Hj&Hlen&Hall).
  replace j' with (j + (i' - i)) by lia. replace i' with (i + (i' - i)) by lia.
  replace (i + (i' - i) - i) with (i' - i) by lia. clear Hi Hj Hlen. revert Hall.
  generalize (i' - i). intros n. induction n as [|n IH]; intros Hall.
  - rewrite !Nat.add_0_r. apply spaced_gap_refl.
  - eapply spaced_gap_app; [apply IH; auto|].
    destruct (Hall n) as (a&b&Ha&Hb&Heq); [lia|].
    split_and!; [apply line_offset_mono; lia..|].
    rewrite !cut_lines by lia. rewrite !solid_non_space.
    replace (i + S n) with (i + n + 1) by lia. replace (j + S n) with (j + n + 1) by lia.
    rewrite (lines_text_one _ _ _ Ha), (lines_text_one _ _ _ Hb).
    apply is_equals_iw, is_equals_spec in Heq. by injection Heq.
Qed.

(** * paneflow-textdiff: correctness of squashing *)

Lemma last_default_cons {A} (x y : A) l : List.last (y :: l) x = List.last l y.
Proof.
  destruct l as [|z l]; [done|]. simpl. revert z.
  induction l as [|w l IH]; intros z; [done|apply IH].
Qed.

Lemma last_list_last {A} (x : A) l : last (x :: l) = Some (List.last l x).
Proof.
  revert x. induction l as [|y l IH]; intros x; [done|].
  change (last (x :: y :: l)) with (last (y :: l)). by rewrite IH, last_default_cons.
Qed.

Section squash.
Context (text1 text2 : str) (policy : ComparisonPolicy).
#[local] Notation G := (policy_gap text1 text2 policy).

Lemma policy_gap_refl p1 p2 : G p1 p2 p1 p2.
Proof. destruct policy; (apply gap_refl || apply spaced_gap_refl). Qed.

Lemma policy_gap_app p1 p2 q1 q2 r1 r2 : G p1 p2 q1 q2 → G q1 q2 r1 r2 → G p1 p2 r1 r2.
Proof. destruct policy; simpl; eauto using gap_app, spaced_gap_app. Qed.

Lemma policy_gap_le p1 p2 q1 q2 : G p1 p2 q1 q2 → p1 ≤ q1 ∧ p2 ≤ q2.
Proof. destruct policy; simpl; [intros (?&?&_)|intros (?&?&_)..]; lia. Qed.

Lemma script_snoc_range rs p1 p2 q1 q2 r :
  gap_script G p1 p2 rs q1 q2 → G q1 q2 (start1 r) (start2 r) →
  start1 r ≤ end1 r → start2 r ≤ end2 r → gap_script G p1 p2 (rs ++ [r]) (end1 r) (end2 r).
Proof.
  revert p1 p2. induction rs as [|x rs IH]; intros p1 p2; simpl.
  - intros ????. split_and!; [by eapply policy_gap_app|done..|apply policy_gap_refl].
  - intros (?&?&?&?) ???. split_and!; auto.
Qed.

Lemma script_snoc_inv rs p1 p2 q1 q2 r :
  gap_script G p1 p2 (rs ++ [r]) q1 q2 →
  gap_script G p1 p2 rs (start1 r) (start2 r) ∧ start1 r ≤ end1 r ∧ start2 r ≤ end2 r ∧
  G (end1 r) (end2 r) q1 q2.
Proof.
  revert p1 p2. induction rs as [|x rs IH]; intros p1 p2; simpl; [done|].
  intros (?&?&?&(?&?&?&?)%IH). by split_and!.
Qed.

Lemma gap_script_join rs rs' p1 p2 q1 q2 l1 l2 :
  gap_script G p1 p2 rs q1 q2 → gap_script G q1 q2 rs' l1 l2 → gap_script G p1 p2 (rs ++ rs') l1 l2.
Proof.
  revert p1 p2. induction rs as [|x rs IH]; intros p1 p2; simpl.
  - destruct rs' as [|x rs']; simpl; [apply policy_gap_app|].
    intros ? (?&?&?&?). split_and!; [by eapply policy_gap_app|done..].
  - intros (?&?&?&?) ?. split_and!; auto.
Qed.

(** ** The edits of a fragment *)

(** A piece of a fragment that starts at [(s1, s2)], in offsets of the texts. *)
Definition piece_range (s1 s2 : nat) (piece : DiffFragment) : Range :=
  mkRange (s1 + f_start1 piece) (s1 + f_end1 piece) (s2 + f_start2 piece) (s2 + f_end2 piece).

(** What a fragment replaces: its inner pieces, or all of it. *)
Definition edits_of (f : LineFragment) : list Range :=
  match inner f with
  | Some ps => piece_range (start1 (offsets f)) (start2 (offsets f)) <$> ps
  | None => [offsets f]
  end.

Definition ordered (r : Range) : Prop := start1 r ≤ end1 r ∧ start2 r ≤ end2 r.

Definition edits_ok (os : Range) (rs : list Range) : Prop :=
  gap_script G (start1 os) (start2 os) rs (end1 os) (end2 os) ∧
  Forall (on_boundaries text1 text2) rs.

Definition fragment_ok (f : LineFragment) : Prop :=
  ordered (lines f) ∧ ordered (offsets f) ∧ edits_ok (offsets f) (edits_of f).

Lemma extract_spec f :
  fragment_ok f → runs (extract_inner_fragments f) (λ ps,
    piece_range (start1 (offsets f)) (start2 (offsets f)) <$> ps = edits_of f).
Proof.
  intros (_&[? ?]&_). unfold extract_inner_fragments, edits_of. destruct (inner f) as [ps|]; [done|].
  rewrite !checked_sub_some by done. simpl. unfold piece_range. simpl.
  destruct (offsets f); simpl in *. do 2 f_equal; lia.
Qed.

Lemma with_inner_spec ls os ps :
  ordered os → runs (with_inner ls os (Some ps)) (λ f, lines f = ls ∧ offsets f = os ∧
    edits_of f = piece_range (start1 os) (start2 os) <$> ps).
Proof.
  intros [? ?]. unfold with_inner. rewrite !checked_sub_some by done. cbn [mbind option_bind runs].
  split_and!; [done..|]. unfold edits_of. cbn [inner offsets].
  destruct ps as [|fr [|fr' ps]]; [done| |done].
  destruct (_ && _ && _ && _) eqn:He; [|done]. bool_to_prop. simpl. unfold piece_range.
  destruct os, fr; simpl in *. subst. do 2 f_equal; lia.
Qed.

(** ** Collecting the pieces of a group *)

Lemma push_piece_spec s1 s2 acc r p1 p2 q1 q2 :
  let R := piece_range s1 s2 in
  gap_script G p1 p2 (R <$> acc) q1 q2 → Forall (on_boundaries text1 text2) (R <$> acc) →
  G q1 q2 (start1 (R r)) (start2 (R r)) → ordered (R r) → on_boundaries text1 text2 (R r) →
  gap_script G p1 p2 (R <$> push_piece r acc) (end1 (R r)) (end2 (R r)) ∧
  Forall (on_boundaries text1 text2) (R <$> push_piece r acc).
Proof.
  intros R Hs Hb Hg [? ?] Hr. unfold push_piece.
  destruct acc as [|x acc' _] using rev_ind.
  { split; [by apply (script_snoc_range [] p1 p2 q1 q2 (R r))|by constructor]. }
  rewrite last_snoc, removelast_app, app_nil_r by done. rewrite fmap_app in Hs, Hb.
  destruct (_ && _) eqn:Htouch.
  - bool_to_prop. apply script_snoc_inv in Hs as (Hs&?&?&_). apply Forall_app in Hb as [Hb Hx].
    rewrite fmap_app. apply Forall_cons in Hx as [Hx _].
    unfold on_boundaries in *. subst R. unfold piece_range in *. simpl in *. split.
    + eapply (script_snoc_range _ _ _ _ _ (mkRange _ _ _ _)); [exact Hs|apply policy_gap_refl|simpl; lia..].
    + apply Forall_app. split; [done|]. constructor; [naive_solver|done].
  - rewrite !fmap_app. split.
    + by eapply script_snoc_range.
    + apply Forall_app. split; [done|by constructor].
Qed.

(** Pushing all the pieces of the next fragment. *)
Lemma push_pieces_spec s1 s2 ps acc p1 p2 q1 q2 l1 l2 :
  let R := piece_range s1 s2 in
  gap_script G p1 p2 (R <$> acc) q1 q2 → Forall (on_boundaries text1 text2) (R <$> acc) →
  gap_script G q1 q2 (R <$> ps) l1 l2 → Forall (on_boundaries text1 text2) (R <$> ps) →
  gap_script G p1 p2 (R <$> foldl (λ inner piece, push_piece piece inner) acc ps) l1 l2 ∧
  Forall (on_boundaries text1 text2) (R <$> foldl (λ inner piece, push_piece piece inner) acc ps).
Proof.
  intros R. revert acc q1 q2. induction ps as [|r ps IH]; intros acc q1 q2 Hs Hb.
  - simpl. intros Hg _. split; [|done]. rewrite <- (app_nil_r (R <$> acc)). by eapply gap_script_join.
  - rewrite fmap_cons. intros (Hg&?&?&Hps) [Hr Hbs]%Forall_cons.
    destruct (push_piece_spec s1 s2 acc r p1 p2 q1 q2 Hs Hb Hg (conj H H0) Hr) as [Hs' Hb'].
    simpl. by eapply IH.
Qed.

(** ** Groups *)

(** [f] starts at the lines and offsets of [p] and ends at those of [q]. *)
Definition starts_at (f : LineFragment) (ls os : Range) : Prop :=
  start1 (lines f) = start1 ls ∧ start2 (lines f) = start2 ls ∧
  start1 (offsets f) = start1 os ∧ start2 (offsets f) = start2 os.

Definition ends_at (f : LineFragment) (ls os : Range) : Prop :=
  end1 (lines f) = end1 ls ∧ end2 (lines f) = end2 ls ∧
  end1 (offsets f) = end1 os ∧ end2 (offsets f) = end2 os.

Definition touches (before after : LineFragment) : Prop :=
  starts_at after (mkRange (end1 (lines before)) 0 (end2 (lines before)) 0)
    (mkRange (end1 (offsets before)) 0 (end2 (offsets before)) 0).

Lemma is_adjoining_touches before after : is_adjoining before after = true ↔ touches before after.
Proof.
  unfold is_adjoining, touches, starts_at. rewrite !andb_true_iff, !Nat.eqb_eq. simpl. intuition congruence.
Qed.

(** Each fragment of [g] touches the next, the first one touches [f]. *)
Fixpoint linked (f : LineFragment) (g : list LineFragment) : Prop :=
  match g with
  | [] => True
  | f' :: g => touches f f' ∧ fragment_ok f' ∧ linked f' g
  end.

(** A group of fragments that covers the lines [ls] and the offsets [os]. *)
Definition group_ok (ls os : Range) (g : list LineFragment) : Prop :=
  match g with
  | [] => False
  | f :: g => starts_at f ls os ∧ fragment_ok f ∧ linked f g ∧ ends_at (List.last g f) ls os
  end.

Lemma squash_one_spec first f acc :
  start1 (offsets first) ≤ start1 (offsets f) → start2 (offsets first) ≤ start2 (offsets f) →
  fragment_ok f →
  let R := piece_range (start1 (offsets first)) (start2 (offsets first)) in
  edits_ok (mkRange (start1 (offsets first)) (start1 (offsets f))
              (start2 (offsets first)) (start2 (offsets f))) (R <$> acc) →
  runs (squash_one first f acc) (λ acc',
    edits_ok (mkRange (start1 (offsets first)) (end1 (offsets f))
                (start2 (offsets first)) (end2 (offsets f))) (R <$> acc')).
Proof.
  intros ?? Hf R [Hs Hb]. unfold squash_one. rewrite !checked_sub_some by done.
  cbn [mbind option_bind]. eapply runs_bind; [by apply extract_spec|].
  intros ps Hps. cbn [runs]. destruct Hf as (_&_&Hse&Hbe).
  set (shift := shift_piece _ _).
  assert (R <$> (shift <$> ps) = edits_of f) as HR.
  { rewrite <- Hps, <- list_fmap_compose. apply list_fmap_ext. intros _ x _.
    subst R shift. unfold piece_range, shift_piece. simpl. f_equal; lia. }
  assert (∀ acc : list DiffFragment, foldl (λ inner piece, push_piece (shift piece) inner) acc ps =
    foldl (λ inner piece, push_piece piece inner) acc (shift <$> ps)) as ->.
  { clear. induction ps as [|x ps IH]; intros acc; simpl; [done|apply IH]. }
  unfold edits_ok. rewrite <- HR in Hse, Hbe. by eapply push_pieces_spec.
Qed.

Lemma squash_ones_spec first f g acc :
  start1 (offsets first) ≤ end1 (offsets f) → start2 (offsets first) ≤ end2 (offsets f) →
  linked f g →
  let R := piece_range (start1 (offsets first)) (start2 (offsets first)) in
  edits_ok (mkRange (start1 (offsets first)) (end1 (offsets f))
              (start2 (offsets first)) (end2 (offsets f))) (R <$> acc) →
  runs (for_each g (squash_one first) acc) (λ acc',
    edits_ok (mkRange (start1 (offsets first)) (end1 (offsets (List.last g f)))
                (start2 (offsets first)) (end2 (offsets (List.last g f)))) (R <$> acc')).
Proof.
  revert f acc. induction g as [|f' g IH]; intros f acc ?? Hg R Hs; [done|].
  destruct Hg as ((_&_&Hs1&Hs2)&Hf'&Hg). simpl in Hs1, Hs2.
  rewrite <- Hs1, <- Hs2 in *. pose proof Hf' as (_&[? ?]&_). cbn [for_each].
  eapply runs_bind; [by apply squash_one_spec|]. intros acc' Hacc. cbn beta.
  rewrite last_default_cons. apply IH; [lia|lia|done|done].
Qed.

Lemma linked_ordered f g :
  fragment_ok f → linked f g →
  start1 (lines f) ≤ end1 (lines (List.last g f)) ∧ start2 (lines f) ≤ end2 (lines (List.last g f)) ∧
  start1 (offsets f) ≤ end1 (offsets (List.last g f)) ∧
  start2 (offsets f) ≤ end2 (offsets (List.last g f)).
Proof.
  revert f. induction g as [|f' g IH]; intros f (?&?&_); [unfold ordered in *; simpl; lia|].
  intros ((?&?&?&?)&Hf'&Hg). destruct (IH _ Hf' Hg) as (?&?&?&?).
  rewrite last_default_cons. unfold ordered in *. simpl in *. lia.
Qed.

(** A squashed group covers the group's lines and offsets, with an edit script
    of its bytes. *)
Definition squashed (ls os : Range) (f : LineFragment) : Prop :=
  lines f = ls ∧ offsets f = os ∧ fragment_ok f.

Lemma squash_group_spec ls os g : group_ok ls os g → runs (squash_group g) (squashed ls os).
Proof.
  destruct g as [|f g]; [done|]. intros ((Hl1&Hl2&Ho1&Ho2)&Hf&Hg&(Hl3&Hl4&Ho3&Ho4)).
  destruct g as [|f' g].
  { simpl in *. split_and!; [| |done]; [destruct (lines f), ls|destruct (offsets f), os]; simpl in *; congruence. }
  pose proof (linked_ordered f (f' :: g) Hf Hg) as (?&?&?&?).
  unfold squash_group. cbn [head mbind option_bind]. rewrite last_list_last. cbn [mbind option_bind].
  cbn [for_each].
  eapply runs_bind.
  - eapply runs_bind; [apply (squash_one_spec f f []); [done|done|done|]|].
    + split; [apply policy_gap_refl|constructor].
    + intros acc Hacc. cbn beta. pose proof Hf as (_&[? ?]&_).
      apply (squash_ones_spec f f (f' :: g)); done.
  - intros acc [Hs Hb]. cbn beta.
    rewrite range_new_some by done. cbn [mbind option_bind].
    rewrite range_new_some by done. cbn [mbind option_bind].
    eapply runs_mono; [by apply with_inner_spec|]. intros s (Hls&Hos&He).
    assert (mkRange (start1 (lines f)) (end1 (lines (List.last (f' :: g) f)))
              (start2 (lines f)) (end2 (lines (List.last (f' :: g) f))) = ls) as Els
      by (destruct ls; simpl in *; congruence).
    assert (mkRange (start1 (offsets f)) (end1 (offsets (List.last (f' :: g) f)))
              (start2 (offsets f)) (end2 (offsets (List.last (f' :: g) f))) = os) as Eos
      by (destruct os; simpl in *; congruence).
    split_and!; [congruence..|]. unfold fragment_ok. rewrite Hls, Hos, He. by split_and!.
Qed.

(** ** [squash] *)

(** Pushing the rest of a group onto the open group. *)
Lemma squash_linked res f g before :
  linked f g →
  for_each g squash_step (res, before ++ [f]) = Some (res, before ++ f :: g).
Proof.
  revert f before. induction g as [|f' g IH]; intros f before; [done|].
  intros (Ht&_&Hg). cbn [for_each squash_step]. rewrite last_snoc.
  rewrite (proj2 (is_adjoining_touches f f') Ht). cbn [negb mbind option_bind].
  rewrite (IH f' (before ++ [f]) Hg). by rewrite <- app_assoc.
Qed.

Lemma squash_step_apart res f g f' :
  ¬ touches (List.last g f) f' →
  squash_step f' (res, f :: g) = s ← squash_group (f :: g); Some (res ++ [s], [f']).
Proof.
  intros Ht. unfold squash_step. rewrite last_list_last.
  destruct (is_adjoining (List.last g f) f') eqn:He; [|done].
  by apply is_adjoining_touches in He.
Qed.

(** The groups cover the ranges, and consecutive groups do not touch. *)
Fixpoint groups_ok (rs : list (Range * Range)) (gs : list (list LineFragment)) : Prop :=
  match rs, gs with
  | [], [] => True
  | (ls, os) :: rs, g :: gs => group_ok ls os g ∧
      match rs with [] => True | (ls', _) :: _ => end1 ls < start1 ls' end ∧ groups_ok rs gs
  | _, _ => False
  end.

Lemma squash_loop_spec rs gs ls os f g res :
  groups_ok ((ls, os) :: rs) ((f :: g) :: gs) →
  runs (for_each (mjoin gs) squash_step (res, f :: g)) (λ '(out, group),
    ∃ init ls' os' fs, (ls, os) :: rs = init ++ [(ls', os')] ∧ out = res ++ fs ∧
      group_ok ls' os' group ∧ Forall2 (λ '(ls, os), squashed ls os) init fs).
Proof.
  revert rs ls os f g res. induction gs as [|g' gs IH]; intros rs ls os f g res (Hg&Hsep&Hgs).
  - destruct rs as [|[ls' os'] rs]; [|done]. exists [], ls, os, []. by rewrite app_nil_r.
  - destruct rs as [|[ls' os'] rs]; [done|]. pose proof Hgs as (Hg'&_&_).
    destruct g' as [|f' g']; [done|]. cbn [mjoin list_join]. rewrite <- app_comm_cons.
    cbn [for_each]. rewrite squash_step_apart.
    2: { intros (Ht&_). simpl in Ht. destruct Hg as (_&_&_&(He&_)), Hg' as ((Hs&_)&_). lia. }
    eapply runs_bind.
    { eapply runs_bind; [by apply squash_group_spec|]. intros s Hs.
      instantiate (1 := λ st, st.2 = [f'] ∧ ∃ s, squashed ls os s ∧ st.1 = res ++ [s]).
      simpl. eauto. }
    intros [out group] [[= ->] (s&Hs&[= ->])]. cbn beta. rewrite for_each_app.
    destruct Hg' as (_&_&Hlinked&_).
    pose proof (squash_linked (res ++ [s]) f' g' [] Hlinked) as Hl. cbn [app] in Hl. rewrite Hl.
    cbn [mbind option_bind].
    eapply runs_mono; [by apply IH|]. intros [out group] (init&lz&oz&fs&Heq&->&?&?).
    exists ((ls, os) :: init), lz, oz, (s :: fs). rewrite Heq, <- app_assoc. split_and!; try done.
    by constructor.
Qed.

Lemma squash_spec rs gs :
  groups_ok rs gs →
  runs (squash (mjoin gs)) (λ fs, Forall2 (λ '(ls, os), squashed ls os) rs fs).
Proof.
  destruct rs as [|[ls os] rs], gs as [|[|f g] gs]; try done;
    [by constructor|by intros [[] _]|].
  intros Hgs. pose proof Hgs as ((_&_&Hlinked&_)&_). unfold squash. cbn [mjoin list_join].
  rewrite <- app_comm_cons. cbn [for_each squash_step last mbind option_bind].
  rewrite for_each_app, (squash_linked [] f g []) by done. cbn [mbind option_bind app].
  eapply runs_bind; [by eapply squash_loop_spec|].
  intros [out group] (init&ls'&os'&fs&->&->&Hg&Hfs). cbn beta iota.
  destruct group as [|f' group]; [done|]. cbn [length bool_decide decide_rel].
  eapply runs_bind; [by apply squash_group_spec|]. intros s Hs. simpl.
  apply Forall2_app; [done|]. constructor; [done|constructor].
Qed.
End squash.
