(* ===== verification/DiffInnerCorrect.v ===== *)
(** * paneflow-textdiff: correctness of the comparison with inner fragments

    The comparison restricted to a block of [split_line_blocks] is an edit
    script of the block's words, and the two matchers turn it into an edit
    script of the block's bytes.

    [compare_lines_inner] returns one fragment per changed range of lines, with
    the byte offsets of the range and an edit script of its bytes. *)

From S2P Require Import Prelude DiffRange DiffText DiffChanges DiffChunks DiffLines DiffLinesCorrect DiffUtf8 DiffWords DiffSplitter DiffInner DiffWordsCorrect DiffCorrections DiffSplitterCorrect DiffFragments.

(** ** The words of a block *)

Lemma chunks_in_intro text shift p q cs :
  p ≤ q →
  (∀ i c, cs !! i = Some c →
     p ≤ InlineChunk.start c - shift ∧ chunk_at text shift c ∧ InlineChunk.end_ c - shift ≤ q) →
  (∀ i c c', cs !! i = Some c → cs !! S i = Some c' →
     InlineChunk.end_ c - shift ≤ InlineChunk.start c' - shift) →
  chunks_in text shift p q cs.
Proof.
  revert p. induction cs as [|c cs IH]; intros p Hpq Hin Hord; simpl; [done|].
  destruct (Hin 0 c eq_refl) as (?&?&?). split_and!; [done..|].
  apply IH; [done| |intros i; apply (Hord (S i))].
  intros i c' Hi. destruct (Hin (S i) c' Hi) as (_&?&?). split_and!; [|done..].
  assert (∀ i c', (c :: cs) !! S i = Some c' →
    InlineChunk.end_ c - shift ≤ InlineChunk.start c' - shift) as Hafter; [|by eapply Hafter].
  clear i c' Hi H2 H3. intros i. induction i as [|i IHi]; intros c' Hi; [by eapply (Hord 0)|].
  destruct (lookup_lt_is_Some_2 (c :: cs) (S i)) as [d Hd];
    [apply lookup_lt_Some in Hi; lia|].
  specialize (IHi _ Hd). specialize (Hord _ _ _ Hd Hi).
  destruct (Hin _ _ Hd) as (_&(?&?&_)&_). lia.
Qed.

Lemma sub_lookup {A} (l : list A) k k' i c :
  take (k' - k) (drop k l) !! i = Some c → i < k' - k ∧ l !! (k + i) = Some c.
Proof.
  intros Hi. assert (i < k' - k).
  { apply lookup_lt_Some in Hi. rewrite length_take in Hi. lia. }
  by rewrite lookup_take_lt, lookup_drop in Hi by done.
Qed.

Section slice.
Context (text : str) (words : list InlineChunk).
Context (Hw : chunks_in text 0 0 (byte_len text) words).
Context (k o k' o' : nat) (s : str).
Context (Hb : between text words k o) (Hb' : between text words k' o') (Hk : k ≤ k') (Ho : o ≤ o').
Context (Hbytes : bytes s = cut (bytes text) o o') (Hlen : byte_len s = o' - o).
Context (Hbound : ∀ x, x ≤ o' - o → char_boundary text (o + x) → char_boundary s x).
#[local] Notation sub := (take (k' - k) (drop k words)).

(** The words of a block lie within its offsets. *)
Lemma sub_inside i c :
  sub !! i = Some c → o ≤ InlineChunk.start c ∧ InlineChunk.start c < InlineChunk.end_ c ∧
    InlineChunk.end_ c ≤ o'.
Proof using Hw Hb Hb' Hk.
  clear Ho Hbytes Hlen Hbound. intros (?&Hc)%sub_lookup. destruct Hb as (?&_&_&Hr), Hb' as (?&_&Hl&_).
  destruct (chunks_in_lookup _ _ _ _ _ _ _ Hw Hc) as (_&(_&?&_)&_).
  split_and!; [|done|].
  - etransitivity; [exact Hr|]. unfold edge_r.
    destruct (words !! k) as [w|] eqn:Hwk; [|apply lookup_ge_None in Hwk; apply lookup_lt_Some in Hc; lia].
    rewrite Nat.sub_0_r. destruct (decide (i = 0)) as [->|].
    + rewrite Nat.add_0_r in Hc. by simplify_eq.
    + pose proof (chunks_in_order _ _ _ _ _ k (k + i) _ _ Hw ltac:(lia) Hwk Hc).
      destruct (chunks_in_lookup _ _ _ _ _ _ _ Hw Hwk) as (_&(_&?&_)&_). lia.
  - etransitivity; [|exact Hl]. unfold edge_l. destruct k' as [|m]; [lia|].
    destruct (lookup_lt_is_Some_2 words m) as [w Hwm]; [lia|]. rewrite Hwm, Nat.sub_0_r.
    destruct (decide (k + i = m)) as [<-|]; [by simplify_eq|].
    pose proof (chunks_in_order _ _ _ _ _ (k + i) m _ _ Hw ltac:(lia) Hc Hwm).
    destruct (chunks_in_lookup _ _ _ _ _ _ _ Hw Hwm) as (_&(_&?&_)&_). lia.
Qed.

Lemma sub_chunks : chunks_in s o 0 (byte_len s) sub.
Proof using Hw Hb Hb' Hk Ho Hbytes Hlen Hbound.
  apply chunks_in_intro; [lia| |].
  - intros i c Hi. destruct (sub_inside _ _ Hi) as (?&?&?). destruct (sub_lookup _ _ _ _ _ Hi) as [_ Hc].
    destruct (chunks_in_lookup _ _ _ _ _ _ _ Hw Hc) as (_&(_&_&Hb1&Hb2&Hnl)&_).
    rewrite !Nat.sub_0_r in *. unfold chunk_at. split_and!; try lia.
    + apply Hbound; [lia|]. by replace (o + _) with (InlineChunk.start c) by lia.
    + apply Hbound; [lia|]. by replace (o + _) with (InlineChunk.end_ c) by lia.
    + intros Hn. rewrite Hbytes, lookup_cut by lia.
      replace (o + _) with (InlineChunk.start c) by lia. by apply Hnl.
  - intros i c c' Hi Hi'. destruct (sub_lookup _ _ _ _ _ Hi) as [_ Hc], (sub_lookup _ _ _ _ _ Hi') as [_ Hc'].
    pose proof (chunks_in_order _ _ _ _ _ (k + i) (k + S i) _ _ Hw ltac:(lia) Hc Hc'). lia.
Qed.

Lemma sub_length : length sub = k' - k.
Proof using Hb' Hk. clear Ho Hlen Hbytes Hbound. destruct Hb'. rewrite length_take, length_drop. lia. Qed.

Lemma sub_cut i c :
  sub !! i = Some c →
  cut (bytes s) (InlineChunk.start c - o) (InlineChunk.end_ c - o) =
  cut (bytes text) (InlineChunk.start c) (InlineChunk.end_ c).
Proof using Hw Hb Hb' Hk Ho Hbytes Hlen Hbound.
  intros Hi. destruct (sub_inside _ _ Hi) as (?&?&?). rewrite Hbytes, cut_cut by lia.
  f_equal; lia.
Qed.
End slice.

(** ** The comparison of a block *)

Section blocks.
Context `{Hmyers : MyersDiff} `{Hlaws : !MyersDiffLaws}.
Context (text1 text2 : str) (words1 words2 : list InlineChunk).
Context (Hw1 : chunks_in text1 0 0 (byte_len text1) words1).
Context (Hw2 : chunks_in text2 0 0 (byte_len text2) words2).
Context (rs : list Range).
Context (Hrs : script (word_eq text1 text2 words1 words2 0 0) 0 0 rs (length words1) (length words2)).
#[local] Notation corner_ok := (corner_ok text1 text2 words1 words2 rs).
#[local] Notation chain := (chain text1 text2 words1 words2 rs).

(** The range [r] ends before the corner [c]. *)
Definition behind (c : Corner) (r : Range) : Prop := end1 r < cw1 c ∨ end2 r < cw2 c.

Lemma clip_skip w pre rest :
  Forall (λ r, (end1 r <? start1 w) || (end2 r <? start2 w) = true) pre →
  clip_ranges (pre ++ rest) w = clip_ranges rest w.
Proof. induction 1 as [|r pre Hr _ IH]; simpl; [done|]. by rewrite Hr. Qed.

Lemma behind_spec c d r :
  behind c r ↔ (end1 r <? start1 (block_words (block_of c d)))
               || (end2 r <? start2 (block_words (block_of c d))) = true.
Proof. unfold behind. simpl. by rewrite orb_true_iff, !Nat.ltb_lt. Qed.

Lemma behind_mono c d r : corner_le c d → behind c r → behind d r.
Proof. unfold corner_le, behind. lia. Qed.

Lemma skip_ranges_spec c d pre rest :
  Forall (behind c) pre →
  ∃ pre' rest', pre ++ rest = pre' ++ rest' ∧ Forall (behind c) pre' ∧
    skip_ranges rest (block_words (block_of c d)) (length pre) = length pre'.
Proof.
  revert pre. induction rest as [|r rest IH]; intros pre Hpre.
  - exists pre, []. by split_and!.
  - cbn [skip_ranges]. destruct (_ || _) eqn:Hr.
    + apply behind_spec in Hr.
      destruct (IH (pre ++ [r])) as (pre'&rest'&Heq&?&Hs); [by rewrite Forall_app, Forall_singleton|].
      exists pre', rest'. rewrite <- app_assoc in Heq. rewrite length_app in Hs. by split_and!.
    + exists pre, (r :: rest). by split_and!.
Qed.

(** [sub] is an edit script of the words of the block from [c] to [d]. *)
Definition sub_ok (c d : Corner) (sub : Changes.t) : Prop :=
  changes_ok (λ i j, word_eq text1 text2 words1 words2 0 0 (cw1 c + i) (cw2 c + j))
    (cw1 d - cw1 c) (cw2 d - cw2 c) sub.

Lemma sub_iterable_spec c d pre rest :
  rs = pre ++ rest → Forall (behind c) pre → corner_ok c → corner_ok d → corner_le c d →
  runs (sub_iterable rs (block_words (block_of c d)) (length pre)) (sub_ok c d).
Proof using Hrs.
  intros Heq Hpre [Hc _] [Hd _] (?&?&_). unfold sub_iterable.
  rewrite slice_some by (rewrite Heq, length_app; lia). cbn [mbind option_bind].
  assert (take (length rs - length pre) (drop (length pre) rs) = rest) as ->.
  { rewrite take_ge by (rewrite length_drop; lia). by rewrite Heq, drop_app_length. }
  eapply (runs_bind _ _ (λ rs', script
    (λ i j, word_eq text1 text2 words1 words2 0 0 (cw1 c + i) (cw2 c + j)) 0 0 rs'
    (cw1 d - cw1 c) (cw2 d - cw2 c))).
  - rewrite <- (clip_skip _ pre), <- Heq.
    + by eapply clip_before.
    + eapply Forall_impl; [exact Hpre|]. intros r Hr. by apply (behind_spec c d).
  - intros rs' Hrs'. cbn [block_of block_words start1 end1 start2 end2].
    rewrite !checked_sub_some by done. by split_and!.
Qed.

(** The sub-iterables of a chain of blocks, block by block. *)
Fixpoint subs_ok (c : Corner) (bs : list WordBlock) (subs : list Changes.t) (d : Corner) : Prop :=
  match bs, subs with
  | [], [] => c = d
  | b :: bs, sub :: subs => ∃ e, corner_ok e ∧ corner_le c e ∧ b = block_of c e ∧
      sub_ok c e sub ∧ subs_ok e bs subs d
  | _, _ => False
  end.

Lemma sub_iterables_spec bs c d pre rest :
  rs = pre ++ rest → Forall (behind c) pre → corner_ok c → chain c bs d →
  runs (sub_iterables_from rs bs (length pre)) (λ subs, subs_ok c bs subs d).
Proof using Hrs.
  revert c pre rest. induction bs as [|b bs IH]; intros c pre rest Heq Hpre Hc; [done|].
  intros (e&He&Hce&->&Hchain). cbn [sub_iterables_from].
  assert (drop (length pre) rs = rest) as -> by (by rewrite Heq, drop_app_length).
  destruct (skip_ranges_spec c e pre rest Hpre) as (pre'&rest'&Heq'&Hpre'&->).
  rewrite <- Heq in Heq'.
  eapply runs_bind; [by eapply sub_iterable_spec|]. intros sub Hsub. cbn beta.
  eapply runs_bind; [eapply (IH e pre' rest'); [done| |done|done]|].
  - eapply Forall_impl; [exact Hpre'|]. intros r. by apply behind_mono.
  - intros subs Hsubs. exists e. by split_and!.
Qed.

(** ** The bytes of a block *)

(** The edit script of the bytes of a block. *)
Definition block_script (policy : ComparisonPolicy) (c d : Corner) (lb : LineBlock) : Prop :=
  lb_offsets lb = block_offsets (block_of c d) ∧
  newlines1 lb = count_newlines (take (cw1 d - cw1 c) (drop (cw1 c) words1)) ∧
  newlines2 lb = count_newlines (take (cw2 d - cw2 c) (drop (cw2 c) words2)) ∧
  ∃ s1 s2 changes, str_slice text1 (co1 c) (co1 d) = Some s1 ∧
    str_slice text2 (co2 c) (co2 d) = Some s2 ∧
    byte_script s1 s2 policy changes ∧ fragments lb = convert_into_fragments changes.

Lemma line_block_spec policy c d sub :
  corner_ok c → corner_ok d → corner_le c d → sub_ok c d sub →
  runs (line_block text1 text2 policy words1 words2 (block_of c d) sub) (block_script policy c d).
Proof using Hw1 Hw2 Hlaws.
  intros (_&Hc1&Hc2) (_&Hd1&Hd2) (Hk1&Hk2&Ho1&Ho2) Hsub. unfold line_block, block_script.
  cbn [block_of block_offsets block_words start1 end1 start2 end2].
  pose proof Hc1 as (_&Hx1&_). pose proof Hd1 as (?&Hy1&_).
  pose proof Hc2 as (_&Hx2&_). pose proof Hd2 as (?&Hy2&_).
  pose proof (str_slice_spec text1 _ _ Hx1 Hy1 Ho1) as (s1&Hs1&Hb1&Hl1&Hn1)%runs_some.
  pose proof (str_slice_spec text2 _ _ Hx2 Hy2 Ho2) as (s2&Hs2&Hb2&Hl2&Hn2)%runs_some.
  rewrite Hs1, Hs2. cbn [mbind option_bind]. rewrite !slice_some by done. cbn [mbind option_bind].
  eapply runs_bind.
  - apply match_adjustment_delimiters_spec.
    + eapply (sub_chunks text1 words1 Hw1 (cw1 c) (co1 c) (cw1 d) (co1 d)); done.
    + eapply (sub_chunks text2 words2 Hw2 (cw2 c) (co2 c) (cw2 d) (co2 d)); done.
    + rewrite (sub_length text1 words1 (cw1 c) (cw1 d) (co1 d)),
        (sub_length text2 words2 (cw2 c) (cw2 d) (co2 d)) by done.
      destruct Hsub as (?&?&Hscript). split_and!; [done..|].
      eapply script_mono; [|exact Hscript]. intros i j Hi Hj (w1&w2&Hl&Hr&Heq).
      rewrite !Nat.sub_0_r in Heq.
      assert (take (cw1 d - cw1 c) (drop (cw1 c) words1) !! i = Some w1) as Hi1
        by (by rewrite lookup_take_lt, lookup_drop by done).
      assert (take (cw2 d - cw2 c) (drop (cw2 c) words2) !! j = Some w2) as Hj2
        by (by rewrite lookup_take_lt, lookup_drop by done).
      exists w1, w2. split_and!; [done..|].
      rewrite (sub_cut text1 words1 Hw1 (cw1 c) (co1 c) (cw1 d) (co1 d) s1 Hc1 Hd1 Hk1 Ho1 Hb1 Hl1 Hn1 i w1 Hi1).
      by rewrite (sub_cut text2 words2 Hw2 (cw2 c) (co2 c) (cw2 d) (co2 d) s2 Hc2 Hd2 Hk2 Ho2 Hb2 Hl2 Hn2 j w2 Hj2).
  - intros cs ((_&_&Hscript)&_&Hbound). cbn beta.
    eapply runs_bind; [by apply match_adjustment_whitespaces_spec|]. intros changes Hch. simpl.
    split_and!; try done. by exists s1, s2, changes.
Qed.

(** The blocks of [compare_and_split]. *)
Fixpoint block_chain (policy : ComparisonPolicy) (c : Corner) (lbs : list LineBlock) (d : Corner)
  : Prop :=
  match lbs with
  | [] => c = d
  | lb :: lbs => ∃ e, corner_ok e ∧ corner_le c e ∧ block_script policy c e lb ∧
      block_chain policy e lbs d
  end.

Lemma line_blocks_spec policy bs subs c d :
  corner_ok c → subs_ok c bs subs d →
  runs (mapM (λ '(block, sub), line_block text1 text2 policy words1 words2 block sub) (zip bs subs))
    (λ lbs, block_chain policy c lbs d ∧ length lbs = length bs).
Proof using Hw1 Hw2 Hlaws.
  revert c subs. induction bs as [|b bs IH]; intros c [|sub subs] Hc; try done.
  intros (e&He&Hce&->&Hsub&Hsubs).
  simpl.
  eapply runs_bind; [by apply line_block_spec|]. intros lb Hlb. cbn beta.
  eapply runs_bind; [by apply IH|]. intros lbs [Hlbs Hlen]. simpl.
  split; [|by rewrite Hlen]. by exists e.
Qed.
End blocks.

Section compare.
Context `{MyersDiffLaws} (is_alphabetic : N → bool).

(** The blocks of the comparison of two texts: a chain of corners from the start
    of both texts to their ends, an edit script of the bytes for each of them. *)
Definition split_ok (text1 text2 : str) (policy : ComparisonPolicy) (lbs : list LineBlock) : Prop :=
  ∃ words1 words2 rs,
    chunks_in text1 0 0 (byte_len text1) words1 ∧ chunks_in text2 0 0 (byte_len text2) words2 ∧
    corner_ok text1 text2 words1 words2 rs origin ∧
    block_chain text1 text2 words1 words2 rs policy origin lbs (final text1 text2 words1 words2) ∧
    (lbs = [] → byte_len text1 = 0 ∧ byte_len text2 = 0).

Lemma compare_and_split_spec text1 text2 policy :
  runs (compare_and_split is_alphabetic text1 text2 policy) (λ r,
    match r with inl _ => True | inr lbs => split_ok text1 text2 policy lbs end).
Proof.
  unfold compare_and_split.
  eapply runs_bind; [apply inline_chunks_spec|]. intros words1 Hw1. cbn beta.
  eapply runs_bind; [apply inline_chunks_spec|]. intros words2 Hw2. cbn beta.
  eapply runs_bind; [by apply diff_chunks_spec|]. intros [too_big|changes] Hc; cbn beta iota; [done|].
  eapply runs_bind; [by apply optimize_word_chunks_spec|]. intros c [(Hl1&Hl2&Hs) _]. cbn beta.
  pose proof (origin_ok _ _ _ _ Hw1 Hw2 _ Hs) as Hor.
  eapply runs_bind; [by apply (split_line_blocks_spec _ _ _ _ Hw1 Hw2 _ Hs)|].
  intros bs [Hchain Hnil]. cbn beta.
  eapply runs_bind; [by apply (sub_iterables_spec _ _ _ _ _ Hs bs origin (final text1 text2 words1 words2) [] (Changes.changed c))|].
  intros subs Hsubs. cbn beta.
  eapply runs_bind; [by apply (line_blocks_spec text1 text2 words1 words2 Hw1 Hw2 (Changes.changed c) policy
    bs subs origin (final text1 text2 words1 words2))|]. intros lbs [Hlbs Hlen]. simpl.
  exists words1, words2, (Changes.changed c). split_and!; [done..|].
  intros ->. apply Hnil. by destruct bs.
Qed.
End compare.

(** * paneflow-textdiff: correctness of the comparison with inner fragments *)

(** ** Slices of a text *)

(** [s] holds the bytes of [text] from [a] up to [b]. *)
Definition slice_of (text : str) (a b : nat) (s : str) : Prop :=
  bytes s = cut (bytes text) a b ∧ a ≤ b ∧ byte_len s = b - a ∧
  ∀ o, char_boundary s o → char_boundary text (a + o).

Lemma char_index_inv text o i :
  char_index text o = Some i → i ≤ length text ∧ o = byte_len (take i text).
Proof.
  revert o i. induction text as [|c text IH]; intros [|o] i; simpl; try done.
  - intros [= <-]. done.
  - intros [= <-]. split; [lia|done].
  - intros (k&Hk&Hi)%bind_Some. apply fmap_Some in Hi as (j&Hj&->).
    destruct (IH _ _ Hj) as [? Hlen]. split; [lia|].
    unfold checked_sub in Hk. destruct (_ <=? _) eqn:Hle; [|done]. injection Hk as <-.
    apply Nat.leb_le in Hle. cbn [take firstn]. rewrite byte_len_cons. unfold take in *. lia.
Qed.

Lemma str_slice_of text a b s : a ≤ b → str_slice text a b = Some s → slice_of text a b s.
Proof.
  intros Hab Hs. pose proof Hs as Hs'. unfold str_slice in Hs'.
  apply bind_Some in Hs' as (i&Hi&Hs'). apply bind_Some in Hs' as (j&Hj&Hs').
  destruct (char_index_inv _ _ _ Hi) as [Hi1 Hi2], (char_index_inv _ _ _ Hj) as [Hj1 Hj2].
  pose proof (str_slice_spec text a b (ex_intro _ i (conj Hi1 Hi2)) (ex_intro _ j (conj Hj1 Hj2)) Hab)
    as (s'&Hs''&Hb&Hl&_)%runs_some. rewrite Hs in Hs''. injection Hs'' as <-.
  split_and!; [done..|]. intros o (k&Hk&->).
  assert (s = take (j - i) (drop i text)) as Heq.
  { unfold slice in Hs'. by destruct (_ && _); [injection Hs'|]. }
  exists (i + k). rewrite Heq, length_take, length_drop in Hk. split; [lia|].
  rewrite Hi2, Heq, <- take_take_drop, byte_len_app. f_equal. f_equal.
  rewrite take_take. f_equal. lia.
Qed.

Lemma slice_of_trans text a b s c d u :
  slice_of text a b s → slice_of s c d u → d ≤ byte_len s → slice_of text (a + c) (a + d) u.
Proof.
  intros (Hb&?&Hl&Hs) (Hb'&?&Hl'&Hs') ?. split_and!; [|lia|lia|].
  - rewrite Hb', Hb, cut_cut by lia. done.
  - intros o Ho. rewrite <- Nat.add_assoc. by apply Hs, Hs'.
Qed.

(** ** Edit scripts of slices *)

Section shift.
Context (text1 text2 s1 s2 : str) (a1 b1 a2 b2 : nat) (policy : ComparisonPolicy).
Context (H1 : slice_of text1 a1 b1 s1) (H2 : slice_of text2 a2 b2 s2).

Lemma policy_gap_shift p1 p2 q1 q2 :
  q1 ≤ b1 - a1 → q2 ≤ b2 - a2 → policy_gap s1 s2 policy p1 p2 q1 q2 →
  policy_gap text1 text2 policy (a1 + p1) (a2 + p2) (a1 + q1) (a2 + q2).
Proof using H1 H2.
  destruct H1 as (Hb1&_&_&_), H2 as (Hb2&_&_&_). intros ??.
  assert (spaced_gap (bytes s1) (bytes s2) p1 p2 q1 q2 →
    spaced_gap (bytes text1) (bytes text2) (a1 + p1) (a2 + p2) (a1 + q1) (a2 + q2)) as Hspaced.
  { intros (?&?&Heq). split_and!; [lia..|]. by rewrite Hb1, Hb2, !cut_cut in Heq by lia. }
  destruct policy; simpl; [|done..].
  apply gap_shift. intros i j ?? (x&Hi&Hj). rewrite Hb1, lookup_cut in Hi by lia.
  rewrite Hb2, lookup_cut in Hj by lia. by exists x.
Qed.

Lemma gap_script_shift rs p1 p2 q1 q2 :
  q1 ≤ b1 - a1 → q2 ≤ b2 - a2 → gap_script (policy_gap s1 s2 policy) p1 p2 rs q1 q2 →
  gap_script (policy_gap text1 text2 policy) (a1 + p1) (a2 + p2)
    ((λ r, mkRange (a1 + start1 r) (a1 + end1 r) (a2 + start2 r) (a2 + end2 r)) <$> rs)
    (a1 + q1) (a2 + q2).
Proof using H1 H2.
  intros ??. assert (∀ rs p1 p2, gap_script (policy_gap s1 s2 policy) p1 p2 rs q1 q2 →
    p1 ≤ q1 ∧ p2 ≤ q2) as Hle.
  { intros rs0. induction rs0 as [|r rs0 IH]; intros ??; simpl; [apply policy_gap_le|].
    intros (?%policy_gap_le&?&?&?%IH). lia. }
  revert p1 p2. induction rs as [|r rs IH]; intros p1 p2; simpl; [by apply policy_gap_shift|].
  intros (?&?&?&Hs). pose proof (Hle _ _ _ Hs). split_and!; [apply policy_gap_shift; (done || lia)|lia|lia|].
  by apply IH.
Qed.

Lemma on_boundaries_shift r :
  on_boundaries s1 s2 r →
  on_boundaries text1 text2 (mkRange (a1 + start1 r) (a1 + end1 r) (a2 + start2 r) (a2 + end2 r)).
Proof using H1 H2.
  destruct H1 as (_&_&_&Hs1), H2 as (_&_&_&Hs2). intros (?&?&?&?). split_and!; simpl; auto.
Qed.
End shift.

(** ** The fragments of a changed range *)

Section inner.
Context `{Hmyers : MyersDiff} `{Hlaws : !MyersDiffLaws} (is_alphabetic : N → bool).
Context (text1 text2 : str) (policy : ComparisonPolicy).

Section chunks.
Context (r : Range) (sub1 sub2 : str) (words1 words2 : list InlineChunk) (rs : list Range).
#[local] Notation os := (offsets_range text1 text2 r).
#[local] Notation f0 := (mkLineFragment r os None).
Context (Hsub1 : slice_of text1 (start1 os) (end1 os) sub1).
Context (Hsub2 : slice_of text2 (start2 os) (end2 os) sub2).

(** The words after the corner [c] hold at most as many newlines as there are
    lines left. *)
Definition newlines_left (l1 l2 : nat) (c : Corner) : Prop :=
  l1 + count_newlines (drop (cw1 c) words1) ≤ end1 r ∧
  l2 + count_newlines (drop (cw2 c) words2) ≤ end2 r.

Lemma count_newlines_split words k k' :
  k ≤ k' → count_newlines (drop k words) =
    count_newlines (take (k' - k) (drop k words)) + count_newlines (drop k' words).
Proof.
  intros. rewrite <- count_newlines_app. f_equal.
  rewrite <- (take_drop (k' - k) (drop k words)) at 1. rewrite drop_drop. do 2 f_equal. lia.
Qed.

Lemma block_edits c e lb :
  corner_ok sub1 sub2 words1 words2 rs c → corner_ok sub1 sub2 words1 words2 rs e →
  corner_le c e → block_script sub1 sub2 words1 words2 policy c e lb →
  let bo := mkRange (start1 os + co1 c) (start1 os + co1 e) (start2 os + co2 c) (start2 os + co2 e) in
  edits_ok text1 text2 policy bo (piece_range (start1 bo) (start2 bo) <$> fragments lb).
Proof using Hsub1 Hsub2.
  intros _ (_&(_&Hx1%boundary_le&_)&(_&Hx2%boundary_le&_)) (_&_&Hle1&Hle2) (_&_&_&s1&s2&changes&Hs1&Hs2&Hscript&->) bo.
  pose proof (slice_of_trans _ _ _ _ _ _ _ Hsub1 (str_slice_of _ _ _ _ Hle1 Hs1) Hx1) as Ho1.
  pose proof (slice_of_trans _ _ _ _ _ _ _ Hsub2 (str_slice_of _ _ _ _ Hle2 Hs2) Hx2) as Ho2.
  destruct Hscript as [Hs Hk]. unfold convert_into_fragments.
  assert (piece_range (start1 bo) (start2 bo) <$> ((λ range, mkFragment (start1 range) (end1 range)
      (start2 range) (end2 range)) <$> Changes.changed changes) =
    (λ r, mkRange (start1 bo + start1 r) (start1 bo + end1 r) (start2 bo + start2 r) (start2 bo + end2 r))
      <$> Changes.changed changes) as -> by by rewrite <- list_fmap_compose.
  split.
  - pose proof Ho1 as (_&_&Hl1&_). pose proof Ho2 as (_&_&Hl2&_).
    pose proof (gap_script_shift text1 text2 s1 s2 _ _ _ _ policy Ho1 Ho2 (Changes.changed changes)
      0 0 (byte_len s1) (byte_len s2) ltac:(lia) ltac:(lia) Hs) as Hg.
    subst bo. cbn [start1 end1 start2 end2] in *. rewrite !Nat.add_0_r in Hg.
    replace (start1 os + co1 c + byte_len s1) with (start1 os + co1 e) in Hg by lia.
    by replace (start2 os + co2 c + byte_len s2) with (start2 os + co2 e) in Hg by lia.
  - apply Forall_fmap. eapply Forall_impl; [exact Hk|]. intros x [Hx _].
    by eapply on_boundaries_shift.
Qed.

Lemma inner_chunks_spec lbs c l1 l2 :
  corner_ok sub1 sub2 words1 words2 rs c →
  block_chain sub1 sub2 words1 words2 rs policy c lbs (final sub1 sub2 words1 words2) →
  newlines_left l1 l2 c → lbs ≠ [] →
  runs (inner_chunks f0 l1 l2 lbs) (group_ok text1 text2 policy
    (mkRange l1 (end1 r) l2 (end2 r))
    (mkRange (start1 os + co1 c) (end1 os) (start2 os + co2 c) (end2 os))).
Proof using Hsub1 Hsub2.
  revert c l1 l2. induction lbs as [|lb lbs IH]; intros c l1 l2 Hc Hchain [Hn1 Hn2] Hne; [done|].
  destruct Hchain as (e&He&Hce&Hlb&Hchain). pose proof (block_edits c e lb Hc He Hce Hlb) as Hedits.
  pose proof Hlb as (Hos&Hnl1&Hnl2&_). pose proof Hce as (Hk1&Hk2&Ho1&Ho2).
  pose proof (count_newlines_split words1 _ _ Hk1). pose proof (count_newlines_split words2 _ _ Hk2).
  cbn [inner_chunks]. rewrite Hos. cbn [block_of block_offsets start1 end1 start2 end2 offsets].
  set (ends := match lbs with [] => _ | _ => _ end).
  assert (l1 ≤ ends.1 ∧ l2 ≤ ends.2 ∧ (lbs ≠ [] → newlines_left ends.1 ends.2 e) ∧
    (lbs = [] → ends = (end1 r, end2 r))) as (Hl1&Hl2&Hleft&Hlast).
  { subst ends. unfold newlines_left. destruct lbs; simpl; rewrite ?Hnl1, ?Hnl2; split_and!; try done; lia. }
  destruct ends as [e1 e2]. cbn [fst snd] in *.
  rewrite range_new_some by lia. cbn [mbind option_bind].
  rewrite range_new_some by lia. cbn [mbind option_bind].
  rewrite !(Nat.add_comm _ (start1 os)), !(Nat.add_comm _ (start2 os)).
  set (bo := mkRange (start1 os + co1 c) _ _ _). assert (ordered bo) as Hbo by (split; simpl; lia).
  eapply runs_bind; [by apply with_inner_spec|]. intros f (Hf1&Hf2&Hf3). cbn beta.
  assert (fragment_ok text1 text2 policy f) as Hf.
  { unfold fragment_ok. rewrite Hf1, Hf2, Hf3. split; [by split|]. split; [exact Hbo|exact Hedits]. }
  destruct (decide (lbs = [])) as [->|Hlbs].
  - simpl. specialize (Hlast eq_refl). injection Hlast as -> ->. simpl in Hchain. subst e.
    pose proof Hsub1 as (_&?&Hz1&_). pose proof Hsub2 as (_&?&Hz2&_).
    unfold starts_at, ends_at. rewrite Hf1, Hf2. simpl in *. split_and!; try done; lia.
  - eapply runs_bind; [by apply (IH e); auto|]. intros g Hg. cbn [runs].
    destruct g as [|f' g]; [done|]. destruct Hg as (Hst&Hf'&Hg&Hend).
    cbn [group_ok linked]. rewrite last_default_cons.
    split; [unfold starts_at; by rewrite Hf1, Hf2|]. split; [done|]. split; [|done].
    split; [|done]. unfold touches. by rewrite Hf1, Hf2.
Qed.
End chunks.

(** ** [create_inner] *)

#[local] Notation texts1 := (split_lines text1).
#[local] Notation texts2 := (split_lines text2).

(** The changed range [r] of a line comparison. *)
Definition changed_range (r : Range) : Prop :=
  ordered r ∧ end1 r ≤ length texts1 ∧ end2 r ≤ length texts2 ∧
  trimmed ((λ t, Line.new t policy) <$> texts1) ((λ t, Line.new t policy) <$> texts2) r.

#[local] Notation os := (offsets_range text1 text2).
#[local] Notation group_of r := (group_ok text1 text2 policy r (os r)).

Lemma offsets_range_ordered r : ordered r → ordered (os r).
Proof. intros []. by split; apply line_offset_mono. Qed.

Lemma offsets_range_boundaries r : on_boundaries text1 text2 (os r).
Proof. split_and!; apply line_offset_boundary. Qed.

(** A fragment without inner fragments replaces its whole range. *)
Lemma whole_fragment_ok r : ordered r → group_of r [mkLineFragment r (os r) None].
Proof.
  intros Hr. pose proof (offsets_range_ordered r Hr) as [? ?].
  split; [done|]. split; [|done]. split; [done|]. split; [done|].
  unfold edits_ok, edits_of. cbn [inner offsets gap_script].
  split; [split_and!; try done; apply policy_gap_refl|].
  repeat constructor; apply line_offset_boundary.
Qed.

Lemma is_equals_gap s1 s2 a1 b1 a2 b2 :
  slice_of text1 a1 b1 s1 → slice_of text2 a2 b2 s2 → is_equals s1 s2 policy = true →
  policy_gap text1 text2 policy a1 a2 b1 b2.
Proof.
  intros (H1&?&Hl1&_) (H2&?&Hl2&_) Heq.
  assert (spaced_gap (bytes text1) (bytes text2) a1 a2 b1 b2) as Hs.
  { split_and!; [done..|]. rewrite <- H1, <- H2, !solid_non_space.
    apply is_equals_iw, is_equals_spec in Heq. by injection Heq. }
  destruct policy; try done. apply bool_decide_eq_true in Heq. subst s2.
  simpl. split_and!; [done..|lia|]. intros i Hi.
  destruct (lookup_lt_is_Some_2 (bytes s1) i) as [x Hx]; [unfold byte_len in *; lia|].
  exists x. rewrite <- (lookup_cut (bytes text1) a1 b1 i), <- (lookup_cut (bytes text2) a2 b2 i) by lia.
  by rewrite <- H1, <- H2.
Qed.

Lemma empty_lines_equal p : (Line.new [] p ≡? Line.new [] p) = true.
Proof. unfold partial_eq, eq_checked, line_eq. rewrite bool_decide_true by done. simpl. by rewrite N.eqb_refl, is_equals_refl. Qed.

(** A changed range with lines on both sides has bytes on one of them. *)
Lemma changed_range_bytes r :
  changed_range r → start1 r < end1 r → start2 r < end2 r →
  byte_len (lines_text text1 (start1 r) (end1 r)) = 0 →
  byte_len (lines_text text2 (start2 r) (end2 r)) = 0 → False.
Proof.
  intros (_&Hl1&Hl2&Htrim) H1 H2 He1 He2. destruct (Htrim H1 H2) as [Hne _]. apply Hne.
  destruct (lines_text_empty _ _ _ H1 Hl1 He1) as (_&_&Hi).
  destruct (lines_text_empty _ _ _ H2 Hl2 He2) as (_&_&Hj).
  exists (Line.new [] policy), (Line.new [] policy).
  rewrite !list_lookup_fmap, Hi, Hj. split_and!; [done..|apply empty_lines_equal].
Qed.

Lemma slice_newlines text i j s words :
  i ≤ j → slice_of text (line_offset text i) (line_offset text j) s →
  chunks_in s 0 0 (byte_len s) words → i + count_newlines words ≤ j.
Proof.
  intros Hij (Hb&_) Hw. pose proof (chunks_newlines _ _ _ _ Hw ltac:(done)) as Hn.
  rewrite cut_all in Hn by done. rewrite Hb, cut_lines in Hn by done.
  pose proof (lines_text_newlines text i j). lia.
Qed.

Lemma create_inner_spec r try_compute :
  changed_range r →
  runs (create_inner is_alphabetic (mkLineFragment r (os r) None) text1 text2 policy try_compute)
    (λ o, match o with inl _ => True | inr g => group_of r g end).
Proof using Hlaws.
  intros Hr. pose proof Hr as (Hord&_). pose proof (offsets_range_ordered r Hord) as [Ho1 Ho2].
  pose proof Hord as [? ?].
  unfold create_inner. cbn [offsets lines].
  pose proof (str_slice_spec text1 _ _ (line_offset_boundary _ (start1 r)) (line_offset_boundary _ (end1 r)) Ho1)
    as (sub1&Hs1&Hb1&Hl1&_)%runs_some.
  pose proof (str_slice_spec text2 _ _ (line_offset_boundary _ (start2 r)) (line_offset_boundary _ (end2 r)) Ho2)
    as (sub2&Hs2&Hb2&Hl2&_)%runs_some.
  cbn [offsets_range start1 end1 start2 end2]. rewrite Hs1, Hs2. cbn [mbind option_bind].
  apply str_slice_of in Hs1, Hs2; [|done..].
  destruct (_ || _) eqn:Hempty.
  - cbn [runs]. destruct (is_equals sub1 sub2 policy) eqn:Heq; [|by apply whole_fragment_ok].
    split; [done|]. split; [|done]. split; [done|]. split; [done|].
    split; [by eapply is_equals_gap|constructor].
  - apply orb_false_elim in Hempty as [Hn1%Nat.eqb_neq Hn2%Nat.eqb_neq].
    destruct try_compute; [|by apply whole_fragment_ok].
    eapply runs_bind; [apply compare_and_split_spec|]. intros [too_big|lbs]; cbn beta iota; [done|].
    intros (words1&words2&rs&Hw1&Hw2&Hor&Hchain&Hnil).
    assert (lbs ≠ []) as Hne.
    { intros ->. destruct (Hnil eq_refl) as [Hz1 Hz2].
      pose proof (line_offset_add text1 _ _ H). pose proof (line_offset_add text2 _ _ H0).
      apply (changed_range_bytes r); [done|lia..]. }
    rewrite assert_some by by destruct lbs. cbn [mbind option_bind].
    eapply runs_bind; [apply (inner_chunks_spec r sub1 sub2 words1 words2 rs Hs1 Hs2 lbs origin); try done|].
    + split; simpl; by eapply slice_newlines.
    + intros g Hg. cbn [runs origin co1 co2] in *. rewrite !Nat.add_0_r in Hg.
      by destruct r.
Qed.

Lemma create_inner_fragments_spec rs res n :
  Forall changed_range rs →
  runs (for_each ((λ r, mkLineFragment r (os r) None) <$> rs) (add_inner is_alphabetic text1 text2 policy) (res, n))
    (λ '(out, _), ∃ gs, out = res ++ mjoin gs ∧ Forall2 (λ r g, group_of r g) rs gs).
Proof using Hlaws.
  intros Hall. revert res n. induction Hall as [|r rs Hr Hrs IH]; intros res n.
  - exists []. by rewrite app_nil_r.
  - cbn [fmap list_fmap for_each].
    eapply (runs_bind _ _ (λ st, ∃ g, group_of r g ∧ st.1 = res ++ g)).
    + unfold add_inner. eapply runs_bind; [by apply create_inner_spec|].
      intros [too_big|g] Hg; simpl; [|by exists g].
      exists [mkLineFragment r (os r) None]. split; [|done]. apply whole_fragment_ok, Hr.
    + intros [out m] (g&Hg&[= ->]). eapply runs_mono; [apply IH|].
      intros [out' _] (gs&->&?). exists (g :: gs). rewrite <- app_assoc. split; [done|by constructor].
Qed.

(** ** [compare_lines_inner] *)

Lemma groups_of_ranges rs gs :
  separated rs → Forall2 (λ r g, group_of r g) rs gs →
  groups_ok text1 text2 policy ((λ r, (r, os r)) <$> rs) gs.
Proof.
  intros Hsep Hall. induction Hall as [|r g rs gs Hg Hgs IH]; [done|].
  destruct Hsep as (_&Hr&Hsep). rewrite fmap_cons. split; [done|]. split; [|by apply IH].
  by destruct rs.
Qed.

Lemma changed_ranges E rs p1 p2 :
  script E p1 p2 rs (length texts1) (length texts2) →
  Forall (trimmed ((λ t, Line.new t policy) <$> texts1) ((λ t, Line.new t policy) <$> texts2)) rs →
  Forall changed_range rs.
Proof.
  revert p1 p2. induction rs as [|r rs IH]; intros p1 p2; [constructor|].
  intros (_&?&?&Hs) [Hr Hrs]%Forall_cons. pose proof (script_bounds _ _ _ _ _ _ Hs) as [? ?].
  constructor; [|by eapply IH]. by split_and!.
Qed.

Lemma line_fragments_spec rs :
  Forall changed_range rs →
  mapM (λ range, line_fragment range (line_offsets text1) (line_offsets text2)) rs =
    Some ((λ r, mkLineFragment r (os r) None) <$> rs).
Proof.
  intros Hall. apply mapM_Some_2. apply Forall2_fmap_r, Forall_Forall2_diag.
  eapply Forall_impl; [exact Hall|]. intros r ([? ?]&?&?&_). by apply line_fragment_spec.
Qed.

(** The fragment of the changed range [r]. *)
Definition fragment_of (r : Range) (f : LineFragment) : Prop :=
  lines f = r ∧ offsets f = os r ∧ fragment_ok text1 text2 policy f.

Lemma whole_groups rs :
  Forall changed_range rs →
  Forall2 (λ r g, group_of r g) rs ((λ r, [mkLineFragment r (os r) None]) <$> rs).
Proof.
  intros Hall. apply Forall2_fmap_r, Forall_Forall2_diag.
  eapply Forall_impl; [exact Hall|]. intros r [? _]. by apply whole_fragment_ok.
Qed.

Lemma join_singletons {A B} (f : A → B) l : mjoin ((λ x, [f x]) <$> l) = f <$> l.
Proof. induction l as [|x l IH]; [done|]. rewrite !fmap_cons, <- IH. done. Qed.

Lemma unsquashed_spec rs highlight :
  Forall changed_range rs →
  runs (match highlight with
        | HighlightWords => create_inner_fragments is_alphabetic
                              ((λ r, mkLineFragment r (os r) None) <$> rs) text1 text2 policy
        | HighlightLines | HighlightNone =>
            Some (mkUnsquashed ((λ r, mkLineFragment r (os r) None) <$> rs) 0)
        end)
    (λ rep, ∃ gs, u_fragments rep = mjoin gs ∧ Forall2 (λ r g, group_of r g) rs gs).
Proof using Hlaws.
  intros Hall. assert (∃ gs, (λ r, mkLineFragment r (os r) None) <$> rs = mjoin gs ∧
    Forall2 (λ r g, group_of r g) rs gs) as Hwhole.
  { eexists. split; [symmetry; apply join_singletons|by apply whole_groups]. }
  destruct highlight; [done| |done]. unfold create_inner_fragments.
  eapply runs_bind; [by apply create_inner_fragments_spec|].
  intros [out n] (gs&->&Hgs). by exists gs.
Qed.

(** The fragments of both texts are the changed ranges of the line comparison,
    each with its offsets and an edit script of its bytes. *)
Lemma compare_lines_inner_spec highlight :
  runs (compare_lines_inner is_alphabetic text1 text2 policy highlight) (λ fs,
    ∃ rs, compare_lines texts1 texts2 policy = Some rs ∧ Forall2 fragment_of rs fs).
Proof using Hlaws.
  unfold compare_lines_inner, compare_lines_inner_report, compare_lines_inner_unsquashed, compare_lines.
  destruct (bool_decide_reflect (text1 = text2)) as [<-|Hne].
  { rewrite bool_decide_true by done. simpl. exists []. by split. }
  rewrite bool_decide_false.
  2: { intros Heq. apply Hne. rewrite <- (pieces_join text1), <- (pieces_join text2).
       unfold pieces. by rewrite Heq. }
  pose proof (compare_spec policy texts1 texts2) as (c&Hc&_&_&Hscript&Hsep&Htrim)%runs_some.
  rewrite Hc. cbn [mbind option_bind]. pose proof (changed_ranges _ _ _ _ Hscript Htrim) as Hall.
  rewrite (line_fragments_spec _ Hall). cbn [mbind option_bind].
  pose proof (unsquashed_spec _ highlight Hall) as (rep&Hrep&gs&Hgs&Hgroups)%runs_some.
  rewrite Hrep. cbn [mbind option_bind]. rewrite Hgs.
  pose proof (squash_spec text1 text2 policy _ _ (groups_of_ranges _ _ Hsep Hgroups))
    as (fs&Hfs&Hout)%runs_some.
  rewrite Hfs. simpl. exists (Changes.changed c). split; [done|].
  apply Forall2_fmap_l in Hout. exact Hout.
Qed.
End inner.

(** ** Applying the fragments *)

Section apply.
Context (text1 text2 : str) (policy : ComparisonPolicy).

Lemma policy_gap_spaced p1 p2 q1 q2 :
  policy_gap text1 text2 policy p1 p2 q1 q2 →
  spaced_gap (bytes text1) (bytes text2) p1 p2 q1 q2.
Proof. destruct policy; [apply gap_spaced|done..]. Qed.

(** All the edits of a comparison are an edit script of the bytes up to
    whitespace. *)
Lemma all_edits_spec rs fs p1 p2 :
  script (text_eq policy (split_lines text1) (split_lines text2)) p1 p2 rs
    (length (split_lines text1)) (length (split_lines text2)) →
  Forall2 (fragment_of text1 text2 policy) rs fs →
  gap_script (spaced_gap (bytes text1) (bytes text2)) (line_offset text1 p1) (line_offset text2 p2)
    (mjoin (edits_of <$> fs)) (byte_len text1) (byte_len text2).
Proof.
  intros Hs Hall. revert p1 p2 Hs. rewrite <- !line_offset_end.
  induction Hall as [|r f rs fs Hf Hfs IH]; intros p1 p2; simpl; [by apply line_gap_spaced|].
  intros (Hg%line_gap_spaced&_&_&Hs). destruct Hf as (<-&Hos&_&_&[He _]). rewrite Hos in He.
  eapply gap_script_before; [apply spaced_gap_app|exact Hg|].
  eapply (gap_script_join text1 text2 IgnoreWhitespaces); [|by apply IH].
  eapply gap_script_mono; [|exact He]. intros ????. apply policy_gap_spaced.
Qed.
End apply.

(** Under the default policy the edits of a fragment rewrite its bytes. *)
Lemma fragment_rewrites text1 text2 f :
  offsets f = offsets_range text1 text2 (lines f) → fragment_ok text1 text2 Default f →
  patch (start1 (offsets f)) (take (end1 (offsets f)) (bytes text1))
    (take (end2 (offsets f)) (bytes text2)) (edits_of f) =
  cut (bytes text2) (start2 (offsets f)) (end2 (offsets f)).
Proof.
  intros Hos (_&_&[Hs%script_gap_script _]).
  pose proof (boundary_le _ _ (line_offset_boundary text1 (end1 (lines f)))) as H1.
  pose proof (boundary_le _ _ (line_offset_boundary text2 (end2 (lines f)))) as H2.
  assert (end1 (offsets f) ≤ length (bytes text1) ∧ end2 (offsets f) ≤ length (bytes text2)) as [??]
    by (by rewrite Hos).
  rewrite (patch_script _ _ _ _ (start2 (offsets f))).
  - unfold cut. by rewrite skipn_firstn_comm.
  - rewrite !length_take, !Nat.min_l by done. eapply script_mono; [|exact Hs].
    intros i j ?? (x&Hi&Hj). exists x. by rewrite !lookup_take_lt by done.
Qed.
