(* ===== verification/DiffInnerProperties.v ===== *)
(** * paneflow-textdiff: the properties of the comparison with inner fragments

    What a caller of [compare_lines_inner] relies on, and the contracts of the
    routines in between. *)

From S2P Require Import Prelude DiffRange DiffText DiffUtf8 DiffChanges DiffChunks DiffLines DiffWords DiffWordsCorrect DiffCorrections DiffLinesCorrect DiffSplitter DiffInner DiffSplitterCorrect DiffInnerCorrect DiffFragments.

(** ** Concrete texts *)

(** The letters of ASCII. *)
Definition ascii_letter (c : N) : bool :=
  (((65 <=? c) && (c <=? 90)) || ((97 <=? c) && (c <=? 122)))%N.

(** The lines [a = f(x);], [y] and an empty last line. *)
Definition code_old : str :=
  [97; 32; 61; 32; 102; 40; 120; 41; 59; 10; 121; 10]%N.

(** The lines [a = g(x, z);], [y] and an empty last line. *)
Definition code_new : str :=
  [97; 32; 61; 32; 103; 40; 120; 44; 32; 122; 41; 59; 10; 121; 10]%N.

#[local] Notation reference_inner :=
  (@compare_lines_inner ReferenceDiff.reference_hunks ascii_letter).

(** ** The comparison *)

Section compare.
Context `{MyersDiffLaws} (is_alphabetic : N → bool).

(** C3: [compare_lines_inner] never panics, for any two texts, policy and
    highlighting: no slice cuts a character in two, no [assert!] fails, no
    [usize] underflows.  It returns one fragment per changed range of
    [compare_lines], with the byte offsets of those lines, and inside each
    fragment ordered ranges of bytes, on character boundaries, outside of which
    the bytes of both sides are equal; equal up to whitespace unless the policy
    is the default one. *)
Theorem compare_lines_inner_correct (text1 text2 : str) (p : ComparisonPolicy)
    (highlight : HighlightPolicy) :
  ∃ fs, compare_lines_inner is_alphabetic text1 text2 p highlight = Some fs ∧
    compare_lines (split_lines text1) (split_lines text2) p = Some (lines <$> fs) ∧
    Forall (λ f, offsets f = offsets_range text1 text2 (lines f) ∧
                 fragment_ok text1 text2 p f) fs.
Proof.
  destruct (proj1 (runs_some _ _) (compare_lines_inner_spec is_alphabetic text1 text2 p highlight))
    as (fs&Hfs&rs&Hrs&Hall). exists fs. split; [done|]. rewrite Hrs.
  clear Hfs Hrs. induction Hall as [|r f rs fs (<-&?&?) _ [[= IH] ?]]; [done|].
  rewrite fmap_cons, <- IH. split; [done|]. by constructor.
Qed.

(** C4: Under the default policy the inner ranges of a fragment are a patch:
    replacing them in the bytes of the changed lines of the first text gives the
    bytes of the changed lines of the second. *)
Theorem compare_lines_inner_patch (text1 text2 : str) (highlight : HighlightPolicy) :
  runs (compare_lines_inner is_alphabetic text1 text2 Default highlight) (Forall (λ f,
    patch (start1 (offsets f)) (take (end1 (offsets f)) (bytes text1))
      (take (end2 (offsets f)) (bytes text2)) (edits_of f) =
    cut (bytes text2) (start2 (offsets f)) (end2 (offsets f)))).
Proof.
  eapply runs_mono; [apply compare_lines_inner_spec|]. intros fs (rs&_&Hall).
  induction Hall as [|r f rs fs (<-&?&?) _ IH]; constructor; [by apply fragment_rewrites|done].
Qed.

(** Under every policy the fragments of a comparison, applied together,
    rewrite the first text into the second up to whitespace. *)
Theorem compare_lines_inner_rewrites (text1 text2 : str) (p : ComparisonPolicy)
    (highlight : HighlightPolicy) :
  runs (compare_lines_inner is_alphabetic text1 text2 p highlight) (λ fs,
    solid (patch 0 (bytes text1) (bytes text2) (mjoin (edits_of <$> fs))) = solid (bytes text2)).
Proof.
  eapply runs_mono; [apply compare_lines_inner_spec|]. intros fs (rs&Hrs&Hall).
  pose proof (compare_lines_spec p (split_lines text1) (split_lines text2)) as Hs.
  rewrite Hrs in Hs. destruct Hs as [Hs _].
  exact (patch_spaced _ _ 0 0 _ (all_edits_spec text1 text2 p rs fs 0 0 Hs Hall)).
Qed.

(** [compare_and_split] cuts both texts into blocks that follow each other
    from the start of the texts to their ends; each block has an edit script of
    its own bytes, and counts its newlines.  No block is missing: the list is
    empty for empty texts only. *)
Theorem compare_and_split_correct (text1 text2 : str) (p : ComparisonPolicy) :
  runs (compare_and_split is_alphabetic text1 text2 p) (λ r,
    match r with inl _ => True | inr blocks => split_ok text1 text2 p blocks end).
Proof. apply compare_and_split_spec. Qed.

(** Comparing the punctuation and delimiters between matched words turns an
    edit script of words into an edit script of bytes with separated ranges on
    character boundaries. *)
Theorem match_adjustment_delimiters_correct (text1 text2 : str) (words1 words2 : list InlineChunk)
    (shift1 shift2 : nat) (changes : Changes.t) :
  chunks_in text1 shift1 0 (byte_len text1) words1 →
  chunks_in text2 shift2 0 (byte_len text2) words2 →
  changes_ok (word_eq text1 text2 words1 words2 shift1 shift2) (length words1) (length words2) changes →
  runs (match_adjustment_delimiters text1 text2 words1 words2 shift1 shift2 changes) (λ c,
    changes_ok (same_byte (bytes text1) (bytes text2)) (byte_len text1) (byte_len text2) c ∧
    separated (Changes.changed c) ∧ Forall (on_boundaries text1 text2) (Changes.changed c)).
Proof. intros. by apply match_adjustment_delimiters_spec. Qed.
End compare.

(** Adjusting a byte script to the policy never panics; it keeps the bytes
    outside of the ranges equal under the default policy, equal up to whitespace
    under the others, and leaves no empty range. *)
Theorem match_adjustment_whitespaces_correct (text1 text2 : str) (c : Changes.t)
    (p : ComparisonPolicy) :
  script (same_byte (bytes text1) (bytes text2)) 0 0 (Changes.changed c)
    (byte_len text1) (byte_len text2) →
  Forall (on_boundaries text1 text2) (Changes.changed c) →
  runs (match_adjustment_whitespaces text1 text2 c p) (byte_script text1 text2 p).
Proof. apply match_adjustment_whitespaces_spec. Qed.

(** [squash] undoes the splitting: given, for every changed range, the
    touching fragments it was split into, it returns one fragment per range,
    with the lines and offsets of the range and an edit script of its bytes. *)
Theorem squash_restores (text1 text2 : str) (p : ComparisonPolicy)
    (ranges : list (Range * Range)) (groups : list (list LineFragment)) :
  groups_ok text1 text2 p ranges groups →
  runs (squash (mjoin groups)) (λ fs,
    Forall2 (λ '(ls, os), squashed text1 text2 p ls os) ranges fs).
Proof. apply squash_spec. Qed.

(** The offsets of a range of lines cut exactly the bytes of those lines,
    their newlines included, at character boundaries. *)
Theorem offsets_of_lines (text : str) (i j : nat) :
  i ≤ j → j ≤ length (split_lines text) →
  runs (offsets_of (line_offsets text) i j) (λ '(s, e),
    char_boundary text s ∧ char_boundary text e ∧ s ≤ e ∧
    cut (bytes text) s e = bytes (mjoin (cut (with_newlines (split_lines text)) i j))).
Proof.
  intros Hij Hj. rewrite offsets_of_spec by done. cbn [runs].
  split; [apply line_offset_boundary|]. split; [apply line_offset_boundary|].
  split; [by apply line_offset_mono|]. by apply cut_lines.
Qed.

(** ** Witnesses *)

Lemma compare_lines_inner_correct_witness :
  reference_inner code_old code_new Default HighlightWords =
    Some [mkLineFragment (mkRange 0 1 0 1) (mkRange 0 10 0 13)
            (Some [mkFragment 4 5 4 5; mkFragment 7 7 7 10])] ∧
  ∃ fs, reference_inner code_old code_new Default HighlightWords = Some fs ∧
    @compare_lines ReferenceDiff.reference_hunks (split_lines code_old) (split_lines code_new) Default =
      Some (lines <$> fs) ∧
    Forall (λ f, offsets f = offsets_range code_old code_new (lines f) ∧
                 fragment_ok code_old code_new Default f) fs.
Proof.
  split; [vm_compute; reflexivity|].
  exact (@compare_lines_inner_correct ReferenceDiff.reference_hunks ReferenceDiff.reference_laws
           ascii_letter code_old code_new Default HighlightWords).
Defined.

Lemma compare_lines_inner_patch_witness :
  runs (reference_inner code_old code_new Default HighlightWords) (Forall (λ f,
    patch (start1 (offsets f)) (take (end1 (offsets f)) (bytes code_old))
      (take (end2 (offsets f)) (bytes code_new)) (edits_of f) =
    cut (bytes code_new) (start2 (offsets f)) (end2 (offsets f)))).
Proof.
  exact (@compare_lines_inner_patch ReferenceDiff.reference_hunks ReferenceDiff.reference_laws
           ascii_letter code_old code_new HighlightWords).
Defined.

Lemma compare_lines_inner_rewrites_witness :
  runs (reference_inner code_old code_new IgnoreWhitespaces HighlightWords) (λ fs,
    solid (patch 0 (bytes code_old) (bytes code_new) (mjoin (edits_of <$> fs))) =
    solid (bytes code_new)).
Proof.
  exact (@compare_lines_inner_rewrites ReferenceDiff.reference_hunks ReferenceDiff.reference_laws
           ascii_letter code_old code_new IgnoreWhitespaces HighlightWords).
Defined.

Lemma compare_and_split_correct_witness :
  @compare_and_split ReferenceDiff.reference_hunks ascii_letter code_old code_new Default =
    Some (inr [mkLineBlock [mkFragment 4 5 4 5; mkFragment 7 7 7 10] (mkRange 0 10 0 13) 1 1;
               mkLineBlock [] (mkRange 10 12 13 15) 1 1]) ∧
  runs (@compare_and_split ReferenceDiff.reference_hunks ascii_letter code_old code_new Default)
    (λ r, match r with inl _ => True | inr blocks => split_ok code_old code_new Default blocks end).
Proof.
  split; [vm_compute; reflexivity|].
  exact (@compare_and_split_correct ReferenceDiff.reference_hunks ReferenceDiff.reference_laws
           ascii_letter code_old code_new Default).
Defined.

(** [x] against [x;]: the word is matched, the semicolon is added. *)
Lemma one_word_chunks (text : str) :
  char_boundary text 1 → chunks_in text 0 0 (byte_len text) [Word 0 1].
Proof.
  intros Hb. cbn [chunks_in InlineChunk.start InlineChunk.end_]. unfold chunk_at. simpl.
  split_and!; try done; auto with paneflow.
Qed.

Lemma match_adjustment_delimiters_correct_witness :
  let c := Changes.new [] 1 1 in
  let match_words := @match_adjustment_delimiters ReferenceDiff.reference_hunks
    [120]%N [120; 59]%N [Word 0 1] [Word 0 1] 0 0 in
  match_words c = Some (Changes.new [mkRange 1 1 1 2] 1 2) ∧
  runs (match_words c) (λ c,
    changes_ok (same_byte (bytes [120]%N) (bytes [120; 59]%N)) 1 2 c ∧
    separated (Changes.changed c) ∧
    Forall (on_boundaries [120]%N [120; 59]%N) (Changes.changed c)).
Proof.
  intros c match_words. split; [vm_compute; reflexivity|].
  apply (@match_adjustment_delimiters_correct ReferenceDiff.reference_hunks
           ReferenceDiff.reference_laws [120]%N [120; 59]%N [Word 0 1] [Word 0 1] 0 0 c).
  - apply one_word_chunks. by exists 1.
  - apply one_word_chunks. exists 1. split; [simpl; lia|done].
  - split_and!; [done..|]. cbn [script Changes.changed c length]. unfold gap. split_and!; [lia..|].
    intros i Hi. assert (i = 0) as -> by lia. by exists (Word 0 1), (Word 0 1).
Defined.

(** [x] against [x] and a space, under [IgnoreWhitespaces]. *)
Lemma match_adjustment_whitespaces_correct_witness :
  let c := Changes.new [mkRange 1 1 1 2] 1 2 in
  match_adjustment_whitespaces [120]%N [120; 32]%N c IgnoreWhitespaces = Some (Changes.new [] 1 2) ∧
  runs (match_adjustment_whitespaces [120]%N [120; 32]%N c IgnoreWhitespaces)
    (byte_script [120]%N [120; 32]%N IgnoreWhitespaces).
Proof.
  intros c. split; [vm_compute; reflexivity|].
  apply (match_adjustment_whitespaces_correct [120]%N [120; 32]%N c IgnoreWhitespaces).
  - cbn [script Changes.changed c start1 end1 start2 end2]. unfold gap.
    split_and!; try (vm_compute; lia).
    intros i Hi. assert (i = 0) as -> by lia. by exists 120%N.
  - repeat constructor; simpl; [by exists 1|by exists 1|by exists 1; split; [simpl; lia|]|].
    exists 2. split; [simpl; lia|done].
Defined.

(** Two fragments that touch, of the texts [ab] and [xy]. *)
Definition split_fragments : list LineFragment :=
  [mkLineFragment (mkRange 0 0 0 0) (mkRange 0 1 0 1) None;
   mkLineFragment (mkRange 0 1 0 1) (mkRange 1 2 1 2) None].

Lemma squash_restores_witness :
  squash split_fragments = Some [mkLineFragment (mkRange 0 1 0 1) (mkRange 0 2 0 2) None] ∧
  runs (squash (mjoin [split_fragments])) (λ fs,
    Forall2 (λ '(ls, os), squashed [97; 98]%N [120; 121]%N Default ls os)
      [(mkRange 0 1 0 1, mkRange 0 2 0 2)] fs).
Proof.
  split; [vm_compute; reflexivity|].
  apply (squash_restores [97; 98]%N [120; 121]%N Default
           [(mkRange 0 1 0 1, mkRange 0 2 0 2)] [split_fragments]).
  assert (∀ text k, length text = 2 → Forall (λ c, c < 128)%N text → k ≤ 2 → char_boundary text k) as Hb.
  { intros [|x [|y [|z text]]] k; try done. intros _ Hall Hk.
    apply Forall_cons in Hall as [Hx Hall]. apply Forall_cons in Hall as [Hy _].
    exists k. split; [done|]. destruct k as [|[|[|k]]]; [done| | |lia]; simpl;
      rewrite ?byte_len_cons, ?utf8_ascii by done; done. }
  assert (∀ k, k ≤ 2 → char_boundary [97; 98]%N k) as H1
    by (intros; apply Hb; [done|by repeat constructor|done]).
  assert (∀ k, k ≤ 2 → char_boundary [120; 121]%N k) as H2
    by (intros; apply Hb; [done|by repeat constructor|done]).
  simpl. unfold starts_at, ends_at, touches, starts_at, fragment_ok, ordered, edits_ok, edits_of,
    on_boundaries. simpl.
  split_and!; try lia; try done; try apply gap_refl;
    (constructor; [split_and!; simpl; (apply H1 || apply H2); lia|constructor]).
Defined.

Lemma offsets_of_lines_witness :
  runs (offsets_of (line_offsets code_old) 1 2) (λ '(s, e),
    char_boundary code_old s ∧ char_boundary code_old e ∧ s ≤ e ∧
    cut (bytes code_old) s e = bytes (mjoin (cut (with_newlines (split_lines code_old)) 1 2))).
Proof. apply (offsets_of_lines code_old 1 2); vm_compute; lia. Defined.
