(* ===== verification/EditDocument.v ===== *)
(** * The editor: a document and its rope

    The document of the editor is a [Rope] of the crate [ropey].  What the editor
    uses of it is the class [Rope]; the class [RopeLaws] states, as the crate
    documents them for its build with [\n] as the only line break, that each
    operation acts on the text of the rope, and panics out of range.
    [TextRope] is an instance of both: the text itself.

    A document is a rope and what the editor remembers of it.  The outer [option]
    of a result is a panic; the path and the extension, which no operation reads,
    are left out. *)

From S2P Require Import Prelude DiffRange DiffText DiffUtf8.

(** ** Indices into a text *)

(** The character that byte [b] belongs to. *)
Fixpoint char_of_byte (s : str) (b : nat) : nat :=
  match s with
  | [] => 0
  | c :: s => if b <? length (utf8 c) then 0 else S (char_of_byte s (b - length (utf8 c)))
  end.

Definition byte_of_char (s : str) (k : nat) : nat := byte_len (take k s).

(** The number of newlines before byte [b]. *)
Definition line_of_byte (s : str) (b : nat) : nat := count_bytes_10 (take b (bytes s)).

Definition utf16_len (c : N) : nat := if (c <? 65536)%N then 1 else 2.

Definition text_utf16 (s : str) : nat := foldr (λ c n, utf16_len c + n) 0 s.

(** The character that code unit [u] belongs to. *)
Fixpoint char_of_utf16 (s : str) (u : nat) : nat :=
  match s with
  | [] => 0
  | c :: s => if u <? utf16_len c then 0 else S (char_of_utf16 s (u - utf16_len c))
  end.

(** ** The interface *)

Class Rope := {
  rope : Type;
  from_str : str → rope;
  to_str : rope → str;
  rope_len_bytes : rope → nat;
  rope_len_chars : rope → nat;
  rope_len_lines : rope → nat;
  rope_len_utf16 : rope → nat;
  rope_byte : rope → nat → option N;
  rope_line : rope → nat → option rope;
  rope_byte_slice : rope → nat → nat → option rope;
  rope_slice : rope → nat → nat → option rope;
  rope_byte_to_char : rope → nat → option nat;
  rope_char_to_byte : rope → nat → option nat;
  rope_byte_to_line : rope → nat → option nat;
  rope_line_to_byte : rope → nat → option nat;
  rope_char_to_utf16 : rope → nat → option nat;
  rope_utf16_to_char : rope → nat → option nat;
  rope_insert : rope → nat → str → option rope;
  rope_remove : rope → nat → nat → option rope }.

(** [f i], for an index [i] up to [n]. *)
Definition up_to {A} (n i : nat) (a : A) : option A := if i <=? n then Some a else None.

Class RopeLaws `{Rope} : Prop := {
  to_from_str s : to_str (from_str s) = s;
  len_bytes_law r : rope_len_bytes r = byte_len (to_str r);
  len_chars_law r : rope_len_chars r = length (to_str r);
  len_lines_law r : rope_len_lines r = length (split_lines (to_str r));
  len_utf16_law r : rope_len_utf16 r = text_utf16 (to_str r);
  byte_law r b : rope_byte r b = bytes (to_str r) !! b;
  line_law r i : to_str <$> rope_line r i = pieces (to_str r) !! i;
  byte_slice_law r a b : to_str <$> rope_byte_slice r a b = str_slice (to_str r) a b;
  slice_law r a b : to_str <$> rope_slice r a b = slice (to_str r) a b;
  byte_to_char_law r b :
    rope_byte_to_char r b = up_to (byte_len (to_str r)) b (char_of_byte (to_str r) b);
  char_to_byte_law r k :
    rope_char_to_byte r k = up_to (length (to_str r)) k (byte_of_char (to_str r) k);
  byte_to_line_law r b :
    rope_byte_to_line r b = up_to (byte_len (to_str r)) b (line_of_byte (to_str r) b);
  line_to_byte_law r i :
    rope_line_to_byte r i = up_to (length (split_lines (to_str r))) i (line_offset (to_str r) i);
  char_to_utf16_law r k :
    rope_char_to_utf16 r k = up_to (length (to_str r)) k (text_utf16 (take k (to_str r)));
  utf16_to_char_law r u :
    rope_utf16_to_char r u = up_to (text_utf16 (to_str r)) u (char_of_utf16 (to_str r) u);
  insert_law r k s :
    to_str <$> rope_insert r k s =
      up_to (length (to_str r)) k (take k (to_str r) ++ s ++ drop k (to_str r));
  remove_law r a b :
    to_str <$> rope_remove r a b =
      if (a <=? b) && (b <=? length (to_str r))
      then Some (take a (to_str r) ++ drop b (to_str r)) else None }.

(** ** A text is a rope *)
Module TextRope.
#[export] Instance text_rope : Rope := {|
  rope := str;
  from_str s := s;
  to_str s := s;
  rope_len_bytes := byte_len;
  rope_len_chars := length;
  rope_len_lines s := length (split_lines s);
  rope_len_utf16 := text_utf16;
  rope_byte s b := bytes s !! b;
  rope_line s i := pieces s !! i;
  rope_byte_slice := str_slice;
  rope_slice := slice;
  rope_byte_to_char s b := up_to (byte_len s) b (char_of_byte s b);
  rope_char_to_byte s k := up_to (length s) k (byte_of_char s k);
  rope_byte_to_line s b := up_to (byte_len s) b (line_of_byte s b);
  rope_line_to_byte s i := up_to (length (split_lines s)) i (line_offset s i);
  rope_char_to_utf16 s k := up_to (length s) k (text_utf16 (take k s));
  rope_utf16_to_char s u := up_to (text_utf16 s) u (char_of_utf16 s u);
  rope_insert s k t := up_to (length s) k (take k s ++ t ++ drop k s);
  rope_remove s a b := if (a <=? b) && (b <=? length s) then Some (take a s ++ drop b s) else None |}.

#[export] Instance text_rope_laws : RopeLaws.
Proof. constructor; intros; try done; apply option_fmap_id. Qed.
End TextRope.

(** ** Texts cut at a character *)

(** The newlines of a text. *)
Definition newlines (s : str) : nat := length (filter (λ c, c = 10%N) s).

Lemma newlines_app s t : newlines (s ++ t) = newlines s + newlines t.
Proof. unfold newlines. by rewrite filter_app, length_app. Qed.

Lemma newlines_cons c s : newlines (c :: s) = (if (c =? 10)%N then 1 else 0) + newlines s.
Proof.
  unfold newlines. destruct (N.eqb_spec c 10); [by rewrite filter_cons_True|by rewrite filter_cons_False].
Qed.

Lemma newlines_none (s : str) : 10%N ∉ s → newlines s = 0.
Proof.
  unfold newlines. induction s as [|c s IH]; [done|]. intros [Hc Hs]%not_elem_of_cons.
  rewrite filter_cons_False by congruence. by apply IH.
Qed.

Lemma count_bytes_newlines s : count_bytes_10 (bytes s) = newlines s.
Proof.
  induction s as [|c s IH]; [done|]. change (bytes (c :: s)) with (utf8 c ++ bytes s).
  rewrite count_bytes_10_app, newlines_cons, IH. f_equal.
  destruct (N.eqb_spec c 10) as [->|Hc]; [done|]. by apply count_bytes_10_none, utf8_no_newline.
Qed.

Lemma line_of_byte_app p q : line_of_byte (p ++ q) (byte_len p) = newlines p.
Proof.
  unfold line_of_byte, byte_len. by rewrite bytes_app, take_app_length, count_bytes_newlines.
Qed.

Lemma char_of_byte_app p q : char_of_byte (p ++ q) (byte_len p) = length p.
Proof.
  induction p as [|c p IH].
  - destruct q as [|c q]; [done|]. simpl. pose proof (utf8_nonempty c).
    by rewrite (proj2 (Nat.ltb_lt _ _)).
  - simpl. rewrite byte_len_cons. rewrite (proj2 (Nat.ltb_ge _ _)) by lia.
    by rewrite Nat.add_comm, Nat.add_sub, IH.
Qed.

Lemma byte_of_char_app p q : byte_of_char (p ++ q) (length p) = byte_len p.
Proof. unfold byte_of_char. by rewrite take_app_length. Qed.

(** The text after the last newline. *)
Definition last_line (s : str) : str := default [] (last (split_lines s)).

Lemma split_lines_length s : length (split_lines s) = S (newlines s).
Proof.
  unfold split_lines. induction s as [|c s IH]; [done|]. simpl. rewrite newlines_cons.
  destruct (split_newline_cons s) as (l&ls&Hs). rewrite Hs in *.
  destruct (c =? 10)%N; simpl in *; lia.
Qed.

(** Appending a text continues the last line. *)
Lemma split_lines_app p q :
  ∃ init a b rest, split_lines p = init ++ [a] ∧ split_lines q = b :: rest ∧
    split_lines (p ++ q) = init ++ (a ++ b) :: rest ∧ length init = newlines p.
Proof.
  unfold split_lines. destruct (split_newline_cons q) as (b&rest&Hq).
  induction p as [|c p IH].
  - exists [], [], b, rest. by rewrite Hq.
  - destruct IH as (init&a&b'&rest'&Hp&Hq'&Hpq&Hlen). rewrite Hq in Hq'. injection Hq' as <- <-.
    rewrite newlines_cons. simpl. rewrite Hp, Hpq.
    destruct init as [|l init]; simpl in *; destruct (N.eqb_spec c 10) as [->|Hc].
    + exists [[]], a, b, rest. split_and!; try done. simpl. lia.
    + exists [], (c :: a), b, rest. split_and!; try done.
    + exists ([] :: l :: init), a, b, rest. split_and!; try done. simpl. lia.
    + exists ((c :: l) :: init), a, b, rest. split_and!; try done.
Qed.

Lemma last_line_spec p :
  ∃ init, split_lines p = init ++ [last_line p] ∧ length init = newlines p.
Proof.
  destruct (split_lines_app p []) as (init&a&b&rest&Hp&_&_&Hlen).
  exists init. unfold last_line. rewrite Hp, last_snoc. by split.
Qed.

(** * The editor: the document ([diff_dock/code/document.rs]) *)

Inductive LineEnding := Lf | Crlf.

#[export] Instance LineEnding_eq_dec : EqDecision LineEnding.
Proof. solve_decision. Defined.

Record DocPoint := mkPoint { row : nat; column : nat }.

Record CodeEdit := mkCodeEdit {
  start_byte : nat;
  old_end_byte : nat;
  new_end_byte : nat;
  start_point : DocPoint;
  old_end_point : DocPoint;
  new_end_point : DocPoint }.

Inductive ReadOnlyReason := Permissions | GiantLine (chars limit : nat).

(** [LineEnding::detect]; [before] is the character before the text. *)
Fixpoint detect_after (before : option N) (text : str) : LineEnding :=
  match text with
  | [] => Lf
  | c :: rest =>
      if (c =? 10)%N then if bool_decide (before = Some 13%N) then Crlf else Lf
      else detect_after (Some c) rest
  end.

Definition detect (text : str) : LineEnding := detect_after None text.

(** The loop drops each [\r] that a [\n] follows; both are characters of their
    own, so that it can go over the characters. *)
Fixpoint normalize_newlines (text : str) : str :=
  match text with
  | [] => []
  | c :: rest =>
      if (c =? 13)%N && bool_decide (head rest = Some 10%N)
      then normalize_newlines rest else c :: normalize_newlines rest
  end.

Definition measure_text_lines (text : str) : nat :=
  if forallb (λ c, c <? 128)%N text
  then foldr Nat.max 0 (byte_len <$> split_newline text)
  else foldr Nat.max 0 (length <$> split_newline text).

(** The loop over [text.chars()]. *)
Fixpoint measure_chars (longest current : nat) (text : str) : nat :=
  match text with
  | [] => Nat.max longest current
  | c :: rest =>
      if (c =? 10)%N then measure_chars (Nat.max longest current) 0 rest
      else measure_chars longest (current + 1) rest
  end.

(** [text.replace('\n', "\r\n")] *)
Definition replace_newlines (text : str) : str :=
  mjoin ((λ c, if (c =? 10)%N then [13; 10]%N else [c]) <$> text).

Module CodeDocument.
Section document.
Context `{Rope}.

Record t := mk {
  text : rope;
  line_ending : LineEnding;
  read_only : option ReadOnlyReason;
  longest_line_chars : nat;
  revision : Z;
  longest_line_stale : bool }.

Definition new (raw : str) : t :=
  let normalized := normalize_newlines raw in
  mk (from_str normalized) (detect raw) None (measure_text_lines normalized) 0 false.

Definition set_line_ending (self : t) (ending : LineEnding) : t :=
  mk (text self) ending (read_only self) (longest_line_chars self) (revision self)
    (longest_line_stale self).

Definition set_read_only (self : t) (reason : option ReadOnlyReason) : t :=
  mk (text self) (line_ending self) reason (longest_line_chars self) (revision self)
    (longest_line_stale self).

Definition len_bytes (self : t) : nat := rope_len_bytes (text self).

Definition line_count (self : t) : nat := rope_len_lines (text self).

Definition is_read_only (self : t) : bool :=
  match read_only self with Some _ => true | None => false end.

Definition longest_line_snapshot (self : t) : option (rope * Z) :=
  if longest_line_stale self then Some (text self, revision self) else None.

Definition measure_longest_line (text : rope) : nat := measure_chars 0 0 (to_str text).

Definition apply_longest_line_measurement (self : t) (revision' : Z) (longest : nat) : t * bool :=
  if negb (revision' =? revision self)%Z || negb (longest_line_stale self) then (self, false)
  else (mk (text self) (line_ending self) (read_only self) longest (revision self) false, true).

Definition line_span (self : t) (row : nat) : option (option (nat * nat)) :=
  let lines := rope_len_lines (text self) in
  if lines <=? row then Some None
  else
    start ← rope_line_to_byte (text self) row;
    end_ ← (if row + 1 <? lines then rope_line_to_byte (text self) (row + 1)
            else Some (rope_len_bytes (text self)));
    Some (Some (start, end_)).

(** [end > start && self.text.byte(end - 1) == byte], with its step back. *)
Definition strip (self : t) (byte : N) (start end_ : nat) : option nat :=
  if start <? end_ then
    last ← checked_sub end_ 1;
    b ← rope_byte (text self) last;
    Some (if (b =? byte)%N then last else end_)
  else Some end_.

Definition line_byte_range (self : t) (row : nat) : option (option (nat * nat)) :=
  span ← line_span self row;
  match span with
  | None => Some None
  | Some (start, end_) =>
      end_ ← strip self 10 start end_;
      end_ ← strip self 13 start end_;
      Some (Some (start, end_))
  end.

Definition line (self : t) (row : nat) : option (option rope) :=
  range ← line_byte_range self row;
  match range with
  | None => Some None
  | Some (start, end_) => slice ← rope_byte_slice (text self) start end_; Some (Some slice)
  end.

Definition line_string (self : t) (row : nat) : option (option str) :=
  l ← line self row;
  Some (match l with Some l => Some (to_str l) | None => None end).

Definition byte_to_line (self : t) (byte : nat) : option nat :=
  rope_byte_to_line (text self) (Nat.min byte (rope_len_bytes (text self))).

Definition line_to_byte (self : t) (row : nat) : option nat :=
  rope_line_to_byte (text self) (Nat.min row (rope_len_lines (text self) - 1)).

Definition point_at (self : t) (byte : nat) : option DocPoint :=
  let byte := Nat.min byte (rope_len_bytes (text self)) in
  row ← rope_byte_to_line (text self) byte;
  start ← rope_line_to_byte (text self) row;
  column ← checked_sub byte start;
  Some (mkPoint row column).

Definition snap_to_boundary (self : t) (byte : nat) : option nat :=
  let byte := Nat.min byte (rope_len_bytes (text self)) in
  c ← rope_byte_to_char (text self) byte;
  rope_char_to_byte (text self) c.

Definition line_chars (self : t) (row : nat) : option nat :=
  l ← line self row;
  Some (match l with Some l => rope_len_chars l | None => 0 end).

(** One row of the loop of [remeasure_rows]. *)
Definition remeasure_row (row : nat) (self : t) : option t :=
  chars ← line_chars self row;
  Some (if longest_line_chars self <? chars
        then mk (text self) (line_ending self) (read_only self) chars (revision self)
               (longest_line_stale self)
        else self).

Definition remeasure_rows (self : t) (first_row last_row : nat) : option t :=
  let last := Nat.min last_row (rope_len_lines (text self) - 1) in
  for_each (seq first_row (S last - first_row)) remeasure_row self.

(** The text replaced, the revision advanced, [longest_line_stale |= stale]. *)
Definition edited (self : t) (text' : rope) (stale : bool) : t :=
  mk text' (line_ending self) (read_only self) (longest_line_chars self)
    ((revision self + 1) mod 2 ^ 64)%Z (longest_line_stale self || stale).

Definition insert (self : t) (byte_offset : nat) (fragment : str) : option (t * option CodeEdit) :=
  if is_read_only self then Some (self, None)
  else
    let normalized := normalize_newlines fragment in
    if bool_decide (normalized = []) then Some (self, None)
    else
      start ← snap_to_boundary self byte_offset;
      point ← point_at self start;
      chars ← line_chars self (row point);
      let may_shrink_longest :=
        existsb (N.eqb 10) normalized && (chars =? longest_line_chars self) in
      char_idx ← rope_byte_to_char (text self) start;
      text' ← rope_insert (text self) char_idx normalized;
      let self := edited self text' may_shrink_longest in
      let new_end := start + byte_len normalized in
      new_end_point ← point_at self new_end;
      self ← remeasure_rows self (row point) (row new_end_point);
      Some (self, Some (mkCodeEdit start start new_end point point new_end_point)).

Definition remove (self : t) (range_start range_end : nat) : option (t * option CodeEdit) :=
  if is_read_only self then Some (self, None)
  else
    start ← snap_to_boundary self range_start;
    old_end ← snap_to_boundary self range_end;
    if old_end <=? start then Some (self, None)
    else
      point ← point_at self start;
      old_end_point ← point_at self old_end;
      chars ← line_chars self (row point);
      let may_shrink_longest :=
        negb (row point =? row old_end_point) || (chars =? longest_line_chars self) in
      start_char ← rope_byte_to_char (text self) start;
      end_char ← rope_byte_to_char (text self) old_end;
      text' ← rope_remove (text self) start_char end_char;
      let self := edited self text' may_shrink_longest in
      self ← remeasure_rows self (row point) (row point);
      Some (self, Some (mkCodeEdit start old_end start point old_end_point point)).

Definition slice_string (self : t) (range_start range_end : nat) : option str :=
  start ← snap_to_boundary self range_start;
  end_ ← snap_to_boundary self (Nat.max range_end range_start);
  if end_ <=? start then Some []
  else
    start_char ← rope_byte_to_char (text self) start;
    end_char ← rope_byte_to_char (text self) end_;
    slice ← rope_slice (text self) start_char end_char;
    Some (to_str slice).

Definition byte_to_utf16 (self : t) (offset : nat) : option nat :=
  offset ← snap_to_boundary self offset;
  char_idx ← rope_byte_to_char (text self) offset;
  rope_char_to_utf16 (text self) char_idx.

Definition utf16_to_byte (self : t) (target : nat) : option nat :=
  let target := Nat.min target (rope_len_utf16 (text self)) in
  c ← rope_utf16_to_char (text self) target;
  rope_char_to_byte (text self) c.

Definition to_disk_string (self : t) : str :=
  let text := to_str (text self) in
  match line_ending self with
  | Lf => text
  | Crlf => replace_newlines text
  end.
End document.
End CodeDocument.
