(* ===== verification/EditDocumentCorrect.v ===== *)
(** * The editor: what the operations of a document do

    The contents of a document is cut at byte offsets: [before s b] is the text
    before the character that byte [b] belongs to.  No operation panics, whatever
    the offsets; an edit replaces the text between its offsets, and its points are
    the rows and columns of the cuts.

    A document holds [\n] only; the ending of its first line is remembered and
    written back at every line.

    A document keeps the length of its longest line, which the horizontal extent
    of the view is made of.  An edit measures the rows it touches; when it may have
    shortened the longest line, the length is stale until a measurement of the
    whole text, made in the background on a snapshot, is applied. *)

From stdpp Require Import sets.
From S2P Require Import Prelude DiffRange DiffText DiffUtf8 EditDocument.

(** The next call, whose result [H] states. *)
Tactic Notation "bind" uconstr(H) := rewrite H; cbn [mbind option_bind].

Definition before (s : str) (b : nat) : str := take (char_of_byte s b) s.
Definition after (s : str) (b : nat) : str := drop (char_of_byte s b) s.

(** The row and the column of the end of [p]. *)
Definition point_of (p : str) : DocPoint := mkPoint (newlines p) (byte_len (last_line p)).

(** A line of which a last [\r] is no part. *)
Definition chomp (l : str) : str :=
  match last l with Some 13%N => removelast l | _ => l end.

(** The length of row [i], as it is measured. *)
Definition row_chars (s : str) (i : nat) : nat :=
  match split_lines s !! i with Some l => length (chomp l) | None => 0 end.

Lemma before_after s b : before s b ++ after s b = s.
Proof. apply take_drop. Qed.

Lemma before_app p q : before (p ++ q) (byte_len p) = p.
Proof. unfold before. by rewrite char_of_byte_app, take_app_length. Qed.

Lemma after_app p q : after (p ++ q) (byte_len p) = q.
Proof. unfold after. by rewrite char_of_byte_app, drop_app_length. Qed.

Lemma before_before s b : before s (byte_len (before s b)) = before s b.
Proof. rewrite <- (before_after s b) at 1. apply before_app. Qed.

Lemma char_of_byte_le s b : char_of_byte s b ≤ length s.
Proof.
  revert b. induction s as [|c s IH]; intros b; simpl; [lia|]. case_match; [lia|].
  specialize (IH (b - length (utf8 c))). lia.
Qed.

Lemma char_of_byte_end s b : byte_len s ≤ b → char_of_byte s b = length s.
Proof.
  revert b. induction s as [|c s IH]; intros b; [done|]. rewrite byte_len_cons. simpl. intros Hb.
  pose proof (utf8_nonempty c). rewrite (proj2 (Nat.ltb_ge _ _)) by lia. by rewrite IH by lia.
Qed.

Lemma char_of_byte_min s b : char_of_byte s (b `min` byte_len s) = char_of_byte s b.
Proof.
  destruct (decide (b ≤ byte_len s)); [by rewrite Nat.min_l|].
  rewrite Nat.min_r by lia. by rewrite !char_of_byte_end by lia.
Qed.

Lemma before_le s b : byte_len (before s b) ≤ b.
Proof.
  unfold before. revert b. induction s as [|c s IH]; intros b; [cbn; lia|]. cbn [char_of_byte].
  destruct (Nat.ltb_spec b (length (utf8 c))); [cbn; lia|].
  cbn [take firstn]. rewrite byte_len_cons. specialize (IH (b - length (utf8 c))).
  unfold take in *. lia.
Qed.

Lemma before_mono s b b' : b ≤ b' → ∃ m, before s b' = before s b ++ m ∧ after s b = m ++ after s b'.
Proof.
  unfold before, after. revert b b'. induction s as [|c s IH]; intros b b' Hb.
  - exists []. done.
  - cbn [char_of_byte]. destruct (Nat.ltb_spec b (length (utf8 c))).
    + exists (take (if b' <? length (utf8 c) then 0 else S (char_of_byte s (b' - length (utf8 c)))) (c :: s)).
      rewrite take_drop. done.
    + rewrite (proj2 (Nat.ltb_ge b' _)) by lia.
      destruct (IH (b - length (utf8 c)) (b' - length (utf8 c)) ltac:(lia)) as (m&H1&H2).
      exists m. cbn [take drop firstn skipn app]. unfold take, drop in *. by rewrite H1.
Qed.

(** ** The lines of a text *)

Lemma with_newlines_app init (x : str) rest :
  with_newlines (init ++ x :: rest) = ((λ l : str, l ++ [10%N]) <$> init) ++ with_newlines (x :: rest).
Proof.
  induction init as [|l init IH]; [done|].
  transitivity ((l ++ [10%N]) :: with_newlines (init ++ x :: rest)); [by destruct init|].
  rewrite IH. done.
Qed.

Lemma pieces_last_line p :
  ∃ init, split_lines p = init ++ [last_line p] ∧ length init = newlines p ∧
    p = mjoin ((λ l : str, l ++ [10%N]) <$> init) ++ last_line p.
Proof.
  destruct (last_line_spec p) as (init&Hp&Hlen). exists init. split_and!; [done..|].
  rewrite <- (pieces_join p) at 1. unfold pieces. rewrite Hp, with_newlines_app, join_app.
  simpl. by rewrite app_nil_r.
Qed.

(** The row of the end of [p] starts where the last line of [p] does. *)
Lemma line_offset_app p q : line_offset (p ++ q) (newlines p) + byte_len (last_line p) = byte_len p.
Proof.
  destruct (split_lines_app p q) as (init&a&b&rest&Hp&_&Hpq&Hlen).
  destruct (pieces_last_line p) as (init'&Hp'&_&Hjoin).
  rewrite Hp in Hp'. apply app_inj_tail in Hp' as [<- Ha].
  unfold line_offset, pieces. rewrite Hpq, with_newlines_app.
  rewrite take_app_length' by (by rewrite length_fmap). rewrite <- byte_len_app. by rewrite <- Hjoin.
Qed.

(** Line [l] with what follows and what precedes it. *)
Lemma pieces_lookup s i l :
  split_lines s !! i = Some l →
  ∃ nl q, (nl = [] ∨ nl = [10%N]) ∧ s = mjoin (take i (pieces s)) ++ (l ++ nl) ++ q ∧
    line_offset s (S i) = line_offset s i + byte_len (l ++ nl).
Proof.
  intros Hl. assert (∃ nl, (nl = [] ∨ nl = [10%N]) ∧ pieces s !! i = Some (l ++ nl)) as (nl&Hnl&Hp).
  { unfold pieces. revert i Hl. induction (split_lines s) as [|l' ls IH]; intros i Hl; [done|].
    destruct ls as [|l'' ls].
    - destruct i; [|done]. injection Hl as <-. exists []. rewrite app_nil_r. auto.
    - destruct i as [|i]; [injection Hl as <-; by exists [10%N]; auto|]. apply IH, Hl. }
  exists nl, (mjoin (drop (S i) (pieces s))). split_and!; [done| |].
  - rewrite <- (pieces_join s) at 1. rewrite <- (take_drop_middle _ _ _ Hp) at 1.
    by rewrite join_app.
  - unfold line_offset. erewrite take_S_r by done. rewrite join_app, byte_len_app. simpl.
    by rewrite app_nil_r.
Qed.

Lemma line_no_newline s i l : split_lines s !! i = Some l → 10%N ∉ l.
Proof.
  intros Hl. pose proof (split_newline_lines s) as Hall. rewrite Forall_lookup in Hall. by eapply Hall.
Qed.

Lemma str_slice_app p m q : str_slice (p ++ m ++ q) (byte_len p) (byte_len (p ++ m)) = Some m.
Proof.
  unfold str_slice.
  assert (∀ t u, char_index (t ++ u) (byte_len t) = Some (length t)) as Hci.
  { intros t u. rewrite <- (take_app_length t u) at 2. apply char_index_take. rewrite length_app. lia. }
  rewrite Hci, app_assoc, Hci. cbn [mbind option_bind]. rewrite length_app, slice_some.
  2-3: rewrite ?length_app; lia.
  rewrite <- app_assoc, drop_app_length, Nat.add_comm, Nat.add_sub. by rewrite take_app_length.
Qed.

(** ** The bytes around a cut *)

(** Bytes of a character are compared with an ASCII one as the character is. *)
Lemma utf8_bytes_ascii c' b c : b ∈ utf8 c' → (c < 128)%N → (b =? c)%N = (c' =? c)%N.
Proof.
  intros Hb Hc. destruct (decide (c' < 128)%N) as [Hc'|Hc'].
  - rewrite utf8_ascii in Hb by done. apply list_elem_of_singleton in Hb as ->. done.
  - pose proof (utf8_wide c' ltac:(lia)) as Hwide. rewrite Forall_forall in Hwide.
    specialize (Hwide _ Hb). simpl in Hwide. rewrite !(proj2 (N.eqb_neq _ _)) by lia. done.
Qed.

Lemma byte_before p c' q :
  ∃ b, bytes (p ++ [c'] ++ q) !! (byte_len (p ++ [c']) - 1) = Some b ∧
    ∀ c, (c < 128)%N → (b =? c)%N = (c' =? c)%N.
Proof.
  pose proof (utf8_nonempty c'). destruct (last (utf8 c')) as [b|] eqn:Hlast.
  - exists b. split; [|intros c; by apply utf8_bytes_ascii, last_Some_elem_of].
    rewrite !bytes_app, byte_len_app. unfold byte_len.
    change (bytes [c']) with (utf8 c' ++ []). rewrite app_nil_r.
    rewrite lookup_app_r by lia. rewrite lookup_app_l by lia.
    rewrite <- Hlast, last_lookup. f_equal. lia.
  - apply last_None in Hlast. rewrite Hlast in *. simpl in *. lia.
Qed.

Lemma byte_after p c' q :
  ∃ b, bytes (p ++ c' :: q) !! byte_len p = Some b ∧
    ∀ c, (c < 128)%N → (b =? c)%N = (c' =? c)%N.
Proof.
  pose proof (utf8_nonempty c'). destruct (utf8 c') as [|b u] eqn:Hu; [simpl in *; lia|].
  exists b. split.
  - rewrite bytes_app. unfold byte_len. rewrite lookup_app_r, Nat.sub_diag by done.
    change (bytes (c' :: q)) with (utf8 c' ++ bytes q). by rewrite Hu.
  - intros c. apply utf8_bytes_ascii. rewrite Hu. by constructor.
Qed.

Section correct.
Context `{Hrope : Rope, Hlaws : !RopeLaws}.
Implicit Types (d : CodeDocument.t) (r : rope).

Definition contents d : str := to_str (CodeDocument.text d).

(** A law of the rope, used: a result with the text it states. *)
Lemma fmap_some (o : option rope) s : to_str <$> o = Some s → ∃ r, o = Some r ∧ to_str r = s.
Proof. destruct o as [r|]; [|done]. intros [= <-]. eauto. Qed.

Lemma byte_to_char_app r p q :
  to_str r = p ++ q → rope_byte_to_char r (byte_len p) = Some (length p).
Proof.
  intros Hr. rewrite byte_to_char_law, Hr. unfold up_to. rewrite byte_len_app.
  rewrite (proj2 (Nat.leb_le _ _)) by lia. by rewrite char_of_byte_app.
Qed.

Lemma char_to_byte_app r p q :
  to_str r = p ++ q → rope_char_to_byte r (length p) = Some (byte_len p).
Proof.
  intros Hr. rewrite char_to_byte_law, Hr. unfold up_to. rewrite length_app.
  rewrite (proj2 (Nat.leb_le _ _)) by lia. by rewrite byte_of_char_app.
Qed.

Lemma snap_spec d b :
  CodeDocument.snap_to_boundary d b = Some (byte_len (before (contents d) b)).
Proof.
  unfold CodeDocument.snap_to_boundary. rewrite byte_to_char_law, len_bytes_law. fold (contents d).
  unfold up_to. rewrite (proj2 (Nat.leb_le _ _)) by lia. cbn [mbind option_bind].
  rewrite char_of_byte_min, char_to_byte_law. fold (contents d).
  unfold up_to. by rewrite (proj2 (Nat.leb_le _ _)) by apply char_of_byte_le.
Qed.

Lemma snap_app d p q :
  contents d = p ++ q → CodeDocument.snap_to_boundary d (byte_len p) = Some (byte_len p).
Proof. intros Hd. by rewrite snap_spec, Hd, before_app. Qed.

Lemma point_at_app d p q :
  contents d = p ++ q → CodeDocument.point_at d (byte_len p) = Some (point_of p).
Proof.
  intros Hd. unfold CodeDocument.point_at. rewrite len_bytes_law. fold (contents d).
  rewrite Nat.min_l by (rewrite Hd, byte_len_app; lia).
  rewrite byte_to_line_law. fold (contents d). rewrite Hd. unfold up_to.
  rewrite (proj2 (Nat.leb_le _ _)) by (rewrite byte_len_app; lia). cbn [mbind option_bind].
  rewrite line_of_byte_app, line_to_byte_law. fold (contents d). rewrite Hd. unfold up_to.
  rewrite (proj2 (Nat.leb_le _ _)) by (rewrite split_lines_length, newlines_app; lia).
  cbn [mbind option_bind]. pose proof (line_offset_app p q).
  rewrite checked_sub_some by lia. cbn [mbind option_bind]. unfold point_of. do 2 f_equal. lia.
Qed.

(** ** Rows *)

Lemma line_span_spec d i :
  i < length (split_lines (contents d)) →
  CodeDocument.line_span d i =
    Some (Some (line_offset (contents d) i, line_offset (contents d) (S i))).
Proof.
  intros Hi. unfold CodeDocument.line_span. rewrite len_lines_law, len_bytes_law, !line_to_byte_law.
  fold (contents d). rewrite (proj2 (Nat.leb_gt _ _)) by done. unfold up_to.
  rewrite (proj2 (Nat.leb_le i _)) by lia. cbn [mbind option_bind].
  destruct (Nat.ltb_spec (i + 1) (length (split_lines (contents d)))) as [Hlt|Hge].
  - rewrite (proj2 (Nat.leb_le _ _)) by lia. cbn. by rewrite Nat.add_1_r.
  - cbn. assert (S i = length (split_lines (contents d))) as -> by lia. by rewrite line_offset_end.
Qed.

Lemma line_span_none d i :
  length (split_lines (contents d)) ≤ i → CodeDocument.line_span d i = Some None.
Proof.
  intros Hi. unfold CodeDocument.line_span. rewrite len_lines_law. fold (contents d).
  by rewrite (proj2 (Nat.leb_le _ _)).
Qed.

(** A step back over a byte, at the end of a line [l] of the text. *)
Lemma strip_spec d c p l q :
  (c < 128)%N → contents d = p ++ l ++ q →
  CodeDocument.strip d c (byte_len p) (byte_len (p ++ l)) =
    Some (byte_len (p ++ match last l with Some c' => if (c' =? c)%N then removelast l else l | None => l end)).
Proof.
  intros Hc Hd. unfold CodeDocument.strip. destruct l as [|c' l _] using rev_ind.
  { cbn [last]. rewrite app_nil_r. by rewrite (proj2 (Nat.ltb_ge _ _)) by lia. }
  rewrite (proj2 (Nat.ltb_lt _ _)).
  2: { rewrite !byte_len_app, byte_len_cons. pose proof (utf8_nonempty c'). lia. }
  rewrite last_snoc, removelast_last, checked_sub_some.
  2: { rewrite !byte_len_app, byte_len_cons. pose proof (utf8_nonempty c'). lia. }
  cbn [mbind option_bind]. rewrite byte_law. fold (contents d). rewrite Hd.
  destruct (byte_before (p ++ l) c' q) as (b&Hb&Heq).
  replace ((p ++ l) ++ [c'] ++ q) with (p ++ (l ++ [c']) ++ q) in Hb by by rewrite <- !app_assoc.
  replace ((p ++ l) ++ [c']) with (p ++ l ++ [c']) in Hb by by rewrite <- app_assoc.
  rewrite Hb. cbn [mbind option_bind]. rewrite Heq by done.
  destruct (N.eqb_spec c' c) as [->|Hne]; [|done].
  rewrite app_assoc, byte_len_app. change (byte_len [c]) with (length (utf8 c ++ [])).
  rewrite app_nil_r, utf8_ascii by done. simpl. f_equal. lia.
Qed.

Lemma line_byte_range_spec d i l :
  split_lines (contents d) !! i = Some l →
  CodeDocument.line_byte_range d i =
    Some (Some (line_offset (contents d) i, line_offset (contents d) i + byte_len (chomp l))).
Proof.
  intros Hl. unfold CodeDocument.line_byte_range.
  rewrite line_span_spec by (by eapply lookup_lt_Some). cbn [mbind option_bind].
  destruct (pieces_lookup _ _ _ Hl) as (nl&q&Hnl&Hd&Hend).
  set (p := mjoin (take i (pieces (contents d)))) in *.
  change (line_offset (contents d) i) with (byte_len p) in *. rewrite Hend, <- byte_len_app.
  rewrite (strip_spec d 10 p (l ++ nl) q) by done. cbn [mbind option_bind].
  pose proof (line_no_newline _ _ _ Hl) as Hno.
  replace (match last (l ++ nl) with Some c' => _ | None => _ end) with l.
  - rewrite (strip_spec d 13 p l (nl ++ q)) by (done || by rewrite Hd, <- !app_assoc).
    cbn [mbind option_bind]. rewrite byte_len_app. unfold chomp.
    destruct (last l) as [c|]; [|done]. destruct (N.eqb_spec c 13) as [->|]; [done|].
    by repeat case_match.
  - destruct Hnl as [->| ->].
    + rewrite app_nil_r. destruct (last l) as [c|] eqn:Hlast; [|done].
      destruct (N.eqb_spec c 10) as [->|]; [|done]. destruct Hno. by apply last_Some_elem_of.
    + by rewrite last_snoc, N.eqb_refl, removelast_last.
Qed.

Lemma chomp_prefix l : ∃ t, l = chomp l ++ t.
Proof.
  unfold chomp. destruct l as [|c l _] using rev_ind; [by exists []|]. rewrite last_snoc.
  destruct (decide (c = 13%N)) as [->|].
  - exists [13%N]. by rewrite removelast_last.
  - exists []. rewrite app_nil_r. by repeat case_match.
Qed.

Lemma line_spec d i l :
  split_lines (contents d) !! i = Some l →
  ∃ r, CodeDocument.line d i = Some (Some r) ∧ to_str r = chomp l.
Proof.
  intros Hl. unfold CodeDocument.line. rewrite (line_byte_range_spec d i l Hl). cbn [mbind option_bind].
  destruct (pieces_lookup _ _ _ Hl) as (nl&q&_&Hd&_). destruct (chomp_prefix l) as (t&Ht).
  set (p := mjoin (take i (pieces (contents d)))) in *.
  change (line_offset (contents d) i) with (byte_len p) in *.
  assert (contents d = p ++ chomp l ++ (t ++ nl ++ q)) as Hd'.
  { rewrite Hd at 1. rewrite Ht at 1. by rewrite <- !app_assoc. }
  pose proof (byte_slice_law (CodeDocument.text d) (byte_len p) (byte_len (p ++ chomp l))) as Hlaw.
  fold (contents d) in Hlaw. rewrite Hd', str_slice_app in Hlaw.
  apply fmap_some in Hlaw as (r&Hr&Htext). rewrite <- byte_len_app, Hr. eauto.
Qed.

Lemma line_none d i :
  length (split_lines (contents d)) ≤ i → CodeDocument.line d i = Some None.
Proof.
  intros Hi. unfold CodeDocument.line, CodeDocument.line_byte_range. by rewrite line_span_none.
Qed.

Lemma line_string_spec d i :
  CodeDocument.line_string d i = Some (chomp <$> split_lines (contents d) !! i).
Proof.
  unfold CodeDocument.line_string. destruct (split_lines (contents d) !! i) as [l|] eqn:Hl.
  - destruct (line_spec d i l Hl) as (r&->&Hr). cbn. by rewrite Hr.
  - apply lookup_ge_None in Hl. by rewrite line_none.
Qed.

Lemma line_chars_spec d i :
  CodeDocument.line_chars d i =
    Some (row_chars (contents d) i).
Proof. unfold row_chars.
  unfold CodeDocument.line_chars. destruct (split_lines (contents d) !! i) as [l|] eqn:Hl.
  - destruct (line_spec d i l Hl) as (r&->&Hr). cbn. by rewrite len_chars_law, Hr.
  - apply lookup_ge_None in Hl. by rewrite line_none.
Qed.

(** ** Edits *)

(** [d'] is [d] with the text [s], after an edit that measured the rows from
    [first] up to [last]. *)
Record edit_of d d' (s : str) (first last : nat) (shrink : bool) : Prop := {
  edit_contents : contents d' = s;
  edit_line_ending : CodeDocument.line_ending d' = CodeDocument.line_ending d;
  edit_read_only : CodeDocument.read_only d' = CodeDocument.read_only d;
  edit_revision : CodeDocument.revision d' = ((CodeDocument.revision d + 1) mod 2 ^ 64)%Z;
  edit_stale : CodeDocument.longest_line_stale d' = CodeDocument.longest_line_stale d || shrink;
  edit_longest : CodeDocument.longest_line_chars d ≤ CodeDocument.longest_line_chars d';
  edit_rows i : first ≤ i → i ≤ last → row_chars s i ≤ CodeDocument.longest_line_chars d';
  edit_exact : CodeDocument.longest_line_chars d' = CodeDocument.longest_line_chars d ∨
    ∃ i, first ≤ i ∧ i ≤ last ∧ CodeDocument.longest_line_chars d' = row_chars s i }.

Lemma remeasure_row_spec i d :
  CodeDocument.remeasure_row i d =
    Some (CodeDocument.mk (CodeDocument.text d) (CodeDocument.line_ending d)
      (CodeDocument.read_only d) (CodeDocument.longest_line_chars d `max` row_chars (contents d) i)
      (CodeDocument.revision d) (CodeDocument.longest_line_stale d)).
Proof.
  unfold CodeDocument.remeasure_row. rewrite line_chars_spec. cbn [mbind option_bind].
  f_equal. destruct (Nat.ltb_spec (CodeDocument.longest_line_chars d) (row_chars (contents d) i)).
  - by rewrite Nat.max_r by lia.
  - rewrite Nat.max_l by lia. by destruct d.
Qed.

Lemma remeasure_loop rows d :
  for_each rows CodeDocument.remeasure_row d =
    Some (CodeDocument.mk (CodeDocument.text d) (CodeDocument.line_ending d)
      (CodeDocument.read_only d)
      (foldl Nat.max (CodeDocument.longest_line_chars d) (row_chars (contents d) <$> rows))
      (CodeDocument.revision d) (CodeDocument.longest_line_stale d)).
Proof.
  revert d. induction rows as [|i rows IH]; intros d; [by destruct d|].
  cbn [for_each]. rewrite remeasure_row_spec. cbn [mbind option_bind]. by rewrite IH.
Qed.

Lemma foldl_max n l :
  n ≤ foldl Nat.max n l ∧ Forall (λ x, x ≤ foldl Nat.max n l) l ∧
  (foldl Nat.max n l = n ∨ foldl Nat.max n l ∈ l).
Proof.
  revert n. induction l as [|x l IH]; intros n; simpl; [auto|].
  destruct (IH (n `max` x)) as (H1&H2&H3). split_and!; [lia| |].
  - constructor; [lia|done].
  - destruct H3 as [H3|H3]; [|right; by constructor].
    destruct (decide (n ≤ x)); [right; rewrite H3, Nat.max_r by done; constructor|left; lia].
Qed.

(** The rows out of the text are as if empty. *)
Lemma row_chars_out s i : length (split_lines s) ≤ i → row_chars s i = 0.
Proof. intros Hi%lookup_ge_None. unfold row_chars. by rewrite Hi. Qed.

Lemma remeasured d text' stale s first last :
  to_str text' = s → first ≤ last → last < length (split_lines s) →
  runs (CodeDocument.remeasure_rows (CodeDocument.edited d text' stale) first last) (λ d',
    edit_of d d' s first last stale).
Proof.
  intros Hs Hle Hlast. unfold CodeDocument.remeasure_rows. rewrite remeasure_loop. cbn -[Nat.sub].
  rewrite len_lines_law, Hs. rewrite Nat.min_l by lia. unfold contents; cbn -[Nat.sub]. rewrite Hs.
  destruct (foldl_max (CodeDocument.longest_line_chars d) (row_chars s <$> seq first (S last - first)))
    as (H1&H2&H3).
  constructor; cbn -[Nat.sub]; try done.
  - intros i ??. rewrite Forall_fmap, Forall_forall in H2. apply (H2 i). apply elem_of_seq. lia.
  - destruct H3 as [H3|H3]; [by left|right]. apply list_elem_of_fmap in H3 as (i&Hi&Hin).
    apply elem_of_seq in Hin. exists i. split_and!; [lia..|done].
Qed.

Lemma insert_law_app r p q n :
  to_str r = p ++ q → ∃ r', rope_insert r (length p) n = Some r' ∧ to_str r' = p ++ n ++ q.
Proof.
  intros Hr. apply fmap_some. rewrite insert_law, Hr. unfold up_to. rewrite length_app.
  rewrite (proj2 (Nat.leb_le _ _)) by lia. by rewrite take_app_length, drop_app_length.
Qed.

Lemma remove_law_app r p m q :
  to_str r = p ++ m ++ q →
  ∃ r', rope_remove r (length p) (length (p ++ m)) = Some r' ∧ to_str r' = p ++ q.
Proof.
  intros Hr. apply fmap_some. rewrite remove_law, Hr. rewrite !length_app.
  rewrite !(proj2 (Nat.leb_le _ _)) by lia. cbn [andb].
  by rewrite take_app_length, app_assoc, drop_app_length' by (by rewrite length_app).
Qed.

Lemma insert_spec d p q fragment :
  CodeDocument.read_only d = None → contents d = p ++ q → normalize_newlines fragment ≠ [] →
  runs (CodeDocument.insert d (byte_len p) fragment) (λ '(d', e),
    let n := normalize_newlines fragment in
    edit_of d d' (p ++ n ++ q) (newlines p) (newlines (p ++ n))
      (existsb (N.eqb 10) n && (row_chars (contents d) (newlines p) =? CodeDocument.longest_line_chars d)) ∧
    e = Some (mkCodeEdit (byte_len p) (byte_len p) (byte_len (p ++ n))
      (point_of p) (point_of p) (point_of (p ++ n)))).
Proof.
  intros Hro Hd Hn. unfold CodeDocument.insert, CodeDocument.is_read_only. rewrite Hro.
  rewrite bool_decide_eq_false_2 by done. set (n := normalize_newlines fragment) in *.
  bind (snap_app d p q Hd). bind (point_at_app d p q Hd). bind line_chars_spec.
  bind (byte_to_char_app _ p q Hd).
  destruct (insert_law_app _ _ _ n Hd) as (r'&->&Hr'). cbn [mbind option_bind].
  rewrite <- byte_len_app, (point_at_app _ (p ++ n) q) by (unfold contents; cbn; by rewrite Hr', <- app_assoc).
  cbn [mbind option_bind row point_of].
  eapply runs_bind; [apply (remeasured d _ _ (p ++ n ++ q))|].
  - done.
  - rewrite newlines_app. lia.
  - rewrite split_lines_length, !newlines_app. lia.
  - intros d' Hd'. simpl. by split.
Qed.

Lemma remove_spec d p m q :
  CodeDocument.read_only d = None → contents d = p ++ m ++ q → m ≠ [] →
  runs (CodeDocument.remove d (byte_len p) (byte_len (p ++ m))) (λ '(d', e),
    edit_of d d' (p ++ q) (newlines p) (newlines p)
      (negb (newlines p =? newlines (p ++ m)) ||
       (row_chars (contents d) (newlines p) =? CodeDocument.longest_line_chars d)) ∧
    e = Some (mkCodeEdit (byte_len p) (byte_len (p ++ m)) (byte_len p)
      (point_of p) (point_of (p ++ m)) (point_of p))).
Proof.
  intros Hro Hd Hm. assert (contents d = (p ++ m) ++ q) as Hd2 by by rewrite <- app_assoc.
  unfold CodeDocument.remove, CodeDocument.is_read_only. rewrite Hro.
  bind (snap_app d p _ Hd). bind (snap_app d _ q Hd2).
  assert (byte_len p < byte_len (p ++ m)) as Hlt.
  { destruct m as [|c m]; [done|]. rewrite byte_len_app, byte_len_cons. pose proof (utf8_nonempty c). lia. }
  rewrite (proj2 (Nat.leb_gt _ _)) by done.
  bind (point_at_app d p _ Hd). bind (point_at_app d _ q Hd2). bind line_chars_spec.
  bind (byte_to_char_app _ p _ Hd). bind (byte_to_char_app _ _ q Hd2).
  destruct (remove_law_app _ _ _ _ Hd) as (r'&->&Hr'). cbn [mbind option_bind row point_of].
  eapply runs_bind; [apply (remeasured d _ _ (p ++ q) (newlines p) (newlines p))|].
  - done.
  - done.
  - rewrite split_lines_length, newlines_app. lia.
  - intros d' Hd'. simpl. by split.
Qed.

Lemma slice_law_app r p m q :
  to_str r = p ++ m ++ q → ∃ r', rope_slice r (length p) (length (p ++ m)) = Some r' ∧ to_str r' = m.
Proof.
  intros Hr. apply fmap_some. rewrite slice_law, Hr, slice_some by (rewrite !length_app; lia).
  rewrite drop_app_length, length_app, Nat.add_comm, Nat.add_sub. by rewrite take_app_length.
Qed.

Lemma slice_string_spec d p m q :
  contents d = p ++ m ++ q →
  CodeDocument.slice_string d (byte_len p) (byte_len (p ++ m)) = Some m.
Proof.
  intros Hd. assert (contents d = (p ++ m) ++ q) as Hd2 by by rewrite <- app_assoc.
  unfold CodeDocument.slice_string. rewrite Nat.max_l by (rewrite byte_len_app; lia).
  bind (snap_app d p _ Hd). bind (snap_app d _ q Hd2).
  destruct (Nat.leb_spec (byte_len (p ++ m)) (byte_len p)) as [Hle|Hgt].
  - rewrite byte_len_app in Hle. destruct m as [|c m]; [done|].
    rewrite byte_len_cons in Hle. pose proof (utf8_nonempty c). lia.
  - bind (byte_to_char_app _ p _ Hd). bind (byte_to_char_app _ _ q Hd2).
    destruct (slice_law_app _ _ _ _ Hd) as (r'&->&Hr'). cbn. by rewrite Hr'.
Qed.

(** Whatever the offsets, an edit is one at the cuts before them. *)
Lemma insert_snap d b fragment :
  CodeDocument.insert d b fragment =
    CodeDocument.insert d (byte_len (before (contents d) b)) fragment.
Proof.
  unfold CodeDocument.insert. by rewrite !snap_spec, before_before.
Qed.

Lemma remove_snap d a b :
  CodeDocument.remove d a b =
    CodeDocument.remove d (byte_len (before (contents d) a)) (byte_len (before (contents d) b)).
Proof.
  unfold CodeDocument.remove. by rewrite !snap_spec, !before_before.
Qed.

Lemma insert_noop d b fragment :
  CodeDocument.read_only d ≠ None ∨ normalize_newlines fragment = [] →
  CodeDocument.insert d b fragment = Some (d, None).
Proof.
  unfold CodeDocument.insert, CodeDocument.is_read_only. intros [Hro|Hn].
  - by destruct (CodeDocument.read_only d).
  - rewrite Hn. by destruct (CodeDocument.read_only d).
Qed.

Lemma remove_noop d a b :
  CodeDocument.read_only d ≠ None ∨ b ≤ a → CodeDocument.remove d a b = Some (d, None).
Proof.
  unfold CodeDocument.remove, CodeDocument.is_read_only. intros [Hro|Hle].
  - by destruct (CodeDocument.read_only d).
  - destruct (CodeDocument.read_only d); [done|]. rewrite !snap_spec. cbn [mbind option_bind].
    destruct (before_mono (contents d) b a Hle) as (m&->&_).
    by rewrite (proj2 (Nat.leb_le _ _)) by (rewrite byte_len_app; lia).
Qed.
End correct.

(** * The editor: the line endings of a file *)

(** A text in which no [\n] follows a [\r]. *)
Definition crlf_free (s : str) : Prop := ∀ p q, s ≠ p ++ 13%N :: 10%N :: q.

(** A text in which every [\n] follows a [\r]. *)
Definition all_crlf (s : str) : Prop :=
  ∀ p q, s = p ++ 10%N :: q → ∃ p', p = p' ++ [13%N].

Lemma crlf_free_cons c s : crlf_free (c :: s) → crlf_free s.
Proof. intros Hs p q ->. by apply (Hs (c :: p) q). Qed.

Lemma no_cr_crlf_free s : 13%N ∉ s → crlf_free s.
Proof. intros Hs p q ->. apply Hs. rewrite elem_of_app. right. by constructor. Qed.

Lemma normalize_head c s :
  normalize_newlines (c :: s) =
    if (c =? 13)%N && bool_decide (head s = Some 10%N) then normalize_newlines s
    else c :: normalize_newlines s.
Proof. done. Qed.

Lemma normalize_crlf_free s : crlf_free s → normalize_newlines s = s.
Proof.
  induction s as [|c s IH]; intros Hs; [done|]. rewrite normalize_head.
  rewrite IH by by eapply crlf_free_cons. destruct (N.eqb_spec c 13) as [->|]; [|done]. cbn [andb].
  case_bool_decide as Hh; [|done]. destruct s as [|c s]; [done|]. injection Hh as ->.
  by destruct (Hs [] s).
Qed.

Lemma normalize_no_cr s : 13%N ∉ s → normalize_newlines s = s.
Proof. intros. by apply normalize_crlf_free, no_cr_crlf_free. Qed.

(** Writing each newline as [\r\n], and reading it back. *)
Lemma replace_newlines_cons c s :
  replace_newlines (c :: s) = (if (c =? 10)%N then [13; 10]%N else [c]) ++ replace_newlines s.
Proof. done. Qed.

Lemma replace_newlines_head s : head (replace_newlines s) ≠ Some 10%N.
Proof.
  destruct s as [|c s]; [done|]. rewrite replace_newlines_cons.
  destruct (N.eqb_spec c 10); simpl; congruence.
Qed.

Lemma normalize_replace s : normalize_newlines (replace_newlines s) = s.
Proof.
  induction s as [|c s IH]; [done|]. rewrite replace_newlines_cons.
  destruct (N.eqb_spec c 10) as [->|Hc]; cbn [app]; rewrite !normalize_head.
  - cbn. by rewrite IH.
  - rewrite (bool_decide_eq_false_2 _ (replace_newlines_head s)), andb_false_r. by rewrite IH.
Qed.

Lemma all_crlf_cons c s : all_crlf (c :: s) → c ≠ 10%N ∧ (c = 13%N ∨ head s ≠ Some 10%N) ∧
  (head s ≠ Some 10%N → all_crlf s).
Proof.
  intros Hs. split_and!.
  - intros ->. by destruct (Hs [] s eq_refl) as [[] ?].
  - destruct s as [|c' s]; [by right|]. destruct (decide (c' = 10%N)) as [->|Hc']; [|right; simpl; congruence].
    left. destruct (Hs [c] s eq_refl) as [[|? p] Hp]; [by injection Hp|].
    injection Hp as _ Hp. symmetry in Hp. by apply app_nil in Hp as [_ ?].
  - intros Hh p q ->. destruct (Hs (c :: p) q eq_refl) as [p' Hp'].
    destruct p as [|c' p _] using rev_ind; [done|]. exists p.
    rewrite app_comm_cons in Hp'. by apply app_inj_tail in Hp' as [_ ->].
Qed.

Lemma replace_normalize s : all_crlf s → replace_newlines (normalize_newlines s) = s.
Proof.
  remember (length s) as n eqn:Hn. revert s Hn. induction (lt_wf n) as [n _ IH]. intros s -> Hs.
  destruct s as [|c s]; [done|]. destruct (all_crlf_cons _ _ Hs) as (Hc&Hcr&Htail).
  rewrite normalize_head. destruct s as [|c' s].
  - rewrite bool_decide_eq_false_2, andb_false_r by done. rewrite replace_newlines_cons.
    by rewrite (proj2 (N.eqb_neq _ _)).
  - destruct (decide (c' = 10%N)) as [->|Hc'].
    + destruct Hcr as [->|?]; [|done]. cbn [head]. rewrite bool_decide_eq_true_2, andb_true_r by done.
      cbn [N.eqb Pos.eqb]. rewrite normalize_head. cbn [N.eqb Pos.eqb andb].
      rewrite replace_newlines_cons. cbn [N.eqb Pos.eqb app]. do 2 f_equal.
      apply (IH (length s)); [simpl; lia|done|].
      intros p q ->. destruct (Hs (13%N :: 10%N :: p) q eq_refl) as [p' Hp'].
      destruct p as [|c' p _] using rev_ind.
      * by destruct p' as [|? [|? [|]]].
      * exists p. rewrite !app_comm_cons in Hp'. by apply app_inj_tail in Hp' as [_ ->].
    + rewrite bool_decide_eq_false_2, andb_false_r by (simpl; congruence).
      rewrite replace_newlines_cons, (proj2 (N.eqb_neq _ _)) by done. cbn [app]. f_equal.
      apply (IH (length (c' :: s))); [simpl; lia|done|]. apply Htail. simpl. congruence.
Qed.

(** ** The ending that is detected *)

Lemma detect_after_first before p q :
  10%N ∉ p → detect_after before (p ++ 10%N :: q) =
    if bool_decide ((match last p with Some c => Some c | None => before end) = Some 13%N) then Crlf else Lf.
Proof.
  revert before. induction p as [|c p IH]; intros before Hp; [done|].
  apply not_elem_of_cons in Hp as [Hc Hp]. cbn [app detect_after].
  rewrite (proj2 (N.eqb_neq _ _)), IH by congruence. rewrite last_cons. by destruct (last p).
Qed.

Lemma detect_none before s : 10%N ∉ s → detect_after before s = Lf.
Proof.
  revert before. induction s as [|c s IH]; intros before Hs; [done|].
  apply not_elem_of_cons in Hs as [Hc Hs]. cbn. rewrite (proj2 (N.eqb_neq _ _)) by congruence. by apply IH.
Qed.

(** A text with a newline, cut at its first one. *)
Lemma first_newline (s : str) : 10%N ∈ s → ∃ p q, s = p ++ 10%N :: q ∧ 10%N ∉ p.
Proof.
  induction s as [|c s IH]; [by intros ?%elem_of_nil|].
  destruct (decide (c = 10%N)) as [->|Hc].
  - exists [], s. split; [done|by apply not_elem_of_nil].
  - intros [|Hs]%elem_of_cons; [congruence|]. destruct (IH Hs) as (p&q&->&Hp).
    exists (c :: p), q. split; [done|]. rewrite not_elem_of_cons. by split.
Qed.

Lemma detect_crlf s : all_crlf s → 10%N ∈ s → detect s = Crlf.
Proof.
  intros Hs (p&q&->&Hp)%first_newline. unfold detect. rewrite detect_after_first by done.
  destruct (Hs p q eq_refl) as [p' ->]. by rewrite last_snoc, bool_decide_eq_true_2.
Qed.

Lemma detect_lf s : crlf_free s → detect s = Lf.
Proof.
  intros Hs. destruct (decide (10%N ∈ s)) as [(p&q&->&Hp)%first_newline|Hno]; [|by apply detect_none].
  unfold detect. rewrite detect_after_first by done. rewrite bool_decide_eq_false_2; [done|].
  destruct p as [|c p _] using rev_ind; [done|]. rewrite last_snoc. intros [= ->].
  apply (Hs p q). by rewrite <- app_assoc.
Qed.

Lemma replace_all_crlf s : all_crlf (replace_newlines s).
Proof.
  induction s as [|c s IH]; intros p q; [by destruct p|]. rewrite replace_newlines_cons.
  destruct (N.eqb_spec c 10) as [->|Hc].
  - destruct p as [|c1 [|c2 p]]; [done| |].
    + intros [= <- _]. by exists [].
    + intros [= <- <- Hs]. destruct (IH _ _ Hs) as [p' ->]. by exists (13%N :: 10%N :: p').
  - destruct p as [|c1 p]; [by intros [= -> _]|].
    intros [= <- Hs]. destruct (IH _ _ Hs) as [p' ->]. by exists (c :: p').
Qed.

Lemma replace_newline_in s : 10%N ∈ s → 10%N ∈ replace_newlines s.
Proof.
  induction s as [|c s IH]; [by intros ?%elem_of_nil|]. rewrite replace_newlines_cons, elem_of_app.
  intros [<-|Hs]%elem_of_cons; [left|right; by apply IH].
  apply elem_of_cons. right. by apply list_elem_of_singleton.
Qed.

(** * The editor: the length of the longest line *)

Definition max_length (ls : list str) : nat := foldr Nat.max 0 (length <$> ls).

Definition longest_of (s : str) : nat := max_length (split_lines s).

Lemma max_length_cons l ls : max_length (l :: ls) = length l `max` max_length ls.
Proof. done. Qed.

Lemma max_length_app ls ls' : max_length (ls ++ ls') = max_length ls `max` max_length ls'.
Proof.
  induction ls as [|l ls IH]; [done|]. rewrite <- app_comm_cons, !max_length_cons, IH. lia.
Qed.

Lemma max_length_lookup ls i l : ls !! i = Some l → length l ≤ max_length ls.
Proof.
  intros Hl. rewrite <- (take_drop_middle _ _ _ Hl), max_length_app, max_length_cons. lia.
Qed.

Lemma max_length_least ls n : (∀ i l, ls !! i = Some l → length l ≤ n) → max_length ls ≤ n.
Proof.
  induction ls as [|l ls IH]; intros Hall; [unfold max_length; simpl; lia|]. rewrite max_length_cons.
  apply Nat.max_lub; [by apply (Hall 0)|]. apply IH. intros i. apply (Hall (S i)).
Qed.

(** ** The two measurements *)

Lemma ascii_byte_len l : Forall (λ c, (c < 128)%N) l → byte_len l = length l.
Proof.
  induction 1 as [|c l Hc _ IH]; [done|]. rewrite byte_len_cons, utf8_ascii by done. simpl. by rewrite IH.
Qed.

Lemma split_newline_forall (P : N → Prop) s : Forall P s → Forall (Forall P) (split_newline s).
Proof.
  induction 1 as [|c s Hc _ IH]; simpl; [repeat constructor|].
  destruct (split_newline_cons s) as (l&ls&Hs). rewrite Hs in *.
  apply Forall_cons in IH as [Hl Hls]. case_match; repeat constructor; done.
Qed.

Lemma measure_text_lines_longest s : measure_text_lines s = longest_of s.
Proof.
  unfold measure_text_lines, longest_of, max_length, split_lines. case_match eqn:Hascii; [|done].
  f_equal. apply Forall_fmap_ext. eapply Forall_impl; [|apply ascii_byte_len].
  apply split_newline_forall. rewrite forallb_forall in Hascii.
  apply Forall_forall. intros c Hc. apply N.ltb_lt, Hascii. by apply list_elem_of_In.
Qed.

Lemma measure_chars_longest s longest current :
  measure_chars longest current s =
    match split_lines s with
    | l :: ls => longest `max` (current + length l) `max` max_length ls
    | [] => 0
    end.
Proof.
  revert longest current. unfold split_lines. induction s as [|c s IH]; intros longest current; simpl.
  - unfold max_length. simpl. lia.
  - destruct (split_newline_cons s) as (l&ls&Hs). rewrite Hs in *.
    case_match; rewrite IH; simpl; [rewrite max_length_cons|]; lia.
Qed.

Lemma measure_chars_correct s : measure_chars 0 0 s = longest_of s.
Proof.
  rewrite measure_chars_longest. unfold longest_of.
  destruct (split_newline_cons s) as (l&ls&Hs). unfold split_lines. rewrite Hs. done.
Qed.

(** ** The lines around an edit *)

Lemma split_lines_one s : newlines s = 0 → split_lines s = [s].
Proof.
  intros Hs. destruct (pieces_last_line s) as (init&Hsplit&Hlen&Hjoin).
  rewrite Hs in Hlen. destruct init; [|done]. simpl in *. by rewrite Hsplit, <- Hjoin.
Qed.

Lemma newlines_line s i l : split_lines s !! i = Some l → newlines l = 0.
Proof. intros Hl. by eapply newlines_none, line_no_newline. Qed.

(** The lines of [p ++ m ++ q], whatever [m]. *)
Lemma lines_around p q :
  ∃ init rest a b, (∀ m, split_lines (p ++ m ++ q) = init ++ split_lines (a ++ m ++ b) ++ rest) ∧
    length init = newlines p ∧ newlines a = 0 ∧ newlines b = 0.
Proof.
  destruct (split_lines_app p []) as (init&a&_&_&Hp&_&_&Hlen).
  destruct (split_lines_app [] q) as (_&_&b&rest&_&Hq&_&_).
  assert (newlines a = 0) as Ha.
  { apply (newlines_line p (length init)). by rewrite Hp, lookup_app_r, Nat.sub_diag by done. }
  assert (newlines b = 0) as Hb by (apply (newlines_line q 0); by rewrite Hq).
  exists init, rest, a, b. split_and!; [|done..]. intros m.
  assert (∃ x xs, split_lines (m ++ b) = x :: xs ∧ split_lines (m ++ q) = x :: xs ++ rest) as (x&xs&Hmb&Hmq).
  { destruct (split_lines_app m q) as (im&am&bq&rq&Hm&Hq'&Hmq&_). rewrite Hq in Hq'. injection Hq' as <- <-.
    destruct (split_lines_app m b) as (im'&am'&bb&rb&Hm'&Hb'&Hmb&_).
    rewrite split_lines_one in Hb' by done. injection Hb' as <- <-.
    rewrite Hm in Hm'. apply app_inj_tail in Hm' as [<- <-]. rewrite Hmb, Hmq.
    destruct im as [|y im]; simpl; eexists _, _; [by split|]. split; [done|]. by rewrite <- app_assoc. }
  destruct (split_lines_app p (m ++ q)) as (i1&a1&b1&r1&Hp1&Hmq1&->&_).
  rewrite Hp in Hp1. apply app_inj_tail in Hp1 as [<- <-]. rewrite Hmq in Hmq1. injection Hmq1 as <- <-.
  destruct (split_lines_app a (m ++ b)) as (i2&a2&b2&r2&Ha2&Hmb2&->&_).
  rewrite split_lines_one in Ha2 by done. rewrite Hmb in Hmb2. injection Hmb2 as <- <-.
  destruct i2 as [|? [|]]; simplify_eq/=. done.
Qed.

(** A text without a [\r] is measured by its lines. *)
Lemma chomp_id l : 13%N ∉ l → chomp l = l.
Proof.
  unfold chomp. intros Hl. destruct (last l) as [c|] eqn:Hlast; [|done].
  destruct (decide (c = 13%N)) as [->|Hc]; [by destruct Hl; apply last_Some_elem_of|].
  by repeat case_match.
Qed.

Lemma line_elem_of s i l c : split_lines s !! i = Some l → c ∈ l → c ∈ s.
Proof.
  intros Hl Hc. destruct (pieces_lookup _ _ _ Hl) as (nl&q&_&Hs&_). rewrite Hs.
  rewrite !elem_of_app. tauto.
Qed.

Lemma row_chars_line s i l : 13%N ∉ s → split_lines s !! i = Some l → row_chars s i = length l.
Proof.
  intros Hs Hl. unfold row_chars. rewrite Hl, chomp_id; [done|].
  intros Hc. by destruct Hs; eapply line_elem_of.
Qed.

Section longest.
Context `{Hrope : Rope, Hlaws : !RopeLaws}.
Implicit Types d : CodeDocument.t.

Definition longest_exact d : Prop :=
  CodeDocument.longest_line_stale d = false →
  CodeDocument.longest_line_chars d = longest_of (contents d).

(** The length stays exact over an edit that did not shorten the longest line. *)
Lemma longest_edit d d' p m n q shrink :
  edit_of d d' (p ++ n ++ q) (newlines p) (newlines (p ++ n)) shrink → 13%N ∉ p ++ n ++ q →
  CodeDocument.longest_line_chars d = longest_of (p ++ m ++ q) →
  CodeDocument.longest_line_chars d ≤ longest_of (p ++ n ++ q) →
  CodeDocument.longest_line_chars d' = longest_of (p ++ n ++ q).
Proof.
  intros He Hcr Hold Hle. destruct (lines_around p q) as (init&rest&a&b&Hlines&Hlen&Ha&Hb).
  pose proof (edit_longest _ _ _ _ _ _ He) as Hge. pose proof (edit_exact _ _ _ _ _ _ He) as Hex.
  apply Nat.le_antisymm.
  - destruct Hex as [->|(i&_&_&->)]; [done|].
    destruct (split_lines (p ++ n ++ q) !! i) as [l|] eqn:Hl.
    + rewrite (row_chars_line _ _ l) by done. by eapply max_length_lookup.
    + unfold row_chars. rewrite Hl. lia.
  - unfold longest_of in *. rewrite !Hlines, !max_length_app in *.
    assert (max_length (split_lines (a ++ n ++ b)) ≤ CodeDocument.longest_line_chars d') as Hmid; [|lia].
    apply max_length_least. intros i l Hl.
    assert (split_lines (p ++ n ++ q) !! (length init + i) = Some l) as Hl'.
    { rewrite Hlines, lookup_app_r, Nat.add_comm, Nat.add_sub by lia. by apply lookup_app_l_Some. }
    rewrite <- (row_chars_line _ _ l Hcr Hl'). apply (edit_rows _ _ _ _ _ _ He); [lia|].
    apply lookup_lt_Some in Hl. rewrite split_lines_length, !newlines_app in Hl.
    rewrite newlines_app. lia.
Qed.

Lemma existsb_newlines n : existsb (N.eqb 10) n = false → newlines n = 0.
Proof.
  induction n as [|c n IH]; [done|]. cbn [existsb]. rewrite newlines_cons, orb_false_iff, N.eqb_sym.
  intros [-> Hn]. by apply IH.
Qed.

(** The row of a cut is no longest line. *)
Lemma row_not_longest p x q n L :
  13%N ∉ p ++ x ++ q → newlines x = 0 → L = longest_of (p ++ x ++ q) →
  row_chars (p ++ x ++ q) (newlines p) ≠ L → L ≤ longest_of (p ++ n ++ q).
Proof.
  intros Hcr Hx HL Hrow. destruct (lines_around p q) as (init&rest&a&b&Hlines&Hlen&Ha&Hb).
  assert (split_lines (a ++ x ++ b) = [a ++ x ++ b]) as Hone.
  { apply split_lines_one. rewrite !newlines_app. lia. }
  rewrite (row_chars_line _ _ (a ++ x ++ b)) in Hrow.
  - unfold longest_of in *. rewrite Hlines, Hone, !max_length_app, max_length_cons in HL.
    rewrite Hlines, !max_length_app. change (max_length []) with 0 in HL. lia.
  - done.
  - by rewrite Hlines, Hone, <- Hlen, lookup_app_r, Nat.sub_diag by done.
Qed.

Lemma insert_longest d d' p q n :
  edit_of d d' (p ++ n ++ q) (newlines p) (newlines (p ++ n))
    (existsb (N.eqb 10) n && (row_chars (contents d) (newlines p) =? CodeDocument.longest_line_chars d)) →
  contents d = p ++ q → 13%N ∉ p ++ n ++ q → longest_exact d → longest_exact d'.
Proof.
  intros He Hd Hcr Hex Hstale. rewrite (edit_contents _ _ _ _ _ _ He).
  rewrite (edit_stale _ _ _ _ _ _ He), orb_false_iff in Hstale. destruct Hstale as [Hstale Hshrink].
  specialize (Hex Hstale). rewrite Hd in *.
  eapply (longest_edit d d' p [] n q _ He Hcr Hex).
  apply andb_false_iff in Hshrink as [Hn%existsb_newlines|Hrow].
  - rewrite Hex. destruct (lines_around p q) as (init&rest&a&b&Hlines&_&Ha&Hb).
    unfold longest_of. change (p ++ q) with (p ++ [] ++ q).
    rewrite !Hlines, !max_length_app, !split_lines_one
      by (rewrite !newlines_app; unfold newlines in *; simpl; lia).
    rewrite !max_length_cons, !length_app. simpl. lia.
  - apply (row_not_longest p [] q n _); [|done|exact Hex|by apply Nat.eqb_neq].
    clear -Hcr. set_solver.
Qed.

Lemma remove_longest d d' p m q :
  edit_of d d' (p ++ q) (newlines p) (newlines p)
    (negb (newlines p =? newlines (p ++ m)) ||
     (row_chars (contents d) (newlines p) =? CodeDocument.longest_line_chars d)) →
  contents d = p ++ m ++ q → 13%N ∉ p ++ m ++ q → longest_exact d → longest_exact d'.
Proof.
  intros He Hd Hcr Hex Hstale. rewrite (edit_contents _ _ _ _ _ _ He).
  rewrite (edit_stale _ _ _ _ _ _ He), !orb_false_iff, negb_false_iff, Nat.eqb_eq, Nat.eqb_neq in Hstale.
  destruct Hstale as (Hstale&Hrows&Hrow). specialize (Hex Hstale). rewrite Hd in *.
  rewrite newlines_app in Hrows. eapply (longest_edit d d' p m [] q).
  - rewrite app_nil_r. exact He.
  - clear -Hcr. set_solver.
  - done.
  - apply (row_not_longest p m q []); [done|lia|done..].
Qed.

(** ** Edits with measurements in the background *)

(** A document with the snapshots whose measurement has not come back.  Inserted
    texts have no [\r] but before a [\n]. *)
Inductive doc_step : CodeDocument.t * list (rope * Z) → CodeDocument.t * list (rope * Z) → Prop :=
  | step_insert d d' snaps b fragment e :
      13%N ∉ normalize_newlines fragment →
      CodeDocument.insert d b fragment = Some (d', e) → doc_step (d, snaps) (d', snaps)
  | step_remove d d' snaps a b e :
      CodeDocument.remove d a b = Some (d', e) → doc_step (d, snaps) (d', snaps)
  | step_snapshot d snaps snap :
      CodeDocument.longest_line_snapshot d = Some snap → doc_step (d, snaps) (d, snap :: snaps)
  | step_measured d snaps text revision :
      (text, revision) ∈ snaps →
      doc_step (d, snaps)
        (fst (CodeDocument.apply_longest_line_measurement d revision
          (CodeDocument.measure_longest_line text)), snaps)
  | step_settings d snaps ending reason :
      doc_step (d, snaps)
        (CodeDocument.set_read_only (CodeDocument.set_line_ending d ending) reason, snaps).

(** The state after at most [n] edits. *)
Definition doc_inv (n : nat) (st : CodeDocument.t * list (rope * Z)) : Prop :=
  let '(d, snaps) := st in
  13%N ∉ contents d ∧ longest_exact d ∧ (0 ≤ CodeDocument.revision d ≤ Z.of_nat n)%Z ∧
  Forall (λ '(text, revision), (0 ≤ revision ≤ CodeDocument.revision d)%Z ∧
    (revision = CodeDocument.revision d → to_str text = contents d)) snaps.

(** An edit makes every snapshot one of an older revision. *)
Lemma snaps_older n d d' snaps s first last shrink :
  (Z.of_nat n + 1 < 2 ^ 64)%Z → doc_inv n (d, snaps) → edit_of d d' s first last shrink →
  13%N ∉ s → longest_exact d' → doc_inv (S n) (d', snaps).
Proof.
  intros Hn (_&_&Hrev&Hsnaps) He Hs Hex. unfold doc_inv.
  rewrite (edit_contents _ _ _ _ _ _ He), (edit_revision _ _ _ _ _ _ He), Z.mod_small by lia.
  split_and!; [done..|lia|lia|].
  eapply Forall_impl; [exact Hsnaps|]. intros [text revision] [? _]. split; [lia|lia].
Qed.

Lemma doc_inv_mono n m st : n ≤ m → doc_inv n st → doc_inv m st.
Proof. intros Hnm. destruct st as [d snaps]. intros (?&?&?&?). split_and!; (done || lia). Qed.

Lemma doc_step_inv n st st' :
  (Z.of_nat n + 1 < 2 ^ 64)%Z → doc_inv n st → doc_step st st' → doc_inv (S n) st'.
Proof.
  intros Hn Hinv Hstep. destruct Hstep as [d d' snaps b fragment e Hf Hi|d d' snaps a b e Hr|d snaps snap Hs
    |d snaps text revision Hin|d snaps ending reason].
  - pose proof Hinv as (Hcr&Hex&_). destruct (decide (CodeDocument.read_only d = None)) as [Hro|Hro].
    2: { rewrite insert_noop in Hi by auto. injection Hi as <- <-. by apply (doc_inv_mono n); [lia|]. }
    destruct (decide (normalize_newlines fragment = [])) as [Hne|Hne].
    { rewrite insert_noop in Hi by auto. injection Hi as <- <-. by apply (doc_inv_mono n); [lia|]. }
    rewrite insert_snap in Hi. pose proof (before_after (contents d) b) as Hd.
    pose proof (insert_spec d _ _ fragment Hro (eq_sym Hd) Hne) as Hspec. rewrite Hi in Hspec.
    destruct Hspec as [He _].
    assert (13%N ∉ before (contents d) b ++ normalize_newlines fragment ++ after (contents d) b) as Hcr'.
    { rewrite <- Hd in Hcr. clear -Hcr Hf. set_solver. }
    eapply snaps_older; [done..|]. by eapply insert_longest.
  - pose proof Hinv as (Hcr&Hex&_). destruct (decide (CodeDocument.read_only d = None)) as [Hro|Hro].
    2: { rewrite remove_noop in Hr by auto. injection Hr as <- <-. by apply (doc_inv_mono n); [lia|]. }
    destruct (decide (b ≤ a)) as [Hab|Hab].
    { rewrite remove_noop in Hr by auto. injection Hr as <- <-. by apply (doc_inv_mono n); [lia|]. }
    rewrite remove_snap in Hr. destruct (before_mono (contents d) a b) as (m&Hb&Ha); [lia|].
    pose proof (before_after (contents d) a) as Hd. rewrite Ha in Hd.
    rewrite Hb in Hr. destruct (decide (m = [])) as [->|Hm].
    { rewrite app_nil_r, remove_noop in Hr by auto. injection Hr as <- <-.
      by apply (doc_inv_mono n); [lia|]. }
    pose proof (remove_spec d _ m _ Hro (eq_sym Hd) Hm) as Hspec. rewrite Hr in Hspec.
    destruct Hspec as [He _].
    assert (13%N ∉ before (contents d) a ++ m ++ after (contents d) b) as Hcr' by by rewrite Hd.
    eapply snaps_older; [done..| |].
    + clear -Hcr'. set_solver.
    + by eapply remove_longest.
  - apply (doc_inv_mono n); [lia|]. destruct Hinv as (Hcr&Hex&Hrev&Hsnaps). split_and!; [done..|lia|lia|].
    unfold CodeDocument.longest_line_snapshot in Hs. case_match; [|done]. injection Hs as <-.
    constructor; [|done]. split; [lia|done].
  - apply (doc_inv_mono n); [lia|]. pose proof Hinv as (Hcr&Hex&Hrev&Hsnaps).
    unfold CodeDocument.apply_longest_line_measurement. case_match eqn:Hcond; [exact Hinv|].
    apply orb_false_iff in Hcond as [Heq _]. apply negb_false_iff, Z.eqb_eq in Heq.
    rewrite Forall_forall in Hsnaps. destruct (Hsnaps _ Hin) as [_ Htext]. specialize (Htext Heq).
    split; [done|]. split; [|split; [done|by apply Forall_forall]].
    intros _. cbn. unfold CodeDocument.measure_longest_line.
    by rewrite measure_chars_correct, Htext.
  - by apply (doc_inv_mono n); [lia|].
Qed.

Lemma doc_inv_new raw : 13%N ∉ normalize_newlines raw → doc_inv 0 (CodeDocument.new raw, []).
Proof.
  intros Hraw. unfold doc_inv, longest_exact, contents. cbn. rewrite to_from_str.
  split_and!; [done| |lia|lia|constructor]. intros _. apply measure_text_lines_longest.
Qed.
End longest.
