(* ===== verification/EditSplice.v ===== *)
(** * The editor: splices and the windows of the tracker ([diff_dock/code/edit.rs])

    A splice removes a range and inserts a text in its place.  It leaves a record
    from which the history undoes and redoes it, and the line windows that the
    tracker of the changed lines is told. *)

From S2P Require Import Prelude DiffRange DiffText DiffUtf8 DiffTracker EditDocument.

(** [cursor.rs] *)
Record CodeSelection := mkSelection { anchor : nat; sel_head : nat }.

#[export] Instance CodeSelection_eq_dec : EqDecision CodeSelection.
Proof. solve_decision. Defined.

Record AppliedEdit := mkApplied { ae_start : nat; removed : str; inserted : str }.

Definition inserted_range (self : AppliedEdit) : nat * nat :=
  (ae_start self, ae_start self + byte_len (inserted self)).

Definition removed_range (self : AppliedEdit) : nat * nat :=
  (ae_start self, ae_start self + byte_len (removed self)).

(** The fields are [u32]s, the arguments of [BlockTracker.range_changed]. *)
Record TrackerWindow := mkWindow { start_line : Z; before_len : Z; after_len : Z }.

Record DocChange := mkChange { change_edit : CodeEdit; window : TrackerWindow }.

Record Splice := mkSplice { splice_edit : CodeEdit; windows : list TrackerWindow; record : AppliedEdit }.

Definition starts_with_newline (s : str) : bool := bool_decide (head s = Some 10%N).
Definition ends_with_newline (s : str) : bool := bool_decide (last s = Some 10%N).

Section splice.
Context `{Rope}.

Definition newline_before (doc : CodeDocument.t) (offset : nat) : option bool :=
  if offset =? 0 then Some true
  else b ← rope_byte (CodeDocument.text doc) (offset - 1); Some (b =? 10)%N.

Definition newline_after (doc : CodeDocument.t) (offset : nat) : option bool :=
  if CodeDocument.len_bytes doc <=? offset then Some true
  else b ← rope_byte (CodeDocument.text doc) offset; Some (b =? 10)%N.

Definition tracker_window (doc : CodeDocument.t) (edit : CodeEdit) (fragment : str)
  : option TrackerWindow :=
  let line1 := row (start_point edit) in
  old_len ← checked_sub (old_end_byte edit) (start_byte edit);
  new_len ← checked_sub (new_end_byte edit) (start_byte edit);
  let line2 := if old_len =? 0 then line1 + 1 else row (old_end_point edit) + 1 in
  let new_line2 := if new_len =? 0 then line1 + 1 else row (new_end_point edit) + 1 in
  before_len ← checked_sub line2 line1;
  after_len ← checked_sub new_line2 line1;
  let whole_lines := negb (Bool.eqb (old_len =? 0) (new_len =? 0)) in
  first ← (if whole_lines && ends_with_newline fragment
           then newline_before doc (start_byte edit) else Some false);
  second ← (if negb first && whole_lines && starts_with_newline fragment
            then newline_after doc (new_end_byte edit) else Some false);
  Some (if (first : bool) then
          mkWindow (as_u32 line1) (as_u32 (before_len - 1)) (as_u32 (after_len - 1))
        else if (second : bool) then
          mkWindow (as_u32 (line1 + 1)) (as_u32 (before_len - 1)) (as_u32 (after_len - 1))
        else mkWindow (as_u32 line1) (as_u32 before_len) (as_u32 after_len)).

Definition replacement_edit (removal insertion : option CodeEdit) : option CodeEdit :=
  match removal, insertion with
  | Some removal, Some insertion =>
      Some (mkCodeEdit (start_byte removal) (old_end_byte removal) (new_end_byte insertion)
        (start_point removal) (old_end_point removal) (new_end_point insertion))
  | Some edit, None | None, Some edit => Some edit
  | None, None => None
  end.

(** One half of [raw_splice]: the edit, if the document makes one, with its window. *)
Definition change (applied : option (CodeDocument.t * option CodeEdit)) (fragment : str)
    (edits : list DocChange) : option (CodeDocument.t * list DocChange) :=
  st ← applied;
  match st with
  | (doc, None) => Some (doc, edits)
  | (doc, Some edit) =>
      window ← tracker_window doc edit fragment; Some (doc, edits ++ [mkChange edit window])
  end.

Definition raw_splice (doc : CodeDocument.t) (range : nat * nat) (removed inserted : str)
  : option (CodeDocument.t * list DocChange) :=
  st ← (if range.1 <? range.2
        then change (CodeDocument.remove doc range.1 range.2) removed [] else Some (doc, []));
  let '(doc, edits) := st in
  if negb (bool_decide (inserted = []))
  then change (CodeDocument.insert doc range.1 inserted) inserted edits
  else Some (doc, edits).

Definition apply_forward (doc : CodeDocument.t) (record : AppliedEdit)
  : option (CodeDocument.t * list DocChange) :=
  raw_splice doc (removed_range record) (removed record) (inserted record).

Definition apply_reverse (doc : CodeDocument.t) (record : AppliedEdit)
  : option (CodeDocument.t * list DocChange) :=
  raw_splice doc (inserted_range record) (inserted record) (removed record).

Definition splice (doc : CodeDocument.t) (range : nat * nat) (text : str)
  : option (CodeDocument.t * option Splice) :=
  if CodeDocument.is_read_only doc then Some (doc, None)
  else
    start ← CodeDocument.snap_to_boundary doc range.1;
    end_ ← CodeDocument.snap_to_boundary doc (Nat.max range.2 range.1);
    removed ← CodeDocument.slice_string doc start end_;
    let inserted := normalize_newlines text in
    if bool_decide (removed = []) && bool_decide (inserted = []) then Some (doc, None)
    else
      st ← raw_splice doc (start, end_) removed inserted;
      let '(doc, changes) := st in
      let edits := change_edit <$> changes in
      Some (doc,
        match replacement_edit (edits !! 0) (edits !! 1) with
        | Some edit => Some (mkSplice edit (window <$> changes) (mkApplied start removed inserted))
        | None => None
        end).
(** The loop over the operations of [CodeView::splice_all]: the records and the
    windows of those that changed the text. *)
Fixpoint splice_ops (doc : CodeDocument.t) (ops : list ((nat * nat) * str))
    (records : list AppliedEdit) (changes : list TrackerWindow)
  : option (CodeDocument.t * list AppliedEdit * list TrackerWindow) :=
  match ops with
  | [] => Some (doc, records, changes)
  | (range, text) :: ops =>
      st ← splice doc range text;
      match st with
      | (doc, None) => splice_ops doc ops records changes
      | (doc, Some applied) =>
          splice_ops doc ops (records ++ [record applied]) (changes ++ windows applied)
      end
  end.
End splice.

(** ** The indentation *)

Inductive IndentUnit := Tab | Spaces (n : nat).

Definition DEFAULT_INDENT_SPACES : nat := 4.
Definition INDENT_SCAN_LINES : nat := 5000.

Definition as_str (self : IndentUnit) : str :=
  match self with
  | Tab => [9%N]
  | Spaces n => replicate n 32%N
  end.

(** The characters before the first that is no space and no tab. *)
Fixpoint leading_indent (line : str) : str :=
  match line with
  | [] => []
  | c :: rest => if (c =? 32)%N || (c =? 9)%N then c :: leading_indent rest else []
  end.

(** The loop over [indent.bytes().take(n)]. *)
Fixpoint dedent_loop (indent : str) (n removed : nat) : nat :=
  match n, indent with
  | S n, byte :: indent =>
      if (byte =? 9)%N then (if removed =? 0 then 1 else removed)
      else dedent_loop indent n (removed + 1)
  | _, _ => removed
  end.

Definition dedent_width (line : str) (unit : IndentUnit) : nat :=
  let indent := leading_indent line in
  if bool_decide (indent = []) then 0
  else
    match unit with
    | Tab => if bool_decide (head indent = Some 9%N) then 1
             else Nat.min (byte_len indent) DEFAULT_INDENT_SPACES
    | Spaces n => dedent_loop indent (Nat.max n 1) 0
    end.

Fixpoint trim_end_newlines (line : str) : str :=
  match line with
  | [] => []
  | c :: rest =>
      match trim_end_newlines rest with
      | [] => if (c =? 10)%N then [] else [c]
      | rest => c :: rest
      end
  end.

(** [tabs], [spaces], [steps] and [previous]. *)
Definition detect_state : Type := nat * nat * list nat * option nat.

Definition in_indent_widths (step : nat) : bool := (2 <=? step) && (step <? 9).

(** One row of the loop of [IndentUnit::detect]. *)
Definition detect_row (line : str) (st : detect_state) : detect_state :=
  let '(tabs, spaces, steps, previous) := st in
  let indent := leading_indent line in
  if byte_len indent =? byte_len (trim_end_newlines line) then st
  else if bool_decide (head indent = Some 9%N) then (tabs + 1, spaces, steps, None)
  else
    let width := byte_len indent in
    let spaces := if 0 <? width then spaces + 1 else spaces in
    let steps :=
      match previous with
      | Some previous =>
          let step := Nat.max width previous - Nat.min width previous in
          if in_indent_widths step then alter S step steps else steps
      | None => steps
      end in
    (tabs, spaces, steps, Some width).

(** [max_by_key] over the widths from 8 down to 2: of equal keys the last counts. *)
Definition best_width (steps : list nat) : nat :=
  foldl (λ best width, if default 0 (steps !! best) <=? default 0 (steps !! width) then width else best)
    8 [7; 6; 5; 4; 3; 2].

Definition detect_indent `{Rope} (doc : CodeDocument.t) : option IndentUnit :=
  let rows := Nat.min (CodeDocument.line_count doc) INDENT_SCAN_LINES in
  '(tabs, spaces, steps, _) ←
    for_each (seq 0 rows) (λ row st,
      line ← CodeDocument.line_string doc row;
      Some (match line with Some line => detect_row line st | None => st end))
      (0, 0, replicate 9 0, None);
  Some (if (spaces <? tabs) && (0 <? tabs) then Tab
        else
          let width := best_width steps in
          if 0 <? default 0 (steps !! width) then Spaces width else Spaces DEFAULT_INDENT_SPACES).

(** ** Pasted text *)

(** [char::is_control] *)
Definition is_control (c : N) : bool := ((c <? 32) || (127 <=? c) && (c <? 160))%N.

(** [markdown/parser.rs] *)
Definition is_bidi_or_zero_width (c : N) : bool :=
  ((c =? 0x200B) || (c =? 0x200C) || (c =? 0x200D) || (c =? 0x2060) || (c =? 0xFEFF) ||
   (c =? 0x200E) || (c =? 0x200F) || (c =? 0x061C) ||
   (0x202A <=? c) && (c <=? 0x202E) || (0x2066 <=? c) && (c <=? 0x2069) ||
   (0x206A <=? c) && (c <=? 0x206F) || (0xFFF9 <=? c) && (c <=? 0xFFFB))%N.

Definition strip_bidi_zero_width (text : str) : str :=
  if existsb is_bidi_or_zero_width text
  then filter (λ c, is_bidi_or_zero_width c = false) text else text.

(** The loop over the characters; after a [\r] it also takes a [\n]. *)
Fixpoint sanitize_chars (text : str) : str :=
  match text with
  | [] => []
  | c :: rest =>
      if (c =? 13)%N then
        10%N :: match rest with
                | c' :: rest' => if (c' =? 10)%N then sanitize_chars rest' else sanitize_chars rest
                | [] => []
                end
      else if (c =? 10)%N || (c =? 9)%N then c :: sanitize_chars rest
      else if is_control c then sanitize_chars rest
      else c :: sanitize_chars rest
  end.

Definition sanitize_paste (text : str) : str := strip_bidi_zero_width (sanitize_chars text).
