(* ===== verification/EditSpliceCorrect.v ===== *)
(** * The editor: what a splice does

    A splice of a range replaces the text between its cuts, and its record holds
    the text removed and the text put in.  The windows it reports describe the
    change line by line: the lines of a window are replaced, the others stay. *)

From stdpp Require Import sets.
From S2P Require Import Prelude DiffRange DiffText DiffUtf8 DiffTracker DiffTrackerCorrect EditDocument EditDocumentCorrect EditSplice.

(** ** The line window of a text put between [p] and [q] *)

Definition at_line_start (p : str) : bool := bool_decide (p = []) || ends_with_newline p.
Definition at_line_end (q : str) : bool := bool_decide (q = []) || starts_with_newline q.

(** The first line of the window, its length with [x], its length without. *)
Definition text_window (p x q : str) : nat * nat * nat :=
  if ends_with_newline x && at_line_start p then (newlines p, newlines x, 0)
  else if starts_with_newline x && at_line_end q then (newlines p + 1, newlines x, 0)
  else (newlines p, newlines x + 1, 1).

(** The lines of a text that ends in a newline, and of what follows it. *)
Lemma split_lines_newline p q : split_lines (p ++ 10%N :: q) = split_lines p ++ split_lines q.
Proof.
  destruct (split_lines_app p (10%N :: q)) as (init&a&b&rest&Hp&Hq&->&_). rewrite Hp.
  unfold split_lines in *. simpl in Hq. destruct (split_newline_cons q) as (l&ls&Hs). rewrite Hs in *.
  injection Hq as <- <-. rewrite app_nil_r, <- app_assoc. done.
Qed.

Lemma ends_newline_snoc x : ends_with_newline x = true → ∃ x', x = x' ++ [10%N].
Proof.
  unfold ends_with_newline. intros Hx%bool_decide_eq_true.
  destruct x as [|c x _] using rev_ind; [done|]. rewrite last_snoc in Hx. injection Hx as ->. eauto.
Qed.

Lemma starts_newline_cons x : starts_with_newline x = true → ∃ x', x = 10%N :: x'.
Proof.
  unfold starts_with_newline. intros Hx%bool_decide_eq_true.
  destruct x as [|c x]; [done|]. injection Hx as ->. eauto.
Qed.

(** At the start of a line the lines before are untouched. *)
Lemma split_at_line_start p :
  at_line_start p = true →
  ∃ init, length init = newlines p ∧ ∀ q, split_lines (p ++ q) = init ++ split_lines q.
Proof.
  unfold at_line_start. intros [->%bool_decide_eq_true|(p'&->)%ends_newline_snoc]%orb_true_iff.
  - exists []. done.
  - exists (split_lines p'). split.
    + rewrite split_lines_length, newlines_app, (newlines_cons 10 []). cbn. lia.
    + intros q. rewrite <- app_assoc. apply split_lines_newline.
Qed.

Lemma split_at_line_end q :
  at_line_end q = true → ∃ rest, ∀ p, split_lines (p ++ q) = split_lines p ++ rest.
Proof.
  unfold at_line_end. intros [->%bool_decide_eq_true|(q'&->)%starts_newline_cons]%orb_true_iff.
  - exists []. intros p. by rewrite !app_nil_r.
  - exists (split_lines q'). intros p. apply split_lines_newline.
Qed.

(** The lines with and without [x]: those of its window differ. *)
Lemma text_window_lines p x q s kb ks :
  text_window p x q = (s, kb, ks) →
  ∃ init with_x without rest, length init = s ∧ length with_x = kb ∧ length without = ks ∧
    split_lines (p ++ x ++ q) = init ++ with_x ++ rest ∧
    split_lines (p ++ q) = init ++ without ++ rest.
Proof.
  unfold text_window. destruct (ends_with_newline x && at_line_start p) eqn:Hstart;
    [|destruct (starts_with_newline x && at_line_end q) eqn:Hend]; intros [= <- <- <-].
  - apply andb_true_iff in Hstart as [Hx Hp].
    destruct (split_at_line_start p Hp) as (init&Hlen&Hsplit).
    destruct (split_at_line_start x) as (mid&Hmid&Hsplitx); [by unfold at_line_start; rewrite Hx, orb_true_r|].
    exists init, mid, [], (split_lines q). rewrite !Hsplit, Hsplitx. done.
  - apply andb_true_iff in Hend as [(x'&->)%starts_newline_cons Hq].
    destruct (split_at_line_end q Hq) as (rest&Hsplit).
    exists (split_lines p), (split_lines x'), [], rest. rewrite !split_lines_length.
    split_and!; [lia| |done| |by rewrite Hsplit].
    + rewrite newlines_cons. cbn. done.
    + rewrite (app_assoc p), Hsplit, split_lines_newline. by rewrite <- app_assoc.
  - destruct (lines_around p q) as (init&rest&a&b&Hlines&Hlen&Ha&Hb).
    exists init, (split_lines (a ++ x ++ b)), (split_lines (a ++ [] ++ b)), rest.
    rewrite !split_lines_length, !newlines_app. split_and!; [done|lia| |done|].
    + unfold newlines in *. simpl. lia.
    + exact (Hlines []).
Qed.

(** ** Windows that describe a change of the lines *)

Inductive described : list str → list TrackerWindow → list str → Prop :=
  | described_nil ls : described ls [] ls
  | described_cons ls s k new ws ls' :
      s + k ≤ length ls → fits (DiffTrackerCorrect.splice ls s k new) →
      described (DiffTrackerCorrect.splice ls s k new) ws ls' →
      described ls (mkWindow (Z.of_nat s) (Z.of_nat k) (Z.of_nat (length new)) :: ws) ls'.

Lemma described_app ls ws ls' ws' ls'' :
  described ls ws ls' → described ls' ws' ls'' → described ls (ws ++ ws') ls''.
Proof. induction 1; [done|]. intros ?. simpl. constructor; auto. Qed.

Lemma described_one init old new rest :
  fits (init ++ new ++ rest) →
  described (init ++ old ++ rest)
    [mkWindow (Z.of_nat (length init)) (Z.of_nat (length old)) (Z.of_nat (length new))]
    (init ++ new ++ rest).
Proof.
  intros Hfits. assert (DiffTrackerCorrect.splice (init ++ old ++ rest) (length init) (length old) new
    = init ++ new ++ rest) as Heq.
  { unfold DiffTrackerCorrect.splice. rewrite take_app_length, (app_assoc init old), drop_app_length'; [done|].
    by rewrite length_app. }
  constructor; rewrite ?Heq; [rewrite !length_app; lia|done|constructor].
Qed.

Section correct.
Context `{Hrope : Rope, Hlaws : !RopeLaws}.
Implicit Types d : CodeDocument.t.

Lemma newline_before_spec d p q :
  contents d = p ++ q → newline_before d (byte_len p) = Some (at_line_start p).
Proof.
  intros Hd. unfold newline_before, at_line_start, ends_with_newline.
  destruct p as [|c p _] using rev_ind; [done|].
  assert (byte_len (p ++ [c]) ≠ 0).
  { rewrite byte_len_app, byte_len_cons. pose proof (utf8_nonempty c). lia. }
  rewrite (proj2 (Nat.eqb_neq _ _)) by done. rewrite byte_law. fold (contents d). rewrite Hd, <- app_assoc.
  destruct (byte_before p c q) as (b&->&Hb). cbn [mbind option_bind]. rewrite Hb by done.
  rewrite last_snoc, bool_decide_eq_false_2 by (intros ?%app_nil; naive_solver). f_equal.
  destruct (N.eqb_spec c 10) as [->|]; [done|]. by rewrite bool_decide_eq_false_2 by congruence.
Qed.

Lemma newline_after_spec d p q :
  contents d = p ++ q → newline_after d (byte_len p) = Some (at_line_end q).
Proof.
  intros Hd. unfold newline_after, at_line_end, starts_with_newline, CodeDocument.len_bytes.
  rewrite len_bytes_law, byte_law. fold (contents d). rewrite Hd. destruct q as [|c q].
  - rewrite app_nil_r. by rewrite (proj2 (Nat.leb_le _ _)).
  - rewrite (proj2 (Nat.leb_gt _ _)).
    2: { rewrite byte_len_app, byte_len_cons. pose proof (utf8_nonempty c). lia. }
    destruct (byte_after p c q) as (b&->&Hb). cbn [mbind option_bind]. rewrite Hb by done.
    rewrite bool_decide_eq_false_2 by done. cbn. f_equal.
    destruct (N.eqb_spec c 10) as [->|]; [done|]. by rewrite bool_decide_eq_false_2 by congruence.
Qed.

Lemma as_u32_small n : (Z.of_nat n ≤ U32_MAX)%Z → as_u32 n = Z.of_nat n.
Proof. unfold as_u32, U32_MAX. intros. rewrite Z.mod_small; lia. Qed.

Lemma fits_newlines s : fits (split_lines s) ↔ (Z.of_nat (newlines s) + 1 ≤ U32_MAX)%Z.
Proof. unfold fits. rewrite split_lines_length. lia. Qed.

Definition removal_window (p x q : str) : TrackerWindow :=
  let '(s, kb, ks) := text_window p x q in mkWindow (Z.of_nat s) (Z.of_nat kb) (Z.of_nat ks).

Definition insertion_window (p x q : str) : TrackerWindow :=
  let '(s, kb, ks) := text_window p x q in mkWindow (Z.of_nat s) (Z.of_nat ks) (Z.of_nat kb).

Lemma byte_len_nonempty x : x ≠ [] → byte_len x ≠ 0.
Proof.
  destruct x as [|c x]; [done|]. rewrite byte_len_cons. pose proof (utf8_nonempty c). lia.
Qed.

Lemma tracker_window_removal d p x q :
  contents d = p ++ q → x ≠ [] → fits (split_lines (p ++ x ++ q)) →
  tracker_window d (mkCodeEdit (byte_len p) (byte_len (p ++ x)) (byte_len p)
    (point_of p) (point_of (p ++ x)) (point_of p)) x = Some (removal_window p x q).
Proof.
  intros Hd Hx Hfits%fits_newlines. unfold tracker_window. cbn [row start_byte old_end_byte new_end_byte
    start_point old_end_point new_end_point point_of].
  pose proof (byte_len_nonempty x Hx). rewrite !newlines_app in *. rewrite byte_len_app.
  rewrite !checked_sub_some by lia. cbn [mbind option_bind].
  rewrite (proj2 (Nat.eqb_neq (byte_len p + byte_len x - byte_len p) 0)) by lia.
  rewrite Nat.sub_diag. cbn [Nat.eqb Bool.eqb negb].
  rewrite !checked_sub_some by lia. cbn [mbind option_bind].
  rewrite (newline_before_spec d p q Hd), (newline_after_spec d p q Hd), !as_u32_small by lia.
  unfold removal_window, text_window. cbn [andb].
  destruct (ends_with_newline x), (at_line_start p), (starts_with_newline x), (at_line_end q);
    cbn [andb negb mbind option_bind]; do 2 f_equal; lia.
Qed.

Lemma tracker_window_insertion d p x q :
  contents d = p ++ x ++ q → x ≠ [] → fits (split_lines (p ++ x ++ q)) →
  tracker_window d (mkCodeEdit (byte_len p) (byte_len p) (byte_len (p ++ x))
    (point_of p) (point_of p) (point_of (p ++ x))) x = Some (insertion_window p x q).
Proof.
  intros Hd Hx Hfits%fits_newlines. unfold tracker_window. cbn [row start_byte old_end_byte new_end_byte
    start_point old_end_point new_end_point point_of].
  pose proof (byte_len_nonempty x Hx). rewrite !newlines_app in *.
  rewrite !checked_sub_some by (rewrite ?byte_len_app; lia). cbn [mbind option_bind].
  rewrite (proj2 (Nat.eqb_neq (byte_len (p ++ x) - byte_len p) 0)) by (rewrite byte_len_app; lia).
  rewrite Nat.sub_diag. cbn [Nat.eqb Bool.eqb negb].
  rewrite !checked_sub_some by lia. cbn [mbind option_bind].
  rewrite (newline_before_spec d p _ Hd), (newline_after_spec d (p ++ x) q)
    by (by rewrite Hd, <- app_assoc). rewrite !as_u32_small by lia.
  unfold insertion_window, text_window. cbn [andb].
  destruct (ends_with_newline x), (at_line_start p), (starts_with_newline x), (at_line_end q);
    cbn [andb negb mbind option_bind]; do 2 f_equal; lia.
Qed.

Lemma removal_described p x q :
  fits (split_lines (p ++ x ++ q)) →
  described (split_lines (p ++ x ++ q)) [removal_window p x q] (split_lines (p ++ q)).
Proof.
  intros Hfits. unfold removal_window. destruct (text_window p x q) as [[s kb] ks] eqn:Hw.
  destruct (text_window_lines _ _ _ _ _ _ Hw) as (init&mx&m&rest&<-&<-&<-&->&Heq). rewrite Heq.
  apply described_one. rewrite <- Heq. apply fits_newlines in Hfits. apply fits_newlines.
  rewrite !newlines_app in *. lia.
Qed.

Lemma insertion_described p x q :
  fits (split_lines (p ++ x ++ q)) →
  described (split_lines (p ++ q)) [insertion_window p x q] (split_lines (p ++ x ++ q)).
Proof.
  intros Hfits. unfold insertion_window. destruct (text_window p x q) as [[s kb] ks] eqn:Hw.
  destruct (text_window_lines _ _ _ _ _ _ Hw) as (init&mx&m&rest&<-&<-&<-&Heq&->).
  rewrite Heq in *. by apply described_one.
Qed.

(** ** Splices *)

(** [d'] is [d] but for the text [s] and what follows from it. *)
Record respliced d d' (s : str) : Prop := {
  respliced_contents : contents d' = s;
  respliced_line_ending : CodeDocument.line_ending d' = CodeDocument.line_ending d;
  respliced_read_only : CodeDocument.read_only d' = CodeDocument.read_only d }.

Lemma edit_respliced d d' s first last shrink :
  edit_of d d' s first last shrink → respliced d d' s.
Proof. intros []. by constructor. Qed.

Lemma normalize_nonempty s : s ≠ [] → normalize_newlines s ≠ [].
Proof.
  induction s as [|c s IH]; [done|]. intros _. rewrite normalize_head. case_match eqn:Hc; [|done].
  apply IH. intros ->. cbn in Hc. by rewrite andb_false_r in Hc.
Qed.

(** The edits a splice is made of. *)
Definition removal_edit (p x : str) : CodeEdit :=
  mkCodeEdit (byte_len p) (byte_len (p ++ x)) (byte_len p) (point_of p) (point_of (p ++ x)) (point_of p).

Definition insertion_edit (p x : str) : CodeEdit :=
  mkCodeEdit (byte_len p) (byte_len p) (byte_len (p ++ x)) (point_of p) (point_of p) (point_of (p ++ x)).

Definition splice_changes (p x y q : str) : list DocChange :=
  (if bool_decide (x = []) then [] else [mkChange (removal_edit p x) (removal_window p x q)]) ++
  (if bool_decide (y = []) then [] else [mkChange (insertion_edit p y) (insertion_window p y q)]).

Lemma removal_change d p x q :
  CodeDocument.read_only d = None → contents d = p ++ x ++ q → fits (split_lines (p ++ x ++ q)) →
  runs (if byte_len p <? byte_len (p ++ x)
        then change (CodeDocument.remove d (byte_len p) (byte_len (p ++ x))) x [] else Some (d, []))
    (λ '(d', edits), respliced d d' (p ++ q) ∧
      edits = if bool_decide (x = []) then [] else [mkChange (removal_edit p x) (removal_window p x q)]).
Proof.
  intros Hro Hd Hfits. rewrite byte_len_app. destruct (decide (x = [])) as [->|Hx].
  { rewrite (proj2 (Nat.ltb_ge _ _)) by (cbn; lia). rewrite bool_decide_eq_true_2 by done. simpl. by repeat split. }
  rewrite (proj2 (Nat.ltb_lt _ _)) by (pose proof (byte_len_nonempty x Hx); lia).
  rewrite bool_decide_eq_false_2, <- byte_len_app by done.
  unfold change. step with (by apply (remove_spec d p x q)). intros [d' e] [He ->].
  rewrite (tracker_window_removal d' p x q) by (done || apply (edit_contents _ _ _ _ _ _ He)).
  simpl. split; [by eapply edit_respliced|done].
Qed.

Lemma insertion_change d p y q edits :
  CodeDocument.read_only d = None → contents d = p ++ q → crlf_free y → fits (split_lines (p ++ y ++ q)) →
  runs (if negb (bool_decide (y = [])) then change (CodeDocument.insert d (byte_len p) y) y edits
        else Some (d, edits))
    (λ '(d', edits'), respliced d d' (p ++ y ++ q) ∧
      edits' = edits ++ if bool_decide (y = []) then []
               else [mkChange (insertion_edit p y) (insertion_window p y q)]).
Proof.
  intros Hro Hd Hy Hfits. destruct (decide (y = [])) as [->|Hne].
  { rewrite bool_decide_eq_true_2 by done. simpl. rewrite app_nil_r. by repeat split. }
  rewrite bool_decide_eq_false_2 by done. cbn [negb]. pose proof (normalize_crlf_free y Hy) as Hnorm.
  unfold change. step with (apply (insert_spec d p q y); [done..|by apply normalize_nonempty]).
  intros [d' e] [He ->]. rewrite Hnorm in *.
  rewrite (tracker_window_insertion d' p y q) by (done || apply (edit_contents _ _ _ _ _ _ He)).
  simpl. split; [by eapply edit_respliced|done].
Qed.

Lemma raw_splice_spec d p x y q :
  CodeDocument.read_only d = None → contents d = p ++ x ++ q → crlf_free y →
  fits (split_lines (p ++ x ++ q)) → fits (split_lines (p ++ y ++ q)) →
  runs (raw_splice d (byte_len p, byte_len (p ++ x)) x y) (λ '(d', changes),
    respliced d d' (p ++ y ++ q) ∧ changes = splice_changes p x y q).
Proof.
  intros Hro Hd Hy Hfits Hfits'. unfold raw_splice. cbn [fst snd].
  step with (by apply (removal_change d p x q)). intros [d1 edits] [Hd1 ->].
  eapply runs_mono; [apply (insertion_change d1 p y q)|].
  - by rewrite (respliced_read_only _ _ _ Hd1).
  - apply (respliced_contents _ _ _ Hd1).
  - done.
  - done.
  - intros [d2 edits'] [Hd2 ->]. split; [|done]. destruct Hd1, Hd2. constructor; congruence.
Qed.

(** The windows of a splice describe its change, line by line. *)
Lemma splice_described p x y q :
  fits (split_lines (p ++ x ++ q)) → fits (split_lines (p ++ y ++ q)) →
  described (split_lines (p ++ x ++ q)) (window <$> splice_changes p x y q) (split_lines (p ++ y ++ q)).
Proof.
  intros Hx Hy. unfold splice_changes. rewrite fmap_app. apply (described_app _ _ (split_lines (p ++ q))).
  - case_bool_decide; [subst; constructor|by apply removal_described].
  - case_bool_decide; [subst; constructor|by apply insertion_described].
Qed.

(** A record of a document: a text put at a cut in the place of another. *)
Definition record_at (p x y : str) : AppliedEdit := mkApplied (byte_len p) x y.

Lemma apply_forward_spec d p x y q :
  CodeDocument.read_only d = None → contents d = p ++ x ++ q → crlf_free y →
  fits (split_lines (p ++ x ++ q)) → fits (split_lines (p ++ y ++ q)) →
  runs (apply_forward d (record_at p x y)) (λ '(d', changes),
    respliced d d' (p ++ y ++ q) ∧ changes = splice_changes p x y q).
Proof.
  unfold apply_forward, removed_range. cbn [ae_start removed inserted record_at].
  rewrite <- byte_len_app. apply raw_splice_spec.
Qed.

Lemma apply_reverse_spec d p x y q :
  CodeDocument.read_only d = None → contents d = p ++ y ++ q → crlf_free x →
  fits (split_lines (p ++ y ++ q)) → fits (split_lines (p ++ x ++ q)) →
  runs (apply_reverse d (record_at p x y)) (λ '(d', changes),
    respliced d d' (p ++ x ++ q) ∧ changes = splice_changes p y x q).
Proof.
  unfold apply_reverse, inserted_range. cbn [ae_start removed inserted record_at].
  rewrite <- byte_len_app. apply raw_splice_spec.
Qed.

(** The cuts of a range: the text before, inside and after. *)
Lemma range_cuts s a b :
  ∃ x, before s (b `max` a) = before s a ++ x ∧ s = before s a ++ x ++ after s (b `max` a).
Proof.
  destruct (before_mono s a (b `max` a)) as (x&Hb&Ha); [lia|]. exists x. split; [done|].
  rewrite <- Ha. symmetry. apply before_after.
Qed.

(** The text that an operation of a splice leaves. *)
Definition splice_text (s : str) (op : (nat * nat) * str) : str :=
  before s op.1.1 ++ normalize_newlines op.2 ++ after s (op.1.2 `max` op.1.1).

Definition whole_edit (p x y : str) : CodeEdit :=
  mkCodeEdit (byte_len p) (byte_len (p ++ x)) (byte_len (p ++ y))
    (point_of p) (point_of (p ++ x)) (point_of (p ++ y)).

Lemma replacement_of_changes p x y q :
  x ≠ [] ∨ y ≠ [] →
  replacement_edit ((change_edit <$> splice_changes p x y q) !! 0)
    ((change_edit <$> splice_changes p x y q) !! 1) = Some (whole_edit p x y).
Proof.
  intros Hxy. unfold splice_changes, whole_edit. do 2 case_bool_decide; subst; cbn;
    rewrite ?app_nil_r; done || naive_solver.
Qed.

Lemma splice_run d a b text :
  CodeDocument.read_only d = None →
  let s := contents d in
  let p := before s a in let q := after s (b `max` a) in let y := normalize_newlines text in
  ∃ x, s = p ++ x ++ q ∧
    (crlf_free y → fits (split_lines s) → fits (split_lines (p ++ y ++ q)) →
     runs (splice d (a, b) text) (λ '(d', o),
       if bool_decide (x = []) && bool_decide (y = []) then d' = d ∧ o = None
       else respliced d d' (p ++ y ++ q) ∧
         o = Some (mkSplice (whole_edit p x y) (window <$> splice_changes p x y q) (record_at p x y)))).
Proof.
  intros Hro s p q y. destruct (range_cuts s a b) as (x&Hb&Hs). fold p q in Hb, Hs. exists x.
  split; [done|]. intros Hy Hfits Hfits'. unfold splice, CodeDocument.is_read_only. rewrite Hro.
  cbn [fst snd]. rewrite !snap_spec. cbn [mbind option_bind]. fold s p. rewrite Hb.
  rewrite (slice_string_spec d p x q) by done. cbn [mbind option_bind]. fold y.
  destruct (bool_decide (x = []) && bool_decide (y = [])) eqn:Hempty; [done|].
  step with (apply (raw_splice_spec d p x y q); [done..|by rewrite <- Hs|done]).
  intros [d' changes] [Hd' ->]. simpl. split; [done|].
  rewrite replacement_of_changes; [done|].
  apply andb_false_iff in Hempty as [?%bool_decide_eq_false|?%bool_decide_eq_false]; auto.
Qed.

Lemma splice_read_only d range text :
  CodeDocument.read_only d ≠ None → splice d range text = Some (d, None).
Proof. unfold splice, CodeDocument.is_read_only. by destruct (CodeDocument.read_only d). Qed.
End correct.
