(* ===== verification/EditHistory.v ===== *)
(** * The editor: the undo history ([diff_dock/code/edit.rs])

    [VecDeque] and [Vec] are lists with their back at the end.  Byte counts are
    [usize]s that saturate; an id past [u64::MAX] is a panic. *)

From S2P Require Import Prelude DiffRange DiffText DiffUtf8 DiffTracker EditDocument EditSplice.

Definition UNDO_GROUP_INTERVAL : Z := 300000000.
Definition MAX_UNDO_TRANSACTIONS : nat := 1000.
Definition MAX_UNDO_BYTES : Z := 32 * 1024 * 1024.

(** [usize::saturating_add] and [usize::saturating_sub] *)
Definition saturating_add (a b : Z) : Z := Z.min (a + b) U64_MAX.
Definition saturating_sub (a b : Z) : Z := Z.max (a - b) 0.

Inductive EditGroup := Typing | Atomic.

#[export] Instance EditGroup_eq_dec : EqDecision EditGroup.
Proof. solve_decision. Defined.

Module HistoryMark.
Inductive t := Baseline | Transaction (id : Z).

#[export] Instance eq_dec : EqDecision t.
Proof. solve_decision. Defined.
End HistoryMark.

Definition add_edit (total : Z) (edit : AppliedEdit) : Z :=
  saturating_add total
    (saturating_add (Z.of_nat (byte_len (removed edit))) (Z.of_nat (byte_len (inserted edit)))).

(** The fold of [Transaction::bytes] and of [push]. *)
Definition edits_bytes (edits : list AppliedEdit) : Z := foldl add_edit 0%Z edits.

Module Transaction.
Record t := mk { id : Z; edits : list AppliedEdit; before : CodeSelection; after : CodeSelection }.

Definition bytes (self : t) : Z := edits_bytes (edits self).
End Transaction.

Record HistoryStep := mkStep { step_edits : list DocChange; step_selection : CodeSelection }.

(** [pop_back] and [pop] *)
Definition pop_back {A} (l : list A) : option (list A * A) :=
  match last l with Some x => Some (removelast l, x) | None => None end.

Module UndoHistory.
Record t := mk {
  undo_stack : list Transaction.t;
  redo_stack : list Transaction.t;
  undo_bytes : Z;
  redo_bytes : Z;
  base_mark : HistoryMark.t;
  next_id : Z;
  open : bool;
  last_edit_at : option Z;
  max_bytes : Z }.

Definition default : t := mk [] [] 0 0 HistoryMark.Baseline 0 false None MAX_UNDO_BYTES.

Definition mark (self : t) : HistoryMark.t :=
  match last (undo_stack self) with
  | Some transaction => HistoryMark.Transaction (Transaction.id transaction)
  | None => base_mark self
  end.

(** The loop of [trim_undo], which each time drops the oldest transaction. *)
Fixpoint trim_loop (max_bytes : Z) (undo : list Transaction.t) (undo_bytes : Z)
    (base_mark : HistoryMark.t) : list Transaction.t * Z * HistoryMark.t :=
  match undo with
  | [] => (undo, undo_bytes, base_mark)
  | evicted :: rest =>
      if (MAX_UNDO_TRANSACTIONS <? length undo) || ((max_bytes <? undo_bytes)%Z && (1 <? length undo))
      then trim_loop max_bytes rest (saturating_sub undo_bytes (Transaction.bytes evicted))
             (HistoryMark.Transaction (Transaction.id evicted))
      else (undo, undo_bytes, base_mark)
  end.

Definition trim_undo (self : t) : t :=
  let '(undo, bytes, base) :=
    trim_loop (max_bytes self) (undo_stack self) (undo_bytes self) (base_mark self) in
  mk undo (redo_stack self) bytes (redo_bytes self) base (next_id self) (open self)
    (last_edit_at self) (max_bytes self).

Definition set_open (self : t) (open : bool) : t :=
  mk (undo_stack self) (redo_stack self) (undo_bytes self) (redo_bytes self) (base_mark self)
    (next_id self) open (last_edit_at self) (max_bytes self).

Definition set_last_edit (self : t) (now : Z) : t :=
  mk (undo_stack self) (redo_stack self) (undo_bytes self) (redo_bytes self) (base_mark self)
    (next_id self) (open self) (Some now) (max_bytes self).

Definition close_group (self : t) : t := set_open self false.

Definition joinable (self : t) (group : EditGroup) (now : Z) : bool :=
  bool_decide (group = Typing) && open self &&
  match last_edit_at self with
  | Some last => (saturating_sub now last <=? UNDO_GROUP_INTERVAL)%Z
  | None => false
  end.

Definition push (self : t) (edits : list AppliedEdit) (before after : CodeSelection)
    (group : EditGroup) (now : Z) : option t :=
  if bool_decide (edits = []) then Some self
  else
    match joinable self group now, pop_back (undo_stack self) with
    | true, Some (below, top) =>
        let top := Transaction.mk (Transaction.id top) (Transaction.edits top ++ edits)
                     (Transaction.before top) after in
        let self := mk (below ++ [top]) [] (saturating_add (undo_bytes self) (edits_bytes edits)) 0
                      (base_mark self) (next_id self) (open self) (last_edit_at self)
                      (max_bytes self) in
        Some (set_last_edit (trim_undo self) now)
    | _, _ =>
        next ← checked_add U64_MAX (next_id self) 1;
        let transaction := Transaction.mk (next_id self) edits before after in
        let self := mk (undo_stack self ++ [transaction]) []
                      (saturating_add (undo_bytes self) (Transaction.bytes transaction)) 0
                      (base_mark self) next (open self) (last_edit_at self) (max_bytes self) in
        Some (set_last_edit (set_open (trim_undo self) (bool_decide (group = Typing))) now)
    end.

Definition clear (self : t) : t :=
  mk [] [] 0 0 HistoryMark.Baseline (next_id self) false None (max_bytes self).

Section history.
Context `{Rope}.

(** The records of a transaction, each applied to the document. *)
Fixpoint apply_all (apply : CodeDocument.t → AppliedEdit → option (CodeDocument.t * list DocChange))
    (doc : CodeDocument.t) (records : list AppliedEdit) (edits : list DocChange)
  : option (CodeDocument.t * list DocChange) :=
  match records with
  | [] => Some (doc, edits)
  | record :: records =>
      st ← apply doc record;
      let '(doc, changes) := st in apply_all apply doc records (edits ++ changes)
  end.

Definition undo (self : t) (doc : CodeDocument.t) : option (t * CodeDocument.t * option HistoryStep) :=
  match pop_back (undo_stack self) with
  | None => Some (set_open self false, doc, None)
  | Some (below, transaction) =>
      let bytes := Transaction.bytes transaction in
      st ← apply_all apply_reverse doc (reverse (Transaction.edits transaction)) [];
      let '(doc, edits) := st in
      Some (mk below (redo_stack self ++ [transaction]) (saturating_sub (undo_bytes self) bytes)
              (saturating_add (redo_bytes self) bytes) (base_mark self) (next_id self) false
              (last_edit_at self) (max_bytes self),
            doc, Some (mkStep edits (Transaction.before transaction)))
  end.

Definition redo (self : t) (doc : CodeDocument.t) : option (t * CodeDocument.t * option HistoryStep) :=
  match pop_back (redo_stack self) with
  | None => Some (set_open self false, doc, None)
  | Some (rest, transaction) =>
      let bytes := Transaction.bytes transaction in
      st ← apply_all apply_forward doc (Transaction.edits transaction) [];
      let '(doc, edits) := st in
      Some (mk (undo_stack self ++ [transaction]) rest (saturating_add (undo_bytes self) bytes)
              (saturating_sub (redo_bytes self) bytes) (base_mark self) (next_id self) false
              (last_edit_at self) (max_bytes self),
            doc, Some (mkStep edits (Transaction.after transaction)))
  end.
End history.
End UndoHistory.
