(* ===== verification/EditHistoryCorrect.v ===== *)
(** * The editor: undo and redo restore the text

    The stacks of a history are a path of texts: from the text its oldest
    transaction was applied to, through the text of the document, to the text that
    redoing everything gives.  A predicate on the marks of the path and their
    texts is carried along, so that a mark can stand for a text.

    A document is edited by splices that are pushed as records, undone, redone and
    saved.  Every reachable state is on a path of texts; the mark taken at a save
    stands for the text saved; and the history keeps within its bounds.

    Whatever is called, a history keeps at most [MAX_UNDO_TRANSACTIONS]
    transactions and [MAX_UNDO_BYTES] bytes of text, but for a single larger
    transaction, and its counters are the bytes of its stacks.

    Background work is applied when the revision of the document is still the one
    it was started for.  As long as the counter does not wrap, every operation
    either leaves the text as it is or makes the revision larger.

    An edit that is not typing is a transaction of its own on the top of the undo
    stack, and undoing it restores the text it was made on. *)

From stdpp Require Import relations sorting.
From S2P Require Import Prelude DiffRange DiffText DiffTracker DiffTrackerCorrect DiffUtf8 EditDocument EditDocumentCorrect EditSplice EditSpliceCorrect EditHistory.

(** A text of the editor without a [\r], with line numbers that fit in a [u32]. *)
Definition plain (s : str) : Prop := 13%N ∉ s ∧ fits (split_lines s).

Definition text_step (r : AppliedEdit) (s s' : str) : Prop :=
  ∃ p x y q, r = record_at p x y ∧ s = p ++ x ++ q ∧ s' = p ++ y ++ q.

Inductive records_apply : str → list AppliedEdit → str → Prop :=
  | records_nil s : plain s → records_apply s [] s
  | records_cons s r s1 rs s' :
      plain s → text_step r s s1 → records_apply s1 rs s' → records_apply s (r :: rs) s'.

Lemma records_plain s rs s' : records_apply s rs s' → plain s ∧ plain s'.
Proof. induction 1; naive_solver. Qed.

Lemma records_app s rs s1 rs' s' :
  records_apply s rs s1 → records_apply s1 rs' s' → records_apply s (rs ++ rs') s'.
Proof. induction 1; [done|]. intros. simpl. by econstructor; eauto. Qed.

Lemma records_snoc s rs r s' :
  records_apply s (rs ++ [r]) s' → ∃ s1, records_apply s rs s1 ∧ text_step r s1 s' ∧ plain s'.
Proof.
  revert s. induction rs as [|r' rs IH]; intros s Hrs; inversion Hrs as [|? ? ? ? ? Hs Hr Hrest]; subst.
  - inversion Hrest; subst. exists s. split_and!; [by constructor|done..].
  - destruct (IH _ Hrest) as (s2&?&?&?). exists s2. split_and!; [by econstructor|done..].
Qed.

Lemma plain_crlf_free p x q : plain (p ++ x ++ q) → crlf_free x.
Proof. intros [Hcr _]. apply no_cr_crlf_free. rewrite !elem_of_app in Hcr. tauto. Qed.

Section correct.
Context `{Hrope : Rope, Hlaws : !RopeLaws}.
Implicit Types d : CodeDocument.t.

(** [changes] tell the tracker of the change from [s] to [s']. *)
Definition tells (s : str) (changes : list DocChange) (s' : str) : Prop :=
  described (split_lines s) (window <$> changes) (split_lines s').

Lemma tells_app s ch s1 ch' s' : tells s ch s1 → tells s1 ch' s' → tells s (ch ++ ch') s'.
Proof. unfold tells. rewrite fmap_app. apply described_app. Qed.

Lemma respliced_trans d d1 d2 s s' : respliced d d1 s → respliced d1 d2 s' → respliced d d2 s'.
Proof. intros [] []. constructor; congruence. Qed.

Lemma forward_step d r s s' :
  CodeDocument.read_only d = None → contents d = s → text_step r s s' → plain s → plain s' →
  runs (apply_forward d r) (λ '(d', changes), respliced d d' s' ∧ tells s changes s').
Proof.
  intros Hro Hd (p&x&y&q&->&->&->) Hs Hs'.
  eapply runs_mono; [apply (apply_forward_spec d p x y q)|]; try done; [by eapply plain_crlf_free|apply Hs|apply Hs'|].
  intros [d' changes] [? ->]. split; [done|]. apply splice_described; [apply Hs|apply Hs'].
Qed.

Lemma reverse_step d r s s' :
  CodeDocument.read_only d = None → contents d = s' → text_step r s s' → plain s → plain s' →
  runs (apply_reverse d r) (λ '(d', changes), respliced d d' s ∧ tells s' changes s).
Proof.
  intros Hro Hd (p&x&y&q&->&->&->) Hs Hs'.
  eapply runs_mono; [apply (apply_reverse_spec d p x y q)|]; try done; [by eapply plain_crlf_free|apply Hs'|apply Hs|].
  intros [d' changes] [? ->]. split; [done|]. apply splice_described; [apply Hs'|apply Hs].
Qed.

Lemma apply_all_forward d rs s s' changes :
  CodeDocument.read_only d = None → contents d = s → records_apply s rs s' →
  runs (UndoHistory.apply_all apply_forward d rs changes) (λ '(d', ch),
    respliced d d' s' ∧ ∃ new, ch = changes ++ new ∧ tells s new s').
Proof.
  intros Hro Hd Hrs. revert d changes Hro Hd. induction Hrs as [s Hs|s r s1 rs s' Hs Hr Hrs IH]; intros d changes Hro Hd.
  - simpl. split; [by constructor|]. exists []. rewrite app_nil_r. split; [done|constructor].
  - cbn [UndoHistory.apply_all]. destruct (records_plain _ _ _ Hrs) as [Hs1 _].
    step with (by apply (forward_step d r s s1)). intros [d1 ch] [Hd1 Htells].
    eapply runs_mono; [apply (IH d1)|].
    + by rewrite (respliced_read_only _ _ _ Hd1).
    + apply (respliced_contents _ _ _ Hd1).
    + intros [d2 ch2] (Hd2&new&->&Hnew). split; [by eapply respliced_trans|].
      exists (ch ++ new). split; [by rewrite app_assoc|by eapply tells_app].
Qed.

Lemma apply_all_reverse d rs s s' changes :
  CodeDocument.read_only d = None → contents d = s' → records_apply s rs s' →
  runs (UndoHistory.apply_all apply_reverse d (reverse rs) changes) (λ '(d', ch),
    respliced d d' s ∧ ∃ new, ch = changes ++ new ∧ tells s' new s).
Proof.
  revert d s' changes. induction rs as [|r rs IH] using rev_ind; intros d s' changes Hro Hd Hrs.
  - inversion Hrs; subst. simpl. split; [by constructor|]. exists []. rewrite app_nil_r. split; [done|constructor].
  - rewrite reverse_snoc. cbn [UndoHistory.apply_all].
    destruct (records_snoc _ _ _ _ Hrs) as (s1&Hrs1&Hr&Hs'). destruct (records_plain _ _ _ Hrs1) as [_ Hs1].
    step with (by apply (reverse_step d r s1 s')). intros [d1 ch] [Hd1 Htells].
    eapply runs_mono; [apply (IH d1 s1); [|apply (respliced_contents _ _ _ Hd1)|done]|].
    + by rewrite (respliced_read_only _ _ _ Hd1).
    + intros [d2 ch2] (Hd2&new&->&Hnew). split; [by eapply respliced_trans|].
      exists (ch ++ new). split; [by rewrite app_assoc|by eapply tells_app].
Qed.
End correct.

Lemma pop_back_some {A} (l rest : list A) x : pop_back l = Some (rest, x) ↔ l = rest ++ [x].
Proof.
  unfold pop_back. split.
  - destruct l as [|y l _] using rev_ind; [done|]. rewrite last_snoc, removelast_last. by intros [= -> ->].
  - intros ->. by rewrite last_snoc, removelast_last.
Qed.

Lemma pop_back_none {A} (l : list A) : pop_back l = None ↔ l = [].
Proof.
  unfold pop_back. destruct l as [|y l _] using rev_ind; [done|]. rewrite last_snoc.
  split; [done|]. by intros []%app_nil.
Qed.

(** ** The path of the stacks *)

Section chain.
Context (P : HistoryMark.t → str → Prop).

Definition mark_of (t : Transaction.t) : HistoryMark.t := HistoryMark.Transaction (Transaction.id t).

(** The mark after the transactions. *)
Definition end_mark (b : HistoryMark.t) (ts : list Transaction.t) : HistoryMark.t :=
  match last ts with Some t => mark_of t | None => b end.

(** From [s] under the mark [b], the transactions [ts] lead to [s']. *)
Inductive chain : HistoryMark.t → str → list Transaction.t → str → Prop :=
  | chain_nil b s : plain s → P b s → chain b s [] s
  | chain_cons b s t s1 ts s' :
      P b s → records_apply s (Transaction.edits t) s1 → chain (mark_of t) s1 ts s' →
      chain b s (t :: ts) s'.

Lemma chain_plain b s ts s' : chain b s ts s' → plain s ∧ plain s'.
Proof. induction 1 as [|???? ts s' ? Hr]; [done|]. apply records_plain in Hr. naive_solver. Qed.

Lemma chain_start b s ts s' : chain b s ts s' → P b s.
Proof. by destruct 1. Qed.

Lemma end_mark_cons b t ts : end_mark b (t :: ts) = end_mark (mark_of t) ts.
Proof. unfold end_mark. rewrite last_cons. by destruct (last ts). Qed.

Lemma chain_end b s ts s' : chain b s ts s' → P (end_mark b ts) s'.
Proof. induction 1; [done|]. by rewrite end_mark_cons. Qed.

Lemma chain_app b s ts1 ts2 s' :
  chain b s (ts1 ++ ts2) s' ↔ ∃ s1, chain b s ts1 s1 ∧ chain (end_mark b ts1) s1 ts2 s'.
Proof.
  split.
  - revert b s. induction ts1 as [|t ts1 IH]; intros b s Hc.
    + exists s. split; [|done]. constructor; [apply (chain_plain _ _ _ _ Hc)|apply (chain_start _ _ _ _ Hc)].
    + inversion Hc as [|? ? ? s1 ? ? HP Hr Hrest]; subst. destruct (IH _ _ Hrest) as (s2&H1&H2).
      exists s2. rewrite end_mark_cons. split; [by econstructor|done].
  - intros (s1&H1&H2). revert H2. induction H1 as [|? ? ? ? ? ? HP Hr _ IH]; [done|].
    rewrite end_mark_cons. intros H2. simpl. by econstructor; eauto.
Qed.

Lemma levels_snoc b s ts t s' :
  chain b s (ts ++ [t]) s' ↔
    ∃ s1, chain b s ts s1 ∧ records_apply s1 (Transaction.edits t) s' ∧ P (mark_of t) s'.
Proof.
  rewrite chain_app. split; intros (s1&H1&H2); exists s1; (split; [done|]).
  - inversion H2 as [|? ? ? s2 ? ? HP Hr Hrest]; subst. inversion Hrest; subst. done.
  - destruct H2 as [Hr HP]. econstructor; [by eapply chain_end|done|].
    constructor; [apply (records_plain _ _ _ Hr)|done].
Qed.

(** Dropping the oldest transactions keeps the rest of the path and its end. *)
Lemma trim_loop_end max ts bytes b :
  let '(ts', _, b') := UndoHistory.trim_loop max ts bytes b in
  end_mark b' ts' = end_mark b ts ∧ ∃ dropped, ts = dropped ++ ts'.
Proof.
  revert b bytes. induction ts as [|t ts IH]; intros b bytes; [simpl; split; [done|by exists []]|].
  cbn [UndoHistory.trim_loop]. destruct (_ || _); [|split; [done|by exists []]].
  specialize (IH (mark_of t) (saturating_sub bytes (Transaction.bytes t))). fold (mark_of t).
  destruct (UndoHistory.trim_loop _ _ _ _) as [[ts' bytes'] b'].
  destruct IH as (->&dropped&->). rewrite end_mark_cons. split; [done|by exists (t :: dropped)].
Qed.

Lemma trim_loop_chain max ts bytes b s s' :
  chain b s ts s' →
  let '(ts', _, b') := UndoHistory.trim_loop max ts bytes b in ∃ s0, chain b' s0 ts' s'.
Proof.
  intros Hc. revert bytes. induction Hc as [b s Hs HP|b s t s1 ts s' HP Hr Hrest IH]; intros bytes.
  - simpl. exists s. by constructor.
  - cbn [UndoHistory.trim_loop]. destruct (_ || _); [apply IH|]. exists s. by econstructor.
Qed.

Lemma trim_mark h : UndoHistory.mark (UndoHistory.trim_undo h) = UndoHistory.mark h.
Proof.
  pose proof (trim_loop_end (UndoHistory.max_bytes h) (UndoHistory.undo_stack h)
    (UndoHistory.undo_bytes h) (UndoHistory.base_mark h)) as Htrim.
  unfold UndoHistory.trim_undo. destruct (UndoHistory.trim_loop _ _ _ _) as [[ts' bytes'] b'].
  apply Htrim.
Qed.

(** A history of a document with the text [s]. *)
Definition on_path (h : UndoHistory.t) (s : str) : Prop :=
  ∃ s0 s1, chain (UndoHistory.base_mark h) s0 (UndoHistory.undo_stack h) s ∧
    chain (UndoHistory.mark h) s (reverse (UndoHistory.redo_stack h)) s1.

Lemma mark_end h : UndoHistory.mark h = end_mark (UndoHistory.base_mark h) (UndoHistory.undo_stack h).
Proof. done. Qed.

Lemma on_path_plain h s : on_path h s → plain s.
Proof. intros (s0&s1&Hc&_). apply (chain_plain _ _ _ _ Hc). Qed.

Lemma on_path_default s : plain s → P HistoryMark.Baseline s → on_path UndoHistory.default s.
Proof. intros. exists s, s. by split; constructor. Qed.

Lemma on_path_open h s o : on_path (UndoHistory.set_open h o) s ↔ on_path h s.
Proof. done. Qed.

Lemma trim_kept h :
  UndoHistory.redo_stack (UndoHistory.trim_undo h) = UndoHistory.redo_stack h ∧
  UndoHistory.redo_bytes (UndoHistory.trim_undo h) = UndoHistory.redo_bytes h ∧
  UndoHistory.next_id (UndoHistory.trim_undo h) = UndoHistory.next_id h ∧
  UndoHistory.max_bytes (UndoHistory.trim_undo h) = UndoHistory.max_bytes h.
Proof. unfold UndoHistory.trim_undo. by destruct (UndoHistory.trim_loop _ _ _ _) as [[??]?]. Qed.

(** What a push of records does to the marks. *)
Lemma push_marks h edits bef aft group now h' :
  UndoHistory.push h edits bef aft group now = Some h' → edits ≠ [] →
  (UndoHistory.mark h' = HistoryMark.Transaction (UndoHistory.next_id h) ∧
   UndoHistory.next_id h' = (UndoHistory.next_id h + 1)%Z) ∨
  (UndoHistory.mark h' = UndoHistory.mark h ∧ UndoHistory.next_id h' = UndoHistory.next_id h ∧
   UndoHistory.open h = true ∧ UndoHistory.undo_stack h ≠ []).
Proof.
  intros Hpush Hne. revert Hpush. unfold UndoHistory.push. rewrite bool_decide_eq_false_2 by done.
  destruct (UndoHistory.joinable h group now) eqn:Hj; [destruct (pop_back _) as [[below top]|] eqn:Hpop|].
  2-3: destruct (checked_add _ _ _) as [next|] eqn:Hnext; [|done]; intros [= <-];
    unfold checked_add in Hnext; case_match; [|done]; injection Hnext as <-; left;
    (split; [etransitivity; [apply trim_mark|]; rewrite mark_end; unfold end_mark; cbn; by rewrite last_snoc
            |etransitivity; [apply trim_kept|done]]).
  apply pop_back_some in Hpop. intros [= <-]. right.
  unfold UndoHistory.joinable in Hj. apply andb_true_iff in Hj as [Hj _]. apply andb_true_iff in Hj as [_ Hj].
  split_and!; [|etransitivity; [apply trim_kept|done]|done|].
  - etransitivity; [apply trim_mark|]. rewrite !mark_end, Hpop. unfold end_mark. cbn. by rewrite !last_snoc.
  - rewrite Hpop. by intros []%app_nil.
Qed.

(** Trimming, for a history whose redo stack is empty. *)
Lemma on_path_trim h s :
  UndoHistory.redo_stack h = [] → on_path h s → on_path (UndoHistory.trim_undo h) s.
Proof.
  intros Hredo (s0&s1&Hc&Hr). rewrite Hredo in Hr. inversion Hr; subst.
  pose proof (trim_loop_chain (UndoHistory.max_bytes h) _ (UndoHistory.undo_bytes h) _ _ _ Hc) as Htrim.
  unfold on_path. rewrite trim_mark. unfold UndoHistory.trim_undo.
  destruct (UndoHistory.trim_loop _ _ _ _) as [[ts' bytes'] b']. destruct Htrim as (s0'&Hc').
  exists s0', s1. cbn. rewrite Hredo. by split; [|constructor].
Qed.

(** A push: the edits made on the text join the last transaction or are one. *)
Lemma on_path_push h s edits s' bef aft group now :
  on_path h s → records_apply s edits s' →
  (UndoHistory.joinable h group now = true → UndoHistory.undo_stack h ≠ [] → P (UndoHistory.mark h) s') →
  P (HistoryMark.Transaction (UndoHistory.next_id h)) s' →
  ∀ h', UndoHistory.push h edits bef aft group now = Some h' → on_path h' s'.
Proof.
  intros Hpath Hedits Hjoin Hnew h'. unfold UndoHistory.push. case_bool_decide as Hne.
  { subst. intros [= <-]. by inversion Hedits; subst. }
  pose proof (proj2 (records_plain _ _ _ Hedits)) as Hs'. destruct Hpath as (s0&s1&Hc&_).
  destruct (UndoHistory.joinable h group now) eqn:Hj; [destruct (pop_back _) as [[below top]|] eqn:Hpop|].
  - apply pop_back_some in Hpop. rewrite Hpop in Hc. apply levels_snoc in Hc as (s2&Hbelow&Htop&_).
    specialize (Hjoin eq_refl). rewrite mark_end, Hpop in Hjoin. unfold end_mark in Hjoin.
    rewrite last_snoc in Hjoin. intros [= <-].
    assert (P (mark_of top) s') as Htop' by (apply Hjoin; by intros []%app_nil).
    apply (on_path_trim (UndoHistory.mk _ _ _ _ _ _ _ _ _)); [done|].
    exists s0, s'. cbn. split; [|constructor; [done|rewrite mark_end; unfold end_mark; cbn; by rewrite last_snoc]].
    apply levels_snoc. exists s2. split; [done|]. split; [by eapply records_app|done].
  - destruct (checked_add _ _ _) as [next|]; [|done]. intros [= <-].
    apply (on_path_trim (UndoHistory.mk _ _ _ _ _ _ _ _ _)); [done|].
    exists s0, s'. cbn. split; [|constructor; [done|rewrite mark_end; unfold end_mark; cbn; by rewrite last_snoc]].
    apply levels_snoc. by exists s.
  - destruct (checked_add _ _ _) as [next|]; [|done]. intros [= <-].
    apply (on_path_trim (UndoHistory.mk _ _ _ _ _ _ _ _ _)); [done|].
    exists s0, s'. cbn. split; [|constructor; [done|rewrite mark_end; unfold end_mark; cbn; by rewrite last_snoc]].
    apply levels_snoc. by exists s.
Qed.
End chain.

(** A record applies to a text in one way. *)
Lemma text_step_det r s s1 s2 : text_step r s s1 → text_step r s s2 → s1 = s2.
Proof.
  intros (p&x&y&q&->&->&->) (p'&x'&y'&q'&[= Hp -> ->]&Hs&->).
  assert (p = p') as <-.
  { rewrite <- (before_app p (x' ++ q)), <- (before_app p' (x' ++ q')), Hs. by f_equal. }
  by apply app_inv_head in Hs as ->%app_inv_head.
Qed.

Lemma records_det s rs s1 s2 : records_apply s rs s1 → records_apply s rs s2 → s1 = s2.
Proof.
  intros H1. revert s2. induction H1 as [|s r s1 rs s' _ Hr _ IH]; intros s2 H2; inversion H2 as [|? ? s3 ? ? _ Hr']; subst; [done|].
  apply IH. by rewrite (text_step_det _ _ _ _ Hr Hr').
Qed.

(** ** The operations of a history on its document *)

Section history.
Context `{Hrope : Rope, Hlaws : !RopeLaws} (P : HistoryMark.t → str → Prop).
Implicit Types d : CodeDocument.t.

Lemma undo_path d h :
  CodeDocument.read_only d = None → on_path P h (contents d) →
  runs (UndoHistory.undo h d) (λ '(h', d', step),
    UndoHistory.open h' = false ∧ UndoHistory.next_id h' = UndoHistory.next_id h ∧
    ∃ s', respliced d d' s' ∧ on_path P h' s' ∧
      match pop_back (UndoHistory.undo_stack h) with
      | None => s' = contents d ∧ h' = UndoHistory.set_open h false ∧ step = None
      | Some (below, t) =>
          records_apply s' (Transaction.edits t) (contents d) ∧
          UndoHistory.undo_stack h' = below ∧ UndoHistory.redo_stack h' = UndoHistory.redo_stack h ++ [t] ∧
          ∃ edits, step = Some (mkStep edits (Transaction.before t)) ∧ tells (contents d) edits s'
      end).
Proof.
  intros Hro Hpath. unfold UndoHistory.undo. destruct (pop_back _) as [[below t]|] eqn:Hpop.
  2: { simpl. do 2 (split; [done|]). exists (contents d). by repeat split. }
  apply pop_back_some in Hpop. destruct Hpath as (s0&s1&Hc&Hr). rewrite Hpop in Hc.
  apply levels_snoc in Hc as (s2&Hbelow&Htop&HPs).
  step with (by apply (apply_all_reverse d (Transaction.edits t) s2 (contents d) [])).
  intros [d' edits] (Hd'&new&->&Htells). simpl. do 2 (split; [done|]). exists s2. split_and!; [done| |done..|eauto].
  exists s0, s1. split; [done|]. cbn [UndoHistory.redo_stack]. rewrite reverse_snoc. econstructor.
  - by apply (chain_end _ _ _ _ _ Hbelow).
  - done.
  - rewrite mark_end, Hpop in Hr. unfold end_mark in Hr. by rewrite last_snoc in Hr.
Qed.

Lemma redo_path d h :
  CodeDocument.read_only d = None → on_path P h (contents d) →
  runs (UndoHistory.redo h d) (λ '(h', d', step),
    UndoHistory.open h' = false ∧ UndoHistory.next_id h' = UndoHistory.next_id h ∧
    ∃ s', respliced d d' s' ∧ on_path P h' s' ∧
      match pop_back (UndoHistory.redo_stack h) with
      | None => s' = contents d ∧ h' = UndoHistory.set_open h false ∧ step = None
      | Some (rest, t) =>
          records_apply (contents d) (Transaction.edits t) s' ∧
          UndoHistory.undo_stack h' = UndoHistory.undo_stack h ++ [t] ∧ UndoHistory.redo_stack h' = rest ∧
          ∃ edits, step = Some (mkStep edits (Transaction.after t)) ∧ tells (contents d) edits s'
      end).
Proof.
  intros Hro Hpath. unfold UndoHistory.redo. destruct (pop_back _) as [[rest t]|] eqn:Hpop.
  2: { simpl. do 2 (split; [done|]). exists (contents d). by repeat split. }
  apply pop_back_some in Hpop. destruct Hpath as (s0&s1&Hc&Hr). rewrite Hpop, reverse_snoc in Hr.
  inversion Hr as [|? ? ? s2 ? ? HPs Hrec Hrest]; subst.
  step with (by apply (apply_all_forward d (Transaction.edits t) (contents d) s2 [])).
  intros [d' edits] (Hd'&new&->&Htells). simpl. do 2 (split; [done|]). exists s2. split_and!; [done| |done..|eauto].
  exists s0, s1. cbn. split.
  - apply levels_snoc. exists (contents d). split_and!; [done..|]. by apply (chain_start _ _ _ _ _ Hrest).
  - rewrite mark_end. unfold end_mark. cbn. by rewrite last_snoc.
Qed.

(** The operations of a splice insert no [\r], and the line numbers fit. *)
Definition ops_ok (s : str) (ops : list ((nat * nat) * str)) : Prop :=
  Forall (λ op, 13%N ∉ normalize_newlines op.2) ops ∧
  (Z.of_nat (newlines s + sum_list_with (λ op, newlines (normalize_newlines op.2)) ops) + 1 ≤ U32_MAX)%Z.

Lemma newlines_range s a b :
  newlines (before s a) + newlines (after s (b `max` a)) ≤ newlines s.
Proof.
  destruct (range_cuts s a b) as (x&_&Hs). rewrite Hs at 3. rewrite !newlines_app. lia.
Qed.

Lemma splice_ops_spec d ops recs changes :
  CodeDocument.read_only d = None → plain (contents d) → ops_ok (contents d) ops →
  runs (splice_ops d ops recs changes) (λ '(d', recs', changes'), ∃ rs ws,
    let s' := foldl splice_text (contents d) ops in
    respliced d d' s' ∧ recs' = recs ++ rs ∧ changes' = changes ++ ws ∧
    records_apply (contents d) rs s' ∧ described (split_lines (contents d)) ws (split_lines s')).
Proof.
  revert d recs changes. induction ops as [|[[a b] text] ops IH]; intros d recs changes Hro Hplain [Hcr Hnl].
  - simpl. exists [], []. rewrite !app_nil_r. split_and!; [by constructor|done|done|by constructor|constructor].
  - apply Forall_cons in Hcr as [Hy Hcr]. cbn [snd] in Hy. cbn [splice_ops].
    cbn [sum_list_with snd] in Hnl. set (y := normalize_newlines text) in *.
    destruct (splice_run d a b text Hro) as (x&Hs&Hrun). fold y in Hrun.
    set (p := before (contents d) a) in *. set (q := after (contents d) (b `max` a)) in *.
    pose proof (newlines_range (contents d) a b) as Hpq. fold p q in Hpq.
    assert (plain (p ++ y ++ q)) as Hplain'.
    { split; [|apply fits_newlines; rewrite !newlines_app; lia].
      destruct Hplain as [Hcr' _]. rewrite Hs in Hcr'. rewrite !elem_of_app in *. tauto. }
    step with (apply Hrun; [by apply no_cr_crlf_free|apply Hplain|apply Hplain']).
    assert (splice_text (contents d) (a, b, text) = p ++ y ++ q) as Htext by done.
    assert (bool_decide (x = []) && bool_decide (y = []) = true → splice_text (contents d) (a, b, text) = contents d)
      as Hnoop.
    { rewrite Htext. intros [Hx0%bool_decide_eq_true Hy0%bool_decide_eq_true]%andb_true_iff.
      rewrite Hs. by rewrite Hx0, Hy0. }
    intros [d1 o] Hd1. destruct (bool_decide (x = []) && bool_decide (y = [])).
    { destruct Hd1 as [-> ->]. cbn [foldl]. rewrite Hnoop by done. apply IH; [done..|split; [done|]]. lia. }
    destruct Hd1 as [Hd1 ->]. cbn [record windows].
    eapply runs_mono; [apply (IH d1)|].
    + by rewrite (respliced_read_only _ _ _ Hd1).
    + by rewrite (respliced_contents _ _ _ Hd1).
    + rewrite (respliced_contents _ _ _ Hd1). split; [done|]. rewrite !newlines_app. lia.
    + rewrite (respliced_contents _ _ _ Hd1). cbn [foldl]. rewrite Htext. intros [[d2 recs'] ch'] (rs&ws&Hd2&->&->&Hrs&Hws).
      exists (record_at p x y :: rs), ((window <$> splice_changes p x y q) ++ ws).
      split_and!; [by eapply respliced_trans|by rewrite <- app_assoc|by rewrite app_assoc| |].
      * econstructor; [done| |exact Hrs]. by exists p, x, y, q.
      * eapply described_app; [|exact Hws]. rewrite Hs. apply splice_described; [rewrite <- Hs; apply Hplain|apply Hplain'].
Qed.

Lemma splice_ops_read_only d ops recs changes :
  CodeDocument.read_only d ≠ None → splice_ops d ops recs changes = Some (d, recs, changes).
Proof.
  intros Hro. induction ops as [|[[a b] text] ops IH]; [done|]. cbn [splice_ops].
  rewrite splice_read_only by done. apply IH.
Qed.
End history.

(** * The editor: the states a document and its history reach *)

Section reach.
Context `{Hrope : Rope, Hlaws : !RopeLaws}.
Implicit Types d : CodeDocument.t.

Definition state : Type := CodeDocument.t * UndoHistory.t.

(** What the view does to a document and its history: splices whose records are
    pushed, the end of a typing group, undo and redo of a document that can be
    edited, and what leaves the text as it is (settings, measurements). *)
Inductive hist_step : state → state → Prop :=
  | hist_edit d h ops bef aft group now d' recs ws h' :
      ops_ok (contents d) ops → splice_ops d ops [] [] = Some (d', recs, ws) →
      UndoHistory.push h recs bef aft group now = Some h' → hist_step (d, h) (d', h')
  | hist_close d h : hist_step (d, h) (d, UndoHistory.close_group h)
  | hist_undo d h h' d' step :
      CodeDocument.read_only d = None → UndoHistory.undo h d = Some (h', d', step) →
      hist_step (d, h) (d', h')
  | hist_redo d h h' d' step :
      CodeDocument.read_only d = None → UndoHistory.redo h d = Some (h', d', step) →
      hist_step (d, h) (d', h')
  | hist_same d d' h : contents d' = contents d → hist_step (d, h) (d', h).

(** An edit, as the records it makes. *)
Lemma edit_records d ops d' recs ws :
  plain (contents d) → ops_ok (contents d) ops → splice_ops d ops [] [] = Some (d', recs, ws) →
  records_apply (contents d) recs (contents d') ∧
  described (split_lines (contents d)) ws (split_lines (contents d')).
Proof.
  intros Hplain Hops Hrun. destruct (decide (CodeDocument.read_only d = None)) as [Hro|Hro].
  - pose proof (splice_ops_spec d ops [] [] Hro Hplain Hops) as Hspec. rewrite Hrun in Hspec.
    destruct Hspec as (rs&ws'&Hd'&->&->&?&?). by rewrite (respliced_contents _ _ _ Hd').
  - rewrite splice_ops_read_only in Hrun by done. injection Hrun as <- <- <-. split; by constructor.
Qed.

(** ** Paths *)

Definition reachable_path (st : state) : Prop := on_path (λ _ _, True) st.2 (contents st.1).

Lemma push_path d h recs d' bef aft group now h' :
  on_path (λ _ _, True) h (contents d) → records_apply (contents d) recs (contents d') →
  UndoHistory.push h recs bef aft group now = Some h' → on_path (λ _ _, True) h' (contents d').
Proof. intros Hpath Hrecs. by apply (on_path_push _ h (contents d) recs (contents d') bef aft group now). Qed.

Lemma hist_step_path st st' : reachable_path st → hist_step st st' → reachable_path st'.
Proof.
  unfold reachable_path. intros Hpath Hstep.
  destruct Hstep as [d h ops bef aft group now d' recs ws h' Hops Hrun Hpush|d h|d h h' d' step Hro Hrun
    |d h h' d' step Hro Hrun|d d' h Hd]; cbn [fst snd] in *.
  - eapply push_path; [exact Hpath| |exact Hpush].
    by eapply edit_records; [eapply on_path_plain| |].
  - done.
  - pose proof (undo_path _ d h Hro Hpath) as Hspec. rewrite Hrun in Hspec.
    destruct Hspec as (_&_&s'&Hd'&Hpath'&_). by rewrite (respliced_contents _ _ _ Hd').
  - pose proof (redo_path _ d h Hro Hpath) as Hspec. rewrite Hrun in Hspec.
    destruct Hspec as (_&_&s'&Hd'&Hpath'&_). by rewrite (respliced_contents _ _ _ Hd').
  - by rewrite Hd.
Qed.

(** The states of a document opened with a text that has no [\r]. *)
Definition history_reachable (st : state) : Prop :=
  ∃ d0, plain (contents d0) ∧ rtc hist_step (d0, UndoHistory.default) st.

Lemma reachable_on_path st : history_reachable st → reachable_path st.
Proof.
  intros (d0&Hplain&Hsteps). cut (reachable_path (d0, UndoHistory.default)).
  - intros Hpath. induction Hsteps as [|x y z Hxy _ IH]; [done|]. by apply IH, (hist_step_path x).
  - by apply on_path_default.
Qed.

(** ** The mark of a save *)

(** The mark [m] stands for the text [s]. *)
Definition stands_for (m : HistoryMark.t) (s : str) (m' : HistoryMark.t) (s' : str) : Prop :=
  m' = m → s' = s.

Record saved (m : HistoryMark.t) (s : str) (h : UndoHistory.t) (s' : str) : Prop := {
  saved_path : on_path (stands_for m s) h s';
  saved_open : UndoHistory.open h = true → UndoHistory.undo_stack h ≠ [] → UndoHistory.mark h ≠ m;
  saved_id i : m = HistoryMark.Transaction i → (i < UndoHistory.next_id h)%Z }.

Lemma push_saved m s h s1 recs s2 bef aft group now h' :
  saved m s h s1 → records_apply s1 recs s2 →
  UndoHistory.push h recs bef aft group now = Some h' → saved m s h' s2.
Proof.
  intros [Hpath Hopen Hid] Hrecs Hpush.
  assert (HistoryMark.Transaction (UndoHistory.next_id h) ≠ m) as Hfresh.
  { intros Hm. specialize (Hid _ (eq_sym Hm)). lia. }
  assert (on_path (stands_for m s) h' s2) as Hpath'.
  { eapply on_path_push; [exact Hpath|exact Hrecs| | |exact Hpush].
    - intros Hj Hne Hm. destruct Hopen; [|done|done].
      unfold UndoHistory.joinable in Hj. apply andb_true_iff in Hj as [Hj _].
      by apply andb_true_iff in Hj as [_ Hj].
    - intros Hm. done. }
  destruct (decide (recs = [])) as [->|Hne].
  { injection Hpush as <-. inversion Hrecs; subst. by constructor. }
  destruct (push_marks _ _ _ _ _ _ _ Hpush Hne) as [[Hmark Hnext]|(Hmark&Hnext&Ho&Hu)];
    constructor; [done| | |done| |]; rewrite ?Hmark, ?Hnext.
  - done.
  - intros i Hi. specialize (Hid i Hi). lia.
  - intros _ _. by apply Hopen.
  - done.
Qed.

Lemma hist_step_saved m s st st' :
  saved m s st.2 (contents st.1) → hist_step st st' → saved m s st'.2 (contents st'.1).
Proof.
  intros Hsaved Hstep.
  destruct Hstep as [d h ops bef aft group now d' recs ws h' Hops Hrun Hpush|d h|d h h' d' step Hro Hrun
    |d h h' d' step Hro Hrun|d d' h Hd]; cbn [fst snd] in *.
  - eapply push_saved; [exact Hsaved| |exact Hpush].
    eapply edit_records; [eapply on_path_plain, saved_path, Hsaved|exact Hops|exact Hrun].
  - destruct Hsaved as [Hpath Hopen Hid]. by constructor.
  - pose proof (undo_path _ d h Hro (saved_path _ _ _ _ Hsaved)) as Hspec. rewrite Hrun in Hspec.
    destruct Hspec as (Ho&Hn&s'&Hd'&Hpath'&_). constructor.
    + by rewrite (respliced_contents _ _ _ Hd').
    + by rewrite Ho.
    + rewrite Hn. apply (saved_id _ _ _ _ Hsaved).
  - pose proof (redo_path _ d h Hro (saved_path _ _ _ _ Hsaved)) as Hspec. rewrite Hrun in Hspec.
    destruct Hspec as (Ho&Hn&s'&Hd'&Hpath'&_). constructor.
    + by rewrite (respliced_contents _ _ _ Hd').
    + by rewrite Ho.
    + rewrite Hn. apply (saved_id _ _ _ _ Hsaved).
  - by rewrite Hd.
Qed.

Lemma saved_mark m s st : saved m s st.2 (contents st.1) → UndoHistory.mark st.2 = m → contents st.1 = s.
Proof.
  intros [(s0&s1&Hc&_) _ _] Hm. pose proof (chain_end _ _ _ _ _ Hc) as Hend. by apply Hend.
Qed.

(** ** The ids grow along the path *)

Definition mark_id (m : HistoryMark.t) : Z :=
  match m with HistoryMark.Baseline => -1 | HistoryMark.Transaction i => i end.

Definition path_ids (h : UndoHistory.t) : list Z :=
  mark_id (UndoHistory.base_mark h) ::
    (Transaction.id <$> UndoHistory.undo_stack h ++ reverse (UndoHistory.redo_stack h)) ++
    [UndoHistory.next_id h].

Definition ids_grow (h : UndoHistory.t) : Prop := StronglySorted Z.lt (path_ids h).

Lemma sorted_app_r {A} (R : A → A → Prop) l1 l2 : StronglySorted R (l1 ++ l2) → StronglySorted R l2.
Proof. induction l1 as [|x l1 IH]; [done|]. simpl. intros Hs. inversion Hs; subst. by apply IH. Qed.

Lemma sorted_app_drop {A} (R : A → A → Prop) l1 l2 l3 :
  StronglySorted R (l1 ++ l2 ++ l3) → StronglySorted R (l1 ++ l3).
Proof.
  induction l1 as [|x l1 IH]; simpl; [apply sorted_app_r|]. intros Hs. inversion Hs as [|? ? Hs' Hall]; subst.
  constructor; [by apply IH|]. rewrite !Forall_app in *. naive_solver.
Qed.

Lemma sorted_app_l {A} (R : A → A → Prop) l1 l2 : StronglySorted R (l1 ++ l2) → StronglySorted R l1.
Proof.
  intros Hs. rewrite <- (app_nil_r l1). apply (sorted_app_drop _ _ l2). by rewrite app_nil_r.
Qed.

Lemma sorted_snoc l (x y : Z) :
  StronglySorted Z.lt (l ++ [x]) → (x < y)%Z → StronglySorted Z.lt ((l ++ [x]) ++ [y]).
Proof.
  induction l as [|z l IH]; simpl; intros Hs Hxy.
  - repeat constructor; lia.
  - inversion Hs as [|? ? Hs' Hall]; subst. constructor; [by apply IH|].
    rewrite !Forall_app in *. destruct Hall as [? Hx]. split_and!; [done|done|].
    constructor; [|constructor]. inversion Hx; subst; lia.
Qed.

Lemma trim_ids h : ids_grow h → ids_grow (UndoHistory.trim_undo h).
Proof.
  unfold ids_grow, path_ids. destruct (trim_kept h) as (->&_&->&_).
  unfold UndoHistory.trim_undo.
  enough (∀ ts bytes b rest,
    StronglySorted Z.lt (mark_id b :: (Transaction.id <$> ts) ++ rest) →
    let '(ts', _, b') := UndoHistory.trim_loop (UndoHistory.max_bytes h) ts bytes b in
    StronglySorted Z.lt (mark_id b' :: (Transaction.id <$> ts') ++ rest)) as Hloop.
  { intros Hs. rewrite fmap_app, <- app_assoc in Hs. specialize (Hloop _ (UndoHistory.undo_bytes h) _ _ Hs).
    destruct (UndoHistory.trim_loop _ _ _ _) as [[ts' bytes'] b']. cbn. by rewrite fmap_app, <- app_assoc. }
  induction ts as [|t ts IH]; intros bytes b rest Hs; [done|].
  cbn [UndoHistory.trim_loop]. destruct (_ || _); [|done]. apply IH. by inversion Hs.
Qed.

Lemma push_ids h edits bef aft group now h' :
  ids_grow h → UndoHistory.push h edits bef aft group now = Some h' → ids_grow h'.
Proof.
  intros Hs. unfold UndoHistory.push. case_bool_decide; [by intros [= <-]|].
  assert (StronglySorted Z.lt ((mark_id (UndoHistory.base_mark h) ::
    (Transaction.id <$> UndoHistory.undo_stack h)) ++ [UndoHistory.next_id h])) as Hundo.
  { unfold ids_grow, path_ids in Hs. rewrite fmap_app, <- app_assoc, app_comm_cons in Hs.
    by apply sorted_app_drop in Hs. }
  destruct (UndoHistory.joinable h group now); [destruct (pop_back _) as [[below top]|] eqn:Hpop|].
  - apply pop_back_some in Hpop. intros [= <-]. apply (trim_ids (UndoHistory.mk _ _ _ _ _ _ _ _ _)).
    unfold ids_grow, path_ids. cbn. rewrite app_nil_r, fmap_app. rewrite Hpop, fmap_app in Hundo. exact Hundo.
  - unfold checked_add. case_match; [|done]. intros [= <-].
    apply (trim_ids (UndoHistory.mk _ _ _ _ _ _ _ _ _)). unfold ids_grow, path_ids.
    cbn -[Z.add]. rewrite app_nil_r, fmap_app. apply (sorted_snoc (_ :: _)); [done|]. apply Z.lt_succ_diag_r.
  - unfold checked_add. case_match; [|done]. intros [= <-].
    apply (trim_ids (UndoHistory.mk _ _ _ _ _ _ _ _ _)). unfold ids_grow, path_ids.
    cbn -[Z.add]. rewrite app_nil_r, fmap_app. apply (sorted_snoc (_ :: _)); [done|]. apply Z.lt_succ_diag_r.
Qed.

Lemma hist_step_ids st st' :
  reachable_path st → ids_grow st.2 → hist_step st st' → ids_grow st'.2.
Proof.
  intros Hpath Hs Hstep.
  destruct Hstep as [d h ops bef aft group now d' recs ws h' Hops Hrun Hpush|d h|d h h' d' step Hro Hrun
    |d h h' d' step Hro Hrun|d d' h Hd]; cbn [fst snd] in *; [|done| | |done].
  - by eapply push_ids.
  - revert Hrun. unfold UndoHistory.undo. destruct (pop_back _) as [[below t]|] eqn:Hpop; [|by intros [= <- _ _]].
    apply pop_back_some in Hpop. destruct (UndoHistory.apply_all _ _ _ _) as [[d1 edits]|]; [|done].
    intros [= <- _ _]. unfold ids_grow, path_ids in *. rewrite Hpop in Hs. cbn [UndoHistory.base_mark
      UndoHistory.undo_stack UndoHistory.redo_stack UndoHistory.next_id].
    rewrite reverse_snoc. by rewrite <- app_assoc in Hs.
  - revert Hrun. unfold UndoHistory.redo. destruct (pop_back _) as [[rest t]|] eqn:Hpop; [|by intros [= <- _ _]].
    apply pop_back_some in Hpop. destruct (UndoHistory.apply_all _ _ _ _) as [[d1 edits]|]; [|done].
    intros [= <- _ _]. unfold ids_grow, path_ids in *. rewrite Hpop, reverse_snoc in Hs. cbn [UndoHistory.base_mark
      UndoHistory.undo_stack UndoHistory.redo_stack UndoHistory.next_id].
    by rewrite <- app_assoc.
Qed.

(** ** A mark that has just been taken *)

Lemma chain_apart m x b s ts s' :
  chain (λ _ _, True) b s ts s' → b ≠ m → Forall (λ t, mark_of t ≠ m) ts →
  chain (stands_for m x) b s ts s'.
Proof.
  induction 1 as [b s Hs _|b s t s1 ts s' _ Hr _ IH]; intros Hb Hts.
  - constructor; [done|]. by intros ?.
  - apply Forall_cons in Hts as [Ht Hts]. econstructor; [by intros ?|done|]. by apply IH.
Qed.

Lemma chain_stands_end b s ts s' :
  chain (λ _ _, True) b s ts s' → StronglySorted Z.lt (mark_id b :: (Transaction.id <$> ts)) →
  chain (stands_for (end_mark b ts) s') b s ts s'.
Proof.
  induction 1 as [b s Hs _|b s t s1 ts s' _ Hr _ IH]; intros Hsort; [by constructor|].
  inversion Hsort as [|? ? Hsort' Hall]; subst. rewrite end_mark_cons.
  econstructor; [|done|by apply IH]. intros Hb. exfalso.
  assert (mark_id (end_mark (mark_of t) ts) ∈ Transaction.id <$> t :: ts) as Hin.
  { unfold end_mark. destruct (last ts) as [t'|] eqn:Hlast; [|by left].
    right. apply (list_elem_of_fmap_2 _ _ t'). by apply last_Some_elem_of. }
  rewrite Forall_forall in Hall. specialize (Hall _ Hin). rewrite <- Hb in Hall. lia.
Qed.

Lemma saved_now d h :
  reachable_path (d, h) → ids_grow h → UndoHistory.open h = false →
  saved (UndoHistory.mark h) (contents d) h (contents d).
Proof.
  intros (s0&s1&Hc&Hr) Hs Ho. cbn [fst snd] in *. unfold ids_grow, path_ids in Hs.
  rewrite fmap_app, <- app_assoc in Hs.
  assert (StronglySorted Z.lt (mark_id (UndoHistory.base_mark h) :: (Transaction.id <$> UndoHistory.undo_stack h)))
    as Hundo.
  { rewrite app_comm_cons in Hs. by apply sorted_app_l in Hs. }
  assert (∀ i, i ∈ (Transaction.id <$> reverse (UndoHistory.redo_stack h)) ++ [UndoHistory.next_id h] →
    (mark_id (UndoHistory.mark h) < i)%Z) as Hlater.
  { intros i Hi. rewrite mark_end. unfold end_mark.
    destruct (UndoHistory.undo_stack h) as [|t ts _] using rev_ind.
    - cbn in *. inversion Hs as [|? ? _ Hall]; subst. rewrite Forall_forall in Hall. by apply Hall.
    - rewrite last_snoc. rewrite fmap_app, <- app_assoc, app_comm_cons in Hs. apply sorted_app_r in Hs.
      inversion Hs as [|? ? _ Hall]; subst. rewrite Forall_forall in Hall. by apply Hall. }
  constructor.
  - exists s0, s1. split; [rewrite mark_end; by apply chain_stands_end|].
    destruct (reverse (UndoHistory.redo_stack h)) as [|t ts]; inversion Hr as [|? ? ? s2 ? ? _ Hrec Hrest]; subst.
    + by constructor.
    + econstructor; [done|done|]. apply chain_apart; [done| |].
      * intros Heq. specialize (Hlater (Transaction.id t) ltac:(by left)). rewrite <- Heq in Hlater.
        cbn in Hlater. lia.
      * apply Forall_forall. intros t' Ht' Heq.
        specialize (Hlater (Transaction.id t') ltac:(right; apply elem_of_app; left; by apply (list_elem_of_fmap_2 _ _ t'))).
        rewrite <- Heq in Hlater. cbn in Hlater. lia.
  - by rewrite Ho.
  - intros i Hi. specialize (Hlater (UndoHistory.next_id h) ltac:(apply elem_of_app; right; by left)).
    by rewrite Hi in Hlater.
Qed.

Lemma reachable_ids st : history_reachable st → ids_grow st.2.
Proof.
  intros (d0&Hplain&Hsteps). cut (reachable_path (d0, UndoHistory.default) ∧ ids_grow UndoHistory.default).
  - change UndoHistory.default with (snd (d0, UndoHistory.default)) at 2.
    induction Hsteps as [|x y z Hxy _ IH]; [naive_solver|]. intros [Hpath Hs]. apply IH.
    split; [by apply (hist_step_path x)|by apply (hist_step_ids x)].
  - split; [by apply on_path_default|]. unfold ids_grow, path_ids. cbn. repeat constructor.
Qed.

Lemma saved_steps m s st st' :
  saved m s st.2 (contents st.1) → rtc hist_step st st' → saved m s st'.2 (contents st'.1).
Proof. intros Hs Hsteps. induction Hsteps as [|x y z Hxy _ IH]; [done|]. by apply IH, (hist_step_saved m s x). Qed.
End reach.

(** * The editor: what a history retains *)

Local Open Scope Z_scope.

Definition edit_size (edit : AppliedEdit) : Z :=
  Z.of_nat (byte_len (removed edit)) + Z.of_nat (byte_len (inserted edit)).

Definition edits_size (edits : list AppliedEdit) : Z := foldr (λ e n, edit_size e + n) 0 edits.

(** The bytes of text in the records of a stack. *)
Definition stack_size (ts : list Transaction.t) : Z :=
  foldr (λ t n, edits_size (Transaction.edits t) + n) 0 ts.

Lemma edits_size_nonneg edits : 0 ≤ edits_size edits.
Proof. induction edits as [|e edits IH]; simpl; unfold edit_size; lia. Qed.

Lemma edits_size_app l l' : edits_size (l ++ l') = edits_size l + edits_size l'.
Proof. unfold edits_size. induction l as [|e l IH]; simpl; lia. Qed.

Lemma stack_size_nonneg ts : 0 ≤ stack_size ts.
Proof. induction ts as [|t ts IH]; simpl; [lia|]. pose proof (edits_size_nonneg (Transaction.edits t)). lia. Qed.

Lemma stack_size_app l l' : stack_size (l ++ l') = stack_size l + stack_size l'.
Proof. unfold stack_size. induction l as [|t l IH]; simpl; lia. Qed.

Lemma stack_size_snoc l t : stack_size (l ++ [t]) = stack_size l + edits_size (Transaction.edits t).
Proof. rewrite stack_size_app. unfold stack_size at 2. simpl. lia. Qed.

(** The fold of the code saturates at the exact sum. *)
Lemma edits_bytes_size edits : edits_bytes edits = Z.min (edits_size edits) U64_MAX.
Proof.
  assert (∀ total, 0 ≤ total ≤ U64_MAX →
    foldl add_edit total edits = Z.min (total + edits_size edits) U64_MAX) as Hfold.
  { induction edits as [|e edits IH]; intros total Ht; simpl; [lia|].
    pose proof (edits_size_nonneg edits). rewrite IH; unfold add_edit, saturating_add, edit_size; lia. }
  unfold edits_bytes. rewrite Hfold by (unfold U64_MAX; lia). done.
Qed.

Lemma transaction_bytes t : Transaction.bytes t = Z.min (edits_size (Transaction.edits t)) U64_MAX.
Proof. apply edits_bytes_size. Qed.

(** ** The bounds *)

Record bounded (h : UndoHistory.t) : Prop := {
  bounded_max : UndoHistory.max_bytes h = MAX_UNDO_BYTES;
  bounded_undo : UndoHistory.undo_bytes h = stack_size (UndoHistory.undo_stack h);
  bounded_redo : UndoHistory.redo_bytes h = stack_size (UndoHistory.redo_stack h);
  bounded_count :
    (length (UndoHistory.undo_stack h) + length (UndoHistory.redo_stack h) ≤ MAX_UNDO_TRANSACTIONS)%nat;
  bounded_total : UndoHistory.undo_bytes h + UndoHistory.redo_bytes h ≤ U64_MAX;
  bounded_bytes :
    UndoHistory.undo_bytes h + UndoHistory.redo_bytes h ≤ MAX_UNDO_BYTES ∨
    (length (UndoHistory.undo_stack h) + length (UndoHistory.redo_stack h) ≤ 1)%nat }.

Lemma trim_loop_bounds max ts b :
  stack_size ts ≤ U64_MAX →
  let '(ts', bytes', _) := UndoHistory.trim_loop max ts (stack_size ts) b in
  bytes' = stack_size ts' ∧ (length ts' ≤ MAX_UNDO_TRANSACTIONS)%nat ∧ bytes' ≤ U64_MAX ∧
  (bytes' ≤ max ∨ (length ts' ≤ 1)%nat).
Proof.
  revert b. induction ts as [|t ts IH]; intros b Hsize; [split_and!; simpl in *; lia|].
  cbn [UndoHistory.trim_loop]. pose proof (stack_size_nonneg ts). pose proof (edits_size_nonneg (Transaction.edits t)).
  destruct (_ || _) eqn:Hcond.
  - change (stack_size (t :: ts)) with (edits_size (Transaction.edits t) + stack_size ts) in *.
    replace (saturating_sub _ _) with (stack_size ts); [apply IH; lia|].
    unfold saturating_sub, Transaction.bytes. rewrite edits_bytes_size. lia.
  - apply orb_false_iff in Hcond as [Hlen Hbytes]. apply Nat.ltb_ge in Hlen.
    apply andb_false_iff in Hbytes. rewrite Z.ltb_ge, Nat.ltb_ge in Hbytes. split_and!; auto.
Qed.

(** A history with an empty redo stack is bounded once it is trimmed. *)
Lemma trim_bounded h :
  UndoHistory.max_bytes h = MAX_UNDO_BYTES → UndoHistory.redo_stack h = [] → UndoHistory.redo_bytes h = 0 →
  UndoHistory.undo_bytes h = stack_size (UndoHistory.undo_stack h) →
  stack_size (UndoHistory.undo_stack h) ≤ U64_MAX → bounded (UndoHistory.trim_undo h).
Proof.
  intros Hmax Hredo Hrb Hub Hsize.
  pose proof (trim_loop_bounds MAX_UNDO_BYTES _ (UndoHistory.base_mark h) Hsize) as Htrim.
  destruct (trim_kept h) as (Hr&Hb&_&Hm). unfold UndoHistory.trim_undo in *. rewrite Hub, Hmax in *.
  destruct (UndoHistory.trim_loop _ _ _ _) as [[ts' bytes'] b']. destruct Htrim as (->&?&?&?).
  constructor; cbn in *; rewrite ?Hredo, ?Hrb; cbn; try done; lia.
Qed.

Lemma push_bounded h edits bef aft group now h' :
  bounded h → stack_size (UndoHistory.undo_stack h) + edits_size edits ≤ U64_MAX →
  UndoHistory.push h edits bef aft group now = Some h' → bounded h'.
Proof.
  intros Hb Hsize. pose proof (edits_size_nonneg edits). pose proof (stack_size_nonneg (UndoHistory.undo_stack h)).
  pose proof (bounded_undo _ Hb) as Hu. pose proof (bounded_max _ Hb) as Hm.
  assert (∀ h, bounded h → ∀ o now, bounded (UndoHistory.set_last_edit (UndoHistory.set_open h o) now)) as Hset
    by (intros ? [] ? ?; by constructor).
  unfold UndoHistory.push. case_bool_decide; [by intros [= <-]|].
  destruct (UndoHistory.joinable h group now); [destruct (pop_back _) as [[below top]|] eqn:Hpop|].
  2-3: destruct (checked_add _ _ _) as [next|]; [|done]; intros [= <-]; apply Hset, trim_bounded;
    try done; cbn [UndoHistory.undo_stack UndoHistory.undo_bytes]; rewrite stack_size_snoc, ?transaction_bytes, ?Hu;
    cbn [Transaction.edits]; unfold saturating_add; lia.
  apply pop_back_some in Hpop. intros [= <-]. rewrite Hpop, stack_size_snoc in *.
  assert (stack_size (below ++ [Transaction.mk (Transaction.id top) (Transaction.edits top ++ edits)
    (Transaction.before top) aft]) = stack_size below + edits_size (Transaction.edits top) + edits_size edits) as Hnew.
  { rewrite stack_size_snoc. cbn [Transaction.edits]. rewrite edits_size_app. lia. }
  enough (bounded (UndoHistory.trim_undo (UndoHistory.mk
    (below ++ [Transaction.mk (Transaction.id top) (Transaction.edits top ++ edits) (Transaction.before top) aft])
    [] (saturating_add (UndoHistory.undo_bytes h) (edits_bytes edits)) 0 (UndoHistory.base_mark h)
    (UndoHistory.next_id h) (UndoHistory.open h) (UndoHistory.last_edit_at h) (UndoHistory.max_bytes h))))
    as [] by by constructor.
  apply trim_bounded; cbn [UndoHistory.undo_stack UndoHistory.undo_bytes]; try done.
  - rewrite Hnew, Hu, edits_bytes_size. unfold saturating_add. lia.
  - rewrite Hnew. lia.
Qed.

(** The histories that the calls of the interface produce; the texts in memory
    are below [usize::MAX] bytes. *)
Inductive calls `{Rope} : UndoHistory.t → Prop :=
  | calls_default : calls UndoHistory.default
  | calls_push h edits bef aft group now h' :
      calls h → stack_size (UndoHistory.undo_stack h) + edits_size edits ≤ U64_MAX →
      UndoHistory.push h edits bef aft group now = Some h' → calls h'
  | calls_close h : calls h → calls (UndoHistory.close_group h)
  | calls_clear h : calls h → calls (UndoHistory.clear h)
  | calls_undo h d h' d' step : calls h → UndoHistory.undo h d = Some (h', d', step) → calls h'
  | calls_redo h d h' d' step : calls h → UndoHistory.redo h d = Some (h', d', step) → calls h'.

Lemma calls_bounded `{Rope} h : calls h → bounded h.
Proof.
  induction 1 as [|h edits bef aft group now h' _ IH Hsize Hpush|h _ IH|h _ IH|h d h' d' step _ IH Hrun
    |h d h' d' step _ IH Hrun].
  - constructor; cbn; unfold U64_MAX, MAX_UNDO_BYTES, MAX_UNDO_TRANSACTIONS; lia.
  - by eapply push_bounded.
  - destruct IH. by constructor.
  - destruct IH. constructor; cbn; unfold U64_MAX, MAX_UNDO_BYTES, MAX_UNDO_TRANSACTIONS; (done || lia).
  - revert Hrun. unfold UndoHistory.undo. destruct (pop_back _) as [[below t]|] eqn:Hpop; [|by intros [= <- _ _]; destruct IH].
    apply pop_back_some in Hpop. destruct (UndoHistory.apply_all _ _ _ _) as [[d1 edits]|]; [|done].
    intros [= <- _ _]. destruct IH as [Hm Hu Hr Hc Ht Hby]. rewrite Hpop, stack_size_snoc in Hu. rewrite Hpop, length_app in *.
    cbn [length] in *.
    pose proof (stack_size_nonneg below). pose proof (edits_size_nonneg (Transaction.edits t)).
    pose proof (stack_size_nonneg (UndoHistory.redo_stack h)).
    constructor; cbn [UndoHistory.undo_stack UndoHistory.redo_stack UndoHistory.undo_bytes
      UndoHistory.redo_bytes UndoHistory.max_bytes]; rewrite ?stack_size_snoc, ?length_app, ?transaction_bytes;
      unfold saturating_sub, saturating_add; cbn [length]; try done; lia.
  - revert Hrun. unfold UndoHistory.redo. destruct (pop_back _) as [[rest t]|] eqn:Hpop; [|by intros [= <- _ _]; destruct IH].
    apply pop_back_some in Hpop. destruct (UndoHistory.apply_all _ _ _ _) as [[d1 edits]|]; [|done].
    intros [= <- _ _]. destruct IH as [Hm Hu Hr Hc Ht Hby]. rewrite Hpop, stack_size_snoc in Hr. rewrite Hpop, length_app in *.
    cbn [length] in *.
    pose proof (stack_size_nonneg rest). pose proof (edits_size_nonneg (Transaction.edits t)).
    pose proof (stack_size_nonneg (UndoHistory.undo_stack h)).
    constructor; cbn [UndoHistory.undo_stack UndoHistory.redo_stack UndoHistory.undo_bytes
      UndoHistory.redo_bytes UndoHistory.max_bytes]; rewrite ?stack_size_snoc, ?length_app, ?transaction_bytes;
      unfold saturating_sub, saturating_add; cbn [length]; try done; lia.
Qed.

Local Close Scope Z_scope.

(** * The editor: the revision of a document *)

Section revision.
Context `{Hrope : Rope, Hlaws : !RopeLaws}.
Implicit Types d : CodeDocument.t.

(** At most [n] edits lead from [d] to [d']. *)
Record advanced (n : nat) d d' : Prop := {
  advanced_least : (CodeDocument.revision d ≤ CodeDocument.revision d')%Z;
  advanced_most : (CodeDocument.revision d' ≤ CodeDocument.revision d + Z.of_nat n)%Z;
  advanced_same : CodeDocument.revision d' = CodeDocument.revision d → contents d' = contents d }.

(** The counter takes [n] more edits. *)
Definition spare (n : nat) d : Prop :=
  (0 ≤ CodeDocument.revision d ∧ CodeDocument.revision d + Z.of_nat n < 2 ^ 64)%Z.

Lemma advanced_refl n d : advanced n d d.
Proof. split; [lia..|done]. Qed.

Lemma advanced_mono n m d d' : n ≤ m → advanced n d d' → advanced m d d'.
Proof. intros ? []. split; [done|lia|done]. Qed.

Lemma advanced_trans n m d d1 d' : advanced n d d1 → advanced m d1 d' → advanced (n + m) d d'.
Proof.
  intros [Hl Hm Hs] [Hl' Hm' Hs']. split; [lia..|]. intros Heq. rewrite Hs' by lia. apply Hs. lia.
Qed.

Lemma spare_advanced n m d d' : spare (n + m) d → advanced n d d' → spare m d'.
Proof. unfold spare. intros ? []. lia. Qed.

Lemma spare_le n m d : m ≤ n → spare n d → spare m d.
Proof. unfold spare. lia. Qed.

Lemma edited_advanced d text' stale rows d' :
  spare 1 d → for_each rows CodeDocument.remeasure_row (CodeDocument.edited d text' stale) = Some d' →
  advanced 1 d d'.
Proof.
  unfold spare. intros Hs. rewrite remeasure_loop. intros [= <-].
  assert (((CodeDocument.revision d + 1) mod 2 ^ 64)%Z = (CodeDocument.revision d + 1)%Z) as Hmod
    by (apply Z.mod_small; lia).
  split; cbn [CodeDocument.revision CodeDocument.edited]; rewrite Hmod; [lia..|]. intros. exfalso. lia.
Qed.

(** Takes the binds of the hypothesis [H : m = Some _] apart. *)
Ltac run_all H :=
  repeat match type of H with
  | (_ ≫= _) = Some _ => apply bind_Some in H as (?&?&H)
  | (let '_ := ?x in _) = Some _ => destruct x as [? ?]
  end.

Lemma insert_advanced d b fragment d' e :
  spare 1 d → CodeDocument.insert d b fragment = Some (d', e) → advanced 1 d d'.
Proof.
  intros Hs. unfold CodeDocument.insert.
  destruct (CodeDocument.is_read_only d); [intros [= <- <-]; apply advanced_refl|].
  case_bool_decide; [intros [= <- <-]; apply advanced_refl|].
  intros Hrun. run_all Hrun. injection Hrun as -> _. by eapply edited_advanced.
Qed.

Lemma remove_advanced d a b d' e :
  spare 1 d → CodeDocument.remove d a b = Some (d', e) → advanced 1 d d'.
Proof.
  intros Hs. unfold CodeDocument.remove.
  destruct (CodeDocument.is_read_only d); [intros [= <- <-]; apply advanced_refl|].
  intros Hrun. run_all Hrun. case_match; [injection Hrun as <- <-; apply advanced_refl|].
  run_all Hrun. injection Hrun as -> _. by eapply edited_advanced.
Qed.

Lemma change_advanced n d applied fragment edits d' changes :
  (∀ d1 e, applied = Some (d1, e) → advanced n d d1) →
  change applied fragment edits = Some (d', changes) → advanced n d d'.
Proof.
  intros Happ. unfold change. destruct applied as [[d1 [e|]]|]; cbn [mbind option_bind]; [| |done].
  - intros Hrun. run_all Hrun. injection Hrun as <- _. by eapply Happ.
  - intros [= <- <-]. by eapply Happ.
Qed.

Lemma raw_splice_advanced d range removed inserted d' changes :
  spare 2 d → raw_splice d range removed inserted = Some (d', changes) → advanced 2 d d'.
Proof.
  intros Hs. unfold raw_splice. intros Hrun. apply bind_Some in Hrun as ([d1 edits]&Hrem&Hrun).
  assert (advanced 1 d d1) as Hd1.
  { destruct (range.1 <? range.2); [|injection Hrem as <- <-; apply advanced_refl].
    eapply change_advanced; [|exact Hrem]. intros d0 e. apply remove_advanced. by eapply spare_le; [|exact Hs]; lia. }
  apply (advanced_trans 1 1 d d1); [done|].
  destruct (negb _); [|injection Hrun as <- <-; apply advanced_refl].
  eapply change_advanced; [|exact Hrun]. intros d0 e. apply insert_advanced. by apply (spare_advanced 1 1 d).
Qed.

Lemma splice_advanced d range text d' o :
  spare 2 d → splice d range text = Some (d', o) → advanced 2 d d'.
Proof.
  intros Hs. unfold splice. destruct (CodeDocument.is_read_only d); [intros [= <- <-]; apply advanced_refl|].
  intros Hrun. run_all Hrun. case_match; [injection Hrun as <- <-; apply advanced_refl|].
  apply bind_Some in Hrun as ([d1 changes]&Hraw&Hrun). injection Hrun as <- _.
  by eapply raw_splice_advanced.
Qed.

Lemma splice_ops_advanced d ops recs changes d' recs' changes' :
  spare (2 * length ops) d → splice_ops d ops recs changes = Some (d', recs', changes') →
  advanced (2 * length ops) d d'.
Proof.
  revert d recs changes. induction ops as [|[range text] ops IH]; intros d recs changes Hs Hrun.
  - injection Hrun as <- <- <-. apply advanced_refl.
  - cbn [splice_ops] in Hrun. apply bind_Some in Hrun as ([d1 o]&Hsp&Hrun).
    replace (2 * length ((range, text) :: ops)) with (2 + 2 * length ops) in * by (cbn [length]; lia).
    assert (advanced 2 d d1) as Hd1 by (eapply splice_advanced; [|exact Hsp]; eapply spare_le; [|exact Hs]; lia).
    eapply advanced_trans; [exact Hd1|]. apply (spare_advanced _ _ _ _ Hs) in Hd1.
    destruct o; by eapply IH.
Qed.

(** The edits that undoing or redoing the top of a stack makes. *)
Definition top_edits (ts : list Transaction.t) : nat :=
  match last ts with Some t => length (Transaction.edits t) | None => 0 end.

Lemma apply_all_advanced apply d rs changes d' changes' :
  (∀ d r d' ch, spare 2 d → apply d r = Some (d', ch) → advanced 2 d d') →
  spare (2 * length rs) d → UndoHistory.apply_all apply d rs changes = Some (d', changes') →
  advanced (2 * length rs) d d'.
Proof.
  intros Happ. revert d changes. induction rs as [|r rs IH]; intros d changes Hs Hrun.
  - injection Hrun as <- <-. apply advanced_refl.
  - cbn [UndoHistory.apply_all] in Hrun. apply bind_Some in Hrun as ([d1 ch]&Hap&Hrun).
    replace (2 * length (r :: rs)) with (2 + 2 * length rs) in * by (cbn [length]; lia).
    assert (advanced 2 d d1) as Hd1 by (eapply Happ; [|exact Hap]; eapply spare_le; [|exact Hs]; lia).
    eapply advanced_trans; [exact Hd1|]. eapply IH; [|exact Hrun]. by eapply spare_advanced.
Qed.

Lemma time_travel_advanced (redo : bool) d h h' d' step :
  spare (2 * top_edits (if redo then UndoHistory.redo_stack h else UndoHistory.undo_stack h)) d →
  (if redo then UndoHistory.redo h d else UndoHistory.undo h d) = Some (h', d', step) →
  advanced (2 * top_edits (if redo then UndoHistory.redo_stack h else UndoHistory.undo_stack h)) d d'.
Proof.
  unfold top_edits. intros Hs. destruct redo; [unfold UndoHistory.redo|unfold UndoHistory.undo];
    (destruct (pop_back _) as [[below t]|] eqn:Hpop; [|intros [= <- <- <-]; apply advanced_refl]);
    apply pop_back_some in Hpop; rewrite Hpop, last_snoc in *; intros Hrun;
    apply bind_Some in Hrun as ([d1 ch]&Hap&Hrun); injection Hrun as _ <- _.
  - eapply apply_all_advanced; [|exact Hs|exact Hap]. intros ? r ? ? ?. by apply raw_splice_advanced.
  - rewrite <- (length_reverse (Transaction.edits t)) in *.
    eapply apply_all_advanced; [|exact Hs|exact Hap]. intros ? r ? ? ?. by apply raw_splice_advanced.
Qed.
End revision.

(** * The editor: undoing the last edit *)

Lemma trim_loop_last max ts bytes b t :
  last ts = Some t → last (UndoHistory.trim_loop max ts bytes b).1.1 = Some t.
Proof.
  revert bytes b. induction ts as [|t0 ts IH]; intros bytes b Hlast; [done|].
  cbn [UndoHistory.trim_loop]. destruct (_ || _) eqn:Hdrop; [|done].
  destruct ts as [|t1 ts]; [|apply IH; by rewrite last_cons_cons in Hlast].
  exfalso. apply orb_true_iff in Hdrop as [Hm|Hm].
  - apply Nat.ltb_lt in Hm. unfold MAX_UNDO_TRANSACTIONS in Hm. cbn [length] in Hm. lia.
  - apply andb_true_iff in Hm as [_ Hm]. cbn in Hm. discriminate.
Qed.

Lemma push_top h edits bef aft now h' :
  UndoHistory.push h edits bef aft Atomic now = Some h' → edits ≠ [] →
  last (UndoHistory.undo_stack h') = Some (Transaction.mk (UndoHistory.next_id h) edits bef aft).
Proof.
  intros Hpush Hne. unfold UndoHistory.push, UndoHistory.joinable in Hpush.
  rewrite bool_decide_eq_false_2 in Hpush by done.
  rewrite (bool_decide_eq_false_2 (Atomic = Typing)) in Hpush by done. cbn [andb] in Hpush.
  destruct (checked_add _ _ _) as [next|]; [|done]. cbn [mbind option_bind] in Hpush. injection Hpush as <-.
  cbn [UndoHistory.undo_stack UndoHistory.set_last_edit UndoHistory.set_open]. unfold UndoHistory.trim_undo.
  cbn [UndoHistory.undo_stack UndoHistory.max_bytes UndoHistory.undo_bytes UndoHistory.base_mark].
  set (ts := _ ++ [_]).
  pose proof (trim_loop_last (UndoHistory.max_bytes h) ts
    (saturating_add (UndoHistory.undo_bytes h) (Transaction.bytes (Transaction.mk (UndoHistory.next_id h) edits bef aft)))
    (UndoHistory.base_mark h) (Transaction.mk (UndoHistory.next_id h) edits bef aft)) as Hlast.
  destruct (UndoHistory.trim_loop _ _ _ _) as [[ts' ?] ?]. cbn [fst] in Hlast. apply Hlast. subst ts. apply last_snoc.
Qed.

(** A record is undone in one way. *)
Lemma text_step_inj r s t s' : text_step r s s' → text_step r t s' → s = t.
Proof.
  intros (p&x&y&q&->&->&->) (p'&x'&y'&q'&Hr&->&Heq). unfold record_at in Hr. injection Hr as Hp <- <-.
  pose proof (before_app p (y ++ q)) as H1. pose proof (before_app p' (y ++ q')) as H2.
  rewrite <- Heq, <- Hp, H1 in H2. subst p'. rewrite !app_assoc in Heq. apply app_inv_head in Heq. by subst.
Qed.

Lemma records_inj s t rs s' : records_apply s rs s' → records_apply t rs s' → s = t.
Proof.
  intros Hs. revert t. induction Hs as [s Hp|s r s1 rs s' Hp Hr Hrs IH]; intros t Ht.
  - by inversion Ht.
  - inversion Ht as [|? ? t1 ? ? Hp' Hr' Hrs']; subst. rewrite (IH t1 Hrs') in Hr. by eapply text_step_inj.
Qed.
