(* ===== verification/EditDisk.v ===== *)
(** * The editor: adopting the text on disk ([diff_dock/code/edit.rs])

    The lines of the file that differ from those of the document are found by the
    histogram diff of the crate [imara_diff], and become splices in descending
    order. *)

From S2P Require Import Prelude DiffRange DiffText DiffChanges DiffUtf8 DiffTracker EditDocument EditSplice.

(** ** The interface of [imara_diff] *)

(** [sources::lines], and the hunks of [Diff::compute(Algorithm::Histogram, ..)] on
    the interned lines of two texts: the changed ranges, the first text's first. *)
Class HistogramDiff := {
  source_lines : str → list str;
  histogram_hunks : list str → list str → list Range }.

(** The lines of a text with their newlines, without an empty one at the end. *)
Definition terminated_lines (text : str) : list str := filter (λ l, l ≠ []) (pieces text).

Definition same_line (l1 l2 : list str) (i j : nat) : Prop :=
  ∃ x, l1 !! i = Some x ∧ l2 !! j = Some x.

Class HistogramDiffLaws `{HistogramDiff} : Prop := {
  source_lines_law text : source_lines text = terminated_lines text;
  histogram_script l1 l2 :
    script (same_line l1 l2) 0 0 (histogram_hunks l1 l2) (length l1) (length l2) }.

(** The interface is inhabited. *)
Module ReferenceHistogram.
#[local] Instance str_partial_eq : PartialEq str := λ a b, Some (bool_decide (a = b)).

#[export] Instance reference_histogram : HistogramDiff := {|
  source_lines := terminated_lines;
  histogram_hunks l1 l2 :=
    ReferenceDiff.hunks_of 0 0 (ReferenceDiff.pairs l1 0 l2 0) (length l1) (length l2) |}.

#[export] Instance reference_histogram_laws : HistogramDiffLaws.
Proof.
  constructor; [done|]. intros l1 l2. cbn.
  assert (script (item_eq l1 l2) 0 0
    (ReferenceDiff.hunks_of 0 0 (ReferenceDiff.pairs l1 0 l2 0) (length l1) (length l2))
    (length l1) (length l2)) as Hscript.
  { apply ReferenceDiff.hunks_of_script, ReferenceDiff.pairs_spec; simpl; (done || lia). }
  eapply script_mono; [|exact Hscript]. intros i j _ _ (x&y&Hx&Hy&Heq).
  apply bool_decide_eq_true in Heq as ->. by exists y.
Qed.
End ReferenceHistogram.

Section disk.
Context `{Rope} `{HistogramDiff}.

Definition terminated_line_count (text : rope) : option nat :=
  let lines := rope_len_lines text in
  match checked_sub lines 1 with
  | Some last =>
      l ← rope_line text last;
      Some (if rope_len_bytes l =? 0 then last else lines)
  | None => Some lines
  end.

(** One line of the loop of [line_offsets], on [offsets] and [total]. *)
Definition offset_step (st : list nat * nat) (line : str) : list nat * nat :=
  let '(offsets, total) := st in
  let total := total + byte_len line in
  (offsets ++ [total], total).

Definition line_offsets (text : str) : list nat := fst (foldl offset_step ([0], 0) (source_lines text)).

(** The first loop; [fuel] bounds the lines left, of which [prefix] is below. *)
Fixpoint common_prefix (fuel : nat) (current : rope) (incoming_lines : list str) (current_lines prefix : nat)
  : option nat :=
  match fuel with
  | O => Some prefix
  | S fuel =>
      if (prefix <? current_lines) && (prefix <? length incoming_lines) then
        l ← rope_line current prefix;
        l' ← incoming_lines !! prefix;
        if bool_decide (to_str l = l')
        then common_prefix fuel current incoming_lines current_lines (prefix + 1)
        else Some prefix
      else Some prefix
  end.

Fixpoint common_suffix (fuel : nat) (current : rope) (incoming_lines : list str)
    (current_lines prefix suffix : nat) : option nat :=
  match fuel with
  | O => Some suffix
  | S fuel =>
      if (suffix <? current_lines - prefix) && (suffix <? length incoming_lines - prefix) then
        l ← rope_line current (current_lines - suffix - 1);
        l' ← incoming_lines !! (length incoming_lines - suffix - 1);
        if bool_decide (to_str l = l')
        then common_suffix fuel current incoming_lines current_lines prefix (suffix + 1)
        else Some suffix
      else Some suffix
  end.

(** The sum of the lengths of the lines. *)
Definition lines_len (lines : list str) : nat := sum_list_with byte_len lines.

(** The splice of a hunk. *)
Definition hunk_splice (current_start : nat) (current_offsets incoming_offsets : list nat)
    (incoming_middle : str) (hunk : Range) : option ((nat * nat) * str) :=
  before_start ← current_offsets !! start1 hunk;
  before_end ← current_offsets !! end1 hunk;
  after_start ← incoming_offsets !! start2 hunk;
  after_end ← incoming_offsets !! end2 hunk;
  text ← str_slice incoming_middle after_start after_end;
  Some ((current_start + before_start, current_start + before_end), text).

Definition disk_splices (current : rope) (incoming : str) : option (list ((nat * nat) * str)) :=
  let incoming := normalize_newlines incoming in
  let incoming_lines := source_lines incoming in
  current_lines ← terminated_line_count current;
  prefix ← common_prefix current_lines current incoming_lines current_lines 0;
  suffix ← common_suffix current_lines current incoming_lines current_lines prefix 0;
  current_start ← rope_line_to_byte current prefix;
  last ← checked_sub current_lines suffix;
  current_end ← rope_line_to_byte current last;
  let incoming_start := lines_len (take prefix incoming_lines) in
  from ← checked_sub (length incoming_lines) suffix;
  incoming_end ← checked_sub (byte_len incoming) (lines_len (drop from incoming_lines));
  if (current_start =? current_end) && (incoming_start =? incoming_end) then Some []
  else
    current_middle ← rope_byte_slice current current_start current_end;
    let current_middle := to_str current_middle in
    incoming_middle ← str_slice incoming incoming_start incoming_end;
    splices ← mapM (hunk_splice current_start (line_offsets current_middle)
                      (line_offsets incoming_middle) incoming_middle)
                (histogram_hunks (source_lines current_middle) (source_lines incoming_middle));
    Some (reverse splices).

(** ** The selection after the splices *)

(** The loop of [shift_offset_for_splices] over the splices in ascending order;
    [inl] is the value it returns from inside. *)
Fixpoint shift_loop (offset : nat) (splices : list ((nat * nat) * str)) (delta : Z) : nat + Z :=
  match splices with
  | [] => inr delta
  | ((start, end_), inserted) :: splices =>
      let len := Z.of_nat (byte_len inserted) in
      if negb (start <? end_) then
        shift_loop offset splices (if start <=? offset then (delta + len)%Z else delta)
      else if offset <=? start then inr delta
      else if end_ <=? offset then
        shift_loop offset splices (delta + (len - Z.of_nat (end_ - start)))%Z
      else
        inl (Z.to_nat (Z.max 0
          (Z.of_nat start + delta + Z.of_nat (Nat.min (offset - start) (byte_len inserted)))%Z))
  end.

Definition shift_offset_for_splices (offset : nat) (splices_descending : list ((nat * nat) * str)) : nat :=
  match shift_loop offset (reverse splices_descending) 0 with
  | inl n => n
  | inr delta => Z.to_nat (Z.max 0 (Z.of_nat offset + delta)%Z)
  end.

Definition shift_selection_for_splices (selection : CodeSelection)
    (splices_descending : list ((nat * nat) * str)) : CodeSelection :=
  mkSelection (shift_offset_for_splices (anchor selection) splices_descending)
    (shift_offset_for_splices (sel_head selection) splices_descending).
End disk.
