(* ===== verification/EditDiskCorrect.v ===== *)
(** * The editor: the splices adopt the text on disk

    Applied in order to the document, the splices of [disk_splices] give the text
    of the file. *)

From S2P Require Import Prelude DiffRange DiffText DiffChanges DiffUtf8 DiffTracker DiffTrackerCorrect EditDocument EditDocumentCorrect EditSplice EditSpliceCorrect EditHistory EditHistoryCorrect EditDisk.

(** ** Terminated lines *)

(** Lines that end in their only newline, but for the last that may have none. *)
Inductive term_lines : list str → Prop :=
  | term_nil : term_lines []
  | term_last l : l ≠ [] → 10%N ∉ l → term_lines [l]
  | term_cons l ls : 10%N ∉ l → term_lines ls → term_lines ((l ++ [10%N]) :: ls).

Lemma split_line (l : str) s : 10%N ∉ l → split_lines (l ++ 10%N :: s) = l :: split_lines s.
Proof.
  intros Hl. by rewrite split_lines_newline, split_lines_one by by apply newlines_none.
Qed.

Lemma pieces_line (l : str) s : 10%N ∉ l → pieces (l ++ 10%N :: s) = (l ++ [10%N]) :: pieces s.
Proof.
  intros Hl. unfold pieces. rewrite split_line by done.
  unfold split_lines. by destruct (split_newline_cons s) as (x&xs&->).
Qed.

Lemma pieces_one (l : str) : 10%N ∉ l → pieces l = [l].
Proof. intros Hl. unfold pieces. by rewrite split_lines_one by by apply newlines_none. Qed.

Lemma terminated_line (l : str) s :
  10%N ∉ l → terminated_lines (l ++ 10%N :: s) = (l ++ [10%N]) :: terminated_lines s.
Proof.
  intros Hl. unfold terminated_lines. rewrite pieces_line by done. rewrite filter_cons_True; [done|].
  by intros []%app_nil.
Qed.

Lemma terminated_one (l : str) : l ≠ [] → 10%N ∉ l → terminated_lines l = [l].
Proof.
  intros Hne Hl. unfold terminated_lines. rewrite pieces_one by done. by rewrite filter_cons_True.
Qed.

Lemma terminated_join ls : term_lines ls → terminated_lines (mjoin ls) = ls.
Proof.
  induction 1 as [|l Hne Hl|l ls Hl _ IH]; [done| |].
  - simpl. rewrite app_nil_r. by apply terminated_one.
  - simpl. rewrite <- app_assoc. simpl. by rewrite terminated_line, IH.
Qed.

(** A text by its terminated lines. *)
Lemma terminated_spec s : term_lines (terminated_lines s) ∧ mjoin (terminated_lines s) = s ∧
  (pieces s = terminated_lines s ∨ pieces s = terminated_lines s ++ [[]]) ∧
  (last (pieces s) = Some [] ↔ pieces s = terminated_lines s ++ [[]]).
Proof.
  remember (length s) as n eqn:Hn. revert s Hn. induction (lt_wf n) as [n _ IH]. intros s ->.
  destruct (decide (10%N ∈ s)) as [(p&q&->&Hp)%first_newline|Hno].
  - rewrite terminated_line, pieces_line by done.
    destruct (IH (length q)) with (s := q) as (Ht&Hj&Hpc&Hlast); [rewrite length_app; simpl; lia|done|].
    split_and!.
    + by constructor.
    + simpl. rewrite Hj. by rewrite <- app_assoc.
    + destruct Hpc as [->|Heq]; [by left|right]. by rewrite Heq.
    + destruct (pieces q) as [|x xs] eqn:Hq.
      { pose proof (pieces_length q) as Hlen. rewrite Hq, split_lines_length in Hlen. done. }
      rewrite last_cons_cons, Hlast. split; intros Heq; [by rewrite Heq|by injection Heq].
  - destruct s as [|c s].
    + cbn. split_and!; [constructor|done|by right|done].
    + rewrite terminated_one, pieces_one by done.
      split_and!; [by constructor|simpl; by rewrite app_nil_r|by left|done].
Qed.

Lemma term_lines_nonempty ls i l : term_lines ls → ls !! i = Some l → l ≠ [].
Proof.
  intros Hls. revert i. induction Hls as [|l' Hne _|l' ls _ _ IH]; intros i Hi; [done| |].
  - destruct i; [|done]. by injection Hi as <-.
  - destruct i; [|by eapply IH]. injection Hi as <-. by intros []%app_nil.
Qed.

Lemma term_lines_drop n ls : term_lines ls → term_lines (drop n ls).
Proof.
  intros Hls. revert n. induction Hls as [|l Hne Hl|l ls Hl Hls IH]; intros [|n]; simpl;
    rewrite ?drop_nil; try by constructor. done.
Qed.

Lemma term_lines_take n ls : term_lines ls → term_lines (take n ls).
Proof.
  intros Hls. revert n. induction Hls as [|l Hne Hl|l ls Hl Hls IH]; intros [|n]; simpl;
    try (destruct n; by constructor); by constructor.
Qed.

Lemma join_nonempty ls : term_lines ls → ls ≠ [] → byte_len (mjoin ls) ≠ 0.
Proof.
  intros Hls Hne. destruct ls as [|l ls]; [done|]. simpl. rewrite byte_len_app.
  pose proof (byte_len_nonempty l (term_lines_nonempty _ 0 l Hls eq_refl)). lia.
Qed.

(** The offset of a line, by the terminated lines before it. *)
Lemma line_offset_terminated s i :
  i ≤ length (terminated_lines s) → line_offset s i = byte_len (mjoin (take i (terminated_lines s))).
Proof.
  intros Hi. unfold line_offset. destruct (terminated_spec s) as (_&_&[->| ->]&_); [done|].
  by rewrite take_app_le.
Qed.

Lemma lines_len_join ls : lines_len ls = byte_len (mjoin ls).
Proof. induction ls as [|l ls IH]; [done|]. simpl. by rewrite IH, byte_len_app. Qed.

Section correct.
Context `{Hrope : Rope, Hlaws : !RopeLaws} `{Hdiff : HistogramDiff, Hdlaws : !HistogramDiffLaws}.
Implicit Types r : rope.

Lemma rope_line_terminated r i l :
  terminated_lines (to_str r) !! i = Some l → ∃ r', rope_line r i = Some r' ∧ to_str r' = l.
Proof.
  intros Hl. apply fmap_some. rewrite line_law.
  destruct (terminated_spec (to_str r)) as (_&_&[->| ->]&_); [done|].
  by apply lookup_app_l_Some.
Qed.

Lemma terminated_line_count_spec r :
  terminated_line_count r = Some (length (terminated_lines (to_str r))).
Proof.
  unfold terminated_line_count. rewrite len_lines_law, <- pieces_length.
  destruct (terminated_spec (to_str r)) as (Ht&_&Hpc&Hlast).
  assert (pieces (to_str r) ≠ []) as Hne.
  { intros Hnil. pose proof (pieces_length (to_str r)) as Hlen.
    rewrite Hnil, split_lines_length in Hlen. done. }
  rewrite checked_sub_some by (destruct (pieces (to_str r)); [done|simpl; lia]).
  destruct (last (pieces (to_str r))) as [l|] eqn:Hl; [|by apply last_None in Hl].
  assert (pieces (to_str r) !! (length (pieces (to_str r)) - 1) = Some l) as Hlook.
  { rewrite <- Hl, last_lookup. f_equal. lia. }
  assert (to_str <$> rope_line r (length (pieces (to_str r)) - 1) = Some l) as Hline
    by by rewrite line_law.
  apply fmap_some in Hline as (r'&->&Hr'). cbn [mbind option_bind]. rewrite len_bytes_law, Hr'.
  destruct (decide (l = [])) as [->|Hlne].
  - rewrite (proj1 Hlast eq_refl), length_app. cbn. f_equal. lia.
  - rewrite (proj2 (Nat.eqb_neq _ _)) by by apply byte_len_nonempty. f_equal.
    destruct Hpc as [->|Heq]; [done|]. apply Hlast in Heq. congruence.
Qed.

Lemma common_prefix_spec r lines n fuel :
  let ls := terminated_lines (to_str r) in
  n ≤ length ls → n ≤ length lines → take n ls = take n lines →
  runs (common_prefix fuel r lines (length ls) n) (λ n',
    n' ≤ length ls ∧ n' ≤ length lines ∧ take n' ls = take n' lines).
Proof.
  intros ls. revert n. induction fuel as [|fuel IH]; intros n H1 H2 Htake; [done|].
  cbn [common_prefix]. destruct (_ && _) eqn:Hcond; [|done].
  apply andb_true_iff in Hcond as [Hn1%Nat.ltb_lt Hn2%Nat.ltb_lt].
  destruct (lookup_lt_is_Some_2 ls n Hn1) as [l Hl]. destruct (lookup_lt_is_Some_2 lines n Hn2) as [l' Hl'].
  destruct (rope_line_terminated r n l Hl) as (r'&->&Hr'). rewrite Hl'. cbn [mbind option_bind]. rewrite Hr'.
  case_bool_decide as Heq; [|done]. subst l'. apply IH; [lia..|].
  rewrite Nat.add_1_r. by rewrite (take_S_r _ _ _ Hl), (take_S_r _ _ _ Hl'), Htake.
Qed.

Lemma common_suffix_spec r lines prefix n fuel :
  let ls := terminated_lines (to_str r) in
  n ≤ length ls - prefix → n ≤ length lines - prefix →
  drop (length ls - n) ls = drop (length lines - n) lines →
  runs (common_suffix fuel r lines (length ls) prefix n) (λ n',
    n' ≤ length ls - prefix ∧ n' ≤ length lines - prefix ∧
    drop (length ls - n') ls = drop (length lines - n') lines).
Proof.
  intros ls. revert n. induction fuel as [|fuel IH]; intros n H1 H2 Hdrop; [done|].
  cbn [common_suffix]. destruct (_ && _) eqn:Hcond; [|done].
  apply andb_true_iff in Hcond as [Hn1%Nat.ltb_lt Hn2%Nat.ltb_lt].
  destruct (lookup_lt_is_Some_2 ls (length ls - n - 1)) as [l Hl]; [lia|].
  destruct (lookup_lt_is_Some_2 lines (length lines - n - 1)) as [l' Hl']; [lia|].
  destruct (rope_line_terminated r _ l Hl) as (r'&->&Hr'). rewrite Hl'. cbn [mbind option_bind]. rewrite Hr'.
  case_bool_decide as Heq; [|done]. subst l'. apply IH; [lia..|].
  replace (length ls - (n + 1)) with (length ls - n - 1) by lia.
  replace (length lines - (n + 1)) with (length lines - n - 1) by lia.
  rewrite (drop_S _ _ _ Hl), (drop_S _ _ _ Hl').
  replace (S (length ls - n - 1)) with (length ls - n) by lia.
  replace (S (length lines - n - 1)) with (length lines - n) by lia. by rewrite Hdrop.
Qed.

(** The offsets are the lengths of the prefixes. *)
Lemma line_offsets_spec text i :
  i ≤ length (terminated_lines text) →
  line_offsets text !! i = Some (byte_len (mjoin (take i (terminated_lines text)))).
Proof.
  unfold line_offsets. rewrite source_lines_law. generalize (terminated_lines text) as ls. intros ls.
  enough (foldl offset_step ([0], 0) ls = ((λ i, byte_len (mjoin (take i ls))) <$> seq 0 (S (length ls)), byte_len (mjoin ls))) as Hfold.
  { intros Hi. rewrite Hfold. cbn [fst]. by rewrite list_lookup_fmap, lookup_seq_lt by lia. }
  induction ls as [|l ls IH] using rev_ind; [done|].
  rewrite foldl_app, IH. cbn [foldl offset_step]. rewrite join_app, byte_len_app. cbn [mjoin list_join].
  rewrite app_nil_r. f_equal. rewrite length_app, Nat.add_1_r, (seq_S (S (length ls))), fmap_app.
  f_equal.
  - apply list_fmap_ext. intros k x Hk. apply lookup_seq in Hk as [-> Hk]. by rewrite take_app_le by lia.
  - cbn [fmap list_fmap]. rewrite take_ge by (rewrite length_app; simpl; lia).
    rewrite join_app, byte_len_app. simpl. by rewrite app_nil_r.
Qed.

Lemma join_take_cut (ls : list str) a b :
  a ≤ b → mjoin (take b ls) = mjoin (take a ls) ++ mjoin (cut ls a b).
Proof.
  intros Hab. unfold cut. rewrite <- join_app, take_take_drop. by replace (a + (b - a)) with b by lia.
Qed.

Lemma join_cut_slice (ls : list str) a b :
  a ≤ b → str_slice (mjoin ls) (byte_len (mjoin (take a ls))) (byte_len (mjoin (take b ls))) =
    Some (mjoin (cut ls a b)).
Proof.
  intros Hab. rewrite (join_take_cut ls a b Hab).
  rewrite <- (take_drop b ls) at 1. rewrite join_app, (join_take_cut ls a b Hab), <- app_assoc.
  apply str_slice_app.
Qed.

(** ** The splices of the hunks *)

(** The splice of a hunk between the lines [ls] after [pre] and the lines [ls']. *)
Definition hunk_op (pre : str) (ls ls' : list str) (h : Range) : (nat * nat) * str :=
  ((byte_len (pre ++ mjoin (take (start1 h) ls)), byte_len (pre ++ mjoin (take (end1 h) ls))),
   mjoin (cut ls' (start2 h) (end2 h))).

Lemma hunk_splice_spec (pre : str) text text' hunk :
  let ls := terminated_lines text in let ls' := terminated_lines text' in
  start1 hunk ≤ end1 hunk → end1 hunk ≤ length ls → start2 hunk ≤ end2 hunk → end2 hunk ≤ length ls' →
  hunk_splice (byte_len pre) (line_offsets text) (line_offsets text') text' hunk =
    Some (hunk_op pre ls ls' hunk).
Proof.
  intros ls ls' ????. unfold hunk_splice, hunk_op.
  rewrite !line_offsets_spec by (subst ls ls'; lia). cbn [mbind option_bind]. fold ls ls'.
  destruct (terminated_spec text') as (_&Hj&_). fold ls' in Hj. rewrite <- Hj at 1.
  rewrite join_cut_slice by done. cbn [mbind option_bind]. by rewrite !byte_len_app.
Qed.

Lemma hunk_splices_spec (pre : str) text text' hunks p1 p2 E :
  let ls := terminated_lines text in let ls' := terminated_lines text' in
  script E p1 p2 hunks (length ls) (length ls') →
  mapM (hunk_splice (byte_len pre) (line_offsets text) (line_offsets text') text') hunks =
    Some (hunk_op pre ls ls' <$> hunks).
Proof.
  intros ls ls'. revert p1 p2. induction hunks as [|h hunks IH]; intros p1 p2 Hs; [done|].
  destruct Hs as (_&?&?&Hs). pose proof (script_bounds _ _ _ _ _ _ Hs) as [? ?].
  cbn [mapM]. rewrite hunk_splice_spec by done. cbn [mbind option_bind]. by rewrite (IH _ _ Hs).
Qed.

(** A splice between two boundaries. *)
Lemma splice_text_cut p x q y :
  crlf_free y → splice_text (p ++ x ++ q) ((byte_len p, byte_len (p ++ x)), y) = p ++ y ++ q.
Proof.
  intros Hy. unfold splice_text. cbn [fst snd]. rewrite Nat.max_l by (rewrite byte_len_app; lia).
  rewrite before_app, (app_assoc p x q), after_app. by rewrite normalize_crlf_free.
Qed.

(** Applied from the last to the first, the splices patch the lines. *)
Lemma apply_hunks pre post ls ls' hunks p1 p2 E :
  13%N ∉ mjoin ls' → script E p1 p2 hunks (length ls) (length ls') →
  foldr (λ op s, splice_text s op) (pre ++ mjoin ls ++ post) (hunk_op pre ls ls' <$> hunks) =
    pre ++ mjoin (take p1 ls) ++ mjoin (patch p1 ls ls' hunks) ++ post.
Proof.
  intros Hcr. revert p1 p2. induction hunks as [|h hunks IH]; intros p1 p2 Hs.
  - simpl. by rewrite (app_assoc (mjoin _)), <- join_app, take_drop.
  - destruct Hs as (Hg&Hs1&Hs2&Hs). pose proof (script_bounds _ _ _ _ _ _ Hs) as [? ?].
    rewrite fmap_cons. cbn [foldr patch]. rewrite (IH _ _ Hs). unfold hunk_op.
    rewrite (join_take_cut ls (start1 h) (end1 h)) by done.
    rewrite <- (app_assoc (mjoin (take (start1 h) ls))), (app_assoc pre), (app_assoc pre).
    rewrite splice_text_cut.
    + destruct Hg as (?&_&_&_). rewrite (join_take_cut ls p1 (start1 h)) by done.
      rewrite !join_app. unfold cut. by rewrite <- !app_assoc.
    + apply no_cr_crlf_free. intros Hin. apply Hcr. unfold cut in Hin.
      rewrite <- (take_drop (start2 h) ls'), join_app, elem_of_app. right.
      rewrite <- (take_drop (end2 h - start2 h) (drop (start2 h) ls')), join_app, elem_of_app. by left.
Qed.

Lemma script_bound_ops E (pre : str) ls ls' hunks p1 p2 :
  script E p1 p2 hunks (length ls) (length ls') →
  sum_list_with (λ op : (nat * nat) * str, newlines op.2) (hunk_op pre ls ls' <$> hunks)
    + newlines (mjoin (take p2 ls')) ≤ newlines (mjoin ls').
Proof.
  revert p1 p2. induction hunks as [|h hunks IH]; intros p1 p2 Hs.
  - simpl. rewrite <- (take_drop p2 ls') at 2. rewrite join_app, newlines_app. lia.
  - destruct Hs as ((?&?&?&_)&?&?&Hs). pose proof (script_bounds _ _ _ _ _ _ Hs) as [? ?].
    specialize (IH _ _ Hs). rewrite fmap_cons. cbn [sum_list_with hunk_op snd].
    rewrite (join_take_cut ls' (start2 h) (end2 h)), (join_take_cut ls' p2 (start2 h)), !newlines_app in IH by done.
    lia.
Qed.

(** [ops] are splices of [pre ++ mjoin ls ++ post], the last of the text first. *)
Record adopts (s t : str) (ops : list ((nat * nat) * str)) : Prop := {
  adopts_text : foldl splice_text s ops = t;
  adopts_clean : Forall (λ op, 13%N ∉ op.2) ops;
  adopts_newlines : sum_list_with (λ op, newlines op.2) ops ≤ newlines t }.

Lemma foldl_reverse {A B} (f : B → A → B) (x : B) (l : list A) :
  foldl f x (reverse l) = foldr (λ a b, f b a) x l.
Proof.
  induction l as [|a l IH]; [done|]. rewrite reverse_cons, foldl_app. simpl. by rewrite IH.
Qed.

Lemma sum_list_reverse {A} (f : A → nat) l : sum_list_with f (reverse l) = sum_list_with f l.
Proof. apply sum_list_with_reverse. Qed.

(** Lines with a common head and a common tail. *)
Lemma common_ends (ls ls' : list str) a b :
  a ≤ length ls → a ≤ length ls' → take a ls = take a ls' →
  b ≤ length ls - a → b ≤ length ls' - a → drop (length ls - b) ls = drop (length ls' - b) ls' →
  ls = take a ls ++ cut ls a (length ls - b) ++ drop (length ls - b) ls ∧
  ls' = take a ls ++ cut ls' a (length ls' - b) ++ drop (length ls - b) ls.
Proof.
  intros ?? Ha ?? Hb. rewrite Ha at 2. rewrite Hb at 2. unfold cut.
  split; rewrite (app_assoc (take _ _)), take_take_drop;
    [replace (a + (length ls - b - a)) with (length ls - b) by lia
    |replace (a + (length ls' - b - a)) with (length ls' - b) by lia]; by rewrite take_drop.
Qed.

Lemma adopts_hunks s t (pre post : list str) ls ls' hunks :
  s = mjoin (pre ++ ls ++ post) → t = mjoin (pre ++ ls' ++ post) → 13%N ∉ t →
  script (same_line ls ls') 0 0 hunks (length ls) (length ls') →
  adopts s t (reverse (hunk_op (mjoin pre) ls ls' <$> hunks)).
Proof.
  intros -> -> Hcr Hs. rewrite !join_app in *.
  assert (13%N ∉ mjoin ls') as Hcr'. { rewrite !elem_of_app in Hcr. tauto. }
  constructor.
  - rewrite foldl_reverse, (apply_hunks _ _ _ _ _ 0 0 _ Hcr' Hs).
    rewrite (patch_script _ _ _ _ _ Hs), take_0, drop_0. done.
  - apply Forall_reverse, Forall_fmap, Forall_forall. intros h _. unfold compose, hunk_op. cbn [snd].
    intros Hin. apply Hcr'. unfold cut in Hin.
    rewrite <- (take_drop (start2 h) ls'), join_app, elem_of_app. right.
    rewrite <- (take_drop (end2 h - start2 h) (drop (start2 h) ls')), join_app, elem_of_app. by left.
  - rewrite sum_list_reverse. pose proof (script_bound_ops _ (mjoin pre) _ _ _ _ _ Hs).
    rewrite !newlines_app. lia.
Qed.

(** The offset of a terminated line in the rope. *)
Lemma rope_line_offset r i :
  let ls := terminated_lines (to_str r) in
  i ≤ length ls → rope_line_to_byte r i = Some (byte_len (mjoin (take i ls))).
Proof.
  intros ls Hi. rewrite line_to_byte_law. unfold up_to. rewrite (proj2 (Nat.leb_le _ _)).
  - by rewrite line_offset_terminated.
  - rewrite <- pieces_length. destruct (terminated_spec (to_str r)) as (_&_&[->| ->]&_); [done|].
    rewrite length_app. subst ls. simpl. lia.
Qed.

(** The middles differ unless both are empty. *)
Lemma middle_empty (pre mid mid' : list str) :
  term_lines mid → term_lines mid' →
  (byte_len (mjoin pre) =? byte_len (mjoin (pre ++ mid))) && (byte_len (mjoin pre) =? byte_len (mjoin (pre ++ mid')))
    = true → mid = [] ∧ mid' = [].
Proof.
  intros Hm Hm' [H1%Nat.eqb_eq H2%Nat.eqb_eq]%andb_true_iff. rewrite !join_app, !byte_len_app in *.
  split; [destruct (decide (mid = [])); [done|]|destruct (decide (mid' = [])); [done|]].
  - pose proof (join_nonempty mid). naive_solver lia.
  - pose proof (join_nonempty mid'). naive_solver lia.
Qed.

Lemma rope_slice_middle r (pre mid post : list str) :
  to_str r = mjoin (pre ++ mid ++ post) →
  ∃ r', rope_byte_slice r (byte_len (mjoin pre)) (byte_len (mjoin (pre ++ mid))) = Some r' ∧ to_str r' = mjoin mid.
Proof. intros Hr. apply fmap_some. rewrite byte_slice_law, Hr, !join_app. apply str_slice_app. Qed.

Lemma disk_splices_spec r incoming :
  13%N ∉ normalize_newlines incoming →
  runs (disk_splices r incoming) (adopts (to_str r) (normalize_newlines incoming)).
Proof.
  intros Hcr. unfold disk_splices. rewrite source_lines_law, terminated_line_count_spec.
  cbn [mbind option_bind]. set (s := to_str r). set (t := normalize_newlines incoming) in *.
  set (ls := terminated_lines s). set (ls' := terminated_lines t).
  destruct (terminated_spec s) as (Hls&Hs&_). destruct (terminated_spec t) as (Hls'&Ht&_).
  fold ls in Hls, Hs. fold ls' in Hls', Ht.
  step with (apply (common_prefix_spec r ls' 0 (length ls)); [lia..|done]).
  intros a (Ha1&Ha2&Ha). fold s in Ha1, Ha. fold ls in Ha1, Ha.
  step with (apply (common_suffix_spec r ls' a 0 (length ls)); fold s ls; [lia..|]).
  { by rewrite !Nat.sub_0_r, !drop_all. }
  intros b (Hb1&Hb2&Hb). fold s in Hb1, Hb. fold ls in Hb1, Hb.
  destruct (common_ends ls ls' a b Ha1 Ha2 Ha Hb1 Hb2 Hb) as [Hcut Hcut'].
  set (pre := take a ls) in *. set (post := drop (length ls - b) ls) in *.
  set (mid := cut ls a (length ls - b)) in *. set (mid' := cut ls' a (length ls' - b)) in *.
  assert (take a ls' = pre) as Hpre' by done. assert (drop (length ls' - b) ls' = post) as Hpost' by done.
  assert (take (length ls - b) ls = pre ++ mid) as Hmid.
  { subst pre mid. unfold cut. rewrite take_take_drop. f_equal. lia. }
  assert (term_lines mid) as Htm by by apply term_lines_take, term_lines_drop.
  assert (term_lines mid') as Htm' by by apply term_lines_take, term_lines_drop.
  rewrite (rope_line_offset r a) by done. fold s ls pre. cbn [mbind option_bind].
  rewrite (checked_sub_some (length ls)) by lia. cbn [mbind option_bind].
  rewrite (rope_line_offset r (length ls - b)) by (fold s ls; lia). fold s ls. rewrite Hmid. cbn [mbind option_bind].
  rewrite (checked_sub_some (length ls')) by lia. cbn [mbind option_bind].
  rewrite Hpre', Hpost', !lines_len_join.
  assert (byte_len t = byte_len (mjoin (pre ++ mid')) + byte_len (mjoin post)) as Hlen.
  { rewrite <- Ht, Hcut', app_assoc, join_app, byte_len_app. done. }
  rewrite checked_sub_some by lia. cbn [mbind option_bind].
  replace (byte_len t - byte_len (mjoin post)) with (byte_len (mjoin (pre ++ mid'))) by lia.
  destruct (_ && _) eqn:Hsame.
  { apply middle_empty in Hsame as [Hm Hm']; [|done..]. cbn [runs].
    constructor; [|constructor|simpl; lia]. cbn [foldl]. rewrite <- Hs, <- Ht, Hcut, Hcut'. by rewrite Hm, Hm'. }
  destruct (rope_slice_middle r pre mid post) as (r'&->&Hr'); [fold s; by rewrite <- Hs, Hcut|].
  cbn [mbind option_bind]. rewrite Hr'.
  assert (str_slice t (byte_len (mjoin pre)) (byte_len (mjoin (pre ++ mid'))) = Some (mjoin mid')) as ->.
  { rewrite <- Ht, Hcut', !join_app. apply str_slice_app. }
  cbn [mbind option_bind]. rewrite !source_lines_law, !terminated_join by done.
  pose proof (histogram_script mid mid') as Hscript.
  rewrite (hunk_splices_spec (mjoin pre) (mjoin mid) (mjoin mid') _ 0 0 (same_line mid mid'))
    by by rewrite !terminated_join.
  rewrite !terminated_join by done. simpl. apply (adopts_hunks _ _ pre post); [by rewrite <- Hs, Hcut|by rewrite <- Ht, Hcut'|done..].
Qed.
End correct.
