(* ===== verification/EditCursor.v ===== *)
(** * The editor: the caret ([diff_dock/code/cursor.rs])

    Offsets are bytes of the document.  Grapheme clusters are those of the crate
    [unicode_segmentation]; [char::is_alphanumeric] needs the Unicode tables: both
    are parameters.  [page_rows], on floats, is left out. *)

From S2P Require Import Prelude DiffRange DiffText DiffUtf8 EditDocument EditSplice.

(** ** The interface *)

Class Graphemes := {
  graphemes : str → list str;
  is_alphanumeric : N → bool }.

(** The clusters of a text are its pieces (UAX #29), and a text cut between two of
    them has the clusters on each side: no rule looks back past a boundary but to
    count regional indicators in pairs. *)
Class GraphemesLaws `{Graphemes} : Prop := {
  graphemes_join s : mjoin (graphemes s) = s;
  graphemes_nonempty s : Forall (λ g, g ≠ []) (graphemes s);
  graphemes_take s k : graphemes (mjoin (take k (graphemes s))) = take k (graphemes s);
  graphemes_drop s k : graphemes (mjoin (drop k (graphemes s))) = drop k (graphemes s) }.

(** Each character a cluster. *)
Module CharGraphemes.
#[export] Instance char_graphemes : Graphemes := {|
  graphemes s := (λ c, [c]) <$> s;
  is_alphanumeric c :=
    ((48 <=? c) && (c <=? 57) || (65 <=? c) && (c <=? 90) || (97 <=? c) && (c <=? 122))%N |}.

#[export] Instance char_graphemes_laws : GraphemesLaws.
Proof.
  assert (∀ s : str, mjoin ((λ c : N, [c]) <$> s) = s) as Hjoin.
  { induction s as [|c s IH]; [done|]. exact (f_equal (cons c) IH). }
  constructor; [done|..]; intros s; cbn [graphemes char_graphemes].
  - apply Forall_fmap, Forall_forall. done.
  - intros k. by rewrite <- fmap_take, Hjoin.
  - intros k. by rewrite <- fmap_drop, Hjoin.
Qed.
End CharGraphemes.

(** [char::is_whitespace] *)
Definition char_is_whitespace (c : N) : bool :=
  ((9 <=? c) && (c <=? 13) || (c =? 32) || (c =? 0x85) || (c =? 0xA0) || (c =? 0x1680) ||
   (0x2000 <=? c) && (c <=? 0x200A) || (c =? 0x2028) || (c =? 0x2029) || (c =? 0x202F) ||
   (c =? 0x205F) || (c =? 0x3000))%N.

(** [str::grapheme_indices] and [str::char_indices]: the offset of each piece. *)
Fixpoint piece_indices (from : nat) (pieces : list str) : list nat :=
  match pieces with
  | [] => []
  | g :: pieces => from :: piece_indices (from + byte_len g) pieces
  end.

Fixpoint char_indices (from : nat) (s : str) : list (nat * N) :=
  match s with
  | [] => []
  | c :: s => (from, c) :: char_indices (from + length (utf8 c)) s
  end.

(** ** Selections *)
Module CodeSelection.
Definition at_ (offset : nat) : CodeSelection := mkSelection offset offset.

Definition cursor (self : CodeSelection) : nat := sel_head self.

Definition range (self : CodeSelection) : nat * nat :=
  if anchor self <=? sel_head self then (anchor self, sel_head self) else (sel_head self, anchor self).

Definition is_empty (self : CodeSelection) : bool := anchor self =? sel_head self.

Definition collapse_to (self : CodeSelection) (offset : nat) : CodeSelection := mkSelection offset offset.

Definition extend_to (self : CodeSelection) (offset : nat) : CodeSelection :=
  mkSelection (anchor self) offset.

Definition apply (self : CodeSelection) (offset : nat) (extend : bool) : CodeSelection :=
  if extend then extend_to self offset else collapse_to self offset.
End CodeSelection.

Section cursor.
Context `{Rope} `{Graphemes}.

Definition is_word_char (c : N) : bool := is_alphanumeric c || (c =? 95)%N.

Definition row_of (doc : CodeDocument.t) (offset : nat) : option (nat * (nat * nat)) :=
  row ← CodeDocument.byte_to_line doc offset;
  range ← CodeDocument.line_byte_range doc row;
  Some (row, default (CodeDocument.len_bytes doc, CodeDocument.len_bytes doc) range).

(** The loop over the indices; [inl] is the value it returns from inside. *)
Fixpoint snap_loop (indices : list nat) (local last : nat) : nat + nat :=
  match indices with
  | [] => inr last
  | idx :: indices => if local <? idx then inl last else snap_loop indices local idx
  end.

Definition snap_local_to_grapheme (line : str) (local : nat) : nat :=
  let local := Nat.min local (byte_len line) in
  match snap_loop (piece_indices 0 (graphemes line)) local 0 with
  | inl last => last
  | inr last => if byte_len line <=? local then byte_len line else last
  end.

Definition clamp (doc : CodeDocument.t) (offset : nat) : option nat :=
  offset ← CodeDocument.snap_to_boundary doc offset;
  '(row, (start, end_)) ← row_of doc offset;
  if offset <=? start then Some start
  else if end_ <=? offset then Some end_
  else
    line ← CodeDocument.line_string doc row;
    Some (match line with
          | Some line => start + snap_local_to_grapheme line (offset - start)
          | None => end_
          end).

Definition offset_at_column (doc : CodeDocument.t) (row col : nat) : option nat :=
  let row := Nat.min row (CodeDocument.line_count doc - 1) in
  range ← CodeDocument.line_byte_range doc row;
  match range with
  | None => Some (CodeDocument.len_bytes doc)
  | Some (start, _) =>
      slice ← CodeDocument.line doc row;
      match slice with
      | None => Some start
      | Some slice =>
          let col := Nat.min col (rope_len_chars slice) in
          local ← rope_char_to_byte slice col;
          clamp doc (start + local)
      end
  end.

Definition goal_column (doc : CodeDocument.t) (offset : nat) : option nat :=
  '(row, (start, _)) ← row_of doc offset;
  slice ← CodeDocument.line doc row;
  match slice with
  | None => Some 0
  | Some slice =>
      let local := Nat.min (offset - start) (rope_len_bytes slice) in
      rope_byte_to_char slice local
  end.

Definition grapheme_left (doc : CodeDocument.t) (offset : nat) : option nat :=
  '(row, (start, _)) ← row_of doc offset;
  if offset <=? start then
    if row =? 0 then Some 0
    else
      range ← CodeDocument.line_byte_range doc (row - 1);
      Some (match range with Some (_, end_) => end_ | None => start end)
  else
    line ← CodeDocument.line_string doc row;
    match line with
    | None => Some start
    | Some line =>
        let local := Nat.min (offset - start) (byte_len line) in
        head ← str_slice line 0 local;
        Some (start + default 0 (last (piece_indices 0 (graphemes head))))
    end.

Definition grapheme_right (doc : CodeDocument.t) (offset : nat) : option nat :=
  '(row, (start, end_)) ← row_of doc offset;
  if end_ <=? offset then
    if CodeDocument.line_count doc <=? row + 1 then Some end_
    else CodeDocument.line_to_byte doc (row + 1)
  else
    line ← CodeDocument.line_string doc row;
    match line with
    | None => Some end_
    | Some line =>
        local ← checked_sub offset start;
        let local := Nat.min local (byte_len line) in
        tail ← str_slice line local (byte_len line);
        Some (start + match head (graphemes tail) with
                      | Some g => local + byte_len g
                      | None => byte_len line
                      end)
    end.

(** [while i > 0 && p(chars[i - 1].1) { i -= 1; }] *)
Fixpoint skip_back (p : N → bool) (chars : list (nat * N)) (i : nat) : nat :=
  match i with
  | O => 0
  | S i' =>
      match chars !! i' with
      | Some (_, c) => if p c then skip_back p chars i' else i
      | None => i
      end
  end.

(** [while i < chars.len() && p(chars[i].1) { i += 1; }], [rest] the characters
    from [i] on. *)
Fixpoint skip_forward (p : N → bool) (rest : list (nat * N)) (i : nat) : nat :=
  match rest with
  | (_, c) :: rest => if p c then skip_forward p rest (i + 1) else i
  | [] => i
  end.

(** The characters of the word, or of the run of other characters, of [c]. *)
Definition like (c c' : N) : bool :=
  negb (char_is_whitespace c') && Bool.eqb (is_word_char c') (is_word_char c).

Definition word_left (doc : CodeDocument.t) (offset : nat) : option nat :=
  '(row, (start, _)) ← row_of doc offset;
  if offset <=? start then grapheme_left doc offset
  else
    line ← CodeDocument.line_string doc row;
    match line with
    | None => Some start
    | Some line =>
        let local := Nat.min (offset - start) (byte_len line) in
        head ← str_slice line 0 local;
        let head := char_indices 0 head in
        let i := skip_back char_is_whitespace head (length head) in
        let i := match i with
                 | O => i
                 | S i' => match head !! i' with
                           | Some (_, c) => skip_back (like c) head i
                           | None => i
                           end
                 end in
        Some (start + match head !! i with Some (b, _) => b | None => local end)
    end.

Definition word_right (doc : CodeDocument.t) (offset : nat) : option nat :=
  '(row, (start, end_)) ← row_of doc offset;
  if end_ <=? offset then grapheme_right doc offset
  else
    line ← CodeDocument.line_string doc row;
    match line with
    | None => Some end_
    | Some line =>
        local ← checked_sub offset start;
        let local := Nat.min local (byte_len line) in
        tail ← str_slice line local (byte_len line);
        let tail := char_indices 0 tail in
        let i := skip_forward char_is_whitespace tail 0 in
        let i := match tail !! i with
                 | Some (_, c) => skip_forward (like c) (drop i tail) i
                 | None => i
                 end in
        Some (start + match tail !! i with Some (b, _) => local + b | None => byte_len line end)
    end.

Definition line_home (doc : CodeDocument.t) (offset : nat) : option nat :=
  '(_, (start, _)) ← row_of doc offset; Some start.

Definition line_end (doc : CodeDocument.t) (offset : nat) : option nat :=
  '(_, (_, end_)) ← row_of doc offset; Some end_.

Definition doc_end (doc : CodeDocument.t) : nat := CodeDocument.len_bytes doc.

Definition vertical (doc : CodeDocument.t) (offset goal : nat) (delta : Z) : option nat :=
  row ← CodeDocument.byte_to_line doc offset;
  let last := Z.of_nat (CodeDocument.line_count doc - 1) in
  let target := Z.to_nat (Z.min (Z.max (Z.of_nat row + delta) 0) last) in
  offset_at_column doc target goal.

(** The class of a character in [word_range_at]. *)
Definition char_class (c : N) : nat :=
  if char_is_whitespace c then 0 else if is_word_char c then 1 else 2.

Definition word_range_at (doc : CodeDocument.t) (offset : nat) : option (nat * nat) :=
  '(row, (start, end_)) ← row_of doc offset;
  line ← CodeDocument.line_string doc row;
  match line with
  | None => Some (start, end_)
  | Some line =>
      if bool_decide (line = []) then Some (start, end_)
      else
        local ← checked_sub offset start;
        let local := Nat.min local (byte_len line) in
        let chars := char_indices 0 line in
        let at_ := length (filter (λ c, c.1 < local) chars) in
        at_ ← (if length chars <=? at_ then Some (length chars - 1)
               else c ← chars !! at_;
                    if local <? c.1 then checked_sub at_ 1 else Some at_);
        pivot ← chars !! at_;
        at_ ← (if (0 <? at_) && char_is_whitespace pivot.2 then
                 c ← chars !! (at_ - 1); Some (if is_word_char c.2 then at_ - 1 else at_)
               else Some at_);
        pivot ← chars !! at_;
        let want := char_class pivot.2 in
        if want =? 2 then
          Some (start + pivot.1,
                start + match chars !! (at_ + 1) with Some (b, _) => b | None => byte_len line end)
        else
          let s := skip_back (λ c, char_class c =? want) chars at_ in
          let e := skip_forward (λ c, char_class c =? want) (drop (at_ + 1) chars) (at_ + 1) in
          first ← chars !! s;
          Some (start + first.1,
                start + match chars !! e with Some (b, _) => b | None => byte_len line end)
  end.

Definition line_range_at (doc : CodeDocument.t) (offset : nat) : option (nat * nat) :=
  '(row, (start, end_)) ← row_of doc offset;
  end_ ← (if row + 1 <? CodeDocument.line_count doc then CodeDocument.line_to_byte doc (row + 1)
          else Some end_);
  Some (start, end_).
End cursor.
