(* ===== verification/EditCursorCorrect.v ===== *)
(** * The editor: the caret moves over a grid of clusters

    A position is a row and a cluster of the row.  The offsets that [clamp] gives
    are those of the positions, and the motions refine the motions of the grid. *)

From S2P Require Import Prelude DiffRange DiffText DiffUtf8 EditDocument EditDocumentCorrect EditSplice EditSpliceCorrect EditCursor.

(** ** Pieces and bytes *)

(** The pieces that byte [b] is past. *)
Fixpoint whole (gs : list str) (b : nat) : nat :=
  match gs with
  | [] => 0
  | g :: gs => if b <? byte_len g then 0 else S (whole gs (b - byte_len g))
  end.

Definition prefix_len (gs : list str) (k : nat) : nat := byte_len (mjoin (take k gs)).

Lemma prefix_len_0 gs : prefix_len gs 0 = 0.
Proof. done. Qed.

Lemma prefix_len_cons g gs k : prefix_len (g :: gs) (S k) = byte_len g + prefix_len gs k.
Proof. unfold prefix_len. simpl. apply byte_len_app. Qed.

Lemma prefix_len_all gs k : length gs ≤ k → prefix_len gs k = byte_len (mjoin gs).
Proof. intros. unfold prefix_len. by rewrite take_ge. Qed.

Lemma whole_le gs b : whole gs b ≤ length gs.
Proof.
  revert b. induction gs as [|g gs IH]; intros b; simpl; [lia|]. case_match; [lia|].
  specialize (IH (b - byte_len g)). lia.
Qed.

Lemma whole_prefix gs k : Forall (λ g, g ≠ []) gs → k ≤ length gs → whole gs (prefix_len gs k) = k.
Proof.
  intros Hgs. revert k. induction Hgs as [|g gs Hg Hgs IH]; intros k Hk; [simpl in *; lia|].
  pose proof (byte_len_nonempty g Hg). destruct k as [|k].
  - change (prefix_len (g :: gs) 0) with 0. cbn [whole]. by rewrite (proj2 (Nat.ltb_lt _ _)) by lia.
  - rewrite prefix_len_cons. cbn [whole]. rewrite (proj2 (Nat.ltb_ge _ _)) by lia.
    rewrite Nat.add_comm, Nat.add_sub. f_equal. apply IH. simpl in Hk. lia.
Qed.

Lemma prefix_len_mono gs j k : Forall (λ g, g ≠ []) gs → j < k → k ≤ length gs → prefix_len gs j < prefix_len gs k.
Proof.
  intros Hgs. revert j k. induction Hgs as [|g gs Hg Hgs IH]; intros j k Hjk Hk; [simpl in *; lia|].
  pose proof (byte_len_nonempty g Hg). destruct k as [|k]; [lia|]. rewrite prefix_len_cons. simpl in Hk.
  destruct j as [|j]; [unfold prefix_len at 1; cbn; lia|]. rewrite prefix_len_cons.
  specialize (IH j k). lia.
Qed.

(** The loop finds the last boundary up to [b]. *)
Lemma snap_loop_spec gs from b last :
  gs ≠ [] →
  match snap_loop (piece_indices from gs) (from + b) last with
  | inl x => x
  | inr x => if from + byte_len (mjoin gs) <=? from + b then from + byte_len (mjoin gs) else x
  end = from + prefix_len gs (whole gs b).
Proof.
  revert from b last. induction gs as [|g gs IH]; intros from b last Hne; [done|].
  cbn [piece_indices snap_loop whole]. rewrite (proj2 (Nat.ltb_ge _ _)) by lia.
  destruct gs as [|g' gs].
  - cbn [piece_indices snap_loop mjoin list_join]. rewrite app_nil_r.
    destruct (Nat.ltb_spec b (byte_len g)).
    + rewrite (proj2 (Nat.leb_gt _ _)) by lia. unfold prefix_len. cbn. lia.
    + rewrite (proj2 (Nat.leb_le _ _)) by lia. unfold prefix_len. cbn. by rewrite app_nil_r.
  - destruct (Nat.ltb_spec b (byte_len g)) as [Hlt|Hge].
    + cbn [piece_indices snap_loop]. rewrite (proj2 (Nat.ltb_lt _ _)) by lia. unfold prefix_len. cbn. lia.
    + rewrite prefix_len_cons. specialize (IH (from + byte_len g) (b - byte_len g) from ltac:(done)).
      replace (from + byte_len g + (b - byte_len g)) with (from + b) in IH by lia.
      rewrite Nat.add_assoc, <- IH. cbn [mjoin list_join]. rewrite !byte_len_app, !Nat.add_assoc. done.
Qed.

Section snap.
Context `{Hg : Graphemes, Hglaws : !GraphemesLaws}.

Lemma graphemes_nil : graphemes [] = [].
Proof.
  destruct (graphemes []) as [|g gs] eqn:Hgs; [done|]. pose proof (graphemes_nonempty []) as Hne.
  pose proof (graphemes_join []) as Hj. rewrite Hgs in *. apply Forall_cons in Hne as [Hne _].
  simpl in Hj. by apply app_nil in Hj as [-> _].
Qed.

Lemma graphemes_not_nil s : s ≠ [] → graphemes s ≠ [].
Proof. intros Hs Hgs. pose proof (graphemes_join s) as Hj. rewrite Hgs in Hj. by subst. Qed.

Lemma snap_local_spec line b :
  b ≤ byte_len line →
  snap_local_to_grapheme line b = prefix_len (graphemes line) (whole (graphemes line) b).
Proof.
  intros Hb. unfold snap_local_to_grapheme. rewrite Nat.min_l by done.
  destruct (decide (line = [])) as [->|Hne].
  - rewrite graphemes_nil. cbn in *. assert (b = 0) as -> by lia. done.
  - pose proof (snap_loop_spec (graphemes line) 0 b 0 (graphemes_not_nil _ Hne)) as Hsnap.
    rewrite graphemes_join in Hsnap. exact Hsnap.
Qed.
End snap.

(** ** The grid *)

Lemma newlines_before_row s r l :
  split_lines s !! r = Some l → newlines (mjoin (take r (pieces s))) = r.
Proof.
  intros Hl. unfold pieces. rewrite <- (take_drop_middle _ _ _ Hl), with_newlines_app.
  pose proof (lookup_lt_Some _ _ _ Hl) as Hlt.
  rewrite take_app_length' by (rewrite length_fmap, length_take; lia).
  assert (Forall (λ l', newlines l' = 0) (take r (split_lines s))) as Hall.
  { apply Forall_take, Forall_lookup. intros i l' Hl'. by eapply newlines_line. }
  assert (length (take r (split_lines s)) = r) as Hlen by (rewrite length_take; lia).
  rewrite <- Hlen at 2. clear Hlen. induction Hall as [|l' ls Hl' _ IH]; [done|].
  rewrite fmap_cons. cbn [mjoin list_join]. rewrite !newlines_app, (newlines_cons 10 []), Hl'.
  cbn [length]. cbn. f_equal. exact IH.
Qed.

Section grid.
Context `{Hrope : Rope, Hlaws : !RopeLaws} `{Hg : Graphemes, Hglaws : !GraphemesLaws}.
Implicit Types d : CodeDocument.t.

Definition row_line (s : str) (r : nat) : str := chomp (default [] (split_lines s !! r)).

Definition clusters (s : str) (r : nat) : list str := graphemes (row_line s r).

Definition valid (s : str) (pos : nat * nat) : Prop :=
  pos.1 < length (split_lines s) ∧ pos.2 ≤ length (clusters s pos.1).

Definition offset_of (s : str) (pos : nat * nat) : nat :=
  line_offset s pos.1 + prefix_len (clusters s pos.1) pos.2.

(** The end of a row. *)
Definition row_end (s : str) (r : nat) : nat * nat := (r, length (clusters s r)).

Lemma clusters_nonempty s r : Forall (λ g, g ≠ []) (clusters s r).
Proof. apply graphemes_nonempty. Qed.

Lemma row_line_lookup s r l : split_lines s !! r = Some l → row_line s r = chomp l.
Proof. intros Hl. unfold row_line. by rewrite Hl. Qed.

Lemma offset_row_end s r : offset_of s (row_end s r) = line_offset s r + byte_len (row_line s r).
Proof.
  unfold offset_of, row_end. cbn [fst snd]. rewrite prefix_len_all by done. unfold clusters.
  by rewrite graphemes_join.
Qed.

(** A cut inside a row. *)
Lemma row_of_cut d r l x y :
  split_lines (contents d) !! r = Some l → l = x ++ y →
  row_of d (line_offset (contents d) r + byte_len x) =
    Some (r, (line_offset (contents d) r, line_offset (contents d) r + byte_len (row_line (contents d) r))).
Proof.
  intros Hl Hxy. destruct (pieces_lookup _ _ _ Hl) as (nl&q&_&Hs&_).
  set (P := mjoin (take r (pieces (contents d)))) in *.
  change (line_offset (contents d) r) with (byte_len P). rewrite <- byte_len_app.
  assert (contents d = (P ++ x) ++ y ++ nl ++ q) as Hd.
  { rewrite Hs at 1. rewrite Hxy. by rewrite <- !app_assoc. }
  unfold row_of, CodeDocument.byte_to_line. rewrite len_bytes_law, byte_to_line_law. fold (contents d).
  rewrite Nat.min_l by (rewrite Hd, (byte_len_app (P ++ x)); lia).
  unfold up_to. rewrite (proj2 (Nat.leb_le _ _)) by (rewrite Hd, (byte_len_app (P ++ x)); lia).
  cbn [mbind option_bind].
  assert (line_of_byte (contents d) (byte_len (P ++ x)) = r) as ->.
  { rewrite Hd at 1. rewrite line_of_byte_app, newlines_app. subst P. rewrite (newlines_before_row _ _ _ Hl).
    pose proof (newlines_line _ _ _ Hl) as Hnl. rewrite Hxy, newlines_app in Hnl. lia. }
  rewrite (line_byte_range_spec d r l Hl). cbn. by rewrite (row_line_lookup _ _ _ Hl).
Qed.

Lemma row_line_prefix s r l : split_lines s !! r = Some l → ∃ t, l = row_line s r ++ t.
Proof. intros Hl. rewrite (row_line_lookup _ _ _ Hl). apply chomp_prefix. Qed.

(** The text of a row up to a cluster, and after it. *)
Lemma clusters_cut s r k :
  row_line s r = mjoin (take k (clusters s r)) ++ mjoin (drop k (clusters s r)).
Proof. unfold clusters. by rewrite <- join_app, take_drop, graphemes_join. Qed.

Lemma row_of_pos d r k :
  r < length (split_lines (contents d)) →
  row_of d (offset_of (contents d) (r, k)) =
    Some (r, (line_offset (contents d) r, line_offset (contents d) r + byte_len (row_line (contents d) r))).
Proof.
  intros Hr. apply lookup_lt_is_Some_2 in Hr as [l Hl]. destruct (row_line_prefix _ _ _ Hl) as [t Ht].
  unfold offset_of, prefix_len. cbn [fst snd].
  apply (row_of_cut d r l _ (mjoin (drop k (clusters (contents d) r)) ++ t)); [done|].
  by rewrite app_assoc, <- clusters_cut.
Qed.

Lemma line_string_row d r :
  r < length (split_lines (contents d)) →
  CodeDocument.line_string d r = Some (Some (row_line (contents d) r)).
Proof.
  intros Hr. rewrite line_string_spec. apply lookup_lt_is_Some_2 in Hr as [l Hl].
  by rewrite Hl, (row_line_lookup _ _ _ Hl).
Qed.

Lemma line_byte_range_row d r :
  r < length (split_lines (contents d)) →
  CodeDocument.line_byte_range d r =
    Some (Some (line_offset (contents d) r, line_offset (contents d) r + byte_len (row_line (contents d) r))).
Proof.
  intros Hr. apply lookup_lt_is_Some_2 in Hr as [l Hl].
  by rewrite (line_byte_range_spec d r l Hl), (row_line_lookup _ _ _ Hl).
Qed.

(** ** Clamping *)

(** Every cut of the text is in a row. *)
Lemma cut_in_row s b :
  ∃ r l x y, split_lines s !! r = Some l ∧ l = x ++ y ∧ byte_len (before s b) = line_offset s r + byte_len x.
Proof.
  destruct (split_lines_app (before s b) (after s b)) as (init&a&c&rest&Hp&_&Hs&Hlen).
  rewrite before_after in Hs. exists (length init), (a ++ c), a, c. split_and!; [|done|].
  - by rewrite Hs, lookup_app_r, Nat.sub_diag by done.
  - pose proof (line_offset_app (before s b) (after s b)) as Hoff. rewrite before_after in Hoff.
    rewrite Hlen. unfold last_line in Hoff. rewrite Hp, last_snoc in Hoff. simpl in Hoff. lia.
Qed.

Lemma whole_end s r b : byte_len (row_line s r) ≤ b → whole (clusters s r) b = length (clusters s r).
Proof.
  unfold clusters. rewrite <- (graphemes_join (row_line s r)) at 1. generalize (graphemes (row_line s r)).
  intros gs. revert b. induction gs as [|g gs IH]; intros b Hb; [done|]. simpl in *.
  rewrite byte_len_app in Hb. rewrite (proj2 (Nat.ltb_ge _ _)) by lia. by rewrite IH by lia.
Qed.

Lemma whole_0 s r : whole (clusters s r) 0 = 0.
Proof.
  pose proof (clusters_nonempty s r) as Hne. destruct (clusters s r) as [|g gs]; [done|].
  apply Forall_cons in Hne as [Hne _]. pose proof (byte_len_nonempty g Hne).
  cbn [whole]. by rewrite (proj2 (Nat.ltb_lt _ _)) by lia.
Qed.

(** A cut of a row is a cut of the text. *)
Lemma cut_of_row s r l x y :
  split_lines s !! r = Some l → l = x ++ y →
  ∃ p q, s = p ++ q ∧ byte_len p = line_offset s r + byte_len x.
Proof.
  intros Hl Hxy. destruct (pieces_lookup _ _ _ Hl) as (nl&q&_&Hs&_).
  exists (mjoin (take r (pieces s)) ++ x), (y ++ nl ++ q). split; [|apply byte_len_app].
  rewrite Hs at 1. rewrite Hxy. by rewrite <- !app_assoc.
Qed.

Lemma clamp_cut d r l x y :
  let s := contents d in
  split_lines s !! r = Some l → l = x ++ y →
  clamp d (line_offset s r + byte_len x) = Some (offset_of s (r, whole (clusters s r) (byte_len x))).
Proof.
  intros s Hl Hxy. destruct (cut_of_row s r l x y Hl Hxy) as (p&q&Hs&Hp).
  pose proof (lookup_lt_Some _ _ _ Hl) as Hr. unfold clamp. rewrite <- Hp at 1.
  rewrite (snap_app d p q Hs). cbn [mbind option_bind]. rewrite Hp.
  pose proof (row_of_cut d r l x y Hl Hxy) as Hrow. fold s in Hrow. rewrite Hrow.
  cbn [mbind option_bind]. unfold offset_of. cbn [fst snd].
  destruct (Nat.leb_spec (line_offset s r + byte_len x) (line_offset s r)) as [Hx|Hx].
  - assert (byte_len x = 0) as -> by lia. by rewrite whole_0, prefix_len_0, Nat.add_0_r.
  - destruct (Nat.leb_spec (line_offset s r + byte_len (row_line s r)) (line_offset s r + byte_len x)) as [He|He].
    + rewrite whole_end by lia. rewrite prefix_len_all by done. unfold clusters. by rewrite graphemes_join.
    + rewrite (line_string_row d r Hr). cbn [mbind option_bind]. fold s.
      replace (line_offset s r + byte_len x - line_offset s r) with (byte_len x) by lia.
      by rewrite snap_local_spec by lia.
Qed.

Lemma clamp_snap d b : clamp d b = clamp d (byte_len (before (contents d) b)).
Proof. unfold clamp. by rewrite !snap_spec, before_before. Qed.

(** The position that an offset is clamped to. *)
Lemma clamp_run d b :
  ∃ pos, valid (contents d) pos ∧ clamp d b = Some (offset_of (contents d) pos).
Proof.
  destruct (cut_in_row (contents d) b) as (r&l&x&y&Hl&Hxy&Hb).
  exists (r, whole (clusters (contents d) r) (byte_len x)).
  rewrite clamp_snap, Hb, (clamp_cut d r l x y Hl Hxy). split; [|done].
  split; [by eapply lookup_lt_Some|apply whole_le].
Qed.

(** A position is a cut of its row. *)
Lemma pos_cut s pos :
  valid s pos →
  ∃ l y, split_lines s !! pos.1 = Some l ∧ l = mjoin (take pos.2 (clusters s pos.1)) ++ y.
Proof.
  intros [Hr _]. apply lookup_lt_is_Some_2 in Hr as [l Hl]. destruct (row_line_prefix _ _ _ Hl) as [t Ht].
  exists l, (mjoin (drop pos.2 (clusters s pos.1)) ++ t). split; [done|].
  by rewrite app_assoc, <- clusters_cut.
Qed.

(** Clamping leaves the positions of the grid where they are. *)
Lemma clamp_pos d pos :
  valid (contents d) pos → clamp d (offset_of (contents d) pos) = Some (offset_of (contents d) pos).
Proof.
  intros Hv. destruct (pos_cut _ _ Hv) as (l&y&Hl&Hy). unfold offset_of, prefix_len.
  rewrite (clamp_cut d _ _ _ _ Hl Hy). unfold offset_of. cbn [fst snd]. fold (prefix_len (clusters (contents d) pos.1) pos.2).
  rewrite whole_prefix; [done|apply clusters_nonempty|apply Hv].
Qed.

(** ** Motions *)

Definition right (s : str) (pos : nat * nat) : nat * nat :=
  if pos.2 <? length (clusters s pos.1) then (pos.1, S pos.2)
  else if pos.1 + 1 <? length (split_lines s) then (pos.1 + 1, 0)
  else pos.

Definition left (s : str) (pos : nat * nat) : nat * nat :=
  match pos.2, pos.1 with
  | S k, r => (r, k)
  | O, S r => row_end s r
  | O, O => (0, 0)
  end.

Lemma right_valid s pos : valid s pos → valid s (right s pos).
Proof.
  destruct pos as [r k]. unfold valid, right. cbn [fst snd]. intros [Hr Hk].
  destruct (Nat.ltb_spec k (length (clusters s r))); [simpl; lia|].
  destruct (Nat.ltb_spec (r + 1) (length (split_lines s))); simpl; lia.
Qed.

Lemma left_valid s pos : valid s pos → valid s (left s pos).
Proof. destruct pos as [[|r] [|k]]; unfold valid, left, row_end; simpl; lia. Qed.

Lemma left_right s pos : valid s pos → right s pos ≠ pos → left s (right s pos) = pos.
Proof.
  destruct pos as [r k]. unfold valid, right. cbn [fst snd]. intros [Hr Hk].
  destruct (Nat.ltb_spec k (length (clusters s r))); [done|].
  destruct (Nat.ltb_spec (r + 1) (length (split_lines s))); [|done]. intros _.
  rewrite Nat.add_1_r. unfold left, row_end. f_equal. lia.
Qed.

Lemma prefix_len_end s r : prefix_len (clusters s r) (length (clusters s r)) = byte_len (row_line s r).
Proof. rewrite prefix_len_all by done. unfold clusters. by rewrite graphemes_join. Qed.

Lemma at_end_iff s r k :
  k ≤ length (clusters s r) →
  (line_offset s r + byte_len (row_line s r) <=? offset_of s (r, k)) = negb (k <? length (clusters s r)).
Proof.
  intros Hk. unfold offset_of. cbn [fst snd]. rewrite <- prefix_len_end.
  destruct (Nat.ltb_spec k (length (clusters s r))) as [Hlt|Hge]; simpl.
  - pose proof (prefix_len_mono _ k _ (clusters_nonempty s r) Hlt). apply Nat.leb_gt. lia.
  - assert (k = length (clusters s r)) as -> by lia. by apply Nat.leb_le.
Qed.

Lemma at_start_iff s r k :
  k ≤ length (clusters s r) → (offset_of s (r, k) <=? line_offset s r) = (k =? 0).
Proof.
  intros Hk. unfold offset_of. cbn [fst snd]. destruct k as [|k].
  - rewrite prefix_len_0, Nat.add_0_r. by rewrite Nat.leb_refl.
  - pose proof (prefix_len_mono _ 0 (S k) (clusters_nonempty s r)) as Hm. rewrite prefix_len_0 in Hm.
    rewrite (proj2 (Nat.leb_gt _ _)) by lia. done.
Qed.

Lemma offset_sub s r k : offset_of s (r, k) - line_offset s r = prefix_len (clusters s r) k.
Proof. unfold offset_of. cbn [fst snd]. lia. Qed.

Lemma prefix_len_row s r k : k ≤ length (clusters s r) → prefix_len (clusters s r) k ≤ byte_len (row_line s r).
Proof. intros. rewrite (clusters_cut s r k), byte_len_app. unfold prefix_len. lia. Qed.

Lemma line_to_byte_row d r :
  r < length (split_lines (contents d)) → CodeDocument.line_to_byte d r = Some (line_offset (contents d) r).
Proof.
  intros Hr. unfold CodeDocument.line_to_byte. rewrite len_lines_law, line_to_byte_law. fold (contents d).
  rewrite Nat.min_l by lia. unfold up_to. by rewrite (proj2 (Nat.leb_le _ _)) by lia.
Qed.

(** The row, sliced at a cluster. *)
Lemma slice_tail s r k :
  str_slice (row_line s r) (prefix_len (clusters s r) k) (byte_len (row_line s r)) =
    Some (mjoin (drop k (clusters s r))).
Proof.
  rewrite (clusters_cut s r k). pose proof (str_slice_app (mjoin (take k (clusters s r))) (mjoin (drop k (clusters s r))) []) as Hslice.
  by rewrite app_nil_r in Hslice.
Qed.

Lemma slice_head s r k :
  str_slice (row_line s r) 0 (prefix_len (clusters s r) k) = Some (mjoin (take k (clusters s r))).
Proof.
  rewrite (clusters_cut s r k).
  apply (str_slice_app [] (mjoin (take k (clusters s r))) (mjoin (drop k (clusters s r)))).
Qed.

Lemma grapheme_right_pos d pos :
  valid (contents d) pos →
  grapheme_right d (offset_of (contents d) pos) = Some (offset_of (contents d) (right (contents d) pos)).
Proof.
  destruct pos as [r k]. intros [Hr Hk]. cbn [fst snd] in *. unfold grapheme_right, right. cbn [fst snd].
  rewrite (row_of_pos d r k Hr). cbn [mbind option_bind]. rewrite at_end_iff by done.
  set (s := contents d) in *. destruct (Nat.ltb_spec k (length (clusters s r))) as [Hlt|Hge]; cbn [negb].
  - rewrite (line_string_row d r Hr). cbn [mbind option_bind]. fold s.
    pose proof (offset_sub s r k) as Hsub. pose proof (prefix_len_row s r k Hk).
    rewrite checked_sub_some by (unfold offset_of; cbn [fst snd]; lia). cbn [mbind option_bind].
    rewrite Hsub, Nat.min_l, slice_tail by done. cbn [mbind option_bind].
    assert (graphemes (mjoin (drop k (clusters s r))) = drop k (clusters s r)) as -> by apply graphemes_drop.
    destruct (lookup_lt_is_Some_2 _ _ Hlt) as [g Hk'].
    rewrite (drop_S _ _ _ Hk'). cbn [head]. f_equal. unfold offset_of, prefix_len. cbn [fst snd].
    rewrite (take_S_r _ _ _ Hk'), join_app, byte_len_app. cbn [mjoin list_join]. rewrite app_nil_r. lia.
  - unfold CodeDocument.line_count. rewrite len_lines_law. fold (contents d) s.
    destruct (Nat.ltb_spec (r + 1) (length (split_lines s))) as [Hr'|Hr'].
    + rewrite (proj2 (Nat.leb_gt _ _)) by lia. rewrite (line_to_byte_row d (r + 1) Hr').
      unfold offset_of. cbn [fst snd]. fold s. by rewrite prefix_len_0, Nat.add_0_r.
    + rewrite (proj2 (Nat.leb_le _ _)) by lia. unfold offset_of. cbn [fst snd].
      assert (k = length (clusters s r)) as -> by lia. by rewrite prefix_len_end.
Qed.

Lemma last_piece_index gs from k g :
  gs !! k = Some g → last (piece_indices from (take (S k) gs)) = Some (from + prefix_len gs k).
Proof.
  revert from k. induction gs as [|g' gs IH]; intros from k Hk; [done|]. destruct k as [|k].
  - rewrite prefix_len_0, Nat.add_0_r. by destruct gs.
  - cbn [take firstn piece_indices]. rewrite last_cons. unfold take in *.
    rewrite (IH _ _ Hk), prefix_len_cons. f_equal. lia.
Qed.

Lemma grapheme_left_pos d pos :
  valid (contents d) pos →
  grapheme_left d (offset_of (contents d) pos) = Some (offset_of (contents d) (left (contents d) pos)).
Proof.
  destruct pos as [r k]. intros [Hr Hk]. cbn [fst snd] in *. unfold grapheme_left.
  rewrite (row_of_pos d r k Hr). cbn [mbind option_bind]. rewrite at_start_iff by done.
  set (s := contents d) in *. destruct k as [|k]; cbn [Nat.eqb].
  - destruct r as [|r]; cbn [Nat.eqb left].
    + cbn [fst snd]. by unfold offset_of; rewrite prefix_len_0.
    + rewrite Nat.sub_succ, Nat.sub_0_r. rewrite (line_byte_range_row d r) by (fold s; lia).
      cbn [mbind option_bind]. symmetry. f_equal. apply offset_row_end.
  - rewrite (line_string_row d r Hr). cbn [mbind option_bind left]. fold s.
    rewrite offset_sub, Nat.min_l by by apply prefix_len_row.
    rewrite slice_head. cbn [mbind option_bind].
    assert (graphemes (mjoin (take (S k) (clusters s r))) = take (S k) (clusters s r)) as -> by apply graphemes_take.
    destruct (lookup_lt_is_Some_2 (clusters s r) k) as [g Hg']; [lia|].
    by rewrite (last_piece_index _ 0 k g Hg').
Qed.

(** ** Up and down *)

(** The characters before a cluster, and the cluster of a character of a row. *)
Definition column_of (s : str) (pos : nat * nat) : nat := length (mjoin (take pos.2 (clusters s pos.1))).

Definition at_column (s : str) (row col : nat) : nat * nat :=
  (row, whole (clusters s row) (byte_len (take col (row_line s row)))).

(** The row [delta] rows away, within the text. *)
Definition row_by (s : str) (row : nat) (delta : Z) : nat :=
  Z.to_nat (Z.min (Z.max (Z.of_nat row + delta) 0) (Z.of_nat (length (split_lines s) - 1))).

Lemma at_column_valid s row col : row < length (split_lines s) → valid s (at_column s row col).
Proof. intros Hr. split; [done|apply whole_le]. Qed.

Lemma at_column_of s pos : valid s pos → at_column s pos.1 (column_of s pos) = pos.
Proof.
  destruct pos as [r k]. intros [Hr Hk]. unfold at_column, column_of. cbn [fst snd] in *.
  rewrite (clusters_cut s r k), take_app_length.
  fold (prefix_len (clusters s r) k). by rewrite whole_prefix by (done || apply clusters_nonempty).
Qed.

Lemma row_by_lt s row delta : row_by s row delta < length (split_lines s).
Proof. unfold row_by. rewrite split_lines_length. lia. Qed.

Lemma line_row d r :
  r < length (split_lines (contents d)) →
  ∃ slice, CodeDocument.line d r = Some (Some slice) ∧ to_str slice = row_line (contents d) r.
Proof.
  intros Hr. apply lookup_lt_is_Some_2 in Hr as [l Hl].
  destruct (line_spec d r l Hl) as (slice&Hline&Hslice). exists slice.
  by rewrite Hslice, (row_line_lookup _ _ _ Hl).
Qed.

Lemma goal_column_pos d pos :
  valid (contents d) pos → goal_column d (offset_of (contents d) pos) = Some (column_of (contents d) pos).
Proof.
  destruct pos as [r k]. intros [Hr Hk]. cbn [fst snd] in *. unfold goal_column.
  rewrite (row_of_pos d r k Hr). cbn [mbind option_bind].
  destruct (line_row d r Hr) as (slice&->&Hslice). cbn [mbind option_bind].
  rewrite offset_sub, len_bytes_law, Hslice, Nat.min_l by by apply prefix_len_row.
  apply (byte_to_char_app _ _ (mjoin (drop k (clusters (contents d) r)))). by rewrite Hslice, <- clusters_cut.
Qed.

Lemma offset_at_column_spec d row col :
  offset_at_column d row col =
    Some (offset_of (contents d) (at_column (contents d) (row `min` (length (split_lines (contents d)) - 1)) col)).
Proof.
  unfold offset_at_column, CodeDocument.line_count. rewrite len_lines_law. fold (contents d).
  set (r := row `min` _). assert (r < length (split_lines (contents d))) as Hr
    by (subst r; rewrite split_lines_length; lia).
  rewrite (line_byte_range_row d r Hr). cbn [mbind option_bind].
  destruct (line_row d r Hr) as (slice&->&Hslice). cbn [mbind option_bind].
  rewrite len_chars_law, Hslice. set (line := row_line (contents d) r) in *.
  assert (take (col `min` length line) line = take col line) as Htake.
  { destruct (decide (col ≤ length line)); [by rewrite Nat.min_l|].
    rewrite Nat.min_r by lia. by rewrite !take_ge by lia. }
  assert (rope_char_to_byte slice (col `min` length line) = Some (byte_len (take col line))) as ->.
  { rewrite char_to_byte_law, Hslice. unfold up_to, byte_of_char. rewrite (proj2 (Nat.leb_le _ _)) by lia.
    by rewrite Htake. }
  cbn [mbind option_bind]. apply lookup_lt_is_Some_2 in Hr as [l Hl]. destruct (row_line_prefix _ _ _ Hl) as [t Ht].
  apply (clamp_cut d r l (take col line) (drop col line ++ t) Hl). by rewrite app_assoc, take_drop.
Qed.

Lemma byte_to_line_pos d pos :
  valid (contents d) pos → CodeDocument.byte_to_line d (offset_of (contents d) pos) = Some pos.1.
Proof.
  destruct pos as [r k]. intros [Hr _]. pose proof (row_of_pos d r k Hr) as Hrow. unfold row_of in Hrow.
  destruct (CodeDocument.byte_to_line d _) as [r'|]; [|done]. cbn [mbind option_bind] in Hrow.
  destruct (CodeDocument.line_byte_range d r'); [|done]. by injection Hrow as ->.
Qed.

Lemma vertical_pos d pos goal delta :
  valid (contents d) pos →
  vertical d (offset_of (contents d) pos) goal delta =
    Some (offset_of (contents d) (at_column (contents d) (row_by (contents d) pos.1 delta) goal)).
Proof.
  intros Hv. unfold vertical. rewrite (byte_to_line_pos d pos Hv). cbn [mbind option_bind].
  rewrite offset_at_column_spec. unfold CodeDocument.line_count. rewrite len_lines_law. fold (contents d).
  fold (row_by (contents d) pos.1 delta). do 3 f_equal.
  pose proof (row_by_lt (contents d) pos.1 delta). lia.
Qed.

Lemma line_home_pos d pos :
  valid (contents d) pos → line_home d (offset_of (contents d) pos) = Some (offset_of (contents d) (pos.1, 0)).
Proof.
  destruct pos as [r k]. intros [Hr _]. unfold line_home. rewrite (row_of_pos d r k Hr). cbn [mbind option_bind].
  unfold offset_of. cbn [fst snd]. by rewrite prefix_len_0, Nat.add_0_r.
Qed.

Lemma line_end_pos d pos :
  valid (contents d) pos →
  line_end d (offset_of (contents d) pos) = Some (offset_of (contents d) (row_end (contents d) pos.1)).
Proof.
  destruct pos as [r k]. intros [Hr _]. unfold line_end. rewrite (row_of_pos d r k Hr). cbn [mbind option_bind].
  symmetry. f_equal. apply offset_row_end.
Qed.
End grid.

(** ** Words *)

Fixpoint take_while {A} (p : A → bool) (l : list A) : list A :=
  match l with
  | [] => []
  | x :: l => if p x then x :: take_while p l else []
  end.

Lemma take_while_prefix {A} (p : A → bool) l : take (length (take_while p l)) l = take_while p l.
Proof. induction l as [|x l IH]; [done|]. simpl. destruct (p x); [|done]. simpl. f_equal. exact IH. Qed.

Lemma take_while_le {A} (p : A → bool) l : length (take_while p l) ≤ length l.
Proof. induction l as [|x l IH]; [done|]. simpl. destruct (p x); simpl; lia. Qed.

Lemma char_indices_lookup from s i :
  char_indices from s !! i = (λ c, (from + byte_len (take i s), c)) <$> s !! i.
Proof.
  revert from i. induction s as [|c s IH]; intros from [|i]; [done|done|simpl; by rewrite Nat.add_0_r|].
  cbn [char_indices lookup list_lookup]. setoid_rewrite IH. cbn [take firstn]. rewrite byte_len_cons, Nat.add_assoc. done.
Qed.

Lemma char_indices_length from s : length (char_indices from s) = length s.
Proof. revert from. induction s as [|c s IH]; intros from; [done|]. simpl. by rewrite IH. Qed.

Lemma char_indices_chars from s : (char_indices from s).*2 = s.
Proof. revert from. induction s as [|c s IH]; intros from; [done|]. simpl. by rewrite IH. Qed.

Lemma skip_forward_spec p rest i : skip_forward p rest i = i + length (take_while p (rest.*2)).
Proof.
  revert i. induction rest as [|[b c] rest IH]; intros i; [simpl; lia|].
  rewrite fmap_cons. cbn [skip_forward take_while snd].
  destruct (p c); cbn [length]; [rewrite IH|]; lia.
Qed.

Lemma skip_back_spec p s i :
  i ≤ length s →
  skip_back p (char_indices 0 s) i = i - length (take_while p (reverse (take i s))).
Proof.
  induction i as [|i IH]; intros Hi; [done|]. cbn [skip_back]. rewrite char_indices_lookup.
  destruct (lookup_lt_is_Some_2 s i) as [c Hc]; [lia|]. rewrite Hc. cbn [fmap option_fmap option_map].
  rewrite (take_S_r _ _ _ Hc), reverse_snoc. cbn [take_while]. destruct (p c); [|simpl; lia].
  rewrite IH by lia. simpl. done.
Qed.

Section words.
Context `{Hrope : Rope, Hlaws : !RopeLaws} `{Hg : Graphemes, Hglaws : !GraphemesLaws}.
Implicit Types d : CodeDocument.t.

(** The blanks at the head of a text, and the run of characters alike after them. *)
Definition word_skip (y : str) : nat :=
  let n := length (take_while char_is_whitespace y) in
  n + match drop n y with
      | c :: rest => length (take_while (like c) (c :: rest))
      | [] => 0
      end.

Lemma like_refl c : char_is_whitespace c = false → like c c = true.
Proof. unfold like. intros ->. by destruct (is_word_char c). Qed.

Lemma take_while_stop {A} (p : A → bool) l x rest :
  drop (length (take_while p l)) l = x :: rest → p x = false.
Proof.
  induction l as [|y l IH]; [done|]. simpl. destruct (p y) eqn:Hy; [apply IH|]. by intros [= -> _].
Qed.

(** A motion by words leaves no character where it was. *)
Lemma word_skip_positive y : y ≠ [] → 0 < word_skip y ∧ word_skip y ≤ length y.
Proof.
  intros Hy. unfold word_skip. pose proof (take_while_le char_is_whitespace y) as Hle.
  destruct (drop _ y) as [|c rest] eqn:Hd.
  - assert (length (drop (length (take_while char_is_whitespace y)) y) = 0) as Hlen by by rewrite Hd.
    rewrite length_drop in Hlen. destruct y; [done|]. simpl in *. lia.
  - pose proof (take_while_stop _ _ _ _ Hd) as Hc. cbn [take_while]. rewrite like_refl by done.
    assert (length (drop (length (take_while char_is_whitespace y)) y) = S (length rest)) as Hlen by by rewrite Hd.
    rewrite length_drop in Hlen. pose proof (take_while_le (like c) rest). simpl. lia.
Qed.

Lemma skip_forward_word y :
  (let i := skip_forward char_is_whitespace (char_indices 0 y) 0 in
   match char_indices 0 y !! i with
   | Some (_, c) => skip_forward (like c) (drop i (char_indices 0 y)) i
   | None => i
   end) = word_skip y.
Proof.
  cbn zeta. rewrite skip_forward_spec, char_indices_chars, Nat.add_0_l. unfold word_skip.
  set (n := length (take_while char_is_whitespace y)). rewrite char_indices_lookup.
  destruct (y !! n) as [c|] eqn:Hc; cbn [fmap option_fmap option_map].
  - by rewrite skip_forward_spec, fmap_drop, char_indices_chars, (drop_S _ _ _ Hc).
  - rewrite drop_ge by (by apply lookup_ge_None). lia.
Qed.

Lemma word_right_spec d r x y :
  let s := contents d in
  r < length (split_lines s) → row_line s r = x ++ y → y ≠ [] →
  word_right d (line_offset s r + byte_len x) =
    Some (line_offset s r + byte_len (x ++ take (word_skip y) y)).
Proof.
  intros s Hr Hxy Hy. pose proof Hr as Hr'. apply lookup_lt_is_Some_2 in Hr' as [l Hl].
  destruct (row_line_prefix _ _ _ Hl) as [t Ht]. rewrite Hxy, <- app_assoc in Ht.
  unfold word_right. pose proof (row_of_cut d r l x (y ++ t) Hl Ht) as Hrow. fold s in Hrow. rewrite Hrow.
  cbn [mbind option_bind]. pose proof (byte_len_nonempty y Hy). rewrite Hxy, byte_len_app.
  rewrite (proj2 (Nat.leb_gt _ _)) by lia. rewrite (line_string_row d r Hr). fold s. cbn [mbind option_bind].
  rewrite checked_sub_some by lia. cbn [mbind option_bind]. rewrite Hxy.
  replace (line_offset s r + byte_len x - line_offset s r) with (byte_len x) by lia.
  rewrite Nat.min_l by (rewrite byte_len_app; lia).
  pose proof (str_slice_app x y []) as Hslice. rewrite app_nil_r in Hslice. rewrite Hslice.
  cbn [mbind option_bind]. rewrite skip_forward_word, char_indices_lookup.
  destruct (y !! word_skip y) as [c|] eqn:Hc; cbn [fmap option_fmap option_map]; f_equal; f_equal.
  - rewrite byte_len_app. lia.
  - by rewrite take_ge by by apply lookup_ge_None.
Qed.

Lemma skip_back_word x :
  x ≠ [] →
  (let i := skip_back char_is_whitespace (char_indices 0 x) (length (char_indices 0 x)) in
   match i with
   | O => i
   | S i' => match char_indices 0 x !! i' with
             | Some (_, c) => skip_back (like c) (char_indices 0 x) i
             | None => i
             end
   end) = length x - word_skip (reverse x).
Proof.
  intros Hx. cbn zeta. rewrite char_indices_length, skip_back_spec, firstn_all by done. unfold word_skip.
  set (n := length (take_while char_is_whitespace (reverse x))).
  assert (n ≤ length x) as Hn by (subst n; rewrite <- (length_reverse x); apply take_while_le).
  assert (drop n (reverse x) = reverse (take (length x - n) x)) as Hd.
  { rewrite <- (take_drop (length x - n) x) at 1. rewrite reverse_app, drop_app_length'; [done|].
    rewrite length_reverse, length_drop. lia. }
  rewrite Hd. destruct (length x - n) as [|i] eqn:Hi.
  { simpl. lia. }
  destruct (lookup_lt_is_Some_2 x i) as [c Hc]; [lia|]. rewrite char_indices_lookup, Hc.
  cbn [fmap option_fmap option_map]. rewrite skip_back_spec by lia.
  rewrite (take_S_r _ _ _ Hc), reverse_snoc. lia.
Qed.

Lemma word_left_spec d r x y :
  let s := contents d in
  r < length (split_lines s) → row_line s r = x ++ y → x ≠ [] →
  word_left d (line_offset s r + byte_len x) =
    Some (line_offset s r + byte_len (take (length x - word_skip (reverse x)) x)).
Proof.
  intros s Hr Hxy Hx. pose proof Hr as Hr'. apply lookup_lt_is_Some_2 in Hr' as [l Hl].
  destruct (row_line_prefix _ _ _ Hl) as [t Ht]. rewrite Hxy, <- app_assoc in Ht.
  unfold word_left. pose proof (row_of_cut d r l x (y ++ t) Hl Ht) as Hrow. fold s in Hrow. rewrite Hrow.
  cbn [mbind option_bind]. pose proof (byte_len_nonempty x Hx).
  rewrite (proj2 (Nat.leb_gt _ _)) by lia. rewrite (line_string_row d r Hr). fold s. cbn [mbind option_bind].
  rewrite Hxy. replace (line_offset s r + byte_len x - line_offset s r) with (byte_len x) by lia.
  rewrite Nat.min_l by (rewrite byte_len_app; lia).
  pose proof (str_slice_app [] x y) as Hslice. cbn [app] in Hslice. change (byte_len []) with 0 in Hslice.
  rewrite Hslice. cbn [mbind option_bind].
  rewrite skip_back_word by done. f_equal. f_equal. rewrite char_indices_lookup.
  destruct (word_skip_positive (reverse x)) as [Hpos Hle].
  { intros Hrev. apply Hx. apply (f_equal reverse) in Hrev. by rewrite reverse_involutive in Hrev. }
  rewrite length_reverse in Hle.
  destruct (lookup_lt_is_Some_2 x (length x - word_skip (reverse x))) as [c Hc].
  { destruct x; [done|]. simpl in *. lia. }
  by rewrite Hc.
Qed.
End words.
