(* ===== verification/EditView.v ===== *)
(** * The editor: the view and its handlers ([diff_dock/code/view/editing.rs],
    [motion.rs], [input_handler.rs], [change_markers.rs])

    [Editor] is what the handlers of the view read and change: the document, the
    caret, the history and the tracker of the changed lines.  Scrolling, painting,
    highlighting and the notifications of the framework are left out; a clipboard
    is an argument or a result, and [now] is the clock. *)

From S2P Require Import Prelude DiffRange DiffText DiffChanges DiffUtf8 DiffTracker EditDocument EditSplice EditHistory EditCursor.

(** [base.rs] *)
Module Base.
Inductive t := None_ | Untracked | Text (text : str) (head_sha : str).

Definition text (self : t) : option str := match self with Text text _ => Some text | _ => None end.
Definition head_sha (self : t) : option str := match self with Text _ sha => Some sha | _ => None end.
End Base.

(** [self.wrapping_add(1)] on a [u64] *)
Definition wrapping_succ (n : Z) : Z := ((n + 1) mod 2 ^ 64)%Z.

(** [count_lines] of [change_markers.rs] *)
Definition count_lines (text : str) : Z := as_u32 (count_bytes_10 (bytes text) + 1).

#[export] Instance line_range_eq_dec : EqDecision LineRange.
Proof. solve_decision. Defined.

#[export] Instance block_eq_dec : EqDecision Block.
Proof. solve_decision. Defined.

Section view.
Context `{Rope} `{Graphemes}.

Record Editor := mkEditor {
  document : option CodeDocument.t;
  selection : CodeSelection;
  goal : nat;
  history : UndoHistory.t;
  marked : option (nat * nat);
  indent : IndentUnit;
  base : Base.t;
  tracker : BlockTracker;
  tracker_generation : Z;
  popup : option Block;
  slot : Z }.

Implicit Types self : Editor.

(** [CodeLoadSlot]; [slot self] is the generation of the last load. *)
Definition slot_begin (generation : Z) : Z := wrapping_succ generation.
Definition slot_accept (slot generation : Z) : bool := (generation =? slot)%Z.

(** *** Assignments of fields *)

Definition set_document self doc : Editor :=
  mkEditor doc (selection self) (goal self) (history self) (marked self) (indent self) (base self)
    (tracker self) (tracker_generation self) (popup self) (slot self).

Definition set_caret self (sel : CodeSelection) (col : nat) : Editor :=
  mkEditor (document self) sel col (history self) (marked self) (indent self) (base self)
    (tracker self) (tracker_generation self) (popup self) (slot self).

Definition set_history self (h : UndoHistory.t) : Editor :=
  mkEditor (document self) (selection self) (goal self) h (marked self) (indent self) (base self)
    (tracker self) (tracker_generation self) (popup self) (slot self).

Definition set_marked self (range : option (nat * nat)) : Editor :=
  mkEditor (document self) (selection self) (goal self) (history self) range (indent self) (base self)
    (tracker self) (tracker_generation self) (popup self) (slot self).

Definition set_tracker self (t : BlockTracker) (generation : Z) : Editor :=
  mkEditor (document self) (selection self) (goal self) (history self) (marked self) (indent self)
    (base self) t generation (popup self) (slot self).

Definition set_base self (b : Base.t) : Editor :=
  mkEditor (document self) (selection self) (goal self) (history self) (marked self) (indent self)
    b (tracker self) (tracker_generation self) (popup self) (slot self).

Definition set_popup self (block : option Block) : Editor :=
  mkEditor (document self) (selection self) (goal self) (history self) (marked self) (indent self)
    (base self) (tracker self) (tracker_generation self) block (slot self).

Definition set_slot self (generation : Z) : Editor :=
  mkEditor (document self) (selection self) (goal self) (history self) (marked self) (indent self)
    (base self) (tracker self) (tracker_generation self) (popup self) generation.

(** *** The tracker *)

(** [schedule_tracker_refresh]: the generation of the refresh that is scheduled. *)
Definition schedule_tracker_refresh self : Editor :=
  if negb (active (tracker self)) || negb (BlockTracker.is_dirty (tracker self)) then self
  else set_tracker self (tracker self) (wrapping_succ (tracker_generation self)).

Definition note_changes self (changes : list TrackerWindow) : option Editor :=
  if negb (active (tracker self)) then Some self
  else
    t ← for_each changes
          (λ w t, BlockTracker.range_changed t (start_line w) (before_len w) (after_len w))
          (tracker self);
    Some (schedule_tracker_refresh (set_tracker self t (tracker_generation self))).

Definition reset_tracker self : Editor :=
  match document self, Base.text (base self) with
  | Some doc, Some text =>
      schedule_tracker_refresh
        (set_tracker self (BlockTracker.fresh (as_u32 (CodeDocument.line_count doc)) (count_lines text))
           (tracker_generation self))
  | _, _ => set_tracker self BlockTracker.inactive (wrapping_succ (tracker_generation self))
  end.

Definition install_base self (new : Base.t) : Editor :=
  let same_commit :=
    match Base.head_sha (base self), Base.head_sha new with
    | Some current, Some next => bool_decide (current = next)
    | _, _ => false
    end in
  let self := set_base self new in
  if same_commit && active (tracker self) then self
  else reset_tracker (set_popup self None).

(** What [refresh_tracker_now] hands to the background: the tracker, the text, the
    base and its commit, and the revision of the document. *)
Record TrackerJob := mkJob {
  job_tracker : BlockTracker; job_text : rope; job_base : str;
  job_sha : option str; job_revision : Z; job_generation : Z }.

Definition refresh_tracker_now self : Editor * option TrackerJob :=
  if negb (active (tracker self)) || negb (BlockTracker.is_dirty (tracker self)) then (self, None)
  else
    match document self, Base.text (base self) with
    | Some doc, Some text =>
        (set_tracker self (tracker self) (wrapping_succ (tracker_generation self)),
         Some (mkJob (tracker self) (CodeDocument.text doc) text (Base.head_sha (base self))
                 (CodeDocument.revision doc) (slot self)))
    | _, _ => (self, None)
    end.

(** The closure of the background. *)
Definition run_tracker_job `{MyersDiff} (job : TrackerJob) : option BlockTracker :=
  r ← BlockTracker.refresh_dirty (split_lines (to_str (job_text job))) (split_lines (job_base job))
        Default (job_tracker job);
  Some (fst r).

(** Its result, on the view. *)
Definition apply_tracker_job self (job : TrackerJob) (refreshed : BlockTracker) : Editor :=
  if negb (slot_accept (slot self) (job_generation job)) || negb (active (tracker self)) then self
  else
    let current := CodeDocument.revision <$> document self in
    let same_base := bool_decide (Base.head_sha (base self) = job_sha job) in
    if same_base && bool_decide (current = Some (job_revision job))
    then set_tracker self refreshed (tracker_generation self)
    else schedule_tracker_refresh self.

(** *** Edits *)

Definition end_typing_group self : Editor :=
  set_marked (set_history self (UndoHistory.close_group (history self))) None.

Definition finish_edit self (after : CodeSelection) : option Editor :=
  let self := set_popup self None in
  match document self with
  | None => Some self
  | Some doc =>
      anchor ← clamp doc (anchor after);
      head ← clamp doc (sel_head after);
      goal ← goal_column doc head;
      Some (set_caret self (mkSelection anchor head) goal)
  end.

Definition splice_all self (ops : list ((nat * nat) * str)) (after : CodeSelection)
    (group : EditGroup) (now : Z) : option (Editor * bool) :=
  match document self with
  | None => Some (self, false)
  | Some doc =>
      if CodeDocument.is_read_only doc then Some (self, false)
      else
        let before := selection self in
        '(doc, records, changes) ← splice_ops doc ops [] [];
        let self := set_document self (Some doc) in
        if bool_decide (records = []) then Some (self, false)
        else
          h ← UndoHistory.push (history self) records before after group now;
          self ← note_changes (set_history self h) changes;
          self ← finish_edit self after;
          Some (self, true)
  end.

Definition replacement_range self : nat * nat :=
  match marked self with
  | Some marked => marked
  | None => CodeSelection.range (selection self)
  end.

Definition resolve_replacement self (range_utf16 : option (nat * nat)) : option (option (nat * nat)) :=
  match document self with
  | None => Some None
  | Some doc =>
      match range_utf16 with
      | Some range =>
          start ← CodeDocument.utf16_to_byte doc range.1;
          end_ ← CodeDocument.utf16_to_byte doc range.2;
          Some (Some (start, Nat.max end_ start))
      | None => Some (Some (replacement_range self))
      end
  end.

Definition insert_text self (text : str) (group : EditGroup) (now : Z) : option (Editor * bool) :=
  let range := replacement_range self in
  let inserted := normalize_newlines text in
  let caret := CodeSelection.at_ (range.1 + byte_len inserted) in
  splice_all self [(range, inserted)] caret group now.

Definition delete_grapheme self (forward : bool) (now : Z) : option Editor :=
  let sel := CodeSelection.range (selection self) in
  range ← (if sel.1 <? sel.2 then Some (Some sel)
           else
             match document self with
             | None => Some None
             | Some doc =>
                 let at_ := CodeSelection.cursor (selection self) in
                 if forward then to ← grapheme_right doc at_; Some (Some (at_, to))
                 else from ← grapheme_left doc at_; Some (Some (from, at_))
             end);
  match range with
  | Some range =>
      if negb (range.1 <? range.2) then Some self
      else
        r ← splice_all self [(range, [])] (CodeSelection.at_ range.1) Typing now;
        Some (fst r)
  | None => Some self
  end.

Definition insert_newline self (now : Z) : option Editor :=
  text ← match document self with
         | None => Some [10%N]
         | Some doc =>
             let at_ := (CodeSelection.range (selection self)).1 in
             row ← CodeDocument.byte_to_line doc at_;
             start ← CodeDocument.line_to_byte doc row;
             line ← CodeDocument.line_string doc row;
             match line with
             | None => Some [10%N]
             | Some line =>
                 let indent := leading_indent line in
                 let column := at_ - start in
                 blanks ← str_slice indent 0 (Nat.min (byte_len indent) column);
                 Some ([10%N] ++ blanks)
             end
         end;
  r ← insert_text self text Atomic now;
  Some (fst r).

Definition selected_rows self : option (option (nat * nat)) :=
  match document self with
  | None => Some None
  | Some doc =>
      let range := CodeSelection.range (selection self) in
      first ← CodeDocument.byte_to_line doc range.1;
      let last_byte := if range.1 <? range.2 then range.2 - 1 else range.2 in
      last ← CodeDocument.byte_to_line doc last_byte;
      Some (Some (first, Nat.max last first))
  end.

(** [shift_offset] of [editing.rs]: [start] and how far the text after it moves. *)
Definition shift_offset (offset : nat) (deltas : list (nat * Z)) : nat :=
  Z.to_nat (Z.max 0 (foldl (λ out '(start, delta),
    if (0 <? delta)%Z then (if start <=? offset then (out + delta)%Z else out)
    else if start <? offset then (out - Z.of_nat (Nat.min (Z.to_nat (- delta)) (offset - start)))%Z
    else out) (Z.of_nat offset) deltas)).

(** One row of the loop of [shift_lines]: its operation and its shift. *)
Definition shift_row (doc : CodeDocument.t) (outdent : bool) (unit : IndentUnit) (row : nat)
    (st : list ((nat * nat) * str) * list (nat * Z)) : option (list ((nat * nat) * str) * list (nat * Z)) :=
  let '(ops, deltas) := st in
  start ← CodeDocument.line_to_byte doc row;
  line ← CodeDocument.line_string doc row;
  match line with
  | None => Some (ops, deltas)
  | Some line =>
      if outdent then
        let width := dedent_width line unit in
        if width =? 0 then Some (ops, deltas)
        else Some (ops ++ [((start, start + width), [])], deltas ++ [(start, (- Z.of_nat width)%Z)])
      else if bool_decide (trim_end_newlines line = []) then Some (ops, deltas)
      else
        let text := as_str unit in
        Some (ops ++ [((start, start), text)], deltas ++ [(start, Z.of_nat (byte_len text))])
  end.

Definition shift_lines self (outdent : bool) (now : Z) : option Editor :=
  rows ← selected_rows self;
  match rows, document self with
  | Some (first, last), Some doc =>
      if negb outdent && CodeSelection.is_empty (selection self) then
        r ← insert_text self (as_str (indent self)) Atomic now; Some (fst r)
      else
        '(ops, deltas) ← for_each (reverse (seq first (S last - first)))
                           (shift_row doc outdent (indent self)) ([], []);
        if bool_decide (ops = []) then Some self
        else
          let after := mkSelection (shift_offset (anchor (selection self)) deltas)
                         (shift_offset (sel_head (selection self)) deltas) in
          r ← splice_all self ops after Atomic now;
          Some (fst r)
  | _, _ => Some self
  end.

Definition clip_range self : option (option (nat * nat)) :=
  match document self with
  | None => Some None
  | Some doc =>
      let sel := CodeSelection.range (selection self) in
      if negb (sel.1 <? sel.2) then range ← line_range_at doc sel.1; Some (Some range)
      else Some (Some sel)
  end.

(** [copy_selection], with what it writes to the clipboard. *)
Definition copy_selection self (cut : bool) (now : Z) : option (Editor * option str) :=
  range ← clip_range self;
  match range, document self with
  | Some range, Some doc =>
      if negb (range.1 <? range.2) then Some (self, None)
      else
        text ← CodeDocument.slice_string doc range.1 range.2;
        if cut then
          r ← splice_all self [(range, [])] (CodeSelection.at_ range.1) Atomic now;
          Some (fst r, Some text)
        else Some (self, Some text)
  | _, _ => Some (self, None)
  end.

Definition paste self (clipboard : str) (now : Z) : option Editor :=
  let text := sanitize_paste clipboard in
  if bool_decide (text = []) then Some self
  else r ← insert_text (end_typing_group self) text Atomic now; Some (fst r).

Definition time_travel self (redo : bool) : option Editor :=
  match document self with
  | None => Some self
  | Some doc =>
      if CodeDocument.is_read_only doc then Some self
      else
        let self := set_marked self None in
        '(h, doc, step) ← (if redo then UndoHistory.redo (history self) doc
                           else UndoHistory.undo (history self) doc);
        let self := set_document (set_history self h) (Some doc) in
        match step with
        | None => Some self
        | Some step =>
            self ← note_changes self (window <$> step_edits step);
            finish_edit self (step_selection step)
        end
  end.

(** *** Motions *)

Definition place_caret self (offset : nat) (extend : bool) : option Editor :=
  let self := end_typing_group self in
  match document self with
  | None => Some self
  | Some doc =>
      offset ← clamp doc offset;
      goal ← goal_column doc offset;
      Some (set_caret self (CodeSelection.apply (selection self) offset extend) goal)
  end.

Definition move_rows self (delta : Z) (extend : bool) : option Editor :=
  let self := end_typing_group self in
  match document self with
  | None => Some self
  | Some doc =>
      offset ← vertical doc (CodeSelection.cursor (selection self)) (goal self) delta;
      Some (set_caret self (CodeSelection.apply (selection self) offset extend) (goal self))
  end.

(** [backward] is [direction < 0]. *)
Definition horizontal self (backward extend : bool) : option Editor :=
  let sel := selection self in
  let from :=
    match extend, CodeSelection.is_empty sel, backward with
    | false, false, true => (CodeSelection.range sel).1
    | false, false, false => (CodeSelection.range sel).2
    | _, _, _ => CodeSelection.cursor sel
    end in
  let collapsing := negb extend && negb (CodeSelection.is_empty sel) in
  match document self with
  | None => Some self
  | Some doc =>
      offset ← (if collapsing then Some from
                else if backward then grapheme_left doc from else grapheme_right doc from);
      place_caret self offset extend
  end.

Definition word self (backward extend : bool) : option Editor :=
  let from := CodeSelection.cursor (selection self) in
  match document self with
  | None => Some self
  | Some doc =>
      offset ← (if backward then word_left doc from else word_right doc from);
      place_caret self offset extend
  end.

Definition line_edge self (end_ extend : bool) : option Editor :=
  let from := CodeSelection.cursor (selection self) in
  match document self with
  | None => Some self
  | Some doc =>
      offset ← (if end_ then line_end doc from else line_home doc from);
      place_caret self offset extend
  end.

Definition doc_edge self (end_ extend : bool) : option Editor :=
  match document self with
  | None => Some self
  | Some doc => place_caret self (if end_ then doc_end doc else 0) extend
  end.

Definition take_whole_document self : option Editor :=
  let self := end_typing_group self in
  match document self with
  | None => Some self
  | Some doc =>
      let end_ := doc_end doc in
      goal ← goal_column doc end_;
      Some (set_caret self (mkSelection 0 end_) goal)
  end.

(** *** The input method *)

Definition text_for_range self (range_utf16 : nat * nat) : option (option (str * (nat * nat))) :=
  match document self with
  | None => Some None
  | Some doc =>
      start ← CodeDocument.utf16_to_byte doc range_utf16.1;
      end_ ← CodeDocument.utf16_to_byte doc range_utf16.2;
      let end_ := Nat.max end_ start in
      a ← CodeDocument.byte_to_utf16 doc start;
      b ← CodeDocument.byte_to_utf16 doc end_;
      text ← CodeDocument.slice_string doc start end_;
      Some (Some (text, (a, b)))
  end.

Definition unmark_text self : Editor :=
  match marked self with
  | Some _ => set_history (set_marked self None) (UndoHistory.close_group (history self))
  | None => self
  end.

Definition replace_text_in_range self (range_utf16 : option (nat * nat)) (text : str) (now : Z)
  : option Editor :=
  range ← resolve_replacement self range_utf16;
  match range with
  | None => Some self
  | Some range =>
      let self := set_marked self None in
      let inserted := normalize_newlines text in
      let caret := CodeSelection.at_ (range.1 + byte_len inserted) in
      r ← splice_all self [(range, inserted)] caret Typing now;
      Some (fst r)
  end.

Definition replace_and_mark_text_in_range self (range_utf16 : option (nat * nat)) (new_text : str)
    (new_selected_range_utf16 : option (nat * nat)) (now : Z) : option Editor :=
  range ← resolve_replacement self range_utf16;
  match range with
  | None => Some self
  | Some range =>
      let inserted := normalize_newlines new_text in
      let start := range.1 in
      let end_ := start + byte_len inserted in
      '(self, done) ← splice_all self [(range, inserted)] (CodeSelection.at_ end_) Typing now;
      if negb done then Some self
      else
        let self := set_marked self (if start =? end_ then None else Some (start, end_)) in
        match new_selected_range_utf16, document self with
        | Some selected, Some doc =>
            base ← CodeDocument.byte_to_utf16 doc start;
            head ← CodeDocument.utf16_to_byte doc (base + selected.2);
            anchor ← CodeDocument.utf16_to_byte doc (base + selected.1);
            Some (set_caret self (mkSelection anchor head) (goal self))
        | _, _ => Some self
        end
  end.

(** *** Changed blocks *)

(** [lines.join("\n")] *)
Fixpoint join_lines (lines : list str) : str :=
  match lines with
  | [] => []
  | [line] => line
  | line :: lines => line ++ [10%N] ++ join_lines lines
  end.

Definition base_block_text (base_lines : list str) (range : LineRange) : option str :=
  let start := Nat.min (Z.to_nat (start range)) (length base_lines) in
  let end_ := Nat.max (Nat.min (Z.to_nat (end_ range)) (length base_lines)) start in
  lines ← slice base_lines start end_;
  let text := join_lines lines in
  Some (if (start <? end_) && (end_ <? length base_lines) then text ++ [10%N] else text).

Definition revert_splice (doc : CodeDocument.t) (base_lines : list str) (block : Block)
  : option ((nat * nat) * str) :=
  let line_count := CodeDocument.line_count doc in
  let len := CodeDocument.len_bytes doc in
  let first := Nat.min (Z.to_nat (start (lines block))) line_count in
  let last := Nat.max (Nat.min (Z.to_nat (end_ (lines block))) line_count) first in
  let base_start := Nat.min (Z.to_nat (start (DiffTracker.base_lines block))) (length base_lines) in
  let base_end := Nat.max (Nat.min (Z.to_nat (end_ (DiffTracker.base_lines block))) (length base_lines))
                    base_start in
  base ← slice base_lines base_start base_end;
  let byte_at line := if line <? line_count then CodeDocument.line_to_byte doc line else Some len in
  if last <? line_count then
    a ← byte_at first; b ← byte_at last;
    Some ((a, b), mjoin ((λ line, line ++ [10%N]) <$> base))
  else if first =? last then Some ((len, len), mjoin ((λ line, [10%N] ++ line) <$> base))
  else if bool_decide (base = []) then
    a ← byte_at first;
    Some ((a - (if 0 <? first then 1 else 0), len), [])
  else a ← byte_at first; Some ((a, len), join_lines base).

Definition revert_block self (line : nat) (now : Z) : option (Editor * bool * option TrackerJob) :=
  match document self with
  | None => Some (self, false, None)
  | Some doc =>
      if CodeDocument.is_read_only doc then Some (self, false, None)
      else
        found ← BlockTracker.block_at (tracker self) (as_u32 line);
        match found, Base.text (base self) with
        | Some (_, block), Some text =>
            op ← revert_splice doc (split_lines text) block;
            let caret := CodeSelection.at_ op.1.1 in
            '(self, replaced) ← splice_all (end_typing_group self) [op] caret Atomic now;
            if negb replaced then Some (self, false, None)
            else let '(self, job) := refresh_tracker_now self in Some (self, true, job)
        | _, _ => Some (self, false, None)
        end
  end.

(** [revert_from_popup]: only the block that the popup shows is reverted. *)
Definition revert_from_popup self (now : Z) : option (Editor * option TrackerJob) :=
  match popup self with
  | None => Some (self, None)
  | Some block =>
      let self := set_popup self None in
      current ← BlockTracker.block_at (tracker self) (start (lines block));
      if bool_decide (snd <$> current = Some block) then
        r ← revert_block self (Z.to_nat (start (lines block))) now;
        Some (fst (fst r), snd r)
      else Some (self, None)
  end.

Definition open_marker_popup self (index : nat) : Editor :=
  match blocks (tracker self) !! index, document self, Base.text (base self) with
  | Some block, Some _, Some _ => set_popup self (Some block)
  | _, _, _ => self
  end.
End view.
