(* ===== verification/EditViewCorrect.v ===== *)
(** * The editor: what the view keeps

    The invariant [ok] of the view: the text is on the path of the history, the
    ends of the selection are between characters, and the tracker has seen every
    change of the lines of the document.  The edits that the handlers share keep
    it, and do not panic.

    The input method may leave the caret inside a grapheme cluster, so the handlers
    start their motions from any offset between two characters.  None of them
    panics there. *)

From stdpp Require Import relations.
From S2P Require Import Prelude DiffRange DiffText DiffChanges DiffTracker DiffTrackerCorrect DiffUtf8 EditDocument EditDocumentCorrect EditSplice EditSpliceCorrect EditHistory EditHistoryCorrect EditCursor EditCursorCorrect EditView.

(** Offset [b] is between two characters of [s]. *)
Definition is_cut (s : str) (b : nat) : Prop := byte_len (EditDocumentCorrect.before s b) = b.

Lemma is_cut_app p q : is_cut (p ++ q) (byte_len p).
Proof. unfold is_cut. by rewrite before_app. Qed.

Lemma is_cut_split s b : is_cut s b → ∃ p q, s = p ++ q ∧ byte_len p = b.
Proof.
  intros Hb. exists (EditDocumentCorrect.before s b), (EditDocumentCorrect.after s b).
  by rewrite before_after.
Qed.

Lemma is_cut_0 s : is_cut s 0.
Proof. apply (is_cut_app [] s). Qed.

Lemma is_cut_end s : is_cut s (byte_len s).
Proof. rewrite <- (app_nil_r s) at 1. apply is_cut_app. Qed.

Lemma is_cut_before s b : is_cut s (byte_len (EditDocumentCorrect.before s b)).
Proof. unfold is_cut. by rewrite before_before. Qed.

Section view.
Context `{Hrope : Rope, Hlaws : !RopeLaws} `{Hg : Graphemes, Hglaws : !GraphemesLaws}.
Context `{Hdiff : MyersDiff, Hdlaws : !MyersDiffLaws}.
Implicit Types (self : Editor) (d : CodeDocument.t).

Lemma is_cut_offset s pos : valid s pos → is_cut s (offset_of s pos).
Proof.
  intros Hv. destruct (pos_cut _ _ Hv) as (l&y&Hl&Hy).
  destruct (cut_of_row _ _ _ _ _ Hl Hy) as (p&q&->&Hp).
  assert (offset_of (p ++ q) pos = byte_len p) as -> by (by rewrite Hp). apply is_cut_app.
Qed.

Record ok self : Prop := {
  ok_path d : document self = Some d → on_path (λ _ _, True) (history self) (contents d);
  ok_anchor d : document self = Some d → is_cut (contents d) (anchor (selection self));
  ok_head d : document self = Some d → is_cut (contents d) (sel_head (selection self));
  ok_tracker :
    active (tracker self) = true → ∃ d text sha, document self = Some d ∧
      base self = Base.Text text sha ∧
      reachable Default (split_lines (contents d)) (split_lines text) (tracker self) }.

Lemma ok_plain self d : ok self → document self = Some d → plain (contents d).
Proof. intros Hok Hd. eapply on_path_plain. by apply ok_path. Qed.

(** ** The tracker *)

Lemma tracker_follows ls ws ls' base t :
  described ls ws ls' → reachable Default ls base t →
  runs (for_each ws (λ w t, BlockTracker.range_changed t (start_line w) (before_len w) (after_len w)) t)
    (reachable Default ls' base).
Proof.
  intros Hw. revert t. induction Hw as [ls|ls s k new ws ls' Hsk Hfit Hw IH]; intros t Ht; [done|].
  cbn [for_each start_line before_len after_len].
  destruct (reachable_ok Default _ _ _ Ht) as (?&?&?&?&?).
  pose proof (range_changed_spec Default ls base new s k Hsk ltac:(done) ltac:(done) ltac:(done) t) as Hspec.
  destruct (BlockTracker.range_changed _ _ _ _) as [t'|] eqn:Hrun; [|by destruct Hspec].
  cbn [mbind option_bind]. apply IH. by eapply reach_edit.
Qed.

Lemma schedule_kept self : ∃ generation,
  schedule_tracker_refresh self = set_tracker self (tracker self) generation.
Proof.
  unfold schedule_tracker_refresh. destruct (_ || _); [|by eexists].
  exists (tracker_generation self). by destruct self.
Qed.

(** An edit of the lines, told to the tracker. *)
Lemma note_changes_run self lines ws lines' base :
  described lines ws lines' →
  (active (tracker self) = true → reachable Default lines base (tracker self)) →
  runs (note_changes self ws) (λ self', ∃ t generation, self' = set_tracker self t generation ∧
    active t = active (tracker self) ∧ (active t = true → reachable Default lines' base t)).
Proof.
  intros Hw Ht. unfold note_changes. destruct (active (tracker self)) eqn:Hact; cbn [negb].
  - eapply runs_bind; [apply (tracker_follows lines ws lines' base (tracker self) Hw); by apply Ht|]. intros t Hreach.
    destruct (schedule_kept (set_tracker self t (tracker_generation self))) as [gen ->].
    exists t, gen. cbn. split_and!; [done| |done]. by destruct (reachable_ok Default _ _ _ Hreach) as (_&_&?&_).
  - exists (tracker self), (tracker_generation self). split_and!; [by destruct self|done|congruence].
Qed.

(** ** The caret *)

Lemma clamp_is_cut d b : runs (clamp d b) (is_cut (contents d)).
Proof. destruct (clamp_run d b) as (pos&Hv&->). by apply is_cut_offset. Qed.

Lemma goal_column_run d b c : clamp d b = Some c → ∃ goal, goal_column d c = Some goal.
Proof.
  intros Hc. destruct (clamp_run d b) as (pos&Hv&Hpos). rewrite Hpos in Hc. injection Hc as <-.
  eexists. by apply goal_column_pos.
Qed.

Lemma finish_edit_run self d after :
  document self = Some d →
  runs (finish_edit self after) (λ self', ∃ a h goal,
    self' = set_caret (set_popup self None) (mkSelection a h) goal ∧
    clamp d (anchor after) = Some a ∧ clamp d (sel_head after) = Some h ∧
    is_cut (contents d) a ∧ is_cut (contents d) h).
Proof.
  intros Hd. unfold finish_edit. cbn [document set_popup]. rewrite Hd.
  pose proof (clamp_is_cut d (anchor after)) as Ha. pose proof (clamp_is_cut d (sel_head after)) as Hh.
  destruct (clamp d (anchor after)) as [a|]; [|done]. destruct (clamp d (sel_head after)) as [h|] eqn:Eh; [|done].
  destruct (goal_column_run _ _ _ Eh) as [goal Hgoal]. cbn [mbind option_bind]. rewrite Hgoal.
  cbn [mbind option_bind]. by exists a, h, goal.
Qed.

(** ** Splices *)

Lemma push_run h edits bef aft group now :
  (UndoHistory.next_id h < U64_MAX)%Z → edits ≠ [] →
  runs (UndoHistory.push h edits bef aft group now) (λ h',
    (UndoHistory.next_id h' ≤ UndoHistory.next_id h + 1)%Z).
Proof.
  intros Hid Hne. destruct (UndoHistory.push h edits bef aft group now) as [h'|] eqn:Hpush.
  - destruct (push_marks _ _ _ _ _ _ _ Hpush Hne) as [(_&?)|(_&?&_)]; simpl; lia.
  - unfold UndoHistory.push in Hpush. rewrite bool_decide_eq_false_2, checked_add_some in Hpush by (done || lia).
    cbn [mbind option_bind] in Hpush. repeat case_match; discriminate.
Qed.

(** What an edit leaves as it is. *)
Record kept self self' : Prop := {
  kept_base : base self' = base self;
  kept_indent : indent self' = indent self;
  kept_active : active (tracker self') = active (tracker self);
  kept_id : (UndoHistory.next_id (history self') ≤ UndoHistory.next_id (history self) + 1)%Z }.

Lemma kept_refl self : kept self self.
Proof. split; [done..|lia]. Qed.

(** The document, and a counter of transactions that has not come to its end. *)
Record editable self d (edits : nat) : Prop := {
  editable_document : document self = Some d;
  editable_id : (UndoHistory.next_id (history self) < U64_MAX)%Z;
  editable_spare : spare (2 * edits) d }.

(** What [splice_all] has done when it returns [done]. *)
Definition spliced self d (ops : list ((nat * nat) * str)) (after : CodeSelection) (group : EditGroup)
    (now : Z) (st : Editor * bool) : Prop :=
  let '(self', done) := st in
  ok self' ∧ kept self self' ∧ marked self' = marked self ∧ ∃ d', document self' = Some d' ∧
    respliced d d' (foldl splice_text (contents d) ops) ∧ advanced (2 * length ops) d d' ∧
    rtc hist_step (d, history self) (d', history self') ∧
    if done then
      (∃ recs, UndoHistory.push (history self) recs (selection self) after group now = Some (history self') ∧
         recs ≠ [] ∧ records_apply (contents d) recs (contents d')) ∧
      clamp d' (anchor after) = Some (anchor (selection self')) ∧
      clamp d' (sel_head after) = Some (sel_head (selection self'))
    else contents d' = contents d ∧ selection self' = selection self ∧ history self' = history self.

Lemma splice_all_run self d ops after group now :
  ok self → editable self d (length ops) → CodeDocument.read_only d = None → ops_ok (contents d) ops →
  runs (splice_all self ops after group now) (spliced self d ops after group now).
Proof.
  intros Hok [Hd Hid Hspare] Hro Hops. unfold splice_all. rewrite Hd.
  unfold CodeDocument.is_read_only. rewrite Hro.
  pose proof (splice_ops_spec d ops [] [] Hro (ok_plain _ _ Hok Hd) Hops) as Hspec.
  destruct (splice_ops d ops [] []) as [[[d' recs] ws]|] eqn:Hrun; [|done]. cbn [mbind option_bind].
  pose proof (splice_ops_advanced _ _ _ _ _ _ _ Hspare Hrun) as Hadv.
  destruct Hspec as (rs&ws'&Hd'&->&->&Hrecs&Hdesc). cbn [app].
  pose proof (respliced_contents _ _ _ Hd') as Hc'.
  case_bool_decide as Hrs.
  - subst rs. assert (contents d' = contents d) as Heq by (rewrite Hc'; by inversion Hrecs).
    simpl. split_and!; [|split; [done..|cbn; lia]|done|exists d'; split_and!; try done; apply rtc_once; by constructor].
    destruct Hok as [Hp Ha Hh Ht]. split; cbn; [intros ? [= <-]; rewrite Heq; by auto..|].
    intros Hact. destruct (Ht Hact) as (d0&text&sha&Hd0&Hb&Hr). rewrite Hd0 in Hd. injection Hd as ->.
    exists d', text, sha. by rewrite Heq.
  - pose proof (push_run (history self) rs (selection self) after group now Hid Hrs) as Hpush.
    destruct (UndoHistory.push _ _ _ _ _ _) as [h|] eqn:Hh; [|done]. cbn [mbind option_bind].
    eapply runs_bind.
    { apply (note_changes_run _ (split_lines (contents d)) ws' (split_lines (contents d'))
        (split_lines (default [] (Base.text (base self))))); [by rewrite Hc'|].
      cbn. intros Hact. destruct (ok_tracker _ Hok Hact) as (d0&text&sha&Hd0&Hb&Hr).
      rewrite Hd0 in Hd. injection Hd as ->. by rewrite Hb. }
    intros self1 (t&gen&->&Hact&Htr).
    eapply runs_bind; [by apply (finish_edit_run _ d')|].
    intros self2 (a&hd&goal&->&Ha&Hhd&Hca&Hch). simpl.
    assert (records_apply (contents d) rs (contents d')) as Hrecs' by by rewrite Hc'.
    split_and!.
    + split; cbn; [intros ? [= <-]; by eapply (push_path d (history self)); [apply ok_path| |]
        |intros ? [= <-]; done|intros ? [= <-]; done|].
      intros Htrue. destruct (ok_tracker _ Hok) as (d0&text&sha&Hd0&Hb&Hr); [by etrans; [symmetry; exact Hact|]|].
      exists d', text, sha. split_and!; [done..|]. rewrite Hb in Htr. by apply Htr.
    + by split.
    + done.
    + exists d'. split_and!; [done..| |by exists rs|done|done]. apply rtc_once.
      by apply (hist_edit d (history self) ops (selection self) after group now d' rs ws' h).
Qed.
End view.

(** * The editor: motions from any cut *)

Section motions.
Context `{Hrope : Rope, Hlaws : !RopeLaws} `{Hg : Graphemes, Hglaws : !GraphemesLaws}.
Implicit Types d : CodeDocument.t.

(** Offset [b] of a text without [\r] is in a row. *)
Definition in_row (s : str) (b r : nat) (x y : str) : Prop :=
  r < length (split_lines s) ∧ row_line s r = x ++ y ∧ b = line_offset s r + byte_len x.

Lemma cut_row s b : 13%N ∉ s → is_cut s b → ∃ r x y, in_row s b r x y.
Proof.
  intros Hs Hb. destruct (cut_in_row s b) as (r&l&x&y&Hl&Hxy&Heq). exists r, x, y. split_and!.
  - by eapply lookup_lt_Some.
  - rewrite (row_line_lookup _ _ _ Hl), chomp_id; [done|]. intros Hin. by eapply Hs, line_elem_of.
  - by rewrite <- Heq.
Qed.

Lemma row_of_in d b r x y :
  in_row (contents d) b r x y →
  row_of d b = Some (r, (line_offset (contents d) r, line_offset (contents d) r + byte_len (x ++ y))).
Proof.
  intros (Hr&Hxy&->). apply lookup_lt_is_Some_2 in Hr as [l Hl]. destruct (row_line_prefix _ _ _ Hl) as [t Ht].
  rewrite <- Hxy. apply (row_of_cut d r l x (y ++ t)); [done|]. by rewrite app_assoc, <- Hxy.
Qed.

Lemma byte_to_line_in d b r x y : in_row (contents d) b r x y → CodeDocument.byte_to_line d b = Some r.
Proof.
  intros Hin. pose proof (row_of_in _ _ _ _ _ Hin) as Hrow. unfold row_of in Hrow.
  destruct (CodeDocument.byte_to_line d b) as [r'|]; [|done]. cbn [mbind option_bind] in Hrow.
  destruct (CodeDocument.line_byte_range d r'); [|done]. by injection Hrow as ->.
Qed.

Lemma str_slice_tail x y : str_slice (x ++ y) (byte_len x) (byte_len (x ++ y)) = Some y.
Proof. rewrite <- (app_nil_r (x ++ y)) at 1. rewrite <- app_assoc. apply str_slice_app. Qed.

Lemma str_slice_front x y : str_slice (x ++ y) 0 (byte_len x) = Some x.
Proof. apply (str_slice_app [] x y). Qed.

Lemma grapheme_right_in d b r x y :
  in_row (contents d) b r x y → is_Some (grapheme_right d b).
Proof.
  intros Hin. unfold grapheme_right. bind (row_of_in _ _ _ _ _ Hin). destruct Hin as (Hr&Hxy&->).
  destruct (Nat.leb_spec (line_offset (contents d) r + byte_len (x ++ y)) (line_offset (contents d) r + byte_len x)).
  - unfold CodeDocument.line_count. rewrite len_lines_law. fold (contents d).
    destruct (Nat.leb_spec (length (split_lines (contents d))) (r + 1)); [by eexists|].
    rewrite line_to_byte_row by lia. by eexists.
  - bind (line_string_row d r Hr). rewrite checked_sub_some by lia. cbn [mbind option_bind].
    rewrite Hxy. replace (line_offset (contents d) r + byte_len x - line_offset (contents d) r) with (byte_len x) by lia.
    rewrite Nat.min_l by lia. bind str_slice_tail. by eexists.
Qed.

Lemma grapheme_left_in d b r x y :
  in_row (contents d) b r x y → is_Some (grapheme_left d b).
Proof.
  intros Hin. unfold grapheme_left. bind (row_of_in _ _ _ _ _ Hin). destruct Hin as (Hr&Hxy&->).
  destruct (_ <=? _).
  - destruct (r =? 0); [by eexists|]. bind (line_byte_range_row d (r - 1) ltac:(lia)). by eexists.
  - bind (line_string_row d r Hr).
    rewrite Hxy. replace (line_offset (contents d) r + byte_len x - line_offset (contents d) r) with (byte_len x) by lia.
    rewrite Nat.min_l by (rewrite byte_len_app; lia). bind str_slice_front. by eexists.
Qed.

Lemma word_right_in d b r x y : in_row (contents d) b r x y → is_Some (word_right d b).
Proof.
  intros Hin. unfold word_right. bind (row_of_in _ _ _ _ _ Hin).
  destruct (Nat.leb_spec (line_offset (contents d) r + byte_len (x ++ y)) b) as [_|Hlt];
    [by eapply grapheme_right_in|].
  destruct Hin as (Hr&Hxy&Hb). subst b.
  bind (line_string_row d r Hr). rewrite checked_sub_some by lia. cbn [mbind option_bind].
  rewrite Hxy. replace (line_offset (contents d) r + byte_len x - line_offset (contents d) r) with (byte_len x) by lia.
  rewrite Nat.min_l by lia. bind str_slice_tail. by eexists.
Qed.

Lemma word_left_in d b r x y : in_row (contents d) b r x y → is_Some (word_left d b).
Proof.
  intros Hin. unfold word_left. bind (row_of_in _ _ _ _ _ Hin).
  destruct (_ <=? _); [by eapply grapheme_left_in|].
  destruct Hin as (Hr&Hxy&->). bind (line_string_row d r Hr).
  rewrite Hxy. replace (line_offset (contents d) r + byte_len x - line_offset (contents d) r) with (byte_len x) by lia.
  rewrite Nat.min_l by (rewrite byte_len_app; lia). bind str_slice_front. by eexists.
Qed.

Lemma line_range_at_in d b r x y : in_row (contents d) b r x y → is_Some (line_range_at d b).
Proof.
  intros Hin. unfold line_range_at. bind (row_of_in _ _ _ _ _ Hin). destruct Hin as (Hr&_&_).
  unfold CodeDocument.line_count. rewrite len_lines_law. fold (contents d).
  destruct (Nat.ltb_spec (r + 1) (length (split_lines (contents d)))); [|by eexists].
  rewrite line_to_byte_row by lia. by eexists.
Qed.

Lemma vertical_total d b goal delta : is_Some (vertical d b goal delta).
Proof.
  unfold vertical, CodeDocument.byte_to_line. rewrite len_bytes_law, byte_to_line_law. unfold up_to.
  rewrite (proj2 (Nat.leb_le _ _)) by lia. cbn [mbind option_bind]. rewrite offset_at_column_spec. by eexists.
Qed.

Lemma byte_to_line_total d b : is_Some (CodeDocument.byte_to_line d b).
Proof.
  unfold CodeDocument.byte_to_line. rewrite len_bytes_law, byte_to_line_law. unfold up_to.
  rewrite (proj2 (Nat.leb_le _ _)) by lia. by eexists.
Qed.

Lemma line_to_byte_total d r : is_Some (CodeDocument.line_to_byte d r).
Proof.
  unfold CodeDocument.line_to_byte. rewrite len_lines_law, line_to_byte_law. unfold up_to.
  rewrite (proj2 (Nat.leb_le _ _)) by lia. by eexists.
Qed.

Lemma line_string_total d r : ∃ o, CodeDocument.line_string d r = Some o.
Proof. rewrite line_string_spec. by eexists. Qed.

(** ** UTF-16 offsets *)

Lemma char_of_utf16_le s u : char_of_utf16 s u ≤ length s.
Proof.
  revert u. induction s as [|c s IH]; intros u; simpl; [lia|]. case_match; [lia|].
  specialize (IH (u - utf16_len c)). lia.
Qed.

Lemma utf16_to_byte_run d u : runs (CodeDocument.utf16_to_byte d u) (is_cut (contents d)).
Proof.
  unfold CodeDocument.utf16_to_byte. rewrite len_utf16_law, utf16_to_char_law. fold (contents d). unfold up_to.
  rewrite (proj2 (Nat.leb_le _ _)) by lia. cbn [mbind option_bind].
  set (k := char_of_utf16 _ _). pose proof (char_of_utf16_le (contents d) (u `min` text_utf16 (contents d))) as Hk.
  fold k in Hk. rewrite char_to_byte_law. fold (contents d). unfold up_to. rewrite (proj2 (Nat.leb_le _ _)) by done.
  cbn. unfold byte_of_char. rewrite <- (take_drop k (contents d)) at 1. apply is_cut_app.
Qed.

Lemma byte_to_utf16_total d b : is_Some (CodeDocument.byte_to_utf16 d b).
Proof.
  unfold CodeDocument.byte_to_utf16. bind snap_spec.
  pose proof (before_after (contents d) b) as Hcut.
  rewrite (byte_to_char_app (CodeDocument.text d) _ _ (eq_sym Hcut)). cbn [mbind option_bind].
  rewrite char_to_utf16_law. fold (contents d). unfold up_to. rewrite (proj2 (Nat.leb_le _ _)); [by eexists|].
  rewrite <- Hcut at 2. rewrite length_app. lia.
Qed.

Lemma slice_string_total d a b : is_Some (CodeDocument.slice_string d a b).
Proof.
  unfold CodeDocument.slice_string. rewrite !snap_spec. cbn [mbind option_bind].
  destruct (range_cuts (contents d) a b) as (x&Hx&Hs).
  destruct (_ <=? _); [by eexists|].
  rewrite (byte_to_char_app (CodeDocument.text d) _ _ Hs). cbn [mbind option_bind].
  rewrite Hx, (byte_to_char_app (CodeDocument.text d) (EditDocumentCorrect.before (contents d) a ++ x)
    (EditDocumentCorrect.after (contents d) (b `max` a))) by (rewrite <- app_assoc; exact Hs).
  cbn [mbind option_bind].
  destruct (slice_law_app (CodeDocument.text d) _ _ _ Hs) as (r'&->&_). by eexists.
Qed.

(** A text of one-byte characters is sliced anywhere. *)
Lemma str_slice_ascii (s : str) n : Forall (λ c, (c < 128)%N) s → n ≤ byte_len s → str_slice s 0 n = Some (take n s).
Proof.
  intros Hs Hn. assert (byte_len (take n s) = n) as Hlen.
  { rewrite (ascii_byte_len s Hs) in Hn. rewrite ascii_byte_len by by apply Forall_take. rewrite length_take. lia. }
  pose proof (str_slice_front (take n s) (drop n s)) as Hsl. by rewrite take_drop, Hlen in Hsl.
Qed.

Lemma leading_indent_blank line : Forall (λ c, c = 32%N ∨ c = 9%N) (leading_indent line).
Proof.
  induction line as [|c line IH]; [done|]. cbn [leading_indent].
  destruct ((c =? 32)%N || (c =? 9)%N) eqn:Hc; [|done]. constructor; [|done].
  apply orb_true_iff in Hc as [->%N.eqb_eq| ->%N.eqb_eq]; auto.
Qed.
End motions.
