(* ===== verification/EditViewHandlers.v ===== *)
(** * The editor: every handler keeps the invariant

    [carried n self self'] is what a handler that makes at most [n] edits leaves
    behind: the invariant, the base, the text on a larger revision.  No handler
    panics in a state with [room].

    The rest of the handlers: they keep the invariant of the view and do not
    panic. *)

From stdpp Require Import relations.
From S2P Require Import Prelude DiffRange DiffText DiffChanges DiffTracker DiffTrackerCorrect DiffUtf8 EditDocument EditDocumentCorrect EditSplice EditSpliceCorrect EditHistory EditHistoryCorrect EditCursor EditCursorCorrect EditView EditViewCorrect.

Section handlers.
Context `{Hrope : Rope, Hlaws : !RopeLaws} `{Hg : Graphemes, Hglaws : !GraphemesLaws}.
Context `{Hdiff : MyersDiff, Hdlaws : !MyersDiffLaws}.
Implicit Types (self : Editor) (d : CodeDocument.t).

Record carried (n : nat) self self' : Prop := {
  carried_ok : ok self';
  carried_base : base self' = base self;
  carried_active : active (tracker self') = active (tracker self);
  carried_id : (UndoHistory.next_id (history self') ≤ UndoHistory.next_id (history self) + 1)%Z;
  carried_none : document self = None → document self' = None;
  carried_doc d : document self = Some d → ∃ d', document self' = Some d' ∧ advanced n d d' ∧
    CodeDocument.read_only d' = CodeDocument.read_only d ∧
    CodeDocument.line_ending d' = CodeDocument.line_ending d;
  carried_steps d d' : document self = Some d → document self' = Some d' →
    rtc hist_step (d, history self) (d', history self') }.

(** A handler that leaves the text alone. *)
Record same_text self self' : Prop := {
  same_ok : ok self';
  same_base : base self' = base self;
  same_active : active (tracker self') = active (tracker self);
  same_history : history self' = history self ∨ history self' = UndoHistory.close_group (history self);
  same_doc : document self' = document self }.

Lemma same_refl self : ok self → same_text self self.
Proof. split; try done. by left. Qed.

Lemma same_id self self' : same_text self self' →
  UndoHistory.next_id (history self') = UndoHistory.next_id (history self).
Proof. by intros [_ _ _ [->| ->] _]. Qed.

Lemma same_steps self self' d : same_text self self' → rtc hist_step (d, history self) (d, history self').
Proof. intros [_ _ _ [->| ->] _]; [done|]. apply rtc_once. constructor. Qed.

Lemma same_carried n self self' : same_text self self' → carried n self self'.
Proof.
  intros Hs. pose proof (same_id _ _ Hs) as Hi. destruct (Hs) as [? Hb Ha _ Hd].
  split; [done..|lia|by rewrite Hd| |].
  - rewrite Hd. intros d ->. exists d. split_and!; [done|apply advanced_refl|done..].
  - intros d d' Hd0. rewrite Hd, Hd0. intros [= <-]. by apply same_steps.
Qed.

Lemma carried_refl n self : ok self → carried n self self.
Proof. intros. by apply same_carried, same_refl. Qed.

Lemma same_then_carried n self s1 self' : same_text self s1 → carried n s1 self' → carried n self self'.
Proof.
  intros Hs [? Hb' Ha' Hi' Hn' Hd' Hst']. pose proof (same_id _ _ Hs) as Hi. pose proof Hs as [? Hb Ha _ Hd].
  rewrite Hd, Hi in *. split; [done|congruence..|lia|done|done|].
  intros d d' Hd0 Hd1. etrans; [by apply (same_steps self s1)|by apply Hst'].
Qed.

Lemma carried_then_same n self s1 self' : carried n self s1 → same_text s1 self' → carried n self self'.
Proof.
  intros [? Hb Ha Hi Hn Hd Hst] Hs. pose proof (same_id _ _ Hs) as Hi'. pose proof Hs as [? Hb' Ha' _ Hd'].
  split; [done|congruence..|lia|rewrite Hd'; done|by rewrite Hd'|].
  rewrite Hd'. intros d d' Hd0 Hd1. etrans; [by apply Hst|by apply (same_steps s1)].
Qed.

(** The counters and the lines have room for [edits] splices that add [added]
    lines. *)
Definition room_for self (edits added : nat) : Prop := ∀ d, document self = Some d →
  (UndoHistory.next_id (history self) < U64_MAX)%Z ∧ spare (2 * edits) d ∧
  (Z.of_nat (newlines (contents d) + added) + 1 ≤ U32_MAX)%Z.

Lemma room_same self self' n m : same_text self self' → room_for self n m → room_for self' n m.
Proof. intros Hs. unfold room_for. by rewrite (same_id _ _ Hs), (same_doc _ _ Hs). Qed.

(** A text that can be inserted. *)
Definition clean (text : str) : Prop := 13%N ∉ normalize_newlines text.

Lemma clean_nil : clean [].
Proof. by apply not_elem_of_nil. Qed.

Lemma splice_all_carried self ops after group now :
  ok self → Forall (λ op, clean op.2) ops →
  room_for self (length ops) (sum_list_with (λ op, newlines (normalize_newlines op.2)) ops) →
  runs (splice_all self ops after group now) (λ '(self', _), carried (2 * length ops) self self').
Proof.
  intros Hok Hclean Hroom. destruct (document self) as [d|] eqn:Hd.
  - destruct (CodeDocument.read_only d) as [reason|] eqn:Hro.
    + unfold splice_all, CodeDocument.is_read_only. rewrite Hd, Hro. by apply carried_refl.
    + destruct (Hroom d Hd) as (Hid&Hsp&Hlen).
      eapply runs_mono; [apply (splice_all_run self d); [done|by split|done|by split]|].
      intros [self' done] (Hok'&[Hb _ Ha Hi]&_&d'&Hd'&Hr&Hadv&Hst&_). split; [done..|by rewrite Hd| |].
      * rewrite Hd. intros ? [= <-]. exists d'. split_and!; [done..|by destruct Hr|by destruct Hr].
      * rewrite Hd, Hd'. by intros ? ? [= <-] [= <-].
  - unfold splice_all. rewrite Hd. by apply carried_refl.
Qed.

(** The same, of one splice. *)
Lemma splice_one self range text after group now :
  ok self → clean text → room_for self 1 (newlines (normalize_newlines text)) →
  runs (splice_all self [(range, text)] after group now) (λ '(self', _), carried 2 self self').
Proof.
  intros Hok Hclean Hroom. apply (splice_all_carried self [(range, text)]); [done|by constructor|].
  cbn [sum_list_with]. by rewrite Nat.add_0_r.
Qed.

(** ** Insertions and deletions *)

Lemma normalize_twice text : clean text → normalize_newlines (normalize_newlines text) = normalize_newlines text.
Proof. intros. by apply normalize_crlf_free, no_cr_crlf_free. Qed.

Lemma clean_normalized text : clean text → clean (normalize_newlines text).
Proof. intros Hc. unfold clean. by rewrite normalize_twice. Qed.

Lemma insert_text_carried self text group now :
  ok self → clean text → room_for self 1 (newlines (normalize_newlines text)) →
  runs (insert_text self text group now) (λ '(self', _), carried 2 self self').
Proof.
  intros Hok Hc Hroom. unfold insert_text. apply splice_one; [done|by apply clean_normalized|].
  by rewrite normalize_twice.
Qed.

Lemma ok_row self d b : ok self → document self = Some d → is_cut (contents d) b →
  ∃ r x y, in_row (contents d) b r x y.
Proof. intros Hok Hd. apply cut_row. by apply (ok_plain self d). Qed.

Lemma range_cut self d : ok self → document self = Some d →
  is_cut (contents d) (CodeSelection.range (selection self)).1 ∧
  is_cut (contents d) (CodeSelection.range (selection self)).2.
Proof.
  intros Hok Hd. unfold CodeSelection.range.
  case_match; simpl; split; by first [apply (ok_anchor self)|apply (ok_head self)].
Qed.

Lemma delete_grapheme_carried self forward now :
  ok self → room_for self 1 0 → runs (delete_grapheme self forward now) (carried 2 self).
Proof.
  intros Hok Hroom. unfold delete_grapheme.
  eapply (runs_bind _ _ (λ _, True)).
  - destruct (_ <? _); [done|]. destruct (document self) as [d|] eqn:Hd; [|done].
    destruct (ok_row self d (sel_head (selection self)) Hok Hd) as (r&x&y&Hrow); [by apply (ok_head self)|].
    unfold CodeSelection.cursor.
    destruct forward; [destruct (grapheme_right_in d _ r x y Hrow) as [? ->]|
      destruct (grapheme_left_in d _ r x y Hrow) as [? ->]]; done.
  - intros [range|] _; [|by apply carried_refl]. destruct (negb _); [by apply carried_refl|].
    eapply runs_bind; [by apply splice_one; [|apply clean_nil|]|]. by intros [self' done].
Qed.

Lemma insert_newline_carried self now :
  ok self → room_for self 1 1 → runs (insert_newline self now) (carried 2 self).
Proof.
  intros Hok Hroom. unfold insert_newline.
  eapply (runs_bind _ _ (λ text, 13%N ∉ text ∧ newlines text = 1)).
  - assert (13%N ∉ [10%N] ∧ newlines [10%N] = 1) as Hone by (split; [by intros ?%list_elem_of_singleton|done]).
    destruct (document self) as [d|] eqn:Hd; [|done].
    destruct (byte_to_line_total d (CodeSelection.range (selection self)).1) as [row ->]. cbn [mbind option_bind].
    destruct (line_to_byte_total d row) as [start ->]. cbn [mbind option_bind].
    destruct (line_string_total d row) as [[line|] ->]; cbn [mbind option_bind]; [|done].
    pose proof (leading_indent_blank line) as Hblank. set (indent := leading_indent line) in *.
    rewrite str_slice_ascii by (first [lia|eapply Forall_impl; [exact Hblank|]; intros c [->| ->]; lia]).
    simpl. set (n := _ `min` _).
    apply (Forall_take _ n) in Hblank. rewrite Forall_forall in Hblank. split.
    + intros [Hin|Hin]%elem_of_cons; [done|]. by destruct (Hblank _ Hin).
    + rewrite newlines_cons, newlines_none; [done|]. intros Hin. by destruct (Hblank _ Hin).
  - intros text [Hcr Hnl]. assert (normalize_newlines text = text) as Hnorm by by apply normalize_no_cr.
    eapply runs_bind; [apply insert_text_carried; [done|unfold clean; by rewrite Hnorm|by rewrite Hnorm, Hnl]|].
    by intros [self' done].
Qed.

Lemma room_for_le self n m n' m' : n' ≤ n → m' ≤ m → room_for self n m → room_for self n' m'.
Proof.
  intros ?? Hroom d Hd. destruct (Hroom d Hd) as (?&Hs&?). split_and!; [done| |lia].
  eapply spare_le; [|exact Hs]. lia.
Qed.

Lemma carried_mono n m self self' : n ≤ m → carried n self self' → carried m self self'.
Proof.
  intros ? [????? Hd ?]. split; [done..| |done]. intros d Hd0. destruct (Hd d Hd0) as (d'&?&?&?&?).
  exists d'. split_and!; [done|by apply (advanced_mono n)|done..].
Qed.

(** [None] of the shape of a handler whose edit is made by [splice_all]. *)
Lemma splice_handler self (m : option (Editor * bool)) n :
  runs m (λ '(self', _), carried n self self') → runs (r ← m; Some (fst r)) (carried n self).
Proof. intros Hm. eapply runs_bind; [exact Hm|]. by intros [self' done]. Qed.

(** ** The indentation of lines *)

Definition line_rows d : nat := length (split_lines (contents d)).

Lemma indent_clean unit : clean (as_str unit) ∧ newlines (normalize_newlines (as_str unit)) = 0.
Proof.
  assert (∀ c, c ∈ as_str unit → c = 32%N ∨ c = 9%N) as Hblank.
  { destruct unit; cbn [as_str]; [intros c ->%list_elem_of_singleton; by right|].
    intros c [-> _]%elem_of_replicate. by left. }
  unfold clean. rewrite normalize_no_cr by (intros Hin; by destruct (Hblank _ Hin)).
  split; [|apply newlines_none]; intros Hin; by destruct (Hblank _ Hin).
Qed.

Lemma shift_rows_run d outdent unit rows st :
  Forall (λ op : (nat * nat) * str, clean op.2 ∧ newlines (normalize_newlines op.2) = 0) st.1 →
  runs (for_each rows (shift_row d outdent unit) st) (λ st',
    Forall (λ op : (nat * nat) * str, clean op.2 ∧ newlines (normalize_newlines op.2) = 0) st'.1 ∧
    length st'.1 ≤ length st.1 + length rows).
Proof.
  revert st. induction rows as [|row rows IH]; intros [ops deltas] Hops; [simpl; split; [done|lia]|].
  cbn [for_each].
  eapply (runs_bind _ _ (λ st' : list ((nat * nat) * str) * list (nat * Z),
    Forall (λ op : (nat * nat) * str, clean op.2 ∧ newlines (normalize_newlines op.2) = 0) st'.1 ∧
    length st'.1 ≤ S (length ops))).
  - unfold shift_row. destruct (line_to_byte_total d row) as [start ->]. cbn [mbind option_bind].
    destruct (line_string_total d row) as [[line|] ->]; cbn [mbind option_bind]; [|simpl; split; [done|lia]].
    destruct outdent; [case_match; [simpl; split; [done|lia]|]|case_bool_decide; [simpl; split; [done|lia]|]];
      cbn [runs fst]; rewrite length_app; (split; [apply Forall_snoc; [done|]|cbn [length]; lia]);
      [split; [apply clean_nil|done]|apply indent_clean].
  - intros st' [Hst' Hlen]. eapply runs_mono; [by apply IH|]. intros st'' [? ?]. split; [done|].
    cbn [fst] in *. cbn [length]. lia.
Qed.

Lemma line_of_byte_rows s b : line_of_byte s b < length (split_lines s).
Proof.
  rewrite split_lines_length. unfold line_of_byte. rewrite <- (count_bytes_newlines s).
  rewrite <- (take_drop b (bytes s)) at 2.
  rewrite count_bytes_10_app. lia.
Qed.

Lemma byte_to_line_rows d b r : CodeDocument.byte_to_line d b = Some r → r < line_rows d.
Proof.
  unfold CodeDocument.byte_to_line. rewrite len_bytes_law, byte_to_line_law. unfold up_to.
  rewrite (proj2 (Nat.leb_le _ _)) by lia. intros [= <-]. apply line_of_byte_rows.
Qed.

Lemma selected_rows_run self :
  runs (selected_rows self) (λ o, match o with
    | Some (first, last) => ∀ d, document self = Some d → S last - first ≤ line_rows d
    | None => True end).
Proof.
  unfold selected_rows. destruct (document self) as [d|]; [|done].
  destruct (CodeDocument.byte_to_line d (CodeSelection.range (selection self)).1) as [first|] eqn:Hf;
    [|by destruct (byte_to_line_total d (CodeSelection.range (selection self)).1) as [? ?]; congruence].
  cbn [mbind option_bind].
  set (b := if _ : bool then _ else _). destruct (byte_to_line_total d b) as [last Hl]. rewrite Hl.
  cbn [mbind option_bind runs]. intros ? [= <-].
  apply byte_to_line_rows in Hf, Hl. lia.
Qed.

Lemma shift_lines_carried self outdent now :
  ok self → (∀ d, document self = Some d → room_for self (line_rows d) 0) →
  runs (shift_lines self outdent now) (λ self', carried
    (2 * match document self with Some d => line_rows d | None => 0 end) self self').
Proof.
  intros Hok Hroom. unfold shift_lines.
  eapply runs_bind; [apply selected_rows_run|]. intros [[first last]|] Hrows; [|by apply carried_refl].
  destruct (document self) as [d|] eqn:Hd; [|by apply carried_refl].
  specialize (Hrows d eq_refl). specialize (Hroom d eq_refl).
  assert (1 ≤ line_rows d) by (unfold line_rows; rewrite split_lines_length; lia).
  destruct (indent_clean (indent self)) as [Hic Hin0].
  destruct (negb outdent && CodeSelection.is_empty (selection self)).
  - apply splice_handler. eapply runs_mono; [apply insert_text_carried; [done|done|]|].
    + eapply room_for_le; [| |exact Hroom]; lia.
    + intros [self' done] Hc. eapply carried_mono; [|exact Hc]. lia.
  - eapply runs_bind; [by apply shift_rows_run; simpl|]. intros [ops deltas] [Hops Hlen].
    cbn [fst length] in Hops, Hlen. rewrite length_reverse, length_seq in Hlen.
    case_bool_decide; [by apply carried_refl|]. apply splice_handler.
    eapply runs_mono; [apply splice_all_carried; [done| |]|].
    + eapply Forall_impl; [exact Hops|]. by intros op [? _].
    + eapply room_for_le; [| |exact Hroom]; [lia|]. clear -Hops.
      induction Hops as [|op ops [_ Hop] _ IH]; [done|]. cbn [sum_list_with]. rewrite Hop. exact IH.
    + intros [self' done] Hc. eapply carried_mono; [|exact Hc]. lia.
Qed.

(** ** The clipboard *)

Lemma end_group_same self : ok self → same_text self (end_typing_group self).
Proof. intros [Hp Ha Hh Ht]. split; try done. by right. Qed.

Lemma clip_range_run self : ok self → runs (clip_range self) (λ _, True).
Proof.
  intros Hok. unfold clip_range. destruct (document self) as [d|] eqn:Hd; [|done].
  destruct (negb _); [|done]. destruct (range_cut self d Hok Hd) as [Hcut _].
  destruct (ok_row self d _ Hok Hd Hcut) as (r&x&y&Hrow).
  by destruct (line_range_at_in d _ r x y Hrow) as [? ->].
Qed.

Lemma copy_selection_carried self cut now :
  ok self → room_for self 1 0 → runs (copy_selection self cut now) (λ '(self', _), carried 2 self self').
Proof.
  intros Hok Hroom. unfold copy_selection.
  eapply runs_bind; [by apply clip_range_run|]. intros [range|] _; [|by apply carried_refl].
  destruct (document self) as [d|] eqn:Hd; [|by apply carried_refl].
  destruct (negb _); [by apply carried_refl|].
  destruct (slice_string_total d range.1 range.2) as [text ->]. cbn [mbind option_bind].
  destruct cut; [|by apply carried_refl].
  eapply runs_bind; [by apply splice_one; [|apply clean_nil|]|]. by intros [self' done].
Qed.

(** What is left of a pasted text. *)
Definition printable (c : N) : Prop :=
  c = 9%N ∨ c = 10%N ∨ (is_control c = false ∧ is_bidi_or_zero_width c = false).

Lemma sanitize_chars_kept text c :
  c ∈ sanitize_chars text → c = 9%N ∨ c = 10%N ∨ is_control c = false.
Proof.
  remember (length text) as n eqn:Hn. assert (length text ≤ n) as Hle by lia. clear Hn. revert text Hle.
  induction n as [|n IH]; intros [|a text] Hle; try (by intros ?%elem_of_nil); cbn [length] in Hle; [lia|].
  cbn [sanitize_chars]. destruct (N.eqb_spec a 13) as [->|_].
  - intros [->|Hin]%elem_of_cons; [by right; left|]. destruct text as [|b text]; [by apply elem_of_nil in Hin|].
    cbn [length] in Hle. destruct (b =? 10)%N; eapply IH; try exact Hin; cbn [length]; lia.
  - destruct ((a =? 10)%N || (a =? 9)%N) eqn:Ha.
    + intros [->|Hin]%elem_of_cons; [|eapply IH; [|exact Hin]; lia].
      apply orb_true_iff in Ha as [->%N.eqb_eq| ->%N.eqb_eq]; auto.
    + destruct (is_control a) eqn:Hc; [intros Hin; eapply IH; [|exact Hin]; lia|].
      intros [->|Hin]%elem_of_cons; [by right; right|]. eapply IH; [|exact Hin]. lia.
Qed.

Lemma sanitize_paste_printable text : Forall printable (sanitize_paste text).
Proof.
  apply Forall_forall. intros c. unfold sanitize_paste, strip_bidi_zero_width.
  destruct (existsb is_bidi_or_zero_width (sanitize_chars text)) eqn:Hb.
  - intros [Hc Hin]%list_elem_of_filter. apply sanitize_chars_kept in Hin as [?|[?|?]];
      unfold printable; auto.
  - intros Hin. pose proof Hin as Hkept. apply sanitize_chars_kept in Hkept as [?|[?|?]]; unfold printable; auto.
    right; right. split; [done|]. destruct (is_bidi_or_zero_width c) eqn:Hbc; [|done].
    rewrite <- Hb. symmetry. apply existsb_exists. exists c. split; [by apply list_elem_of_In|done].
Qed.

Lemma sanitize_paste_clean text : 13%N ∉ sanitize_paste text.
Proof.
  intros Hin. pose proof (sanitize_paste_printable text) as Hp. rewrite Forall_forall in Hp.
  by destruct (Hp _ Hin) as [?|[?|[? _]]].
Qed.

Lemma paste_carried self clipboard now :
  ok self → room_for self 1 (newlines (sanitize_paste clipboard)) →
  runs (paste self clipboard now) (carried 2 self).
Proof.
  intros Hok Hroom. unfold paste. case_bool_decide; [by apply carried_refl|].
  pose proof (end_group_same self Hok) as Hsame.
  assert (normalize_newlines (sanitize_paste clipboard) = sanitize_paste clipboard) as Hnorm
    by apply normalize_no_cr, sanitize_paste_clean.
  eapply runs_mono; [apply splice_handler, insert_text_carried|].
  - apply Hsame.
  - unfold clean. rewrite Hnorm. apply sanitize_paste_clean.
  - rewrite Hnorm. by apply (room_same self).
  - intros self' Hc. by eapply same_then_carried.
Qed.

(** ** Undo and redo *)

Lemma time_travel_carried self (redo : bool) :
  ok self →
  (∀ d, document self = Some d → spare (2 * top_edits
    (if redo then UndoHistory.redo_stack (history self) else UndoHistory.undo_stack (history self))) d) →
  runs (time_travel self redo) (carried (2 * top_edits
    (if redo then UndoHistory.redo_stack (history self) else UndoHistory.undo_stack (history self))) self).
Proof.
  intros Hok Hspare. unfold time_travel. destruct (document self) as [d|] eqn:Hd; [|by apply carried_refl].
  destruct (CodeDocument.read_only d) as [reason|] eqn:Hro; unfold CodeDocument.is_read_only; rewrite Hro;
    [by apply carried_refl|]. cbn [history set_marked].
  assert (runs (if redo then UndoHistory.redo (history self) d else UndoHistory.undo (history self) d)
    (λ '(h', d', step), UndoHistory.next_id h' = UndoHistory.next_id (history self) ∧
       ∃ s', respliced d d' s' ∧ on_path (λ _ _, True) h' s' ∧
         match step with
         | Some step => described (split_lines (contents d)) (window <$> step_edits step) (split_lines s')
         | None => s' = contents d
         end)) as Hrun.
  { pose proof (ok_path _ Hok d Hd) as Hpath.
    destruct redo; (eapply runs_mono; [first [by apply redo_path|by apply undo_path]|]);
      intros [[h' d'] step] (_&Hid&s'&Hr&Hp&Hstep); (split; [done|exists s'; split; [done|split; [done|]]]);
      destruct (pop_back _) as [[below t]|]; [|by destruct Hstep as (?&_&->)| |by destruct Hstep as (?&_&->)];
      [destruct Hstep as (_&_&_&edits&->&?)|destruct Hstep as (_&_&_&edits&->&?)]; done. }
  destruct (if redo then UndoHistory.redo (history self) d else UndoHistory.undo (history self) d) as [[[h' d'] step]|] eqn:Hstep; [|done]. cbn [mbind option_bind].
  pose proof (time_travel_advanced _ _ _ _ _ _ (Hspare d eq_refl) Hstep) as Hadv.
  destruct Hrun as (Hid&s'&[Hc' Hle Hro']&Hpath&Hstep').
  assert (∀ sel goal t gen pop,
    is_cut s' (anchor sel) → is_cut s' (sel_head sel) → active t = active (tracker self) →
    (active t = true → reachable Default (split_lines s') (split_lines (default [] (Base.text (base self)))) t) →
    carried (2 * top_edits (if redo then UndoHistory.redo_stack (history self) else UndoHistory.undo_stack (history self)))
      self (mkEditor (Some d') sel goal h' None (indent self) (base self) t gen pop (slot self))) as Hcarried.
  { intros sel goal t gen pop Hca Hch Hact Htr. split; cbn; [|done|done|lia|by rewrite Hd| |].
    - split; cbn; [intros ? [= <-]; by rewrite Hc'..|]. intros Htrue.
      destruct (ok_tracker _ Hok) as (d0&text&sha&Hd0&Hb&Hr); [by rewrite <- Hact|].
      exists d', text, sha. rewrite Hb in Htr. rewrite Hc'. split_and!; [done..|by apply Htr].
    - rewrite Hd. intros ? [= <-]. exists d'. by split_and!.
    - rewrite Hd. intros ? ? [= <-] [= <-]. apply rtc_once.
      destruct redo; [by eapply hist_redo|by eapply hist_undo]. }
  destruct step as [step|].
  - eapply runs_bind.
    { apply (note_changes_run _ (split_lines (contents d)) _ (split_lines s')
        (split_lines (default [] (Base.text (base self)))) Hstep').
      cbn. intros Hact. destruct (ok_tracker _ Hok Hact) as (d0&text&sha&Hd0&Hb&Hr).
      rewrite Hd0 in Hd. injection Hd as ->. by rewrite Hb. }
    intros self1 (t&gen&->&Hact&Htr).
    eapply runs_mono; [by apply (finish_edit_run _ d')|].
    intros self2 (a&hd&goal&->&_&_&Hca&Hch). rewrite Hc' in *. by apply Hcarried.
  - simpl. cbn in Hstep'. rewrite Hstep' in Hcarried. apply Hcarried; [by apply (ok_anchor self)|by apply (ok_head self)|done|].
    intros Hact. destruct (ok_tracker _ Hok Hact) as (d0&text&sha&Hd0&Hb&Hr).
    rewrite Hd0 in Hd. injection Hd as ->. by rewrite Hb.
Qed.
End handlers.

(** * The editor: motions, the input method and the changed blocks *)

Section handlers.
Context `{Hrope : Rope, Hlaws : !RopeLaws} `{Hg : Graphemes, Hglaws : !GraphemesLaws}.
Context `{Hdiff : MyersDiff, Hdlaws : !MyersDiffLaws}.
Implicit Types (self : Editor) (d : CodeDocument.t).

Lemma same_trans self s1 self' : same_text self s1 → same_text s1 self' → same_text self self'.
Proof.
  intros [? ? ? Hh ?] [? ? ? Hh' ?]. split; [done|congruence..| |congruence].
  destruct Hh as [Hh|Hh], Hh' as [Hh'|Hh']; rewrite Hh', Hh; auto.
Qed.

(** ** Motions *)

Lemma set_caret_same self d sel goal :
  ok self → document self = Some d → is_cut (contents d) (anchor sel) → is_cut (contents d) (sel_head sel) →
  same_text self (set_caret self sel goal).
Proof.
  intros [Hp _ _ Ht] Hd Ha Hh. split; [|done|done|by left|done].
  split; cbn; [done|intros ?; rewrite Hd; by intros [= <-]|intros ?; rewrite Hd; by intros [= <-]|done].
Qed.

Lemma apply_cuts self d offset extend :
  ok self → document self = Some d → is_cut (contents d) offset →
  is_cut (contents d) (anchor (CodeSelection.apply (selection self) offset extend)) ∧
  is_cut (contents d) (sel_head (CodeSelection.apply (selection self) offset extend)).
Proof. intros Hok Hd Ho. destruct extend; split; try done. by apply (ok_anchor self). Qed.

Lemma place_caret_same self offset extend :
  ok self → runs (place_caret self offset extend) (same_text self).
Proof.
  intros Hok. unfold place_caret. pose proof (end_group_same self Hok) as Hsame.
  set (self1 := end_typing_group self) in *. destruct (document self1) as [d|] eqn:Hd; [|done].
  pose proof (clamp_is_cut d offset) as Hcut. destruct (clamp d offset) as [o|] eqn:Ho; [|done].
  destruct (goal_column_run _ _ _ Ho) as [goal Hgoal]. cbn [mbind option_bind]. rewrite Hgoal.
  simpl. eapply same_trans; [exact Hsame|]. apply (set_caret_same _ d); [apply Hsame|done|..];
    by apply (apply_cuts self1 d o extend (same_ok _ _ Hsame)).
Qed.

Lemma move_rows_same self delta extend : ok self → runs (move_rows self delta extend) (same_text self).
Proof.
  intros Hok. unfold move_rows. pose proof (end_group_same self Hok) as Hsame.
  set (self1 := end_typing_group self) in *. destruct (document self1) as [d|] eqn:Hd; [|done].
  unfold vertical, CodeDocument.byte_to_line. rewrite len_bytes_law, byte_to_line_law. unfold up_to.
  rewrite (proj2 (Nat.leb_le _ _)) by lia. cbn [mbind option_bind].
  set (row := line_of_byte _ _). rewrite offset_at_column_spec. cbn [mbind option_bind runs].
  set (pos := at_column _ _ _).
  assert (is_cut (contents d) (offset_of (contents d) pos)) as Hcut.
  { apply is_cut_offset, at_column_valid. rewrite split_lines_length. lia. }
  eapply same_trans; [exact Hsame|]. apply (set_caret_same _ d); [apply Hsame|done|..];
    by apply (apply_cuts self1 d _ extend (same_ok _ _ Hsame)).
Qed.

(** A motion, its offset placed. *)
Lemma motion_same self d (m : option nat) extend :
  ok self → is_Some m → runs (o ← m; place_caret self o extend) (same_text self).
Proof. intros Hok [o ->]. by apply place_caret_same. Qed.

Lemma cursor_row self d :
  ok self → document self = Some d → ∃ r x y, in_row (contents d) (CodeSelection.cursor (selection self)) r x y.
Proof. intros Hok Hd. apply (ok_row self d _ Hok Hd). by apply (ok_head self). Qed.

Lemma horizontal_same self backward extend : ok self → runs (horizontal self backward extend) (same_text self).
Proof.
  intros Hok. unfold horizontal. set (from := match extend with true => _ | false => _ end).
  destruct (document self) as [d|] eqn:Hd; [|by apply same_refl].
  assert (is_cut (contents d) from) as Hfrom.
  { destruct (range_cut self d Hok Hd). subst from.
    destruct extend, (CodeSelection.is_empty (selection self)), backward; try done; by apply (ok_head self). }
  destruct (ok_row self d from Hok Hd Hfrom) as (r&x&y&Hrow).
  apply (motion_same self d); [done|].
  destruct (_ && _); [by eexists|]. destruct backward; [by eapply grapheme_left_in|by eapply grapheme_right_in].
Qed.

Lemma word_same self backward extend : ok self → runs (word self backward extend) (same_text self).
Proof.
  intros Hok. unfold word. destruct (document self) as [d|] eqn:Hd; [|by apply same_refl].
  destruct (cursor_row self d Hok Hd) as (r&x&y&Hrow). apply (motion_same self d); [done|].
  destruct backward; [by eapply word_left_in|by eapply word_right_in].
Qed.

Lemma line_edge_same self end_ extend : ok self → runs (line_edge self end_ extend) (same_text self).
Proof.
  intros Hok. unfold line_edge. destruct (document self) as [d|] eqn:Hd; [|by apply same_refl].
  destruct (cursor_row self d Hok Hd) as (r&x&y&Hrow). apply (motion_same self d); [done|].
  unfold line_end, line_home. rewrite (row_of_in _ _ _ _ _ Hrow). by destruct end_; eexists.
Qed.

Lemma doc_edge_same self end_ extend : ok self → runs (doc_edge self end_ extend) (same_text self).
Proof.
  intros Hok. unfold doc_edge. destruct (document self) as [d|] eqn:Hd; [|by apply same_refl].
  by apply place_caret_same.
Qed.

Lemma doc_end_contents d : doc_end d = byte_len (contents d).
Proof. unfold doc_end, CodeDocument.len_bytes. by rewrite len_bytes_law. Qed.

Lemma take_whole_same self : ok self → runs (take_whole_document self) (same_text self).
Proof.
  intros Hok. unfold take_whole_document. pose proof (end_group_same self Hok) as Hsame.
  set (self1 := end_typing_group self) in *. destruct (document self1) as [d|] eqn:Hd; [|done].
  assert (is_cut (contents d) (doc_end d)) as Hend by (rewrite doc_end_contents; apply is_cut_end).
  destruct (ok_row self1 d _ (same_ok _ _ Hsame) Hd Hend) as (r&x&y&Hrow).
  assert (is_Some (goal_column d (doc_end d))) as [goal ->].
  { unfold goal_column. rewrite (row_of_in _ _ _ _ _ Hrow). cbn [mbind option_bind].
    destruct Hrow as (Hr&Hxy&Hb). destruct (line_row d r Hr) as (slice&->&Hslice). cbn [mbind option_bind].
    rewrite len_bytes_law, byte_to_char_law. unfold up_to. rewrite (proj2 (Nat.leb_le _ _)) by lia. by eexists. }
  cbn [mbind option_bind runs]. eapply same_trans; [exact Hsame|].
  apply (set_caret_same _ d); [apply Hsame|done|apply is_cut_0|done].
Qed.

(** ** The input method *)

Lemma set_marked_same self range : ok self → same_text self (set_marked self range).
Proof. intros [? ? ? ?]. split; try done. by left. Qed.

Lemma unmark_text_same self : ok self → same_text self (unmark_text self).
Proof. intros Hok. unfold unmark_text. destruct (marked self); [|by apply same_refl]. destruct Hok. split; try done. by right. Qed.

Lemma text_for_range_total self range : runs (text_for_range self range) (λ _, True).
Proof.
  unfold text_for_range. destruct (document self) as [d|]; [|done].
  pose proof (utf16_to_byte_run d range.1) as Ha. pose proof (utf16_to_byte_run d range.2) as Hb.
  destruct (CodeDocument.utf16_to_byte d range.1) as [a|]; [|done].
  destruct (CodeDocument.utf16_to_byte d range.2) as [b|]; [|done]. cbn [mbind option_bind].
  destruct (byte_to_utf16_total d a) as [? ->]. cbn [mbind option_bind].
  destruct (byte_to_utf16_total d (b `max` a)) as [? ->]. cbn [mbind option_bind].
  by destruct (slice_string_total d a (b `max` a)) as [? ->].
Qed.

Lemma resolve_replacement_total self range : runs (resolve_replacement self range) (λ _, True).
Proof.
  unfold resolve_replacement. destruct (document self) as [d|]; [|done]. destruct range as [range|]; [|done].
  pose proof (utf16_to_byte_run d range.1). pose proof (utf16_to_byte_run d range.2).
  destruct (CodeDocument.utf16_to_byte d range.1) as [a|]; [|done].
  by destruct (CodeDocument.utf16_to_byte d range.2) as [b|].
Qed.

Lemma replace_text_carried self range text now :
  ok self → clean text → room_for self 1 (newlines (normalize_newlines text)) →
  runs (replace_text_in_range self range text now) (carried 2 self).
Proof.
  intros Hok Hc Hroom. unfold replace_text_in_range.
  eapply runs_bind; [apply resolve_replacement_total|]. intros [r|] _; [|by apply carried_refl].
  pose proof (set_marked_same self None Hok) as Hsame.
  eapply runs_mono; [apply splice_handler, splice_one|].
  - apply Hsame.
  - by apply clean_normalized.
  - rewrite normalize_twice by done. by apply (room_same self).
  - intros self' Hc'. by eapply same_then_carried.
Qed.

Lemma replace_and_mark_carried self range text selected now :
  ok self → clean text → room_for self 1 (newlines (normalize_newlines text)) →
  runs (replace_and_mark_text_in_range self range text selected now) (carried 2 self).
Proof.
  intros Hok Hc Hroom. unfold replace_and_mark_text_in_range.
  eapply runs_bind; [apply resolve_replacement_total|]. intros [r|] _; [|by apply carried_refl].
  eapply runs_bind.
  { apply splice_one; [done|by apply clean_normalized|by rewrite normalize_twice]. }
  intros [s1 done] Hs1. destruct done; cbn [negb]; [|done].
  set (range1 := if _ : bool then _ else _).
  pose proof (set_marked_same s1 range1 (carried_ok _ _ _ Hs1)) as Hsame. set (s2 := set_marked s1 range1) in *.
  pose proof (carried_then_same _ _ _ _ Hs1 Hsame) as Hs2.
  destruct selected as [sel|]; [|exact Hs2]. destruct (document s2) as [d|] eqn:Hd; [|exact Hs2].
  destruct (byte_to_utf16_total d r.1) as [from ->]. cbn [mbind option_bind].
  pose proof (utf16_to_byte_run d (from + sel.2)) as Hh. pose proof (utf16_to_byte_run d (from + sel.1)) as Ha.
  destruct (CodeDocument.utf16_to_byte d (from + sel.2)) as [h|]; [|done].
  destruct (CodeDocument.utf16_to_byte d (from + sel.1)) as [a|]; [|done]. cbn [mbind option_bind runs].
  eapply carried_then_same; [exact Hs2|]. by apply (set_caret_same _ d); [apply Hs2|..].
Qed.
End handlers.
