(* ===== verification/EditViewBlocks.v ===== *)
(** * The editor: reverting a block ([revert_splice] of [change_markers.rs])

    The splice that reverts a block replaces the lines of the block by those of the
    base, whether the block is in the middle, at the end or the whole of the
    document: the text afterwards is the lines before the block, the lines of the
    base and the lines after the block, joined by newlines.

    The base is installed, the tracker refreshed in the background and a block
    reverted: the tracker of the view stays one that has seen every change. *)

From stdpp Require Import sets.
From S2P Require Import Prelude DiffRange DiffText DiffChanges DiffTracker DiffTrackerCorrect DiffUtf8 EditDocument EditDocumentCorrect EditSplice EditSpliceCorrect EditHistory EditHistoryCorrect EditDisk EditDiskCorrect EditCursor EditCursorCorrect EditView EditViewCorrect EditViewHandlers.

(** ** Joined lines *)

Definition terminate (ls : list str) : str := mjoin ((λ l : str, l ++ [10%N]) <$> ls).

Lemma join_lines_cons l ls : ls ≠ [] → join_lines (l :: ls) = l ++ [10%N] ++ join_lines ls.
Proof. by destruct ls. Qed.

Lemma join_lines_app ls ls' : ls' ≠ [] → join_lines (ls ++ ls') = terminate ls ++ join_lines ls'.
Proof.
  intros Hne. induction ls as [|l ls IH]; [done|]. cbn [app].
  rewrite join_lines_cons by (destruct ls, ls'; done). rewrite IH. unfold terminate. cbn.
  by rewrite <- !app_assoc.
Qed.

Lemma join_pieces ls : ls ≠ [] → mjoin (with_newlines ls) = join_lines ls.
Proof.
  induction ls as [|l ls IH]; [done|]. intros _. destruct ls as [|l' ls]; [cbn; by rewrite app_nil_r|].
  change (mjoin (with_newlines (l :: l' :: ls))) with ((l ++ [10%N]) ++ mjoin (with_newlines (l' :: ls))).
  rewrite IH by done. rewrite (join_lines_cons l (l' :: ls)) by done. by rewrite <- app_assoc.
Qed.

Lemma split_lines_ne s : split_lines s ≠ [].
Proof. intros Heq. pose proof (split_lines_length s) as Hlen. by rewrite Heq in Hlen. Qed.

Lemma join_split s : join_lines (split_lines s) = s.
Proof. rewrite <- join_pieces by apply split_lines_ne. apply pieces_join. Qed.

Lemma split_join ls : ls ≠ [] → Forall (λ l, 10%N ∉ l) ls → split_lines (join_lines ls) = ls.
Proof.
  intros Hne Hls. induction Hls as [|l ls Hl Hls IH]; [done|]. destruct ls as [|l' ls].
  - cbn. apply split_lines_one. by apply newlines_none.
  - rewrite join_lines_cons by done. cbn [app]. rewrite split_lines_newline, IH by done.
    by rewrite split_lines_one by by apply newlines_none.
Qed.

(** Up to a line that is not the first. *)
Lemma terminate_take s i : i < length (split_lines s) → terminate (take i (split_lines s)) = mjoin (take i (pieces s)).
Proof.
  intros Hi. unfold pieces, terminate. destruct (drop i (split_lines s)) as [|l rest] eqn:Hdrop.
  - apply (f_equal length) in Hdrop. rewrite length_drop in Hdrop. cbn in Hdrop. lia.
  - rewrite <- (take_drop i (split_lines s)) at 2. rewrite Hdrop, with_newlines_app.
    by rewrite take_app_length' by (rewrite length_fmap, length_take; lia).
Qed.

Lemma terminate_offset s i : i < length (split_lines s) → byte_len (terminate (take i (split_lines s))) = line_offset s i.
Proof. intros Hi. by rewrite terminate_take. Qed.

Lemma terminate_app ls ls' : terminate (ls ++ ls') = terminate ls ++ terminate ls'.
Proof. unfold terminate. by rewrite fmap_app, join_app. Qed.

Lemma terminate_join ls : ls ≠ [] → terminate ls = join_lines ls ++ [10%N].
Proof.
  induction ls as [|l ls IH]; [done|]. intros _. destruct ls as [|l' ls]; [unfold terminate; cbn; by rewrite app_nil_r|].
  rewrite (join_lines_cons l (l' :: ls)) by done.
  change (terminate (l :: l' :: ls)) with ((l ++ [10%N]) ++ terminate (l' :: ls)).
  rewrite IH by done. by rewrite <- !app_assoc.
Qed.

(** Lines that are appended. *)
Lemma join_lines_append ls ls' : ls ≠ [] →
  join_lines (ls ++ ls') = join_lines ls ++ mjoin ((λ l : str, [10%N] ++ l) <$> ls').
Proof.
  intros Hne. induction ls as [|l ls IH]; [done|]. destruct ls as [|l' ls].
  - clear. cbn [app]. revert l. induction ls' as [|l' ls' IH]; intros l; [cbn; by rewrite app_nil_r|].
    rewrite join_lines_cons by done. rewrite IH. cbn. done.
  - change ((l :: l' :: ls) ++ ls') with (l :: ((l' :: ls) ++ ls')).
    rewrite (join_lines_cons l ((l' :: ls) ++ ls')), (join_lines_cons l (l' :: ls)), IH by done.
    by rewrite <- !app_assoc.
Qed.

Section revert.
Context `{Hrope : Rope, Hlaws : !RopeLaws}.
Implicit Types d : CodeDocument.t.

(** [range.start.min(len)] and [range.end.min(len).max(start)] *)
Definition clipped (r : LineRange) (len : nat) : nat * nat :=
  let first := Z.to_nat (start r) `min` len in
  (first, (Z.to_nat (end_ r) `min` len) `max` first).

(** The lines of a document whose block is reverted. *)
Definition reverted (lines base : list str) (block : Block) : list str :=
  let '(first, last) := clipped (DiffTracker.lines block) (length lines) in
  let '(base_start, base_end) := clipped (base_lines block) (length base) in
  take first lines ++ cut base base_start base_end ++ drop last lines.

(** Offsets that replace [x] by [y]. *)
Definition replaces (s : str) (op : (nat * nat) * str) (t : str) : Prop :=
  ∃ p x q, s = p ++ x ++ q ∧ op.1 = (byte_len p, byte_len (p ++ x)) ∧ t = p ++ op.2 ++ q.

Lemma replaces_at s p x q a b y t :
  s = p ++ x ++ q → a = byte_len p → b = byte_len (p ++ x) → t = p ++ y ++ q → replaces s ((a, b), y) t.
Proof. intros Hs -> -> ->. by exists p, x, q. Qed.

Lemma revert_splice_spec d base block :
  runs (revert_splice d base block) (λ op,
    replaces (contents d) op (join_lines (reverted (split_lines (contents d)) base block))).
Proof.
  unfold revert_splice, reverted, clipped. unfold CodeDocument.line_count, CodeDocument.len_bytes.
  rewrite len_lines_law, len_bytes_law. fold (contents d). set (s := contents d).
  assert (0 < length (split_lines s)) as Hpos by (rewrite split_lines_length; lia).
  set (n := length (split_lines s)) in *.
  set (first := Z.to_nat (start (DiffTracker.lines block)) `min` n).
  set (last := (Z.to_nat (end_ (DiffTracker.lines block)) `min` n) `max` first).
  set (bs := Z.to_nat (start (base_lines block)) `min` length base).
  set (be := (Z.to_nat (end_ (base_lines block)) `min` length base) `max` bs).
  assert (first ≤ last ≤ n) as Hfl by lia.
  rewrite slice_some by lia. cbn [mbind option_bind]. fold (cut base bs be). set (new := cut base bs be).
  assert (∀ i, i < n → CodeDocument.line_to_byte d i = Some (byte_len (terminate (take i (split_lines s))))) as Hoff.
  { intros i Hi. rewrite line_to_byte_row by done. by rewrite terminate_offset. }
  assert (∀ i, i < n → s = terminate (take i (split_lines s)) ++ join_lines (drop i (split_lines s))) as Hcut.
  { intros i Hi. rewrite <- (join_split s) at 1. rewrite <- (take_drop i (split_lines s)) at 1. apply join_lines_app.
    intros Hnil. apply (f_equal length) in Hnil. rewrite length_drop in Hnil. cbn in Hnil. lia. }
  destruct (Nat.ltb_spec last n) as [Hlast|Hlast].
  - rewrite (proj2 (Nat.ltb_lt _ _)) by lia. rewrite !Hoff by lia. cbn [mbind option_bind runs].
    assert (terminate (take last (split_lines s)) =
      terminate (take first (split_lines s)) ++ terminate (cut (split_lines s) first last)) as Hmid.
    { rewrite <- terminate_app. f_equal. unfold cut. rewrite take_take_drop. f_equal. lia. }
    apply (replaces_at s (terminate (take first (split_lines s))) (terminate (cut (split_lines s) first last))
      (join_lines (drop last (split_lines s)))); [|done|by rewrite Hmid|].
    + rewrite (Hcut last Hlast) at 1. by rewrite Hmid, <- app_assoc.
    + rewrite (app_assoc (take first (split_lines s)) new), (join_lines_app (take first (split_lines s) ++ new)),
        terminate_app by
        (intros Hnil; apply (f_equal length) in Hnil; rewrite length_drop in Hnil; cbn in Hnil; lia).
      by rewrite <- app_assoc.
  - assert (last = n) as Hn by lia. rewrite (drop_ge _ last), app_nil_r by lia.
    destruct (Nat.eqb_spec first last) as [Heq|Hne].
    + apply (replaces_at s s [] []); [by rewrite !app_nil_r|done|by rewrite app_nil_r|].
      rewrite take_ge by lia. rewrite join_lines_append by apply split_lines_ne. by rewrite join_split, app_nil_r.
    + assert (first < n) as Hfirst by lia. rewrite (proj2 (Nat.ltb_lt first n)), Hoff by done.
      pose proof (Hcut first Hfirst) as Hs.
      case_bool_decide as Hnew; cbn [mbind option_bind runs].
      * rewrite Hnew, app_nil_r. destruct (Nat.ltb_spec 0 first) as [Hf|Hf].
        -- rewrite (terminate_join (take first (split_lines s))) in * by
             (intros Hnil; apply (f_equal length) in Hnil; rewrite length_take in Hnil; cbn in Hnil; lia).
           apply (replaces_at s (join_lines (take first (split_lines s)))
             ([10%N] ++ join_lines (drop first (split_lines s))) []).
           ++ rewrite Hs at 1. by rewrite app_nil_r, <- app_assoc.
           ++ rewrite byte_len_app. change (byte_len [10%N]) with 1. lia.
           ++ rewrite Hs at 1. by rewrite <- app_assoc.
           ++ by rewrite !app_nil_r.
        -- assert (first = 0) as -> by lia. rewrite take_0.
           apply (replaces_at s [] s []); [by rewrite app_nil_r|done..].
      * apply (replaces_at s (terminate (take first (split_lines s))) (join_lines (drop first (split_lines s))) []);
          [by rewrite app_nil_r|done|by rewrite <- Hs|]. rewrite join_lines_app by done. by rewrite app_nil_r.
Qed.
End revert.

(** * The editor: the base and the tracker of the view *)

Section blocks.
Context `{Hrope : Rope, Hlaws : !RopeLaws} `{Hg : Graphemes, Hglaws : !GraphemesLaws}.
Context `{Hdiff : MyersDiff, Hdlaws : !MyersDiffLaws}.
Implicit Types (self : Editor) (d : CodeDocument.t).

(** ** The base *)

Lemma count_lines_fits text : fits (split_lines text) → count_lines text = Z.of_nat (length (split_lines text)).
Proof.
  unfold fits, count_lines. rewrite split_lines_length, count_bytes_newlines. intros Hf.
  rewrite as_u32_small by lia. lia.
Qed.

Lemma line_count_fits d : plain (contents d) →
  as_u32 (CodeDocument.line_count d) = Z.of_nat (length (split_lines (contents d))).
Proof.
  intros [_ Hf]. unfold CodeDocument.line_count. rewrite len_lines_law. fold (contents d). by apply as_u32_small.
Qed.

Lemma ok_set_tracker self t gen :
  ok self →
  (active t = true → ∃ d text sha, document self = Some d ∧ base self = Base.Text text sha ∧
     reachable Default (split_lines (contents d)) (split_lines text) t) →
  ok (set_tracker self t gen).
Proof. intros [? ? ? _] Ht. by split. Qed.

Lemma ok_schedule self : ok self → ok (schedule_tracker_refresh self).
Proof. intros Hok. destruct (schedule_kept self) as [gen ->]. apply ok_set_tracker; [done|by apply ok_tracker]. Qed.

Lemma schedule_document self : document (schedule_tracker_refresh self) = document self.
Proof. by destruct (schedule_kept self) as [gen ->]. Qed.

Definition base_fits (b : Base.t) : Prop := ∀ text sha, b = Base.Text text sha → fits (split_lines text).

(** All but the tracker. *)
Record sound self : Prop := {
  sound_path d : document self = Some d → on_path (λ _ _, True) (history self) (contents d);
  sound_anchor d : document self = Some d → is_cut (contents d) (anchor (selection self));
  sound_head d : document self = Some d → is_cut (contents d) (sel_head (selection self)) }.

Lemma ok_sound self : ok self → sound self.
Proof. by intros []. Qed.

Lemma reset_tracker_ok self : sound self → base_fits (base self) → ok (reset_tracker self).
Proof.
  intros [Hp Ha Hh] Hb. unfold reset_tracker.
  destruct (document self) as [d|] eqn:Hd; [|by split; cbn; [rewrite Hd..|]].
  destruct (base self) as [| |text sha] eqn:Hbase; cbn [Base.text];
    [by split; cbn; [rewrite Hd..|]| by split; cbn; [rewrite Hd..|]|].
  apply ok_schedule. split; cbn; [rewrite Hd; auto..|]. intros _. exists d, text, sha. rewrite Hd, Hbase.
  pose proof (on_path_plain _ _ _ (Hp d eq_refl)) as Hplain. pose proof (Hb _ _ eq_refl) as Hfit.
  rewrite (line_count_fits d Hplain), (count_lines_fits text Hfit). split_and!; [done..|].
  apply reach_fresh; [apply Hplain|done].
Qed.

Lemma reset_tracker_doc self : document (reset_tracker self) = document self ∧ base (reset_tracker self) = base self
  ∧ history (reset_tracker self) = history self.
Proof.
  unfold reset_tracker. by destruct (document self) eqn:Hd, (Base.text (base self)).
Qed.

(** A commit has one text of the file. *)
Lemma install_base_ok self new :
  ok self → base_fits new →
  (∀ text text' sha, base self = Base.Text text sha → new = Base.Text text' sha → text' = text) →
  ok (install_base self new) ∧ document (install_base self new) = document self ∧
  base (install_base self new) = new ∧ history (install_base self new) = history self.
Proof.
  intros Hok Hfit Hone. unfold install_base. set (same := match Base.head_sha (base self) with Some _ => _ | None => _ end).
  destruct (same && active (tracker (set_base self new))) eqn:Hsame.
  - split_and!; try done. apply andb_true_iff in Hsame as [Hs Hact]. cbn in Hact.
    destruct (ok_tracker _ Hok Hact) as (d&text&sha&Hd&Hb&Hr). subst same. rewrite Hb in Hs. cbn in Hs.
    destruct new as [| |text' sha'] eqn:Hnew; [done..|]. cbn in Hs. apply bool_decide_eq_true in Hs as <-.
    destruct Hok as [? ? ? _]. split; [done..|]. intros _. exists d, text', sha. split_and!; [done..|].
    by rewrite (Hone text text' sha Hb eq_refl).
  - set (s1 := set_popup _ None). split; [|by destruct (reset_tracker_doc s1) as (->&->&->)].
    apply reset_tracker_ok; [|done]. by destruct Hok.
Qed.

(** ** Refreshing in the background *)

(** What a background refresh works on. *)
Definition job_fair (job : TrackerJob) : Prop :=
  reachable Default (split_lines (to_str (job_text job))) (split_lines (job_base job)) (job_tracker job).

(** The counters have room for the refresh. *)
Definition job_room (job : TrackerJob) : Prop :=
  room (split_lines (to_str (job_text job))) (split_lines (job_base job)) (stats (job_tracker job))
    (length (blocks (job_tracker job)) + 1).

Lemma run_job_run job : job_fair job → job_room job →
  runs (run_tracker_job job) (λ t, BlockTracker.is_dirty t = false ∧
    reachable Default (split_lines (to_str (job_text job))) (split_lines (job_base job)) t).
Proof.
  intros Hfair Hroom. unfold run_tracker_job.
  destruct (reachable_ok Default _ _ _ Hfair) as (Hd&Hb&Ha&Htr&Hset).
  pose proof (refresh_dirty_spec _ _ Default Hd Hb _ Ha Htr Hset Hroom) as Hspec.
  destruct (BlockTracker.refresh_dirty _ _ _ _) as [[t ch]|] eqn:Hrun; [|done]. cbn.
  destruct Hspec as (_&_&_&_&Hclean). split; [|by eapply reach_refresh].
  by apply existsb_Forall_false.
Qed.

Lemma refresh_now_ok self : ok self →
  ok (refresh_tracker_now self).1 ∧ document (refresh_tracker_now self).1 = document self ∧
  base (refresh_tracker_now self).1 = base self ∧ history (refresh_tracker_now self).1 = history self ∧
  ∀ job, (refresh_tracker_now self).2 = Some job → job_fair job ∧
    (∃ sha, base self = Base.Text (job_base job) sha ∧ job_sha job = Some sha) ∧
    ∀ d, document self = Some d → job_revision job = CodeDocument.revision d ∧ to_str (job_text job) = contents d.
Proof.
  intros Hok. unfold refresh_tracker_now.
  destruct (negb (active (tracker self)) || _) eqn:Hskip; [by split_and!|].
  apply orb_false_iff in Hskip as [Hact%negb_false_iff _].
  destruct (ok_tracker _ Hok Hact) as (d&text&sha&Hd&Hb&Hr). rewrite Hd, Hb. cbn.
  split_and!; [apply ok_set_tracker; [done|by apply ok_tracker]|done..|].
  intros job [= <-]. cbn. split_and!; [done|by exists sha|]. by intros ? [= <-].
Qed.

(** A result that is applied is of the text and the base there are. *)
Lemma apply_job_ok self job t :
  ok self →
  reachable Default (split_lines (to_str (job_text job))) (split_lines (job_base job)) t →
  (∀ d text sha, document self = Some d → base self = Base.Text text sha →
     job_sha job = Some sha → job_revision job = CodeDocument.revision d →
     to_str (job_text job) = contents d ∧ job_base job = text) →
  ok (apply_tracker_job self job t) ∧ document (apply_tracker_job self job t) = document self ∧
  base (apply_tracker_job self job t) = base self ∧ history (apply_tracker_job self job t) = history self.
Proof.
  intros Hok Hr Hjob. unfold apply_tracker_job. destruct (negb (slot_accept _ _)); [by split_and!|].
  destruct (active (tracker self)) eqn:Hact; cbn [negb orb]; [|by split_and!].
  destruct (ok_tracker _ Hok Hact) as (d&text&sha&Hd&Hb&_).
  destruct (bool_decide _ && _) eqn:Hfresh.
  - split_and!; try done. apply ok_set_tracker; [done|]. intros _. exists d, text, sha.
    apply andb_true_iff in Hfresh as [Hsha%bool_decide_eq_true Hrev%bool_decide_eq_true].
    rewrite Hb in Hsha. rewrite Hd in Hrev. cbn in Hrev. injection Hrev as Hrev.
    destruct (Hjob d text sha Hd Hb (eq_sym Hsha) (eq_sym Hrev)) as [<- <-]. by split_and!.
  - destruct (schedule_kept self) as [gen Heq]. split; [by apply ok_schedule|]. by rewrite Heq.
Qed.

(** ** Reverting a block *)

(** A tracker is asked about every line but the last that [u32] has. *)
Lemma block_at_run t line : (line < U32_MAX)%Z →
  runs (BlockTracker.block_at t line) (λ o, ∀ ib, o = Some ib → ib ∈ imap pair (blocks t)).
Proof.
  intros Hline. unfold BlockTracker.block_at.
  eapply runs_mono; [apply (runs_find_some _ _ (λ _, True))|].
  - intros ib _. eapply runs_mono; [by apply covers_line_spec|]. by intros.
  - intros o Ho ib Hib. by apply Ho.
Qed.

Lemma newlines_join ls : Forall (λ l, 10%N ∉ l) ls → newlines (join_lines ls) ≤ length ls.
Proof.
  intros Hls. destruct (decide (ls = [])) as [->|Hne]; [done|].
  pose proof (split_lines_length (join_lines ls)) as Hlen. rewrite split_join in Hlen by done. lia.
Qed.

Lemma join_lines_chars ls c : c ∈ join_lines ls → c = 10%N ∨ ∃ l, l ∈ ls ∧ c ∈ l.
Proof.
  induction ls as [|l ls IH]; [by intros ?%elem_of_nil|]. destruct ls as [|l' ls].
  - intros Hc. right. exists l. split; [by left|done].
  - rewrite join_lines_cons by done. intros [Hc|[Hc|Hc]%elem_of_app]%elem_of_app.
    + right. exists l. split; [by left|done].
    + left. by apply list_elem_of_singleton in Hc.
    + destruct (IH Hc) as [->|(l0&Hl0&?)]; [by left|right]. exists l0. split; [by right|done].
Qed.

Lemma reverted_lines ls base block l : l ∈ reverted ls base block → l ∈ ls ∨ l ∈ base.
Proof.
  unfold reverted, clipped, cut. rewrite !elem_of_app.
  intros [Hl|[Hl|Hl]]; [left|right|left].
  - by eapply elem_of_take in Hl as (?&?&_); eapply list_elem_of_lookup_2.
  - apply elem_of_take in Hl as (i&Hi&_). rewrite lookup_drop in Hi. by eapply list_elem_of_lookup_2.
  - apply list_elem_of_lookup_1 in Hl as [i Hi]. rewrite lookup_drop in Hi. by eapply list_elem_of_lookup_2.
Qed.

Lemma reverted_length ls base block : length (reverted ls base block) ≤ length ls + length base.
Proof.
  assert (∀ r n, (clipped r n).1 ≤ (clipped r n).2) as Hle by (intros; unfold clipped; cbn [fst snd]; lia).
  unfold reverted. pose proof (Hle (DiffTracker.lines block) (length ls)) as H1.
  pose proof (Hle (base_lines block) (length base)) as H2.
  destruct (clipped _ _) as [a b], (clipped _ _) as [a' b']. cbn [fst snd] in *. unfold cut.
  rewrite !length_app, !length_take, !length_drop. lia.
Qed.

Lemma lines_elem text l c : l ∈ split_lines text → c ∈ l → c ∈ text.
Proof. intros [i Hi]%list_elem_of_lookup_1. by eapply line_elem_of. Qed.

(** The splice of a revert can be made. *)
Lemma revert_op_clean d text block op :
  13%N ∉ contents d → 13%N ∉ text →
  replaces (contents d) op (join_lines (reverted (split_lines (contents d)) (split_lines text) block)) →
  clean op.2 ∧ normalize_newlines op.2 = op.2 ∧
  newlines op.2 ≤ line_rows d + length (split_lines text).
Proof.
  intros Hs Ht (p&x&q&_&_&Heq). set (ls := reverted _ _ _) in *.
  assert (∀ l, l ∈ ls → (∀ c, c ∈ l → c ∈ contents d ∨ c ∈ text) ∧ 10%N ∉ l) as Hls.
  { intros l [Hl|Hl]%reverted_lines; (split; [|apply list_elem_of_lookup_1 in Hl as [i Hi]; by eapply line_no_newline]);
      intros c Hc; [left|right]; by eapply lines_elem. }
  assert (13%N ∉ op.2) as Hclean.
  { intros Hin. assert (13%N ∈ join_lines ls) as Hj by (rewrite Heq; set_solver).
    apply join_lines_chars in Hj as [?|(l&Hl&Hc)]; [done|]. destruct (Hls l Hl) as [Hcs _].
    by destruct (Hcs _ Hc). }
  split_and!; [unfold clean; by rewrite normalize_no_cr|by apply normalize_no_cr|].
  etrans; [|apply (reverted_length (split_lines (contents d)) (split_lines text) block)]. fold ls.
  etrans; [|apply newlines_join; apply Forall_forall; intros l Hl; by apply Hls].
  rewrite Heq, !newlines_app. lia.
Qed.

(** Where the lines of a block are reverted, and by what. *)
Lemma splice_text_replaces s op t : replaces s op t → crlf_free op.2 → splice_text s op = t.
Proof.
  intros (p&x&q&Hs&Hop&->) Hc. destruct op as [[a b] y]. cbn in *. injection Hop as -> ->.
  rewrite Hs. by apply splice_text_cut.
Qed.

(** What [revert_block] has to revert: the document, when it can be edited, the
    committed text and the block that was found. *)
Definition revert_target self (found : option (nat * Block)) : option (CodeDocument.t * str * Block) :=
  match document self, base self, found with
  | Some d, Base.Text text _, Some (_, block) =>
      match CodeDocument.read_only d with None => Some (d, text, block) | Some _ => None end
  | _, _, _ => None
  end.

Lemma revert_block_run self line now :
  ok self → (as_u32 line < U32_MAX)%Z →
  (∀ text sha, base self = Base.Text text sha → 13%N ∉ text ∧
     ∀ d, document self = Some d → room_for self 1 (line_rows d + length (split_lines text))) →
  runs (BlockTracker.block_at (tracker self) (as_u32 line)) (λ found,
    runs (revert_block self line now) (λ '(self', done, job), ∃ self1,
      carried 2 self self1 ∧
      (if done then (self', job) = refresh_tracker_now self1 else self' = self1 ∧ job = None) ∧
      match revert_target self found with
      | Some (d, text, block) => ∃ d', document self1 = Some d' ∧
          contents d' = join_lines (reverted (split_lines (contents d)) (split_lines text) block) ∧
          (done = false → contents d' = contents d)
      | None => done = false ∧ self1 = self
      end)).
Proof.
  intros Hok Hline Hroom. unfold revert_block, revert_target.
  pose proof (block_at_run (tracker self) _ Hline) as Hfound.
  destruct (BlockTracker.block_at _ _) as [found|] eqn:Hat; [|done]. cbn [runs].
  assert (∃ self1, carried 2 self self1 ∧ (self = self1 ∧ @None TrackerJob = None) ∧ false = false ∧ self1 = self) as Hsame
    by (exists self; split; [by apply carried_refl|done]).
  destruct (document self) as [d|] eqn:Hd; [|exact Hsame]. unfold CodeDocument.is_read_only.
  destruct (CodeDocument.read_only d) eqn:Hron; [by destruct (base self), found as [[]|]|]. cbn [mbind option_bind].
  destruct found as [[i block]|]; [|by destruct (base self)].
  destruct (base self) as [| |text sha] eqn:Hb; cbn [Base.text]; [exact Hsame..|]. clear Hsame.
  destruct (Hroom text sha eq_refl) as [Htext Hroom']. specialize (Hroom' d eq_refl).
  pose proof (revert_splice_spec d (split_lines text) block) as Hsp.
  destruct (revert_splice d (split_lines text) block) as [op|]; [|done]. cbn [runs mbind option_bind] in Hsp |- *.
  assert (splice_text (contents d) op = join_lines (reverted (split_lines (contents d)) (split_lines text) block)) as Htarget.
  { apply splice_text_replaces; [done|]. destruct (revert_op_clean d text block op) as (Hclean&Hnorm&_);
      [by apply (ok_plain self d)|done|done|]. rewrite <- Hnorm. by apply no_cr_crlf_free. }
  destruct (revert_op_clean d text block op) as (Hclean&Hnorm&Hlen); [by apply (ok_plain self d)|done|done|].
  pose proof (end_group_same self Hok) as Hsame. set (s0 := end_typing_group self) in *.
  assert (room_for s0 1 (newlines (normalize_newlines op.2))) as Hroom0.
  { apply (room_same self); [done|]. rewrite Hnorm. by eapply room_for_le; [| |exact Hroom']. }
  destruct (Hroom0 d ltac:(by rewrite (same_doc _ _ Hsame))) as (Hid&Hspare&Hfit).
  eapply runs_bind.
  { apply (runs_conj _ (λ '(s1, _), carried 2 s0 s1)).
    - destruct op as [range y]. by apply splice_one; [apply Hsame|..].
    - destruct op as [range y]. apply (splice_all_run s0 d [(range, y)]); [apply Hsame| |done|].
      + split; [by rewrite (same_doc _ _ Hsame)|done|done].
      + split; [by constructor|]. cbn [sum_list_with snd] in *. by rewrite Nat.add_0_r. }
  intros [s1 done] [Hc Hspl]. destruct done; cbn [negb].
  - destruct (refresh_tracker_now s1) as [s2 job] eqn:Hnow. simpl. exists s1.
    split; [by eapply same_then_carried|]. split; [done|].
    destruct Hspl as (_&_&_&d'&Hd'&Hres&_). exists d'. rewrite (respliced_contents _ _ _ Hres). by split_and!.
  - simpl. exists s1. split; [by eapply same_then_carried|]. split; [done|].
    destruct Hspl as (_&_&_&d'&Hd'&Hres&_&_&Hsame1&_). exists d'. split_and!; [done| |done].
    by rewrite (respliced_contents _ _ _ Hres).
Qed.
End blocks.
