(* ===== verification/EditViewWorld.v ===== *)
(** * The editor: every sequence of events

    The handlers of the view and the background refreshes of its tracker, in any
    order: a [world] is a view and the refreshes that are still running.  In every
    state that satisfies [world_ok] an event that is [ready] - the counters have
    room for it, its text has no lone [\r] - is handled without a panic and leads
    to such a state again.

    Whatever the editor does with a document that is read-only - its file is, or a
    line of it is too long - the document stays the same. *)

From stdpp Require Import relations.
From S2P Require Import Prelude DiffRange DiffText DiffChanges DiffTracker DiffTrackerCorrect DiffUtf8 EditDocument EditDocumentCorrect EditSplice EditSpliceCorrect EditHistory EditHistoryCorrect EditCursor EditCursorCorrect EditView EditViewCorrect EditViewHandlers EditViewBlocks.

Inductive Event :=
| InsertText (text : str) (group : EditGroup) (now : Z)
| DeleteGrapheme (forward : bool) (now : Z)
| InsertNewline (now : Z)
| ShiftLines (outdent : bool) (now : Z)
| CopySelection (cut : bool) (now : Z)
| Paste (clipboard : str) (now : Z)
| TimeTravel (redo : bool)
| PlaceCaret (offset : nat) (extend : bool)
| MoveRows (delta : Z) (extend : bool)
| Horizontal (backward extend : bool)
| Word (backward extend : bool)
| LineEdge (end_ extend : bool)
| DocEdge (end_ extend : bool)
| SelectAll
| UnmarkText
| ReplaceText (range : option (nat * nat)) (text : str) (now : Z)
| ReplaceAndMark (range : option (nat * nat)) (text : str) (selected : option (nat * nat)) (now : Z)
| InstallBase (new : Base.t)
| RefreshNow
| RevertBlock (line : nat) (now : Z)
| OpenMarkerPopup (index : nat)
| RevertFromPopup (now : Z)
| Refreshed (i : nat).

Section world.
Context `{Hrope : Rope} `{Hg : Graphemes} `{Hdiff : MyersDiff}.

(** The view, and the refreshes that run in the background. *)
Definition world : Type := Editor * list TrackerJob.

Definition with_job (jobs : list TrackerJob) (job : option TrackerJob) : list TrackerJob :=
  match job with Some job => jobs ++ [job] | None => jobs end.

Definition handle (ev : Event) (w : world) : option world :=
  let '(self, jobs) := w in
  let quiet (m : option Editor) : option world := self ← m; Some (self, jobs) in
  match ev with
  | InsertText text group now => r ← insert_text self text group now; Some (r.1, jobs)
  | DeleteGrapheme forward now => quiet (delete_grapheme self forward now)
  | InsertNewline now => quiet (insert_newline self now)
  | ShiftLines outdent now => quiet (shift_lines self outdent now)
  | CopySelection cut now => r ← copy_selection self cut now; Some (r.1, jobs)
  | Paste clipboard now => quiet (paste self clipboard now)
  | TimeTravel redo => quiet (time_travel self redo)
  | PlaceCaret offset extend => quiet (place_caret self offset extend)
  | MoveRows delta extend => quiet (move_rows self delta extend)
  | Horizontal backward extend => quiet (horizontal self backward extend)
  | Word backward extend => quiet (word self backward extend)
  | LineEdge end_ extend => quiet (line_edge self end_ extend)
  | DocEdge end_ extend => quiet (doc_edge self end_ extend)
  | SelectAll => quiet (take_whole_document self)
  | UnmarkText => Some (unmark_text self, jobs)
  | ReplaceText range text now => quiet (replace_text_in_range self range text now)
  | ReplaceAndMark range text selected now =>
      quiet (replace_and_mark_text_in_range self range text selected now)
  | InstallBase new => Some (install_base self new, jobs)
  | RefreshNow => let '(self, job) := refresh_tracker_now self in Some (self, with_job jobs job)
  | RevertBlock line now => '(self, _, job) ← revert_block self line now; Some (self, with_job jobs job)
  | OpenMarkerPopup index => Some (open_marker_popup self index, jobs)
  | RevertFromPopup now => '(self, job) ← revert_from_popup self now; Some (self, with_job jobs job)
  | Refreshed i =>
      match jobs !! i with
      | Some job => t ← run_tracker_job job; Some (apply_tracker_job self job t, delete i jobs)
      | None => Some (self, jobs)
      end
  end.

(** ** When an event can be handled *)

Definition inserts self (text : str) : Prop := clean text ∧ room_for self 1 (newlines (normalize_newlines text)).

Definition reverts self : Prop := ∀ text sha, base self = Base.Text text sha →
  13%N ∉ text ∧ ∀ d, document self = Some d → room_for self 1 (line_rows d + length (split_lines text)).

(** [text_of sha] is the text of the file at the commit [sha]. *)
Context (text_of : str → str).

Definition ready (ev : Event) (w : world) : Prop :=
  let '(self, jobs) := w in
  match ev with
  | InsertText text _ _ | ReplaceText _ text _ | ReplaceAndMark _ text _ _ => inserts self text
  | DeleteGrapheme _ _ | CopySelection _ _ => room_for self 1 0
  | InsertNewline _ => room_for self 1 1
  | ShiftLines _ _ => ∀ d, document self = Some d → room_for self (line_rows d) 0
  | Paste clipboard _ => room_for self 1 (newlines (sanitize_paste clipboard))
  | TimeTravel redo => ∀ d, document self = Some d → spare (2 * top_edits
      (if redo then UndoHistory.redo_stack (history self) else UndoHistory.undo_stack (history self))) d
  | InstallBase new => ∀ text sha, new = Base.Text text sha → text = text_of sha ∧ fits (split_lines text)
  | RevertBlock line _ => (as_u32 line < U32_MAX)%Z ∧ reverts self
  | RevertFromPopup _ =>
      (∀ block, popup self = Some block → 0 ≤ start (lines block) < U32_MAX)%Z ∧ reverts self
  | Refreshed i => ∀ job, jobs !! i = Some job → job_room job
  | _ => True
  end.

(** ** The invariant *)

Definition pending self (job : TrackerJob) : Prop :=
  job_fair job ∧ (∃ sha, job_sha job = Some sha ∧ job_base job = text_of sha) ∧
  ∀ d, document self = Some d → (job_revision job ≤ CodeDocument.revision d)%Z ∧
    (job_revision job = CodeDocument.revision d → to_str (job_text job) = contents d).

Definition world_ok (w : world) : Prop :=
  ok w.1 ∧ (∀ text sha, base w.1 = Base.Text text sha → text = text_of sha ∧ fits (split_lines text)) ∧
  Forall (pending w.1) w.2.

Definition world_step (w w' : world) : Prop := ∃ ev, ready ev w ∧ handle ev w = Some w'.

(** A file that was just opened. *)
Definition opened (raw : str) (unit : IndentUnit) : world :=
  (mkEditor (Some (CodeDocument.new raw)) (CodeSelection.at_ 0) 0 UndoHistory.default None unit Base.None_
     BlockTracker.inactive 0 None 1, []).
End world.

Section correct.
Context `{Hrope : Rope, Hlaws : !RopeLaws} `{Hg : Graphemes, Hglaws : !GraphemesLaws}.
Context `{Hdiff : MyersDiff, Hdlaws : !MyersDiffLaws} (text_of : str → str).
Implicit Types self : Editor.

Lemma pending_carried n self self' job : carried n self self' → pending text_of self job → pending text_of self' job.
Proof.
  intros [_ _ _ _ Hn Hd _] (Hf&Hsha&Hrev). split_and!; [done..|]. intros d' Hd'.
  destruct (document self) as [d|]; [|by rewrite Hn in Hd'].
  destruct (Hd d eq_refl) as (d1&Hd1&[Hl _ Hs]&_). rewrite Hd1 in Hd'. injection Hd' as ->.
  destruct (Hrev d eq_refl) as [Hle Heq]. split; [lia|]. intros Hr. rewrite Hs by lia. apply Heq. lia.
Qed.

(** No other text has the revision of [d]. *)
Definition later (d d' : CodeDocument.t) : Prop :=
  (CodeDocument.revision d ≤ CodeDocument.revision d')%Z ∧
  (CodeDocument.revision d' = CodeDocument.revision d → contents d' = contents d).

Lemma later_refl d : later d d.
Proof. by split. Qed.

Lemma later_trans d d1 d' : later d d1 → later d1 d' → later d d'.
Proof. intros [Hl Hs] [Hl' Hs']. split; [lia|]. intros Heq. rewrite Hs' by lia. apply Hs. lia. Qed.

Lemma advanced_later n d d' : advanced n d d' → later d d'.
Proof. by intros [Hl _ Hs]. Qed.

(** What an event makes of the document and of the history. *)
Record evolved self self' : Prop := {
  evolved_none : document self = None → document self' = None;
  evolved_doc d : document self = Some d → ∃ d', document self' = Some d' ∧
    CodeDocument.read_only d' = CodeDocument.read_only d ∧
    CodeDocument.line_ending d' = CodeDocument.line_ending d ∧
    later d d' ∧ rtc hist_step (d, history self) (d', history self') }.

Lemma carried_evolved n self self' : carried n self self' → evolved self self'.
Proof.
  intros [_ _ _ _ Hn Hd Hst]. split; [done|]. intros d Hd0. destruct (Hd d Hd0) as (d'&Hd'&Hadv&?&?).
  exists d'. split_and!; [done..|by eapply advanced_later|auto].
Qed.

Lemma evolved_same self self' : document self' = document self → history self' = history self → evolved self self'.
Proof. intros Hd Hh. split; [by rewrite Hd|]. rewrite Hd, Hh. intros d ->. exists d. by split_and!. Qed.

Lemma evolved_trans self s1 self' : evolved self s1 → evolved s1 self' → evolved self self'.
Proof.
  intros [Hn Hd] [Hn' Hd']. split; [auto|]. intros d Hd0. destruct (Hd d Hd0) as (d1&Hd1&Hr&Hl&Hlt&Hs).
  destruct (Hd' d1 Hd1) as (d'&?&Hr'&Hl'&Hlt'&Hs'). exists d'.
  split_and!; [done|congruence..|by eapply later_trans|by etrans].
Qed.

Definition follows (w w' : world) : Prop := world_ok text_of w' ∧ evolved w.1 w'.1.

(** A handler that starts no refresh. *)
Lemma world_carried n self self' jobs :
  world_ok text_of (self, jobs) → carried n self self' → follows (self, jobs) (self', jobs).
Proof.
  intros (_&Hb&Hj) Hc. split; [|by eapply carried_evolved].
  split_and!; cbn in *; [apply Hc|by rewrite (carried_base _ _ _ Hc)|].
  eapply Forall_impl; [exact Hj|]. intros job. by apply (pending_carried n).
Qed.

Lemma world_same self self' jobs :
  world_ok text_of (self, jobs) → same_text self self' → follows (self, jobs) (self', jobs).
Proof. intros Hw Hs. eapply (world_carried 0); [exact Hw|by apply same_carried]. Qed.

Lemma quiet_carried n self (m : option Editor) jobs :
  world_ok text_of (self, jobs) → runs m (carried n self) →
  runs (self ← m; Some (self, jobs)) (follows (self, jobs)).
Proof. intros Hw Hm. eapply runs_bind; [exact Hm|]. intros s1 Hs1. by apply (world_carried n self). Qed.

Lemma quiet_same self (m : option Editor) jobs :
  world_ok text_of (self, jobs) → runs m (same_text self) →
  runs (self ← m; Some (self, jobs)) (follows (self, jobs)).
Proof. intros Hw Hm. eapply runs_bind; [exact Hm|]. intros s1 Hs1. by apply (world_same self). Qed.

Lemma refresh_world self jobs :
  world_ok text_of (self, jobs) →
  runs (let '(self, job) := refresh_tracker_now self in Some (self, with_job jobs job)) (follows (self, jobs)).
Proof.
  intros (Hok&Hb&Hj). destruct (refresh_now_ok self Hok) as (Hok'&Hd'&Hb'&Hh'&Hjob). cbn [fst snd] in *.
  destruct (refresh_tracker_now self) as [s1 job]. cbn [fst snd] in *. simpl.
  split; [|by apply evolved_same]. split_and!; cbn [fst snd]; [done|by rewrite Hb'|].
  assert (Forall (pending text_of s1) jobs) as Hjobs.
  { eapply Forall_impl; [exact Hj|]. unfold pending. by rewrite Hd'. }
  destruct job as [job|]; [|done]. apply Forall_snoc; [done|].
  destruct (Hjob job eq_refl) as (Hf&(sha&Hbase&Hsha)&Hrev). split_and!; [done| |].
  - exists sha. split; [done|]. by apply (Hb _ _ Hbase).
  - intros d Hd. rewrite Hd' in Hd. destruct (Hrev d Hd) as [-> Htext]. done.
Qed.

Lemma revert_world self jobs line now :
  world_ok text_of (self, jobs) → (as_u32 line < U32_MAX)%Z → reverts self →
  runs ('(self, _, job) ← revert_block self line now; Some (self, with_job jobs job)) (follows (self, jobs)).
Proof.
  intros Hw Hline Hrev. pose proof (revert_block_run self line now (proj1 Hw) Hline Hrev) as Hrun.
  destruct (BlockTracker.block_at _ _) as [found|]; [|done]. eapply runs_bind; [exact Hrun|].
  intros [[s1 done] job] (s0&Hc&Hrest&_). pose proof (world_carried 2 _ _ _ Hw Hc) as [Hw0 He0].
  destruct done; [|by destruct Hrest as [-> ->]].
  pose proof (refresh_world s0 jobs Hw0) as Hr. rewrite <- Hrest in Hr.
  destruct Hr as [Hw1 He1]. split; [done|by eapply evolved_trans].
Qed.

Lemma set_popup_same self block : ok self → same_text self (set_popup self block).
Proof. intros [? ? ? ?]. split; try done. by left. Qed.

Lemma popup_world self jobs now :
  world_ok text_of (self, jobs) →
  (∀ block, popup self = Some block → 0 ≤ start (lines block) < U32_MAX)%Z → reverts self →
  runs ('(self, job) ← revert_from_popup self now; Some (self, with_job jobs job)) (follows (self, jobs)).
Proof.
  intros Hw Hpop Hrev. unfold revert_from_popup.
  destruct (popup self) as [block|] eqn:Hp; [|simpl; split; [done|by apply evolved_same]].
  specialize (Hpop block eq_refl).
  pose proof (block_at_run (tracker self) (start (lines block)) ltac:(lia)) as Hat.
  cbn [tracker set_popup]. destruct (BlockTracker.block_at _ _) as [o|]; [|done]. cbn [mbind option_bind].
  pose proof (world_same _ _ _ Hw (set_popup_same self None (proj1 Hw))) as [Hw' He'].
  case_bool_decide; [|done].
  assert (as_u32 (Z.to_nat (start (lines block))) < U32_MAX)%Z as Hline.
  { unfold as_u32. rewrite Z2Nat.id by lia. unfold U32_MAX in *. rewrite Z.mod_small; lia. }
  pose proof (revert_world _ _ _ now Hw' Hline Hrev) as Hrun.
  destruct (revert_block _ _ _) as [[[s1 ?] job]|]; [|done]. cbn in *. destruct Hrun as [? He].
  split; [done|by eapply evolved_trans].
Qed.

Lemma refreshed_world self jobs i :
  world_ok text_of (self, jobs) → (∀ job, jobs !! i = Some job → job_room job) →
  runs (match jobs !! i with
        | Some job => t ← run_tracker_job job; Some (apply_tracker_job self job t, delete i jobs)
        | None => Some (self, jobs)
        end) (follows (self, jobs)).
Proof.
  intros Hw Hr. destruct (jobs !! i) as [job|] eqn:Hi; [|simpl; split; [done|by apply evolved_same]].
  specialize (Hr job eq_refl). destruct Hw as (Hok&Hb&Hj). cbn [fst snd] in *.
  destruct (Forall_lookup_1 _ _ _ _ Hj Hi) as (Hf&(sha&Hsha&Hbase)&Hrev).
  eapply runs_bind; [by apply run_job_run|]. intros t [_ Ht]. cbn [runs].
  destruct (apply_job_ok self job t) as (Hok'&Hd'&Hb'&Hh'); [done..| |].
  { intros d text sha' Hd Htext Hsha' Hr'. destruct (Hrev d Hd) as [_ Heq]. split; [by apply Heq|].
    rewrite Hsha in Hsha'. injection Hsha' as <-. rewrite Hbase. symmetry. by apply (Hb _ _ Htext). }
  split; [|by apply evolved_same]. split_and!; cbn [fst snd]; [done|by rewrite Hb'|].
  unfold pending. rewrite Hd'. by apply Forall_delete.
Qed.

Lemma install_world self jobs new :
  world_ok text_of (self, jobs) →
  (∀ text sha, new = Base.Text text sha → text = text_of sha ∧ fits (split_lines text)) →
  follows (self, jobs) (install_base self new, jobs).
Proof.
  intros (Hok&Hb&Hj) Hr. cbn [fst snd] in *.
  destruct (install_base_ok self new) as (Hok'&Hd'&Hb'&Hh'); [done|intros ? ? ?; by eapply Hr| |].
  { intros text text' sha Ht Ht'. destruct (Hb _ _ Ht) as [-> _]. by destruct (Hr _ _ Ht') as [-> _]. }
  split; [|by apply evolved_same]. split_and!; cbn [fst snd]; [done|by rewrite Hb'|].
  eapply Forall_impl; [exact Hj|]. unfold pending. by rewrite Hd'.
Qed.

Lemma handle_ok ev w :
  world_ok text_of w → ready text_of ev w → runs (handle ev w) (follows w).
Proof.
  destruct w as [self jobs]. intros Hw Hr. pose proof (proj1 Hw) as Hok. cbn [fst] in Hok.
  destruct ev; cbn [handle ready] in *;
    repeat match type of Hr with inserts _ _ => destruct Hr end;
    try (eapply quiet_same; [done|by first [apply place_caret_same|apply move_rows_same|apply horizontal_same
      |apply word_same|apply line_edge_same|apply doc_edge_same|apply take_whole_same]]);
    try (eapply quiet_carried; [done|by first [apply delete_grapheme_carried|apply insert_newline_carried
      |apply shift_lines_carried|apply paste_carried|apply time_travel_carried|apply replace_text_carried
      |apply replace_and_mark_carried]]).
  - eapply runs_bind; [by apply insert_text_carried|]. intros [s1 ?] ?. by apply (world_carried 2 self).
  - eapply runs_bind; [by apply copy_selection_carried|]. intros [s1 ?] ?. by apply (world_carried 2 self).
  - simpl. by apply (world_same self), unmark_text_same.
  - by apply install_world.
  - by apply refresh_world.
  - destruct Hr as [? ?]. by apply revert_world.
  - simpl. unfold open_marker_popup.
    assert (follows (self, jobs) (self, jobs)) by (split; [done|by apply evolved_same]).
    repeat case_match; try done. by apply (world_same self), set_popup_same.
  - destruct Hr as [? ?]. by apply popup_world.
  - by apply refreshed_world.
Qed.

(** ** A view that shows no file *)

Definition closed (w : world) : Prop := document w.1 = None ∧ Forall job_fair w.2.

Lemma open_closed w : world_ok text_of w → document w.1 = None → closed w.
Proof. intros (_&_&Hj) Hd. split; [done|]. eapply Forall_impl; [exact Hj|]. by intros job (?&_). Qed.

Lemma splice_none self ops after group now :
  document self = None → splice_all self ops after group now = Some (self, false).
Proof. intros Hd. unfold splice_all. by rewrite Hd. Qed.

Lemma insert_none self text group now :
  document self = None → insert_text self text group now = Some (self, false).
Proof. apply splice_none. Qed.

Lemma install_none self new : document self = None → document (install_base self new) = None.
Proof.
  intros Hd. unfold install_base. case_match; [done|]. by destruct (reset_tracker_doc (set_popup (set_base self new) None)) as [-> _].
Qed.

Lemma handle_closed ev w : closed w → ready text_of ev w → runs (handle ev w) closed.
Proof.
  destruct w as [self jobs]. intros [Hd Hj] Hr. cbn [fst snd] in *.
  assert (∀ s, document s = None → closed (s, jobs)) as Hdone by by intros.
  destruct ev; cbn [handle ready] in *;
    unfold delete_grapheme, insert_newline, shift_lines, selected_rows, copy_selection, clip_range, time_travel,
      place_caret, move_rows, horizontal, word, line_edge, doc_edge, take_whole_document,
      replace_text_in_range, replace_and_mark_text_in_range, resolve_replacement, revert_block,
      open_marker_popup, refresh_tracker_now in *;
    cbn [document end_typing_group set_marked set_history] in *; rewrite ?Hd; cbn [mbind option_bind runs];
    try by apply Hdone.
  - by rewrite insert_none.
  - destruct (_ <? _); cbn [mbind option_bind]; [|by apply Hdone]. destruct (negb _); [by apply Hdone|].
    by rewrite splice_none.
  - by rewrite insert_none.
  - unfold paste. case_bool_decide; [by apply Hdone|]. by rewrite insert_none.
  - unfold unmark_text. apply Hdone. by case_match.
  - apply Hdone. by apply install_none.
  - destruct (_ || _); by apply Hdone.
  - apply Hdone. repeat case_match; done.
  - destruct Hr as [Hpop _]. unfold revert_from_popup, revert_block.
    destruct (popup self) as [block|]; [|by apply Hdone]. specialize (Hpop block eq_refl).
    pose proof (block_at_run (tracker self) (start (lines block)) ltac:(lia)) as Hat.
    cbn [tracker set_popup document]. destruct (BlockTracker.block_at _ _) as [o|]; [|done]. cbn [mbind option_bind].
    rewrite Hd. by case_bool_decide.
  - destruct (jobs !! i) as [job|] eqn:Hi; [|by apply Hdone].
    eapply runs_bind; [apply run_job_run; [by apply (Forall_lookup_1 _ _ _ _ Hj Hi)|by apply Hr]|].
    intros t _. cbn [runs]. split; [|by apply Forall_delete]. cbn [fst]. unfold apply_tracker_job.
    repeat case_match; try done. by rewrite schedule_document.
Qed.

Lemma opened_ok raw unit : clean raw → fits (split_lines (normalize_newlines raw)) → world_ok text_of (opened raw unit).
Proof.
  intros Hc Hf. assert (contents (CodeDocument.new raw) = normalize_newlines raw) as Hcont by apply to_from_str.
  split_and!; [|done|by constructor]. split; cbn [document selection history opened fst]; [..|done].
  - intros d [= <-]. rewrite Hcont. apply on_path_default; [by split|done].
  - intros d [= <-]. apply is_cut_0.
  - intros d [= <-]. apply is_cut_0.
Qed.

Lemma steps_ok w w' : world_ok text_of w → rtc (world_step text_of) w w' → world_ok text_of w'.
Proof.
  intros Hw Hsteps. induction Hsteps as [w|w w1 w' (ev&Hr&Hh) _ IH]; [done|].
  apply IH. pose proof (handle_ok ev w Hw Hr) as Hrun. rewrite Hh in Hrun. apply Hrun.
Qed.
End correct.

(** * The editor: a document that must not be edited *)

Section locked.
Context `{Hrope : Rope} `{Hg : Graphemes} `{Hdiff : MyersDiff}.
Implicit Types (self : Editor) (d : CodeDocument.t).

Definition locked self d : Prop := document self = Some d ∧ CodeDocument.read_only d ≠ None.

Lemma splice_all_locked self d ops after group now :
  locked self d → splice_all self ops after group now = Some (self, false).
Proof.
  intros [Hd Hro]. unfold splice_all, CodeDocument.is_read_only. rewrite Hd. by destruct (CodeDocument.read_only d).
Qed.

Lemma insert_text_locked self d text group now :
  locked self d → insert_text self text group now = Some (self, false).
Proof. apply splice_all_locked. Qed.

Lemma is_read_only_locked self d : locked self d → CodeDocument.is_read_only d = true.
Proof. intros [_ Hro]. unfold CodeDocument.is_read_only. by destruct (CodeDocument.read_only d). Qed.

Lemma place_caret_document self offset extend self' :
  place_caret self offset extend = Some self' → document self' = document self.
Proof.
  unfold place_caret. cbn [document end_typing_group set_marked set_history]. destruct (document self) as [d|] eqn:Hd.
  - destruct (clamp d offset) as [o|]; [|done]. cbn [mbind option_bind].
    destruct (goal_column d o); [|done]. by intros [= <-].
  - by intros [= <-].
Qed.

Lemma refresh_now_document self : document (refresh_tracker_now self).1 = document self.
Proof. unfold refresh_tracker_now. destruct (_ || _); [done|]. by repeat case_match. Qed.

(** The document after a handler that returned. *)
Ltac locked_step :=
  match goal with
  | Hl : locked ?self ?d, H : context [splice_all ?s _ _ _ _] |- _ => rewrite (splice_all_locked s d) in H by exact Hl
  | Hl : locked ?self ?d, H : context [insert_text ?s _ _ _] |- _ => rewrite (insert_text_locked s d) in H by exact Hl
  | H : (match ?x with _ => _ end) = Some _ |- _ => destruct x eqn:?; cbn [mbind option_bind] in H; try discriminate H
  | H : (?x ≫= _) = Some _ |- _ => destruct x eqn:?; cbn [mbind option_bind] in H; [|discriminate H]
  | H : Some _ = Some _ |- _ => injection H as H; subst
  end.

Lemma handle_locked ev self jobs d w' :
  locked self d → handle ev (self, jobs) = Some w' → document w'.1 = Some d.
Proof.
  intros Hl. pose proof (proj1 Hl) as Hd.
  destruct ev; cbn [handle];
    unfold delete_grapheme, insert_newline, shift_lines, copy_selection, paste, time_travel, place_caret,
      move_rows, horizontal, word, line_edge, doc_edge, take_whole_document, replace_text_in_range,
      replace_and_mark_text_in_range, revert_block, unmark_text, open_marker_popup,
      revert_from_popup, revert_block, apply_tracker_job; intros H;
    repeat locked_step; try done.
  all: try match goal with H : CodeDocument.is_read_only _ = false |- _ => by erewrite is_read_only_locked in H by exact Hl end.
  all: try match goal with H : place_caret _ _ _ = Some _ |- _ => by apply place_caret_document in H; cbn [fst]; rewrite H end.
  all: try match goal with H : refresh_tracker_now ?s = _ |- _ => pose proof (refresh_now_document s) as Hs; rewrite H in Hs; by cbn in *; rewrite Hs end.
  all: cbn [fst]; repeat case_match; rewrite ?schedule_document; cbn [document set_popup]; try (done || congruence).
  unfold install_base. case_match; [done|].
  by destruct (reset_tracker_doc (set_popup (set_base self new) None)) as [-> _].
Qed.
End locked.
