(* ===== verification/EditDiskSync.v ===== *)
(** * The editor: the file on disk ([load.rs], [save.rs], [view/disk_sync.rs],
    [view/mod.rs])

    [View] adds to an [Editor] what ties it to its file: the stamps of the file,
    the state of the synchronisation and the saves and reloads that run.  What a
    background task reads from the file system is an argument of the operation
    that takes its result. *)

From Stdlib Require Import String.
From S2P Require Import Prelude DiffRange DiffText DiffChanges DiffUtf8 DiffTracker EditDocument EditSplice EditHistory EditCursor EditDisk EditView.

(** ** Stamps ([save.rs]) *)

Record FileStamp := mkStamp { mtime : option Z; stamp_len : Z }.

#[export] Instance FileStamp_eq_dec : EqDecision FileStamp.
Proof. solve_decision. Defined.

Definition differs (self other : FileStamp) : bool :=
  if negb (stamp_len self =? stamp_len other)%Z then true
  else
    match mtime self, mtime other with
    | Some a, Some b => negb (a =? b)%Z
    | _, _ => false
    end.

Definition changed_since (expected current : option FileStamp) : bool :=
  match expected, current with
  | Some expected, Some current => differs expected current
  | None, Some _ => true
  | _, _ => false
  end.

(** [std::io::ErrorKind] *)
Inductive ErrorKind := PermissionDenied | NotFound | StorageFull | ReadOnlyFilesystem | OtherKind (name : string).

Inductive SaveFailure := ChangedOnDisk (observed : option FileStamp) | Write (message : string).

Definition write_error (kind : ErrorKind) : SaveFailure :=
  Write match kind with
        | PermissionDenied => "Permission denied - this file could not be written."%string
        | NotFound => "This file, its symlink target or its folder no longer exists."%string
        | StorageFull => "The disk is full - nothing was written."%string
        | ReadOnlyFilesystem => "This file is on a read-only filesystem."%string
        | OtherKind _ => "This file could not be written."%string
        end.

(** The answers of the file system to one save: the stamp before, the staged
    file and its stamp, the stamp again, the rename. *)
Record SaveIo := mkSaveIo {
  stamp_before : option FileStamp;
  stage_write : option ErrorKind;
  staged_stamp : FileStamp + ErrorKind;
  stamp_after : option FileStamp;
  commit : option ErrorKind }.

Definition save_blocking (io : SaveIo) (expected : option FileStamp) : FileStamp + SaveFailure :=
  if changed_since expected (stamp_before io) then inr (ChangedOnDisk (stamp_before io))
  else
    match stage_write io, staged_stamp io with
    | Some kind, _ | None, inr kind => inr (write_error kind)
    | None, inl written =>
        if changed_since expected (stamp_after io) then inr (ChangedOnDisk (stamp_after io))
        else
          match commit io with
          | Some kind => inr (write_error kind)
          | None => inl written
          end
    end.

(** ** Loading ([load.rs]) *)

Definition MAX_FILE_BYTES : N := 10 * 1024 * 1024.
Definition MAX_LINE_CHARS : nat := 10000.
Definition BINARY_SNIFF_BYTES : nat := 8 * 1024.

Inductive CodeLoadError :=
| TooLarge (bytes limit : N) | Binary | NotUtf8 | FileNotFound | FilePermissionDenied | NotAFile
| Io (detail : string).

Definition is_retriable (self : CodeLoadError) : bool :=
  match self with
  | FileNotFound | FilePermissionDenied | NotAFile | Io _ => true
  | _ => false
  end.

(** [std::fs::Metadata] *)
Record FileMeta := mkFileMeta { is_file : bool; meta_stamp_of : FileStamp; readonly : bool }.

(** The answers of the file system to one read: the metadata of the path and of
    the open file, its bytes. *)
Record ReadIo := mkReadIo {
  path_meta : FileMeta + ErrorKind;
  open_meta : FileMeta + ErrorKind;
  read_bytes : list N + ErrorKind }.

Record DiskText := mkDiskText { disk_text : str; disk_text_stamp : FileStamp; disk_read_only : bool }.

Definition io_error (kind : ErrorKind) : CodeLoadError :=
  match kind with
  | NotFound => FileNotFound
  | PermissionDenied => FilePermissionDenied
  | StorageFull => Io "no storage space"
  | ReadOnlyFilesystem => Io "read-only filesystem or storage medium"
  | OtherKind name => Io name
  end.

Definition looks_binary (bytes : list N) : bool := existsb (N.eqb 0) (take BINARY_SNIFF_BYTES bytes).

(** The scalar value of the character that starts [bytes], and the rest. *)
Definition decode_char (bytes : list N) : option (N * list N) :=
  let char (n : nat) (c : N) : option (N * list N) :=
    if bool_decide (utf8 c = take n bytes) && ((c <? 0xD800)%N || (0xE000 <=? c) && (c <? 0x110000))%N
    then Some (c, drop n bytes) else None in
  match bytes with
  | b1 :: b2 :: b3 :: b4 :: _ =>
      if (b1 <? 0x80)%N then char 1 b1
      else if (b1 <? 0xE0)%N then char 2 ((b1 - 0xC0) * 64 + (b2 - 0x80))%N
      else if (b1 <? 0xF0)%N then char 3 (((b1 - 0xE0) * 64 + (b2 - 0x80)) * 64 + (b3 - 0x80))%N
      else char 4 ((((b1 - 0xF0) * 64 + (b2 - 0x80)) * 64 + (b3 - 0x80)) * 64 + (b4 - 0x80))%N
  | b1 :: b2 :: b3 :: _ =>
      if (b1 <? 0x80)%N then char 1 b1
      else if (b1 <? 0xE0)%N then char 2 ((b1 - 0xC0) * 64 + (b2 - 0x80))%N
      else char 3 (((b1 - 0xE0) * 64 + (b2 - 0x80)) * 64 + (b3 - 0x80))%N
  | b1 :: b2 :: _ =>
      if (b1 <? 0x80)%N then char 1 b1 else char 2 ((b1 - 0xC0) * 64 + (b2 - 0x80))%N
  | [b1] => char 1 b1
  | [] => None
  end.

(** [String::from_utf8] *)
Fixpoint from_utf8 (fuel : nat) (bytes : list N) : option str :=
  match fuel, bytes with
  | _, [] => Some []
  | O, _ => None
  | S fuel, bytes =>
      match decode_char bytes with
      | Some (c, rest) => text ← from_utf8 fuel rest; Some (c :: text)
      | None => None
      end
  end.

Definition read_disk_text (io : ReadIo) : DiskText + CodeLoadError :=
  match path_meta io with
  | inr kind => inr (io_error kind)
  | inl path =>
      if negb (is_file path) then inr NotAFile
      else
        match open_meta io with
        | inr kind => inr (io_error kind)
        | inl meta =>
            let len := Z.to_N (stamp_len (meta_stamp_of meta)) in
            if negb (is_file meta) then inr NotAFile
            else if (MAX_FILE_BYTES <? len)%N then inr (TooLarge len MAX_FILE_BYTES)
            else
              match read_bytes io with
              | inr kind => inr (io_error kind)
              | inl bytes =>
                  let taken := N.min (N.of_nat (List.length bytes)) (MAX_FILE_BYTES + 1) in
                  if (MAX_FILE_BYTES <? taken)%N then inr (TooLarge taken MAX_FILE_BYTES)
                  else if looks_binary bytes then inr Binary
                  else
                    match from_utf8 (List.length bytes) bytes with
                    | None => inr NotUtf8
                    | Some text => inl (mkDiskText text (meta_stamp_of meta) (readonly meta))
                    end
              end
        end
  end.

Definition read_only_reason_for (longest_line_chars : nat) (read_only_on_disk : bool) : option ReadOnlyReason :=
  if MAX_LINE_CHARS <? longest_line_chars then Some (GiantLine longest_line_chars MAX_LINE_CHARS)
  else if read_only_on_disk then Some Permissions
  else None.

#[export] Instance HistoryMark_eq_dec : EqDecision HistoryMark.t := HistoryMark.eq_dec.

Inductive DiskState := InSync | Conflict | Deleted.

#[export] Instance DiskState_eq_dec : EqDecision DiskState.
Proof. solve_decision. Defined.

Section sync.
Context `{Rope} `{Graphemes} `{HistogramDiff}.

Definition build_document (text : str) (read_only_on_disk : bool) : CodeDocument.t :=
  let doc := CodeDocument.new text in
  CodeDocument.set_read_only doc
    (read_only_reason_for (CodeDocument.longest_line_chars doc) read_only_on_disk).

(** [LoadedCode], without the highlighter *)
Record LoadedCode := mkLoaded {
  loaded_document : CodeDocument.t; loaded_indent : IndentUnit; loaded_stamp : option FileStamp }.

(** [open_blocking] *)
Definition open_blocking (io : ReadIo) : option (LoadedCode + CodeLoadError) :=
  match read_disk_text io with
  | inr error => Some (inr error)
  | inl disk =>
      let document := build_document (disk_text disk) (disk_read_only disk) in
      indent ← detect_indent document;
      Some (inl (mkLoaded document indent (Some (disk_text_stamp disk))))
  end.

(** ** The view *)

Record View := mkView {
  editor : Editor;
  failed : option CodeLoadError;
  saved_mark : HistoryMark.t;
  buffer_stamp : option FileStamp;
  disk_stamp : option FileStamp;
  disk_generation : Z;
  reloading : bool;
  save_after_reload : bool;
  disk : DiskState;
  save_error : option string;
  saving : bool }.

Implicit Types self : View.

Definition set_editor self (e : Editor) : View :=
  mkView e (failed self) (saved_mark self) (buffer_stamp self) (disk_stamp self)
    (disk_generation self) (reloading self) (save_after_reload self) (disk self) (save_error self) (saving self).

Definition set_saved self (mark : HistoryMark.t) : View :=
  mkView (editor self) (failed self) mark (buffer_stamp self) (disk_stamp self)
    (disk_generation self) (reloading self) (save_after_reload self) (disk self) (save_error self) (saving self).

Definition set_stamps self (buffer on_disk : option FileStamp) : View :=
  mkView (editor self) (failed self) (saved_mark self) buffer on_disk
    (disk_generation self) (reloading self) (save_after_reload self) (disk self) (save_error self) (saving self).

Definition set_disk_generation self (generation : Z) : View :=
  mkView (editor self) (failed self) (saved_mark self) (buffer_stamp self) (disk_stamp self)
    generation (reloading self) (save_after_reload self) (disk self) (save_error self) (saving self).

Definition set_reloading self (running after : bool) : View :=
  mkView (editor self) (failed self) (saved_mark self) (buffer_stamp self) (disk_stamp self)
    (disk_generation self) running after (disk self) (save_error self) (saving self).

Definition set_disk self (state : DiskState) : View :=
  mkView (editor self) (failed self) (saved_mark self) (buffer_stamp self) (disk_stamp self)
    (disk_generation self) (reloading self) (save_after_reload self) state (save_error self) (saving self).

Definition set_saving self (running : bool) (error : option string) : View :=
  mkView (editor self) (failed self) (saved_mark self) (buffer_stamp self) (disk_stamp self)
    (disk_generation self) (reloading self) (save_after_reload self) (disk self) error running.

Definition is_dirty self : bool :=
  negb (bool_decide (UndoHistory.mark (history (editor self)) = saved_mark self)).

Definition discard_unsaved self : View := set_saved self (UndoHistory.mark (history (editor self))).

(** *** Loading *)

(** [with_state] of a file that is being loaded *)
Definition view_new : View :=
  mkView (mkEditor None (mkSelection 0 0) 0 UndoHistory.default None (Spaces 4) Base.None_ BlockTracker.inactive 0 None 0)
    None HistoryMark.Baseline None None 0 false false InSync None false.

Definition start_load self : View := set_editor self (set_slot (editor self) (slot_begin (slot (editor self)))).

(** What [start_load] does with its outcome. *)
Definition finish_load self (generation : Z) (outcome : LoadedCode + CodeLoadError) : View :=
  if negb (slot_accept (slot (editor self)) generation) then self
  else
    match outcome with
    | inl loaded =>
        let e := editor self in
        let e := mkEditor (Some (loaded_document loaded)) (selection e) (goal e) (history e) (marked e)
                   (loaded_indent loaded) (base e) (tracker e) (tracker_generation e) (popup e) (slot e) in
        let self := set_stamps (set_editor self e) (loaded_stamp loaded) (loaded_stamp loaded) in
        mkView (editor self) None (saved_mark self) (buffer_stamp self) (disk_stamp self)
          (disk_generation self) (reloading self) (save_after_reload self) (disk self) (save_error self) (saving self)
    | inr error =>
        mkView (set_document (editor self) None) (Some error) (saved_mark self) (buffer_stamp self)
          (disk_stamp self) (disk_generation self) (reloading self) (save_after_reload self) (disk self)
          (save_error self) (saving self)
    end.

(** [open] *)
Definition open_view self : View :=
  let e := mkEditor None (mkSelection 0 0) 0 (UndoHistory.clear (history (editor self))) None (indent (editor self))
             Base.None_ BlockTracker.inactive (wrapping_succ (tracker_generation (editor self))) None (slot (editor self)) in
  start_load (mkView e None HistoryMark.Baseline None None (wrapping_succ (disk_generation self))
                false false InSync None false).

(** *** Saving *)

(** What a save that was started writes and expects. *)
Record SaveTask := mkSave { save_contents : str; save_expected : option FileStamp; save_mark : HistoryMark.t }.

Inductive SaveStart := Clean | Deferred | Started (task : SaveTask) | Refused (reason : string).

Definition start_save self (name : string) (defer : bool) : View * SaveStart :=
  if saving self then (self, Refused (name ++ " is already being saved.")%string)
  else
    match document (editor self) with
    | None => (self, Clean)
    | Some doc =>
        if CodeDocument.is_read_only doc then (self, Refused (name ++ " is read-only.")%string)
        else if bool_decide (disk self = Conflict) then
          (self, Refused (name ++ " changed on disk. Choose Keep mine or Reload.")%string)
        else if negb (is_dirty self) && bool_decide (disk self = InSync) then (self, Clean)
        else if reloading self then
          if defer then (set_reloading self (reloading self) true, Deferred)
          else (self, Refused (name ++ " is reloading from disk.")%string)
        else
          let e := editor self in
          let self := set_editor self (set_history e (UndoHistory.close_group (history e))) in
          let task := mkSave (CodeDocument.to_disk_string doc) (buffer_stamp self)
                        (UndoHistory.mark (history (editor self))) in
          (set_saving self true None, Started task)
    end.

(** [save]: the task that is detached *)
Definition save self (name : string) : View * option SaveTask :=
  match start_save self name true with
  | (self, Started task) => (self, Some task)
  | (self, _) => (self, None)
  end.

(** [save_for_close], up to the task it waits for *)
Definition save_for_close self (name : string) : View * (option SaveTask + string) :=
  match start_save self name false with
  | (self, Clean) => (self, inl None)
  | (self, Started task) => (self, inl (Some task))
  | (self, Deferred) => (self, inr (name ++ " is reloading from disk.")%string)
  | (self, Refused reason) => (self, inr reason)
  end.

Definition finish_save self (name : string) (outcome : FileStamp + SaveFailure) (mark : HistoryMark.t)
  : View * option string :=
  let self := set_saving self false (save_error self) in
  match outcome with
  | inl stamp =>
      let self := set_stamps self (Some stamp) (Some stamp) in
      let self := set_disk_generation self (wrapping_succ (disk_generation self)) in
      let self := set_disk (set_saved self mark) InSync in
      (set_saving self false None, None)
  | inr (Write message) => (set_saving self false (Some message), Some (name ++ ": " ++ message)%string%string)
  | inr (ChangedOnDisk observed) =>
      let self := set_stamps self (buffer_stamp self)
                    match observed with Some stamp => Some stamp | None => disk_stamp self end in
      (set_disk self Conflict, Some (name ++ " changed on disk. Choose Keep mine or Reload.")%string)
  end.

(** *** Reloading *)

Record DiskFacts := mkFacts { facts_read_only : option ReadOnlyReason; facts_line_ending : LineEnding }.

Record DiskMeta := mkMeta { meta_revision : Z; meta_stamp : FileStamp; meta_facts : option DiskFacts }.

Record DiskDiff := mkDiff { diff_rope : rope; diff_meta : DiskMeta }.

Definition diff_of (doc : CodeDocument.t) (stamp : FileStamp) : DiskDiff :=
  mkDiff (CodeDocument.text doc) (mkMeta (CodeDocument.revision doc) stamp None).

Record DiskRead := mkRead { read_text : str; read_stamp : FileStamp; read_facts : DiskFacts }.

(** [str::lines]: a line loses its [\n] and the [\r] before it. *)
Definition text_lines (text : str) : list str :=
  let lines := split_lines text in
  ((λ l : str, match last l with Some 13%N => removelast l | _ => l end) <$> removelast lines) ++
  match last lines with
  | Some [] | None => []
  | Some l => [l]
  end.

Definition read_for_reload (io : ReadIo) : DiskRead + CodeLoadError :=
  match read_disk_text io with
  | inr error => inr error
  | inl disk =>
      let longest := foldr Nat.max 0 (List.length <$> text_lines (disk_text disk)) in
      inl (mkRead (disk_text disk) (disk_text_stamp disk)
             (mkFacts (read_only_reason_for longest (disk_read_only disk)) (detect (disk_text disk))))
  end.

Definition begin_disk_reload self (stamp : option FileStamp) (present force : bool) : View * option DiskDiff :=
  match (if present then stamp else None) with
  | None =>
      let self := set_stamps self (buffer_stamp self) None in
      (if bool_decide (disk self = Deleted) then self else set_disk self Deleted, None)
  | Some stamp =>
      let seen := bool_decide (disk_stamp self = Some stamp) in
      let self := set_stamps self (buffer_stamp self) (Some stamp) in
      if negb force && bool_decide (buffer_stamp self = Some stamp) && bool_decide (disk self = InSync)
      then (self, None)
      else if negb force && seen && bool_decide (disk self = Conflict) then (self, None)
      else if negb force && is_dirty self then (set_disk self Conflict, None)
      else
        let self := set_disk self InSync in
        match document (editor self) with
        | None => (self, None)
        | Some doc => (set_reloading self true (save_after_reload self), Some (diff_of doc stamp))
        end
  end.

Definition end_disk_reload self (name : string) : View * option SaveTask :=
  let after := save_after_reload self in
  let self := set_reloading self false false in
  if after then save self name else (self, None).

Definition apply_disk_splices self (ops : list ((nat * nat) * str)) (now : Z) : option View :=
  if bool_decide (ops = []) then Some self
  else
    match document (editor self) with
    | None => Some self
    | Some doc =>
        let after := shift_selection_for_splices (selection (editor self)) ops in
        let reason := CodeDocument.read_only doc in
        let e := match reason with
                 | Some _ => set_document (editor self) (Some (CodeDocument.set_read_only doc None))
                 | None => editor self
                 end in
        '(e, replaced) ← splice_all e ops after Atomic now;
        let e := match reason, document e with
                 | Some _, Some doc => set_document e (Some (CodeDocument.set_read_only doc reason))
                 | _, _ => e
                 end in
        Some (set_editor self (if negb replaced then e else reset_tracker (set_popup e None)))
    end.

(** The view, the diff to be taken again and the save that [end_disk_reload]
    starts. *)
Definition finish_disk_reload self (name : string) (meta : DiskMeta) (splices : list ((nat * nat) * str))
    (retry force : bool) (now : Z) : option (View * option DiskDiff * option SaveTask) :=
  let ended self := let '(self, task) := end_disk_reload self name in Some (self, None, task) in
  match document (editor self) with
  | None => ended self
  | Some doc =>
      if negb (CodeDocument.revision doc =? meta_revision meta)%Z then
        if retry then Some (self, Some (diff_of doc (meta_stamp meta)), None)
        else ended (set_disk self Conflict)
      else if negb force && is_dirty self then ended (set_disk self Conflict)
      else
        self ← apply_disk_splices self splices now;
        let self :=
          match meta_facts meta, document (editor self) with
          | Some facts, Some doc =>
              let doc := CodeDocument.set_line_ending doc (facts_line_ending facts) in
              set_editor self (set_document (editor self)
                (Some (CodeDocument.set_read_only doc (facts_read_only facts))))
          | _, _ => self
          end in
        let self := set_saved self (UndoHistory.mark (history (editor self))) in
        ended (set_stamps self (Some (meta_stamp meta)) (disk_stamp self))
  end.

Definition disk_unreadable self (error : CodeLoadError) (force : bool) : View :=
  if negb force && is_dirty self then
    if bool_decide (disk self = Conflict) then self else set_disk self Conflict
  else
    let e := editor self in
    let e := set_popup (set_history (set_document e None) (UndoHistory.clear (history e))) None in
    mkView e (Some error) HistoryMark.Baseline None None (disk_generation self) false false InSync
      (save_error self) (saving self).

Definition resolve_keep_mine self : View := set_disk (set_stamps self (disk_stamp self) (disk_stamp self)) InSync.

(** *** The task of a reload ([reload_from_disk]) *)

Definition RELOAD_DIFF_ATTEMPTS : nat := 2.

(** A reload whose diff is being computed: the diff, the text and how often. *)
Record Reload := mkReload { reload_diff : DiskDiff; reload_read : DiskRead; reload_attempt : nat; reload_force : bool }.

(** The first part, on what [read_for_reload] returned; [present &&
    matches!(...)] starts a load instead. *)
Definition reload_begin self (generation : Z) (read : DiskRead + CodeLoadError) (force : bool)
  : View * option Reload :=
  let fresh := (disk_generation self =? generation)%Z in
  let begin (present : option DiskRead) :=
    if negb fresh then (self, None)
    else if bool_decide (present ≠ None) && bool_decide (failed self ≠ None) then (start_load self, None)
    else
      match begin_disk_reload self (read_stamp <$> present) (bool_decide (present ≠ None)) force, present with
      | (self, Some diff), Some read => (self, Some (mkReload diff read 0 force))
      | (self, _), _ => (self, None)
      end in
  match read with
  | inl read => begin (Some read)
  | inr FileNotFound => begin None
  | inr error => (if fresh then disk_unreadable self error force else self, None)
  end.

(** One attempt: the splices, taken from the text of the diff, and what is done
    with them. *)
Definition reload_step self (name : string) (reload : Reload) (now : Z)
  : option (View * option Reload * option SaveTask) :=
  let meta := diff_meta (reload_diff reload) in
  let meta := mkMeta (meta_revision meta) (meta_stamp meta) (Some (read_facts (reload_read reload))) in
  splices ← disk_splices (diff_rope (reload_diff reload)) (read_text (reload_read reload));
  let retry := reload_attempt reload + 1 <? RELOAD_DIFF_ATTEMPTS in
  '(self, again, task) ← finish_disk_reload self name meta splices retry (reload_force reload) now;
  let again := match again with
               | Some diff => Some (mkReload diff (reload_read reload) (reload_attempt reload + 1) (reload_force reload))
               | None => None
               end in
  Some (self, again, task).
End sync.
