(* ===== verification/EditDiskSyncWorld.v ===== *)
(** * The editor: what reloads and saves do to the view

    [apply_disk_splices] turns the document into the incoming text, read-only or
    not; [finish_disk_reload] does so only with a document that is still the one
    the splices were made for and has no unsaved edits, unless it is forced.

    A [Sync] is a view with the tasks that run: the refreshes of the tracker, the
    saves, the probes of the file and the reloads.  [synced] is the text that was
    last read from the file or written to it, which no code keeps: the invariant
    says that a document without the dirty mark is that text.

    A view starts no save while one runs, whatever is edited, probed or reloaded
    meanwhile.

    [from_utf8] reads what [bytes] writes; a text whose line endings are of one
    kind is written to the disk as it was read. *)

From stdpp Require Import relations.
From Stdlib Require Import String.
From S2P Require Import Prelude DiffRange DiffText DiffChanges DiffTracker DiffTrackerCorrect DiffUtf8 EditDocument EditDocumentCorrect EditSplice EditSpliceCorrect EditHistory EditHistoryCorrect EditDisk EditDiskCorrect EditCursor EditCursorCorrect EditView EditViewCorrect EditViewHandlers EditViewBlocks EditViewWorld EditDiskSync.

Section sync.
Context `{Hrope : Rope, Hlaws : !RopeLaws} `{Hg : Graphemes, Hglaws : !GraphemesLaws}.
Context `{Hdiff : MyersDiff, Hdlaws : !MyersDiffLaws} `{Hhist : HistogramDiff, Hhlaws : !HistogramDiffLaws}.
Implicit Types (e : Editor) (v : View) (d : CodeDocument.t).

(** Another document of the same contents. *)
Lemma ok_set_document e d d' :
  ok e → document e = Some d → contents d' = contents d → ok (set_document e (Some d')).
Proof.
  intros [Hp Ha Hh Ht] Hd Heq. split; cbn; [intros ? [= <-]; rewrite Heq; by auto..|].
  intros Hact. destruct (Ht Hact) as (d0&text&sha&Hd0&Hb&Hr). rewrite Hd0 in Hd. injection Hd as ->.
  exists d', text, sha. by rewrite Heq.
Qed.

Lemma ok_set_popup e block : ok e → ok (set_popup e block).
Proof. by intros []. Qed.

Lemma ok_close e : ok e → ok (set_history e (UndoHistory.close_group (history e))).
Proof. by intros []. Qed.

(** An edit that is not typing ends the group. *)
Lemma push_atomic_closed h edits bef aft now h' :
  UndoHistory.push h edits bef aft Atomic now = Some h' → edits ≠ [] → UndoHistory.open h' = false.
Proof.
  unfold UndoHistory.push, UndoHistory.joinable. intros Hpush Hne.
  rewrite bool_decide_eq_false_2 in Hpush by done. cbn [andb bool_decide] in Hpush.
  rewrite (bool_decide_eq_false_2 (Atomic = Typing)) in Hpush by done. cbn [andb] in Hpush.
  destruct (checked_add _ _ _); [|done]. cbn in Hpush. by injection Hpush as <-.
Qed.

(** What the splices of a reload make of the view. *)
Record adopted e d (t : str) e' d' : Prop := {
  adopted_ok : ok e';
  adopted_base : base e' = base e;
  adopted_document : document e' = Some d';
  adopted_contents : contents d' = t;
  adopted_ending : CodeDocument.line_ending d' = CodeDocument.line_ending d;
  adopted_read_only : CodeDocument.read_only d' = CodeDocument.read_only d;
  adopted_later : later d d';
  adopted_steps : rtc hist_step (d, history e) (d', history e');
  adopted_closed : (history e' = history e ∧ t = contents d) ∨ UndoHistory.open (history e') = false }.

Lemma adopted_refl e d : ok e → document e = Some d → adopted e d (contents d) e d.
Proof. intros. split; try done. by left. Qed.

Lemma clean_ops (ops : list ((nat * nat) * str)) :
  Forall (λ op, 13%N ∉ op.2) ops →
  Forall (λ op, 13%N ∉ normalize_newlines op.2) ops ∧
  sum_list_with (λ op, newlines (normalize_newlines op.2)) ops = sum_list_with (λ op, newlines op.2) ops.
Proof.
  induction 1 as [|op ops Hop _ [IH1 IH2]]; [done|]. cbn [sum_list_with].
  rewrite normalize_no_cr by done. rewrite IH2. split; [|done]. constructor; [|done]. by rewrite normalize_no_cr.
Qed.

(** A view without its read-only reason. *)
Definition unlocked e d : Editor := set_document e (Some (CodeDocument.set_read_only d None)).

Lemma unlocked_same e d : CodeDocument.read_only d = None → document e = Some d → unlocked e d = e.
Proof. intros Hro Hd. unfold unlocked. destruct e, d; cbn in *. by subst. Qed.

Lemma apply_disk_splices_run v d ops t now :
  ok (editor v) → base_fits (base (editor v)) → document (editor v) = Some d → adopts (contents d) t ops →
  (UndoHistory.next_id (history (editor v)) < U64_MAX)%Z → spare (2 * length ops) d →
  (Z.of_nat (newlines (contents d) + newlines t) + 1 ≤ U32_MAX)%Z →
  runs (apply_disk_splices v ops now) (λ v', ∃ e' d', v' = set_editor v e' ∧ adopted (editor v) d t e' d').
Proof.
  intros Hok Hbase Hd [Ht Hclean Hnl] Hid Hspare Hfit. unfold apply_disk_splices. case_bool_decide as Hops.
  { subst ops. cbn in Ht. subst t. exists (editor v), d. split; [by destruct v|by apply adopted_refl]. }
  rewrite Hd. set (sel := shift_selection_for_splices _ _).
  assert (match CodeDocument.read_only d with
    | Some _ => set_document (editor v) (Some (CodeDocument.set_read_only d None))
    | None => editor v
    end = unlocked (editor v) d) as ->.
  { destruct (CodeDocument.read_only d) eqn:Hro; [done|]. by rewrite unlocked_same. }
  set (d0 := CodeDocument.set_read_only d None).
  destruct (clean_ops ops Hclean) as [Hclean' Hsum].
  eapply runs_bind.
  { apply (splice_all_run (unlocked (editor v) d) d0); [by eapply (ok_set_document _ d)| |done|].
    - by split.
    - split; [done|]. rewrite Hsum. change (contents d0) with (contents d). lia. }
  intros [e1 replaced] (Hok1&[Hb1 _ Ha1 _]&_&d1&Hd1&[Hc1 Hle1 Hro1]&Hadv&Hsteps&Hdone).
  rewrite Hd1. set (d2 := match CodeDocument.read_only d with
    | Some _ => CodeDocument.set_read_only d1 (CodeDocument.read_only d) | None => d1 end).
  set (e2 := match CodeDocument.read_only d with Some _ => _ | None => e1 end).
  assert (document e2 = Some d2 ∧ history e2 = history e1 ∧ ok e2 ∧ base e2 = base e1 ∧ contents d2 = contents d1 ∧
    CodeDocument.revision d2 = CodeDocument.revision d1 ∧ CodeDocument.read_only d2 = CodeDocument.read_only d ∧
    CodeDocument.line_ending d2 = CodeDocument.line_ending d) as (Hd2&Hh2&Hok2&Hb2&Hc2&Hr2&Hro2&Hle2).
  { subst e2 d2. destruct (CodeDocument.read_only d); [|by split_and!].
    split_and!; try done. by apply (ok_set_document _ d1). }
  change (contents d0) with (contents d) in *. rewrite Ht in Hc1. cbn [runs].
  assert (adopted (editor v) d t e2 d2) as Had.
  { split; [done|by rewrite Hb2|done|by rewrite Hc2|done|done| | |].
    - apply advanced_later in Hadv as [Hl Hs]. split; rewrite Hr2; [exact Hl|]. intros Heq.
      rewrite Hc2. by apply Hs.
    - rewrite Hh2. etrans; [apply rtc_once; by apply (hist_same d d0)|]. etrans; [exact Hsteps|].
      apply rtc_once. by constructor.
    - rewrite Hh2. destruct replaced.
      + destruct Hdone as [(recs&Hpush&Hne&_) _]. right. by eapply push_atomic_closed.
      + destruct Hdone as (Hsame&_&->). left. split; [done|]. by rewrite <- Hc1. }
  destruct replaced; cbn [negb]; [|by exists e2, d2].
  eexists _, d2. split; [done|]. set (e3 := set_popup e2 None).
  destruct (reset_tracker_doc e3) as (Hd3&Hb3&Hh3). destruct Had as [_ ? ? ? ? ? ? ? ?].
  split; rewrite ?Hd3, ?Hb3, ?Hh3; try done.
  apply reset_tracker_ok; [by apply ok_sound, ok_set_popup|]. change (base e3) with (base e2). by rewrite Hb2, Hb1.
Qed.
End sync.

(** * The editor: edits, saves and reloads in any order *)

Inductive SyncEvent :=
| Edit (ev : Event)
| SaveNow
| SaveForClose
| SaveDone (i : nat) (io : SaveIo)
| Probe (force : bool)
| Probed (i : nat) (io : ReadIo)
| ReloadStep (i : nat) (now : Z)
| KeepMine.

Section world.
Context `{Hrope : Rope} `{Hg : Graphemes} `{Hdiff : MyersDiff} `{Hhist : HistogramDiff}.
Context (name : string) (text_of : str → str).

Record Sync := mkSync {
  view : View;
  jobs : list TrackerJob;
  saves : list (SaveTask * str);
  probes : list (Z * bool);
  reloads : list Reload;
  synced : str }.

Definition doc_text (v : View) : str :=
  match document (editor v) with Some d => contents d | None => [] end.

(** A save that starts takes the text there is. *)
Definition add_save (v : View) (task : option SaveTask) (saves : list (SaveTask * str)) : list (SaveTask * str) :=
  match task with Some task => saves ++ [(task, doc_text v)] | None => saves end.

Definition add_reload (reload : option Reload) (reloads : list Reload) : list Reload :=
  match reload with Some reload => reloads ++ [reload] | None => reloads end.

(** Whether the step of a reload takes the text over. *)
Definition takes_over (v : View) (reload : Reload) : bool :=
  match document (editor v) with
  | Some d => (CodeDocument.revision d =? meta_revision (diff_meta (reload_diff reload)))%Z &&
      (reload_force reload || negb (is_dirty v))
  | None => false
  end.

Definition sync_handle (ev : SyncEvent) (w : Sync) : option Sync :=
  let v := view w in
  match ev with
  | Edit ev =>
      '(e, jobs) ← handle ev (editor v, jobs w);
      Some (mkSync (set_editor v e) jobs (saves w) (probes w) (reloads w) (synced w))
  | SaveNow =>
      let '(v, task) := save v name in
      Some (mkSync v (jobs w) (add_save v task (saves w)) (probes w) (reloads w) (synced w))
  | SaveForClose =>
      let '(v, r) := save_for_close v name in
      Some (mkSync v (jobs w) (add_save v (match r with inl task => task | inr _ => None end) (saves w))
              (probes w) (reloads w) (synced w))
  | SaveDone i io =>
      match saves w !! i with
      | None => Some w
      | Some (task, text) =>
          let outcome := save_blocking io (save_expected task) in
          let '(v, _) := finish_save v name outcome (save_mark task) in
          Some (mkSync v (jobs w) (delete i (saves w)) (probes w) (reloads w)
                  (match outcome with inl _ => text | inr _ => synced w end))
      end
  | Probe force =>
      Some (mkSync v (jobs w) (saves w) (probes w ++ [(disk_generation v, force)]) (reloads w) (synced w))
  | Probed i io =>
      match probes w !! i with
      | None => Some w
      | Some (generation, force) =>
          let '(v, reload) := reload_begin v generation (read_for_reload io) force in
          Some (mkSync v (jobs w) (saves w) (delete i (probes w)) (add_reload reload (reloads w)) (synced w))
      end
  | ReloadStep i now =>
      match reloads w !! i with
      | None => Some w
      | Some reload =>
          let synced := if takes_over v reload then normalize_newlines (read_text (reload_read reload)) else synced w in
          '(v, again, task) ← reload_step v name reload now;
          Some (mkSync v (jobs w) (add_save v task (saves w)) (probes w)
                  (add_reload again (delete i (reloads w))) synced)
      end
  | KeepMine => Some (mkSync (resolve_keep_mine v) (jobs w) (saves w) (probes w) (reloads w) (synced w))
  end.

(** A reload can be taken over: every [\r] of its text is before a [\n], and the
    counters and the lines have room for it. *)
Definition reload_ready (v : View) (reload : Reload) : Prop :=
  clean (read_text (reload_read reload)) ∧
  ∀ d, document (editor v) = Some d →
    (UndoHistory.next_id (history (editor v)) < U64_MAX)%Z ∧
    (∀ ops, disk_splices (diff_rope (reload_diff reload)) (read_text (reload_read reload)) = Some ops →
       spare (2 * length ops) d) ∧
    (Z.of_nat (newlines (contents d) + newlines (normalize_newlines (read_text (reload_read reload)))) + 1 ≤ U32_MAX)%Z.

(** A forced reload finds no open typing group. *)
Definition group_closed (v : View) (reload : Reload) : Prop :=
  reload_force reload = true → UndoHistory.open (history (editor v)) = false.

(** Whether forced reloads wait for the end of a typing group, as the code does
    not: only then does the mark of the last save stand for its text. *)
Context (strict : bool).

Definition sync_ready (ev : SyncEvent) (w : Sync) : Prop :=
  match ev with
  | Edit ev => ready text_of ev (editor (view w), jobs w)
  | ReloadStep i _ => ∀ reload, reloads w !! i = Some reload →
      reload_ready (view w) reload ∧ (strict = true → group_closed (view w) reload)
  | _ => True
  end.

Definition sync_step (w w' : Sync) : Prop := ∃ ev, sync_ready ev w ∧ sync_handle ev w = Some w'.

(** ** The invariant *)

(** What the history and the tasks say of a document. *)
Record synced_doc (w : Sync) (h : UndoHistory.t) (d : CodeDocument.t) : Prop := {
  synced_saved : strict = true → saved (saved_mark (view w)) (synced w) h (contents d);
  synced_ids : ids_grow h;
  synced_tasks : strict = true → Forall (λ '(task, text), saved (save_mark task) text h (contents d)) (saves w);
  synced_reloads : Forall (λ reload, let diff := reload_diff reload in
    (meta_revision (diff_meta diff) ≤ CodeDocument.revision d)%Z ∧
    (meta_revision (diff_meta diff) = CodeDocument.revision d → to_str (diff_rope diff) = contents d)) (reloads w) }.

Inductive sync_ok (w : Sync) : Prop :=
  | sync_closed : closed (editor (view w), jobs w) → sync_ok w
  | sync_shown d :
      document (editor (view w)) = Some d → world_ok text_of (editor (view w), jobs w) →
      synced_doc w (history (editor (view w))) d → sync_ok w.

(** A file whose text was loaded. *)
Definition loaded (raw : str) (unit : IndentUnit) (stamp : FileStamp) : Sync :=
  mkSync (mkView (fst (opened raw unit)) None HistoryMark.Baseline (Some stamp) (Some stamp) 0 false false InSync None false)
    [] [] [] [] (normalize_newlines raw).
End world.

Section correct.
Context `{Hrope : Rope, Hlaws : !RopeLaws} `{Hg : Graphemes, Hglaws : !GraphemesLaws}.
Context `{Hdiff : MyersDiff, Hdlaws : !MyersDiffLaws} `{Hhist : HistogramDiff, Hhlaws : !HistogramDiffLaws}.
Context (name : string) (text_of : str → str) (strict : bool).
Implicit Types (w : Sync) (v : View) (d : CodeDocument.t).

Lemma steps_path st st' : reachable_path st → rtc hist_step st st' → reachable_path st'.
Proof. intros Hp Hs. induction Hs; [done|]. eauto using hist_step_path. Qed.

Lemma steps_ids st st' : reachable_path st → ids_grow st.2 → rtc hist_step st st' → ids_grow st'.2.
Proof. intros Hp Hi Hs. induction Hs; [done|]. eauto using hist_step_path, hist_step_ids. Qed.

(** The document and the history move on. *)
Lemma synced_steps w h d h' d' :
  synced_doc strict w h d → reachable_path (d, h) → rtc hist_step (d, h) (d', h') → later d d' → synced_doc strict w h' d'.
Proof.
  intros [Hs Hi Ht Hr] Hp Hst [Hle Hsame]. split.
  - intros Hstrict. apply (saved_steps _ _ (d, h) (d', h')); [by apply Hs|done].
  - by apply (steps_ids (d, h) (d', h')).
  - intros Hstrict. eapply Forall_impl; [by apply Ht|]. intros [task text]. intros. by apply (saved_steps _ _ (d, h) (d', h')).
  - eapply Forall_impl; [exact Hr|]. cbn. intros reload [Hl Heq]. split; [lia|]. intros Heq'.
    rewrite Hsame by lia. apply Heq. lia.
Qed.

Lemma ok_reachable e d : ok e → document e = Some d → reachable_path (d, history e).
Proof. intros Hok Hd. by apply (ok_path e Hok). Qed.

(** An editor that has evolved, the tasks as they were. *)
Lemma sync_evolved w e jobs' d :
  document (editor (view w)) = Some d → world_ok text_of (editor (view w), jobs w) →
  synced_doc strict w (history (editor (view w))) d →
  world_ok text_of (e, jobs') → evolved (editor (view w)) e →
  sync_ok text_of strict (mkSync (set_editor (view w) e) jobs' (saves w) (probes w) (reloads w) (synced w)).
Proof.
  intros Hd Hw Hdoc Hw' [_ Hev]. destruct (Hev d Hd) as (d1&Hd1&_&_&Hlt&Hst).
  pose proof (ok_reachable _ d (proj1 Hw) Hd) as Hp. cbn [fst] in Hp.
  destruct (synced_steps w _ d _ d1 Hdoc Hp Hst Hlt) as [? ? ? ?]. by apply (sync_shown _ _ _ d1).
Qed.

(** A view that is as it was but for the state of the synchronisation. *)
Definition same_doc_view v v' : Prop := editor v' = editor v ∧ saved_mark v' = saved_mark v.

Lemma sync_same w v' ps :
  sync_ok text_of strict w → same_doc_view (view w) v' →
  sync_ok text_of strict (mkSync v' (jobs w) (saves w) ps (reloads w) (synced w)).
Proof.
  intros Hok [He Hm]. destruct Hok as [Hc|d Hd Hw [? ? ? ?]]; [apply sync_closed|apply (sync_shown _ _ _ d)];
    cbn [view jobs]; rewrite ?He; try done. split; cbn; by rewrite ?Hm.
Qed.

(** ** Saves *)

(** A save that starts: the group is closed, its text and its mark are the
    present ones. *)
Lemma start_save_spec v defer :
  (∃ after reason, (start_save v name defer).1 = set_reloading v (reloading v) after ∧
     (start_save v name defer).2 = reason ∧ ∀ task, reason ≠ Started task) ∨
  (∃ d, document (editor v) = Some d ∧ CodeDocument.read_only d = None ∧ disk v ≠ Conflict ∧
     saving v = false ∧ reloading v = false ∧
     let h := UndoHistory.close_group (history (editor v)) in
     start_save v name defer =
       (set_saving (set_editor v (set_history (editor v) h)) true None,
        Started (mkSave (CodeDocument.to_disk_string d) (buffer_stamp v) (UndoHistory.mark h)))).
Proof.
  unfold start_save.
  assert (v = set_reloading v (reloading v) (save_after_reload v)) as Hself by by destruct v.
  destruct (saving v) eqn:Hs; [left; eexists _, _; by split_and!|].
  destruct (document (editor v)) as [d|] eqn:Hd; [|left; eexists _, _; by split_and!].
  unfold CodeDocument.is_read_only. destruct (CodeDocument.read_only d) eqn:Hro; [left; eexists _, _; by split_and!|].
  case_bool_decide as Hc; [left; eexists _, _; by split_and!|].
  destruct (_ && _); [left; eexists _, _; by split_and!|].
  destruct (reloading v) eqn:Hr; [destruct defer; left; eexists _, _; by split_and!|].
  right. exists d. by split_and!.
Qed.

Lemma sync_start w defer task v' :
  sync_ok text_of strict w → start_save (view w) name defer = (v', task) →
  sync_ok text_of strict (mkSync v' (jobs w)
    (add_save v' (match task with Started task => Some task | _ => None end) (saves w)) (probes w) (reloads w) (synced w)).
Proof.
  intros Hok Hstart.
  destruct (start_save_spec (view w) defer) as [(after&reason&Hv&Ht&Hno)|(d&Hd&_&_&_&_&Heq)].
  - rewrite Hstart in Hv, Ht. cbn in Hv, Ht. subst v' task.
    destruct reason as [| |task|]; [| |by destruct (Hno task)|]; by apply (sync_same w).
  - rewrite Hstart in Heq. injection Heq as -> ->. set (h := UndoHistory.close_group _) in *.
    cbn [add_save]. destruct Hok as [[Hc _]|d0 Hd0 Hw Hdoc]; [cbn in Hc; congruence|].
    rewrite Hd0 in Hd. injection Hd as ->.
    pose proof (proj1 Hw) as Heok. cbn [fst] in Heok. pose proof (ok_reachable _ d Heok Hd0) as Hp.
    assert (rtc hist_step (d, history (editor (view w))) (d, h)) as Hst by (apply rtc_once; constructor).
    destruct (synced_steps w _ d h d Hdoc Hp Hst (later_refl d)) as [Hs' Hi' Ht' Hr'].
    apply (sync_shown _ _ _ d); [done| |split; [done|done| |done]].
    + destruct Hw as (_&Hb&Hj). split_and!; [by apply ok_close|done|done].
    + cbn. intros Hstrict. apply Forall_snoc; [by apply Ht'|]. unfold doc_text. cbn. rewrite Hd0.
      apply (saved_now d h); [|done|done]. by apply (steps_path (d, history (editor (view w)))).
Qed.

(** [save] and [save_for_close] start what [start_save] starts. *)
Lemma save_start v : (save v name).1 = (start_save v name true).1 ∧
  (save v name).2 = match (start_save v name true).2 with Started task => Some task | _ => None end.
Proof. unfold save. by destruct (start_save v name true) as [? []]. Qed.

Lemma sync_save w :
  sync_ok text_of strict w →
  sync_ok text_of strict (mkSync (save (view w) name).1 (jobs w)
    (add_save (save (view w) name).1 (save (view w) name).2 (saves w)) (probes w) (reloads w) (synced w)).
Proof.
  intros Hok. destruct (save_start (view w)) as [-> ->].
  destruct (start_save (view w) name true) as [v task] eqn:Hs. by apply (sync_start w true).
Qed.

Lemma sync_save_for_close w : sync_ok text_of strict w → runs (sync_handle name SaveForClose w) (sync_ok text_of strict).
Proof.
  intros Hok. cbn [sync_handle]. unfold save_for_close. destruct (start_save (view w) name false) as [v task] eqn:Hs.
  pose proof (sync_start w false task v Hok Hs) as H. by destruct task.
Qed.

Lemma sync_save_done w i io :
  sync_ok text_of strict w → runs (sync_handle name (SaveDone i io) w) (sync_ok text_of strict).
Proof.
  intros Hok. cbn [sync_handle]. destruct (saves w !! i) as [[task text]|] eqn:Hi; [|done].
  destruct Hok as [Hc|d Hd Hw [Hs Hid Ht Hr]].
  - destruct (save_blocking io (save_expected task)) as [stamp|[observed|message]]; cbn; by apply sync_closed.
  - assert (strict = true → saved (save_mark task) text (history (editor (view w))) (contents d)) as Hsaved.
    { intros Hstrict. exact (Forall_lookup_1 _ _ _ _ (Ht Hstrict) Hi). }
    assert (strict = true → Forall (λ '(task, text), saved (save_mark task) text (history (editor (view w)))
      (contents d)) (delete i (saves w))) as Ht'.
    { intros Hstrict. by apply Forall_delete, Ht. }
    destruct (save_blocking io (save_expected task)) as [stamp|[observed|message]]; cbn;
      apply (sync_shown _ _ _ d); done.
Qed.

(** ** Probes *)

Lemma begin_disk_reload_spec v stamp present force :
  same_doc_view v (begin_disk_reload v stamp present force).1 ∧
  ∀ diff, (begin_disk_reload v stamp present force).2 = Some diff → ∃ d,
    document (editor v) = Some d ∧ diff_rope diff = CodeDocument.text d ∧
    meta_revision (diff_meta diff) = CodeDocument.revision d.
Proof.
  unfold begin_disk_reload, same_doc_view. destruct (if present then stamp else None) as [s|]; cbn.
  - destruct (_ && _); [done|]. destruct (_ && _ && _); [done|]. destruct (_ && _); [done|].
    destruct (document (editor v)) as [d|] eqn:Hd; [|done]. split; [done|]. intros diff [= <-]. by exists d.
  - by case_bool_decide.
Qed.

(** A load that starts leaves the text. *)
Lemma ok_set_slot e generation : ok e → ok (set_slot e generation).
Proof. by intros []. Qed.

Lemma sync_start_load w ps :
  sync_ok text_of strict w →
  sync_ok text_of strict (mkSync (start_load (view w)) (jobs w) (saves w) ps (reloads w) (synced w)).
Proof.
  intros [Hc|d Hd (Hok&Hb&Hj) [? ? ? ?]]; [by apply sync_closed|]. apply (sync_shown _ _ _ d); [done| |by split].
  split_and!; [by apply ok_set_slot|exact Hb|exact Hj].
Qed.

(** What a probe that found a file, or none, does. *)
Lemma sync_begin w present gen force v' reload ps :
  sync_ok text_of strict w →
  (if negb (disk_generation (view w) =? gen)%Z then (view w, None)
   else if bool_decide (present ≠ None) && bool_decide (failed (view w) ≠ None) then (start_load (view w), None)
   else match begin_disk_reload (view w) (read_stamp <$> present) (bool_decide (present ≠ None)) force, present with
        | (self, Some diff), Some read => (self, Some (mkReload diff read 0 force))
        | (self, _), _ => (self, None)
        end) = (v', reload) →
  sync_ok text_of strict (mkSync v' (jobs w) (saves w) ps (add_reload reload (reloads w)) (synced w)).
Proof.
  intros Hok. destruct (negb _); [intros [= <- <-]; by apply (sync_same w)|].
  destruct (_ && _); [intros [= <- <-]; by apply sync_start_load|].
  destruct (begin_disk_reload_spec (view w) (read_stamp <$> present) (bool_decide (present ≠ None)) force)
    as [[He Hm] Hof].
  destruct (begin_disk_reload _ _ _ _) as [v1 [diff|]]; cbn in He, Hm, Hof;
    [destruct present as [read'|]|destruct present]; intros [= <- <-]; try by apply (sync_same w).
  destruct (Hof diff eq_refl) as (d&Hd&Htext&Hrev).
  destruct Hok as [[Hc _]|d' Hd' Hw [? ? ? ?]]; [cbn in Hc; congruence|]. rewrite Hd' in Hd. injection Hd as ->.
  apply (sync_shown _ _ _ d); cbn [view jobs]; rewrite ?He; [done..|].
  split; cbn; rewrite ?Hm; try done. apply Forall_snoc; [done|]. cbn. rewrite Hrev, Htext. split; [lia|done].
Qed.

Lemma sync_unreadable w error gen force v' ps :
  sync_ok text_of strict w →
  (if (disk_generation (view w) =? gen)%Z then disk_unreadable (view w) error force else view w) = v' →
  sync_ok text_of strict (mkSync v' (jobs w) (saves w) ps (reloads w) (synced w)).
Proof.
  intros Hok <-. destruct (_ =? _)%Z; [|by apply (sync_same w)].
  unfold disk_unreadable. destruct (negb force && _); [case_bool_decide; by apply (sync_same w)|].
  apply sync_closed. split; [done|]. cbn [snd jobs].
  destruct Hok as [[_ Hj]|d _ (_&_&Hj) _]; [done|]. eapply Forall_impl; [exact Hj|]. by intros job (?&_).
Qed.

Lemma sync_probed w i io : sync_ok text_of strict w → runs (sync_handle name (Probed i io) w) (sync_ok text_of strict).
Proof.
  intros Hok. cbn [sync_handle]. destruct (probes w !! i) as [[gen force]|]; [|done].
  destruct (reload_begin (view w) gen (read_for_reload io) force) as [v' reload] eqn:Hrun. cbn [runs].
  unfold reload_begin in Hrun. destruct (read_for_reload io) as [read|error].
  - by apply (sync_begin w (Some read) gen force).
  - destruct error; try by apply (sync_begin w None gen force).
    all: injection Hrun as Hv <-; by eapply sync_unreadable.
Qed.

(** ** Reloads *)

Lemma sync_ended v js ss ps rs s v' task :
  sync_ok text_of strict (mkSync v js ss ps rs s) → end_disk_reload v name = (v', task) →
  sync_ok text_of strict (mkSync v' js (add_save v' task ss) ps rs s).
Proof.
  intros Hok. unfold end_disk_reload.
  pose proof (sync_same _ (set_reloading v false false) ps Hok ltac:(done)) as Hok'. cbn in Hok'.
  destruct (save_after_reload v); [|intros [= <- <-]; exact Hok'].
  intros Hs. pose proof (sync_save _ Hok') as Hsave. cbn [view jobs saves probes reloads synced] in Hsave.
  by rewrite Hs in Hsave.
Qed.

(** The reload has left the list of those that run. *)
Lemma sync_drop_reload w i :
  sync_ok text_of strict w → sync_ok text_of strict (mkSync (view w) (jobs w) (saves w) (probes w) (delete i (reloads w)) (synced w)).
Proof.
  intros [Hc|d Hd Hw [? ? ? Hr]]; [by apply sync_closed|]. apply (sync_shown _ _ _ d); [done|done|].
  split; cbn; try done. by apply Forall_delete.
Qed.

(** What the mark stands for once the incoming text was taken over. *)
Lemma saved_taken v d s (t : str) h' d' (force : bool) :
  saved (saved_mark v) s (history (editor v)) (contents d) →
  (h' = history (editor v) ∧ t = contents d) ∨ UndoHistory.open h' = false →
  (if force then UndoHistory.open (history (editor v)) = false else is_dirty v = false) →
  contents d' = t → reachable_path (d', h') → ids_grow h' →
  saved (UndoHistory.mark h') t h' (contents d').
Proof.
  intros Hs Hclosed Hforce <- Hp Hid. destruct Hclosed as [[-> Heq]|Hopen]; [|by apply (saved_now d' h')].
  destruct force; [by apply (saved_now d')|].
  unfold is_dirty in Hforce. apply negb_false_iff, bool_decide_eq_true in Hforce.
  pose proof (EditHistoryCorrect.saved_mark (saved_mark v) s (d, history (editor v)) Hs Hforce) as Htext. cbn [fst] in Htext.
  rewrite Heq. rewrite Hforce. by rewrite Htext in Hs |- *.
Qed.

Lemma sync_take w d reload v1 e' d' ps rs meta :
  let v := view w in let t := normalize_newlines (read_text (reload_read reload)) in
  document (editor v) = Some d → world_ok text_of (editor v, jobs w) → synced_doc strict w (history (editor v)) d →
  (strict = true →
     if reload_force reload then UndoHistory.open (history (editor v)) = false else is_dirty v = false) →
  adopted (editor v) d t e' d' → v1 = set_editor v e' →
  Forall (λ reload, let diff := reload_diff reload in
    (meta_revision (diff_meta diff) ≤ CodeDocument.revision d)%Z ∧
    (meta_revision (diff_meta diff) = CodeDocument.revision d → to_str (diff_rope diff) = contents d)) rs →
  let d'' := CodeDocument.set_read_only (CodeDocument.set_line_ending d' (facts_line_ending meta)) (facts_read_only meta) in
  sync_ok text_of strict (mkSync (set_saved (set_editor v1 (set_document e' (Some d''))) (UndoHistory.mark (history e')))
    (jobs w) (saves w) ps rs t).
Proof.
  intros v t Hd Hw Hdoc Hforce [Hok' Hb' Hd' Hc' _ _ Hlt Hst Hclosed] -> Hrs d''.
  pose proof (ok_reachable _ d (proj1 Hw) Hd) as Hp. cbn [fst] in Hp.
  assert (later d d'') as Hlt' by exact Hlt.
  assert (rtc hist_step (d, history (editor v)) (d'', history e')) as Hst'.
  { etrans; [exact Hst|]. apply rtc_once. by constructor. }
  pose proof (synced_steps w _ d _ d'' Hdoc Hp Hst' Hlt') as [Hs1 Hi1 Ht1 _].
  apply (sync_shown _ _ _ d''); [done| |split; [|done|exact Ht1|]].
  - destruct Hw as (_&Hb&Hj). cbn [fst snd] in *. split_and!; cbn [fst snd view editor set_saved set_editor jobs base set_document].
    + by apply (ok_set_document _ d').
    + by rewrite Hb'.
    + eapply Forall_impl; [exact Hj|]. intros job (?&?&Hrev). split_and!; [done..|].
      cbn. intros ? [= <-]. destruct (Hrev d Hd) as [Hle Heq]. destruct Hlt as [Hl Hs]. cbn. split; [lia|].
      intros Hr. etrans; [apply Heq; lia|symmetry; apply Hs; lia].
  - cbn. intros Hstrict. apply (saved_taken v d (synced w) t (history e') d'' (reload_force reload)); try done.
    + by apply Hdoc.
    + by apply Hforce.
    + by apply (steps_path (d, history (editor v))).
  - eapply Forall_impl; [exact Hrs|]. cbn. intros r [Hle Heq]. destruct Hlt as [Hl Hs]. split; [lia|].
    intros Hr. etrans; [apply Heq; lia|symmetry; apply Hs; lia].
Qed.

Lemma sync_mark_conflict w rs :
  sync_ok text_of strict (mkSync (view w) (jobs w) (saves w) (probes w) rs (synced w)) →
  sync_ok text_of strict (mkSync (set_disk (view w) Conflict) (jobs w) (saves w) (probes w) rs (synced w)).
Proof. intros Hok. by apply (sync_same (mkSync (view w) (jobs w) (saves w) (probes w) rs (synced w))). Qed.

Lemma sync_reload_step w i now :
  sync_ok text_of strict w → sync_ready text_of strict (ReloadStep i now) w →
  runs (sync_handle name (ReloadStep i now) w) (sync_ok text_of strict).
Proof.
  intros Hok Hready. cbn [sync_handle sync_ready] in *. destruct (reloads w !! i) as [reload|] eqn:Hi; [|done].
  destruct (Hready reload eq_refl) as [[Hclean Hroom] Hopen]. clear Hready. pose proof (sync_drop_reload w i Hok) as Hdrop.
  unfold reload_step. set (text := read_text (reload_read reload)) in *.
  pose proof (disk_splices_spec (diff_rope (reload_diff reload)) text Hclean) as Hsp.
  destruct (disk_splices _ _) as [ops|]; [|done]. cbn [runs mbind option_bind] in Hsp |- *.
  unfold finish_disk_reload, takes_over. cbn [meta_revision meta_stamp meta_facts].
  destruct (document (editor (view w))) as [d|] eqn:Hd.
  2: { destruct (end_disk_reload (view w) name) as [v' task] eqn:He. cbn [mbind option_bind runs].
       by eapply sync_ended. }
  destruct (Z.eqb_spec (CodeDocument.revision d) (meta_revision (diff_meta (reload_diff reload)))) as [Hrev|Hrev];
    cbn [negb andb].
  2: { destruct (_ <? _); cbn [mbind option_bind runs].
       - destruct Hdrop as [[Hc _]|d' Hd' Hw' [? ? ? ?]]; [cbn in Hc; congruence|].
         cbn in Hd', Hw'. rewrite Hd in Hd'. injection Hd' as <-.
         apply (sync_shown _ _ _ d); [done|done|]. split; cbn; try done.
         apply Forall_snoc; [done|]. cbn. split; [lia|done].
       - destruct (end_disk_reload (set_disk (view w) Conflict) name) as [v' task] eqn:He.
         cbn [mbind option_bind runs]. eapply sync_ended; [|exact He]. by apply sync_mark_conflict. }
  destruct (negb (reload_force reload) && is_dirty (view w)) eqn:Hdirty.
  { apply andb_true_iff in Hdirty as [->%negb_true_iff ->]. cbn [orb negb].
    destruct (end_disk_reload (set_disk (view w) Conflict) name) as [v' task] eqn:He.
    cbn [mbind option_bind runs]. eapply sync_ended; [|exact He]. by apply sync_mark_conflict. }
  assert (reload_force reload || negb (is_dirty (view w)) = true) as ->.
  { destruct (reload_force reload), (is_dirty (view w)); done. }
  destruct Hok as [[Hc _]|d' Hd' Hw Hdoc]; [cbn in Hc; congruence|]. rewrite Hd in Hd'. injection Hd' as <-.
  destruct (Hroom d eq_refl) as (Hid&Hspare&Hfit).
  destruct (Forall_lookup_1 _ _ _ _ (synced_reloads _ _ _ _ Hdoc) Hi) as [_ Hsame]. cbn in Hsame.
  rewrite Hsame in Hsp by done.
  assert (base_fits (base (editor (view w)))) as Hbase.
  { intros b sha Hb. by apply (proj1 (proj2 Hw)) in Hb as [_ ?]. }
  eapply (runs_bind _ _ (λ '(v', again, task), again = None ∧ sync_ok text_of strict
    (mkSync v' (jobs w) (add_save v' task (saves w)) (probes w) (delete i (reloads w)) (normalize_newlines text)))).
  { eapply (runs_bind _ _ (λ '(v', again, task), again = None ∧ sync_ok text_of strict
      (mkSync v' (jobs w) (add_save v' task (saves w)) (probes w) (delete i (reloads w)) (normalize_newlines text))));
      [|by intros [[v' again] task] [-> Hok']].
    eapply runs_bind.
    - apply (apply_disk_splices_run (view w) d ops (normalize_newlines text)); [apply Hw|done..|by apply Hspare|done].
    - intros v1 (e'&d1&Hv1&Had). rewrite Hv1. cbn [editor set_editor]. rewrite (adopted_document _ _ _ _ _ Had).
      set (v2 := set_saved _ _).
      assert (sync_ok text_of strict (mkSync v2 (jobs w) (saves w) (probes w) (delete i (reloads w)) (normalize_newlines text))) as Hok2.
      { apply (sync_take w d reload (set_editor (view w) e') e' d1 (probes w) (delete i (reloads w))
          (read_facts (reload_read reload))); try done.
        - intros Hstrict. pose proof (Hopen Hstrict) as Hgroup. unfold group_closed in Hgroup.
          destruct (reload_force reload); [by apply Hgroup|]. by destruct (is_dirty (view w)).
        - apply Forall_delete, Hdoc. }
      destruct (end_disk_reload (set_stamps v2 _ _) name) as [v' task] eqn:He. cbn [runs].
      split; [done|]. eapply sync_ended; [|exact He].
      by apply (sync_same (mkSync v2 (jobs w) (saves w) (probes w) (delete i (reloads w)) (normalize_newlines text))). }
  intros [[v' again] task] [-> Hok']. exact Hok'.
Qed.

Lemma sync_edit w ev :
  sync_ok text_of strict w → sync_ready text_of strict (Edit ev) w → runs (sync_handle name (Edit ev) w) (sync_ok text_of strict).
Proof.
  intros Hok Hr. cbn [sync_handle sync_ready] in *. destruct Hok as [Hc|d Hd Hw Hdoc].
  - eapply runs_bind; [by apply (handle_closed text_of)|]. intros [e js] Hc'. by apply sync_closed.
  - eapply runs_bind; [by apply (handle_ok text_of)|]. intros [e js] [Hw' He]. by apply (sync_evolved w e js d).
Qed.

(** Every event is handled, and keeps the invariant. *)
Lemma sync_handle_ok ev w :
  sync_ok text_of strict w → sync_ready text_of strict ev w → runs (sync_handle name ev w) (sync_ok text_of strict).
Proof.
  intros Hok Hr. destruct ev.
  - by apply sync_edit.
  - cbn [sync_handle]. pose proof (sync_save w Hok) as Hs. by destruct (save (view w) name) as [v task].
  - by apply sync_save_for_close.
  - by apply sync_save_done.
  - by apply (sync_same w (view w)).
  - by apply sync_probed.
  - by apply sync_reload_step.
  - by apply (sync_same w).
Qed.

Lemma loaded_ok raw unit stamp :
  clean raw → fits (split_lines (normalize_newlines raw)) → sync_ok text_of strict (loaded raw unit stamp).
Proof.
  intros Hc Hf. pose proof (opened_ok text_of raw unit Hc Hf) as Hw.
  assert (contents (CodeDocument.new raw) = normalize_newlines raw) as Hcont by apply to_from_str.
  apply (sync_shown _ _ _ (CodeDocument.new raw)); [done|done|].
  assert (reachable_path (CodeDocument.new raw, UndoHistory.default)) as Hp by by apply (ok_path _ (proj1 Hw)).
  assert (ids_grow UndoHistory.default) as Hi.
  { apply (reachable_ids (CodeDocument.new raw, UndoHistory.default)). exists (CodeDocument.new raw).
    split; [|done]. rewrite Hcont. by split. }
  split; cbn [saves reloads loaded view editor saved_mark synced history opened fst]; [|done|by constructor|by constructor].
  rewrite <- Hcont. intros _. by apply (saved_now (CodeDocument.new raw) UndoHistory.default).
Qed.

Lemma sync_steps_ok w w' : sync_ok text_of strict w → rtc (sync_step name text_of strict) w w' → sync_ok text_of strict w'.
Proof.
  intros Hok Hs. induction Hs as [w|w w1 w' (ev&Hr&Hh) _ IH]; [done|]. apply IH.
  pose proof (sync_handle_ok ev w Hok Hr) as Hrun. by rewrite Hh in Hrun.
Qed.
End correct.

(** * The editor: the saves that run *)

Section saves.
Context `{Hrope : Rope} `{Hg : Graphemes} `{Hdiff : MyersDiff} `{Hhist : HistogramDiff}.
Context (name : string) (text_of : str → str) (strict : bool).
Implicit Types (w : Sync) (v : View).

(** The saves that a view of which [saving] holds has running. *)
Definition running (saving : bool) : nat := if saving then 1 else 0.

(** A save is started only when none runs, and then one does. *)
Definition starts v v' (task : option SaveTask) : Prop :=
  running (saving v') = running (saving v) + length (option_list task).

Lemma starts_none v v' : saving v' = saving v → starts v v' None.
Proof. unfold starts. intros ->. cbn. lia. Qed.

Lemma starts_same v0 v v' task : saving v = saving v0 → starts v v' task → starts v0 v' task.
Proof. unfold starts. by intros ->. Qed.

Lemma start_save_starts v defer :
  starts v (start_save v name defer).1 (match (start_save v name defer).2 with Started task => Some task | _ => None end).
Proof.
  unfold start_save. destruct (saving v) eqn:Hs; [by apply starts_none|].
  repeat (case_match; try by apply starts_none). unfold starts. by rewrite Hs.
Qed.

Lemma save_starts v : starts v (save v name).1 (save v name).2.
Proof.
  pose proof (start_save_starts v true) as Hs. unfold save. by destruct (start_save v name true) as [? []].
Qed.

Lemma end_disk_reload_starts v : starts v (end_disk_reload v name).1 (end_disk_reload v name).2.
Proof.
  unfold end_disk_reload. destruct (save_after_reload v); [|by apply starts_none].
  by apply (starts_same _ (set_reloading v false false)), save_starts.
Qed.

Lemma apply_disk_splices_saving v ops now v' : apply_disk_splices v ops now = Some v' → saving v' = saving v.
Proof.
  unfold apply_disk_splices. case_bool_decide; [by intros [= <-]|]. destruct (document (editor v)); [|by intros [= <-]].
  destruct (splice_all _ _ _ _ _) as [[e ok]|]; [|done]. cbn [mbind option_bind]. by intros [= <-].
Qed.

Lemma finish_disk_reload_starts v meta ops retry force now v' again task :
  finish_disk_reload v name meta ops retry force now = Some (v', again, task) → starts v v' task.
Proof.
  assert (∀ v1, saving v1 = saving v →
    (let '(self, task) := end_disk_reload v1 name in Some (self, None, task)) = Some (v', again, task) →
    starts v v' task) as Hended.
  { intros v1 Hv. pose proof (end_disk_reload_starts v1) as Hs. destruct (end_disk_reload v1 name) as [v2 t].
    intros [= <- _ <-]. by apply (starts_same v v1). }
  unfold finish_disk_reload. destruct (document (editor v)) as [d|]; [|by apply Hended].
  destruct (negb _); [destruct retry; [intros [= <- _ <-]; by apply starts_none|by apply Hended]|].
  destruct (_ && _); [by apply Hended|].
  destruct (apply_disk_splices v ops now) as [v1|] eqn:Hv1; [|done]. apply apply_disk_splices_saving in Hv1.
  cbn [mbind option_bind]. apply Hended. rewrite <- Hv1. cbn. by repeat case_match.
Qed.

Lemma begin_disk_reload_saving v stamp present force : saving (begin_disk_reload v stamp present force).1 = saving v.
Proof. unfold begin_disk_reload. by repeat case_match. Qed.

Lemma reload_begin_saving v generation read force : saving (reload_begin v generation read force).1 = saving v.
Proof.
  unfold reload_begin, disk_unreadable.
  pose proof (λ stamp present, begin_disk_reload_saving v stamp present force) as Hb.
  repeat case_match; try done; cbn;
    match goal with
    | H : begin_disk_reload v ?s ?p force = _ |- _ => specialize (Hb s p); rewrite H in Hb; exact Hb
    end.
Qed.

(** ** Any sequence of events *)

Definition one_save w : Prop := length (saves w) = running (saving (view w)).

Lemma add_save_length v task ss : length (add_save v task ss) = length ss + length (option_list task).
Proof. destruct task; cbn; [by rewrite length_app|lia]. Qed.

Lemma one_save_starts w v' task js ps rs s :
  one_save w → starts (view w) v' task → one_save (mkSync v' js (add_save v' task (saves w)) ps rs s).
Proof. unfold one_save, starts. cbn. intros Hw Hs. rewrite add_save_length. lia. Qed.

Lemma one_save_handle ev w w' : one_save w → sync_handle name ev w = Some w' → one_save w'.
Proof.
  intros Hw. destruct ev; cbn [sync_handle].
  - destruct (handle _ _) as [[e js]|]; [|done]. cbn [mbind option_bind]. by intros [= <-].
  - pose proof (save_starts (view w)) as Hs. destruct (save (view w) name) as [v task].
    intros [= <-]. by apply one_save_starts.
  - pose proof (start_save_starts (view w) false) as Hs. unfold save_for_close.
    destruct (start_save (view w) name false) as [v [| |task|]]; intros [= <-];
      [by apply (one_save_starts w v None)..|by apply (one_save_starts w v (Some task))|by apply (one_save_starts w v None)].
  - destruct (saves w !! i) as [[task text]|] eqn:Hi; [|by intros [= <-]].
    assert (length (saves w) = 1) as Hlen.
    { apply lookup_lt_Some in Hi. unfold one_save, running in Hw. destruct (saving (view w)); lia. }
    assert (length (delete i (saves w)) = 0) as Hdel.
    { rewrite length_delete by by eexists. lia. }
    unfold finish_save. repeat case_match; simplify_eq; intros [= <-]; exact Hdel.
  - by intros [= <-].
  - destruct (probes w !! i) as [[generation force]|]; [|by intros [= <-]].
    pose proof (reload_begin_saving (view w) generation (read_for_reload io) force) as Hs.
    destruct (reload_begin _ _ _ _) as [v reload]. intros [= <-]. unfold one_save. cbn in *. by rewrite Hs.
  - destruct (reloads w !! i) as [reload|]; [|by intros [= <-]]. unfold reload_step.
    destruct (disk_splices _ _) as [ops|]; [|done]. cbn [mbind option_bind].
    destruct (finish_disk_reload _ _ _ _ _ _ _) as [[[v again] task]|] eqn:Hf; [|done].
    cbn [mbind option_bind]. intros [= <-]. apply one_save_starts; [done|]. by eapply finish_disk_reload_starts.
  - by intros [= <-].
Qed.

Lemma one_save_steps w w' : one_save w → rtc (sync_step name text_of strict) w w' → one_save w'.
Proof. intros Hw Hs. induction Hs as [w|w w1 w' (ev&_&Hh) _ IH]; [done|]. apply IH. by eapply one_save_handle. Qed.
End saves.

(** * The editor: a file is loaded and saved as it is *)

(** A Unicode scalar value. *)
Definition scalar (c : N) : Prop := (c < 0xD800 ∨ 0xE000 ≤ c < 0x110000)%N.

Lemma scalar_spec c : ((c <? 0xD800)%N || (0xE000 <=? c) && (c <? 0x110000))%N = true ↔ scalar c.
Proof. unfold scalar. rewrite orb_true_iff, andb_true_iff, !N.ltb_lt, N.leb_le. done. Qed.

Lemma decode_sound bs c rest : decode_char bs = Some (c, rest) → bs = utf8 c ++ rest ∧ scalar c.
Proof.
  assert (∀ n c', (if bool_decide (utf8 c' = take n bs) && ((c' <? 0xD800)%N || (0xE000 <=? c') && (c' <? 0x110000))%N
    then Some (c', drop n bs) else None) = Some (c, rest) → bs = utf8 c ++ rest ∧ scalar c) as Hchar.
  { intros n c'. destruct (bool_decide _ && _) eqn:Hc; [|done]. intros [= <- <-].
    apply andb_true_iff in Hc as [Hc%bool_decide_eq_true Hs]. rewrite Hc, take_drop. split; [done|]. by apply scalar_spec. }
  unfold decode_char. destruct bs as [|b1 [|b2 [|b3 [|b4 bs]]]]; [done|..]; cbv zeta;
    repeat match goal with |- context [if (?b <? ?n)%N then _ else _] => destruct (b <? n)%N end; eauto.
Qed.

Lemma from_utf8_sound fuel bs text : from_utf8 fuel bs = Some text → bytes text = bs.
Proof.
  revert bs text. induction fuel as [|fuel IH]; intros bs text; cbn [from_utf8].
  - destruct bs; [|done]. by intros [= <-].
  - destruct bs as [|b bs]; [by intros [= <-]|]. destruct (decode_char (b :: bs)) as [[c rest]|] eqn:Hd; [|done].
    destruct (from_utf8 fuel rest) as [t|] eqn:Hr; [|done]. intros [= <-].
    apply decode_sound in Hd as [-> _]. change (bytes (c :: t)) with (utf8 c ++ bytes t). f_equal. by apply IH.
Qed.

Lemma decode_complete c rest : scalar c → decode_char (utf8 c ++ rest) = Some (c, rest).
Proof.
  intros Hs.
  assert (∀ n bs, bs = utf8 c ++ rest → n = length (utf8 c) →
    (if bool_decide (utf8 c = take n bs) && ((c <? 0xD800)%N || (0xE000 <=? c) && (c <? 0x110000))%N
     then Some (c, drop n bs) else None) = Some (c, rest)) as Hchar.
  { intros n bs -> ->. rewrite take_app_length, drop_app_length, bool_decide_eq_true_2 by done.
    by rewrite (proj2 (scalar_spec c) Hs). }
  assert (c mod 64 < 64)%N by (apply N.mod_lt; lia). assert ((c / 64) mod 64 < 64)%N by (apply N.mod_lt; lia).
  assert ((c / 4096) mod 64 < 64)%N by (apply N.mod_lt; lia).
  pose proof (N.div_mod c 64 ltac:(lia)) as Hdm. pose proof (N.div_mod (c / 64) 64 ltac:(lia)) as Hdm2.
  pose proof (N.div_mod (c / 4096) 64 ltac:(lia)) as Hdm3.
  rewrite N.Div0.div_div in Hdm2, Hdm3. change (64 * 64)%N with 4096%N in Hdm2. change (4096 * 64)%N with 262144%N in Hdm3.
  assert (∀ a b : N, (a + b - a = b)%N) as Hsub by lia.
  remember (utf8 c) as l eqn:Hl. pose proof Hl as Hu. unfold utf8 in Hu.
  destruct (N.ltb_spec c 0x80) as [Hb1|Hb1]; [|destruct (N.ltb_spec c 0x800) as [Hb2|Hb2];
    [|destruct (N.ltb_spec c 0x10000) as [Hb3|Hb3]]]; rewrite Hu; unfold decode_char; cbv zeta; cbn [app].
  - destruct (N.ltb_spec c 0x80); [|lia].
    destruct rest as [|r1 [|r2 [|r3 rest]]]; rewrite <- Hl; by apply Hchar; rewrite Hu.
  - assert (c / 64 < 32)%N by (apply N.Div0.div_lt_upper_bound; lia).
    assert (2 <= c / 64)%N by (apply N.div_le_lower_bound; lia).
    rewrite !Hsub. replace (c / 64 * 64 + c mod 64)%N with c by lia. rewrite <- Hl.
    destruct rest as [|r1 [|r2 rest]];
      (destruct (N.ltb_spec (0xC0 + c / 64) 0x80); [lia|]);
      try (destruct (N.ltb_spec (0xC0 + c / 64) 0xE0); [|lia]); by apply Hchar; rewrite Hu.
  - assert (c / 4096 < 16)%N by (apply N.Div0.div_lt_upper_bound; lia).
    rewrite !Hsub. replace ((c / 4096 * 64 + (c / 64) mod 64) * 64 + c mod 64)%N with c by lia. rewrite <- Hl.
    destruct rest as [|r1 rest];
      (destruct (N.ltb_spec (0xE0 + c / 4096) 0x80); [lia|]);
      (destruct (N.ltb_spec (0xE0 + c / 4096) 0xE0); [lia|]);
      try (destruct (N.ltb_spec (0xE0 + c / 4096) 0xF0); [|lia]); by apply Hchar; rewrite Hu.
  - rewrite !Hsub. replace (((c / 262144 * 64 + (c / 4096) mod 64) * 64 + (c / 64) mod 64) * 64 + c mod 64)%N
      with c by lia. rewrite <- Hl.
    destruct (N.ltb_spec (0xF0 + c / 262144) 0x80); [lia|]. destruct (N.ltb_spec (0xF0 + c / 262144) 0xE0); [lia|].
    destruct (N.ltb_spec (0xF0 + c / 262144) 0xF0); [lia|]. by apply Hchar; rewrite Hu.
Qed.

Lemma from_utf8_complete fuel text :
  Forall scalar text → length text ≤ fuel → from_utf8 fuel (bytes text) = Some text.
Proof.
  intros Ht. revert fuel. induction Ht as [|c text Hc _ IH]; intros fuel Hf; [by destruct fuel|].
  destruct fuel as [|fuel]; [cbn in Hf; lia|]. change (bytes (c :: text)) with (utf8 c ++ bytes text).
  pose proof (decode_complete c (bytes text) Hc) as Hd. pose proof (utf8_nonempty c) as Hne. cbn [from_utf8].
  destruct (utf8 c ++ bytes text) as [|b bs] eqn:Hb.
  { apply (f_equal length) in Hb. rewrite length_app in Hb. cbn in Hb. lia. }
  rewrite Hd, IH by (cbn in Hf; lia). done.
Qed.

Lemma length_bytes_ge text : length text ≤ length (bytes text).
Proof.
  induction text as [|c text IH]; [done|]. change (bytes (c :: text)) with (utf8 c ++ bytes text).
  rewrite length_app. pose proof (utf8_nonempty c). cbn [length]. lia.
Qed.
