(* ===== verification/EditProperties.v ===== *)
(** * The editor: the properties of documents, histories and views

    Each theorem states what the editor does for a reader of the code; the
    witnesses apply them to a rope that is the list of its characters. *)

From stdpp Require Import relations.
From S2P Require Import Prelude DiffRange DiffText DiffChanges DiffUtf8 DiffTracker DiffTrackerCorrect EditDocument EditDocumentCorrect EditSplice EditSpliceCorrect EditHistory EditHistoryCorrect EditCursor EditCursorCorrect EditView EditViewCorrect EditViewHandlers EditViewBlocks EditViewWorld.

Section document.
Context `{Hrope : Rope, Hlaws : !RopeLaws}.
Implicit Types d : CodeDocument.t.

(** C10: In a document that can be edited, [splice] replaces the characters between
    two offsets, each moved back to a character boundary and the second not before
    the first, by the text with its newlines normalized.  It returns nothing exactly
    when no character lies between the offsets and the text is empty; otherwise the
    windows it returns tell the tracker of every line that changed, and its record,
    applied backwards to the new document and forwards to the old one, gives the old
    text and the new one again.  This is of texts without carriage returns before
    and after, whose lines can be counted; a carriage return that is removed may be
    lost when it is restored ([undo_loses_carriage_return]). *)
Theorem splice_correct d a b text :
  let s := contents d in let s' := splice_text s ((a, b), text) in
  CodeDocument.read_only d = None →
  13%N ∉ s → fits (split_lines s) → 13%N ∉ s' → fits (split_lines s') →
  runs (EditSplice.splice d (a, b) text) (λ '(d', o),
    contents d' = s' ∧ CodeDocument.read_only d' = None ∧
    CodeDocument.line_ending d' = CodeDocument.line_ending d ∧
    (o = None ↔ normalize_newlines text = [] ∧
       s = EditDocumentCorrect.before s a ++ EditDocumentCorrect.after s (b `max` a)) ∧
    match o with
    | None => d' = d
    | Some applied =>
        described (split_lines s) (windows applied) (split_lines s') ∧
        runs (apply_reverse d' (record applied)) (λ '(d0, _), contents d0 = s) ∧
        runs (apply_forward d (record applied)) (λ '(d1, _), contents d1 = s')
    end).
Proof.
  intros s s' Hro Hcr Hfit Hcr' Hfit'. destruct (splice_run d a b text Hro) as (x&Hs&Hrun). fold s in Hs, Hrun.
  change (EditDocumentCorrect.before s a ++ normalize_newlines text ++
    EditDocumentCorrect.after s (b `max` a)) with s' in Hrun.
  set (p := EditDocumentCorrect.before _ _) in *. set (q := EditDocumentCorrect.after _ _) in *.
  set (y := normalize_newlines text) in *. assert (s' = p ++ y ++ q) as Hs' by done. clearbody s'.
  assert (crlf_free y) as Hy by (apply no_cr_crlf_free; rewrite Hs', !elem_of_app in Hcr'; tauto).
  assert (crlf_free x) as Hx by (apply no_cr_crlf_free; rewrite Hs, !elem_of_app in Hcr; tauto).
  assert (s = p ++ q ↔ x = []) as Hnothing.
  { rewrite Hs at 1. split; [|by intros ->]. intros Heq%(inj (app p))%(f_equal length). rewrite length_app in Heq.
    apply nil_length_inv. lia. }
  eapply runs_mono; [by apply Hrun|]. intros [d' o].
  destruct (bool_decide (x = []) && bool_decide (y = [])) eqn:He.
  - apply andb_true_iff in He as [Hx0%bool_decide_eq_true Hy0%bool_decide_eq_true].
    intros [-> ->]. split_and!; [rewrite Hs', Hy0; etrans; [exact Hs|by rewrite Hx0]|done..| |done]. by rewrite Hnothing.
  - intros [[Hc Hl Hr] ->]. cbn [windows record]. split_and!; [done|congruence|done|..].
    + split; [done|]. intros [Hy0 Hx0%Hnothing]. by rewrite Hx0, Hy0 in He.
    + rewrite Hs, Hs'. apply splice_described; [by rewrite <- Hs|by rewrite <- Hs'].
    + eapply runs_mono; [apply (apply_reverse_spec d' p x y q)|]; rewrite <- ?Hs, <- ?Hs'; [congruence|done..|].
      by intros [d0 ?] [[? _ _] _].
    + eapply runs_mono; [apply (apply_forward_spec d p x y q)|]; rewrite <- ?Hs, <- ?Hs'; [done..|].
      by intros [d1 ?] [[? _ _] _].
Qed.

(** C11: In every state that a document and its history reach by splices, undo,
    redo and saves, undoing a transaction succeeds in a document that can be edited,
    and redoing it then restores the text, the undo stack and the redo stack as they
    were.  The text at the start and the texts spliced in, newlines normalized, have
    no carriage return, and the lines can be counted; with a carriage return in the
    text what is undone may be lost ([undo_loses_carriage_return]). *)
Theorem undo_then_redo d0 d h :
  13%N ∉ contents d0 → fits (split_lines (contents d0)) → rtc hist_step (d0, UndoHistory.default) (d, h) →
  CodeDocument.read_only d = None → UndoHistory.undo_stack h ≠ [] →
  runs (UndoHistory.undo h d) (λ '(h1, d1, step1), step1 ≠ None ∧
    length (UndoHistory.redo_stack h1) = S (length (UndoHistory.redo_stack h)) ∧
    runs (UndoHistory.redo h1 d1) (λ '(h2, d2, step2), step2 ≠ None ∧
      contents d2 = contents d ∧ UndoHistory.undo_stack h2 = UndoHistory.undo_stack h ∧
      UndoHistory.redo_stack h2 = UndoHistory.redo_stack h ∧ UndoHistory.mark h2 = UndoHistory.mark h)).
Proof.
  intros Hcr Hfit Hsteps Hro Hne.
  pose proof (reachable_on_path (d, h) (ex_intro _ d0 (conj (conj Hcr Hfit) Hsteps))) as Hp. unfold reachable_path in Hp. cbn [fst snd] in Hp.
  destruct (UndoHistory.undo h d) as [[[h1 d1] step1]|] eqn:Hrun; pose proof (undo_path _ d h Hro Hp) as Hu;
    rewrite Hrun in Hu; [|done].
  destruct (pop_back (UndoHistory.undo_stack h)) as [[below t]|] eqn:Hpop; [|by apply pop_back_none in Hpop].
  destruct Hu as (_&_&s1&Hd1&Hp1&Hrecs&Hbelow&Hredo&edits&->&_). cbn [runs].
  split; [done|]. split; [rewrite Hredo, length_app; cbn; lia|].
  pose proof (respliced_contents _ _ _ Hd1) as Hc1. pose proof (respliced_read_only _ _ _ Hd1) as Hr1.
  rewrite <- Hc1 in Hp1. rewrite Hro in Hr1.
  destruct (UndoHistory.redo h1 d1) as [[[h2 d2] step2]|] eqn:Hrun2; pose proof (redo_path _ d1 h1 Hr1 Hp1) as Hr;
    rewrite Hrun2 in Hr; [|done].
  assert (pop_back (UndoHistory.redo_stack h1) = Some (UndoHistory.redo_stack h, t)) as Hpop1 by by apply pop_back_some.
  rewrite Hpop1 in Hr. destruct Hr as (_&_&s2&Hd2&_&Hrecs2&Hundo2&Hredo2&edits2&->&_). cbn [runs].
  rewrite Hc1 in Hrecs2. pose proof (records_det _ _ _ _ Hrecs Hrecs2) as Heq. apply pop_back_some in Hpop.
  assert (UndoHistory.undo_stack h2 = UndoHistory.undo_stack h) as Hu2 by by rewrite Hundo2, Hbelow, Hpop.
  split_and!; [done|rewrite (respliced_contents _ _ _ Hd2); done|done|done|].
  unfold UndoHistory.mark. rewrite Hu2, Hpop. by rewrite last_snoc.
Qed.

(** Whatever calls are made on a history whose texts fit in memory, its two
    stacks hold at most 1000 transactions, its byte counters are exactly the bytes
    of the stacks, and these are at most 32 MiB unless a single transaction is
    larger. *)
Theorem history_bounded h :
  calls h →
  length (UndoHistory.undo_stack h) + length (UndoHistory.redo_stack h) ≤ MAX_UNDO_TRANSACTIONS ∧
  UndoHistory.undo_bytes h = stack_size (UndoHistory.undo_stack h) ∧
  UndoHistory.redo_bytes h = stack_size (UndoHistory.redo_stack h) ∧
  ((UndoHistory.undo_bytes h + UndoHistory.redo_bytes h ≤ MAX_UNDO_BYTES)%Z ∨
   length (UndoHistory.undo_stack h) + length (UndoHistory.redo_stack h) ≤ 1).
Proof. by intros [_ ? ? ? _ ?]%calls_bounded. Qed.

(** After fewer than [2 ^ 64 - 1] steps - insertions, removals, snapshots of
    the rope taken for a measurement, and measurements that arrive late and in any
    order - the cached length of the longest line is exact whenever it is not
    marked stale. *)
Theorem longest_line_exact raw n d snaps :
  clean raw → (Z.of_nat n < 2 ^ 64)%Z → nsteps doc_step n (CodeDocument.new raw, []) (d, snaps) →
  CodeDocument.longest_line_stale d = false → CodeDocument.longest_line_chars d = longest_of (contents d).
Proof.
  intros Hraw Hn Hsteps. enough (∀ m k st st', doc_inv k st → (Z.of_nat (k + m) < 2 ^ 64)%Z →
    nsteps doc_step m st st' → doc_inv (k + m) st') as Hall.
  { by destruct (Hall n 0 _ _ (doc_inv_new raw Hraw) Hn Hsteps) as (_&Hex&_). }
  induction m as [|m IH]; intros k st st' Hinv Hk Hm; inversion Hm as [|? ? st1 ? Hstep Hrest]; subst.
  - by rewrite Nat.add_0_r.
  - rewrite <- Nat.add_succ_comm in *. apply (IH (S k) st1); [|done|done].
    apply (doc_step_inv k st); [lia|done|done].
Qed.
End document.

Section cursor.
Context `{Hrope : Rope, Hlaws : !RopeLaws} `{Hg : Graphemes, Hglaws : !GraphemesLaws}.
Implicit Types d : CodeDocument.t.

(** C13: The motions of the caret are those of a grid of grapheme clusters: at the
    offset of a row and a cluster they give the offset of the next and of the
    previous cluster, across the ends of rows, of the start and of the end of the
    row, and of the cluster under the goal column [delta] rows away, within the
    text; going right and then left comes back. *)
Theorem motions_refine_grid d pos goal delta :
  let s := contents d in valid s pos →
  clamp d (offset_of s pos) = Some (offset_of s pos) ∧
  grapheme_right d (offset_of s pos) = Some (offset_of s (right s pos)) ∧
  grapheme_left d (offset_of s pos) = Some (offset_of s (left s pos)) ∧
  (right s pos ≠ pos → grapheme_left d (offset_of s (right s pos)) = Some (offset_of s pos)) ∧
  line_home d (offset_of s pos) = Some (offset_of s (pos.1, 0)) ∧
  line_end d (offset_of s pos) = Some (offset_of s (row_end s pos.1)) ∧
  vertical d (offset_of s pos) goal delta = Some (offset_of s (at_column s (row_by s pos.1 delta) goal)) ∧
  (∃ col, goal_column d (offset_of s pos) = Some col ∧ at_column s pos.1 col = pos).
Proof.
  intros s Hv. split_and!; [by apply clamp_pos|by apply grapheme_right_pos|by apply grapheme_left_pos| |
    by apply line_home_pos|by apply line_end_pos|by apply vertical_pos|].
  - intros Hr. pose proof (right_valid _ _ Hv) as Hv'.
    etrans; [exact (grapheme_left_pos d _ Hv')|]. fold s. by rewrite left_right.
  - exists (column_of s pos). split; [by apply goal_column_pos|by apply at_column_of].
Qed.

(** A motion by a word inside a row gets past at least one character and stays
    in the row: to the right within the text after the caret, to the left within
    the text before it. *)
Theorem word_motions_progress d r x y :
  let s := contents d in r < length (split_lines s) → row_line s r = x ++ y →
  (y ≠ [] → runs (word_right d (line_offset s r + byte_len x)) (λ b,
     line_offset s r + byte_len x < b ≤ line_offset s r + byte_len (row_line s r) ∧ is_cut s b)) ∧
  (x ≠ [] → runs (word_left d (line_offset s r + byte_len x)) (λ b,
     line_offset s r ≤ b < line_offset s r + byte_len x ∧ is_cut s b)).
Proof.
  intros s Hr Hxy. pose proof Hr as [l Hl]%lookup_lt_is_Some_2. destruct (row_line_prefix _ _ _ Hl) as [t Ht].
  rewrite Hxy in Ht. split; intros Hne.
  - rewrite (word_right_spec d r x y Hr Hxy Hne). cbn [runs]. fold s.
    pose proof (word_skip_positive y Hne) as [Hpos _]. rewrite Hxy, !byte_len_app.
    pose proof (f_equal byte_len (take_drop (word_skip y) y)) as Hy. rewrite byte_len_app in Hy.
    assert (0 < byte_len (take (word_skip y) y)).
    { apply Nat.neq_0_lt_0, byte_len_nonempty. intros Hnil%(f_equal length). rewrite length_take in Hnil.
      assert (length y ≠ 0) by by destruct y. cbn [length] in Hnil. lia. }
    split; [lia|]. destruct (cut_of_row s r l (x ++ take (word_skip y) y) (drop (word_skip y) y ++ t) Hl) as (p&q&Hs&Hp).
    { rewrite Ht, <- (take_drop (word_skip y) y) at 1. by rewrite <- !app_assoc. }
    rewrite byte_len_app in Hp. rewrite <- Hp, Hs. apply is_cut_app.
  - rewrite (word_left_spec d r x y Hr Hxy Hne). cbn [runs]. fold s.
    assert (reverse x ≠ []) as Hrne by (intros Hnil%(f_equal length); rewrite length_reverse in Hnil; by destruct x).
    pose proof (word_skip_positive (reverse x) Hrne) as [Hpos Hle]. rewrite length_reverse in Hle.
    set (k := length x - word_skip (reverse x)).
    pose proof (f_equal byte_len (take_drop k x)) as Hx. rewrite byte_len_app in Hx.
    assert (0 < byte_len (drop k x)).
    { apply Nat.neq_0_lt_0, byte_len_nonempty. intros Hnil%(f_equal length). rewrite length_drop in Hnil. cbn in Hnil. lia. }
    split; [lia|]. destruct (cut_of_row s r l (take k x) (drop k x ++ y ++ t) Hl) as (p&q&Hs&Hp).
    { rewrite Ht, <- (take_drop k x) at 1. by rewrite <- !app_assoc. }
    rewrite <- Hp, Hs. apply is_cut_app.
Qed.
End cursor.

(** What a paste inserts has no carriage return, control character,
    bidirectional or zero-width character; a text without them is pasted as it
    is, so that pasting what was pasted changes nothing more. *)
Theorem sanitize_paste_correct text :
  Forall printable (sanitize_paste text) ∧ (Forall printable text → sanitize_paste text = text) ∧
  sanitize_paste (sanitize_paste text) = sanitize_paste text.
Proof.
  assert (∀ t, Forall printable t → sanitize_paste t = t) as Hid.
  { intros t Ht. unfold sanitize_paste. assert (sanitize_chars t = t) as ->.
    { induction Ht as [|c t Hc _ IH]; [done|]. cbn [sanitize_chars].
      destruct Hc as [->|[->|[Hc Hb]]]; [by rewrite IH..|].
      rewrite (proj2 (N.eqb_neq c 13)) by (by intros ->). rewrite Hc, IH. by destruct (_ || _). }
    unfold strip_bidi_zero_width. destruct (existsb _ t) eqn:He; [|done].
    apply existsb_exists in He as (c&Hin%list_elem_of_In&Hbc). rewrite Forall_forall in Ht.
    by destruct (Ht c Hin) as [->|[->|[_ Hc]]]; rewrite ?Hc in Hbc. }
  pose proof (sanitize_paste_printable text). split_and!; [done|apply Hid|by apply Hid].
Qed.

Section view.
Context `{Hrope : Rope, Hlaws : !RopeLaws} `{Hg : Graphemes, Hglaws : !GraphemesLaws}.
Context `{Hdiff : MyersDiff, Hdlaws : !MyersDiffLaws} (text_of : str → str) (raw : str) (unit : IndentUnit).
Implicit Types d : CodeDocument.t.

(** The states that an opened file reaches by any events in any order, background
    refreshes of the tracker among them: every [\r] of the file is before a [\n] and
    its lines can be counted, and the same is true of every text that an event
    inserts, which also finds room in the counters ([ready]).  To load a file again
    that could not be read is not an event. *)
Definition edited_from (w : world) : Prop :=
  clean raw ∧ fits (split_lines (normalize_newlines raw)) ∧ rtc (world_step text_of) (opened raw unit) w.

Lemma edited_ok w : edited_from w → world_ok text_of w.
Proof. intros (Hc&Hf&Hs). by eapply steps_ok; [by apply opened_ok|]. Qed.

(** C7: An event of the editor - a key, a command, a click, the input method, the
    clipboard, a refresh of the tracker, a revert - is handled without a panic, and
    afterwards both ends of the selection lie between characters, the text has no
    carriage return, the line ending and the read-only state are those from before,
    and a document that is read-only is the same.  This holds in every state that
    such events reach from a file just opened, as long as in the file and in each
    text that an event inserts every [\r] is before a [\n], and the counters and
    lines have room; the file is not loaded anew after it was unreadable, which
    would leave the caret where it was ([stale_caret_panics]). *)
Theorem editor_handles_events w ev :
  edited_from w → ready text_of ev w →
  runs (handle ev w) (λ w', ∀ d, document w.1 = Some d → ∃ d', document w'.1 = Some d' ∧
    13%N ∉ contents d' ∧
    is_cut (contents d') (anchor (selection w'.1)) ∧ is_cut (contents d') (sel_head (selection w'.1)) ∧
    CodeDocument.line_ending d' = CodeDocument.line_ending d ∧
    CodeDocument.read_only d' = CodeDocument.read_only d ∧
    (CodeDocument.read_only d ≠ None → d' = d)).
Proof.
  intros Hw%edited_ok Hr. pose proof (handle_ok text_of ev w Hw Hr) as Hrun.
  destruct (handle ev w) as [w'|] eqn:Hh; [|done]. destruct Hrun as [[Hok' _] [_ Hev]]. cbn [runs].
  intros d Hd. destruct (Hev d Hd) as (d'&Hd'&Hro&Hle&_). exists d'.
  split_and!; [done|by apply (ok_plain w'.1)|by apply (ok_anchor w'.1)|by apply (ok_head w'.1)|done|done|].
  intros Hl. destruct w as [self jobs]. pose proof (handle_locked ev self jobs d w' (conj Hd Hl) Hh) as Hsame.
  rewrite Hd' in Hsame. by injection Hsame.
Qed.

(** C9: In every state that the events of the editor reach from a file just
    opened the gutter's markers are right: when the tracker is active, its blocks
    are an edit script between the lines of the document and the lines of the
    committed text.  The conditions are those of C7: in the file and in the texts
    inserted every [\r] is before a [\n], the events find room, and the file is not
    loaded anew after it was unreadable, which would keep the tracker of the old
    text ([stale_tracker_kept]). *)
Theorem editor_tracker_follows w :
  edited_from w → active (tracker w.1) = true → ∃ d text sha,
    document w.1 = Some d ∧ base w.1 = Base.Text text sha ∧ text = text_of sha ∧
    tracks Default (split_lines (contents d)) (split_lines text) (blocks (tracker w.1)).
Proof.
  intros Hw%edited_ok Hact. destruct Hw as (Hok&Hb&_).
  destruct (ok_tracker _ Hok Hact) as (d&text&sha&Hd&Hbase&Hr).
  destruct (reachable_ok _ _ _ _ Hr) as (_&_&_&Ht&_). exists d, text, sha. split_and!; try done. by apply (Hb _ _ Hbase).
Qed.

(** C16: Reverting at a line looks up the first block of the tracker that covers
    it.  When there is one, the document can be edited and the file has a committed
    text, the lines of that text take the place of the lines of the block and every
    other line is as it was; it reports that nothing was done only if that changes
    nothing, and the refresh that it starts is of the new text.  Otherwise it does
    nothing.  (In the states of C7, of a committed text without carriage returns.) *)
Theorem revert_block_restores w line now :
  edited_from w → (as_u32 line < U32_MAX)%Z → reverts w.1 →
  runs (BlockTracker.block_at (tracker w.1) (as_u32 line)) (λ found,
    match found with
    | Some (i, block) => blocks (tracker w.1) !! i = Some block ∧ covers block (as_u32 line) ∧
        ∀ j earlier, j < i → blocks (tracker w.1) !! j = Some earlier → ¬ covers earlier (as_u32 line)
    | None => Forall (λ block, ¬ covers block (as_u32 line)) (blocks (tracker w.1))
    end ∧
    runs (revert_block w.1 line now) (λ '(self', done, job),
      match document w.1, base w.1, found, CodeDocument.read_only <$> document w.1 with
      | Some d, Base.Text text _, Some (_, block), Some None =>
          ∃ d', document self' = Some d' ∧
            contents d' = join_lines (reverted (split_lines (contents d)) (split_lines text) block) ∧
            (done = false → contents d' = contents d) ∧
            (∀ refresh, job = Some refresh → to_str (job_text refresh) = contents d' ∧ job_base refresh = text)
      | _, _, _, _ => done = false ∧ self' = w.1 ∧ job = None
      end)).
Proof.
  intros Hw%edited_ok Hline Hrev. pose proof (block_at_spec (tracker w.1) _ Hline) as Hat.
  pose proof (revert_block_run w.1 line now (proj1 Hw) Hline Hrev) as Hrun.
  destruct (BlockTracker.block_at _ _) as [found|]; [|done]. cbn [runs] in *. split; [exact Hat|].
  eapply runs_mono; [exact Hrun|]. intros [[self' done] job] (s1&Hc&Hjob&Htarget).
  assert (revert_target w.1 found = None → done = false ∧ self' = w.1 ∧ job = None) as Hnone.
  { intros Hno. rewrite Hno in Htarget. destruct Htarget as [-> ->]. by destruct Hjob as [-> ->]. }
  unfold revert_target in *. destruct (document w.1) as [d|]; [|by destruct (base w.1), found as [[]|]; apply Hnone].
  cbn [fmap option_fmap option_map].
  destruct (base w.1) as [| |text sha] eqn:Hb; [by apply Hnone..|].
  destruct found as [[i block]|]; [|by apply Hnone].
  destruct (CodeDocument.read_only d); [by apply Hnone|]. destruct Htarget as (d'&Hd'&Hc'&Hdone).
  destruct (refresh_now_ok s1 (carried_ok _ _ _ Hc)) as (_&Hdoc&_&_&Hof). exists d'.
  destruct done; [rewrite <- Hjob in Hdoc, Hof|destruct Hjob as [-> ->]]; cbn [fst snd] in *; [|done].
  split_and!; [by rewrite Hdoc|done|done|]. intros refresh Hr. destruct (Hof refresh Hr) as (_&(sha'&Hb'&_)&Hd).
  rewrite (carried_base _ _ _ Hc), Hb in Hb'. injection Hb' as -> _. split; [by apply Hd|done].
Qed.

(** Undoing the transaction on the top of the stack. *)
Lemma undo_last (self : Editor) d t s :
  ok self → document self = Some d → CodeDocument.read_only d = None →
  last (UndoHistory.undo_stack (history self)) = Some t → records_apply s (Transaction.edits t) (contents d) →
  runs (time_travel self false) (λ e, ∃ d', document e = Some d' ∧ contents d' = s ∧
    clamp d' (anchor (Transaction.before t)) = Some (anchor (selection e)) ∧
    clamp d' (sel_head (Transaction.before t)) = Some (sel_head (selection e))).
Proof.
  intros Hok Hd Hro Htop Hrecs. unfold time_travel, CodeDocument.is_read_only. rewrite Hd, Hro.
  cbn [history set_marked]. eapply runs_bind; [apply undo_path; [done|by apply ok_path]|].
  unfold pop_back. rewrite Htop. intros [[h' d'] step] (_&_&s'&Hd'&_&Hs'&_&_&edits&->&Htells).
  pose proof (records_inj _ _ _ _ Hrecs Hs') as <-. pose proof (respliced_contents _ _ _ Hd') as Hc'.
  eapply runs_bind.
  { apply (note_changes_run _ (split_lines (contents d)) _ (split_lines s)
      (split_lines (default [] (Base.text (base self)))) Htells).
    cbn. intros Hact. destruct (ok_tracker _ Hok Hact) as (d0&text&sha&Hd0&Hb&Hr).
    rewrite Hd0 in Hd. injection Hd as ->. by rewrite Hb. }
  intros self1 (t1&gen&->&_&_). eapply runs_mono; [by apply (finish_edit_run _ d')|].
  intros self2 (a&hd&goal&->&Ha&Hh&_&_). by exists d'.
Qed.

(** Inserting a text at the caret or over the selection replaces the selected
    characters by it, and one undo then brings back the text from before with the
    selection at its old place. *)
Theorem insert_then_undo w d text now :
  edited_from w → document w.1 = Some d → CodeDocument.read_only d = None → inserts w.1 text →
  runs (insert_text w.1 text Atomic now) (λ '(e1, done), ∃ d1, document e1 = Some d1 ∧
    contents d1 = splice_text (contents d) (replacement_range w.1, text) ∧
    if done then
      runs (time_travel e1 false) (λ e2, ∃ d2, document e2 = Some d2 ∧ contents d2 = contents d ∧
        clamp d2 (anchor (selection w.1)) = Some (anchor (selection e2)) ∧
        clamp d2 (sel_head (selection w.1)) = Some (sel_head (selection e2)))
    else contents d1 = contents d).
Proof.
  intros [Hok _]%edited_ok Hd Hro [Hclean Hroom]. destruct (Hroom d Hd) as (Hid&Hspare&Hfit).
  eapply runs_mono.
  { apply (splice_all_run w.1 d [(replacement_range w.1, normalize_newlines text)]); [done|by split|done|].
    split; [by constructor; [apply clean_normalized|]|].
    cbn [sum_list_with snd]. rewrite normalize_twice, Nat.add_0_r by done. exact Hfit. }
  intros [e1 done] (Hok1&_&_&d1&Hd1&Hres&_&_&Hdone). exists d1. split; [done|].
  assert (contents d1 = splice_text (contents d) (replacement_range w.1, text)) as Hc1.
  { rewrite (respliced_contents _ _ _ Hres). cbn [foldl]. unfold splice_text. cbn [fst snd].
    by rewrite normalize_twice. }
  split; [done|]. destruct done; [|by destruct Hdone].
  destruct Hdone as [(recs&Hpush&Hne&Hrecs) _]. pose proof (push_top _ _ _ _ _ _ Hpush Hne) as Htop.
  refine (undo_last e1 d1 (Transaction.mk _ recs (selection w.1) _) (contents d) Hok1 Hd1 _ Htop Hrecs).
  by rewrite (respliced_read_only _ _ _ Hres).
Qed.
End view.

(** ** Witnesses *)

Section witnesses.
Import TextRope CharGraphemes.
#[local] Existing Instance ReferenceDiff.reference_hunks.
#[local] Existing Instance ReferenceDiff.reference_laws.

Definition sample_doc : CodeDocument.t := CodeDocument.new [97; 10; 98; 32; 99]%N.

Lemma plain_dec s : bool_decide (13%N ∉ s) && (Z.of_nat (length (split_lines s)) <=? U32_MAX)%Z = true → plain s.
Proof. intros [H1%bool_decide_eq_true H2%Z.leb_le]%andb_true_iff. by split. Qed.

Lemma splice_correct_witness :
  runs (EditSplice.splice sample_doc (1, 2) [120; 13; 10]%N) (λ '(d', o), contents d' = [97; 120; 10; 98; 32; 99]%N ∧
    match o with
    | None => False
    | Some applied => runs (apply_reverse d' (record applied)) (λ '(d0, _), contents d0 = contents sample_doc)
    end).
Proof.
  eapply runs_mono; [apply (splice_correct sample_doc 1 2 [120; 13; 10]%N);
    [reflexivity|apply (bool_decide_unpack _); vm_compute; exact I|vm_compute; discriminate
    |apply (bool_decide_unpack _); vm_compute; exact I|vm_compute; discriminate]|].
  intros [d' o] (Hc&_&_&Hno&Ho). split; [rewrite Hc; vm_compute; reflexivity|].
  destruct o; [by destruct Ho as (_&?&_)|]. destruct Hno as [[Hnil _] _]; [done|]. vm_compute in Hnil. discriminate Hnil.
Defined.

(** A character replaced in the sample, and the record of it pushed. *)
Definition sample_edit : option (CodeDocument.t * UndoHistory.t) :=
  '(d, recs, _) ← splice_ops sample_doc [((1, 2), [120]%N)] [] [];
  h ← UndoHistory.push UndoHistory.default recs (CodeSelection.at_ 1) (CodeSelection.at_ 2) Atomic 0;
  Some (d, h).

Lemma sample_edit_spec :
  runs sample_edit (λ '(d, h), history_reachable (d, h) ∧ CodeDocument.read_only d = None ∧
    length (UndoHistory.undo_stack h) = 1 ∧ contents d = [97; 120; 98; 32; 99]%N).
Proof.
  assert ((λ '(d, h), (CodeDocument.read_only d, length (UndoHistory.undo_stack h), contents d)) <$> sample_edit =
    Some (None, 1, [97; 120; 98; 32; 99]%N)) as Hrun by (vm_compute; reflexivity).
  unfold sample_edit in *.
  destruct (splice_ops _ _ _ _) as [[[d recs] ws]|] eqn:Hs; [|discriminate Hrun]. cbn [mbind option_bind] in *.
  destruct (UndoHistory.push _ _ _ _ _ _) as [h|] eqn:Hp; [|discriminate Hrun]. cbn in Hrun |- *.
  injection Hrun as Hro Hlen Hc. split_and!; [|done..]. exists sample_doc.
  split; [apply plain_dec; vm_compute; reflexivity|]. apply rtc_once.
  eapply hist_edit; [|exact Hs|exact Hp].
  split; [by constructor; [apply (bool_decide_unpack _); vm_compute; exact I|]|vm_compute; discriminate].
Qed.

Lemma undo_then_redo_witness :
  runs sample_edit (λ '(d, h), runs (UndoHistory.undo h d) (λ '(h1, d1, step1), step1 ≠ None ∧
    length (UndoHistory.redo_stack h1) = S (length (UndoHistory.redo_stack h)) ∧
    runs (UndoHistory.redo h1 d1) (λ '(h2, d2, step2), step2 ≠ None ∧
      contents d2 = contents d ∧ UndoHistory.undo_stack h2 = UndoHistory.undo_stack h ∧
      UndoHistory.redo_stack h2 = UndoHistory.redo_stack h ∧ UndoHistory.mark h2 = UndoHistory.mark h))).
Proof.
  eapply runs_mono; [apply sample_edit_spec|]. intros [d h] (Hr&Hro&Hlen&_).
  destruct Hr as (d0&[Hcr Hfit]&Hsteps).
  apply (undo_then_redo d0 d h Hcr Hfit Hsteps Hro). intros Hnil. rewrite Hnil in Hlen. discriminate Hlen.
Defined.

Lemma history_bounded_witness : ∃ h,
  UndoHistory.push UndoHistory.default [mkApplied 0 [97]%N [233; 10]%N] (CodeSelection.at_ 0) (CodeSelection.at_ 1) Typing 0 = Some h ∧
  length (UndoHistory.undo_stack h) + length (UndoHistory.redo_stack h) ≤ MAX_UNDO_TRANSACTIONS ∧
  UndoHistory.undo_bytes h = stack_size (UndoHistory.undo_stack h).
Proof.
  eexists. split; [reflexivity|].
  match goal with |- context [UndoHistory.undo_stack ?h] => assert (calls h) as Hcalls end.
  { eapply (calls_push UndoHistory.default [mkApplied 0 [97]%N [233; 10]%N] (CodeSelection.at_ 0) (CodeSelection.at_ 1) Typing 0);
      [constructor|vm_compute; discriminate|reflexivity]. }
  destruct (history_bounded _ Hcalls) as (?&?&_). by split.
Defined.

Lemma longest_line_exact_witness :
  runs (CodeDocument.insert sample_doc 5 [120; 121]%N) (λ '(d, _), CodeDocument.longest_line_chars d = longest_of (contents d)).
Proof.
  assert ((λ '(d, _), CodeDocument.longest_line_stale d) <$> CodeDocument.insert sample_doc 5 [120; 121]%N = Some false)
    as Hrun by (vm_compute; reflexivity).
  destruct (CodeDocument.insert _ _ _) as [[d e]|] eqn:Hi; [|discriminate Hrun]. cbn in Hrun |- *. injection Hrun as Hst.
  apply (longest_line_exact [97; 10; 98; 32; 99]%N 1 d []); [|lia| |exact Hst].
  - apply (bool_decide_unpack _); vm_compute; exact I.
  - eapply nsteps_once, step_insert; [|exact Hi]. apply (bool_decide_unpack _); vm_compute; exact I.
Defined.

Lemma motions_refine_grid_witness :
  let s := contents sample_doc in
  grapheme_right sample_doc (offset_of s (0, 1)) = Some (offset_of s (1, 0)) ∧
  grapheme_left sample_doc (offset_of s (1, 0)) = Some (offset_of s (0, 1)).
Proof.
  intros s. assert (valid s (0, 1)) as Hv by (vm_compute; split; lia).
  destruct (motions_refine_grid sample_doc (0, 1) 0 0 Hv) as (_&Hr&_&Hl&_). split; [exact Hr|].
  apply Hl. vm_compute. discriminate.
Defined.

Lemma word_motions_progress_witness :
  runs (word_right sample_doc (line_offset (contents sample_doc) 1 + byte_len [98]%N)) (λ b,
    line_offset (contents sample_doc) 1 + byte_len [98]%N < b ≤
      line_offset (contents sample_doc) 1 + byte_len (row_line (contents sample_doc) 1) ∧
    is_cut (contents sample_doc) b).
Proof.
  assert (1 < length (split_lines (contents sample_doc))) as Hr by (vm_compute; lia).
  assert (row_line (contents sample_doc) 1 = [98]%N ++ [32; 99]%N) as Hrow by (vm_compute; reflexivity).
  destruct (word_motions_progress sample_doc 1 [98]%N [32; 99]%N Hr Hrow) as [Hright _].
  apply Hright. discriminate.
Defined.

(** A file opened, with a base of two other lines. *)
Definition sample_base : Base.t := Base.Text [97; 10; 99]%N [1]%N.

Definition sample_world : world := (install_base (opened [97; 10; 98]%N (Spaces 4)).1 sample_base, []).

Lemma sample_edited : edited_from (λ _, [97; 10; 99]%N) [97; 10; 98]%N (Spaces 4) sample_world.
Proof.
  split_and!; [apply (bool_decide_unpack _); vm_compute; exact I|vm_compute; discriminate|].
  apply rtc_once. exists (InstallBase sample_base). split; [|reflexivity].
  intros text sha [= <- <-]. split; [done|vm_compute; discriminate].
Qed.

Lemma sample_document : document sample_world.1 = Some (CodeDocument.new [97; 10; 98]%N).
Proof. reflexivity. Qed.

Lemma sample_inserts : inserts sample_world.1 [120; 10]%N.
Proof.
  split; [apply (bool_decide_unpack _); vm_compute; exact I|]. intros d. rewrite sample_document. intros [= <-].
  unfold spare. split_and!; vm_compute; (reflexivity || discriminate).
Qed.

Lemma editor_handles_events_witness :
  runs (handle (InsertText [120; 10]%N Typing 0) sample_world) (λ w', ∃ d', document w'.1 = Some d' ∧
    13%N ∉ contents d' ∧ is_cut (contents d') (sel_head (selection w'.1))).
Proof.
  eapply runs_mono; [apply (editor_handles_events _ _ _ _ _ sample_edited); exact sample_inserts|].
  intros w' Hw'. destruct (Hw' _ sample_document) as (d'&?&?&_&?&_). by exists d'.
Defined.

Lemma editor_tracker_follows_witness :
  active (tracker sample_world.1) = true ∧ ∃ d text sha,
    document sample_world.1 = Some d ∧ base sample_world.1 = Base.Text text sha ∧ text = [97; 10; 99]%N ∧
    tracks Default (split_lines (contents d)) (split_lines text) (blocks (tracker sample_world.1)).
Proof.
  split; [reflexivity|]. by apply (editor_tracker_follows _ _ _ _ sample_edited).
Defined.

Lemma revert_block_restores_witness :
  runs (revert_block sample_world.1 1 0) (λ '(self', done, _), done = true ∧ ∃ d', document self' = Some d' ∧
    contents d' = [97; 10; 99]%N).
Proof.
  assert (reverts sample_world.1) as Hrev.
  { intros text sha [= <- <-]. split; [apply (bool_decide_unpack _); vm_compute; exact I|].
    intros d. rewrite sample_document. intros [= <-] d1. rewrite sample_document. intros [= <-].
    unfold spare. split_and!; vm_compute; (reflexivity || discriminate). }
  pose proof (revert_block_restores _ _ _ _ 1 0 sample_edited eq_refl Hrev) as Hrun.
  match type of Hrun with runs ?m _ => remember m as at_line eqn:Hat end. vm_compute in Hat. subst at_line.
  destruct Hrun as [_ Hrun]. eapply runs_mono; [exact Hrun|]. intros [[self' done] job] (d'&Hd'&Hc&Hdone&_).
  assert (contents d' = [97; 10; 99]%N) as Htext by (rewrite Hc; vm_compute; reflexivity).
  split; [|exists d'; split; [exact Hd'|exact Htext]]. destruct done; [reflexivity|].
  rewrite Htext in Hdone. specialize (Hdone eq_refl). vm_compute in Hdone. discriminate Hdone.
Defined.

Lemma insert_then_undo_witness :
  runs (insert_text sample_world.1 [120; 10]%N Atomic 0) (λ '(e1, done), ∃ d1, document e1 = Some d1 ∧
    contents d1 = [120; 10; 97; 10; 98]%N ∧
    if done then runs (time_travel e1 false) (λ e2, ∃ d2, document e2 = Some d2 ∧ contents d2 = [97; 10; 98]%N)
    else contents d1 = [97; 10; 98]%N).
Proof.
  eapply runs_mono; [apply (insert_then_undo _ _ _ _ _ _ 0 sample_edited sample_document); [reflexivity|exact sample_inserts]|].
  intros [e1 ok] (d1&Hd1&Hc&Hok). exists d1. split; [done|]. split; [rewrite Hc; vm_compute; reflexivity|].
  destruct ok; [|exact Hok]. eapply runs_mono; [exact Hok|]. intros e2 (d2&?&?&_). by exists d2.
Defined.
End witnesses.
