(* ===== verification/EditSyncProperties.v ===== *)
(** * The editor: a document and its file

    Runs of the model in which the code does not do what it means to: a file that becomes unreadable and readable
    again leaves a caret inside a character and a tracker of the old text; a
    forced reload to the text there is lets further typing go unnoticed; undoing
    the deletion of a carriage return before a newline loses it.

    The properties: what holds of the text, of the dirty mark and of the file when edits, saves,
    probes and reloads come in any order. *)

From Stdlib Require Import String.
From stdpp Require Import relations.
From S2P Require Import Prelude DiffRange DiffText DiffChanges DiffTracker DiffTrackerCorrect DiffUtf8 EditDocument EditDocumentCorrect EditSplice EditSpliceCorrect EditHistory EditHistoryCorrect EditDisk EditDiskCorrect EditCursor EditCursorCorrect EditView EditViewCorrect EditViewHandlers EditViewBlocks EditViewWorld EditDiskSync EditDiskSyncWorld.

Import TextRope CharGraphemes ReferenceHistogram.

#[local] Existing Instance ReferenceDiff.reference_hunks.

Definition stamp (n : Z) : FileStamp := mkStamp (Some n) 2.

(** A file that was read. *)
Definition file_read (n : Z) (text : str) : DiskRead := mkRead text (stamp n) (mkFacts None (detect text)).

Definition file_loaded (n : Z) (text : str) : LoadedCode :=
  mkLoaded (CodeDocument.new text) (Spaces 4) (Some (stamp n)).

Definition shown (text : str) : View := view (loaded text (Spaces 4) (stamp 1)).

(** The file is unreadable at a probe, and is [text] again at the next; it is
    loaded, and its base is installed anew. *)
Definition unreadable_then (v : View) (text : str) (b : Base.t) : View :=
  let v := (reload_begin v (disk_generation v) (inr Binary) false).1 in
  let v := (reload_begin v (disk_generation v) (inl (file_read 2 text)) false).1 in
  let v := finish_load v (slot (editor v)) (inl (file_loaded 2 text)) in
  set_editor v (install_base (editor v) b).

(** The caret of ["ab"] is at its end; in ["aé"] that is inside the [é], and the
    backspace key panics. *)
Lemma stale_caret_panics :
  ∃ e, place_caret (editor (shown [97; 98]%N)) 2 false = Some e ∧
    let v := unreadable_then (set_editor (shown [97; 98]%N) e) [97; 233]%N Base.None_ in
    document (editor v) ≠ None ∧ sel_head (selection (editor v)) = 2 ∧
    delete_grapheme (editor v) false 0 = None.
Proof. eexists. split; [reflexivity|]. cbv zeta. split_and!; [discriminate|reflexivity|reflexivity]. Qed.

(** The tracker of a file that is as in its commit has no block; it has none when
    the file has come back with another text. *)
Lemma stale_tracker_kept :
  let b := Base.Text [97; 10]%N [1]%N in
  let e := install_base (editor (shown [97; 10]%N)) b in
  ∃ job t, (refresh_tracker_now e).2 = Some job ∧ run_tracker_job job = Some t ∧
    let v := unreadable_then (set_editor (shown [97; 10]%N) (apply_tracker_job (refresh_tracker_now e).1 job t))
               [98; 10]%N b in
    (active (tracker (editor v)), blocks (tracker (editor v)), BlockTracker.is_dirty (tracker (editor v))) =
      (true, [], false) ∧
    CodeDocument.text <$> document (editor v) = Some [98; 10]%N.
Proof.
  cbv zeta. eexists _, _. split; [reflexivity|]. split; [vm_compute; reflexivity|]. split; vm_compute; reflexivity.
Qed.

(** [b] is typed after [a], the file is reloaded by hand and holds the same text;
    [c], typed a moment later, joins the group whose mark was taken.  The text then,
    and the dirty mark. *)
Definition typed_after_forced_reload : option (option str * bool) :=
  let v := shown [97]%N in
  e ← place_caret (editor v) 1 false;
  '(e, _) ← insert_text e [98]%N Typing 0;
  d ← document e;
  '(v, _, _) ← reload_step (set_reloading (set_editor v e) true false) String.EmptyString
                 (mkReload (diff_of d (stamp 2)) (file_read 2 [97; 98]%N) 0 true) 100;
  '(e, _) ← insert_text (editor v) [99]%N Typing 200;
  Some (CodeDocument.text <$> document e, is_dirty (set_editor v e)).

Lemma forced_reload_hides_typing : typed_after_forced_reload = Some (Some [97; 98; 99]%N, false).
Proof. vm_compute. reflexivity. Qed.

(** ["\r\r\n"] is read as ["\r\n"]; what it is deleted, and what restored. *)
Definition deleted_and_restored : option (list (option str)) :=
  let e := editor (shown [13; 13; 10]%N) in
  deleted ← delete_grapheme (set_caret e (mkSelection 0 2) 0) false 0;
  restored ← time_travel deleted false;
  Some ((λ e : Editor, CodeDocument.text <$> document e) <$> [e; deleted; restored]).

Lemma undo_loses_carriage_return :
  deleted_and_restored = Some [Some [13; 10]%N; Some []; Some [10]%N].
Proof. vm_compute. reflexivity. Qed.

(** * The editor: the properties of a view and its file *)

Section sync.
Context `{Hrope : Rope, Hlaws : !RopeLaws} `{Hg : Graphemes, Hglaws : !GraphemesLaws}.
Context `{Hdiff : MyersDiff, Hdlaws : !MyersDiffLaws} `{Hhist : HistogramDiff, Hhlaws : !HistogramDiffLaws}.
Context (name : string) (text_of : str → str) (raw : str) (unit : IndentUnit) (stamp : FileStamp).
Implicit Types (w : Sync) (v : View) (d : CodeDocument.t).

(** The states that a loaded file reaches: every [\r] of the file is before a
    [\n] and its lines can be counted, and so it is of every text that an event
    inserts or a reload takes over, which also finds room in the counters.  With
    [strict], no forced reload takes a text over while a typing group is open.  To
    load a file again that could not be read is not an event. *)
Definition synced_from (strict : bool) w : Prop :=
  clean raw ∧ fits (split_lines (normalize_newlines raw)) ∧
  rtc (sync_step name text_of strict) (loaded raw unit stamp) w.

Lemma synced_from_ok strict w : synced_from strict w → sync_ok text_of strict w.
Proof. intros (Hc&Hf&Hs). by eapply sync_steps_ok; [by apply loaded_ok|]. Qed.

(** C8: Edits, saves, probes and reloads in any order, with any answers of the
    file system, lead to no state in which a document without the dirty mark holds
    another text than the one last read from its file or written to it, provided
    that in the file, in the texts inserted and in those reloaded every [\r] is
    before a [\n] and there is room for them, that a forced reload does not finish
    while a typing group is open, and that the file is not loaded anew after it was
    unreadable.  ([forced_reload_hides_typing], [undo_loses_carriage_return] and
    [stale_tracker_kept] are runs without these conditions.) *)
Theorem clean_is_synced w d :
  synced_from true w → document (editor (view w)) = Some d → is_dirty (view w) = false → contents d = synced w.
Proof.
  intros Hw%synced_from_ok Hd Hc. destruct Hw as [[Hno _]|d' Hd' _ [Hs _ _ _]]; [cbn in Hno; congruence|].
  specialize (Hs eq_refl). rewrite Hd in Hd'. injection Hd' as <-. apply negb_false_iff, bool_decide_eq_true in Hc.
  by apply (EditHistoryCorrect.saved_mark (EditDiskSync.saved_mark (view w)) (synced w) (d, history (editor (view w)))).
Qed.

(** C14: Every event - an edit, a save, the end of a save with any answer of the
    file system, a probe, what it read, a step of a reload, forced or not, keeping
    one's own text - is handled without a panic, and leaves a text without carriage
    returns and a selection between characters.  This holds in every state that
    such events reach from a file just loaded, as long as in the file, in the texts
    inserted and in those reloaded every [\r] is before a [\n], the counters and
    lines have room, and the file is not loaded anew after it was unreadable
    ([stale_caret_panics] is a run in which it is). *)
Theorem sync_handles_events w ev :
  synced_from false w → sync_ready text_of false ev w →
  runs (sync_handle name ev w) (λ w', ∀ d, document (editor (view w')) = Some d →
    13%N ∉ contents d ∧ is_cut (contents d) (anchor (selection (editor (view w')))) ∧
    is_cut (contents d) (sel_head (selection (editor (view w'))))).
Proof.
  intros Hw%synced_from_ok Hr. eapply runs_mono; [by apply (sync_handle_ok name text_of false)|].
  intros w' [[Hno _]|d' Hd' [Hok _] _] d Hd; [cbn in Hno; congruence|].
  split_and!; [by apply (ok_plain (editor (view w')))|by apply (ok_anchor (editor (view w')))|by apply (ok_head (editor (view w')))].
Qed.

(** At most one save runs at any time, and one runs exactly when the view says
    that it is saving. *)
Theorem one_save_at_a_time w :
  synced_from false w → length (saves w) ≤ 1 ∧ (saves w ≠ [] ↔ saving (view w) = true).
Proof.
  intros (_&_&Hs). assert (one_save w) as Hw by (eapply one_save_steps; [|exact Hs]; done).
  unfold one_save, running in Hw. destruct (saving (view w)); destruct (saves w) as [|t [|]]; cbn in *; try done; split; done || lia.
Qed.

(** C15: When a reload finds that the document was edited since the file was read,
    or has unsaved edits and is not forced, it leaves the editor as it is - text,
    history and selection - and starts no save: it asks for the splices to be
    computed once more, or declares a conflict. *)
Theorem reload_keeps_edits v d meta splices retry force now :
  document (editor v) = Some d →
  let moved := negb (CodeDocument.revision d =? meta_revision meta)%Z in
  moved || negb force && is_dirty v = true →
  ∃ v', finish_disk_reload v name meta splices retry force now =
    Some (v', if moved && retry then Some (diff_of d (meta_stamp meta)) else None, None) ∧
  editor v' = editor v ∧ EditDiskSync.saved_mark v' = EditDiskSync.saved_mark v ∧
  (if moved && retry then v' = v else disk v' = Conflict).
Proof.
  intros Hd moved Hkeep.
  assert (∃ v', (let '(self, task) := end_disk_reload (set_disk v Conflict) name in Some (self, None (A:=DiskDiff), task)) =
      Some (v', None, None) ∧ editor v' = editor v ∧ EditDiskSync.saved_mark v' = EditDiskSync.saved_mark v ∧
      disk v' = Conflict) as Hended.
  { unfold end_disk_reload, save. cbn [save_after_reload set_disk]. destruct (save_after_reload v); [|by eexists].
    unfold start_save. cbn [saving set_reloading set_disk]. destruct (saving v); [by eexists|].
    cbn [editor set_reloading set_disk]. rewrite Hd.
    destruct (CodeDocument.is_read_only d); [by eexists|]. cbn [disk set_reloading set_disk].
    rewrite bool_decide_eq_true_2 by done. by eexists. }
  unfold finish_disk_reload. rewrite Hd. fold moved. destruct moved; [destruct retry; [by exists v|exact Hended]|].
  cbn [orb] in Hkeep. rewrite Hkeep. exact Hended.
Qed.

(** What a reload that takes the text over makes of the view. *)
Definition taken_over (reload : Reload) v : Prop :=
  is_dirty v = false ∧ buffer_stamp v = Some (meta_stamp (diff_meta (reload_diff reload))) ∧
  ∃ d, document (editor v) = Some d ∧ contents d = normalize_newlines (read_text (reload_read reload)) ∧
    CodeDocument.line_ending d = facts_line_ending (read_facts (reload_read reload)) ∧
    CodeDocument.read_only d = facts_read_only (read_facts (reload_read reload)).

(** The save that follows a reload does not change it. *)
Lemma end_disk_reload_taken reload v : taken_over reload v → taken_over reload (end_disk_reload v name).1.
Proof.
  intros Ht. unfold end_disk_reload. destruct (save_after_reload v); [|done].
  destruct (save_start name (set_reloading v false false)) as [-> _].
  destruct (start_save_spec name (set_reloading v false false) true)
    as [(after&reason&->&_)|(d&Hd&_&_&_&_&->)]; [exact Ht|]. cbn [fst]. exact Ht.
Qed.

(** C12: A step of a reload that takes the text over - the document is still the
    one that the splices were computed for, and it has no unsaved edits or the
    reload is forced - leaves the document with the text that was read, newlines
    normalized, with its line ending and its read-only state, and not dirty.  Every
    [\r] of the text that was read is before a [\n] (of ["\r\r\n"] one [\r] too
    many is dropped), and the transaction, the revisions of the splices and the
    lines of the two texts can be counted. *)
Theorem reload_takes_over w i reload d ops now :
  synced_from false w → reloads w !! i = Some reload → document (editor (view w)) = Some d →
  takes_over (view w) reload = true →
  let incoming := read_text (reload_read reload) in
  clean incoming →
  (UndoHistory.next_id (history (editor (view w))) < U64_MAX)%Z →
  disk_splices (diff_rope (reload_diff reload)) incoming = Some ops → spare (2 * length ops) d →
  (Z.of_nat (newlines (contents d) + newlines (normalize_newlines incoming)) + 1 ≤ U32_MAX)%Z →
  runs (reload_step (view w) name reload now) (λ '(v', again, _), again = None ∧ is_dirty v' = false ∧
    ∃ d', document (editor v') = Some d' ∧ contents d' = normalize_newlines incoming ∧
      CodeDocument.line_ending d' = facts_line_ending (read_facts (reload_read reload)) ∧
      CodeDocument.read_only d' = facts_read_only (read_facts (reload_read reload)) ∧
      buffer_stamp v' = Some (meta_stamp (diff_meta (reload_diff reload)))).
Proof.
  intros Hok%synced_from_ok Hi Hd Htakes incoming Hclean Hid Hops Hspare Hfit. subst incoming. unfold takes_over in Htakes. rewrite Hd in Htakes.
  apply andb_true_iff in Htakes as [Hrev%Z.eqb_eq Hforce].
  destruct Hok as [[Hc _]|d' Hd' Hw Hdoc]; [cbn in Hc; congruence|]. rewrite Hd in Hd'. injection Hd' as <-.
  destruct (Forall_lookup_1 _ _ _ _ (synced_reloads _ _ _ _ Hdoc) Hi) as [_ Hsame].
  assert (base_fits (base (editor (view w)))) as Hbase.
  { intros b sha Hb. by apply (proj1 (proj2 Hw)) in Hb as [_ ?]. }
  unfold reload_step. pose proof (disk_splices_spec (diff_rope (reload_diff reload)) _ Hclean) as Hsp.
  rewrite Hops in Hsp |- *. cbn [runs mbind option_bind] in Hsp |- *.
  rewrite Hsame in Hsp by done. unfold finish_disk_reload. cbn [meta_revision meta_stamp meta_facts].
  rewrite Hd, Hrev, Z.eqb_refl. cbn [negb].
  assert (negb (reload_force reload) && is_dirty (view w) = false) as ->.
  { destruct (reload_force reload), (is_dirty (view w)); done. }
  eapply (runs_bind _ _ (λ '(v', again, _), again = None ∧ taken_over reload v')).
  { eapply runs_bind; [apply (apply_disk_splices_run (view w) d ops); [apply Hw|done..]|].
    intros v1 (e'&d1&->&Had). cbn [editor set_editor]. rewrite (adopted_document _ _ _ _ _ Had).
    set (v2 := set_stamps _ _ _). pose proof (end_disk_reload_taken reload v2) as Hend.
    destruct (end_disk_reload v2 name) as [v' task]. cbn [runs]. split; [done|]. apply Hend.
    split; [|split; [done|]]; [unfold is_dirty; cbn; by rewrite bool_decide_eq_true_2|].
    eexists. split; [done|]. by rewrite <- (adopted_contents _ _ _ _ _ Had). }
  intros [[v' again] task] [-> (?&Hs&d'&?&?&?&?)]. cbn [runs]. split_and!; [done..|]. by exists d'.
Qed.

(** The splices of a reload, applied from the last to the first, turn the text
    of the document into the text of the file with its newlines normalized. *)
Theorem disk_splices_adopt current incoming :
  clean incoming →
  runs (disk_splices current incoming) (λ ops,
    foldl splice_text (to_str current) ops = normalize_newlines incoming).
Proof. intros Hc. eapply runs_mono; [by apply disk_splices_spec|]. by intros ops [? _ _]. Qed.
End sync.

Section files.
Context `{Hrope : Rope, Hlaws : !RopeLaws}.
Implicit Types d : CodeDocument.t.

(** A file whose newlines are all [\n] or all [\r\n], read and written without
    an edit, is written byte for byte as it was read. *)
Theorem unedited_file_round_trip io disk :
  read_disk_text io = inl disk → crlf_free (disk_text disk) ∨ all_crlf (disk_text disk) →
  read_bytes io =
    inl (bytes (CodeDocument.to_disk_string (build_document (disk_text disk) (disk_read_only disk)))).
Proof.
  intros Hread Hends. assert (read_bytes io = inl (bytes (disk_text disk))) as ->.
  { unfold read_disk_text in Hread. repeat (case_match; try discriminate Hread).
    injection Hread as <-. cbn [disk_text]. f_equal. symmetry. by eapply from_utf8_sound. }
  do 2 f_equal. unfold CodeDocument.to_disk_string, build_document.
  cbn [CodeDocument.text CodeDocument.line_ending CodeDocument.set_read_only CodeDocument.new].
  rewrite to_from_str. destruct (decide (10%N ∈ disk_text disk)) as [Hin|Hno].
  - destruct Hends as [Hf|Ha]; [by rewrite (detect_lf _ Hf), normalize_crlf_free|].
    by rewrite (detect_crlf _ Ha Hin), replace_normalize.
  - unfold detect. rewrite detect_none, normalize_crlf_free; [done| |done].
    intros p q Heq. apply Hno. rewrite Heq, elem_of_app. right. right. by left.
Qed.

(** What a save writes is read back as the text of the document: the file is
    accepted when it fits and does not look binary, and the document built from it
    has the same text and, if there is a newline in it, the same line ending. *)
Theorem saved_file_reads_back d io meta :
  Forall scalar (contents d) → 13%N ∉ contents d →
  path_meta io = inl meta → open_meta io = inl meta → is_file meta = true →
  let bs := bytes (CodeDocument.to_disk_string d) in
  (N.of_nat (length bs) ≤ MAX_FILE_BYTES)%N → stamp_len (meta_stamp_of meta) = Z.of_nat (length bs) →
  looks_binary bs = false → read_bytes io = inl bs →
  ∃ disk, read_disk_text io = inl disk ∧ disk_text_stamp disk = meta_stamp_of meta ∧
    let d' := build_document (disk_text disk) (disk_read_only disk) in
    contents d' = contents d ∧
    (10%N ∈ contents d → CodeDocument.line_ending d' = CodeDocument.line_ending d).
Proof.
  intros Hsc Hcr Hpath Hopen Hfile bs Hlen Hstamp Hbin Hbytes. unfold read_disk_text.
  rewrite Hpath, Hopen, Hfile, Hbytes, Hbin, Hstamp. cbn [negb].
  rewrite <- nat_N_Z, N2Z.id. rewrite N.min_l by (unfold MAX_FILE_BYTES in *; lia).
  rewrite (proj2 (N.ltb_ge _ _)) by done.
  assert (Forall scalar (CodeDocument.to_disk_string d)) as Hsd.
  { unfold CodeDocument.to_disk_string. fold (contents d). destruct (CodeDocument.line_ending d); [done|].
    clear -Hsc. induction Hsc as [|c s Hc _ IH]; [constructor|]. rewrite replace_newlines_cons.
    apply Forall_app. split; [|exact IH]. destruct (c =? 10)%N; [|by constructor].
    by repeat constructor; apply scalar_spec. }
  subst bs. rewrite from_utf8_complete; [|done|apply length_bytes_ge].
  eexists. split; [reflexivity|]. split; [done|]. cbn [disk_text disk_read_only].
  unfold contents, build_document. cbn [CodeDocument.text CodeDocument.line_ending CodeDocument.set_read_only CodeDocument.new].
  rewrite to_from_str. unfold CodeDocument.to_disk_string. fold (contents d).
  destruct (CodeDocument.line_ending d).
  - split; [by apply normalize_no_cr|]. intros _. by apply detect_lf, no_cr_crlf_free.
  - split; [apply normalize_replace|]. intros Hin. apply detect_crlf; [apply replace_all_crlf|by apply replace_newline_in].
Qed.
End files.

(** ** Witnesses *)

Section witnesses.
Import TextRope CharGraphemes ReferenceHistogram.
#[local] Existing Instance ReferenceDiff.reference_hunks.
#[local] Existing Instance ReferenceDiff.reference_laws.

Definition sample_meta (n : Z) (len : Z) : FileMeta := mkFileMeta true (mkStamp (Some n) len) false.

Definition sample_io (n : Z) (bytes : list N) : ReadIo :=
  let meta := sample_meta n (Z.of_nat (List.length bytes)) in mkReadIo (inl meta) (inl meta) (inl bytes).

Definition sample_loaded : Sync := loaded [97; 10]%N (Spaces 4) (mkStamp (Some 1%Z) 2).

Lemma sample_from strict : synced_from "a.rs" (λ _, []) [97; 10]%N (Spaces 4) (mkStamp (Some 1%Z) 2) strict sample_loaded.
Proof. split_and!; [apply (bool_decide_unpack _); vm_compute; exact I|vm_compute; discriminate|constructor]. Qed.

(** The file was changed by another program, and its new text was read. *)
Definition sample_reloading : option Sync :=
  w ← sync_handle "a.rs" (Probe false) sample_loaded;
  sync_handle "a.rs" (Probed 0 (sample_io 2 [97; 13; 10; 98]%N)) w.

Lemma sample_reloading_spec :
  runs sample_reloading (λ w, synced_from "a.rs" (λ _, []) [97; 10]%N (Spaces 4) (mkStamp (Some 1%Z) 2) false w ∧
    document (editor (view w)) = Some (CodeDocument.new [97; 10]%N) ∧
    history (editor (view w)) = UndoHistory.default ∧
    reloads w = [mkReload (diff_of (CodeDocument.new [97; 10]%N) (mkStamp (Some 2%Z) 4))
      (mkRead [97; 13; 10; 98]%N (mkStamp (Some 2%Z) 4) (mkFacts None Crlf)) 0 false] ∧
    is_dirty (view w) = false).
Proof.
  unfold sample_reloading. cbn [sync_handle sample_loaded loaded mbind option_bind].
  match goal with |- runs ?m _ => destruct m as [w|] eqn:Hw; [|discriminate Hw] end. cbn [runs].
  split; [|injection Hw as <-; split_and!; reflexivity].
  destruct (sample_from false) as (Hc&Hf&_). split_and!; [exact Hc|exact Hf|].
  eapply rtc_l; [exists (Probe false); split; [exact I|reflexivity]|].
  eapply rtc_once. exists (Probed 0 (sample_io 2 [97; 13; 10; 98]%N)). split; [exact I|exact Hw].
Qed.

Lemma clean_is_synced_witness :
  contents (CodeDocument.new [97; 10]%N) = synced sample_loaded.
Proof. by apply (clean_is_synced _ _ _ _ _ sample_loaded _ (sample_from true)). Defined.

Lemma sync_handles_events_witness :
  runs (sync_handle "a.rs" SaveNow sample_loaded) (λ w', ∀ d, document (editor (view w')) = Some d → 13%N ∉ contents d).
Proof.
  eapply runs_mono; [by apply (sync_handles_events _ _ _ _ _ sample_loaded SaveNow (sample_from false))|].
  intros w' Hw d Hd. by destruct (Hw d Hd).
Defined.

Lemma one_save_at_a_time_witness : length (saves sample_loaded) ≤ 1.
Proof. by destruct (one_save_at_a_time _ _ _ _ _ _ (sample_from false)). Defined.

Lemma reload_keeps_edits_witness :
  ∃ v', finish_disk_reload (view sample_loaded) "a.rs" (mkMeta 5 (mkStamp (Some 2%Z) 4) None) [] false false 0 =
    Some (v', None, None) ∧ editor v' = editor (view sample_loaded) ∧ disk v' = Conflict.
Proof.
  destruct (reload_keeps_edits "a.rs" (view sample_loaded) (CodeDocument.new [97; 10]%N)
    (mkMeta 5 (mkStamp (Some 2%Z) 4) None) [] false false 0) as (v'&?&?&_&?); [reflexivity..|by exists v'].
Defined.

Lemma reload_takes_over_witness :
  runs sample_reloading (λ w, match reloads w with
    | reload :: _ => runs (reload_step (view w) "a.rs" reload 0) (λ '(v', again, _), again = None ∧ is_dirty v' = false ∧
        ∃ d', document (editor v') = Some d' ∧ contents d' = [97; 10; 98]%N ∧ CodeDocument.line_ending d' = Crlf)
    | [] => False
    end).
Proof.
  eapply runs_mono; [apply sample_reloading_spec|]. intros w (Hw&Hd&Hh&Hr&Hc). rewrite Hr.
  eapply runs_mono; [eapply (reload_takes_over _ _ _ _ _ w 0 _ _ _ 0 Hw); [by rewrite Hr|exact Hd|..]|].
  - unfold takes_over. rewrite Hd. cbn. by rewrite Hc.
  - apply (bool_decide_unpack _); vm_compute; exact I.
  - rewrite Hh. vm_compute. reflexivity.
  - vm_compute. reflexivity.
  - unfold spare. split; vm_compute; (reflexivity || discriminate).
  - vm_compute. discriminate.
  - intros [[v' again] task] (?&?&d'&?&?&?&_). split_and!; [done..|]. exists d'. by split_and!.
Defined.

Lemma disk_splices_adopt_witness :
  runs (disk_splices (from_str [97; 10; 98]%N) [97; 13; 10; 99]%N) (λ ops, foldl splice_text [97; 10; 98]%N ops = [97; 10; 99]%N).
Proof.
  assert (clean [97; 13; 10; 99]%N) as Hc by (apply (bool_decide_unpack _); vm_compute; exact I).
  pose proof (disk_splices_adopt (from_str [97; 10; 98]%N) _ Hc) as Hrun.
  destruct (disk_splices _ _) as [ops|]; [exact Hrun|destruct Hrun].
Defined.

Lemma unedited_file_round_trip_witness :
  let disk := mkDiskText [97; 13; 10; 233]%N (mkStamp (Some 2%Z) 5) false in
  read_disk_text (sample_io 2 [97; 13; 10; 195; 169]%N) = inl disk ∧
  bytes (CodeDocument.to_disk_string (build_document (disk_text disk) false)) = [97; 13; 10; 195; 169]%N.
Proof.
  intros disk. assert (read_disk_text (sample_io 2 [97; 13; 10; 195; 169]%N) = inl disk) as Hread by reflexivity.
  split; [exact Hread|]. pose proof (unedited_file_round_trip _ disk Hread) as Hround.
  assert (crlf_free (disk_text disk) ∨ all_crlf (disk_text disk)) as Hends
    by (right; apply (replace_all_crlf [97; 10; 233]%N)).
  specialize (Hround Hends). symmetry. by apply (f_equal (λ r, match r with inl bs => bs | inr _ => [] end)) in Hround.
Defined.

Lemma saved_file_reads_back_witness :
  let d := CodeDocument.new [97; 13; 10; 98]%N in
  let bs := bytes (CodeDocument.to_disk_string d) in
  bs = [97; 13; 10; 98]%N ∧
  ∃ disk, read_disk_text (sample_io 2 bs) = inl disk ∧
    contents (build_document (disk_text disk) (disk_read_only disk)) = contents d.
Proof.
  intros d bs. split; [vm_compute; reflexivity|].
  destruct (saved_file_reads_back d (sample_io 2 bs) (sample_meta 2 (Z.of_nat (List.length bs)))) as (disk&?&_&?&_);
    
    [|apply (bool_decide_unpack _); vm_compute; exact I|reflexivity|reflexivity|reflexivity|vm_compute; discriminate
    |reflexivity|reflexivity|reflexivity|by exists disk].
  repeat constructor; vm_compute; auto.
Defined.
End witnesses.
