(* ===== verification/Float.v ===== *)
(** * IEEE 754 arithmetic of the layout code

    Rust's [f32] and [f64] as [spec_float] with the binary32 and binary64
    parameters: every operation rounds as the hardware does.  The lemmas say
    when a result is a number and what its sign is, and that a number of 32 bits
    is the same after it was widened to 64 and narrowed again. *)

From S2P Require Import Prelude.
From Stdlib Require Export SpecFloat.

Local Open Scope Z_scope.

Section float.
Context (prec emax : Z).

Definition is_nan (x : spec_float) : bool := match x with S754_nan => true | _ => false end.

Definition is_finite (x : spec_float) : bool :=
  match x with S754_zero _ | S754_finite _ _ _ => true | _ => false end.

(** [f32::max] and [f32::min] ignore a NaN operand. *)
Definition fmax (x y : spec_float) : spec_float :=
  if is_nan x then y else if is_nan y then x else if SFltb x y then y else x.

Definition fmin (x y : spec_float) : spec_float :=
  if is_nan x then y else if is_nan y then x else if SFltb y x then y else x.

(** [x.clamp(min, max)] panics unless [min <= max]. *)
Definition clamp (x min max : spec_float) : option spec_float :=
  _ ← assert (SFleb min max);
  let x := if SFltb x min then min else x in
  Some (if SFltb max x then max else x).

(** [n as f32], and [n as f64]. *)
Definition of_nat (n : nat) : spec_float := binary_normalize prec emax (Z.of_nat n) 0 false.

(** [x as f32] and [x as f64]. *)
Definition convert (x : spec_float) : spec_float :=
  match x with S754_finite s m e => binary_round prec emax s m e | _ => x end.

(** [iter.sum()] starts from [-0.0]. *)
Definition sum (xs : list spec_float) : spec_float :=
  foldl (SFadd prec emax) (S754_zero true) xs.
End float.

(** ** Literals *)

Definition f_zero : spec_float := S754_zero false.

Module F32.
Definition add := SFadd 24 128.
Definition sub := SFsub 24 128.
Definition mul := SFmul 24 128.
Definition div := SFdiv 24 128.
Definition sum := sum 24 128.
Definition of_nat := of_nat 24 128.
Definition convert := convert 24 128.
Definition one : spec_float := of_nat 1.
Definition half : spec_float := div one (of_nat 2).

(** [f32::EPSILON], [2^-23]. *)
Definition EPSILON : spec_float := binary_normalize 24 128 1 (-23) false.

(** [total_cmp]: the bits of a number, the sign folded in. *)
Definition magnitude (x : spec_float) : Z :=
  match x with
  | S754_zero _ => 0
  | S754_finite _ m e => (e + 149) * 2 ^ 23 + Z.pos m
  | S754_infinity _ => 255 * 2 ^ 23
  | S754_nan => 255 * 2 ^ 23 + 2 ^ 22
  end.

Definition total_key (x : spec_float) : Z :=
  match x with
  | S754_zero true | S754_finite true _ _ | S754_infinity true => - magnitude x - 1
  | _ => magnitude x
  end.

Definition total_cmp (x y : spec_float) : comparison := total_key x ?= total_key y.
End F32.

Module F64.
Definition add := SFadd 53 1024.
Definition sub := SFsub 53 1024.
Definition div := SFdiv 53 1024.
Definition sum := sum 53 1024.
Definition of_nat := of_nat 53 1024.
Definition convert := convert 53 1024.
Definition one : spec_float := of_nat 1.
End F64.

(** ** Signs and numbers *)

(** Not a NaN, and not negative. *)
Definition non_negative (x : spec_float) : bool :=
  match x with
  | S754_nan => false
  | S754_zero _ => true
  | S754_infinity s | S754_finite s _ _ => negb s
  end.

(** [x] is a number greater than zero, infinity included. *)
Definition positive_number (x : spec_float) : bool :=
  match x with S754_infinity s | S754_finite s _ _ => negb s | _ => false end.

Section facts.
Context (prec emax : Z).

Lemma shr_1_nonneg mrs : 0 ≤ shr_m mrs → 0 ≤ shr_m (shr_1 mrs).
Proof. destruct mrs as [[|[p|p|]|[p|p|]] r s]; simpl; lia. Qed.

Lemma iter_pos_nonneg n mrs : 0 ≤ shr_m mrs → 0 ≤ shr_m (iter_pos shr_1 n mrs).
Proof.
  revert mrs. induction n as [n IH|n IH|]; intros mrs H; simpl; auto using shr_1_nonneg.
Qed.

Lemma shr_fexp_nonneg m e l : 0 ≤ m → 0 ≤ shr_m (fst (shr_fexp prec emax m e l)).
Proof.
  intros Hm. unfold shr_fexp, shr. assert (0 ≤ shr_m (shr_record_of_loc m l)) as Hr
    by (destruct l as [|[]]; done).
  destruct (_ - e); simpl; auto using iter_pos_nonneg.
Qed.

Lemma round_nonneg m l : 0 ≤ m → 0 ≤ round_nearest_even m l.
Proof. destruct l as [|[]]; simpl; try destruct (Z.even m); lia. Qed.

(** The sign and the class of a rounded result. *)
Definition rounded (s : bool) (x : spec_float) : Prop :=
  match x with
  | S754_nan => False
  | S754_zero s' | S754_infinity s' | S754_finite s' _ _ => s' = s
  end.

Lemma binary_round_aux_rounded s m e l :
  0 ≤ m → rounded s (binary_round_aux prec emax s m e l).
Proof.
  intros Hm. unfold binary_round_aux.
  pose proof (shr_fexp_nonneg m e l Hm) as H1.
  destruct (shr_fexp prec emax m e l) as [mrs e']. simpl in H1.
  pose proof (shr_fexp_nonneg (round_nearest_even (shr_m mrs) (loc_of_shr_record mrs)) e'
    loc_Exact (round_nonneg _ _ H1)) as H2.
  destruct (shr_fexp _ _ _ e' loc_Exact) as [mrs' e'']. simpl in H2.
  destruct (shr_m mrs'); simpl; [done| |lia]. by destruct (_ <=? _).
Qed.

Lemma binary_round_rounded s m e : rounded s (binary_round prec emax s m e).
Proof.
  unfold binary_round. destruct (shl_align _ _ _). by apply binary_round_aux_rounded.
Qed.

Lemma binary_normalize_number m e : is_nan (binary_normalize prec emax m e false) = false.
Proof.
  destruct m as [|m|m]; simpl; [done|..].
  - pose proof (binary_round_rounded false m e). by destruct (binary_round _ _ _ _ _).
  - pose proof (binary_round_rounded true m e). by destruct (binary_round _ _ _ _ _).
Qed.

Lemma add_non_negative x y :
  non_negative x = true → non_negative y = true → non_negative (SFadd prec emax x y) = true.
Proof.
  destruct x as [[]|[]| |[] mx ex], y as [[]|[]| |[] my ey]; simpl; try done.
  intros _ _. destruct (shl_align mx _ _), (shl_align my _ _). simpl.
  pose proof (binary_round_rounded false (p + p0) (Z.min ex ey)).
  by destruct (binary_round _ _ _ _ _) as [[]|[]| |[]].
Qed.

Lemma sum_non_negative xs x :
  non_negative x = true → Forall (λ y, non_negative y = true) xs →
  non_negative (foldl (SFadd prec emax) x xs) = true.
Proof.
  intros Hx Hxs. revert x Hx. induction Hxs as [|y xs Hy _ IH]; intros x Hx; simpl; [done|].
  by apply IH, add_non_negative.
Qed.

Lemma div_core_nonneg m1 e1 m2 e2 :
  0 ≤ fst (fst (SFdiv_core_binary prec emax (Z.pos m1) e1 (Z.pos m2) e2)).
Proof.
  unfold SFdiv_core_binary. set (s := _ - _ - Z.min _ _).
  set (m' := match s with Z0 => _ | Z.pos _ => _ | Z.neg _ => _ end).
  assert (0 ≤ m') as Hm by (subst m'; destruct s; [lia|by apply Z.shiftl_nonneg|lia]).
  clearbody m'. pose proof (Z_div_mod m' (Z.pos m2) ltac:(lia)) as Hd.
  destruct (Z.div_eucl m' (Z.pos m2)) as [q r]. simpl. nia.
Qed.

(** A positive finite number divided by a number that is not zero. *)
Lemma div_non_negative m e y :
  positive_number y = true → non_negative (SFdiv prec emax (S754_finite false m e) y) = true.
Proof.
  destruct y as [[]|[]| |[] my ey]; simpl; try done. intros _.
  pose proof (div_core_nonneg m e my ey) as Hq.
  destruct (SFdiv_core_binary _ _ _ _ _ _) as [[q e'] l]. simpl in Hq.
  pose proof (binary_round_aux_rounded false q e' l Hq).
  by destruct (binary_round_aux _ _ _ _ _ _) as [[]|[]| |[]].
Qed.
End facts.

(** ** Comparisons *)

Lemma SFcompare_refl x : is_nan x = false → SFcompare x x = Some Eq.
Proof.
  destruct x as [[]|[]| |[] m e]; try done; intros _; simpl;
    rewrite Z.compare_refl; change (Pos.compare_cont Eq m m) with (m ?= m)%positive;
    by rewrite Pos.compare_refl.
Qed.

Lemma SFcompare_swap x y :
  SFcompare y x = match SFcompare x y with Some c => Some (CompOpp c) | None => None end.
Proof.
  destruct x as [[]|[]| |[] mx ex], y as [[]|[]| |[] my ey]; try done; simpl;
    rewrite (Z.compare_antisym ex ey); destruct (ex ?= ey); simpl; try done;
    rewrite (Pos.compare_cont_antisym mx my Eq); simpl; by destruct (Pos.compare_cont Eq mx my).
Qed.

Lemma SFleb_refl x : is_nan x = false → SFleb x x = true.
Proof. intros H. unfold SFleb. by rewrite SFcompare_refl. Qed.

Lemma SFltb_SFleb x y : is_nan x = false → is_nan y = false → SFltb x y = false → SFleb y x = true.
Proof.
  intros Hx Hy. unfold SFltb, SFleb. rewrite (SFcompare_swap x y).
  destruct (SFcompare x y) as [[]|] eqn:Hc; try done.
  by destruct x as [[]|[]| |[] mx ex], y as [[]|[]| |[] my ey].
Qed.

Lemma SFleb_SFltb x y : SFleb x y = true → SFltb y x = false.
Proof. unfold SFltb, SFleb. rewrite (SFcompare_swap x y). by destruct (SFcompare x y) as [[]|]. Qed.

(** A clamped number is between the bounds. *)
Lemma clamp_spec x lo hi :
  is_nan x = false → SFleb lo hi = true →
  runs (clamp x lo hi) (λ y, SFleb lo y = true ∧ SFleb y hi = true).
Proof.
  intros Hx Hle. unfold clamp. rewrite Hle. cbn [assert mbind option_bind runs].
  assert (is_nan lo = false ∧ is_nan hi = false) as [Hlo Hhi].
  { unfold SFleb in Hle. by destruct lo as [[]|[]| |[] ? ?], hi as [[]|[]| |[] ? ?]. }
  destruct (SFltb x lo) eqn:Hlt.
  - destruct (SFltb hi lo) eqn:Hc; [split; [done|by apply SFleb_refl]|].
    split; [by apply SFleb_refl|done].
  - destruct (SFltb hi x) eqn:Hc; [split; [done|by apply SFleb_refl]|].
    split; by apply SFltb_SFleb.
Qed.

(** ** A number of 32 bits is kept by way of 64 *)

Lemma iter_pos_iter {A} (f : A → A) n x : iter_pos f n x = Pos.iter f x n.
Proof.
  revert x. induction n as [n IH|n IH|]; intros x; simpl; rewrite ?IH; [|done..].
  by rewrite !Pos.iter_swap.
Qed.

Lemma digits_shift m n : digits2_pos (shift_pos n m) = (digits2_pos m + n)%positive.
Proof.
  unfold shift_pos. induction n as [|n IH] using Pos.peano_ind; [simpl; lia|].
  rewrite Pos.iter_succ. simpl. rewrite IH. lia.
Qed.

Definition exact_record (m : positive) : shr_record :=
  {| shr_m := Z.pos m; shr_r := false; shr_s := false |}.

Lemma shr_shift m n : iter_pos shr_1 n (exact_record (shift_pos n m)) = exact_record m.
Proof.
  rewrite iter_pos_iter. unfold shift_pos. induction n as [|n IH] using Pos.peano_ind; [done|].
  rewrite Pos.iter_succ_r, Pos.iter_succ. exact IH.
Qed.

(** A mantissa that a right shift of [n] makes canonical is shifted exactly. *)
Lemma round_aux_exact prec emax s m e n :
  fexp prec emax (Z.pos (digits2_pos m) + (e + Z.of_N n)) = e + Z.of_N n →
  e + Z.of_N n ≤ emax - prec →
  binary_round_aux prec emax s
    (Z.pos (match n with N0 => m | Npos n => shift_pos n m end)) e loc_Exact =
  S754_finite s m (e + Z.of_N n).
Proof.
  intros Hf He. unfold binary_round_aux, shr_fexp. cbn [shr_record_of_loc].
  assert (shr (exact_record (match n with N0 => m | Npos n => shift_pos n m end)) e
    (fexp prec emax (Zdigits2 (Z.pos (match n with N0 => m | Npos n => shift_pos n m end)) + e) - e)
    = (exact_record m, e + Z.of_N n)) as Hshr.
  { cbn [Zdigits2]. destruct n as [|n]; cbn [Z.of_N] in *.
    - rewrite Z.add_0_r in *. rewrite Hf, Z.sub_diag. done.
    - rewrite digits_shift, Pos2Z.inj_add.
      replace (Z.pos (digits2_pos m) + Z.pos n + e) with (Z.pos (digits2_pos m) + (e + Z.pos n)) by lia.
      rewrite Hf. replace (e + Z.pos n - e) with (Z.pos n) by lia. unfold shr. by rewrite shr_shift. }
  unfold exact_record in Hshr. rewrite Hshr. cbn [shr_m loc_of_shr_record shr_r shr_s round_nearest_even shr_record_of_loc].
  cbn [Zdigits2]. rewrite Hf, Z.sub_diag. cbn [shr shr_m].
  by rewrite (proj2 (Z.leb_le _ _) He).
Qed.

Lemma convert_widened x : valid_binary 24 128 x = true → F32.convert (F64.convert x) = x.
Proof.
  destruct x as [|[]| |s m e]; [done..|]. intros [Hc%Z.eqb_eq He%Z.leb_le]%andb_true_iff.
  unfold fexp, SpecFloat.emin in Hc. set (d := digits2_pos m) in *.
  assert (exists n, Z.pos n = 53 - Z.pos d) as [n Hn] by (exists (Z.to_pos (53 - Z.pos d)); lia).
  assert (F64.convert (S754_finite s m e) = S754_finite s (shift_pos n m) (e - Z.pos n)) as ->.
  { unfold F64.convert, convert, binary_round. fold d.
    assert (fexp 53 1024 (Z.pos d + e) = e - Z.pos n) as Hf by (unfold fexp, SpecFloat.emin; lia).
    rewrite Hf. unfold shl_align. replace (e - Z.pos n - e) with (Z.neg n) by lia.
    pose proof (round_aux_exact 53 1024 s (shift_pos n m) (e - Z.pos n) 0) as Haux.
    cbn [Z.of_N] in Haux. rewrite Z.add_0_r in Haux. apply Haux; [|lia].
    rewrite digits_shift, Pos2Z.inj_add. fold d. replace (Z.pos d + Z.pos n + (e - Z.pos n)) with (Z.pos d + e) by lia.
    exact Hf. }
  unfold F32.convert, convert, binary_round. rewrite digits_shift, Pos2Z.inj_add. fold d.
  replace (Z.pos d + Z.pos n + (e - Z.pos n)) with (Z.pos d + e) by lia.
  assert (fexp 24 128 (Z.pos d + e) = e) as Hf by (unfold fexp, SpecFloat.emin; lia).
  rewrite Hf. unfold shl_align. replace (e - (e - Z.pos n)) with (Z.pos n) by lia.
  pose proof (round_aux_exact 24 128 s m (e - Z.pos n) (Npos n)) as Haux. cbn [Z.of_N] in Haux.
  replace (e - Z.pos n + Z.pos n) with e in Haux by lia. by apply Haux.
Qed.
