(* ===== verification/LayoutTree.v ===== *)
(** * The pane layout: the tree and its operations ([src-app/src/layout/])

    [tree.rs], [mutations.rs], [close.rs], [presets.rs] and [queries.rs].  A pane
    is an entity of the GUI framework: an abstract type with decidable equality,
    of which the tree only reads whether it has the focus and whether it is
    detached.  The shared cells [Rc<Cell<_>>] of a tree have one owner each, so
    they are plain fields.  The model is of the release build: the two
    [debug_assert!]s of [insert_sibling] are not part of it, the branches behind
    them are.  [None] is a panic. *)

From S2P Require Import Prelude Float.

Inductive SplitDirection := Horizontal | Vertical.

#[export] Instance SplitDirection_eq_dec : EqDecision SplitDirection.
Proof. solve_decision. Defined.

Record DragState := mkDrag {
  divider_idx : nat; start_pos : spec_float;
  start_ratio_before : spec_float; start_ratio_after : spec_float }.

Definition MIN_PANE_SIZE : spec_float := F32.of_nat 80.

Section tree.
Context {Pane : Type} `{EqDecision Pane}.

Inductive LayoutTree :=
| Leaf (pane : Pane)
| Container (direction : SplitDirection) (children : list LayoutChild)
    (drag : option DragState) (container_size : spec_float)
with LayoutChild := mkChild (node : LayoutTree) (ratio : spec_float).

Definition node (c : LayoutChild) : LayoutTree := let '(mkChild t _) := c in t.
Definition ratio (c : LayoutChild) : spec_float := let '(mkChild _ r) := c in r.
Definition set_ratio (c : LayoutChild) (r : spec_float) : LayoutChild := mkChild (node c) r.

Section induction.
Context (P : LayoutTree → Prop) (HLeaf : ∀ p, P (Leaf p)).
Context (HContainer : ∀ d cs drag size,
  Forall (λ c, P (node c)) cs → P (Container d cs drag size)).

Fixpoint LayoutTree_induction (t : LayoutTree) : P t :=
  match t with
  | Leaf p => HLeaf p
  | Container d cs drag size =>
      HContainer d cs drag size
        ((fix go cs : Forall (λ c, P (node c)) cs :=
            match cs with
            | [] => Forall_nil_2 _
            | c :: cs =>
                Forall_cons_2 _ c cs
                  (match c return P (node c) with mkChild t _ => LayoutTree_induction t end)
                  (go cs)
            end) cs)
  end.
End induction.

(** ** Ratios ([tree.rs]) *)

Definition normalize_ratios (children : list LayoutChild) : list LayoutChild :=
  let sum := F32.sum (ratio <$> children) in
  if SFltb f_zero sum && SFltb F32.EPSILON (SFabs (F32.sub sum F32.one)) then
    (λ c, set_ratio c (F32.div (ratio c) sum)) <$> children
  else children.

Definition redistribute_equal (children : list LayoutChild) (removed_ratio : spec_float)
  : list LayoutChild :=
  if (length children =? 0)%nat then children
  else
    let share := F32.div removed_ratio (F32.of_nat (length children)) in
    (λ c, set_ratio c (F32.add (ratio c) share)) <$> children.

(** [Some None] is the code's [None]. *)
Definition resize_adjacent_ratios (start_ratio_before start_ratio_after delta_px container_px
    min_before_px min_after_px : spec_float) : option (option (spec_float * spec_float)) :=
  if negb (is_finite start_ratio_before) || negb (is_finite start_ratio_after)
     || negb (is_finite delta_px) || negb (is_finite container_px)
     || negb (is_finite min_before_px) || negb (is_finite min_after_px)
     || SFleb container_px f_zero
  then Some None
  else
    let pair_sum := F32.add start_ratio_before start_ratio_after in
    if negb (is_finite pair_sum) || SFleb pair_sum f_zero then Some None
    else
      let min_before_ratio := fmin (F32.div (fmax min_before_px f_zero) container_px) pair_sum in
      let min_after_ratio := fmin (F32.div (fmax min_after_px f_zero) container_px) pair_sum in
      let lower := min_before_ratio in
      let upper := F32.sub pair_sum min_after_ratio in
      if SFltb upper lower then Some (Some (start_ratio_before, start_ratio_after))
      else
        new_before ← clamp (F32.add start_ratio_before (F32.div delta_px container_px))
                       lower upper;
        Some (Some (new_before, F32.sub pair_sum new_before)).

Definition insert_sibling (children : list LayoutChild) (idx : nat) (new_pane : Pane)
  : list LayoutChild :=
  match children !! idx with
  | None => children
  | Some target =>
      let old_ratio := ratio target in
      let half := if is_finite old_ratio then F32.div old_ratio (F32.of_nat 2) else F32.half in
      take idx children ++ set_ratio target half :: mkChild (Leaf new_pane) half ::
      drop (S idx) children
  end.

Definition new_split (direction : SplitDirection) (first second : LayoutTree) : LayoutTree :=
  Container direction [mkChild first F32.half; mkChild second F32.half] None f_zero.

(** ** Queries ([queries.rs]) *)

(** The closure of [any_leaf] may change captured variables: it is a function
    that threads them. *)
Section any_leaf.
Context {St : Type} (pred : Pane → St → bool * St).

Fixpoint any_leaf (t : LayoutTree) (st : St) : bool * St :=
  match t with
  | Leaf p => pred p st
  | Container _ children _ _ =>
      (fix loop cs st :=
         match cs with
         | [] => (false, st)
         | c :: cs =>
             match any_leaf (node c) st with
             | (true, st) => (true, st)
             | (false, st) => loop cs st
             end
         end) children st
  end.
End any_leaf.

Definition for_each_leaf {St} (visit : Pane → St → St) (t : LayoutTree) (st : St) : St :=
  snd (any_leaf (λ p st, (false, visit p st)) t st).

Definition contains_leaf (t : LayoutTree) (pane : Pane) : bool :=
  fst (any_leaf (λ p (st : unit), (bool_decide (p = pane), st)) t tt).

Fixpoint leaf_count (t : LayoutTree) : nat :=
  match t with
  | Leaf _ => 1
  | Container _ children _ _ => sum_list ((λ c, leaf_count (node c)) <$> children)
  end.

Fixpoint collect_leaves (t : LayoutTree) : list Pane :=
  match t with
  | Leaf p => [p]
  | Container _ children _ _ => mjoin ((λ c, collect_leaves (node c)) <$> children)
  end.

Fixpoint equalize_ratios (t : LayoutTree) : LayoutTree :=
  match t with
  | Leaf p => Leaf p
  | Container d children drag size =>
      let n := length children in
      let equal := F32.div F32.one (F32.of_nat n) in
      Container d
        ((fix loop i cs :=
            match cs with
            | [] => []
            | c :: cs =>
                mkChild (equalize_ratios (node c))
                  (if (i =? n - 1)%nat
                   then F32.sub F32.one (F32.mul equal (F32.of_nat (n - 1)))
                   else equal) :: loop (S i) cs
            end) 0%nat children)
        drag size
  end.

Fixpoint first_leaf (t : LayoutTree) : option Pane :=
  match t with
  | Leaf p => Some p
  | Container _ children _ _ =>
      match children with c :: _ => first_leaf (node c) | [] => None end
  end.

Fixpoint last_leaf (t : LayoutTree) : option Pane :=
  match t with
  | Leaf p => Some p
  | Container _ children _ _ =>
      (fix go cs := match cs with
                    | [] => None
                    | c :: cs => match cs with [] => last_leaf (node c) | _ => go cs end
                    end) children
  end.

Fixpoint cancel_resize (t : LayoutTree) : LayoutTree :=
  match t with
  | Leaf p => Leaf p
  | Container d children _ size =>
      Container d ((λ c, mkChild (cancel_resize (node c)) (ratio c)) <$> children) None size
  end.

Section entity.
Context (is_focused is_detached : Pane → bool).

Definition has_docked_panes (t : LayoutTree) : bool :=
  fst (any_leaf (λ p (st : unit), (negb (is_detached p), st)) t tt).

Fixpoint focused_pane (t : LayoutTree) : option Pane :=
  match t with
  | Leaf p => if negb (is_detached p) && is_focused p then Some p else None
  | Container _ children _ _ =>
      (fix loop cs :=
         match cs with
         | [] => None
         | c :: cs =>
             match focused_pane (node c) with Some p => Some p | None => loop cs end
         end) children
  end.

Fixpoint docked_min_main_axis_px (t : LayoutTree) (axis : SplitDirection)
    (divider_px : spec_float) : spec_float :=
  match t with
  | Leaf p => if is_detached p then f_zero else MIN_PANE_SIZE
  | Container direction children _ _ =>
      let along := bool_decide (direction = axis) in
      let '(count, minimum) :=
        (fix loop cs count minimum :=
           match cs with
           | [] => (count, minimum)
           | c :: cs =>
               let child_minimum := docked_min_main_axis_px (node c) axis divider_px in
               if SFeqb child_minimum f_zero then loop cs count minimum
               else loop cs (S count)
                      (if along then F32.add minimum child_minimum
                       else fmax minimum child_minimum)
           end) children 0%nat f_zero in
      if along then F32.add minimum (F32.mul divider_px (F32.of_nat (count - 1)))
      else minimum
  end.

(** [dim_policy] and [sync_unfocused_dim]: the updates the panes receive, in
    order. *)
Inductive DimPolicy := ClearAll | DimAllExcept (idx : nat) | Keep.
Inductive SplitFocus := Alone | Focused | Unfocused.

Definition dim_policy (leaf_count : nat) (focused : option nat) : DimPolicy :=
  if (leaf_count <? 2)%nat then ClearAll
  else match focused with Some idx => DimAllExcept idx | None => Keep end.

Definition sync_unfocused_dim (t : LayoutTree) : list (Pane * SplitFocus) :=
  let '(count, focused) :=
    for_each_leaf (λ p '(count, focused),
      if is_detached p then (count, focused)
      else (S count,
            match focused with
            | None => if is_focused p then Some count else None
            | _ => focused
            end)) t (0%nat, None) in
  match dim_policy count focused with
  | Keep => []
  | ClearAll =>
      for_each_leaf (λ p out, if is_detached p then out else out ++ [(p, Alone)]) t []
  | DimAllExcept idx =>
      snd (for_each_leaf (λ p '(index, out),
        if is_detached p then (index, out)
        else (S index, out ++ [(p, if (index =? idx)%nat then Focused else Unfocused)]))
        t (0%nat, []))
  end.
End entity.

(** ** Splitting and swapping ([mutations.rs]) *)

(** The position of the first direct child that is a leaf accepted by [hit]. *)
Fixpoint leaf_position (hit : Pane → bool) (children : list LayoutChild) : option nat :=
  match children with
  | [] => None
  | c :: cs =>
      if match node c with Leaf p => hit p | _ => false end then Some 0%nat
      else S <$> leaf_position hit cs
  end.

(** [split_at_pane] and [split_at_focused] differ in how they recognise their
    target only. *)
Section split.
Context (hit : Pane → bool) (direction : SplitDirection) (new_pane : Pane).

Fixpoint split_where (t : LayoutTree) : LayoutTree * bool :=
  match t with
  | Leaf p =>
      if hit p then (new_split direction (Leaf p) (Leaf new_pane), true) else (Leaf p, false)
  | Container dir children drag size =>
      match (if bool_decide (dir = direction) then leaf_position hit children else None) with
      | Some i => (Container dir (insert_sibling children i new_pane) drag size, true)
      | None =>
          let '(children, done) :=
            (fix loop cs :=
               match cs with
               | [] => ([], false)
               | c :: cs =>
                   match split_where (node c) with
                   | (t, true) => (mkChild t (ratio c) :: cs, true)
                   | (t, false) =>
                       let '(cs, done) := loop cs in (mkChild t (ratio c) :: cs, done)
                   end
               end) children in
          (Container dir children drag size, done)
      end
  end.
End split.

Definition split_at_focused (is_focused : Pane → bool) (direction : SplitDirection)
    (new_pane : Pane) (t : LayoutTree) : LayoutTree * bool :=
  split_where is_focused direction new_pane t.

Definition split_at_pane (target : Pane) (direction : SplitDirection) (new_pane : Pane)
    (t : LayoutTree) : LayoutTree * bool :=
  split_where (λ p, bool_decide (p = target)) direction new_pane t.

Fixpoint split_first_leaf (direction : SplitDirection) (new_pane : Pane) (t : LayoutTree)
  : LayoutTree :=
  match t with
  | Leaf p => new_split direction (Leaf p) (Leaf new_pane)
  | Container dir children drag size =>
      if bool_decide (dir = direction)
         && match children with c :: _ => match node c with Leaf _ => true | _ => false end
                            | [] => false end
      then Container dir (insert_sibling children 0 new_pane) drag size
      else
        Container dir
          (match children with
           | c :: cs => mkChild (split_first_leaf direction new_pane (node c)) (ratio c) :: cs
           | [] => []
           end) drag size
  end.

Fixpoint swap_panes_unchecked (a b : Pane) (t : LayoutTree) : LayoutTree :=
  match t with
  | Leaf p => Leaf (if bool_decide (p = a) then b else if bool_decide (p = b) then a else p)
  | Container d children drag size =>
      Container d ((λ c, mkChild (swap_panes_unchecked a b (node c)) (ratio c)) <$> children)
        drag size
  end.

Definition swap_panes (a b : Pane) (t : LayoutTree) : LayoutTree * bool :=
  if bool_decide (a = b) || negb (contains_leaf t a) || negb (contains_leaf t b)
  then (t, false)
  else (swap_panes_unchecked a b t, true).

(** ** Closing and removing ([close.rs]) *)

(** What is left of a container once a child is gone. *)
Definition rebuild (d : SplitDirection) (children : list LayoutChild)
    (removed_ratio size : spec_float) : option LayoutTree :=
  match children with
  | [] => None
  | [c] => Some (node c)
  | _ =>
      let children := if SFltb f_zero removed_ratio
                      then redistribute_equal children removed_ratio
                      else normalize_ratios children in
      Some (Container d children None size)
  end.

(** The variables of the loop of [close_focused]. *)
Record CloseState := mkClose {
  new_children : list LayoutChild; closed : bool; closed_idx : option nat;
  removed_ratio : spec_float; focus_neighbor : option Pane }.

Definition push_child (st : CloseState) (c : LayoutChild) : CloseState :=
  mkClose (new_children st ++ [c]) (closed st) (closed_idx st) (removed_ratio st)
    (focus_neighbor st).

(** One child of the loop, given what closing in it returned. *)
Definition close_child (i : nat) (c : LayoutChild)
    (result : option LayoutTree * bool * option Pane) (st : CloseState) : option CloseState :=
  let '(new_node, was_closed, nested_focus) := result in
  if was_closed then
    match new_node with
    | Some t =>
        Some (mkClose (new_children st ++ [mkChild t (ratio c)]) true (Some i)
                (removed_ratio st) nested_focus)
    | None => Some (mkClose (new_children st) true (Some i) (ratio c) nested_focus)
    end
  else
    t ← new_node;
    Some (push_child st (mkChild t (ratio c))).

(** The pane that gets the focus. *)
Definition close_focus (st : CloseState) : option Pane :=
  match focus_neighbor st, closed_idx st with
  | None, Some (S idx) =>
      match new_children st !! idx with Some c => last_leaf (node c) | None => None end
  | None, Some O =>
      match head (new_children st) with Some c => first_leaf (node c) | None => None end
  | focus, _ => focus
  end.

Definition finish_close (d : SplitDirection) (drag : option DragState) (size : spec_float)
    (st : CloseState) : option LayoutTree * bool * option Pane :=
  if negb (closed st) then (Some (Container d (new_children st) drag size), false, None)
  else
    (rebuild d (new_children st) (removed_ratio st) size, true,
     match new_children st with [] => None | _ => close_focus st end).

Section close.
Context (is_focused : Pane → bool).

Fixpoint close_focused (t : LayoutTree) : option (option LayoutTree * bool * option Pane) :=
  match t with
  | Leaf p => Some (if is_focused p then (None, true, None) else (Some (Leaf p), false, None))
  | Container d children drag size =>
      st ← (fix loop i cs st :=
              match cs with
              | [] => Some st
              | c :: cs =>
                  st ← (if closed st then Some (push_child st c)
                        else r ← close_focused (node c); close_child i c r st);
                  loop (S i) cs st
              end) 0%nat children (mkClose [] false None f_zero None);
      Some (finish_close d drag size st)
  end.
End close.

Fixpoint remove_pane (target : Pane) (t : LayoutTree) : option LayoutTree * bool :=
  match t with
  | Leaf p => if bool_decide (p = target) then (None, true) else (Some (Leaf p), false)
  | Container d children drag size =>
      let '(new_children, removed_ratio, removed) :=
        (fix loop cs new_children removed_ratio removed :=
           match cs with
           | [] => (new_children, removed_ratio, removed)
           | c :: cs =>
               let '(new_node, child_removed) := remove_pane target (node c) in
               let removed := child_removed || removed in
               match new_node with
               | Some t => loop cs (new_children ++ [mkChild t (ratio c)]) removed_ratio removed
               | None => loop cs new_children (F32.add removed_ratio (ratio c)) removed
               end
           end) children [] f_zero false in
      if negb removed then (Some (Container d new_children drag size), false)
      else (rebuild d new_children removed_ratio size, true)
  end.

(** ** Presets ([presets.rs]) *)

Definition from_panes_equal (direction : SplitDirection) (panes : list Pane)
  : option LayoutTree :=
  match panes with
  | [] => None
  | [p] => Some (Leaf p)
  | _ =>
      let ratio := F32.div F32.one (F32.of_nat (length panes)) in
      Some (Container direction ((λ p, mkChild (Leaf p) ratio) <$> panes) None f_zero)
  end.

(** [Some None] is the code's [None]. *)
Definition main_vertical (main_pane : Pane) (others : list Pane) : option (option LayoutTree) :=
  match others with
  | [] => Some (Some (Leaf main_pane))
  | _ =>
      right ← from_panes_equal Horizontal others;
      Some (Some (Container Vertical
        [mkChild (Leaf main_pane) F32.half; mkChild right F32.half] None f_zero))
  end.

(** [while rows * cols < n], with the number of panes as fuel. *)
Fixpoint grid (fuel n rows cols : nat) : option (nat * nat) :=
  if (rows * cols <? n)%nat then
    match fuel with
    | O => None
    | S fuel =>
        if (cols <=? rows)%nat then grid fuel n rows (cols + 1) else grid fuel n (rows + 1) cols
    end
  else Some (rows, cols).

(** One row of [tiled]: the panes left in the iterator and the rows so far. *)
Definition tiled_row (n rows cols : nat) (row_ratio : spec_float) (r : nat)
    (st : list Pane * list LayoutChild) : option (list Pane * list LayoutChild) :=
  let '(pane_iter, row_children) := st in
  panes_in_row ← (if (r <? rows - 1)%nat then Some cols
                  else checked_sub n (cols * (rows - 1)));
  row_tree ← from_panes_equal Vertical (take panes_in_row pane_iter);
  Some (drop panes_in_row pane_iter, row_children ++ [mkChild row_tree row_ratio]).

Definition tiled (panes : list Pane) : option (option LayoutTree) :=
  match panes with
  | [] => Some None
  | [p] => Some (Some (Leaf p))
  | _ =>
      let n := length panes in
      dims ← grid (n + n) n 1 1;
      let '(rows, cols) := dims in
      if (rows =? 1)%nat then Some (from_panes_equal Vertical panes)
      else
        let row_ratio := F32.div F32.one (F32.of_nat rows) in
        st ← for_each (seq 0 rows) (tiled_row n rows cols row_ratio) (panes, []);
        Some (Some (Container Horizontal (snd st) None f_zero))
  end.
End tree.

Arguments LayoutTree : clear implicits.
Arguments LayoutChild : clear implicits.
