(* ===== verification/LayoutFacts.v ===== *)
(** * The pane layout: what the operations do to the panes

    Every operation is specified by its effect on the panes of the tree in
    order, [collect_leaves], and preserves [wf]: every container has at least
    two children.

    [remove_pane] and [close_focused] take panes out of the tree and collapse
    the containers that would keep a single child; the presets build a tree from
    a list of panes. *)

From S2P Require Import Prelude Float LayoutTree.

Section facts.
Context {Pane : Type} `{EqDecision Pane}.
Implicit Types (t : LayoutTree Pane) (c : LayoutChild Pane) (cs : list (LayoutChild Pane)).

(** The panes of a list of children. *)
Definition leaves_of (cs : list (LayoutChild Pane)) : list Pane :=
  mjoin ((λ c, collect_leaves (node c)) <$> cs).

Arguments leaves_of : simpl never.

Lemma leaves_of_cons c cs : leaves_of (c :: cs) = collect_leaves (node c) ++ leaves_of cs.
Proof. done. Qed.

Lemma leaves_of_app cs cs' : leaves_of (cs ++ cs') = leaves_of cs ++ leaves_of cs'.
Proof. unfold leaves_of. by rewrite fmap_app, join_app. Qed.

Lemma leaves_container d cs drag size : collect_leaves (Container d cs drag size) = leaves_of cs.
Proof. done. Qed.

(** Ratios do not matter. *)
Lemma leaves_of_ext cs cs' : node <$> cs = node <$> cs' → leaves_of cs = leaves_of cs'.
Proof.
  intros H. unfold leaves_of.
  change (λ c, collect_leaves (node c)) with (collect_leaves ∘ @node Pane).
  by rewrite !list_fmap_compose, H.
Qed.

(** ** Well-formed trees *)

Fixpoint wf t : Prop :=
  match t with
  | Leaf _ => True
  | Container _ cs _ _ => 2 ≤ length cs ∧ Forall id ((λ c, wf (node c)) <$> cs)
  end.

Definition wf_children (cs : list (LayoutChild Pane)) : Prop := Forall (λ c, wf (node c)) cs.

Lemma wf_container d cs drag size :
  wf (Container d cs drag size) ↔ 2 ≤ length cs ∧ wf_children cs.
Proof. simpl. by rewrite Forall_fmap. Qed.

Lemma wf_children_ext cs cs' : node <$> cs = node <$> cs' → wf_children cs → wf_children cs'.
Proof.
  intros H. change (Forall (wf ∘ @node Pane) cs → Forall (wf ∘ @node Pane) cs').
  by rewrite <- !Forall_fmap, H.
Qed.

Lemma leaves_nonempty t : wf t → collect_leaves t ≠ [].
Proof.
  induction t as [p|d cs drag size IH] using LayoutTree_induction; [done|].
  rewrite wf_container, leaves_container. intros [Hlen Hwf].
  destruct cs as [|c cs]; [simpl in Hlen; lia|]. inversion IH; inversion Hwf; subst.
  rewrite leaves_of_cons. intros [? _]%app_nil. by eapply H1.
Qed.

Lemma leaf_count_length t : leaf_count t = length (collect_leaves t).
Proof.
  induction t as [p|d cs drag size IH] using LayoutTree_induction; [done|].
  rewrite leaves_container. simpl. unfold leaves_of.
  induction IH as [|c cs Hc _ IH]; [done|]. simpl. rewrite length_app, Hc. f_equal. exact IH.
Qed.

Lemma first_leaf_head t : wf t → first_leaf t = head (collect_leaves t).
Proof.
  induction t as [p|d cs drag size IH] using LayoutTree_induction; [done|].
  rewrite wf_container, leaves_container. intros [Hlen Hwf].
  destruct cs as [|c cs]; [done|]. inversion IH; inversion Hwf; subst.
  rewrite leaves_of_cons. simpl. rewrite H1 by done.
  pose proof (leaves_nonempty (node c)). by destruct (collect_leaves (node c)); [naive_solver|].
Qed.

Lemma last_leaf_container d cs drag size :
  last_leaf (Container d cs drag size) = (last cs ≫= λ c, last_leaf (node c)).
Proof.
  simpl. induction cs as [|c cs IH]; [done|]. destruct cs as [|c' cs]; [done|].
  by rewrite IH.
Qed.

Lemma last_leaf_last t : wf t → last_leaf t = last (collect_leaves t).
Proof.
  induction t as [p|d cs drag size IH] using LayoutTree_induction; [done|].
  rewrite wf_container, leaves_container, last_leaf_container. intros [Hlen Hwf].
  destruct (last cs) as [c|] eqn:Hl; [|apply last_None in Hl; subst; simpl in Hlen; lia].
  apply last_Some in Hl as [cs' ->]. apply Forall_app in IH as [_ IH], Hwf as [_ Hwf].
  inversion IH; inversion Hwf; subst. rewrite leaves_of_app, leaves_of_cons, app_nil_r.
  simpl. rewrite H1, last_app by done.
  destruct (last (collect_leaves (node c))) eqn:Hn; [done|].
  apply last_None in Hn. by apply leaves_nonempty in Hn.
Qed.

(** ** Visits *)

Lemma any_leaf_spec {St} (pred : Pane → St → bool * St) t st :
  any_leaf pred t st =
    foldl (λ (r : bool * St) p, if fst r then r else pred p (snd r)) (false, st) (collect_leaves t).
Proof.
  revert st. induction t as [p|d cs drag size IH] using LayoutTree_induction; intros st; [done|].
  rewrite leaves_container. simpl. revert st.
  assert (∀ (st : St) (ps : list Pane),
    foldl (λ (r : bool * St) p, if fst r then r else pred p (snd r)) (true, st) ps = (true, st))
    as Htrue by (intros st ps; by induction ps).
  induction IH as [|c cs Hc _ IH]; intros st; [done|].
  rewrite leaves_of_cons, foldl_app, <- Hc.
  destruct (any_leaf pred (node c) st) as [[] st']; [by rewrite Htrue|apply IH].
Qed.

Lemma for_each_leaf_spec {St} (visit : Pane → St → St) t st :
  for_each_leaf visit t st = foldl (λ st p, visit p st) st (collect_leaves t).
Proof.
  unfold for_each_leaf. rewrite any_leaf_spec. generalize (collect_leaves t) as ps. intros ps.
  revert st. induction ps as [|p ps IH]; intros st; simpl; [done|apply IH].
Qed.

Lemma any_leaf_pure (f : Pane → bool) t :
  fst (any_leaf (λ p (st : unit), (f p, st)) t tt) = existsb f (collect_leaves t).
Proof.
  rewrite any_leaf_spec. generalize (collect_leaves t) as ps.
  assert (∀ ps b, fst (foldl (λ (r : bool * unit) p, if fst r then r else (f p, snd r)) (b, tt) ps)
            = b || existsb f ps) as H.
  { intros ps. induction ps as [|p ps IH]; intros b; simpl; [by destruct b|].
    destruct b; simpl; [by rewrite IH|]. by rewrite IH. }
  intros ps. by rewrite H.
Qed.

Lemma contains_leaf_spec t p : contains_leaf t p = true ↔ p ∈ collect_leaves t.
Proof.
  unfold contains_leaf. rewrite any_leaf_pure, existsb_exists. split.
  - intros (x&Hx&->%bool_decide_eq_true). by apply list_elem_of_In.
  - intros Hp. exists p. by rewrite <- list_elem_of_In, bool_decide_eq_true.
Qed.

(** ** Ratio updates keep the nodes *)

Lemma normalize_ratios_nodes cs : node <$> normalize_ratios cs = node <$> cs.
Proof.
  unfold normalize_ratios. destruct (_ && _); [|done].
  by rewrite <- list_fmap_compose.
Qed.

Lemma redistribute_equal_nodes cs r : node <$> redistribute_equal cs r = node <$> cs.
Proof.
  unfold redistribute_equal. destruct (_ =? _); [done|]. by rewrite <- list_fmap_compose.
Qed.

Lemma insert_sibling_nodes cs i p c :
  cs !! i = Some c →
  node <$> insert_sibling cs i p =
    (node <$> take i cs) ++ node c :: Leaf p :: (node <$> drop (S i) cs).
Proof. intros Hc. unfold insert_sibling. rewrite Hc, fmap_app. done. Qed.

(** ** Splitting *)

Lemma leaf_position_spec hit cs i :
  leaf_position hit cs = Some i →
  ∃ cs1 c cs2 p, cs = cs1 ++ c :: cs2 ∧ length cs1 = i ∧ node c = Leaf p ∧ hit p = true.
Proof.
  revert i. induction cs as [|c cs IH]; intros i; simpl; [done|].
  destruct (match node c with Leaf _ => _ | _ => _ end) eqn:Hc.
  - intros [= <-]. destruct (node c) eqn:Hn; [|done]. by exists [], c, cs, pane.
  - destruct (leaf_position hit cs) as [j|]; [|done]. intros [= <-].
    destruct (IH j eq_refl) as (cs1&c'&cs2&p&->&<-&?&?). by exists (c :: cs1), c', cs2, p.
Qed.

(** The result of inserting [new] behind a leaf accepted by [hit]. *)
Definition inserted (hit : Pane → bool) (new : Pane) (ps ps' : list Pane) : Prop :=
  ∃ l p r, ps = l ++ p :: r ∧ hit p = true ∧ ps' = l ++ p :: new :: r.

Lemma inserted_app hit new l ps ps' r :
  inserted hit new ps ps' → inserted hit new (l ++ ps ++ r) (l ++ ps' ++ r).
Proof.
  intros (l'&p&r'&->&?&->). exists (l ++ l'), p, (r' ++ r). rewrite <- !app_assoc. done.
Qed.

(** [split_where] over a list of children. *)
Definition split_children (hit : Pane → bool) (d : SplitDirection) (new : Pane) :=
  fix loop (cs : list (LayoutChild Pane)) : list (LayoutChild Pane) * bool :=
    match cs with
    | [] => ([], false)
    | c :: cs =>
        match split_where hit d new (node c) with
        | (t, true) => (mkChild t (ratio c) :: cs, true)
        | (t, false) => let '(cs, done) := loop cs in (mkChild t (ratio c) :: cs, done)
        end
    end.

Definition split_ok (hit : Pane → bool) (new : Pane) t (r : LayoutTree Pane * bool) : Prop :=
  (wf t → wf (fst r)) ∧
  if snd r then inserted hit new (collect_leaves t) (collect_leaves (fst r))
  else fst r = t ∧ Forall (λ p, hit p = false) (collect_leaves t).

Lemma split_children_spec hit d new cs :
  Forall (λ c, split_ok hit new (node c) (split_where hit d new (node c))) cs →
  let r := split_children hit d new cs in
  length (fst r) = length cs ∧ (wf_children cs → wf_children (fst r)) ∧
  if snd r then inserted hit new (leaves_of cs) (leaves_of (fst r))
  else fst r = cs ∧ Forall (λ p, hit p = false) (leaves_of cs).
Proof.
  cbn zeta. induction 1 as [|c cs [Hwf Hc] _ (IHlen&IHwf&IH)]; [done|]. cbn [split_children].
  destruct (split_where hit d new (node c)) as [t []]; simpl in Hwf, Hc.
  - simpl. split_and!; [done|intros [? ?]%Forall_cons; by constructor; auto|].
    rewrite !leaves_of_cons. simpl.
    by apply (inserted_app hit new [] _ _ (leaves_of cs)).
  - destruct Hc as [-> Hc]. fold (split_children hit d new).
    destruct (split_children hit d new cs) as [cs' []]; simpl in *.
    + split_and!; [by rewrite IHlen|intros [? ?]%Forall_cons; constructor; [auto|by apply IHwf]|].
      rewrite !leaves_of_cons. simpl.
      pose proof (inserted_app hit new (collect_leaves (node c)) _ _ [] IH) as Hi.
      by rewrite !app_nil_r in Hi.
    + destruct IH as [-> IH].
      assert (mkChild (node c) (ratio c) = c) as -> by (by destruct c).
      split_and!; [done..|]. rewrite leaves_of_cons. by apply Forall_app.
Qed.

Lemma split_where_spec hit d new t : split_ok hit new t (split_where hit d new t).
Proof.
  induction t as [p|d' cs drag size IH] using LayoutTree_induction.
  - simpl. destruct (hit p) eqn:Hp; split; simpl; [|by exists [], p, []|done|].
    + intros _. split; [lia|by repeat constructor].
    + split; [done|by apply Forall_singleton].
  - cbn [split_where]. fold (split_children hit d new).
    destruct (if bool_decide _ then _ else None) as [i|] eqn:Hi.
    + destruct (bool_decide _); [|done].
      apply leaf_position_spec in Hi as (cs1&c&cs2&p&->&<-&Hc&Hp).
      pose proof (insert_sibling_nodes (cs1 ++ c :: cs2) (length cs1) new c
        (list_lookup_middle _ _ _ _ eq_refl)) as Hn.
      rewrite take_app_length, drop_app_ge, Nat.sub_succ_l, Nat.sub_diag in Hn by lia.
      simpl in Hn. rewrite drop_0, Hc in Hn.
      assert (length (insert_sibling (cs1 ++ c :: cs2) (length cs1) new) = S (length (cs1 ++ c :: cs2)))
        as Hlen.
      { rewrite <- (length_fmap node), Hn, !length_app. simpl. rewrite !length_fmap. lia. }
      assert (node <$> insert_sibling (cs1 ++ c :: cs2) (length cs1) new =
        node <$> (cs1 ++ c :: mkChild (Leaf new) f_zero :: cs2)) as Hn'.
      { rewrite Hn, fmap_app. csimpl. by rewrite Hc. }
      split; cbn [fst snd].
      * rewrite !wf_container, Hlen. intros [? Hwf]. split; [lia|].
        eapply wf_children_ext; [symmetry; exact Hn'|].
        apply Forall_app in Hwf as [? [? ?]%Forall_cons].
        apply Forall_app; split; [done|]. by repeat constructor.
      * rewrite !leaves_container, (leaves_of_ext _ _ Hn').
        exists (leaves_of cs1), p, (leaves_of cs2).
        rewrite !leaves_of_app, !leaves_of_cons, Hc. done.
    + pose proof (split_children_spec hit d new cs IH) as (Hlen&Hwf&Hr). cbn zeta in *.
      destruct (split_children hit d new cs) as [cs' done]. cbn [fst snd] in *.
      split; cbn [fst snd].
      * rewrite !wf_container, Hlen. naive_solver.
      * destruct done; [done|]. by destruct Hr as [-> ?].
Qed.

Lemma split_first_leaf_spec d new t :
  wf t → wf (split_first_leaf d new t) ∧
  ∃ p r, collect_leaves t = p :: r ∧ collect_leaves (split_first_leaf d new t) = p :: new :: r.
Proof.
  induction t as [p|d' cs drag size IH] using LayoutTree_induction.
  - intros _. simpl. split; [split; [lia|by repeat constructor]|by exists p, []].
  - rewrite wf_container. intros [Hlen Hwf]. destruct cs as [|c cs]; [simpl in Hlen; lia|].
    apply Forall_cons in IH as [IHc _]. pose proof Hwf as [Hwfc Hwfcs]%Forall_cons.
    cbn [split_first_leaf]. destruct (_ && _) eqn:Hleaf.
    + apply andb_prop in Hleaf as [_ Hleaf]. destruct (node c) as [p|] eqn:Hc; [|done].
      assert (node <$> insert_sibling (c :: cs) 0 new =
        node <$> (c :: mkChild (Leaf new) f_zero :: cs)) as Hn.
      { by rewrite (insert_sibling_nodes _ _ _ c) by done. }
      rewrite wf_container, !leaves_container, (leaves_of_ext _ _ Hn), !leaves_of_cons, Hc.
      split; [|by exists p, (leaves_of cs)]. split.
      * rewrite <- (length_fmap node), Hn, length_fmap. simpl. lia.
      * eapply wf_children_ext; [symmetry; exact Hn|]. constructor; [by rewrite Hc|].
        by constructor.
    + destruct (IHc Hwfc) as [? (p&r&Hp&Hr)].
      rewrite wf_container, !leaves_container, !leaves_of_cons. simpl. rewrite Hp, Hr.
      split; [|by exists p, (r ++ leaves_of cs)]. split; [simpl in *; lia|]. by constructor.
Qed.

(** ** Swapping *)

Definition transpose (a b p : Pane) : Pane :=
  if bool_decide (p = a) then b else if bool_decide (p = b) then a else p.

Lemma swap_unchecked_spec a b t :
  collect_leaves (swap_panes_unchecked a b t) = transpose a b <$> collect_leaves t ∧
  (wf t → wf (swap_panes_unchecked a b t)).
Proof.
  induction t as [p|d cs drag size IH] using LayoutTree_induction; [done|].
  cbn [swap_panes_unchecked]. rewrite !wf_container, !leaves_container, length_fmap. split.
  - induction IH as [|c cs [Hc _] _ IH]; [done|].
    rewrite fmap_cons, !leaves_of_cons, fmap_app, IH. by simpl; rewrite Hc.
  - intros [Hlen Hwf]. split; [done|]. clear Hlen. unfold wf_children. rewrite Forall_fmap.
    induction IH as [|c cs [_ Hc] _ IH']; [constructor|]. inversion Hwf; subst.
    constructor; [simpl; auto|by apply IH'].
Qed.
End facts.

(** * The pane layout: closing, removing and building *)

#[local] Arguments leaves_of : simpl never.

Section close.
Context {Pane : Type} `{EqDecision Pane}.
Implicit Types (t : LayoutTree Pane) (c : LayoutChild Pane) (cs : list (LayoutChild Pane)).

Lemma rebuild_spec d cs rr size :
  wf_children cs →
  match rebuild d cs rr size with
  | None => cs = []
  | Some t => wf t ∧ collect_leaves t = leaves_of cs ∧ cs ≠ []
  end.
Proof.
  intros Hwf. unfold rebuild. destruct cs as [|c [|c' cs]]; [done| |].
  - apply Forall_cons in Hwf as [Hwf _]. cbn beta iota. split_and!; [exact Hwf| |discriminate].
    unfold leaves_of. simpl. by rewrite app_nil_r.
  - set (cs' := if SFltb f_zero rr then _ else _).
    assert (node <$> cs' = node <$> (c :: c' :: cs)) as Hn.
    { subst cs'. destruct (SFltb _ _); [apply redistribute_equal_nodes|apply normalize_ratios_nodes]. }
    rewrite wf_container, leaves_container. split_and!; [| |by apply leaves_of_ext|done].
    + rewrite <- (length_fmap node), Hn, length_fmap. simpl. lia.
    + by eapply wf_children_ext.
Qed.

(** ** [remove_pane] *)

Definition remove_children (target : Pane) :=
  fix loop (cs new_children : list (LayoutChild Pane)) removed_ratio (removed : bool) :=
    match cs with
    | [] => (new_children, removed_ratio, removed)
    | c :: cs =>
        let '(new_node, child_removed) := remove_pane target (node c) in
        let removed := child_removed || removed in
        match new_node with
        | Some t => loop cs (new_children ++ [mkChild t (ratio c)]) removed_ratio removed
        | None => loop cs new_children (F32.add removed_ratio (ratio c)) removed
        end
    end.

Definition remove_ok (target : Pane) t (r : option (LayoutTree Pane) * bool) : Prop :=
  snd r = bool_decide (target ∈ collect_leaves t) ∧
  match fst r with
  | None => Forall (λ p, p = target) (collect_leaves t)
  | Some t' => wf t' ∧ collect_leaves t' = filter (λ p, p ≠ target) (collect_leaves t) ∧
               (snd r = false → t' = t)
  end.

Lemma filter_none (target : Pane) ps :
  Forall (λ p, p = target) ps → filter (λ p, p ≠ target) ps = [].
Proof.
  induction 1 as [|p ps -> _ IH]; [done|]. rewrite filter_cons_False by naive_solver. done.
Qed.

Lemma remove_children_spec target cs :
  wf_children cs →
  Forall (λ c, wf (node c) → remove_ok target (node c) (remove_pane target (node c))) cs →
  ∀ acc rr rm, ∃ kept rr',
    remove_children target cs acc rr rm =
      (acc ++ kept, rr', bool_decide (target ∈ leaves_of cs) || rm) ∧
    wf_children kept ∧ leaves_of kept = filter (λ p, p ≠ target) (leaves_of cs) ∧
    (target ∉ leaves_of cs → kept = cs).
Proof.
  intros Hwf Hcs. induction Hcs as [|c cs Hc _ IH]; intros acc rr rm.
  { exists [], rr. rewrite app_nil_r. split_and!; [done|constructor|done|done]. }
  apply Forall_cons in Hwf as [Hwfc Hwf]. specialize (Hc Hwfc) as [Hrm Hc].
  cbn [remove_children]. fold (remove_children target).
  rewrite leaves_of_cons, filter_app.
  assert (∀ b, bool_decide (target ∈ collect_leaves (node c) ++ leaves_of cs) || b =
    bool_decide (target ∈ leaves_of cs) || (bool_decide (target ∈ collect_leaves (node c)) || b))
    as Hor.
  { intros b. rewrite (bool_decide_ext _ _ (elem_of_app _ _ _)), bool_decide_or.
    by destruct (bool_decide _), (bool_decide _), b. }
  destruct (remove_pane target (node c)) as [[t|] was]; cbn [fst snd] in *; subst was.
  - destruct Hc as (Hwft&Hleaves&Hsame).
    destruct (IH Hwf (acc ++ [mkChild t (ratio c)]) rr
      (bool_decide (target ∈ collect_leaves (node c)) || rm)) as (kept&rr'&->&?&Hk&Hkeep).
    exists (mkChild t (ratio c) :: kept), rr'. rewrite <- app_assoc, Hor.
    split_and!; [done|by constructor|by rewrite leaves_of_cons, Hk; simpl; rewrite Hleaves|].
    intros [Hnc Hncs]%not_elem_of_app. rewrite Hkeep by done.
    rewrite Hsame by by apply bool_decide_eq_false. by destruct c.
  - destruct (IH Hwf acc (F32.add rr (ratio c))
      (bool_decide (target ∈ collect_leaves (node c)) || rm)) as (kept&rr'&->&?&Hk&Hkeep).
    exists kept, rr'. rewrite Hor. split_and!; [done|done| |].
    + by rewrite Hk, (filter_none _ _ Hc).
    + intros [Hnc _]%not_elem_of_app. exfalso.
      pose proof (leaves_nonempty _ Hwfc) as Hne.
      destruct (collect_leaves (node c)) as [|p ps]; [done|].
      inversion Hc; subst. apply Hnc. by left.
Qed.

Lemma remove_pane_spec target t : wf t → remove_ok target t (remove_pane target t).
Proof.
  induction t as [p|d cs drag size IH] using LayoutTree_induction.
  - intros _. simpl. unfold remove_ok. case_bool_decide as Hp; simpl.
    + split; [symmetry; apply bool_decide_eq_true; subst; by left|by apply Forall_singleton].
    + split; [symmetry; apply bool_decide_eq_false; intros ?%list_elem_of_singleton; congruence|].
      split_and!; [done| |done]. by rewrite filter_cons_True.
  - rewrite wf_container. intros [Hlen Hwf]. cbn [remove_pane].
    fold (remove_children target).
    destruct (remove_children_spec target cs Hwf IH [] f_zero false) as (kept&rr&->&Hwk&Hk&Hkeep).
    rewrite orb_false_r. unfold remove_ok. rewrite !leaves_container.
    case_bool_decide as Hin; cbn [negb fst snd].
    + split; [done|]. pose proof (rebuild_spec d kept rr size Hwk) as Hr. simpl.
      destruct (rebuild d kept rr size) as [t'|].
      * destruct Hr as (?&Hl&_). rewrite Hl, Hk. by split_and!.
      * subst kept. apply Forall_forall. intros p Hp.
        destruct (decide (p = target)) as [|Hne]; [done|].
        assert (p ∈ filter (λ p, p ≠ target) (leaves_of cs)) as Hf by by apply list_elem_of_filter.
        rewrite <- Hk in Hf. by apply not_elem_of_nil in Hf.
    + split; [done|]. pose proof (Hkeep Hin) as ->.
      rewrite wf_container, leaves_container. by split_and!.
Qed.

(** ** [close_focused] *)

Section focus.
Context (is_focused : Pane → bool).

Definition close_children :=
  fix loop (i : nat) (cs : list (LayoutChild Pane)) st :=
    match cs with
    | [] => Some st
    | c :: cs =>
        st ← (if closed st then Some (push_child st c)
              else r ← close_focused is_focused (node c); close_child i c r st);
        loop (S i) cs st
    end.

(** [q] is next to the closed pane, between [l] and [r]. *)
Definition adjacent (l r : list Pane) (q : Pane) : Prop := last l = Some q ∨ head r = Some q.

Definition close_ok t (res : option (LayoutTree Pane) * bool * option Pane) : Prop :=
  let '(t', was, nb) := res in
  if was : bool then
    ∃ l p r, collect_leaves t = l ++ p :: r ∧ is_focused p = true ∧
      Forall (λ p, is_focused p = false) l ∧
      match t' with
      | None => l = [] ∧ r = [] ∧ nb = None
      | Some t' => wf t' ∧ collect_leaves t' = l ++ r ∧ ∃ q, nb = Some q ∧ adjacent l r q
      end
  else t' = Some t ∧ nb = None ∧ Forall (λ p, is_focused p = false) (collect_leaves t).

Lemma close_children_closed i cs st :
  closed st = true →
  close_children i cs st = Some (mkClose (new_children st ++ cs) true (closed_idx st)
                                   (removed_ratio st) (focus_neighbor st)).
Proof.
  revert i st. induction cs as [|c cs IH]; intros i st Hc; simpl.
  - rewrite app_nil_r. destruct st; simpl in *. by subst.
  - rewrite Hc. simpl. rewrite IH by done. unfold push_child. simpl. by rewrite <- app_assoc.
Qed.

Lemma close_children_spec cs :
  Forall (λ c, runs (close_focused is_focused (node c)) (close_ok (node c))) cs →
  ∀ acc, runs (close_children (length acc) cs (mkClose acc false None f_zero None)) (λ st,
    if closed st then
      ∃ cs1 c cs2 (t' : option (LayoutTree Pane)) nb, cs = cs1 ++ c :: cs2 ∧ close_ok (node c) (t', true, nb) ∧
        Forall (λ p, is_focused p = false) (leaves_of cs1) ∧
        new_children st =
          acc ++ cs1 ++ match t' with Some t => [mkChild t (ratio c)] | None => [] end ++ cs2 ∧
        closed_idx st = Some (length (acc ++ cs1)) ∧ focus_neighbor st = nb
    else st = mkClose (acc ++ cs) false None f_zero None ∧
         Forall (λ p, is_focused p = false) (leaves_of cs)).
Proof.
  induction 1 as [|c cs Hc _ IH]; intros acc.
  { simpl. rewrite app_nil_r. by split; [|constructor]. }
  cbn [close_children closed]. fold close_children.
  apply runs_some in Hc as ([[t' was] nb]&Hc&Hok). rewrite Hc.
  cbn [mbind option_bind close_child]. destruct was.
  - destruct t' as [t'|]; cbn [mbind option_bind];
      rewrite close_children_closed by done; cbn [runs closed new_children closed_idx].
    + exists [], c, cs, (Some t'), nb. rewrite app_nil_r, <- app_assoc. by split_and!.
    + exists [], c, cs, None, nb. rewrite app_nil_r. by split_and!.
  - destruct Hok as ([= ->]&->&Hno). cbn [mbind option_bind].
    assert (mkChild (node c) (ratio c) = c) as -> by (by destruct c).
    change (push_child (mkClose acc false None f_zero None) c)
      with (@mkClose Pane (acc ++ [c]) false None f_zero None).
    rewrite <- (last_length acc c). eapply runs_mono; [apply IH|].
    intros st Hst. cbn beta in Hst. destruct (closed st).
    + destruct Hst as (cs1&c'&cs2&t'&nb'&->&Hok&Hno1&Hnew&Hidx&Hnb).
      exists (c :: cs1), c', cs2, t', nb'. rewrite Hnew, Hidx, <- !app_assoc.
      split_and!; [done..| |done|done|done]. rewrite leaves_of_cons. by apply Forall_app.
    + destruct Hst as [-> Hno']. rewrite <- app_assoc. split; [done|].
      rewrite leaves_of_cons. by apply Forall_app.
Qed.

(** A container loses the child that was its closed leaf. *)
Lemma close_whole_child cs1 cs2 st :
  wf_children cs1 → wf_children cs2 → 0 < length (cs1 ++ cs2) →
  new_children st = cs1 ++ cs2 → closed_idx st = Some (length cs1) → focus_neighbor st = None →
  ∃ q : Pane, close_focus st = Some q ∧ adjacent (leaves_of cs1) (leaves_of cs2) q.
Proof.
  intros Hw1 Hw2 Hlen Hnew Hidx Hnb. unfold close_focus. rewrite Hnb, Hidx, Hnew.
  destruct cs1 as [|c0 cs1'] using rev_ind.
  - simpl in *. destruct cs2 as [|c cs2]; [simpl in Hlen; lia|]. simpl.
    apply Forall_cons in Hw2 as [Hw _]. rewrite (first_leaf_head _ Hw).
    pose proof (leaves_nonempty _ Hw). rewrite leaves_of_cons.
    destruct (collect_leaves (node c)) as [|q qs]; [done|]. exists q. split; [done|by right].
  - rewrite last_length. rewrite <- app_assoc, lookup_app_r, Nat.sub_diag by lia. simpl.
    apply Forall_app in Hw1 as [_ [Hw _]%Forall_cons]. rewrite (last_leaf_last _ Hw).
    pose proof (leaves_nonempty _ Hw) as Hne.
    destruct (last (collect_leaves (node c0))) as [q|] eqn:Hq; [|by apply last_None in Hq].
    exists q. split; [done|]. left.
    rewrite leaves_of_app, leaves_of_cons, last_app. unfold leaves_of at 1. simpl.
    by rewrite app_nil_r, Hq.
Qed.

Lemma close_focused_spec t : wf t → runs (close_focused is_focused t) (close_ok t).
Proof.
  induction t as [p|d cs drag size IH] using LayoutTree_induction.
  - intros _. simpl. destruct (is_focused p) eqn:Hp; simpl.
    + exists [], p, []. by split_and!.
    + split_and!; [done..|by apply Forall_singleton].
  - rewrite wf_container. intros [Hlen Hwf]. cbn [close_focused].
    fold close_children.
    assert (Forall (λ c, runs (close_focused is_focused (node c)) (close_ok (node c))) cs) as Hcs.
    { unfold wf_children in Hwf. rewrite Forall_forall in *. intros c Hc. by apply IH; [|apply Hwf]. }
    eapply runs_bind; [apply (close_children_spec cs Hcs [])|].
    intros st Hst. cbn beta in Hst. unfold finish_close, close_ok. cbn [runs].
    rewrite leaves_container. destruct (closed st) eqn:Hclosed; cbn [negb].
    2: { destruct Hst as [-> Hno]. by split_and!. }
    destruct Hst as (cs1&c&cs2&t'&nb&->&Hok&Hno&Hnew&Hidx&Hnb). simpl in Hnew, Hidx.
    apply Forall_app in Hwf as [Hw1 [Hwc Hw2]%Forall_cons].
    destruct Hok as (l&p&r&Hl&Hp&Hnol&Ht').
    exists (leaves_of cs1 ++ l), p, (r ++ leaves_of cs2).
    rewrite leaves_of_app, leaves_of_cons, Hl, <- !app_assoc.
    split_and!; [done|done|by apply Forall_app|].
    assert (wf_children (new_children st)) as Hwn.
    { rewrite Hnew. apply Forall_app; split; [done|]. destruct t' as [t'|]; [|done].
      by apply Forall_cons; [split; [apply Ht'|]]. }
    assert (0 < length (new_children st)) as Hpos.
    { rewrite Hnew. rewrite length_app in *. simpl in Hlen.
      destruct t'; simpl; [rewrite ?length_app; simpl; lia|lia]. }
    pose proof (rebuild_spec d _ (removed_ratio st) size Hwn) as Hrb.
    destruct (rebuild d (new_children st) _ size) as [t''|]; [|by rewrite Hrb in Hpos; simpl in Hpos; lia].
    destruct Hrb as (Hwt&Hlt&Hne). split; [done|].
    assert ((match new_children st with [] => None | _ => close_focus st end) = close_focus st)
      as -> by (by destruct (new_children st)).
    destruct t' as [t'|].
    + destruct Ht' as (?&Hlt'&q&->&Hadj). split.
      * rewrite Hlt, Hnew. cbn [app]. rewrite leaves_of_app, leaves_of_cons. simpl. by rewrite Hlt', <- !app_assoc.
      * exists q. unfold close_focus. rewrite Hnb. split; [done|]. destruct Hadj as [Hq|Hq].
        -- left. by rewrite last_app, Hq.
        -- right. by destruct r.
    + destruct Ht' as (->&->&->). simpl in Hnew. rewrite Hnew in Hpos. split.
      * by rewrite Hlt, Hnew, leaves_of_app.
      * destruct (close_whole_child cs1 cs2 st) as (q&?&Hadj); [done..|]. exists q.
        split; [done|]. by rewrite app_nil_r.
Qed.
End focus.
End close.
