(* ===== verification/LayoutMove.v ===== *)
(** * The pane layout: building, resizing and moving panes

    The presets keep every pane and build well-formed trees; a resize keeps both
    neighbours above their minimum; a pane dropped on another one
    ([pane_drag.rs], [event_handlers/mod.rs]) ends up next to it and no pane is
    lost. *)

From S2P Require Import Prelude Float LayoutTree LayoutFacts.

#[local] Arguments leaves_of : simpl never.

(** ** Dropping a pane on the edge of another ([pane_drag.rs]) *)

Inductive DropEdge := Up | Down | Left | Right.

Definition to_split (edge : DropEdge) : SplitDirection * bool :=
  match edge with
  | Up => (Horizontal, true)
  | Down => (Horizontal, false)
  | Left => (Vertical, true)
  | Right => (Vertical, false)
  end.

(** [min_by] keeps the first of two equal candidates. *)
Definition min_by_distance (a b : DropEdge * spec_float) : DropEdge * spec_float :=
  match default Eq (SFcompare (snd a) (snd b)) with Gt => b | _ => a end.

Definition compute_drop_edge (width height x y band : spec_float) : option DropEdge :=
  if SFleb width f_zero || SFleb height f_zero then None
  else
    let size := F32.mul (fmin width height) band in
    let in_band := SFltb x size || SFltb (F32.sub width size) x || SFltb y size
                   || SFltb (F32.sub height size) y in
    if negb in_band then None
    else
      Some (fst (foldl min_by_distance (Up, y)
        [(Right, F32.sub width x); (Down, F32.sub height y); (Left, x)])).

Definition split_rect (dir : option DropEdge) (width height : spec_float)
  : spec_float * spec_float * spec_float * spec_float :=
  let hw := F32.mul width F32.half in
  let hh := F32.mul height F32.half in
  match dir with
  | None => (f_zero, f_zero, width, height)
  | Some Up => (f_zero, f_zero, width, hh)
  | Some Down => (f_zero, hh, width, hh)
  | Some Left => (f_zero, f_zero, hw, height)
  | Some Right => (hw, f_zero, hw, height)
  end.

Section move.
Context {Pane : Type} `{EqDecision Pane}.
Implicit Types (t : LayoutTree Pane) (cs : list (LayoutChild Pane)) (ps : list Pane).

Definition split_pane_at_edge (root : LayoutTree Pane) (target : Pane) (edge : DropEdge)
    (new_pane : Pane) : LayoutTree Pane * bool :=
  let '(direction, swap) := to_split edge in
  match split_at_pane target direction new_pane root with
  | (root, false) => (root, false)
  | (root, true) => (if swap then fst (swap_panes target new_pane root) else root, true)
  end.

(** The tree part of the [DropPaneMove] handler, for a source and a target in
    the tree: the new tree and whether the pane moved. *)
Definition drop_pane_move (root : LayoutTree Pane) (source target : Pane)
    (edge : option DropEdge) : LayoutTree Pane * bool :=
  match edge with
  | None => swap_panes source target root
  | Some edge =>
      let '(pruned, removed) := remove_pane source root in
      let tree := default (Leaf source) pruned in
      if removed && contains_leaf tree target then
        match split_pane_at_edge tree target edge source with
        | (tree, true) => (tree, true)
        | (tree, false) =>
            match first_leaf tree with
            | Some anchor => split_at_pane anchor Vertical source tree
            | None => (tree, false)
            end
        end
      else (tree, false)
  end.

(** ** Presets *)

Lemma leaves_of_leaves r (ps : list Pane) : leaves_of ((λ p, mkChild (Leaf p) r) <$> ps) = ps.
Proof. induction ps as [|p ps IH]; [done|]. by rewrite fmap_cons, leaves_of_cons, IH. Qed.

Lemma from_panes_equal_spec d ps :
  ps ≠ [] → ∃ t, from_panes_equal d ps = Some t ∧ wf t ∧ collect_leaves t = ps.
Proof.
  intros Hne. destruct ps as [|p [|q ps]]; [done|by exists (Leaf p)|].
  eexists. split; [done|]. rewrite wf_container, leaves_container, length_fmap.
  split; [split; [simpl; lia|]|].
  - unfold wf_children. rewrite Forall_fmap. by apply Forall_forall.
  - apply leaves_of_leaves.
Qed.

(** The grid is as square as possible: no row is empty. *)
Lemma grid_spec fuel n rows cols :
  1 ≤ rows → (cols = rows ∨ cols = rows + 1) → (rows - 1) * cols < n →
  n + n ≤ fuel + rows + cols → 
  ∃ r c, grid fuel n rows cols = Some (r, c) ∧ 1 ≤ r ∧ n ≤ r * c ∧ (r - 1) * c < n ∧
    (c = r ∨ c = r + 1).
Proof.
  revert rows cols. induction fuel as [|fuel IH]; intros rows cols Hr Hc Hlt Hf; cbn [grid];
    destruct (Nat.ltb_spec (rows * cols) n); try (exists rows, cols; by split_and!).
  - exfalso. nia.
  - destruct (Nat.leb_spec cols rows).
    + apply IH; [lia|lia| |lia]. destruct Hc; [subst; nia|lia].
    + apply IH; [lia|lia| |lia]. destruct Hc; [lia|]. subst. nia.
Qed.

Lemma tiled_rows_spec rr n rows cols ps :
  length ps = n → 1 ≤ rows → (rows - 1) * cols < n → n ≤ rows * cols → 1 ≤ cols →
  runs (for_each (seq 0 rows) (tiled_row n rows cols rr) (ps, [])) (λ st,
    wf_children (snd st) ∧ length (snd st) = rows ∧ leaves_of (snd st) = ps).
Proof.
  intros Hn ????.
  apply (runs_for_each _ _ (λ dn st, wf_children (snd st) ∧ length (snd st) = length dn ∧
    leaves_of (snd st) ++ fst st = ps ∧
    length (fst st) = n - (if length dn <? rows then length dn * cols else n))).
  - simpl. split_and!; [constructor|done|done|]. destruct (Nat.ltb_spec 0 rows); lia.
  - intros dn r rest [it acc] Hr (Hwf&Hlen&Hl&Hit). simpl in *.
    assert (r = length dn ∧ length dn < rows) as [-> Hlt].
    { assert (seq 0 rows !! length dn = Some r) as Hq%lookup_seq; [|lia].
      by rewrite Hr, lookup_app_r, Nat.sub_diag by lia. }
    rewrite (proj2 (Nat.ltb_lt _ _) Hlt) in Hit. unfold tiled_row.
    set (m := if length dn <? rows - 1 then cols else n - cols * (rows - 1)).
    eapply (runs_bind _ _ (eq m)).
    { subst m. destruct (length dn <? rows - 1); [done|]. rewrite checked_sub_some by nia. done. }
    intros ? <-. 
    assert (0 < m ∧ m ≤ length it ∧
      length it - m = n - (if length dn + 1 <? rows then (length dn + 1) * cols else n)) as (?&?&Hrest).
    { subst m. destruct (Nat.ltb_spec (length dn) (rows - 1)), (Nat.ltb_spec (length dn + 1) rows);
        try lia; rewrite Hit; [split_and!; [lia|nia|lia]|].
      assert (length dn = rows - 1) as -> by lia. rewrite (Nat.mul_comm cols). split_and!; lia. }
    destruct (from_panes_equal_spec Vertical (take m it)) as (t&->&Hwt&Hlt').
    { intros Ht%(f_equal length). rewrite length_take in Ht. simpl in Ht. lia. }
    cbn [mbind option_bind runs fst snd]. rewrite !length_app, length_drop. simpl.
    split_and!; [|lia| |lia].
    + apply Forall_app; split; [done|]. by apply Forall_cons.
    + rewrite leaves_of_app, leaves_of_cons. simpl. rewrite Hlt'. unfold leaves_of at 2. simpl.
      rewrite app_nil_r, <- app_assoc, take_drop. done.
  - intros [it acc] (?&Hlen&Hl&Hit). simpl in *. rewrite length_seq in *.
    rewrite Nat.ltb_irrefl in Hit. split_and!; [done|done|].
    destruct it; [by rewrite app_nil_r in Hl|simpl in Hit; lia].
Qed.

Lemma tiled_spec ps :
  ps ≠ [] → runs (tiled ps) (λ o, ∃ t, o = Some t ∧ wf t ∧ collect_leaves t = ps).
Proof.
  intros Hne. destruct ps as [|p [|q ps]]; [done|by exists (Leaf p)|].
  unfold tiled. set (l := p :: q :: ps). assert (2 ≤ length l) by (simpl; lia).
  destruct (grid_spec (length l + length l) (length l) 1 1) as (r&c&->&?&?&?&?); [lia..|].
  cbn [mbind option_bind]. destruct (Nat.eqb_spec r 1) as [->|].
  - destruct (from_panes_equal_spec Vertical l) as (t&->&?&?); [done|]. by exists t.
  - eapply runs_bind; [apply tiled_rows_spec; [done|lia|nia|lia|nia]|].
    intros [it rows] (?&Hlen&?). simpl in *. eexists. split; [done|].
    rewrite wf_container, leaves_container. split_and!; [lia|done|done].
Qed.

Lemma main_vertical_spec p ps :
  runs (main_vertical p ps) (λ o, ∃ t, o = Some t ∧ wf t ∧ collect_leaves t = p :: ps).
Proof.
  unfold main_vertical. destruct ps as [|q ps]; [by exists (Leaf p)|].
  destruct (from_panes_equal_spec Horizontal (q :: ps)) as (t&->&?&Ht); [done|].
  simpl. eexists. split; [done|]. rewrite wf_container, leaves_container.
  split; [split; [simpl; lia|by repeat apply Forall_cons_2]|].
  unfold leaves_of. simpl. by rewrite Ht, app_nil_r.
Qed.

(** ** Resizing *)

Lemma fmin_finite x y :
  is_finite y = true → is_nan x = true ∨ non_negative x = true → is_finite (fmin x y) = true.
Proof.
  intros Hy [Hx|Hx]; unfold fmin; [by rewrite Hx|].
  assert (is_nan x = false ∧ is_nan y = false) as [-> ->].
  { by destruct x, y. }
  destruct (SFltb y x) eqn:Hlt; [done|].
  by destruct x as [[]|[]| |[] ? ?], y as [[]|[]| |[] ? ?].
Qed.

Lemma finite_number x : is_finite x = true → is_nan x = false.
Proof. by destruct x. Qed.

Lemma sub_finite_number x y :
  is_finite x = true → is_finite y = true → is_nan (F32.sub x y) = false.
Proof.
  destruct x as [[]|[]| |[] mx ex], y as [[]|[]| |[] my ey]; try done; intros _ _;
    apply binary_normalize_number.
Qed.

Lemma add_finite_number x y : is_finite x = true → is_nan y = false → is_nan (F32.add x y) = false.
Proof.
  destruct x as [[]|[]| |[] mx ex], y as [[]|[]| |[] my ey]; try done; intros _ _;
    apply binary_normalize_number.
Qed.

(** A positive finite container size. *)
Lemma positive_finite x :
  is_finite x = true → SFleb x f_zero = false → ∃ m e, x = S754_finite false m e.
Proof. destruct x as [[]|[]| |[] m e]; try done. by exists m, e. Qed.

Lemma div_positive_number x m e :
  is_finite x = true → is_nan (F32.div x (S754_finite false m e)) = false.
Proof.
  destruct x as [[]|[]| |s mx ex]; try done. intros _. unfold F32.div, SFdiv.
  pose proof (div_core_nonneg 24 128 mx ex m e) as Hq.
  destruct (SFdiv_core_binary _ _ _ _ _ _) as [[q e'] l]. simpl in Hq.
  pose proof (binary_round_aux_rounded 24 128 (xorb s false) q e' l Hq).
  by destruct (binary_round_aux _ _ _ _ _ _).
Qed.

(** The ratio of a minimum size, as [resize_adjacent_ratios] computes it. *)
Definition min_ratio (min_px container_px pair_sum : spec_float) : spec_float :=
  fmin (F32.div (fmax min_px f_zero) container_px) pair_sum.

Lemma min_ratio_finite min_px m e pair_sum :
  is_finite min_px = true → is_finite pair_sum = true →
  is_finite (min_ratio min_px (S754_finite false m e) pair_sum) = true.
Proof.
  intros Hm Hp. apply fmin_finite; [done|]. right.
  destruct min_px as [[]|[]| |[] mm me]; try done. by apply div_non_negative.
Qed.

Lemma resize_adjacent_ratios_spec rb ra delta container mb ma :
  runs (resize_adjacent_ratios rb ra delta container mb ma) (λ o, ∀ nb na, o = Some (nb, na) →
    let pair := F32.add rb ra in
    let lower := min_ratio mb container pair in
    let upper := F32.sub pair (min_ratio ma container pair) in
    if SFltb upper lower then nb = rb ∧ na = ra
    else SFleb lower nb = true ∧ SFleb nb upper = true ∧ na = F32.sub pair nb).
Proof.
  unfold resize_adjacent_ratios. destruct (_ || SFleb container f_zero) eqn:Hbad; [done|].
  repeat match goal with
  | H : (_ || _) = false |- _ => apply orb_false_elim in H as [H ?]
  | H : negb _ = false |- _ => apply negb_false_iff in H
  end.
  destruct (_ || SFleb (F32.add rb ra) f_zero) eqn:Hpair; [done|].
  apply orb_false_elim in Hpair as [Hpair%negb_false_iff _].
  destruct (positive_finite container) as (m&e&->); [done..|].
  fold (min_ratio mb (S754_finite false m e) (F32.add rb ra)).
  fold (min_ratio ma (S754_finite false m e) (F32.add rb ra)).
  set (pair := F32.add rb ra) in *. set (lower := min_ratio mb _ pair).
  set (upper := F32.sub pair _).
  assert (is_nan lower = false) by (by apply finite_number, min_ratio_finite).
  assert (is_nan upper = false) by (by apply sub_finite_number, min_ratio_finite).
  cbn zeta. destruct (SFltb upper lower) eqn:Hlt; [by intros ?? [= <- <-]|].
  eapply runs_bind.
  - apply (clamp_spec _ lower upper); [|by apply SFltb_SFleb].
    apply add_finite_number; [done|by apply div_positive_number].
  - intros x [??] nb na [= <- <-]. by split_and!.
Qed.

(** ** Queries *)

Lemma equalize_children_spec n i cs eq last_ :
  Forall (λ c, collect_leaves (equalize_ratios (node c)) = collect_leaves (node c) ∧
               (wf (node c) → wf (equalize_ratios (node c)))) cs →
  let cs' := (fix loop i cs :=
    match cs with
    | [] => []
    | c :: cs => mkChild (equalize_ratios (node c))
        (if (i =? n - 1)%nat then last_ else eq) :: loop (S i) cs
    end) i cs in
  leaves_of cs' = leaves_of cs ∧ length cs' = length cs ∧ (wf_children cs → wf_children cs').
Proof.
  intros Hcs. revert i. induction Hcs as [|c cs [Hc Hw] _ IH]; intros i; [done|].
  destruct (IH (S i)) as (Hl&Hlen&Hwf). cbn zeta. split_and!.
  - rewrite !leaves_of_cons. cbn [node]. rewrite Hc. f_equal. exact Hl.
  - cbn [length]. f_equal. exact Hlen.
  - intros [??]%Forall_cons. apply Forall_cons. split; [by apply Hw|by apply Hwf].
Qed.

Lemma equalize_ratios_spec t :
  collect_leaves (equalize_ratios t) = collect_leaves t ∧ (wf t → wf (equalize_ratios t)).
Proof.
  induction t as [p|d cs drag size IH] using LayoutTree_induction; [done|].
  cbn [equalize_ratios]. rewrite !wf_container, !leaves_container.
  destruct (equalize_children_spec (length cs) 0 cs
    (F32.div F32.one (F32.of_nat (length cs)))
    (F32.sub F32.one (F32.mul (F32.div F32.one (F32.of_nat (length cs)))
       (F32.of_nat (length cs - 1)))) IH) as (Hl&Hlen&Hwf).
  split; [exact Hl|]. intros [? Hw]. split; [rewrite Hlen; done|]. by apply Hwf.
Qed.

(** The ratios [equalize_ratios] gives [n] children: equal ones, and the rest
    for the last. *)
Definition equalized (n : nat) : list spec_float :=
  let equal := F32.div F32.one (F32.of_nat n) in
  replicate (n - 1) equal ++ [F32.sub F32.one (F32.mul equal (F32.of_nat (n - 1)))].

(** Positive, with a sum within four units of [f32::EPSILON] of 1. *)
Definition ratios_balanced (rs : list spec_float) : bool :=
  forallb (SFltb f_zero) rs &&
  SFleb (SFabs (F32.sub (F32.sum rs) F32.one)) (F32.mul (F32.of_nat 4) F32.EPSILON).

Lemma equalized_balanced n : 1 ≤ n ≤ 32 → ratios_balanced (equalized n) = true.
Proof.
  intros Hn. assert (Hall : forallb (λ n, ratios_balanced (equalized n)) (seq 1 32) = true)
    by (vm_compute; reflexivity).
  rewrite forallb_forall in Hall. apply Hall, in_seq. lia.
Qed.

Lemma equalize_children_ratios n i cs equal last_ :
  i + length cs = n → cs ≠ [] →
  ratio <$> (fix loop i cs :=
    match cs with
    | [] => []
    | c :: cs => mkChild (equalize_ratios (node c))
        (if (i =? n - 1)%nat then last_ else equal) :: loop (S i) cs
    end) i cs = replicate (n - 1 - i) equal ++ [last_].
Proof.
  revert i. induction cs as [|c [|c' cs] IH]; intros i Hn Hne; [done| |].
  - simpl in *. replace (i =? n - 1) with true by (symmetry; apply Nat.eqb_eq; lia).
    by replace (n - 1 - i) with 0 by lia.
  - rewrite fmap_cons. cbn [ratio].
    replace (i =? n - 1) with false by (symmetry; apply Nat.eqb_neq; simpl in Hn; lia).
    replace (n - 1 - i) with (S (n - 1 - S i)) by (simpl in Hn; lia).
    cbn [replicate app]. f_equal. apply IH; [simpl in *; lia|done].
Qed.

(** Every split of the tree has balanced ratios. *)
Fixpoint balanced t : Prop :=
  match t with
  | Leaf _ => True
  | Container _ cs _ _ =>
      ratios_balanced (ratio <$> cs) = true ∧ Forall id ((λ c, balanced (node c)) <$> cs)
  end.

(** No split has more than 32 children. *)
Fixpoint narrow t : Prop :=
  match t with
  | Leaf _ => True
  | Container _ cs _ _ => length cs ≤ 32 ∧ Forall id ((λ c, narrow (node c)) <$> cs)
  end.

Lemma equalize_children_balanced n i cs equal last_ :
  Forall (λ c, balanced (equalize_ratios (node c))) cs →
  Forall id ((λ c, balanced (node c)) <$> (fix loop i cs :=
    match cs with
    | [] => []
    | c :: cs => mkChild (equalize_ratios (node c))
        (if (i =? n - 1)%nat then last_ else equal) :: loop (S i) cs
    end) i cs).
Proof.
  intros Hcs. revert i. induction Hcs as [|c cs Hc _ IH]; intros i; [constructor|].
  rewrite fmap_cons. constructor; [exact Hc|apply IH].
Qed.

Lemma equalize_ratios_balanced t : wf t → narrow t → balanced (equalize_ratios t).
Proof.
  induction t as [p|d cs drag size IH] using LayoutTree_induction; [done|].
  intros [Hlen Hwf]%wf_container [Hmax Hnarrow]. cbn [equalize_ratios balanced]. split.
  - rewrite equalize_children_ratios; [|done|by destruct cs; simpl in *; [lia|]].
    rewrite Nat.sub_0_r. apply equalized_balanced. lia.
  - apply equalize_children_balanced. rewrite Forall_fmap in Hnarrow.
    unfold wf_children in Hwf. rewrite Forall_forall in *. intros c Hc.
    apply IH; [done|by apply Hwf|by apply Hnarrow].
Qed.

Section focus.
Context (is_focused is_detached : Pane → bool).

Lemma has_docked_spec t :
  has_docked_panes is_detached t = existsb (λ p, negb (is_detached p)) (collect_leaves t).
Proof. apply any_leaf_pure. Qed.

(** The panes of the tree that are docked, in order. *)
Definition docked t : list Pane := filter (λ p, is_detached p = false) (collect_leaves t).

Lemma focused_pane_spec t :
  focused_pane is_focused is_detached t =
  head (filter (λ p, is_focused p = true) (docked t)).
Proof.
  unfold docked. induction t as [p|d cs drag size IH] using LayoutTree_induction.
  - simpl. destruct (is_detached p) eqn:Hd; simpl.
    + rewrite filter_cons_False by congruence. done.
    + rewrite filter_cons_True by done. destruct (is_focused p) eqn:Hf.
      * by rewrite filter_cons_True.
      * rewrite filter_cons_False by congruence. done.
  - rewrite leaves_container. cbn [focused_pane].
    induction IH as [|c cs Hc _ IH]; [done|].
    rewrite Hc, leaves_of_cons, !filter_app.
    destruct (filter _ (filter _ (collect_leaves (node c)))); [exact IH|done].
Qed.

(** The index of the first focused pane among the docked ones. *)
Definition focus_index (ps : list Pane) : option nat :=
  fst <$> list_find (λ p, is_focused p = true) ps.

Lemma dim_scan ps count focused :
  foldl (λ st p, let '(count, focused) := st in
      if is_detached p then (count, focused)
      else (S count,
            match focused with
            | None => if is_focused p then Some count else None
            | _ => focused
            end)) (count, focused) ps =
  (count + length (filter (λ p, is_detached p = false) ps),
   match focused with
   | Some i => Some i
   | None => (λ i, count + i) <$> focus_index (filter (λ p, is_detached p = false) ps)
   end).
Proof.
  revert count focused. induction ps as [|p ps IH]; intros count focused; simpl.
  - rewrite Nat.add_0_r. by destruct focused.
  - destruct (is_detached p) eqn:Hd.
    + rewrite IH, filter_cons_False by congruence. done.
    + rewrite IH, filter_cons_True by done. simpl. f_equal; [lia|].
      destruct focused as [i|]; [done|]. unfold focus_index. simpl.
      destruct (is_focused p) eqn:Hf.
      * rewrite decide_True by done. simpl. f_equal. lia.
      * rewrite decide_False by congruence.
        destruct (list_find _ _) as [[j q]|]; simpl; [|done]. f_equal. lia.
Qed.

Lemma dim_alone ps out :
  foldl (λ out p, if is_detached p then out else out ++ [(p, Alone)]) out ps =
  out ++ ((λ p, (p, Alone)) <$> filter (λ p, is_detached p = false) ps).
Proof.
  revert out. induction ps as [|p ps IH]; intros out; simpl; [by rewrite app_nil_r|].
  destruct (is_detached p) eqn:Hd; rewrite IH.
  - by rewrite filter_cons_False by congruence.
  - rewrite filter_cons_True by done. simpl. by rewrite <- app_assoc.
Qed.

Lemma dim_except idx ps index out :
  snd (foldl (λ st p, let '(index, out) := st in
      if is_detached p then (index, out)
      else (S index, out ++ [(p, if (index =? idx)%nat then Focused else Unfocused)]))
    (index, out) ps) =
  out ++ imap (λ i p, (p, if (index + i =? idx)%nat then Focused else Unfocused))
    (filter (λ p, is_detached p = false) ps).
Proof.
  revert index out. induction ps as [|p ps IH]; intros index out; simpl; [by rewrite app_nil_r|].
  destruct (is_detached p) eqn:Hd; rewrite IH.
  - by rewrite filter_cons_False by congruence.
  - rewrite filter_cons_True by done. simpl. rewrite <- app_assoc, Nat.add_0_r. simpl.
    do 2 f_equal. apply imap_ext. intros i x _. simpl. by rewrite Nat.add_succ_r.
Qed.

Lemma sync_unfocused_dim_spec t :
  sync_unfocused_dim is_focused is_detached t =
  if (length (docked t) <? 2)%nat then (λ p, (p, Alone)) <$> docked t
  else match focus_index (docked t) with
       | Some idx =>
           imap (λ i p, (p, if (i =? idx)%nat then Focused else Unfocused)) (docked t)
       | None => []
       end.
Proof.
  unfold sync_unfocused_dim. rewrite for_each_leaf_spec.
  pose proof (dim_scan (collect_leaves t) 0 None) as Hscan. unfold docked.
  set (ds := filter _ _) in *. simpl in Hscan.
  match goal with |- (let '(_, _) := ?x in _) = _ => replace x with
    (length ds, (λ i : nat, i) <$> focus_index ds) by (symmetry; exact Hscan) end.
  unfold dim_policy. destruct (_ <? 2).
  - rewrite for_each_leaf_spec. apply dim_alone.
  - destruct (focus_index ds) as [idx|]; simpl; [|done].
    rewrite for_each_leaf_spec. apply (dim_except idx _ 0 []).
Qed.
End focus.

(** ** Moving a pane *)

Lemma transpose_other (a b p : Pane) : p ≠ a → p ≠ b → transpose a b p = p.
Proof. intros. unfold transpose. by rewrite !bool_decide_eq_false_2. Qed.

Lemma transpose_id (a b : Pane) ps : a ∉ ps → b ∉ ps → transpose a b <$> ps = ps.
Proof.
  intros Ha Hb. induction ps as [|p ps IH]; [done|].
  apply not_elem_of_cons in Ha as [??], Hb as [??]. rewrite fmap_cons.
  by rewrite transpose_other, IH.
Qed.

Lemma transpose_left (a b : Pane) : transpose a b a = b.
Proof. unfold transpose. by rewrite bool_decide_eq_true_2. Qed.

Lemma transpose_right (a b : Pane) : transpose a b b = a.
Proof.
  unfold transpose. case_bool_decide; [done|]. by rewrite bool_decide_eq_true_2.
Qed.

(** Somewhere in the tree a split in the direction [d] has the panes [p] and [q] as
    two children, one right after the other. *)
Inductive abut (d : SplitDirection) (p q : Pane) : LayoutTree Pane → Prop :=
  | abut_here cs1 c1 c2 cs2 drag size :
      node c1 = Leaf p → node c2 = Leaf q → abut d p q (Container d (cs1 ++ c1 :: c2 :: cs2) drag size)
  | abut_within d' cs c drag size :
      c ∈ cs → abut d p q (node c) → abut d p q (Container d' cs drag size).

Lemma abut_children d p q cs d' drag size :
  Exists (λ c, abut d p q (node c)) cs → abut d p q (Container d' cs drag size).
Proof. intros (c&Hc&?)%Exists_exists. by eapply abut_within. Qed.

(** A pane that is split off is next to the one it was split from. *)
Lemma split_children_abut hit d new cs :
  Forall (λ c, snd (split_where hit d new (node c)) = true →
    ∃ p, hit p = true ∧ abut d p new (fst (split_where hit d new (node c)))) cs →
  snd (split_children hit d new cs) = true →
  ∃ p, hit p = true ∧ Exists (λ c, abut d p new (node c)) (fst (split_children hit d new cs)).
Proof.
  induction 1 as [|c cs Hc _ IH]; [done|]. cbn [split_children].
  destruct (split_where hit d new (node c)) as [t []]; simpl in Hc |- *.
  - intros _. destruct Hc as (p&?&?); [done|]. exists p. split; [done|by left].
  - fold (split_children hit d new). destruct (split_children hit d new cs) as [cs' done']. simpl in *.
    intros Hd. destruct (IH Hd) as (p&?&?). exists p. split; [done|by right].
Qed.

Lemma split_where_abut hit d new t :
  snd (split_where hit d new t) = true →
  ∃ p, hit p = true ∧ abut d p new (fst (split_where hit d new t)).
Proof.
  induction t as [p|d' cs drag size IH] using LayoutTree_induction; cbn [split_where].
  - destruct (hit p) eqn:Hp; [|done]. intros _. exists p. split; [done|]. by apply (abut_here d p new [] _ _ []).
  - fold (split_children hit d new). destruct (if bool_decide _ then _ else None) as [i|] eqn:Hi.
    + case_bool_decide as Hdir; [subst d'|done].
      apply leaf_position_spec in Hi as (cs1&c&cs2&p&->&<-&Hc&Hp). intros _. exists p. split; [done|].
      cbn [fst]. unfold insert_sibling. rewrite list_lookup_middle by done.
      rewrite take_app_length, drop_app_ge, Nat.sub_succ_l, Nat.sub_diag by lia. cbn [drop]. rewrite drop_0.
      by apply abut_here.
    + intros Hd. pose proof (split_children_abut hit d new cs IH) as Hs.
      destruct (split_children hit d new cs) as [cs' done']. cbn [fst snd] in *.
      destruct (Hs Hd) as (p&?&?). exists p. split; [done|by apply abut_children].
Qed.

Lemma swap_abut a b d p q t :
  abut d p q t → abut d (transpose a b p) (transpose a b q) (swap_panes_unchecked a b t).
Proof.
  induction 1 as [cs1 c1 c2 cs2 drag size H1 H2|d' cs c drag size Hc _ IH]; cbn [swap_panes_unchecked].
  - rewrite fmap_app, !fmap_cons. apply abut_here; cbn [node]; by rewrite ?H1, ?H2.
  - eapply abut_within; [apply list_elem_of_fmap_2, Hc|exact IH].
Qed.

(** Where the edges of a pane are: a horizontal split has its children one below
    the other, a vertical one side by side. *)
Definition on_edge (edge : DropEdge) (target source : Pane) t : Prop :=
  match edge with
  | Up => abut Horizontal source target t
  | Down => abut Horizontal target source t
  | Left => abut Vertical source target t
  | Right => abut Vertical target source t
  end.

(** The two panes in the order the edge asks for. *)
Definition beside (edge : DropEdge) (target source : Pane) : list Pane :=
  match edge with Up | Left => [source; target] | Down | Right => [target; source] end.

Lemma split_pane_at_edge_spec t target edge new :
  wf t → target ∈ collect_leaves t → new ∉ collect_leaves t → NoDup (collect_leaves t) →
  ∃ t' l r, split_pane_at_edge t target edge new = (t', true) ∧ wf t' ∧
    collect_leaves t = l ++ target :: r ∧ collect_leaves t' = l ++ beside edge target new ++ r ∧
    on_edge edge target new t'.
Proof.
  intros Hwf Hin Hnew Hnd. unfold split_pane_at_edge, split_at_pane.
  destruct (to_split edge) as [d swap] eqn:Hedge.
  assert (beside edge target new = if swap then [new; target] else [target; new]) as ->
    by (by destruct edge; injection Hedge as <- <-).
  assert (∀ t', (if swap then abut d new target t' else abut d target new t') → on_edge edge target new t') as Hside
    by (by destruct edge; injection Hedge as <- <-).
  pose proof (split_where_abut (λ p, bool_decide (p = target)) d new t) as Habut.
  pose proof (split_where_spec (λ p, bool_decide (p = target)) d new t) as [Hwf' Hs].
  destruct (split_where _ d new t) as [t' []]; cbn [fst snd] in *.
  2: { destruct Hs as [_ Hs]. rewrite Forall_forall in Hs. specialize (Hs _ Hin).
       by rewrite bool_decide_eq_true_2 in Hs. }
  destruct (Habut eq_refl) as (?&->%bool_decide_eq_true&Hnext).
  destruct Hs as (l&p&r&Hl&->%bool_decide_eq_true&Hl').
  assert (new ≠ target) as Hne by (intros ->; done).
  assert (target ∉ l ∧ target ∉ r) as [Htl Htr].
  { rewrite Hl in Hnd. apply NoDup_app in Hnd as (_&Hd&[? _]%NoDup_cons).
    split; [|done]. intros Hx. apply (Hd _ Hx). by left. }
  assert (new ∉ l ∧ new ∉ r) as [Hnl Hnr].
  { rewrite Hl in Hnew. apply not_elem_of_app in Hnew as [? [_ ?]%not_elem_of_cons]. done. }
  destruct swap; [|exists t', l, r; split_and!; auto].
  unfold swap_panes. rewrite bool_decide_eq_false_2 by done.
  assert (contains_leaf t' target = true ∧ contains_leaf t' new = true) as [-> ->].
  { rewrite !contains_leaf_spec, Hl'. split; apply elem_of_app; right; [by left|by right; left]. }
  simpl. destruct (swap_unchecked_spec target new t') as [Hleaves Hw].
  exists (swap_panes_unchecked target new t'), l, r. split_and!; [done|auto|done| |].
  2: { apply Hside. pose proof (swap_abut target new d target new t' Hnext) as Hsw.
       by rewrite transpose_left, transpose_right in Hsw. }
  rewrite Hleaves, Hl', fmap_app, !fmap_cons, transpose_left, transpose_right.
  by rewrite !transpose_id.
Qed.

Lemma drop_pane_move_spec t source target edge :
  wf t → NoDup (collect_leaves t) → source ≠ target →
  source ∈ collect_leaves t → target ∈ collect_leaves t →
  ∃ t', drop_pane_move t source target (Some edge) = (t', true) ∧ wf t' ∧
    ∃ l r, filter (λ p, p ≠ source) (collect_leaves t) = l ++ target :: r ∧
           collect_leaves t' = l ++ beside edge target source ++ r ∧ on_edge edge target source t'.
Proof.
  intros Hwf Hnd Hne Hs Ht. unfold drop_pane_move.
  pose proof (remove_pane_spec source t Hwf) as [Hrm Hr].
  destruct (remove_pane source t) as [[t1|] was]; cbn [fst snd] in *.
  2: { rewrite Forall_forall in Hr. by rewrite (Hr _ Ht) in Hne. }
  destruct Hr as (Hwf1&Hl1&_). rewrite Hrm, bool_decide_eq_true_2 by done. simpl.
  assert (target ∈ collect_leaves t1) as Ht1.
  { rewrite Hl1. by apply list_elem_of_filter. }
  rewrite (proj2 (contains_leaf_spec t1 target) Ht1).
  destruct (split_pane_at_edge_spec t1 target edge source) as (t2&l&r&->&?&Hl&Hl2&Hedge); [done|done| | |].
  - rewrite Hl1, list_elem_of_filter. naive_solver.
  - rewrite Hl1. by apply NoDup_filter.
  - exists t2. split_and!; [done..|]. exists l, r. rewrite <- Hl1. by split_and!.
Qed.
End move.
