(* ===== verification/LayoutNavigation.v ===== *)
(** * The pane layout: rectangles, focus navigation and outer edges

    [navigation.rs], and the parts of [queries.rs] and [density.rs] that decide
    which sides of a pane are on the outer edge of the grid.  A move of the focus
    is proved to go to the nearest pane in the direction. *)

From S2P Require Import Prelude Float LayoutTree LayoutFacts LayoutMove.

#[local] Arguments leaves_of : simpl never.

Inductive FocusDirection := FocusLeft | FocusRight | FocusUp | FocusDown.
Inductive FocusNav := NotHere | FocusedHere | Moved.

Record Edges := mkEdges { top : bool; right : bool; bottom : bool; left : bool }.

Definition grid_edges (right_is_outer : bool) : Edges := mkEdges true right_is_outer true true.

Definition child_edges (parent : Edges) (direction : SplitDirection) (first last : bool) : Edges :=
  match direction with
  | Vertical =>
      mkEdges (top parent) (right parent && last) (bottom parent) (left parent && first)
  | Horizontal =>
      mkEdges (top parent && first) (right parent) (bottom parent && last) (left parent)
  end.

(** ** Density and card frames ([density.rs]) *)

Inductive CardFrame := Card | Flush (outer : Edges) | Morph (outer : Edges) (comfort : spec_float).

(** [PaneDensity::frame] of a density with the given comfort. *)
Definition density_frame (comfort : spec_float) (outer : Edges) : CardFrame :=
  if SFleb F32.one comfort then Card
  else if SFleb comfort f_zero then Flush outer
  else Morph outer comfort.

(** ** Scores *)

Section navigation.
Context {Pane : Type} `{EqDecision Pane}.
Implicit Types (t : LayoutTree Pane) (cs : list (LayoutChild Pane)).

Record LeafRect := mkRect {
  pane : Pane; rx : spec_float; ry : spec_float; rw : spec_float; rh : spec_float }.

Definition center_x (r : LeafRect) : spec_float :=
  F32.add (rx r) (F32.div (rw r) (F32.of_nat 2)).
Definition center_y (r : LeafRect) : spec_float :=
  F32.add (ry r) (F32.div (rh r) (F32.of_nat 2)).

Definition ratio_sum (children : list (LayoutChild Pane)) : spec_float :=
  F32.sum (filter (λ r, is_finite r && SFltb f_zero r = true) (ratio <$> children)).

Definition child_fraction (child : LayoutChild Pane) (sum fallback : spec_float) : spec_float :=
  if SFleb sum f_zero then fallback
  else if is_finite (ratio child) && SFltb f_zero (ratio child)
  then F32.div (ratio child) sum else f_zero.

(** [0.0001]. *)
Definition EPS : spec_float := F32.div F32.one (F32.of_nat 10000).

Definition focus_score (dir : FocusDirection) (current candidate : LeafRect)
  : option (spec_float * spec_float) :=
  let '(primary, cross) :=
    match dir with
    | FocusLeft => (F32.sub (center_x current) (center_x candidate),
                    F32.sub (center_y current) (center_y candidate))
    | FocusRight => (F32.sub (center_x candidate) (center_x current),
                     F32.sub (center_y current) (center_y candidate))
    | FocusUp => (F32.sub (center_y current) (center_y candidate),
                  F32.sub (center_x current) (center_x candidate))
    | FocusDown => (F32.sub (center_y candidate) (center_y current),
                    F32.sub (center_x current) (center_x candidate))
    end in
  if SFltb EPS primary then Some (primary, SFabs cross) else None.

Definition compare_focus_score (a b : spec_float * spec_float * nat) : comparison :=
  let '(a0, a1, a2) := a in
  let '(b0, b1, b2) := b in
  match F32.total_cmp a0 b0 with
  | Eq => match F32.total_cmp a1 b1 with Eq => Nat.compare a2 b2 | c => c end
  | c => c
  end.

Section focus.
Context (is_focused is_detached : Pane → bool).

Fixpoint collect_leaf_rects (t : LayoutTree Pane) (x y w h : spec_float) : list LeafRect :=
  if negb (has_docked_panes is_detached t) then []
  else
    match t with
    | Leaf p => [mkRect p x y w h]
    | Container direction children _ _ =>
        let children' := filter (λ c, has_docked_panes is_detached (node c) = true) children in
        let sum := ratio_sum children' in
        let fallback := F32.div F32.one (F32.of_nat (length children')) in
        (fix loop cs offset :=
           match cs with
           | [] => []
           | c :: cs =>
               if negb (has_docked_panes is_detached (node c)) then loop cs offset
               else
                 let fraction := child_fraction c sum fallback in
                 match direction with
                 | Horizontal =>
                     let child_h := F32.mul h fraction in
                     collect_leaf_rects (node c) x (F32.add y offset) w child_h ++
                     loop cs (F32.add offset child_h)
                 | Vertical =>
                     let child_w := F32.mul w fraction in
                     collect_leaf_rects (node c) (F32.add x offset) y child_w h ++
                     loop cs (F32.add offset child_w)
                 end
           end) children f_zero
    end.

(** The pane that receives the focus, if any. *)
Fixpoint focus_first (t : LayoutTree Pane) : option Pane :=
  match t with
  | Leaf p => if is_detached p then None else Some p
  | Container _ children _ _ =>
      (fix loop cs :=
         match cs with
         | [] => None
         | c :: cs =>
             if has_docked_panes is_detached (node c) then focus_first (node c) else loop cs
         end) children
  end.

(** One candidate of the loop of [focus_in_direction]. *)
Definition better (dir : FocusDirection) (current_idx : nat) (current : LeafRect)
    (best : option (nat * (spec_float * spec_float * nat))) (ic : nat * LeafRect)
  : option (nat * (spec_float * spec_float * nat)) :=
  let '(idx, candidate) := ic in
  if idx =? current_idx then best
  else
    match focus_score dir current candidate with
    | None => best
    | Some (primary, cross) =>
        let score := (primary, cross, idx) in
        match best with
        | Some (_, best_score) =>
            match compare_focus_score score best_score with
            | Lt => Some (idx, score)
            | _ => best
            end
        | None => Some (idx, score)
        end
    end.

Definition best_candidate (dir : FocusDirection) (current_idx : nat) (current : LeafRect)
    (leaves : list LeafRect) : option (nat * (spec_float * spec_float * nat)) :=
  foldl (better dir current_idx current) None (imap pair leaves).

(** The outcome, and the pane that receives the focus. *)
Definition focus_in_direction (t : LayoutTree Pane) (dir : FocusDirection)
  : FocusNav * option Pane :=
  let leaves := collect_leaf_rects t f_zero f_zero F32.one F32.one in
  match list_find (λ leaf, is_focused (pane leaf) = true) leaves with
  | None => (NotHere, None)
  | Some (current_idx, current) =>
      match best_candidate dir current_idx current leaves with
      | None => (FocusedHere, None)
      | Some (target_idx, _) => (Moved, pane <$> leaves !! target_idx)
      end
  end.

(** ** Outer edges ([queries.rs]) *)

Fixpoint docked_leaf_edges (t : LayoutTree Pane) (edges : Edges) : list (Pane * Edges) :=
  match t with
  | Leaf p => if is_detached p then [] else [(p, edges)]
  | Container direction children _ _ =>
      let last :=
        length (filter (λ c, has_docked_panes is_detached (node c) = true) children) - 1 in
      (fix loop cs index :=
         match cs with
         | [] => []
         | c :: cs =>
             if negb (has_docked_panes is_detached (node c)) then loop cs index
             else
               docked_leaf_edges (node c)
                 (child_edges edges direction (index =? 0) (index =? last)) ++
               loop cs (S index)
         end) children 0
  end.

(** [sync_card_frames]: the frames the panes receive and the frame of the
    split preview. *)
Definition sync_card_frames (t : LayoutTree Pane) (comfort : spec_float) (outer : Edges)
    (split_preview : option (Pane * SplitDirection)) : list (Pane * CardFrame) * CardFrame :=
  foldl (λ '(frames, preview_frame) '(p, edges),
    match split_preview with
    | Some (target, direction) =>
        if bool_decide (target = p) then
          (frames ++ [(p, density_frame comfort (child_edges edges direction true false))],
           density_frame comfort (child_edges edges direction false true))
        else (frames ++ [(p, density_frame comfort edges)], preview_frame)
    | None => (frames ++ [(p, density_frame comfort edges)], preview_frame)
    end) ([], density_frame comfort outer) (docked_leaf_edges t outer).
End focus.

(** ** Rectangles and edges are those of the docked panes *)

Section facts.
Context (is_focused is_detached : Pane → bool).

Lemma docked_container d cs drag size :
  docked is_detached (Container d cs drag size) =
  filter (λ p, is_detached p = false) (leaves_of cs).
Proof. done. Qed.

Lemma no_docked t : has_docked_panes is_detached t = false → docked is_detached t = [].
Proof.
  rewrite has_docked_spec. unfold docked. induction (collect_leaves t) as [|p ps IH]; [done|].
  simpl. destruct (is_detached p) eqn:Hp; simpl; [|done]. intros ?.
  rewrite filter_cons_False by congruence. auto.
Qed.

Lemma some_docked t : has_docked_panes is_detached t = true → docked is_detached t ≠ [].
Proof.
  rewrite has_docked_spec. unfold docked. intros (p&Hp&Hd)%existsb_exists Hnil.
  assert (p ∈ filter (λ p, is_detached p = false) (collect_leaves t)) as Hin.
  { apply list_elem_of_filter. split; [by apply negb_true_iff|by apply list_elem_of_In]. }
  rewrite Hnil in Hin. by apply not_elem_of_nil in Hin.
Qed.

Lemma leaf_rects_docked t x y w h :
  pane <$> collect_leaf_rects is_detached t x y w h = docked is_detached t.
Proof.
  revert x y w h. induction t as [p|d cs drag size IH] using LayoutTree_induction;
    intros x y w h.
  - simpl. unfold docked, has_docked_panes. simpl.
    destruct (is_detached p) eqn:Hp; simpl.
    + by rewrite filter_cons_False by congruence.
    + by rewrite filter_cons_True.
  - cbn [collect_leaf_rects].
    destruct (has_docked_panes is_detached (Container d cs drag size)) eqn:Hd; cbn [negb].
    2: { by rewrite (no_docked _ Hd). }
    rewrite docked_container. clear Hd.
    generalize (ratio_sum (filter (λ c, has_docked_panes is_detached (node c) = true) cs)) as sum.
    generalize (F32.div F32.one (F32.of_nat (length
      (filter (λ c, has_docked_panes is_detached (node c) = true) cs)))) as fallback.
    intros fallback sum. generalize f_zero as offset.
    induction IH as [|c cs Hc _ IH]; intros offset; [done|].
    rewrite leaves_of_cons, filter_app.
    change (filter (λ p, is_detached p = false) (collect_leaves (node c)))
      with (docked is_detached (node c)).
    destruct (has_docked_panes is_detached (node c)) eqn:Hdc; cbn [negb].
    + destruct d; rewrite fmap_app, Hc; f_equal; apply IH.
    + rewrite (no_docked _ Hdc). apply IH.
Qed.

Lemma leaf_edges_docked t edges :
  fst <$> docked_leaf_edges is_detached t edges = docked is_detached t.
Proof.
  revert edges. induction t as [p|d cs drag size IH] using LayoutTree_induction; intros edges.
  - simpl. unfold docked. simpl. destruct (is_detached p) eqn:Hp.
    + by rewrite filter_cons_False by congruence.
    + by rewrite filter_cons_True.
  - cbn [docked_leaf_edges]. rewrite docked_container.
    generalize (length (filter (λ c, has_docked_panes is_detached (node c) = true) cs) - 1) as l.
    intros l. generalize 0 at 2 as index.
    induction IH as [|c cs Hc _ IH]; intros index; [done|].
    rewrite leaves_of_cons, filter_app.
    change (filter (λ p, is_detached p = false) (collect_leaves (node c)))
      with (docked is_detached (node c)).
    destruct (has_docked_panes is_detached (node c)) eqn:Hdc; cbn [negb].
    + rewrite fmap_app, Hc. f_equal. apply IH.
    + rewrite (no_docked _ Hdc). apply IH.
Qed.

Lemma focus_first_spec t : focus_first is_detached t = head (docked is_detached t).
Proof.
  induction t as [p|d cs drag size IH] using LayoutTree_induction.
  - simpl. unfold docked. simpl. destruct (is_detached p) eqn:Hp.
    + by rewrite filter_cons_False by congruence.
    + by rewrite filter_cons_True.
  - cbn [focus_first]. rewrite docked_container.
    induction IH as [|c cs Hc _ IH]; [done|]. rewrite leaves_of_cons, filter_app.
    change (filter (λ p, is_detached p = false) (collect_leaves (node c)))
      with (docked is_detached (node c)).
    destruct (has_docked_panes is_detached (node c)) eqn:Hdc.
    + rewrite Hc. pose proof (some_docked _ Hdc). by destruct (docked is_detached (node c)).
    + rewrite (no_docked _ Hdc). apply IH.
Qed.

(** ** The best candidate *)

Definition score_lt (a b : spec_float * spec_float * nat) : Prop :=
  let '(a0, a1, a2) := a in
  let '(b0, b1, b2) := b in
  (F32.total_key a0 < F32.total_key b0 ∨
   F32.total_key a0 = F32.total_key b0 ∧
   (F32.total_key a1 < F32.total_key b1 ∨
    F32.total_key a1 = F32.total_key b1 ∧ Z.of_nat a2 < Z.of_nat b2))%Z.

Lemma compare_lt a b : compare_focus_score a b = Lt ↔ score_lt a b.
Proof.
  destruct a as [[a0 a1] a2], b as [[b0 b1] b2].
  unfold compare_focus_score, F32.total_cmp, score_lt.
  destruct (Z.compare_spec (F32.total_key a0) (F32.total_key b0)); [|naive_solver lia..].
  destruct (Z.compare_spec (F32.total_key a1) (F32.total_key b1)); [|naive_solver lia..].
  rewrite Nat.compare_lt_iff. lia.
Qed.

Lemma score_lt_trans_neg a b c : score_lt a b → ¬ score_lt c b → ¬ score_lt c a.
Proof.
  destruct a as [[a0 a1] a2], b as [[b0 b1] b2], c as [[c0 c1] c2]. simpl. lia.
Qed.

(** [i] is the candidate with the smallest score, ties to the first. *)
Definition nearest (dir : FocusDirection) (cur : nat) (current : LeafRect)
    (leaves : list LeafRect) (best : option (nat * (spec_float * spec_float * nat))) : Prop :=
  let score j s := j ≠ cur ∧ ∃ c p q, leaves !! j = Some c ∧
                     focus_score dir current c = Some (p, q) ∧ s = (p, q, j) in
  match best with
  | None => ∀ j s, ¬ score j s
  | Some (i, s) => score i s ∧ ∀ j s', score j s' → ¬ score_lt s' s
  end.

Lemma nearest_snoc dir cur current leaves c best :
  nearest dir cur current leaves best →
  nearest dir cur current (leaves ++ [c]) (better dir cur current best (length leaves, c)).
Proof.
  intros Hbest.
  assert (∀ j c', (leaves ++ [c]) !! j = Some c' →
    leaves !! j = Some c' ∨ j = length leaves ∧ c' = c) as Hsplit.
  { intros j c' [Hj|[Hj Hc]]%lookup_app_Some; [by left|right].
    apply list_lookup_singleton_Some in Hc as [? ->]. lia || (split; [lia|done]). }
  assert (∀ j c', leaves !! j = Some c' → (leaves ++ [c]) !! j = Some c') as Hold.
  { intros j c' Hj. by apply lookup_app_l_Some. }
  unfold better. destruct (Nat.eqb_spec (length leaves) cur) as [Hcur|Hcur].
  { destruct best as [[i s]|]; simpl in *.
    - destruct Hbest as [(?&c'&p&q&?&?&?) Hmin]. split; [split; [done|exists c', p, q; auto]|].
      intros j s' (Hj&c2&p2&q2&[?|[-> ->]]%Hsplit&?&?); [|lia]. apply (Hmin j). split; [done|].
      by exists c2, p2, q2.
    - intros j s (Hj&c2&p2&q2&[?|[-> ->]]%Hsplit&?&?); [|lia]. apply (Hbest j s).
      split; [done|]. by exists c2, p2, q2. }
  destruct (focus_score dir current c) as [[p q]|] eqn:Hsc.
  2: { destruct best as [[i s]|]; simpl in *.
    - destruct Hbest as [(?&c'&p&q&?&?&?) Hmin]. split; [split; [done|exists c', p, q; auto]|].
      intros j s' (Hj&c2&p2&q2&[?|[-> ->]]%Hsplit&?&?); [|congruence].
      apply (Hmin j). split; [done|]. by exists c2, p2, q2.
    - intros j s (Hj&c2&p2&q2&[?|[-> ->]]%Hsplit&?&?); [|congruence]. apply (Hbest j s).
      split; [done|]. by exists c2, p2, q2. }
  assert (length leaves ≠ cur ∧ ∃ c' p' q', (leaves ++ [c]) !! length leaves = Some c' ∧
    focus_score dir current c' = Some (p', q') ∧ (p, q, length leaves) = (p', q', length leaves))
    as Hnew.
  { split; [done|]. exists c, p, q. split_and!; [|done..]. by apply list_lookup_middle. }
  assert (¬ score_lt (p, q, length leaves) (p, q, length leaves)) as Hirr by (simpl; lia).
  destruct best as [[i s]|]; simpl in Hbest.
  2: { split; [done|]. intros j s' (Hj&c2&p2&q2&[?|[-> ->]]%Hsplit&?&?).
       - exfalso. apply (Hbest j s'). split; [done|]. by exists c2, p2, q2.
       - by simplify_eq. }
  destruct Hbest as [(Hi&c'&p'&q'&Hc'&?&Hs) Hmin].
  destruct (compare_focus_score (p, q, length leaves) s) eqn:Hcmp.
  2: { apply compare_lt in Hcmp. split; [done|].
       intros j s' (Hj&c2&p2&q2&[?|[-> ->]]%Hsplit&?&?); [|by simplify_eq].
       eapply score_lt_trans_neg; [exact Hcmp|]. apply (Hmin j). split; [done|].
       by exists c2, p2, q2. }
  all: split; [split; [done|exists c', p', q'; auto]|];
    intros j s' (Hj&c2&p2&q2&[?|[-> ->]]%Hsplit&?&?);
    [apply (Hmin j); split; [done|by exists c2, p2, q2]|];
    simplify_eq; rewrite <- compare_lt; congruence.
Qed.

Lemma best_candidate_spec dir cur current leaves :
  nearest dir cur current leaves (best_candidate dir cur current leaves).
Proof.
  unfold best_candidate. induction leaves as [|c leaves IH] using rev_ind.
  - simpl. intros j s (_&c&p&q&Hc&_). by rewrite lookup_nil in Hc.
  - rewrite imap_app, foldl_app. simpl. rewrite Nat.add_0_r. by apply nearest_snoc.
Qed.

(** ** Moving the focus *)

Lemma list_find_fmap_head {A B} (f : A → B) (P : B → bool) (l : list A) :
  head (filter (λ b, P b = true) (f <$> l)) =
  (f <$> (snd <$> list_find (λ a, P (f a) = true) l)).
Proof.
  induction l as [|a l IH]; [done|]. rewrite fmap_cons, filter_cons. simpl.
  destruct (decide (P (f a) = true)); simpl; [done|]. rewrite IH.
  by destruct (list_find _ l) as [[]|].
Qed.

Lemma focus_in_direction_spec t dir :
  let leaves := collect_leaf_rects is_detached t f_zero f_zero F32.one F32.one in
  match focus_in_direction is_focused is_detached t dir with
  | (NotHere, target) =>
      target = None ∧ Forall (λ p, is_focused p = false) (docked is_detached t)
  | (outcome, target) =>
      ∃ cur current, leaves !! cur = Some current ∧ is_focused (pane current) = true ∧
        focused_pane is_focused is_detached t = Some (pane current) ∧
        match outcome with
        | Moved => ∃ i s q, nearest dir cur current leaves (Some (i, s)) ∧
                     leaves !! i = Some q ∧ target = Some (pane q)
        | _ => nearest dir cur current leaves None ∧ target = None
        end
  end.
Proof.
  intros leaves. unfold focus_in_direction. fold leaves.
  rewrite focused_pane_spec.
  pose proof (leaf_rects_docked t f_zero f_zero F32.one F32.one) as Hdocked. fold leaves in Hdocked.
  rewrite <- Hdocked, list_find_fmap_head.
  destruct (list_find (λ leaf, is_focused (pane leaf) = true) leaves) as [[cur current]|] eqn:Hf.
  - apply list_find_Some in Hf as (Hcur & Hfoc & _).
    pose proof (best_candidate_spec dir cur current leaves) as Hn.
    destruct (best_candidate dir cur current leaves) as [[i s]|]; exists cur, current;
      split_and!; try done.
    destruct (proj1 Hn) as (_ & q & p1 & p2 & Hq & _). exists i, s, q. by rewrite Hq.
  - apply list_find_None in Hf. split; [done|]. rewrite Forall_fmap.
    eapply Forall_impl; [exact Hf|]. intros leaf Hl. by apply not_true_is_false.
Qed.
End facts.
End navigation.
