(* ===== verification/LayoutSchema.v ===== *)
(** * Saved layouts ([paneflow-config/schema/layout.rs], [layout/serde.rs], [templates.rs])

    [LayoutNode] is the saved form of a pane layout.  [validate_layout] bounds an
    untrusted one; [serialize_without_scrollback] and [from_layout_node] go
    between it and the pane tree. *)

From stdpp Require Import gmap strings.
From S2P Require Import Prelude Float LayoutTree.

Local Open Scope string_scope.
Local Open Scope list_scope.

Record AgentSessionRef := mkAgentSession {
  runtime : string; agent_id : string; agent_cwd : option string }.

Record SurfaceDefinition := mkSurface {
  surface_type : option string; name : option string; custom_name : option string;
  command : option string; prompt : option string; cwd : option string; path : option string;
  env : option (gmap string string); focus : option bool; scrollback : option string;
  agent : option string; font_size : option spec_float; session : option string;
  agent_session : option AgentSessionRef }.

Definition default_surface : SurfaceDefinition :=
  mkSurface (Some "terminal") None None None None None None None None None None None None None.

Definition set_focus (s : SurfaceDefinition) (f : option bool) : SurfaceDefinition :=
  mkSurface (surface_type s) (name s) (custom_name s) (command s) (prompt s) (cwd s) (path s)
    (env s) f (scrollback s) (agent s) (font_size s) (session s) (agent_session s).

Inductive LayoutNode :=
| NodePane (surfaces : list SurfaceDefinition)
| NodeSplit (direction : string) (ratio : option spec_float) (ratios : option (list spec_float))
    (children : list LayoutNode).

Definition MAX_LAYOUT_LEAVES : nat := 32.
Definition MAX_SPLIT_CHILDREN : nat := 32.
Definition MAX_PANE_SURFACES : nat := 64.

(** [0.01] and [0.1]: the quotients round to the literals. *)
Definition MIN_RATIO : spec_float := F64.div F64.one (F64.of_nat 100).
Definition MIN_LEGACY_RATIO : spec_float := F64.div F64.one (F64.of_nat 10).

(** [1e-9]. *)
Definition RATIO_TOLERANCE : spec_float := 
  F64.div F64.one (binary_normalize 53 1024 1000000000 0 false).

Fixpoint node_leaf_count (n : LayoutNode) : nat :=
  match n with
  | NodePane _ => 1
  | NodeSplit _ _ _ children => sum_list (node_leaf_count <$> children)
  end.

(** ** Ratios *)

Definition legacy_ratios (ratio : spec_float) : option (list spec_float) :=
  ratio ← (if is_finite ratio
           then clamp ratio MIN_LEGACY_RATIO (F64.sub F64.one MIN_LEGACY_RATIO)
           else Some (F64.div F64.one (F64.of_nat 2)));
  Some [ratio; F64.sub F64.one ratio].

Definition equal_ratios (n : nat) : list spec_float :=
  replicate n (F64.div F64.one (F64.of_nat n)).

Definition sanitize_ratios (ratios : list spec_float) (n : nat) : option (list spec_float) :=
  if negb (length ratios =? n)%nat then Some (equal_ratios n)
  else
    ratios ← mapM (λ r, if is_finite r then clamp r MIN_RATIO F64.one else Some MIN_RATIO) ratios;
    let sum := F64.sum ratios in
    let ratios :=
      if SFltb f_zero sum && SFltb RATIO_TOLERANCE (SFabs (F64.sub sum F64.one))
      then (λ r, F64.div r sum) <$> ratios else ratios in
    mapM (λ r, clamp r MIN_RATIO F64.one) ratios.

Definition resolved_ratios (n : LayoutNode) : option (list spec_float) :=
  match n with
  | NodePane _ => Some [F64.one]
  | NodeSplit _ ratio ratios children =>
      let n := Nat.max (length children) 1 in
      match ratios, ratio with
      | Some rs, _ => sanitize_ratios rs n
      | None, Some r =>
          if (length children =? 2)%nat then raw ← legacy_ratios r; sanitize_ratios raw n
          else Some (equal_ratios n)
      | None, None => Some (equal_ratios n)
      end
  end.

(** ** Validation of a saved layout *)

(** The surfaces of one pane: at most one keeps its focus flag. *)
Fixpoint drop_extra_focus (focus_seen : bool) (surfaces : list SurfaceDefinition)
  : list SurfaceDefinition :=
  match surfaces with
  | [] => []
  | s :: surfaces =>
      if bool_decide (focus s = Some true) then
        (if focus_seen then set_focus s None else s) :: drop_extra_focus true surfaces
      else s :: drop_extra_focus focus_seen surfaces
  end.

Definition sanitize_surfaces (surfaces : list SurfaceDefinition) : list SurfaceDefinition :=
  let surfaces := take MAX_PANE_SURFACES surfaces in
  drop_extra_focus false (match surfaces with [] => [default_surface] | _ => surfaces end).

(** What becomes of a split whose children are sanitized. *)
Definition sanitize_split (direction : string) (ratio : option spec_float)
    (ratios : option (list spec_float)) (kept : list LayoutNode) : option (option LayoutNode) :=
  match kept with
  | [] => Some None
  | [child] => Some (Some child)
  | _ =>
      let n := length kept in
      legacy ← (match ratio with
                | Some value => r ← legacy_ratios value; first ← r !! 0%nat; Some (Some first)
                | None => Some None
                end);
      normalized ← (match ratios with
                    | Some values => r ← sanitize_ratios values n; Some (Some r)
                    | None =>
                        if (n =? 2)%nat then
                          match legacy with
                          | Some l => r ← legacy_ratios l; Some (Some r)
                          | None => Some None
                          end
                        else Some None
                    end);
      Some (Some (NodeSplit direction (if (n =? 2)%nat then legacy else None) normalized kept))
  end.

(** The loop over the children of a split: [room] of them are looked at, and
    none once the budget is used up. *)
Section sanitize_children.
Context (sanitize : LayoutNode → nat → option (option LayoutNode * nat)).

Fixpoint sanitize_children (cs : list LayoutNode) (room : nat) (kept : list LayoutNode)
    (budget : nat) : option (list LayoutNode * nat) :=
  match cs, room with
  | c :: cs, S room =>
      if (budget =? 0)%nat then Some (kept, budget)
      else
        r ← sanitize c budget;
        let '(child, budget) := r in
        sanitize_children cs room
          (match child with Some c => kept ++ [c] | None => kept end) budget
  | _, _ => Some (kept, budget)
  end.
End sanitize_children.

(** [sanitize_layout_node]; the second result is the remaining leaf budget. *)
Fixpoint sanitize_layout_node (node : LayoutNode) (leaf_budget : nat)
  : option (option LayoutNode * nat) :=
  match node with
  | NodePane surfaces =>
      match leaf_budget with
      | O => Some (None, O)
      | S leaf_budget => Some (Some (NodePane (sanitize_surfaces surfaces)), leaf_budget)
      end
  | NodeSplit direction ratio ratios children =>
      let direction :=
        if bool_decide (direction = "horizontal") || bool_decide (direction = "vertical")
        then direction else "horizontal" in
      r ← sanitize_children sanitize_layout_node children MAX_SPLIT_CHILDREN [] leaf_budget;
      let '(kept, leaf_budget) := r in
      node ← sanitize_split direction ratio ratios kept;
      Some (node, leaf_budget)
  end.

Definition default_layout_pane : LayoutNode := NodePane [default_surface].

Definition validate_layout (node : LayoutNode) : option LayoutNode :=
  r ← sanitize_layout_node node MAX_LAYOUT_LEAVES;
  Some (default default_layout_pane (fst r)).

(** ** Templates ([templates.rs]) *)

Definition split (direction : string) (children : list LayoutNode)
    (ratios : option (list spec_float)) : LayoutNode :=
  NodeSplit direction None ratios children.

(** [leaves.remove(0)] panics on an empty vector. *)
Definition remove_first {A} (l : list A) : option (A * list A) :=
  match l with [] => None | x :: l => Some (x, l) end.

Definition main_vertical_layout (leaves : list LayoutNode) : option LayoutNode :=
  r ← remove_first leaves;
  let '(main, leaves) := r in
  side ← (if (length leaves =? 1)%nat then r ← remove_first leaves; Some (fst r)
          else Some (split "horizontal" leaves None));
  let half := F64.div F64.one (F64.of_nat 2) in
  Some (split "vertical" [main; side] (Some [half; half])).

Definition template_row (n rows cols row_idx : nat) (st : list LayoutNode * list LayoutNode)
  : option (list LayoutNode * list LayoutNode) :=
  let '(leaf_iter, row_nodes) := st in
  panes_in_row ← (if (row_idx <? rows - 1)%nat then Some cols
                  else checked_sub n (cols * (rows - 1)));
  let row_leaves := take panes_in_row leaf_iter in
  row_node ← (if (length row_leaves =? 1)%nat then r ← remove_first row_leaves; Some (fst r)
              else Some (split "vertical" row_leaves None));
  Some (drop panes_in_row leaf_iter, row_nodes ++ [row_node]).

Definition tiled_layout (leaves : list LayoutNode) : option LayoutNode :=
  if (length leaves <=? 2)%nat then Some (split "vertical" leaves None)
  else
    let n := length leaves in
    dims ← grid (n + n) n 1 1;
    let '(rows, cols) := dims in
    let row_ratio := F64.div F64.one (F64.of_nat rows) in
    st ← for_each (seq 0 rows) (template_row n rows cols) (leaves, []);
    Some (split "horizontal" (snd st) (Some (replicate rows row_ratio))).

Definition build_layout_from_surfaces (preset : string) (surfaces : list SurfaceDefinition)
  : option (option LayoutNode) :=
  let leaves := (λ surface, NodePane [surface]) <$> surfaces in
  match leaves with
  | [] => Some None
  | [leaf] => Some (Some leaf)
  | _ =>
      if bool_decide (preset = "even_v") then Some (Some (split "horizontal" leaves None))
      else if bool_decide (preset = "main_vertical") then
        n ← main_vertical_layout leaves; Some (Some n)
      else if bool_decide (preset = "tiled") then n ← tiled_layout leaves; Some (Some n)
      else Some (Some (split "vertical" leaves None))
  end.

(** ** Saving and restoring the pane tree ([serde.rs]) *)

(** What [serialize_without_scrollback] reads of a terminal. *)
Record TerminalState := mkTerminalState {
  title : string; t_custom_name : option string; current_cwd : option string;
  cwd_now : option string; detected_agent : option string; font_size_override : option spec_float;
  session_id : string; t_agent_session : option AgentSessionRef }.

Inductive PaneSurface := Terminal (t : TerminalState) | Markdown (path : string).

Definition serialize_surface (active index : nat) (s : PaneSurface) : SurfaceDefinition :=
  match s with
  | Terminal t =>
      mkSurface (Some "terminal") (if bool_decide (title t = "") then None else Some (title t))
        (t_custom_name t) None None
        (match current_cwd t with Some c => Some c | None => cwd_now t end) None None
        (Some (index =? active)%nat) None (detected_agent t) (font_size_override t)
        (Some (session_id t)) (t_agent_session t)
  | Markdown p =>
      mkSurface (Some "markdown") None None None None None (Some p) None
        (Some (index =? active)%nat) None None None None None
  end.

Section serde.
Context {Pane : Type} (surfaces_of : Pane → list PaneSurface) (active_idx : Pane → nat).

Fixpoint serialize_without_scrollback (t : LayoutTree Pane) : LayoutNode :=
  match t with
  | Leaf p => NodePane (imap (serialize_surface (active_idx p)) (surfaces_of p))
  | Container direction children _ _ =>
      NodeSplit (match direction with Horizontal => "horizontal" | Vertical => "vertical" end)
        None (Some ((λ c, F64.convert (ratio c)) <$> children))
        ((λ c, serialize_without_scrollback (node c)) <$> children)
  end.

Section from_node.
Context {St : Type} (spawn : LayoutNode → St → Pane * St).

(** The [map] over the children of a split. *)
Section restore_children.
Context (from : LayoutNode → list Pane → St → option (LayoutTree Pane * list Pane * St)).
Context (count : nat) (resolved : list spec_float).

Fixpoint restore_children (i : nat) (cs : list LayoutNode) (panes : list Pane) (st : St)
  : option (list (LayoutChild Pane) * list Pane * St) :=
  match cs with
  | [] => Some ([], panes, st)
  | c :: cs =>
      let ratio := default (F64.div F64.one (F64.of_nat count)) (resolved !! i) in
      r ← from c panes st;
      let '(t, panes, st) := r in
      r ← restore_children (S i) cs panes st;
      let '(ts, panes, st) := r in
      Some (mkChild t (F32.convert ratio) :: ts, panes, st)
  end.
End restore_children.

(** [panes] is the deque, [st] the variables the closure [spawn] captures. *)
Fixpoint from_layout_node (n : LayoutNode) (panes : list Pane) (st : St)
  : option (LayoutTree Pane * list Pane * St) :=
  match n with
  | NodePane _ =>
      Some (match panes with
            | p :: panes => (Leaf p, panes, st)
            | [] => let '(p, st) := spawn n st in (Leaf p, [], st)
            end)
  | NodeSplit direction _ _ children =>
      let dir := if bool_decide (direction = "vertical") then Vertical else Horizontal in
      resolved ← resolved_ratios n;
      r ← restore_children from_layout_node (length children) resolved 0 children panes st;
      let '(trees, panes, st) := r in
      Some (Container dir trees None f_zero, panes, st)
  end.
End from_node.
End serde.
