(* ===== verification/LayoutSchemaFacts.v ===== *)
(** * Saved layouts: bounds and round trips *)

From stdpp Require Import gmap strings.
From S2P Require Import Prelude Float LayoutTree LayoutFacts LayoutMove LayoutSchema.

#[local] Arguments leaves_of : simpl never.

Section induction.
Context (P : LayoutNode → Prop) (HPane : ∀ s, P (NodePane s)).
Context (HSplit : ∀ d r rs cs, Forall P cs → P (NodeSplit d r rs cs)).

Fixpoint LayoutNode_induction (n : LayoutNode) : P n :=
  match n with
  | NodePane s => HPane s
  | NodeSplit d r rs cs =>
      HSplit d r rs cs
        ((fix go cs : Forall P cs :=
            match cs with
            | [] => Forall_nil_2 _
            | c :: cs => Forall_cons_2 _ c cs (LayoutNode_induction c) (go cs)
            end) cs)
  end.
End induction.

(** ** Ratios *)

Lemma clamp_runs x lo hi : SFleb lo hi = true → runs (clamp x lo hi) (λ _, True).
Proof. intros Hle. unfold clamp. by rewrite Hle. Qed.

Definition ratio_ok (r : spec_float) : Prop :=
  SFleb MIN_RATIO r = true ∧ SFleb r F64.one = true.

Lemma ratio_bounds_ok : SFleb MIN_RATIO F64.one = true.
Proof. by vm_compute. Qed.

Lemma ratio_ok_positive r : ratio_ok r → ∃ m e, r = S754_finite false m e.
Proof.
  assert (∃ m e, MIN_RATIO = S754_finite false m e) as (m0&e0&Hmin)
    by (eexists _, _; vm_compute; reflexivity).
  assert (∃ m e, F64.one = S754_finite false m e) as (m1&e1&Hone)
    by (eexists _, _; vm_compute; reflexivity).
  unfold ratio_ok. rewrite Hmin, Hone. intros [Hlo Hhi].
  destruct r as [s|[]| |[] m e]; try done. by exists m, e.
Qed.

Lemma sanitize_ratios_spec rs n :
  runs (sanitize_ratios rs n) (λ rs', length rs' = n ∧ (length rs = n → Forall ratio_ok rs')).
Proof.
  unfold sanitize_ratios. destruct (Nat.eqb_spec (length rs) n) as [Hn|Hn]; cbn [negb].
  2: { simpl. unfold equal_ratios. rewrite length_replicate. split; [done|]. intros ?; by destruct Hn. }
  eapply runs_bind.
  { apply (runs_mapM _ _ ratio_ok). intros r _. destruct (is_finite r) eqn:Hr.
    - apply clamp_spec; [by destruct r|apply ratio_bounds_ok].
    - by split; vm_compute. }
  intros rs1 [Hlen1 Hok1]. cbn beta.
  set (cond := _ && _). eapply runs_mono; [apply (runs_mapM _ _ ratio_ok)|].
  - intros r Hr. apply clamp_spec; [|apply ratio_bounds_ok].
    assert (∀ x, x ∈ rs1 → ∃ m e, x = S754_finite false m e) as Hpos.
    { intros x Hx. apply ratio_ok_positive. rewrite Forall_forall in Hok1. by apply Hok1. }
    destruct cond eqn:Hcond.
    + apply list_elem_of_fmap in Hr as (x&->&Hx). destruct (Hpos x Hx) as (m&e&->).
      assert (positive_number (F64.sum rs1) = true) as Hsum.
      { apply andb_prop in Hcond as [Hc _]. by destruct (F64.sum rs1) as [[]|[]| |[] ? ?]. }
      pose proof (div_non_negative 53 1024 m e _ Hsum) as Hd. unfold F64.div.
      by destruct (SFdiv _ _ _ _) as [[]|[]| |[] ? ?].
    + by destruct (Hpos r Hr) as (m&e&->).
  - intros rs2 [Hlen2 Hok2]. split; [|done]. rewrite Hlen2.
    destruct cond; [rewrite length_fmap|]; lia.
Qed.

Lemma legacy_ratios_spec r : runs (legacy_ratios r) (λ rs, length rs = 2).
Proof.
  unfold legacy_ratios. eapply (runs_bind _ _ (λ _, True)); [|done].
  destruct (is_finite r); [|done]. apply clamp_runs. by vm_compute.
Qed.

Lemma resolved_ratios_spec n : runs (resolved_ratios n) (λ _, True).
Proof.
  destruct n as [s|d r rs cs]; [done|]. unfold resolved_ratios.
  destruct rs as [rs|]; [eapply runs_mono; [apply sanitize_ratios_spec|done]|].
  destruct r as [r|]; [|done]. destruct (length cs =? 2)%nat; [|done].
  eapply runs_bind; [apply legacy_ratios_spec|]. intros raw _.
  eapply runs_mono; [apply sanitize_ratios_spec|done].
Qed.

(** ** Surfaces *)

Definition focused_surfaces (ss : list SurfaceDefinition) : list SurfaceDefinition :=
  filter (λ s, focus s = Some true) ss.

Lemma drop_extra_focus_spec seen ss :
  length (drop_extra_focus seen ss) = length ss ∧
  length (focused_surfaces (drop_extra_focus seen ss)) ≤ (if seen then 0 else 1).
Proof.
  revert seen. induction ss as [|s ss IH]; intros seen; [destruct seen; simpl; lia|].
  simpl. unfold focused_surfaces in *. case_bool_decide as Hf.
  - destruct (IH true) as [Hlen Hle]. destruct seen; simpl.
    + rewrite filter_cons_False by done. lia.
    + rewrite filter_cons_True by done. simpl. lia.
  - destruct (IH seen) as [Hlen Hle]. simpl. rewrite filter_cons_False by done. lia.
Qed.

Lemma drop_extra_focus_id ss :
  (∀ seen, length (focused_surfaces ss) ≤ (if seen : bool then 0 else 1) → drop_extra_focus seen ss = ss).
Proof.
  induction ss as [|s ss IH]; intros seen Hle; [done|]. simpl. unfold focused_surfaces in *.
  case_bool_decide as Hf.
  - rewrite filter_cons_True in Hle by done. simpl in Hle. destruct seen; [lia|].
    rewrite IH; [done|]. simpl. lia.
  - rewrite filter_cons_False in Hle by done. by rewrite IH.
Qed.

Definition surfaces_ok (ss : list SurfaceDefinition) : Prop :=
  1 ≤ length ss ≤ MAX_PANE_SURFACES ∧ length (focused_surfaces ss) ≤ 1.

Lemma sanitize_surfaces_ok ss : surfaces_ok (sanitize_surfaces ss).
Proof.
  unfold surfaces_ok, sanitize_surfaces. set (ss' := match _ with [] => _ | _ => _ end).
  destruct (drop_extra_focus_spec false ss') as [-> ?]. split; [|done].
  assert (length (take MAX_PANE_SURFACES ss) ≤ MAX_PANE_SURFACES) by (rewrite length_take; lia).
  unfold ss'. destruct (take MAX_PANE_SURFACES ss); simpl in *; unfold MAX_PANE_SURFACES in *; lia.
Qed.

Lemma sanitize_surfaces_id ss : surfaces_ok ss → sanitize_surfaces ss = ss.
Proof.
  intros [Hlen Hf]. unfold sanitize_surfaces. rewrite take_ge by lia.
  destruct ss; [simpl in Hlen; lia|]. by apply (drop_extra_focus_id _ false).
Qed.

(** ** Validation *)

Definition direction_ok (d : string) : Prop := d = "horizontal"%string ∨ d = "vertical"%string.

(** The bounds of a valid saved layout. *)
Fixpoint layout_ok (n : LayoutNode) : Prop :=
  match n with
  | NodePane ss => surfaces_ok ss
  | NodeSplit d _ rs cs =>
      2 ≤ length cs ≤ MAX_SPLIT_CHILDREN ∧ direction_ok d ∧
      (∀ rs', rs = Some rs' → length rs' = length cs) ∧
      Forall id (layout_ok <$> cs)
  end.

Lemma sanitize_split_big d ratio ratios kept :
  2 ≤ length kept →
  runs (sanitize_split d ratio ratios kept) (λ o, ∃ r rs, o = Some (NodeSplit d r rs kept) ∧
    ∀ rs', rs = Some rs' → length rs' = length kept).
Proof.
  intros Hlen. unfold sanitize_split. destruct kept as [|c [|c' cs]]; [simpl in Hlen; lia..|].
  set (kept := c :: c' :: cs) in *. set (n := length kept).
  eapply (runs_bind _ _ (λ _, True)).
  { destruct ratio as [v|]; [|done]. eapply runs_bind; [apply legacy_ratios_spec|].
    intros r Hr. by destruct r. }
  intros legacy _. eapply (runs_bind _ _ (λ o, ∀ rs, o = Some rs → length rs = n)).
  { destruct ratios as [v|].
    - eapply runs_bind; [apply sanitize_ratios_spec|]. intros r [Hr _]. simpl. by intros ? [= <-].
    - destruct (Nat.eqb_spec n 2) as [Hn|]; [|done]. destruct legacy as [l|]; [|done].
      eapply runs_bind; [apply legacy_ratios_spec|]. intros r Hr. simpl in *. intros ? [= <-]. lia. }
  intros normalized Hnorm. simpl. by eexists _, _.
Qed.

Lemma sanitize_split_spec d ratio ratios kept :
  direction_ok d → length kept ≤ MAX_SPLIT_CHILDREN → Forall layout_ok kept →
  runs (sanitize_split d ratio ratios kept) (λ o,
    match o with
    | None => kept = []
    | Some n => layout_ok n ∧ node_leaf_count n = sum_list (node_leaf_count <$> kept) ∧ kept ≠ []
    end).
Proof.
  intros Hd Hlen Hok. destruct (decide (2 ≤ length kept)) as [Hbig|Hsmall].
  - eapply runs_mono; [by apply sanitize_split_big|]. intros o (r&rs&->&Hrs).
    cbn [layout_ok]. rewrite Forall_fmap. split_and!; try done. intros ->. simpl in Hbig. lia.
  - destruct kept as [|c [|c' cs]]; [done| |simpl in Hsmall; lia].
    apply Forall_cons in Hok as [? _]. simpl. split_and!; [done|lia|done].
Qed.

Definition sanitized (budget : nat) (r : option LayoutNode * nat) : Prop :=
  match fst r with
  | None => snd r = budget
  | Some n => layout_ok n ∧ 1 ≤ node_leaf_count n ∧ node_leaf_count n + snd r = budget
  end.

Lemma sum_leaf_app ns ms :
  sum_list (node_leaf_count <$> ns ++ ms) =
  sum_list (node_leaf_count <$> ns) + sum_list (node_leaf_count <$> ms).
Proof. induction ns as [|n ns IH]; csimpl; [done|]. rewrite IH. lia. Qed.

Lemma sanitize_children_spec cs :
  Forall (λ c, ∀ b, runs (sanitize_layout_node c b) (sanitized b)) cs →
  ∀ room kept budget, Forall layout_ok kept →
  runs (sanitize_children sanitize_layout_node cs room kept budget) (λ r,
    Forall layout_ok (fst r) ∧ length (fst r) ≤ length kept + room ∧
    sum_list (node_leaf_count <$> fst r) + snd r =
      sum_list (node_leaf_count <$> kept) + budget ∧
    ∃ more, fst r = kept ++ more ∧ Forall (λ n, 1 ≤ node_leaf_count n) more).
Proof.
  induction 1 as [|c cs Hc _ IH]; intros room kept budget Hk.
  { destruct room; simpl; (split_and!; [done|lia|done|]; exists []; by rewrite app_nil_r). }
  assert (∀ b : nat, Forall layout_ok kept ∧ length kept ≤ length kept + room ∧
    sum_list (node_leaf_count <$> kept) + b = sum_list (node_leaf_count <$> kept) + b ∧
    ∃ more, kept = kept ++ more ∧ Forall (λ n, 1 ≤ node_leaf_count n) more) as Hstop.
  { intros b. split_and!; [done|lia|done|]. exists []. by rewrite app_nil_r. }
  destruct room as [|room]; [by apply Hstop|]. cbn [sanitize_children].
  destruct (budget =? 0)%nat; [by apply Hstop|].
  eapply runs_bind; [apply Hc|]. intros [[n|] b'] Hs; unfold sanitized in Hs; simpl in Hs.
  - destruct Hs as (?&?&?).
    eapply runs_mono; [apply IH; apply Forall_app; by split; [|by apply Forall_cons]|].
    intros r (?&Hl&Hsum&more&Hm&?). rewrite length_app in Hl. rewrite sum_leaf_app in Hsum. simpl in *.
    split_and!; [done|lia|lia|]. exists (n :: more). rewrite Hm, <- app_assoc. split; [done|].
    by constructor.
  - subst b'. eapply runs_mono; [by apply IH|]. intros r (?&?&?&?). split_and!; [done|lia|done|done].
Qed.

Lemma sanitize_layout_node_spec n b : runs (sanitize_layout_node n b) (sanitized b).
Proof.
  revert b. induction n as [ss|d r rs cs IH] using LayoutNode_induction; intros b.
  - destruct b as [|b]; simpl; [done|]. unfold sanitized. simpl.
    split_and!; [apply sanitize_surfaces_ok|lia|lia].
  - cbn [sanitize_layout_node].
    eapply runs_bind; [exact (sanitize_children_spec cs IH MAX_SPLIT_CHILDREN [] b (Forall_nil_2 _))|].
    intros [kept b'] (Hok&Hlen&Hsum&more&Hm&Hpos). simpl in *. subst more.
    eapply runs_bind; [apply sanitize_split_spec; [|done|done]|].
    + unfold direction_ok. do 2 (case_bool_decide; [by auto|]). by left.
    + intros [n|]; unfold sanitized; simpl.
      * intros (?&Hcount&Hne). split_and!; [done| |lia]. rewrite Hcount.
        destruct kept as [|k kept]; [done|]. apply Forall_cons in Hpos as [? _]. simpl. lia.
      * intros ->. simpl in *. lia.
Qed.

(** A layout within the bounds keeps its panes and its structure. *)
Fixpoint skeleton (n : LayoutNode) : LayoutNode :=
  match n with
  | NodePane ss => NodePane ss
  | NodeSplit d _ _ cs => NodeSplit d None None (skeleton <$> cs)
  end.

Lemma layout_ok_leaves n : layout_ok n → 1 ≤ node_leaf_count n.
Proof.
  induction n as [ss|d r rs cs IH] using LayoutNode_induction; cbn [layout_ok node_leaf_count]; [lia|].
  rewrite Forall_fmap. intros (Hlen&_&_&Hok). destruct cs as [|c cs]; [simpl in Hlen; lia|].
  apply Forall_cons in IH as [IH _], Hok as [Hok _]. csimpl. specialize (IH Hok). lia.
Qed.

Lemma sanitize_children_keeps (R : LayoutNode → LayoutNode → Prop) cs room kept b :
  Forall (λ c, ∀ b, node_leaf_count c ≤ b → runs (sanitize_layout_node c b) (λ r,
    ∃ c', r = (Some c', b - node_leaf_count c) ∧ R c c')) cs →
  Forall layout_ok cs → length cs ≤ room → sum_list (node_leaf_count <$> cs) ≤ b →
  runs (sanitize_children sanitize_layout_node cs room kept b) (λ r,
    ∃ cs', r = (kept ++ cs', b - sum_list (node_leaf_count <$> cs)) ∧ Forall2 R cs cs').
Proof.
  intros Hcs. revert room kept b. induction Hcs as [|c cs Hc _ IH]; intros room kept b Hok Hlen Hle.
  - assert (sanitize_children sanitize_layout_node [] room kept b = Some (kept, b)) as ->
      by by destruct room.
    exists []. simpl. by rewrite app_nil_r, Nat.sub_0_r.
  - destruct room as [|room]; [simpl in Hlen; lia|].
    apply Forall_cons in Hok as [Hokc Hok]. pose proof (layout_ok_leaves c Hokc).
    csimpl in Hle. cbn [sanitize_children]. destruct (Nat.eqb_spec b 0); [lia|].
    eapply runs_bind; [apply Hc; lia|]. intros r (c'&->&Hsk).
    eapply runs_mono; [apply IH; [done|simpl in Hlen; lia|lia]|].
    intros r (cs'&->&Hsks). exists (c' :: cs'). csimpl. rewrite <- app_assoc.
    split; [|by constructor]. f_equal. lia.
Qed.

Lemma direction_kept d : direction_ok d →
  (if bool_decide (d = "horizontal"%string) || bool_decide (d = "vertical"%string) then d else "horizontal"%string) = d.
Proof. by intros [-> | ->]. Qed.

Lemma sanitize_layout_node_keeps n b :
  layout_ok n → node_leaf_count n ≤ b →
  runs (sanitize_layout_node n b) (λ r,
    ∃ n', r = (Some n', b - node_leaf_count n) ∧ skeleton n' = skeleton n).
Proof.
  revert b. induction n as [ss|d r rs cs IH] using LayoutNode_induction; intros b.
  - cbn [layout_ok node_leaf_count]. intros Hok Hb. destruct b as [|b]; [lia|]. simpl.
    rewrite sanitize_surfaces_id by done. eexists. split; [by rewrite Nat.sub_0_r|done].
  - cbn [layout_ok]. rewrite Forall_fmap. intros (Hlen&Hd&_&Hok) Hb. cbn [sanitize_layout_node].
    rewrite direction_kept by done. eapply runs_bind.
    + apply (sanitize_children_keeps (λ c c', skeleton c' = skeleton c)); [|done|lia|exact Hb].
      apply Forall_forall. intros c Hc b' Hb'. rewrite Forall_forall in IH, Hok.
      by apply IH; [|apply Hok|].
    + intros r' (cs'&->&Hall). simpl app.
      assert (skeleton <$> cs' = skeleton <$> cs) as Hsk by (clear -Hall; induction Hall; [done|]; rewrite !fmap_cons; congruence).
      assert (length cs' = length cs) as Hlen' by (by rewrite <- (length_fmap skeleton), Hsk, length_fmap).
      eapply runs_bind; [apply sanitize_split_big; lia|].
      intros o (r'&rs'&->&_). simpl. eexists. split; [done|]. simpl. by rewrite Hsk.
Qed.

(** A saved layout and what validation makes of it: in every split the ratios are
    normalized, and all else is the same. *)
Inductive normalizes : LayoutNode → LayoutNode → Prop :=
  | normalizes_pane ss : normalizes (NodePane ss) (NodePane ss)
  | normalizes_split d rs rs' cs cs' :
      length rs = length cs → sanitize_ratios rs (length cs) = Some rs' → Forall2 normalizes cs cs' →
      normalizes (NodeSplit d None (Some rs) cs) (NodeSplit d None (Some rs') cs').

(** The form in which trees are saved: a ratio for every child. *)
Fixpoint with_ratios (n : LayoutNode) : Prop :=
  match n with
  | NodePane _ => True
  | NodeSplit _ ratio ratios cs =>
      ratio = None ∧ (∃ rs, ratios = Some rs ∧ length rs = length cs) ∧ Forall id (with_ratios <$> cs)
  end.

Lemma sanitize_layout_node_normalizes n b :
  layout_ok n → with_ratios n → node_leaf_count n ≤ b →
  runs (sanitize_layout_node n b) (λ r, ∃ n', r = (Some n', b - node_leaf_count n) ∧ normalizes n n').
Proof.
  revert b. induction n as [ss|d r rs cs IH] using LayoutNode_induction; intros b.
  - cbn [layout_ok node_leaf_count]. intros Hok _ Hb. destruct b as [|b]; [lia|]. simpl.
    rewrite sanitize_surfaces_id by done. eexists. split; [by rewrite Nat.sub_0_r|constructor].
  - cbn [layout_ok with_ratios]. rewrite !Forall_fmap. intros (Hlen&Hd&_&Hok) (->&(rs'&->&Hrs)&Hform) Hb.
    cbn [sanitize_layout_node]. rewrite direction_kept by done. eapply runs_bind.
    { apply (sanitize_children_keeps normalizes); [|done|lia|exact Hb].
      apply Forall_forall. intros c Hc b' Hb'. rewrite Forall_forall in IH, Hok, Hform.
      by apply IH; [|apply Hok|apply Hform|]. }
    intros r' (cs'&->&Hall). simpl app. pose proof (Forall2_length _ _ _ Hall) as Hlen'.
    unfold sanitize_split. destruct cs' as [|c [|c' cs']]; [simpl in Hlen'; lia..|].
    set (kept := c :: c' :: cs') in *. cbn [mbind option_bind]. rewrite <- Hlen'.
    pose proof (sanitize_ratios_spec rs' (length cs)) as Hs.
    destruct (sanitize_ratios rs' (length cs)) as [rs1|] eqn:Hrs1; [|done]. cbn [mbind option_bind runs].
    eexists. split; [done|]. replace (if length cs =? 2 then None else None) with (@None spec_float) by by case_match.
    by constructor.
Qed.

Lemma validate_layout_normalizes n :
  layout_ok n → with_ratios n → node_leaf_count n ≤ MAX_LAYOUT_LEAVES →
  runs (validate_layout n) (normalizes n).
Proof.
  intros Hok Hform Hle. unfold validate_layout.
  eapply runs_bind; [by apply sanitize_layout_node_normalizes|]. intros r (n'&->&Hn). exact Hn.
Qed.

Lemma validate_layout_spec n :
  runs (validate_layout n) (λ n',
    layout_ok n' ∧ 1 ≤ node_leaf_count n' ≤ MAX_LAYOUT_LEAVES ∧
    (layout_ok n → node_leaf_count n ≤ MAX_LAYOUT_LEAVES → skeleton n' = skeleton n)).
Proof.
  unfold validate_layout. eapply (runs_bind _ _ (λ r, sanitized MAX_LAYOUT_LEAVES r ∧
    (layout_ok n → node_leaf_count n ≤ MAX_LAYOUT_LEAVES →
       ∃ n', fst r = Some n' ∧ skeleton n' = skeleton n))).
  - apply runs_conj; [apply sanitize_layout_node_spec|].
    pose proof (sanitize_layout_node_spec n MAX_LAYOUT_LEAVES) as Hr.
    pose proof (sanitize_layout_node_keeps n MAX_LAYOUT_LEAVES) as Hk.
    destruct (sanitize_layout_node n MAX_LAYOUT_LEAVES) as [r|]; [|done]. simpl in *.
    intros Hok Hle. destruct (Hk Hok Hle) as (n'&->&?). by exists n'.
  - intros [[n'|] b] [Hs Hk]; unfold sanitized in Hs; simpl in *.
    + destruct Hs as (?&?&?). split_and!; [done|lia|lia|]. intros Hok Hle.
      destruct (Hk Hok Hle) as (?&[= <-]&?). done.
    + split_and!; [|unfold MAX_LAYOUT_LEAVES; lia..|].
      * unfold surfaces_ok, MAX_PANE_SURFACES. split; [simpl; lia|by vm_compute; lia].
      * intros Hok Hle. by destruct (Hk Hok Hle) as (?&?&?).
Qed.

(** ** Saving and restoring *)

Section serde.
Context {Pane : Type} `{EqDecision Pane}.
Context (surfaces_of : Pane → list PaneSurface) (active_idx : Pane → nat).
Let serialize := serialize_without_scrollback surfaces_of active_idx.

(** A pane tree without its ratios, sizes and drag states. *)
Fixpoint shape (t : LayoutTree Pane) : LayoutTree Pane :=
  match t with
  | Leaf p => Leaf p
  | Container d cs _ _ => Container d ((λ c, mkChild (shape (node c)) f_zero) <$> cs) None f_zero
  end.

Lemma serialize_leaf_count t : node_leaf_count (serialize t) = leaf_count t.
Proof.
  induction t as [p|d cs drag size IH] using LayoutTree_induction; [done|].
  unfold serialize. cbn [serialize_without_scrollback node_leaf_count leaf_count].
  rewrite <- list_fmap_compose. induction IH as [|c cs Hc _ IH]; [done|].
  rewrite !fmap_cons. cbn [sum_list foldr]. unfold sum_list in IH.
  simpl. unfold serialize in Hc. rewrite Hc. f_equal. exact IH.
Qed.

(** At most one surface of a pane is active. *)
Lemma serialized_surfaces_focus ss active k :
  length (focused_surfaces (imap (λ i, serialize_surface active (k + i)) ss)) ≤
    (if k <=? active then 1 else 0).
Proof.
  revert k. induction ss as [|s ss IH]; intros k; [simpl; destruct (k <=? active); lia|].
  rewrite imap_cons. unfold focused_surfaces in *. rewrite Nat.add_0_r.
  rewrite (imap_ext _ (λ i, serialize_surface active (S k + i)))
    by (intros i x _; simpl; f_equal; lia).
  specialize (IH (S k)). rewrite filter_cons.
  assert (focus (serialize_surface active k s) = Some (k =? active)) as ->
    by (by destruct s).
  destruct (decide _) as [[= Hk%Nat.eqb_eq]|_].
  - subst. cbn [length]. destruct (Nat.leb_spec (S active) active); [lia|].
    rewrite Nat.leb_refl. lia.
  - destruct (Nat.leb_spec (S k) active), (Nat.leb_spec k active); lia.
Qed.

(** The panes hold between one and [MAX_PANE_SURFACES] surfaces. *)
Definition surfaces_bounded (t : LayoutTree Pane) : Prop :=
  Forall (λ p, 1 ≤ length (surfaces_of p) ≤ MAX_PANE_SURFACES) (collect_leaves t).

Lemma serialize_ok t :
  wf t → leaf_count t ≤ MAX_LAYOUT_LEAVES → surfaces_bounded t → layout_ok (serialize t).
Proof.
  unfold surfaces_bounded, serialize.
  induction t as [p|d cs drag size IH] using LayoutTree_induction; intros Hwf Hcount Hss.
  - simpl in *. inversion_clear Hss. split; [by rewrite length_imap|].
    pose proof (serialized_surfaces_focus (surfaces_of p) (active_idx p) 0) as Hf. simpl in Hf.
    exact Hf.
  - apply wf_container in Hwf as [Hlen Hwf]. rewrite leaves_container in Hss.
    cbn [serialize_without_scrollback layout_ok]. rewrite !length_fmap.
    rewrite leaf_count_length, leaves_container in Hcount.
    assert (length cs ≤ length (leaves_of cs)) as Hle.
    { clear -Hwf. induction Hwf as [|c cs Hc _ IH]; [done|]. rewrite leaves_of_cons, length_app.
      apply leaves_nonempty in Hc. destruct (collect_leaves (node c)); [done|]. simpl. lia. }
    split_and!; [lia|unfold MAX_SPLIT_CHILDREN, MAX_LAYOUT_LEAVES in *; lia| | |].
    + by destruct d; [left|right].
    + intros rs' [= <-]. by rewrite length_fmap.
    + clear Hlen Hle d. induction IH as [|c cs Hc _ IH]; [constructor|].
      inversion_clear Hwf as [|?? Hwc Hwcs].
      rewrite leaves_of_cons, length_app in Hcount. rewrite leaves_of_cons, Forall_app in Hss.
      destruct Hss as [Hsc Hscs]. rewrite !fmap_cons. constructor; [|apply IH; [done|lia|done]].
      apply Hc; [done| |done]. rewrite leaf_count_length. lia.
Qed.

Lemma serialize_with_ratios t : with_ratios (serialize t).
Proof.
  unfold serialize. induction t as [p|d cs drag size IH] using LayoutTree_induction; [done|].
  cbn [serialize_without_scrollback with_ratios]. split; [done|]. split; [eexists; split; [done|by rewrite !length_fmap]|].
  rewrite !Forall_fmap. exact IH.
Qed.

Section restore.
Context {St : Type} (spawn : LayoutNode → St → Pane * St).

(** Restoring takes the panes of the deque in order and spawns the rest. *)
Definition restored (count : nat) (panes : list Pane) (leaves rest : list Pane) : Prop :=
  ∃ spawned, leaves = take count panes ++ spawned ∧ rest = drop count panes ∧
    length spawned = count - length panes.

Lemma restored_app c1 c2 panes l1 rest1 l2 rest2 :
  restored c1 panes l1 rest1 → restored c2 rest1 l2 rest2 →
  restored (c1 + c2) panes (l1 ++ l2) rest2.
Proof.
  intros (s1&->&->&Hs1) (s2&->&->&Hs2). rewrite length_drop in Hs2.
  exists (s1 ++ s2). rewrite drop_drop, length_app. split_and!; [|done|lia].
  destruct (decide (c1 ≤ length panes)) as [Hle|].
  - destruct s1; [|simpl in Hs1; lia]. simpl. rewrite app_nil_r, app_assoc. f_equal.
    apply take_take_drop.
  - rewrite (drop_ge panes) by lia. rewrite take_nil. simpl.
    by rewrite !(take_ge panes) by lia; rewrite <- app_assoc.
Qed.

Lemma from_layout_node_spec n panes st :
  runs (from_layout_node spawn n panes st) (λ r,
    restored (node_leaf_count n) panes (collect_leaves (fst (fst r))) (snd (fst r))).
Proof.
  revert panes st. induction n as [ss|d r rs cs IH] using LayoutNode_induction; intros panes st.
  - simpl. destruct panes as [|p panes].
    + destruct (spawn _ st) as [p st']. by exists [p].
    + exists []. simpl. by split_and!.
  - cbn [from_layout_node]. eapply runs_bind; [apply resolved_ratios_spec|]. intros res _.
    eapply (runs_bind _ _ (λ r, restored (sum_list (node_leaf_count <$> cs)) panes
      (leaves_of (fst (fst r))) (snd (fst r)))); [|by intros [[ts rest] st']].
    generalize (length cs) as count. intros count. generalize 0 as i. revert panes st.
    induction IH as [|c cs Hc _ IH]; intros panes st i.
    + by exists [].
    + cbn [restore_children]. eapply runs_bind; [apply Hc|].
      intros [[t rest] st'] Ht. eapply runs_bind; [apply (IH rest st' (S i))|].
      intros [[ts rest'] st''] Hts. simpl in *. rewrite leaves_of_cons. csimpl.
      by eapply restored_app.
Qed.

(** Restoring depends on the structure of the saved layout only. *)
Lemma restore_skeleton t n rest st :
  skeleton n = skeleton (serialize t) →
  runs (from_layout_node spawn n (collect_leaves t ++ rest) st) (λ r,
    shape (fst (fst r)) = shape t ∧ snd (fst r) = rest ∧ snd r = st).
Proof.
  revert n rest st. induction t as [p|d cs drag size IH] using LayoutTree_induction;
    intros n rest st Hn; destruct n as [ss|d' r rs ns]; try done.
  unfold serialize in Hn. cbn [serialize_without_scrollback skeleton] in Hn.
  injection Hn as -> Hns. cbn [from_layout_node]. rewrite leaves_container.
  eapply runs_bind; [apply resolved_ratios_spec|]. intros res _.
  generalize (length ns) as count. intros count.
  eapply (runs_bind _ _ (λ r, (λ c, mkChild (shape (node c)) f_zero) <$> fst (fst r) =
    (λ c, mkChild (shape (node c)) f_zero) <$> cs ∧ snd (fst r) = rest ∧ snd r = st)).
  - generalize 0 as i. clear drag size d r rs. revert ns Hns.
    induction IH as [|c cs Hc _ IH]; intros [|n ns] Hns i; try done.
    rewrite !fmap_cons in Hns. injection Hns as Hn Hns.
    rewrite leaves_of_cons, <- app_assoc. cbn [restore_children].
    eapply runs_bind; [apply (Hc n (leaves_of cs ++ rest) st Hn)|].
    intros [[t rest1] st1] (Ht&Hrest&Hst). simpl in Ht, Hrest, Hst. subst rest1 st1.
    eapply runs_bind; [apply (IH ns Hns (S i))|].
    intros [[ts rest2] st2] (Hts&Hrest&Hst). simpl in Hts, Hrest, Hst.
    cbn [runs fst snd]. rewrite !fmap_cons, Hts. simpl. by rewrite Ht.
  - intros [[ts rest'] st'] (Hts&Hrest&Hst). simpl in *. subst. rewrite Hts. by destruct d.
Qed.

(** The ratios of a split once they were saved, validated and resolved: normalized
    twice as numbers of 64 bits. *)
Definition restored_ratios (rs : list spec_float) : option (list spec_float) :=
  once ← sanitize_ratios (F64.convert <$> rs) (length rs);
  twice ← sanitize_ratios once (length rs);
  Some (fmap (M := list) F32.convert twice).

(** A tree and what is restored of it: its panes and its splits, the ratios of each
    normalized, with nothing dragged and no size yet. *)
Inductive restores : LayoutTree Pane → LayoutTree Pane → Prop :=
  | restores_leaf p : restores (Leaf p) (Leaf p)
  | restores_container d cs cs' drag size :
      restored_ratios (ratio <$> cs) = Some (ratio <$> cs') →
      Forall2 restores (node <$> cs) (node <$> cs') →
      restores (Container d cs drag size) (Container d cs' None f_zero).

(** The children of a split, with the ratios that were resolved. *)
Lemma restore_children_spec cs ns count resolved i rest st :
  Forall (λ c, ∀ n rest st, normalizes (serialize (node c)) n →
    runs (from_layout_node spawn n (collect_leaves (node c) ++ rest) st) (λ r,
      restores (node c) (fst (fst r)) ∧ snd (fst r) = rest ∧ snd r = st)) cs →
  Forall2 normalizes ((λ c, serialize (node c)) <$> cs) ns → length resolved = i + length cs →
  runs (restore_children (from_layout_node spawn) count resolved i ns (leaves_of cs ++ rest) st) (λ r,
    Forall2 restores (node <$> cs) (node <$> fst (fst r)) ∧
    ratio <$> fst (fst r) = F32.convert <$> drop i resolved ∧ snd (fst r) = rest ∧ snd r = st).
Proof.
  intros Hcs. revert ns i rest st. induction Hcs as [|c cs Hc _ IH]; intros ns i rest st Hns Hlen;
    rewrite ?fmap_cons in Hns; inversion_clear Hns as [|? n ? ns' Hn Hns'].
  - cbn. rewrite drop_ge by (simpl in Hlen; lia). by split_and!; [constructor|..].
  - rewrite leaves_of_cons, <- app_assoc. cbn [restore_children length] in *.
    destruct (lookup_lt_is_Some_2 resolved i ltac:(lia)) as [x Hx].
    eapply runs_bind; [by apply (Hc n (leaves_of cs ++ rest) st)|].
    intros [[t rest1] st1] (Ht&Hrest&Hst). simpl in Ht, Hrest, Hst. subst rest1 st1.
    eapply runs_bind; [apply (IH ns' (S i) rest st Hns'); lia|].
    intros [[ts rest2] st2] (Hts&Hr&Hrest&Hst). simpl in Hts, Hr, Hrest, Hst.
    cbn [runs fst snd]. rewrite !fmap_cons. cbn [node ratio]. rewrite Hr, (drop_S _ x i Hx).
    rewrite Hx. split_and!; [by constructor|done..].
Qed.

(** A validated tree is restored. *)
Lemma restore_normalized t n rest st :
  normalizes (serialize t) n →
  runs (from_layout_node spawn n (collect_leaves t ++ rest) st) (λ r,
    restores t (fst (fst r)) ∧ snd (fst r) = rest ∧ snd r = st).
Proof.
  revert n rest st. induction t as [p|d cs drag size IH] using LayoutTree_induction; intros n rest st Hn.
  - unfold serialize in Hn. cbn in Hn. inversion_clear Hn. cbn. split_and!; [constructor|done..].
  - unfold serialize in Hn. cbn [serialize_without_scrollback] in Hn.
    inversion Hn as [|? ? rs' ? ns Hlen Hrs Hns]; subst. rewrite !length_fmap in Hrs.
    cbn [from_layout_node]. rewrite leaves_container. unfold resolved_ratios.
    pose proof (Forall2_length _ _ _ Hns) as Hcount. rewrite length_fmap in Hcount. rewrite <- Hcount.
    assert (Nat.max (length cs) 1 = length cs ∨ length cs = 0) as [Hmax|Hnil] by lia.
    2: { destruct cs; [|done]. cbn in Hrs. injection Hrs as <-. destruct ns; [|done]. cbn.
         split_and!; [|done..]. destruct d; by constructor. }
    rewrite Hmax. pose proof (sanitize_ratios_spec rs' (length cs)) as Hspec.
    destruct (sanitize_ratios rs' (length cs)) as [twice|] eqn:Htwice; [|done]. destruct Hspec as [Htlen _].
    cbn [mbind option_bind]. eapply runs_bind; [by apply restore_children_spec|].
    intros [[ts rest'] st'] (Hts&Hr&Hrest&Hst). cbn [fst snd runs] in *. split_and!; [|done..].
    assert ((if bool_decide (match d with Horizontal => "horizontal" | Vertical => "vertical" end = "vertical")%string
             then Vertical else Horizontal) = d) as -> by by destruct d.
    constructor; [|done]. unfold restored_ratios. rewrite length_fmap, <- list_fmap_compose.
    change (F64.convert ∘ ratio) with (λ c : LayoutChild Pane, F64.convert (ratio c)).
    rewrite Hrs. cbn [mbind option_bind]. rewrite Htwice. cbn [mbind option_bind]. by rewrite Hr, drop_0.
Qed.

(** Ratios that are normalized as they are: each a number of 32 bits between
    [MIN_RATIO] and 1, of a sum that is 1 but for [RATIO_TOLERANCE]. *)
Definition even_ratios (rs : list spec_float) : Prop :=
  Forall (λ r, valid_binary 24 128 r = true ∧ ratio_ok (F64.convert r)) rs ∧
  SFltb RATIO_TOLERANCE (SFabs (F64.sub (F64.sum (F64.convert <$> rs)) F64.one)) = false.

Lemma clamp_id lo hi r : SFleb lo hi = true → SFltb r lo = false → SFltb hi r = false → clamp r lo hi = Some r.
Proof. intros Hle Hlo Hhi. unfold clamp. rewrite Hle. cbn. by rewrite Hlo, Hhi. Qed.

Lemma sanitize_even rs :
  Forall ratio_ok rs → SFltb RATIO_TOLERANCE (SFabs (F64.sub (F64.sum rs) F64.one)) = false →
  sanitize_ratios rs (length rs) = Some rs.
Proof.
  intros Hok Hsum. unfold sanitize_ratios. rewrite Nat.eqb_refl. cbn [negb].
  assert (∀ r, ratio_ok r → is_finite r = true ∧ clamp r MIN_RATIO F64.one = Some r) as Hid.
  { intros r Hr. destruct (ratio_ok_positive r Hr) as (m&e&->). split; [done|]. destruct Hr as [Hlo Hhi].
    apply clamp_id; [apply ratio_bounds_ok|..]; by apply SFleb_SFltb. }
  assert (mapM (λ r, if is_finite r then clamp r MIN_RATIO F64.one else Some MIN_RATIO) rs = Some rs) as ->.
  { clear Hsum. induction Hok as [|r rs Hr _ IH]; [done|]. simpl. destruct (Hid r Hr) as [-> ->].
    cbn [mbind option_bind]. by rewrite IH. }
  cbn [mbind option_bind]. rewrite Hsum, andb_false_r.
  clear Hsum. induction Hok as [|r rs Hr _ IH]; [done|]. cbn [mapM]. rewrite (proj2 (Hid r Hr)).
  cbn [mbind option_bind]. by rewrite IH.
Qed.

Lemma even_restored rs : even_ratios rs → restored_ratios rs = Some rs.
Proof.
  intros [Hall Hsum]. unfold restored_ratios.
  pose proof (sanitize_even (F64.convert <$> rs)) as Hs. rewrite length_fmap in Hs.
  assert (Forall ratio_ok (F64.convert <$> rs)) as Hok by (apply Forall_fmap; eapply Forall_impl; [done|naive_solver]).
  rewrite (Hs Hok Hsum). cbn [mbind option_bind]. rewrite (Hs Hok Hsum). cbn [mbind option_bind]. f_equal.
  rewrite <- list_fmap_compose. clear -Hall. induction Hall as [|r rs [Hr _] _ IH]; [done|].
  rewrite fmap_cons, IH. cbn [compose]. by rewrite convert_widened.
Qed.

Fixpoint even (t : LayoutTree Pane) : Prop :=
  match t with
  | Leaf _ => True
  | Container _ cs _ _ => even_ratios (ratio <$> cs) ∧ Forall id ((λ c, even (node c)) <$> cs)
  end.

(** A tree with nothing dragged and no size. *)
Fixpoint settle (t : LayoutTree Pane) : LayoutTree Pane :=
  match t with
  | Leaf p => Leaf p
  | Container d cs _ _ => Container d ((λ c, mkChild (settle (node c)) (ratio c)) <$> cs) None f_zero
  end.

Lemma restores_even t t' : restores t t' → even t → t' = settle t.
Proof.
  revert t'. induction t as [p|d cs drag size IH] using LayoutTree_induction; intros t' Hr;
    inversion Hr as [|? ? cs' ? ? Hratios Hall]; subst; [done|].
  cbn [even settle]. intros [Heven Hevens]. rewrite (even_restored _ Heven) in Hratios.
  injection Hratios as Hratios. f_equal. rewrite Forall_fmap in Hevens. clear Heven Hr.
  revert cs' Hratios Hall. induction IH as [|c cs Hc _ IH]; intros [|c' cs'] Hratios Hall; try done.
  rewrite !fmap_cons in Hratios. injection Hratios as Hratio Hratios. apply Forall_cons in Hevens as [He Hes].
  rewrite !fmap_cons in Hall. apply Forall2_cons in Hall as [Hn Hall]. rewrite fmap_cons, <- (IH Hes cs') by done.
  f_equal. rewrite <- (Hc _ Hn He), Hratio. by destruct c'.
Qed.

Lemma restores_shape t t' : restores t t' → shape t' = shape t.
Proof.
  revert t'. induction t as [p|d cs drag size IH] using LayoutTree_induction; intros t' Hr;
    inversion Hr as [|? ? cs' ? ? _ Hall]; subst; [done|]. cbn [shape]. f_equal. clear Hr.
  revert cs' Hall. induction IH as [|c cs Hc _ IH]; intros [|c' cs'] Hall; [done|by inversion Hall..|].
  rewrite !fmap_cons in Hall. apply Forall2_cons in Hall as [Hn Hall]. by rewrite !fmap_cons, (IH cs'), (Hc _ Hn).
Qed.

Lemma round_trip t rest st :
  runs (from_layout_node spawn (serialize t) (collect_leaves t ++ rest) st) (λ r,
    shape (fst (fst r)) = shape t ∧ snd (fst r) = rest ∧ snd r = st).
Proof. by apply restore_skeleton. Qed.
End restore.
End serde.

(** ** Templates *)

(** The surfaces of a layout, in order. *)
Fixpoint node_surfaces (n : LayoutNode) : list SurfaceDefinition :=
  match n with
  | NodePane ss => ss
  | NodeSplit _ _ _ cs => mjoin (node_surfaces <$> cs)
  end.

Lemma node_surfaces_leaves ss :
  mjoin (node_surfaces <$> ((λ s, NodePane [s]) <$> ss)) = ss.
Proof. induction ss as [|s ss IH]; [done|]. csimpl. by rewrite IH. Qed.

Lemma template_rows_spec n rows cols (leaves : list LayoutNode) :
  length leaves = n → 1 ≤ rows → (rows - 1) * cols < n → n ≤ rows * cols → 1 ≤ cols →
  runs (for_each (seq 0 rows) (template_row n rows cols) (leaves, [])) (λ st,
    mjoin (node_surfaces <$> snd st) = mjoin (node_surfaces <$> leaves) ∧ length (snd st) = rows).
Proof.
  intros Hn ????.
  apply (runs_for_each _ _ (λ dn st, length (snd st) = length dn ∧
    mjoin (node_surfaces <$> snd st) ++ mjoin (node_surfaces <$> fst st) =
      mjoin (node_surfaces <$> leaves) ∧
    length (fst st) = n - (if length dn <? rows then length dn * cols else n))).
  - simpl. split_and!; [done..|]. destruct (Nat.ltb_spec 0 rows); lia.
  - intros dn r rest [it acc] Hr (Hlen&Hl&Hit). simpl in *.
    assert (r = length dn ∧ length dn < rows) as [-> Hlt].
    { assert (seq 0 rows !! length dn = Some r) as Hq%lookup_seq; [|lia].
      by rewrite Hr, lookup_app_r, Nat.sub_diag by lia. }
    rewrite (proj2 (Nat.ltb_lt _ _) Hlt) in Hit. unfold template_row.
    set (m := if length dn <? rows - 1 then cols else n - cols * (rows - 1)).
    eapply (runs_bind _ _ (eq m)).
    { subst m. destruct (length dn <? rows - 1); [done|]. rewrite checked_sub_some by nia. done. }
    intros ? <-.
    assert (0 < m ∧ m ≤ length it ∧
      length it - m = n - (if length dn + 1 <? rows then (length dn + 1) * cols else n)) as (?&?&Hrest).
    { subst m. destruct (Nat.ltb_spec (length dn) (rows - 1)), (Nat.ltb_spec (length dn + 1) rows);
        try lia; rewrite Hit; [split_and!; [lia|nia|lia]|].
      assert (length dn = rows - 1) as -> by lia. rewrite (Nat.mul_comm cols). split_and!; lia. }
    eapply (runs_bind _ _ (λ x, node_surfaces x = mjoin (node_surfaces <$> take m it))).
    { destruct (Nat.eqb_spec (length (take m it)) 1) as [Hone|]; [|done].
      destruct (take m it) as [|x [|]]; try done. simpl. by rewrite app_nil_r. }
    intros x Hx. cbn [runs fst snd]. rewrite !length_app, length_drop. simpl.
    split_and!; [lia| |lia]. rewrite fmap_app, join_app. simpl. rewrite Hx, app_nil_r, <- app_assoc.
    rewrite <- join_app, <- fmap_app, take_drop. done.
  - intros [it acc] (Hlen&Hl&Hit). simpl in *. rewrite length_seq in *.
    rewrite Nat.ltb_irrefl in Hit. destruct it; [|simpl in Hit; lia].
    simpl in Hl. by rewrite app_nil_r in Hl.
Qed.

Lemma main_vertical_layout_spec leaves :
  2 ≤ length leaves →
  runs (main_vertical_layout leaves) (λ n, node_surfaces n = mjoin (node_surfaces <$> leaves)).
Proof.
  intros Hlen. unfold main_vertical_layout. destruct leaves as [|l ls]; [simpl in Hlen; lia|].
  cbn [remove_first mbind option_bind].
  eapply (runs_bind _ _ (λ x, node_surfaces x = mjoin (node_surfaces <$> ls))).
  - destruct (Nat.eqb_spec (length ls) 1) as [H1|]; [|done].
    destruct ls as [|x [|]]; try done. simpl. by rewrite app_nil_r.
  - intros side Hside. simpl. rewrite Hside. by rewrite app_nil_r.
Qed.

Lemma build_layout_spec preset ss :
  runs (build_layout_from_surfaces preset ss) (λ o,
    match o with None => ss = [] | Some n => node_surfaces n = ss end).
Proof.
  unfold build_layout_from_surfaces.
  pose proof (node_surfaces_leaves ss) as Hleaves.
  set (leaves := (λ s, NodePane [s]) <$> ss) in *.
  assert (length leaves = length ss) as Hlen by apply length_fmap.
  destruct leaves as [|l [|l' ls]] eqn:Hls.
  - by destruct ss.
  - simpl in *. by rewrite app_nil_r in Hleaves.
  - assert (2 < length leaves ∨ length leaves = 2) as Hbig by (rewrite Hls; simpl; lia).
    rewrite <- Hls in *. case_bool_decide; [done|].
    case_bool_decide; [|case_bool_decide; [|done]].
    + eapply runs_bind; [apply main_vertical_layout_spec; lia|]. intros x Hx. simpl. congruence.
    + unfold tiled_layout. destruct (Nat.leb_spec (length leaves) 2); [done|].
      destruct (grid_spec (length leaves + length leaves) (length leaves) 1 1) as (r&c&->&?&?&?&?);
        [lia..|]. cbn [mbind option_bind].
      eapply runs_bind; [|intros x Hx; exact Hx].
      eapply runs_bind; [apply template_rows_spec; [done|lia|nia|lia|nia]|].
      intros [it rows] [Hrows _]. simpl in *. congruence.
Qed.
