(* ===== verification/LayoutProperties.v ===== *)
(** * The pane layout: the properties of the component

    No operation loses, duplicates or reorders a pane it was not asked to, none
    panics, and every tree keeps at least two children per split; a saved layout
    is within its bounds and restores to the tree it was saved from. *)

From stdpp Require Import gmap strings.
From S2P Require Import Prelude Float LayoutTree LayoutFacts LayoutMove LayoutNavigation LayoutSchema LayoutSchemaFacts.

#[local] Arguments leaves_of : simpl never.

(** ** A concrete tree

    Panes are numbers: 1 beside a column of 2 and 3. *)
Definition sample_tree : LayoutTree nat :=
  new_split Vertical (Leaf 1) (new_split Horizontal (Leaf 2) (Leaf 3)).

Lemma sample_wf : wf sample_tree.
Proof. repeat (first [split|constructor|simpl; lia]). Qed.

(** ** Saving and restoring *)

Section saved.
Context {Pane St : Type} `{EqDecision Pane}.
Context (surfaces_of : Pane → list PaneSurface) (active_idx : Pane → nat).
Context (spawn : LayoutNode → St → Pane * St).

(** A layout restores to the tree it was saved from: with its panes in the
    deque, every pane is taken back in its place, the rest of the deque is
    left and no pane is spawned. *)
Theorem save_restore_round_trip (t : LayoutTree Pane) (rest : list Pane) (st : St) :
  runs (from_layout_node spawn (serialize_without_scrollback surfaces_of active_idx t)
          (collect_leaves t ++ rest) st) (λ r,
    shape (fst (fst r)) = shape t ∧ snd (fst r) = rest ∧ snd r = st).
Proof. apply round_trip. Qed.

(** C35: Validation does not get in the way of a restart: a well-formed tree of
    at most [MAX_LAYOUT_LEAVES] panes, none empty or over full, is restored from its
    validated saved form with the same panes in the same splits, the ratios of each
    split normalized.  A tree whose ratios are even - at least [MIN_RATIO], of sum 1
    but for [RATIO_TOLERANCE] - is restored to the same tree, ratios included, with
    nothing dragged and no size yet. *)
Theorem validated_round_trip (t : LayoutTree Pane) (rest : list Pane) (st : St) :
  wf t → leaf_count t ≤ MAX_LAYOUT_LEAVES → surfaces_bounded surfaces_of t →
  runs (n ← validate_layout (serialize_without_scrollback surfaces_of active_idx t);
        from_layout_node spawn n (collect_leaves t ++ rest) st) (λ '(t', rest', st'),
    shape t' = shape t ∧ restores t t' ∧ (even t → t' = settle t) ∧ rest' = rest ∧ st' = st).
Proof.
  intros Hwf Hcount Hss. eapply runs_bind.
  { apply validate_layout_normalizes; [by apply serialize_ok|apply serialize_with_ratios|by rewrite serialize_leaf_count]. }
  intros n Hn. eapply runs_mono; [by apply (restore_normalized surfaces_of active_idx)|].
  intros [[t' rest'] st'] (Hr&?&?). cbn [fst snd] in *.
  split_and!; [by apply restores_shape|done|by apply restores_even|done..].
Qed.

(** Restoring a layout of [n] panes never panics: it takes panes from the
    front of the deque in order, as many as there are, spawns the missing
    ones, and leaves the others in the deque. *)
Theorem from_layout_node_takes (n : LayoutNode) (panes : list Pane) (st : St) :
  runs (from_layout_node spawn n panes st) (λ r,
    ∃ spawned, collect_leaves (fst (fst r)) = take (node_leaf_count n) panes ++ spawned ∧
      snd (fst r) = drop (node_leaf_count n) panes ∧
      length spawned = node_leaf_count n - length panes).
Proof. apply from_layout_node_spec. Qed.
End saved.

(** C36: Validating any saved layout never panics and gives a layout within the
    bounds: one to [MAX_LAYOUT_LEAVES] panes, two to [MAX_SPLIT_CHILDREN]
    children per split, one to [MAX_PANE_SURFACES] surfaces per pane, at most
    one of them focused, known directions, one ratio per child.  A layout
    within the bounds keeps its structure and its panes. *)
Theorem validate_layout_bounds (n : LayoutNode) :
  runs (validate_layout n) (λ n',
    layout_ok n' ∧ 1 ≤ node_leaf_count n' ≤ MAX_LAYOUT_LEAVES ∧
    (layout_ok n → node_leaf_count n ≤ MAX_LAYOUT_LEAVES → skeleton n' = skeleton n)).
Proof. apply validate_layout_spec. Qed.

(** Sanitizing the ratios of a split with [n] children, whatever they are -
    NaN, infinite, negative, too many - never panics and gives [n] ratios, each
    of them between [MIN_RATIO] and 1 when there was one for every child. *)
Theorem sanitize_ratios_bounds (ratios : list spec_float) (n : nat) :
  runs (sanitize_ratios ratios n) (λ rs, length rs = n ∧
    (length ratios = n → Forall (λ r, SFleb MIN_RATIO r = true ∧ SFleb r F64.one = true) rs)).
Proof. apply sanitize_ratios_spec. Qed.

(** Building a layout from a template never panics and keeps every surface,
    in order, for every preset name. *)
Theorem build_layout_keeps_surfaces (preset : string) (surfaces : list SurfaceDefinition) :
  runs (build_layout_from_surfaces preset surfaces) (λ o,
    match o with None => surfaces = [] | Some n => node_surfaces n = surfaces end).
Proof. apply build_layout_spec. Qed.

(** The surfaces of pane [p]: one terminal. *)
Definition sample_surfaces (p : nat) : list PaneSurface :=
  [Terminal (mkTerminalState "shell" None None (Some "/tmp") None None "s1" None)].

Lemma validated_round_trip_witness :
  runs (n ← validate_layout (serialize_without_scrollback sample_surfaces (λ _, 0) sample_tree);
        from_layout_node (λ _ st, (st, S st)) n (collect_leaves sample_tree ++ [7]) 9) (λ '(t, rest, st),
    t = sample_tree ∧ rest = [7] ∧ st = 9).
Proof.
  eapply runs_mono; [apply (validated_round_trip sample_surfaces (λ _, 0) (λ _ st, (st, S st)) sample_tree [7] 9)|].
  - apply sample_wf.
  - vm_compute. lia.
  - repeat constructor; vm_compute; lia.
  - intros [[t rest] st] (_&_&Heven&->&->). split; [|by split]. apply Heven.
    repeat (first [split|constructor]); vm_compute; reflexivity.
Defined.

(** ** Splitting, swapping, moving and closing panes *)

Section tree.
Context {Pane : Type} `{EqDecision Pane}.
Implicit Types (t : LayoutTree Pane) (ps : list Pane).

(** Closing the focused pane of a well-formed tree never panics.  It takes
    out the first focused pane and nothing else, the tree stays well-formed,
    and the focus goes to a pane that was next to the closed one; the tree
    disappears with its only pane, and without a focused pane nothing changes. *)
Theorem close_focused_correct (is_focused : Pane → bool) t :
  wf t → runs (close_focused is_focused t) (λ r,
    let '(t', was, neighbor) := r in
    if was : bool then
      ∃ l p r, collect_leaves t = l ++ p :: r ∧ is_focused p = true ∧
        Forall (λ p, is_focused p = false) l ∧
        match t' with
        | None => l = [] ∧ r = [] ∧ neighbor = None
        | Some t' => wf t' ∧ collect_leaves t' = l ++ r ∧
            ∃ q, neighbor = Some q ∧ (last l = Some q ∨ head r = Some q)
        end
    else t' = Some t ∧ neighbor = None ∧ Forall (λ p, is_focused p = false) (collect_leaves t)).
Proof. intros Hwf. exact (close_focused_spec is_focused t Hwf). Qed.

(** C37: Dropping a pane on an edge of another pane of the tree puts it next to
    that pane: above or below it in a horizontal split, to its left or its right in a
    vertical one, as the edge says, both being neighbours in that split.  Every
    other pane stays in its place in the order of the panes and the tree stays
    well-formed. *)
Theorem drop_pane_move_correct t (source target : Pane) (edge : DropEdge) :
  wf t → NoDup (collect_leaves t) → source ≠ target →
  source ∈ collect_leaves t → target ∈ collect_leaves t →
  ∃ t', drop_pane_move t source target (Some edge) = (t', true) ∧ wf t' ∧
    match edge with
    | Up => abut Horizontal source target t'
    | Down => abut Horizontal target source t'
    | Left => abut Vertical source target t'
    | Right => abut Vertical target source t'
    end ∧
    ∃ l r, filter (λ p, p ≠ source) (collect_leaves t) = l ++ target :: r ∧
           collect_leaves t' =
             l ++ match edge with Up | Left => [source; target] | Down | Right => [target; source] end ++ r.
Proof.
  intros Hwf Hnd Hne Hs Ht.
  destruct (drop_pane_move_spec t source target edge Hwf Hnd Hne Hs Ht) as (t'&?&?&l&r&?&?&?).
  exists t'. split_and!; [done..|]. by exists l, r.
Qed.

(** Removing a pane takes every occurrence of it out of the tree, reports
    whether there was one, keeps the other panes in order and the tree
    well-formed, and leaves no tree when no pane is left. *)
Theorem remove_pane_correct (target : Pane) t :
  wf t →
  snd (remove_pane target t) = bool_decide (target ∈ collect_leaves t) ∧
  match fst (remove_pane target t) with
  | None => Forall (λ p, p = target) (collect_leaves t)
  | Some t' => wf t' ∧ collect_leaves t' = filter (λ p, p ≠ target) (collect_leaves t) ∧
               (snd (remove_pane target t) = false → t' = t)
  end.
Proof. intros Hwf. exact (remove_pane_spec target t Hwf). Qed.

(** Splitting at a pane of the tree inserts the new pane right behind an
    occurrence of it and keeps the others; splitting at a pane that is not in
    the tree changes nothing.  A well-formed tree stays so. *)
Theorem split_at_pane_inserts (target new : Pane) (d : SplitDirection) t :
  let r := split_at_pane target d new t in
  (wf t → wf (fst r)) ∧
  if bool_decide (target ∈ collect_leaves t) then
    snd r = true ∧
    ∃ l r', collect_leaves t = l ++ target :: r' ∧ collect_leaves (fst r) = l ++ target :: new :: r'
  else r = (t, false).
Proof.
  intros r. subst r. unfold split_at_pane.
  destruct (split_where_spec (λ p, bool_decide (p = target)) d new t) as [Hwf Hr].
  split; [exact Hwf|]. destruct (split_where _ d new t) as [t' [|]]; simpl in *.
  - destruct Hr as (l & p & r & Hl & ->%bool_decide_eq_true & Hl').
    rewrite bool_decide_true; [eauto 10|]. rewrite Hl. set_solver.
  - destruct Hr as [-> Hr]. rewrite bool_decide_false; [done|].
    rewrite Forall_forall in Hr. intros Hin. by apply Hr, bool_decide_eq_false in Hin.
Qed.

(** Splitting at the focused pane inserts the new pane right behind a
    focused pane, and changes nothing exactly when no pane has the focus. *)
Theorem split_at_focused_inserts (is_focused : Pane → bool) (new : Pane) (d : SplitDirection) t :
  let r := split_at_focused is_focused d new t in
  (wf t → wf (fst r)) ∧ snd r = existsb is_focused (collect_leaves t) ∧
  if snd r then
    ∃ l p r', collect_leaves t = l ++ p :: r' ∧ is_focused p = true ∧
              collect_leaves (fst r) = l ++ p :: new :: r'
  else fst r = t.
Proof.
  intros r. subst r. unfold split_at_focused.
  destruct (split_where_spec is_focused d new t) as [Hwf Hr].
  split; [exact Hwf|]. destruct (split_where is_focused d new t) as [t' [|]]; simpl in *.
  - destruct Hr as (l & p & r & Hl & Hp & Hl'). split; [|eauto 10].
    rewrite Hl, existsb_app. simpl. by rewrite Hp, orb_true_r.
  - destruct Hr as [-> Hr]. split; [|done]. clear Hwf. induction Hr as [|p ps Hp _ IH]; [done|].
    simpl. by rewrite Hp.
Qed.

(** Swapping two panes of the tree exchanges them and nothing else; with a
    pane that is not in the tree, or with itself, nothing happens. *)
Theorem swap_panes_exchanges (a b : Pane) t :
  let r := swap_panes a b t in
  (wf t → wf (fst r)) ∧
  if bool_decide (a ≠ b ∧ a ∈ collect_leaves t ∧ b ∈ collect_leaves t) then
    snd r = true ∧ collect_leaves (fst r) = transpose a b <$> collect_leaves t
  else r = (t, false).
Proof.
  intros r. subst r. unfold swap_panes. pose proof (contains_leaf_spec t a) as Ha.
  pose proof (contains_leaf_spec t b) as Hb.
  destruct (swap_unchecked_spec a b t) as [Hl Hwf].
  assert (bool_decide (a = b) || negb (contains_leaf t a) || negb (contains_leaf t b) =
    negb (bool_decide (a ≠ b ∧ a ∈ collect_leaves t ∧ b ∈ collect_leaves t))) as ->.
  { rewrite !bool_decide_and, bool_decide_not.
    rewrite <- (bool_decide_ext _ _ Ha), <- (bool_decide_ext _ _ Hb).
    by destruct (bool_decide (a = b)), (contains_leaf t a), (contains_leaf t b). }
  by destruct (bool_decide (a ≠ b ∧ _)).
Qed.

(** The preset that tiles the panes never panics - its grid loop terminates
    and no row is left empty - and keeps every pane in order, in a well-formed
    tree. *)
Theorem tiled_keeps_panes ps :
  runs (tiled ps) (λ o,
    match o with None => ps = [] | Some t => wf t ∧ collect_leaves t = ps end).
Proof.
  destruct ps as [|p ps]; [done|]. eapply runs_mono; [by apply tiled_spec|].
  intros o (t & -> & ?). done.
Qed.

(** The other presets keep every pane in order as well. *)
Theorem presets_keep_panes (d : SplitDirection) (main : Pane) ps :
  runs (main_vertical main ps) (λ o, ∃ t, o = Some t ∧ wf t ∧ collect_leaves t = main :: ps) ∧
  match from_panes_equal d ps with
  | None => ps = []
  | Some t => wf t ∧ collect_leaves t = ps
  end.
Proof.
  split; [apply main_vertical_spec|]. destruct ps as [|p ps]; [done|].
  destruct (from_panes_equal_spec d (p :: ps)) as (t & -> & ?); done.
Qed.
End tree.

Lemma close_focused_correct_witness :
  close_focused (λ p, p =? 2) sample_tree =
    Some (Some (new_split Vertical (Leaf 1) (Leaf 3)), true, Some 3) ∧
  runs (close_focused (λ p, p =? 2) sample_tree) (λ r,
    let '(t', was, neighbor) := r in
    if was : bool then
      ∃ l p r, collect_leaves sample_tree = l ++ p :: r ∧ (p =? 2) = true ∧
        Forall (λ p, (p =? 2) = false) l ∧
        match t' with
        | None => l = [] ∧ r = [] ∧ neighbor = None
        | Some t' => wf t' ∧ collect_leaves t' = l ++ r ∧
            ∃ q, neighbor = Some q ∧ (last l = Some q ∨ head r = Some q)
        end
    else t' = Some sample_tree ∧ neighbor = None ∧
         Forall (λ p, (p =? 2) = false) (collect_leaves sample_tree)).
Proof.
  split; [vm_compute; reflexivity|].
  exact (close_focused_correct (λ p, p =? 2) sample_tree sample_wf).
Defined.

Lemma drop_pane_move_correct_witness :
  ∃ t', drop_pane_move sample_tree 1 3 (Some Up) = (t', true) ∧ wf t' ∧ abut Horizontal 1 3 t' ∧
    collect_leaves t' = [2; 1; 3].
Proof.
  destruct (drop_pane_move_correct sample_tree 1 3 Up) as (t'&Hrun&Hwf&Habut&_);
    [apply sample_wf|apply (bool_decide_unpack _); vm_compute; exact I..|].
  exists t'. split; [exact Hrun|]. split; [exact Hwf|]. split; [exact Habut|].
  vm_compute in Hrun. injection Hrun as <-. reflexivity.
Defined.

Lemma remove_pane_correct_witness :
  snd (remove_pane 2 sample_tree) = bool_decide (2 ∈ collect_leaves sample_tree) ∧
  match fst (remove_pane 2 sample_tree) with
  | None => Forall (λ p, p = 2) (collect_leaves sample_tree)
  | Some t' => wf t' ∧ collect_leaves t' = filter (λ p, p ≠ 2) (collect_leaves sample_tree) ∧
               (snd (remove_pane 2 sample_tree) = false → t' = sample_tree)
  end.
Proof. exact (remove_pane_correct 2 sample_tree sample_wf). Defined.

(** ** Ratios *)

(** Dragging a divider never panics.  The two ratios it gives keep their sum
    up to rounding; when both panes fit at their minimum size neither gets
    smaller than it, and when they do not the ratios stay as they were. *)
Theorem resize_adjacent_ratios_bounds (before after delta_px container_px min_before min_after :
    spec_float) :
  runs (resize_adjacent_ratios before after delta_px container_px min_before min_after) (λ o,
    ∀ new_before new_after, o = Some (new_before, new_after) →
      let pair := F32.add before after in
      let lower := min_ratio min_before container_px pair in
      let upper := F32.sub pair (min_ratio min_after container_px pair) in
      if SFltb upper lower then new_before = before ∧ new_after = after
      else SFleb lower new_before = true ∧ SFleb new_before upper = true ∧
           new_after = F32.sub pair new_before).
Proof. apply resize_adjacent_ratios_spec. Qed.

(** Equalizing the ratios keeps the panes of a tree and leaves every split,
    of up to 32 children, with positive ratios that sum to 1 within four units
    of [f32::EPSILON]: the remainder of the rounding goes to the last child. *)
Theorem equalize_ratios_balances {Pane : Type} (t : LayoutTree Pane) :
  wf t → narrow t →
  collect_leaves (equalize_ratios t) = collect_leaves t ∧ wf (equalize_ratios t) ∧
  balanced (equalize_ratios t).
Proof.
  intros Hwf Hnarrow. destruct (equalize_ratios_spec t) as [Hl Hw].
  split_and!; [done|by apply Hw|by apply equalize_ratios_balanced].
Qed.

Lemma equalize_ratios_balances_witness :
  collect_leaves (equalize_ratios sample_tree) = collect_leaves sample_tree ∧
  wf (equalize_ratios sample_tree) ∧ balanced (equalize_ratios sample_tree).
Proof.
  apply (equalize_ratios_balances sample_tree); [apply sample_wf|].
  repeat (first [split|constructor|simpl; lia]).
Defined.

(** ** Focus *)

Section focus.
Context {Pane : Type} `{EqDecision Pane} (is_focused is_detached : Pane → bool).
Implicit Types (t : LayoutTree Pane).

(** Moving the focus in a direction starts from the first focused docked
    pane and goes to the docked pane with the smallest score in that direction
    - the distance along the direction, then across it, then the order of the
    panes; the focus stays when no pane lies in the direction. *)
Theorem focus_in_direction_nearest t (dir : FocusDirection) :
  let leaves := collect_leaf_rects is_detached t f_zero f_zero F32.one F32.one in
  match focus_in_direction is_focused is_detached t dir with
  | (NotHere, target) => target = None ∧ Forall (λ p, is_focused p = false) (docked is_detached t)
  | (outcome, target) =>
      ∃ cur current, leaves !! cur = Some current ∧ is_focused (pane current) = true ∧
        focused_pane is_focused is_detached t = Some (pane current) ∧
        match outcome with
        | Moved => ∃ i s q, nearest dir cur current leaves (Some (i, s)) ∧
                     leaves !! i = Some q ∧ target = Some (pane q)
        | _ => nearest dir cur current leaves None ∧ target = None
        end
  end.
Proof. apply focus_in_direction_spec. Qed.

(** The rectangles of the panes, and their outer edges, are those of the
    docked panes: one for each of them, in the order of the tree. *)
Theorem rects_and_edges_of_docked t (x y w h : spec_float) (outer : Edges) :
  pane <$> collect_leaf_rects is_detached t x y w h = docked is_detached t ∧
  fst <$> docked_leaf_edges is_detached t outer = docked is_detached t.
Proof. split; [apply leaf_rects_docked|apply leaf_edges_docked]. Qed.

(** With fewer than two docked panes no pane is dimmed; with more, every
    docked pane but the first focused one is, and when none has the focus
    nothing is updated.  Detached panes are left alone. *)
Theorem sync_unfocused_dim_correct t :
  sync_unfocused_dim is_focused is_detached t =
  if length (docked is_detached t) <? 2 then (λ p, (p, Alone)) <$> docked is_detached t
  else match focus_index is_focused (docked is_detached t) with
       | Some idx =>
           imap (λ i p, (p, if i =? idx then Focused else Unfocused)) (docked is_detached t)
       | None => []
       end.
Proof. apply sync_unfocused_dim_spec. Qed.

(** The queries of a tree agree with its list of panes: the pane count, the
    first and last pane, membership, whether a pane is docked, and the focused
    pane, which is the first docked pane with the focus. *)
Theorem queries_agree t (p : Pane) :
  leaf_count t = length (collect_leaves t) ∧
  (wf t → first_leaf t = head (collect_leaves t) ∧ last_leaf t = last (collect_leaves t)) ∧
  (contains_leaf t p = true ↔ p ∈ collect_leaves t) ∧
  has_docked_panes is_detached t = existsb (λ p, negb (is_detached p)) (collect_leaves t) ∧
  focus_first is_detached t = head (docked is_detached t) ∧
  focused_pane is_focused is_detached t =
    head (filter (λ p, is_focused p = true) (docked is_detached t)).
Proof.
  split_and!.
  - apply leaf_count_length.
  - intros Hwf. split; [by apply first_leaf_head|by apply last_leaf_last].
  - apply contains_leaf_spec.
  - apply has_docked_spec.
  - apply focus_first_spec.
  - apply focused_pane_spec.
Qed.
End focus.
