(* ===== verification/OrderedMap.v ===== *)
(** * An ordered map with text keys ([std::collections::BTreeMap])

    An association list sorted by key; iteration is in key order. *)

From S2P Require Import Prelude DiffText.
From stdpp Require Import sorting.

(** The order of [String]: by bytes, which for UTF-8 is by code points. *)
Fixpoint str_cmp (a b : str) : comparison :=
  match a, b with
  | [], [] => Eq
  | [], _ => Lt
  | _, [] => Gt
  | x :: a, y :: b => match N.compare x y with Eq => str_cmp a b | c => c end
  end.

Definition str_lt (a b : str) : Prop := str_cmp a b = Lt.

Module BTreeMap.
Section map.
Context {V : Type}.

Definition t := list (str * V).

Fixpoint get (m : t) (k : str) : option V :=
  match m with
  | [] => None
  | (k', v) :: m => if bool_decide (k = k') then Some v else get m k
  end.

Definition contains_key (m : t) (k : str) : bool := bool_decide (is_Some (get m k)).

Fixpoint insert (m : t) (k : str) (v : V) : t :=
  match m with
  | [] => [(k, v)]
  | (k', v') :: m' =>
      match str_cmp k k' with
      | Lt => (k, v) :: m
      | Eq => (k, v) :: m'
      | Gt => (k', v') :: insert m' k v
      end
  end.

Fixpoint retain (pred : str → V → bool) (m : t) : t :=
  match m with
  | [] => []
  | (k, v) :: m => if pred k v then (k, v) :: retain pred m else retain pred m
  end.

Definition remove (m : t) (k : str) : t := retain (λ k' _, bool_decide (k ≠ k')) m.

(** [for v in map.values_mut()]. *)
Definition map_values (f : V → V) (m : t) : t := (λ kv, (fst kv, f (snd kv))) <$> m.

Definition keys (m : t) : list str := fst <$> m.
Definition values (m : t) : list V := snd <$> m.
End map.
Arguments t : clear implicits.
End BTreeMap.

(** ** The order *)

Lemma str_cmp_eq a b : str_cmp a b = Eq ↔ a = b.
Proof.
  revert b. induction a as [|x a IH]; intros [|y b]; simpl; try done.
  destruct (N.compare_spec x y) as [->|Hlt|Hlt]; [rewrite IH|..].
  - split; [by intros ->|by intros [= ->]].
  - split; [done|]. intros [= -> ->]. lia.
  - split; [done|]. intros [= -> ->]. lia.
Qed.

Lemma str_cmp_gt a b : str_cmp a b = Gt → str_lt b a.
Proof.
  unfold str_lt. revert b. induction a as [|x a IH]; intros [|y b]; simpl; try done.
  rewrite (N.compare_antisym x y). destruct (x ?= y)%N; simpl; auto.
Qed.

#[export] Instance str_lt_trans : Transitive str_lt.
Proof.
  unfold str_lt. intros a. induction a as [|x a IH]; intros [|y b] [|z c]; simpl; try done.
  destruct (N.compare_spec x y), (N.compare_spec y z), (N.compare_spec x z);
    subst; try done; try lia; eauto.
Qed.

Lemma str_lt_irrefl a : ¬ str_lt a a.
Proof. unfold str_lt. by rewrite (proj2 (str_cmp_eq a a) eq_refl). Qed.

(** ** The laws of the map *)

Section laws.
Context {V : Type}.
Implicit Types m : BTreeMap.t V.

(** The invariant: the keys are strictly increasing. *)
Definition sorted m : Prop := StronglySorted str_lt (BTreeMap.keys m).

Lemma get_insert m k v : BTreeMap.get (BTreeMap.insert m k v) k = Some v.
Proof.
  induction m as [|[k' v'] m IH]; simpl; [by rewrite bool_decide_true|].
  destruct (str_cmp k k') eqn:Hc; simpl; try by rewrite bool_decide_true.
  rewrite bool_decide_false; [done|]. intros ->. by rewrite (proj2 (str_cmp_eq k' k') eq_refl) in Hc.
Qed.

Lemma get_insert_ne m k k2 v :
  k ≠ k2 → BTreeMap.get (BTreeMap.insert m k v) k2 = BTreeMap.get m k2.
Proof.
  intros Hne. induction m as [|[k' v'] m IH]; simpl; [by rewrite bool_decide_false|].
  destruct (str_cmp k k') eqn:Hc; simpl.
  - apply str_cmp_eq in Hc as ->. by rewrite !bool_decide_false by done.
  - by rewrite (bool_decide_false (k2 = k)) by done.
  - by rewrite IH.
Qed.

Lemma sorted_cons k v m : sorted ((k, v) :: m) ↔ sorted m ∧ Forall (str_lt k) (BTreeMap.keys m).
Proof.
  unfold sorted, BTreeMap.keys. rewrite fmap_cons. split; [apply StronglySorted_inv|].
  intros [??]. by constructor.
Qed.

Lemma get_below m k : Forall (str_lt k) (BTreeMap.keys m) → BTreeMap.get m k = None.
Proof.
  induction m as [|[k' v] m IH]; [done|]. intros [Hlt Hm]%Forall_cons. simpl.
  rewrite bool_decide_false; [by apply IH|]. intros ->. by apply str_lt_irrefl in Hlt.
Qed.

Lemma get_retain pred m k :
  sorted m → BTreeMap.get (BTreeMap.retain pred m) k =
    (v ← BTreeMap.get m k; if pred k v then Some v else None).
Proof.
  induction m as [|[k' v'] m IH]; [done|]. intros [Hs Hk']%sorted_cons. specialize (IH Hs).
  cbn [BTreeMap.retain BTreeMap.get]. destruct (bool_decide_reflect (k = k')) as [->|Hne]; simpl.
  - destruct (pred k' v'); simpl; [by rewrite bool_decide_true|].
    by rewrite IH, get_below.
  - destruct (pred k' v'); simpl; [by rewrite bool_decide_false|done].
Qed.

Lemma get_map_values f m k : BTreeMap.get (BTreeMap.map_values f m) k = f <$> BTreeMap.get m k.
Proof.
  induction m as [|[k' v'] m IH]; [done|]. simpl. by destruct (bool_decide (k = k')).
Qed.

Lemma keys_insert (P : str → Prop) m k v :
  P k → Forall P (BTreeMap.keys m) → Forall P (BTreeMap.keys (BTreeMap.insert m k v)).
Proof.
  intros Hk. induction m as [|[k' v'] m IH]; intros Hm; [by repeat constructor|].
  apply Forall_cons in Hm as [? Hm]. simpl. destruct (str_cmp k k'); simpl.
  - by constructor.
  - by repeat constructor.
  - constructor; [done|by apply IH].
Qed.

Lemma keys_retain (P : str → Prop) pred m :
  Forall P (BTreeMap.keys m) → Forall P (BTreeMap.keys (BTreeMap.retain pred m)).
Proof.
  induction m as [|[k' v'] m IH]; intros Hm; [done|].
  apply Forall_cons in Hm as [? Hm]. simpl. destruct (pred k' v'); [|by apply IH].
  constructor; [done|by apply IH].
Qed.

Lemma sorted_insert m k v : sorted m → sorted (BTreeMap.insert m k v).
Proof.
  induction m as [|[k' v'] m IH]; [by repeat constructor|]. intros [Hs Hk']%sorted_cons. simpl.
  destruct (str_cmp k k') eqn:Hc.
  - apply str_cmp_eq in Hc as ->. by apply sorted_cons.
  - apply sorted_cons. split; [by apply sorted_cons|]. constructor; [done|].
    eapply Forall_impl; [exact Hk'|]. intros k2 ?. by transitivity k'.
  - apply sorted_cons. split; [by apply IH|]. apply keys_insert; [by apply str_cmp_gt|done].
Qed.

Lemma sorted_retain pred m : sorted m → sorted (BTreeMap.retain pred m).
Proof.
  induction m as [|[k v] m IH]; [done|]. intros [Hs Hk]%sorted_cons. simpl.
  destruct (pred k v); [|by apply IH]. apply sorted_cons.
  split; [by apply IH|by apply keys_retain].
Qed.

Lemma sorted_map_values f m : sorted m → sorted (BTreeMap.map_values f m).
Proof.
  unfold sorted, BTreeMap.keys, BTreeMap.map_values. by rewrite <- list_fmap_compose.
Qed.

Lemma get_elem m k v : BTreeMap.get m k = Some v → (k, v) ∈ m.
Proof.
  induction m as [|[k' v'] m IH]; [done|]. simpl.
  destruct (bool_decide_reflect (k = k')) as [->|]; [intros [= ->]; left|].
  intros. right. auto.
Qed.

Lemma elem_insert m k v x : x ∈ BTreeMap.insert m k v → x = (k, v) ∨ x ∈ m.
Proof.
  induction m as [|[k' v'] m IH]; simpl; [by intros ->%list_elem_of_singleton; left|].
  destruct (str_cmp k k'); intros [->|Hx]%elem_of_cons; try (by left); try (by right; left).
  - right. by right.
  - by right.
  - destruct (IH Hx); [by left|right; by right].
Qed.
Lemma get_some_key m k v : BTreeMap.get m k = Some v → k ∈ BTreeMap.keys m.
Proof. intros Hg%get_elem. apply list_elem_of_fmap. by exists (k, v). Qed.

Lemma get_key m k : k ∈ BTreeMap.keys m → is_Some (BTreeMap.get m k).
Proof.
  induction m as [|[k' v'] m IH]; [by intros ?%not_elem_of_nil|]. simpl.
  intros [->|Hin]%elem_of_cons; [rewrite bool_decide_true by done; by eexists|].
  destruct (bool_decide (k = k')); [by eexists|by apply IH].
Qed.

Lemma elem_keys_insert m k v k2 :
  k2 ∈ BTreeMap.keys (BTreeMap.insert m k v) ↔ k2 = k ∨ k2 ∈ BTreeMap.keys m.
Proof.
  induction m as [|[k' v'] m IH]; simpl.
  - rewrite list_elem_of_singleton. split; [by left|]. intros [?|?%not_elem_of_nil]; done.
  - destruct (str_cmp k k') eqn:Hc; simpl; rewrite ?elem_of_cons, ?IH; [|tauto..].
    apply str_cmp_eq in Hc as ->. tauto.
Qed.

Lemma insert_insert m k v1 v2 :
  BTreeMap.insert (BTreeMap.insert m k v1) k v2 = BTreeMap.insert m k v2.
Proof.
  assert (str_cmp k k = Eq) as Hk by by apply str_cmp_eq.
  induction m as [|[k' v'] m IH]; simpl; [by rewrite Hk|].
  destruct (str_cmp k k') eqn:Hc; simpl; [by rewrite Hk..|]. by rewrite Hc, IH.
Qed.

Lemma insert_id m k v : sorted m → BTreeMap.get m k = Some v → BTreeMap.insert m k v = m.
Proof.
  induction m as [|[k' v'] m IH]; [done|]. intros [Hs Hk']%sorted_cons. simpl.
  destruct (bool_decide_reflect (k = k')) as [->|Hne].
  - intros [= ->]. by rewrite (proj2 (str_cmp_eq k' k') eq_refl).
  - intros Hg. destruct (str_cmp k k') eqn:Hc; [by apply str_cmp_eq in Hc| |by rewrite IH].
    apply get_some_key in Hg. rewrite Forall_forall in Hk'. apply Hk' in Hg.
    exfalso. apply (str_lt_irrefl k). by transitivity k'.
Qed.

Lemma keys_insert_existing m k v :
  sorted m → k ∈ BTreeMap.keys m → BTreeMap.keys (BTreeMap.insert m k v) = BTreeMap.keys m.
Proof.
  induction m as [|[k' v'] m IH]; [by intros _ ?%not_elem_of_nil|]. intros [Hs Hk']%sorted_cons.
  simpl. intros Hin. destruct (str_cmp k k') eqn:Hc; simpl.
  - by apply str_cmp_eq in Hc as ->.
  - exfalso. apply elem_of_cons in Hin as [->|Hin]; [by apply str_lt_irrefl in Hc|].
    rewrite Forall_forall in Hk'. apply Hk' in Hin. apply (str_lt_irrefl k). by transitivity k'.
  - f_equal. apply IH; [done|]. apply elem_of_cons in Hin as [->|?]; [|done].
    by rewrite (proj2 (str_cmp_eq k' k') eq_refl) in Hc.
Qed.
End laws.

#[export] Hint Resolve sorted_insert sorted_retain sorted_map_values : paneflow.
