(* ===== verification/AgentActivity.v ===== *)
(** * Agent activity: events and the activity reducer

    The agent states and gates of [paneflow-ipc-client/src/agent.rs], the
    decoding of an agent event ([paneflow-host/src/agent.rs]), and the reducer
    [apply_event] of [paneflow-serve/src/activity.rs].  Texts are lists of code
    points, [u64] and [u32] values are [N] (no operation here adds to them), an
    exit code is an [i32] in [Z].  The UUID syntax of a session id belongs to
    another crate and is a parameter. *)

From stdpp Require Import strings.
From S2P Require Import Prelude DiffText.

(** ** [Result] *)

#[export] Instance result_bind {E} : MBind (sum E) := λ A B f m,
  match m with inl e => inl e | inr a => f a end.

(** [option.ok_or(e)]. *)
Definition ok_or {E A} (o : option A) (e : E) : E + A :=
  match o with Some a => inr a | None => inl e end.

(** [a.or(b)]. *)
Definition or_else {A} (a b : option A) : option A := match a with Some _ => a | None => b end.

(** A string literal as code points. *)
Definition lit (s : String.string) : str :=
  Ascii.N_of_ascii <$> String.list_ascii_of_string s.

Coercion lit : String.string >-> str.
Local Open Scope N_scope.

#[export] Instance str_eq_dec : EqDecision str := list_eq_dec.

(** ** JSON values ([serde_json::Value]) *)

Inductive Value :=
| Null
| VBool (b : bool)
| VInt (n : Z)
| VFloat
| VString (s : str)
| VArray (vs : list Value)
| VObject (members : list (str * Value)).

Module Value.
(** [value.get(key)]. *)
Definition get (v : Value) (key : str) : option Value :=
  match v with
  | VObject members => snd <$> (snd <$> list_find (λ kv, fst kv = key) members)
  | _ => None
  end.

Definition as_str (v : Value) : option str := match v with VString s => Some s | _ => None end.

Definition as_bool (v : Value) : option bool := match v with VBool b => Some b | _ => None end.

Definition as_i64 (v : Value) : option Z :=
  match v with
  | VInt n => if ((- 2 ^ 63 <=? n) && (n <? 2 ^ 63))%Z then Some n else None
  | _ => None
  end.

Definition as_u64 (v : Value) : option N :=
  match v with
  | VInt n => if ((0 <=? n) && (n <? 2 ^ 64))%Z then Some (Z.to_N n) else None
  | _ => None
  end.

(** [value[key]]: [Null] when there is no such member. *)
Definition index (v : Value) (key : str) : Value := default Null (get v key).
End Value.

(** ** Agent states ([paneflow-ipc-client/src/agent.rs]) *)

Inductive AgentState := Thinking | WaitingForInput | Finished | Errored.

#[export] Instance AgentState_eq_dec : EqDecision AgentState.
Proof. solve_decision. Defined.

Module AgentState.
Definition wire_str (s : AgentState) : str :=
  match s with
  | Thinking => "thinking"%string
  | WaitingForInput => "waiting_for_input"%string
  | Finished => "finished"%string
  | Errored => "errored"%string
  end.

Definition parse (raw : str) : option AgentState :=
  if bool_decide (raw = lit "thinking") then Some Thinking
  else if bool_decide (raw = lit "waiting_for_input") then Some WaitingForInput
  else if bool_decide (raw = lit "finished") then Some Finished
  else if bool_decide (raw = lit "errored") then Some Errored
  else None.

Definition is_busy (s : AgentState) : bool :=
  match s with Thinking | WaitingForInput => true | _ => false end.
End AgentState.

(** [0xC000_013Au32 as i32]. *)
Definition STATUS_CONTROL_C_EXIT : Z := 0xC000013A - 2 ^ 32.

Definition is_human_interruption_exit (exit_code : Z) : bool :=
  ((exit_code =? 129) || (exit_code =? 130) || (exit_code =? 137) || (exit_code =? 143)
   || (exit_code =? STATUS_CONTROL_C_EXIT))%Z.

Definition state_for_exit (exit_code : Z) : AgentState :=
  if (exit_code =? 0)%Z then Finished
  else if is_human_interruption_exit exit_code then Finished
  else Errored.

Inductive AgentStateSource := SrcTerminal | SrcSessionRegistry | SrcHook.

(** [#[derive(PartialOrd)]]: the order of declaration. *)
Definition source_rank (s : AgentStateSource) : N :=
  match s with SrcTerminal => 0 | SrcSessionRegistry => 1 | SrcHook => 2 end.

(** Durations are in milliseconds. *)
Definition SOURCE_TAKEOVER_SILENCE : N := 20000.
Definition EVENT_REORDER_TOLERANCE_MS : N := 5000.

Definition accepts_source (existing : option (AgentStateSource * N)) (incoming : AgentStateSource)
  : bool :=
  match existing with
  | None => true
  | Some (held, silence) =>
      (source_rank held <=? source_rank incoming) || (SOURCE_TAKEOVER_SILENCE <=? silence)
  end.

Definition accepts_event (last incoming : option N) : bool :=
  match last, incoming with
  | Some last, Some incoming =>
      if incoming <? last then EVENT_REORDER_TOLERANCE_MS <? last - incoming else true
  | _, _ => true
  end.

Inductive FieldUpdate (A : Type) := KeepField | SetField (a : A).
Arguments KeepField {A}.
Arguments SetField {A} a.

Inductive AgentLifecycleEvent :=
| LifePromptSubmit
| LifeToolUse (tool_name : option str)
| LifeNotification (message : option str)
| LifeStop (summary : option str)
| LifeExit (exit_code : Z).

Record SessionTransition := mkTransition {
  t_state : AgentState; t_active_tool_name : option str;
  t_message : FieldUpdate (option str); t_last_result : FieldUpdate (option str) }.

Definition reduce_lifecycle_event (event : AgentLifecycleEvent) : SessionTransition :=
  match event with
  | LifePromptSubmit => mkTransition Thinking None (SetField None) KeepField
  | LifeToolUse tool_name => mkTransition Thinking tool_name KeepField KeepField
  | LifeNotification message => mkTransition WaitingForInput None (SetField message) KeepField
  | LifeStop summary => mkTransition Finished None (SetField None) (SetField summary)
  | LifeExit exit_code => mkTransition (state_for_exit exit_code) None (SetField None) KeepField
  end.

Definition next_waiting_since {T} (prev : option (AgentState * option T)) (new_state : AgentState)
    (now : T) : option T :=
  match new_state with
  | WaitingForInput =>
      match prev with
      | Some (WaitingForInput, Some since) => Some since
      | _ => Some now
      end
  | _ => None
  end.

(** ** Agent events ([paneflow-host/src/agent.rs], [ai_hook.rs]) *)

Inductive AgentEventKind :=
| SessionStart | SessionEnd | PromptSubmit | Notification | Stop | ToolUse | Exit.

#[export] Instance AgentEventKind_eq_dec : EqDecision AgentEventKind.
Proof. solve_decision. Defined.

Module AgentEventKind.
Definition as_str (k : AgentEventKind) : str :=
  match k with
  | SessionStart => "ai.session_start"%string
  | SessionEnd => "ai.session_end"%string
  | PromptSubmit => "ai.prompt_submit"%string
  | Notification => "ai.notification"%string
  | Stop => "ai.stop"%string
  | ToolUse => "ai.tool_use"%string
  | Exit => "ai.exit"%string
  end.

Definition all : list AgentEventKind :=
  [SessionStart; PromptSubmit; ToolUse; Notification; Stop; Exit; SessionEnd].

Definition parse (raw : str) : option AgentEventKind :=
  snd <$> list_find (λ k, raw = as_str k) all.

Definition ends_run (k : AgentEventKind) : bool :=
  match k with Stop | Exit | SessionEnd => true | _ => false end.
End AgentEventKind.

Definition MAX_AGENT_TEXT_BYTES : nat := N.to_nat 4096.

(** The loop of [clamp_text]; [len] is the number of bytes pushed so far. *)
Fixpoint clamp_chars (len : nat) (chars : str) : str :=
  match chars with
  | [] => []
  | c :: chars =>
      if (MAX_AGENT_TEXT_BYTES <? len + length (utf8 c))%nat then []
      else c :: clamp_chars (len + length (utf8 c)) chars
  end.

Definition clamp_text (raw : str) : str := clamp_chars 0 (filter (λ c, c ≠ 0) raw).

(** Unicode [White_Space], as [str::trim] uses it. *)
Definition is_unicode_whitespace (c : N) : bool :=
  ((9 <=? c) && (c <=? 13)) || (c =? 32) || (c =? 0x85) || (c =? 0xA0) || (c =? 0x1680)
  || ((0x2000 <=? c) && (c <=? 0x200A)) || (c =? 0x2028) || (c =? 0x2029) || (c =? 0x202F)
  || (c =? 0x205F) || (c =? 0x3000).

Fixpoint trim_front (s : str) : str :=
  match s with
  | c :: s' => if is_unicode_whitespace c then trim_front s' else s
  | [] => []
  end.

Definition trim (s : str) : str := reverse (trim_front (reverse (trim_front s))).

Definition optional_text (params : Value) (keys : list str) : option str :=
  let payload := Value.get params "hook_payload"%string in
  head (omap (λ key,
    v ← or_else (Value.get params key) (payload ≫= λ payload, Value.get payload key);
    s ← Value.as_str v;
    let text := clamp_text s in
    if bool_decide (trim text = []) then None else Some text) keys).

Section agent_event.
Context {SessionId : Type} (parse_session : str → option SessionId).

Record AgentEvent := mkEvent {
  ev_session : SessionId; ev_generation : option N; ev_kind : AgentEventKind; ev_tool : str;
  ev_pid : option N; ev_tool_name : option str; ev_message : option str;
  ev_summary : option str; ev_exit_code : option Z; ev_emitted_at_ms : option N;
  ev_interrupt : bool; ev_payload : Value }.

(** [LifecycleEventSource::from_wire_params] is [Some(Interrupt)]. *)
Definition is_interrupt_source (params : Value) : bool :=
  let payload := Value.get params "hook_payload"%string in
  let value := or_else (Value.get params "event_source"%string)
                 (payload ≫= λ payload, Value.get payload "event_source"%string) in
  bool_decide ((value ≫= Value.as_str) = Some (lit "interrupt")).

(** The messages of the errors of [from_params]. *)
Inductive EventError :=
| MissingSession | InvalidSession | InvalidGeneration | MissingKind
| UnsupportedKind (raw : str) | MissingTool | MissingExitCode.

(** [SessionGeneration] is a [u64]. *)
Definition generation_of (params : Value) : EventError + option N :=
  match or_else (Value.get params "runtime_generation"%string)
          (Value.get params "generation"%string) with
  | None | Some Null => inr None
  | Some value => g ← ok_or (Value.as_u64 value) InvalidGeneration; inr (Some g)
  end.

Definition from_params (params : Value) : EventError + AgentEvent :=
  raw_session ← ok_or (Value.get params "session"%string ≫= Value.as_str) MissingSession;
  session ← ok_or (parse_session raw_session) InvalidSession;
  generation ← generation_of params;
  raw_kind ← ok_or (Value.get params "kind"%string ≫= Value.as_str) MissingKind;
  kind ← ok_or (AgentEventKind.parse raw_kind) (UnsupportedKind raw_kind);
  tool ← ok_or (raw ← Value.get params "tool"%string ≫= Value.as_str;
                let tool := clamp_text raw in
                if bool_decide (tool = []) then None else Some tool) MissingTool;
  let pid := pid ← Value.get params "pid"%string ≫= Value.as_u64;
             if (pid <? 2 ^ 32) && (0 <? pid) then Some pid else None in
  let payload := Value.get params "hook_payload"%string in
  let exit_code :=
    code ← or_else (Value.get params "exit_code"%string)
             (payload ≫= λ payload, Value.get payload "exit_code"%string) ≫= Value.as_i64;
    if ((- 2 ^ 31 <=? code) && (code <? 2 ^ 31))%Z then Some code else None in
  if bool_decide (kind = Exit) && bool_decide (exit_code = None) then inl MissingExitCode
  else
    inr (mkEvent session generation kind tool pid
      (optional_text params [lit "tool_name"])
      (optional_text params [lit "message"])
      (optional_text params [lit "last_assistant_message"; lit "last_result"; lit "summary"])
      exit_code
      (Value.get params "emitted_at_ms"%string ≫= Value.as_u64)
      (is_interrupt_source params)
      (default (VObject []) payload)).

(** ** The reducer ([paneflow-serve/src/activity.rs]) *)

Record AgentSummary := mkSummary {
  tool : str; state : str; source : str; active_tool_name : option str; message : option str;
  last_result : option str; provider_session_id : option str; transcript_path : option str;
  pid : option N; waiting_since_ms : option N; last_event_at_ms : option N; errored : bool;
  stale : bool; updated_at_ms : N }.

Definition declared (tool : str) (now_ms : N) : AgentSummary :=
  mkSummary tool (AgentState.wire_str Finished) "hook"%string None None None None None None None
    None false false now_ms.

Inductive AgentDecision := Update (summary : AgentSummary) | Clear | Stale.

(** [saturating_sub]. *)
Definition silence_since (updated_at_ms now_ms : N) : N := now_ms - updated_at_ms.

Definition accepts_process (existing : AgentSummary) (event : AgentEvent) (silence : N) : bool :=
  match pid existing, ev_pid event with
  | Some held, Some incoming =>
      if held =? incoming then true
      else negb (AgentEventKind.ends_run (ev_kind event)) || (SOURCE_TAKEOVER_SILENCE <=? silence)
  | _, _ => true
  end.

Definition optional_payload_text (event : AgentEvent) (key : str) : option str :=
  v ← Value.get (ev_payload event) key;
  s ← Value.as_str v;
  let text := clamp_text s in
  if bool_decide (text = []) then None else Some text.

(** The fields every accepted event writes. *)
Definition stamp (event : AgentEvent) (now_ms : N) (s : AgentSummary) : AgentSummary :=
  mkSummary (ev_tool event) (state s) (source s) (active_tool_name s) (message s) (last_result s)
    (or_else (optional_payload_text event "session_id"%string) (provider_session_id s))
    (or_else (optional_payload_text event "transcript_path"%string) (transcript_path s))
    (or_else (ev_pid event) (pid s)) (waiting_since_ms s)
    (or_else (ev_emitted_at_ms event) (last_event_at_ms s)) (errored s) false now_ms.

(** The fields of the run an event of some kind writes. *)
Definition set_run (s : AgentSummary) (active msg result : option str) (err : bool)
  : AgentSummary :=
  mkSummary (tool s) (state s) (source s) active msg result (provider_session_id s)
    (transcript_path s) (pid s) (waiting_since_ms s) (last_event_at_ms s) err (stale s)
    (updated_at_ms s).

Definition run_event (event : AgentEvent) (s : AgentSummary) : AgentSummary :=
  match ev_kind event with
  | PromptSubmit => set_run s None None (last_result s) false
  | ToolUse => set_run s (ev_tool_name event) (message s) (last_result s) (errored s)
  | Notification => set_run s None (ev_message event) (last_result s) (errored s)
  | Stop =>
      set_run s None None (if negb (ev_interrupt event) then ev_summary event else last_result s)
        (errored s)
  | Exit =>
      set_run s None None (last_result s)
        (bool_decide (state_for_exit (default 0%Z (ev_exit_code event)) = Errored))
  | SessionStart | SessionEnd => s
  end.

Definition apply_event (existing : option AgentSummary) (event : AgentEvent) (now_ms : N)
  : AgentDecision :=
  if match existing with
     | Some summary => negb (accepts_event (last_event_at_ms summary) (ev_emitted_at_ms event))
     | None => false
     end
  then Stale
  else if bool_decide (ev_kind event = SessionEnd) then
    match existing with
    | Some summary =>
        if negb (accepts_process summary event (silence_since (updated_at_ms summary) now_ms))
        then Stale
        else if errored summary then Stale else Clear
    | None => Clear
    end
  else if match existing with
          | Some summary =>
              negb (accepts_process summary event (silence_since (updated_at_ms summary) now_ms))
          | None => false
          end
  then Stale
  else
    let summary := default (declared (ev_tool event) now_ms) existing in
    Update (run_event event (stamp event now_ms summary)).
End agent_event.

Arguments AgentEvent : clear implicits.

(** ** Adopting the activity of a session after a restart *)

Inductive SessionLifecycle :=
| Starting | Running | Exited (code : Z) (signal : option str) | Failed (reason : str) | Lost
| Unverified (reason : str).

Definition is_running (l : SessionLifecycle) : bool :=
  match l with Starting | Running => true | _ => false end.

Definition reconcile_adopted (summary : AgentSummary) (lifecycle : SessionLifecycle) (now_ms : N)
  : AgentSummary :=
  let busy := match AgentState.parse (state summary) with
              | Some state => AgentState.is_busy state | None => false end in
  if is_running lifecycle || negb busy then summary
  else
    mkSummary (tool summary) (state summary) (source summary) (active_tool_name summary)
      (message summary) (last_result summary) (provider_session_id summary)
      (transcript_path summary) (pid summary) (waiting_since_ms summary) (last_event_at_ms summary)
      (errored summary) true now_ms.
