(* ===== verification/AgentSession.v ===== *)
(** * Agent activity: the entry of one session ([paneflow-serve/src/state.rs])

    The worker's picture of one session: the verdict of the status its program
    declares, the outcome, the notification a change of status asks for
    ([notifications.rs]), and the merge of a row of the core.  The catalog of
    runtimes is generated when the code is built, and the decoders are derived by
    [serde]: both are parameters, as is what the operating system answers. *)

From stdpp Require Import strings.
From S2P Require Import Prelude DiffText OrderedMap AgentActivity.

Local Open Scope N_scope.

(** ** Texts *)

(** [text.is_char_boundary(end)]. *)
Fixpoint is_char_boundary (text : str) (end_ : nat) : bool :=
  (end_ =? 0)%nat ||
  match text with
  | [] => false
  | c :: text =>
      (length (utf8 c) <=? end_)%nat && is_char_boundary text (end_ - length (utf8 c))
  end.

(** [while !raw.is_char_boundary(end) { end -= 1 }]. *)
Fixpoint floor_boundary (text : str) (end_ : nat) : nat :=
  if is_char_boundary text end_ then end_
  else match end_ with O => O | S end_ => floor_boundary text end_ end.

(** [text[..end]], [end] a character boundary. *)
Fixpoint take_bytes (text : str) (end_ : nat) : str :=
  match text with
  | [] => []
  | c :: text =>
      if (length (utf8 c) <=? end_)%nat then c :: take_bytes text (end_ - length (utf8 c)) else []
  end.

Definition MAX_FAILURE_REASON_BYTES : nat := 128.

Definition failure_reason_text (raw : str) : str :=
  take_bytes raw (floor_boundary raw (Nat.min (length (bytes raw)) MAX_FAILURE_REASON_BYTES)).

(** ** The runtime catalog ([runtime_catalog.rs]) *)

Record Runtime := mkRuntime {
  runtime_id : str; slug : str; label : str; command_aliases : list str;
  process_aliases : list str }.

Section catalog.
Context (RUNTIMES : list Runtime).

Definition find_runtime (pred : Runtime → bool) : option Runtime :=
  snd <$> list_find (λ r, pred r = true) RUNTIMES.

Definition runtime_by_id (id : str) : option Runtime :=
  find_runtime (λ r, bool_decide (runtime_id r = id)).
Definition runtime_by_slug (s : str) : option Runtime :=
  find_runtime (λ r, bool_decide (slug r = s)).
Definition runtime_by_command_alias (alias : str) : option Runtime :=
  find_runtime (λ r, bool_decide (alias ∈ command_aliases r)).
Definition runtime_by_process_alias (alias : str) : option Runtime :=
  find_runtime (λ r, bool_decide (alias ∈ process_aliases r)).

Definition runtime_for_tool (tool : str) : option Runtime :=
  or_else (or_else (or_else (runtime_by_command_alias tool) (runtime_by_slug tool))
             (runtime_by_process_alias tool)) (runtime_by_id tool).
End catalog.

(** ** The data of an entry *)

Inductive ActivitySource := Declared | NoSource.
Inductive Status := Busy | Idle | Attention | StatusErrored.
Inductive Health := Live | Stopped | NonResumable.
Inductive ProcessVerdict := ProcessLive | ProcessGone | ProcessUnverifiable.

#[export] Instance ActivitySource_eq_dec : EqDecision ActivitySource.
Proof. solve_decision. Defined.
#[export] Instance Status_eq_dec : EqDecision Status.
Proof. solve_decision. Defined.
#[export] Instance Health_eq_dec : EqDecision Health.
Proof. solve_decision. Defined.

Module Status.
Definition agent_state (s : Status) : AgentState :=
  match s with
  | Busy => Thinking
  | Idle => Finished
  | Attention => WaitingForInput
  | StatusErrored => Errored
  end.

Definition in_turn (s : Status) : bool := match s with Busy | Attention => true | _ => false end.
End Status.

Record ProcessIdentity := mkProcess { process_pid : N; started_at : option N }.

Record DeclaredStatus := mkDeclared {
  ds_state : str; kind : option str; progress : option N; app : str; ds_title : str;
  ds_message : str }.

#[export] Instance DeclaredStatus_eq_dec : EqDecision DeclaredStatus.
Proof. solve_decision. Defined.

Record RuntimeObservation := mkObservation {
  obs_id : str; obs_pid : N; pid_started_at : option N; process_group : N; process_name : str;
  argv : option (list str) }.

(** ** Declared statuses *)

Definition DECLARED_WORKING : str := lit "working".
Definition DECLARED_BLOCKED : str := lit "blocked".
Definition DECLARED_DONE : str := lit "done".
Definition DECLARED_ERROR : str := lit "error".
Definition OUTCOME_COMPLETED : str := lit "completed".
Definition OUTCOME_FAILED : str := lit "failed".

Definition declared_outcome (declared : DeclaredStatus) (held : option str) : option str :=
  if bool_decide (ds_state declared = DECLARED_DONE) then Some OUTCOME_COMPLETED
  else if bool_decide (ds_state declared = DECLARED_ERROR) then
    Some (match trim (ds_message declared) with
          | [] => OUTCOME_FAILED
          | message => OUTCOME_FAILED ++ lit ":" ++ failure_reason_text message
          end)
  else if bool_decide (ds_state declared = DECLARED_WORKING) then None
  else held.

Inductive Notice := NoticeFinished | NeedsInput.

Definition notice_between (previous current : Status) (declared : option DeclaredStatus)
  : option Notice :=
  match previous, current with
  | Attention, Attention | StatusErrored, StatusErrored => None
  | _, (Attention | StatusErrored) => Some NeedsInput
  | _, Idle =>
      if Status.in_turn previous
         && match declared with
            | Some declared => bool_decide (ds_state declared = DECLARED_DONE)
            | None => false
            end
      then Some NoticeFinished else None
  | _, _ => None
  end.

Inductive TurnInput := Prompt | StopInput | Working | Blocked | Settled | Ended | Vanished.

Definition turn_input_between (before after : Status) : option TurnInput :=
  match after with
  | Busy => Some Working
  | Attention => Some Blocked
  | Idle | StatusErrored => if Status.in_turn before then Some Settled else None
  end.

Definition source_wire (source : ActivitySource) : str :=
  match source with Declared => "terminal"%string | NoSource => "hook"%string end.

(** ** Notifications ([notifications.rs]) *)

Definition MAX_NOTIFICATION_BODY_CHARS : nat := 200.

Definition KIND_FINISHED : str := lit "finished".
Definition KIND_NEEDS_INPUT : str := lit "needs_input".

Record Notification := mkNotification {
  n_kind : str; runtime_label_ : str; body : option str }.

Definition truncate_body (raw : option str) : option str :=
  raw ← raw;
  match trim raw with
  | [] => None
  | trimmed => Some (take MAX_NOTIFICATION_BODY_CHARS trimmed)
  end.

Definition notification_for (notice : Notice) (runtime_label : str) (body : option str)
  : option Notification :=
  Some (mkNotification (match notice with
                        | NoticeFinished => KIND_FINISHED
                        | NeedsInput => KIND_NEEDS_INPUT
                        end) runtime_label (truncate_body body)).

(** ** The entry *)

Record SessionEntry := mkEntry {
  hook_revision : N; session : str; generation : N; workspace : option str; title : option str;
  cwd : option str; lifecycle : SessionLifecycle; process : option ProcessIdentity;
  core_protocol : N; core_build_id : str; activity : option AgentSummary;
  declared_activity : bool; activity_source : ActivitySource; status : Status;
  outcome : option str; health : Health; declared_status : option DeclaredStatus;
  program_status_capable : bool; observed_runtime : option RuntimeObservation;
  foreground_runtime : option str; account_env : list (str * str); state_seq : N; unread : bool;
  entry_updated_at_ms : N }.

Definition set_verdict (st : Status) (src : ActivitySource) (out : option str) (e : SessionEntry)
  : SessionEntry :=
  mkEntry (hook_revision e) (session e) (generation e) (workspace e) (title e) (cwd e)
    (lifecycle e) (process e) (core_protocol e) (core_build_id e) (activity e)
    (declared_activity e) src st out (health e) (declared_status e) (program_status_capable e)
    (observed_runtime e) (foreground_runtime e) (account_env e) (state_seq e) (unread e)
    (entry_updated_at_ms e).

Definition set_activity (a : option AgentSummary) (declared : bool) (e : SessionEntry)
  : SessionEntry :=
  mkEntry (hook_revision e) (session e) (generation e) (workspace e) (title e) (cwd e)
    (lifecycle e) (process e) (core_protocol e) (core_build_id e) a declared (activity_source e)
    (status e) (outcome e) (health e) (declared_status e) (program_status_capable e)
    (observed_runtime e) (foreground_runtime e) (account_env e) (state_seq e) (unread e)
    (entry_updated_at_ms e).

Definition set_health (h : Health) (e : SessionEntry)
  : SessionEntry :=
  mkEntry (hook_revision e) (session e) (generation e) (workspace e) (title e) (cwd e)
    (lifecycle e) (process e) (core_protocol e) (core_build_id e) (activity e)
    (declared_activity e) (activity_source e) (status e) (outcome e) h (declared_status e)
    (program_status_capable e) (observed_runtime e) (foreground_runtime e) (account_env e)
    (state_seq e) (unread e) (entry_updated_at_ms e).

Definition set_lifecycle (l : SessionLifecycle) (e : SessionEntry)
  : SessionEntry :=
  mkEntry (hook_revision e) (session e) (generation e) (workspace e) (title e) (cwd e) l
    (process e) (core_protocol e) (core_build_id e) (activity e) (declared_activity e)
    (activity_source e) (status e) (outcome e) (health e) (declared_status e)
    (program_status_capable e) (observed_runtime e) (foreground_runtime e) (account_env e)
    (state_seq e) (unread e) (entry_updated_at_ms e).

Definition set_hook_revision (revision : N) (e : SessionEntry)
  : SessionEntry :=
  mkEntry revision (session e) (generation e) (workspace e) (title e) (cwd e) (lifecycle e)
    (process e) (core_protocol e) (core_build_id e) (activity e) (declared_activity e)
    (activity_source e) (status e) (outcome e) (health e) (declared_status e)
    (program_status_capable e) (observed_runtime e) (foreground_runtime e) (account_env e)
    (state_seq e) (unread e) (entry_updated_at_ms e).

Definition set_state_seq (seq : N) (e : SessionEntry)
  : SessionEntry :=
  mkEntry (hook_revision e) (session e) (generation e) (workspace e) (title e) (cwd e)
    (lifecycle e) (process e) (core_protocol e) (core_build_id e) (activity e)
    (declared_activity e) (activity_source e) (status e) (outcome e) (health e)
    (declared_status e) (program_status_capable e) (observed_runtime e) (foreground_runtime e)
    (account_env e) seq (unread e) (entry_updated_at_ms e).

Definition set_unread (u : bool) (e : SessionEntry)
  : SessionEntry :=
  mkEntry (hook_revision e) (session e) (generation e) (workspace e) (title e) (cwd e)
    (lifecycle e) (process e) (core_protocol e) (core_build_id e) (activity e)
    (declared_activity e) (activity_source e) (status e) (outcome e) (health e)
    (declared_status e) (program_status_capable e) (observed_runtime e) (foreground_runtime e)
    (account_env e) (state_seq e) u (entry_updated_at_ms e).

Definition set_updated_at (now_ms : N) (e : SessionEntry)
  : SessionEntry :=
  mkEntry (hook_revision e) (session e) (generation e) (workspace e) (title e) (cwd e)
    (lifecycle e) (process e) (core_protocol e) (core_build_id e) (activity e)
    (declared_activity e) (activity_source e) (status e) (outcome e) (health e)
    (declared_status e) (program_status_capable e) (observed_runtime e) (foreground_runtime e)
    (account_env e) (state_seq e) (unread e) now_ms.

Section entry.
Context (RUNTIMES : list Runtime).

Definition observed_runtime_of (o : RuntimeObservation) : option Runtime :=
  runtime_by_id RUNTIMES (obs_id o).

Definition foreground_runtime_id (observation : option RuntimeObservation) : option str :=
  runtime_id <$> (observation ≫= observed_runtime_of).

(** [SessionEntry::runtime]. *)
Definition runtime (e : SessionEntry) : option Runtime :=
  or_else (summary ← activity e; runtime_for_tool RUNTIMES (tool summary))
    (observed_runtime e ≫= observed_runtime_of).

Definition agent_declaration (e : SessionEntry) : option DeclaredStatus :=
  match runtime e with Some _ => declared_status e | None => None end.

Definition declared_verdict (e : SessionEntry) : Status * ActivitySource :=
  match agent_declaration e with
  | None => (Idle, NoSource)
  | Some declared =>
      let running := is_running (lifecycle e) in
      (if bool_decide (ds_state declared = DECLARED_ERROR) then StatusErrored
       else if bool_decide (ds_state declared = DECLARED_WORKING) && running then Busy
       else if bool_decide (ds_state declared = DECLARED_BLOCKED) && running then Attention
       else Idle, Declared)
  end.

Definition adopt_declared_verdict (e : SessionEntry) : SessionEntry :=
  let '(status, source) := declared_verdict e in
  set_verdict status source (declared ← agent_declaration e; declared_outcome declared None) e.

Definition set_pid (s : AgentSummary) (p : option N) : AgentSummary :=
  mkSummary (tool s) (state s) (source s) (active_tool_name s) (message s) (last_result s)
    (provider_session_id s) (transcript_path s) p (waiting_since_ms s) (last_event_at_ms s)
    (errored s) (stale s) (updated_at_ms s).

(** The entry, and whether its activity row appeared or disappeared. *)
Definition reconcile_declared_activity (e : SessionEntry) (source : ActivitySource) (now_ms : N)
  : SessionEntry * bool :=
  match source with
  | Declared =>
      if bool_decide (is_Some (activity e)) then (e, false)
      else
        match (observation ← observed_runtime e;
               runtime ← observed_runtime_of observation;
               tool ← head (command_aliases runtime);
               Some (observation, tool)) with
        | None => (e, false)
        | Some (observation, tool) =>
            (set_activity (Some (set_pid (declared tool now_ms) (Some (obs_pid observation))))
               true e, true)
        end
  | NoSource =>
      if declared_activity e && bool_decide (is_Some (activity e))
      then (set_activity None false e, true) else (e, false)
  end.

Definition refresh_health (verify : ProcessIdentity → ProcessVerdict) (e : SessionEntry)
  : SessionEntry :=
  set_health (match verify <$> process e with
              | Some ProcessLive => Live
              | Some ProcessGone => Stopped
              | Some ProcessUnverifiable | None => NonResumable
              end) e.

Definition live (e : SessionEntry) : bool :=
  bool_decide (health e = Live) && is_running (lifecycle e).

Definition runtime_label (e : SessionEntry) : str :=
  match runtime e with
  | Some runtime => label runtime
  | None => match activity e with Some summary => tool summary | None => lit "Agent" end
  end.

Definition declared_message (e : SessionEntry) : option str :=
  declared ← declared_status e;
  match trim (ds_message declared) with [] => None | message => Some message end.

(** ** [derive], on the entry

    The summary of the activity follows the status; it is touched when the
    derivation is not [settled]. *)
Definition derive_summary (s : AgentSummary) (st : AgentState) (src : ActivitySource)
    (settled : bool) (now_ms : N) : AgentSummary :=
  let previous := AgentState.parse (state s) in
  mkSummary (tool s) (AgentState.wire_str st) (source_wire src) (active_tool_name s) (message s)
    (last_result s) (provider_session_id s) (transcript_path s) (pid s)
    (next_waiting_since ((λ held, (held, waiting_since_ms s)) <$> previous) st now_ms)
    (last_event_at_ms s) (errored s) (stale s) (if settled then updated_at_ms s else now_ms).

Record Derived := mkDerived {
  d_entry : SessionEntry; d_notification : option Notification; d_changed : bool;
  d_log : option str; d_turn_input : option TurnInput }.

Definition derive_entry (e : SessionEntry) (now_ms : N) : Derived :=
  let '(st, src) := declared_verdict e in
  let declared := agent_declaration e in
  let notice := notice_between (status e) st declared in
  let out := match declared with
             | Some declared => declared_outcome declared (outcome e)
             | None => outcome e
             end in
  let outcome_changed := negb (bool_decide (outcome e = out)) in
  let '(e, declared_row_changed) := reconcile_declared_activity e src now_ms in
  let state_ := Status.agent_state st in
  let settled := negb declared_row_changed && bool_decide (status e = st)
                 && bool_decide (activity_source e = src) && bool_decide (outcome e = out)
                 && match activity e with
                    | Some summary => bool_decide (state summary = AgentState.wire_str state_)
                    | None => true
                    end in
  let turn_input := if bool_decide (status e = st) then None
                    else turn_input_between (status e) st in
  let e := if bool_decide (status e = st) then e
           else set_state_seq ((state_seq e + 1) mod 2 ^ 64) e in
  let e := set_verdict st src out e in
  let e := set_activity ((λ s, derive_summary s state_ src settled now_ms) <$> activity e)
             (declared_activity e) e in
  let e := if settled then e else set_updated_at now_ms e in
  let body := match notice with
              | Some NoticeFinished => or_else (activity e ≫= last_result) (declared_message e)
              | Some NeedsInput => or_else (declared_message e) (activity e ≫= message)
              | None => None
              end in
  let notification := notice ← notice; notification_for notice (runtime_label e) body in
  let e := if match notification with
              | Some n => bool_decide (n_kind n = KIND_FINISHED) | None => false end
           then set_unread true e else e in
  mkDerived e notification (negb settled) (if outcome_changed then out else None) turn_input.
End entry.

(** ** Building an entry *)

Definition ACCOUNT_ENV_KEYS : list str := [lit "CLAUDE_CONFIG_DIR"; lit "CODEX_HOME"].

Definition account_env_of (env : BTreeMap.t str) : BTreeMap.t str :=
  foldl (λ out key,
    match BTreeMap.get env key with
    | Some ((_ :: _) as value) => BTreeMap.insert out key (clamp_text value)
    | _ => out
    end) [] ACCOUNT_ENV_KEYS.

(** The fields of a [SessionManifest] the worker reads. *)
Record HookRecord := mkHook {
  hook_event : option Value; activity_event : option Value; hook_tool : str }.

Record SessionManifest := mkManifest {
  m_session : str; m_workspace : option str; m_generation : N; m_cwd : str;
  launch_env : BTreeMap.t str; m_lifecycle : SessionLifecycle;
  m_process : option ProcessIdentity; m_title : option str; current_cwd : option str;
  last_hook : option HookRecord; m_declared_status : option DeclaredStatus;
  m_program_status_capable : bool; current_observation : option RuntimeObservation;
  host_protocol_version : N; host_build_id : str; m_updated_at_ms : N }.

(** The decoders [serde] derives for the parts of a row, and the UUID syntax
    ([Uuid::parse_str], hyphenated). *)
Class Decoders := {
  decode_lifecycle : Value → option SessionLifecycle;
  decode_process : Value → option ProcessIdentity;
  decode_observation : Value → option (option RuntimeObservation);
  decode_declared : Value → option (option DeclaredStatus);
  decode_env : Value → option (BTreeMap.t str);
  decode_summary : Value → option AgentSummary;
  uuid_hyphenated : str → option str }.

(** [SessionId::parse] and [WorkspaceId::parse]. *)
Definition parse_id `{Decoders} (value : str) : option str :=
  canonical ← uuid_hyphenated value;
  if bool_decide (canonical ≠ value) then None else Some canonical.

Section build.
Context `{Decoders} (RUNTIMES : list Runtime).

Definition from_manifest (verify : ProcessIdentity → ProcessVerdict) (m : SessionManifest)
  : SessionEntry :=
  let observed := current_observation m in
  let entry := mkEntry 0 (m_session m) (m_generation m) (m_workspace m) (m_title m)
    (Some (default (m_cwd m) (current_cwd m))) (m_lifecycle m) (m_process m)
    (host_protocol_version m) (host_build_id m)
    ((λ hook, declared (hook_tool hook) (m_updated_at_ms m)) <$> last_hook m) false NoSource Idle
    None NonResumable (m_declared_status m) (m_program_status_capable m) observed
    (foreground_runtime_id RUNTIMES observed) (account_env_of (launch_env m)) 0 false
    (m_updated_at_ms m) in
  refresh_health verify (adopt_declared_verdict RUNTIMES entry).

Definition merge_core_row (session_id : str) (raw : Value) (held : option SessionEntry)
    (now_ms : N) : SessionEntry :=
  let field key := Value.index raw key in
  let generation_ := default 1 (Value.as_u64 (field "generation"%string)) in
  let lifecycle_ := default Lost (decode_lifecycle (field "lifecycle"%string)) in
  let workspace_ := Value.as_str (field "workspace"%string) ≫= parse_id in
  let same := match held with
              | Some held => bool_decide (generation held = generation_) | None => false end in
  let held_same := if same then held else None in
  let held_activity := held_same ≫= activity in
  let declared_activity_ := bool_decide (is_Some held_activity)
    && match held with Some held => declared_activity held | None => false end in
  let process_ := or_else (decode_process (field "process"%string)) (held ≫= process) in
  let hooked := (λ tool, declared tool now_ms) <$>
                  Value.as_str (Value.index (field "last_hook"%string) "tool"%string) in
  let observation := mjoin (decode_observation (field "observed_runtime"%string)) in
  let entry := mkEntry
    (match held_same with Some held => hook_revision held | None => 0 end)
    session_id generation_ workspace_
    (Value.as_str (field "title"%string)) (Value.as_str (field "cwd"%string))
    lifecycle_ process_
    (default 0 (or_else
      (v ← Value.as_u64 (field "host_protocol_version"%string); if v <? 2 ^ 32 then Some v else None)
      (core_protocol <$> held)))
    (default [] (or_else (Value.as_str (field "host_build_id"%string)) (core_build_id <$> held)))
    (or_else (or_else held_activity hooked) (decode_summary (field "agent"%string)))
    declared_activity_ NoSource Idle None NonResumable
    (mjoin (decode_declared (field "declared_status"%string)))
    (default false (Value.as_bool (field "program_status_capable"%string)))
    (or_else observation (held ≫= observed_runtime))
    (foreground_runtime_id RUNTIMES observation)
    (default [] (or_else (env ← decode_env (field "account_env"%string);
                          match env with [] => None | _ => Some env end)
                   (account_env <$> held)))
    (match held with Some held => state_seq held | None => 0 end)
    false now_ms in
  match held_same with
  | Some held =>
      set_unread (unread held)
        (set_verdict (status held) (activity_source held) (outcome held) entry)
  | None => adopt_declared_verdict RUNTIMES entry
  end.
End build.
