(* ===== verification/AgentWorker.v ===== *)
(** * Agent activity: the state of the worker ([paneflow-serve/src/state.rs])

    [WorkerState] and every operation that changes it.  The clock, the state of
    the processes and the directory of an account are what the operating system
    answers during a call: an argument [os] of the operations, [now] being the
    reading of the clock for the call. *)

From stdpp Require Import strings.
From S2P Require Import Prelude DiffText OrderedMap AgentActivity AgentSession.

Local Open Scope N_scope.

(** ** The activity log ([notifications.rs]) *)

Definition ACTIVITY_LOG_CAPACITY : nat := N.to_nat 256.

Record ActivityLogEntry := mkLog {
  l_session : str; l_generation : N; l_outcome : str; l_at_ms : N }.

Module ActivityLog.
(** The entries, oldest first. *)
Definition record (log : list ActivityLogEntry) (session : str) (generation : N) (outcome : str)
    (at_ms : N) : list ActivityLogEntry :=
  (if (length log =? ACTIVITY_LOG_CAPACITY)%nat then tail log else log)
  ++ [mkLog session generation outcome at_ms].

(** [to_values(limit)], without the rendering. *)
Definition to_values (log : list ActivityLogEntry) (limit : nat) : list ActivityLogEntry :=
  take limit (reverse log).
End ActivityLog.

(** ** Turn signals *)

Definition MAX_PENDING_TURN_SIGNALS : nat := N.to_nat 4096.

Record LedgerAccount := mkAccount { account_agent : str; config_dir : str }.

#[export] Instance LedgerAccount_eq_dec : EqDecision LedgerAccount.
Proof. solve_decision. Defined.

Record TurnSignal := mkSignal {
  ts_session : str; ts_account : LedgerAccount; ts_input : TurnInput; ts_at_ms : N; ts_order : N;
  ts_transcript : option str }.

Inductive UsageAgent := ClaudeCode | Codex.

Module UsageAgent.
Definition runtime_slug (a : UsageAgent) : str :=
  match a with ClaudeCode => "claude-code"%string | Codex => "codex"%string end.

Definition for_runtime_slug (slug : str) : option UsageAgent :=
  snd <$> list_find (λ a, runtime_slug a = slug) [ClaudeCode; Codex].
End UsageAgent.

(** What the operating system answers during a call. *)
Record Os := mkOs {
  now : N;
  verify : ProcessIdentity → ProcessVerdict;
  env_var : str → option str;
  session_account_dir : UsageAgent → BTreeMap.t str → option str }.

Section usage_account.
Context (RUNTIMES : list Runtime) (os : Os).

Definition usage_account (e : SessionEntry) : option LedgerAccount :=
  r ← runtime RUNTIMES e;
  dir ← (match UsageAgent.for_runtime_slug (slug r) with
         | Some agent =>
             let env := foldl (λ env key,
               match env_var os key with
               | Some value => BTreeMap.insert env key value
               | None => env
               end) [] ACCOUNT_ENV_KEYS in
             let env := foldl (λ env kv, BTreeMap.insert env (fst kv) (snd kv)) env
                          (account_env e) in
             session_account_dir os agent env
         | None => Some []
         end);
  Some (mkAccount (slug r) dir).
End usage_account.

(** ** The worker *)

(** The [home] path, which the operations only store, is left out. *)
Record WorkerState := mkWorker {
  sessions : BTreeMap.t SessionEntry; log : list ActivityLogEntry;
  turn_signals : list TurnSignal }.

(** [session] is the entry the value of the projection renders. *)
Record Projection := mkProjection {
  p_session : SessionEntry; p_notification : option Notification; p_changed : bool }.

Definition set_sessions (w : WorkerState) (s : BTreeMap.t SessionEntry) : WorkerState :=
  mkWorker s (log w) (turn_signals w).

(** [f] applied to the entry of a session in place. *)
Definition update_session (w : WorkerState) (session : str) (f : SessionEntry → SessionEntry)
  : WorkerState :=
  match BTreeMap.get (sessions w) session with
  | Some e => set_sessions w (BTreeMap.insert (sessions w) session (f e))
  | None => w
  end.

Module WorkerState.
Definition new : WorkerState := mkWorker [] [] [].

Definition drain_turn_signals (w : WorkerState) : WorkerState * list TurnSignal :=
  (mkWorker (sessions w) (log w) [], turn_signals w).

Definition running_sessions (w : WorkerState) : list str :=
  session <$> filter (λ e, is_running (lifecycle e) = true) (BTreeMap.values (sessions w)).

Definition sessions_in_turn (w : WorkerState) : list str :=
  session <$> filter (λ e, is_running (lifecycle e) && Status.in_turn (status e) = true)
                (BTreeMap.values (sessions w)).

Definition refresh_health (os : Os) (w : WorkerState) : WorkerState :=
  set_sessions w (BTreeMap.map_values (λ e,
    let e := AgentSession.refresh_health (verify os) e in
    if bool_decide (health e = Stopped) && is_running (lifecycle e)
    then set_updated_at (now os) (set_lifecycle Lost e) else e) (sessions w)).

Definition reconcile_adopted_activity (os : Os) (w : WorkerState) : WorkerState :=
  set_sessions w (BTreeMap.map_values (λ e,
    match activity e with
    | Some summary =>
        if stale summary then e
        else set_activity (Some (reconcile_adopted summary (lifecycle e) (now os)))
               (declared_activity e) e
    | None => e
    end) (sessions w)).

Section worker.
Context `{Decoders} (RUNTIMES : list Runtime).

Definition push_turn_signal (os : Os) (w : WorkerState) (session : str) (input : TurnInput)
    (at_ms order : N) : WorkerState :=
  match BTreeMap.get (sessions w) session with
  | None => w
  | Some e =>
      match usage_account RUNTIMES os e with
      | None => w
      | Some account =>
          let transcript := match input with
                            | StopInput => activity e ≫= transcript_path | _ => None end in
          let signals := if (MAX_PENDING_TURN_SIGNALS <=? length (turn_signals w))%nat
                         then tail (turn_signals w) else turn_signals w in
          mkWorker (sessions w) (log w)
            (signals ++ [mkSignal session account input at_ms order transcript])
      end
  end.

Definition derive (os : Os) (w : WorkerState) (session : str) (now_ms : N)
  : WorkerState * option Projection :=
  match BTreeMap.get (sessions w) session with
  | None => (w, None)
  | Some e =>
      let d := derive_entry RUNTIMES e now_ms in
      let e := d_entry d in
      let w := mkWorker (BTreeMap.insert (sessions w) session e)
                 (match d_log d with
                  | Some outcome =>
                      ActivityLog.record (log w) session (generation e) outcome now_ms
                  | None => log w
                  end) (turn_signals w) in
      let projection := mkProjection e (d_notification d) (d_changed d) in
      let w := match d_turn_input d with
               | Some input => push_turn_signal os w session input now_ms 0
               | None => w
               end in
      (w, Some projection)
  end.

Definition hook_input (kind : AgentEventKind) : option TurnInput :=
  match kind with
  | PromptSubmit => Some Prompt
  | Stop => Some StopInput
  | Exit | SessionEnd => Some Ended
  | _ => None
  end.

(** A frame is only looked at when it is new: its revision is above the one
    held, or neither has one. *)
Definition is_replay (revision held : N) : bool :=
  ((0 <? revision) && (revision <=? held)) || ((revision =? 0) && (0 <? held)).

Definition apply_core_event (os : Os) (w : WorkerState) (frame : Value)
  : WorkerState * option Projection :=
  match from_params parse_id frame with
  | inl _ => (w, None)
  | inr event =>
      let sid := ev_session event in
      match BTreeMap.get (sessions w) sid with
      | None => (w, None)
      | Some e =>
          let revision := default 0 (Value.as_u64 (Value.index frame "revision"%string)) in
          if is_replay revision (hook_revision e) then (w, None)
          else if match ev_generation event with
                  | Some requested => negb (requested =? generation e) | None => false end
          then (w, None)
          else
            let e := set_hook_revision revision e in
            let now_ms := default (now os)
              (Value.as_u64 (Value.index frame "received_at_ms"%string)) in
            let w := set_sessions w (BTreeMap.insert (sessions w) sid e) in
            match apply_event (activity e) event now_ms with
            | Stale => (w, None)
            | decision =>
                let summary := match decision with Update summary => Some summary | _ => None end in
                let e := set_updated_at now_ms (set_activity summary false e) in
                let w := set_sessions w (BTreeMap.insert (sessions w) sid e) in
                let w := match hook_input (ev_kind event) with
                         | Some input => push_turn_signal os w sid input now_ms revision
                         | None => w
                         end in
                let '(w, projection) := derive os w sid now_ms in
                (w, (λ p, mkProjection (p_session p) (p_notification p) true) <$> projection)
            end
      end
  end.

(** [derive] of each session in turn, keeping the projections [keep] keeps. *)
Fixpoint derive_each (os : Os) (w : WorkerState) (ids : list str)
    (keep : str → Projection → option Projection) : WorkerState * list Projection :=
  match ids with
  | [] => (w, [])
  | sid :: ids =>
      let '(w, projection) := derive os w sid (now os) in
      let '(w, projections) := derive_each os w ids keep in
      (w, match projection ≫= keep sid with Some p => p :: projections | None => projections end)
  end.

Definition sweep (os : Os) (w : WorkerState) : WorkerState * list Projection :=
  derive_each os w (BTreeMap.keys (sessions w)) (λ _ p,
    if p_changed p || bool_decide (is_Some (p_notification p)) then Some p else None).

Definition forget_core_session (os : Os) (w : WorkerState) (session : str)
  : WorkerState * bool :=
  let w := push_turn_signal os w session Vanished (now os) 0 in
  (set_sessions w (BTreeMap.remove (sessions w) session),
   BTreeMap.contains_key (sessions w) session).

Fixpoint acknowledge (w : WorkerState) (ids : list str) : WorkerState * list Projection :=
  match ids with
  | [] => (w, [])
  | sid :: ids =>
      match BTreeMap.get (sessions w) sid with
      | Some e =>
          if unread e then
            let e := set_unread false e in
            let '(w, projections) :=
              acknowledge (set_sessions w (BTreeMap.insert (sessions w) sid e)) ids in
            (w, mkProjection e None true :: projections)
          else acknowledge w ids
      | None => acknowledge w ids
      end
  end.

(** ** Rows of the core *)

(** The variables of the first loop of [apply_core_rows]. *)
Record Rows := mkRows {
  r_worker : WorkerState; seen : BTreeMap.t unit; discovered : list str;
  recovered : BTreeMap.t Projection; foreground_moved : list str;
  program_status_moved : list str }.

(** [for field in ["activity_event", "event"] { .. }]. *)
Definition recover_field (os : Os) (raw : Value) (sid : str)
    (st : WorkerState * BTreeMap.t Projection) (field : str)
  : WorkerState * BTreeMap.t Projection :=
  let '(w, recovered) := st in
  match Value.index (Value.index raw "last_hook"%string) field with
  | VObject frame =>
      let '(w, projection) := apply_core_event os w (VObject frame) in
      (w, match projection with
          | Some p => BTreeMap.insert recovered sid p
          | None => recovered
          end)
  | _ => st
  end.

Definition apply_row (os : Os) (r : Rows) (raw : Value) : Rows :=
  match Value.as_str (Value.index raw "session"%string) ≫= parse_id with
  | None => r
  | Some sid =>
      let w := r_worker r in
      let seen' := BTreeMap.insert (seen r) sid tt in
      let held := BTreeMap.get (sessions w) sid in
      if match held, Value.as_u64 (Value.index raw "generation"%string) with
         | Some held, Some generation_ => generation_ <? generation held
         | _, _ => false
         end
      then mkRows w seen' (discovered r) (recovered r) (foreground_moved r)
             (program_status_moved r)
      else
        let discovered' := match held with None => sid :: discovered r | _ => discovered r end in
        let foreground_before := held ≫= foreground_runtime in
        let declared_before := held ≫= declared_status in
        let capable_before := match held with
                              | Some held => program_status_capable held | None => false end in
        let e := merge_core_row RUNTIMES sid raw held (now os) in
        let moved' :=
          if negb (bool_decide (declared_status e = declared_before))
             || negb (Bool.eqb (program_status_capable e) capable_before)
          then sid :: program_status_moved r else program_status_moved r in
        let e := AgentSession.refresh_health (verify os) e in
        let w := set_sessions w (BTreeMap.insert (sessions w) sid e) in
        let '(w, recovered') :=
          foldl (recover_field os raw sid) (w, recovered r)
            [lit "activity_event"; lit "event"] in
        let foreground_after := BTreeMap.get (sessions w) sid ≫= foreground_runtime in
        mkRows w seen' discovered' recovered'
          (if bool_decide (foreground_after = foreground_before) then foreground_moved r
           else sid :: foreground_moved r) moved'
  end.

Definition announce (r : Rows) (sid : str) (projection : Projection) : option Projection :=
  let recovery := BTreeMap.get (recovered r) sid in
  let projection := match recovery with
    | Some recovery =>
        mkProjection (p_session projection)
          (or_else (p_notification projection) (p_notification recovery))
          (p_changed projection || p_changed recovery)
    | None => projection
    end in
  if (p_changed projection
      && (bool_decide (is_Some recovery) || negb (bool_decide (sid ∈ discovered r))))
     || bool_decide (is_Some (p_notification projection))
     || bool_decide (sid ∈ foreground_moved r)
     || bool_decide (sid ∈ program_status_moved r)
  then Some projection else None.

Definition apply_core_rows (os : Os) (w : WorkerState) (entries : list Value) (prune : bool)
  : WorkerState * list Projection :=
  let r := foldl (apply_row os) (mkRows w [] [] [] [] []) entries in
  let w := r_worker r in
  let w := if prune
           then set_sessions w (BTreeMap.retain (λ sid _, BTreeMap.contains_key (seen r) sid)
                                  (sessions w))
           else w in
  let w := reconcile_adopted_activity os w in
  derive_each os w (BTreeMap.keys (seen r)) (announce r).

Definition apply_core_snapshot (os : Os) (w : WorkerState) (entries : list Value) :=
  apply_core_rows os w entries true.

Definition apply_core_session (os : Os) (w : WorkerState) (entry : Value) :=
  apply_core_rows os w [entry] false.

(** [rebuild_from_home], given the manifests that could be read. *)
Definition rebuild (os : Os) (w : WorkerState) (manifests : list SessionManifest)
  : WorkerState :=
  let rebuilt := foldl (λ rebuilt m,
    BTreeMap.insert rebuilt (m_session m) (from_manifest RUNTIMES (verify os) m)) [] manifests in
  let accepted := mjoin ((λ m, match last_hook m with
    | Some hook => option_list (activity_event hook) ++ option_list (hook_event hook)
    | None => []
    end) <$> manifests) in
  let w := foldl (λ w frame, fst (apply_core_event os w frame)) (set_sessions w rebuilt)
             accepted in
  let w := reconcile_adopted_activity os w in
  fst (derive_each os w (BTreeMap.keys (sessions w)) (λ _ p, Some p)).
End worker.
End WorkerState.
