(* ===== verification/AgentFacts.v ===== *)
(** * Agent activity: what the operations guarantee

    Texts are cut at a character boundary below their bound, a derivation
    settles in one step, and the queue, the log and the map of the worker keep
    their invariant through every operation.

    The sessions stay a map keyed by their own identifiers, the queue of turn
    signals and the activity log stay within their capacity, and [derive] leaves
    the entry it derives settled. *)

From stdpp Require Import strings.
From S2P Require Import Prelude DiffText DiffUtf8 OrderedMap AgentActivity AgentSession AgentWorker.

Local Open Scope N_scope.

(** ** Texts *)

(** The longest prefix of [text] with at most [n] bytes. *)
Definition longest_prefix (n : nat) (text p : str) : Prop :=
  (length (bytes p) ≤ n)%nat ∧
  ∃ rest, text = p ++ rest ∧ ∀ c rest', rest = c :: rest' → (n < length (bytes (p ++ [c])))%nat.

Lemma bytes_cons c t : length (bytes (c :: t)) = (length (utf8 c) + length (bytes t))%nat.
Proof. unfold bytes. simpl. by rewrite length_app. Qed.

Lemma bytes_snoc t c : length (bytes (t ++ [c])) = (length (bytes t) + length (utf8 c))%nat.
Proof. induction t as [|d t IH]; simpl; [|rewrite !bytes_cons, IH]; unfold bytes; simpl; rewrite ?length_app; simpl; lia. Qed.

Lemma clamp_chars_spec len cs :
  (len ≤ MAX_AGENT_TEXT_BYTES)%nat →
  longest_prefix (MAX_AGENT_TEXT_BYTES - len) cs (clamp_chars len cs).
Proof.
  revert len. induction cs as [|c cs IH]; intros len Hlen; simpl.
  - split; [simpl; lia|]. by exists [].
  - destruct (Nat.ltb_spec MAX_AGENT_TEXT_BYTES (len + length (utf8 c))%nat) as [Hlt|Hge].
    + split; [simpl; lia|]. exists (c :: cs). split; [done|]. intros c' rest' [= <- <-].
      simpl. rewrite bytes_cons. lia.
    + destruct (IH (len + length (utf8 c))%nat Hge) as [Hb (rest & Hcs & Hmax)].
      split; [rewrite bytes_cons; lia|]. exists rest. split; [by rewrite Hcs at 1|].
      intros c' rest' ->. specialize (Hmax c' rest' eq_refl). simpl. rewrite bytes_cons. lia.
Qed.

Lemma clamp_text_spec raw :
  longest_prefix MAX_AGENT_TEXT_BYTES (filter (λ c, c ≠ 0) raw) (clamp_text raw).
Proof. pose proof (clamp_chars_spec 0 (filter (λ c, c ≠ 0) raw)) as H. rewrite Nat.sub_0_r in H. apply H. lia. Qed.

(** A character boundary splits the text. *)
Lemma is_char_boundary_spec text e :
  is_char_boundary text e = true ↔ ∃ p rest, text = p ++ rest ∧ length (bytes p) = e.
Proof.
  revert e. induction text as [|c text IH]; intros e; simpl.
  - rewrite orb_false_r, Nat.eqb_eq. split; [intros ->; by exists [], []|].
    intros (p & rest & Hp & <-). symmetry in Hp. apply app_nil in Hp as [-> ->]. done.
  - rewrite orb_true_iff, andb_true_iff, Nat.eqb_eq, Nat.leb_le, IH. split.
    + intros [->|(Hle & p & rest & -> & Hp)]; [by exists [], (c :: text)|].
      exists (c :: p), rest. rewrite bytes_cons. split; [done|lia].
    + intros ([|c' p] & rest & Htext & <-); [by left|right]. injection Htext as <- ->.
      rewrite bytes_cons. split; [lia|]. exists p, rest. split; [done|lia].
Qed.

Lemma floor_boundary_spec text n :
  (floor_boundary text n ≤ n)%nat ∧ is_char_boundary text (floor_boundary text n) = true ∧
  ∀ e, (floor_boundary text n < e ≤ n)%nat → is_char_boundary text e = false.
Proof.
  assert (is_char_boundary text 0 = true) as H0 by by destruct text.
  induction n as [|n IH]; simpl.
  - rewrite H0. split_and!; [lia|done|intros; lia].
  - destruct (is_char_boundary text (S n)) eqn:Hn; [split_and!; [lia|done|intros; lia]|].
    destruct IH as (? & ? & Hno). split_and!; [lia|done|]. intros e He.
    destruct (decide (e = S n)) as [->|]; [done|apply Hno; lia].
Qed.

Lemma take_bytes_prefix p rest : take_bytes (p ++ rest) (length (bytes p)) = p.
Proof.
  induction p as [|c p IH]; simpl.
  - destruct rest as [|c rest]; [done|]. simpl. pose proof (utf8_nonempty c).
    destruct (Nat.leb_spec (length (utf8 c)) 0); [lia|done].
  - rewrite bytes_cons. destruct (Nat.leb_spec (length (utf8 c)) (length (utf8 c) + length (bytes p))%nat);
      [|lia]. f_equal.
    by replace (length (utf8 c) + length (bytes p) - length (utf8 c))%nat
      with (length (bytes p)) by lia.
Qed.

Lemma failure_reason_text_spec raw :
  longest_prefix MAX_FAILURE_REASON_BYTES raw (failure_reason_text raw).
Proof.
  unfold failure_reason_text.
  remember (Nat.min (length (bytes raw)) MAX_FAILURE_REASON_BYTES) as n eqn:Hn.
  destruct (floor_boundary_spec raw n) as (Hle & Hb & Hno).
  pose proof Hb as Hb'. apply is_char_boundary_spec in Hb' as (p & rest & Hraw & Hp).
  rewrite <- Hp, Hraw, take_bytes_prefix.
  split; [lia|]. exists rest. split; [done|].
  intros c rest' ->. rewrite bytes_snoc.
  destruct (Nat.lt_ge_cases MAX_FAILURE_REASON_BYTES (length (bytes p) + length (utf8 c))%nat)
    as [?|Hge]; [done|]. exfalso. pose proof (utf8_nonempty c).
  assert (Hlen : length (bytes raw) = (length (bytes p) + length (utf8 c) + length (bytes rest'))%nat).
  { rewrite Hraw, bytes_app, length_app, bytes_cons. lia. }
  specialize (Hno (length (bytes p) + length (utf8 c))%nat ltac:(lia)).
  apply not_true_iff_false in Hno. apply Hno, is_char_boundary_spec.
  exists (p ++ [c]), rest'. rewrite bytes_snoc, <- app_assoc. done.
Qed.

(** ** Round trips of the wire names *)

Lemma AgentState_round_trip s : AgentState.parse (AgentState.wire_str s) = Some s.
Proof. by destruct s. Qed.

Lemma AgentState_parse_wire raw s : AgentState.parse raw = Some s → raw = AgentState.wire_str s.
Proof.
  unfold AgentState.parse. intros Hp.
  repeat case_bool_decide; simplify_eq/=; done.
Qed.

Lemma AgentEventKind_round_trip k : AgentEventKind.parse (AgentEventKind.as_str k) = Some k.
Proof. by destruct k; vm_compute. Qed.

Lemma AgentEventKind_parse_str raw k :
  AgentEventKind.parse raw = Some k → raw = AgentEventKind.as_str k.
Proof.
  unfold AgentEventKind.parse. intros Hp. apply fmap_Some in Hp as ([i k'] & Hf & ->).
  by apply list_find_Some in Hf as (_ & Hf & _).
Qed.

(** ** Events *)

(** What the worker may rely on in an event, whatever the frame. *)
Definition event_ok (e : AgentEvent str) : Prop :=
  let short t := (length (bytes t) ≤ MAX_AGENT_TEXT_BYTES)%nat in
  ev_tool e ≠ [] ∧ short (ev_tool e) ∧
  (∀ p, ev_pid e = Some p → 0 < p < 2 ^ 32) ∧
  (∀ c, ev_exit_code e = Some c → (- 2 ^ 31 ≤ c < 2 ^ 31)%Z) ∧
  (ev_kind e = Exit → is_Some (ev_exit_code e)) ∧
  (∀ t, ev_tool_name e = Some t ∨ ev_message e = Some t ∨ ev_summary e = Some t →
        short t ∧ trim t ≠ []).

Lemma clamp_text_short raw : (length (bytes (clamp_text raw)) ≤ MAX_AGENT_TEXT_BYTES)%nat.
Proof. apply clamp_text_spec. Qed.

Lemma head_omap {A B} (f : A → option B) (l : list A) y :
  head (omap f l) = Some y → ∃ x, x ∈ l ∧ f x = Some y.
Proof.
  intros Hh. apply head_Some_elem_of, list_elem_of_omap in Hh. destruct Hh as (x & ? & ?). eauto.
Qed.

Lemma optional_text_spec params keys t :
  optional_text params keys = Some t →
  (length (bytes t) ≤ MAX_AGENT_TEXT_BYTES)%nat ∧ trim t ≠ [].
Proof.
  intros (key & _ & Hk)%head_omap. apply bind_Some in Hk as (v & _ & Hk).
  apply bind_Some in Hk as (s & _ & Hk). cbn zeta in Hk. case_bool_decide; simplify_eq.
  split; [apply clamp_text_short|done].
Qed.

Lemma some_if {A} (b : bool) (x y : A) : (if b then Some x else None) = Some y → b = true ∧ x = y.
Proof. destruct b; [by intros [= ->]|done]. Qed.

Lemma from_params_spec (parse : str → option str) params e :
  from_params parse params = inr e → event_ok e.
Proof.
  unfold from_params. intros He.
  repeat match type of He with
  | ok_or ?o ?err ≫= _ = _ => destruct o eqn:?; [|done]; simpl in He
  | generation_of ?p ≫= _ = _ => destruct (generation_of p); [done|]; simpl in He
  end.
  match type of He with context [mkEvent _ _ _ _ _ _ _ _ ?ec] => remember ec as code eqn:Hcode end.
  destruct (_ && _) eqn:Hexit in He; [done|]. injection He as <-.
  unfold event_ok; simpl.
  match goal with H : _ ≫= _ = Some ?t |- ?t ≠ [] ∧ _ =>
    apply bind_Some in H as (raw & _ & H); cbn zeta in H; rename H into Htool end.
  destruct (bool_decide_reflect (clamp_text raw = [])) as [_|Hne]; [done|]. injection Htool as <-.
  split_and!; [done|apply clamp_text_short| | | |].
  - intros p Hp. apply bind_Some in Hp as (pid & _ & Hp). apply some_if in Hp as [Hp <-].
    apply andb_prop in Hp as [?%N.ltb_lt ?%N.ltb_lt]. lia.
  - intros c ->. symmetry in Hcode. apply bind_Some in Hcode as (c' & _ & Hc).
    apply some_if in Hc as [Hc <-]. apply andb_prop in Hc as [?%Z.leb_le ?%Z.ltb_lt]. lia.
  - intros ->. rewrite bool_decide_true in Hexit by done. simpl in Hexit.
    apply bool_decide_eq_false in Hexit. by destruct code; [eexists|].
  - intros t [Ht|[Ht|Ht]]; by apply optional_text_spec in Ht.
Qed.

(** ** The gates of the reducer *)

Section gates.
Implicit Types (event : AgentEvent str) (s : AgentSummary).

(** The event was emitted before the last one, by at most the tolerance. *)
Definition out_of_order s event : Prop :=
  ∃ last incoming, last_event_at_ms s = Some last ∧ ev_emitted_at_ms event = Some incoming ∧
    incoming < last ∧ last - incoming ≤ EVENT_REORDER_TOLERANCE_MS.

(** The event ends the run for another process, while the run is not silent. *)
Definition foreign_end s event (now_ms : N) : Prop :=
  ∃ held incoming, pid s = Some held ∧ ev_pid event = Some incoming ∧ held ≠ incoming ∧
    AgentEventKind.ends_run (ev_kind event) = true ∧
    now_ms - updated_at_ms s < SOURCE_TAKEOVER_SILENCE.

Lemma accepts_event_false s event :
  accepts_event (last_event_at_ms s) (ev_emitted_at_ms event) = false ↔ out_of_order s event.
Proof.
  unfold accepts_event, out_of_order.
  destruct (last_event_at_ms s) as [l|], (ev_emitted_at_ms event) as [i|]; try naive_solver.
  destruct (N.ltb_spec i l) as [Hlt|Hge].
  - rewrite N.ltb_ge. split; [eauto 10|]. intros (? & ? & [= <-] & [= <-] & _ & ?). done.
  - split; [done|]. intros (? & ? & [= <-] & [= <-] & ? & _). lia.
Qed.

Lemma accepts_process_false s event now_ms :
  accepts_process s event (silence_since (updated_at_ms s) now_ms) = false ↔
  foreign_end s event now_ms.
Proof.
  unfold accepts_process, foreign_end, silence_since.
  destruct (pid s) as [h|], (ev_pid event) as [i|]; try naive_solver.
  destruct (N.eqb_spec h i) as [->|Hne]; [naive_solver|].
  rewrite orb_false_iff, negb_false_iff, N.leb_gt. split; [naive_solver|].
  intros (? & ? & [= <-] & [= <-] & _ & ?). done.
Qed.
End gates.

(** ** Deriving the state of an entry *)

Section entry.
Context (RUNTIMES : list Runtime).
Implicit Types e : SessionEntry.

Lemma verdict_ext e e' :
  runtime RUNTIMES e = runtime RUNTIMES e' ∨
    (is_Some (runtime RUNTIMES e) ∧ is_Some (runtime RUNTIMES e')) ∨
    declared_status e = None →
  declared_status e = declared_status e' → lifecycle e = lifecycle e' →
  agent_declaration RUNTIMES e = agent_declaration RUNTIMES e' ∧
  declared_verdict RUNTIMES e = declared_verdict RUNTIMES e'.
Proof.
  intros Hrt Hds Hlife.
  assert (agent_declaration RUNTIMES e = agent_declaration RUNTIMES e') as Hdecl.
  { unfold agent_declaration. rewrite <- Hds. destruct Hrt as [->|[[[? ->] [? ->] ]| ->] ]; try done.
    by repeat case_match. }
  split; [done|]. unfold declared_verdict. by rewrite Hdecl, Hlife.
Qed.

Lemma runtime_ext e e' :
  tool <$> activity e = tool <$> activity e' → observed_runtime e = observed_runtime e' →
  runtime RUNTIMES e = runtime RUNTIMES e'.
Proof.
  unfold runtime. intros Ht ->. f_equal.
  destruct (activity e), (activity e'); simplify_eq/=; congruence.
Qed.

Lemma find_runtime_some pred r :
  r ∈ RUNTIMES → pred r = true → is_Some (find_runtime RUNTIMES pred).
Proof.
  intros Hin Hp. unfold find_runtime.
  destruct (list_find_elem_of (λ r, pred r = true) RUNTIMES r Hin Hp) as [[i r'] ->]. by eexists.
Qed.

(** A tool that is an alias of a catalogued runtime is a runtime's tool. *)
Lemma runtime_for_alias id r tool :
  runtime_by_id RUNTIMES id = Some r → head (command_aliases r) = Some tool →
  is_Some (runtime_for_tool RUNTIMES tool).
Proof.
  intros Hr Htool. unfold runtime_by_id, find_runtime in Hr.
  apply fmap_Some in Hr as ([i r'] & Hf & ->). apply list_find_Some in Hf as (Hl & _ & _).
  apply list_elem_of_lookup_2 in Hl. simpl in *.
  destruct (find_runtime_some (λ r, bool_decide (tool ∈ command_aliases r)) r') as [x Hx];
    [done|by apply bool_decide_eq_true, head_Some_elem_of|].
  unfold runtime_for_tool, runtime_by_command_alias. rewrite Hx. by eexists.
Qed.

(** Adding or dropping the declared activity row does not change the verdict. *)
Lemma reconcile_verdict e now :
  let e' := fst (reconcile_declared_activity RUNTIMES e (snd (declared_verdict RUNTIMES e)) now) in
  agent_declaration RUNTIMES e = agent_declaration RUNTIMES e' ∧
  declared_verdict RUNTIMES e = declared_verdict RUNTIMES e'.
Proof.
  intros e'. subst e'. unfold reconcile_declared_activity.
  destruct (snd (declared_verdict RUNTIMES e)) eqn:Hsrc.
  - case_bool_decide as Hact; [done|].
    destruct (_ ≫= _) as [[o t]|] eqn:Ho; [|done].
    apply bind_Some in Ho as (o' & Hobs & Ho). apply bind_Some in Ho as (r & Hr & Ho).
    apply bind_Some in Ho as (t' & Ht & [= <- <-]).
    apply verdict_ext; [|done..]. right; left. split.
    + unfold declared_verdict, agent_declaration in Hsrc.
      destruct (runtime RUNTIMES e); [by eexists|done].
    + unfold runtime. simpl. destruct (runtime_for_alias _ _ _ Hr Ht) as [x ->]. by eexists.
  - destruct (declared_activity e && _) eqn:Hd; [|done]. apply verdict_ext; [|done..].
    unfold declared_verdict, agent_declaration in Hsrc.
    destruct (runtime RUNTIMES e) eqn:Hrt.
    + right; right. destruct (declared_status e); [|done]. by destruct (_ : bool) in Hsrc.
    + left. unfold runtime in *. simpl. destruct (activity e ≫= _); [done|exact (eq_sym Hrt)].
Qed.

(** The outcome the declaration asks for, given the one held. *)
Definition next_outcome (declared : option DeclaredStatus) (held : option str) : option str :=
  match declared with Some declared => declared_outcome declared held | None => held end.

Lemma next_outcome_idemp declared held :
  next_outcome declared (next_outcome declared held) = next_outcome declared held.
Proof. destruct declared as [d|]; [|done]. simpl. unfold declared_outcome. by repeat case_bool_decide. Qed.

(** The activity row agrees with the status and its source. *)
Definition row_ok (st : Status) (src : ActivitySource) (s : AgentSummary) : Prop :=
  state s = AgentState.wire_str (Status.agent_state st) ∧ source s = source_wire src ∧
  (is_Some (waiting_since_ms s) ↔ st = Attention).

(** The entry is what its declaration says. *)
Record entry_settled e : Prop := {
  es_verdict : declared_verdict RUNTIMES e = (status e, activity_source e);
  es_outcome : next_outcome (agent_declaration RUNTIMES e) (outcome e) = outcome e;
  es_row : ∀ now, reconcile_declared_activity RUNTIMES e (activity_source e) now = (e, false);
  es_activity s : activity e = Some s → row_ok (status e) (activity_source e) s }.

Lemma derive_summary_ok s st src settled now :
  row_ok st src (derive_summary s (Status.agent_state st) src settled now).
Proof.
  split_and!; [done..|]. simpl. unfold next_waiting_since.
  destruct st; simpl; split; try done; try (by intros [? ?]); intros _.
  destruct (AgentState.parse (state s)) as [[]|]; simpl; try by eexists.
  destruct (waiting_since_ms s); by eexists.
Qed.

Lemma derive_summary_id s st src now :
  row_ok st src s → derive_summary s (Status.agent_state st) src true now = s.
Proof.
  intros (Hst & Hsrc & Hw). unfold derive_summary. rewrite Hst, AgentState_round_trip, <- Hst, <- Hsrc.
  assert (next_waiting_since (Some (Status.agent_state st, waiting_since_ms s))
            (Status.agent_state st) now = waiting_since_ms s) as Hnext.
  { destruct st; simpl in *; destruct (waiting_since_ms s); try done; exfalso;
      (destruct Hw as [Hw Hw']; first [discriminate (Hw ltac:(by eexists)) | by destruct (Hw' eq_refl)]). }
  simpl. rewrite Hnext. by destruct s.
Qed.

Lemma notice_none st declared : notice_between st st declared = None.
Proof. by destruct st. Qed.

(** A settled entry stays as it is, and nothing is announced. *)
Lemma derive_entry_id e now :
  entry_settled e → derive_entry RUNTIMES e now = mkDerived e None false None None.
Proof.
  intros [Hv Ho Hrow Hact]. unfold derive_entry. rewrite Hv, notice_none, Hrow.
  fold (next_outcome (agent_declaration RUNTIMES e) (outcome e)). rewrite Ho.
  rewrite !bool_decide_true by done. simpl.
  assert (match activity e with
          | Some summary => bool_decide (state summary =
              AgentState.wire_str (Status.agent_state (status e)))
          | None => true end = true) as ->.
  { destruct (activity e) as [s|] eqn:Hs; [|done]. apply bool_decide_true. by apply Hact. }
  assert ((λ s, derive_summary s (Status.agent_state (status e)) (activity_source e) true now)
            <$> activity e = activity e) as Hid.
  { destruct (activity e) as [s|] eqn:Hs; [|done]. simpl. f_equal. by apply derive_summary_id, Hact. }
  simpl. rewrite Hid. f_equal. by destruct e.
Qed.

(** The activity row of a reconciled entry stays. *)
Lemma reconcile_idemp e src now now' :
  let e' := fst (reconcile_declared_activity RUNTIMES e src now) in
  reconcile_declared_activity RUNTIMES e' src now' = (e', false).
Proof.
  intros e'. destruct (reconcile_declared_activity RUNTIMES e src now) as [e1 ch] eqn:He.
  subst e'. cbn [fst]. unfold reconcile_declared_activity in *. destruct src.
  - case_bool_decide as Ha; [injection He as <- <-; by rewrite bool_decide_true|].
    destruct (_ ≫= _) as [[o t]|] eqn:Ho; injection He as <- <-.
    + by rewrite bool_decide_true by (by eexists).
    + by rewrite bool_decide_false, Ho.
  - destruct (declared_activity e && _) eqn:Hd; injection He as <- <-; [done|by rewrite Hd].
Qed.

(** Whether there is an activity row, and the fields the reconciliation reads. *)
Lemma reconcile_ext e e' src now :
  is_Some (activity e) ↔ is_Some (activity e') → observed_runtime e = observed_runtime e' →
  declared_activity e = declared_activity e' →
  reconcile_declared_activity RUNTIMES e src now = (e, false) →
  reconcile_declared_activity RUNTIMES e' src now = (e', false).
Proof.
  intros Hact Hobs Hda. unfold reconcile_declared_activity. rewrite <- Hobs, <- Hda.
  rewrite (bool_decide_ext _ _ Hact). destruct src; repeat case_match; naive_solver.
Qed.

Lemma reconcile_fields e src now :
  let e' := fst (reconcile_declared_activity RUNTIMES e src now) in
  session e' = session e ∧ generation e' = generation e ∧ hook_revision e' = hook_revision e ∧
  status e' = status e ∧ outcome e' = outcome e ∧ observed_runtime e' = observed_runtime e ∧
  (declared_activity e' = true → is_Some (activity e') ∨ declared_activity e = true ∧ activity e' = activity e).
Proof.
  unfold reconcile_declared_activity. destruct src; repeat case_match; simpl; split_and!; try done; eauto.
Qed.

(** Deriving settles an entry, and keeps its identity and its revision. *)
Lemma derive_entry_settles e now :
  let e' := d_entry (derive_entry RUNTIMES e now) in
  entry_settled e' ∧ session e' = session e ∧ generation e' = generation e ∧
  hook_revision e' = hook_revision e.
Proof.
  unfold derive_entry. destruct (declared_verdict RUNTIMES e) as [st src] eqn:Hv.
  pose proof (reconcile_verdict e now) as Hrv. rewrite Hv in Hrv. simpl in Hrv.
  pose proof (reconcile_idemp e src now) as Hid.
  pose proof (reconcile_fields e src now) as Hf.
  destruct (reconcile_declared_activity RUNTIMES e src now) as [e1 ch]. cbn [fst] in *.
  destruct Hrv as [Hdecl Hverdict]. destruct Hf as (Hs & Hg & Hr & _).
  fold (next_outcome (agent_declaration RUNTIMES e) (outcome e)).
  set (out := next_outcome _ _). cbn zeta.
  match goal with |- context [if ?b then e1 else _] => generalize b as same end. intros same.
  match goal with |- context [derive_summary _ _ _ ?b _] => generalize b as settled end.
  intros settled.
  match goal with |- context [mkDerived (if ?b then _ else _) _ _ _ _] => generalize b as fin end.
  intros fin. cbn [d_entry].
  set (e2 := if same then e1 else _).
  assert (session e2 = session e ∧ generation e2 = generation e ∧ hook_revision e2 = hook_revision e ∧
    activity e2 = activity e1 ∧ declared_activity e2 = declared_activity e1 ∧
    observed_runtime e2 = observed_runtime e1 ∧ declared_status e2 = declared_status e1 ∧
    lifecycle e2 = lifecycle e1) as (H1&H2&H3&H4&H5&H6&H7&H8) by (by destruct same).
  clearbody e2. set (row := _ <$> _).
  change (activity (set_verdict st src out e2)) with (activity e2) in row.
  set (e3 := set_activity row _ _).
  set (e4 := if settled then e3 else _). set (e5 := if fin then _ else e4).
  assert (session e5 = session e2 ∧ generation e5 = generation e2 ∧
    hook_revision e5 = hook_revision e2 ∧ activity e5 = row ∧ status e5 = st ∧
    activity_source e5 = src ∧ outcome e5 = out ∧
    declared_activity e5 = declared_activity e2 ∧
    observed_runtime e5 = observed_runtime e2 ∧ declared_status e5 = declared_status e2 ∧
    lifecycle e5 = lifecycle e2) as (F1&F2&F3&F4&F5&F6&F7&F8&F9&F10&F11)
    by (by destruct settled, fin).
  clearbody e5. split; [|by rewrite F1, F2, F3].
  assert (Hrt : runtime RUNTIMES e1 = runtime RUNTIMES e5).
  { apply runtime_ext; [|congruence]. rewrite F4. subst row. rewrite H4.
    by destruct (activity e1). }
  destruct (verdict_ext e1 e5) as [Hd5 Hv5]; [by left|congruence..|].
  split.
  - by rewrite <- Hv5, <- Hverdict, F5, F6.
  - rewrite <- Hd5, <- Hdecl, F7. apply next_outcome_idemp.
  - intros now'. rewrite F6. apply (reconcile_ext e1); [|congruence..|apply Hid].
    rewrite F4. subst row. rewrite H4. by rewrite fmap_is_Some.
  - rewrite F4, F5, F6. subst row. intros s Hs'. apply fmap_Some in Hs' as (s' & _ & ->).
    apply derive_summary_ok.
Qed.

(** ** Notifications *)

(** The program of a session that was in a turn declares that it is done. *)
Definition turn_finished e : Prop :=
  Status.in_turn (status e) = true ∧ fst (declared_verdict RUNTIMES e) = Idle ∧
  ∃ d, agent_declaration RUNTIMES e = Some d ∧ ds_state d = DECLARED_DONE.

(** The session just started to wait for the user, or just failed. *)
Definition needs_input e : Prop :=
  fst (declared_verdict RUNTIMES e) ≠ status e ∧
  (fst (declared_verdict RUNTIMES e) = Attention ∨
   fst (declared_verdict RUNTIMES e) = StatusErrored).

Lemma notice_between_spec e :
  let st := fst (declared_verdict RUNTIMES e) in
  match notice_between (status e) st (agent_declaration RUNTIMES e) with
  | Some NoticeFinished => turn_finished e
  | Some NeedsInput => needs_input e
  | None => ¬ turn_finished e ∧ ¬ needs_input e
  end.
Proof.
  unfold turn_finished, needs_input. cbn zeta.
  destruct (fst (declared_verdict RUNTIMES e)), (status e); simpl; try (naive_solver congruence).
  all: destruct (agent_declaration RUNTIMES e) as [d|]; simpl; [|naive_solver].
  all: case_bool_decide; naive_solver.
Qed.

Lemma truncate_body_spec raw b :
  truncate_body raw = Some b → (1 ≤ length b ≤ MAX_NOTIFICATION_BODY_CHARS)%nat.
Proof.
  unfold truncate_body. intros (r & _ & Hb)%bind_Some.
  destruct (trim r) as [|c t] eqn:Ht; [done|]. injection Hb as <-.
  cbn [length]. rewrite length_take. unfold MAX_NOTIFICATION_BODY_CHARS. lia.
Qed.

Lemma derive_entry_notifies e now :
  match d_notification (derive_entry RUNTIMES e now) with
  | Some n =>
      (n_kind n = KIND_FINISHED ∧ turn_finished e ∧
       unread (d_entry (derive_entry RUNTIMES e now)) = true ∨
       n_kind n = KIND_NEEDS_INPUT ∧ needs_input e) ∧
      ∀ b, body n = Some b → (1 ≤ length b ≤ MAX_NOTIFICATION_BODY_CHARS)%nat
  | None => ¬ turn_finished e ∧ ¬ needs_input e
  end.
Proof.
  pose proof (notice_between_spec e) as Hn. unfold derive_entry.
  destruct (declared_verdict RUNTIMES e) as [st src]. cbn [fst] in Hn. cbn zeta in Hn.
  destruct (reconcile_declared_activity RUNTIMES e src now) as [e1 ch]. cbn zeta.
  destruct (notice_between (status e) st (agent_declaration RUNTIMES e)) as [[]|]; [..|done].
  - cbn [mbind option_bind notification_for d_notification d_entry n_kind body].
    rewrite bool_decide_true by done. split; [by left|]. intros b. apply truncate_body_spec.
  - cbn [mbind option_bind notification_for d_notification d_entry n_kind body].
    split; [by right|]. intros b. apply truncate_body_spec.
Qed.
End entry.

(** * Agent activity: the invariant of the worker *)

Local Open Scope N_scope.

Implicit Types (w : WorkerState) (e : SessionEntry) (os : Os).

Lemma capacities : (0 < MAX_PENDING_TURN_SIGNALS)%nat ∧ (0 < ACTIVITY_LOG_CAPACITY)%nat.
Proof. unfold MAX_PENDING_TURN_SIGNALS, ACTIVITY_LOG_CAPACITY. lia. Qed.

(** Kept folded: [simpl] would write them out in unary. *)
#[local] Opaque MAX_PENDING_TURN_SIGNALS ACTIVITY_LOG_CAPACITY.

Record worker_ok w : Prop := {
  wo_sorted : sorted (sessions w);
  wo_keyed k e : BTreeMap.get (sessions w) k = Some e → session e = k;
  wo_signals : (length (turn_signals w) ≤ MAX_PENDING_TURN_SIGNALS)%nat;
  wo_log : (length (log w) ≤ ACTIVITY_LOG_CAPACITY)%nat }.

Lemma length_record l sid g o at_ms :
  (length l ≤ ACTIVITY_LOG_CAPACITY)%nat →
  (length (ActivityLog.record l sid g o at_ms) ≤ ACTIVITY_LOG_CAPACITY)%nat.
Proof.
  intros Hl. unfold ActivityLog.record. rewrite length_app. simpl.
  destruct (Nat.eqb_spec (length l) ACTIVITY_LOG_CAPACITY) as [He|]; [|lia].
  pose proof capacities. destruct l; simpl in *; lia.
Qed.

Lemma worker_ok_insert w sid e :
  worker_ok w → session e = sid → worker_ok (set_sessions w (BTreeMap.insert (sessions w) sid e)).
Proof.
  intros [Hs Hk Hq Hl] He. split; simpl; [auto with paneflow| |done..].
  intros k e'. destruct (decide (sid = k)) as [->|Hne].
  - rewrite get_insert. by intros [= <-].
  - rewrite get_insert_ne by done. apply Hk.
Qed.

Lemma worker_ok_map w (f : SessionEntry → SessionEntry) :
  (∀ e, session (f e) = session e) → worker_ok w →
  worker_ok (set_sessions w (BTreeMap.map_values f (sessions w))).
Proof.
  intros Hf [Hs Hk Hq Hl]. split; simpl; [auto with paneflow| |done..].
  intros k e Hg. rewrite get_map_values in Hg. apply fmap_Some in Hg as (e' & Hg & ->).
  rewrite Hf. by apply Hk.
Qed.

Lemma worker_ok_retain w pred :
  worker_ok w → worker_ok (set_sessions w (BTreeMap.retain pred (sessions w))).
Proof.
  intros [Hs Hk Hq Hl]. split; simpl; [auto with paneflow| |done..].
  intros k e Hg. rewrite get_retain in Hg by done. apply bind_Some in Hg as (e' & Hg & He).
  destruct (pred k e'); simplify_eq. by apply Hk.
Qed.

Lemma refresh_health_ok os w : worker_ok w → worker_ok (WorkerState.refresh_health os w).
Proof. apply worker_ok_map. intros e. cbn zeta. by destruct (_ && _). Qed.

Lemma reconcile_adopted_activity_ok os w :
  worker_ok w → worker_ok (WorkerState.reconcile_adopted_activity os w).
Proof. apply worker_ok_map. intros e. destruct (activity e) as [s|]; [|done]. by destruct (stale s). Qed.

Section worker.
Context `{Decoders} (RUNTIMES : list Runtime).

Lemma push_sessions os w sid input at_ms order :
  sessions (WorkerState.push_turn_signal RUNTIMES os w sid input at_ms order) = sessions w ∧
  log (WorkerState.push_turn_signal RUNTIMES os w sid input at_ms order) = log w.
Proof.
  unfold WorkerState.push_turn_signal. destruct (BTreeMap.get _ _) as [e|]; [|done].
  by destruct (usage_account RUNTIMES os e).
Qed.

Lemma push_ok os w sid input at_ms order :
  worker_ok w → worker_ok (WorkerState.push_turn_signal RUNTIMES os w sid input at_ms order).
Proof.
  intros [Hs Hk Hq Hl]. pose proof (push_sessions os w sid input at_ms order) as [Hss Hll].
  split; [by rewrite Hss|by rewrite Hss| |by rewrite Hll].
  unfold WorkerState.push_turn_signal. destruct (BTreeMap.get _ _) as [e|]; [|done].
  destruct (usage_account RUNTIMES os e); [|done]. simpl. rewrite length_app. simpl.
  destruct (Nat.leb_spec MAX_PENDING_TURN_SIGNALS (length (turn_signals w))); [|lia].
  pose proof capacities.
  destruct (turn_signals w); cbn [length tail] in *; lia.
Qed.

(** [derive] touches the entry of the session only, and settles it. *)
Lemma derive_spec os w sid now_ms :
  worker_ok w →
  let r := WorkerState.derive RUNTIMES os w sid now_ms in
  worker_ok (fst r) ∧
  match BTreeMap.get (sessions w) sid with
  | None => r = (w, None)
  | Some e =>
      let d := derive_entry RUNTIMES e now_ms in
      sessions (fst r) = BTreeMap.insert (sessions w) sid (d_entry d) ∧
      snd r = Some (mkProjection (d_entry d) (d_notification d) (d_changed d))
  end.
Proof.
  intros Hw r. subst r. unfold WorkerState.derive.
  destruct (BTreeMap.get (sessions w) sid) as [e|] eqn:Hg; [|done]. cbn zeta.
  pose proof (derive_entry_settles RUNTIMES e now_ms) as (_ & Hsid & _).
  set (d := derive_entry RUNTIMES e now_ms) in *.
  set (w1 := mkWorker _ _ _).
  assert (worker_ok w1) as Hw1.
  { destruct (worker_ok_insert w sid (d_entry d)) as [? ? ? ?]; [done| |].
    - rewrite Hsid. by eapply wo_keyed.
    - split; try done. simpl. destruct (d_log d); [apply length_record|]; by apply wo_log. }
  destruct (d_turn_input d) as [input|]; [|done]. cbn [fst snd].
  split; [by apply push_ok|]. split; [|done]. by rewrite (proj1 (push_sessions _ _ _ _ _ _)).
Qed.

(** Deriving a settled session does nothing. *)
Lemma derive_id os w sid e now_ms :
  worker_ok w → BTreeMap.get (sessions w) sid = Some e → entry_settled RUNTIMES e →
  WorkerState.derive RUNTIMES os w sid now_ms = (w, Some (mkProjection e None false)).
Proof.
  intros Hw Hg He. unfold WorkerState.derive. rewrite Hg, derive_entry_id by done. simpl.
  rewrite insert_id; [by destruct w|by apply wo_sorted|done].
Qed.

(** ** Deriving several sessions *)

Lemma derive_each_spec os w ids keep :
  worker_ok w →
  let w' := fst (WorkerState.derive_each RUNTIMES os w ids keep) in
  worker_ok w' ∧ BTreeMap.keys (sessions w') = BTreeMap.keys (sessions w) ∧
  ∀ k e', BTreeMap.get (sessions w') k = Some e' →
    (k ∈ ids → entry_settled RUNTIMES e') ∧ (k ∉ ids → BTreeMap.get (sessions w) k = Some e') ∧
    (∀ e, BTreeMap.get (sessions w) k = Some e → entry_settled RUNTIMES e → e' = e).
Proof.
  revert w. induction ids as [|sid ids IH]; intros w Hw; cbn zeta.
  - simpl. split_and!; [done..|]. intros k e' Hg.
    split_and!; [by intros ?%not_elem_of_nil|done|]. intros e He _. congruence.
  - cbn [WorkerState.derive_each].
    pose proof (derive_spec os w sid (now os) Hw) as [Hw1 Hd].
    destruct (WorkerState.derive RUNTIMES os w sid (now os)) as [w1 p] eqn:Hderive.
    cbn [fst snd] in *. specialize (IH w1 Hw1). cbn zeta in IH.
    destruct (WorkerState.derive_each RUNTIMES os w1 ids keep) as [w2 ps]. cbn [fst] in *.
    destruct IH as (Hw2 & Hkeys & IH). destruct (BTreeMap.get (sessions w) sid) as [e0|] eqn:Hg0.
    + destruct Hd as [Hsess _].
      pose proof (derive_entry_settles RUNTIMES e0 (now os)) as [Hset _].
      set (e1 := d_entry (derive_entry RUNTIMES e0 (now os))) in *.
      split_and!; [done| |].
      { rewrite Hkeys, Hsess. apply keys_insert_existing; [by apply wo_sorted|].
        by eapply get_some_key. }
      intros k e' Hg. destruct (IH k e' Hg) as (H1 & H2 & H3).
      destruct (decide (k = sid)) as [->|Hne].
      * assert (BTreeMap.get (sessions w1) sid = Some e1) as Hg1 by by rewrite Hsess, get_insert.
        assert (e' = e1) as -> by by apply H3. split_and!; [done| |].
        { intros Hin. by destruct Hin; left. }
        intros e He Hes. rewrite He in Hg0. injection Hg0 as ->. subst e1.
        by rewrite derive_entry_id.
      * rewrite Hsess, get_insert_ne in H2, H3 by done. split_and!.
        -- intros [->|?]%elem_of_cons; [done|by apply H1].
        -- intros Hin. apply H2. intros ?. by apply Hin; right.
        -- done.
    + injection Hd as -> ->. split_and!; [done..|]. intros k e' Hg.
      destruct (IH k e' Hg) as (H1 & H2 & H3). split_and!; [|intros Hin; apply H2; intros ?; by apply Hin; right|done].
      intros [->|?]%elem_of_cons; [|by apply H1].
      assert (sid ∈ BTreeMap.keys (sessions w)) as Hk
        by (rewrite <- Hkeys; by eapply get_some_key).
      apply get_key in Hk as [? Hk]. by rewrite Hk in Hg0.
Qed.

(** Nothing is derived from sessions that are settled. *)
Lemma derive_each_id os w ids :
  worker_ok w →
  (∀ k e, BTreeMap.get (sessions w) k = Some e → entry_settled RUNTIMES e) →
  WorkerState.derive_each RUNTIMES os w ids (λ _ p,
    if p_changed p || bool_decide (is_Some (p_notification p)) then Some p else None) = (w, []).
Proof.
  intros Hw Hall. induction ids as [|sid ids IH]; [done|]. cbn [WorkerState.derive_each].
  destruct (BTreeMap.get (sessions w) sid) as [e|] eqn:Hg.
  - rewrite (derive_id os w sid e) by eauto. by rewrite IH.
  - pose proof (derive_spec os w sid (now os) Hw) as [_ Hd]. rewrite Hg in Hd. rewrite Hd, IH. done.
Qed.

(** ** Events *)

(** The revision of a frame. *)
Definition frame_revision (frame : Value) : N :=
  default 0 (Value.as_u64 (Value.index frame "revision"%string)).

(** What an event may do: nothing; note its revision; or be applied. *)
Inductive event_effect os w (frame : Value) : WorkerState * option Projection → Prop :=
| effect_ignored :
    (∀ os', WorkerState.apply_core_event RUNTIMES os' w frame = (w, None)) →
    event_effect os w frame (w, None)
| effect_stale event e :
    from_params parse_id frame = inr event →
    BTreeMap.get (sessions w) (ev_session event) = Some e →
    WorkerState.is_replay (frame_revision frame) (hook_revision e) = false →
    event_effect os w frame
      (set_sessions w (BTreeMap.insert (sessions w) (ev_session event)
                         (set_hook_revision (frame_revision frame) e)), None)
| effect_applied event e e' p w' :
    from_params parse_id frame = inr event →
    BTreeMap.get (sessions w) (ev_session event) = Some e →
    WorkerState.is_replay (frame_revision frame) (hook_revision e) = false →
    worker_ok w' → sessions w' = BTreeMap.insert (sessions w) (ev_session event) e' →
    entry_settled RUNTIMES e' → hook_revision e' = frame_revision frame →
    session e' = ev_session event → p_session p = e' → p_changed p = true →
    event_effect os w frame (w', Some p).

Lemma set_sessions_twice w a b : set_sessions (set_sessions w a) b = set_sessions w b.
Proof. done. Qed.

Lemma apply_core_event_effect os w frame :
  worker_ok w → event_effect os w frame (WorkerState.apply_core_event RUNTIMES os w frame).
Proof.
  intros Hw. pose proof (effect_ignored os w frame) as Hign. revert Hign.
  unfold WorkerState.apply_core_event.
  destruct (from_params parse_id frame) as [err|event] eqn:Hev; [auto|].
  destruct (BTreeMap.get (sessions w) (ev_session event)) as [e|] eqn:Hg; [|auto].
  cbn zeta. fold (frame_revision frame).
  destruct (WorkerState.is_replay (frame_revision frame) (hook_revision e)) eqn:Hr; [auto|].
  match goal with |- _ → event_effect _ _ _ (if ?b then _ else _) => destruct b; [auto|] end.
  intros _.
  set (now_ms := default (now os) _). set (sid := ev_session event) in *.
  set (e1 := set_hook_revision _ e).
  assert (session e = sid) as Hsid by (by eapply wo_keyed).
  assert (∀ summary, event_effect os w frame
    (let w := set_sessions w (BTreeMap.insert (sessions w) sid e1) in
     let e := set_updated_at now_ms (set_activity summary false e1) in
     let w := set_sessions w (BTreeMap.insert (sessions w) sid e) in
     let w := match WorkerState.hook_input (ev_kind event) with
              | Some input =>
                  WorkerState.push_turn_signal RUNTIMES os w sid input now_ms (frame_revision frame)
              | None => w end in
     let '(w, projection) := WorkerState.derive RUNTIMES os w sid now_ms in
     (w, (λ p, mkProjection (p_session p) (p_notification p) true) <$> projection))) as Happly.
  { intros summary. cbn zeta. cbn [sessions set_sessions]. rewrite insert_insert.
    rewrite set_sessions_twice. set (e2 := set_updated_at _ _).
    assert (worker_ok (set_sessions w (BTreeMap.insert (sessions w) sid e2))) as Hw2
      by (by apply worker_ok_insert).
    set (w2 := set_sessions w _) in *. set (w3 := match _ with Some _ => _ | None => _ end).
    assert (worker_ok w3 ∧ sessions w3 = sessions w2) as [Hw3 Hs3].
    { subst w3. destruct (WorkerState.hook_input _); [|done].
      split; [by apply push_ok|by apply push_sessions]. }
    pose proof (derive_spec os w3 sid now_ms Hw3) as [Hw4 Hd].
    rewrite Hs3 in Hd. cbn [sessions set_sessions w2] in Hd. rewrite get_insert in Hd.
    pose proof (derive_entry_settles RUNTIMES e2 now_ms) as (Hset & Hses & _ & Hrev).
    destruct (WorkerState.derive RUNTIMES os w3 sid now_ms) as [w4 p]. cbn [fst snd] in *.
    destruct Hd as [Hs4 ->]. rewrite insert_insert in Hs4.
    eapply (effect_applied os w frame event e); try done. by rewrite Hses. }
  destruct (apply_event (activity e1) event now_ms) as [summary| |].
  - apply (Happly (Some summary)).
  - apply (Happly None).
  - by apply (effect_stale os w frame event e).
Qed.

Lemma apply_core_event_ok os w frame :
  worker_ok w → worker_ok (fst (WorkerState.apply_core_event RUNTIMES os w frame)).
Proof.
  intros Hw. destruct (apply_core_event_effect os w frame Hw); try done.
  simpl. apply worker_ok_insert; [done|]. simpl. by eapply wo_keyed.
Qed.

(** An event changes the entry of its session at most. *)
Lemma apply_core_event_keys os w frame :
  worker_ok w →
  BTreeMap.keys (sessions (fst (WorkerState.apply_core_event RUNTIMES os w frame))) =
  BTreeMap.keys (sessions w).
Proof.
  intros Hw. destruct (apply_core_event_effect os w frame Hw) as
    [|event e Hev Hg|event e e' p w' Hev Hg Hr Hw' Hs]; [done| |]; cbn [fst];
    [cbn [sessions set_sessions]|rewrite Hs];
    (apply keys_insert_existing; [by apply wo_sorted|by eapply get_some_key]).
Qed.

(** A frame that was handled, whatever came of it, is not handled again. *)
Lemma replay_ignored os os' w frame :
  worker_ok w → 0 < frame_revision frame →
  let w1 := fst (WorkerState.apply_core_event RUNTIMES os w frame) in
  WorkerState.apply_core_event RUNTIMES os' w1 frame = (w1, None).
Proof.
  intros Hw Hrev. cbn zeta.
  assert (∀ w1 event e', from_params parse_id frame = inr event →
    BTreeMap.get (sessions w1) (ev_session event) = Some e' →
    hook_revision e' = frame_revision frame →
    WorkerState.apply_core_event RUNTIMES os' w1 frame = (w1, None)) as Hskip.
  { intros w1 event e' Hev Hg Hr. unfold WorkerState.apply_core_event. rewrite Hev, Hg.
    cbn zeta. fold (frame_revision frame). unfold WorkerState.is_replay. rewrite Hr.
    rewrite N.leb_refl, andb_true_r. by rewrite (proj2 (N.ltb_lt _ _)). }
  destruct (apply_core_event_effect os w frame Hw) as
    [Hign|event e Hev Hg|event e e' p w' Hev Hg Hr Hw' Hs Hset Hr']; cbn [fst snd]; [done|..].
  - eapply Hskip; [exact Hev|cbn [sessions set_sessions]; apply get_insert|done].
  - eapply Hskip; [exact Hev|rewrite Hs; apply get_insert|done].
Qed.

(** ** The other operations *)

Lemma sweep_spec os w :
  worker_ok w →
  let w' := fst (WorkerState.sweep RUNTIMES os w) in
  worker_ok w' ∧ BTreeMap.keys (sessions w') = BTreeMap.keys (sessions w) ∧
  ∀ k e, BTreeMap.get (sessions w') k = Some e → entry_settled RUNTIMES e.
Proof.
  intros Hw w'. subst w'. unfold WorkerState.sweep.
  match goal with |- context [WorkerState.derive_each _ _ _ ?ids ?keep] =>
    destruct (derive_each_spec os w ids keep Hw) as (Hw' & Hkeys & Hall) end.
  split_and!; [done..|]. intros k e Hg. apply (Hall k e Hg). rewrite <- Hkeys.
  by eapply get_some_key.
Qed.

Lemma acknowledge_ok w ids :
  worker_ok w → worker_ok (fst (WorkerState.acknowledge w ids)).
Proof.
  revert w. induction ids as [|sid ids IH]; intros w Hw; [done|]. cbn [WorkerState.acknowledge].
  destruct (BTreeMap.get (sessions w) sid) as [e|] eqn:Hg; [|by apply IH].
  destruct (unread e); [|by apply IH]. cbn zeta.
  match goal with |- context [WorkerState.acknowledge ?w2 ids] =>
    specialize (IH w2); destruct (WorkerState.acknowledge w2 ids) end.
  apply IH, worker_ok_insert; [done|]. simpl. by eapply wo_keyed.
Qed.

Lemma forget_ok os w sid :
  worker_ok w → worker_ok (fst (WorkerState.forget_core_session RUNTIMES os w sid)).
Proof. intros Hw. apply (worker_ok_retain _ _), push_ok, Hw. Qed.

Lemma drain_ok w : worker_ok w → worker_ok (fst (WorkerState.drain_turn_signals w)).
Proof. intros [? ? ? ?]. split; simpl; try done. lia. Qed.

(** ** Rows of the core *)

Definition row_id (raw : Value) : option str :=
  Value.as_str (Value.index raw "session"%string) ≫= parse_id.

Lemma adopt_session e : session (adopt_declared_verdict RUNTIMES e) = session e.
Proof. unfold adopt_declared_verdict. by destruct (declared_verdict RUNTIMES e). Qed.

Lemma merge_core_row_session sid raw held now :
  session (merge_core_row RUNTIMES sid raw held now) = sid.
Proof. 
  unfold merge_core_row. cbn zeta.
  match goal with |- session (match ?x with _ => _ end) = _ => destruct x end; [done|].
  by rewrite adopt_session.
Qed.

Lemma recover_field_ok os raw sid st field :
  worker_ok (fst st) →
  worker_ok (fst (WorkerState.recover_field RUNTIMES os raw sid st field)) ∧
  BTreeMap.keys (sessions (fst (WorkerState.recover_field RUNTIMES os raw sid st field))) =
  BTreeMap.keys (sessions (fst st)).
Proof.
  intros Hw. destruct st as [w rec]. unfold WorkerState.recover_field.
  destruct (Value.index _ field); try done.
  match goal with |- context [WorkerState.apply_core_event RUNTIMES os w ?f] =>
    pose proof (apply_core_event_ok os w f Hw); pose proof (apply_core_event_keys os w f Hw);
    destruct (WorkerState.apply_core_event RUNTIMES os w f) end.
  done.
Qed.

Lemma recover_fields_ok os raw sid fields st :
  worker_ok (fst st) →
  let st' := foldl (WorkerState.recover_field RUNTIMES os raw sid) st fields in
  worker_ok (fst st') ∧ BTreeMap.keys (sessions (fst st')) = BTreeMap.keys (sessions (fst st)).
Proof.
  revert st. induction fields as [|f fs IH]; intros st Hw; [done|]. cbn [foldl].
  destruct (recover_field_ok os raw sid st f Hw) as [Hw' <-]. by apply IH.
Qed.

(** The sessions of the worker and the ones seen, once a row is applied. *)
Lemma apply_row_spec os r raw :
  worker_ok (WorkerState.r_worker r) →
  let r' := WorkerState.apply_row RUNTIMES os r raw in
  worker_ok (WorkerState.r_worker r') ∧
  (∀ k, k ∈ BTreeMap.keys (sessions (WorkerState.r_worker r')) ↔
        k ∈ BTreeMap.keys (sessions (WorkerState.r_worker r)) ∨ row_id raw = Some k) ∧
  (∀ k, k ∈ BTreeMap.keys (WorkerState.seen r') ↔
        k ∈ BTreeMap.keys (WorkerState.seen r) ∨ row_id raw = Some k).
Proof.
  intros Hw r'. subst r'. unfold WorkerState.apply_row. fold (row_id raw).
  destruct (row_id raw) as [sid|] eqn:Hid; [|split_and!; [done|by intuition..]]. cbn zeta.
  assert (∀ k, k ∈ BTreeMap.keys (BTreeMap.insert (WorkerState.seen r) sid tt) ↔
            k ∈ BTreeMap.keys (WorkerState.seen r) ∨ Some sid = Some k) as Hseen.
  { intros k. rewrite elem_keys_insert. split; [intros [->|?]; auto|intros [?|[= ->]]; auto]. }
  remember (BTreeMap.get (sessions (WorkerState.r_worker r)) sid) as held eqn:Hg.
  match goal with |- context [if ?b then WorkerState.mkRows _ _ _ _ _ _ else _] =>
    destruct b eqn:Hold end.
  - destruct held as [e|]; [|done]. split_and!; [done| |exact Hseen]. intros k.
    split; [by left|]. intros [?|[= <-]]; [done|by eapply get_some_key].
  - set (e' := AgentSession.refresh_health (verify os) _).
    assert (worker_ok (set_sessions (WorkerState.r_worker r)
      (BTreeMap.insert (sessions (WorkerState.r_worker r)) sid e'))) as Hw'
      by (apply worker_ok_insert; [done|apply merge_core_row_session]).
    match goal with |- context [foldl (WorkerState.recover_field RUNTIMES os raw sid) ?st ?fs] =>
      pose proof (recover_fields_ok os raw sid fs st Hw') as [Hw2 Hk2];
      destruct (foldl (WorkerState.recover_field RUNTIMES os raw sid) st fs) as [w2 rec2] end.
    cbn [fst WorkerState.r_worker WorkerState.seen sessions set_sessions] in *.
    split_and!; [done| |exact Hseen]. intros k. rewrite Hk2, elem_keys_insert.
    split; [intros [->|?]; auto|intros [?|[= ->]]; auto].
Qed.

Lemma apply_rows_spec os rows r :
  worker_ok (WorkerState.r_worker r) →
  let r' := foldl (WorkerState.apply_row RUNTIMES os) r rows in
  worker_ok (WorkerState.r_worker r') ∧
  (∀ k, k ∈ BTreeMap.keys (sessions (WorkerState.r_worker r')) ↔
        k ∈ BTreeMap.keys (sessions (WorkerState.r_worker r)) ∨ Some k ∈ row_id <$> rows) ∧
  (∀ k, k ∈ BTreeMap.keys (WorkerState.seen r') ↔
        k ∈ BTreeMap.keys (WorkerState.seen r) ∨ Some k ∈ row_id <$> rows).
Proof.
  revert r. induction rows as [|raw rows IH]; intros r Hw; cbn zeta.
  - split_and!; [done|..]; intros k; split; auto; intros [?|?%not_elem_of_nil]; done.
  - cbn [foldl]. destruct (apply_row_spec os r raw Hw) as (Hw' & Hk & Hs).
    destruct (IH _ Hw') as (Hw'' & Hk' & Hs'). split_and!; [done|..]; intros k.
    + rewrite Hk', Hk, fmap_cons, elem_of_cons. intuition congruence.
    + rewrite Hs', Hs, fmap_cons, elem_of_cons. intuition congruence.
Qed.

Lemma keys_map_values {V} (f : V → V) (m : BTreeMap.t V) :
  BTreeMap.keys (BTreeMap.map_values f m) = BTreeMap.keys m.
Proof. unfold BTreeMap.keys, BTreeMap.map_values. by rewrite <- list_fmap_compose. Qed.

Lemma elem_keys_retain {V} (pred : str → V → bool) (m : BTreeMap.t V) k :
  sorted m → k ∈ BTreeMap.keys (BTreeMap.retain pred m) ↔
    ∃ v, BTreeMap.get m k = Some v ∧ pred k v = true.
Proof.
  intros Hs. split.
  - intros [v Hg]%get_key. rewrite get_retain in Hg by done.
    apply bind_Some in Hg as (v' & Hg & Hp). exists v'. by destruct (pred k v').
  - intros (v & Hg & Hp). apply (get_some_key _ _ v). rewrite get_retain, Hg by done. simpl.
    by rewrite Hp.
Qed.

(** After the rows of the core: the sessions, and that those seen are settled. *)
Lemma apply_core_rows_spec os w rows prune :
  worker_ok w →
  let w' := fst (WorkerState.apply_core_rows RUNTIMES os w rows prune) in
  worker_ok w' ∧
  (∀ k, k ∈ BTreeMap.keys (sessions w') ↔
        Some k ∈ row_id <$> rows ∨ prune = false ∧ k ∈ BTreeMap.keys (sessions w)) ∧
  (∀ k e, BTreeMap.get (sessions w') k = Some e → Some k ∈ row_id <$> rows →
          entry_settled RUNTIMES e).
Proof.
  intros Hw w'. subst w'. unfold WorkerState.apply_core_rows.
  destruct (apply_rows_spec os rows (WorkerState.mkRows w [] [] [] [] []) Hw) as (Hw1 & Hk1 & Hs1).
  set (r := foldl _ _ rows) in *. cbn zeta. cbn [WorkerState.r_worker WorkerState.seen] in *.
  set (w1 := if prune then _ else _).
  assert (worker_ok w1) as Hw2 by (destruct prune; [by apply worker_ok_retain|done]).
  assert (∀ k, k ∈ BTreeMap.keys (WorkerState.seen r) ↔ Some k ∈ row_id <$> rows) as Hseen.
  { intros k. rewrite Hs1. split; [|by right]. intros [?%not_elem_of_nil|?]; done. }
  assert (∀ k, k ∈ BTreeMap.keys (sessions w1) ↔
    Some k ∈ row_id <$> rows ∨ prune = false ∧ k ∈ BTreeMap.keys (sessions w)) as Hk2.
  { intros k. subst w1. destruct prune.
    - cbn [sessions set_sessions]. rewrite elem_keys_retain by (by apply wo_sorted).
      unfold BTreeMap.contains_key. split.
      + intros (e & _ & [v Hv]%bool_decide_eq_true). left. apply Hseen.
        by eapply get_some_key.
      + intros [Hin|[? _]]; [|done].
        assert (k ∈ BTreeMap.keys (sessions (WorkerState.r_worker r))) as [e He]%get_key
          by (apply Hk1; by right).
        exists e. split; [done|]. apply bool_decide_eq_true, get_key, Hseen, Hin.
    - rewrite Hk1. tauto. }
  pose proof (reconcile_adopted_activity_ok os w1 Hw2) as Hw3.
  destruct (derive_each_spec os _ (BTreeMap.keys (WorkerState.seen r))
              (WorkerState.announce r) Hw3) as (Hw4 & Hkeys & Hall).
  split_and!; [done| |].
  - intros k. rewrite Hkeys. unfold WorkerState.reconcile_adopted_activity.
    cbn [sessions set_sessions]. rewrite keys_map_values. apply Hk2.
  - intros k e Hg Hin. apply (Hall k e Hg), Hseen, Hin.
Qed.

Lemma from_manifest_session verify m : session (from_manifest RUNTIMES verify m) = m_session m.
Proof. 
  unfold from_manifest. cbn zeta. unfold AgentSession.refresh_health. simpl.
  by rewrite adopt_session.
Qed.

Lemma rebuild_ok os w manifests :
  worker_ok w → worker_ok (WorkerState.rebuild RUNTIMES os w manifests).
Proof.
  intros Hw. unfold WorkerState.rebuild. cbn zeta.
  match goal with |- context [set_sessions w ?m] =>
    assert (worker_ok (set_sessions w m)) as Hw1; [|generalize dependent (set_sessions w m)] end.
  { assert (∀ m, worker_ok (set_sessions w m) →
      worker_ok (set_sessions w (foldl (λ rebuilt m, BTreeMap.insert rebuilt (m_session m)
        (from_manifest RUNTIMES (verify os) m)) m manifests))) as Hfold.
    { induction manifests as [|x xs IH]; intros m Hm; [done|]. cbn [foldl]. apply IH.
      apply (worker_ok_insert (set_sessions w m)); [done|apply from_manifest_session]. }
    apply Hfold. destruct Hw. split; simpl; try done. constructor. }
  clear dependent w. intros w Hw.
  match goal with |- context [foldl _ w ?l] => generalize l as frames end. intros frames.
  assert (∀ w, worker_ok w → worker_ok (foldl (λ w frame,
    fst (WorkerState.apply_core_event RUNTIMES os w frame)) w frames)) as Hfold.
  { clear. induction frames as [|f fs IH]; intros w Hw; [done|]. cbn [foldl].
    apply IH, apply_core_event_ok, Hw. }
  apply Hfold, (reconcile_adopted_activity_ok os) in Hw.
  match goal with |- context [WorkerState.derive_each _ _ ?w2 ?ids ?keep] =>
    apply (derive_each_spec os w2 ids keep Hw) end.
Qed.

(** ** Every history of a worker

    The states any sequence of operations can lead to, whatever the operating
    system answers during each of them. *)
Inductive reachable : WorkerState → Prop :=
| reach_new : reachable WorkerState.new
| reach_rebuild os w ms : reachable w → reachable (WorkerState.rebuild RUNTIMES os w ms)
| reach_event os w frame :
    reachable w → reachable (fst (WorkerState.apply_core_event RUNTIMES os w frame))
| reach_snapshot os w rows :
    reachable w → reachable (fst (WorkerState.apply_core_snapshot RUNTIMES os w rows))
| reach_session os w row :
    reachable w → reachable (fst (WorkerState.apply_core_session RUNTIMES os w row))
| reach_forget os w sid :
    reachable w → reachable (fst (WorkerState.forget_core_session RUNTIMES os w sid))
| reach_sweep os w : reachable w → reachable (fst (WorkerState.sweep RUNTIMES os w))
| reach_acknowledge w ids : reachable w → reachable (fst (WorkerState.acknowledge w ids))
| reach_drain w : reachable w → reachable (fst (WorkerState.drain_turn_signals w))
| reach_health os w : reachable w → reachable (WorkerState.refresh_health os w).

Lemma worker_reachable_ok w : reachable w → worker_ok w.
Proof.
  induction 1.
  - split; simpl; [constructor|done|lia..].
  - by apply rebuild_ok.
  - by apply apply_core_event_ok.
  - by apply apply_core_rows_spec.
  - by apply apply_core_rows_spec.
  - by apply forget_ok.
  - by apply sweep_spec.
  - by apply acknowledge_ok.
  - by apply drain_ok.
  - by apply refresh_health_ok.
Qed.
End worker.
