(* ===== verification/AgentProperties.v ===== *)
(** * Agent activity: the properties of the worker

    Whatever the core and the hooks send, in whatever order, the worker keeps its
    invariant; its state converges to what the programs declare; frames that were
    handled, out of order, or from a foreign process change nothing. *)

From stdpp Require Import strings.
From S2P Require Import Prelude DiffText OrderedMap AgentActivity AgentSession AgentWorker AgentFacts.

Local Open Scope N_scope.

(** ** The reducer of hook events *)

Section reducer.
Implicit Types (event : AgentEvent str) (s : AgentSummary).

(** An event for a known run is refused exactly when it is out of order, when
    it ends the run on behalf of another process while the run is not silent, or
    when it ends the session of a run that failed; an event for an unknown run
    is never refused. *)
Theorem apply_event_refuses event (now_ms : N) :
  (∀ s, apply_event (Some s) event now_ms = Stale ↔
     out_of_order s event ∨ foreign_end s event now_ms ∨
     (ev_kind event = SessionEnd ∧ errored s = true)) ∧
  apply_event None event now_ms ≠ Stale.
Proof.
  split; [|by destruct event as [? ? []]].
  intros s. pose proof (accepts_event_false s event) as Hev.
  pose proof (accepts_process_false s event now_ms) as Hproc. unfold apply_event.
  destruct (accepts_event _ _); simpl.
  - destruct (bool_decide_reflect (ev_kind event = SessionEnd)) as [Hend|Hend];
      destruct (accepts_process _ _ _); simpl; try destruct (errored s); naive_solver.
  - naive_solver.
Qed.
End reducer.

(** ** Texts and events *)

(** Decoding a frame never lets anything oversized or meaningless in: an
    accepted event names a tool, its texts have at most [MAX_AGENT_TEXT_BYTES]
    bytes and are not blank, its process id and exit code fit their machine
    types, and an exit has an exit code. *)
Theorem from_params_bounds (parse_session : str → option str) (params : Value)
    (event : AgentEvent str) :
  from_params parse_session params = inr event → event_ok event.
Proof. apply from_params_spec. Qed.

(** Both cuts of a text keep whole characters, and as many as fit: the clamp
    of an agent text is the longest prefix, NULs left out, of at most
    [MAX_AGENT_TEXT_BYTES] bytes, the reason of a failed outcome the longest
    prefix of at most [MAX_FAILURE_REASON_BYTES]. *)
Theorem text_cuts_longest (raw : str) :
  longest_prefix MAX_AGENT_TEXT_BYTES (filter (λ c, c ≠ 0) raw) (clamp_text raw) ∧
  longest_prefix MAX_FAILURE_REASON_BYTES raw (failure_reason_text raw).
Proof. split; [apply clamp_text_spec|apply failure_reason_text_spec]. Qed.

(** A notification that a turn has finished is derived exactly when the
    session was in a turn and its program declares it done, and the session is
    then unread; one that input is needed exactly when the session starts to
    wait for the user or fails; its body is never empty nor over the limit. *)
Theorem derive_notifies (RUNTIMES : list Runtime) (e : SessionEntry) (now : N) :
  match d_notification (derive_entry RUNTIMES e now) with
  | Some n =>
      (n_kind n = KIND_FINISHED ∧ turn_finished RUNTIMES e ∧
       unread (d_entry (derive_entry RUNTIMES e now)) = true ∨
       n_kind n = KIND_NEEDS_INPUT ∧ needs_input RUNTIMES e) ∧
      ∀ b, body n = Some b → (1 ≤ length b ≤ MAX_NOTIFICATION_BODY_CHARS)%nat
  | None => ¬ turn_finished RUNTIMES e ∧ ¬ needs_input RUNTIMES e
  end.
Proof. apply derive_entry_notifies. Qed.

(** ** The worker *)

Section worker.
Context `{Decoders} (RUNTIMES : list Runtime).

(** C40: After any history of operations, whatever the system answers, the
    sessions are a map sorted by identifier with every entry under its own,
    and the queue of turn signals and the activity log are within their
    capacity. *)
Theorem worker_invariant (w : WorkerState) :
  reachable RUNTIMES w →
  sorted (sessions w) ∧
  (∀ k e, BTreeMap.get (sessions w) k = Some e → session e = k) ∧
  (length (turn_signals w) ≤ MAX_PENDING_TURN_SIGNALS)%nat ∧
  (length (log w) ≤ ACTIVITY_LOG_CAPACITY)%nat.
Proof. by intros [? ? ? ?]%worker_reachable_ok. Qed.

(** C38: One sweep settles every session: status, source, outcome and activity
    row agree with what the program declares, and a row has a waiting time
    exactly when the session waits.  A second sweep, at any later time, changes
    nothing and announces nothing. *)
Theorem sweep_settles (os os' : Os) (w : WorkerState) :
  reachable RUNTIMES w →
  let w' := fst (WorkerState.sweep RUNTIMES os w) in
  BTreeMap.keys (sessions w') = BTreeMap.keys (sessions w) ∧
  (∀ k e, BTreeMap.get (sessions w') k = Some e → entry_settled RUNTIMES e) ∧
  WorkerState.sweep RUNTIMES os' w' = (w', []).
Proof.
  intros Hw%worker_reachable_ok w'. destruct (sweep_spec RUNTIMES os w Hw) as (Hw' & Hk & Hall).
  split_and!; [done..|]. by apply derive_each_id.
Qed.

(** A frame with a revision is handled once: applying it again, right after
    and whatever came of it, does nothing. *)
Theorem replayed_frame_ignored (os os' : Os) (w : WorkerState) (frame : Value) :
  reachable RUNTIMES w → 0 < frame_revision frame →
  let w' := fst (WorkerState.apply_core_event RUNTIMES os w frame) in
  WorkerState.apply_core_event RUNTIMES os' w' frame = (w', None).
Proof. intros Hw%worker_reachable_ok. by apply replay_ignored. Qed.

(** An event that is applied changes the entry of its session only, settles
    it, records its revision - newer than the one held, if the session had
    one - and announces exactly that entry as changed. *)
Theorem applied_event_settles (os : Os) (w w' : WorkerState) (frame : Value) (p : Projection) :
  reachable RUNTIMES w →
  WorkerState.apply_core_event RUNTIMES os w frame = (w', Some p) →
  ∃ event e, from_params parse_id frame = inr event ∧
    BTreeMap.get (sessions w) (ev_session event) = Some e ∧
    sessions w' = BTreeMap.insert (sessions w) (ev_session event) (p_session p) ∧
    entry_settled RUNTIMES (p_session p) ∧ p_changed p = true ∧
    hook_revision (p_session p) = frame_revision frame ∧
    (0 < hook_revision e → hook_revision e < frame_revision frame).
Proof.
  intros Hw%worker_reachable_ok Happ. pose proof (apply_core_event_effect RUNTIMES os w frame Hw) as Heff.
  rewrite Happ in Heff. inversion Heff as [| |event e e' p' w2 Hev Hg Hr Hw2 Hs Hset Hrev Hsid Hp Hch].
  subst. exists event, e. split_and!; try done. intros Hpos.
  unfold WorkerState.is_replay in Hr. apply orb_false_iff in Hr as [H1 H2].
  apply andb_false_iff in H1. apply andb_false_iff in H2.
  rewrite N.ltb_ge, N.leb_gt in H1. rewrite N.eqb_neq, N.ltb_ge in H2. lia.
Qed.

(** C39: After a snapshot of the core the worker knows exactly the sessions of
    the snapshot - the others are forgotten, none is missed - and every one of
    them is settled. *)
Theorem snapshot_is_exact (os : Os) (w : WorkerState) (rows : list Value) :
  reachable RUNTIMES w →
  let w' := fst (WorkerState.apply_core_snapshot RUNTIMES os w rows) in
  (∀ k, k ∈ BTreeMap.keys (sessions w') ↔ Some k ∈ row_id <$> rows) ∧
  (∀ k e, BTreeMap.get (sessions w') k = Some e → entry_settled RUNTIMES e).
Proof.
  intros Hw%worker_reachable_ok w'.
  destruct (apply_core_rows_spec RUNTIMES os w rows true Hw) as (_ & Hk & Hall).
  assert (∀ k, k ∈ BTreeMap.keys (sessions w') ↔ Some k ∈ row_id <$> rows) as Hk'.
  { intros k. subst w'. unfold WorkerState.apply_core_snapshot. rewrite Hk. naive_solver. }
  split; [done|]. intros k e Hg. eapply Hall; [exact Hg|]. apply Hk'. by eapply get_some_key.
Qed.
End worker.

(** ** A worker with one session *)

Definition sample_runtime : Runtime :=
  mkRuntime (lit "claude") (lit "claude-code") (lit "Claude Code") [lit "claude"] [lit "claude"].

(** Nothing but the identifier, the generation and the declared status is decoded. *)
Definition sample_decoders : Decoders := {|
  decode_lifecycle _ := Some Running;
  decode_process _ := None;
  decode_observation v :=
    if bool_decide (Value.as_str v = Some (lit "claude"))
    then Some (Some (mkObservation (lit "claude") 7 None 7 [] None)) else None;
  decode_declared v :=
    state ← Value.as_str v; Some (Some (mkDeclared state None None [] [] []));
  decode_env _ := None;
  decode_summary _ := None;
  uuid_hyphenated v := Some v |}.

Definition sample_os : Os := mkOs 1000 (λ _, ProcessLive) (λ _, None) (λ _ _, Some (lit "/home")).

Definition sample_row (id declared : str) : Value :=
  VObject [(lit "session", VString id); (lit "generation", VInt 1);
           (lit "observed_runtime", VString (lit "claude"));
           (lit "declared_status", VString declared)].

Definition sample_worker : WorkerState :=
  fst (@WorkerState.apply_core_snapshot sample_decoders [sample_runtime] sample_os WorkerState.new
         [sample_row (lit "a") (lit "working"); sample_row (lit "b") (lit "blocked")]).

(** A prompt of session [a], at revision 3. *)
Definition sample_frame : Value :=
  VObject [(lit "session", VString (lit "a")); (lit "kind", VString (lit "ai.prompt_submit"));
           (lit "tool", VString (lit "claude")); (lit "revision", VInt 3)].

Lemma sample_worker_reachable : @reachable sample_decoders [sample_runtime] sample_worker.
Proof. apply reach_snapshot, reach_new. Qed.

Lemma worker_invariant_witness :
  BTreeMap.keys (sessions sample_worker) = [lit "a"; lit "b"] ∧
  sorted (sessions sample_worker) ∧
  (∀ k e, BTreeMap.get (sessions sample_worker) k = Some e → session e = k) ∧
  (length (turn_signals sample_worker) ≤ MAX_PENDING_TURN_SIGNALS)%nat ∧
  (length (log sample_worker) ≤ ACTIVITY_LOG_CAPACITY)%nat.
Proof.
  split; [vm_compute; reflexivity|].
  exact (@worker_invariant sample_decoders [sample_runtime] sample_worker sample_worker_reachable).
Defined.

Lemma sweep_settles_witness :
  let w' := fst (@WorkerState.sweep [sample_runtime] sample_os sample_worker) in
  BTreeMap.keys (sessions w') = BTreeMap.keys (sessions sample_worker) ∧
  (∀ k e, BTreeMap.get (sessions w') k = Some e → entry_settled [sample_runtime] e) ∧
  @WorkerState.sweep [sample_runtime] sample_os w' = (w', []).
Proof.
  exact (@sweep_settles sample_decoders [sample_runtime] sample_os sample_os sample_worker
           sample_worker_reachable).
Defined.

Lemma replayed_frame_ignored_witness :
  let w' := fst (@WorkerState.apply_core_event sample_decoders [sample_runtime] sample_os
                   sample_worker sample_frame) in
  hook_revision <$> BTreeMap.get (sessions w') (lit "a") = Some 3 ∧
  @WorkerState.apply_core_event sample_decoders [sample_runtime] sample_os w' sample_frame =
    (w', None).
Proof.
  split; [vm_compute; reflexivity|].
  apply (@replayed_frame_ignored sample_decoders [sample_runtime] sample_os sample_os sample_worker
           sample_frame sample_worker_reachable).
  vm_compute. reflexivity.
Defined.

Lemma applied_event_settles_witness :
  let r := @WorkerState.apply_core_event sample_decoders [sample_runtime] sample_os
             sample_worker sample_frame in
  ∃ p event e, snd r = Some p ∧ from_params (@parse_id sample_decoders) sample_frame = inr event ∧
    BTreeMap.get (sessions sample_worker) (ev_session event) = Some e ∧
    sessions (fst r) = BTreeMap.insert (sessions sample_worker) (ev_session event) (p_session p) ∧
    entry_settled [sample_runtime] (p_session p) ∧ p_changed p = true ∧
    hook_revision (p_session p) = frame_revision sample_frame ∧
    (0 < hook_revision e → hook_revision e < frame_revision sample_frame).
Proof.
  destruct (@WorkerState.apply_core_event sample_decoders [sample_runtime] sample_os
              sample_worker sample_frame) as [w' [p|]] eqn:Happ.
  - exists p. cbn [fst snd].
    destruct (@applied_event_settles sample_decoders [sample_runtime] sample_os sample_worker w'
                sample_frame p sample_worker_reachable Happ) as (event & e & Hall).
    exists event, e. split; [reflexivity|exact Hall].
  - vm_compute in Happ. discriminate Happ.
Defined.

Lemma snapshot_is_exact_witness :
  let rows := [sample_row (lit "b") (lit "done")] in
  let w' := fst (@WorkerState.apply_core_snapshot sample_decoders [sample_runtime] sample_os
                   sample_worker rows) in
  BTreeMap.keys (sessions w') = [lit "b"] ∧
  (∀ k, k ∈ BTreeMap.keys (sessions w') ↔ Some k ∈ @row_id sample_decoders <$> rows) ∧
  (∀ k e, BTreeMap.get (sessions w') k = Some e → entry_settled [sample_runtime] e).
Proof.
  intros rows w'. split; [vm_compute; reflexivity|].
  exact (@snapshot_is_exact sample_decoders [sample_runtime] sample_os sample_worker rows
           sample_worker_reachable).
Defined.

Lemma from_params_bounds_witness :
  ∃ event, from_params (λ v, Some v) sample_frame = inr event ∧ event_ok event.
Proof.
  destruct (from_params (λ v, Some v) sample_frame) as [err|event] eqn:He.
  - vm_compute in He. discriminate He.
  - exists event. split; [reflexivity|]. exact (from_params_bounds (λ v, Some v) sample_frame event He).
Defined.
