(* ===== verification/GitTypes.v ===== *)
(** * Git integration: results, errors and calls

    The types of [paneflow-git/src/lib.rs] that the other files of the group
    share, and the monad of calls that read the repository: a call changes a
    state and returns [Ok] or [Err]; [None] is a panic.  [safe] and [total] are
    its rules of reasoning. *)

From stdpp Require Import list strings.
From S2P Require Import Prelude.

(** Bytes, and the [Vec<u8>] and [PathBuf] made of them. *)
Definition bytes := list N.

(** [Error] of [lib.rs]; a path is its bytes, a message its text. *)
Inductive Error :=
  | NotARepository (path : bytes)
  | Bare (path : bytes)
  | Untrusted (path : bytes)
  | Interrupted
  | TooManyEntries (cap : nat)
  | Git (context : string) (message : string).

#[export] Instance Error_eq_dec : EqDecision Error.
Proof. solve_decision. Defined.

(** [Result]. *)
Inductive result (A E : Type) := Ok (a : A) | Err (e : E).
Arguments Ok {A E} a.
Arguments Err {A E} e.

(** A call on [&mut S]: its result and the state it leaves. *)
Definition call (S A : Type) : Type := S → option (result A Error * S).

#[export] Instance call_ret S : MRet (call S) := λ A a st, Some (Ok a, st).

(** The operator [?]. *)
#[export] Instance call_bind S : MBind (call S) := λ A B f m st,
  match m st with
  | Some (Ok a, st) => f a st
  | Some (Err e, st) => Some (Err e, st)
  | None => None
  end.

(** A step that may only panic. *)
Definition checked {S A} (m : option A) : call S A := λ st,
  match m with Some a => Some (Ok a, st) | None => None end.

(** A [for] loop whose body calls, threading a value. *)
Fixpoint for_call {S A B} (xs : list A) (body : A → B → call S B) (b : B) : call S B :=
  match xs with
  | [] => mret b
  | x :: xs => b ← body x b; for_call xs body b
  end.

(** Looking an option up inside a call: [let Some(a) = … else { return default }]. *)
Definition or_return {S A B} (o : option A) (default : B) (k : A → call S B) : call S B :=
  match o with Some a => k a | None => mret default end.

(** ** Reasoning *)

(** [total E m st P]: from [st], [m] does not panic; it ends with an error of [E]
    or with a result and a state in [P]. *)
Definition total {S A} (E : Error → Prop) (m : call S A) (st : S) (P : A → S → Prop) : Prop :=
  match m st with
  | Some (Ok a, st) => P a st
  | Some (Err e, st) => E e
  | None => False
  end.

Section rules.
Context {S : Type} (E : Error → Prop).

Lemma total_ret {A} (a : A) (st : S) (P : A → S → Prop) : P a st → total E (mret a) st P.
Proof. done. Qed.

Lemma total_bind {A B} (m : call S A) (f : A → call S B) st (P : A → S → Prop) Q :
  total E m st P → (∀ a st, P a st → total E (f a) st Q) → total E (m ≫= f) st Q.
Proof.
  unfold total, mbind, call_bind. destruct (m st) as [[[a|e] st']|]; [|done..]. intros H Hf.
  by apply Hf.
Qed.

Lemma total_mono {A} (m : call S A) st (P Q : A → S → Prop) :
  total E m st P → (∀ a st, P a st → Q a st) → total E m st Q.
Proof. unfold total. destruct (m st) as [[[a|e] st']|]; auto. Qed.

Lemma total_checked {A} (m : option A) (st : S) (P : A → S → Prop) :
  runs m (λ a, P a st) → total E (checked m) st P.
Proof. unfold total, checked. by destruct m. Qed.

Lemma total_checked_bind {A B} (o : option A) (f : A → call S B) st Q :
  runs o (λ a, total E (f a) st Q) → total E (checked o ≫= f) st Q.
Proof. unfold total, mbind, call_bind, checked. by destruct o. Qed.

Lemma total_or_return {A B} (o : option A) (d : B) k st (P : B → S → Prop) :
  (o = None → P d st) → (∀ a, o = Some a → total E (k a) st P) →
  total E (or_return o d k) st P.
Proof. intros Hn Hs. destruct o; [by apply Hs|by apply total_ret, Hn]. Qed.

Lemma total_for_call {A B} (xs : list A) (body : A → B → call S B)
    (Inv : list A → B → S → Prop) b st (Q : B → S → Prop) :
  Inv [] b st →
  (∀ done x rest b st, xs = done ++ x :: rest → Inv done b st →
     total E (body x b) st (Inv (done ++ [x]))) →
  (∀ b st, Inv xs b st → Q b st) →
  total E (for_call xs body b) st Q.
Proof.
  intros H0 Hstep HQ.
  assert (∀ rest dn b st, xs = dn ++ rest → Inv dn b st →
            total E (for_call rest body b) st (Inv xs)) as Hgen.
  { induction rest as [|x rest IH]; intros dn b0 s Hxs Hinv; simpl.
    - rewrite app_nil_r in Hxs. by subst.
    - eapply total_bind; [by eapply Hstep|]. intros b1 s1 Hs1. simpl in Hs1.
      apply (IH (dn ++ [x])); [by rewrite <- app_assoc|done]. }
  eapply total_mono; [by apply (Hgen xs [])|done].
Qed.
End rules.
