(* ===== verification/GitRenames.v ===== *)
(** * Renames between two sides of a comparison

    [paneflow-git/src/renames.rs] up to its [RepositoryContents]: which deleted
    files ([sources]) and added files ([destinations]) are one renamed file.  What
    the algorithm reads of the files is the class [Contents], as in the code, where
    it is a trait.  [HashMap] is [gmap]; [u32] and [u64] values are [N] with their
    wrap-around or overflow written out, indices are [nat] and an index out of
    range is a panic. *)

From stdpp Require Import gmap list sorting.
From S2P Require Import Prelude GitTypes.

Definition DEFAULT_RENAME_LIMIT : N := 1000.
Definition MAX_SCORE : N := 60000.
Definition DEFAULT_RENAME_SCORE : N := 30000.
Definition BASENAME_SCORE : N :=
  DEFAULT_RENAME_SCORE + (MAX_SCORE - DEFAULT_RENAME_SCORE) / 2.
Definition CANDIDATES_PER_DESTINATION : nat := 4.
Definition IDENTICAL_ALTERNATIVES : nat := 100.
Definition SPAN_HASH_BASE : N := 107927.
Definition SPAN_BYTES : N := 64.
Definition BINARY_SNIFF_BYTES : nat := 8000.
Definition OBJECT_TYPE_MASK : N := 61440.
Definition REGULAR_FILE_TYPE : N := 32768.

(** The characters of the byte literals. *)
Definition SLASH : N := 47.
Definition CR : N := 13.
Definition LF : N := 10.

Record RenameSide := { path : bytes; mode : N; id : option bytes }.

Record Rename := mkRename { source : nat; destination : nat; score : N }.

Inductive Role := Source | Destination.

#[export] Instance Role_eq_dec : EqDecision Role.
Proof. solve_decision. Defined.

#[export] Instance Rename_eq_dec : EqDecision Rename.
Proof. solve_decision. Defined.

(** The hash of a span of a file and the bytes in spans of that hash. *)
Definition Spans := list (N * N).

(** The trait [Contents]. *)
Class Contents (St ObjectId : Type) := {
  identity : Role → nat → call St (option ObjectId);
  size : Role → nat → call St (option N);
  spans : Role → nat → call St (option Spans) }.

(** ** Spans of a file *)

(** [first << 7], the low 32 bits. *)
Definition shl_u32 (a k : N) : N := (N.shiftl a k mod 2 ^ 32)%N.

Definition step_hash (accumulated : N * N) (byte : N) : N * N :=
  let '(first, second) := accumulated in
  (((N.lxor (shl_u32 first 7) (N.shiftr second 25) + byte) mod 2 ^ 32)%N,
   N.lxor (shl_u32 second 7) (N.shiftr first 25)).

Definition span_hash (accumulated : N * N) : N :=
  let '(first, second) := accumulated in
  (((first + (second * 97) mod 2 ^ 32) mod 2 ^ 32) mod SPAN_HASH_BASE)%N.

(** [*counts.entry(hash).or_default() += length]. *)
Definition count_span (counts : gmap N N) (hash length : N) : option (gmap N N) :=
  n ← add_u64 (default 0%N (counts !! hash)) length; Some (<[hash := n]> counts).

(** The [while let] of [span_counts], with the peek at the byte that follows. *)
Fixpoint span_loop (is_text : bool) (data : bytes) (accumulated : N * N) (len : N)
    (counts : gmap N N) : option ((N * N) * N * gmap N N) :=
  match data with
  | [] => Some (accumulated, len, counts)
  | byte :: data =>
      if is_text && (byte =? CR)%N && bool_decide (head data = Some LF)
      then span_loop is_text data accumulated len counts
      else
        let accumulated := step_hash accumulated byte in
        len ← add_u64 len 1;
        if (len <? SPAN_BYTES)%N && negb (byte =? LF)%N
        then span_loop is_text data accumulated len counts
        else
          counts ← count_span counts (span_hash accumulated) len;
          span_loop is_text data (0, 0)%N 0 counts
  end.

(** The order of [(u32, u64)]. *)
Definition span_le (a b : N * N) : Prop := (a.1 < b.1)%N ∨ a.1 = b.1 ∧ (a.2 ≤ b.2)%N.

#[export] Instance span_le_dec a b : Decision (span_le a b).
Proof. unfold span_le. apply _. Defined.

Definition span_counts (data : bytes) (is_text : bool) : option Spans :=
  '(accumulated, len, counts) ← span_loop is_text data (0, 0)%N 0 ∅;
  counts ← (if (0 <? len)%N then count_span counts (span_hash accumulated) len
            else Some counts);
  Some (merge_sort span_le (map_to_list counts)).

Definition sniffs_binary (data : bytes) : bool :=
  existsb (N.eqb 0) (take (length data `min` BINARY_SNIFF_BYTES) data).

(** [while remaining.next_if(|(other, _)| *other < hash).is_some() {}]. *)
Fixpoint skip_below (hash : N) (remaining : Spans) : Spans :=
  match remaining with
  | (other, n) :: rest => if (other <? hash)%N then skip_below hash rest else remaining
  | [] => []
  end.

Fixpoint copied_loop (source : Spans) (remaining : Spans) (copied : N) : option N :=
  match source with
  | [] => Some copied
  | (hash, source_count) :: source =>
      match skip_below hash remaining with
      | (other, destination_count) :: rest =>
          if (other =? hash)%N then
            copied ← add_u64 copied (N.min source_count destination_count);
            copied_loop source rest copied
          else copied_loop source ((other, destination_count) :: rest) copied
      | [] => copied_loop source [] copied
      end
  end.

Definition copied_bytes (source destination : Spans) : option N :=
  copied_loop source destination 0.

(** ** Paths and modes *)

Definition is_regular (mode : N) : bool := (N.land mode OBJECT_TYPE_MASK =? REGULAR_FILE_TYPE)%N.

(** [path.rsplit(|byte| *byte == b'/').next().unwrap_or(path)]. *)
Fixpoint basename (path : bytes) : bytes :=
  match path with
  | [] => []
  | byte :: rest =>
      if existsb (N.eqb SLASH) rest then basename rest
      else if (byte =? SLASH)%N then rest else byte :: rest
  end.

Definition same_basename (source destination : bytes) : bool :=
  bool_decide (basename source = basename destination).

Definition exceeds_limit (destinations sources : nat) (limit : N) : bool :=
  (0 <? limit)%N && (limit * limit <? N.of_nat destinations * N.of_nat sources)%N.

(** ** Candidates *)

Record Candidate := mkCandidate {
  c_source : nat; c_destination : option nat; c_score : N; c_same_basename : bool }.

Definition UNUSED : Candidate := mkCandidate 0 None 0 false.

(** [bool::cmp]. *)
Definition bool_cmp (a b : bool) : comparison :=
  match a, b with
  | false, true => Lt
  | true, false => Gt
  | _, _ => Eq
  end.

Definition compare_candidates (a b : Candidate) : comparison :=
  match c_destination a, c_destination b with
  | None, None => Eq
  | None, Some _ => Gt
  | Some _, None => Lt
  | Some _, Some _ =>
      if (c_score a =? c_score b)%N then bool_cmp (c_same_basename b) (c_same_basename a)
      else N.compare (c_score b) (c_score a)
  end.

Definition is_greater (c : comparison) : bool := match c with Gt => true | _ => false end.

(** The first of the greatest candidates kept. *)
Definition worst_index (kept : list Candidate) : option nat :=
  for_each (seq 1 (length kept - 1)) (λ index worst,
    k ← kept !! index; w ← kept !! worst;
    Some (if is_greater (compare_candidates k w) then index else worst)) 0.

Definition keep_if_better (kept : list Candidate) (candidate : Candidate) :
    option (list Candidate) :=
  worst ← worst_index kept;
  w ← kept !! worst;
  Some (if is_greater (compare_candidates w candidate) then <[worst := candidate]> kept else kept).

(** [slice::sort_by], which is stable. *)
Fixpoint insert_by {A} (compare : A → A → comparison) (x : A) (l : list A) : list A :=
  match l with
  | [] => [x]
  | y :: l => if is_greater (compare x y) then y :: insert_by compare x l else x :: y :: l
  end.

Definition sort_by {A} (compare : A → A → comparison) (l : list A) : list A :=
  foldr (insert_by compare) [] l.

(** ** The matcher *)

Record Matcher := mkMatcher {
  sources : list RenameSide; destinations : list RenameSide;
  source_used : list bool; renames : list (option Rename) }.

(** [(0..n).filter(|i| pred(i))], [pred] free to panic. *)
Fixpoint filter_indices (indices : list nat) (pred : nat → option bool) : option (list nat) :=
  match indices with
  | [] => Some []
  | i :: indices =>
      keep ← pred i;
      rest ← filter_indices indices pred;
      Some (if (keep : bool) then i :: rest else rest)
  end.

Module Matcher.

Definition record (m : Matcher) (source destination : nat) (score : N) : option Matcher :=
  _ ← source_used m !! source;
  _ ← renames m !! destination;
  Some (mkMatcher (sources m) (destinations m) (<[source := true]> (source_used m))
          (<[destination := Some (mkRename source destination score)]> (renames m))).

Definition remaining_sources (m : Matcher) : option (list nat) :=
  filter_indices (seq 0 (length (sources m))) (λ source, negb <$> source_used m !! source).

Definition remaining_destinations (m : Matcher) : option (list nat) :=
  filter_indices (seq 0 (length (destinations m)))
    (λ destination, (λ r, bool_decide (r = None)) <$> renames m !! destination).

(** The loop of [exact] over the sources with the identity of a destination:
    [best], [best_score] and [alternatives] are the variables of the code. *)
Fixpoint best_source (m : Matcher) (target : RenameSide) (candidates : list nat)
    (best : option nat) (best_score : N) (alternatives : nat) : option (option nat) :=
  match candidates with
  | [] => Some best
  | source :: candidates =>
      side ← sources m !! source;
      if (negb (is_regular (mode side)) || negb (is_regular (mode target)))
           && negb (mode side =? mode target)%N
      then best_source m target candidates best best_score alternatives
      else
        used ← source_used m !! source;
        if (used : bool) then best_source m target candidates best best_score alternatives
        else
          let score := (1 + if same_basename (path side) (path target) then 1 else 0)%N in
          let '(best', best_score') :=
            if (best_score <? score)%N then (Some source, score) else (best, best_score) in
          if (best_score <? score)%N && (score =? 2)%N then Some best'
          else
            alternatives ← checked_sub alternatives 1;
            if alternatives =? 0 then Some best'
            else best_source m target candidates best' best_score' alternatives
  end.

(** The entry of a name: [Some(Some(index))] while one side has it. *)
Definition add_name (names : gmap bytes (option nat)) (name : bytes) (index : nat) :
    gmap bytes (option nat) :=
  partial_alter (λ entry,
    match entry with Some _ => Some None | None => Some (Some index) end) name names.

Section calls.
Context {St ObjectId : Type} `{Countable ObjectId} `{!Contents St ObjectId}.

Definition exact_one (by_id : gmap ObjectId (list nat)) (destination : nat) (m : Matcher) :
    call St Matcher :=
  id ← identity Destination destination;
  or_return id m (λ id,
  or_return (by_id !! id) m (λ candidates,
    target ← checked (destinations m !! destination);
    best ← checked (best_source m target candidates None 0 IDENTICAL_ALTERNATIVES);
    or_return best m (λ source, checked (record m source destination MAX_SCORE)))).

Definition index_sources (m : Matcher) : call St (gmap ObjectId (list nat)) :=
  for_call (seq 0 (length (sources m))) (λ source by_id,
    id ← identity Source source;
    or_return id by_id (λ id,
      mret (<[id := default [] (by_id !! id) ++ [source]]> by_id))) ∅.

Definition exact (m : Matcher) : call St Matcher :=
  by_id ← index_sources m;
  for_call (seq 0 (length (destinations m))) (exact_one by_id) m.

Definition similarity (source_side destination_side : RenameSide) (source destination : nat)
    (minimum_score : N) : call St N :=
  if negb (is_regular (mode source_side)) || negb (is_regular (mode destination_side))
  then mret 0%N
  else
    source_size ← size Source source;
    destination_size ← size Destination destination;
    or_return source_size 0%N (λ source_size,
    or_return destination_size 0%N (λ destination_size,
      let max_size := N.max source_size destination_size in
      let delta_size := (max_size - N.min source_size destination_size)%N in
      _ ← checked (assert (minimum_score <=? MAX_SCORE)%N);
      if (max_size * (MAX_SCORE - minimum_score) <? delta_size * MAX_SCORE)%N then mret 0%N
      else
        source_spans ← spans Source source;
        or_return source_spans 0%N (λ source_spans,
        destination_spans ← spans Destination destination;
        or_return destination_spans 0%N (λ destination_spans,
          if (destination_size =? 0)%N then mret 0%N
          else
            copied ← checked (copied_bytes source_spans destination_spans);
            let score := (copied * MAX_SCORE / max_size)%N in
            mret (if (score <? 2 ^ 32)%N then score else MAX_SCORE))))).

(** One source of [by_basename]. *)
Definition basename_one (source_by_name destination_by_name : gmap bytes (option nat))
    (source : nat) (m : Matcher) : call St Matcher :=
  side ← checked (sources m !! source);
  let name := basename (path side) in
  or_return (destination_by_name !! name) m (λ unique,
    match source_by_name !! name, unique with
    | Some (Some _), Some destination =>
        renamed ← checked (renames m !! destination);
        match renamed with
        | Some _ => mret m
        | None =>
            target ← checked (destinations m !! destination);
            score ← similarity side target source destination BASENAME_SCORE;
            if (BASENAME_SCORE <=? score)%N then checked (record m source destination score)
            else mret m
        end
    | _, _ => mret m
    end).

Definition names_of (sides : list RenameSide) (indices : list nat) :
    option (gmap bytes (option nat)) :=
  for_each indices (λ index names,
    side ← sides !! index; Some (add_name names (basename (path side)) index)) ∅.

Definition by_basename (m : Matcher) : call St Matcher :=
  remaining ← checked (remaining_sources m);
  source_by_name ← checked (names_of (sources m) remaining);
  others ← checked (remaining_destinations m);
  destination_by_name ← checked (names_of (destinations m) others);
  for_call remaining (basename_one source_by_name destination_by_name) m.

(** The candidates of one destination. *)
Definition kept_candidates (m : Matcher) (remaining : list nat) (destination : nat) :
    call St (list Candidate) :=
  for_call remaining (λ source kept,
    side ← checked (sources m !! source);
    target ← checked (destinations m !! destination);
    score ← similarity side target source destination DEFAULT_RENAME_SCORE;
    checked (keep_if_better kept
      (mkCandidate source (Some destination) score (same_basename (path side) (path target)))))
    (replicate CANDIDATES_PER_DESTINATION UNUSED).

(** The loop over the sorted candidates. *)
Fixpoint take_candidates (matrix : list Candidate) (m : Matcher) : option Matcher :=
  match matrix with
  | [] => Some m
  | candidate :: matrix =>
      match c_destination candidate with
      | None => Some m
      | Some destination =>
          if (c_score candidate <? DEFAULT_RENAME_SCORE)%N then Some m
          else
            renamed ← renames m !! destination;
            used ← (if bool_decide (is_Some renamed) then Some true
                    else source_used m !! c_source candidate);
            if (used : bool) then take_candidates matrix m
            else
              m ← record m (c_source candidate) destination (c_score candidate);
              take_candidates matrix m
      end
  end.

Definition by_similarity (limit : N) (m : Matcher) : call St Matcher :=
  remaining ← checked (remaining_sources m);
  others ← checked (remaining_destinations m);
  if (length remaining =? 0) || (length others =? 0) then mret m
  else if exceeds_limit (length others) (length remaining) limit then mret m
  else
    matrix ← for_call others (λ destination matrix,
      kept ← kept_candidates m remaining destination; mret (matrix ++ kept)) [];
    checked (take_candidates (sort_by compare_candidates matrix) m).
End calls.
End Matcher.

Definition pair {St ObjectId : Type} `{Countable ObjectId} `{!Contents St ObjectId}
    (sources destinations : list RenameSide) (limit : N) : call St (list Rename) :=
  let matcher := mkMatcher sources destinations (replicate (length sources) false)
                   (replicate (length destinations) None) in
  if (length sources =? 0) || (length destinations =? 0) then mret []
  else
    matcher ← Matcher.exact matcher;
    matcher ← Matcher.by_basename matcher;
    matcher ← Matcher.by_similarity limit matcher;
    mret (omap (λ r, r) (renames matcher)).

(** [Objects::rename_limit]: the configured [diff.renameLimit] is an argument. *)
Definition rename_limit (configured : option Z) : N :=
  match configured with
  | None => DEFAULT_RENAME_LIMIT
  | Some limit => if (limit <? 0)%Z then 0%N else Z.to_N limit
  end.
