(* ===== verification/GitSpans.v ===== *)
(** * The spans of a file and the bytes two files share

    [span_counts] is the histogram of the pieces of a file by their hash
    ([span_counts_spec]), [copied_bytes] the sum of the smaller counts of each hash
    ([copied_bytes_spec]); with these, the comparison of the sizes that
    [similarity] makes first loses no pair ([size_filter_sound]). *)

From stdpp Require Import gmap list sorting.
From S2P Require Import Prelude GitTypes GitRenames.

Local Open Scope N_scope.

(** ** Sums *)

Definition sum_by {A} (f : A → N) (l : list A) : N := foldr (λ x acc, f x + acc) 0 l.

Lemma sum_by_app {A} (f : A → N) l k : sum_by f (l ++ k) = sum_by f l + sum_by f k.
Proof. induction l as [|x l IH]; simpl; [done|]. rewrite IH. lia. Qed.

#[export] Instance sum_by_proper {A} (f : A → N) : Proper ((≡ₚ) ==> (=)) (sum_by f).
Proof. intros l k. induction 1; simpl; lia. Qed.

Lemma sum_by_le {A} (f g : A → N) l : (∀ x, x ∈ l → f x ≤ g x) → sum_by f l ≤ sum_by g l.
Proof.
  induction l as [|x l IH]; simpl; intros Hle; [done|].
  pose proof (Hle x ltac:(by left)). specialize (IH (λ y Hy, Hle y ltac:(by right))). lia.
Qed.

Lemma sum_by_ext {A} (f g : A → N) l : (∀ x, x ∈ l → f x = g x) → sum_by f l = sum_by g l.
Proof.
  induction l as [|x l IH]; simpl; intros Heq; [done|].
  rewrite (Heq x) by (by left). rewrite IH; [done|]. intros. apply Heq. by right.
Qed.

Lemma sum_by_zero {A} (f : A → N) l : (∀ x, x ∈ l → f x = 0) → sum_by f l = 0.
Proof.
  induction l as [|x l IH]; simpl; intros Hz; [done|].
  rewrite (Hz x) by (by left). rewrite IH; [done|]. intros. apply Hz. by right.
Qed.

(** The summands that are not zero decide the sum. *)
Lemma sum_by_subseteq {A} (f : A → N) l k :
  NoDup l → NoDup k → l ⊆ k → (∀ x, x ∈ k → x ∉ l → f x = 0) → sum_by f l = sum_by f k.
Proof.
  revert k. induction l as [|x l IH]; intros k Hl Hk Hsub Hz.
  - symmetry. apply sum_by_zero. intros y Hy. apply Hz; [done|]. apply not_elem_of_nil.
  - apply NoDup_cons in Hl as [Hx Hl].
    destruct (list_elem_of_split k x) as (k1 & k2 & ->); [apply Hsub; by left|].
    rewrite <- Permutation_middle in Hk |- *. apply NoDup_cons in Hk as [Hxk Hk].
    simpl. f_equal. apply IH; [done..| |].
    + intros y Hy. assert (y ∈ x :: k1 ++ k2) as Hyk.
      { rewrite Permutation_middle. apply Hsub. by right. }
      apply elem_of_cons in Hyk as [->|]; done.
    + intros y Hy Hyl. apply Hz.
      * rewrite <- Permutation_middle. by right.
      * rewrite elem_of_cons. intros [->|]; done.
Qed.

(** ** Spans as a function of the hash *)

(** The bytes in spans of a hash. *)
Definition bytes_at (sp : Spans) (hash : N) : N :=
  sum_by (λ p, if p.1 =? hash then p.2 else 0) sp.

Definition span_total (sp : Spans) : N := sum_by snd sp.

(** Spans are sorted by their hash, each hash once. *)
Definition spans_sorted (sp : Spans) : Prop := StronglySorted N.lt sp.*1.

Lemma spans_sorted_cons h n sp :
  spans_sorted ((h, n) :: sp) ↔ (∀ p, p ∈ sp → h < p.1) ∧ spans_sorted sp.
Proof.
  unfold spans_sorted. simpl. rewrite StronglySorted_cons, Forall_fmap, Forall_forall. simpl.
  naive_solver.
Qed.

Lemma spans_sorted_nodup sp : spans_sorted sp → NoDup sp.*1.
Proof.
  induction sp as [|[h n] sp IH]; [constructor|]. intros [Hlt Hs]%spans_sorted_cons.
  simpl. apply NoDup_cons. split; [|by apply IH].
  intros ([h' n'] & -> & Hin)%list_elem_of_fmap. specialize (Hlt _ Hin). simpl in Hlt. lia.
Qed.

Lemma bytes_at_notin sp h : h ∉ sp.*1 → bytes_at sp h = 0.
Proof.
  intros Hh. apply sum_by_zero. intros [h' n] Hin. simpl.
  destruct (N.eqb_spec h' h) as [->|]; [|done].
  destruct Hh. apply list_elem_of_fmap. by exists (h, n).
Qed.

Lemma bytes_at_in sp h n : NoDup sp.*1 → (h, n) ∈ sp → bytes_at sp h = n.
Proof.
  induction sp as [|[h' n'] sp IH]; [by intros ? ?%elem_of_nil|].
  simpl. intros [Hh Hnd]%NoDup_cons [[= -> ->]|Hin]%elem_of_cons; unfold bytes_at; simpl.
  - rewrite N.eqb_refl. pose proof (bytes_at_notin _ _ Hh) as Hz. unfold bytes_at in Hz. lia.
  - destruct (N.eqb_spec h' h) as [->|].
    + destruct Hh. apply list_elem_of_fmap. by exists (h, n).
    + rewrite (IH Hnd Hin : sum_by _ _ = _). lia.
Qed.

(** The sum over the spans is one over their hashes. *)
Lemma sum_by_hashes sp (f : N → N → N) :
  NoDup sp.*1 → sum_by (λ p, f p.1 p.2) sp = sum_by (λ h, f h (bytes_at sp h)) sp.*1.
Proof.
  intros Hnd.
  assert (∀ l, l ⊆ sp → sum_by (λ p, f p.1 p.2) l = sum_by (λ h, f h (bytes_at sp h)) l.*1)
    as Hgen; [|by apply Hgen].
  induction l as [|[h n] l IH]; intros Hsub; simpl; [done|].
  rewrite (bytes_at_in _ h n Hnd) by (apply Hsub; by left).
  rewrite IH; [done|]. intros p Hp. apply Hsub. by right.
Qed.

(** The bytes two files share: of each hash the smaller count. *)
Definition shared (source destination : Spans) : N :=
  sum_by (λ p, N.min p.2 (bytes_at destination p.1)) source.

Lemma shared_hashes a b (K : list N) :
  NoDup a.*1 → NoDup K → a.*1 ⊆ K →
  shared a b = sum_by (λ h, N.min (bytes_at a h) (bytes_at b h)) K.
Proof.
  intros Ha HK Hsub. unfold shared.
  rewrite (sum_by_hashes a (λ h n, N.min n (bytes_at b h))) by done.
  apply sum_by_subseteq; [done..|]. intros h _ Hh. rewrite (bytes_at_notin a h) by done. lia.
Qed.

Lemma shared_comm a b : NoDup a.*1 → NoDup b.*1 → shared a b = shared b a.
Proof.
  intros Ha Hb. set (K := remove_dups (a.*1 ++ b.*1)).
  assert (NoDup K) by apply NoDup_remove_dups.
  rewrite (shared_hashes a b K), (shared_hashes b a K); try done.
  - apply sum_by_ext. intros. lia.
  - intros h Hh. apply elem_of_remove_dups, elem_of_app. by right.
  - intros h Hh. apply elem_of_remove_dups, elem_of_app. by left.
Qed.

Lemma shared_le_source a b : shared a b ≤ span_total a.
Proof. apply sum_by_le. intros. lia. Qed.

Lemma shared_le_destination a b :
  NoDup a.*1 → NoDup b.*1 → shared a b ≤ span_total b.
Proof. intros. rewrite shared_comm by done. apply shared_le_source. Qed.

(** ** [copied_bytes] *)

Lemma skip_below_spec h sp :
  ∃ skipped, sp = skipped ++ skip_below h sp ∧ (∀ p, p ∈ skipped → p.1 < h) ∧
             (∀ p rest, skip_below h sp = p :: rest → h ≤ p.1).
Proof.
  induction sp as [|[h' n] sp (skipped & Heq & Hlt & Hge)]; simpl.
  - exists []. split_and!; [done|by intros ? ?%elem_of_nil|done].
  - destruct (N.ltb_spec h' h).
    + exists ((h', n) :: skipped). split_and!; [by rewrite Heq at 1| |done].
      intros p [->|]%elem_of_cons; auto.
    + exists []. split_and!; [done|by intros ? ?%elem_of_nil|]. by intros p rest [= <- <-].
Qed.

Lemma bytes_at_app a b h : bytes_at (a ++ b) h = bytes_at a h + bytes_at b h.
Proof. apply sum_by_app. Qed.

(** Every span of [l] that is not in the suffix [r] is below [sp]. *)
Lemma shared_drop sp l r :
  (∀ p q, p ∈ l → q ∈ sp → p.1 < q.1) → shared sp (l ++ r) = shared sp r.
Proof.
  intros Hlt. apply sum_by_ext. intros q Hq. rewrite bytes_at_app.
  rewrite (bytes_at_notin l); [done|].
  intros (p & Hpq & Hp)%list_elem_of_fmap. specialize (Hlt _ _ Hp Hq). lia.
Qed.

Lemma copied_loop_spec source : ∀ remaining copied,
  spans_sorted source → spans_sorted remaining → copied + span_total source < 2 ^ 64 →
  copied_loop source remaining copied = Some (copied + shared source remaining).
Proof.
  induction source as [|[h n] source IH]; intros remaining copied Hs Hr Hlt; cbn [copied_loop].
  { f_equal. unfold shared. simpl. lia. }
  apply spans_sorted_cons in Hs as [Hh Hs]. unfold span_total in Hlt. simpl in Hlt.
  destruct (skip_below_spec h remaining) as (skipped & Heq & Hbelow & Habove).
  assert (spans_sorted (skip_below h remaining)) as Hr'.
  { unfold spans_sorted in *. rewrite Heq, fmap_app in Hr. by eapply StronglySorted_app_1_r. }
  assert (bytes_at skipped h = 0) as Hskip.
  { apply bytes_at_notin. intros (p & Hph & Hp)%list_elem_of_fmap. specialize (Hbelow _ Hp). lia. }
  assert (shared ((h, n) :: source) remaining =
            N.min n (bytes_at (skip_below h remaining) h)
            + shared source (skip_below h remaining)) as ->.
  { change (N.min n (bytes_at remaining h) + shared source remaining =
            N.min n (bytes_at (skip_below h remaining) h)
            + shared source (skip_below h remaining)).
    rewrite Heq at 1 2. rewrite bytes_at_app, Hskip.
    rewrite shared_drop; [lia|]. intros p q Hp Hq. specialize (Hbelow _ Hp).
    specialize (Hh _ Hq). lia. }
  clear Heq. revert Hr' Habove. generalize (skip_below h remaining). intros sp Hr' Habove.
  destruct sp as [|[other m] rest].
  { rewrite IH; [|done..|unfold span_total; lia]. f_equal. unfold bytes_at. simpl. lia. }
  specialize (Habove _ _ eq_refl). simpl in Habove.
  pose proof (spans_sorted_nodup _ Hr') as Hnd.
  destruct (N.eqb_spec other h) as [->|Hne].
  - rewrite add_u64_some by lia. cbn [mbind option_bind].
    assert (spans_sorted rest) as Hrest by (by apply spans_sorted_cons in Hr' as [_ ?]).
    rewrite IH; [|done..|unfold span_total; lia]. f_equal.
    rewrite (bytes_at_in _ h m Hnd) by (by left).
    change ((h, m) :: rest) with ([(h, m)] ++ rest). rewrite shared_drop; [lia|].
    intros p q ->%list_elem_of_singleton Hq. by apply Hh.
  - rewrite IH; [|done..|unfold span_total; lia]. f_equal.
    rewrite bytes_at_notin; [lia|].
    intros (p & Hph & Hp)%list_elem_of_fmap. apply spans_sorted_cons in Hr' as [Hlt' _].
    apply elem_of_cons in Hp as [->|Hp]; [simpl in *; lia|]. specialize (Hlt' _ Hp). lia.
Qed.

Lemma copied_bytes_spec source destination :
  spans_sorted source → spans_sorted destination → span_total source < 2 ^ 64 →
  copied_bytes source destination = Some (shared source destination).
Proof. intros. unfold copied_bytes. by rewrite copied_loop_spec. Qed.

(** The score of [similarity] for two files of these sizes and spans. *)
Definition score_of (source_size destination_size copied : N) : N :=
  copied * MAX_SCORE / N.max source_size destination_size.

Lemma score_of_le a b copied : copied ≤ a → copied ≤ b → score_of a b copied ≤ MAX_SCORE.
Proof.
  intros Ha Hb. unfold score_of. destruct (decide (N.max a b = 0)) as [->|].
  { by rewrite N.div_0_r. }
  apply N.Div0.div_le_upper_bound. unfold MAX_SCORE. nia.
Qed.

(** The comparison of sizes that [similarity] makes before it reads the spans only
    drops pairs whose score is below the minimum. *)
Lemma size_filter a b minimum copied :
  minimum ≤ MAX_SCORE → copied ≤ a → copied ≤ b →
  N.max a b * (MAX_SCORE - minimum) < (N.max a b - N.min a b) * MAX_SCORE →
  score_of a b copied < minimum.
Proof.
  intros Hmin Ha Hb Hlt. unfold score_of, MAX_SCORE in *.
  destruct (decide (N.max a b = 0)) as [Hz|]; [lia|].
  apply N.Div0.div_lt_upper_bound. nia.
Qed.

(** ** [span_counts] *)

(** The bytes of a file that count: of a text file not a [\r] before a [\n]. *)
Fixpoint counted (is_text : bool) (data : bytes) : bytes :=
  match data with
  | [] => []
  | byte :: data =>
      if is_text && (byte =? CR) && bool_decide (head data = Some LF)
      then counted is_text data else byte :: counted is_text data
  end.

(** The pieces of a file: a piece ends after a [\n] or after 64 bytes. *)
Fixpoint pieces_from (piece : bytes) (data : bytes) : list bytes :=
  match data with
  | [] => if bool_decide (piece = []) then [] else [piece]
  | byte :: data =>
      let piece := piece ++ [byte] in
      if (length piece <? 64)%nat && negb (byte =? LF) then pieces_from piece data
      else piece :: pieces_from [] data
  end.

Definition pieces (data : bytes) : list bytes := pieces_from [] data.

Definition hash_state (piece : bytes) : N * N := foldl step_hash (0, 0) piece.

Definition piece_hash (piece : bytes) : N := span_hash (hash_state piece).

(** The bytes in pieces of a hash. *)
Definition bytes_with (hash : N) (ps : list bytes) : N :=
  sum_by (λ p, if piece_hash p =? hash then N.of_nat (length p) else 0) ps.

Definition count_of (counts : gmap N N) (hash : N) : N := default 0 (counts !! hash).

Lemma pieces_from_concat piece data : concat (pieces_from piece data) = piece ++ data.
Proof.
  revert piece. induction data as [|b data IH]; intros piece; simpl.
  - case_bool_decide; subst; simpl; by rewrite ?app_nil_r.
  - case_match; simpl; rewrite IH; by rewrite <- app_assoc.
Qed.

Lemma pieces_from_shape data : ∀ piece,
  (length piece < 64)%nat → LF ∉ piece →
  Forall (λ p, p ≠ [] ∧ (length p ≤ 64)%nat ∧ LF ∉ removelast p) (pieces_from piece data).
Proof.
  induction data as [|b data IH]; intros piece Hlen Hlf; simpl.
  - case_bool_decide; constructor; [|constructor]. split_and!; [done|lia|].
    intros Hin. apply Hlf. rewrite (app_removelast_last 0) by done. set_solver.
  - rewrite length_app. simpl.
    destruct (Nat.ltb_spec (length piece + 1) 64); destruct (N.eqb_spec b LF); simpl;
      try (apply IH; [rewrite length_app; simpl; lia|set_solver]);
      (constructor; [|apply IH; [simpl; lia|set_solver]]);
      rewrite removelast_last, length_app; simpl; split_and!; try lia; try done;
      by destruct piece.
Qed.

Lemma count_span_spec counts hash len :
  count_of counts hash + len < 2 ^ 64 →
  count_span counts hash len = Some (<[hash := count_of counts hash + len]> counts).
Proof. intros H. unfold count_span. by rewrite add_u64_some. Qed.

Lemma count_of_insert counts hash len h :
  count_of (<[hash := count_of counts hash + len]> counts) h =
  count_of counts h + if hash =? h then len else 0.
Proof.
  unfold count_of. destruct (N.eqb_spec hash h) as [->|].
  - by rewrite lookup_insert_eq.
  - rewrite lookup_insert_ne by done. lia.
Qed.

Definition positive_counts (counts : gmap N N) : Prop := map_Forall (λ _ n, 0 < n) counts.

(** The loop from the middle of a piece, with the flush that follows it. *)
Lemma span_loop_spec t data : ∀ piece counts,
  (length piece < 64)%nat → positive_counts counts →
  (∀ h, count_of counts h + N.of_nat (length piece + length data) < 2 ^ 64) →
  ∃ counts',
    ('(accumulated, len, counts) ←
       span_loop t data (hash_state piece) (N.of_nat (length piece)) counts;
     if 0 <? len then count_span counts (span_hash accumulated) len else Some counts)
      = Some counts' ∧
    positive_counts counts' ∧
    ∀ h, count_of counts' h = count_of counts h + bytes_with h (pieces_from piece (counted t data)).
Proof.
  induction data as [|b data IH]; intros piece counts Hlen Hpos Hlt; simpl.
  - destruct (decide (piece = [])) as [->|Hne].
    { eexists. split_and!; [done..|]. intros. unfold bytes_with. simpl. lia. }
    assert (0 < N.of_nat (length piece)) as Hpl by (destruct piece; [done|simpl; lia]).
    rewrite (proj2 (N.ltb_lt _ _) Hpl), bool_decide_false by done.
    rewrite count_span_spec by (specialize (Hlt (span_hash (hash_state piece))); simpl in Hlt; lia).
    eexists. split_and!; [done|by apply map_Forall_insert_2; [lia|]|].
    intros h. rewrite count_of_insert. unfold bytes_with, piece_hash. simpl. lia.
  - destruct (t && (b =? CR) && bool_decide (head data = Some LF)).
    { apply IH; [done..|]. intros h. specialize (Hlt h). simpl in Hlt. lia. }
    assert (add_u64 (N.of_nat (length piece)) 1 = Some (N.of_nat (length (piece ++ [b])))) as ->.
    { rewrite add_u64_some by lia. rewrite length_app. simpl. f_equal. lia. }
    assert (step_hash (hash_state piece) b = hash_state (piece ++ [b])) as ->.
    { unfold hash_state. by rewrite foldl_app. }
    cbn [mbind option_bind pieces_from].
    assert ((N.of_nat (length (piece ++ [b])) <? SPAN_BYTES) = (length (piece ++ [b]) <? 64)%nat)
      as ->.
    { apply eq_bool_prop_intro. rewrite !Is_true_true, N.ltb_lt, Nat.ltb_lt. unfold SPAN_BYTES. lia. }
    destruct ((length (piece ++ [b]) <? 64)%nat && negb (b =? LF)) eqn:Hcut.
    { apply IH; [by bool_to_prop|done|]. intros h. specialize (Hlt h).
      rewrite length_app. simpl in *. lia. }
    rewrite count_span_spec.
    2: { specialize (Hlt (span_hash (hash_state (piece ++ [b])))).
         rewrite length_app. simpl in *. lia. }
    cbn [mbind option_bind].
    destruct (IH [] (<[span_hash (hash_state (piece ++ [b])) :=
      count_of counts (span_hash (hash_state (piece ++ [b]))) + N.of_nat (length (piece ++ [b]))]> counts))
      as (counts' & Hrun & Hpos' & Hc).
    + simpl. lia.
    + apply map_Forall_insert_2; [|done]. rewrite length_app. simpl. lia.
    + intros h. rewrite count_of_insert. specialize (Hlt h). rewrite length_app. simpl in *.
      case_match; lia.
    + exists counts'. split_and!; [done..|]. intros h. rewrite Hc, count_of_insert.
      unfold bytes_with, piece_hash. simpl. lia.
Qed.

Lemma counted_length t data : (length (counted t data) ≤ length data)%nat.
Proof. induction data as [|b data IH]; simpl; [done|]. case_match; simpl; lia. Qed.

Lemma counted_false data : counted false data = data.
Proof. induction data as [|b data IH]; simpl; [done|]. by rewrite IH. Qed.

#[export] Instance span_le_total : Total span_le.
Proof. intros a b. unfold span_le. lia. Qed.

#[export] Instance span_le_trans : Transitive span_le.
Proof. intros a b c. unfold span_le. lia. Qed.

#[export] Instance span_le_antisymm : AntiSymm (=) span_le.
Proof. intros [h n] [h' m]. unfold span_le. simpl. intros. f_equal; lia. Qed.

Lemma sorted_counts_spec (counts : gmap N N) :
  let sp := merge_sort span_le (map_to_list counts) in
  spans_sorted sp ∧ (∀ h n, (h, n) ∈ sp ↔ counts !! h = Some n) ∧
  (∀ h, bytes_at sp h = count_of counts h).
Proof.
  intros sp. pose proof (merge_sort_Permutation span_le (map_to_list counts)) as Hperm.
  fold sp in Hperm.
  assert (∀ h n, (h, n) ∈ sp ↔ counts !! h = Some n) as Hin.
  { intros h n. by rewrite Hperm, elem_of_map_to_list. }
  assert (NoDup sp.*1) as Hnd by (rewrite Hperm; apply NoDup_fst_map_to_list).
  split_and!; [|done|].
  - pose proof (StronglySorted_merge_sort span_le (map_to_list counts)) as Hs. fold sp in Hs.
    clear Hin Hperm. clearbody sp. unfold spans_sorted.
    induction Hs as [|p l Hs IH Hall]; [constructor|].
    simpl in *. apply NoDup_cons in Hnd as [Hp Hnd]. constructor; [by apply IH|].
    apply Forall_fmap, Forall_forall. intros q Hq. simpl.
    rewrite Forall_forall in Hall. specialize (Hall q Hq). unfold span_le in Hall.
    assert (p.1 ≠ q.1); [|lia]. intros Heq. apply Hp, list_elem_of_fmap. by exists q.
  - intros h. unfold count_of. destruct (counts !! h) as [n|] eqn:Hh; simpl.
    + by apply bytes_at_in, Hin.
    + apply bytes_at_notin. intros ([h' n] & -> & Hp)%list_elem_of_fmap.
      apply Hin in Hp. simpl in *. congruence.
Qed.

Lemma sum_by_indicator (K : list N) h n :
  NoDup K → h ∈ K → sum_by (λ k, if h =? k then n else 0) K = n.
Proof.
  induction K as [|k K IH]; simpl; [by intros ? ?%elem_of_nil|].
  intros [Hk Hnd]%NoDup_cons Hin. destruct (N.eqb_spec h k) as [->|Hne].
  - rewrite sum_by_zero; [lia|]. intros k' Hk'. destruct (N.eqb_spec k k'); by subst.
  - apply elem_of_cons in Hin as [|Hin]; [done|]. by rewrite IH.
Qed.

Lemma sum_by_plus {A} (f g : A → N) l :
  sum_by (λ x, f x + g x) l = sum_by f l + sum_by g l.
Proof. induction l; simpl; lia. Qed.

Lemma sum_bytes_with (ps : list bytes) (K : list N) :
  NoDup K → (∀ p, p ∈ ps → piece_hash p ∈ K) →
  sum_by (λ h, bytes_with h ps) K = N.of_nat (length (concat ps)).
Proof.
  intros HK. induction ps as [|p ps IH]; intros Hin; simpl.
  { by apply sum_by_zero. }
  change (sum_by (λ h, (if piece_hash p =? h then N.of_nat (length p) else 0) + bytes_with h ps) K
          = N.of_nat (length (p ++ concat ps))).
  rewrite sum_by_plus, sum_by_indicator; [|done|apply Hin; by left].
  rewrite IH by (intros q Hq; apply Hin; by right). rewrite length_app. lia.
Qed.

Lemma span_counts_spec data t :
  N.of_nat (length data) < 2 ^ 64 →
  ∃ sp, span_counts data t = Some sp ∧ spans_sorted sp ∧ Forall (λ p, 0 < p.2) sp ∧
        (∀ h, bytes_at sp h = bytes_with h (pieces (counted t data))) ∧
        span_total sp = N.of_nat (length (counted t data)).
Proof.
  intros Hlen.
  destruct (span_loop_spec t data [] ∅) as (counts & Hrun & Hpos & Hc).
  { simpl. lia. }
  { apply map_Forall_empty. }
  { intros h. unfold count_of. rewrite lookup_empty. simpl in *. lia. }
  destruct (sorted_counts_spec counts) as (Hs & Hin & Hat).
  assert (∀ h, bytes_at (merge_sort span_le (map_to_list counts)) h =
               bytes_with h (pieces (counted t data))) as Hw.
  { intros h. rewrite Hat, Hc. unfold count_of at 1. by rewrite lookup_empty. }
  exists (merge_sort span_le (map_to_list counts)). split_and!; [|done| |done|].
  - unfold span_counts. unfold hash_state in Hrun. simpl in Hrun.
    destruct (span_loop _ _ _ _ _) as [[[acc len] cs]|]; [|done]. simpl in *. by rewrite Hrun.
  - apply Forall_forall. intros [h n] Hp. apply Hin in Hp. exact (Hpos _ _ Hp).
  - pose proof (spans_sorted_nodup _ Hs) as Hnd. unfold span_total.
    rewrite (sum_by_hashes _ (λ _ n, n)) by done.
    rewrite (sum_by_ext _ (λ h, bytes_with h (pieces (counted t data)))) by auto.
    rewrite sum_bytes_with; [|done|].
    { unfold pieces. by rewrite pieces_from_concat. }
    intros p Hp. destruct (decide (piece_hash p ∈ (merge_sort span_le (map_to_list counts)).*1))
      as [|Hn]; [done|]. exfalso.
    apply bytes_at_notin in Hn. rewrite Hw in Hn.
    pose proof (pieces_from_shape (counted t data) [] ltac:(simpl; lia) (not_elem_of_nil _)) as Hsh.
    rewrite Forall_forall in Hsh. destruct (Hsh _ Hp) as [Hne _].
    apply list_elem_of_split in Hp as (l1 & l2 & Heq). unfold bytes_with in Hn.
    rewrite Heq, sum_by_app in Hn. simpl in Hn. rewrite N.eqb_refl in Hn.
    destruct p; [done|simpl in Hn; lia].
Qed.

(** Spans without empty counts are decided by the bytes of each hash. *)
Lemma spans_ext a : ∀ b,
  spans_sorted a → spans_sorted b → Forall (λ p, 0 < p.2) a → Forall (λ p, 0 < p.2) b →
  (∀ h, bytes_at a h = bytes_at b h) → a = b.
Proof.
  assert (∀ a b, spans_sorted a → spans_sorted b → Forall (λ p, 0 < p.2) a →
            (∀ h, bytes_at a h = bytes_at b h) → ∀ p, p ∈ a → p ∈ b) as Hsub.
  { clear. intros a b Ha Hb Hpos Heq [h n] Hin.
    pose proof (bytes_at_in _ _ _ (spans_sorted_nodup _ Ha) Hin) as Hn.
    rewrite Forall_forall in Hpos. specialize (Hpos _ Hin). simpl in Hpos. rewrite Heq in Hn.
    destruct (decide (h ∈ b.*1)) as [([h' m] & -> & Hm)%list_elem_of_fmap|Hno].
    - simpl in Hn. rewrite (bytes_at_in _ _ _ (spans_sorted_nodup _ Hb) Hm) in Hn. by subst.
    - rewrite bytes_at_notin in Hn by done. lia. }
  intros b Ha Hb Hpa Hpb Heq.
  pose proof (spans_sorted_nodup _ Ha) as Hna. pose proof (spans_sorted_nodup _ Hb) as Hnb.
  assert (a ≡ₚ b) as Hperm.
  { apply NoDup_Permutation; [by eapply NoDup_fmap_1..|]. intros p.
    split; [by apply Hsub|apply Hsub; [done..|]]. by symmetry. }
  assert (∀ l, spans_sorted l → StronglySorted span_le l) as Hle.
  { clear. induction l as [|[h n] l IH]; [constructor|].
    intros [Hlt Hs]%spans_sorted_cons. constructor; [by apply IH|].
    apply Forall_forall. intros q Hq. left. by apply Hlt. }
  apply (StronglySorted_unique span_le); auto.
Qed.

(** A text file is compared without the [\r] of its line ends. *)
Lemma span_counts_text data :
  N.of_nat (length data) < 2 ^ 64 →
  span_counts data true = span_counts (counted true data) false.
Proof.
  intros Hlen. pose proof (counted_length true data) as Hc.
  destruct (span_counts_spec data true Hlen) as (a & -> & Ha & Hpa & Hba & _).
  destruct (span_counts_spec (counted true data) false) as (b & -> & Hb & Hpb & Hbb & _); [lia|].
  f_equal. apply spans_ext; [done..|]. intros h. by rewrite Hba, Hbb, counted_false.
Qed.
