(* ===== verification/GitMatch.v ===== *)
(** * What a pairing of renames promises

    [Known] is what a [Contents] has answered so far; [ContentsLaws] are the laws
    the algorithm relies on: an answer stays what it is, and spans hold no more
    bytes than the file.  [matching] is the invariant of the matcher, [justified]
    what a rename stands for. *)

From stdpp Require Import gmap list sorting.
From S2P Require Import Prelude GitTypes GitRenames GitSpans.

(** ** The answers of a [Contents] *)

Record Known (ObjectId : Type) := mkKnown {
  known_identity : Role → nat → option (option ObjectId);
  known_size : Role → nat → option (option N);
  known_spans : Role → nat → option (option Spans) }.
Arguments mkKnown {ObjectId}.
Arguments known_identity {ObjectId}.
Arguments known_size {ObjectId}.
Arguments known_spans {ObjectId}.

(** Answers are only added. *)
Record knows {ObjectId} (K K' : Known ObjectId) : Prop := {
  knows_identity r i v : known_identity K r i = Some v → known_identity K' r i = Some v;
  knows_size r i v : known_size K r i = Some v → known_size K' r i = Some v;
  knows_spans r i v : known_spans K r i = Some v → known_spans K' r i = Some v }.

#[export] Instance knows_preorder {ObjectId} : PreOrder (@knows ObjectId).
Proof. split; [by split|]. intros a b c [] []. split; eauto. Qed.

Class ContentsLaws {St ObjectId : Type} (C : Contents St ObjectId) (E : Error → Prop)
    (sides : Role → list RenameSide) := {
  valid : St → Prop;
  known : St → Known ObjectId;
  identity_spec r i st :
    valid st → i < length (sides r) →
    total E (identity r i) st (λ v st',
      (valid st' ∧ knows (known st) (known st')) ∧ known_identity (known st') r i = Some v);
  size_spec r i st :
    valid st → i < length (sides r) →
    total E (size r i) st (λ v st',
      (valid st' ∧ knows (known st) (known st')) ∧ known_size (known st') r i = Some v);
  spans_spec r i n st :
    valid st → i < length (sides r) → known_size (known st) r i = Some (Some n) →
    total E (spans r i) st (λ v st',
      (valid st' ∧ knows (known st) (known st')) ∧ known_spans (known st') r i = Some v);
  spans_ok r i n sp st :
    valid st → known_size (known st) r i = Some (Some n) →
    known_spans (known st) r i = Some (Some sp) →
    spans_sorted sp ∧ (span_total sp ≤ n)%N ∧ (span_total sp < 2 ^ 64)%N }.

(** ** Similarity of known contents *)

Definition both_regular (source_side destination_side : RenameSide) : bool :=
  is_regular (mode source_side) && is_regular (mode destination_side).

(** The sizes alone keep the score below the minimum. *)
Definition too_different (a b minimum : N) : bool :=
  (N.max a b * (MAX_SCORE - minimum) <? (N.max a b - N.min a b) * MAX_SCORE)%N.

(** What [similarity] answers once it knows the contents. *)
Definition known_similarity {ObjectId} (K : Known ObjectId) (source_side destination_side : RenameSide)
    (source destination : nat) (minimum : N) : option N :=
  if negb (both_regular source_side destination_side) then Some 0%N
  else
    a ← known_size K Source source;
    b ← known_size K Destination destination;
    match a, b with
    | Some a, Some b =>
        if too_different a b minimum then Some 0%N
        else
          sa ← known_spans K Source source;
          match sa with
          | None => Some 0%N
          | Some sa =>
              sb ← known_spans K Destination destination;
              Some (match sb with
                    | Some sb => if (b =? 0)%N then 0%N else score_of a b (shared sa sb)
                    | None => 0%N
                    end)
          end
    | _, _ => Some 0%N
    end.

Lemma known_similarity_knows {ObjectId} (K K' : Known ObjectId) ss ds s d minimum v :
  knows K K' → known_similarity K ss ds s d minimum = Some v →
  known_similarity K' ss ds s d minimum = Some v.
Proof.
  intros [_ Hsz Hsp]. unfold known_similarity. destruct (negb _); [done|].
  destruct (known_size K Source s) as [a|] eqn:Ha; [|done].
  rewrite (Hsz _ _ _ Ha). simpl.
  destruct (known_size K Destination d) as [b|] eqn:Hb; [|done].
  rewrite (Hsz _ _ _ Hb). simpl. destruct a as [a|], b as [b|]; try done.
  destruct (too_different a b minimum); [done|].
  destruct (known_spans K Source s) as [sa|] eqn:Hsa; [|done].
  rewrite (Hsp _ _ _ Hsa). simpl. destruct sa as [sa|]; [|done].
  destruct (known_spans K Destination d) as [sb|] eqn:Hsb; [|done].
  by rewrite (Hsp _ _ _ Hsb).
Qed.

(** A score above a higher minimum is the score for the lower minimum too. *)
Lemma known_similarity_minimum {ObjectId} (K : Known ObjectId) ss ds s d low high v :
  (low ≤ high)%N → (0 < v)%N → known_similarity K ss ds s d high = Some v →
  known_similarity K ss ds s d low = Some v.
Proof.
  intros Hle Hv. unfold known_similarity. destruct (negb _); [done|].
  destruct (known_size K Source s) as [[a|]|]; [|done..]. simpl.
  destruct (known_size K Destination d) as [[b|]|]; [|done..]. simpl.
  destruct (too_different a b high) eqn:Hh; [intros [= <-]; lia|].
  assert (too_different a b low = false) as ->; [|done].
  unfold too_different, MAX_SCORE in *. apply N.ltb_ge in Hh. apply N.ltb_ge. nia.
Qed.

(** ** Renames *)

(** Modes of files with the same contents that may be one file. *)
Definition compatible (source_side destination_side : RenameSide) : bool :=
  both_regular source_side destination_side
  || (mode source_side =? mode destination_side)%N.

Section matching.
Context {ObjectId : Type} (srcs dsts : list RenameSide).

(** Two sides have the same contents and modes that fit. *)
Definition identical (K : Known ObjectId) (s d : nat) : Prop :=
  ∃ ss ds id, srcs !! s = Some ss ∧ dsts !! d = Some ds ∧ compatible ss ds = true ∧
    known_identity K Source s = Some (Some id) ∧
    known_identity K Destination d = Some (Some id).

(** The score of two sides that are known well enough. *)
Definition similar (K : Known ObjectId) (s d : nat) (v : N) : Prop :=
  ∃ ss ds, srcs !! s = Some ss ∧ dsts !! d = Some ds ∧
    known_similarity K ss ds s d DEFAULT_RENAME_SCORE = Some v.

(** A rename is of identical files, or of files as similar as its score says. *)
Definition justified (K : Known ObjectId) (r : Rename) : Prop :=
  (score r = MAX_SCORE ∧ identical K (source r) (destination r)) ∨
  ((DEFAULT_RENAME_SCORE ≤ score r)%N ∧ similar K (source r) (destination r) (score r)).

Lemma similar_knows K K' s d v : knows K K' → similar K s d v → similar K' s d v.
Proof.
  intros HK (ss & ds & Hs & Hd & Hv). exists ss, ds. split_and!; [done..|].
  by eapply known_similarity_knows.
Qed.

Lemma identical_knows K K' s d : knows K K' → identical K s d → identical K' s d.
Proof.
  intros HK (ss & ds & id & Hs & Hd & Hm & Hi & Hj). exists ss, ds, id.
  split_and!; [done..| |]; by apply HK.
Qed.

Lemma justified_knows K K' r : knows K K' → justified K r → justified K' r.
Proof.
  intros HK [[? ?]|[? ?]]; [left|right]; eauto using identical_knows, similar_knows.
Qed.

(** The renames of a result: each destination in order and once, each source once. *)
Record pairing (K : Known ObjectId) (rs : list Rename) : Prop := {
  pr_destinations : StronglySorted lt (destination <$> rs);
  pr_sources : NoDup (source <$> rs);
  pr_justified r : r ∈ rs → justified K r }.

(** A rename of one of the sides scores at least [v]. *)
Definition answered_by (rs : list Rename) (s d : nat) (v : N) : Prop :=
  ∃ r, r ∈ rs ∧ (source r = s ∨ destination r = d) ∧ (v ≤ score r)%N.

(** No identical files are both left. *)
Definition covers_identical (K : Known ObjectId) (rs : list Rename) : Prop :=
  ∀ s d, identical K s d → answered_by rs s d 0.

(** Two files with a basename's score are settled before the others are compared.
    Of the others a pair that is similar enough has a rename at least as good of
    one of its sides, or the four sources that are as good for its destination all
    have one. *)
Definition covers_similar (K : Known ObjectId) (rs : list Rename) : Prop :=
  ∀ s d, s < length srcs → d < length dsts →
    answered_by rs s d BASENAME_SCORE ∨
    ∃ v, similar K s d v ∧ ((DEFAULT_RENAME_SCORE ≤ v)%N →
      answered_by rs s d v ∨
      ∃ others : list nat,
        length others = CANDIDATES_PER_DESTINATION ∧ NoDup others ∧ s ∉ others ∧
        ∀ s', s' ∈ others → ∃ r, r ∈ rs ∧ source r = s' ∧ (v ≤ score r)%N).

(** A rename of the matcher. *)
Definition renamed (m : Matcher) (r : Rename) : Prop :=
  renames m !! destination r = Some (Some r).

Record matching (K : Known ObjectId) (m : Matcher) : Prop := {
  mt_sources : sources m = srcs;
  mt_destinations : destinations m = dsts;
  mt_used_len : length (source_used m) = length srcs;
  mt_renames_len : length (renames m) = length dsts;
  mt_dest d r : renames m !! d = Some (Some r) → destination r = d;
  mt_used r : renamed m r → source_used m !! source r = Some true;
  mt_used_inv s : source_used m !! s = Some true → ∃ r, renamed m r ∧ source r = s;
  mt_inj r r' : renamed m r → renamed m r' → source r = source r' → r = r';
  mt_justified r : renamed m r → justified K r }.

(** [m'] has every rename of [m]. *)
Definition extends (m m' : Matcher) : Prop := ∀ r, renamed m r → renamed m' r.

#[export] Instance extends_preorder : PreOrder extends.
Proof. split; [by intros ??|]. intros a b c Hab Hbc r Hr. auto. Qed.

Definition start : Matcher :=
  mkMatcher srcs dsts (replicate (length srcs) false) (replicate (length dsts) None).

Lemma start_matching K : matching K start.
Proof.
  split; simpl; try done; try by rewrite length_replicate.
  all: unfold renamed; simpl.
  - by intros d r (? & ?)%lookup_replicate_1.
  - by intros r (? & ?)%lookup_replicate_1.
  - by intros s (? & ?)%lookup_replicate_1.
  - by intros r r' (? & ?)%lookup_replicate_1.
  - by intros r (? & ?)%lookup_replicate_1.
Qed.

Lemma matching_knows K K' m : knows K K' → matching K m → matching K' m.
Proof. intros HK []. split; eauto using justified_knows. Qed.

(** [record] on a free source and a free destination. *)
Lemma record_spec K m s d v :
  matching K m → source_used m !! s = Some false → renames m !! d = Some None →
  justified K (mkRename s d v) →
  runs (Matcher.record m s d v) (λ m', matching K m' ∧ extends m m' ∧
    renamed m' (mkRename s d v) ∧
    ∀ r, renamed m' r → renamed m r ∨ r = mkRename s d v).
Proof.
  intros Hm Hs Hd Hj. unfold Matcher.record. rewrite Hs, Hd. simpl.
  set (m' := mkMatcher _ _ _ _).
  assert (Hin : ∀ d' r, renames m' !! d' = Some (Some r) →
            (d' = d ∧ r = mkRename s d v) ∨ (d' ≠ d ∧ renames m !! d' = Some (Some r))).
  { intros d' r. simpl. destruct (decide (d' = d)) as [->|].
    - rewrite list_lookup_insert_eq by (by eapply lookup_lt_Some). intros [= <-]. by left.
    - rewrite list_lookup_insert_ne by done. by right. }
  assert (Hnew : renamed m' (mkRename s d v)).
  { unfold renamed. simpl. by rewrite list_lookup_insert_eq by (by eapply lookup_lt_Some). }
  assert (Hext : extends m m').
  { intros r Hr. unfold renamed in *. simpl.
    rewrite list_lookup_insert_ne; [done|]. intros ->. congruence. }
  assert (Hcase : ∀ r, renamed m' r → renamed m r ∨ r = mkRename s d v).
  { intros r Hr. destruct (Hin _ _ Hr) as [[_ ->]|[_ ?]]; auto. }
  assert (Hfree : ∀ r, renamed m r → source r ≠ s).
  { intros r Hr <-. rewrite (mt_used _ _ Hm r Hr) in Hs. done. }
  split_and!; [|done..]. split; simpl; try apply Hm.
  - rewrite length_insert. apply Hm.
  - rewrite length_insert. apply Hm.
  - intros d' r Hr. destruct (Hin d' r Hr) as [[-> ->]|[_ ?]]; [done|]. by eapply mt_dest.
  - intros r [Hr| ->]%Hcase; simpl.
    + rewrite list_lookup_insert_ne by (by apply not_eq_sym, Hfree). by eapply mt_used.
    + by rewrite list_lookup_insert_eq by (by eapply lookup_lt_Some).
  - intros s' Hs'. destruct (decide (s' = s)) as [->|]; [by exists (mkRename s d v)|].
    rewrite list_lookup_insert_ne in Hs' by done.
    destruct (mt_used_inv _ _ Hm s' Hs') as (r & Hr & <-). exists r. auto.
  - intros r r' [Hr| ->]%Hcase [Hr'| ->]%Hcase Heq; simpl in *; [by eapply mt_inj| | |done].
    + by destruct (Hfree r Hr).
    + by destruct (Hfree r' Hr').
  - intros r [Hr| ->]%Hcase; [by eapply mt_justified|done].
Qed.
End matching.
