(* ===== verification/GitRenamesCorrect.v ===== *)
(** * The phases of the matcher

    [exact], [by_basename] and [by_similarity] keep the invariant [matching] and
    only add renames ([phase]).  After [exact] no two identical files are both free;
    after [by_similarity] a pair that is similar enough and has nothing as good is
    one whose four candidates have ([by_similarity_spec]).  None of them panics. *)

From stdpp Require Import gmap list sorting.
From S2P Require Import Prelude GitTypes GitRenames GitSpans GitMatch.

(** ** Lists *)

Lemma filter_indices_spec (l : list nat) (pred : nat → option bool) :
  (∀ i, i ∈ l → is_Some (pred i)) →
  runs (filter_indices l pred) (λ r, r `sublist_of` l ∧ ∀ i, i ∈ r ↔ i ∈ l ∧ pred i = Some true).
Proof.
  induction l as [|i l IH]; intros Hp; simpl.
  { split; [done|]. intros i. set_solver. }
  destruct (Hp i) as [b Hb]; [by left|]. rewrite Hb. simpl.
  eapply runs_bind; [apply IH; intros; apply Hp; by right|].
  intros r [Hsub Hr]. simpl. destruct b.
  - split; [by constructor|]. intros j. rewrite !elem_of_cons, Hr. naive_solver.
  - split; [by constructor|]. intros j. rewrite elem_of_cons, Hr.
    split; [naive_solver|]. intros [[->|]]; naive_solver.
Qed.

(** ** Ranks: the order of candidates is one of numbers *)

Definition rank (c : Candidate) : Z :=
  match c_destination c with
  | None => -1
  | Some _ => 2 * Z.of_N (c_score c) + if c_same_basename c then 1 else 0
  end.

Lemma compare_rank a b : is_greater (compare_candidates a b) = (rank a <? rank b)%Z.
Proof.
  unfold compare_candidates, rank. destruct (c_destination a), (c_destination b); simpl;
    try (symmetry; apply Z.ltb_ge; destruct (c_same_basename a); lia);
    try (symmetry; apply Z.ltb_lt; destruct (c_same_basename b); lia).
  destruct (N.eqb_spec (c_score a) (c_score b)) as [->|Hne].
  - destruct (c_same_basename a), (c_same_basename b); simpl; symmetry;
      (apply Z.ltb_lt || apply Z.ltb_ge); lia.
  - destruct (N.compare_spec (c_score b) (c_score a)); simpl; symmetry; [lia|apply Z.ltb_ge|apply Z.ltb_lt];
      destruct (c_same_basename a), (c_same_basename b); lia.
Qed.

Lemma insert_by_spec x l :
  insert_by compare_candidates x l ≡ₚ x :: l ∧
  (StronglySorted (λ a b, (rank b ≤ rank a)%Z) l →
   StronglySorted (λ a b, (rank b ≤ rank a)%Z) (insert_by compare_candidates x l)).
Proof.
  induction l as [|y l [IHp IHs]]; simpl; [split; [done|]; repeat constructor|].
  rewrite compare_rank. destruct (Z.ltb_spec (rank x) (rank y)).
  - split; [rewrite IHp; by constructor|]. intros [Hall Hs]%StronglySorted_cons.
    constructor; [by apply IHs|]. rewrite IHp. by constructor; [lia|].
  - split; [done|]. intros Hs. constructor; [done|].
    apply StronglySorted_cons in Hs as [Hall _]. constructor; [lia|].
    eapply Forall_impl; [done|]. simpl. lia.
Qed.

Lemma sort_by_spec l :
  sort_by compare_candidates l ≡ₚ l ∧
  StronglySorted (λ a b, (rank b ≤ rank a)%Z) (sort_by compare_candidates l).
Proof.
  induction l as [|x l [IHp IHs]]; simpl; [by split; constructor|].
  destruct (insert_by_spec x (sort_by compare_candidates l)) as [Hp Hs].
  split; [by rewrite Hp, IHp|auto].
Qed.

(** ** The best candidates of a destination *)

Lemma worst_index_spec kept :
  kept ≠ [] →
  runs (worst_index kept) (λ i, ∃ w, kept !! i = Some w ∧ ∀ c, c ∈ kept → (rank w ≤ rank c)%Z).
Proof.
  intros Hne. unfold worst_index.
  assert (0 < length kept) as Hlen by (destruct kept; [done|simpl; lia]).
  eapply (runs_for_each _ _ (λ done i, ∃ w, kept !! i = Some w ∧
    ∀ j c, j ≤ length done → kept !! j = Some c → (rank w ≤ rank c)%Z)).
  - destruct (lookup_lt_is_Some_2 kept 0 Hlen) as [w Hw]. exists w. split; [done|].
    intros j c Hj Hc. replace j with 0 in Hc by (simpl in Hj; lia). simplify_eq. done.
  - intros done x rest i Hxs (w & Hw & Hle).
    assert (x = S (length done) ∧ x < length kept) as [Hx Hlt].
    { assert (seq 1 (length kept - 1) !! length done = Some x) as Hlk.
      { by rewrite Hxs, list_lookup_middle. }
      apply lookup_seq in Hlk. lia. }
    destruct (lookup_lt_is_Some_2 kept x Hlt) as [k Hk].
    rewrite Hk, Hw. simpl. rewrite compare_rank.
    assert (Hnext : ∀ v, (rank v ≤ rank w)%Z → (rank v ≤ rank k)%Z →
      ∀ j c, j ≤ length (done ++ [x]) → kept !! j = Some c → (rank v ≤ rank c)%Z).
    { intros v Hvw Hvk j c Hj Hc. rewrite length_app in Hj. simpl in Hj.
      destruct (decide (j = x)) as [->|]; [by simplify_eq|].
      specialize (Hle j c ltac:(lia) Hc). lia. }
    destruct (Z.ltb_spec (rank k) (rank w)).
    + exists k. split; [done|]. apply Hnext; lia.
    + exists w. split; [done|]. apply Hnext; lia.
  - intros i (w & Hw & Hle). exists w. split; [done|]. intros c [j Hj]%list_elem_of_lookup.
    apply (Hle j); [|done]. rewrite length_seq. apply lookup_lt_Some in Hj. lia.
Qed.

(** One step: the kept candidates lose at most one, which is no better than any left. *)
Lemma keep_if_better_spec kept c :
  kept ≠ [] →
  runs (keep_if_better kept c) (λ kept', length kept' = length kept ∧
    ∃ out, c :: kept ≡ₚ out :: kept' ∧ ∀ k, k ∈ kept' → (rank out ≤ rank k)%Z).
Proof.
  intros Hne. unfold keep_if_better.
  eapply runs_bind; [by apply worst_index_spec|]. intros i (w & Hw & Hle). cbv beta.
  rewrite Hw. simpl. rewrite compare_rank. destruct (Z.ltb_spec (rank w) (rank c)).
  - split; [by rewrite length_insert|]. exists w.
    rewrite insert_take_drop by (by eapply lookup_lt_Some).
    rewrite <- (take_drop_middle kept i w Hw) at 1. split.
    + rewrite <- !Permutation_middle. constructor.
    + intros k Hk. apply elem_of_app in Hk as [Hk|[->|Hk]%elem_of_cons]; [|lia|].
      * by apply Hle, (subseteq_take i).
      * by apply Hle, (subseteq_drop (S i)).
  - split; [done|]. exists c. split; [done|]. intros k Hk. specialize (Hle k Hk). lia.
Qed.

(** The renames in the order of their destinations. *)
Lemma omap_renames k (l : list (option Rename)) :
  (∀ d r, l !! d = Some (Some r) → destination r = k + d) →
  StronglySorted lt (destination <$> omap (λ r, r) l) ∧
  ∀ r, r ∈ omap (λ r, r) l ↔ ∃ d, l !! d = Some (Some r).
Proof.
  intros Hd. assert (Hin : ∀ r, r ∈ omap (λ r, r) l ↔ ∃ d, l !! d = Some (Some r)).
  { intros r. rewrite list_elem_of_omap. setoid_rewrite list_elem_of_lookup. naive_solver. }
  split; [|done]. clear Hin. revert k Hd. induction l as [|o l IH]; intros k Hd; [constructor|].
  assert (StronglySorted lt (destination <$> omap (λ r, r) l)) as Hs.
  { apply (IH (S k)). intros d r Hr. rewrite (Hd (S d) r Hr). lia. }
  destruct o as [r|]; simpl; [|done]. constructor; [done|].
  apply Forall_fmap, Forall_forall. intros r' (o & Ho & ->)%list_elem_of_omap. simpl.
  apply list_elem_of_lookup in Ho as [d Ho].
  rewrite (Hd 0 r eq_refl), (Hd (S d) r' Ho). lia.
Qed.

Section phases.
Context {St ObjectId : Type} `{Countable ObjectId} (C : Contents St ObjectId).
Context (E : Error → Prop) (srcs dsts : list RenameSide).
Context (L : ContentsLaws C E (λ r, match r with Source => srcs | Destination => dsts end)).
#[local] Notation valid := (GitMatch.valid (ContentsLaws := L)).
#[local] Notation known := (GitMatch.known (ContentsLaws := L)).

Implicit Types (K : Known ObjectId) (m : Matcher) (st : St).

(** The state after some calls. *)
Definition grows (st st' : St) : Prop := valid st' ∧ knows (known st) (known st').

Lemma grows_refl st : valid st → grows st st.
Proof. by split. Qed.

Lemma grows_trans a b c : grows a b → grows b c → grows a c.
Proof. intros [_ Hab] [Hv Hbc]. split; [done|]. by etrans. Qed.

(** What no call and no step of the matcher takes back. *)
Definition blocks (m : Matcher) (s d : nat) : Prop :=
  ∃ r, renamed m r ∧ (source r = s ∨ destination r = d).

Lemma blocks_extends m m' s d : extends m m' → blocks m s d → blocks m' s d.
Proof. intros Hext (r & Hr & ?). exists r. auto. Qed.

(** What a phase promises: [P] holds of the renames it adds. *)
Record phase (P : Rename → Prop) (st : St) (m : Matcher) (m' : Matcher) (st' : St) : Prop := {
  ph_grows : grows st st';
  ph_matching : matching srcs dsts (known st') m';
  ph_extends : extends m m';
  ph_new r : renamed m' r → renamed m r ∨ P r }.

Lemma phase_refl P st m : valid st → matching srcs dsts (known st) m → phase P st m m st.
Proof. intros. split; [by apply grows_refl|done|done|]. auto. Qed.

Lemma phase_trans P st m m1 st1 m2 st2 :
  phase P st m m1 st1 → phase P st1 m1 m2 st2 → phase P st m m2 st2.
Proof.
  intros [] [Hg ? ? Hnew]. split; [by eapply grows_trans|done|by etrans|].
  intros r [Hr|]%Hnew; auto.
Qed.

Lemma phase_grows P st st1 m m2 st2 :
  grows st st1 → phase P st1 m m2 st2 → phase P st m m2 st2.
Proof. intros Hg []. split; [by eapply grows_trans|done..]. Qed.

Lemma phase_valid P st m m' st' : phase P st m m' st' → valid st'.
Proof. intros [[? _] _ _ _]. done. Qed.

Lemma matching_grows st st' m :
  grows st st' → matching srcs dsts (known st) m → matching srcs dsts (known st') m.
Proof. intros [_ ?]. by apply matching_knows. Qed.

(** ** Looking up the matcher *)

Lemma source_free K m s :
  matching srcs dsts K m → s < length srcs → (∀ r, renamed m r → source r ≠ s) →
  source_used m !! s = Some false.
Proof.
  intros Hm Hs Hfree. destruct (lookup_lt_is_Some_2 (source_used m) s) as [b Hb].
  { by rewrite (mt_used_len _ _ _ _ Hm). }
  destruct b; [|done]. destruct (mt_used_inv _ _ _ _ Hm s Hb) as (r & Hr & <-).
  by destruct (Hfree r Hr).
Qed.

Lemma destination_lookup K m d :
  matching srcs dsts K m → d < length dsts → ∃ o, renames m !! d = Some o.
Proof. intros Hm Hd. apply lookup_lt_is_Some_2. by rewrite (mt_renames_len _ _ _ _ Hm). Qed.

Lemma destination_free K m d :
  matching srcs dsts K m → d < length dsts → (∀ r, renamed m r → destination r ≠ d) →
  renames m !! d = Some None.
Proof.
  intros Hm Hd Hfree. destruct (destination_lookup _ _ _ Hm Hd) as [[r|] Ho]; [|done].
  pose proof (mt_dest _ _ _ _ Hm _ _ Ho) as <-. by destruct (Hfree r Ho).
Qed.

Lemma remaining_sources_spec K m :
  matching srcs dsts K m →
  runs (Matcher.remaining_sources m) (λ l, NoDup l ∧ length l ≤ length srcs ∧
    ∀ s, s ∈ l ↔ s < length srcs ∧ source_used m !! s = Some false).
Proof.
  intros Hm. unfold Matcher.remaining_sources. rewrite (mt_sources _ _ _ _ Hm).
  eapply runs_mono; [apply filter_indices_spec|].
  - intros s Hs%elem_of_seq.
    destruct (lookup_lt_is_Some_2 (source_used m) s) as [b ->]; [|done].
    rewrite (mt_used_len _ _ _ _ Hm). lia.
  - intros l [Hsub Hl]. split_and!.
    + eapply sublist_NoDup; [apply NoDup_seq|done].
    + apply sublist_length in Hsub. by rewrite length_seq in Hsub.
    + intros s. rewrite Hl, elem_of_seq. simpl.
      destruct (source_used m !! s) as [[]|]; simpl; naive_solver lia.
Qed.

Lemma remaining_destinations_spec K m :
  matching srcs dsts K m →
  runs (Matcher.remaining_destinations m) (λ l, NoDup l ∧ length l ≤ length dsts ∧
    ∀ d, d ∈ l ↔ d < length dsts ∧ renames m !! d = Some None).
Proof.
  intros Hm. unfold Matcher.remaining_destinations. rewrite (mt_destinations _ _ _ _ Hm).
  eapply runs_mono; [apply filter_indices_spec|].
  - intros d Hd%elem_of_seq.
    destruct (destination_lookup _ _ d Hm) as [o ->]; [lia|done].
  - intros l [Hsub Hl]. split_and!.
    + eapply sublist_NoDup; [apply NoDup_seq|done].
    + apply sublist_length in Hsub. by rewrite length_seq in Hsub.
    + intros d. rewrite Hl, elem_of_seq. simpl.
      destruct (renames m !! d) as [[]|]; simpl; naive_solver lia.
Qed.

(** ** The exact phase *)

Lemma identity_source s st :
  valid st → s < length srcs →
  total E (identity Source s) st (λ v st',
    grows st st' ∧ known_identity (known st') Source s = Some v).
Proof. intros. by apply (identity_spec (ContentsLaws := L)). Qed.

Lemma identity_destination d st :
  valid st → d < length dsts →
  total E (identity Destination d) st (λ v st',
    grows st st' ∧ known_identity (known st') Destination d = Some v).
Proof. intros. by apply (identity_spec (ContentsLaws := L)). Qed.

(** [by_id] holds the sources of each identity, of the first [n]. *)
Definition indexed (K : Known ObjectId) (n : nat) (by_id : gmap ObjectId (list nat)) : Prop :=
  (∀ s, s < n → is_Some (known_identity K Source s)) ∧
  (∀ id s, s ∈ default [] (by_id !! id) ↔ s < n ∧ known_identity K Source s = Some (Some id)).

Lemma indexed_knows K K' n by_id : knows K K' → indexed K n by_id → indexed K' n by_id.
Proof.
  intros HK [Hk Hi]. split.
  - intros s [v Hv]%Hk. exists v. by apply HK.
  - intros id s. rewrite Hi. split; intros [Hs Hv]; (split; [done|]).
    + by apply HK.
    + destruct (Hk s Hs) as [v Hv']. rewrite Hv'. rewrite <- Hv. symmetry. by apply HK.
Qed.

Lemma index_sources_spec m st :
  valid st → sources m = srcs →
  total E (Matcher.index_sources m) st (λ by_id st',
    grows st st' ∧ indexed (known st') (length srcs) by_id).
Proof.
  intros Hv Hm. unfold Matcher.index_sources. rewrite Hm.
  eapply (total_for_call E _ _ (λ done by_id st',
    grows st st' ∧ indexed (known st') (length done) by_id)).
  - split; [by apply grows_refl|]. split; [simpl; lia|].
    intros id s. rewrite lookup_empty. simpl. set_solver by lia.
  - intros done s rest by_id st1 Hxs [Hg Hi].
    assert (s = length done ∧ s < length srcs) as [Hs Hlt].
    { assert (seq 0 (length srcs) !! length done = Some s) as Hlk.
      { by rewrite Hxs, list_lookup_middle. }
      apply lookup_seq in Hlk. lia. }
    eapply total_bind; [by apply identity_source; [apply Hg|]|].
    intros v st2 [Hg2 Hk2].
    assert (Hg' : grows st st2) by (by eapply grows_trans).
    apply (indexed_knows _ _ _ _ (proj2 Hg2)) in Hi as [Hi1 Hi2].
    rewrite length_app. simpl.
    assert (∀ s', s' < length done + 1 → is_Some (known_identity (known st2) Source s')).
    { intros s' Hs'. destruct (decide (s' = s)) as [->|]; [by exists v|]. apply Hi1. lia. }
    apply total_or_return.
    + intros ->. split; [done|]. split; [done|]. intros id s'. rewrite Hi2.
      destruct (decide (s' = s)) as [->|]; [naive_solver lia|]. naive_solver lia.
    + intros id ->. apply total_ret. split; [done|]. split; [done|]. intros id' s'.
      destruct (decide (id' = id)) as [->|].
      * rewrite lookup_insert_eq. simpl. rewrite elem_of_app, Hi2, list_elem_of_singleton.
        destruct (decide (s' = s)) as [->|]; [naive_solver lia|]. naive_solver lia.
      * rewrite lookup_insert_ne by done. rewrite Hi2.
        destruct (decide (s' = s)) as [->|]; [naive_solver lia|]. naive_solver lia.
  - intros by_id st'. by rewrite length_seq.
Qed.

(** The source chosen is free and fits; if none is chosen, none does. *)
Lemma best_source_spec K m target candidates best best_score alternatives :
  matching srcs dsts K m → (∀ s, s ∈ candidates → s < length srcs) →
  0 < alternatives → (best = None ↔ best_score = 0%N) →
  runs (Matcher.best_source m target candidates best best_score alternatives) (λ b,
    (∀ s, b = Some s → best = Some s ∨
       s ∈ candidates ∧ source_used m !! s = Some false ∧
       ∃ side, srcs !! s = Some side ∧ compatible side target = true) ∧
    (b = None → best = None ∧ ∀ s side, s ∈ candidates → srcs !! s = Some side →
       compatible side target = true → source_used m !! s = Some true)).
Proof.
  intros Hm. revert best best_score alternatives.
  induction candidates as [|s candidates IH]; intros best best_score alternatives Hlt Halt Hbest;
    simpl.
  { split; [auto|]. intros Hb. split; [done|]. by intros s side ?%elem_of_nil. }
  assert (s < length srcs) as Hs by (apply Hlt; by left).
  assert (∀ s', s' ∈ candidates → s' < length srcs) as Hlt' by (intros; apply Hlt; by right).
  rewrite (mt_sources _ _ _ _ Hm).
  destruct (lookup_lt_is_Some_2 srcs s Hs) as [side Hside]. rewrite Hside. simpl.
  assert (Hcompat : compatible side target =
    negb ((negb (is_regular (mode side)) || negb (is_regular (mode target)))
          && negb (mode side =? mode target)%N)).
  { unfold compatible, both_regular. by destruct (is_regular _), (is_regular _), (_ =? _)%N. }
  destruct (_ && negb (mode side =? mode target)%N) eqn:Hmode.
  { eapply runs_mono; [by apply IH|]. intros b [Hb Hn]. split.
    - intros s' Hs'. destruct (Hb s' Hs') as [?|(? & ?)]; [by left|right].
      by split; [right|].
    - intros [? Hn']%Hn. split; [done|].
      intros s' side' [->|Hin]%elem_of_cons Hside' Hc; [|by eapply Hn'].
      simplify_eq. by rewrite Hcompat in Hc. }
  destruct (lookup_lt_is_Some_2 (source_used m) s) as [used Hused].
  { by rewrite (mt_used_len _ _ _ _ Hm). }
  rewrite Hused. simpl. destruct used.
  { eapply runs_mono; [by apply IH|]. intros b [Hb Hn]. split.
    - intros s' Hs'. destruct (Hb s' Hs') as [?|(? & ?)]; [by left|right].
      by split; [right|].
    - intros [? Hn']%Hn. split; [done|].
      intros s' side' [->|Hin]%elem_of_cons Hside' Hc; [done|by eapply Hn']. }
  set (v := (1 + _)%N).
  assert (0 < v)%N as Hv by (unfold v; lia). clearbody v.
  set (best' := if (best_score <? v)%N then (Some s, v) else (best, best_score)).
  assert (Hfst : ∃ b sc, best' = (b, sc) ∧ b ≠ None ∧ (b = None ↔ sc = 0%N) ∧
            (b = best ∨ b = Some s)).
  { unfold best'. destruct (N.ltb_spec best_score v).
    - exists (Some s), v. split_and!; [done..| |by right]. split; [done|lia].
    - exists best, best_score. split_and!; [done| |done|by left]. intros Hn.
      apply Hbest in Hn. lia. }
  destruct Hfst as (b & sc & -> & Hb & Hbsc & Hor).
  assert (Hok : ∀ s', b = Some s' → best = Some s' ∨
     s' ∈ s :: candidates ∧ source_used m !! s' = Some false ∧
     ∃ side, srcs !! s' = Some side ∧ compatible side target = true).
  { intros s' ->. destruct Hor as [<-|[= ->]]; [by left|right].
    split_and!; [by left|done|]. exists side. by rewrite Hcompat. }
  destruct ((best_score <? v)%N && (v =? 2)%N); [by split|].
  rewrite checked_sub_some by lia. simpl.
  destruct (Nat.eqb_spec (alternatives - 1) 0); [by split|].
  eapply runs_mono; [apply IH; [done|lia|done]|]. intros b' [Hb' Hn']. split.
  - intros s' Hs'. destruct (Hb' s' Hs') as [?|(? & ?)]; [by apply Hok|right].
    by split; [right|].
  - by intros [? _]%Hn'.
Qed.

Lemma used_blocks K m s d :
  matching srcs dsts K m → source_used m !! s = Some true → blocks m s d.
Proof. intros Hm (r & Hr & <-)%(mt_used_inv _ _ _ _ Hm). exists r. auto. Qed.

Lemma exact_one_spec by_id d m st :
  valid st → matching srcs dsts (known st) m → indexed (known st) (length srcs) by_id →
  d < length dsts → (∀ r, renamed m r → destination r ≠ d) →
  total E (Matcher.exact_one by_id d m) st (λ m' st',
    phase (λ r, score r = MAX_SCORE ∧ destination r = d) st m m' st' ∧
    is_Some (known_identity (known st') Destination d) ∧
    ∀ s, identical srcs dsts (known st') s d → blocks m' s d).
Proof.
  intros Hv Hm Hidx Hd Hfree. unfold Matcher.exact_one.
  eapply total_bind; [by apply identity_destination|]. intros v st1 [Hg Hk].
  apply (matching_grows _ _ _ Hg) in Hm. apply (indexed_knows _ _ _ _ (proj2 Hg)) in Hidx.
  assert (Href : ∀ P : Rename → Prop, phase P st m m st1).
  { intros P. eapply phase_grows; [done|]. apply phase_refl; [apply Hg|done]. }
  apply total_or_return; [intros ->|intros id ->].
  { split_and!; [done..|]. intros s (ss & ds & id & _ & _ & _ & _ & Hid). congruence. }
  assert (Hids : ∀ s, identical srcs dsts (known st1) s d →
            ∃ side target, srcs !! s = Some side ∧ dsts !! d = Some target ∧
              compatible side target = true ∧ s ∈ default [] (by_id !! id)).
  { intros s (ss & ds & id' & Hss & Hds & Hc & Hid & Hid'). exists ss, ds.
    split_and!; [done..|]. apply Hidx. simplify_eq. split; [by eapply lookup_lt_Some|done]. }
  apply total_or_return; [intros Hnone|intros candidates Hcand].
  { split_and!; [done..|]. intros s (? & ? & _ & _ & _ & Hin)%Hids. rewrite Hnone in Hin.
    by apply elem_of_nil in Hin. }
  rewrite Hcand in Hids. simpl in Hids.
  assert (Hmem : ∀ s, s ∈ candidates ↔
            s < length srcs ∧ known_identity (known st1) Source s = Some (Some id)).
  { intros s. rewrite <- (proj2 Hidx id s), Hcand. done. }
  destruct (lookup_lt_is_Some_2 dsts d Hd) as [target Htarget].
  rewrite (mt_destinations _ _ _ _ Hm), Htarget. apply total_checked_bind. cbn [runs].
  apply total_checked_bind.
  eapply runs_mono; [eapply (best_source_spec _ _ target candidates None 0)|].
  { done. }
  { intros s Hs. by apply Hmem. }
  { unfold IDENTICAL_ALTERNATIVES. lia. }
  { done. }
  intros b [Hb Hn]. apply total_or_return; [intros ->|intros s ->].
  { split_and!; [done..|]. intros s (side & ? & Hs & Ht & Hc & Hin)%Hids. simplify_eq.
    eapply used_blocks; [done|]. destruct (Hn eq_refl) as [_ Hn']. by eapply Hn'. }
  destruct (Hb s eq_refl) as [?|(Hin & Hunused & side & Hside & Hc)]; [done|].
  apply total_checked. eapply runs_mono; [eapply (record_spec srcs dsts)|]; [done..| | |].
  { by eapply destination_free. }
  { left. split; [done|]. exists side, target, id. split_and!; [done..| |done].
    by apply Hmem. }
  intros m' (Hm' & Hext & Hnew & Hcase). split_and!; [|done|].
  - split; [done..|]. intros r [?| ->]%Hcase; [by left|by right].
  - intros s' _. eexists. split; [exact Hnew|by right].
Qed.

(** Every identity is known. *)
Definition identities_known K : Prop :=
  (∀ s, s < length srcs → is_Some (known_identity K Source s)) ∧
  (∀ d, d < length dsts → is_Some (known_identity K Destination d)).

(** With all identities known, no identical files come up later. *)
Lemma identical_back K K' s d :
  knows K K' → is_Some (known_identity K Source s) → is_Some (known_identity K Destination d) →
  identical srcs dsts K' s d → identical srcs dsts K s d.
Proof.
  intros HK [v Hv] [w Hw] (ss & ds & id & Hss & Hds & Hc & Hs & Hd). exists ss, ds, id.
  pose proof (knows_identity _ _ HK _ _ _ Hv). pose proof (knows_identity _ _ HK _ _ _ Hw).
  split_and!; congruence.
Qed.

Definition exact_complete K m : Prop := ∀ s d, identical srcs dsts K s d → blocks m s d.

Lemma exact_spec m st :
  valid st → matching srcs dsts (known st) m → (∀ r, ¬ renamed m r) →
  total E (Matcher.exact m) st (λ m' st',
    phase (λ r, score r = MAX_SCORE) st m m' st' ∧
    identities_known (known st') ∧ exact_complete (known st') m').
Proof.
  intros Hv Hm Hempty. unfold Matcher.exact.
  eapply total_bind; [apply index_sources_spec; [done|by eapply mt_sources]|].
  intros by_id st1 [Hg Hidx]. rewrite (mt_destinations _ _ _ _ Hm).
  eapply (total_for_call E _ _ (λ done m' st',
    phase (λ r, score r = MAX_SCORE) st m m' st' ∧ knows (known st1) (known st') ∧
    (∀ r, renamed m' r → destination r < length done) ∧
    (∀ d, d < length done → is_Some (known_identity (known st') Destination d)) ∧
    (∀ s d, d < length done → identical srcs dsts (known st') s d → blocks m' s d))).
  - split_and!; [|done| |simpl; lia..].
    + eapply phase_grows; [done|]. apply phase_refl; [apply Hg|by eapply matching_grows].
    + by intros r ?%Hempty.
  - intros done d rest m1 st2 Hxs (Hph & Hk & Hdest & Hids & Hblk).
    assert (d = length done ∧ d < length dsts) as [Hd Hlt].
    { assert (seq 0 (length dsts) !! length done = Some d) as Hlk.
      { by rewrite Hxs, list_lookup_middle. }
      apply lookup_seq in Hlk. lia. }
    eapply total_mono.
    { apply exact_one_spec; [by eapply phase_valid|apply Hph|by eapply indexed_knows|done|].
      intros r Hr. specialize (Hdest r Hr). lia. }
    intros m2 st3 (Hph2 & Hid2 & Hblk2). rewrite length_app. simpl.
    pose proof (proj2 (ph_grows _ _ _ _ _ Hph2)) as Hk2.
    assert (Hall : ∀ d', d' < length done + 1 →
              is_Some (known_identity (known st3) Destination d')).
    { intros d' Hd'. destruct (decide (d' = d)) as [->|]; [done|].
      destruct (Hids d') as [v Hv']; [lia|]. exists v. by apply Hk2. }
    split_and!; [|by etrans| |done|].
    + eapply phase_trans; [done|]. destruct Hph2 as [? ? ? Hnew]. split; [done..|].
      intros r [?|[? _]]%Hnew; auto.
    + intros r [Hr|[_ ->]]%(ph_new _ _ _ _ _ Hph2); [specialize (Hdest r Hr)|]; lia.
    + intros s d' Hd' Hident. destruct (decide (d' = d)) as [->|]; [by apply Hblk2|].
      eapply blocks_extends; [apply Hph2|]. apply Hblk; [lia|].
      eapply identical_back; [done| |apply Hids; lia|done].
      destruct Hident as (ss & _ & _ & Hss & _). apply lookup_lt_Some in Hss.
      destruct Hidx as [Hidx _]. destruct (Hidx s Hss) as [v Hv']. exists v. by apply Hk.
  - intros m' st' (Hph & Hk & _ & Hids & Hblk). rewrite length_seq in Hids, Hblk.
    split_and!; [done| |].
    + split; [|done]. intros s [v Hs]%(proj1 Hidx). exists v. by apply Hk.
    + intros s d Hident. apply Hblk; [|done]. destruct Hident as (_ & ds & _ & _ & Hds & _).
      by eapply lookup_lt_Some.
Qed.

(** ** Similarity *)

Lemma similarity_spec ss ds s d minimum st :
  valid st → srcs !! s = Some ss → dsts !! d = Some ds → (minimum ≤ MAX_SCORE)%N →
  total E (Matcher.similarity ss ds s d minimum) st (λ v st',
    grows st st' ∧ known_similarity (known st') ss ds s d minimum = Some v ∧ (v ≤ MAX_SCORE)%N).
Proof.
  intros Hv Hss%lookup_lt_Some Hds%lookup_lt_Some Hmin. unfold Matcher.similarity.
  assert (∀ K, known_similarity K ss ds s d minimum =
    if negb (is_regular (mode ss)) || negb (is_regular (mode ds)) then Some 0%N
    else known_similarity K ss ds s d minimum) as Hreg.
  { intros K. unfold known_similarity, both_regular.
    by destruct (is_regular (mode ss)), (is_regular (mode ds)). }
  destruct (_ || _) eqn:Hmodes.
  { apply total_ret. split_and!; [by apply grows_refl|by rewrite Hreg|done]. }
  assert (Hboth : both_regular ss ds = true).
  { unfold both_regular. by destruct (is_regular (mode ss)), (is_regular (mode ds)). }
  eapply total_bind; [by apply (size_spec (ContentsLaws := L) Source)|]. cbv beta.
  intros a st1 [[Hv1 Hk1] Ha].
  eapply total_bind; [by apply (size_spec (ContentsLaws := L) Destination)|]. cbv beta.
  intros b st2 [[Hv2 Hk2] Hb].
  apply (knows_size _ _ Hk2) in Ha.
  assert (Hg2 : grows st st2) by (split; [done|by etrans]).
  assert (Hsim : ∀ K, knows (known st2) K → known_similarity K ss ds s d minimum =
    match a, b with
    | Some a, Some b =>
        if too_different a b minimum then Some 0%N
        else
          sa ← known_spans K Source s;
          match sa with
          | None => Some 0%N
          | Some sa =>
              sb ← known_spans K Destination d;
              Some (match sb with
                    | Some sb => if (b =? 0)%N then 0%N else score_of a b (shared sa sb)
                    | None => 0%N
                    end)
          end
    | _, _ => Some 0%N
    end).
  { intros K HK. unfold known_similarity. rewrite Hboth. simpl.
    by rewrite (knows_size _ _ HK _ _ _ Ha), (knows_size _ _ HK _ _ _ Hb). }
  apply total_or_return; [intros ->|intros a' ->].
  { split_and!; [done| |done]. by rewrite Hsim. }
  rename a' into a. apply total_or_return; [intros ->|intros b' ->].
  { split_and!; [done| |done]. by rewrite Hsim. }
  rename b' into b. cbv zeta.
  apply total_checked_bind. apply runs_assert; [by apply N.leb_le|].
  fold (too_different a b minimum). destruct (too_different a b minimum) eqn:Hdiff.
  { apply total_ret. split_and!; [done| |done]. by rewrite Hsim. }
  eapply total_bind; [by eapply (spans_spec (ContentsLaws := L) Source)|]. cbv beta.
  intros sa st3 [[Hv3 Hk3] Hsa].
  apply total_or_return; [intros ->|intros sa' ->].
  { split_and!; [split; [done|by etrans; [apply Hg2|]]| |done]. rewrite Hsim by done. by rewrite Hsa. }
  rename sa' into sa.
  eapply total_bind; [by eapply (spans_spec (ContentsLaws := L) Destination); [..|apply Hk3]|].
  cbv beta. intros sb st4 [[Hv4 Hk4] Hsb].
  assert (Hk24 : knows (known st2) (known st4)) by (by etrans).
  assert (Hg4 : grows st st4) by (split; [done|by etrans; [apply Hg2|]]).
  apply (knows_spans _ _ Hk4) in Hsa.
  apply total_or_return; [intros ->|intros sb' ->].
  { split_and!; [done| |done]. rewrite Hsim by done. by rewrite Hsa, Hsb. }
  rename sb' into sb.
  destruct (spans_ok (ContentsLaws := L) Source s a sa st4) as (Hsorta & Hta & H64);
    [done|by apply Hk24|done|].
  destruct (spans_ok (ContentsLaws := L) Destination d b sb st4) as (Hsortb & Htb & _);
    [done|by apply Hk24|done|].
  assert (Hmax : (score_of a b (shared sa sb) ≤ MAX_SCORE)%N).
  { apply score_of_le.
    - pose proof (shared_le_source sa sb). lia.
    - pose proof (shared_le_destination sa sb (spans_sorted_nodup _ Hsorta)
        (spans_sorted_nodup _ Hsortb)). lia. }
  destruct (b =? 0)%N eqn:Hb0.
  { apply total_ret. split_and!; [done| |done]. rewrite Hsim by done. by rewrite Hsa, Hsb. }
  rewrite copied_bytes_spec by done. apply total_checked_bind. cbn [runs]. cbv zeta.
  fold (score_of a b (shared sa sb)).
  assert ((score_of a b (shared sa sb) <? 2 ^ 32)%N = true) as ->.
  { apply N.ltb_lt. unfold MAX_SCORE in Hmax. lia. }
  apply total_ret. split_and!; [done| |done]. rewrite Hsim by done. by rewrite Hsa, Hsb.
Qed.

Lemma similarity_similar ss ds s d minimum st v :
  srcs !! s = Some ss → dsts !! d = Some ds →
  (DEFAULT_RENAME_SCORE ≤ minimum)%N → (0 < v)%N →
  known_similarity (known st) ss ds s d minimum = Some v → similar srcs dsts (known st) s d v.
Proof. intros. exists ss, ds. split_and!; [done..|]. by eapply known_similarity_minimum. Qed.

(** ** Pairs with a basename of their own *)

Lemma names_of_spec sides indices :
  (∀ i, i ∈ indices → i < length sides) →
  runs (Matcher.names_of sides indices) (λ names,
    ∀ name i, names !! name = Some (Some i) → i ∈ indices).
Proof.
  intros Hlt. unfold Matcher.names_of.
  eapply (runs_for_each _ _ (λ done names, ∀ name i, names !! name = Some (Some i) → i ∈ done)).
  - intros name i. by rewrite lookup_empty.
  - intros done i rest names Hxs Hnames.
    destruct (lookup_lt_is_Some_2 sides i) as [side ->].
    { apply Hlt. rewrite Hxs. apply elem_of_app. right. by left. }
    simpl. intros name j. unfold Matcher.add_name.
    destruct (decide (name = basename (path side))) as [->|Hne].
    + rewrite lookup_partial_alter_eq. destruct (names !! _); [done|].
      intros [= <-]. apply elem_of_app. right. by left.
    + rewrite lookup_partial_alter_ne by done. intros ?%Hnames. apply elem_of_app. by left.
  - done.
Qed.

Lemma basename_one_spec source_by_name destination_by_name s m st :
  valid st → matching srcs dsts (known st) m → s < length srcs →
  (∀ r, renamed m r → source r ≠ s) →
  (∀ name d, destination_by_name !! name = Some (Some d) → d < length dsts) →
  total E (Matcher.basename_one source_by_name destination_by_name s m) st
    (phase (λ r, (BASENAME_SCORE ≤ score r)%N ∧ source r = s) st m).
Proof.
  intros Hv Hm Hs Hfree Hnames. unfold Matcher.basename_one.
  assert (Href : ∀ P st', grows st st' → phase P st m m st').
  { intros P st' Hg. eapply phase_grows; [done|]. apply phase_refl; [apply Hg|].
    by eapply matching_grows. }
  assert (Hrefl : ∀ P, phase P st m m st) by (intros P; by apply Href, grows_refl).
  destruct (lookup_lt_is_Some_2 srcs s Hs) as [ss Hss].
  rewrite (mt_sources _ _ _ _ Hm), Hss. apply total_checked_bind. cbn [runs]. cbv zeta.
  apply total_or_return; [done|]. intros unique Hunique.
  destruct (source_by_name !! _) as [[?|]|]; [|by apply total_ret..].
  destruct unique as [d|]; [|by apply total_ret].
  pose proof (Hnames _ _ Hunique) as Hd.
  destruct (destination_lookup _ _ d Hm Hd) as [o Ho]. rewrite Ho.
  apply total_checked_bind. cbn [runs]. destruct o as [r|]; [by apply total_ret|].
  destruct (lookup_lt_is_Some_2 dsts d Hd) as [ds Hds].
  rewrite (mt_destinations _ _ _ _ Hm), Hds. apply total_checked_bind. cbn [runs].
  eapply total_bind; [by apply similarity_spec|]. cbv beta. intros v st' (Hg & Hsim & Hmax).
  destruct (N.leb_spec BASENAME_SCORE v) as [Hscore|]; [|by apply total_ret, Href].
  pose proof (matching_grows _ _ _ Hg Hm) as Hm'.
  apply total_checked. eapply runs_mono; [apply (record_spec srcs dsts (known st'))|].
  - done.
  - by eapply source_free.
  - done.
  - assert (DEFAULT_RENAME_SCORE ≤ BASENAME_SCORE)%N by done.
    assert (0 < BASENAME_SCORE)%N by done. right. simpl. split; [lia|].
    by apply (similarity_similar ss ds s d BASENAME_SCORE); [..|lia|].
  - intros m' (? & ? & _ & Hcase). split; [done..|].
    intros r [?| ->]%Hcase; [by left|right]. by split.
Qed.

Lemma by_basename_spec m st :
  valid st → matching srcs dsts (known st) m →
  total E (Matcher.by_basename m) st (phase (λ r, (BASENAME_SCORE ≤ score r)%N) st m).
Proof.
  intros Hv Hm. unfold Matcher.by_basename.
  apply total_checked_bind. eapply runs_mono; [by eapply remaining_sources_spec|].
  intros remaining (Hnd & _ & Hrem). cbv beta. apply total_checked_bind.
  rewrite (mt_sources _ _ _ _ Hm).
  eapply runs_mono; [apply names_of_spec; by intros s [? _]%Hrem|].
  intros source_by_name _. cbv beta. apply total_checked_bind.
  eapply runs_mono; [by eapply remaining_destinations_spec|].
  intros others (_ & _ & Hoth). cbv beta. apply total_checked_bind.
  rewrite (mt_destinations _ _ _ _ Hm).
  eapply runs_mono; [apply names_of_spec; by intros d [? _]%Hoth|].
  intros destination_by_name Hnames. cbv beta.
  eapply (total_for_call E _ _ (λ done m' st',
    phase (λ r, (BASENAME_SCORE ≤ score r)%N) st m m' st' ∧
    ∀ r, renamed m' r → source r ∈ remaining → source r ∈ done)).
  - split; [by apply phase_refl|]. intros r Hr [_ Hs]%Hrem.
    pose proof (mt_used _ _ _ _ Hm r Hr). congruence.
  - intros done s rest m1 st1 Hxs [Hph Hdone].
    assert (Hs : s ∈ remaining) by (rewrite Hxs; set_solver).
    eapply total_mono.
    { apply basename_one_spec; [by eapply phase_valid|apply Hph|by apply Hrem| |].
      - intros r Hr <-. specialize (Hdone r Hr Hs). rewrite Hxs in Hnd.
        apply NoDup_app in Hnd as (_ & Hdisj & _). apply (Hdisj _ Hdone). by left.
      - intros name d ?%Hnames. by apply Hoth. }
    intros m2 st2 Hph2. split.
    + eapply phase_trans; [done|]. destruct Hph2 as [? ? ? Hnew]. split; [done..|].
      intros r [?|[? _]]%Hnew; auto.
    + intros r Hr Hin. apply elem_of_app.
      apply (ph_new _ _ _ _ _ Hph2) in Hr as [Hr|[_ ->]]; [left; auto|right; by left].
  - by intros m' st' [? _].
Qed.

(** ** The candidates of a destination *)

(** A candidate of [d] among [remaining]. *)
Definition candidate_of K (remaining : list nat) (d : nat) (c : Candidate) : Prop :=
  c_destination c = Some d ∧ c_source c ∈ remaining ∧
  similar srcs dsts K (c_source c) d (c_score c).

(** The sources of the candidates that are not the placeholder. *)
Definition real_sources (kept : list Candidate) : list nat :=
  c_source <$> filter (λ c, is_Some (c_destination c)) kept.

(** [s] was a candidate and all that are left are as good. *)
Definition outdone K (kept : list Candidate) (s d : nat) : Prop :=
  ∃ v, similar srcs dsts K s d v ∧
       ∀ c, c ∈ kept → is_Some (c_destination c) ∧ (v ≤ c_score c)%N.

Record best_candidates K (remaining : list nat) (d : nat) (kept : list Candidate) : Prop := {
  bc_length : length kept = CANDIDATES_PER_DESTINATION;
  bc_candidate c : c ∈ kept → c = UNUSED ∨ candidate_of K remaining d c;
  bc_nodup : NoDup (real_sources kept);
  bc_all s : s ∈ remaining →
    (∃ c, c ∈ kept ∧ c_destination c = Some d ∧ c_source c = s) ∨ outdone K kept s d }.

Lemma best_candidates_knows K K' remaining d kept :
  knows K K' → best_candidates K remaining d kept → best_candidates K' remaining d kept.
Proof.
  intros HK []. split; [done| |done|].
  - intros c [->|(? & ? & ?)]%bc_candidate0; [by left|right].
    split_and!; eauto using similar_knows.
  - intros s [?|(v & ? & ?)]%bc_all0; [by left|right]. exists v. eauto using similar_knows.
Qed.

Lemma rank_le_real a b :
  is_Some (c_destination a) → (rank a ≤ rank b)%Z →
  is_Some (c_destination b) ∧ (c_score a ≤ c_score b)%N.
Proof.
  intros [da Ha]. unfold rank. rewrite Ha.
  destruct (c_destination b); destruct (c_same_basename a);
    try destruct (c_same_basename b); intros; split; try done; lia.
Qed.

Lemma best_candidates_step K seen d kept kept' out c :
  best_candidates K seen d kept → c_source c ∉ seen → candidate_of K (seen ++ [c_source c]) d c →
  length kept' = length kept → c :: kept ≡ₚ out :: kept' →
  (∀ k, k ∈ kept' → (rank out ≤ rank k)%Z) →
  best_candidates K (seen ++ [c_source c]) d kept'.
Proof.
  intros [Hlen Hcand Hnd Hall] Hnew Hc Hlen' Hperm Hle.
  assert (Hin : ∀ k, k ∈ c :: kept ↔ k ∈ out :: kept') by (intros k; by rewrite Hperm).
  assert (Hc' : ∀ k, k ∈ c :: kept → k = UNUSED ∨ candidate_of K (seen ++ [c_source c]) d k).
  { intros k [->|Hk]%elem_of_cons; [by right|].
    destruct (Hcand k Hk) as [?|(? & ? & ?)]; [by left|right].
    split_and!; [done|apply elem_of_app; by left|done]. }
  assert (Hout : ∀ v, (v ≤ c_score out)%N → is_Some (c_destination out) →
            ∀ k, k ∈ kept' → is_Some (c_destination k) ∧ (v ≤ c_score k)%N).
  { intros v Hv Hreal k Hk. destruct (rank_le_real out k Hreal (Hle k Hk)). split; [done|lia]. }
  split.
  - by rewrite Hlen'.
  - intros k Hk. apply Hc', Hin. by right.
  - assert (NoDup (real_sources (c :: kept))) as Hnd'.
    { destruct Hc as (Hd & _). unfold real_sources. rewrite filter_cons_True by (by rewrite Hd).
      simpl. apply NoDup_cons. split; [|done].
      intros (k & Hks & [Hk1 Hk2]%list_elem_of_filter)%list_elem_of_fmap. apply Hnew.
      destruct (Hcand k Hk2) as [->|(? & ? & ?)]; [by destruct Hk1|by rewrite Hks]. }
    unfold real_sources in *. rewrite Hperm, filter_cons in Hnd'. case_decide; [|done].
    simpl in Hnd'. by apply NoDup_cons in Hnd' as [_ ?].
  - intros s [Hs| ->%list_elem_of_singleton]%elem_of_app.
    + destruct (Hall s Hs) as [(k & Hk & Hd & Hks)|(v & Hv & Hk)].
      * assert (k ∈ out :: kept') as [->|]%elem_of_cons by (apply Hin; by right); [right|by left; exists k].
        exists (c_score out). split; [|by apply Hout; [..|rewrite Hd]].
        destruct (Hcand out Hk) as [->|(_ & _ & Hsim)]; [done|by rewrite <- Hks].
      * right. exists v. split; [done|]. intros k Hk'.
        assert (k ∈ c :: kept) as [->|Hkk]%elem_of_cons by (apply Hin; by right); [|by apply Hk].
        assert (out ∈ c :: kept) as [->|Ho]%elem_of_cons by (apply Hin; by left).
        -- apply Permutation_cons_inv in Hperm. apply Hk. by rewrite Hperm.
        -- destruct (Hk out Ho). by eapply Hout.
    + assert (c ∈ out :: kept') as [->|Hk]%elem_of_cons by (apply Hin; by left).
      * right. destruct Hc as (Hd & _ & Hsim). exists (c_score out).
        split; [done|]. by apply Hout; [..|rewrite Hd].
      * left. exists c. by destruct Hc.
Qed.

Lemma kept_candidates_spec m remaining d st :
  valid st → matching srcs dsts (known st) m → NoDup remaining →
  (∀ s, s ∈ remaining → s < length srcs) → d < length dsts →
  total E (Matcher.kept_candidates m remaining d) st (λ kept st',
    grows st st' ∧ best_candidates (known st') remaining d kept).
Proof.
  intros Hv Hm Hnd Hlt Hd. unfold Matcher.kept_candidates.
  eapply (total_for_call E _ _ (λ seen kept st',
    grows st st' ∧ best_candidates (known st') seen d kept)).
  - split; [by apply grows_refl|]. split.
    + by rewrite length_replicate.
    + intros c [-> _]%elem_of_replicate. by left.
    + unfold real_sources. simpl. constructor.
    + by intros s ?%elem_of_nil.
  - intros seen s rest kept st1 Hxs [Hg Hbest].
    assert (Hs : s < length srcs) by (apply Hlt; rewrite Hxs; set_solver).
    assert (Hnew : s ∉ seen).
    { rewrite Hxs in Hnd. apply NoDup_app in Hnd as (_ & Hdisj & _).
      intros Hin. apply (Hdisj _ Hin). by left. }
    destruct (lookup_lt_is_Some_2 srcs s Hs) as [ss Hss].
    destruct (lookup_lt_is_Some_2 dsts d Hd) as [ds Hds].
    rewrite (mt_sources _ _ _ _ Hm), (mt_destinations _ _ _ _ Hm), Hss, Hds.
    do 2 (apply total_checked_bind; cbn [runs]).
    eapply total_bind; [by apply similarity_spec; [apply Hg|..]|].
    cbv beta. intros v st2 (Hg2 & Hsim & _).
    apply (best_candidates_knows _ _ _ _ _ (proj2 Hg2)) in Hbest.
    apply total_checked. set (c := mkCandidate _ _ _ _).
    eapply runs_mono; [apply (keep_if_better_spec kept c)|].
    { intros ->. by apply bc_length in Hbest. }
    intros kept' (Hlen & out & Hperm & Hle). split; [by eapply grows_trans|].
    change s with (c_source c). eapply best_candidates_step; try done.
    split_and!; [done|set_solver|]. exists ss, ds. by split_and!.
  - done.
Qed.

(** ** Taking the candidates in order *)

Definition real_candidate K (c : Candidate) : Prop :=
  ∀ d, c_destination c = Some d →
    c_source c < length srcs ∧ d < length dsts ∧ similar srcs dsts K (c_source c) d (c_score c).

(** A candidate is taken, or one of its sides was before. *)
Definition answered m m' (c : Candidate) : Prop :=
  ∀ d, c_destination c = Some d → (DEFAULT_RENAME_SCORE ≤ c_score c)%N →
    ∃ r, renamed m' r ∧ (source r = c_source c ∨ destination r = d) ∧
         (renamed m r ∨ (c_score c ≤ score r)%N).

Lemma take_candidates_spec K matrix m :
  matching srcs dsts K m → StronglySorted (λ a b, (rank b ≤ rank a)%Z) matrix →
  (∀ c, c ∈ matrix → real_candidate K c) →
  runs (Matcher.take_candidates matrix m) (λ m',
    matching srcs dsts K m' ∧ extends m m' ∧
    (∀ r, renamed m' r → renamed m r ∨ (DEFAULT_RENAME_SCORE ≤ score r)%N) ∧
    ∀ c, c ∈ matrix → answered m m' c).
Proof.
  revert m. induction matrix as [|c matrix IH]; intros m Hm Hsort Hreal; simpl.
  { split_and!; [done..|auto|]. by intros c ?%elem_of_nil. }
  apply StronglySorted_cons in Hsort as [Hle Hsort]. rewrite Forall_forall in Hle.
  assert (Hreal' : ∀ c', c' ∈ matrix → real_candidate K c') by (intros; apply Hreal; by right).
  assert (Hstop : (∀ d, c_destination c = Some d → (c_score c < DEFAULT_RENAME_SCORE)%N) →
    matching srcs dsts K m ∧ extends m m ∧
    (∀ r, renamed m r → renamed m r ∨ (DEFAULT_RENAME_SCORE ≤ score r)%N) ∧
    ∀ c', c' ∈ c :: matrix → answered m m c').
  { intros Hlow. split_and!; [done..|auto|]. intros c' Hc' d Hd Hscore. exfalso.
    assert (is_Some (c_destination c) ∧ (c_score c' ≤ c_score c)%N) as [[d' Hd'] Hle'].
    { apply elem_of_cons in Hc' as [->|Hc']; [by rewrite Hd|].
      apply rank_le_real; [by rewrite Hd|auto]. }
    specialize (Hlow d' Hd'). lia. }
  destruct (c_destination c) as [d|] eqn:Hd; [|by apply Hstop].
  destruct (N.ltb_spec (c_score c) DEFAULT_RENAME_SCORE) as [|Hscore]; [by apply Hstop|].
  clear Hstop. destruct (Hreal c ltac:(by left) d Hd) as (Hs & Hdlt & Hsim).
  assert (Hlater : ∀ m1 r, renamed m1 r → extends m m1 →
    (source r = c_source c ∨ destination r = d) → (renamed m r ∨ (c_score c ≤ score r)%N) →
    (∀ r, renamed m1 r → renamed m r ∨ r = mkRename (c_source c) d (c_score c)) →
    matching srcs dsts K m1 →
    runs (Matcher.take_candidates matrix m1) (λ m',
      matching srcs dsts K m' ∧ extends m m' ∧
      (∀ r, renamed m' r → renamed m r ∨ (DEFAULT_RENAME_SCORE ≤ score r)%N) ∧
      ∀ c', c' ∈ c :: matrix → answered m m' c')).
  { intros m1 r Hr Hext1 Hside Hold Hcase Hm1. eapply runs_mono; [by apply IH|].
    intros m' (Hm' & Hext & Hnew & Hans). split_and!; [done|by etrans| |].
    - intros r' [[?| ->]%Hcase|?]%Hnew; [by left|right; simpl; lia|by right].
    - intros c' [->|Hc']%elem_of_cons d' Hd' Hscore'.
      + simplify_eq. exists r. auto.
      + destruct (Hans c' Hc' d' Hd' Hscore') as (r' & Hr' & Hside' & [Hold'|?]).
        * exists r'. split_and!; [done..|].
          apply Hcase in Hold' as [?| ->]; [by left|right]. simpl.
          apply (rank_le_real c' c); [by rewrite Hd'|auto].
        * exists r'. auto. }
  destruct (destination_lookup _ _ d Hm Hdlt) as [o Ho]. rewrite Ho. cbn [mbind option_bind].
  destruct o as [r|].
  { rewrite bool_decide_true by done. cbn [mbind option_bind].
    pose proof (mt_dest _ _ _ _ Hm _ _ Ho) as Hdr.
    assert (renamed m r) as Hr by (unfold renamed; by rewrite Hdr).
    apply (Hlater m r); try done; auto. }
  rewrite bool_decide_false by (by intros []).
  destruct (lookup_lt_is_Some_2 (source_used m) (c_source c)) as [used Hused].
  { by rewrite (mt_used_len _ _ _ _ Hm). }
  rewrite Hused. cbn [mbind option_bind]. destruct used.
  { destruct (mt_used_inv _ _ _ _ Hm _ Hused) as (r & Hr & Hsrc).
    apply (Hlater m r); try done; auto. }
  eapply runs_bind.
  { apply (record_spec srcs dsts K); [done..|]. by right. }
  intros m1 (Hm1 & Hext & Hnew & Hcase).
  apply (Hlater m1 (mkRename (c_source c) d (c_score c))); simpl; auto.
Qed.

(** [d] is taken, or all the candidates it kept are. *)
Definition settled m' (s d : nat) (v : N) : Prop :=
  (∃ r, renamed m' r ∧ (source r = s ∨ destination r = d) ∧ (v ≤ score r)%N) ∨
  ∃ kept : list nat, length kept = CANDIDATES_PER_DESTINATION ∧ NoDup kept ∧ s ∉ kept ∧
    ∀ s', s' ∈ kept → ∃ r, renamed m' r ∧ source r = s' ∧ (v ≤ score r)%N.

Lemma settled_candidates K m m' remaining d s v kept :
  matching srcs dsts K m' →
  best_candidates K remaining d kept → s ∈ remaining →
  (∀ s' r, s' ∈ remaining → renamed m r → source r ≠ s') →
  (∀ r, renamed m r → destination r ≠ d) →
  (∀ c, c ∈ kept → answered m m' c) →
  similar srcs dsts K s d v → (DEFAULT_RENAME_SCORE ≤ v)%N → settled m' s d v.
Proof.
  intros Hm' Hbest Hs Hfree Hfreed Hans Hsim Hv.
  assert (Hfun : ∀ w, similar srcs dsts K s d w → w = v).
  { intros w (ss & ds & Hss & Hds & Hw). destruct Hsim as (ss' & ds' & Hss' & Hds' & Hv').
    simplify_eq. congruence. }
  assert (Hc : ∀ c, c ∈ kept → c_destination c = Some d → c_source c ∈ remaining →
            (v ≤ c_score c)%N →
            ∃ r, renamed m' r ∧ (source r = c_source c ∨ destination r = d) ∧ (v ≤ score r)%N).
  { intros c Hc Hd Hin Hle.
    destruct (Hans c Hc d Hd) as (r & Hr & Hside & [Hold|?]); [lia| |].
    - destruct Hside as [Hside|Hside]; [by destruct (Hfree _ _ Hin Hold)|].
      by destruct (Hfreed _ Hold).
    - exists r. split_and!; [done..|lia]. }
  destruct (bc_all _ _ _ _ Hbest s Hs) as [(c & Hck & Hd & <-)|(w & Hw & Hall)].
  - left. apply (Hc c Hck Hd Hs).
    destruct (bc_candidate _ _ _ _ Hbest c Hck) as [->|(_ & _ & Hw)]; [done|].
    by rewrite (Hfun _ Hw).
  - apply Hfun in Hw as ->.
    assert (Hreal : ∀ c, c ∈ kept → candidate_of K remaining d c).
    { intros c Hck. destruct (bc_candidate _ _ _ _ Hbest c Hck) as [->|]; [|done].
      by destruct (Hall _ Hck) as [[? ?] _]. }
    assert (Hsrc : real_sources kept = c_source <$> kept).
    { unfold real_sources. f_equal. clear -Hall. induction kept as [|c kept IH]; [done|].
      rewrite filter_cons_True by (apply Hall; by left).
      rewrite IH; [done|]. intros. apply Hall. by right. }
    destruct (decide (s ∈ c_source <$> kept)) as [(c & -> & Hck)%list_elem_of_fmap|Hnotin].
    { left. destruct (Hreal c Hck) as (? & ? & _). apply (Hc c); [done..|]. by apply Hall. }
    assert (Hany : ∀ c, c ∈ kept → (∃ r, renamed m' r ∧ destination r = d ∧ (v ≤ score r)%N) ∨
              ∃ r, renamed m' r ∧ source r = c_source c ∧ (v ≤ score r)%N).
    { intros c Hck. destruct (Hreal c Hck) as (Hd & Hin & _).
      destruct (Hc c Hck Hd Hin) as (r & Hr & [?|?] & ?); [by apply Hall|right|left]; eauto. }
    destruct (renames m' !! d) as [[r|]|] eqn:Ho;
      [destruct (decide (v ≤ score r)%N) as [|Hlow]|..].
    { left. exists r. pose proof (mt_dest _ _ _ _ Hm' _ _ Ho) as Hdr. split_and!; [|by right|done].
      unfold renamed. by rewrite Hdr. }
    all: right; exists (c_source <$> kept).
    all: split_and!; [by rewrite length_fmap; apply Hbest| |done|];
      [rewrite <- Hsrc; apply Hbest|].
    all: intros s' (c & -> & Hck)%list_elem_of_fmap.
    all: destruct (Hany c Hck) as [(r' & Hr' & Hd' & Hle)|?]; [|done].
    all: unfold renamed in Hr'; rewrite Hd', Ho in Hr'; simplify_eq; done.
Qed.

(** A pair that is similar enough is settled, with the score of the second phase as
    the bound for renames that were found before. *)
Definition similar_complete K m m' : Prop := ∀ s d,
  s < length srcs → d < length dsts →
  (∀ r, renamed m r → source r ≠ s ∧ destination r ≠ d) →
  ∃ v, similar srcs dsts K s d v ∧ ((DEFAULT_RENAME_SCORE ≤ v)%N → settled m' s d v).

Lemma by_similarity_spec limit m st :
  valid st → matching srcs dsts (known st) m →
  total E (Matcher.by_similarity limit m) st (λ m' st',
    phase (λ r, (DEFAULT_RENAME_SCORE ≤ score r)%N) st m m' st' ∧
    (exceeds_limit (length dsts) (length srcs) limit = false → similar_complete (known st') m m')).
Proof.
  intros Hv Hm. unfold Matcher.by_similarity.
  apply total_checked_bind. eapply runs_mono; [by eapply remaining_sources_spec|].
  intros remaining (Hnd & Hlen & Hrem). cbv beta. apply total_checked_bind.
  eapply runs_mono; [by eapply remaining_destinations_spec|].
  intros others (Hndo & Hleno & Hoth). cbv beta.
  assert (Hin : ∀ s d, s < length srcs → d < length dsts →
    (∀ r, renamed m r → source r ≠ s ∧ destination r ≠ d) → s ∈ remaining ∧ d ∈ others).
  { intros s d Hs Hd Hfree. rewrite Hrem, Hoth. split_and!; try done.
    - eapply source_free; [done..|]. intros r Hr. by apply Hfree.
    - eapply destination_free; [done..|]. intros r Hr. by apply Hfree. }
  destruct ((length remaining =? 0) || (length others =? 0)) eqn:Hempty.
  { split; [by apply phase_refl|]. intros _ s d Hs Hd Hfree. destruct (Hin s d Hs Hd Hfree).
    by destruct remaining, others; set_solver. }
  destruct (exceeds_limit (length others) (length remaining) limit) eqn:Hlimit.
  { split; [by apply phase_refl|]. unfold exceeds_limit in *. intros Hfalse.
    apply andb_true_iff in Hlimit as [Hpos Hlt]. rewrite Hpos in Hfalse. simpl in Hfalse.
    apply N.ltb_lt in Hlt. apply N.ltb_ge in Hfalse. nia. }
  clear Hempty Hlimit.
  eapply total_bind.
  { eapply (total_for_call E _ _ (λ done matrix st', grows st st' ∧
      (∀ c, c ∈ matrix → c = UNUSED ∨ ∃ d, d ∈ others ∧ candidate_of (known st') remaining d c) ∧
      ∀ d, d ∈ done → ∃ kept, best_candidates (known st') remaining d kept ∧
        ∀ c, c ∈ kept → c ∈ matrix)).
    - split_and!; [by apply grows_refl|by intros c ?%elem_of_nil|by intros d ?%elem_of_nil].
    - intros done d rest matrix st1 Hxs (Hg & Hmat & Hdone).
      assert (Hdo : d ∈ others) by (rewrite Hxs; set_solver).
      eapply total_bind.
      { apply kept_candidates_spec; [apply Hg|by eapply matching_grows|done| |by apply Hoth].
        by intros s [? _]%Hrem. }
      cbv beta. intros kept st2 [Hg2 Hbest]. apply total_ret.
      split_and!; [by eapply grows_trans| |].
      + intros c [Hc|Hc]%elem_of_app.
        * destruct (Hmat c Hc) as [?|(d' & Hd' & ? & ? & ?)]; [by left|right].
          exists d'. split; [done|]. split_and!; [done..|].
          eapply similar_knows; [apply Hg2|done].
        * destruct (bc_candidate _ _ _ _ Hbest c Hc); [by left|right]. by exists d.
      + intros d' [Hd'| ->%list_elem_of_singleton]%elem_of_app.
        * destruct (Hdone d' Hd') as (kept' & Hb & Hk). exists kept'.
          split; [by eapply best_candidates_knows; [apply Hg2|]|].
          intros c Hc. apply elem_of_app. left. auto.
        * exists kept. split; [done|]. intros c Hc. apply elem_of_app. by right.
    - intros matrix st1 H1. exact H1. }
  cbv beta. intros matrix st1 (Hg & Hmat & Hall).
  destruct (sort_by_spec matrix) as [Hperm Hsort].
  pose proof (matching_grows _ _ _ Hg Hm) as Hm1.
  apply total_checked. eapply runs_mono; [apply take_candidates_spec; [done..|]|].
  { intros c Hc d Hd. rewrite Hperm in Hc.
    destruct (Hmat c Hc) as [->|(d' & Hd' & Hcd & Hs & Hsim)]; [done|].
    simplify_eq. split_and!; [by apply Hrem|by apply Hoth|done]. }
  intros m' (Hm' & Hext & Hnew & Hans). split; [by split|].
  intros _ s d Hs Hd Hfree. destruct (Hin s d Hs Hd Hfree) as [Hsr Hdo].
  destruct (Hall d Hdo) as (kept & Hbest & Hkept).
  assert (∃ v, similar srcs dsts (known st1) s d v) as [v Hsim].
  { destruct (bc_all _ _ _ _ Hbest s Hsr) as [(c & Hc & Hcd & <-)|(v & ? & _)]; [|by exists v].
    destruct (bc_candidate _ _ _ _ Hbest c Hc) as [->|(_ & _ & ?)]; [done|by eexists]. }
  exists v. split; [done|]. intros Hscore.
  eapply settled_candidates; try done.
  - intros s' r [_ Hs']%Hrem Hr <-. pose proof (mt_used _ _ _ _ Hm r Hr). congruence.
  - intros r Hr. by apply Hfree.
  - intros c Hc. apply Hans. rewrite Hperm. auto.
Qed.

(** ** The whole algorithm *)

Lemma matching_pairing K m :
  matching srcs dsts K m → pairing srcs dsts K (omap (λ r, r) (renames m)) ∧
    ∀ r, r ∈ omap (λ r, r) (renames m) ↔ renamed m r.
Proof.
  intros Hm. destruct (omap_renames 0 (renames m)) as [Hsort Hin].
  { intros d r Hr. by apply (mt_dest _ _ _ _ Hm). }
  assert (Hren : ∀ r, r ∈ omap (λ r, r) (renames m) ↔ renamed m r).
  { intros r. rewrite Hin. split; [|by eexists].
    intros [d Hr]. unfold renamed. by rewrite (mt_dest _ _ _ _ Hm _ _ Hr). }
  split; [|done]. split; [done| |].
  - apply NoDup_fmap_2_strong.
    + intros r r' Hr Hr'. apply (mt_inj _ _ _ _ Hm); by apply Hren.
    + apply (NoDup_fmap_1 destination).
      eapply StronglySorted_NoDup; [|done]. lia.
  - intros r Hr. by apply (mt_justified _ _ _ _ Hm), Hren.
Qed.

Lemma pair_spec limit st :
  valid st →
  total E (pair srcs dsts limit) st (λ rs st',
    grows st st' ∧ pairing srcs dsts (known st') rs ∧ covers_identical srcs dsts (known st') rs ∧
    (exceeds_limit (length dsts) (length srcs) limit = false →
     covers_similar srcs dsts (known st') rs)).
Proof.
  intros Hv. unfold pair. cbv zeta. fold (start srcs dsts).
  destruct ((length srcs =? 0) || (length dsts =? 0)) eqn:Hempty.
  { apply total_ret. split_and!; [by apply grows_refl|split; try by constructor| |].
    - by intros r ?%elem_of_nil.
    - intros s d (ss & ds & _ & Hs%lookup_lt_Some & Hd%lookup_lt_Some & _).
      apply orb_true_iff in Hempty as [?%Nat.eqb_eq|?%Nat.eqb_eq]; lia.
    - intros _ s d Hs Hd. apply orb_true_iff in Hempty as [?%Nat.eqb_eq|?%Nat.eqb_eq]; lia. }
  assert (Hnone : ∀ r, ¬ renamed (start srcs dsts) r).
  { intros r Hr. by apply lookup_replicate_1 in Hr as [? _]. }
  eapply total_bind; [by apply exact_spec; [|apply start_matching|]|].
  cbv beta. intros m1 st1 (Hph1 & Hids & Hexact).
  eapply total_bind; [by apply by_basename_spec; [eapply phase_valid|apply Hph1]|].
  cbv beta. intros m2 st2 Hph2.
  eapply total_bind; [by apply by_similarity_spec; [eapply phase_valid|apply Hph2]|].
  cbv beta. intros m3 st3 [Hph3 Hsimilar]. apply total_ret.
  destruct (matching_pairing (known st3) m3) as [Hpair Hin]; [apply Hph3|].
  pose proof (proj2 (ph_grows _ _ _ _ _ Hph2)) as Hk2.
  pose proof (proj2 (ph_grows _ _ _ _ _ Hph3)) as Hk3.
  split_and!; [|done| |].
  - eapply grows_trans; [apply Hph1|]. eapply grows_trans; [apply Hph2|apply Hph3].
  - intros s d Hident.
    destruct (blocks_extends m1 m3 s d) as (r & Hr & Hside).
    + by etrans; [apply Hph2|apply Hph3].
    + apply Hexact. destruct Hident as (ss & ds & Hrest). pose proof Hrest as (id & Hss & Hds & _).
      apply (identical_back _ (known st3)).
      * by etrans.
      * apply Hids. by eapply lookup_lt_Some.
      * apply Hids. by eapply lookup_lt_Some.
      * by exists ss, ds.
    + exists r. split_and!; [by apply Hin|done|lia].
  - intros Hlimit s d Hs Hd.
    pose proof (ph_matching _ _ _ _ _ Hph2) as Hm2.
    assert (Hearly : ∀ r, renamed m2 r → source r = s ∨ destination r = d →
              answered_by (omap (λ r, r) (renames m3)) s d BASENAME_SCORE).
    { intros r Hr Hside. exists r. split_and!; [by apply Hin, (ph_extends _ _ _ _ _ Hph3)|done|].
      destruct (ph_new _ _ _ _ _ Hph2 r Hr) as [Hr1|]; [|done].
      destruct (ph_new _ _ _ _ _ Hph1 r Hr1) as [?%Hnone|Hscore]; [done|]. by rewrite Hscore. }
    destruct (source_used m2 !! s) as [[]|] eqn:Hused.
    + left. destruct (mt_used_inv _ _ _ _ Hm2 s Hused) as (r & Hr & Hsrc). eauto.
    + destruct (destination_lookup _ _ d Hm2 Hd) as [[r|] Ho].
      { left. pose proof (mt_dest _ _ _ _ Hm2 _ _ Ho) as Hdest. apply (Hearly r); [|by right].
        unfold renamed. by rewrite Hdest. }
      right. destruct (Hsimilar Hlimit s d Hs Hd) as (v & Hv' & Hsettled).
      { intros r Hr. split; intros <-; [|unfold renamed in Hr; congruence].
        pose proof (mt_used _ _ _ _ Hm2 r Hr). congruence. }
      exists v. split; [done|]. intros Hscore.
      destruct (Hsettled Hscore) as [(r & Hr & ? & ?)|(others & ? & ? & ? & Hall)].
      * left. exists r. by rewrite Hin.
      * right. exists others. split_and!; [done..|]. intros s' Hs'.
        destruct (Hall s' Hs') as (r & ? & ? & ?). exists r. by rewrite Hin.
    + apply lookup_ge_None in Hused. rewrite (mt_used_len _ _ _ _ Hm2) in Hused. lia.
Qed.
End phases.
