(* ===== verification/GitContents.v ===== *)
(** * Contents read from the repository

    [RepositoryContents] of [paneflow-git/src/renames.rs]: what the two sides of a
    comparison hold, read from the object database or the worktree and kept in
    [Prepared] once read.  The functions of the crate [gix] and of the file system
    are the class [Repository].  Their answers depend on everything asked before,
    the [history]: files may change between two calls. *)

From stdpp Require Import gmap list strings.
From S2P Require Import Prelude GitTypes GitRenames.

(** [gix::object::Kind], and the type of a file. *)
Inductive Kind := Blob | Tree | Commit | Tag.
Inductive FileType := Symlink | File | OtherType.

#[export] Instance Kind_eq_dec : EqDecision Kind.
Proof. solve_decision. Defined.

(** [ToGitOutcome] with what reading it to the end gives, [None] on an error. *)
Inductive ToGitOutcome :=
  | Unchanged (read : option bytes)
  | Process (read : option bytes)
  | Buffer (buffer : bytes).

(** [gix::attrs::StateRef]. *)
Inductive StateRef := Set_ | Unset | Value (driver : bytes) | Unspecified.

(** What the system was asked. *)
Inductive Event :=
  | AskMetadata (path : bytes) | AskLink (path : bytes) | AskOpen (path : bytes)
  | AskPipeline | AskAttributes | AskConvert (path : bytes) | AskEntry (path : bytes)
  | AskHeader | AskObject.

Class Repository (ObjectId : Type) := {
  workdir : bool;
  from_bstr : bytes → option bytes;
  from_hex : bytes → result ObjectId string;
  compute_hash : bytes → result ObjectId string;
  symlink_metadata : list Event → bytes → option FileType;
  read_link : list Event → bytes → option bytes;
  open_file : list Event → bytes → bool;
  filter_pipeline : list Event → result unit string;
  attributes_only : list Event → result unit string;
  convert_to_git : list Event → bytes → result ToGitOutcome string;
  at_entry : list Event → bytes → result (list StateRef) string;
  config_boolean : bytes → option bool;
  try_find_header : list Event → ObjectId → result (option (Kind * N)) string;
  try_find_object : list Event → ObjectId → result (option (Kind * bytes)) string }.

Record Prepared (ObjectId : Type) := mkPrepared {
  p_identity : option (option ObjectId);
  p_size : option (option N);
  p_spans : option (option Spans);
  p_pending : option bytes }.
Arguments mkPrepared {ObjectId}.
Arguments p_identity {ObjectId}.
Arguments p_size {ObjectId}.
Arguments p_spans {ObjectId}.
Arguments p_pending {ObjectId}.

(** [Prepared::default()]. *)
Definition Prepared_default {ObjectId} : Prepared ObjectId := mkPrepared None None None None.

Definition set_p_identity {ObjectId} v (p : Prepared ObjectId) : Prepared ObjectId :=
  mkPrepared v (p_size p) (p_spans p) (p_pending p).
Definition set_p_size {ObjectId} v (p : Prepared ObjectId) : Prepared ObjectId :=
  mkPrepared (p_identity p) v (p_spans p) (p_pending p).
Definition set_p_spans {ObjectId} v (p : Prepared ObjectId) : Prepared ObjectId :=
  mkPrepared (p_identity p) (p_size p) v (p_pending p).
Definition set_p_pending {ObjectId} v (p : Prepared ObjectId) : Prepared ObjectId :=
  mkPrepared (p_identity p) (p_size p) (p_spans p) v.

(** The worktree is prepared or not; [history] is what was asked so far. *)
Record RepositoryContents (ObjectId : Type) := mkContents {
  sides : list (list RenameSide);
  prepared : list (list (Prepared ObjectId));
  worktree : bool;
  history : list Event }.
Arguments mkContents {ObjectId}.
Arguments sides {ObjectId}.
Arguments prepared {ObjectId}.
Arguments worktree {ObjectId}.
Arguments history {ObjectId}.

Definition slot (role : Role) : nat :=
  match role with Source => 0 | Destination => 1 end.

Module RepositoryContents.
Section calls.
Context {ObjectId : Type} `{!Repository ObjectId}.
Notation t := (RepositoryContents ObjectId).

Definition new (sources destinations : list RenameSide) : t :=
  mkContents [sources; destinations]
    [(λ _, Prepared_default) <$> sources; (λ _, Prepared_default) <$> destinations] false [].

(** A question to the system. *)
Definition ask {A} (event : Event) (answer : list Event → A) : call t A := λ st,
  Some (Ok (answer (history st)),
        mkContents (sides st) (prepared st) (worktree st) (event :: history st)).

(** [.map_err(|error| Error::git(context, error))?]. *)
Definition or_error {A} (context : string) (r : result A string) : call t A := λ st,
  match r with
  | Ok a => Some (Ok a, st)
  | Err message => Some (Err (Git context message), st)
  end.

Definition side (role : Role) (index : nat) : call t RenameSide := λ st,
  checked (sides st !! slot role ≫= (λ l, l !! index)) st.

(** [self.prepared[slot(role)][index]], read and written. *)
Definition get (role : Role) (index : nat) : call t (Prepared ObjectId) := λ st,
  checked (prepared st !! slot role ≫= (λ l, l !! index)) st.

Definition put (role : Role) (index : nat) (f : Prepared ObjectId → Prepared ObjectId) :
    call t unit := λ st,
  l ← prepared st !! slot role;
  p ← l !! index;
  Some (Ok (), mkContents (sides st) (<[slot role := <[index := f p]> l]> (prepared st))
                 (worktree st) (history st)).

(** [self.worktree = Some(..)]. *)
Definition set_worktree : call t unit := λ st,
  Some (Ok (), mkContents (sides st) (prepared st) true (history st)).

Definition is_prepared : call t bool := λ st, Some (Ok (worktree st), st).

(** [worktree()]. *)
Definition prepare_worktree : call t unit :=
  ready ← is_prepared;
  if (ready : bool) then mret ()
  else
    answer ← ask AskPipeline filter_pipeline;
    _ ← or_error "prepare the worktree conversion" answer;
    answer ← ask AskAttributes attributes_only;
    _ ← or_error "prepare the diff attributes" answer;
    set_worktree.

Definition read_worktree (side : RenameSide) : call t (option bytes) :=
  if negb workdir then mret None
  else or_return (from_bstr (path side)) None (λ relative,
    metadata ← ask (AskMetadata relative) (λ h, symlink_metadata h relative);
    or_return metadata None (λ file_type,
      match file_type with
      | Symlink => ask (AskLink relative) (λ h, read_link h relative)
      | OtherType => mret None
      | File =>
          opened ← ask (AskOpen relative) (λ h, open_file h relative);
          if negb opened then mret None
          else
            _ ← prepare_worktree;
            converted ← ask (AskConvert relative) (λ h, convert_to_git h relative);
            converted ← or_error "convert a worktree file" converted;
            mret (match converted with
                  | Unchanged read => read
                  | Process read => read
                  | Buffer buffer => Some buffer
                  end)
      end)).

Definition stored (id : ObjectId) : call t (option bytes) :=
  answer ← ask AskObject (λ h, try_find_object h id);
  object ← or_error "read an object" answer;
  or_return object None (λ '(kind, data),
    mret (if bool_decide (kind = Blob) then Some data else None)).

Definition is_binary (side : RenameSide) (data : bytes) : call t bool :=
  _ ← prepare_worktree;
  answer ← ask (AskEntry (path side)) (λ h, at_entry h (path side));
  states ← or_error "read the diff attributes" answer;
  let driver_binary := mjoin (head (omap (λ state,
    match state with
    | Unset => Some (Some true)
    | Value driver => Some (config_boolean driver)
    | Set_ | Unspecified => None
    end) states)) in
  mret (default (sniffs_binary data) driver_binary).

Definition identity (role : Role) (index : nat) : call t (option ObjectId) :=
  p ← get role index;
  match p_identity p with
  | Some identity => mret identity
  | None =>
      s ← side role index;
      identity ←
        match id s with
        | Some id =>
            id ← or_error "parse an object id" (from_hex id);
            mret (Some id)
        | None =>
            data ← read_worktree s;
            match data with
            | Some data =>
                id ← or_error "hash a worktree file" (compute_hash data);
                _ ← put role index (λ p, set_p_pending (Some data)
                      (set_p_size (Some (Some (N.of_nat (length data)))) p));
                mret (Some id)
            | None =>
                _ ← put role index (set_p_size (Some None));
                mret None
            end
        end;
      _ ← put role index (set_p_identity (Some identity));
      mret identity
  end.

Definition size (role : Role) (index : nat) : call t (option N) :=
  p ← get role index;
  match p_size p with
  | Some size => mret size
  | None =>
      s ← side role index;
      identity ← identity role index;
      size ←
        match id s, identity with
        | Some _, Some id =>
            answer ← ask AskHeader (λ h, try_find_header h id);
            header ← or_error "read an object header" answer;
            or_return header None (λ '(kind, size),
              mret (if bool_decide (kind = Blob) then Some size else None))
        | _, _ =>
            p ← get role index;
            mret (mjoin (p_size p))
        end;
      _ ← put role index (set_p_size (Some size));
      mret size
  end.

Definition data (role : Role) (index : nat) : call t (option bytes) :=
  p ← get role index;
  match p_pending p with
  | Some pending =>
      _ ← put role index (set_p_pending None);
      mret (Some pending)
  | None =>
      s ← side role index;
      match id s with
      | None => read_worktree s
      | Some _ =>
          id ← identity role index;
          or_return id None stored
      end
  end.

Definition spans (role : Role) (index : nat) : call t (option Spans) :=
  p ← get role index;
  _ ← match p_spans p with
      | Some _ => mret ()
      | None =>
          s ← side role index;
          data ← data role index;
          spans ←
            match data with
            | Some data =>
                binary ← is_binary s data;
                spans ← checked (span_counts data (negb binary));
                mret (Some spans)
            | None => mret None
            end;
          put role index (set_p_spans (Some spans))
      end;
  p ← get role index;
  mret (mjoin (p_spans p)).
End calls.
End RepositoryContents.

#[export] Instance RepositoryContents_Contents {ObjectId} `{!Repository ObjectId} :
    Contents (RepositoryContents ObjectId) ObjectId := {|
  identity := RepositoryContents.identity;
  size := RepositoryContents.size;
  spans := RepositoryContents.spans |}.

(** [Objects::track_renames]. *)
Definition track_renames {ObjectId} `{Countable ObjectId} `{!Repository ObjectId}
    (sources destinations : list RenameSide) (limit : N) :
    option (result (list Rename) Error) :=
  fst <$> pair (St := RepositoryContents ObjectId) (ObjectId := ObjectId) sources destinations limit
            (RepositoryContents.new sources destinations).
