(* ===== verification/GitContentsCorrect.v ===== *)
(** * The contents read from the repository keep the laws

    [RepositoryContents] satisfies [ContentsLaws] although every answer of the file
    system and of the object database may depend on what was asked before: what is
    read once is kept.  The state counts the files it looked up; it is at most one
    per side ([contents_valid]).  Errors are those of [Error::git] only. *)

From stdpp Require Import gmap list strings.
From S2P Require Import Prelude GitTypes GitRenames GitSpans GitMatch GitContents.

(** What the code relies on: the header of a blob gives the length of the blob, which
    objects never change, and data in memory is shorter than 2^63 bytes. *)
Class RepositoryLaws {ObjectId : Type} (R : Repository ObjectId) := {
  header_size h h' id n data :
    try_find_header h id = Ok (Some (Blob, n)) →
    try_find_object h' id = Ok (Some (Blob, data)) → n = N.of_nat (length data);
  object_in_memory h id kind data :
    try_find_object h id = Ok (Some (kind, data)) → (N.of_nat (length data) < 2 ^ 63)%N;
  link_in_memory h path target :
    read_link h path = Some target → (N.of_nat (length target) < 2 ^ 63)%N;
  file_in_memory h path outcome data :
    convert_to_git h path = Ok outcome →
    (outcome = Unchanged (Some data) ∨ outcome = Process (Some data) ∨ outcome = Buffer data) →
    (N.of_nat (length data) < 2 ^ 63)%N }.

(** The errors of [Error::git]. *)
Definition git_error (e : Error) : Prop := ∃ context message, e = Git context message.

(** The files looked up so far. *)
Definition is_metadata (e : Event) : bool :=
  match e with AskMetadata _ => true | _ => false end.

Definition looked_up (h : list Event) : nat := length (filter is_metadata h).

Section laws.
Context {ObjectId : Type} {R : Repository ObjectId} {RL : RepositoryLaws R}.
Context (srcs dsts : list RenameSide).
Notation t := (RepositoryContents ObjectId).
Implicit Types (st : t) (p : Prepared ObjectId).

Definition role_sides (r : Role) : list RenameSide :=
  match r with Source => srcs | Destination => dsts end.

(** What the worktree answered for a side. *)
Definition read_from (s : RenameSide) (data : bytes) : Prop :=
  ∃ st st' : t, RepositoryContents.read_worktree s st = Some (Ok (Some data), st').

(** What is kept of an object: its size is that of the header, its spans are those of
    its data. *)
Definition object_answers (hex : bytes) (oid : ObjectId) (size : option (option N))
    (spans : option (option Spans)) : Prop :=
  from_hex hex = Ok oid ∧
  (∀ n, size = Some (Some n) → ∃ h, try_find_header h oid = Ok (Some (Blob, n))) ∧
  (∀ sp, spans = Some (Some sp) → ∃ h data text,
     try_find_object h oid = Ok (Some (Blob, data)) ∧
     size = Some (Some (N.of_nat (length data))) ∧ span_counts data text = Some sp).

(** What is kept of a file of the worktree comes from one read of it. *)
Definition file_answers (s : RenameSide) (oid : ObjectId) (size : option (option N))
    (spans : option (option Spans)) (data : bytes) : Prop :=
  read_from s data ∧ compute_hash data = Ok oid ∧
  size = Some (Some (N.of_nat (length data))) ∧
  (∀ sp, spans = Some sp → ∃ sp' text, sp = Some sp' ∧ span_counts data text = Some sp').

(** What is known of a side is what the repository holds. *)
Definition genuine (s : RenameSide) (oid : ObjectId) (size : option (option N))
    (spans : option (option Spans)) : Prop :=
  match id s with
  | Some hex => object_answers hex oid size spans
  | None => ∃ data, file_answers s oid size spans data
  end.

Definition worktree_ok (s : RenameSide) p : Prop :=
  match p_identity p with
  | None => p_size p = None ∧ p_spans p = None ∧ p_pending p = None
  | Some None => p_size p = Some None ∧ p_spans p = None ∧ p_pending p = None
  | Some (Some oid) => ∃ data, file_answers s oid (p_size p) (p_spans p) data ∧
      (N.of_nat (length data) < 2 ^ 63)%N ∧
      p_pending p = match p_spans p with None => Some data | Some _ => None end
  end.

Definition object_ok (hex : bytes) p : Prop :=
  p_pending p = None ∧
  match p_identity p with
  | None => p_size p = None ∧ p_spans p = None
  | Some None => False
  | Some (Some oid) => object_answers hex oid (p_size p) (p_spans p)
  end.

Definition prepared_ok (s : RenameSide) p : Prop :=
  match id s with None => worktree_ok s p | Some hex => object_ok hex p end.

(** A side costs a look at a file once its identity is known. *)
Definition charge (s : RenameSide) p : nat :=
  match id s, p_identity p with None, Some _ => 1 | _, _ => 0 end.

Definition charges (ss : list RenameSide) (ps : list (Prepared ObjectId)) : nat :=
  sum_list (zip_with charge ss ps).

Record contents_valid st : Prop := {
  cv_sides : sides st = [srcs; dsts];
  cv_prepared : ∃ ps pd, prepared st = [ps; pd] ∧
    Forall2 prepared_ok srcs ps ∧ Forall2 prepared_ok dsts pd ∧
    looked_up (history st) ≤ charges srcs ps + charges dsts pd }.

Definition lookup_prepared st (r : Role) (i : nat) : option (Prepared ObjectId) :=
  prepared st !! slot r ≫= (λ l, l !! i).

Definition contents_known st : Known ObjectId :=
  mkKnown (λ r i, lookup_prepared st r i ≫= p_identity)
          (λ r i, lookup_prepared st r i ≫= p_size)
          (λ r i, lookup_prepared st r i ≫= p_spans).

(** ** Calls that leave what is prepared, and calls that replace one of it *)

Definition same (k : nat) st st' : Prop :=
  sides st' = sides st ∧ prepared st' = prepared st ∧
  looked_up (history st') ≤ k + looked_up (history st).

Definition updated (r : Role) (i : nat) (p' : Prepared ObjectId) (k : nat) st st' : Prop :=
  sides st' = sides st ∧ prepared st' = alter (<[i := p']>) (slot r) (prepared st) ∧
  looked_up (history st') ≤ k + looked_up (history st).

Lemma leaves_refl st : same 0 st st.
Proof. by split_and!. Qed.

Lemma leaves_trans j k a b c : same j a b → same k b c → same (j + k) a c.
Proof. intros (? & ? & ?) (? & ? & ?). split_and!; [congruence..|lia]. Qed.

Lemma same_updated r i p' j k a b c :
  same j a b → updated r i p' k b c → updated r i p' (j + k) a c.
Proof. intros (? & Hp & ?) (? & Hp' & ?). split_and!; [congruence| |lia]. by rewrite Hp', Hp. Qed.

Lemma updated_same r i p' j k a b c :
  updated r i p' j a b → same k b c → updated r i p' (j + k) a c.
Proof. intros (? & Hp & ?) (? & Hp' & ?). split_and!; [congruence| |lia]. by rewrite Hp', Hp. Qed.

Lemma updated_updated r i p' p'' j k a b c :
  updated r i p' j a b → updated r i p'' k b c → updated r i p'' (j + k) a c.
Proof.
  intros (? & Hp & ?) (? & Hp' & ?). split_and!; [congruence| |lia]. rewrite Hp', Hp.
  rewrite list_alter_alter_eq. apply list_alter_ext; [|done].
  intros l _. simpl. by rewrite list_insert_insert_eq.
Qed.

Lemma lookup_updated r i p p' k st st' :
  lookup_prepared st r i = Some p → updated r i p' k st st' →
  lookup_prepared st' r i = Some p'.
Proof.
  unfold lookup_prepared. intros Hp (_ & -> & _). rewrite list_lookup_alter_eq.
  destruct (prepared st !! slot r) as [l|]; [|done]. simpl in *.
  by rewrite list_lookup_insert_eq by (by eapply lookup_lt_Some).
Qed.

Lemma lookup_updated_ne r i r' i' p' k st st' :
  (r', i') ≠ (r, i) → updated r i p' k st st' →
  lookup_prepared st' r' i' = lookup_prepared st r' i'.
Proof.
  unfold lookup_prepared. intros Hne (_ & -> & _). destruct (decide (r' = r)) as [->|Hr].
  - rewrite list_lookup_alter_eq. destruct (prepared st !! slot r); [|done]. simpl.
    rewrite list_lookup_insert_ne by congruence. done.
  - rewrite list_lookup_alter_ne; [done|]. by destruct r, r'.
Qed.

(** What is known of a side stays. *)
Definition prepared_knows p p' : Prop :=
  (∀ v, p_identity p = Some v → p_identity p' = Some v) ∧
  (∀ v, p_size p = Some v → p_size p' = Some v) ∧
  (∀ v, p_spans p = Some v → p_spans p' = Some v).

Lemma charges_insert ss ps i s p p' :
  ss !! i = Some s → ps !! i = Some p →
  charges ss (<[i := p']> ps) + charge s p = charges ss ps + charge s p'.
Proof.
  unfold charges. revert ps i. induction ss as [|s0 ss IH]; intros [|p0 ps] [|i] Hs Hp;
    simplify_eq/=; [lia|]. specialize (IH ps i Hs Hp). lia.
Qed.

Lemma same_valid st st' : contents_valid st → same 0 st st' → contents_valid st'.
Proof.
  intros [Hs (ps & pd & Hp & ? & ? & ?)] (Hs' & Hp' & ?). split; [congruence|].
  exists ps, pd. split_and!; [congruence|done..|lia].
Qed.

Lemma same_known st st' : prepared st' = prepared st → knows (contents_known st) (contents_known st').
Proof. intros Hp. split; simpl; unfold lookup_prepared; by rewrite Hp. Qed.

Lemma updated_valid r i s p p' k st st' :
  contents_valid st → role_sides r !! i = Some s → lookup_prepared st r i = Some p →
  updated r i p' k st st' → prepared_ok s p' → charge s p + k ≤ charge s p' →
  contents_valid st'.
Proof.
  intros [Hs (ps & pd & Hpp & Hps & Hpd & Hle)] Hside Hlp (Hs' & Hp' & Hle') Hok Hcharge.
  unfold lookup_prepared in Hlp. rewrite Hpp in Hlp, Hp'.
  split; [congruence|]. destruct r; simpl in *.
  - exists (<[i := p']> ps), pd. pose proof (charges_insert _ _ _ _ _ p' Hside Hlp).
    split_and!; [done| |done|lia]. rewrite <- (list_insert_id srcs i s) by done.
    by apply Forall2_insert.
  - exists ps, (<[i := p']> pd). pose proof (charges_insert _ _ _ _ _ p' Hside Hlp).
    split_and!; [done|done| |lia]. rewrite <- (list_insert_id dsts i s) by done.
    by apply Forall2_insert.
Qed.

Lemma updated_known r i p p' k st st' :
  lookup_prepared st r i = Some p → updated r i p' k st st' → prepared_knows p p' →
  knows (contents_known st) (contents_known st').
Proof.
  intros Hp Hu (Hi & Hz & Hn).
  assert (∀ r' i', (lookup_prepared st' r' i' = lookup_prepared st r' i') ∨
            (lookup_prepared st r' i' = Some p ∧ lookup_prepared st' r' i' = Some p')) as Hcase.
  { intros r' i'. destruct (decide ((r', i') = (r, i))) as [[= -> ->]|Hne].
    - right. split; [done|]. by eapply lookup_updated.
    - left. by eapply lookup_updated_ne. }
  split; simpl; intros r' i' v; destruct (Hcase r' i') as [->|[-> ->]]; simpl; auto.
Qed.

Lemma lookup_prepared_some st r i s :
  contents_valid st → role_sides r !! i = Some s →
  ∃ p, lookup_prepared st r i = Some p ∧ prepared_ok s p.
Proof.
  intros [_ (ps & pd & Hp & Hps & Hpd & _)] Hs. unfold lookup_prepared. rewrite Hp.
  destruct r; simpl in *; by eapply Forall2_lookup_l.
Qed.

(** ** The calls on the system *)

Lemma total_ask {A B} event (answer : list Event → A) (f : A → call t B) st Q :
  (∀ st', same (if is_metadata event then 1 else 0) st st' →
     total git_error (f (answer (history st))) st' Q) →
  total git_error (RepositoryContents.ask event answer ≫= f) st Q.
Proof.
  intros Hf. unfold total, mbind, call_bind, RepositoryContents.ask. apply Hf.
  split_and!; [done..|]. unfold looked_up. simpl. rewrite filter_cons.
  by destruct (is_metadata event).
Qed.

Lemma total_ask_last {A} event (answer : list Event → A) st (Q : A → t → Prop) :
  (∀ st', same (if is_metadata event then 1 else 0) st st' → Q (answer (history st)) st') →
  total git_error (RepositoryContents.ask event answer) st Q.
Proof.
  intros HQ. unfold total, RepositoryContents.ask. apply HQ.
  split_and!; [done..|]. unfold looked_up. simpl. rewrite filter_cons.
  by destruct (is_metadata event).
Qed.

Lemma total_or_error {A B} context (r : result A string) (f : A → call t B) st Q :
  (∀ a, r = Ok a → total git_error (f a) st Q) →
  total git_error (RepositoryContents.or_error context r ≫= f) st Q.
Proof.
  intros Hf. unfold total, mbind, call_bind, RepositoryContents.or_error.
  destruct r as [a|e]; [by apply Hf|by eexists _, _].
Qed.

Lemma prepare_worktree_spec st :
  total git_error RepositoryContents.prepare_worktree st (λ _ st', same 0 st st').
Proof.
  unfold RepositoryContents.prepare_worktree.
  apply (total_bind _ _ _ _ (λ ready st', ready = worktree st ∧ st' = st)); [done|].
  intros ready ? [-> ->]. destruct (worktree st); [by apply total_ret, leaves_refl|].
  apply total_ask. intros st1 H1. apply total_or_error. intros _ _.
  apply total_ask. intros st2 H2. apply total_or_error. intros _ _.
  eapply (leaves_trans 0 0); [eapply (leaves_trans 0 0); [exact H1|exact H2]|]. by split_and!.
Qed.

Lemma read_worktree_spec s st :
  total git_error (RepositoryContents.read_worktree s) st (λ o st',
    same 1 st st' ∧ ∀ data, o = Some data → (N.of_nat (length data) < 2 ^ 63)%N).
Proof.
  unfold RepositoryContents.read_worktree.
  assert (same 1 st st) as Hsame by (split_and!; [done..|lia]).
  destruct (negb workdir); [by split|].
  apply total_or_return; [by split|]. intros relative _.
  apply total_ask. intros st1 H1. simpl in H1.
  apply total_or_return; [by split|]. intros [] _; [| |by split].
  - apply total_ask_last. intros st2 H2. split; [exact (leaves_trans 1 0 _ _ _ H1 H2)|].
    intros target Htarget. by eapply link_in_memory.
  - apply total_ask. intros st2 H2. pose proof (leaves_trans 1 0 _ _ _ H1 H2) as H12.
    destruct (negb _); [by split|].
    eapply total_bind; [apply prepare_worktree_spec|]. cbv beta. intros _ st3 H3.
    apply total_ask. intros st4 H4. apply total_or_error. intros outcome Hout.
    apply total_ret. split.
    { exact (leaves_trans 1 0 _ _ _ (leaves_trans 1 0 _ _ _ H12 H3) H4). }
    intros data Hdata. eapply file_in_memory; [exact Hout|].
    destruct outcome; simplify_eq/=; auto.
Qed.

Lemma read_worktree_from s st :
  total git_error (RepositoryContents.read_worktree s) st (λ o st',
    same 1 st st' ∧ ∀ data, o = Some data →
      read_from s data ∧ (N.of_nat (length data) < 2 ^ 63)%N).
Proof.
  pose proof (read_worktree_spec s st) as Hspec. unfold total in *.
  destruct (RepositoryContents.read_worktree s st) as [[[o|e] st']|] eqn:Hrun; [|done..].
  destruct Hspec as [? Hdata]. split; [done|]. intros data ->. split; [by exists st, st'|auto].
Qed.

Lemma stored_spec id st :
  total git_error (RepositoryContents.stored id) st (λ o st',
    same 0 st st' ∧ ∀ data, o = Some data → ∃ h, try_find_object h id = Ok (Some (Blob, data))).
Proof.
  unfold RepositoryContents.stored. apply total_ask. intros st1 H1.
  apply total_or_error. intros object Hobject.
  apply total_or_return; [by split|]. intros [kind data] ->. apply total_ret.
  split; [done|]. intros data'. case_bool_decide; [|done]. intros [= <-]. subst. by eexists.
Qed.

Lemma is_binary_spec s data st :
  total git_error (RepositoryContents.is_binary s data) st (λ _ st', same 0 st st').
Proof.
  unfold RepositoryContents.is_binary.
  eapply total_bind; [apply prepare_worktree_spec|]. cbv beta. intros _ st1 H1.
  apply total_ask. intros st2 H2. apply total_or_error. intros states _.
  apply total_ret. exact (leaves_trans 0 0 _ _ _ H1 H2).
Qed.

(** ** What is prepared *)

Lemma total_get {B} r i p (f : Prepared ObjectId → call t B) st Q :
  lookup_prepared st r i = Some p → total git_error (f p) st Q →
  total git_error (RepositoryContents.get r i ≫= f) st Q.
Proof.
  intros Hp Hf. unfold total, RepositoryContents.get, checked.
  unfold mbind at 1, call_bind at 1. unfold lookup_prepared in Hp. by rewrite Hp.
Qed.

Lemma total_side {B} r i s (f : RenameSide → call t B) st Q :
  sides st = [srcs; dsts] → role_sides r !! i = Some s → total git_error (f s) st Q →
  total git_error (RepositoryContents.side r i ≫= f) st Q.
Proof.
  intros Hs Hi Hf. unfold total, mbind, call_bind, RepositoryContents.side, checked.
  rewrite Hs. destruct r; simpl in *; by rewrite Hi.
Qed.

Lemma put_spec r i p f st :
  lookup_prepared st r i = Some p →
  total git_error (RepositoryContents.put r i f) st (λ _ st', updated r i (f p) 0 st st').
Proof.
  unfold lookup_prepared, RepositoryContents.put, total. intros Hp.
  destruct (prepared st !! slot r) as [l|] eqn:Hl; [|done]. simpl in *. rewrite Hp. simpl.
  split_and!; [done| |done]. simpl. apply list_eq. intros j.
  destruct (decide (j = slot r)) as [->|Hne].
  - rewrite list_lookup_alter_eq, Hl, list_lookup_insert_eq; [done|]. by eapply lookup_lt_Some.
  - by rewrite list_lookup_alter_ne, list_lookup_insert_ne by done.
Qed.

(** ** The laws *)

Lemma same_as_updated r i p k st st' :
  lookup_prepared st r i = Some p → same k st st' → updated r i p k st st'.
Proof.
  intros Hp (? & Hsame & ?). split_and!; [done| |done]. rewrite Hsame.
  unfold lookup_prepared in Hp. symmetry. apply list_eq. intros j.
  destruct (decide (j = slot r)) as [->|].
  - rewrite list_lookup_alter_eq. destruct (prepared st !! slot r); [|done]. simpl in *.
    f_equal. by apply list_insert_id.
  - by rewrite list_lookup_alter_ne.
Qed.

(** From [st] a valid state is reached in which [p] is prepared. *)
Definition reached (r : Role) (i : nat) (s : RenameSide) p st st' : Prop :=
  contents_valid st' ∧ knows (contents_known st) (contents_known st') ∧
  lookup_prepared st' r i = Some p ∧ prepared_ok s p.

Lemma reached_refl r i s p st :
  contents_valid st → lookup_prepared st r i = Some p → prepared_ok s p →
  reached r i s p st st.
Proof. intros. by split_and!. Qed.

Lemma reached_trans r i s p p' a b c :
  reached r i s p a b → reached r i s p' b c → reached r i s p' a c.
Proof. intros (_ & ? & _) (? & ? & ? & ?). split_and!; [done|by etrans|done..]. Qed.

Lemma updated_reached r i s p p' k st st' :
  contents_valid st → role_sides r !! i = Some s → lookup_prepared st r i = Some p →
  updated r i p' k st st' → prepared_ok s p' → prepared_knows p p' →
  charge s p + k ≤ charge s p' → reached r i s p' st st'.
Proof.
  intros. split_and!; [by eapply updated_valid|by eapply updated_known|by eapply lookup_updated|done].
Qed.

(** A call that leaves [p1] for [p], followed by writing [f p1]. *)
Lemma put_reached {B} r i s p p1 k f (b : B) st st' :
  contents_valid st → role_sides r !! i = Some s → lookup_prepared st r i = Some p →
  updated r i p1 k st st' → prepared_ok s (f p1) → prepared_knows p (f p1) →
  charge s p + k ≤ charge s (f p1) →
  total git_error (_ ← RepositoryContents.put r i f; mret b) st' (λ b' st'',
    b' = b ∧ reached r i s (f p1) st st'').
Proof.
  intros Hv Hs Hp Hu Hok Hk Hc. eapply total_bind.
  { apply put_spec. by eapply lookup_updated. }
  cbv beta. intros _ st'' Hu'. apply total_ret. split; [done|].
  apply (updated_reached _ _ _ p _ (k + 0)); try done; [by eapply updated_updated|lia].
Qed.

Lemma identity_reached r i s p st :
  contents_valid st → role_sides r !! i = Some s → lookup_prepared st r i = Some p →
  prepared_ok s p →
  total git_error (RepositoryContents.identity r i) st (λ v st', ∃ p',
    reached r i s p' st st' ∧ p_identity p' = Some v ∧ (id s ≠ None → p_size p' = p_size p)).
Proof.
  intros Hv Hs Hp Hok. unfold RepositoryContents.identity. eapply total_get; [done|].
  destruct (p_identity p) as [v|] eqn:Hid.
  { apply total_ret. exists p. split_and!; [by apply reached_refl|done..]. }
  eapply total_side; [apply Hv|done|].
  apply (total_bind _ _ _ _ (λ v st', ∃ p1 k, updated r i p1 k st st' ∧
    prepared_ok s (set_p_identity (Some v) p1) ∧ prepared_knows p (set_p_identity (Some v) p1) ∧
    charge s p + k ≤ charge s (set_p_identity (Some v) p1) ∧
    (id s ≠ None → p_size p1 = p_size p))).
  - unfold prepared_ok, charge in *. destruct (id s) as [hex|] eqn:Hids.
    + unfold object_ok in Hok. rewrite Hid in *. destruct Hok as (Hpend & Hz & Hsp).
      apply total_or_error. intros oid Hoid. apply total_ret. exists p, 0. split_and!.
      * apply same_as_updated; [done|apply leaves_refl].
      * split; [done|]. simpl. split; [done|]. split; congruence.
      * split_and!; simpl; [congruence|done..].
      * lia.
      * done.
    + unfold worktree_ok in Hok. rewrite Hid in *. destruct Hok as (Hz & Hsp & Hpend).
      eapply total_bind; [apply read_worktree_from|]. cbv beta. intros o st1 [H1 Hmem].
      apply (same_as_updated r i p) in H1; [|done].
      destruct o as [data|].
      * destruct (Hmem data eq_refl) as [Hread Hlen]. apply total_or_error. intros oid Hoid.
        eapply total_bind; [apply put_spec; by eapply lookup_updated|]. cbv beta.
        intros _ st2 H2. apply total_ret. eexists _, (1 + 0).
        split_and!; [by eapply updated_updated| | |simpl; lia|done].
        -- unfold worktree_ok. simpl. exists data. rewrite Hsp.
           split_and!; [by split_and!|done|done].
        -- split_and!; simpl; [congruence|congruence|done].
      * eapply total_bind; [apply put_spec; by eapply lookup_updated|]. cbv beta.
        intros _ st2 H2. apply total_ret. eexists _, (1 + 0).
        split_and!; [by eapply updated_updated| | |simpl; lia|done].
        -- unfold worktree_ok. by simpl.
        -- split_and!; simpl; [congruence|congruence|done].
  - intros v st1 (p1 & k & Hu & Hok' & Hk & Hc & Hsz).
    eapply total_mono; [by eapply put_reached|]. cbv beta. intros b st2 [-> Hr].
    eexists. by split_and!.
Qed.

Lemma size_reached r i s p st :
  contents_valid st → role_sides r !! i = Some s → lookup_prepared st r i = Some p →
  prepared_ok s p →
  total git_error (RepositoryContents.size r i) st (λ v st', ∃ p',
    reached r i s p' st st' ∧ p_size p' = Some v).
Proof.
  intros Hv Hs Hp Hok. unfold RepositoryContents.size. eapply total_get; [done|].
  destruct (p_size p) as [v|] eqn:Hz.
  { apply total_ret. exists p. split; [by apply reached_refl|done]. }
  eapply total_side; [apply Hv|done|].
  eapply total_bind; [by eapply identity_reached|]. cbv beta.
  intros v st1 (p1 & Hr1 & Hv1 & Hz1). pose proof Hr1 as (Hval & _ & Hp1 & Hok1).
  assert (Hsame : ∀ o st2, same 0 st1 st2 → prepared_ok s (set_p_size (Some o) p1) →
    (∀ v, p_size p1 = Some v → v = o) →
    total git_error (_ ← RepositoryContents.put r i (set_p_size (Some o)); mret o) st2
      (λ v st', ∃ p', reached r i s p' st st' ∧ p_size p' = Some v)).
  { intros o st2 H2 Hok2 Heq. eapply total_mono.
    { eapply put_reached; [exact Hval|done|exact Hp1|by eapply same_as_updated|done| |].
      - split_and!; simpl; [done| |done]. intros v' Hv'. by rewrite (Heq v' Hv').
      - unfold charge. simpl. lia. }
    cbv beta. intros b st3 [-> Hr]. eexists. split; [by eapply reached_trans|done]. }
  unfold prepared_ok in *. destruct (id s) as [hex|] eqn:Hids; [destruct v as [oid|]|].
  - specialize (Hz1 ltac:(done)). rewrite Hz in Hz1.
    apply (total_bind _ _ _ _ (λ o st2, same 0 st1 st2 ∧ ∀ n, o = Some n →
      ∃ h, try_find_header h oid = Ok (Some (Blob, n)))).
    + apply total_ask. intros st2 H2. apply total_or_error. intros header Hh.
      apply total_or_return; [by split|]. intros [kind n] ->. apply total_ret.
      split; [done|]. intros n'. case_bool_decide; [|done]. intros [= <-]. subst. by eexists.
    + intros o st2 [H2 Ho]. apply Hsame; [done| |by rewrite Hz1].
      unfold object_ok in *. simpl. rewrite Hv1 in *.
      destruct Hok1 as (? & ? & _ & Hsp). split; [done|]. split; [done|]. split.
      * intros n [= ->]. by apply Ho.
      * intros sp Hsp1. destruct (Hsp sp Hsp1) as (h & data & text & _ & ? & _). congruence.
  - unfold object_ok in Hok1. rewrite Hv1 in Hok1. by destruct Hok1.
  - assert (∃ z, p_size p1 = Some z) as [z Hzz].
    { unfold worktree_ok in Hok1. rewrite Hv1 in Hok1. destruct v as [oid|].
      - destruct Hok1 as (data & (_ & _ & ? & _) & _). by eexists.
      - destruct Hok1 as (? & _). by eexists. }
    apply (total_bind _ _ _ _ (λ o st2, o = z ∧ st2 = st1)).
    { eapply total_get; [exact Hp1|]. apply total_ret. by rewrite Hzz. }
    intros o st2 [-> ->]. apply Hsame; [apply leaves_refl| |congruence].
    destruct p1; simpl in *. by subst.
Qed.

(** The data behind what is prepared. *)
Definition data_of (s : RenameSide) p (data : bytes) : Prop :=
  match id s with
  | Some _ => ∃ oid h, p_identity p = Some (Some oid) ∧
      try_find_object h oid = Ok (Some (Blob, data))
  | None => ∃ oid, p_identity p = Some (Some oid) ∧
      file_answers s oid (p_size p) (p_spans p) data
  end.

(** The data of a file whose size is known is what was read for it. *)
Lemma data_updated r i s p n st :
  contents_valid st → role_sides r !! i = Some s → lookup_prepared st r i = Some p →
  prepared_ok s p → p_size p = Some (Some n) → p_spans p = None →
  total git_error (RepositoryContents.data r i) st (λ o st',
    updated r i (set_p_pending None p) 0 st st' ∧ (id s = None → o ≠ None) ∧
    ∀ data, o = Some data →
      n = N.of_nat (length data) ∧ (n < 2 ^ 63)%N ∧ data_of s p data).
Proof.
  intros Hv Hs Hp Hok Hz Hsp. unfold RepositoryContents.data.
  eapply total_get; [done|]. unfold prepared_ok in Hok. destruct (id s) as [hex|] eqn:Hid.
  - destruct Hok as [Hpend Hok]. rewrite Hpend.
    eapply total_side; [apply Hv|done|]. rewrite Hid.
    destruct (p_identity p) as [[oid|]|] eqn:Hoid; [|done|destruct Hok; congruence].
    destruct Hok as (Hhex & Hsize & _). destruct (Hsize n Hz) as [h Hh].
    apply (total_bind _ _ _ _ (λ o st', o = Some oid ∧ st' = st)).
    { unfold RepositoryContents.identity. eapply total_get; [done|]. by rewrite Hoid. }
    intros o st' [-> ->]. simpl. eapply total_mono; [apply stored_spec|]. cbv beta.
    intros o st1 [H1 Ho]. split_and!; [|done|].
    + apply same_as_updated; [|done]. rewrite Hp. f_equal. destruct p. simpl in *. by subst.
    + intros data Hdata. destruct (Ho data Hdata) as [h' Hh'].
      pose proof (header_size _ _ _ _ _ Hh Hh') as ->.
      split_and!; [done|by eapply object_in_memory|].
      unfold data_of. rewrite Hid. by exists oid, h'.
  - unfold worktree_ok in Hok. destruct (p_identity p) as [[oid|]|] eqn:Hoid; [|naive_solver..].
    destruct Hok as (data & Hfile & Hmem & Hpend). rewrite Hsp in Hpend. rewrite Hpend.
    pose proof Hfile as (_ & _ & Hn & _). simplify_eq.
    eapply total_bind; [by apply put_spec|]. cbv beta. intros _ st1 H1. apply total_ret.
    split_and!; [done..|]. intros data' [= <-]. split_and!; [done..|].
    unfold data_of. rewrite Hid. by exists oid.
Qed.

Lemma spans_reached r i s p n st :
  contents_valid st → role_sides r !! i = Some s → lookup_prepared st r i = Some p →
  prepared_ok s p → p_size p = Some (Some n) →
  total git_error (RepositoryContents.spans r i) st (λ v st', ∃ p',
    reached r i s p' st st' ∧ p_spans p' = Some v).
Proof.
  intros Hv Hs Hp Hok Hz. unfold RepositoryContents.spans. eapply total_get; [done|].
  apply (total_bind _ _ _ _ (λ _ st', ∃ p' v, reached r i s p' st st' ∧ p_spans p' = Some v)).
  2: { intros _ st' (p' & v & Hr & Hsp). eapply total_get; [apply Hr|]. apply total_ret.
       exists p'. split; [done|]. by rewrite Hsp. }
  destruct (p_spans p) as [v|] eqn:Hsp.
  { apply total_ret. exists p, v. split; [by apply reached_refl|done]. }
  eapply total_side; [apply Hv|done|].
  eapply total_bind; [by eapply data_updated|]. cbv beta. intros o st1 (H1 & Hsome & Hdata).
  apply (total_bind _ _ _ _ (λ v st', same 0 st1 st' ∧ (id s = None → v ≠ None) ∧
    ∀ sp, v = Some sp → ∃ data text, n = N.of_nat (length data) ∧ data_of s p data ∧
      span_counts data text = Some sp)).
  - destruct o as [data|].
    2: { apply total_ret. split_and!; [apply leaves_refl|intros Hid; by destruct (Hsome Hid)|done]. }
    destruct (Hdata data eq_refl) as (-> & Hmem & Hof).
    eapply total_bind; [apply is_binary_spec|]. cbv beta. intros binary st2 H2.
    destruct (span_counts_spec data (negb binary)) as (sp & Hsp' & _); [lia|].
    rewrite Hsp'. apply total_checked_bind. cbn [runs]. apply total_ret. split_and!; [done..|].
    intros sp' [= <-]. by exists data, (negb binary).
  - intros v st2 (H2 & Hvs & Hfit).
    eapply total_mono; [apply put_spec; eapply lookup_updated; [done|]|].
    { eapply updated_same; [exact H1|exact H2]. }
    cbv beta. intros _ st3 H3. exists (set_p_spans (Some v) (set_p_pending None p)), v. split; [|done].
    eapply (updated_reached _ _ _ p _ (0 + 0 + 0)); try done.
    + eapply (updated_updated _ _ _ _ (0 + 0)); [|exact H3].
      eapply updated_same; [exact H1|exact H2].
    + unfold prepared_ok, data_of in *. destruct (id s) as [hex|].
      * destruct Hok as [? Hok]. split; [done|]. simpl.
        destruct (p_identity p) as [[oid|]|]; [|done|destruct Hok; congruence].
        destruct Hok as (? & ? & _). split; [done|]. split; [done|].
        intros sp [= ->]. destruct (Hfit sp eq_refl) as (data & text & -> & Hof & ?).
        destruct Hof as (oid' & h & [= <-] & ?). by exists h, data, text.
      * unfold worktree_ok in *. simpl. destruct (p_identity p) as [[oid|]|]; [|naive_solver..].
        destruct v as [sp|]; [|by destruct Hvs].
        destruct (Hfit sp eq_refl) as (data & text & -> & (oid' & [= <-] & Hfile) & Hsp').
        destruct Hfile as (? & ? & ? & _). exists data. destruct Hok as (data' & Hfile' & Hmem & _).
        destruct Hfile' as (_ & _ & Hsz & _). split_and!; [|congruence|done].
        split_and!; [done..|]. intros sp'' [= <-]. by exists sp, text.
    + split_and!; simpl; [done..|congruence].
    + unfold charge. simpl. lia.
Qed.

#[export] Instance RepositoryContents_laws :
  ContentsLaws (RepositoryContents_Contents (ObjectId := ObjectId)) git_error role_sides.
Proof.
  refine {| valid := contents_valid; known := contents_known |}.
  - intros r i st Hv [s Hs]%lookup_lt_is_Some_2.
    destruct (lookup_prepared_some _ _ _ _ Hv Hs) as (p & Hp & Hok).
    eapply total_mono; [by eapply identity_reached|]. cbv beta.
    intros v st' (p' & (? & ? & Hp' & _) & Hi & _). split; [done|]. simpl. by rewrite Hp'.
  - intros r i st Hv [s Hs]%lookup_lt_is_Some_2.
    destruct (lookup_prepared_some _ _ _ _ Hv Hs) as (p & Hp & Hok).
    eapply total_mono; [by eapply size_reached|]. cbv beta.
    intros v st' (p' & (? & ? & Hp' & _) & Hi). split; [done|]. simpl. by rewrite Hp'.
  - intros r i n st Hv [s Hs]%lookup_lt_is_Some_2 Hn. simpl in Hn.
    destruct (lookup_prepared_some _ _ _ _ Hv Hs) as (p & Hp & Hok).
    rewrite Hp in Hn. simpl in Hn.
    eapply total_mono; [by eapply spans_reached|]. cbv beta.
    intros v st' (p' & (? & ? & Hp' & _) & Hi). split; [done|]. simpl. by rewrite Hp'.
  - intros r i n sp st Hv Hn Hsp. simpl in *.
    destruct (lookup_prepared st r i) as [p|] eqn:Hp; [|done]. simpl in *.
    assert (∃ s, prepared_ok s p) as [s Hok].
    { destruct Hv as [_ (ps & pd & Hpp & Hps & Hpd & _)]. unfold lookup_prepared in Hp.
      rewrite Hpp in Hp. destruct r; simpl in Hp.
      - destruct (Forall2_lookup_r _ _ _ _ _ Hps Hp) as (s & _ & ?). by exists s.
      - destruct (Forall2_lookup_r _ _ _ _ _ Hpd Hp) as (s & _ & ?). by exists s. }
    assert (∃ data text, n = N.of_nat (length data) ∧ (n < 2 ^ 63)%N ∧
              span_counts data text = Some sp) as (data & text & -> & Hmem & Hcounts).
    { unfold prepared_ok in Hok. destruct (id s) as [hex|].
      - destruct Hok as [_ Hok]. destruct (p_identity p) as [[oid|]|]; [|done|].
        + destruct Hok as (_ & _ & Hfit).
          destruct (Hfit sp Hsp) as (h & data & text & Hobj & ? & ?). simplify_eq.
          exists data, text. split_and!; [done|by eapply object_in_memory|done].
        + destruct Hok; congruence.
      - unfold worktree_ok in Hok. destruct (p_identity p) as [[oid|]|]; [|naive_solver..].
        destruct Hok as (data & (_ & _ & ? & Hfile) & Hmem & _).
        destruct (Hfile _ Hsp) as (sp' & text & ? & ?). simplify_eq. by exists data, text. }
    destruct (span_counts_spec data text) as (sp' & Hsp' & Hsort & _ & _ & Htotal); [lia|].
    simplify_eq. pose proof (counted_length text data). split_and!; [done|lia..].
Defined.

Lemma new_valid : contents_valid (RepositoryContents.new srcs dsts).
Proof.
  assert (∀ ss, Forall2 prepared_ok ss ((λ _, Prepared_default) <$> ss)) as Hnew.
  { intros ss. apply Forall2_fmap_r, Forall_Forall2_diag, Forall_true. intros s.
    unfold prepared_ok. destruct (id s); by split_and!. }
  split; [done|]. eexists _, _. split_and!; [done|apply Hnew..|]. unfold looked_up. simpl. lia.
Qed.

Lemma valid_genuine st r i s oid :
  contents_valid st → role_sides r !! i = Some s →
  known_identity (contents_known st) r i = Some (Some oid) →
  genuine s oid (known_size (contents_known st) r i) (known_spans (contents_known st) r i).
Proof.
  intros Hv Hs Hid. destruct (lookup_prepared_some _ _ _ _ Hv Hs) as (p & Hp & Hok).
  simpl in *. rewrite Hp in *. simpl in *. unfold prepared_ok, genuine in *.
  destruct (id s) as [hex|].
  - destruct Hok as [_ Hok]. by rewrite Hid in Hok.
  - unfold worktree_ok in Hok. rewrite Hid in Hok. destruct Hok as (data & ? & _). by exists data.
Qed.

(** At most one look at the file of each side without an id. *)
Lemma charges_le ss ps :
  Forall2 prepared_ok ss ps → charges ss ps ≤ length (filter (λ s, id s = None) ss).
Proof.
  unfold charges. induction 1 as [|s p ss ps Hok Hall IH]; simpl; [lia|].
  rewrite filter_cons. unfold charge at 1. destruct (id s) eqn:Hid; case_decide; simpl;
    try congruence; try destruct (p_identity p); lia.
Qed.

Lemma looked_up_le st :
  contents_valid st →
  looked_up (history st) ≤ length (filter (λ s, id s = None) srcs)
                           + length (filter (λ s, id s = None) dsts).
Proof.
  intros [_ (ps & pd & _ & Hps & Hpd & Hle)].
  pose proof (charges_le _ _ Hps). pose proof (charges_le _ _ Hpd). lia.
Qed.
End laws.
