(* ===== verification/GitEngine.v ===== *)
(** * Choosing the engine that answers a question about a repository

    [paneflow-git/src/engine.rs]: the [Selector] asks the engine in the process
    ([Gix]) or the command line ([Cli]), falls back from the first to the second and
    pins a directory to the command line after two failures in a row.  The [Mutex]
    guards a map, a [gmap] here, and the atomic counters are fields; [run] is [begin],
    the call of the engine, and [finish], so that the runs of several threads may
    interleave ([GitEngineCorrect]).  What [run] reads from the disk - the location
    and the files of the repository - are arguments, texts are lists of code points. *)

From stdpp Require Import gmap list strings.
From S2P Require Import Prelude GitTypes.
From S2P Require AgentActivity.

Definition PINNING_FAILURE_COUNT : N := 2.

(** A string literal as code points. *)
Definition text : string → bytes := AgentActivity.lit.

Definition REFTABLE_HEAD : bytes := text "ref: refs/heads/.invalid".
Definition SHA1_OBJECT_FORMAT : bytes := text "sha1".
Definition REFTABLE_REF_STORAGE : bytes := text "reftable".

Inductive Engine := Gix | Cli.
Inductive Probe := FilesStatus | DiffStats | DockListing | IsClean.
Inductive Fallback := Reftable | ObjectFormat | FallbackError | Forced | SizeThreshold.

#[export] Instance Engine_eq_dec : EqDecision Engine.
Proof. solve_decision. Defined.
#[export] Instance Probe_eq_dec : EqDecision Probe.
Proof. solve_decision. Defined.
#[export] Instance Fallback_eq_dec : EqDecision Fallback.
Proof. solve_decision. Defined.

(** [Engine::ALL], [Probe::ALL], [Fallback::ALL]. *)
Definition Engine_ALL : list Engine := [Gix; Cli].
Definition Probe_ALL : list Probe := [FilesStatus; DiffStats; DockListing; IsClean].
Definition Fallback_ALL : list Fallback := [Reftable; ObjectFormat; FallbackError; Forced; SizeThreshold].

(** [Engine::name]. *)
Definition Engine_name (e : Engine) : bytes :=
  match e with Gix => text "gix" | Cli => text "cli" end.

(** [Probe::index], [Fallback::index]: [self as usize]. *)
Definition Probe_index (p : Probe) : nat :=
  match p with FilesStatus => 0 | DiffStats => 1 | DockListing => 2 | IsClean => 3 end.

Definition Fallback_index (f : Fallback) : nat :=
  match f with
  | Reftable => 0 | ObjectFormat => 1 | FallbackError => 2 | Forced => 3 | SizeThreshold => 4
  end.

(** [Engine::ALL.iter().position(..).unwrap_or_default()]. *)
Definition engine_index (e : Engine) : nat :=
  match e with Gix => 0 | Cli => 1 end.

(** ** The setting *)

Definition to_ascii_lowercase (s : bytes) : bytes :=
  (λ c, if (65 <=? c)%N && (c <=? 90)%N then (c + 32)%N else c) <$> s.

(** The text of the warning is left to [warn]. *)
Record EngineSetting := mkEngineSetting { preferred_engine : Engine; warning : option bytes }.

Definition parse_engine_setting (warn : bytes → bytes) (value : option bytes) : EngineSetting :=
  match value with
  | None => mkEngineSetting Gix None
  | Some raw =>
      let name := to_ascii_lowercase (AgentActivity.trim raw) in
      if bool_decide (name = text "gix") then mkEngineSetting Gix None
      else if bool_decide (name = text "cli") then mkEngineSetting Cli None
      else mkEngineSetting Gix (Some (warn raw))
  end.

(** ** The repository on disk *)

Record Layout := mkLayout { git_dir : bytes; common_dir : bytes }.

(** What is read of a located repository: [HEAD], the extensions of its configuration
    by [repository_extension], the first bytes of its index. *)
Record Disk := mkDisk {
  head_file : option bytes;
  extension_ref_storage : option bytes;
  extension_object_format : option bytes;
  index_header : option bytes }.

Definition uses_reftable (disk : Disk) : bool :=
  match head_file disk with
  | Some head => bool_decide (AgentActivity.trim head = REFTABLE_HEAD)
  | None => false
  end || bool_decide (extension_ref_storage disk = Some REFTABLE_REF_STORAGE).

Definition uses_sha1_objects (disk : Disk) : bool :=
  match extension_object_format disk with
  | Some format => bool_decide (format = SHA1_OBJECT_FORMAT)
  | None => true
  end.

(** [u32::from_be_bytes]. *)
Definition from_be_bytes (data : bytes) : N := foldl (λ n byte, (n * 256 + byte)%N) 0%N data.

(** The header is there when all its twelve bytes were read. *)
Definition index_entry_count (disk : Disk) : option N :=
  header ← index_header disk;
  if bool_decide (take 4 header = text "DIRC") then Some (from_be_bytes (take 4 (drop 8 header)))
  else None.

(** ** The selector *)

Record Failures := mkFailures { consecutive : N; pinned : bool }.

Record Selector := mkSelector {
  preferred : Engine;
  index_entry_threshold : option N;
  failures : gmap bytes Failures;
  probes : list (list N);
  fallbacks : list N;
  pinned_directories : N }.

(** [fetch_add] on an [AtomicU64]. *)
Definition fetch_add (n : N) : N := ((n + 1) mod 2 ^ 64)%N.

Definition counts_toward_pinning (error : Error) : bool :=
  match error with Interrupted | TooManyEntries _ => false | _ => true end.

Definition fallback_for (error : Error) : Fallback :=
  match error with TooManyEntries _ => SizeThreshold | _ => FallbackError end.

Module Selector.
Definition new (preferred : Engine) (index_entry_threshold : option N) : Selector :=
  mkSelector preferred index_entry_threshold ∅
    ((λ _, [0; 0]%N) <$> Probe_ALL) ((λ _, 0%N) <$> Fallback_ALL) 0.

Definition is_pinned (s : Selector) (git_dir : bytes) : bool :=
  match failures s !! git_dir with Some f => pinned f | None => false end.

Definition count_probe (probe : Probe) (engine : Engine) (s : Selector) : option Selector :=
  row ← probes s !! Probe_index probe;
  n ← row !! engine_index engine;
  Some (mkSelector (preferred s) (index_entry_threshold s) (failures s)
          (<[Probe_index probe := <[engine_index engine := fetch_add n]> row]> (probes s))
          (fallbacks s) (pinned_directories s)).

Definition count_fallback (reason : Fallback) (s : Selector) : option Selector :=
  n ← fallbacks s !! Fallback_index reason;
  Some (mkSelector (preferred s) (index_entry_threshold s) (failures s) (probes s)
          (<[Fallback_index reason := fetch_add n]> (fallbacks s)) (pinned_directories s)).

(** [entry.consecutive += 1] is checked. *)
Definition record_failure (git_dir : bytes) (s : Selector) : option Selector :=
  let entry := default (mkFailures 0 false) (failures s !! git_dir) in
  _ ← assert (consecutive entry + 1 <? 2 ^ 32)%N;
  let consecutive := (consecutive entry + 1)%N in
  let pins := (PINNING_FAILURE_COUNT <=? consecutive)%N && negb (pinned entry) in
  Some (mkSelector (preferred s) (index_entry_threshold s)
          (<[git_dir := mkFailures consecutive (pinned entry || pins)]> (failures s))
          (probes s) (fallbacks s)
          (if pins then fetch_add (pinned_directories s) else pinned_directories s)).

Definition record_success (git_dir : bytes) (s : Selector) : Selector :=
  match failures s !! git_dir with
  | Some entry =>
      if pinned entry then s
      else mkSelector (preferred s) (index_entry_threshold s)
             (<[git_dir := mkFailures 0 (pinned entry)]> (failures s))
             (probes s) (fallbacks s) (pinned_directories s)
  | None => s
  end.

Definition fallback_before_gix (s : Selector) (located : option (Layout * Disk)) :
    option Fallback :=
  if bool_decide (preferred s = Cli) then Some Forced
  else
    '(layout, disk) ← located;
    if uses_reftable disk then Some Reftable
    else if negb (uses_sha1_objects disk) then Some ObjectFormat
    else if is_pinned s (git_dir layout) then Some FallbackError
    else
      threshold ← index_entry_threshold s;
      count ← index_entry_count disk;
      if (threshold <? count)%N then Some SizeThreshold else None.

(** [answer_with_cli], up to the call of the command line. *)
Definition answer_with_cli (probe : Probe) (s : Selector) : option Selector :=
  count_probe probe Cli s.

(** [run] up to the call of an engine: which one it calls. *)
Definition begin (probe : Probe) (located : option (Layout * Disk)) (s : Selector) :
    option (Engine * Selector) :=
  match fallback_before_gix s located with
  | Some reason =>
      s ← count_fallback reason s;
      s ← answer_with_cli probe s;
      Some (Cli, s)
  | None => Some (Gix, s)
  end.

(** [run] after the engine in the process has answered: which answer it returns. *)
Definition finish (probe : Probe) (layout : option Layout) (answer : result unit Error)
    (s : Selector) : option (Engine * Selector) :=
  match answer with
  | Ok _ =>
      let s := match layout with Some layout => record_success (git_dir layout) s | None => s end in
      s ← count_probe probe Gix s;
      Some (Gix, s)
  | Err error =>
      s ← match layout with
          | Some layout =>
              if counts_toward_pinning error then record_failure (git_dir layout) s else Some s
          | None => Some s
          end;
      s ← count_fallback (fallback_for error) s;
      s ← answer_with_cli probe s;
      Some (Cli, s)
  end.

(** [run] without another thread in between. *)
Definition run {T} (probe : Probe) (located : option (Layout * Disk)) (gix : result T Error)
    (cli : T) (s : Selector) : option (T * Selector) :=
  '(engine, s) ← begin probe located s;
  match engine with
  | Cli => Some (cli, s)
  | Gix =>
      match gix with
      | Ok answer => '(_, s) ← finish probe (fst <$> located) (Ok ()) s; Some (answer, s)
      | Err error => '(_, s) ← finish probe (fst <$> located) (Err error) s; Some (cli, s)
      end
  end.

(** [Counters], by its two lookups. *)
Definition counted_probes (s : Selector) (probe : Probe) (engine : Engine) : N :=
  default 0%N (probes s !! Probe_index probe ≫= (λ row, row !! engine_index engine)).

Definition counted_fallbacks (s : Selector) (reason : Fallback) : N :=
  default 0%N (fallbacks s !! Fallback_index reason).
End Selector.
