(* ===== verification/GitEngineCorrect.v ===== *)
(** * The selector under any interleaving of its runs

    A world is the selector, the runs whose engine has not answered yet and the
    history of the answers that count.  [step] is one half of a run of any thread.
    The invariant [engine_ok] relates the selector to the history: a directory is
    pinned exactly when two of its answers in a row were failures, and the counters
    are the numbers they are called after. *)

From stdpp Require Import gmap list strings.
From S2P Require Import Prelude GitTypes GitSpans GitEngine.

Local Open Scope N_scope.

(** The answers of the engine in the process that count, the last one first: the
    directory and whether it was a success.  [ended] counts the runs that returned. *)
Record World := mkWorld {
  selector : Selector;
  in_flight : list (Probe * option Layout);
  outcomes : list (bytes * bool);
  ended : N }.

(** What an answer adds to the history. *)
Definition outcome (layout : option Layout) (answer : result unit Error) : list (bytes * bool) :=
  match layout, answer with
  | Some layout, Ok _ => [(git_dir layout, true)]
  | Some layout, Err e => if counts_toward_pinning e then [(git_dir layout, false)] else []
  | None, _ => []
  end.

Inductive step : World → World → Prop :=
  | step_cli w probe located s :
      Selector.begin probe located (selector w) = Some (Cli, s) →
      step w (mkWorld s (in_flight w) (outcomes w) (ended w + 1))
  | step_gix w probe located s :
      Selector.begin probe located (selector w) = Some (Gix, s) →
      step w (mkWorld s ((probe, fst <$> located) :: in_flight w) (outcomes w) (ended w))
  | step_finish w probe layout answer before after engine s :
      in_flight w = before ++ (probe, layout) :: after →
      Selector.finish probe layout answer (selector w) = Some (engine, s) →
      step w (mkWorld s (before ++ after) (outcome layout answer ++ outcomes w) (ended w + 1)).

Definition initial (preferred : Engine) (threshold : option N) : World :=
  mkWorld (Selector.new preferred threshold) [] [] 0.

Definition outcomes_of (w : World) (dir : bytes) : list bool :=
  snd <$> filter (λ o, o.1 = dir) (outcomes w).

(** Two failures next to each other. *)
Fixpoint two_in_a_row (l : list bool) : bool :=
  match l with
  | [] => false
  | x :: l => (negb x && bool_decide (head l = Some false)) || two_in_a_row l
  end.

Definition column (e : Engine) (s : Selector) : N :=
  sum_by (λ row, default 0 (row !! engine_index e)) (probes s).

Definition pinned_count (s : Selector) : N :=
  N.of_nat (size (filter (λ kv, pinned kv.2 = true) (failures s))).

(** The entry of a directory with the answers [l]. *)
Definition entry_ok (l : list bool) (f : option Failures) : Prop :=
  match f with
  | None => Forall (eq true) l
  | Some f => pinned f = two_in_a_row l ∧
      (pinned f = false → consecutive f = if bool_decide (head l = Some false) then 1 else 0) ∧
      (pinned f = true → 2 ≤ consecutive f) ∧ consecutive f ≤ N.of_nat (length l)
  end.

Record counters_ok (s : Selector) (n : N) : Prop := {
  co_rows : length (probes s) = length Probe_ALL;
  co_row row : row ∈ probes s → length row = length Engine_ALL;
  co_fallbacks : length (fallbacks s) = length Fallback_ALL;
  co_total : column Gix s + column Cli s = n;
  co_cli : column Cli s = sum_by id (fallbacks s) }.

Record engine_ok (w : World) : Prop := {
  eo_entries dir : entry_ok (outcomes_of w dir) (failures (selector w) !! dir);
  eo_counters : counters_ok (selector w) (ended w);
  eo_pinned : pinned_directories (selector w) = pinned_count (selector w);
  eo_size : N.of_nat (size (failures (selector w))) ≤ N.of_nat (length (outcomes w)) }.

(** Room in the counters: less than 2^32 answers and 2^64 runs. *)
Definition room (w : World) : Prop :=
  N.of_nat (length (outcomes w)) < 2 ^ 32 ∧ ended w < 2 ^ 64.

(** ** Counters *)

Lemma sum_by_insert {A} (f : A → N) (l : list A) i x y :
  l !! i = Some x → sum_by f (<[i := y]> l) + f x = sum_by f l + f y.
Proof.
  revert i. induction l as [|z l IH]; intros [|i] Hx; simplify_eq/=; [lia|].
  specialize (IH i Hx). lia.
Qed.

Lemma sum_by_elem {A} (f : A → N) (l : list A) i x : l !! i = Some x → f x ≤ sum_by f l.
Proof.
  revert i. induction l as [|z l IH]; intros [|i] Hx; simplify_eq/=; [lia|].
  specialize (IH i Hx). lia.
Qed.

Lemma fetch_add_small n : n + 1 < 2 ^ 64 → fetch_add n = n + 1.
Proof. intros. unfold fetch_add. by apply N.mod_small. Qed.

(** The parts of the selector that counting leaves. *)
Definition same_failures (s s' : Selector) : Prop :=
  preferred s' = preferred s ∧ index_entry_threshold s' = index_entry_threshold s ∧
  failures s' = failures s ∧ pinned_directories s' = pinned_directories s.

Lemma count_probe_spec probe e s n :
  counters_ok s n → n + 1 < 2 ^ 64 →
  runs (Selector.count_probe probe e s) (λ s',
    same_failures s s' ∧ fallbacks s' = fallbacks s ∧
    length (probes s') = length Probe_ALL ∧
    (∀ row, row ∈ probes s' → length row = length Engine_ALL) ∧
    ∀ e', column e' s' = column e' s + if bool_decide (e' = e) then 1 else 0).
Proof.
  intros [Hrows Hrow _ Htotal _] Hn. unfold Selector.count_probe.
  destruct (lookup_lt_is_Some_2 (probes s) (Probe_index probe)) as [row Hr].
  { rewrite Hrows. destruct probe; simpl; lia. }
  pose proof (Hrow row ltac:(by eapply list_elem_of_lookup_2)) as Hlen.
  destruct (lookup_lt_is_Some_2 row (engine_index e)) as [k Hk].
  { rewrite Hlen. destruct e; simpl; lia. }
  rewrite Hr. simpl. rewrite Hk. simpl.
  assert (k ≤ n) as Hkn.
  { assert (default 0 (row !! engine_index e) ≤ column e s) as Hle.
    { by apply (sum_by_elem (λ row, default 0 (row !! engine_index e)) _ _ _ Hr). }
    rewrite Hk in Hle. simpl in Hle. destruct e; lia. }
  rewrite fetch_add_small by lia. split_and!; try done.
  - by rewrite length_insert.
  - intros row' [i Hi]%list_elem_of_lookup. simpl in Hi.
    destruct (decide (i = Probe_index probe)) as [->|Hne].
    + rewrite list_lookup_insert_eq in Hi by (by eapply lookup_lt_Some).
      injection Hi as <-. by rewrite length_insert.
    + rewrite list_lookup_insert_ne in Hi by done. by eapply Hrow, list_elem_of_lookup_2.
  - intros e'. unfold column. simpl.
    pose proof (sum_by_insert (λ row, default 0 (row !! engine_index e')) _ _ _
      (<[engine_index e := k + 1]> row) Hr) as Hsum. simpl in Hsum.
    case_bool_decide; subst.
    + rewrite list_lookup_insert_eq in Hsum by (by eapply lookup_lt_Some).
      rewrite Hk in Hsum. simpl in Hsum. lia.
    + rewrite list_lookup_insert_ne in Hsum by (by destruct e, e'). lia.
Qed.

Lemma same_failures_trans a b c : same_failures a b → same_failures b c → same_failures a c.
Proof. intros (? & ? & ? & ?) (? & ? & ? & ?). split_and!; congruence. Qed.

(** A run that ends with the engine in the process. *)
Lemma count_gix_spec probe s n :
  counters_ok s n → n + 1 < 2 ^ 64 →
  runs (Selector.count_probe probe Gix s) (λ s', same_failures s s' ∧ counters_ok s' (n + 1)).
Proof.
  intros Hc Hn. eapply runs_mono; [by apply (count_probe_spec _ _ _ n)|].
  intros s' (? & Hf & ? & ? & Hcol). split; [done|]. destruct Hc. split; [done..| | |].
  - congruence.
  - rewrite !Hcol. simpl. lia.
  - rewrite Hcol, Hf. simpl. lia.
Qed.

(** A run that ends with the command line, for a reason that is counted. *)
Lemma count_cli_spec probe reason s n :
  counters_ok s n → n + 1 < 2 ^ 64 →
  runs (s ← Selector.count_fallback reason s; Selector.answer_with_cli probe s)
    (λ s', same_failures s s' ∧ counters_ok s' (n + 1)).
Proof.
  intros Hc Hn. unfold Selector.count_fallback, Selector.answer_with_cli.
  pose proof Hc as [Hrows Hrow Hfb Htotal Hcli].
  destruct (lookup_lt_is_Some_2 (fallbacks s) (Fallback_index reason)) as [k Hk].
  { rewrite Hfb. destruct reason; simpl; lia. }
  rewrite Hk. cbn [mbind option_bind].
  pose proof (sum_by_elem id _ _ _ Hk) as Hle. unfold id at 1 in Hle.
  pose proof (sum_by_insert id _ _ _ (k + 1) Hk) as Hsum. unfold id at 2 4 in Hsum.
  rewrite fetch_add_small by lia.
  set (s1 := mkSelector _ _ _ _ _ _).
  (* The probes are those of [s]: the counters but for the fallbacks. *)
  destruct (Selector.count_probe probe Cli s1) as [s2|] eqn:Hrun.
  2: { pose proof (count_probe_spec probe Cli s n Hc Hn) as Hp.
       unfold Selector.count_probe in *. simpl in *.
       destruct (probes s !! Probe_index probe) as [row|]; [|done]. simpl in *.
       by destruct (row !! 1%nat). }
  pose proof (count_probe_spec probe Cli s n Hc Hn) as Hp.
  unfold Selector.count_probe in *. simpl in *.
  destruct (probes s !! Probe_index probe) as [row|]; [|done]. simpl in *.
  destruct (row !! 1%nat) as [m|]; [|done]. simpl in *. injection Hrun as <-.
  destruct Hp as (_ & _ & Hlen & Hrow' & Hcol). split; [by split_and!|].
  pose proof (Hcol Gix) as Hg. pose proof (Hcol Cli) as Hcl.
  rewrite bool_decide_false in Hg by done. rewrite bool_decide_true in Hcl by done.
  unfold column in *. simpl in *. split; simpl; [done|done|by rewrite length_insert| |].
  - unfold column. simpl. lia.
  - unfold column. simpl. lia.
Qed.

Lemma counters_same_failures s s' n :
  probes s' = probes s → fallbacks s' = fallbacks s → counters_ok s n → counters_ok s' n.
Proof. intros Hp Hf []. split; unfold column in *; by rewrite ?Hp, ?Hf. Qed.

(** ** The failures of a directory *)

Lemma entry_success l f :
  entry_ok l f →
  entry_ok (true :: l) (match f with
    | Some f => Some (if pinned f then f else mkFailures 0 (pinned f))
    | None => None end).
Proof.
  destruct f as [[k []]|]; simpl.
  - intros (Hp & _ & H2 & Hle). split_and!; [done..|lia].
  - intros (Hp & H1 & _ & Hle). split_and!; [done..|lia].
  - by constructor.
Qed.

Lemma entry_failure l f :
  entry_ok l f →
  let entry := default (mkFailures 0 false) f in
  let pins := (2 <=? consecutive entry + 1) && negb (pinned entry) in
  entry_ok (false :: l) (Some (mkFailures (consecutive entry + 1) (pinned entry || pins))).
Proof.
  destruct f as [[k []]|]; simpl.
  - intros (Hp & _ & H2 & Hle). specialize (H2 eq_refl).
    split_and!; [by rewrite <- Hp, orb_true_r|done|lia|lia].
  - intros (Hp & H1 & _ & Hle). specialize (H1 eq_refl). rewrite andb_true_r.
    rewrite <- Hp, orb_false_r. rewrite H1.
    case_bool_decide; simpl; split_and!; try done; lia.
  - intros Hall. assert (two_in_a_row l = false ∧ head l ≠ Some false) as [-> Hh].
    { clear -Hall. induction Hall as [|x l Hx Hall [IH _]]; [done|]. by subst. }
    rewrite bool_decide_false by done. simpl. split_and!; [done..|lia].
Qed.

Lemma pinned_count_insert s dir f s' :
  failures s' = <[dir := f]> (failures s) →
  (pinned f = false → Selector.is_pinned s dir = false) →
  (Selector.is_pinned s dir = true → pinned f = true) →
  pinned_count s' = pinned_count s + if pinned f && negb (Selector.is_pinned s dir) then 1 else 0.
Proof.
  intros Hf H0 H1. unfold pinned_count, Selector.is_pinned in *. rewrite Hf, map_filter_insert.
  simpl. destruct (pinned f) eqn:Hp.
  - rewrite decide_True by done. rewrite map_size_insert.
    rewrite map_lookup_filter. destruct (failures s !! dir) as [f'|]; simpl; [|lia].
    destruct (pinned f') eqn:Hp'; [by rewrite option_guard_True by done; simpl; lia|].
    rewrite option_guard_False by done. simpl. lia.
  - rewrite decide_False by done. simpl. specialize (H0 eq_refl).
    rewrite map_filter_delete_not; [lia|]. intros y Hy. rewrite Hy in H0. simpl. by rewrite H0.
Qed.

Lemma pinned_count_le s : pinned_count s ≤ N.of_nat (size (failures s)).
Proof.
  unfold pinned_count.
  pose proof (map_size_filter (λ kv : bytes * Failures, pinned kv.2 = true) (failures s)). lia.
Qed.

(** ** The two halves of a run *)

Lemma outcomes_of_app w inf o dir n s :
  outcomes_of (mkWorld s inf (o ++ outcomes w) n) dir =
  (snd <$> filter (λ o, o.1 = dir) o) ++ outcomes_of w dir.
Proof. unfold outcomes_of. simpl. by rewrite filter_app, fmap_app. Qed.

(** The directory of an answer has its new entry, the others theirs. *)
Lemma entries_insert w dir x f s inf n :
  failures s = <[dir := f]> (failures (selector w)) →
  (∀ d, entry_ok (outcomes_of w d) (failures (selector w) !! d)) →
  entry_ok (x :: outcomes_of w dir) (Some f) →
  ∀ d, entry_ok (outcomes_of (mkWorld s inf ([(dir, x)] ++ outcomes w) n) d) (failures s !! d).
Proof.
  intros Hf Hall Hok d. rewrite outcomes_of_app, Hf.
  destruct (decide (d = dir)) as [->|Hne].
  - rewrite lookup_insert_eq, filter_cons_True by done. done.
  - rewrite lookup_insert_ne by done. rewrite filter_cons_False by (simpl; congruence). apply Hall.
Qed.

Lemma record_success_spec w dir inf n :
  engine_ok w →
  let s := Selector.record_success dir (selector w) in
  probes s = probes (selector w) ∧ fallbacks s = fallbacks (selector w) ∧
  let w' := mkWorld s inf ([(dir, true)] ++ outcomes w) n in
  (∀ d, entry_ok (outcomes_of w' d) (failures s !! d)) ∧
  pinned_directories s = pinned_count s ∧
  N.of_nat (size (failures s)) ≤ N.of_nat (length (outcomes w')).
Proof.
  intros [Hent _ Hpin Hsize]. unfold Selector.record_success.
  pose proof (entry_success _ _ (Hent dir)) as Hok.
  destruct (failures (selector w) !! dir) as [f|] eqn:Hf; [destruct (pinned f) eqn:Hp|]; cbn zeta.
  - split_and!; [done..| |done|simpl; lia].
    apply (entries_insert w dir true f); [|done|done]. by rewrite insert_id.
  - set (s := mkSelector _ _ _ _ _ _).
    assert (failures s = <[dir := mkFailures 0 false]> (failures (selector w))) as Hs by done.
    split_and!; [done..| | |].
    + by apply (entries_insert w dir true (mkFailures 0 false)).
    + rewrite (pinned_count_insert (selector w) dir (mkFailures 0 false) s Hs);
        unfold Selector.is_pinned; rewrite Hf, Hp; [|done..].
      change (pinned_directories s) with (pinned_directories (selector w)). simpl. lia.
    + rewrite Hs, map_size_insert_Some by (by rewrite Hf). simpl. lia.
  - split_and!; [done..| |done|simpl; lia]. intros d. rewrite outcomes_of_app.
    destruct (decide (d = dir)) as [->|Hne].
    + rewrite filter_cons_True by done. by rewrite Hf.
    + rewrite filter_cons_False by (simpl; congruence). apply Hent.
Qed.

Lemma record_failure_spec w dir inf n :
  engine_ok w → N.of_nat (length (outcomes w)) + 1 < 2 ^ 32 →
  runs (Selector.record_failure dir (selector w)) (λ s,
    probes s = probes (selector w) ∧ fallbacks s = fallbacks (selector w) ∧
    let w' := mkWorld s inf ([(dir, false)] ++ outcomes w) n in
    (∀ d, entry_ok (outcomes_of w' d) (failures s !! d)) ∧
    pinned_directories s = pinned_count s ∧
    N.of_nat (size (failures s)) ≤ N.of_nat (length (outcomes w'))).
Proof.
  intros [Hent _ Hpin Hsize] Hroom. unfold Selector.record_failure.
  pose proof (entry_failure _ _ (Hent dir)) as Hok. cbv zeta in Hok.
  set (entry := default (mkFailures 0 false) (failures (selector w) !! dir)) in *.
  assert (length (outcomes_of w dir) ≤ length (outcomes w))%nat as Hlen.
  { unfold outcomes_of. rewrite length_fmap. apply length_filter. }
  assert (consecutive entry ≤ N.of_nat (length (outcomes_of w dir))) as Hle.
  { specialize (Hent dir). unfold entry. destruct (failures (selector w) !! dir) as [f|]; simpl in *; [|lia].
    by destruct Hent as (_ & _ & _ & ?). }
  assert (Selector.is_pinned (selector w) dir = pinned entry) as Hwas.
  { unfold Selector.is_pinned, entry. by destruct (failures (selector w) !! dir). }
  rewrite assert_some by (apply N.ltb_lt; lia). cbn [mbind option_bind runs]. cbv zeta.
  unfold PINNING_FAILURE_COUNT. set (pins := (2 <=? _) && _) in *.
  set (f := mkFailures (consecutive entry + 1) (pinned entry || pins)) in *.
  set (s := mkSelector _ _ _ _ _ _).
  assert (failures s = <[dir := f]> (failures (selector w))) as Hs by done.
  pose proof (pinned_count_le (selector w)) as Hpc.
  split_and!; [done..| | |].
  - by apply (entries_insert w dir false f).
  - rewrite (pinned_count_insert (selector w) dir f s Hs); simpl; rewrite ?Hwas.
    + unfold pins. destruct (pinned entry); simpl; rewrite ?andb_false_r, ?andb_true_r; [lia|].
      case_match; simpl; [|lia]. rewrite fetch_add_small; lia.
    + intros [? _]%orb_false_iff. done.
    + by intros ->.
  - rewrite Hs. rewrite map_size_insert. simpl. destruct (failures (selector w) !! dir); simpl; lia.
Qed.

Lemma engine_ok_counted w s s' inf o :
  probes s = probes (selector w) → fallbacks s = fallbacks (selector w) →
  (∀ d, entry_ok (outcomes_of (mkWorld s inf o (ended w + 1)) d) (failures s !! d)) →
  pinned_directories s = pinned_count s →
  N.of_nat (size (failures s)) ≤ N.of_nat (length o) →
  same_failures s s' → counters_ok s' (ended w + 1) →
  engine_ok (mkWorld s' inf o (ended w + 1)).
Proof.
  intros _ _ Hent Hpin Hsize (_ & _ & Hf & Hd) Hc. split; simpl.
  - intros d. rewrite Hf. apply Hent.
  - done.
  - unfold pinned_count. by rewrite Hd, Hf.
  - by rewrite Hf.
Qed.

Lemma begin_spec probe located w :
  engine_ok w → ended w + 1 < 2 ^ 64 →
  runs (Selector.begin probe located (selector w)) (λ '(e, s),
    match e with
    | Cli => engine_ok (mkWorld s (in_flight w) (outcomes w) (ended w + 1)) ∧
        ∃ reason, Selector.fallback_before_gix (selector w) located = Some reason
    | Gix => s = selector w ∧ Selector.fallback_before_gix (selector w) located = None
    end).
Proof.
  intros Hw Hroom. unfold Selector.begin.
  destruct (Selector.fallback_before_gix (selector w) located) as [reason|]; [|done].
  destruct Hw as [Hent Hc Hpin Hsize].
  pose proof (count_cli_spec probe reason _ _ Hc Hroom) as Hrun.
  destruct (Selector.count_fallback reason (selector w)) as [s1|]; [|done]. simpl in *.
  destruct (Selector.answer_with_cli probe s1) as [s2|]; [|done]. simpl in *.
  destruct Hrun as [Hsame Hc']. split; [|by eexists].
  by apply (engine_ok_counted w (selector w)).
Qed.

Lemma finish_spec probe layout answer inf w :
  engine_ok w → room (mkWorld (selector w) inf (outcome layout answer ++ outcomes w) (ended w + 1)) →
  runs (Selector.finish probe layout answer (selector w)) (λ '(e, s),
    engine_ok (mkWorld s inf (outcome layout answer ++ outcomes w) (ended w + 1))).
Proof.
  intros Hw [Hroom Hended]. simpl in *. unfold Selector.finish.
  assert (Hcounters : ∀ s, probes s = probes (selector w) → fallbacks s = fallbacks (selector w) →
            counters_ok s (ended w)) by (intros; by eapply counters_same_failures, Hw).
  destruct answer as [[]|error].
  - set (s := match layout with Some _ => _ | None => _ end).
    assert (probes s = probes (selector w) ∧ fallbacks s = fallbacks (selector w) ∧
      let w' := mkWorld s inf (outcome layout (Ok ()) ++ outcomes w) (ended w + 1) in
      (∀ d, entry_ok (outcomes_of w' d) (failures s !! d)) ∧
      pinned_directories s = pinned_count s ∧
      N.of_nat (size (failures s)) ≤ N.of_nat (length (outcomes w')))
      as (Hp & Hf & Hent & Hpin & Hsize).
    { destruct layout as [layout|]; [by apply record_success_spec|]. destruct Hw. by split_and!. }
    eapply runs_bind; [by apply count_gix_spec; [apply Hcounters|]|].
    cbv beta. intros s' [Hsame Hc]. simpl. by apply (engine_ok_counted w s).
  - apply (runs_bind _ _ (λ s, probes s = probes (selector w) ∧ fallbacks s = fallbacks (selector w) ∧
      let w' := mkWorld s inf (outcome layout (Err error) ++ outcomes w) (ended w + 1) in
      (∀ d, entry_ok (outcomes_of w' d) (failures s !! d)) ∧
      pinned_directories s = pinned_count s ∧
      N.of_nat (size (failures s)) ≤ N.of_nat (length (outcomes w')))).
    + simpl in *. destruct layout as [layout|]; [|destruct Hw; by split_and!].
      unfold outcome in *. destruct (counts_toward_pinning error);
        [|destruct Hw; simpl; by split_and!].
      apply record_failure_spec; [done|]. simpl in Hroom. lia.
    + intros s (Hp & Hf & Hent & Hpin & Hsize).
      pose proof (count_cli_spec probe (fallback_for error) s _ (Hcounters s Hp Hf) Hended) as Hrun.
      destruct (Selector.count_fallback (fallback_for error) s) as [s1|]; [|done]. simpl in *.
      destruct (Selector.answer_with_cli probe s1) as [s2|]; [|done]. simpl in *.
      destruct Hrun as [Hsame Hc']. by apply (engine_ok_counted w s).
Qed.

Lemma initial_ok p t : engine_ok (initial p t).
Proof.
  split; [intros d; by constructor| |done|done]. split; [done| |done..].
  intros row Hrow. simpl in Hrow. repeat apply elem_of_cons in Hrow as [->|Hrow]; try done.
  by apply elem_of_nil in Hrow.
Qed.

Lemma step_room w w' : step w w' → room w' → room w.
Proof.
  intros Hstep [Hr1 Hr2]. destruct Hstep; split; simpl in *; rewrite ?length_app in *; lia.
Qed.

Lemma step_ok w w' : step w w' → room w' → engine_ok w → engine_ok w'.
Proof.
  intros Hstep Hroom Hw. destruct Hstep as [w probe located s Hrun|w probe located s Hrun|
    w probe layout answer before after engine s Hin Hrun].
  - pose proof (begin_spec probe located w Hw) as H. rewrite Hrun in H.
    apply H. by destruct Hroom.
  - unfold Selector.begin in Hrun.
    destruct (Selector.fallback_before_gix (selector w) located) as [reason|].
    + destruct (Selector.count_fallback _ _) as [s1|]; [|done]. simpl in Hrun.
      by destruct (Selector.answer_with_cli _ _).
    + injection Hrun as <-. destruct Hw. by split.
  - pose proof (finish_spec probe layout answer (before ++ after) w Hw) as H.
    rewrite Hrun in H. apply H. by destruct Hroom.
Qed.

Lemma steps_room w w' : rtc step w w' → room w' → room w.
Proof. induction 1; eauto using step_room. Qed.

Lemma steps_engine_ok p t w : rtc step (initial p t) w → room w → engine_ok w.
Proof.
  generalize (initial_ok p t). generalize (initial p t). intros w0 H0 Hsteps.
  induction Hsteps as [|w0 w1 w Hstep Hsteps IH]; intros Hroom; [done|].
  apply IH; [|done]. eapply step_ok; [done| |done]. by eapply steps_room.
Qed.

Lemma all_success_row l : Forall (eq true) l → two_in_a_row l = false.
Proof. induction 1 as [|x l <- Hl IH]; [done|]. simpl. exact IH. Qed.

Lemma is_pinned_spec w dir :
  engine_ok w → Selector.is_pinned (selector w) dir = two_in_a_row (outcomes_of w dir).
Proof.
  intros Hw. pose proof (eo_entries _ Hw dir) as Hent. unfold Selector.is_pinned.
  destruct (failures (selector w) !! dir); simpl in *; [apply Hent|].
  symmetry. by apply all_success_row.
Qed.

Lemma pinned_falls_back s layout disk :
  Selector.is_pinned s (git_dir layout) = true →
  Selector.fallback_before_gix s (Some (layout, disk)) ≠ None.
Proof.
  intros Hpin. unfold Selector.fallback_before_gix. case_bool_decide; [done|]. simpl.
  rewrite Hpin. by repeat case_match.
Qed.
