(* ===== verification/GitStatus.v ===== *)
(** * The status of a repository

    The [Snapshot] of [paneflow-git/src/lib.rs] as [snapshot.rs] and [submodule.rs]
    collect it from the items of a status, and the porcelain records of
    [porcelain.rs].  A [BTreeMap] is the one of [OrderedMap], keys are paths.  The
    types of the crate [gix] that the code matches on are inductive types with the
    constructors and fields it uses; what the crate computes - the items, the
    entries of the index with the state of their files, the states of submodules -
    are arguments. *)

From stdpp Require Import list strings.
From S2P Require Import Prelude GitTypes OrderedMap.

(** ** [lib.rs] *)

Inductive IndexChange := IndexAdded | IndexModified | IndexDeleted | IndexTypeChange.

Record SubmoduleChange := mkSubmoduleChange {
  commit_changed : bool; modified_content : bool; untracked_content : bool }.

Definition is_dirty (c : SubmoduleChange) : bool :=
  commit_changed c || modified_content c || untracked_content c.

Inductive WorktreeChange :=
  | Modified | Deleted | TypeChange | IntentToAdd | Submodule (change : SubmoduleChange).

Inductive Conflict :=
  | BothDeleted | AddedByUs | DeletedByThem | AddedByThem | DeletedByUs | BothAdded | BothModified.

#[export] Instance IndexChange_eq_dec : EqDecision IndexChange.
Proof. solve_decision. Defined.
#[export] Instance SubmoduleChange_eq_dec : EqDecision SubmoduleChange.
Proof. solve_decision. Defined.
#[export] Instance WorktreeChange_eq_dec : EqDecision WorktreeChange.
Proof. solve_decision. Defined.
#[export] Instance Conflict_eq_dec : EqDecision Conflict.
Proof. solve_decision. Defined.

Record Entry := mkEntry {
  e_path : bytes;
  head_to_index : option IndexChange;
  index_to_worktree : option WorktreeChange;
  e_conflict : option Conflict;
  untracked : bool;
  stat_dirty : bool }.

(** [Entry { path, ..Entry::default() }]. *)
Definition Entry_new (path : bytes) : Entry := mkEntry path None None None false false.

Definition set_head_to_index v (e : Entry) : Entry :=
  mkEntry (e_path e) v (index_to_worktree e) (e_conflict e) (untracked e) (stat_dirty e).
Definition set_index_to_worktree v (e : Entry) : Entry :=
  mkEntry (e_path e) (head_to_index e) v (e_conflict e) (untracked e) (stat_dirty e).
Definition set_conflict v (e : Entry) : Entry :=
  mkEntry (e_path e) (head_to_index e) (index_to_worktree e) v (untracked e) (stat_dirty e).
Definition set_untracked v (e : Entry) : Entry :=
  mkEntry (e_path e) (head_to_index e) (index_to_worktree e) (e_conflict e) v (stat_dirty e).
Definition set_stat_dirty v (e : Entry) : Entry :=
  mkEntry (e_path e) (head_to_index e) (index_to_worktree e) (e_conflict e) (untracked e) v.

Inductive Head := Unborn | HeadTree (tree : bytes).

Record Stored := mkStored { stored_mode : N; stored_id : bytes }.

Record Sides := mkSides {
  side_head : option Stored; side_index : option Stored; worktree_mode_of_side : option N }.

Definition Sides_default : Sides := mkSides None None None.

Record Snapshot := mkSnapshot {
  head_of : Head;
  prefix : bytes;
  snapshot_entries : list Entry;
  snapshot_sides : BTreeMap.t Sides;
  truncated : bool;
  submodules_opened : nat }.

(** ** [porcelain.rs] *)

Record Record_ := mkRecord { code : N * N; record_path : bytes }.

(** The letters of the codes, as bytes. *)
Definition SPACE : N := 32.
Definition LETTER_A : N := 65.
Definition LETTER_D : N := 68.
Definition LETTER_M : N := 77.
Definition LETTER_T : N := 84.
Definition LETTER_U : N := 85.
Definition UNTRACKED_CODE : N * N := (63, 63)%N.

Definition index_code (change : IndexChange) : N :=
  match change with
  | IndexAdded => LETTER_A | IndexModified => LETTER_M
  | IndexDeleted => LETTER_D | IndexTypeChange => LETTER_T
  end.

Definition worktree_code (change : WorktreeChange) : N :=
  match change with
  | Modified => LETTER_M
  | Deleted => LETTER_D
  | TypeChange => LETTER_T
  | IntentToAdd => LETTER_A
  | Submodule submodule => if is_dirty submodule then LETTER_M else SPACE
  end.

Definition conflict_code (conflict : Conflict) : N * N :=
  match conflict with
  | BothDeleted => (LETTER_D, LETTER_D)
  | AddedByUs => (LETTER_A, LETTER_U)
  | DeletedByThem => (LETTER_U, LETTER_D)
  | AddedByThem => (LETTER_U, LETTER_A)
  | DeletedByUs => (LETTER_D, LETTER_U)
  | BothAdded => (LETTER_A, LETTER_A)
  | BothModified => (LETTER_U, LETTER_U)
  end.

Definition entry_records (entry : Entry) (records : list Record_) : list Record_ :=
  match e_conflict entry with
  | Some conflict => records ++ [mkRecord (conflict_code conflict) (e_path entry)]
  | None =>
      let code := (default SPACE (index_code <$> head_to_index entry),
                   default SPACE (worktree_code <$> index_to_worktree entry)) in
      let records := if bool_decide (code ≠ (SPACE, SPACE))
                     then records ++ [mkRecord code (e_path entry)] else records in
      if untracked entry then records ++ [mkRecord UNTRACKED_CODE (e_path entry)] else records
  end.

Definition records (snapshot : Snapshot) : list Record_ :=
  foldl (λ records entry, entry_records entry records) [] (snapshot_entries snapshot).

(** ** The items of a status *)

(** [gix::index::entry::Mode]. *)
Definition FILE : N := 33188.
Definition FILE_EXECUTABLE : N := 33261.
Definition SYMLINK : N := 40960.
Definition COMMIT : N := 57344.
Definition DIR : N := 16384.

(** [gix::diff::index::Change], with the location of each. *)
Inductive ChangeRef :=
  | Addition (location : bytes) (entry_mode : N) (id : bytes)
  | Deletion (location : bytes) (entry_mode : N) (id : bytes)
  | Modification (location : bytes) (previous_entry_mode : N) (previous_id : bytes)
                 (entry_mode : N) (id : bytes)
  | Rewrite (location : bytes) (entry_mode : N) (id : bytes).

Definition change_location (c : ChangeRef) : bytes :=
  match c with
  | Addition l _ _ | Deletion l _ _ | Modification l _ _ _ _ | Rewrite l _ _ => l
  end.

(** [EntryStatus] and its [Change]. *)
Inductive EntryStatus :=
  | StatusConflict (summary : Conflict)
  | NeedsUpdate
  | StatusIntentToAdd
  | ChangeRemoved
  | ChangeType (worktree_mode : N)
  | ChangeModification (executable_bit_changed : bool)
  | ChangeSubmodule.

(** [gix::status::Item]. *)
Inductive Item :=
  | TreeIndex (change : ChangeRef)
  | WorktreeModification (index_mode : N) (index_id : bytes) (rela_path : bytes) (status : EntryStatus)
  | DirectoryContents (rela_path : bytes) (is_untracked : bool) (is_directory : bool)
  | WorktreeRewrite.

(** ** [snapshot.rs] *)

Definition Entries := BTreeMap.t Entry.

Record Recorded := mkRecorded { recorded_sides : Sides; staged : bool }.

Definition SideMap := BTreeMap.t Recorded.

(** [entry(entries, path)], written by [f]. *)
Definition update_entry (entries : Entries) (path : bytes) (f : Entry → Entry) : Entries :=
  BTreeMap.insert entries path (f (default (Entry_new path) (BTreeMap.get entries path))).

(** [sides.entry(path).or_default()], written by [f]. *)
Definition update_recorded (sides : SideMap) (path : bytes) (f : Recorded → Recorded) : SideMap :=
  BTreeMap.insert sides path (f (default (mkRecorded Sides_default false) (BTreeMap.get sides path))).

(** [side(sides, path)], written by [f]. *)
Definition update_side (sides : SideMap) (path : bytes) (f : Sides → Sides) : SideMap :=
  update_recorded sides path (λ r, mkRecorded (f (recorded_sides r)) (staged r)).

(** [if side.index.is_none() { side.index = Some(stored) }]. *)
Definition set_index_once (stored : Stored) (s : Sides) : Sides :=
  match side_index s with
  | None => mkSides (side_head s) (Some stored) (worktree_mode_of_side s)
  | Some _ => s
  end.

Definition gitlink (id : bytes) : Stored := mkStored COMMIT id.

Definition record_tree_index_sides (sides : SideMap) (change : ChangeRef) : SideMap :=
  let '(head, index) :=
    match change with
    | Addition _ entry_mode id => (None, Some (mkStored entry_mode id))
    | Deletion _ entry_mode id => (Some (mkStored entry_mode id), None)
    | Modification _ previous_entry_mode previous_id entry_mode id =>
        (Some (mkStored previous_entry_mode previous_id), Some (mkStored entry_mode id))
    | Rewrite _ entry_mode id => (None, Some (mkStored entry_mode id))
    end in
  update_recorded sides (change_location change) (λ r,
    mkRecorded (mkSides head index (worktree_mode_of_side (recorded_sides r))) true).

Definition worktree_mode (index_mode : N) (status : EntryStatus) : option N :=
  match status with
  | ChangeType worktree_mode => Some worktree_mode
  | ChangeModification true =>
      Some (if (index_mode =? FILE)%N then FILE_EXECUTABLE
            else if (index_mode =? FILE_EXECUTABLE)%N then FILE else index_mode)
  | ChangeModification false | StatusIntentToAdd => Some index_mode
  | _ => None
  end.

Inductive ObjectKind := KindBlob | KindLink | KindCommit | KindTree.

#[export] Instance ObjectKind_eq_dec : EqDecision ObjectKind.
Proof. solve_decision. Defined.

Definition object_kind (mode : N) : ObjectKind :=
  if (mode =? SYMLINK)%N then KindLink
  else if (mode =? COMMIT)%N then KindCommit
  else if (mode =? DIR)%N then KindTree
  else KindBlob.

Definition tree_index_change (change : ChangeRef) : IndexChange :=
  match change with
  | Addition _ _ _ => IndexAdded
  | Deletion _ _ _ => IndexDeleted
  | Modification _ previous_entry_mode _ entry_mode _ =>
      if bool_decide (object_kind previous_entry_mode = object_kind entry_mode)
      then IndexModified else IndexTypeChange
  | Rewrite _ _ _ => IndexAdded
  end.

Definition record_worktree_status (entries : Entries) (path : bytes) (status : EntryStatus) :
    Entries :=
  let change change := update_entry entries path (set_index_to_worktree (Some change)) in
  match status with
  | StatusConflict summary => update_entry entries path (set_conflict (Some summary))
  | NeedsUpdate => entries
  | StatusIntentToAdd => change IntentToAdd
  | ChangeRemoved => change Deleted
  | ChangeType _ => change TypeChange
  | ChangeModification _ => change Modified
  | ChangeSubmodule => entries
  end.

(** The separator of paths. *)
Definition SLASH : N := 47.

Definition record (state : Entries * SideMap) (item : Item) : Entries * SideMap :=
  let '(entries, sides) := state in
  match item with
  | TreeIndex change =>
      (update_entry entries (change_location change)
         (set_head_to_index (Some (tree_index_change change))),
       record_tree_index_sides sides change)
  | WorktreeModification index_mode index_id rela_path status =>
      (record_worktree_status entries rela_path status,
       update_side sides rela_path (λ s,
         let s := set_index_once (mkStored index_mode index_id) s in
         match worktree_mode index_mode status with
         | Some mode => mkSides (side_head s) (side_index s) (Some mode)
         | None => s
         end))
  | DirectoryContents rela_path is_untracked is_directory =>
      if negb is_untracked then (entries, sides)
      else
        let path := if is_directory then rela_path ++ [SLASH] else rela_path in
        (update_entry entries path (set_untracked true), sides)
  | WorktreeRewrite => (entries, sides)
  end.

(** An entry of the index: [stat] is [Some matches] when its file could be read. *)
Record IndexEntry := mkIndexEntry {
  unconflicted : bool; index_entry_mode : N; intent_to_add_or_skipped : bool;
  index_entry_path : bytes; index_entry_id : bytes; stat : option bool }.

Definition record_stat_dirty_one (state : Entries * SideMap) (index_entry : IndexEntry) :
    Entries * SideMap :=
  let '(entries, sides) := state in
  if negb (unconflicted index_entry) || (index_entry_mode index_entry =? COMMIT)%N
     || intent_to_add_or_skipped index_entry
  then state
  else
    let path := index_entry_path index_entry in
    if match BTreeMap.get entries path with
       | Some entry => bool_decide (is_Some (index_to_worktree entry))
                       || bool_decide (is_Some (e_conflict entry))
       | None => false
       end
    then state
    else
      match stat index_entry with
      | None | Some true => state
      | Some false =>
          (update_entry entries path (set_stat_dirty true),
           update_side sides path
             (set_index_once (mkStored (index_entry_mode index_entry) (index_entry_id index_entry))))
      end.

Definition record_stat_dirty (index : list IndexEntry) (state : Entries * SideMap) :
    Entries * SideMap := foldl record_stat_dirty_one state index.

(** ** [submodule.rs] *)

Inductive Ignore := IgnoreAll | IgnoreDirty | IgnoreUntracked | IgnoreNone.

#[export] Instance Ignore_eq_dec : EqDecision Ignore.
Proof. solve_decision. Defined.

(** A submodule as the crate describes it: [opened] is [None] when its repository
    cannot be opened, else the commit checked out and the snapshot of its content. *)
Record SubmoduleState := mkSubmoduleState {
  submodule_path : bytes; submodule_ignore : Ignore;
  repository_exists : bool; worktree_checkout : bool; index_id : option bytes;
  opened : option (option bytes * (Ignore → result Snapshot Error)) }.

(** [status] of [submodule.rs]. *)
Definition submodule_status (s : SubmoduleState) :
    result (SubmoduleChange * nat * option bytes) Error :=
  let unchanged := mkSubmoduleChange false false false in
  if negb (repository_exists s) || negb (worktree_checkout s) then Ok (unchanged, 0, None)
  else
    match index_id s with
    | None => Ok (unchanged, 0, None)
    | Some index_id =>
        match opened s with
        | None => Ok (unchanged, 1, None)
        | Some (checked_out, collect) =>
            let changed := bool_decide (checked_out ≠ Some index_id) in
            if bool_decide (submodule_ignore s = IgnoreDirty)
            then Ok (mkSubmoduleChange changed false false, 1, Some index_id)
            else
              match collect (submodule_ignore s) with
              | Err e => Err e
              | Ok content =>
                  let modified := existsb (λ entry,
                    bool_decide (is_Some (head_to_index entry))
                    || bool_decide (is_Some (index_to_worktree entry))
                    || bool_decide (is_Some (e_conflict entry))) (snapshot_entries content) in
                  let has_untracked := existsb untracked (snapshot_entries content) in
                  Ok (mkSubmoduleChange changed modified has_untracked,
                      1 + submodules_opened content, Some index_id)
              end
        end
    end.

(** [record] of [submodule.rs]; a submodule that could not be read is an [Err]. *)
Fixpoint record_submodules (submodules : list (result SubmoduleState Error))
    (state : Entries * SideMap) (count : nat) : result (nat * (Entries * SideMap)) Error :=
  match submodules with
  | [] => Ok (count, state)
  | Err e :: _ => Err e
  | Ok s :: submodules =>
      if bool_decide (submodule_ignore s = IgnoreAll) then record_submodules submodules state count
      else
        match submodule_status s with
        | Err e => Err e
        | Ok (change, opens, index_id) =>
            let count := count + opens in
            match (if is_dirty change then index_id else None) with
            | None => record_submodules submodules state count
            | Some index_id =>
                let '(entries, sides) := state in
                let path := submodule_path s in
                let entry := default (Entry_new path) (BTreeMap.get entries path) in
                match index_to_worktree entry with
                | None =>
                    record_submodules submodules
                      (update_entry entries path (set_index_to_worktree (Some (Submodule change))),
                       update_side sides path (set_index_once (gitlink index_id))) count
                | Some _ =>
                    record_submodules submodules (update_entry entries path (λ e, e), sides) count
                end
            end
        end
  end.

(** ** [collect] *)

(** [kept_sides]. *)
Fixpoint kept_sides_loop (entries : list Entry) (recorded : SideMap) (kept : BTreeMap.t Sides) :
    BTreeMap.t Sides :=
  match entries with
  | [] => kept
  | entry :: entries =>
      match BTreeMap.get recorded (e_path entry) with
      | None => kept_sides_loop entries recorded kept
      | Some r =>
          let sides := recorded_sides r in
          let sides :=
            if negb (staged r) && bool_decide (index_to_worktree entry ≠ Some IntentToAdd)
            then mkSides (side_index sides) (side_index sides) (worktree_mode_of_side sides)
            else sides in
          kept_sides_loop entries (BTreeMap.remove recorded (e_path entry))
            (BTreeMap.insert kept (e_path entry) sides)
      end
  end.

Definition kept_sides (entries : list Entry) (recorded : SideMap) : BTreeMap.t Sides :=
  kept_sides_loop entries recorded [].

(** The loop over [entries.values_mut()]. *)
Definition settle_entry (e : Entry) : Entry :=
  let e := if bool_decide (index_to_worktree e = Some IntentToAdd)
           then set_head_to_index None e else e in
  if bool_decide (is_Some (e_conflict e)) then set_untracked false e else e.

(** The loop over the items: an item that could not be computed ends it. *)
Fixpoint record_items (items : list (result Item string)) (state : Entries * SideMap) :
    result (Entries * SideMap) Error :=
  match items with
  | [] => Ok state
  | Err message :: _ => Err (Git "compute the status" message)
  | Ok item :: items => record_items items (record state item)
  end.

(** [collect] once the status is prepared: [index] is the index it wrote back when the
    options ask for files that only look changed, [submodules] those it checks. *)
Definition collect (head : Head) (items : list (result Item string)) (interrupted : bool)
    (index : option (list IndexEntry)) (submodules : list (result SubmoduleState Error))
    (entry_cap : nat) : result Snapshot Error :=
  match record_items items ([], []) with
  | Err e => Err e
  | Ok state =>
      if interrupted then Err Interrupted
      else
        let state := match index with Some index => record_stat_dirty index state | None => state end in
        match record_submodules submodules state 0 with
        | Err e => Err e
        | Ok (count, (entries, sides)) =>
            let entries := BTreeMap.map_values settle_entry entries in
            let kept := take entry_cap (BTreeMap.values entries) in
            Ok (mkSnapshot head [] kept (kept_sides kept sides)
                  (entry_cap <? length entries) count)
        end
  end.
