(* ===== verification/GitStatusCorrect.v ===== *)
(** * The snapshot of a status

    The state that [collect] threads is well formed: its maps are sorted, entries lie
    under their path and every entry that changed has sides ([state_ok]).  [settles]
    lists what follows for a snapshot.  The items of the two threads of a status
    commute ([interleave_same]), so that the order in which they arrive does not
    matter. *)

From stdpp Require Import list strings sorting.
From S2P Require Import Prelude GitTypes OrderedMap GitStatus.

(** ** Ordered maps *)

Section maps.
Context {V : Type}.
Implicit Types m : BTreeMap.t V.

(** Maps with the same lookups are equal. *)
Lemma btree_ext m1 : ∀ m2, sorted m1 → sorted m2 →
  (∀ k, BTreeMap.get m1 k = BTreeMap.get m2 k) → m1 = m2.
Proof.
  assert (Hhead : ∀ k v m, sorted ((k, v) :: m) → BTreeMap.get m k = None).
  { intros k v m [_ Hk]%sorted_cons. by apply get_below. }
  induction m1 as [|[k1 v1] m1 IH]; intros [|[k2 v2] m2] H1 H2 Hget.
  - done.
  - specialize (Hget k2). simpl in Hget. by rewrite bool_decide_true in Hget.
  - specialize (Hget k1). simpl in Hget. by rewrite bool_decide_true in Hget.
  - pose proof H1 as [Hs1 Hk1]%sorted_cons. pose proof H2 as [Hs2 Hk2]%sorted_cons.
    assert (k1 = k2) as <-.
    { destruct (decide (k1 = k2)) as [|Hne]; [done|]. exfalso.
      pose proof (Hget k1) as G1. pose proof (Hget k2) as G2. simpl in G1, G2.
      rewrite bool_decide_true, bool_decide_false in G1 by done.
      rewrite bool_decide_false, bool_decide_true in G2 by done.
      symmetry in G1. apply get_some_key in G1, G2. rewrite Forall_forall in Hk1, Hk2.
      apply (str_lt_irrefl k1). transitivity k2; auto. }
    pose proof (Hget k1) as G1. simpl in G1. rewrite !bool_decide_true in G1 by done.
    injection G1 as <-. f_equal. apply IH; [done..|]. intros k. specialize (Hget k). simpl in Hget.
    destruct (decide (k = k1)) as [->|Hne]; [|by rewrite !bool_decide_false in Hget by done].
    by rewrite (Hhead _ _ _ H1), (Hhead _ _ _ H2).
Qed.

Lemma insert_commute m k1 k2 v1 v2 :
  sorted m → k1 ≠ k2 →
  BTreeMap.insert (BTreeMap.insert m k1 v1) k2 v2 = BTreeMap.insert (BTreeMap.insert m k2 v2) k1 v1.
Proof.
  intros Hm Hne. apply btree_ext; [by auto with paneflow..|]. intros k.
  destruct (decide (k = k1)) as [->|]; [|destruct (decide (k = k2)) as [->|]].
  - by rewrite get_insert_ne, !get_insert by done.
  - by rewrite get_insert, get_insert_ne, get_insert by done.
  - by rewrite !get_insert_ne by done.
Qed.
End maps.

(** ** Updates at a path *)

Lemma update_entry_get entries path f k :
  BTreeMap.get (update_entry entries path f) k =
  if bool_decide (k = path) then Some (f (default (Entry_new path) (BTreeMap.get entries path)))
  else BTreeMap.get entries k.
Proof.
  unfold update_entry. case_bool_decide; subst; [apply get_insert|by apply get_insert_ne].
Qed.

Lemma update_recorded_get sides path f k :
  BTreeMap.get (update_recorded sides path f) k =
  if bool_decide (k = path)
  then Some (f (default (mkRecorded Sides_default false) (BTreeMap.get sides path)))
  else BTreeMap.get sides k.
Proof.
  unfold update_recorded. case_bool_decide; subst; [apply get_insert|by apply get_insert_ne].
Qed.

Lemma update_entry_commute entries p1 p2 f g :
  sorted entries → (p1 = p2 → ∀ e, f (g e) = g (f e)) →
  update_entry (update_entry entries p1 f) p2 g = update_entry (update_entry entries p2 g) p1 f.
Proof.
  intros Hs Hfg. destruct (decide (p1 = p2)) as [->|Hne].
  - unfold update_entry. rewrite !get_insert. simpl. by rewrite !insert_insert, Hfg.
  - unfold update_entry. rewrite !get_insert_ne by done. by apply insert_commute.
Qed.

Lemma update_recorded_commute sides p1 p2 f g :
  sorted sides → (p1 = p2 → ∀ r, f (g r) = g (f r)) →
  update_recorded (update_recorded sides p1 f) p2 g = update_recorded (update_recorded sides p2 g) p1 f.
Proof.
  intros Hs Hfg. destruct (decide (p1 = p2)) as [->|Hne].
  - unfold update_recorded. rewrite !get_insert. simpl. by rewrite !insert_insert, Hfg.
  - unfold update_recorded. rewrite !get_insert_ne by done. by apply insert_commute.
Qed.

(** ** The invariant of [collect] *)

(** The entry needs the sides of its path. *)
Definition changed (e : Entry) : Prop :=
  is_Some (head_to_index e) ∨ is_Some (index_to_worktree e) ∨ stat_dirty e = true.

Record state_ok (st : Entries * SideMap) : Prop := {
  so_entries : sorted st.1;
  so_sides : sorted st.2;
  so_path k e : BTreeMap.get st.1 k = Some e → e_path e = k;
  so_recorded k e : BTreeMap.get st.1 k = Some e → changed e → is_Some (BTreeMap.get st.2 k) }.

(** An update of an entry keeps its path. *)
Definition keeps_path (f : Entry → Entry) : Prop := ∀ e, e_path (f e) = e_path e.

Lemma state_ok_update entries sides sides' path f :
  state_ok (entries, sides) → keeps_path f → sorted sides' →
  (∀ k, is_Some (BTreeMap.get sides k) → is_Some (BTreeMap.get sides' k)) →
  ((∀ e, changed (f e) → changed e) ∨ is_Some (BTreeMap.get sides' path)) →
  state_ok (update_entry entries path f, sides').
Proof.
  intros [Hs _ Hp Hr] Hf Hs' Hmono Hpath. simpl in *. split; simpl; [|done|..].
  - unfold update_entry. by auto with paneflow.
  - intros k e. rewrite update_entry_get. case_bool_decide; subst; [|by apply Hp].
    intros [= <-]. rewrite Hf. destruct (BTreeMap.get entries path) eqn:Hg; simpl; [by apply Hp|done].
  - intros k e. rewrite update_entry_get. case_bool_decide; subst; [|by eauto].
    intros [= <-] Hc. destruct Hpath as [Hback|?]; [|done]. apply Hback in Hc.
    destruct (BTreeMap.get entries path) eqn:Hg; simpl in Hc; [by eauto|].
    destruct Hc as [[? ?]|[[? ?]|?]]; done.
Qed.

Lemma update_recorded_sorted sides path f : sorted sides → sorted (update_recorded sides path f).
Proof. intros. unfold update_recorded. by auto with paneflow. Qed.

Lemma update_recorded_mono sides path f k :
  is_Some (BTreeMap.get sides k) → is_Some (BTreeMap.get (update_recorded sides path f) k).
Proof. rewrite update_recorded_get. case_bool_decide; [by eexists|done]. Qed.

Lemma update_recorded_at sides path f : is_Some (BTreeMap.get (update_recorded sides path f) path).
Proof. rewrite update_recorded_get, bool_decide_true by done. by eexists. Qed.

#[export] Hint Resolve update_recorded_sorted update_recorded_mono update_recorded_at : paneflow.

(** Writing sides only. *)
Lemma state_ok_sides entries sides path f :
  state_ok (entries, sides) → state_ok (entries, update_recorded sides path f).
Proof.
  intros [Hs1 Hs2 Hp Hr]. split; simpl in *; [done|by auto with paneflow|done|].
  intros k e Hk Hc. apply update_recorded_mono. eauto.
Qed.

Lemma record_ok st item : state_ok st → state_ok (record st item).
Proof.
  destruct st as [entries sides]. intros Hok. pose proof (so_sides _ Hok) as Hs. simpl in Hs.
  destruct item as [change|index_mode index_id path status|path is_untracked is_directory|]; simpl.
  - assert (∃ f, record_tree_index_sides sides change =
              update_recorded sides (change_location change) f) as [f ->].
    { destruct change; by eexists. }
    apply (state_ok_update entries sides); [done|by intros ?|by auto with paneflow..|].
    right. by auto with paneflow.
  - unfold record_worktree_status, update_side.
    destruct status; try (apply state_ok_sides; done);
      (apply (state_ok_update entries sides); [done|by intros ?|by auto with paneflow..|]);
      right; by auto with paneflow.
  - destruct (negb is_untracked); [done|].
    apply (state_ok_update entries sides); [done|by intros ?|done..|]. by left.
  - done.
Qed.

Lemma record_stat_dirty_ok index st : state_ok st → state_ok (record_stat_dirty index st).
Proof.
  unfold record_stat_dirty. revert st. induction index as [|entry index IH]; [done|].
  intros st Hok. simpl. apply IH. destruct st as [entries sides]. unfold record_stat_dirty_one.
  pose proof (so_sides _ Hok) as Hs. simpl in Hs. do 2 (case_match; [done|]).
  destruct (stat entry) as [[]|]; [done| |done]. unfold update_side.
  apply (state_ok_update entries sides); [done|by intros ?|by auto with paneflow..|].
  right. by auto with paneflow.
Qed.

Lemma record_submodules_ok submodules st count :
  state_ok st →
  match record_submodules submodules st count with
  | Ok (_, st) => state_ok st
  | Err _ => True
  end.
Proof.
  revert st count. induction submodules as [|[s|e] submodules IH]; intros st count Hok; simpl; [done| |done].
  case_bool_decide; [by apply IH|].
  destruct (submodule_status s) as [[[change opens] index_id]|]; [|done].
  destruct (if is_dirty change then index_id else None) as [oid|]; [|by apply IH].
  destruct st as [entries sides]. pose proof (so_sides _ Hok) as Hs. simpl in Hs.
  unfold update_side. destruct (index_to_worktree _); apply IH.
  - apply (state_ok_update entries sides); [done|by intros ?|done..|]. by left.
  - apply (state_ok_update entries sides); [done|by intros ?|by auto with paneflow..|].
    right. by auto with paneflow.
Qed.

Lemma record_items_ok items st :
  state_ok st → match record_items items st with Ok st => state_ok st | Err _ => True end.
Proof.
  revert st. induction items as [|[item|e] items IH]; intros st Hok; simpl; [done| |done].
  by apply IH, record_ok.
Qed.

Lemma state_ok_empty : state_ok ([], []).
Proof. split; try done; constructor. Qed.

(** ** The snapshot *)

(** The sides kept for an entry. *)
Definition kept_side (e : Entry) (r : Recorded) : Sides :=
  let sides := recorded_sides r in
  if negb (staged r) && bool_decide (index_to_worktree e ≠ Some IntentToAdd)
  then mkSides (side_index sides) (side_index sides) (worktree_mode_of_side sides)
  else sides.

Lemma kept_sides_loop_spec entries : ∀ recorded kept,
  NoDup (e_path <$> entries) → sorted recorded → sorted kept →
  sorted (kept_sides_loop entries recorded kept) ∧
  (∀ k, k ∉ e_path <$> entries →
     BTreeMap.get (kept_sides_loop entries recorded kept) k = BTreeMap.get kept k) ∧
  (∀ e r, e ∈ entries → BTreeMap.get recorded (e_path e) = Some r →
     BTreeMap.get (kept_sides_loop entries recorded kept) (e_path e) = Some (kept_side e r)).
Proof.
  induction entries as [|e entries IH]; intros recorded kept Hnd Hr Hk; simpl.
  { split_and!; [done|done|]. by intros e r ?%elem_of_nil. }
  simpl in Hnd. apply NoDup_cons in Hnd as [He Hnd].
  destruct (BTreeMap.get recorded (e_path e)) as [r|] eqn:Hg.
  - fold (kept_side e r).
    assert (Hget : ∀ k, k ≠ e_path e →
              BTreeMap.get (BTreeMap.remove recorded (e_path e)) k = BTreeMap.get recorded k).
    { intros k Hne. unfold BTreeMap.remove. rewrite get_retain by done.
      destruct (BTreeMap.get recorded k); simpl; [|done]. by rewrite bool_decide_true. }
    destruct (IH (BTreeMap.remove recorded (e_path e)) (BTreeMap.insert kept (e_path e) (kept_side e r)))
      as (Hs & Hout & Hin); [done|by apply sorted_retain|by apply sorted_insert|].
    split_and!; [done| |].
    + intros k Hk'. rewrite not_elem_of_cons in Hk'. destruct Hk' as [Hne Hk'].
      rewrite Hout by done. by rewrite get_insert_ne.
    + intros e' r' [->|He']%elem_of_cons Hg'.
      * rewrite Hout, get_insert by done. by simplify_eq.
      * apply Hin; [done|]. rewrite Hget; [done|]. intros Heq. apply He. rewrite <- Heq.
        by apply list_elem_of_fmap_2.
  - destruct (IH recorded kept Hnd Hr Hk) as (Hs & Hout & Hin). split_and!; [done| |].
    + intros k [_ Hk']%not_elem_of_cons. by apply Hout.
    + intros e' r' [->|He']%elem_of_cons Hg'; [congruence|by apply Hin].
Qed.

Lemma map_values_values {V} (f : V → V) (m : BTreeMap.t V) :
  BTreeMap.values (BTreeMap.map_values f m) = f <$> BTreeMap.values m.
Proof. unfold BTreeMap.values, BTreeMap.map_values. rewrite <- !list_fmap_compose. done. Qed.

(** The entries of a well-formed map, in the order of their paths. *)
Lemma values_paths (m : Entries) :
  (∀ k e, BTreeMap.get m k = Some e → e_path e = k) → sorted m →
  e_path <$> BTreeMap.values m = BTreeMap.keys m.
Proof.
  intros Hp. induction m as [|[k e] m IH]; [done|]. intros [Hs Hk]%sorted_cons. simpl. f_equal.
  - apply (Hp k). simpl. by rewrite bool_decide_true.
  - apply IH; [|done]. intros k' e' Hg. apply (Hp k'). simpl.
    rewrite bool_decide_false; [done|]. intros ->. apply get_below in Hk. congruence.
Qed.

Lemma values_get {V} (m : BTreeMap.t V) v :
  sorted m → v ∈ BTreeMap.values m → ∃ k, BTreeMap.get m k = Some v.
Proof.
  induction m as [|[k w] m IH]; simpl; [by intros _ ?%elem_of_nil|].
  intros [Hs Hk]%sorted_cons [->|Hv]%elem_of_cons.
  - exists k. by rewrite bool_decide_true.
  - destruct (IH Hs Hv) as [k' Hg]. exists k'.
    rewrite bool_decide_false; [done|]. intros ->. apply get_below in Hk. congruence.
Qed.

Lemma settle_entry_path e : e_path (settle_entry e) = e_path e.
Proof. unfold settle_entry. do 2 case_bool_decide; done. Qed.

Lemma settle_entry_changed e : changed (settle_entry e) → changed e.
Proof.
  unfold settle_entry, changed. do 2 case_bool_decide; simpl; try tauto;
    intros [[? ?]|[?|?]]; try done; tauto.
Qed.

(** What a snapshot promises: its entries are sorted by path, those that changed have
    sides and sides are of entries, and no entry is both in a conflict and untracked, nor added to
    the index in two ways. *)
Record settled (entry_cap : nat) (s : Snapshot) : Prop := {
  st_sorted : StronglySorted str_lt (e_path <$> snapshot_entries s);
  st_cap : length (snapshot_entries s) ≤ entry_cap;
  st_sides e : e ∈ snapshot_entries s → changed e →
    is_Some (BTreeMap.get (snapshot_sides s) (e_path e));
  st_no_more k : is_Some (BTreeMap.get (snapshot_sides s) k) →
    k ∈ e_path <$> snapshot_entries s;
  st_conflict e : e ∈ snapshot_entries s → is_Some (e_conflict e) → untracked e = false;
  st_intent e : e ∈ snapshot_entries s → index_to_worktree e = Some IntentToAdd →
    head_to_index e = None }.

Lemma collect_settled head items interrupted index submodules entry_cap s :
  collect head items interrupted index submodules entry_cap = Ok s → settled entry_cap s.
Proof.
  unfold collect. pose proof (record_items_ok items _ state_ok_empty) as Hitems.
  destruct (record_items items ([], [])) as [st|]; [|done].
  destruct interrupted; [done|].
  set (st' := match index with Some _ => _ | None => _ end).
  assert (state_ok st') as Hst' by (destruct index; [by apply record_stat_dirty_ok|done]).
  pose proof (record_submodules_ok submodules st' 0 Hst') as Hsub.
  destruct (record_submodules submodules st' 0) as [[count [entries sides]]|]; [|done].
  intros [= <-]. clear st st' Hst' Hitems.
  destruct Hsub as [Hs1 Hs2 Hp Hr]. simpl in *. rewrite map_values_values.
  set (kept := take entry_cap _).
  assert (e_path <$> kept = take entry_cap (BTreeMap.keys entries)) as Hpaths.
  { unfold kept. rewrite fmap_take, <- (values_paths entries) by done.
    f_equal. rewrite <- list_fmap_compose. apply list_fmap_ext. intros i e _. apply settle_entry_path. }
  assert (StronglySorted str_lt (e_path <$> kept)) as Hsort.
  { rewrite Hpaths. unfold sorted in Hs1. rewrite <- (take_drop entry_cap (BTreeMap.keys entries)) in Hs1.
    by eapply StronglySorted_app_1_l. }
  assert (NoDup (e_path <$> kept)) as Hnd.
  { eapply StronglySorted_NoDup; [apply str_lt_irrefl|done]. }
  assert (Hkept : ∀ e, e ∈ kept → ∃ e0, e = settle_entry e0 ∧ BTreeMap.get entries (e_path e0) = Some e0).
  { intros e He. apply subseteq_take in He. apply list_elem_of_fmap in He as (e0 & -> & He0).
    exists e0. split; [done|]. apply values_get in He0 as [k Hk]; [|done].
    by rewrite (Hp k e0 Hk). }
  destruct (kept_sides_loop_spec kept sides [] Hnd Hs2) as (_ & Hout & Hin); [constructor|].
  split; simpl.
  - done.
  - unfold kept. rewrite length_take. lia.
  - intros e He Hc. destruct (Hkept e He) as (e0 & -> & Hg).
    destruct (Hr _ _ Hg (settle_entry_changed _ Hc)) as [r Hr']. unfold kept_sides.
    rewrite (Hin (settle_entry e0) r He); [by eexists|]. by rewrite settle_entry_path.
  - intros k Hk. destruct (decide (k ∈ e_path <$> kept)) as [|Hn]; [done|].
    unfold kept_sides in Hk. rewrite Hout in Hk by done. by destruct Hk.
  - intros e He Hc. destruct (Hkept e He) as (e0 & -> & _). revert Hc. unfold settle_entry.
    do 2 case_bool_decide; simpl; done.
  - intros e He. destruct (Hkept e He) as (e0 & -> & _). unfold settle_entry.
    do 2 case_bool_decide; simpl; done.
Qed.

(** ** The order of the items

    A status has two threads: one compares the tree with the index, the other the
    index with the worktree.  Their items arrive interleaved. *)

Definition is_tree_item (i : Item) : bool := match i with TreeIndex _ => true | _ => false end.

(** A file deleted from the index is not compared with the worktree. *)
Definition independent (i j : Item) : Prop :=
  match i, j with
  | TreeIndex (Deletion location _ _), WorktreeModification _ _ path _ => location ≠ path
  | _, _ => True
  end.

Inductive interleave {A} : list A → list A → list A → Prop :=
  | interleave_nil : interleave [] [] []
  | interleave_left x l k m : interleave l k m → interleave (x :: l) k (x :: m)
  | interleave_right x l k m : interleave l k m → interleave l (x :: k) (x :: m).

Lemma record_commute st i j :
  state_ok st → is_tree_item i = true → is_tree_item j = false → independent i j →
  record (record st i) j = record (record st j) i.
Proof.
  intros [Hs1 Hs2 _ _] Hi Hj Hind. destruct st as [entries sides]. simpl in *.
  destruct i as [change| | |]; try done.
  assert (Htree : ∃ head index,
    (∀ sides, record_tree_index_sides sides change =
       update_recorded sides (change_location change) (λ r,
         mkRecorded (mkSides head index (worktree_mode_of_side (recorded_sides r))) true)) ∧
    (index = None → ∃ mode id, change = Deletion (change_location change) mode id)).
  { destruct change; eexists _, _; (split; [by intros|]); try done. by eexists _, _. }
  destruct Htree as (head & index & Htree & Hindex).
  destruct j as [|index_mode index_id path status|path is_untracked is_directory|]; try done; simpl.
  - rewrite !Htree. f_equal.
    + unfold record_worktree_status.
      destruct status; try done; apply update_entry_commute; by try intros.
    + unfold update_side. apply update_recorded_commute; [done|]. intros Hp r. simpl.
      assert (index ≠ None) as Hsome.
      { intros (mode & id & Hc)%Hindex. rewrite Hc in Hind. by apply Hind. }
      destruct index as [stored|]; [|done]. unfold set_index_once.
      destruct (worktree_mode index_mode status); destruct (side_index (recorded_sides r)); done.
  - destruct (negb is_untracked); [done|]. simpl. f_equal.
    apply update_entry_commute; by try intros.
Qed.

Lemma record_past st j trees :
  state_ok st → is_tree_item j = false →
  Forall (λ i, is_tree_item i = true ∧ independent i j) trees →
  foldl record (record st j) trees = record (foldl record st trees) j.
Proof.
  intros Hok Hj Hall. revert st Hok. induction Hall as [|i trees [Hi Hind] Hall IH]; intros st Hok; [done|].
  simpl. rewrite <- record_commute by done. by apply IH, record_ok.
Qed.

Lemma interleave_same trees worktrees l st :
  interleave trees worktrees l → state_ok st →
  Forall (λ i, is_tree_item i = true) trees → Forall (λ j, is_tree_item j = false) worktrees →
  (∀ i j, i ∈ trees → j ∈ worktrees → independent i j) →
  foldl record st l = foldl record st (trees ++ worktrees).
Proof.
  intros Hl. revert st. induction Hl as [|i trees worktrees l Hl IH|j trees worktrees l Hl IH];
    intros st Hok Htrees Hworktrees Hind; simpl.
  - done.
  - apply Forall_cons in Htrees as [? ?].
    apply IH; [by apply record_ok|done..|]. intros. apply Hind; [by right|done].
  - apply Forall_cons in Hworktrees as [Hj ?].
    rewrite IH; [|by apply record_ok|done..|intros; apply Hind; [done|by right]].
    rewrite !foldl_app. simpl. f_equal. apply record_past; [done..|].
    rewrite Forall_forall in Htrees |- *. intros i Hi. split; [by apply Htrees|].
    apply Hind; [done|by left].
Qed.

Lemma record_items_ok_items items st :
  record_items (Ok <$> items) st = Ok (foldl record st items).
Proof. revert st. induction items as [|item items IH]; intros st; simpl; [done|apply IH]. Qed.

(** ** Porcelain records *)

(** The codes of conflicts. *)
Definition is_conflict_code (c : N * N) : bool :=
  bool_decide (c ∈ [(LETTER_D, LETTER_D); (LETTER_A, LETTER_U); (LETTER_U, LETTER_D);
                    (LETTER_U, LETTER_A); (LETTER_D, LETTER_U); (LETTER_A, LETTER_A);
                    (LETTER_U, LETTER_U)]).

Definition records_of (e : Entry) : list Record_ := entry_records e [].

Lemma entry_records_app e l : entry_records e l = l ++ records_of e.
Proof.
  unfold records_of, entry_records. destruct (e_conflict e); [done|]. simpl.
  case_bool_decide; destruct (untracked e); rewrite ?app_nil_r, <- ?app_assoc; done.
Qed.

Lemma records_concat s : records s = concat (records_of <$> snapshot_entries s).
Proof.
  unfold records. assert (∀ es l, foldl (λ records entry, entry_records entry records) l es =
    l ++ concat (records_of <$> es)) as Hgen; [|by rewrite Hgen].
  induction es as [|e es IH]; intros l; simpl; [by rewrite app_nil_r|].
  rewrite IH, entry_records_app. by rewrite <- app_assoc.
Qed.

(** What an entry's records say of it. *)
Lemma records_of_spec e r :
  (index_to_worktree e = Some IntentToAdd → head_to_index e = None) → r ∈ records_of e →
  e_path e = record_path r ∧
  (is_conflict_code (code r) = true →
     (∃ conflict, e_conflict e = Some conflict ∧ code r = conflict_code conflict) ∨
     (e_conflict e = None ∧ head_to_index e = Some IndexDeleted ∧
      index_to_worktree e = Some Deleted)) ∧
  (code r = UNTRACKED_CODE → untracked e = true ∧ e_conflict e = None).
Proof.
  intros Hintent. unfold records_of, entry_records.
  destruct (e_conflict e) as [conflict|]; simpl.
  { intros ->%list_elem_of_singleton. split_and!; [done|left; by exists conflict|].
    by destruct conflict. }
  assert (∀ r, r = mkRecord (default SPACE (index_code <$> head_to_index e),
                             default SPACE (worktree_code <$> index_to_worktree e)) (e_path e) →
    e_path e = record_path r ∧
    (is_conflict_code (code r) = true → head_to_index e = Some IndexDeleted ∧
       index_to_worktree e = Some Deleted) ∧ code r ≠ UNTRACKED_CODE) as Hcode.
  { intros r' ->. split; [done|]. simpl.
    destruct (head_to_index e) as [[]|], (index_to_worktree e) as [[| | | |c]|]; simpl;
      try (by specialize (Hintent eq_refl)); try (destruct (is_dirty c)); by split. }
  assert (∀ r, r = mkRecord UNTRACKED_CODE (e_path e) →
    e_path e = record_path r ∧ is_conflict_code (code r) = false) as Huntracked by by intros ? ->.
  intros Hr. destruct (untracked e).
  - apply elem_of_app in Hr as [Hr| Hr%list_elem_of_singleton].
    + case_bool_decide; [|by apply elem_of_nil in Hr].
      apply list_elem_of_singleton, Hcode in Hr as (? & ? & ?). split_and!; [done|by right; auto|done].
    + apply Huntracked in Hr as [? Hc]. rewrite Hc. by split_and!.
  - case_bool_decide; [|by apply elem_of_nil in Hr].
    apply list_elem_of_singleton, Hcode in Hr as (? & ? & ?). split_and!; [done|by right; auto|done].
Qed.
