(* ===== verification/GitListing.v ===== *)
(** * The changed files of a worktree

    From the snapshot of a repository to the list of changed files: [RawChange] and
    its sources in [src-app/src/workspace/git.rs] - the in-process snapshot and the
    output of [git diff-index --raw -z] - and the listing of the diff view with its
    renames in [src-app/src/diff/git.rs].  Looking an entry up in a tree and the
    type of a file are arguments. *)

From stdpp Require Import gmap list strings.
From S2P Require Import Prelude GitTypes OrderedMap GitRenames GitContents GitStatus.

(** ** [RawChange] *)

Record RawChange := mkRawChange {
  old_mode : N; new_mode : N; old_oid : bytes; new_oid : bytes; status : N; r_path : bytes }.

#[export] Instance RawChange_eq_dec : EqDecision RawChange.
Proof. solve_decision. Defined.

Definition LETTER_R : N := 82.
Definition LETTER_C : N := 67.
Definition GITLINK_MODE : N := 57344.
Definition REGULAR_MODE : N := 33188.
Definition SYMLINK_MODE : N := 40960.

(** ["0".repeat(40)]. *)
Definition null_oid : bytes := replicate 40 48%N.

Definition is_null_oid (oid : bytes) : bool :=
  bool_decide (oid ≠ []) && forallb (λ byte, byte =? 48)%N oid.

Definition stored_side (stored : option Stored) : N * bytes :=
  match stored with Some stored => (stored_mode stored, stored_id stored) | None => (0%N, null_oid) end.

Definition raw_change (old new : N * bytes) (path : bytes) : option RawChange :=
  let '(old_mode, old_oid) := old in
  let '(new_mode, new_oid) := new in
  let status :=
    if (old_mode =? 0)%N && (new_mode =? 0)%N then None
    else if (old_mode =? 0)%N then Some LETTER_A
    else if (new_mode =? 0)%N then Some LETTER_D
    else if negb (N.land old_mode OBJECT_TYPE_MASK =? N.land new_mode OBJECT_TYPE_MASK)%N
    then Some LETTER_T
    else Some LETTER_M in
  status ← status; Some (mkRawChange old_mode new_mode old_oid new_oid status path).

Definition composed_change (entry : Entry) (sides : Sides) : option RawChange :=
  let index_mode := match side_index sides with Some stored => stored_mode stored | None => 0%N end in
  let unchanged_worktree :=
    if bool_decide (head_to_index entry = Some IndexDeleted) then (0%N, null_oid)
    else stored_side (side_index sides) in
  new ←
    match index_to_worktree entry with
    | Some Deleted => Some (0%N, null_oid)
    | Some Modified | Some TypeChange | Some IntentToAdd =>
        Some (default index_mode (worktree_mode_of_side sides), null_oid)
    | Some (Submodule change) =>
        if commit_changed change then Some (GITLINK_MODE, null_oid)
        else if negb (modified_content change) && bool_decide (head_to_index entry = None) then None
        else Some unchanged_worktree
    | None => Some unchanged_worktree
    end;
  raw_change (stored_side (side_head sides)) new (e_path entry).

(** [worktree_mode_of], from the type of the file at the path. *)
Definition worktree_mode_of (metadata : option FileType) (head_mode : N) : N :=
  match metadata with
  | Some Symlink => SYMLINK_MODE
  | Some File =>
      if (N.land head_mode OBJECT_TYPE_MASK =? N.land REGULAR_MODE OBJECT_TYPE_MASK)%N
      then head_mode else REGULAR_MODE
  | Some OtherType | None => 0
  end.

(** ** The output of [git diff-index --raw -z] *)

(** [slice::split] and [str::split] at a separator. *)
Fixpoint split_on (sep : N) (field : bytes) (data : bytes) : list bytes :=
  match data with
  | [] => [field]
  | byte :: data =>
      if (byte =? sep)%N then field :: split_on sep [] data else split_on sep (field ++ [byte]) data
  end.

Definition split (sep : N) (data : bytes) : list bytes := split_on sep [] data.

(** [u32::from_str_radix(s, 8)], which accepts a [+]. *)
Fixpoint octal_digits (acc : N) (s : bytes) : option N :=
  match s with
  | [] => Some acc
  | c :: s =>
      if (48 <=? c)%N && (c <=? 55)%N then
        let acc := (acc * 8 + (c - 48))%N in
        if (acc <? 2 ^ 32)%N then octal_digits acc s else None
      else None
  end.

Definition from_str_radix_8 (s : bytes) : option N :=
  match s with
  | [] => None
  | [c] => if (c =? 43)%N || (c =? 45)%N then None else octal_digits 0 s
  | c :: rest => if (c =? 43)%N then octal_digits 0 rest else octal_digits 0 s
  end.

(** [std::str::from_utf8]: the well-formed sequences of UTF-8. *)
Definition continuation (b : N) : bool := (128 <=? b)%N && (b <=? 191)%N.

Definition three_bytes (b0 b1 b2 : N) : bool :=
  ((224 <=? b0) && (b0 <=? 239))%N && continuation b1 && continuation b2
  && negb ((b0 =? 224) && (b1 <? 160))%N && negb ((b0 =? 237) && (159 <? b1))%N.

Definition four_bytes (b0 b1 b2 b3 : N) : bool :=
  ((240 <=? b0) && (b0 <=? 244))%N && continuation b1 && continuation b2 && continuation b3
  && negb ((b0 =? 240) && (b1 <? 144))%N && negb ((b0 =? 244) && (143 <? b1))%N.

Fixpoint is_utf8 (s : bytes) : bool :=
  match s with
  | [] => true
  | b0 :: s0 =>
      if (b0 <? 128)%N then is_utf8 s0
      else
        match s0 with
        | [] => false
        | b1 :: s1 =>
            if ((194 <=? b0) && (b0 <=? 223))%N && continuation b1 then is_utf8 s1
            else
              match s1 with
              | [] => false
              | b2 :: s2 =>
                  if three_bytes b0 b1 b2 then is_utf8 s2
                  else
                    match s2 with
                    | [] => false
                    | b3 :: s3 => four_bytes b0 b1 b2 b3 && is_utf8 s3
                    end
              end
        end
  end.

Definition COLON : N := 58.
Definition BLANK : N := 32.
Definition NUL : N := 0.

(** [parse_raw_header]: the change and the fields left. *)
Definition parse_raw_header (header : bytes) (paths : list bytes) : option (RawChange * list bytes) :=
  _ ← assert (is_utf8 header);
  header ← match header with
           | c :: rest => if (c =? COLON)%N then Some rest else None
           | [] => None
           end;
  match split BLANK header with
  | old_mode :: new_mode :: old_oid :: new_oid :: (status :: _) :: _ =>
      old_mode ← from_str_radix_8 old_mode;
      new_mode ← from_str_radix_8 new_mode;
      match paths with
      | [] => None
      | path :: paths =>
          if (status =? LETTER_R)%N || (status =? LETTER_C)%N then
            match paths with
            | [] => None
            | path :: paths => Some (mkRawChange old_mode new_mode old_oid new_oid status path, paths)
            end
          else Some (mkRawChange old_mode new_mode old_oid new_oid status path, paths)
      end
  | _ => None
  end.

(** The loop of [parse_raw_changes]; each round takes a field, so their number is
    enough fuel. *)
Fixpoint parse_fields (fuel : nat) (fields : list bytes) : list RawChange :=
  match fuel, fields with
  | S fuel, header :: fields =>
      match parse_raw_header header fields with
      | Some (change, fields) => change :: parse_fields fuel fields
      | None => []
      end
  | _, _ => []
  end.

(** [raw.iter().rposition(|byte| *byte == 0).map_or(&raw[..0], |last| &raw[..=last])]. *)
Fixpoint up_to_last_nul (raw : bytes) : bytes :=
  match raw with
  | [] => []
  | byte :: raw =>
      match up_to_last_nul raw with
      | [] => if (byte =? NUL)%N then [byte] else []
      | kept => byte :: kept
      end
  end.

Definition parse_raw_changes (raw : bytes) (truncated : bool) : list RawChange :=
  let complete := if truncated then up_to_last_nul raw else raw in
  let fields := filter (λ field, field ≠ []) (split NUL complete) in
  parse_fields (length fields) fields.

(** ** The changes of a snapshot *)

(** What the repository is asked for: an entry of a tree, the type of a file. *)
Class Lookup_ := {
  tree_entry : bytes → bytes → result (option Stored) Error;
  metadata : bytes → option FileType }.

Section lookup.
Context `{Lookup_}.

Definition unmerged_against (entry : Entry) (base_tree : option bytes) :
    result (option RawChange) Error :=
  let base :=
    match base_tree with
    | Some tree => tree_entry tree (e_path entry)
    | None => Ok None
    end in
  match base with
  | Err e => Err e
  | Ok base =>
      let base := stored_side base in
      Ok (raw_change base (worktree_mode_of (metadata (e_path entry)) base.1, null_oid) (e_path entry))
  end.

Definition stat_only_change (sides : Sides) (path : bytes) : option RawChange :=
  let index_mode := match side_index sides with Some stored => stored_mode stored | None => 0%N end in
  raw_change (stored_side (side_head sides)) (index_mode, null_oid) path.

(** The error for an entry without its sides; the path in it is left out. *)
Definition no_object_ids : Error := Git "compose the dock listing" "no object ids".

Definition tracked_change (snapshot : Snapshot) (entry : Entry) : result (option RawChange) Error :=
  let base_tree := match head_of snapshot with HeadTree tree => Some tree | Unborn => None end in
  if bool_decide (is_Some (e_conflict entry)) then unmerged_against entry base_tree
  else if bool_decide (is_Some (head_to_index entry)) || bool_decide (is_Some (index_to_worktree entry))
  then
    match BTreeMap.get (snapshot_sides snapshot) (e_path entry) with
    | Some sides => Ok (composed_change entry sides)
    | None => Err no_object_ids
    end
  else if stat_dirty entry then
    match BTreeMap.get (snapshot_sides snapshot) (e_path entry) with
    | Some sides => Ok (stat_only_change sides (e_path entry))
    | None => Err no_object_ids
    end
  else Ok None.

Fixpoint tracked_loop (snapshot : Snapshot) (entries : list Entry) (changes : list RawChange) :
    result (list RawChange) Error :=
  match entries with
  | [] => Ok changes
  | entry :: entries =>
      match tracked_change snapshot entry with
      | Err e => Err e
      | Ok change => tracked_loop snapshot entries (changes ++ option_list change)
      end
  end.

Definition tracked_changes (snapshot : Snapshot) : result (list RawChange) Error :=
  tracked_loop snapshot (snapshot_entries snapshot) [].
End lookup.

(** ** The listing of the diff view *)

Inductive FileChange := FileAdded | FileModified | FileDeleted | FileRenamed | FileTypeChanged.

#[export] Instance FileChange_eq_dec : EqDecision FileChange.
Proof. solve_decision. Defined.

Definition change_kind (status : N) : FileChange :=
  if (status =? LETTER_A)%N then FileAdded
  else if (status =? LETTER_D)%N then FileDeleted
  else if (status =? LETTER_T)%N then FileTypeChanged
  else FileModified.

(** A side to be paired, with the index of its change. *)
Notation IndexedSides := (list (nat * RenameSide)).

Definition rename_candidate (index : nat) (change : RawChange) (sides : IndexedSides * IndexedSides) :
    IndexedSides * IndexedSides :=
  let '(sources, destinations) := sides in
  if (status change =? LETTER_D)%N then
    (sources ++ [(index, Build_RenameSide (r_path change) (old_mode change) (Some (old_oid change)))],
     destinations)
  else if (status change =? LETTER_A)%N then
    (sources, destinations ++ [(index, Build_RenameSide (r_path change) (new_mode change)
                 (if is_null_oid (new_oid change) then None else Some (new_oid change)))])
  else (sources, destinations).

Definition rename_candidates (tracked : list RawChange) : IndexedSides * IndexedSides :=
  foldl (λ sides '(index, change), rename_candidate index change sides) ([], [])
    (zip (seq 0 (length tracked)) tracked).

(** [decode_git_path]. *)
Definition decode_git_path (path : bytes) : option bytes :=
  if is_utf8 path && bool_decide (path ≠ []) then Some path else None.

Record GixListing := mkGixListing {
  listed : list (FileChange * bytes * option bytes);
  base_ids : list (option bytes);
  listed_untracked : list bytes }.

(** The maps [renamed_from] and [moved]. *)
Definition moves (sources destinations : IndexedSides) (renames : list Rename) :
    option (gmap nat nat * gset nat) :=
  for_each renames (λ rename '(renamed_from, moved),
    source ← fst <$> sources !! source rename;
    destination ← fst <$> destinations !! destination rename;
    Some (<[destination := source]> renamed_from, {[ source ]} ∪ moved)) (∅, ∅).

(** The record of a change in the listing, with the id of its base. *)
Definition list_change (tracked : list RawChange) (renamed_from : gmap nat nat) (moved : gset nat)
    (index : nat) (change : RawChange) :
    option (option (FileChange * bytes * option bytes * option bytes)) :=
  if bool_decide (index ∈ moved) then Some None
  else
    match decode_git_path (r_path change) with
    | None => Some None
    | Some path =>
        match renamed_from !! index with
        | Some source =>
            origin ← tracked !! source;
            match decode_git_path (r_path origin) with
            | None => Some None
            | Some old_path => Some (Some (FileRenamed, path, Some old_path, Some (old_oid origin)))
            end
        | None =>
            Some (Some (change_kind (status change), path, None,
                        if negb (old_mode change =? 0)%N then Some (old_oid change) else None))
        end
    end.

Definition gix_listing {ObjectId} `{Countable ObjectId} `{!Repository ObjectId} `{Lookup_}
    (snapshot : Snapshot) (entry_cap : nat) (limit : N) : option (result GixListing Error) :=
  if truncated snapshot then Some (Err (TooManyEntries entry_cap))
  else
    match tracked_changes snapshot with
    | Err e => Some (Err e)
    | Ok tracked =>
        let '(sources, destinations) := rename_candidates tracked in
        renames ← track_renames (ObjectId := ObjectId) (snd <$> sources) (snd <$> destinations) limit;
        match renames with
        | Err e => Some (Err e)
        | Ok renames =>
            '(renamed_from, moved) ← moves sources destinations renames;
            rows ← mapM (λ '(index, change), list_change tracked renamed_from moved index change)
                     (zip (seq 0 (length tracked)) tracked);
            let rows := omap (λ row, row) rows in
            Some (Ok (mkGixListing (fst <$> rows) (snd <$> rows)
              (omap (λ entry, decode_git_path (e_path entry))
                 (filter (λ entry, untracked entry = true) (snapshot_entries snapshot)))))
        end
    end.
