(* ===== verification/GitListingCorrect.v ===== *)
(** * The raw format of [git diff-index]

    [print_raw] writes changes in git's documented format
    [:<mode> <mode> <id> <id> <letter>NUL<path>NUL].  [parse_raw_changes] reads back
    what was written ([parse_print]), and of an output cut anywhere the changes that
    are complete ([parse_cut]).

    [tracked_changes] finds the sides of every entry of a settled snapshot
    ([tracked_changes_ok]).  [moves] is the injection of deleted into added files
    that [track_renames] found ([moves_spec]); with it each change is listed under its
    own path, or as the old path of exactly one rename ([rows_account]). *)

From stdpp Require Import gmap list strings.
From stdpp Require Import gmap list strings sorting.
From S2P Require Import Prelude OrderedMap GitTypes GitRenames GitSpans GitMatch GitRenamesCorrect GitContents GitContentsCorrect GitStatus GitStatusCorrect GitListing.

(** ** The format *)

(** [%06o]: an octal number of [k] digits. *)
Fixpoint octal (k : nat) (m : N) : bytes :=
  match k with O => [] | S k => octal k (m / 8) ++ [(48 + m mod 8)%N] end.

Definition print_header (c : RawChange) : bytes :=
  [COLON] ++ octal 6 (old_mode c) ++ [BLANK] ++ octal 6 (new_mode c) ++ [BLANK]
    ++ old_oid c ++ [BLANK] ++ new_oid c ++ [BLANK] ++ [status c].

(** The fields of a change, and the output for some. *)
Definition raw_fields (c : RawChange) : list bytes := [print_header c; r_path c].

Definition print_fields (fields : list bytes) : bytes := concat ((λ f, f ++ [NUL]) <$> fields).

Definition print_raw (changes : list RawChange) : bytes :=
  print_fields (concat (raw_fields <$> changes)).

(** A byte of a header field. *)
Definition plain (b : N) : Prop := (b ≠ 32 ∧ 0 < b ∧ b < 128)%N.

(** What git prints without detection of renames. *)
Record printable (c : RawChange) : Prop := {
  pt_old_mode : (old_mode c < 8 ^ 6)%N;
  pt_new_mode : (new_mode c < 8 ^ 6)%N;
  pt_old_oid : Forall plain (old_oid c);
  pt_new_oid : Forall plain (new_oid c);
  pt_status : plain (status c) ∧ status c ≠ LETTER_R ∧ status c ≠ LETTER_C;
  pt_path : r_path c ≠ [] ∧ NUL ∉ r_path c }.

(** ** Octal numbers *)

Lemma octal_digits_app s t acc :
  octal_digits acc (s ++ t) = octal_digits acc s ≫= λ acc, octal_digits acc t.
Proof. revert acc. induction s as [|c s IH]; intros acc; simpl; [done|]. by repeat case_match. Qed.

Lemma octal_digit acc d :
  (d < 8)%N → (acc * 8 + d < 2 ^ 32)%N → octal_digits acc [(48 + d)%N] = Some (acc * 8 + d)%N.
Proof.
  intros Hd H32. cbn [octal_digits].
  rewrite (proj2 (N.leb_le 48 (48 + d)) ltac:(lia)), (proj2 (N.leb_le (48 + d) 55) ltac:(lia)).
  cbn [andb]. replace (acc * 8 + (48 + d - 48))%N with (acc * 8 + d)%N by lia.
  by rewrite (proj2 (N.ltb_lt _ _) H32).
Qed.

Lemma octal_digits_octal k m :
  (m < 8 ^ N.of_nat k)%N → (m < 2 ^ 32)%N → octal_digits 0 (octal k m) = Some m.
Proof.
  revert m. induction k as [|k IH]; intros m Hk H32; simpl.
  - change (8 ^ N.of_nat 0)%N with 1%N in Hk. f_equal. lia.
  - rewrite Nat2N.inj_succ, N.pow_succ_r' in Hk.
    pose proof (N.div_mod m 8 ltac:(lia)). pose proof (N.mod_lt m 8 ltac:(lia)).
    rewrite octal_digits_app, IH.
    + cbn [mbind option_bind]. rewrite octal_digit by lia. f_equal. lia.
    + by apply N.Div0.div_lt_upper_bound.
    + apply (N.le_lt_trans _ m); [apply N.Div0.div_le_upper_bound; lia|done].
Qed.

Lemma octal_plain k m : Forall plain (octal k m).
Proof.
  revert m. induction k as [|k IH]; intros m; simpl; [constructor|].
  apply Forall_app. split; [apply IH|]. pose proof (N.mod_lt m 8 ltac:(lia)).
  apply Forall_singleton. unfold plain. generalize dependent (m mod 8)%N. lia.
Qed.

Lemma from_str_radix_8_octal m :
  (m < 8 ^ 6)%N → from_str_radix_8 (octal 6 m) = Some m.
Proof.
  intros Hm. pose proof (octal_digits_octal 6 m Hm ltac:(lia)) as Hd. revert Hd.
  assert (∃ d c s, octal 6 m = (48 + d)%N :: c :: s) as (d & c & s & ->).
  { eexists _, _, _. simpl. reflexivity. }
  unfold from_str_radix_8. replace (48 + d =? 43)%N with false; [done|].
  symmetry. apply N.eqb_neq. lia.
Qed.

(** ** Fields *)

Lemma split_on_clean sep field data :
  sep ∉ data → split_on sep field data = [field ++ data].
Proof.
  revert field. induction data as [|b data IH]; intros field; simpl; [by rewrite app_nil_r|].
  intros [Hb Hd]%not_elem_of_cons. destruct (N.eqb_spec b sep); [done|].
  rewrite IH by done. by rewrite <- app_assoc.
Qed.

Lemma split_on_app sep field data rest :
  sep ∉ data → split_on sep field (data ++ sep :: rest) = (field ++ data) :: split_on sep [] rest.
Proof.
  revert field. induction data as [|b data IH]; intros field; simpl.
  - by rewrite N.eqb_refl, app_nil_r.
  - intros [Hb Hd]%not_elem_of_cons. destruct (N.eqb_spec b sep); [done|].
    rewrite IH by done. by rewrite <- app_assoc.
Qed.

Lemma print_fields_cons f fields : print_fields (f :: fields) = f ++ NUL :: print_fields fields.
Proof. unfold print_fields. simpl. by rewrite <- app_assoc. Qed.

Lemma split_print_fields fields :
  Forall (λ f, NUL ∉ f) fields → split NUL (print_fields fields) = fields ++ [[]].
Proof.
  unfold split. induction 1 as [|f fields Hf Hall IH]; [done|].
  rewrite print_fields_cons, split_on_app by done. by rewrite IH.
Qed.

Lemma fields_of_print fields :
  Forall (λ f, f ≠ [] ∧ NUL ∉ f) fields →
  filter (λ f, f ≠ []) (split NUL (print_fields fields)) = fields.
Proof.
  intros Hall. rewrite split_print_fields by (eapply Forall_impl; naive_solver).
  rewrite filter_app. simpl. rewrite filter_cons, decide_False, filter_nil, app_nil_r by tauto.
  induction Hall as [|f fields [Hf _] Hall IH]; [done|].
  rewrite filter_cons, decide_True by done. by rewrite IH.
Qed.

(** ** Headers *)

Lemma is_utf8_ascii s : Forall (λ b, b < 128)%N s → is_utf8 s = true.
Proof.
  induction 1 as [|b s Hb Hs IH]; simpl; [done|]. by apply N.ltb_lt in Hb as ->.
Qed.

Lemma plain_no_blank s : Forall plain s → BLANK ∉ s.
Proof. intros Hs Hin. rewrite Forall_forall in Hs. by destruct (Hs _ Hin). Qed.

Lemma plain_no_nul s : Forall plain s → NUL ∉ s.
Proof. intros Hs Hin. rewrite Forall_forall in Hs. destruct (Hs _ Hin) as (_ & ? & _). done. Qed.

#[local] Hint Resolve octal_plain plain_no_blank : paneflow.

Lemma header_clean c : printable c → Forall (λ b, 0 < b ∧ b < 128)%N (print_header c).
Proof.
  intros Hc. assert (∀ s, Forall plain s → Forall (λ b, 0 < b ∧ b < 128)%N s) as Himpl.
  { intros s Hs. eapply Forall_impl; [done|]. by intros b (_ & ? & ?). }
  unfold print_header. rewrite !Forall_app.
  split_and!; try (by repeat constructor); apply Himpl; try apply octal_plain; try apply Hc.
  apply Forall_singleton, Hc.
Qed.

Lemma parse_header_print c rest :
  printable c → parse_raw_header (print_header c) (r_path c :: rest) = Some (c, rest).
Proof.
  intros Hc. unfold parse_raw_header.
  rewrite is_utf8_ascii by (eapply Forall_impl; [by apply header_clean|naive_solver]).
  cbn [assert mbind option_bind]. unfold print_header at 1. cbn [app].
  change (COLON =? COLON)%N with true. cbn [mbind option_bind].
  unfold split. rewrite split_on_app by auto with paneflow.
  rewrite split_on_app by auto with paneflow.
  rewrite split_on_app by (apply plain_no_blank, Hc).
  rewrite split_on_app by (apply plain_no_blank, Hc).
  rewrite split_on_clean by (apply plain_no_blank; constructor; [apply Hc|constructor]).
  cbn [app]. rewrite !from_str_radix_8_octal by apply Hc. cbn [mbind option_bind].
  destruct (pt_status _ Hc) as (_ & Hr & Hcp).
  destruct (N.eqb_spec (status c) LETTER_R); [done|].
  destruct (N.eqb_spec (status c) LETTER_C); [done|]. simpl. by destruct c.
Qed.

Lemma raw_fields_clean changes :
  Forall printable changes → Forall (λ f, f ≠ [] ∧ NUL ∉ f) (concat (raw_fields <$> changes)).
Proof.
  induction 1 as [|c changes Hc Hall IH]; simpl; [constructor|].
  constructor; [|constructor; [apply Hc|done]]. split; [done|].
  intros Hin. pose proof (header_clean c Hc) as Hh. rewrite Forall_forall in Hh.
  by destruct (Hh _ Hin).
Qed.

(** A header whose path was cut off ends the changes. *)
Lemma parse_raw_header_alone header : parse_raw_header header [] = None.
Proof. 
  unfold parse_raw_header.
  repeat (done || case_match || match goal with |- context [?m ≫= _] => destruct m end;
          cbn [mbind option_bind]).
Qed.

Lemma parse_fields_print changes m fuel :
  Forall printable changes → m ≤ fuel →
  parse_fields fuel (take m (concat (raw_fields <$> changes))) = take (m / 2) changes.
Proof.
  intros Hall. revert m fuel. induction Hall as [|c changes Hc Hall IH]; intros m fuel Hm.
  { simpl. rewrite !take_nil. by destruct fuel. }
  destruct m as [|[|m]]; [by destruct fuel|..]; (destruct fuel as [|fuel]; [lia|]).
  - cbn [fmap list_fmap concat raw_fields app take parse_fields].
    by rewrite parse_raw_header_alone.
  - cbn [fmap list_fmap concat raw_fields app take parse_fields].
    rewrite parse_header_print by done. fold (raw_fields <$> changes).
    replace (S (S m) / 2) with (S (m / 2)); [|].
    + cbn [take]. f_equal. apply IH. lia.
    + replace (S (S m)) with (m + 1 * 2) by lia. rewrite Nat.div_add by lia. lia.
Qed.

(** ** Cut outputs *)

Lemma up_to_last_nul_clean s : NUL ∉ s → up_to_last_nul s = [].
Proof.
  induction s as [|b s IH]; simpl; [done|]. intros [Hb Hs]%not_elem_of_cons.
  rewrite IH by done. by destruct (N.eqb_spec b NUL).
Qed.

Lemma up_to_last_nul_app f s :
  up_to_last_nul (f ++ NUL :: s) = f ++ NUL :: up_to_last_nul s.
Proof.
  induction f as [|b f IH]; simpl.
  - by destruct (up_to_last_nul s).
  - rewrite IH. by destruct f.
Qed.

Lemma up_to_last_nul_print fields n :
  Forall (λ f, NUL ∉ f) fields →
  ∃ m, m ≤ length fields ∧ up_to_last_nul (take n (print_fields fields)) = print_fields (take m fields)
    ∧ (length (print_fields fields) ≤ n → m = length fields).
Proof.
  intros Hall. revert n. induction Hall as [|f fields Hf Hall IH]; intros n.
  { exists 0. unfold print_fields. simpl. rewrite take_nil. by split_and!. }
  rewrite print_fields_cons.
  destruct (decide (n ≤ length f)) as [Hn|Hn].
  - exists 0. split_and!; [lia| |rewrite length_app; simpl; lia].
    rewrite take_app_le by done. apply up_to_last_nul_clean.
    intros Hin. apply Hf. by eapply subseteq_take.
  - destruct (IH (n - length f - 1)) as (m & Hm & Heq & Hlen).
    exists (S m). split_and!; [simpl; lia| |].
    + rewrite take_app_ge by lia. destruct (n - length f) as [|k] eqn:Hk; [lia|].
      cbn [app take]. rewrite up_to_last_nul_app. replace (S k - 1) with k in Heq by lia.
      by rewrite Heq, <- print_fields_cons.
    + rewrite length_app. simpl. intros. rewrite Hlen; lia.
Qed.

(** ** The round trips *)

Lemma raw_fields_length changes : length (concat (raw_fields <$> changes)) = length changes * 2.
Proof.
  induction changes as [|c changes IH]; [done|].
  change (S (S (length (concat (raw_fields <$> changes)))) = S (S (length changes * 2))).
  by rewrite IH.
Qed.

Lemma parse_cut changes n :
  Forall printable changes →
  ∃ k, parse_raw_changes (take n (print_raw changes)) true = take k changes ∧
    (length (print_raw changes) ≤ n → length changes ≤ k).
Proof.
  intros Hall. pose proof (raw_fields_clean _ Hall) as Hclean. unfold parse_raw_changes, print_raw.
  destruct (up_to_last_nul_print (concat (raw_fields <$> changes)) n) as (m & Hm & -> & Hlen).
  { eapply Forall_impl; [done|naive_solver]. }
  rewrite fields_of_print by (by apply Forall_take).
  exists (m / 2). split.
  - apply parse_fields_print; [done|]. rewrite length_take. lia.
  - intros ->%Hlen. by rewrite raw_fields_length, Nat.div_mul by lia.
Qed.

Lemma parse_print changes :
  Forall printable changes → parse_raw_changes (print_raw changes) false = changes.
Proof.
  intros Hall. unfold parse_raw_changes, print_raw.
  rewrite fields_of_print by (by apply raw_fields_clean).
  pose proof (parse_fields_print changes _ _ Hall (le_n (length (concat (raw_fields <$> changes)))))
    as Hparse.
  rewrite firstn_all in Hparse.
  by rewrite Hparse, raw_fields_length, Nat.div_mul, firstn_all by lia.
Qed.

(** * The listing accounts for every change *)

(** ** [RawChange] *)

(** The letter says which sides there are and whether both are of one type. *)
Record raw_ok (c : RawChange) : Prop := {
  ro_deleted : status c = LETTER_D ↔ new_mode c = 0%N ∧ old_mode c ≠ 0%N;
  ro_added : status c = LETTER_A ↔ old_mode c = 0%N ∧ new_mode c ≠ 0%N;
  ro_retyped : status c = LETTER_T ↔ old_mode c ≠ 0%N ∧ new_mode c ≠ 0%N ∧
    N.land (old_mode c) OBJECT_TYPE_MASK ≠ N.land (new_mode c) OBJECT_TYPE_MASK;
  ro_modified : status c = LETTER_M ↔ old_mode c ≠ 0%N ∧ new_mode c ≠ 0%N ∧
    N.land (old_mode c) OBJECT_TYPE_MASK = N.land (new_mode c) OBJECT_TYPE_MASK;
  ro_some : old_mode c ≠ 0%N ∨ new_mode c ≠ 0%N }.

Lemma raw_change_ok old new path c :
  raw_change old new path = Some c →
  raw_ok c ∧ r_path c = path ∧ (old_mode c, old_oid c) = old ∧ (new_mode c, new_oid c) = new.
Proof.
  destruct old as [om oo], new as [nm no]. unfold raw_change.
  destruct (N.eqb_spec om 0), (N.eqb_spec nm 0); simpl; try done;
    [| |destruct (N.eqb_spec (N.land om OBJECT_TYPE_MASK) (N.land nm OBJECT_TYPE_MASK)); simpl]; intros [= <-];
    (split; [|done]); split; simpl;
    unfold LETTER_A, LETTER_D, LETTER_M, LETTER_T in *; naive_solver lia.
Qed.

Lemma raw_change_some old new path :
  old.1 ≠ 0%N ∨ new.1 ≠ 0%N → is_Some (raw_change old new path).
Proof.
  destruct old as [om oo], new as [nm no]. simpl. intros Hsome. unfold raw_change.
  destruct (N.eqb_spec om 0), (N.eqb_spec nm 0); simpl; [lia|by eexists..|]. destruct (negb _); by eexists.
Qed.

Section lookup.
Context `{Lookup_}.
Implicit Types (snapshot : Snapshot) (entry : Entry) (sides : Sides).

(** What is in the index stands for the worktree: the file there is as in the index,
    or is a submodule at the same commit whose content changed, or that changed in
    the index. *)
Definition index_side_shows entry : Prop :=
  index_to_worktree entry = None ∨
  ∃ sub, index_to_worktree entry = Some (Submodule sub) ∧ commit_changed sub = false ∧
    (modified_content sub = true ∨ head_to_index entry ≠ None).

(** The new side of an entry that changed in the index or in the worktree: its mode,
    0 if there is none, and its id, zeros if it is not known. *)
Inductive changed_to entry sides : N * bytes → Prop :=
  | to_deleted :
      index_to_worktree entry = Some Deleted → changed_to entry sides (0%N, null_oid)
  | to_worktree change :
      index_to_worktree entry = Some change → change ∈ [Modified; TypeChange; IntentToAdd] →
      changed_to entry sides
        (match worktree_mode_of_side sides, side_index sides with
         | Some mode, _ => mode
         | None, Some stored => stored_mode stored
         | None, None => 0%N
         end, null_oid)
  | to_commit sub :
      index_to_worktree entry = Some (Submodule sub) → commit_changed sub = true →
      changed_to entry sides (GITLINK_MODE, null_oid)
  | to_index stored :
      index_side_shows entry → head_to_index entry ≠ Some IndexDeleted → side_index sides = Some stored →
      changed_to entry sides (stored_mode stored, stored_id stored)
  | to_nothing :
      index_side_shows entry → head_to_index entry = Some IndexDeleted ∨ side_index sides = None →
      changed_to entry sides (0%N, null_oid).

(** The old side of an entry in a conflict: the file of the commit, if any. *)
Inductive committed snapshot entry : N * bytes → Prop :=
  | committed_unborn : head_of snapshot = Unborn → committed snapshot entry (0%N, null_oid)
  | committed_none tree :
      head_of snapshot = HeadTree tree → tree_entry tree (e_path entry) = Ok None →
      committed snapshot entry (0%N, null_oid)
  | committed_file tree stored :
      head_of snapshot = HeadTree tree → tree_entry tree (e_path entry) = Ok (Some stored) →
      committed snapshot entry (stored_mode stored, stored_id stored).

(** The mode of the file at the path of an entry: a file keeps the mode of a file,
    and takes the place of anything else as a regular one. *)
Definition mode_on_disk entry (old : N) : N :=
  match metadata (e_path entry) with
  | Some Symlink => SYMLINK_MODE
  | Some File => if decide (N.land old OBJECT_TYPE_MASK = 32768)%N then old else REGULAR_MODE
  | Some OtherType | None => 0%N
  end.

(** The sides that an entry has between the commit and the worktree. *)
Inductive compares snapshot entry : N * bytes → N * bytes → Prop :=
  | compares_conflict old :
      is_Some (e_conflict entry) → committed snapshot entry old →
      compares snapshot entry old (mode_on_disk entry old.1, null_oid)
  | compares_changed sides new :
      e_conflict entry = None → is_Some (head_to_index entry) ∨ is_Some (index_to_worktree entry) →
      BTreeMap.get (snapshot_sides snapshot) (e_path entry) = Some sides → changed_to entry sides new →
      compares snapshot entry (stored_side (side_head sides)) new
  | compares_stat sides :
      e_conflict entry = None → head_to_index entry = None → index_to_worktree entry = None →
      stat_dirty entry = true →
      BTreeMap.get (snapshot_sides snapshot) (e_path entry) = Some sides →
      compares snapshot entry (stored_side (side_head sides))
        (match side_index sides with Some stored => stored_mode stored | None => 0%N end, null_oid).

(** The changes are those of the entries, in their order: each is of an entry's two
    sides, with the letter that says how they differ, and every entry that has a side
    gives one. *)
Record changes_of snapshot (tracked : list RawChange) : Prop := {
  co_sorted : StronglySorted str_lt (r_path <$> tracked);
  co_from c : c ∈ tracked → raw_ok c ∧ ∃ entry, entry ∈ snapshot_entries snapshot ∧ r_path c = e_path entry ∧
    compares snapshot entry (old_mode c, old_oid c) (new_mode c, new_oid c);
  co_all entry old new :
    entry ∈ snapshot_entries snapshot → compares snapshot entry old new → old.1 ≠ 0%N ∨ new.1 ≠ 0%N →
    ∃ c, c ∈ tracked ∧ r_path c = e_path entry ∧
      (old_mode c, old_oid c) = old ∧ (new_mode c, new_oid c) = new }.

Lemma composed_change_to entry sides new :
  changed_to entry sides new →
  composed_change entry sides = raw_change (stored_side (side_head sides)) new (e_path entry).
Proof.
  unfold composed_change. intros [Hw|change Hw Hc|sub Hw Hc|stored Hw Hi Hs|Hw Hi].
  - by rewrite Hw.
  - rewrite Hw. rewrite !elem_of_cons in Hc.
    destruct Hc as [->|[->|[->|Hc]]]; [..|by apply elem_of_nil in Hc]; cbn [mbind option_bind];
      by destruct (worktree_mode_of_side sides), (side_index sides).
  - by rewrite Hw, Hc.
  - rewrite (bool_decide_eq_false_2 _ Hi), Hs.
    destruct Hw as [->|(sub&->&->&[->|Hh])]; [done..|]. by rewrite (bool_decide_eq_false_2 _ Hh), andb_false_r.
  - assert ((if bool_decide (head_to_index entry = Some IndexDeleted) then (0%N, null_oid) else stored_side (side_index sides))
      = (0%N, null_oid)) as Hside by (case_bool_decide; [done|]; by destruct Hi as [?| ->]).
    rewrite Hside. destruct Hw as [->|(sub&->&->&[->|Hh])]; [done..|].
    by rewrite (bool_decide_eq_false_2 _ Hh), andb_false_r.
Qed.

Lemma composed_change_from entry sides c :
  composed_change entry sides = Some c → ∃ new, changed_to entry sides new ∧
    raw_change (stored_side (side_head sides)) new (e_path entry) = Some c.
Proof.
  intros Hc. assert (∀ new, changed_to entry sides new → ∃ new, changed_to entry sides new ∧
    raw_change (stored_side (side_head sides)) new (e_path entry) = Some c) as Hto.
  { intros new Hn. exists new. split; [done|]. by rewrite <- (composed_change_to _ _ _ Hn). }
  assert (index_side_shows entry → ∃ new, changed_to entry sides new ∧
    raw_change (stored_side (side_head sides)) new (e_path entry) = Some c) as Hindex.
  { intros Hs. destruct (decide (head_to_index entry = Some IndexDeleted)) as [Hd|Hd];
      [eapply Hto, to_nothing; auto|].
    destruct (side_index sides) eqn:Hi; [eapply Hto, to_index; eauto|eapply Hto, to_nothing; auto]. }
  destruct (index_to_worktree entry) as [[| | | |sub]|] eqn:Hw;
    [eapply Hto, to_worktree; [exact Hw|set_solver]|by eapply Hto, to_deleted
    |eapply Hto, to_worktree; [exact Hw|set_solver]..| |by apply Hindex; left].
  destruct (commit_changed sub) eqn:Hm; [by eapply Hto, to_commit|].
  apply Hindex. right. exists sub. split_and!; [done..|].
  unfold composed_change in Hc. rewrite Hw, Hm in Hc. destruct (modified_content sub); [by left|right].
  cbn [negb andb] in Hc. by case_bool_decide.
Qed.

Lemma worktree_mode_spec entry old : worktree_mode_of (metadata (e_path entry)) old = mode_on_disk entry old.
Proof.
  unfold worktree_mode_of, mode_on_disk. destruct (metadata (e_path entry)) as [[]|]; try done.
  change (N.land REGULAR_MODE OBJECT_TYPE_MASK) with 32768%N. destruct (N.eqb_spec (N.land old OBJECT_TYPE_MASK) 32768);
    by case_decide.
Qed.

(** The change of an entry with sides is the one between them. *)
Lemma tracked_change_compares snapshot entry old new :
  compares snapshot entry old new → tracked_change snapshot entry = Ok (raw_change old new (e_path entry)).
Proof.
  unfold tracked_change. intros [old' Hc Hold|sides new' Hc Hch Hs Hn|sides Hc Hh Hi Hd Hs].
  - rewrite bool_decide_eq_true_2 by done. unfold unmerged_against.
    destruct Hold as [->|tree -> Ht|tree stored -> Ht]; rewrite ?Ht; by rewrite worktree_mode_spec.
  - rewrite bool_decide_eq_false_2 by (rewrite Hc; by intros []). rewrite Hs.
    assert (bool_decide (is_Some (head_to_index entry)) || bool_decide (is_Some (index_to_worktree entry)) = true) as ->.
    { apply orb_true_iff. by rewrite !bool_decide_eq_true. }
    by rewrite (composed_change_to _ _ _ Hn).
  - rewrite Hc, Hh, Hi, Hd, Hs. done.
Qed.

Lemma tracked_change_spec snapshot cap entry :
  settled cap snapshot → entry ∈ snapshot_entries snapshot →
  match tracked_change snapshot entry with
  | Ok (Some c) => ∃ old new, compares snapshot entry old new ∧ raw_change old new (e_path entry) = Some c
  | Ok None => True
  | Err e => is_Some (e_conflict entry) ∧
      ∃ tree, head_of snapshot = HeadTree tree ∧ tree_entry tree (e_path entry) = Err e
  end.
Proof.
  intros Hs He. unfold tracked_change, unmerged_against.
  assert (Hsides : changed entry →
    ∃ sides, BTreeMap.get (snapshot_sides snapshot) (e_path entry) = Some sides).
  { intros Hc. by apply (st_sides _ _ Hs) in Hc as [sides ?]; [exists sides|]. }
  case_bool_decide as Hconf.
  - assert (∀ old, committed snapshot entry old → match raw_change old
      (worktree_mode_of (metadata (e_path entry)) old.1, null_oid) (e_path entry) with
      | Some c => ∃ old new, compares snapshot entry old new ∧ raw_change old new (e_path entry) = Some c
      | None => True end) as Hraw.
    { intros old Hold. rewrite worktree_mode_spec. destruct (raw_change _ _ _) as [c|] eqn:Hc; [|done].
      exists old, (mode_on_disk entry old.1, null_oid). split; [by constructor|done]. }
    destruct (head_of snapshot) as [|tree] eqn:Hh; cbv zeta; [by apply Hraw; constructor|].
    destruct (tree_entry tree (e_path entry)) as [[base|]|e] eqn:Ht; [| |split; [done|by exists tree]];
      apply (Hraw (stored_side _)); by econstructor.
  - apply eq_None_not_Some in Hconf.
    destruct (bool_decide (is_Some (head_to_index entry)) || bool_decide (is_Some (index_to_worktree entry)))
      eqn:Hchg.
    + apply orb_true_iff in Hchg. rewrite !bool_decide_eq_true in Hchg.
      destruct Hsides as [sides Hside]; [unfold changed; tauto|]. rewrite Hside.
      destruct (composed_change entry sides) as [c|] eqn:Hc; [|done].
      apply composed_change_from in Hc as (new&Hn&Hc). eexists _, new. split; [by eapply compares_changed|done].
    + apply orb_false_iff in Hchg as [Hh%bool_decide_eq_false%eq_None_not_Some Hi%bool_decide_eq_false%eq_None_not_Some].
      destruct (stat_dirty entry) eqn:Hd; [|done].
      destruct Hsides as [sides Hside]; [by right; right|]. rewrite Hside.
      destruct (stat_only_change sides (e_path entry)) as [c|] eqn:Hc; [|done].
      eexists _, _. split; [by eapply compares_stat|exact Hc].
Qed.

(** What the loop makes of the entries that are left. *)
Lemma tracked_loop_spec snapshot cap es before :
  settled cap snapshot → (∀ e, e ∈ es → e ∈ snapshot_entries snapshot) →
  match tracked_loop snapshot es before with
  | Ok tracked => ∃ more, tracked = before ++ more ∧
      (r_path <$> more) `sublist_of` (e_path <$> es) ∧
      (∀ c, c ∈ more → ∃ entry old new, entry ∈ es ∧
         compares snapshot entry old new ∧ raw_change old new (e_path entry) = Some c) ∧
      (∀ entry c, entry ∈ es → tracked_change snapshot entry = Ok (Some c) → c ∈ more)
  | Err e => ∃ entry tree, entry ∈ es ∧ is_Some (e_conflict entry) ∧
      head_of snapshot = HeadTree tree ∧ tree_entry tree (e_path entry) = Err e
  end.
Proof.
  intros Hs. revert before. induction es as [|entry es IH]; intros before Hes; simpl.
  { exists []. rewrite app_nil_r. split_and!; [done..|set_solver|set_solver]. }
  pose proof (tracked_change_spec _ _ entry Hs ltac:(apply Hes; by left)) as Hc.
  destruct (tracked_change snapshot entry) as [o|e] eqn:Ho.
  - specialize (IH (before ++ option_list o) ltac:(intros; apply Hes; by right)).
    destruct (tracked_loop snapshot es (before ++ option_list o)) as [tracked|e];
      [|destruct IH as (e'&tree&?&?); exists e', tree; split; [by right|done]].
    destruct IH as (more & -> & Hsub & Hfrom & Hall). exists (option_list o ++ more). rewrite app_assoc.
    split; [done|]. destruct o as [c|]; simpl.
    + destruct Hc as (old&new&Hcmp&Hc). pose proof (raw_change_ok _ _ _ _ Hc) as (_&Hp&_). split_and!.
      * rewrite Hp. by constructor.
      * intros c' [->|Hin]%elem_of_cons; [exists entry, old, new; split; [by left|done]|].
        destruct (Hfrom c' Hin) as (e'&?&?&?&?). exists e'. eexists _, _. split; [by right|done].
      * intros e' c' [->|Hin]%elem_of_cons Hc'; [rewrite Ho in Hc'; injection Hc' as <-; by left|right; by eapply Hall].
    + split_and!; [by constructor| |].
      * intros c' Hin. destruct (Hfrom c' Hin) as (e'&?&?&?&?). exists e'. eexists _, _. split; [by right|done].
      * intros e' c' [->|Hin]%elem_of_cons Hc'; [by rewrite Ho in Hc'|by eapply Hall].
  - destruct Hc as (? & tree & ? & ?). exists entry, tree. split; [by left|done].
Qed.

Lemma tracked_changes_ok snapshot cap :
  settled cap snapshot →
  match tracked_changes snapshot with
  | Ok tracked => changes_of snapshot tracked
  | Err e => ∃ entry tree, entry ∈ snapshot_entries snapshot ∧ is_Some (e_conflict entry) ∧
      head_of snapshot = HeadTree tree ∧ tree_entry tree (e_path entry) = Err e
  end.
Proof.
  intros Hs. unfold tracked_changes. pose proof (tracked_loop_spec _ _ (snapshot_entries snapshot) [] Hs ltac:(done)) as Hloop.
  destruct (tracked_loop snapshot (snapshot_entries snapshot) []) as [tracked|e]; [|done].
  destruct Hloop as (more & -> & Hsub & Hfrom & Hall). simpl. split.
  - eapply StronglySorted_sublist; [done|apply Hs].
  - intros c (entry&old&new&He&Hcmp&Hc)%Hfrom. apply raw_change_ok in Hc as (Hok&Hp&Hold&Hnew).
    split; [done|]. exists entry. by rewrite Hold, Hnew.
  - intros entry old new He Hcmp Hsome. destruct (raw_change_some old new (e_path entry) Hsome) as [c Hc].
    exists c. pose proof (raw_change_ok _ _ _ _ Hc) as (_&?&?&?). split_and!; [|done..].
    apply (Hall entry); [done|]. by rewrite (tracked_change_compares _ _ _ _ Hcmp), Hc.
Qed.
End lookup.

(** ** The candidates *)

Definition numbered {A} (l : list A) : list (nat * A) := zip (seq 0 (length l)) l.

Lemma numbered_lookup {A} (l : list A) i : numbered l !! i = (λ x, (i, x)) <$> l !! i.
Proof.
  unfold numbered. destruct (l !! i) as [x|] eqn:Hx; simpl.
  - apply lookup_zip_with_Some. exists i, x. split_and!; [done| |done].
    apply lookup_seq. split; [done|]. by eapply lookup_lt_Some.
  - apply lookup_ge_None in Hx. apply lookup_ge_None. rewrite length_zip_with, length_seq. lia.
Qed.

Lemma numbered_elem {A} (l : list A) i x : (i, x) ∈ numbered l ↔ l !! i = Some x.
Proof.
  split.
  - intros [j Hj]%list_elem_of_lookup. rewrite numbered_lookup in Hj.
    destruct (l !! j) as [y|] eqn:Hy; simplify_eq/=. done.
  - intros Hx. apply list_elem_of_lookup. exists i. by rewrite numbered_lookup, Hx.
Qed.

Lemma numbered_nodup {A} (l : list A) : NoDup (numbered l).*1.
Proof. unfold numbered. rewrite fst_zip by (by rewrite length_seq). apply NoDup_seq. Qed.

(** The side of a deleted, and of an added file. *)
Definition source_side (c : RawChange) : RenameSide :=
  Build_RenameSide (r_path c) (old_mode c) (Some (old_oid c)).
Definition destination_side (c : RawChange) : RenameSide :=
  Build_RenameSide (r_path c) (new_mode c)
    (if is_null_oid (new_oid c) then None else Some (new_oid c)).

Definition with_status (letter : N) (tracked : list (nat * RawChange)) : list (nat * RawChange) :=
  filter (λ p, status p.2 = letter) tracked.

Lemma rename_candidates_spec tracked :
  rename_candidates tracked =
    ((λ p, (p.1, source_side p.2)) <$> with_status LETTER_D (numbered tracked),
     (λ p, (p.1, destination_side p.2)) <$> with_status LETTER_A (numbered tracked)).
Proof.
  unfold rename_candidates, numbered, with_status. generalize (zip (seq 0 (length tracked)) tracked).
  intros l. assert (∀ s d, foldl (λ sides '(index, change), rename_candidate index change sides) (s, d) l =
    (s ++ ((λ p, (p.1, source_side p.2)) <$> filter (λ p, status p.2 = LETTER_D) l),
     d ++ ((λ p, (p.1, destination_side p.2)) <$> filter (λ p, status p.2 = LETTER_A) l))) as Hgen;
    [|by rewrite Hgen].
  induction l as [|[i c] l IH]; intros s d; simpl; [by rewrite !app_nil_r|].
  rewrite !filter_cons. unfold rename_candidate. cbn [fst snd].
  destruct (N.eqb_spec (status c) LETTER_D) as [Hd|Hd].
  - rewrite decide_True by done. rewrite decide_False by (by rewrite Hd).
    rewrite IH. simpl. by rewrite <- app_assoc.
  - rewrite (decide_False (P := status c = LETTER_D)) by done.
    destruct (N.eqb_spec (status c) LETTER_A) as [Ha|Ha].
    + rewrite decide_True by done. rewrite IH. simpl. by rewrite <- app_assoc.
    + rewrite decide_False by done. apply IH.
Qed.

Lemma with_status_lookup letter tracked k i c :
  with_status letter (numbered tracked) !! k = Some (i, c) → tracked !! i = Some c ∧ status c = letter.
Proof.
  intros Hk%list_elem_of_lookup_2. apply list_elem_of_filter in Hk as [Hs Hin].
  split; [by apply numbered_elem|done].
Qed.

Lemma with_status_inj letter tracked k k' i c c' :
  with_status letter (numbered tracked) !! k = Some (i, c) →
  with_status letter (numbered tracked) !! k' = Some (i, c') → k = k'.
Proof.
  intros Hk Hk'.
  assert (NoDup (with_status letter (numbered tracked))) as Hnd.
  { apply NoDup_filter. eapply NoDup_fmap_1, numbered_nodup. }
  pose proof (with_status_lookup _ _ _ _ _ Hk) as [Hc _].
  pose proof (with_status_lookup _ _ _ _ _ Hk') as [Hc' _]. simplify_eq.
  by eapply NoDup_lookup.
Qed.

(** ** The moves *)

Section moves.
Context {ObjectId : Type} (K : Known ObjectId) (tracked : list RawChange).

Definition deleted : IndexedSides := (rename_candidates tracked).1.
Definition added : IndexedSides := (rename_candidates tracked).2.

(** The changes at the ends of a rename. *)
Definition start_of (r : Rename) : option nat := fst <$> deleted !! source r.
Definition end_of (r : Rename) : option nat := fst <$> added !! destination r.

Lemma start_of_lookup r : start_of r = fst <$> with_status LETTER_D (numbered tracked) !! source r.
Proof.
  unfold start_of, deleted. rewrite rename_candidates_spec. cbn [fst].
  rewrite list_lookup_fmap. by destruct (_ !! source r).
Qed.

Lemma end_of_lookup r : end_of r = fst <$> with_status LETTER_A (numbered tracked) !! destination r.
Proof.
  unfold end_of, added. rewrite rename_candidates_spec. cbn [snd].
  rewrite list_lookup_fmap. by destruct (_ !! destination r).
Qed.

Lemma letter_lookup letter k i :
  fst <$> with_status letter (numbered tracked) !! k = Some i →
  ∃ c, tracked !! i = Some c ∧ status c = letter.
Proof.
  destruct (_ !! k) as [[j c]|] eqn:Hk; intros [= <-]. exists c. by apply with_status_lookup in Hk.
Qed.

Lemma letter_inj letter k k' i :
  fst <$> with_status letter (numbered tracked) !! k = Some i →
  fst <$> with_status letter (numbered tracked) !! k' = Some i → k = k'.
Proof.
  destruct (_ !! k) as [[j c]|] eqn:Hk; intros [= <-].
  destruct (_ !! k') as [[j' c']|] eqn:Hk'; intros [= ->]. by eapply with_status_inj.
Qed.

Lemma start_of_spec r i :
  start_of r = Some i → ∃ c, tracked !! i = Some c ∧ status c = LETTER_D.
Proof. rewrite start_of_lookup. apply letter_lookup. Qed.

Lemma end_of_spec r i :
  end_of r = Some i → ∃ c, tracked !! i = Some c ∧ status c = LETTER_A.
Proof. rewrite end_of_lookup. apply letter_lookup. Qed.

Lemma start_of_inj r r' i : start_of r = Some i → start_of r' = Some i → source r = source r'.
Proof. rewrite !start_of_lookup. apply letter_inj. Qed.

Lemma end_of_inj r r' i : end_of r = Some i → end_of r' = Some i → destination r = destination r'.
Proof. rewrite !end_of_lookup. apply letter_inj. Qed.

Context (rs : list Rename).
Hypothesis Hpairing : pairing (snd <$> deleted) (snd <$> added) K rs.

Lemma rename_ends r : r ∈ rs → is_Some (start_of r) ∧ is_Some (end_of r).
Proof.
  intros Hr%Hpairing. assert (∃ ss ds, (snd <$> deleted) !! source r = Some ss ∧
    (snd <$> added) !! destination r = Some ds) as (ss & ds & Hs & Hd).
  { destruct Hr as [[_ (ss & ds & ? & ? & ? & _)]|[_ (ss & ds & ? & ? & _)]]; by exists ss, ds. }
  unfold start_of, end_of. rewrite list_lookup_fmap in Hs, Hd.
  destruct (deleted !! source r), (added !! destination r); done.
Qed.

(** What [moves] makes of the renames: each goes to the change it starts from. *)
Record moves_ok (rs : list Rename) (renamed_from : gmap nat nat) (moved : gset nat) : Prop := {
  mo_from j i : renamed_from !! j = Some i ↔
    ∃ r, r ∈ rs ∧ end_of r = Some j ∧ start_of r = Some i;
  mo_moved i : i ∈ moved ↔ ∃ r, r ∈ rs ∧ start_of r = Some i }.

Lemma same_destination r r' : r ∈ rs → r' ∈ rs → destination r = destination r' → r = r'.
Proof.
  intros [k Hk]%list_elem_of_lookup [k' Hk']%list_elem_of_lookup Heq.
  pose proof (pr_destinations _ _ _ _ Hpairing) as Hsort.
  assert (NoDup (destination <$> rs)) as Hnd.
  { eapply StronglySorted_NoDup; [|done]. lia. }
  assert (k = k') as ->; [|congruence].
  eapply (NoDup_lookup _ _ _ (destination r) Hnd); rewrite list_lookup_fmap, ?Hk, ?Hk'; simpl;
    by rewrite ?Heq.
Qed.

Lemma same_source r r' : r ∈ rs → r' ∈ rs → source r = source r' → r = r'.
Proof.
  intros [k Hk]%list_elem_of_lookup [k' Hk']%list_elem_of_lookup Heq.
  pose proof (pr_sources _ _ _ _ Hpairing) as Hnd.
  assert (k = k') as ->; [|congruence].
  eapply (NoDup_lookup _ _ _ (source r) Hnd); rewrite list_lookup_fmap, ?Hk, ?Hk'; simpl;
    by rewrite ?Heq.
Qed.

Lemma moves_spec :
  runs (moves deleted added rs) (λ '(renamed_from, moved), moves_ok rs renamed_from moved).
Proof.
  unfold moves. apply (runs_for_each _ _ (λ done '(from, moved),
    moves_ok done from moved)).
  - split; [intros j i; rewrite lookup_empty|intros i; rewrite elem_of_empty];
      (split; [done|]); intros (r & Hr & _); by apply elem_of_nil in Hr.
  - intros dn r rest [from moved] Hrs [Hfrom Hmoved].
    assert (r ∈ rs) as Hr by (rewrite Hrs; set_solver).
    destruct (rename_ends r Hr) as [[i Hi] [j Hj]].
    pose proof Hi as Hi'. pose proof Hj as Hj'. unfold start_of in Hi'. unfold end_of in Hj'.
    rewrite Hi', Hj'. simpl. split.
    + intros j' i'. destruct (decide (j' = j)) as [->|Hne].
      * rewrite lookup_insert_eq. split; [intros [= <-]; exists r; set_solver|].
        intros (r' & Hr' & He & Hs). assert (r' = r) as ->; [|congruence].
        apply same_destination; [rewrite Hrs; set_solver|done|by eapply end_of_inj].
      * rewrite lookup_insert_ne by done. rewrite Hfrom. split.
        -- intros (r' & ? & ? & ?). exists r'. set_solver.
        -- intros (r' & [?| ->%list_elem_of_singleton]%elem_of_app & ? & ?); [by exists r'|congruence].
    + intros i'. rewrite elem_of_union, elem_of_singleton, Hmoved. split.
      * intros [->|(r' & ? & ?)]; [exists r|exists r']; set_solver.
      * intros (r' & [?| ->%list_elem_of_singleton]%elem_of_app & Hs); [right; by exists r'|].
        left. congruence.
  - by intros [from moved].
Qed.
End moves.

(** ** The rows *)

(** What a listing says of the tracked changes: the rows are in the order of the
    changes; each is a change of its own or a deleted file that became an added one;
    no deleted file is in two rows; and no change is left out. *)
Record accounts (tracked : list RawChange) (l : GixListing) : Prop := {
  ac_order : (λ row, row.1.2) <$> listed l `sublist_of` r_path <$> tracked;
  ac_row kind path old : (kind, path, old) ∈ listed l →
    ∃ c, c ∈ tracked ∧ r_path c = path ∧
      match old with
      | None => kind ≠ FileRenamed ∧ (kind = FileAdded ↔ status c = LETTER_A) ∧
          (kind = FileDeleted ↔ status c = LETTER_D) ∧ (kind = FileTypeChanged ↔ status c = LETTER_T)
      | Some old => kind = FileRenamed ∧ status c = LETTER_A ∧
          (∃ o, o ∈ tracked ∧ r_path o = old ∧ status o = LETTER_D) ∧
          old ∉ (λ row, row.1.2) <$> listed l
      end;
  ac_once kind kind' path path' old :
    (kind, path, Some old) ∈ listed l → (kind', path', Some old) ∈ listed l → path = path';
  ac_all : Forall (λ c, is_Some (decode_git_path (r_path c))) tracked →
    ∀ c, c ∈ tracked → ∃ kind path old, (kind, path, old) ∈ listed l ∧
      (r_path c = path ∨ old = Some (r_path c)) }.

Lemma change_kind_spec letter :
  change_kind letter ≠ FileRenamed ∧ (change_kind letter = FileAdded ↔ letter = LETTER_A) ∧
  (change_kind letter = FileDeleted ↔ letter = LETTER_D) ∧ (change_kind letter = FileTypeChanged ↔ letter = LETTER_T).
Proof.
  unfold change_kind. destruct (N.eqb_spec letter LETTER_A) as [->|]; [done|].
  destruct (N.eqb_spec letter LETTER_D) as [->|]; [done|].
  by destruct (N.eqb_spec letter LETTER_T) as [->|].
Qed.

Lemma decode_git_path_same path p : decode_git_path path = Some p → p = path.
Proof. unfold decode_git_path. destruct (_ && _); congruence. Qed.

Lemma elem_of_omap_id {A} (l : list (option A)) x : x ∈ omap (λ o, o) l ↔ Some x ∈ l.
Proof.
  rewrite list_elem_of_omap. split; [by intros (o & ? & ->)|]. intros ?. by exists (Some x).
Qed.

Section rows.
Context {ObjectId : Type} (K : Known ObjectId) (tracked : list RawChange) (rs : list Rename).
Hypothesis Hpaths : NoDup (r_path <$> tracked).
Hypothesis Hpairing : pairing (snd <$> deleted tracked) (snd <$> added tracked) K rs.
Context (renamed_from : gmap nat nat) (moved : gset nat).
Hypothesis Hmoves : moves_ok tracked rs renamed_from moved.

Lemma path_inj i i' c c' :
  tracked !! i = Some c → tracked !! i' = Some c' → r_path c = r_path c' → i = i'.
Proof.
  intros Hc Hc' Heq.
  eapply (NoDup_lookup _ _ _ (r_path c) Hpaths); rewrite list_lookup_fmap, ?Hc, ?Hc'; simpl;
    by rewrite ?Heq.
Qed.

Lemma renamed_from_spec j i :
  renamed_from !! j = Some i →
  i ∈ moved ∧ (∃ c, tracked !! j = Some c ∧ status c = LETTER_A) ∧
  (∃ o, tracked !! i = Some o ∧ status o = LETTER_D).
Proof.
  intros (r & Hr & He & Hs)%(mo_from _ _ _ _ Hmoves). split_and!.
  - apply (mo_moved _ _ _ _ Hmoves). by exists r.
  - by eapply end_of_spec.
  - by eapply start_of_spec.
Qed.

Lemma renamed_from_inj j j' i :
  renamed_from !! j = Some i → renamed_from !! j' = Some i → j = j'.
Proof.
  intros (r & Hr & He & Hs)%(mo_from _ _ _ _ Hmoves) (r' & Hr' & He' & Hs')%(mo_from _ _ _ _ Hmoves).
  assert (r = r') as <-; [|congruence].
  eapply same_source; [done..|]. by eapply start_of_inj.
Qed.

(** The row of a change. *)
Definition row_of (i : nat) (c : RawChange) (row : FileChange * bytes * option bytes) : Prop :=
  i ∉ moved ∧ row.1.2 = r_path c ∧
  match renamed_from !! i with
  | Some s => ∃ o, tracked !! s = Some o ∧ row = (FileRenamed, r_path c, Some (r_path o))
  | None => row = (change_kind (status c), r_path c, None)
  end.

(** What a change and its row have to do with each other. *)
Definition row_ok (p : nat * RawChange)
    (o : option (FileChange * bytes * option bytes * option bytes)) : Prop :=
  match o with
  | Some (row, _) => row_of p.1 p.2 row
  | None => p.1 ∈ moved ∨ decode_git_path (r_path p.2) = None ∨
      ∃ s o, renamed_from !! p.1 = Some s ∧ tracked !! s = Some o ∧
        decode_git_path (r_path o) = None
  end.

Lemma list_change_spec i c :
  runs (list_change tracked renamed_from moved i c) (row_ok (i, c)).
Proof.
  unfold list_change, row_ok, row_of. simpl. case_bool_decide as Hm; [by left|].
  destruct (decode_git_path (r_path c)) as [path|] eqn:Hd; [|by right; left].
  apply decode_git_path_same in Hd as ->.
  destruct (renamed_from !! i) as [s|] eqn:Hs; [|done].
  destruct (renamed_from_spec _ _ Hs) as (_ & _ & o & Ho & _). rewrite Ho. simpl.
  destruct (decode_git_path (r_path o)) as [old|] eqn:Hd; simpl; [|right; right; by exists s, o].
  apply decode_git_path_same in Hd as ->. split_and!; [done..|]. by exists o.
Qed.

Context (rows : list (option (FileChange * bytes * option bytes * option bytes))).
Hypothesis Hrows : Forall2 row_ok (numbered tracked) rows.

Definition listing_of (untracked : list bytes) : GixListing :=
  mkGixListing (fst <$> omap (λ row, row) rows) (snd <$> omap (λ row, row) rows) untracked.

Lemma row_elem untracked row :
  row ∈ listed (listing_of untracked) →
  ∃ i c, tracked !! i = Some c ∧ row_of i c row.
Proof.
  intros ([row' base] & -> & Hin%elem_of_omap_id)%list_elem_of_fmap.
  apply list_elem_of_lookup in Hin as [k Hk].
  destruct (Forall2_lookup_r _ _ _ _ _ Hrows Hk) as ([i c] & Hc & Hrow).
  rewrite numbered_lookup in Hc. destruct (tracked !! k) as [c'|] eqn:Hc'; simplify_eq/=.
  by exists i, c.
Qed.

Lemma change_row untracked i c :
  tracked !! i = Some c →
  (∃ row, row ∈ listed (listing_of untracked) ∧ row_of i c row) ∨ row_ok (i, c) None.
Proof.
  intros Hc. assert (numbered tracked !! i = Some (i, c)) as Hn by (by rewrite numbered_lookup, Hc).
  destruct (Forall2_lookup_l _ _ _ _ _ Hrows Hn) as (o & Ho & Hrow).
  destruct o as [[row base]|]; [left|by right]. exists row. split; [|done].
  apply list_elem_of_fmap. exists (row, base). split; [done|]. apply elem_of_omap_id.
  by eapply list_elem_of_lookup_2.
Qed.

Lemma rows_order untracked :
  (λ row, row.1.2) <$> listed (listing_of untracked) `sublist_of` r_path <$> tracked.
Proof.
  assert (tracked = (numbered tracked).*2) as Hsnd.
  { unfold numbered. by rewrite snd_zip by (by rewrite length_seq). }
  rewrite Hsnd. unfold listing_of. simpl. clear -Hrows.
  induction Hrows as [|[i c] o l k Hrow Hall IH]; simpl; [constructor|]. specialize (IH Hall).
  destruct o as [[row base]|]; simpl; [|by apply sublist_cons].
  destruct Hrow as (_ & Hp & _). rewrite Hp. by apply sublist_skip.
Qed.

Lemma rows_account untracked : accounts tracked (listing_of untracked).
Proof.
  split.
  - apply rows_order.
  - intros kind path old (i & c & Hc & Hm & Hp & Hrow)%row_elem. simpl in Hp. subst path.
    exists c. split_and!; [by eapply list_elem_of_lookup_2|done|].
    destruct (renamed_from !! i) as [s|] eqn:Hs; [|simplify_eq; apply change_kind_spec].
    destruct Hrow as (o & Ho & Hrow). simplify_eq.
    destruct (renamed_from_spec _ _ Hs) as (Hms & (c' & Hc' & Ha) & (o' & Ho' & Hd)). simplify_eq.
    split_and!; [done..| |].
    + exists o. split_and!; [by eapply list_elem_of_lookup_2|done..].
    + intros (row & Heq & (i' & c' & Hc'' & Hm' & Hp & _)%row_elem)%list_elem_of_fmap.
      apply Hm'. by rewrite <- (path_inj s i' o c' Ho Hc'' ltac:(congruence)).
  - intros kind kind' path path' old (i & c & Hc & _ & Hp & Hrow)%row_elem
      (i' & c' & Hc' & _ & Hp' & Hrow')%row_elem. simpl in Hp, Hp'. subst.
    destruct (renamed_from !! i) as [s|] eqn:Hs; [|done].
    destruct (renamed_from !! i') as [s'|] eqn:Hs'; [|done].
    destruct Hrow as (o & Ho & Hrow), Hrow' as (o' & Ho' & Hrow'). simplify_eq.
    assert (s = s') as <- by (by eapply path_inj).
    assert (i = i') as <- by (by eapply renamed_from_inj). congruence.
  - intros Hdecode c [i Hi]%list_elem_of_lookup. rewrite Forall_lookup in Hdecode.
    assert (Hnone : ∀ j c, tracked !! j = Some c → row_ok (j, c) None → j ∈ moved).
    { intros j c' Hj [?|[Hd|(s & o & _ & Ho & Hd)]]; [done|..].
      - destruct (Hdecode _ _ Hj). simpl in Hd. congruence.
      - destruct (Hdecode _ _ Ho). congruence. }
    destruct (change_row untracked i c Hi) as [([[kind path] old] & Hin & _ & Hp & _)|Hno].
    { exists kind, path, old. by auto. }
    apply (Hnone _ _ Hi) in Hno. pose proof Hno as (r & Hr & Hs)%(mo_moved _ _ _ _ Hmoves).
    destruct (rename_ends K tracked rs Hpairing r Hr) as [_ [j Hj]].
    assert (renamed_from !! j = Some i) as Hji.
    { apply (mo_from _ _ _ _ Hmoves). by exists r. }
    destruct (renamed_from_spec _ _ Hji) as (_ & (c' & Hc' & Ha) & _).
    destruct (change_row untracked j c' Hc') as [([[kind path] old] & Hin & _ & _ & Hrow)|Hno'].
    + rewrite Hji in Hrow. destruct Hrow as (o & Ho & Hrow). simplify_eq. eauto 10.
    + apply (Hnone _ _ Hc') in Hno' as (r' & _ & Hs')%(mo_moved _ _ _ _ Hmoves).
      destruct (start_of_spec _ _ _ Hs') as (c'' & Hc'' & Hd). simplify_eq.
      rewrite Ha in Hd. done.
Qed.
End rows.

Lemma runs_mapM_Forall2 {A B} (f : A → option B) (l : list A) (Q : A → B → Prop) :
  (∀ x, x ∈ l → runs (f x) (Q x)) → runs (mapM f l) (Forall2 Q l).
Proof.
  induction l as [|x l IH]; intros Hf; simpl; [constructor|].
  eapply runs_bind; [apply Hf; by left|]. intros y Hy.
  eapply runs_bind; [apply IH; intros; apply Hf; by right|]. intros l' Hl'. by constructor.
Qed.

(** ** The listing *)

Section listing.
Context {ObjectId : Type} `{Countable ObjectId} {R : Repository ObjectId} {RL : RepositoryLaws R}.
Context `{Lookup_}.

(** The renames [track_renames] answers with are those of what the repository holds. *)
Definition renames_of (sources destinations : list RenameSide) (limit : N) (rs : list Rename) :
    Prop :=
  ∃ K : Known ObjectId,
    (∀ role i s oid, role_sides sources destinations role !! i = Some s →
       known_identity K role i = Some (Some oid) →
       genuine s oid (known_size K role i) (known_spans K role i)) ∧
    pairing sources destinations K rs ∧ covers_identical sources destinations K rs ∧
    (exceeds_limit (length destinations) (length sources) limit = false →
     covers_similar sources destinations K rs).

Lemma track_renames_spec sources destinations limit :
  match track_renames (ObjectId := ObjectId) sources destinations limit with
  | Some (Ok rs) => renames_of sources destinations limit rs
  | Some (Err e) => git_error e
  | None => False
  end.
Proof.
  unfold track_renames.
  pose proof (pair_spec _ git_error sources destinations
    (RepositoryContents_laws sources destinations) limit
    (RepositoryContents.new sources destinations) (new_valid sources destinations)) as Hpair.
  revert Hpair. unfold total.
  destruct (pair sources destinations limit _) as [[[rs|e] st']|]; simpl; [|done..].
  intros ([Hv Hk] & Hrest). exists (contents_known st'). split; [|done].
  intros role i s oid Hs Hid. by apply (valid_genuine sources destinations).
Qed.

Lemma gix_listing_spec snapshot cap entry_cap limit :
  settled cap snapshot →
  match gix_listing (ObjectId := ObjectId) snapshot entry_cap limit with
  | Some (Ok l) => truncated snapshot = false ∧
      (∃ tracked, changes_of snapshot tracked ∧ accounts tracked l) ∧
      StronglySorted str_lt ((λ row, row.1.2) <$> listed l) ∧
      (∀ path, path ∈ listed_untracked l ↔ ∃ entry, entry ∈ snapshot_entries snapshot ∧
         untracked entry = true ∧ decode_git_path (e_path entry) = Some path)
  | Some (Err e) => truncated snapshot = true ∨ git_error e ∨
      ∃ entry tree, entry ∈ snapshot_entries snapshot ∧ is_Some (e_conflict entry) ∧
        head_of snapshot = HeadTree tree ∧ tree_entry tree (e_path entry) = Err e
  | None => False
  end.
Proof.
  intros Hs. unfold gix_listing. destruct (truncated snapshot); [by left|].
  pose proof (tracked_changes_ok _ _ Hs) as Htracked.
  destruct (tracked_changes snapshot) as [tracked|e]; [|by right; right].
  pose proof (co_sorted _ _ Htracked) as Hsort.
  rewrite (surjective_pairing (rename_candidates tracked)).
  fold (deleted tracked) (added tracked).
  pose proof (track_renames_spec (snd <$> deleted tracked) (snd <$> added tracked) limit) as Hr.
  destruct (track_renames _ _ limit) as [[rs|e]|]; simpl; [|by right; left|done].
  destruct Hr as (K & _ & Hpairing & _).
  pose proof (moves_spec K tracked rs Hpairing) as Hm.
  destruct (moves _ _ rs) as [[from moved]|]; [|done]. simpl.
  assert (NoDup (r_path <$> tracked)) as Hnd.
  { eapply StronglySorted_NoDup; [apply str_lt_irrefl|done]. }
  fold (numbered tracked).
  pose proof (runs_mapM_Forall2 (λ '(i, c), list_change tracked from moved i c) (numbered tracked)
    (row_ok tracked from moved)) as Hrows.
  destruct (mapM _ (numbered tracked)) as [rows|]; simpl in *.
  2: { apply Hrows. intros [i c] _. by eapply list_change_spec. }
  assert (Forall2 (row_ok tracked from moved) (numbered tracked) rows) as Hall.
  { apply Hrows. intros [i c] _. by eapply list_change_spec. }
  assert (Hacc : ∀ untracked, accounts tracked (listing_of rows untracked)).
  { intros untracked. by eapply rows_account. }
  split_and!; [done|exists tracked; split; [done|apply Hacc]|eapply StronglySorted_sublist;
    [apply (ac_order _ _ (Hacc []))|done]|].
  intros path. rewrite list_elem_of_omap. setoid_rewrite list_elem_of_filter. naive_solver.
Qed.
End listing.
