(* ===== verification/GitProperties.v ===== *)
(** * The git integration: properties

    Renames between two sets of files, the similarity they rest on, the choice of an
    engine, the status of a worktree and the listing made of it. *)

From stdpp Require Import gmap list strings sorting relations.
From S2P Require Import Prelude GitTypes OrderedMap GitRenames GitSpans GitMatch GitRenamesCorrect.
From S2P Require Import GitContents GitContentsCorrect GitEngine GitEngineCorrect.
From S2P Require Import GitStatus GitStatusCorrect GitListing GitListingCorrect.

(** ** Renames *)

Section renames.
Context {ObjectId : Type} `{Countable ObjectId} {R : Repository ObjectId} {RL : RepositoryLaws R}.


(** Pairing looks at a file of the worktree at most once: what it read is kept
    until its spans are counted. *)
Theorem files_read_once sources destinations limit rs st :
  pair sources destinations limit (RepositoryContents.new sources destinations) = Some (Ok rs, st) →
  looked_up (history st) ≤ length (filter (λ s, id s = None) sources)
                           + length (filter (λ s, id s = None) destinations).
Proof.
  intros Hp.
  pose proof (pair_spec _ git_error sources destinations
    (RepositoryContents_laws sources destinations) limit
    (RepositoryContents.new sources destinations) (new_valid sources destinations)) as Hpair.
  unfold total in Hpair. rewrite Hp in Hpair. destruct Hpair as ([Hv _] & _).
  by apply looked_up_le.
Qed.
End renames.

(** The spans of a file are the histogram of its pieces - at most 64 bytes, cut
    after each line feed - by their hash, sorted and with no empty count.  Of a text
    the carriage returns before line feeds do not count. *)
Theorem span_counts_correct data is_text :
  (N.of_nat (length data) < 2 ^ 64)%N →
  ∃ sp, span_counts data is_text = Some sp ∧ spans_sorted sp ∧ Forall (λ p, 0 < p.2)%N sp ∧
    (∀ h, bytes_at sp h = bytes_with h (pieces (counted is_text data))) ∧
    concat (pieces (counted is_text data)) = counted is_text data ∧
    Forall (λ p, p ≠ [] ∧ (length p ≤ 64)%nat ∧ LF ∉ removelast p) (pieces (counted is_text data)).
Proof.
  intros Hlen. destruct (span_counts_spec data is_text Hlen) as (sp & ? & ? & ? & ? & _).
  exists sp. split_and!; [done..|apply pieces_from_concat|].
  apply pieces_from_shape; [simpl; lia|by intros ?%elem_of_nil].
Qed.

(** [copied_bytes] never panics on the spans of two files: it adds up what they
    share of each hash, whichever of them comes first; the score is a ratio of the
    larger file, and files that their sizes alone set aside would score below the
    minimum. *)
Theorem copied_bytes_correct a b ta tb sa sb minimum :
  (N.of_nat (length a) < 2 ^ 64)%N → (N.of_nat (length b) < 2 ^ 64)%N → (minimum ≤ MAX_SCORE)%N →
  span_counts a ta = Some sa → span_counts b tb = Some sb →
  let size_a := N.of_nat (length a) in
  let size_b := N.of_nat (length b) in
  copied_bytes sa sb = Some (shared sa sb) ∧ copied_bytes sb sa = Some (shared sa sb) ∧
  (score_of size_a size_b (shared sa sb) ≤ MAX_SCORE)%N ∧
  (too_different size_a size_b minimum = true → (score_of size_a size_b (shared sa sb) < minimum)%N).
Proof.
  intros Ha Hb Hmin Hsa Hsb size_a size_b.
  destruct (span_counts_spec a ta Ha) as (sa' & Hsa' & Hsorta & _ & _ & Hta).
  destruct (span_counts_spec b tb Hb) as (sb' & Hsb' & Hsortb & _ & _ & Htb). simplify_eq.
  pose proof (counted_length ta a). pose proof (counted_length tb b).
  pose proof (spans_sorted_nodup _ Hsorta). pose proof (spans_sorted_nodup _ Hsortb).
  assert (shared sa sb ≤ size_a)%N by (pose proof (shared_le_source sa sb); lia).
  assert (shared sa sb ≤ size_b)%N 
    by (pose proof (shared_le_destination sa sb ltac:(done) ltac:(done)); lia).
  split_and!.
  - apply copied_bytes_spec; [done..|lia].
  - rewrite shared_comm by done. apply copied_bytes_spec; [done..|lia].
  - by apply score_of_le.
  - intros Hdiff%N.ltb_lt. by apply size_filter.
Qed.

(** ** The engine *)


(** ** The status *)


(** The two threads of a status may deliver their items in any interleaving: the
    snapshot is the one of the tree's items first, unless a file that was deleted
    from the index was also compared with the worktree. *)
Theorem status_order_irrelevant head trees worktrees items interrupted index submodules entry_cap :
  interleave trees worktrees items →
  Forall (λ i, is_tree_item i = true) trees → Forall (λ j, is_tree_item j = false) worktrees →
  (∀ i j, i ∈ trees → j ∈ worktrees → independent i j) →
  collect head (Ok <$> items) interrupted index submodules entry_cap =
  collect head (Ok <$> (trees ++ worktrees)) interrupted index submodules entry_cap.
Proof.
  intros Hl Htrees Hworktrees Hind. unfold collect. rewrite !record_items_ok_items.
  by rewrite (interleave_same _ _ _ _ Hl state_ok_empty Htrees Hworktrees Hind).
Qed.

(** The porcelain codes of a settled snapshot can be told apart: a code of a
    conflict stands for a conflict, or for a file deleted from the index and missing
    in the worktree, and the code of untracked files for an untracked one. *)
Theorem porcelain_unambiguous cap s r :
  settled cap s → r ∈ records s →
  ∃ e, e ∈ snapshot_entries s ∧ e_path e = record_path r ∧
    (is_conflict_code (code r) = true →
       (∃ conflict, e_conflict e = Some conflict ∧ code r = conflict_code conflict) ∨
       (e_conflict e = None ∧ head_to_index e = Some IndexDeleted ∧
        index_to_worktree e = Some Deleted)) ∧
    (code r = UNTRACKED_CODE → untracked e = true ∧ e_conflict e = None).
Proof.
  intros Hs Hr. rewrite records_concat in Hr.
  apply list_elem_of_In, in_concat in Hr as (rs & (e & -> & He)%list_elem_of_In%list_elem_of_fmap
    & Hr%list_elem_of_In).
  exists e. split; [done|]. by apply records_of_spec; [apply (st_intent _ _ Hs)|].
Qed.

(** ** The listing *)

Section listing.
Context {ObjectId : Type} `{Countable ObjectId} {R : Repository ObjectId} {RL : RepositoryLaws R}.
Context `{Lookup_}.

End listing.

(** What git prints of changes is read back, and of an output that was cut at
    any byte exactly the first changes are read: none is torn. *)
Theorem raw_changes_round_trip changes :
  Forall printable changes →
  parse_raw_changes (print_raw changes) false = changes ∧
  ∀ n, ∃ k, parse_raw_changes (take n (print_raw changes)) true = take k changes ∧
    (length (print_raw changes) ≤ n → length changes ≤ k).
Proof. intros Hall. split; [by apply parse_print|]. intros n. by apply parse_cut. Qed.

(** ** Witnesses *)

(** A repository whose ids are the contents, and whose files have one content. *)
Definition small (data : bytes) : bool := (N.of_nat (length data) <? 2 ^ 63)%N.
Definition file_content : bytes := [104; 105; 10]%N.

Definition memory : Repository bytes := {|
  workdir := true;
  from_bstr := Some;
  from_hex := Ok;
  compute_hash := Ok;
  symlink_metadata := λ _ _, Some File;
  read_link := λ _ _, None;
  open_file := λ _ _, true;
  filter_pipeline := λ _, Ok ();
  attributes_only := λ _, Ok ();
  convert_to_git := λ _ _, Ok (Buffer file_content);
  at_entry := λ _ _, Ok [];
  config_boolean := λ _, None;
  try_find_header := λ _ data, Ok (Some (Blob, N.of_nat (length data)));
  try_find_object := λ _ data, Ok (if small data then Some (Blob, data) else None) |}.

Lemma memory_laws : RepositoryLaws memory.
Proof.
  split; simpl; try done.
  - intros _ _ data n data'. destruct (small data); congruence.
  - intros _ data kind data'. destruct (small data) eqn:Hs; [|done]. intros [= _ <-].
    by apply N.ltb_lt.
  - intros _ _ outcome data [= <-] Hd. destruct Hd as [Hd|[Hd|Hd]]; by simplify_eq.
Defined.


Definition old_file : RenameSide := Build_RenameSide [97%N] REGULAR_MODE (Some file_content).
Definition new_file : RenameSide := Build_RenameSide [98%N] REGULAR_MODE None.


Definition after_pairing : option (result (list Rename) Error * RepositoryContents bytes) :=
  pair (Contents0 := RepositoryContents_Contents (Repository0 := memory)) [old_file] [new_file] 1000
    (RepositoryContents.new [old_file] [new_file]).

Lemma files_read_once_witness :
  ∃ st, after_pairing = Some (Ok [mkRename 0 0 MAX_SCORE], st) ∧ looked_up (history st) ≤ 1.
Proof.
  destruct after_pairing as [[[rs|e] st]|] eqn:Hrun; [|vm_compute in Hrun; discriminate..].
  assert (rs = [mkRename 0 0 MAX_SCORE]) as -> by (vm_compute in Hrun; by injection Hrun as <- _).
  exists st. split; [reflexivity|].
  exact (files_read_once (R := memory) (RL := memory_laws) [old_file] [new_file] 1000 _ st Hrun).
Defined.

Lemma span_counts_correct_witness :
  (N.of_nat (length file_content) < 2 ^ 64)%N ∧
  ∃ sp, span_counts file_content true = Some sp ∧ spans_sorted sp.
Proof.
  assert (N.of_nat (length file_content) < 2 ^ 64)%N as Hlen by reflexivity.
  split; [exact Hlen|].
  destruct (span_counts_correct file_content true Hlen) as (sp & Hsp & Hs & _).
  exists sp. exact (conj Hsp Hs).
Defined.

Lemma copied_bytes_correct_witness :
  ∃ sa sb, span_counts file_content true = Some sa ∧ span_counts (file_content ++ [120%N]) true = Some sb ∧
    copied_bytes sa sb = Some 3%N.
Proof.
  destruct (span_counts file_content true) as [sa|] eqn:Ha; [|vm_compute in Ha; discriminate].
  destruct (span_counts (file_content ++ [120%N]) true) as [sb|] eqn:Hb; [|vm_compute in Hb; discriminate].
  exists sa, sb. split; [reflexivity|]. split; [reflexivity|].
  destruct (copied_bytes_correct file_content (file_content ++ [120%N]) true true sa sb
    DEFAULT_RENAME_SCORE ltac:(reflexivity) ltac:(reflexivity) ltac:(done) Ha Hb) as [-> _].
  vm_compute in Ha, Hb. injection Ha as <-. injection Hb as <-. reflexivity.
Defined.




(** A status: a file added to the index, and one that two branches changed. *)
Definition sample_items : list (result Item string) :=
  [Ok (WorktreeModification FILE [49%N] [98%N] (StatusConflict BothModified));
   Ok (TreeIndex (Addition [97%N] FILE [49%N]))].

Definition sample_snapshot : Snapshot :=
  match collect Unborn sample_items false None [] 10 with
  | Ok s => s
  | Err _ => mkSnapshot Unborn [] [] [] false 0
  end.

Lemma sample_collected : collect Unborn sample_items false None [] 10 = Ok sample_snapshot.
Proof. reflexivity. Qed.


Lemma status_order_irrelevant_witness :
  let tree := TreeIndex (Addition [97%N] FILE [49%N]) in
  let worktree := WorktreeModification FILE [49%N] [98%N] ChangeRemoved in
  collect Unborn [Ok worktree; Ok tree] false None [] 10 =
  collect Unborn [Ok tree; Ok worktree] false None [] 10.
Proof.
  intros tree worktree.
  apply (status_order_irrelevant Unborn [tree] [worktree] [worktree; tree]).
  - repeat constructor.
  - repeat constructor.
  - repeat constructor.
  - intros i j ->%list_elem_of_singleton ->%list_elem_of_singleton. exact I.
Defined.

Lemma porcelain_unambiguous_witness :
  ∃ e, e ∈ snapshot_entries sample_snapshot ∧ e_path e = [98%N].
Proof.
  destruct (porcelain_unambiguous 10 sample_snapshot
    (mkRecord (LETTER_U, LETTER_U) [98%N]) (collect_settled _ _ _ _ _ _ _ sample_collected))
    as (e & He & Hp & _).
  - vm_compute. right. left.
  - exists e. exact (conj He Hp).
Defined.


Lemma raw_changes_round_trip_witness :
  let change := mkRawChange 0 REGULAR_MODE null_oid [49%N] LETTER_A [97%N; 32%N] in
  printable change ∧ parse_raw_changes (print_raw [change]) false = [change].
Proof.
  intros change. assert (printable change) as Hc.
  { split; try (vm_compute; done); try (repeat constructor; vm_compute; done).
    split; [done|]. by intros [|[|?%elem_of_nil]%elem_of_cons]%elem_of_cons. }
  split; [exact Hc|].
  exact (proj1 (raw_changes_round_trip [change] (Forall_cons_2 _ _ _ Hc (Forall_nil_2 _)))).
Defined.
