(* ===== verification/UsageLedger.v ===== *)
(** * The usage ledger ([paneflow-serve/src/usage/ledger.rs])

    [TurnBook] keeps, per day and account, how many turns there were, how long the
    agents worked and how many tokens they used.  Turns open and close by the signals
    of [AgentWorker]; tokens come from passes over transcripts.  Times are
    milliseconds, days are numbered as [chrono] numbers them; [u64] additions are
    checked. *)

From stdpp Require Import gmap list sorting.
From S2P Require Import Prelude DiffText OrderedMap AgentActivity AgentSession AgentWorker.

Local Open Scope N_scope.

(** ** Constants *)

Definition LEDGER_WRITE_INTERVAL : N := 60 * 10 ^ 9.
Definition TURN_IDLE_LIMIT_MS : N := 4 * 3600 * 1000.
Definition MAX_TURN_ACTIVE_MS : N := 4 * 3600 * 1000.
Definition RETAINED_DAYS : Z := 400.
Definition MAX_TURN_INTERVALS : nat := 256.
Definition MAX_WATERMARKS : nat := 512.
Definition LEDGER_VERSION : N := 1.
Definition MAX_CURSORS : nat := 200.

(** [u64::MAX], [i64::MAX]. *)
Definition U64_MAX : N := 2 ^ 64 - 1.
Definition I64_MAX : N := 2 ^ 63 - 1.

(** [NaiveDate], as the number of its day. *)
Notation NaiveDate := Z (only parsing).

(** ** Calendars *)

Class Calendar := { day : N → NaiveDate; next_midnight_ms : N → N }.

(** What [chrono] answers for a time zone: the bounds of [NaiveDate], the local date of
    an instant in milliseconds, the earliest instant of an hour of a day. *)
Class TimeZone := {
  date_MIN : NaiveDate;
  date_MAX : NaiveDate;
  date_at : N → option NaiveDate;
  earliest_at : NaiveDate → nat → option Z }.

Fixpoint find_map {A B} (f : A → option B) (l : list A) : option B :=
  match l with
  | [] => None
  | x :: l => match f x with Some y => Some y | None => find_map f l end
  end.

(** [u64::try_from]. *)
Definition u64_try_from (z : Z) : option N :=
  if (0 <=? z)%Z && (z <? 2 ^ 64)%Z then Some (Z.to_N z) else None.

Section zone.
Context `{TimeZone}.

Definition zone_day (at_ms : N) : NaiveDate :=
  let millis := if at_ms <=? I64_MAX then at_ms else I64_MAX in
  default date_MIN (date_at millis).

Definition zone_next_midnight_ms (at_ms : N) : N :=
  if (date_MAX <=? zone_day at_ms)%Z then U64_MAX
  else
  let next := (zone_day at_ms + 1)%Z in
  default U64_MAX
  (midnight ← find_map (earliest_at next) (seq 0 3);
   midnight ← u64_try_from midnight;
   if at_ms <? midnight then Some midnight else None).

(** [ZoneCalendar]. *)
Definition ZoneCalendar : Calendar := {| day := zone_day; next_midnight_ms := zone_next_midnight_ms |}.
End zone.

(** ** The data *)

(** The derived order of [LedgerAccount]. *)
Definition account_le (a b : LedgerAccount) : Prop :=
  match str_cmp (account_agent a) (account_agent b) with
  | Lt => True
  | Eq => str_cmp (config_dir a) (config_dir b) ≠ Gt
  | Gt => False
  end.

#[export] Instance account_le_dec a b : Decision (account_le a b).
Proof. unfold account_le. destruct (str_cmp (account_agent a) _); apply _. Defined.

#[export] Instance LedgerAccount_countable : Countable LedgerAccount.
Proof.
  apply (inj_countable' (λ a, (account_agent a, config_dir a)) (λ p, mkAccount p.1 p.2)).
  by intros [].
Defined.

Record DayTally := mkTally { turns : N; active_ms : N; tokens_in : N; tokens_out : N }.

#[export] Instance DayTally_eq_dec : EqDecision DayTally.
Proof. solve_decision. Defined.

(** [DayTally::default()]. *)
Definition DayTally_default : DayTally := mkTally 0 0 0 0.

Record ImportRecord := mkImport { finished_at_ms : N; files : N; limited_days : option N }.

Notation Tallies := (gmap LedgerAccount DayTally) (only parsing).
Notation ImportedDays := (gmap Z (gmap LedgerAccount DayTally)) (only parsing).

Record OpenTurn := mkTurn {
  ot_account : LedgerAccount;
  started_at_ms : N;
  last_event_ms : N;
  prompt_at_ms : option N;
  working_since_ms : option N;
  working : list (N * N);
  declared : bool }.

(** [TokenCursor], [TokenEntry], [TurnStart] and [TokenPass] of [tokens.rs]. *)
Record TokenCursor := mkCursor {
  offset : N; touched_ms : N; skipping : bool; totals : option (N * N);
  seen_day : option NaiveDate; seen : list str }.

#[export] Instance TokenCursor_eq_dec : EqDecision TokenCursor.
Proof. solve_decision. Defined.

Definition TokenCursor_default : TokenCursor := mkCursor 0 0 false None None [].

Record TokenEntry := mkEntry { te_day : NaiveDate; input : N; output : N; te_key : option N }.
Record TurnStart := mkTurnStart { tu_day : NaiveDate; tu_key : option N }.
Record TokenPass := mkPass {
  pass_path : str; start : TokenCursor; cursor : TokenCursor; entries : list TokenEntry;
  turn_starts : list TurnStart }.

Record TurnBook := mkBook {
  days : gmap NaiveDate Tallies;
  open : BTreeMap.t OpenTurn;
  watermarks : BTreeMap.t (N * N);
  cursors : BTreeMap.t TokenCursor;
  imported : gmap NaiveDate (gset LedgerAccount);
  import_record : option ImportRecord;
  revision : N }.

Definition TurnBook_default : TurnBook := mkBook ∅ [] [] [] ∅ None 0.

Definition set_days v (b : TurnBook) : TurnBook :=
  mkBook v (open b) (watermarks b) (cursors b) (imported b) (import_record b) (revision b).
Definition set_open v (b : TurnBook) : TurnBook :=
  mkBook (days b) v (watermarks b) (cursors b) (imported b) (import_record b) (revision b).
Definition set_watermarks v (b : TurnBook) : TurnBook :=
  mkBook (days b) (open b) v (cursors b) (imported b) (import_record b) (revision b).
Definition set_cursors v (b : TurnBook) : TurnBook :=
  mkBook (days b) (open b) (watermarks b) v (imported b) (import_record b) (revision b).
Definition set_imported v (b : TurnBook) : TurnBook :=
  mkBook (days b) (open b) (watermarks b) (cursors b) v (import_record b) (revision b).
Definition set_import v (b : TurnBook) : TurnBook :=
  mkBook (days b) (open b) (watermarks b) (cursors b) (imported b) v (revision b).

(** [self.revision += 1]. *)
Definition bump (b : TurnBook) : option TurnBook :=
  r ← add_u64 (revision b) 1;
  Some (mkBook (days b) (open b) (watermarks b) (cursors b) (imported b) (import_record b) r).

(** ** Open turns *)

Module OpenTurn.
Definition close_working (at_ms : N) (t : OpenTurn) : OpenTurn :=
  match working_since_ms t with
  | None => t
  | Some since =>
  let end_ := N.max at_ms since in
  let working' :=
    match last (working t) with
    | Some last =>
        if (MAX_TURN_INTERVALS <=? length (working t))%nat
        then removelast (working t) ++ [(fst last, end_)]
        else working t ++ [(since, end_)]
    | None => working t ++ [(since, end_)]
    end in
  mkTurn (ot_account t) (started_at_ms t) (last_event_ms t) (prompt_at_ms t) None working'
    (declared t)
  end.

(** The closure over [budget]. *)
Fixpoint take_budget (intervals : list (N * N)) (budget : N) : list (N * N) :=
  match intervals with
  | [] => []
  | (start, end_) :: intervals =>
  let length := N.min (end_ - start) budget in
  let rest := take_budget intervals (budget - length) in
  if 0 <? length then (start, start + length) :: rest else rest
  end.

Definition active_intervals (end_ms : N) (t : OpenTurn) : list (N * N) :=
  take_budget
  (if declared t then working t else [(default (started_at_ms t) (prompt_at_ms t), end_ms)])
  MAX_TURN_ACTIVE_MS.

(** [turn.last_event_ms = turn.last_event_ms.max(at)]. *)
Definition touch (at_ms : N) (t : OpenTurn) : OpenTurn :=
  mkTurn (ot_account t) (started_at_ms t) (N.max (last_event_ms t) at_ms) (prompt_at_ms t)
  (working_since_ms t) (working t) (declared t).

Definition prompted (at_ms : N) (t : OpenTurn) : OpenTurn :=
  touch at_ms
  (mkTurn (ot_account t) (started_at_ms t) (last_event_ms t)
   (Some (default at_ms (prompt_at_ms t))) (working_since_ms t) (working t) (declared t)).

Definition set_working (at_ms : N) (t : OpenTurn) : OpenTurn :=
  touch at_ms
  (mkTurn (ot_account t) (started_at_ms t) (last_event_ms t) (prompt_at_ms t)
   (Some (default at_ms (working_since_ms t))) (working t) true).
End OpenTurn.

(** ** The book *)

(** [iter().min_by_key(..)]: the first of the least elements. *)
Fixpoint min_by {A} (lt : A → A → bool) (l : list A) : option A :=
  match l with
  | [] => None
  | x :: l => match min_by lt l with
              | Some y => if lt y x then Some y else Some x
              | None => Some x
              end
  end.

(** The order of [(u64, u64)]. *)
Definition mark_lt (a b : N * N) : bool := (fst a <? fst b) || ((fst a =? fst b) && (snd a <? snd b)).

(** [TurnInput::from_hook]. *)
Definition from_hook (i : TurnInput) : bool :=
  match i with Prompt | StopInput | Ended => true | _ => false end.

(** The changes of a tally. *)
Definition add_turn (t : DayTally) : option DayTally :=
  n ← add_u64 (turns t) 1; Some (mkTally n (active_ms t) (tokens_in t) (tokens_out t)).

Definition add_active (length : N) (t : DayTally) : option DayTally :=
  n ← add_u64 (active_ms t) length; Some (mkTally (turns t) n (tokens_in t) (tokens_out t)).

Definition add_tokens (e : TokenEntry) (t : DayTally) : option DayTally :=
  i ← add_u64 (tokens_in t) (input e);
  o ← add_u64 (tokens_out t) (output e);
  Some (mkTally (turns t) (active_ms t) i o).

(** [map.entry(day).or_default()]. *)
Definition tallies_of (b : TurnBook) (d : NaiveDate) : Tallies := default ∅ (days b !! d).

Module TurnBook.
Definition tally (b : TurnBook) (d : NaiveDate) (account : LedgerAccount) : DayTally :=
  default DayTally_default (tallies_of b d !! account).

Definition token_cursor (b : TurnBook) (path : str) : TokenCursor :=
  default TokenCursor_default (BTreeMap.get (cursors b) path).

Definition is_imported (b : TurnBook) (d : NaiveDate) (account : LedgerAccount) : bool :=
  bool_decide (account ∈ default ∅ (imported b !! d)).

Definition book (d : NaiveDate) (account : LedgerAccount) (change : DayTally → option DayTally)
  (b : TurnBook) : option TurnBook :=
  if is_imported b d account then Some b
  else
  t ← change (tally b d account);
  bump (set_days (<[d := <[account := t]> (tallies_of b d)]> (days b)) b).

(** An account of a day that is imported; the number of those booked. *)
Definition import_one (d : NaiveDate) (account : LedgerAccount) (t : DayTally)
  (state : TurnBook * nat) : TurnBook * nat :=
  let '(b, booked) := state in
  if bool_decide (t = DayTally_default) || bool_decide (is_Some (tallies_of b d !! account))
  then (b, booked)
  else
  (set_imported (<[d := {[account]} ∪ default ∅ (imported b !! d)]> (imported b))
   (set_days (<[d := <[account := t]> (tallies_of b d)]> (days b)) b), S booked).

(** The days and the accounts are visited in the order of their maps, and the result
does not depend on it. *)
Definition import_days (new : ImportedDays) (today : NaiveDate) (record : ImportRecord)
  (b : TurnBook) : option (TurnBook * nat) :=
  let '(b, booked) :=
  map_fold (λ d tallies state,
  if (d <? today)%Z then map_fold (import_one d) state tallies else state) (b, O) new in
  b ← bump (set_import (Some record) b);
  Some (b, booked).

(** The loop that drops the cursors touched first. *)
Fixpoint trim_cursors (fuel : nat) (c : BTreeMap.t TokenCursor) : BTreeMap.t TokenCursor :=
  match fuel with
  | O => c
  | S fuel =>
  if (MAX_CURSORS <? length c)%nat then
    match min_by (λ a b, touched_ms (snd a) <? touched_ms (snd b)) c with
    | None => c
    | Some (oldest, _) => trim_cursors fuel (BTreeMap.remove c oldest)
    end
  else c
  end.

Definition forget_seen (today : option NaiveDate) (c : TokenCursor) : TokenCursor :=
  if bool_decide (seen_day c = today) then c
  else mkCursor (offset c) (touched_ms c) (skipping c) (totals c) (seen_day c) [].

Definition record_tokens (account : LedgerAccount) (pass : TokenPass) (b : TurnBook) :
  option (bool * TurnBook) :=
  if bool_decide (token_cursor b (pass_path pass) ≠ start pass) then Some (false, b)
  else
  b ← for_each (entries pass) (λ e b, book (te_day e) account (add_tokens e) b) b;
  if bool_decide (cursor pass = start pass) then Some (bool_decide (entries pass ≠ []), b)
  else
  let c := BTreeMap.insert (cursors b) (pass_path pass) (cursor pass) in
  let c := BTreeMap.map_values (forget_seen (seen_day (cursor pass))) c in
  b ← bump (set_cursors (trim_cursors (length c) c) b);
  Some (true, b).

(** The oldest watermark of a session without an open turn is dropped first. *)
Fixpoint trim_watermarks (fuel : nat) (b : TurnBook) : TurnBook :=
  match fuel with
  | O => b
  | S fuel =>
  if (MAX_WATERMARKS <? length (watermarks b))%nat then
    match min_by (λ a b, mark_lt (snd a) (snd b))
            (filter (λ w, BTreeMap.get (open b) (fst w) = None) (watermarks b)) with
    | None => b
    | Some (oldest, _) =>
        trim_watermarks fuel (set_watermarks (BTreeMap.remove (watermarks b) oldest) b)
    end
  else b
  end.

Section calendar.
Context `{Calendar}.

(** One round of the loop over the days of a span. *)
Definition span_step (account : LedgerAccount) (stop : N) (state : N * TurnBook) :
  option ((N * TurnBook) + TurnBook) :=
  let '(cursor, b) := state in
  if cursor <? stop then
  let boundary := N.min (next_midnight_ms cursor) stop in
  _ ← assert (cursor <=? boundary);
  b ← book (day cursor) account (add_active (boundary - cursor)) b;
  Some (inl (boundary, b))
  else Some (inr b).

Definition book_span (account : LedgerAccount) (start stop : N) (b : TurnBook) : option TurnBook :=
  run_loop 64 (span_step account stop) (start, b).

Definition finish (session : str) (end_ms : option N) (b : TurnBook) : option TurnBook :=
  match BTreeMap.get (open b) session with
  | None => Some b
  | Some turn =>
  let b := set_open (BTreeMap.remove (open b) session) b in
  let end_ := N.max (default (last_event_ms turn) end_ms) (started_at_ms turn) in
  let turn := OpenTurn.close_working end_ turn in
  b ← for_each (OpenTurn.active_intervals end_ turn)
  (λ '(start, stop) b, book_span (ot_account turn) start stop b) b;
  bump b
  end.

(** The turn a signal opens. *)
Definition new_turn (signal : TurnSignal) : OpenTurn :=
  mkTurn (ts_account signal) (ts_at_ms signal) (ts_at_ms signal) None None [] false.

(** [open_or_start], and [f] on the turn it returns. *)
Definition open_or_start (signal : TurnSignal) (f : OpenTurn → OpenTurn) (b : TurnBook) :
  option TurnBook :=
  let session := ts_session signal in
  b ← (if BTreeMap.contains_key (open b) session then Some b
  else book (day (ts_at_ms signal)) (ts_account signal) add_turn b);
  let turn := default (new_turn signal) (BTreeMap.get (open b) session) in
  Some (set_open (BTreeMap.insert (open b) session (f turn)) b).

(** The watermark of a hook's signal: whether it is new, and the book with it. *)
Definition pass_watermark (signal : TurnSignal) (b : TurnBook) : bool * TurnBook :=
  if from_hook (ts_input signal) then
  let held := default (0, 0) (BTreeMap.get (watermarks b) (ts_session signal)) in
  let mark := (ts_at_ms signal, ts_order signal) in
  if mark_lt held mark
  then (true, set_watermarks (BTreeMap.insert (watermarks b) (ts_session signal) mark) b)
  else (false, set_watermarks (BTreeMap.insert (watermarks b) (ts_session signal) held) b)
  else (true, b).

Definition apply_input (signal : TurnSignal) (b : TurnBook) : option TurnBook :=
  let at_ms := ts_at_ms signal in
  let session := ts_session signal in
  match ts_input signal with
  | Prompt => open_or_start signal (OpenTurn.prompted at_ms) b
  | Working => open_or_start signal (OpenTurn.set_working at_ms) b
  | Blocked =>
  Some (match BTreeMap.get (open b) session with
  | Some turn =>
      set_open (BTreeMap.insert (open b) session
        (OpenTurn.touch at_ms (OpenTurn.close_working at_ms turn))) b
  | None => b
  end)
  | Settled | StopInput | Ended => finish session (Some at_ms) b
  | Vanished => finish session None b
  end.

Definition apply (signal : TurnSignal) (b : TurnBook) : option TurnBook :=
  let '(fresh, b) := pass_watermark signal b in
  if (fresh : bool) then
  b ← apply_input signal b;
  Some (trim_watermarks (length (watermarks b)) b)
  else Some b.

(** Whether a turn has expired, and its end. *)
Definition expired_end (running in_turn : list str) (now_ms : N) (session : str) (turn : OpenTurn) :
  option (option N) :=
  if bool_decide (session ∉ running) || (declared turn && bool_decide (session ∉ in_turn))
  then Some None
  else if TURN_IDLE_LIMIT_MS <=? now_ms - last_event_ms turn
  then Some ((λ _, now_ms) <$> working_since_ms turn)
  else None.

Definition expire (running in_turn : list str) (now_ms : N) (b : TurnBook) :
  option (nat * TurnBook) :=
  let expired := omap (λ '(session, turn),
  (λ end_, (session, end_)) <$> expired_end running in_turn now_ms session turn) (open b) in
  b ← for_each expired (λ '(session, end_) b, finish session end_ b) b;
  Some (length expired, b).
End calendar.

(** [prune]; the oldest day is [None] below the first of [chrono]. *)
Definition prune `{TimeZone} (today : NaiveDate) (b : TurnBook) : TurnBook :=
  let oldest := (today - RETAINED_DAYS)%Z in
  if (oldest <? date_MIN)%Z then b
  else set_imported (filter (λ kv, (oldest < fst kv)%Z) (imported b))
     (set_days (filter (λ kv, (oldest < fst kv)%Z) (days b)) b).
End TurnBook.

(** ** The file *)

Record DayEntry := mkDayEntry { de_account : nat; de_tally : DayTally }.

Record LedgerFile := mkFile {
  version : N;
  f_accounts : list LedgerAccount;
  f_days : gmap NaiveDate (list DayEntry);
  f_open_turns : BTreeMap.t OpenTurn;
  f_watermarks : BTreeMap.t (N * N);
  f_cursors : BTreeMap.t TokenCursor;
  f_imported : gmap NaiveDate (list nat);
  f_import : option ImportRecord }.

(** The entries of a [BTreeMap] and of a [BTreeSet] of accounts, in their order. *)
Definition tallies_in_order (t : Tallies) : list (LedgerAccount * DayTally) :=
  merge_sort (λ a b, account_le (fst a) (fst b)) (map_to_list t).

Definition accounts_in_order (s : gset LedgerAccount) : list LedgerAccount :=
  merge_sort account_le (elements s).

(** [accounts.binary_search(account).ok()] on sorted accounts that differ. *)
Definition binary_search (accounts : list LedgerAccount) (account : LedgerAccount) : option nat :=
  fst <$> list_find (λ a, a = account) accounts.

(** The accounts of the days, sorted and once each. *)
Definition all_accounts (d : gmap NaiveDate Tallies) : list LedgerAccount :=
  accounts_in_order (⋃ ((λ t : Tallies, dom t) <$> (map_to_list d).*2)).

Definition to_file (b : TurnBook) : LedgerFile :=
  let accounts := all_accounts (days b) in
  mkFile LEDGER_VERSION accounts
    ((λ tallies, omap (λ '(account, t),
        (λ i, mkDayEntry i t) <$> binary_search accounts account) (tallies_in_order tallies))
     <$> days b)
    (open b) (watermarks b) (cursors b)
    ((λ held, omap (binary_search accounts) (accounts_in_order held)) <$> imported b)
    (import_record b).

(** The entries of a day whose account is known. *)
Definition restore_day (accounts : list LedgerAccount) (entries : list DayEntry) : Tallies :=
  foldl (λ t e,
    match accounts !! de_account e with Some account => <[account := de_tally e]> t | None => t end)
    ∅ entries.

(** A day without any known account is not entered. *)
Definition restore (f : LedgerFile) : TurnBook :=
  mkBook
    (filter (λ kv, snd kv ≠ ∅) (restore_day (f_accounts f) <$> f_days f))
    (BTreeMap.map_values (λ t, OpenTurn.close_working (last_event_ms t) t) (f_open_turns f))
    (f_watermarks f) (f_cursors f)
    ((λ indices, list_to_set (omap (λ i, f_accounts f !! i) indices)) <$> f_imported f)
    (f_import f) 0.

(** ** The ledger *)

Definition MAX_LEDGER_BYTES : N := 8 * 1024 * 1024.

(** [serde_json::to_vec] and [serde_json::from_slice] at [LedgerFile]. *)
Class LedgerEncoding := {
  to_vec : LedgerFile → option (list N);
  file_from_slice : list N → option LedgerFile }.

(** What is written is read back. *)
Class LedgerEncodingLaws (E : LedgerEncoding) := {
  file_from_to_vec file data : to_vec file = Some data → file_from_slice data = Some file }.

(** The kinds of [io::Error] that are told apart, and any other. *)
Inductive IoError := IoNotFound | IoInvalidInput | IoFileTooLarge | IoOther.

(** What the file system answers for the ledger's path: whether it is a regular file
    and its length, or why it cannot be opened; and what is read of it to its end. *)
Record LedgerIo := mkLedgerIo {
  io_metadata : (bool * N) + IoError;
  io_data : list N + IoError }.

(** [paneflow_home::open_regular_for_reading]: the length of a regular file. *)
Definition open_regular_for_reading (io : LedgerIo) : N + IoError :=
  match io_metadata io with
  | inl (is_file, len) => if is_file then inl len else inr IoInvalidInput
  | inr error => inr error
  end.

(** [paneflow_home::read_regular_capped]: one byte more than [cap] is read, so that a
    file that has grown is found too large. *)
Definition read_regular_capped (io : LedgerIo) (cap : N) : list N + IoError :=
  match open_regular_for_reading io with
  | inr error => inr error
  | inl len =>
      if cap <? len then inr IoFileTooLarge
      else
        match io_data io with
        | inr error => inr error
        | inl data => if cap <? N.of_nat (length data) then inr IoFileTooLarge else inl data
        end
  end.

Record Ledger := mkLedger { l_book : TurnBook; written_revision : N; last_write : option N }.

Module Ledger.
Section encoding.
Context `{LedgerEncoding}.

(** The book in the ledger's file, and whether the file is to be moved aside
    ([quarantine], which renames it and goes on if it cannot). *)
Definition read_book (io : LedgerIo) : TurnBook * bool :=
  match read_regular_capped io MAX_LEDGER_BYTES with
  | inl data =>
      match file_from_slice data with
      | Some file => (restore file, false)
      | None => (TurnBook_default, true)
      end
  | inr IoNotFound => (TurnBook_default, false)
  | inr _ => (TurnBook_default, true)
  end.

Definition load `{TimeZone} (io : LedgerIo) (now_ms : N) : Ledger * bool :=
  let '(book, quarantined) := read_book io in
  (mkLedger (TurnBook.prune (zone_day now_ms) book) 0 None, quarantined).

(** [flush]: [written] is whether the file could be written; what it then holds. *)
Definition flush (now : N) (force written : bool) (l : Ledger) : bool * Ledger * option (list N) :=
  if revision (l_book l) =? written_revision l then (false, l, None)
  else if negb force && match last_write l with
                        | Some at_ => now - at_ <? LEDGER_WRITE_INTERVAL | None => false end
  then (false, l, None)
  else
    match to_vec (to_file (l_book l)) with
    | None => (false, l, None)
    | Some data =>
        if written
        then (true, mkLedger (l_book l) (revision (l_book l)) (Some now), Some data)
        else (false, mkLedger (l_book l) (written_revision l) (Some now), None)
    end.
End encoding.
End Ledger.
