(* ===== verification/UsageTokens.v ===== *)
(** * Reading tokens from transcripts ([paneflow-serve/src/usage/tokens.rs])

    A transcript is a file of JSON lines to which an agent appends.  A pass reads what
    is new, at most [MAX_PASS_BYTES], and leaves a line that has no newline yet for
    the next pass.  Bytes are numbers below 256. *)

From stdpp Require Import gmap list strings.
From S2P Require Import Prelude DiffText OrderedMap AgentActivity AgentSession AgentWorker UsageLedger.

Local Open Scope N_scope.

Definition MAX_PASS_BYTES : N := 8 * 1024 * 1024.
Definition MAX_LINE_BYTES : N := 1024 * 1024.
Definition MAX_SEEN_IDS : nat := 2048.

(** [b'\n']. *)
Definition NEWLINE : N := 10.

Inductive TranscriptKind := Claude | CodexRollout.

(** What other crates and the standard library's hasher answer: [serde_json::from_slice],
    [DateTime::parse_from_rfc3339] with [timestamp_millis], [DefaultHasher]. *)
Class Decoding := {
  from_slice : list N → option Value;
  rfc3339_ms : str → option Z;
  hash_str : str → N }.

(** [u8::is_ascii_whitespace], [slice::trim_ascii]. *)
Definition is_ascii_whitespace (b : N) : bool :=
  (b =? 32) || (b =? 9) || (b =? 10) || (b =? 12) || (b =? 13).

Fixpoint trim_ascii_start (line : list N) : list N :=
  match line with
  | b :: rest => if is_ascii_whitespace b then trim_ascii_start rest else line
  | [] => []
  end.

Definition trim_ascii (line : list N) : list N :=
  reverse (trim_ascii_start (reverse (trim_ascii_start line))).

(** [Read::take] and a seek, with limits that are not unary. *)
Fixpoint take_bytes (limit : N) (data : list N) : list N :=
  match data with
  | [] => []
  | b :: data => if limit =? 0 then [] else b :: take_bytes (limit - 1) data
  end.

Fixpoint skip_bytes (n : N) (data : list N) : list N :=
  match data with
  | [] => []
  | b :: rest => if n =? 0 then data else skip_bytes (n - 1) rest
  end.

(** What is before and after the first newline. *)
Fixpoint split_line (rest : list N) : option (list N * list N) :=
  match rest with
  | [] => None
  | b :: rest =>
      if b =? NEWLINE then Some ([], rest)
      else '(line, after) ← split_line rest; Some (b :: line, after)
  end.

(** ** Changes of a cursor *)

Definition set_offset v (c : TokenCursor) : TokenCursor :=
  mkCursor v (touched_ms c) (skipping c) (totals c) (seen_day c) (seen c).
Definition set_touched v (c : TokenCursor) : TokenCursor :=
  mkCursor (offset c) v (skipping c) (totals c) (seen_day c) (seen c).
Definition set_skipping v (c : TokenCursor) : TokenCursor :=
  mkCursor (offset c) (touched_ms c) v (totals c) (seen_day c) (seen c).
Definition set_totals v (c : TokenCursor) : TokenCursor :=
  mkCursor (offset c) (touched_ms c) (skipping c) v (seen_day c) (seen c).
Definition set_seen d l (c : TokenCursor) : TokenCursor :=
  mkCursor (offset c) (touched_ms c) (skipping c) (totals c) d l.

(** ** Lines *)

Section decoding.
Context {D : Decoding}.

(** [value.pointer] of the keys of a pointer; no key is an index of an array. *)
Fixpoint pointer (value : Value) (keys : list str) : option Value :=
  match keys with [] => Some value | k :: keys => v ← Value.get value k; pointer v keys end.

Definition line_key (value : Value) (p : list str) : option N :=
  v ← pointer value p; id ← Value.as_str v; Some (hash_str id).

Definition entry_ms (value : Value) : option N :=
  v ← Value.get value "timestamp"%string; stamp ← Value.as_str v; at_ms ← rfc3339_ms stamp;
  u64_try_from at_ms.

Definition count (value : Value) (key : str) : N :=
  default 0 (v ← Value.get value key; Value.as_u64 v).

Definition is_object (v : Value) : bool := match v with VObject _ => true | _ => false end.

(** [value.get(key).and_then(Value::as_str)]. *)
Definition text_at (value : Value) (key : str) : option str :=
  v ← Value.get value key; Value.as_str v.

Definition flagged (value : Value) (key : str) : bool :=
  bool_decide ((v ← Value.get value key; Value.as_bool v) = Some true).

Definition is_claude_prompt (value : Value) : bool :=
  if negb (bool_decide (text_at value "type"%string = Some ("user"%string : str)))
   || flagged value "isMeta"%string || flagged value "isSidechain"%string
   || flagged value "isCompactSummary"%string
  then false
  else
  match pointer value ["message"%string : str; "content"%string : str] with
  | Some (VString text) => negb (bool_decide (trim text = []))
  | Some (VArray parts) =>
      negb (bool_decide (parts = []))
      && forallb (λ part, negb (bool_decide
           (text_at part "type"%string = Some ("tool_result"%string : str)))) parts
  | _ => false
  end.

Definition turn_start_ms (value : Value) (kind : TranscriptKind) : option N :=
  let starts :=
  match kind with
  | Claude => is_claude_prompt value
  | CodexRollout =>
      bool_decide (text_at value "type"%string = Some ("event_msg"%string : str))
      && match pointer value ["payload"%string : str; "type"%string : str] ≫= Value.as_str with
         | Some t => bool_decide (t = ("task_started"%string : str))
                     || bool_decide (t = ("turn_started"%string : str))
         | None => false
         end
  end in
  if starts then entry_ms value else None.

(** The ids seen, in a set and in the cursor; whether the id was new. *)
Definition push_seen (id : str) (c : TokenCursor) : TokenCursor :=
  set_seen (seen_day c)
  ((if (MAX_SEEN_IDS <=? length (seen c))%nat then tail (seen c) else seen c) ++ [id]) c.

(** The entry of a line, with the ids seen and the cursor after it. *)
Definition claude_entry (value : Value) (ids : gset str) (c : TokenCursor) (today : NaiveDate) :
  option (N * N * N) * gset str * TokenCursor :=
  match
  (if bool_decide (text_at value "type"%string = Some ("assistant"%string : str)) then
     message ← Value.get value "message"%string;
     v ← Value.get message "id"%string;
     id ← Value.as_str v;
     usage ← Value.get message "usage"%string;
     _ ← assert (is_object usage);
     at_ms ← entry_ms value;
     Some (id, usage, at_ms)
   else None) with
  | None => (None, ids, c)
  | Some (id, usage, at_ms) =>
    if bool_decide (id ∈ ids) then (None, ids, c)
    else
      (Some (at_ms, count usage "input_tokens"%string, count usage "output_tokens"%string),
       {[id]} ∪ ids,
       if bool_decide (seen_day c = Some today) then push_seen id c else c)
  end.

Definition codex_entry (value : Value) (c : TokenCursor) : option (N * N * N) * TokenCursor :=
  match
  (if bool_decide (text_at value "type"%string = Some ("event_msg"%string : str)) then
     payload ← Value.get value "payload"%string;
     if bool_decide (text_at payload "type"%string = Some ("token_count"%string : str)) then
       info ← Value.get payload "info"%string;
       _ ← assert (is_object info);
       total ← Value.get info "total_token_usage"%string;
       _ ← assert (is_object total);
       at_ms ← entry_ms value;
       Some (total, at_ms)
     else None
   else None) with
  | None => (None, c)
  | Some (total, at_ms) =>
    let input := count total "input_tokens"%string - count total "cached_input_tokens"%string in
    let output := count total "output_tokens"%string in
    let '(last_input, last_output) := default (0, 0) (totals c) in
    (Some (at_ms, input - last_input, output - last_output),
     set_totals (Some (N.max last_input input, N.max last_output output)) c)
  end.

(** ** A pass *)

(** The variables of the loop over lines. *)
Record Reading := mkReading {
  rd_seen : gset str; rd_cursor : TokenCursor; rd_entries : list TokenEntry; rd_turns : list TurnStart }.

Context {C : Calendar}.

(** The turn that a line starts. *)
Definition turn_of (kind : TranscriptKind) (value : Value) : list TurnStart :=
  match turn_start_ms value kind with
  | Some at_ms =>
    [mkTurnStart (day at_ms)
       (line_key value (match kind with
          | Claude => ["uuid"%string : str]
          | CodexRollout => ["payload"%string : str; "turn_id"%string : str] end))]
  | None => []
  end.

(** The entry that is pushed for what a line counts. *)
Definition entry_of (entry : option (N * N * N)) (key : option N) : list TokenEntry :=
  match entry with
  | Some (at_ms, input, output) =>
    if (0 <? input) || (0 <? output) then [mkEntry (day at_ms) input output key] else []
  | None => []
  end.

Definition value_step (kind : TranscriptKind) (today : NaiveDate) (value : Value) (st : Reading) :
  Reading :=
  let turns := rd_turns st ++ turn_of kind value in
  match kind with
  | Claude =>
    let '(entry, ids, c) := claude_entry value (rd_seen st) (rd_cursor st) today in
    mkReading ids c
      (rd_entries st ++ entry_of entry (line_key value ["message"%string : str; "id"%string : str]))
      turns
  | CodexRollout =>
    let '(entry, c) := codex_entry value (rd_cursor st) in
    mkReading (rd_seen st) c (rd_entries st ++ entry_of entry None) turns
  end.

Definition line_step (kind : TranscriptKind) (today : NaiveDate) (line : list N) (st : Reading) :
  Reading :=
  if MAX_LINE_BYTES <? N.of_nat (length line) then st
  else match from_slice (trim_ascii line) with
     | Some value => value_step kind today value st
     | None => st
     end.

Definition with_cursor (f : TokenCursor → TokenCursor) (st : Reading) : Reading :=
  mkReading (rd_seen st) (f (rd_cursor st)) (rd_entries st) (rd_turns st).

(** The loop over the lines of [chunk[at..]]; the final [at]. *)
Fixpoint scan (kind : TranscriptKind) (today : NaiveDate) (fuel : nat) (rest : list N) (at_ : N)
  (st : Reading) : N * Reading :=
  match fuel, rest with
  | O, _ | _, [] => (at_, st)
  | S fuel, _ =>
    match split_line rest with
    | Some (line, after) =>
        scan kind today fuel after (at_ + N.of_nat (length line) + 1) (line_step kind today line st)
    | None =>
        if MAX_LINE_BYTES <? N.of_nat (length rest)
        then (at_ + N.of_nat (length rest), with_cursor (set_skipping true) st)
        else (at_, st)
    end
  end.

(** The end of a line that is too long: what is left, and where it starts. *)
Definition skip_line (chunk : list N) (c : TokenCursor) : list N * N * TokenCursor :=
  if skipping c then
  match split_line chunk with
  | Some (line, after) => (after, N.of_nat (length line) + 1, set_skipping false c)
  | None => ([], N.of_nat (length chunk), c)
  end
  else (chunk, 0, c).

(** [read_tokens]: [len] is the length in the file's metadata, [data] what is in the
file when it is read.  [None] is a panic, [Some None] a file that cannot be read. *)
Definition read_tokens (path : str) (kind : TranscriptKind) (start : TokenCursor)
  (file : option (N * list N)) (now_ms : N) : option (option TokenPass) :=
  match file with
  | None => Some None
  | Some (len, data) =>
    let c := if len <? offset start then set_skipping false (set_offset 0 start) else start in
    let chunk := take_bytes MAX_PASS_BYTES (skip_bytes (offset c) data) in
    let today := day now_ms in
    let c := if bool_decide (seen_day c = Some today) then c else set_seen (Some today) [] c in
    let ids := list_to_set (seen c) in
    let '(rest, at_, c) := skip_line chunk c in
    let '(at_, st) := scan kind today (length rest) rest at_ (mkReading ids c [] []) in
    let c := rd_cursor st in
    o ← add_u64 (offset c) at_;
    Some (Some (mkPass path start (set_touched now_ms (set_offset o c)) (rd_entries st) (rd_turns st)))
  end.
End decoding.
