(* ===== verification/UsageLedgerCorrect.v ===== *)
(** * The usage ledger is an exact account

    [book_span_spec]: a span of work is booked on the days it lies in, millisecond by
    millisecond.  [finish_books]: a turn that ends books its working time up to the
    limit.  [book_ok] is the invariant of a book. *)

From stdpp Require Import gmap list sorting.
From S2P Require Import Prelude DiffText OrderedMap AgentActivity AgentSession AgentWorker UsageLedger.

Local Open Scope N_scope.

(** The times that are looked at, in milliseconds: up to the year 144683.  [chrono] knows
    the years up to 262142. *)
Definition MAX_AT : N := 2 ^ 52.

#[local] Arguments MAX_AT : simpl never.

Lemma some_intervals : (1 ≤ MAX_TURN_INTERVALS)%nat.
Proof. unfold MAX_TURN_INTERVALS. lia. Qed.

#[local] Opaque MAX_TURN_INTERVALS.

(** ** Bookings *)

(** Room for [n] more of everything that is counted. *)
Record room (n : N) (b : TurnBook) : Prop := {
  rm_revision : revision b + n < 2 ^ 64;
  rm_turns d a : turns (TurnBook.tally b d a) + n < 2 ^ 64;
  rm_active d a : active_ms (TurnBook.tally b d a) + n < 2 ^ 64;
  rm_in d a : tokens_in (TurnBook.tally b d a) + n < 2 ^ 64;
  rm_out d a : tokens_out (TurnBook.tally b d a) + n < 2 ^ 64 }.

(** Only the days and the revision differ. *)
Record same_rest (b b' : TurnBook) : Prop := {
  sr_open : open b' = open b;
  sr_watermarks : watermarks b' = watermarks b;
  sr_cursors : cursors b' = cursors b;
  sr_imported : imported b' = imported b;
  sr_import : import_record b' = import_record b }.

#[export] Instance same_rest_preorder : PreOrder same_rest.
Proof. split; [by split|]. intros a b c [] []. split; congruence. Qed.

Lemma same_rest_imported b b' d a :
  same_rest b b' → TurnBook.is_imported b' d a = TurnBook.is_imported b d a.
Proof. intros Hs. unfold TurnBook.is_imported. by rewrite (sr_imported _ _ Hs). Qed.

(** The shape of the days: none is empty, and what is imported is there. *)
Record days_ok (b : TurnBook) : Prop := {
  do_nonempty d t : days b !! d = Some t → t ≠ ∅;
  do_imported d a : TurnBook.is_imported b d a = true → is_Some (tallies_of b d !! a) }.

Lemma tally_days b b' d a : days b' = days b → TurnBook.tally b' d a = TurnBook.tally b d a.
Proof. unfold TurnBook.tally, tallies_of. by intros ->. Qed.

(** A tally written. *)
Definition write_tally (d : NaiveDate) (a : LedgerAccount) (t : DayTally) (b : TurnBook) : TurnBook :=
  set_days (<[d := <[a := t]> (tallies_of b d)]> (days b)) b.

Lemma tallies_of_write d a t b d' :
  tallies_of (write_tally d a t b) d' =
  if bool_decide (d' = d) then <[a := t]> (tallies_of b d) else tallies_of b d'.
Proof.
  unfold write_tally, tallies_of. simpl. case_bool_decide; subst.
  - by rewrite lookup_insert_eq.
  - by rewrite lookup_insert_ne.
Qed.

Lemma tally_write d a t b d' a' :
  TurnBook.tally (write_tally d a t b) d' a' =
  if bool_decide (d' = d) && bool_decide (a' = a) then t else TurnBook.tally b d' a'.
Proof.
  unfold TurnBook.tally. rewrite tallies_of_write. do 2 case_bool_decide; subst; simpl; try done.
  - by rewrite lookup_insert_eq.
  - by rewrite lookup_insert_ne.
Qed.

Lemma days_ok_write d a t b : days_ok b → days_ok (write_tally d a t b).
Proof.
  intros [Hne Him]. split.
  - intros d' t'. unfold write_tally. simpl. destruct (decide (d' = d)) as [->|].
    + rewrite lookup_insert_eq. intros [= <-]. apply insert_non_empty.
    + rewrite lookup_insert_ne by done. apply Hne.
  - intros d' a' Ha. specialize (Him d' a' Ha). rewrite tallies_of_write.
    case_bool_decide; subst; [|done]. destruct (decide (a' = a)) as [->|].
    + rewrite lookup_insert_eq. by eexists.
    + by rewrite lookup_insert_ne.
Qed.

(** What is booked for an account, where it is not imported. *)
Record books (a : LedgerAccount) (f : NaiveDate → DayTally → DayTally) (n : N) (b b' : TurnBook) :
    Prop := {
  bk_rest : same_rest b b';
  bk_tally d a' : TurnBook.tally b' d a' =
    if bool_decide (a' = a) && negb (TurnBook.is_imported b d a) then f d (TurnBook.tally b d a)
    else TurnBook.tally b d a';
  bk_revision : revision b ≤ revision b' ≤ revision b + n;
  bk_days : days_ok b → days_ok b' }.

Lemma books_nothing a b f : (∀ d t, f d t = t) → books a f 0 b b.
Proof.
  intros Hf. split; [done| |lia|done]. intros d a'. rewrite Hf.
  destruct (bool_decide_reflect (a' = a)) as [->|]; [|done]. by destruct (negb _).
Qed.

Lemma books_trans a f g h n m b b1 b2 :
  books a f n b b1 → books a g m b1 b2 → (∀ d t, h d t = g d (f d t)) → books a h (n + m) b b2.
Proof.
  intros [Hr1 Ht1 Hn1 Hd1] [Hr2 Ht2 Hn2 Hd2] Hh. split; [by etrans| |lia|auto].
  intros d a'. rewrite Ht2, (same_rest_imported b b1), !Ht1, Hh by done.
  destruct (bool_decide_reflect (a' = a)) as [->|]; simpl; [|done].
  rewrite bool_decide_true by done. simpl. by destruct (negb _).
Qed.

Lemma books_ext a f g n m b b' :
  books a f n b b' → (∀ d t, f d t = g d t) → n ≤ m → books a g m b b'.
Proof.
  intros [Hr Ht Hn Hd] Hfg Hle. split; [done| |lia|done]. intros d a'. by rewrite Ht, Hfg.
Qed.

Lemma bump_spec b : revision b + 1 < 2 ^ 64 →
  runs (bump b) (λ b', same_rest b b' ∧ days b' = days b ∧ revision b' = revision b + 1).
Proof. intros Hr. unfold bump. rewrite add_u64_some by done. by repeat split. Qed.

(** [book] with a change that fits. *)
Lemma book_spec d a change g b :
  revision b + 1 < 2 ^ 64 →
  change (TurnBook.tally b d a) = Some (g (TurnBook.tally b d a)) →
  runs (TurnBook.book d a change b)
    (books a (λ d' t, if bool_decide (d' = d) then g t else t) 1 b).
Proof.
  intros Hr Hchange. unfold TurnBook.book. destruct (TurnBook.is_imported b d a) eqn:Him.
  - simpl. split; [done| |lia|done]. intros d' a'.
    destruct (bool_decide_reflect (a' = a)) as [->|]; simpl; [|done].
    case_bool_decide; subst; [by rewrite Him|]. by destruct (negb _).
  - rewrite Hchange. cbn [mbind option_bind]. set (t' := g (TurnBook.tally b d a)).
    fold (write_tally d a t' b).
    eapply runs_mono; [by apply bump_spec|]. intros b' (Hrest & Hdays & Hrev). simpl in Hrev.
    split; [|intros d' a'| |].
    + by destruct Hrest.
    + rewrite (tally_days (write_tally d a t' b)), tally_write by done.
      destruct (bool_decide_reflect (a' = a)) as [->|]; simpl.
      * rewrite andb_true_r. case_bool_decide; subst; [by rewrite Him|]. by destruct (negb _).
      * by rewrite andb_false_r.
    + lia.
    + intros [Hne Hi]%(days_ok_write d a t'). split; [by rewrite Hdays|].
      intros d' a'. rewrite (same_rest_imported _ _ _ _ Hrest).
      unfold tallies_of at 1. rewrite Hdays. apply Hi.
Qed.

Lemma room_mono n m b : m ≤ n → room n b → room m b.
Proof.
  intros Hle [Hr Ht Ha Hi Ho]. split; [lia|..]; intros d a; specialize (Ht d a);
    specialize (Ha d a); specialize (Hi d a); specialize (Ho d a); lia.
Qed.

Lemma room_books a f n m b b' :
  room (n + m) b → books a f n b b' →
  (∀ d t, turns (f d t) ≤ turns t + n ∧ active_ms (f d t) ≤ active_ms t + n ∧
          tokens_in (f d t) ≤ tokens_in t + n ∧ tokens_out (f d t) ≤ tokens_out t + n) →
  room m b'.
Proof.
  intros [Hr Ht Ha Hi Ho] [_ Htally Hrev _] Hf. split; [lia|..]; intros d a'; rewrite Htally;
    specialize (Ht d a'); specialize (Ha d a'); specialize (Hi d a'); specialize (Ho d a');
    (destruct (bool_decide_reflect (a' = a)) as [->|]; simpl; [|lia]);
    destruct (negb _); try lia;
    destruct (Hf d (TurnBook.tally b d a)) as (? & ? & ? & ?); lia.
Qed.

(** ** Spans *)

(** Midnight is later, and the day is the same until then. *)
Class CalendarLaws (C : Calendar) := {
  midnight_progress t : t < MAX_AT → t < next_midnight_ms t;
  midnight_same_day t t' : t ≤ t' → t' < MAX_AT → t' < next_midnight_ms t → day t' = day t }.

Definition with_active (n : N) (t : DayTally) : DayTally :=
  mkTally (turns t) (active_ms t + n) (tokens_in t) (tokens_out t).

Section calendar.
Context {C : Calendar} {CL : CalendarLaws C}.

(** The milliseconds of a span that lie in a day. *)
Fixpoint days_in (d : NaiveDate) (start : N) (n : nat) : N :=
  match n with
  | O => 0
  | S n => (if bool_decide (day start = d) then 1 else 0) + days_in d (start + 1) n
  end.

Definition overlap (d : NaiveDate) (start stop : N) : N := days_in d start (N.to_nat (stop - start)).

Lemma days_in_app d start n m :
  days_in d start (n + m) = days_in d start n + days_in d (start + N.of_nat n) m.
Proof.
  revert start. induction n as [|n IH]; intros start; simpl.
  - by rewrite N.add_0_r.
  - rewrite IH. replace (start + 1 + N.of_nat n) with (start + N.of_nat (S n)) by lia. simpl. lia.
Qed.

Lemma days_in_one_day d start n :
  (∀ k, (k < n)%nat → day (start + N.of_nat k) = d) → days_in d start n = N.of_nat n.
Proof.
  revert start. induction n as [|n IH]; intros start Hday; simpl; [done|].
  rewrite IH.
  - rewrite bool_decide_true; [lia|]. rewrite <- (Hday O) by lia. f_equal. lia.
  - intros k Hk. rewrite <- (Hday (S k)) by lia. f_equal. lia.
Qed.

Lemma days_in_other_day d start n :
  (∀ k, (k < n)%nat → day (start + N.of_nat k) ≠ d) → days_in d start n = 0.
Proof.
  revert start. induction n as [|n IH]; intros start Hday; simpl; [done|].
  rewrite IH.
  - rewrite bool_decide_false; [done|]. rewrite <- (N.add_0_r start) at 1. apply (Hday O). lia.
  - intros k Hk. replace (start + 1 + N.of_nat k) with (start + N.of_nat (S k)) by lia. apply Hday. lia.
Qed.

Lemma days_in_le d start n : days_in d start n ≤ N.of_nat n.
Proof.
  revert start. induction n as [|n IH]; intros start; simpl; [done|].
  specialize (IH (start + 1)). case_bool_decide; lia.
Qed.

Lemma overlap_empty d t : overlap d t t = 0.
Proof. unfold overlap. by rewrite N.sub_diag. Qed.

Lemma overlap_app d start mid stop :
  start ≤ mid → mid ≤ stop → overlap d start stop = overlap d start mid + overlap d mid stop.
Proof.
  intros H1 H2. unfold overlap.
  replace (N.to_nat (stop - start)) with (N.to_nat (mid - start) + N.to_nat (stop - mid))%nat by lia.
  rewrite days_in_app. do 2 f_equal. lia.
Qed.

Lemma overlap_one_day d start stop :
  (∀ t, start ≤ t → t < stop → day t = day start) →
  overlap d start stop = if bool_decide (d = day start) then stop - start else 0.
Proof.
  intros Hday. unfold overlap. case_bool_decide as Hd.
  - rewrite days_in_one_day; [lia|]. intros k Hk. rewrite Hd. apply Hday; lia.
  - apply days_in_other_day. intros k Hk. rewrite Hday by lia. congruence.
Qed.

Lemma overlap_le d start stop : overlap d start stop ≤ stop - start.
Proof. unfold overlap. pose proof (days_in_le d start (N.to_nat (stop - start))). lia. Qed.

(** Booking a span adds to each day what lies in it. *)
Lemma book_span_spec account start stop b :
  start ≤ stop → stop ≤ MAX_AT → room (stop - start) b →
  runs (TurnBook.book_span account start stop b)
  (books account (λ d, with_active (overlap d start stop)) (stop - start) b).
Proof.
  intros Hle Hmax Hroom. unfold TurnBook.book_span.
  apply (runs_loop _ _ (λ s, stop - s.1) (λ '(at_, b'), start ≤ at_ ≤ stop ∧
  books account (λ d, with_active (overlap d start at_)) (at_ - start) b b')).
  - split; [lia|]. rewrite N.sub_diag. apply books_nothing. intros d [ ]. unfold with_active. simpl.
  by rewrite overlap_empty, N.add_0_r.
  - simpl. unfold MAX_AT in *. lia.
  - intros [at_ b1] [Hat Hb]. unfold TurnBook.span_step. destruct (N.ltb_spec at_ stop) as [Hlt|Hge].
  2: { simpl. by replace stop with at_ by lia. }
  pose proof (midnight_progress at_ ltac:(lia)) as Hnext.
  set (boundary := N.min (next_midnight_ms at_) stop).
  assert (at_ < boundary ≤ stop) as Hboundary by lia.
  rewrite (proj2 (N.leb_le at_ boundary)) by lia. cbn [assert mbind option_bind].
  assert (room (boundary - at_) b1) as Hroom1.
  { eapply (room_books account _ (at_ - start) (boundary - at_) b); [|done|].
  - eapply room_mono; [|done]. lia.
  - intros d t. unfold with_active. simpl. pose proof (overlap_le d start at_). lia. }
  eapply runs_bind.
  { apply (book_spec _ _ _ (with_active (boundary - at_))).
  - destruct Hroom1. lia.
  - unfold add_active. by rewrite add_u64_some by (by apply Hroom1). }
  intros b2 Hb2. simpl. split; [|lia]. split; [lia|].
  eapply books_ext; [by eapply books_trans|..|].
  + intros d t. simpl. rewrite (overlap_app d start at_ boundary) by lia.
  rewrite (overlap_one_day d at_ boundary).
  * unfold with_active. case_bool_decide; simpl; [|by rewrite N.add_0_r].
    by rewrite N.add_assoc.
  * intros t' ??. apply midnight_same_day; lia.
  + lia.
Qed.

(** The time of some intervals, in all and in a day. *)
Definition spent (l : list (N * N)) : N := foldr (λ p n, p.2 - p.1 + n) 0 l.
Definition overlaps (d : NaiveDate) (l : list (N * N)) : N :=
  foldr (λ p n, overlap d p.1 p.2 + n) 0 l.

Lemma spent_app l k : spent (l ++ k) = spent l + spent k.
Proof. induction l as [|p l IH]; simpl; [done|]. rewrite IH. lia. Qed.

Lemma overlaps_app d l k : overlaps d (l ++ k) = overlaps d l + overlaps d k.
Proof. induction l as [|p l IH]; simpl; [done|]. rewrite IH. lia. Qed.

Lemma overlaps_le d l : overlaps d l ≤ spent l.
Proof. induction l as [|p l IH]; simpl; [done|]. pose proof (overlap_le d p.1 p.2). lia. Qed.

(** The budget is used up from the front. *)
Lemma take_budget_spec l budget :
  spent (OpenTurn.take_budget l budget) = N.min budget (spent l) ∧
  ∀ p, p ∈ OpenTurn.take_budget l budget → p.1 < p.2 ∧ ∃ q, q ∈ l ∧ p.1 = q.1 ∧ p.2 ≤ q.2.
Proof.
  revert budget. induction l as [|[start stop] l IH]; intros budget; simpl.
  { split; [lia|]. by intros p ?%elem_of_nil. }
  destruct (IH (budget - N.min (stop - start) budget)) as [Hs Hin].
  destruct (N.ltb_spec 0 (N.min (stop - start) budget)); simpl; (split; [lia|]).
  - intros p [->|Hp]%elem_of_cons; simpl.
  + split; [lia|]. exists (start, stop). split; [by left|]. simpl. lia.
  + destruct (Hin p Hp) as (? & q & ? & ? & ?). split; [done|]. exists q. split; [by right|done].
  - intros p Hp. destruct (Hin p Hp) as (? & q & ? & ? & ?). split; [done|]. exists q.
  split; [by right|done].
Qed.

Lemma books_bump a n b b' :
  same_rest b b' ∧ days b' = days b ∧ revision b' = revision b + 1 → n = 1 →
  books a (λ _ t, t) n b b'.
Proof.
  intros (Hrest & Hdays & Hrev) ->. split; [done| |lia|].
  - intros d a'. rewrite (tally_days b b') by done.
  destruct (bool_decide_reflect (a' = a)) as [->|]; [|done]. by destruct (negb _).
  - intros [Hne Him]. split; [by rewrite Hdays|]. intros d a'.
  rewrite (same_rest_imported _ _ _ _ Hrest). unfold tallies_of. rewrite Hdays. apply Him.
Qed.

Lemma book_intervals_spec account l b :
  Forall (λ p, p.1 < p.2 ∧ p.2 ≤ MAX_AT) l → room (spent l) b →
  runs (for_each l (λ '(start, stop) b, TurnBook.book_span account start stop b) b)
  (books account (λ d, with_active (overlaps d l)) (spent l) b).
Proof.
  intros Hl Hroom.
  apply (runs_for_each _ _ (λ done, books account (λ d, with_active (overlaps d done)) (spent done) b));
  [| |done].
  - apply books_nothing. intros d []. unfold with_active. simpl. by rewrite N.add_0_r.
  - intros dn [start stop] rest b1 Hlist Hb.
  rewrite Hlist in Hl, Hroom. rewrite spent_app in Hroom. cbn [spent foldr fst snd] in Hroom.
  fold (spent rest) in Hroom. apply Forall_app in Hl as [_ [[Hlt Hmax] _]%Forall_cons].
  cbn [fst snd] in *.
  eapply runs_mono.
  + apply book_span_spec; [lia|done|].
  eapply (room_books account _ (spent dn)); [|done|].
  * eapply room_mono; [|done]. lia.
  * intros d t. unfold with_active. simpl. pose proof (overlaps_le d dn). lia.
  + intros b2 Hb2. eapply books_ext; [by eapply books_trans|..].
  * intros d t. simpl. rewrite overlaps_app. unfold with_active. simpl. f_equal. lia.
  * rewrite spent_app. simpl. lia.
Qed.

(** ** Turns *)

(** What is true of an open turn. *)
Record turn_ok (t : OpenTurn) : Prop := {
  to_started : started_at_ms t ≤ last_event_ms t;
  to_last : last_event_ms t ≤ MAX_AT;
  to_since at_ : working_since_ms t = Some at_ → at_ ≤ MAX_AT ∧ declared t = true;
  to_working : Forall (λ p, p.2 ≤ MAX_AT) (working t);
  to_declared : declared t = false → working t = [];
  to_length : (length (working t) ≤ MAX_TURN_INTERVALS)%nat }.

Lemma close_working_ok at_ t : at_ ≤ MAX_AT → turn_ok t → turn_ok (OpenTurn.close_working at_ t).
Proof.
  intros Hat Ht. unfold OpenTurn.close_working.
  destruct (working_since_ms t) as [since|] eqn:Hs; [|done].
  destruct (to_since _ Ht _ Hs) as [Hsince Hd].
  assert (N.max at_ since ≤ MAX_AT) as Hend by lia.
  assert (Forall (λ p, p.2 ≤ MAX_AT) (working t ++ [(since, N.max at_ since)])) as Hsnoc.
  { apply Forall_app. split; [apply Ht|by apply Forall_singleton]. }
  pose proof (to_length _ Ht) as Hlen. split; simpl; try apply Ht; try done; [|by rewrite Hd|].
  - destruct (last (working t)) as [q|] eqn:Hlast; [destruct (MAX_TURN_INTERVALS <=? length (working t))%nat; [|done]|done].
  apply last_Some in Hlast as [l Hl]. pose proof (to_working _ Ht) as Hw.
  rewrite Hl in Hw |- *. rewrite removelast_last. apply Forall_app in Hw as [Hl' _].
  apply Forall_app. split; [done|by apply Forall_singleton].
  - destruct (last (working t)) as [q|] eqn:Hlast.
  + destruct (Nat.leb_spec MAX_TURN_INTERVALS (length (working t))).
  * apply last_Some in Hlast as [l Hl]. rewrite Hl in Hlen |- *.
    by rewrite removelast_last, length_app in *.
  * rewrite length_app. simpl. lia.
  + apply last_None in Hlast. rewrite Hlast. apply some_intervals.
Qed.

Lemma touch_ok at_ t : at_ ≤ MAX_AT → turn_ok t → turn_ok (OpenTurn.touch at_ t).
Proof.
  intros Hat [Hs Hl Hsince Hw Hd Hn]. split; simpl; try done; lia.
Qed.

Lemma prompted_ok at_ t : at_ ≤ MAX_AT → turn_ok t → turn_ok (OpenTurn.prompted at_ t).
Proof. intros Hat [Hs Hl Hsince Hw Hd Hn]. apply touch_ok; [done|]. by split. Qed.

Lemma set_working_ok at_ t : at_ ≤ MAX_AT → turn_ok t → turn_ok (OpenTurn.set_working at_ t).
Proof.
  intros Hat [Hs Hl Hsince Hw Hd Hn]. apply touch_ok; [done|]. split; simpl; try done.
  intros at' [= <-]. split; [|done]. destruct (working_since_ms t) as [s|]; simpl; [|done].
  by apply (Hsince s).
Qed.

Lemma new_turn_ok signal : ts_at_ms signal ≤ MAX_AT → turn_ok (TurnBook.new_turn signal).
Proof. intros. split; simpl; try done. lia. Qed.

(** The end of a turn and the time it books. *)
Definition turn_end (end_ms : option N) (t : OpenTurn) : N :=
  N.max (default (last_event_ms t) end_ms) (started_at_ms t).

Definition turn_time (end_ms : option N) (t : OpenTurn) : list (N * N) :=
  OpenTurn.active_intervals (turn_end end_ms t) (OpenTurn.close_working (turn_end end_ms t) t).

Lemma turn_end_max end_ms t :
  turn_ok t → (∀ e, end_ms = Some e → e ≤ MAX_AT) → turn_end end_ms t ≤ MAX_AT.
Proof.
  intros [? ? ? ? ? ?] He. unfold turn_end. destruct end_ms as [e|]; simpl; [|lia].
  specialize (He e eq_refl). lia.
Qed.

Lemma turn_time_spec end_ms t :
  turn_ok t → (∀ e, end_ms = Some e → e ≤ MAX_AT) →
  Forall (λ p, p.1 < p.2 ∧ p.2 ≤ MAX_AT) (turn_time end_ms t) ∧
  spent (turn_time end_ms t) ≤ MAX_TURN_ACTIVE_MS.
Proof.
  intros Ht He. pose proof (turn_end_max _ _ Ht He) as Hend.
  pose proof (close_working_ok _ _ Hend Ht) as Hc.
  unfold turn_time, OpenTurn.active_intervals.
  destruct (take_budget_spec (if declared (OpenTurn.close_working (turn_end end_ms t) t)
  then working (OpenTurn.close_working (turn_end end_ms t) t)
  else [(default (started_at_ms (OpenTurn.close_working (turn_end end_ms t) t))
         (prompt_at_ms (OpenTurn.close_working (turn_end end_ms t) t)), turn_end end_ms t)])
  MAX_TURN_ACTIVE_MS) as [Hs Hin].
  split; [|lia]. apply Forall_forall. intros p Hp.
  destruct (Hin p Hp) as (Hlt & q & Hq & _ & Hle). split; [done|].
  assert (q.2 ≤ MAX_AT); [|lia]. destruct (declared _).
  - pose proof (to_working _ Hc) as Hw. rewrite Forall_forall in Hw. by apply Hw.
  - apply list_elem_of_singleton in Hq as ->. done.
Qed.

(** ** The time of a turn, from its signals *)

(** The milliseconds of a span that lie in a day and are worked, of at most [budget]
    worked ones. *)
Fixpoint worked_in (d : NaiveDate) (worked : N → bool) (budget start : N) (n : nat) : N :=
  match n with
  | O => 0
  | S n =>
      if worked start && (0 <? budget)
      then (if bool_decide (day start = d) then 1 else 0) + worked_in d worked (budget - 1) (start + 1) n
      else worked_in d worked budget (start + 1) n
  end.

Definition is_working (signal : TurnSignal) : bool :=
  match ts_input signal with Working => true | _ => false end.

(** Whether the agent is at work at a time: the last signal of work or of a blocker
    until then is of work. *)
Definition at_work (tr : list TurnSignal) (m : N) : bool :=
  foldl (λ busy signal,
    if ts_at_ms signal <=? m then
      match ts_input signal with Working => true | Blocked => false | _ => busy end
    else busy) false tr.

(** What counts as worked: of a turn that declared no work, all of it. *)
Definition worked (tr : list TurnSignal) (m : N) : bool :=
  if existsb is_working tr then at_work tr m else true.

(** The times do not fall. *)
Fixpoint in_order (lo : N) (tr : list TurnSignal) : Prop :=
  match tr with [] => True | signal :: tr => lo ≤ ts_at_ms signal ∧ in_order (ts_at_ms signal) tr end.

Definition last_at (lo : N) (tr : list TurnSignal) : N := foldl (λ _ signal, ts_at_ms signal) lo tr.

Lemma in_order_snoc lo tr signal :
  in_order lo (tr ++ [signal]) ↔ in_order lo tr ∧ last_at lo tr ≤ ts_at_ms signal.
Proof. revert lo. induction tr as [|x tr IH]; intros lo; simpl; [tauto|]. rewrite IH. unfold last_at. simpl. tauto. Qed.

Lemma last_at_snoc lo tr signal : last_at lo (tr ++ [signal]) = ts_at_ms signal.
Proof. unfold last_at. by rewrite foldl_snoc. Qed.

Lemma worked_in_ext d f g budget start n :
  (∀ m, start ≤ m → m < start + N.of_nat n → f m = g m) → worked_in d f budget start n = worked_in d g budget start n.
Proof.
  revert budget start. induction n as [|n IH]; intros budget start Hfg; [done|]. cbn [worked_in].
  rewrite (Hfg start), !(IH _ (start + 1)) by (try lia; intros; apply Hfg; lia). done.
Qed.

Lemma worked_in_idle d f budget start n k :
  (∀ m, start ≤ m → m < start + N.of_nat n → f m = false) →
  worked_in d f budget start (n + k) = worked_in d f budget (start + N.of_nat n) k.
Proof.
  revert start. induction n as [|n IH]; intros start Hf; [by rewrite N.add_0_r|]. cbn [Nat.add worked_in].
  rewrite (Hf start) by lia. cbn [andb]. rewrite IH by (intros; apply Hf; lia). f_equal. lia.
Qed.

Lemma worked_in_none d f budget start n : budget = 0 → worked_in d f budget start n = 0.
Proof.
  intros ->. revert start. induction n as [|n IH]; intros start; [done|]. cbn [worked_in].
  by rewrite andb_false_r.
Qed.

Lemma worked_in_busy d f budget start n k :
  (∀ m, start ≤ m → m < start + N.of_nat n → f m = true) →
  worked_in d f budget start (n + k) =
  overlap d start (start + N.min (N.of_nat n) budget) + worked_in d f (budget - N.of_nat n) (start + N.of_nat n) k.
Proof.
  revert start budget. induction n as [|n IH]; intros start budget Hf.
  { rewrite N.add_0_r, N.sub_0_r. change (N.min (N.of_nat 0) budget) with (N.min 0 budget).
    rewrite N.min_0_l, N.add_0_r, overlap_empty. done. }
  cbn [Nat.add worked_in]. rewrite (Hf start) by lia. cbn [andb].
  destruct (N.ltb_spec 0 budget) as [Hpos|Hzero].
  - rewrite IH by (intros; apply Hf; lia).
    replace (budget - 1 - N.of_nat n) with (budget - N.of_nat (S n)) by lia.
    replace (start + 1 + N.of_nat n) with (start + N.of_nat (S n)) by lia. rewrite N.add_assoc. f_equal.
    replace (start + 1 + N.min (N.of_nat n) (budget - 1)) with (start + N.min (N.of_nat (S n)) budget) by lia.
    rewrite (overlap_app d start (start + 1)) by lia. f_equal. unfold overlap.
    replace (N.to_nat (start + 1 - start)) with 1%nat by lia. cbn [days_in]. lia.
  - assert (budget = 0) as -> by lia. rewrite !worked_in_none by lia.
    replace (start + N.min (N.of_nat (S n)) 0) with start by lia. by rewrite overlap_empty.
Qed.

(** Intervals that follow each other. *)
Fixpoint ordered (lo : N) (l : list (N * N)) (hi : N) : Prop :=
  match l with [] => lo ≤ hi | p :: l => lo ≤ p.1 ∧ p.1 ≤ p.2 ∧ ordered p.2 l hi end.

Definition covers (m : N) (p : N * N) : bool := (p.1 <=? m) && (m <? p.2).

Lemma ordered_snoc lo l p hi : ordered lo l p.1 → p.1 ≤ p.2 → p.2 ≤ hi → ordered lo (l ++ [p]) hi.
Proof. revert lo. induction l as [|q l IH]; intros lo; simpl; [done|]. intros (?&?&?) ? ?. by split_and!; [..|apply IH]. Qed.

Lemma ordered_le lo l hi hi' : ordered lo l hi → hi ≤ hi' → ordered lo l hi'.
Proof. revert lo. induction l as [|q l IH]; intros lo; simpl; [lia|]. intros (?&?&?) ?. split_and!; [done..|by apply IH]. Qed.

Lemma ordered_covers lo l hi m : ordered lo l hi → existsb (covers m) l = true → lo ≤ m ∧ m < hi.
Proof.
  revert lo. induction l as [|q l IH]; intros lo; cbn [ordered existsb]; [done|]. intros (?&?&Ho) Hc.
  assert (q.2 ≤ hi) by (clear -Ho; revert Ho; generalize q.2; induction l as [|x l IH]; intros lo; simpl; [done|];
    intros (?&?&Hx); specialize (IH _ Hx); lia).
  apply orb_true_iff in Hc as [[Hc1%N.leb_le Hc2%N.ltb_lt]%andb_true_iff|Hc]; [lia|]. specialize (IH _ Ho Hc). lia.
Qed.

(** The budget is taken from the intervals as from their milliseconds. *)
Lemma take_budget_time d l lo hi budget :
  ordered lo l hi →
  overlaps d (OpenTurn.take_budget l budget) =
  worked_in d (λ m, existsb (covers m) l) budget lo (N.to_nat (hi - lo)).
Proof.
  revert lo budget. induction l as [|[s e] l IH]; intros lo budget; cbn [ordered].
  { intros _. cbn. symmetry. rewrite <- (Nat.add_0_r (N.to_nat _)), worked_in_idle by done. done. }
  cbn [fst snd]. intros (Hlo&Hse&Ho).
  assert (e ≤ hi) as Hehi.
  { clear -Ho. revert Ho. generalize e. induction l as [|x l IH]; intros lo; simpl; [done|].
    intros (?&?&Hx). specialize (IH _ Hx). lia. }
  replace (N.to_nat (hi - lo)) with (N.to_nat (s - lo) + (N.to_nat (e - s) + N.to_nat (hi - e)))%nat by lia.
  rewrite worked_in_idle.
  2: { intros m Hm1 Hm2. cbn [existsb]. unfold covers at 1. cbn [fst snd].
       rewrite (proj2 (N.leb_gt s m)) by lia. cbn [andb orb].
       destruct (existsb (covers m) l) eqn:Hc; [|done]. apply (ordered_covers e l hi m Ho) in Hc. lia. }
  replace (lo + N.of_nat (N.to_nat (s - lo))) with s by lia. rewrite worked_in_busy.
  2: { intros m Hm1 Hm2. cbn [existsb]. unfold covers at 1. cbn [fst snd].
       by rewrite (proj2 (N.leb_le s m)), (proj2 (N.ltb_lt m e)) by lia. }
  rewrite N2Nat.id. replace (s + (e - s)) with e by lia.
  rewrite (worked_in_ext _ _ (λ m, existsb (covers m) l)).
  2: { intros m Hm _. cbn [existsb]. unfold covers at 1. cbn [fst snd].
       by rewrite (proj2 (N.ltb_ge m e)), andb_false_r by lia. }
  cbn [OpenTurn.take_budget].
  assert (budget - N.min (e - s) budget = budget - (e - s)) as -> by lia.
  destruct (N.ltb_spec 0 (N.min (e - s) budget)) as [Hpos|Hzero]; cbn [overlaps foldr fst snd].
  - fold (overlaps d (OpenTurn.take_budget l (budget - (e - s)))). by rewrite (IH _ _ Ho).
  - assert (N.min (e - s) budget = 0) as -> by lia. rewrite N.add_0_r, overlap_empty, N.add_0_l. by apply IH.
Qed.

(** What the signals of a turn make of it. *)
Definition opens (signal : TurnSignal) : bool :=
  match ts_input signal with Prompt | Working => true | _ => false end.

Definition turn_step (signal : TurnSignal) (t : OpenTurn) : OpenTurn :=
  match ts_input signal with
  | Prompt => OpenTurn.prompted (ts_at_ms signal) t
  | Working => OpenTurn.set_working (ts_at_ms signal) t
  | Blocked => OpenTurn.touch (ts_at_ms signal) (OpenTurn.close_working (ts_at_ms signal) t)
  | _ => t
  end.

Definition times_working (tr : list TurnSignal) : nat := length (filter is_working tr).

Definition since (t : OpenTurn) (m : N) : bool :=
  match working_since_ms t with Some s => s <=? m | None => false end.

(** A turn that came of the signals [tr], the first of which is [first]. *)
Record traced (first : TurnSignal) (tr : list TurnSignal) (t : OpenTurn) : Prop := {
  tc_account : ot_account t = ts_account first;
  tc_started : started_at_ms t = ts_at_ms first;
  tc_last : last_event_ms t = last_at (ts_at_ms first) tr;
  tc_first : ts_at_ms first ≤ last_event_ms t;
  tc_declared : declared t = existsb is_working tr;
  tc_prompt : declared t = false → prompt_at_ms t = Some (ts_at_ms first);
  tc_since s : working_since_ms t = Some s → s ≤ last_event_ms t;
  tc_ordered : ordered (ts_at_ms first) (working t) (default (last_event_ms t) (working_since_ms t));
  tc_busy m : existsb (covers m) (working t) || since t m = at_work tr m;
  tc_length : (length (working t) + (if working_since_ms t then 1 else 0) ≤ times_working tr)%nat }.

Lemma at_work_snoc tr signal m :
  at_work (tr ++ [signal]) m =
  if ts_at_ms signal <=? m then
    match ts_input signal with Working => true | Blocked => false | _ => at_work tr m end
  else at_work tr m.
Proof. unfold at_work. by rewrite foldl_snoc. Qed.

Lemma times_working_snoc tr signal :
  times_working (tr ++ [signal]) = (times_working tr + if is_working signal then 1 else 0)%nat.
Proof. unfold times_working. rewrite filter_app, length_app. f_equal. cbn. by destruct (is_working signal). Qed.

(** What is closed is covered, up to its end. *)
Lemma close_working_traced first tr t at_ :
  traced first tr t → last_event_ms t ≤ at_ → (times_working tr ≤ MAX_TURN_INTERVALS)%nat →
  let t' := OpenTurn.close_working at_ t in
  working_since_ms t' = None ∧ ordered (ts_at_ms first) (working t') at_ ∧
  (∀ m, existsb (covers m) (working t') = if at_ <=? m then false else at_work tr m) ∧
  (length (working t') ≤ times_working tr)%nat ∧ declared t' = declared t ∧
  ot_account t' = ot_account t ∧ started_at_ms t' = started_at_ms t ∧
  last_event_ms t' = last_event_ms t ∧ prompt_at_ms t' = prompt_at_ms t.
Proof.
  intros Ht Hat Hcount. cbv zeta. unfold OpenTurn.close_working.
  pose proof (tc_ordered _ _ _ Ht) as Ho. pose proof (tc_busy _ _ _ Ht) as Hb.
  pose proof (tc_length _ _ _ Ht) as Hlen. unfold since in Hb.
  destruct (working_since_ms t) as [s|] eqn:Hs; cbn [default] in Ho; try change (id s) with s in Ho.
  - pose proof (tc_since _ _ _ Ht s Hs) as Hle. replace (N.max at_ s) with at_ by lia.
    assert ((MAX_TURN_INTERVALS <=? length (working t))%nat = false) as -> by (apply Nat.leb_gt; lia).
    replace (match last (working t) with Some _ => _ | None => _ end) with (working t ++ [(s, at_)])
      by (by destruct (last (working t))).
    cbn. split_and!; try done.
    + apply ordered_snoc; cbn; [done|lia|lia].
    + intros m. rewrite existsb_app. cbn. unfold covers at 2. cbn [fst snd]. specialize (Hb m).
      destruct (N.leb_spec at_ m) as [Hm|Hm].
      * rewrite (proj2 (N.ltb_ge m at_)), andb_false_r by lia. cbn. rewrite orb_false_r.
        destruct (existsb (covers m) (working t)) eqn:Hc; [|done].
        apply (ordered_covers _ _ _ _ Ho) in Hc. lia.
      * rewrite (proj2 (N.ltb_lt m at_)), andb_true_r, orb_false_r by lia. done.
    + rewrite length_app. cbn. lia.
  - split_and!; try done; [by eapply ordered_le| |lia].
    intros m. specialize (Hb m). rewrite orb_false_r in Hb. destruct (N.leb_spec at_ m) as [Hm|Hm]; [|done].
    destruct (existsb (covers m) (working t)) eqn:Hc; [|done].
    apply (ordered_covers _ _ _ _ Ho) in Hc. lia.
Qed.

Lemma traced_first signal : opens signal = true → traced signal [signal] (turn_step signal (TurnBook.new_turn signal)).
Proof.
  unfold opens, turn_step, TurnBook.new_turn.
  destruct (ts_input signal) eqn:Hin; intros Ho; try discriminate; split; cbn;
    rewrite ?N.max_id; unfold is_working, times_working; cbn; unfold is_working; rewrite ?Hin; try done; try lia.
  - intros m. by destruct (_ <=? m).
  - intros s [= <-]. done.
  - intros m. by destruct (_ <=? m).
Qed.

Lemma traced_step first tr t signal :
  traced first tr t → last_event_ms t ≤ ts_at_ms signal →
  (times_working (tr ++ [signal]) ≤ MAX_TURN_INTERVALS)%nat →
  match ts_input signal with Prompt | Working | Blocked => True | _ => False end →
  traced first (tr ++ [signal]) (turn_step signal t).
Proof.
  intros Ht Hat Hcount Hin. rewrite times_working_snoc in Hcount. pose proof (tc_first _ _ _ Ht) as Hfirst.
  assert (Hlast : N.max (last_event_ms t) (ts_at_ms signal) = last_at (ts_at_ms first) (tr ++ [signal])).
  { rewrite last_at_snoc. lia. }
  pose proof (tc_length _ _ _ Ht) as Hlen. pose proof (tc_busy _ _ _ Ht) as Hb.
  pose proof (tc_ordered _ _ _ Ht) as Ho. pose proof (tc_since _ _ _ Ht) as Hs.
  unfold turn_step, is_working in *.
  destruct (ts_input signal) eqn:Hi; try done; clear Hin.
  - split; cbn; try apply Ht; try done; try lia.
    + rewrite existsb_app. cbn. unfold is_working at 2. rewrite Hi, !orb_false_r. apply Ht.
    + intros Hd. by rewrite (tc_prompt _ _ _ Ht Hd).
    + intros s Heq%Hs. lia.
    + eapply ordered_le; [done|]. destruct (working_since_ms t); cbn; lia.
    + intros m. rewrite at_work_snoc, Hi. unfold since in *. cbn. rewrite Hb. by destruct (_ <=? m).
    + rewrite times_working_snoc. lia.
  - split; cbn; try apply Ht; try done; try lia.
    + rewrite existsb_app. cbn. unfold is_working at 2. rewrite Hi. by rewrite orb_true_r.
    + intros s [= <-]. destruct (working_since_ms t) as [s|]; cbn; [specialize (Hs s eq_refl)|]; lia.
    + eapply ordered_le; [done|]. destruct (working_since_ms t); cbn; lia.
    + intros m. rewrite at_work_snoc, Hi. specialize (Hb m). unfold since in *. cbn.
      destruct (working_since_ms t) as [s|]; cbn.
      * destruct (N.leb_spec (ts_at_ms signal) m); [|done]. specialize (Hs s eq_refl).
        by rewrite (proj2 (N.leb_le s m)), orb_true_r by lia.
      * rewrite orb_false_r in Hb. rewrite Hb. destruct (_ <=? m); [by rewrite orb_true_r|by rewrite orb_false_r].
    + rewrite times_working_snoc. unfold is_working. rewrite Hi. destruct (working_since_ms t); lia.
  - destruct (close_working_traced first tr t (ts_at_ms signal) Ht Hat) as (Hn&Ho'&Hb'&Hlen'&Hd&Ha&Hst&Hl&Hp); [lia|].
    split; cbn; rewrite ?Hn, ?Hd, ?Ha, ?Hst, ?Hl, ?Hp; try apply Ht; try done; try lia.
    + rewrite existsb_app. cbn. unfold is_working at 2. rewrite Hi, !orb_false_r. apply Ht.
    + eapply ordered_le; [done|]. cbn. lia.
    + intros m. rewrite at_work_snoc, Hi. unfold since. cbn. rewrite Hn, orb_false_r. apply Hb'.
    + rewrite times_working_snoc. lia.
Qed.

(** The time a turn books is what was worked in it. *)
Lemma turn_time_traced first tr t end_ms d :
  traced first tr t → last_event_ms t ≤ default (last_event_ms t) end_ms →
  (times_working tr ≤ MAX_TURN_INTERVALS)%nat →
  overlaps d (turn_time end_ms t) =
  worked_in d (worked tr) MAX_TURN_ACTIVE_MS (ts_at_ms first)
    (N.to_nat (default (last_event_ms t) end_ms - ts_at_ms first)).
Proof.
  intros Ht Hend Hcount. unfold turn_time, turn_end.
  pose proof (tc_first _ _ _ Ht) as Hfirst. pose proof (tc_started _ _ _ Ht) as Hst.
  set (stop := default (last_event_ms t) end_ms) in *. replace (N.max stop (started_at_ms t)) with stop by lia.
  destruct (close_working_traced first tr t stop Ht Hend Hcount) as (_&Ho&Hb&_&Hd&_&Hs'&_&Hp).
  unfold OpenTurn.active_intervals. rewrite Hd, Hs', Hp, Hst.
  destruct (declared t) eqn:Hdec.
  - rewrite (take_budget_time d _ _ _ _ Ho). apply worked_in_ext. intros m Hm1 Hm2.
    unfold worked. rewrite <- (tc_declared _ _ _ Ht), Hdec, Hb. by rewrite (proj2 (N.leb_gt stop m)) by lia.
  - rewrite (tc_prompt _ _ _ Ht Hdec). cbn [default].
    rewrite (take_budget_time d [(ts_at_ms first, stop)] (ts_at_ms first) stop) by (cbn; lia).
    apply worked_in_ext. intros m Hm1 Hm2. unfold worked. rewrite <- (tc_declared _ _ _ Ht), Hdec.
    cbn. unfold covers. cbn [fst snd]. by rewrite (proj2 (N.leb_le _ m)), (proj2 (N.ltb_lt m stop)) by lia.
Qed.

(** A turn that ends is closed, and books its time. *)
Lemma finish_books session end_ms t b :
  BTreeMap.get (open b) session = Some t → turn_ok t → (∀ e, end_ms = Some e → e ≤ MAX_AT) →
  room (MAX_TURN_ACTIVE_MS + 1) b →
  runs (TurnBook.finish session end_ms b)
  (books (ot_account t) (λ d, with_active (overlaps d (turn_time end_ms t))) (MAX_TURN_ACTIVE_MS + 1)
   (set_open (BTreeMap.remove (open b) session) b)).
Proof.
  intros Hopen Ht He Hroom. unfold TurnBook.finish. rewrite Hopen.
  fold (turn_end end_ms t). cbv zeta.
  destruct (turn_time_spec _ _ Ht He) as [Htime Hspent]. unfold turn_time in Htime, Hspent |- *.
  assert (ot_account (OpenTurn.close_working (turn_end end_ms t) t) = ot_account t) as ->.
  { unfold OpenTurn.close_working. by destruct (working_since_ms t). }
  set (l := OpenTurn.active_intervals _ _) in *. set (b0 := set_open _ b).
  assert (room (MAX_TURN_ACTIVE_MS + 1) b0) as Hroom0 by (by destruct Hroom).
  eapply runs_bind.
  { apply book_intervals_spec; [done|]. eapply room_mono; [|done]. lia. }
  intros b1 Hb1. eapply runs_mono.
  - apply bump_spec. pose proof (bk_revision _ _ _ _ _ Hb1). destruct Hroom0. lia.
  - intros b2 Hb2. eapply (books_bump _ _ _ _) in Hb2; [|done].
  eapply books_ext; [by eapply books_trans|done|lia].
Qed.

Lemma finish_nothing session end_ms b :
  BTreeMap.get (open b) session = None → TurnBook.finish session end_ms b = Some b.
Proof. intros Hno. unfold TurnBook.finish. by rewrite Hno. Qed.
(** ** Signals *)

(** The invariant of a book. *)
Record book_ok (b : TurnBook) : Prop := {
  bo_days : days_ok b;
  bo_open : sorted (open b);
  bo_turns session t : BTreeMap.get (open b) session = Some t → turn_ok t;
  bo_watermarks : sorted (watermarks b);
  bo_cursors : sorted (cursors b);
  bo_bound : (length (cursors b) ≤ MAX_CURSORS)%nat }.

Definition with_turn (t : DayTally) : DayTally :=
  mkTally (turns t + 1) (active_ms t) (tokens_in t) (tokens_out t).

(** What a signal books, and for which account: the turn it opens on its day, the time
of the turn it ends on the days it lies in. *)
Definition turn_change (signal : TurnSignal) (b : TurnBook) :
  LedgerAccount * (NaiveDate → DayTally → DayTally) :=
  let ends end_ms :=
  match BTreeMap.get (open b) (ts_session signal) with
  | Some t => (ot_account t, λ d, with_active (overlaps d (turn_time end_ms t)))
  | None => (ts_account signal, λ _ t, t)
  end in
  match ts_input signal with
  | Prompt | Working =>
  (ts_account signal, λ d t,
    if bool_decide (BTreeMap.get (open b) (ts_session signal) = None)
       && bool_decide (d = day (ts_at_ms signal)) then with_turn t else t)
  | Blocked => (ts_account signal, λ _ t, t)
  | Settled | StopInput | Ended => ends (Some (ts_at_ms signal))
  | Vanished => ends None
  end.

(** The turns that are open after it. *)
Record open_change (signal : TurnSignal) (o o' : BTreeMap.t OpenTurn) : Prop := {
  oc_sorted : sorted o → sorted o';
  oc_turns : (∀ s t, BTreeMap.get o s = Some t → turn_ok t) →
         ∀ s t, BTreeMap.get o' s = Some t → turn_ok t;
  oc_other s : sorted o → s ≠ ts_session signal → BTreeMap.get o' s = BTreeMap.get o s;
  oc_this : sorted o → is_Some (BTreeMap.get o' (ts_session signal)) ↔
  match ts_input signal with
  | Prompt | Working => True
  | Blocked => is_Some (BTreeMap.get o (ts_session signal))
  | _ => False
  end }.

Lemma books_set_open a f n b b' o : books a f n b b' → books a f n (set_open o b) (set_open o b').
Proof.
  intros [[? ? ? ? ?] Ht Hn Hd]. split; [by split|done|done|].
  intros Hok. assert (days_ok b) as [Hne Him]%Hd by (by destruct Hok). by split.
Qed.

Lemma set_open_id b : set_open (open b) b = b.
Proof. by destruct b. Qed.

Lemma insert_change signal t o :
  match ts_input signal with Prompt | Working => True
  | Blocked => is_Some (BTreeMap.get o (ts_session signal)) | _ => False end →
  ((∀ s t, BTreeMap.get o s = Some t → turn_ok t) → turn_ok t) →
  open_change signal o (BTreeMap.insert o (ts_session signal) t).
Proof.
  intros Hin Ht. split.
  - apply sorted_insert.
  - intros Hok s t'. destruct (decide (s = ts_session signal)) as [->|].
  + rewrite get_insert. intros [= <-]. auto.
  + rewrite get_insert_ne by done. apply Hok.
  - intros s _ Hne. by rewrite get_insert_ne.
  - intros _. rewrite get_insert. split; [|by eexists]. destruct (ts_input signal); done.
Qed.

Lemma get_remove {V} (m : BTreeMap.t V) k k' : sorted m →
  BTreeMap.get (BTreeMap.remove m k) k' = if bool_decide (k' = k) then None else BTreeMap.get m k'.
Proof.
  intros Hs. unfold BTreeMap.remove. rewrite get_retain by done.
  destruct (bool_decide_reflect (k' = k)) as [->|Hne].
  - rewrite bool_decide_false by tauto. by destruct (BTreeMap.get m k).
  - rewrite bool_decide_true by congruence. by destruct (BTreeMap.get m k').
Qed.

Lemma remove_change signal o :
  match ts_input signal with Settled | StopInput | Ended | Vanished => True | _ => False end →
  sorted o → open_change signal o (BTreeMap.remove o (ts_session signal)).
Proof.
  intros Hin Hs. split.
  - apply sorted_retain.
  - intros Hok s t. rewrite get_remove by done. case_bool_decide; [done|apply Hok].
  - intros s _ Hne. rewrite get_remove by done. by rewrite bool_decide_false.
  - intros _. rewrite get_remove, bool_decide_true by done.
  split; [by intros [? ?]|]. by destruct (ts_input signal).
Qed.

Lemma open_or_start_spec signal f b :
  book_ok b → room 1 b →
  runs (TurnBook.open_or_start signal f b) (λ b',
  let o := BTreeMap.insert (open b) (ts_session signal)
           (f (default (TurnBook.new_turn signal) (BTreeMap.get (open b) (ts_session signal)))) in
  open b' = o ∧
  books (ts_account signal) (λ d t,
  if bool_decide (BTreeMap.get (open b) (ts_session signal) = None)
     && bool_decide (d = day (ts_at_ms signal)) then with_turn t else t) 1 (set_open o b) b').
Proof.
  intros Hok Hroom. unfold TurnBook.open_or_start, BTreeMap.contains_key.
  destruct (BTreeMap.get (open b) (ts_session signal)) as [t|] eqn:Hget.
  - rewrite bool_decide_true by (by eexists). cbn [mbind option_bind]. simpl. rewrite Hget.
  split; [done|]. eapply books_ext; [by apply (books_nothing _ _ (λ _ t, t))|done|lia].
  - rewrite bool_decide_false by (by intros [? ?]).
  eapply runs_bind.
  { apply (book_spec _ _ _ with_turn); [by destruct Hroom|].
  unfold add_turn. by rewrite add_u64_some by (by apply Hroom). }
  intros b1 Hb1. simpl. pose proof (sr_open _ _ (bk_rest _ _ _ _ _ Hb1)) as Ho. rewrite Ho, Hget.
  split; [done|]. by apply books_set_open.
Qed.

Lemma finish_change signal end_ms b :
  match ts_input signal with Settled | StopInput | Ended | Vanished => True | _ => False end →
  book_ok b → room (MAX_TURN_ACTIVE_MS + 1) b → (∀ e, end_ms = Some e → e ≤ MAX_AT) →
  runs (TurnBook.finish (ts_session signal) end_ms b) (λ b',
  open_change signal (open b) (open b') ∧
  books (match BTreeMap.get (open b) (ts_session signal) with
       | Some t => ot_account t | None => ts_account signal end)
  (match BTreeMap.get (open b) (ts_session signal) with
   | Some t => λ d, with_active (overlaps d (turn_time end_ms t)) | None => λ _ t, t end)
  (MAX_TURN_ACTIVE_MS + 1) (set_open (open b') b) b').
Proof.
  intros Hin Hok Hroom He.
  destruct (BTreeMap.get (open b) (ts_session signal)) as [t|] eqn:Hget.
  - eapply runs_mono; [apply finish_books; [done|by eapply bo_turns|done..]|].
  intros b' Hb'. pose proof (sr_open _ _ (bk_rest _ _ _ _ _ Hb')) as Ho. simpl in Ho. rewrite Ho.
  split; [apply remove_change; [done|apply Hok]|done].
  - rewrite finish_nothing by done. simpl. split.
  + split; [done..|]. rewrite Hget. intros _. split; [by intros [? ?]|].
  by destruct (ts_input signal).
  + rewrite set_open_id. eapply books_ext; [by apply (books_nothing _ _ (λ _ t, t))|done|lia].
Qed.

Lemma apply_input_spec signal b :
  book_ok b → room (MAX_TURN_ACTIVE_MS + 1) b → ts_at_ms signal ≤ MAX_AT →
  runs (TurnBook.apply_input signal b) (λ b',
  open_change signal (open b) (open b') ∧
  books (turn_change signal b).1 (turn_change signal b).2 (MAX_TURN_ACTIVE_MS + 1)
  (set_open (open b') b) b').
Proof.
  intros Hok Hroom Hat.
  assert (room 1 b) as Hroom1 by (eapply room_mono; [|done]; lia).
  assert (∀ t, BTreeMap.get (open b) (ts_session signal) = Some t → turn_ok t) as Hturn
  by (intros; by eapply bo_turns).
  assert (Hopen : ∀ f, (∀ t, turn_ok t → turn_ok (f t)) →
  match ts_input signal with Prompt | Working => True | _ => False end →
  runs (TurnBook.open_or_start signal f b) (λ b', open_change signal (open b) (open b') ∧
  books (ts_account signal) (λ d t,
    if bool_decide (BTreeMap.get (open b) (ts_session signal) = None)
       && bool_decide (d = day (ts_at_ms signal)) then with_turn t else t)
    (MAX_TURN_ACTIVE_MS + 1) (set_open (open b') b) b')).
  { intros f Hf Hin. eapply runs_mono; [by apply open_or_start_spec|].
  intros b' [Ho Hb']. rewrite Ho. split; [|eapply books_ext; [done|done|lia]].
  apply insert_change; [by destruct (ts_input signal)|]. intros _. apply Hf.
  destruct (BTreeMap.get (open b) (ts_session signal)); [by apply Hturn|by apply new_turn_ok]. }
  unfold TurnBook.apply_input, turn_change. destruct (ts_input signal) eqn:Hin.
  - apply Hopen; [intros; by apply prompted_ok|done].
  - eapply runs_mono; [apply (finish_change signal); rewrite ?Hin; try done; by intros ? [= <-]|].
  intros b'. by destruct (BTreeMap.get (open b) (ts_session signal)).
  - apply Hopen; [intros; by apply set_working_ok|done].
  - destruct (BTreeMap.get (open b) (ts_session signal)) as [t|] eqn:Hget; simpl.
  + split; [|eapply books_ext; [by apply (books_nothing _ _ (λ _ t, t))|done|lia]].
  apply insert_change; [rewrite Hin, Hget; by eexists|]. intros _.
  apply touch_ok; [done|]. apply close_working_ok; auto.
  + rewrite set_open_id.
  split; [|eapply books_ext; [by apply (books_nothing _ _ (λ _ t, t))|done|lia]].
  split; [done..|]. by rewrite Hin.
  - eapply runs_mono; [apply (finish_change signal); rewrite ?Hin; try done; by intros ? [= <-]|].
  intros b'. by destruct (BTreeMap.get (open b) (ts_session signal)).
  - eapply runs_mono; [apply (finish_change signal); rewrite ?Hin; try done; by intros ? [= <-]|].
  intros b'. by destruct (BTreeMap.get (open b) (ts_session signal)).
  - eapply runs_mono; [apply (finish_change signal); rewrite ?Hin; done|].
  intros b'. by destruct (BTreeMap.get (open b) (ts_session signal)).
Qed.

(** ** Watermarks *)

(** A signal is new, or it is not from a hook. *)
Definition fresh (signal : TurnSignal) (b : TurnBook) : bool :=
  negb (from_hook (ts_input signal))
  || mark_lt (default (0, 0) (BTreeMap.get (watermarks b) (ts_session signal)))
   (ts_at_ms signal, ts_order signal).

Lemma pass_watermark_spec signal b :
  ∃ w, TurnBook.pass_watermark signal b = (fresh signal b, set_watermarks w b) ∧
  (sorted (watermarks b) → sorted w) ∧
  (from_hook (ts_input signal) = true → BTreeMap.get w (ts_session signal) =
   Some (if fresh signal b then (ts_at_ms signal, ts_order signal)
         else default (0, 0) (BTreeMap.get (watermarks b) (ts_session signal)))).
Proof.
  unfold TurnBook.pass_watermark, fresh. destruct (from_hook (ts_input signal)); simpl.
  - destruct (mark_lt _ _); eexists; (split; [reflexivity|]); (split; [apply sorted_insert|]);
  intros _; by rewrite get_insert.
  - exists (watermarks b). split; [by destruct b|done].
Qed.

Lemma get_remove_ne {V} (m : BTreeMap.t V) k k' :
  k' ≠ k → BTreeMap.get (BTreeMap.remove m k) k' = BTreeMap.get m k'.
Proof.
  intros Hne. induction m as [|[k2 v] m IH]; [done|].
  unfold BTreeMap.remove in *. cbn [BTreeMap.retain BTreeMap.get].
  destruct (decide (k = k2)) as [->|Hk].
  - rewrite (bool_decide_false (k2 ≠ k2)), (bool_decide_false (k' = k2)) by tauto. apply IH.
  - rewrite (bool_decide_true (k ≠ k2)) by done. cbn [BTreeMap.get]. by rewrite IH.
Qed.

Lemma min_by_elem {A} (lt : A → A → bool) l x : min_by lt l = Some x → x ∈ l.
Proof.
  revert x. induction l as [|y l IH]; intros x; simpl; [done|].
  destruct (min_by lt l) as [z|]; [destruct (lt z y)|]; intros [= <-]; [right; by apply IH|by left..].
Qed.

(** Trimming leaves the watermarks of open turns. *)
Lemma trim_watermarks_spec fuel b :
  ∃ w, TurnBook.trim_watermarks fuel b = set_watermarks w b ∧
  (sorted (watermarks b) → sorted w) ∧
  ∀ s, is_Some (BTreeMap.get (open b) s) → BTreeMap.get w s = BTreeMap.get (watermarks b) s.
Proof.
  revert b. induction fuel as [|fuel IH]; intros b; simpl.
  { exists (watermarks b). split; [by destruct b|done]. }
  destruct (MAX_WATERMARKS <? length (watermarks b))%nat; [|exists (watermarks b); by destruct b].
  destruct (min_by _ _) as [[oldest mark]|] eqn:Hmin; [|exists (watermarks b); by destruct b].
  destruct (IH (set_watermarks (BTreeMap.remove (watermarks b) oldest) b)) as (w & -> & Hs & Hget).
  exists w. split; [done|]. split; [intros; by apply Hs, sorted_retain|].
  intros s Hopen. rewrite Hget by done. simpl. apply get_remove_ne. intros ->.
  apply min_by_elem, list_elem_of_filter in Hmin as [Hnone _]. simpl in Hnone.
  rewrite Hnone in Hopen. by destruct Hopen.
Qed.

(** What one signal does to a book. *)
Lemma apply_spec signal b :
  book_ok b → room (MAX_TURN_ACTIVE_MS + 1) b → ts_at_ms signal ≤ MAX_AT →
  runs (TurnBook.apply signal b) (λ b', book_ok b' ∧
  (if fresh signal b then open_change signal (open b) (open b') else open b' = open b) ∧
  (from_hook (ts_input signal) = true →
  fresh signal b = false ∨ is_Some (BTreeMap.get (open b') (ts_session signal)) →
  fresh signal b' = false) ∧
  imported b' = imported b ∧ cursors b' = cursors b ∧ import_record b' = import_record b ∧
  revision b ≤ revision b' ≤ revision b + (MAX_TURN_ACTIVE_MS + 1) ∧
  ∀ d a, TurnBook.tally b' d a =
  if fresh signal b && bool_decide (a = (turn_change signal b).1)
     && negb (TurnBook.is_imported b d a)
  then (turn_change signal b).2 d (TurnBook.tally b d a) else TurnBook.tally b d a).
Proof.
  intros Hok Hroom Hat. unfold TurnBook.apply.
  destruct (pass_watermark_spec signal b) as (w & -> & Hw & Hmark).
  assert (Hok0 : book_ok (set_watermarks w b)).
  { destruct Hok as [[Hne Him] Ho Ht Hs Hc Hb]. split; simpl; auto. by split. }
  destruct (fresh signal b) eqn:Hf; simpl.
  2: { split; [done|]. split_and!; try done; try lia. intros Hhook _.
  revert Hf. unfold fresh. rewrite Hhook. simpl. by rewrite Hmark. }
  eapply runs_bind; [apply apply_input_spec; [done|by destruct Hroom|done]|].
  intros b1 [Hopen Hb1]. simpl.
  destruct (trim_watermarks_spec (length (watermarks b1)) b1) as (w' & -> & Hw' & Hkept).
  pose proof (bk_rest _ _ _ _ _ Hb1) as [Ho Hwm Hcur Him Himp]. simpl in *.
  pose proof (bk_revision _ _ _ _ _ Hb1) as Hrev. simpl in Hrev.
  split; [split; simpl|].
  - assert (days_ok b1) as [Hne Hi].
  { apply (bk_days _ _ _ _ _ Hb1). destruct Hok as [[? ?] _ _ _ _ _]. by split. }
  by split.
  - apply (oc_sorted _ _ _ Hopen), Hok.
  - apply (oc_turns _ _ _ Hopen), Hok.
  - apply Hw'. rewrite Hwm. apply Hw, Hok.
  - rewrite Hcur. apply Hok.
  - rewrite Hcur. apply Hok.
  - split_and!; try done; [|lia..|].
  { intros Hhook [?|Hopen']; [done|]. unfold fresh. rewrite Hhook. simpl.
  rewrite Hkept, Hwm, Hmark by done. simpl. unfold mark_lt. simpl.
  by rewrite !N.ltb_irrefl, andb_false_r. }
  intros d a. rewrite (tally_days b1), (bk_tally _ _ _ _ _ Hb1) by done.
  rewrite (tally_days b) by done. change (turn_change signal (set_watermarks w b)) with
  (turn_change signal b).
  destruct (bool_decide_reflect (a = (turn_change signal b).1)) as [->|]; simpl; [|done].
  done.
Qed.

(** A hook's signal that comes again changes no tally and no turn. *)
Lemma apply_again signal b b1 :
  book_ok b → room (MAX_TURN_ACTIVE_MS + 1) b → ts_at_ms signal ≤ MAX_AT →
  from_hook (ts_input signal) = true → TurnBook.apply signal b = Some b1 →
  runs (TurnBook.apply signal b1) (λ b2,
  days b2 = days b1 ∧ open b2 = open b1 ∧ revision b2 = revision b1).
Proof.
  intros Hok Hroom Hat Hhook Happly. pose proof (apply_spec signal b Hok Hroom Hat) as Hspec.
  rewrite Happly in Hspec. destruct Hspec as (Hok1 & Hopen & Hfresh & _). specialize (Hfresh Hhook).
  assert (fresh signal b1 = false ∨
  (BTreeMap.get (open b1) (ts_session signal) = None ∧ ts_input signal ≠ Prompt)) as Hcase.
  { destruct (fresh signal b) eqn:Hf; [|left; by apply Hfresh; left].
  destruct (BTreeMap.get (open b1) (ts_session signal)) as [t|] eqn:Hget.
  - left. apply Hfresh. right. by eexists.
  - right. split; [done|]. intros Hin. pose proof (oc_this _ _ _ Hopen (bo_open _ Hok)) as Hthis.
  rewrite Hin, Hget in Hthis. by destruct (proj2 Hthis I). }
  unfold TurnBook.apply. destruct (pass_watermark_spec signal b1) as (w & -> & _ & _).
  destruct (fresh signal b1); [|done].
  destruct Hcase as [?|[Hno Hnp]]; [done|].
  assert (TurnBook.apply_input signal (set_watermarks w b1) = Some (set_watermarks w b1)) as ->.
  { unfold TurnBook.apply_input. destruct (ts_input signal); try done; by apply finish_nothing. }
  cbn [mbind option_bind]. destruct (trim_watermarks_spec (length (watermarks (set_watermarks w b1)))
  (set_watermarks w b1)) as (w' & -> & _). done.
Qed.
End calendar.
