(* ===== verification/UsageLedgerBatches.v ===== *)
(** * Batches, imports and the file of the usage ledger

    [expire_spec]: a sweep ends exactly the turns that have expired and books their
    time.  [import_days_spec]: an import books the days that are not held.
    [record_tokens_spec]: a pass over a transcript is booked once.  [restore_to_file]:
    a ledger's file holds all of it. *)

From stdpp Require Import gmap list sorting.
From S2P Require Import Prelude DiffText OrderedMap AgentActivity AgentSession AgentWorker.
From S2P Require Import UsageLedger UsageLedgerCorrect.

Local Open Scope N_scope.

#[local] Arguments MAX_AT : simpl never.
#[local] Arguments MAX_TURN_ACTIVE_MS : simpl never.

(** ** The sweep *)

Lemma sorted_keys_nodup {V} (m : BTreeMap.t V) : sorted m → NoDup (BTreeMap.keys m).
Proof.
  unfold sorted. generalize (BTreeMap.keys m). intros l. induction 1 as [|k l _ IH Hk]; constructor; [|done].
  intros Hin. rewrite Forall_forall in Hk. by destruct (str_lt_irrefl k (Hk k Hin)).
Qed.

Lemma sorted_get_elem {V} (m : BTreeMap.t V) k v : sorted m → (k, v) ∈ m → BTreeMap.get m k = Some v.
Proof.
  induction m as [|[k' v'] m IH]; intros Hs Hin; [by apply elem_of_nil in Hin|].
  apply sorted_cons in Hs as [Hs Hlt]. cbn [BTreeMap.get].
  apply elem_of_cons in Hin as [[= -> ->]|Hin]; [by rewrite bool_decide_true|].
  rewrite bool_decide_false; [by apply IH|]. intros ->.
  rewrite Forall_forall in Hlt. destruct (str_lt_irrefl k').
  apply Hlt, list_elem_of_fmap. by exists (k', v).
Qed.

Lemma room_set_open n o b : room n b → room n (set_open o b).
Proof. by intros []. Qed.

Lemma tally_set_open o b d a : TurnBook.tally (set_open o b) d a = TurnBook.tally b d a.
Proof. done. Qed.

Section calendar.
Context {C : Calendar} {CL : CalendarLaws C}.

(** What the ends of some turns add to a tally. *)
Definition one_end (o : BTreeMap.t OpenTurn) (d : NaiveDate) (a : LedgerAccount)
  (ended : str * option N) : N :=
  match BTreeMap.get o ended.1 with
  | Some t => if bool_decide (ot_account t = a) then overlaps d (turn_time ended.2 t) else 0
  | None => 0
  end.

Definition ended_time (o : BTreeMap.t OpenTurn) (ended : list (str * option N)) (d : NaiveDate)
  (a : LedgerAccount) : N :=
  foldr (λ e n, one_end o d a e + n) 0 ended.

Lemma ended_time_app o l k d a : ended_time o (l ++ k) d a = ended_time o l d a + ended_time o k d a.
Proof. unfold ended_time. induction l as [|e l IH]; simpl; [done|]. rewrite IH. lia. Qed.

(** [ended] are the turns of [b] that were ended on the way to [b']. *)
Record ends (ended : list (str * option N)) (b b' : TurnBook) : Prop := {
  en_ok : book_ok b';
  en_open s : BTreeMap.get (open b') s =
  if bool_decide (s ∈ ended.*1) then None else BTreeMap.get (open b) s;
  en_watermarks : watermarks b' = watermarks b;
  en_cursors : cursors b' = cursors b;
  en_imported : imported b' = imported b;
  en_import : import_record b' = import_record b;
  en_tally d a : TurnBook.tally b' d a =
  if TurnBook.is_imported b d a then TurnBook.tally b d a
  else with_active (ended_time (open b) ended d a) (TurnBook.tally b d a) }.

Lemma book_ok_set_open o b :
  book_ok b → sorted o → (∀ s t, BTreeMap.get o s = Some t → turn_ok t) → book_ok (set_open o b).
Proof. intros [[Hne Him] Ho Ht Hw Hc Hb] Hs Hto. split; simpl; auto. by split. Qed.

Lemma books_ok a f n b b' : books a f n b b' → book_ok b → book_ok b'.
Proof.
  intros [[Ho Hw Hc Hi Hr] _ _ Hd] [Hdays Hso Ht Hsw Hsc Hb].
  split; rewrite ?Ho, ?Hw, ?Hc; auto.
Qed.

Lemma with_active_0 t : with_active 0 t = t.
Proof. unfold with_active. rewrite N.add_0_r. by destruct t. Qed.

Lemma ends_snoc ended s e t b b1 b2 :
  ends ended b b1 → s ∉ ended.*1 → BTreeMap.get (open b) s = Some t →
  books (ot_account t) (λ d, with_active (overlaps d (turn_time e t))) (MAX_TURN_ACTIVE_MS + 1)
  (set_open (BTreeMap.remove (open b1) s) b1) b2 →
  ends (ended ++ [(s, e)]) b b2.
Proof.
  intros Hends Hnew Hget Hb. pose proof (en_ok _ _ _ Hends) as Hok.
  destruct (bk_rest _ _ _ _ _ Hb) as [Ho Hw Hc Hi Hr]. cbn in Ho, Hw, Hc, Hi, Hr.
  pose proof (bo_open _ Hok) as Hs1.
  split; try (by rewrite ?Hw, ?Hc, ?Hi, ?Hr; apply Hends).
  - eapply books_ok; [done|]. apply book_ok_set_open; [done|by apply sorted_retain|].
  intros s' t'. rewrite get_remove by done. case_bool_decide; [done|]. by apply bo_turns.
  - intros s'. rewrite Ho, get_remove, (en_open _ _ _ Hends), fmap_app by done.
  repeat case_bool_decide; try done; subst; set_solver.
  - intros d a. rewrite (bk_tally _ _ _ _ _ Hb), !tally_set_open.
  unfold TurnBook.is_imported in *. cbn. rewrite (en_imported _ _ _ Hends).
  rewrite ended_time_app, !(en_tally _ _ _ Hends). unfold TurnBook.is_imported.
  cbn [ended_time foldr]. unfold one_end. cbn [fst snd]. rewrite Hget, N.add_0_r.
  destruct (bool_decide_reflect (a = ot_account t)) as [->|Hne]; cbn.
  + destruct (bool_decide _); [done|]. rewrite bool_decide_true by done. cbn.
  unfold with_active. cbn. f_equal. lia.
  + rewrite (bool_decide_false (ot_account t = a)), N.add_0_r by done. done.
Qed.

(** Every turn of a list ends. *)
Lemma finish_all_spec ended b n :
  book_ok b → NoDup ended.*1 →
  Forall (λ se, is_Some (BTreeMap.get (open b) se.1) ∧ ∀ e, se.2 = Some e → e ≤ MAX_AT) ended →
  room ((MAX_TURN_ACTIVE_MS + 1) * N.of_nat (length ended) + n) b →
  runs (for_each ended (λ '(session, end_) b, TurnBook.finish session end_ b) b) (λ b',
  ends ended b b' ∧ room n b').
Proof.
  intros Hok Hnd Hall Hroom.
  apply (runs_for_each _ _ (λ done b', ends done b b' ∧
  room ((MAX_TURN_ACTIVE_MS + 1) * N.of_nat (length ended - length done) + n) b')).
  - split; [|by rewrite Nat.sub_0_r]. split; try done. intros d a. cbn [ended_time foldr].
  rewrite with_active_0. by destruct (TurnBook.is_imported b d a).
  - intros dn [s e] rest b1 Hlist [Hends Hroom1]. subst ended.
  rewrite length_app in Hroom1. cbn [length] in Hroom1.
  apply Forall_app in Hall as [_ [[[t Hget] He] _]%Forall_cons]. cbn [fst snd] in *.
  rewrite fmap_app in Hnd. apply NoDup_app in Hnd as (_ & Hnd & _).
  assert (s ∉ dn.*1) as Hnew by (intros Hin; apply (Hnd s Hin); by left).
  assert (BTreeMap.get (open b1) s = Some t) as Hget1
  by (by rewrite (en_open _ _ _ Hends), bool_decide_false).
  eapply runs_mono.
  { apply finish_books; [done|eapply bo_turns; [apply Hends|done]|done|].
  eapply room_mono; [|done]. lia. }
  intros b2 Hb2. split; [by eapply ends_snoc|].
  eapply (room_books _ _ (MAX_TURN_ACTIVE_MS + 1)); [apply room_set_open; eapply room_mono; [|done]|done|].
  + rewrite !length_app. cbn [length]. lia.
  + intros d t'. unfold with_active. cbn. pose proof (overlaps_le d (turn_time e t)).
  destruct (turn_time_spec e t) as [_ ?]; [eapply bo_turns; [apply Hok|done]|done|]. lia.
  - intros b' [Hends Hroom']. split; [done|]. by rewrite Nat.sub_diag, N.mul_0_r in Hroom'.
Qed.

(** The turns a sweep ends, and their ends. *)
Definition expired (running in_turn : list str) (now_ms : N) (b : TurnBook) : list (str * option N) :=
  omap (λ '(session, turn),
  (λ end_, (session, end_)) <$> TurnBook.expired_end running in_turn now_ms session turn) (open b).

Lemma elem_expired running in_turn now_ms b s e :
  sorted (open b) → (s, e) ∈ expired running in_turn now_ms b ↔
  ∃ t, BTreeMap.get (open b) s = Some t ∧ TurnBook.expired_end running in_turn now_ms s t = Some e.
Proof.
  intros Hs. unfold expired. rewrite list_elem_of_omap. split.
  - intros ([s' t] & Hin & Heq). destruct (TurnBook.expired_end _ _ _ _ _) eqn:Hend; [|done].
  injection Heq as -> ->. exists t. split; [by apply sorted_get_elem|done].
  - intros (t & Hget & Hend). exists (s, t). split; [by apply get_elem|]. by rewrite Hend.
Qed.

Lemma expired_nodup running in_turn now_ms b :
  sorted (open b) → NoDup (expired running in_turn now_ms b).*1.
Proof.
  intros Hs%sorted_keys_nodup. unfold expired, BTreeMap.keys in *. revert Hs.
  generalize (open b). intros o. induction o as [|[s t] o IH]; intros Hnd; [done|].
  apply NoDup_cons in Hnd as [Hni Hnd]. cbn [omap list_omap].
  destruct (TurnBook.expired_end _ _ _ _ _); cbn [fmap option_fmap option_map]; [|by apply IH].
  cbn. constructor; [|by apply IH]. intros Hin. apply Hni.
  apply list_elem_of_fmap in Hin as ([s' e] & -> & Hin). apply list_elem_of_omap in Hin as ([s2 t2] & Hin & Heq).
  destruct (TurnBook.expired_end _ _ _ s2 t2); [|done]. injection Heq as -> ->.
  apply list_elem_of_fmap. by exists (s', t2).
Qed.

Lemma expire_spec running in_turn now_ms b n :
  book_ok b → now_ms ≤ MAX_AT →
  room ((MAX_TURN_ACTIVE_MS + 1) * N.of_nat (length (open b)) + n) b →
  runs (TurnBook.expire running in_turn now_ms b) (λ '(count, b'),
  count = length (expired running in_turn now_ms b) ∧
  ends (expired running in_turn now_ms b) b b' ∧ room n b').
Proof.
  intros Hok Hnow Hroom. unfold TurnBook.expire. fold (expired running in_turn now_ms b).
  pose proof (bo_open _ Hok) as Hs.
  eapply runs_bind.
  - apply (finish_all_spec _ _ n); [done|by apply expired_nodup| |].
  + apply Forall_forall. intros [s e] (t & Hget & Hend)%elem_expired; [|done]. cbn [fst snd].
  split; [by eexists|]. intros e' ->. revert Hend. unfold TurnBook.expired_end.
  destruct (_ || _); [done|]. destruct (TURN_IDLE_LIMIT_MS <=? _); [|done].
  destruct (working_since_ms t); cbn; [|done]. by intros [= ->].
  + eapply room_mono; [|done].
  assert (length (expired running in_turn now_ms b) ≤ length (open b))%nat; [|nia].
  unfold expired. generalize (open b). intros o. induction o as [|[s t] o IH]; cbn; [lia|].
  destruct (TurnBook.expired_end _ _ _ _ _); cbn; lia.
  - intros b' Hb'. by split.
Qed.

(** Nothing is left for a second sweep. *)
Lemma expire_settles running in_turn now_ms b b' :
  book_ok b → ends (expired running in_turn now_ms b) b b' →
  expired running in_turn now_ms b' = [].
Proof.
  intros Hok Hends. destruct (expired running in_turn now_ms b') as [|[s e] l] eqn:Hl; [done|].
  assert ((s, e) ∈ expired running in_turn now_ms b') as Hin by (rewrite Hl; by left).
  apply elem_expired in Hin as (t & Hget & Hend); [|apply Hends].
  rewrite (en_open _ _ _ Hends) in Hget. case_bool_decide as Hni; [done|].
  destruct Hni. apply list_elem_of_fmap. exists (s, e). split; [done|].
  apply elem_expired; [apply Hok|]. by exists t.
Qed.
End calendar.

(** ** Imports *)

(** What is held stays, and [src] is booked and marked where nothing was held. *)
Record adds (src : NaiveDate → LedgerAccount → option DayTally) (b b' : TurnBook) : Prop := {
  ad_open : open b' = open b;
  ad_watermarks : watermarks b' = watermarks b;
  ad_cursors : cursors b' = cursors b;
  ad_revision : revision b' = revision b;
  ad_tally d a : tallies_of b' d !! a = tallies_of b d !! a ∪ src d a;
  ad_imported d a : TurnBook.is_imported b' d a =
    TurnBook.is_imported b d a
    || bool_decide (tallies_of b d !! a = None) && bool_decide (is_Some (src d a));
  ad_days : days_ok b → days_ok b' }.

Lemma adds_nothing src b : (∀ d a, src d a = None) → adds src b b.
Proof.
  intros Hsrc. split; try done; intros d a; rewrite Hsrc.
  - by rewrite option_union_right_id.
  - by rewrite (bool_decide_false (is_Some None)), andb_false_r, orb_false_r by by intros [].
Qed.

Lemma adds_ext src src' b b' : adds src b b' → (∀ d a, src d a = src' d a) → adds src' b b'.
Proof.
  intros [] Hsrc. split; try done; intros d a; rewrite <- Hsrc; auto.
Qed.

Lemma adds_trans src1 src2 b b1 b2 :
  adds src1 b b1 → adds src2 b1 b2 → adds (λ d a, src1 d a ∪ src2 d a) b b2.
Proof.
  intros [] []. split; try congruence; [|intros d a|by auto].
  - intros d a. rewrite ad_tally1, ad_tally0. by destruct (tallies_of b d !! a), (src1 d a), (src2 d a).
  - rewrite ad_imported1, ad_imported0, ad_tally0.
    destruct (tallies_of b d !! a), (src1 d a), (src2 d a);
      by destruct (TurnBook.is_imported b d a).
Qed.

(** A tally that counts something. *)
Definition counted (t : DayTally) : option DayTally :=
  if bool_decide (t = DayTally_default) then None else Some t.

Lemma import_one_spec d a t b n :
  ∃ b' n', TurnBook.import_one d a t (b, n) = (b', n') ∧
    adds (λ d' a', if bool_decide (d' = d ∧ a' = a) then counted t else None) b b' ∧
    (n ≤ n')%nat.
Proof.
  unfold TurnBook.import_one, counted.
  destruct (bool_decide_reflect (t = DayTally_default)) as [|Hne]; simpl.
  { exists b, n. split; [done|]. split; [|lia]. apply adds_nothing. intros d' a'. by case_bool_decide. }
  destruct (bool_decide_reflect (is_Some (tallies_of b d !! a))) as [[t0 Ht0]|Hno].
  { exists b, n. split; [done|]. split; [|lia]. split; try done; intros d' a';
      destruct (bool_decide_reflect (d' = d ∧ a' = a)) as [[-> ->]|].
    - by rewrite Ht0.
    - by rewrite option_union_right_id.
    - by rewrite Ht0, orb_false_r.
    - by rewrite (bool_decide_false (is_Some None)), andb_false_r, orb_false_r by by intros []. }
  apply eq_None_not_Some in Hno.
  fold (write_tally d a t b). eexists _, _. split; [reflexivity|]. split; [|lia].
  assert (∀ d' a', TurnBook.is_imported (set_imported (<[d:={[a]} ∪ default ∅ (imported b !! d)]> (imported b))
            (write_tally d a t b)) d' a' = TurnBook.is_imported b d' a' || bool_decide (d' = d ∧ a' = a)) as Hi.
  { intros d' a'. unfold TurnBook.is_imported. simpl. destruct (decide (d' = d)) as [->|].
    - rewrite lookup_insert_eq. simpl. repeat case_bool_decide; try done; set_solver.
    - rewrite lookup_insert_ne by done. rewrite (bool_decide_false (d' = d ∧ a' = a)) by tauto.
      by rewrite orb_false_r. }
  split; try done.
  - intros d' a'. change (tallies_of (set_imported ?i ?x)) with (tallies_of x).
    rewrite tallies_of_write. destruct (decide (d' = d)) as [->|].
    + rewrite bool_decide_true by done. destruct (decide (a' = a)) as [->|].
      * by rewrite lookup_insert_eq, bool_decide_true, Hno by done.
      * rewrite lookup_insert_ne, bool_decide_false by (tauto || done). by rewrite option_union_right_id.
    + rewrite !bool_decide_false by tauto. by rewrite option_union_right_id.
  - intros d' a'. rewrite Hi. f_equal. destruct (bool_decide_reflect (d' = d ∧ a' = a)) as [[-> ->]|].
    + by rewrite Hno.
    + by rewrite (bool_decide_false (is_Some None)), andb_false_r by by intros [].
  - intros Hok. pose proof (days_ok_write d a t b Hok) as [Hne' Him]. split; [done|].
    intros d' a'. rewrite Hi. intros [Hi'|[-> ->]%bool_decide_eq_true]%orb_true_iff; [by apply Him|].
    change (tallies_of (set_imported ?i ?x)) with (tallies_of x).
    rewrite tallies_of_write, bool_decide_true, lookup_insert_eq by done. by eexists.
Qed.

Lemma import_day_spec d (tallies : Tallies) b n :
  adds (λ d' a, if bool_decide (d' = d) then tallies !! a ≫= counted else None) b
    (map_fold (TurnBook.import_one d) (b, n) tallies).1.
Proof.
  apply (map_fold_weak_ind (λ r (m : Tallies),
    adds (λ d' a, if bool_decide (d' = d) then m !! a ≫= counted else None) b r.1)).
  { apply adds_nothing. intros d' a. by case_bool_decide. }
  intros a t m [b1 n1] Hm Hadds. destruct (import_one_spec d a t b1 n1) as (b2 & n2 & -> & Hone & _).
  eapply adds_ext; [by eapply adds_trans|]. intros d' a'. simpl.
  destruct (decide (d' = d)) as [->|]; [|by rewrite !bool_decide_false by tauto].
  rewrite (bool_decide_true (d = d)) by done. destruct (decide (a' = a)) as [->|].
  - rewrite bool_decide_true, lookup_insert_eq, Hm by done. simpl. by destruct (counted t).
  - rewrite bool_decide_false, lookup_insert_ne by (done || tauto). by rewrite option_union_right_id.
Qed.

(** What an import brings. *)
Definition brought (new : ImportedDays) (today : NaiveDate) (d : NaiveDate) (a : LedgerAccount) :
    option DayTally :=
  if (d <? today)%Z then tallies ← new !! d; t ← (tallies : Tallies) !! a; counted t else None.

Lemma import_fold_spec new today b :
  adds (brought new today) b
    (map_fold (λ d tallies state,
      if (d <? today)%Z then map_fold (TurnBook.import_one d) state tallies else state) (b, O) new).1.
Proof.
  set (step := λ d tallies state, _).
  apply (map_fold_weak_ind (λ r m, adds (brought m today) b r.1)); simpl.
  - apply adds_nothing. intros d a. unfold brought. by destruct (d <? today)%Z.
  - intros d tallies m [b1 n1] Hm IH. unfold step. destruct (d <? today)%Z eqn:Hd.
    + eapply adds_ext; [eapply adds_trans; [exact IH|apply import_day_spec]|]. intros d' a.
      unfold brought. case_bool_decide as Hdd; [subst|].
      * rewrite Hd, Hm, lookup_insert_eq. simpl. by destruct (tallies !! a ≫= counted).
      * rewrite lookup_insert_ne by done. by rewrite option_union_right_id.
    + eapply adds_ext; [exact IH|]. intros d' a. unfold brought.
      destruct (decide (d' = d)) as [->|]; [by rewrite Hd|by rewrite lookup_insert_ne].
Qed.

Lemma bump_some b b' : bump b = Some b' →
  same_rest b b' ∧ days b' = days b ∧ revision b' = revision b + 1.
Proof.
  unfold bump, add_u64. destruct (_ <? _); [|done]. by intros [= <-].
Qed.

(** An import that returns. *)
Lemma import_days_some new today record b b' n :
  TurnBook.import_days new today record b = Some (b', n) →
  import_record b' = Some record ∧ revision b' = revision b + 1 ∧
  ∃ b0, adds (brought new today) b b0 ∧ same_rest (set_import (Some record) b0) b' ∧ days b' = days b0.
Proof.
  unfold TurnBook.import_days. pose proof (import_fold_spec new today b) as Hadds.
  destruct (map_fold _ _ new) as [b0 booked]. simpl in Hadds.
  destruct (bump _) as [b1|] eqn:Hb; [|done]. intros [= <- <-].
  apply bump_some in Hb as (Hrest & Hdays & Hrev). split_and!.
  - by rewrite (sr_import _ _ Hrest).
  - by rewrite Hrev, <- (ad_revision _ _ _ Hadds).
  - by exists b0.
Qed.

Lemma import_days_runs new today record b :
  revision b + 1 < 2 ^ 64 → is_Some (TurnBook.import_days new today record b).
Proof.
  intros Hrev. unfold TurnBook.import_days. pose proof (import_fold_spec new today b) as Hadds.
  destruct (map_fold _ _ new) as [b0 booked]. simpl in Hadds. unfold bump.
  rewrite add_u64_some; [by eexists|]. simpl. by rewrite (ad_revision _ _ _ Hadds).
Qed.

Lemma adds_ok src b b' : adds src b b' → book_ok b → book_ok b'.
Proof.
  intros [Ho Hw Hc _ _ _ Hd] [Hdays Hso Ht Hsw Hsc Hb]. split; rewrite ?Ho, ?Hw, ?Hc; auto.
Qed.

Lemma same_rest_ok b b' : same_rest b b' → days b' = days b → book_ok b → book_ok b'.
Proof.
  intros [Ho Hw Hc Hi Hr] Hd [[Hne Him] Hso Ht Hsw Hsc Hb].
  split; rewrite ?Ho, ?Hw, ?Hc; auto. split; rewrite ?Hd; [done|].
  intros d a. unfold TurnBook.is_imported, tallies_of. rewrite Hi, Hd. apply Him.
Qed.

(** ** Passes over transcripts *)

(** What the entries of a day add. *)
Definition with_tokens (d : NaiveDate) (es : list TokenEntry) (t : DayTally) : DayTally :=
  foldl (λ t e, if bool_decide (te_day e = d)
    then mkTally (turns t) (active_ms t) (tokens_in t + input e) (tokens_out t + output e) else t) t es.

(** The tokens of some entries. *)
Definition tokens_of (es : list TokenEntry) : N := foldr (λ e n, input e + output e + n) 0 es.

Lemma tokens_of_app l k : tokens_of (l ++ k) = tokens_of l + tokens_of k.
Proof. induction l as [|e l IH]; simpl; [done|]. rewrite IH. lia. Qed.

Lemma with_tokens_snoc d es e t :
  with_tokens d (es ++ [e]) t =
  let t := with_tokens d es t in
  if bool_decide (te_day e = d)
  then mkTally (turns t) (active_ms t) (tokens_in t + input e) (tokens_out t + output e) else t.
Proof. unfold with_tokens. by rewrite foldl_app. Qed.

Lemma with_tokens_le d es t :
  turns (with_tokens d es t) = turns t ∧ active_ms (with_tokens d es t) = active_ms t ∧
  tokens_in (with_tokens d es t) ≤ tokens_in t + tokens_of es ∧
  tokens_out (with_tokens d es t) ≤ tokens_out t + tokens_of es.
Proof.
  induction es as [|e es IH] using rev_ind; [simpl; lia|].
  rewrite with_tokens_snoc, tokens_of_app. simpl. case_bool_decide; simpl; lia.
Qed.

Lemma book_entries_spec account es b n :
  room (tokens_of es + N.of_nat (length es) + n) b →
  runs (for_each es (λ e b, TurnBook.book (te_day e) account (add_tokens e) b) b) (λ b',
    books account (λ d, with_tokens d es) (tokens_of es + N.of_nat (length es)) b b' ∧ room n b').
Proof.
  intros Hroom.
  assert (Hlater : ∀ dn b' m, books account (λ d, with_tokens d dn) (tokens_of dn + N.of_nat (length dn)) b b' →
    room (tokens_of dn + N.of_nat (length dn) + m) b → room m b').
  { intros dn b' m Hb Hr. eapply room_books; [exact Hr|exact Hb|]. intros d t.
    pose proof (with_tokens_le d dn t). lia. }
  apply (runs_for_each _ _ (λ dn, books account (λ d, with_tokens d dn)
    (tokens_of dn + N.of_nat (length dn)) b)).
  - by apply books_nothing.
  - intros dn e rest b1 -> Hb. rewrite tokens_of_app, length_app in Hroom. simpl in Hroom.
    assert (room (input e + output e + 1) b1) as Hroom1.
    { eapply Hlater; [done|]. eapply room_mono; [|done]. lia. }
    eapply runs_mono.
    { apply (book_spec _ _ _ (λ t, mkTally (turns t) (active_ms t) (tokens_in t + input e) (tokens_out t + output e))).
      - destruct Hroom1. lia.
      - unfold add_tokens. destruct Hroom1 as [_ _ _ Hi Ho].
        specialize (Hi (te_day e) account). specialize (Ho (te_day e) account).
        rewrite add_u64_some by lia. simpl. by rewrite add_u64_some by lia. }
    intros b2 Hb2. eapply books_ext; [by eapply books_trans| |].
    + intros d t. rewrite with_tokens_snoc. simpl. repeat case_bool_decide; done.
    + rewrite tokens_of_app, length_app. simpl. lia.
  - intros b' Hb'. split; [done|by eapply Hlater].
Qed.

(** *** The cursors *)

Lemma length_insert_le {V} (m : BTreeMap.t V) k v : (length (BTreeMap.insert m k v) ≤ S (length m))%nat.
Proof.
  induction m as [|[k' v'] m IH]; cbn [BTreeMap.insert]; [done|].
  destruct (str_cmp k k'); cbn [length]; lia.
Qed.

Lemma length_insert_held {V} (m : BTreeMap.t V) k v :
  sorted m → is_Some (BTreeMap.get m k) → length (BTreeMap.insert m k v) = length m.
Proof.
  intros Hs [v' Hget]. assert (length (BTreeMap.keys (BTreeMap.insert m k v)) = length (BTreeMap.keys m)) as Hl.
  { rewrite keys_insert_existing; [done|done|]. by eapply get_some_key. }
  unfold BTreeMap.keys in Hl. by rewrite !length_fmap in Hl.
Qed.

Lemma length_retain_le {V} pred (m : BTreeMap.t V) : (length (BTreeMap.retain pred m) ≤ length m)%nat.
Proof.
  induction m as [|[k v] m IH]; cbn [BTreeMap.retain]; [done|]. destruct (pred k v); cbn [length]; lia.
Qed.

Lemma length_remove_lt {V} (m : BTreeMap.t V) k v :
  (k, v) ∈ m → (length (BTreeMap.remove m k) < length m)%nat.
Proof.
  unfold BTreeMap.remove. induction m as [|[k' v'] m IH]; [by intros ?%elem_of_nil|].
  cbn [BTreeMap.retain]. intros [[= <- <-]|Hin]%elem_of_cons.
  - rewrite bool_decide_false by tauto. apply Nat.lt_succ_r, length_retain_le.
  - specialize (IH Hin). case_bool_decide; cbn [length]; lia.
Qed.

Lemma min_by_none {A} (lt : A → A → bool) l : min_by lt l = None → l = [].
Proof. destruct l; [done|]. cbn. destruct (min_by lt l); [|done]. by destruct (lt _ _). Qed.

Lemma trim_cursors_spec fuel c : sorted c → (length c ≤ fuel)%nat →
  let c' := TurnBook.trim_cursors fuel c in
  sorted c' ∧ (length c' ≤ MAX_CURSORS)%nat ∧
  (∀ path, BTreeMap.get c' path = None ∨ BTreeMap.get c' path = BTreeMap.get c path) ∧
  ((length c ≤ MAX_CURSORS)%nat → c' = c).
Proof.
  revert c. induction fuel as [|fuel IH]; intros c Hs Hle; cbn [TurnBook.trim_cursors].
  { destruct c; [|cbn in Hle; lia]. split_and!; auto. cbn. lia. }
  destruct (Nat.ltb_spec MAX_CURSORS (length c)); [|split_and!; auto].
  destruct (min_by _ _) as [[oldest cur]|] eqn:Hmin.
  - apply min_by_elem, length_remove_lt in Hmin.
    destruct (IH (BTreeMap.remove c oldest)) as (Hs' & Hl & Hget & _); [by apply sorted_retain|lia|].
    split_and!; [done..| |lia]. intros path. destruct (Hget path) as [|Hp]; [by left|].
    rewrite get_remove in Hp by done. case_bool_decide; auto.
  - apply min_by_none in Hmin as ->. cbn in *. lia.
Qed.

(** *** Passes *)

(** The cursors after a pass that moved its own. *)
Definition moved (pass : TokenPass) (c : BTreeMap.t TokenCursor) : BTreeMap.t TokenCursor :=
  let c := BTreeMap.map_values (TurnBook.forget_seen (seen_day (cursor pass)))
             (BTreeMap.insert c (pass_path pass) (cursor pass)) in
  TurnBook.trim_cursors (length c) c.

Lemma moved_spec pass c : sorted c → (length c ≤ MAX_CURSORS)%nat →
  sorted (moved pass c) ∧ (length (moved pass c) ≤ MAX_CURSORS)%nat ∧
  (BTreeMap.get (moved pass c) (pass_path pass) = None ∨
   BTreeMap.get (moved pass c) (pass_path pass) = Some (cursor pass)) ∧
  ((length c < MAX_CURSORS)%nat ∨ is_Some (BTreeMap.get c (pass_path pass)) →
   BTreeMap.get (moved pass c) (pass_path pass) = Some (cursor pass)).
Proof.
  intros Hs Hle. unfold moved.
  set (c1 := BTreeMap.map_values _ _).
  assert (BTreeMap.get c1 (pass_path pass) = Some (cursor pass)) as Hget.
  { unfold c1. rewrite get_map_values, get_insert. cbn. f_equal. unfold TurnBook.forget_seen.
    by rewrite bool_decide_true. }
  assert (length c1 = length (BTreeMap.insert c (pass_path pass) (cursor pass))) as Hlen
    by apply length_fmap.
  destruct (trim_cursors_spec (length c1) c1) as (Hs' & Hl & Hsub & Hid);
    [by apply sorted_map_values, sorted_insert|done|].
  split_and!; [done..| |].
  - destruct (Hsub (pass_path pass)) as [|Hp]; [by left|right]. by rewrite Hp.
  - intros Hroom. rewrite Hid; [done|]. rewrite Hlen. destruct Hroom as [Hlt|Hheld].
    + pose proof (length_insert_le c (pass_path pass) (cursor pass)). lia.
    + by rewrite length_insert_held.
Qed.

Lemma record_tokens_refused account pass b :
  TurnBook.token_cursor b (pass_path pass) ≠ start pass →
  TurnBook.record_tokens account pass b = Some (false, b).
Proof. intros Hne. unfold TurnBook.record_tokens. by rewrite bool_decide_true. Qed.

Lemma record_tokens_spec account pass b n :
  book_ok b → TurnBook.token_cursor b (pass_path pass) = start pass →
  room (tokens_of (entries pass) + N.of_nat (length (entries pass)) + 1 + n) b →
  runs (TurnBook.record_tokens account pass b) (λ '(changed, b'),
    book_ok b' ∧ room n b' ∧
    changed = bool_decide (cursor pass ≠ start pass ∨ entries pass ≠ []) ∧
    open b' = open b ∧ watermarks b' = watermarks b ∧ imported b' = imported b ∧
    import_record b' = import_record b ∧
    cursors b' = (if bool_decide (cursor pass = start pass) then cursors b else moved pass (cursors b)) ∧
    ∀ d a, TurnBook.tally b' d a =
      if bool_decide (a = account) && negb (TurnBook.is_imported b d a)
      then with_tokens d (entries pass) (TurnBook.tally b d a) else TurnBook.tally b d a).
Proof.
  intros Hok Hstart Hroom. unfold TurnBook.record_tokens. rewrite bool_decide_false by tauto.
  eapply runs_bind.
  { apply (book_entries_spec _ _ _ (1 + n)). eapply room_mono; [|done]. lia. }
  intros b1 [Hb1 Hroom1]. pose proof (books_ok _ _ _ _ _ Hb1 Hok) as Hok1.
  destruct (bk_rest _ _ _ _ _ Hb1) as [Ho Hw Hc Hi Hr].
  assert (Htally : ∀ d a, TurnBook.tally b1 d a =
    if bool_decide (a = account) && negb (TurnBook.is_imported b d a)
    then with_tokens d (entries pass) (TurnBook.tally b d a) else TurnBook.tally b d a).
  { intros d a. rewrite (bk_tally _ _ _ _ _ Hb1). by destruct (bool_decide_reflect (a = account)) as [->|]. }
  destruct (bool_decide_reflect (cursor pass = start pass)) as [Heq|Hne]; cbn [runs].
  - split_and!; try done; [by eapply room_mono; [|done]; lia|]. apply bool_decide_ext. tauto.
  - eapply runs_bind; [apply bump_spec; destruct Hroom1; cbn; lia|].
    intros b2 (Hrest & Hdays & Hrev). cbn [runs]. destruct Hrest as [Ho2 Hw2 Hc2 Hi2 Hr2]. cbn in *.
    destruct (moved_spec pass (cursors b1)) as (Hs & Hl & _); [apply Hok1..|].
    fold (moved pass (cursors b1)) in Hc2.
    split_and!; try congruence.
    + destruct Hok1 as [[Hdn Him] Hso Ht Hsw Hsc Hb]. split; rewrite ?Ho2, ?Hw2, ?Hc2; try done.
      split; rewrite ?Hdays; [done|]. intros d a. unfold TurnBook.is_imported, tallies_of.
      rewrite Hi2, Hdays. apply Him.
    + destruct Hroom1 as [H1 H2 H3 H4 H5]. split; [lia|..]; intros d a;
        rewrite (tally_days b1 b2) by done;
        [specialize (H2 d a)|specialize (H3 d a)|specialize (H4 d a)|specialize (H5 d a)]; lia.
    + by rewrite bool_decide_true by tauto.
    + intros d a. rewrite (tally_days b1 b2) by done. apply Htally.
Qed.

(** A pass that moved its cursor is refused when it comes again. *)
Lemma record_tokens_once account account' pass b b' changed :
  book_ok b → TurnBook.token_cursor b (pass_path pass) = start pass →
  room (tokens_of (entries pass) + N.of_nat (length (entries pass)) + 1) b →
  cursor pass ≠ start pass →
  ((length (cursors b) < MAX_CURSORS)%nat ∨ is_Some (BTreeMap.get (cursors b) (pass_path pass))
   ∨ start pass ≠ TokenCursor_default) →
  TurnBook.record_tokens account pass b = Some (changed, b') →
  TurnBook.record_tokens account' pass b' = Some (false, b').
Proof.
  intros Hok Hstart Hroom Hne Hkept Hrec.
  pose proof (record_tokens_spec account pass b 0 Hok Hstart) as Hspec.
  rewrite Hrec, N.add_0_r in Hspec. destruct (Hspec Hroom) as (_ & _ & _ & _ & _ & _ & _ & Hc & _).
  apply record_tokens_refused. unfold TurnBook.token_cursor.
  rewrite Hc, bool_decide_false by done.
  destruct (moved_spec pass (cursors b)) as (_ & _ & Hor & Hin); [apply Hok..|].
  destruct Hkept as [?|[?|Hd]]; [rewrite Hin by tauto; done..|].
  destruct Hor as [->| ->]; [by apply not_eq_sym|done].
Qed.

(** ** The file *)

Lemma elem_all_accounts (ds : gmap NaiveDate Tallies) d (t : Tallies) a :
  ds !! d = Some t → is_Some (t !! a) → a ∈ all_accounts ds.
Proof.
  intros Hd Ha. unfold all_accounts, accounts_in_order. rewrite merge_sort_Permutation.
  apply elem_of_elements, elem_of_union_list. exists (dom t). split; [|by apply elem_of_dom].
  apply list_elem_of_fmap. exists t. split; [done|]. apply list_elem_of_fmap.
  exists (d, t). split; [done|]. by apply elem_of_map_to_list.
Qed.

Lemma binary_search_found accounts a :
  a ∈ accounts → ∃ i, binary_search accounts a = Some i ∧ accounts !! i = Some a.
Proof.
  intros Hin. unfold binary_search.
  destruct (list_find (λ x, x = a) accounts) as [[i x]|] eqn:Hfind.
  - apply list_find_Some in Hfind as (Hi & -> & _). by exists i.
  - apply list_find_None in Hfind. rewrite Forall_forall in Hfind. by destruct (Hfind a Hin).
Qed.

(** The entries of a day are its tallies. *)
Lemma restore_day_entries accounts (l : list (LedgerAccount * DayTally)) (z : Tallies) :
  (∀ p, p ∈ l → p.1 ∈ accounts) →
  foldl (λ t e, match accounts !! de_account e with
                | Some account => <[account := de_tally e]> t | None => t end) z
    (omap (λ '(account, t), (λ i, mkDayEntry i t) <$> binary_search accounts account) l)
  = foldl (λ (t : Tallies) p, <[p.1 := p.2]> t) z l.
Proof.
  revert z. induction l as [|[a t] l IH]; intros z Hin; [done|].
  destruct (binary_search_found accounts a) as (i & Hi & Hl); [apply (Hin (a, t)); by left|].
  cbn [omap list_omap]. rewrite Hi. cbn. rewrite Hl. apply IH. intros p Hp. apply Hin. by right.
Qed.

Lemma restore_day_spec accounts (t : Tallies) :
  (∀ a, is_Some (t !! a) → a ∈ accounts) →
  restore_day accounts (omap (λ '(account, t),
    (λ i, mkDayEntry i t) <$> binary_search accounts account) (tallies_in_order t)) = t.
Proof.
  intros Hin. unfold restore_day.
  assert (tallies_in_order t ≡ₚ map_to_list t) as Hperm by apply merge_sort_Permutation.
  rewrite restore_day_entries.
  2: { intros [a x] Hp. rewrite Hperm in Hp. apply elem_of_map_to_list in Hp. apply Hin. by eexists. }
  assert (NoDup (tallies_in_order t).*1) as Hnd by (rewrite Hperm; apply NoDup_fst_map_to_list).
  assert (foldl (λ (t : Tallies) p, <[p.1 := p.2]> t) ∅ (tallies_in_order t)
          = list_to_map (reverse (tallies_in_order t))) as ->.
  { clear Hnd Hperm. induction (tallies_in_order t) as [|p l IH] using rev_ind; [done|].
    rewrite foldl_app, reverse_snoc. cbn. by rewrite IH. }
  rewrite <- (list_to_map_to_list t) at 2. apply list_to_map_proper.
  - rewrite fmap_reverse, reverse_Permutation. done.
  - by rewrite reverse_Permutation.
Qed.

(** The indices of a day's imported accounts are those accounts. *)
Lemma restore_imported accounts (held : gset LedgerAccount) :
  (∀ a, a ∈ held → a ∈ accounts) →
  list_to_set (omap (λ i, accounts !! i) (omap (binary_search accounts) (accounts_in_order held))) = held.
Proof.
  intros Hin. apply set_eq. intros a. rewrite elem_of_list_to_set, list_elem_of_omap.
  assert (Hperm : accounts_in_order held ≡ₚ elements held) by apply merge_sort_Permutation.
  split.
  - intros (i & Hi & Ha). apply list_elem_of_omap in Hi as (a' & Ha' & Hi).
    rewrite Hperm, elem_of_elements in Ha'. destruct (binary_search_found accounts a') as (j & Hj & Hl); [auto|].
    congruence.
  - intros Ha. destruct (binary_search_found accounts a) as (i & Hi & Hl); [auto|].
    exists i. split; [|done]. apply list_elem_of_omap. exists a. split; [|done].
    by rewrite Hperm, elem_of_elements.
Qed.

(** A turn as it is read back: its working time ends with its last event. *)
Definition resumed (t : OpenTurn) : OpenTurn := OpenTurn.close_working (last_event_ms t) t.

Lemma restore_to_file b :
  book_ok b →
  restore (to_file b) =
    mkBook (days b) (BTreeMap.map_values resumed (open b)) (watermarks b) (cursors b)
      (imported b) (import_record b) 0.
Proof.
  intros [[Hne Him] _ _ _ _ _]. unfold restore, to_file.
  cbn [f_accounts f_days f_open_turns f_watermarks f_cursors f_imported f_import]. f_equal.
  - apply map_eq. intros d. destruct (days b !! d) as [t|] eqn:Hd.
    + apply map_lookup_filter_Some. rewrite !lookup_fmap, Hd. cbn. split; [|by eapply Hne]. f_equal.
      apply restore_day_spec. intros a Ha. by eapply elem_all_accounts.
    + apply map_lookup_filter_None. left. by rewrite !lookup_fmap, Hd.
  - apply map_eq. intros d. rewrite !lookup_fmap. destruct (imported b !! d) as [held|] eqn:Hd; [|done].
    cbn. f_equal. apply restore_imported. intros a Ha.
    assert (TurnBook.is_imported b d a = true) as Hi.
    { unfold TurnBook.is_imported. rewrite Hd. by apply bool_decide_true. }
    specialize (Him _ _ Hi). unfold tallies_of in Him. destruct (days b !! d) as [t|] eqn:Hdt; cbn in Him.
    + by eapply elem_all_accounts.
    + rewrite lookup_empty in Him. by destruct Him.
Qed.

Lemma resumed_ok t : turn_ok t → turn_ok (resumed t).
Proof. intros Ht. apply close_working_ok; [apply Ht|done]. Qed.

Lemma restore_ok b : book_ok b → book_ok (restore (to_file b)).
Proof.
  intros Hok. rewrite restore_to_file by done. destruct Hok as [[Hne Him] Ho Ht Hw Hc Hb].
  split; cbn; try done; [by apply sorted_map_values|].
  intros s t. rewrite get_map_values. destruct (BTreeMap.get (open b) s) as [t0|] eqn:Hs; [|done].
  intros [= <-]. by eapply resumed_ok, Ht.
Qed.

(** Pruning keeps the days that are not too old. *)
Lemma prune_tally `{TimeZone} today b d a :
  TurnBook.tally (TurnBook.prune today b) d a =
  if bool_decide (date_MIN ≤ today - RETAINED_DAYS ∧ d ≤ today - RETAINED_DAYS)%Z then DayTally_default
  else TurnBook.tally b d a.
Proof.
  unfold TurnBook.prune. destruct (Z.ltb_spec (today - RETAINED_DAYS) date_MIN).
  { by rewrite bool_decide_false by lia. }
  unfold TurnBook.tally, tallies_of. cbn. rewrite map_lookup_filter.
  destruct (bool_decide_reflect (date_MIN ≤ today - RETAINED_DAYS ∧ d ≤ today - RETAINED_DAYS)%Z);
    destruct (days b !! d) as [t|]; cbn; try done.
  - destruct (decide_rel _ _ _); done || lia.
  - destruct (decide_rel _ _ _); done || lia.
Qed.

Lemma prune_ok `{TimeZone} today b : book_ok b → book_ok (TurnBook.prune today b).
Proof.
  unfold TurnBook.prune. destruct (_ <? _)%Z; [done|]. intros [[Hne Him] Ho Ht Hw Hc Hb].
  split; cbn; try done. split; cbn.
  - intros d t [Hd _]%map_lookup_filter_Some. by eapply Hne.
  - intros d a. unfold TurnBook.is_imported, tallies_of. cbn. rewrite !map_lookup_filter.
    specialize (Him d a). unfold TurnBook.is_imported, tallies_of in Him.
    destruct (imported b !! d) as [held|]; cbn in Him |- *; [|done].
    destruct (days b !! d) as [t|]; cbn; repeat case_guard; try done;
      cbn; by intros Hin%bool_decide_eq_true%not_elem_of_empty.
Qed.

(** A book that was written and is read again. *)
Lemma restored_book `{TimeZone} b now_ms :
  book_ok b →
  let b' := TurnBook.prune (zone_day now_ms) (restore (to_file b)) in
  book_ok b' ∧
  open b' = BTreeMap.map_values resumed (open b) ∧
  watermarks b' = watermarks b ∧ cursors b' = cursors b ∧ import_record b' = import_record b ∧
  ∀ d a, (zone_day now_ms - RETAINED_DAYS < d)%Z →
    TurnBook.tally b' d a = TurnBook.tally b d a ∧
    TurnBook.is_imported b' d a = TurnBook.is_imported b d a.
Proof.
  intros Hok. pose proof (prune_ok (zone_day now_ms) _ (restore_ok b Hok)) as Hok'.
  split; [done|].
  rewrite restore_to_file by done.
  set (b0 := mkBook _ _ _ _ _ _ _).
  assert (∀ v, v = TurnBook.prune (zone_day now_ms) b0 →
    open v = open b0 ∧ watermarks v = watermarks b0 ∧ cursors v = cursors b0
    ∧ import_record v = import_record b0) as Hrest.
  { intros v ->. unfold TurnBook.prune. by destruct (_ <? _)%Z. }
  destruct (Hrest _ eq_refl) as (-> & -> & -> & ->). split_and!; [done..|].
  intros d a Hd. rewrite prune_tally, bool_decide_false by lia. split; [done|].
  unfold TurnBook.prune. destruct (_ <? _)%Z; [done|].
  unfold TurnBook.is_imported. cbn. rewrite map_lookup_filter.
  destruct (imported b !! d); cbn; [|done]. by case_guard.
Qed.

Section file.
Context `{E : LedgerEncoding, EL : !LedgerEncodingLaws E} `{TimeZone}.

(** The file as the file system shows it once [data] was written. *)
Definition holds (data : list N) : LedgerIo := mkLedgerIo (inl (true, N.of_nat (length data))) (inl data).

Lemma flush_writes now force written l l' data :
  Ledger.flush now force written l = (true, l', Some data) →
  to_vec (to_file (l_book l)) = Some data ∧ l_book l' = l_book l ∧ written_revision l' = revision (l_book l) ∧
  last_write l' = Some now.
Proof.
  unfold Ledger.flush. destruct (_ =? _); [done|]. destruct (_ && _); [done|].
  destruct (to_vec _) as [data'|]; [|done]. by destruct written; [intros [= <- <-]|].
Qed.

Lemma load_written b data now_ms :
  to_vec (to_file b) = Some data →
  Ledger.load (holds data) now_ms =
    (mkLedger (TurnBook.prune (zone_day now_ms)
       (if N.of_nat (length data) <=? MAX_LEDGER_BYTES then restore (to_file b) else TurnBook_default)) 0 None,
     negb (N.of_nat (length data) <=? MAX_LEDGER_BYTES)).
Proof.
  intros Hdata. unfold Ledger.load, Ledger.read_book, read_regular_capped, open_regular_for_reading. cbn [holds io_metadata io_data].
  destruct (N.leb_spec (N.of_nat (length data)) MAX_LEDGER_BYTES).
  - rewrite (proj2 (N.ltb_ge _ _)) by done. by rewrite (file_from_to_vec _ _ Hdata).
  - by rewrite (proj2 (N.ltb_lt _ _)).
Qed.

(** The book that is read when the file cannot be used is empty. *)
Lemma load_unreadable io now_ms :
  (∀ data, read_regular_capped io MAX_LEDGER_BYTES = inl data → file_from_slice data = None) →
  l_book (Ledger.load io now_ms).1 = TurnBook_default ∧
  ((Ledger.load io now_ms).2 = false ↔ io_metadata io = inr IoNotFound ∨
     (∃ len, io_metadata io = inl (true, len) ∧ len <= MAX_LEDGER_BYTES ∧ io_data io = inr IoNotFound)).
Proof.
  intros Hno. assert (∀ d, TurnBook.prune d TurnBook_default = TurnBook_default) as Hprune.
  { intros d. unfold TurnBook.prune. destruct (_ <? _)%Z; [done|]. unfold set_imported, set_days. cbn.
    by rewrite !map_filter_empty. }
  unfold Ledger.load, Ledger.read_book. unfold read_regular_capped, open_regular_for_reading in *.
  destruct (io_metadata io) as [[[] len]|[]]; cbn; rewrite ?Hprune; try (split; [done|naive_solver]).
  destruct (N.ltb_spec MAX_LEDGER_BYTES len); cbn; rewrite ?Hprune; [split; [done|naive_solver lia]|].
  destruct (io_data io) as [data|[]]; cbn; rewrite ?Hprune; try (split; [done|naive_solver]).
  destruct (_ <? _) eqn:Hlen; cbn; [rewrite Hprune; split; [done|naive_solver]|].
  rewrite (Hno data eq_refl). cbn. rewrite Hprune. split; [done|naive_solver].
Qed.
End file.

(** ** Every run *)

(** What is imported stays imported, with its tally. *)
Definition keeps (b b' : TurnBook) : Prop :=
  ∀ d a, TurnBook.is_imported b d a = true →
    TurnBook.is_imported b' d a = true ∧ tallies_of b' d !! a = tallies_of b d !! a.

#[export] Instance keeps_preorder : PreOrder keeps.
Proof.
  split; [done|]. intros b1 b2 b3 H1 H2 d a [Hi <-]%H1. by apply H2.
Qed.

Lemma keeps_same b b' : days b' = days b → imported b' = imported b → keeps b b'.
Proof. unfold keeps, TurnBook.is_imported, tallies_of. by intros -> ->. Qed.

(** What every booking does, whatever it counts. *)
Record booked (b b' : TurnBook) : Prop := {
  bd_rest : same_rest b b';
  bd_days : days_ok b → days_ok b';
  bd_keeps : keeps b b' }.

#[export] Instance booked_preorder : PreOrder booked.
Proof.
  split; [by split|]. intros b1 b2 b3 [] []. split; [by etrans|by auto|by etrans].
Qed.

(** What every operation does. *)
Record sound (b b' : TurnBook) : Prop := {
  sd_ok : book_ok b → book_ok b';
  sd_keeps : keeps b b' }.

#[export] Instance sound_preorder : PreOrder sound.
Proof. split; [by split|]. intros b1 b2 b3 [] []. split; [by auto|by etrans]. Qed.

Lemma booked_sound b b' : booked b b' → sound b b'.
Proof.
  intros [[Ho Hw Hc Hi Hr] Hd Hk]. split; [|done]. intros [Hdays Hso Ht Hsw Hsc Hb].
  split; rewrite ?Ho, ?Hw, ?Hc; auto.
Qed.

Lemma bump_booked b b' : bump b = Some b' → booked b b'.
Proof.
  intros (Hrest & Hdays & _)%bump_some. split; [done| |].
  - intros [Hne Him]. split; [by rewrite Hdays|]. intros d a.
    rewrite (same_rest_imported _ _ _ _ Hrest). unfold tallies_of. rewrite Hdays. apply Him.
  - apply keeps_same; [done|apply (sr_imported _ _ Hrest)].
Qed.

Lemma book_booked d a change b b' : TurnBook.book d a change b = Some b' → booked b b'.
Proof.
  unfold TurnBook.book. destruct (TurnBook.is_imported b d a) eqn:Him; [by intros [= <-]|].
  destruct (change _) as [t|]; [|done]. cbn [mbind option_bind].
  intros Hb%bump_booked. etrans; [|exact Hb]. fold (write_tally d a t b).
  split; [done|apply days_ok_write|]. intros d' a' Ha'. split; [exact Ha'|]. rewrite tallies_of_write.
  case_bool_decide; [subst|done]. rewrite lookup_insert_ne; [done|]. intros ->. congruence.
Qed.

Section relate.
Context (R : relation TurnBook) `{!PreOrder R}.

Lemma for_each_rel {A} (l : list A) body b b' :
  (∀ x b b', body x b = Some b' → R b b') → for_each l body b = Some b' → R b b'.
Proof.
  intros Hbody. revert b. induction l as [|x l IH]; intros b; cbn; [by intros [= <-]|].
  destruct (body x b) as [b1|] eqn:Hx; [|done]. intros Hl. etrans; [by eapply Hbody|by apply IH].
Qed.

Lemma loop_rel {S T} (proj : S → TurnBook) (result : T → TurnBook) n step (st : S) r :
  (∀ st r, step st = Some r → R (proj st) (match r with inl st' => proj st' | inr b => result b end)) →
  loop n step st = Some r → R (proj st) (match r with inl st' => proj st' | inr b => result b end).
Proof.
  intros Hstep. revert st r. induction n as [|n IH]; intros st r; cbn [loop]; [apply Hstep|].
  destruct (loop n step st) as [[st'|b]|] eqn:Hl; [| |done]; cbn [mbind option_bind].
  - intros Hl'. etrans; [by apply (IH _ _ Hl)|by apply IH].
  - intros [= <-]. by apply (IH _ _ Hl).
Qed.
End relate.

Lemma sound_same b b' : days b' = days b → imported b' = imported b →
  (book_ok b → book_ok b') → sound b b'.
Proof. intros. split; [done|by apply keeps_same]. Qed.

Lemma record_tokens_sound account pass b changed b' :
  TurnBook.record_tokens account pass b = Some (changed, b') → sound b b'.
Proof.
  unfold TurnBook.record_tokens. case_bool_decide; [by intros [= _ <-]|].
  destruct (for_each _ _ _) as [b1|] eqn:Hf; [|done]. cbn [mbind option_bind].
  assert (sound b b1) as Hk.
  { apply booked_sound. eapply (for_each_rel booked); [|exact Hf].
    intros e c c' Hc. by apply book_booked in Hc. }
  case_bool_decide; [by intros [= _ <-]|]. fold (moved pass (cursors b1)).
  destruct (bump _) as [b2|] eqn:Hb; [|done]. cbn. intros [= _ <-].
  etrans; [exact Hk|]. apply bump_booked, booked_sound in Hb. etrans; [|exact Hb].
  apply sound_same; [done..|]. intros [[Hne Him] Hso Ht Hsw Hsc Hl].
  destruct (moved_spec pass (cursors b1)) as (? & ? & _); [done..|]. by split.
Qed.

Lemma import_days_sound new today record b b' n :
  book_ok b → TurnBook.import_days new today record b = Some (b', n) → sound b b'.
Proof.
  intros Hok (_ & _ & b0 & Hadds & Hrest & Hdays)%import_days_some. split.
  - intros _. eapply (same_rest_ok (set_import (Some record) b0)); [done..|].
    pose proof (adds_ok _ _ _ Hadds Hok) as [[? ?] ? ? ? ? ?]. by split.
  - intros d a Hi. rewrite (same_rest_imported _ _ d a Hrest).
    change (TurnBook.is_imported (set_import _ b0) d a) with (TurnBook.is_imported b0 d a).
    assert (tallies_of b' d = tallies_of b0 d) as -> by (unfold tallies_of; by rewrite Hdays).
    rewrite (ad_imported _ _ _ Hadds), Hi, (ad_tally _ _ _ Hadds). split; [done|].
    destruct (do_imported _ (bo_days _ Hok) d a Hi) as [t ->]. by destruct (brought new today d a).
Qed.

Section sound.
Context {C : Calendar}.

Lemma book_span_booked account start stop b b' :
  TurnBook.book_span account start stop b = Some b' → booked b b'.
Proof.
  unfold TurnBook.book_span, run_loop.
  destruct (loop _ _ _) as [[st|b1]|] eqn:Hl; cbn [mbind option_bind]; [done| |done].
  intros [= <-].
  apply (loop_rel booked snd id) in Hl; [done|]. intros [at_ b2] r. unfold TurnBook.span_step.
  destruct (at_ <? stop); [|by intros [= <-]]. destruct (assert _); [|done]. cbn [mbind option_bind].
  destruct (TurnBook.book _ _ _ _) as [b3|] eqn:Hb; [|done]. intros [= <-]. by eapply book_booked.
Qed.

Lemma finish_sound session end_ms b b' : TurnBook.finish session end_ms b = Some b' → sound b b'.
Proof.
  unfold TurnBook.finish. destruct (BTreeMap.get _ _) as [t|]; [|by intros [= <-]]. cbv zeta.
  set (b0 := set_open _ b). assert (sound b b0) as H0.
  { apply sound_same; [done..|]. intros Hok. apply book_ok_set_open; [done|apply sorted_retain, Hok|].
  intros s' t'. rewrite get_remove by apply Hok. case_bool_decide; [done|]. by apply bo_turns. }
  destruct (for_each _ _ b0) as [b1|] eqn:Hf; [|done]. intros Hb%bump_booked.
  etrans; [exact H0|]. apply booked_sound. etrans; [|exact Hb].
  eapply (for_each_rel booked); [|exact Hf]. intros [start stop] b2 b3 Hs. by eapply book_span_booked.
Qed.

Lemma open_or_start_sound signal f b b' :
  ts_at_ms signal ≤ MAX_AT → (∀ t, turn_ok t → turn_ok (f t)) →
  TurnBook.open_or_start signal f b = Some b' → sound b b'.
Proof.
  intros Hat Hf. unfold TurnBook.open_or_start.
  assert (∀ b1 : TurnBook, sound b1 (set_open (BTreeMap.insert (open b1) (ts_session signal)
  (f (default (TurnBook.new_turn signal) (BTreeMap.get (open b1) (ts_session signal))))) b1)) as Hset.
  { intros b1. apply sound_same; [done..|]. intros Hok.
  apply book_ok_set_open; [done|apply sorted_insert, Hok|]. intros s t.
  destruct (decide (s = ts_session signal)) as [->|].
  - rewrite get_insert. intros [= <-]. apply Hf.
  destruct (BTreeMap.get _ _) eqn:Hget; [by eapply bo_turns|by apply new_turn_ok].
  - rewrite get_insert_ne by done. by apply bo_turns. }
  destruct (BTreeMap.contains_key _ _); cbn [mbind option_bind].
  - intros [= <-]. apply Hset.
  - destruct (TurnBook.book _ _ _ _) as [b1|] eqn:Hb; [|done]. intros [= <-].
  etrans; [by eapply booked_sound, book_booked|]. apply Hset.
Qed.

Lemma set_watermarks_sound w b : (sorted (watermarks b) → sorted w) → sound b (set_watermarks w b).
Proof.
  intros Hw. apply sound_same; [done..|]. intros [[Hne Him] Ho Ht Hs Hc Hb]. split; auto. by split.
Qed.

Lemma apply_sound signal b b' :
  ts_at_ms signal ≤ MAX_AT → TurnBook.apply signal b = Some b' → sound b b'.
Proof.
  intros Hat. unfold TurnBook.apply. destruct (pass_watermark_spec signal b) as (w & -> & Hw & _).
  apply set_watermarks_sound in Hw.
  destruct (fresh signal b); [|intros [= <-]; done].
  destruct (TurnBook.apply_input _ _) as [b1|] eqn:Hin; [|done]. intros [= <-].
  destruct (trim_watermarks_spec (length (watermarks b1)) b1) as (w' & -> & Hw' & _).
  apply set_watermarks_sound in Hw'. etrans; [exact Hw|]. etrans; [|exact Hw'].
  revert Hin. unfold TurnBook.apply_input. destruct (ts_input signal); try apply finish_sound.
  - apply open_or_start_sound; [done|]. intros. by apply prompted_ok.
  - apply open_or_start_sound; [done|]. intros. by apply set_working_ok.
  - intros [= <-]. destruct (BTreeMap.get _ _) as [t|] eqn:Hget; [|done].
  apply sound_same; [done..|]. intros Hok. apply book_ok_set_open; [done|apply sorted_insert, Hok|].
  intros s t'. destruct (decide (s = ts_session signal)) as [->|].
  + rewrite get_insert. intros [= <-]. apply touch_ok; [done|]. apply close_working_ok; [done|].
  by apply (bo_turns _ Hok _ _ Hget).
  + rewrite get_insert_ne by done. apply (bo_turns _ Hok).
Qed.

Lemma expire_sound running in_turn now_ms b n b' :
  TurnBook.expire running in_turn now_ms b = Some (n, b') → sound b b'.
Proof.
  unfold TurnBook.expire. destruct (for_each _ _ _) as [b1|] eqn:Hf; [|done]. intros [= _ <-].
  eapply (for_each_rel sound); [|exact Hf]. intros [s e] b2 b3 Hs. by eapply finish_sound.
Qed.

(** *** Histories *)

Inductive event :=
| Signal (signal : TurnSignal)
| Sweep (running in_turn : list str) (now_ms : N)
| Pass (account : LedgerAccount) (pass : TokenPass)
| Import (new : ImportedDays) (today : NaiveDate) (record : ImportRecord).

Definition run_event (e : event) (b : TurnBook) : option TurnBook :=
  match e with
  | Signal signal => TurnBook.apply signal b
  | Sweep running in_turn now_ms => snd <$> TurnBook.expire running in_turn now_ms b
  | Pass account pass => snd <$> TurnBook.record_tokens account pass b
  | Import new today record => fst <$> TurnBook.import_days new today record b
  end.

(** The times of signals are [u64]. *)
Definition event_ok (e : event) : Prop :=
  match e with Signal signal => ts_at_ms signal ≤ MAX_AT | _ => True end.

Definition run_events (es : list event) (b : TurnBook) : option TurnBook := for_each es run_event b.

Lemma run_event_sound e b b' : event_ok e → book_ok b → run_event e b = Some b' → sound b b'.
Proof.
  intros He Hok. destruct e as [signal|running in_turn now_ms|account pass|new today record]; cbn.
  - by apply apply_sound.
  - destruct (TurnBook.expire _ _ _ _) as [[n b1]|] eqn:Hx; [|done]. intros [= <-]. by eapply expire_sound.
  - destruct (TurnBook.record_tokens _ _ _) as [[n b1]|] eqn:Hx; [|done]. intros [= <-].
  by eapply record_tokens_sound.
  - destruct (TurnBook.import_days _ _ _ _) as [[b1 n]|] eqn:Hx; [|done]. intros [= <-].
  by eapply import_days_sound.
Qed.

Lemma run_events_sound es b b' :
  Forall event_ok es → book_ok b → run_events es b = Some b' → book_ok b' ∧ keeps b b'.
Proof.
  intros Hes. revert b. induction Hes as [|e es He _ IH]; intros b Hok; cbn; [by intros [= <-]|].
  destruct (run_event e b) as [b1|] eqn:Hx; [|done]. intros Hrest.
  destruct (run_event_sound e b b1 He Hok Hx) as [Hok1 Hk1].
  destruct (IH b1 (Hok1 Hok) Hrest) as [? ?]. split; [done|by etrans].
Qed.

(** *** The signals of the open turn *)

(** The signals of a session since its turn was opened, with one more. *)
Definition trace_signal (signal : TurnSignal) (b : TurnBook) (tr : list TurnSignal) : list TurnSignal :=
  if fresh signal b then
    match ts_input signal with
    | Prompt | Working => tr ++ [signal]
    | Blocked => match tr with [] => [] | _ => tr ++ [signal] end
    | _ => []
    end
  else tr.

Definition trace_event (session : str) (e : event) (b b' : TurnBook) (tr : list TurnSignal) :
    list TurnSignal :=
  match e with
  | Signal signal => if bool_decide (ts_session signal = session) then trace_signal signal b tr else tr
  | Sweep _ _ _ => match BTreeMap.get (open b') session with Some _ => tr | None => [] end
  | _ => tr
  end.

(** [run_events], with the signals of a session's open turn. *)
Fixpoint run_traced (session : str) (es : list event) (tr : list TurnSignal) (b : TurnBook) :
    option (list TurnSignal * TurnBook) :=
  match es with
  | [] => Some (tr, b)
  | e :: es => b' ← run_event e b; run_traced session es (trace_event session e b b' tr) b'
  end.

Lemma get_remove_eq {V} (m : BTreeMap.t V) k : BTreeMap.get (BTreeMap.remove m k) k = None.
Proof.
  unfold BTreeMap.remove. induction m as [|[k' v] m IH]; [done|]. cbn [BTreeMap.retain].
  destruct (decide (k = k')) as [<-|Hne].
  - by rewrite (bool_decide_false (k ≠ k)) by tauto.
  - rewrite (bool_decide_true (k ≠ k')) by done. cbn [BTreeMap.get]. by rewrite bool_decide_false.
Qed.

Lemma finish_open session end_ms b b' s :
  TurnBook.finish session end_ms b = Some b' →
  BTreeMap.get (open b') s = if bool_decide (s = session) then None else BTreeMap.get (open b) s.
Proof.
  unfold TurnBook.finish. destruct (BTreeMap.get (open b) session) as [t|] eqn:Hget.
  2: { intros [= <-]. case_bool_decide; [by subst|done]. }
  cbv zeta. set (b0 := set_open _ b). destruct (for_each _ _ b0) as [b1|] eqn:Hf; [|done].
  intros Hb%bump_booked. assert (booked b0 b') as [[-> _ _ _ _] _ _].
  { etrans; [|exact Hb]. eapply (for_each_rel booked); [|exact Hf].
    intros [start stop] b2 b3 Hs. by eapply book_span_booked. }
  cbn. case_bool_decide as Hs; [subst; apply get_remove_eq|by apply get_remove_ne].
Qed.

Lemma open_or_start_open signal f b b' s :
  TurnBook.open_or_start signal f b = Some b' →
  BTreeMap.get (open b') s = if bool_decide (s = ts_session signal)
    then Some (f (default (TurnBook.new_turn signal) (BTreeMap.get (open b) s))) else BTreeMap.get (open b) s.
Proof.
  unfold TurnBook.open_or_start. intros Hrun.
  assert (∃ b1, booked b b1 ∧ b' = set_open (BTreeMap.insert (open b1) (ts_session signal)
    (f (default (TurnBook.new_turn signal) (BTreeMap.get (open b1) (ts_session signal))))) b1)
    as (b1 & [[Ho _ _ _ _] _ _] & ->).
  { destruct (BTreeMap.contains_key _ _); cbn [mbind option_bind] in Hrun.
    - injection Hrun as <-. by exists b.
    - destruct (TurnBook.book _ _ _ _) as [b1|] eqn:Hb; [|done]. injection Hrun as <-.
      exists b1. split; [by eapply book_booked|done]. }
  cbn. rewrite Ho. case_bool_decide as Hs; [subst; by rewrite get_insert|by rewrite get_insert_ne].
Qed.

(** The open turns after a signal. *)
Lemma apply_open signal b b' s :
  TurnBook.apply signal b = Some b' →
  BTreeMap.get (open b') s =
  if bool_decide (s = ts_session signal) && fresh signal b then
    match ts_input signal with
    | Prompt | Working =>
        Some (turn_step signal (default (TurnBook.new_turn signal) (BTreeMap.get (open b) s)))
    | Blocked => turn_step signal <$> BTreeMap.get (open b) s
    | _ => None
    end
  else BTreeMap.get (open b) s.
Proof.
  unfold TurnBook.apply. destruct (pass_watermark_spec signal b) as (w & -> & _).
  destruct (fresh signal b); [|intros [= <-]; by rewrite andb_false_r].
  destruct (TurnBook.apply_input _ _) as [b1|] eqn:Hin; [|done]. intros [= <-].
  destruct (trim_watermarks_spec (length (watermarks b1)) b1) as (w' & -> & _). cbn. rewrite andb_true_r.
  revert Hin. unfold TurnBook.apply_input, turn_step. destruct (ts_input signal).
  - intros ->%(open_or_start_open _ _ _ _ s). done.
  - intros ->%(finish_open _ _ _ _ s). done.
  - intros ->%(open_or_start_open _ _ _ _ s). done.
  - intros [= <-]. cbn. destruct (BTreeMap.get (open b) (ts_session signal)) as [t|] eqn:Hget.
    + cbn. case_bool_decide as Hs; [subst; by rewrite get_insert, Hget|by rewrite get_insert_ne].
    + case_bool_decide as Hs; [subst; cbn; by rewrite Hget|done].
  - intros ->%(finish_open _ _ _ _ s). done.
  - intros ->%(finish_open _ _ _ _ s). done.
  - intros ->%(finish_open _ _ _ _ s). done.
Qed.

Lemma quiet_open e b b' :
  match e with Pass _ _ | Import _ _ _ => True | _ => False end →
  run_event e b = Some b' → open b' = open b.
Proof.
  destruct e as [| |account pass|new today record]; intros He; try done; cbn.
  - unfold TurnBook.record_tokens. case_bool_decide; [by intros [= <-]|].
    destruct (for_each _ _ _) as [b1|] eqn:Hf; [|done]. cbn [mbind option_bind].
    assert (booked b b1) as [[Ho _ _ _ _] _ _].
    { eapply (for_each_rel booked); [|exact Hf]. intros e c c' Hc. by apply book_booked in Hc. }
    case_bool_decide; [by intros [= <-]|]. destruct (bump _) as [b2|] eqn:Hb; [|done].
    intros [= <-]. apply bump_some in Hb as ([Ho' _ _ _ _] & _). by rewrite Ho'.
  - destruct (TurnBook.import_days _ _ _ _) as [[b1 n]|] eqn:Hx; [|done]. intros [= <-].
    apply import_days_some in Hx as (_ & _ & b0 & Hadds & [Ho _ _ _ _] & _).
    rewrite Ho. cbn. apply (ad_open _ _ _ Hadds).
Qed.

Lemma sweep_open running in_turn now_ms b b' s :
  run_event (Sweep running in_turn now_ms) b = Some b' →
  BTreeMap.get (open b') s = BTreeMap.get (open b) s ∨ BTreeMap.get (open b') s = None.
Proof.
  cbn. unfold TurnBook.expire. destruct (for_each _ _ _) as [b1|] eqn:Hf; [|done]. intros [= <-].
  set (R := λ b b' : TurnBook, BTreeMap.get (open b') s = BTreeMap.get (open b) s ∨
    BTreeMap.get (open b') s = None).
  assert (PreOrder R) as HR by (split; [by left|]; intros x y z [?|?] [?|?]; [left|right..]; congruence).
  eapply (for_each_rel R); [|exact Hf].
  intros [session e] b2 b3 Hs%(finish_open _ _ _ _ s). unfold R. rewrite Hs. case_bool_decide; [by right|by left].
Qed.

(** The turn that is open came of the signals traced. *)
Definition held (tr : list TurnSignal) (o : option OpenTurn) : Prop :=
  match tr with
  | [] => o = None
  | first :: _ => ∃ t, o = Some t ∧ opens first = true ∧
      (in_order 0 tr → (times_working tr ≤ MAX_TURN_INTERVALS)%nat → traced first tr t)
  end.

Lemma last_at_cons lo lo' first tr : last_at lo (first :: tr) = last_at lo' (first :: tr).
Proof. done. Qed.

Lemma held_snoc signal tr t :
  held tr (Some t) → match ts_input signal with Prompt | Working | Blocked => True | _ => False end →
  held (tr ++ [signal]) (Some (turn_step signal t)).
Proof.
  destruct tr as [|first tr]; [done|]. intros (t' & [= <-] & Hfirst & Ht) Hin. cbn [app held].
  eexists. split; [done|]. split; [done|].
  change (first :: tr ++ [signal]) with ((first :: tr) ++ [signal]).
  rewrite in_order_snoc. intros [Ho Hle] Hcount.
  assert (traced first (first :: tr) t) as Ht'.
  { apply Ht; [done|]. rewrite times_working_snoc in Hcount. lia. }
  apply traced_step; [done| |done..]. by rewrite (tc_last _ _ _ Ht').
Qed.

Lemma held_signal signal b b' tr :
  TurnBook.apply signal b = Some b' → held tr (BTreeMap.get (open b) (ts_session signal)) →
  held (trace_signal signal b tr) (BTreeMap.get (open b') (ts_session signal)).
Proof.
  intros Hrun Hh. rewrite (apply_open _ _ _ _ Hrun), bool_decide_true by done. cbn [andb].
  unfold trace_signal. destruct (fresh signal b); [|done].
  assert (Hopen : opens signal = true → held (tr ++ [signal])
    (Some (turn_step signal (default (TurnBook.new_turn signal) (BTreeMap.get (open b) (ts_session signal)))))).
  { intros Ho. destruct tr as [|first tr]; [|destruct Hh as (t & Heq & Hrest); rewrite Heq in *; cbn [default]].
    - cbn in Hh. rewrite Hh. cbn [default app held]. eexists. split; [done|]. split; [done|].
      intros _ _. by apply traced_first.
    - apply held_snoc; [by eexists|]. revert Ho. unfold opens. by destruct (ts_input signal). }
  unfold opens in Hopen. destruct (ts_input signal) eqn:Hin; try done; [by apply Hopen..|].
  destruct tr as [|first tr]; [cbn in Hh; by rewrite Hh|].
  destruct Hh as (t & Heq & Hrest). rewrite Heq. apply held_snoc; [by eexists|by rewrite Hin].
Qed.

Lemma run_traced_held session es tr b tr' b' :
  Forall event_ok es → book_ok b → held tr (BTreeMap.get (open b) session) →
  run_traced session es tr b = Some (tr', b') →
  book_ok b' ∧ held tr' (BTreeMap.get (open b') session).
Proof.
  intros Hes. revert tr b. induction Hes as [|e es He _ IH]; intros tr b Hok Hh; cbn; [by intros [= <- <-]|].
  destruct (run_event e b) as [b1|] eqn:Hx; [|done]. apply IH.
  { by apply (run_event_sound e b b1 He Hok Hx). }
  destruct e as [signal|running in_turn now_ms|account pass|new today record]; cbn [trace_event].
  - case_bool_decide as Hs; [subst; by apply held_signal|].
    rewrite (apply_open _ _ _ _ Hx), bool_decide_false by done. done.
  - destruct (sweep_open _ _ _ _ _ session Hx) as [Heq|Heq]; rewrite Heq; [|done].
    destruct (BTreeMap.get (open b) session) as [t|] eqn:Hget; [done|]. done.
  - by rewrite (quiet_open (Pass account pass) _ _ I Hx).
  - by rewrite (quiet_open (Import new today record) _ _ I Hx).
Qed.
End sound.

Lemma default_ok : book_ok TurnBook_default.
Proof.
  split; [|apply SSorted_nil|done|apply SSorted_nil|apply SSorted_nil|apply Nat.le_0_l].
  split; cbn.
  - intros d t. by rewrite lookup_empty.
  - intros d a. unfold TurnBook.is_imported. cbn. rewrite lookup_empty. cbn.
    by intros Hin%bool_decide_eq_true%not_elem_of_empty.
Qed.
