(* ===== verification/UsageTokensCorrect.v ===== *)
(** * The passes over a transcript read each line once

    [lines_rest] cuts bytes into their lines and an unfinished rest.  [pass_spec]: a
    pass goes on from where the cursor is to the last newline that it sees.
    [run_passes_spec]: however the growth of a file is cut into passes, the entries
    are those of its lines. *)

From stdpp Require Import gmap list strings.
From S2P Require Import Prelude DiffText OrderedMap AgentActivity AgentSession AgentWorker.
From S2P Require Import UsageLedger UsageLedgerCorrect UsageLedgerBatches UsageTokens.

Local Open Scope N_scope.

#[local] Arguments MAX_LINE_BYTES : simpl never.
#[local] Arguments MAX_PASS_BYTES : simpl never.

Lemma some_seen_ids : (1 ≤ MAX_SEEN_IDS)%nat.
Proof. apply Nat.leb_le. reflexivity. Qed.

#[local] Opaque MAX_SEEN_IDS.

(** ** Bytes and lines *)

Fixpoint lines_rest (l : list N) : list (list N) * list N :=
  match l with
  | [] => ([], [])
  | b :: l =>
      let '(ls, r) := lines_rest l in
      if b =? NEWLINE then ([] :: ls, r)
      else match ls with [] => ([], b :: r) | x :: ls => ((b :: x) :: ls, r) end
  end.

Lemma lines_rest_app a b :
  lines_rest (a ++ b) =
  ((lines_rest a).1 ++ (lines_rest ((lines_rest a).2 ++ b)).1, (lines_rest ((lines_rest a).2 ++ b)).2).
Proof.
  induction a as [|x a IH]; simpl; [by destruct (lines_rest b)|]. rewrite IH.
  destruct (lines_rest a) as [ls r]. simpl. destruct (x =? NEWLINE) eqn:Hx; simpl; [done|].
  destruct ls as [|l ls]; simpl; [|done]. rewrite Hx. destruct (lines_rest (r ++ b)) as [[|l ls] r']; done.
Qed.

Lemma lines_rest_unfinished l : lines_rest (lines_rest l).2 = ([], (lines_rest l).2).
Proof.
  induction l as [|x l IH]; [done|]. simpl. destruct (lines_rest l) as [ls r]. simpl in IH.
  destruct (x =? NEWLINE) eqn:Hx; simpl; [done|]. destruct ls as [|y ls]; simpl; [|done].
  by rewrite Hx, IH.
Qed.

(** The lines and the rest are the bytes. *)
Lemma lines_rest_split l : ∃ p, l = p ++ (lines_rest l).2 ∧ lines_rest p = ((lines_rest l).1, []).
Proof.
  induction l as [|x l (p & Hl & Hp)]; [by exists []|]. simpl.
  destruct (lines_rest l) as [ls r]. simpl in *. subst l. destruct (x =? NEWLINE) eqn:Hx; simpl.
  - exists (x :: p). simpl. by rewrite Hp, Hx.
  - destruct ls as [|y ls]; simpl.
    + exists []. split; [|done]. destruct p as [|z p]; [done|]. exfalso. revert Hp. clear.
      simpl. destruct (lines_rest p) as [[|u us] r]; by destruct (z =? NEWLINE).
    + exists (x :: p). simpl. by rewrite Hp, Hx.
Qed.

Lemma split_line_some l x after : split_line l = Some (x, after) →
  l = x ++ NEWLINE :: after ∧ lines_rest (x ++ [NEWLINE]) = ([x], []) ∧
  lines_rest l = (x :: (lines_rest after).1, (lines_rest after).2).
Proof.
  revert x. induction l as [|b l IH]; intros x; simpl; [done|].
  destruct (N.eqb_spec b NEWLINE) as [->|Hne].
  - intros [= <- <-]. split_and!; [done..|]. by destruct (lines_rest l).
  - destruct (split_line l) as [[y after']|] eqn:Hs; [|done]. simpl. intros [= <- <-].
    destruct (IH y eq_refl) as (-> & H1 & H2). split_and!; [done| |].
    + simpl. by rewrite H1, (proj2 (N.eqb_neq _ _) Hne).
    + by rewrite H2.
Qed.

Lemma split_line_none l : split_line l = None → lines_rest l = ([], l).
Proof.
  induction l as [|b l IH]; [done|]. simpl. destruct (b =? NEWLINE); [done|].
  destruct (split_line l) as [[x after]|]; [done|]. intros _. by rewrite IH.
Qed.

Lemma lines_rest_no l : NEWLINE ∉ l → lines_rest l = ([], l).
Proof.
  induction l as [|b l IH]; [done|]. intros [Hne Hni]%not_elem_of_cons. simpl.
  by rewrite IH, (proj2 (N.eqb_neq _ _)) by (done || congruence).
Qed.

Lemma lines_rest_line l q :
  NEWLINE ∉ l → lines_rest (l ++ NEWLINE :: q) = (l :: (lines_rest q).1, (lines_rest q).2).
Proof.
  intros Hni. rewrite lines_rest_app, lines_rest_no by done. cbn [fst snd]. rewrite ?app_nil_l.
  induction l as [|b l IH]; simpl; [by destruct (lines_rest q)|].
  apply not_elem_of_cons in Hni as [Hne Hni]. specialize (IH Hni). simpl in IH.
  injection IH as H1 H2. rewrite (proj2 (N.eqb_neq _ _)) by congruence.
  destruct (lines_rest (l ++ NEWLINE :: q)) as [ls r]. simpl in *. by subst.
Qed.

Lemma rest_no l : NEWLINE ∉ (lines_rest l).2.
Proof.
  induction l as [|b l IH]; simpl; [by intros ?%elem_of_nil|].
  destruct (lines_rest l) as [ls r]. simpl in IH. destruct (N.eqb_spec b NEWLINE); simpl; [done|].
  destruct ls; simpl; [|done]. intros [?|?]%elem_of_cons; congruence.
Qed.

Lemma split_line_no l : match split_line l with Some (x, _) => NEWLINE ∉ x | None => NEWLINE ∉ l end.
Proof.
  induction l as [|b l IH]; simpl; [by intros ?%elem_of_nil|].
  destruct (N.eqb_spec b NEWLINE); [by intros ?%elem_of_nil|].
  destruct (split_line l) as [[x after]|]; simpl; intros [?|?]%elem_of_cons; congruence.
Qed.

Lemma take_bytes_split limit l : ∃ r, l = take_bytes limit l ++ r ∧
  N.of_nat (length (take_bytes limit l)) ≤ limit ∧
  (r = [] ∨ N.of_nat (length (take_bytes limit l)) = limit).
Proof.
  revert limit. induction l as [|b l IH]; intros limit; simpl; [exists []; split_and!; [done|lia|by left]|].
  destruct (N.eqb_spec limit 0) as [->|].
  - exists (b :: l). split_and!; [done|simpl; lia|by right].
  - destruct (IH (limit - 1)) as (r & Hl & Hle & Hr). exists r. split_and!.
    + by rewrite Hl at 1.
    + simpl. lia.
    + destruct Hr; [by left|right]. simpl. lia.
Qed.

Lemma skip_bytes_app a b : skip_bytes (N.of_nat (length a)) (a ++ b) = b.
Proof.
  induction a as [|x a IH]; [by destruct b|].
  change (skip_bytes (N.of_nat (length (x :: a))) ((x :: a) ++ b)) with
    (if N.of_nat (S (length a)) =? 0 then (x :: a) ++ b
     else skip_bytes (N.of_nat (S (length a)) - 1) (a ++ b)).
  rewrite (proj2 (N.eqb_neq (N.of_nat (S (length a))) 0)) by lia.
  replace (N.of_nat (S (length a)) - 1) with (N.of_nat (length a)) by lia. exact IH.
Qed.

Section decoding.
Context {D : Decoding} {C : Calendar}.
Context (kind : TranscriptKind) (today : NaiveDate).

Definition steps (ls : list (list N)) (st : Reading) : Reading :=
  foldl (λ st line, line_step kind today line st) st ls.

Lemma steps_app l1 l2 st : steps (l1 ++ l2) st = steps l2 (steps l1 st).
Proof. apply foldl_app. Qed.

(** The scan goes through the lines, and leaves a rest that may still grow to a line. *)
Lemma scan_lines fuel rest at_ st : (length rest ≤ fuel)%nat →
  scan kind today fuel rest at_ st =
  let '(ls, r) := lines_rest rest in
  if MAX_LINE_BYTES <? N.of_nat (length r)
  then (at_ + N.of_nat (length rest), with_cursor (set_skipping true) (steps ls st))
  else (at_ + N.of_nat (length rest) - N.of_nat (length r), steps ls st).
Proof.
  revert rest at_ st. induction fuel as [|fuel IH]; intros rest at_ st Hle.
  { destruct rest; [|simpl in Hle; lia]. simpl. f_equal. lia. }
  destruct rest as [|b rest]; [simpl; f_equal; lia|]. cbn [scan].
  destruct (split_line (b :: rest)) as [[x after]|] eqn:Hs.
  - apply split_line_some in Hs as (Heq & _ & ->). rewrite Heq in *.
  rewrite length_app in *. cbn [length] in *. rewrite IH by lia.
  pose proof (lines_rest_split after) as (p & Hp & _).
  destruct (lines_rest after) as [ls r]. cbn [fst snd] in *. cbn [steps foldl].
  assert (length r ≤ length after)%nat by (rewrite Hp, length_app; lia).
  destruct (MAX_LINE_BYTES <? N.of_nat (length r)); f_equal; lia.
  - rewrite (split_line_none _ Hs). destruct (MAX_LINE_BYTES <? _); f_equal. lia.
Qed.

(** ** What a line's step reads and writes *)

(** The part of a cursor that lines change. *)
Definition core (c : TokenCursor) : TokenCursor := mkCursor 0 0 false (totals c) (seen_day c) (seen c).

Lemma claude_entry_core value ids c : claude_entry value ids (core c) today =
  let '(e, ids', c') := claude_entry value ids c today in (e, ids', core c').
Proof.
  unfold claude_entry. destruct (if bool_decide _ then _ else None) as [[[id usage] at_ms]|]; [|done].
  case_bool_decide; [done|]. cbn [seen_day core]. by case_bool_decide.
Qed.

Lemma codex_entry_core value c : codex_entry value (core c) =
  let '(e, c') := codex_entry value c in (e, core c').
Proof.
  unfold codex_entry. destruct (if bool_decide _ then _ else None) as [[total at_ms]|]; [|done].
  cbn [totals core]. by destruct (default (0, 0) (totals c)).
Qed.

Lemma line_step_core line st :
  line_step kind today line (with_cursor core st) = with_cursor core (line_step kind today line st).
Proof.
  unfold line_step. destruct (MAX_LINE_BYTES <? _); [done|].
  destruct (from_slice _) as [value|]; [|done]. unfold value_step. cbn [rd_cursor rd_seen with_cursor].
  destruct kind.
  - rewrite claude_entry_core. by destruct (claude_entry _ _ _ _) as [[e ids] c].
  - rewrite codex_entry_core. by destruct (codex_entry _ _) as [e c].
Qed.

Lemma steps_core ls st : steps ls (with_cursor core st) = with_cursor core (steps ls st).
Proof.
  revert st. induction ls as [|l ls IH]; intros st; [done|]. cbn [steps foldl].
  rewrite line_step_core. apply IH.
Qed.

Definition prepend (es : list TokenEntry) (ts : list TurnStart) (st : Reading) : Reading :=
  mkReading (rd_seen st) (rd_cursor st) (es ++ rd_entries st) (ts ++ rd_turns st).

Lemma line_step_prepend es ts line st :
  line_step kind today line (prepend es ts st) = prepend es ts (line_step kind today line st).
Proof.
  unfold line_step. destruct (MAX_LINE_BYTES <? _); [done|].
  destruct (from_slice _) as [value|]; [|done]. unfold value_step, prepend.
  cbn [rd_cursor rd_seen rd_entries rd_turns]. destruct kind.
  - destruct (claude_entry _ _ _ _) as [[e ids] c]. cbn. by rewrite !app_assoc.
  - destruct (codex_entry _ _) as [e c]. cbn. by rewrite !app_assoc.
Qed.

Lemma steps_prepend es ts ls st : steps ls (prepend es ts st) = prepend es ts (steps ls st).
Proof.
  revert st. induction ls as [|l ls IH]; intros st; [done|]. cbn [steps foldl].
  rewrite line_step_prepend. apply IH.
Qed.

(** Lines leave the offset and the flag of a cursor. *)
Record same_place (c c' : TokenCursor) : Prop := {
  sp_offset : offset c' = offset c;
  sp_skipping : skipping c' = skipping c;
  sp_day : seen_day c' = seen_day c }.

#[local] Instance same_place_preorder : PreOrder same_place.
Proof. split; [by split|]. intros a b c [] []. split; congruence. Qed.

(** The ids seen: how many, and whether the set is that of the cursor. *)
Lemma line_step_place line st :
  let st' := line_step kind today line st in
  same_place (rd_cursor st) (rd_cursor st') ∧
  (length (seen (rd_cursor st)) ≤ length (seen (rd_cursor st')))%nat ∧
  ((length (seen (rd_cursor st')) < MAX_SEEN_IDS)%nat → seen_day (rd_cursor st) = Some today →
  rd_seen st = list_to_set (seen (rd_cursor st)) → rd_seen st' = list_to_set (seen (rd_cursor st'))).
Proof.
  unfold line_step. destruct (MAX_LINE_BYTES <? _); [by repeat split|].
  destruct (from_slice _) as [value|]; [|by repeat split]. unfold value_step. destruct kind.
  - unfold claude_entry.
  destruct (if bool_decide (text_at _ _ = _) then _ else None) as [[[id usage] at_ms]|]; [|by repeat split].
  case_bool_decide; [by repeat split|]. cbn [rd_cursor rd_seen].
  case_bool_decide as Hd; cbn; [|by repeat split].
  destruct (Nat.leb_spec MAX_SEEN_IDS (length (seen (rd_cursor st)))) as [Hge|Hlt].
  + split; [by split|]. assert (length (tail (seen (rd_cursor st)) ++ [id]) = length (seen (rd_cursor st))) as ->.
    { rewrite length_app. pose proof some_seen_ids. destruct (seen (rd_cursor st)); simpl in *; lia. }
    split; [done|]. lia.
  + split; [by split|]. split; [rewrite length_app; lia|]. intros _ _ ->.
    rewrite list_to_set_app_L. cbn. set_solver.
  - unfold codex_entry.
  destruct (if bool_decide (text_at _ _ = _) then _ else None) as [[total at_ms]|]; [|by repeat split].
  destruct (default (0, 0) _). by repeat split.
Qed.

Lemma steps_place ls st :
  let st' := steps ls st in
  same_place (rd_cursor st) (rd_cursor st') ∧
  (length (seen (rd_cursor st)) ≤ length (seen (rd_cursor st')))%nat ∧
  ((length (seen (rd_cursor st')) < MAX_SEEN_IDS)%nat → seen_day (rd_cursor st) = Some today →
  rd_seen st = list_to_set (seen (rd_cursor st)) → rd_seen st' = list_to_set (seen (rd_cursor st'))).
Proof.
  revert st. induction ls as [|l ls IH]; intros st; [by repeat split|]. cbn [steps foldl].
  destruct (line_step_place l st) as (H1 & H2 & H3). destruct (IH (line_step kind today l st)) as (H4 & H5 & H6).
  split; [by etrans|]. split; [unfold steps in *; lia|]. intros Hlt Hd Hs. apply H6; [done| |].
  - by rewrite (sp_day _ _ H1).
  - apply H3; [unfold steps in *; lia|done..].
Qed.

(** ** Passes *)

Lemma line_step_long line st : MAX_LINE_BYTES < N.of_nat (length line) → line_step kind today line st = st.
Proof. intros Hlt. unfold line_step. by rewrite (proj2 (N.ltb_lt _ _) Hlt). Qed.

(** What a cursor's flag says of the bytes before it. *)
Definition at_end (c : TokenCursor) (P : list N) : Prop :=
  if skipping c then MAX_LINE_BYTES < N.of_nat (length (lines_rest P).2) else (lines_rest P).2 = [].

(** The bytes [Q] of a chunk that a pass goes over after [P], and the lines [ls] it reads. *)
Record goes_over (c : TokenCursor) (P chunk Q r : list N) (ls : list (list N)) (at_ : N)
  (st st' : Reading) : Prop := {
  go_chunk : chunk = Q ++ r;
  go_at : at_ = N.of_nat (length Q);
  go_lines s : steps (lines_rest (P ++ Q)).1 s = steps ls (steps (lines_rest P).1 s);
  go_core : with_cursor core st' = with_cursor core (steps ls st);
  go_place : offset (rd_cursor st') = offset c ∧ seen_day (rd_cursor st') = seen_day c;
  go_end : at_end (rd_cursor st') (P ++ Q);
  go_rest : NEWLINE ∉ r ∧ N.of_nat (length r) ≤ MAX_LINE_BYTES }.

(** The scan of what follows whole lines. *)
Lemma scan_goes_over c P chunk at_ ids :
  (lines_rest P).2 = [] → skipping c = false →
  let '(at', st') := scan kind today (length chunk) chunk at_ (mkReading ids c [] []) in
  ∃ Q r ls, at_ ≤ at' ∧ goes_over c P chunk Q r ls (at' - at_) (mkReading ids c [] []) st'.
Proof.
  intros HP Hc. rewrite scan_lines by done. set (st := mkReading ids c [] []).
  pose proof (lines_rest_split chunk) as (p & Hchunk & Hp). pose proof (rest_no chunk) as Hno.
  destruct (lines_rest chunk) as [ls r] eqn:Hl. cbn [fst snd] in *.
  destruct (steps_place ls st) as ([Ho Hs Hd] & _ & _).
  assert (∀ q, (lines_rest q).1 = ls → ∀ s, steps (lines_rest (P ++ q)).1 s = steps ls (steps (lines_rest P).1 s)) as Hlines.
  { intros q Hq s. rewrite lines_rest_app, HP. cbn [fst]. rewrite ?app_nil_l. by rewrite Hq, steps_app. }
  destruct (N.ltb_spec MAX_LINE_BYTES (N.of_nat (length r))).
  - exists chunk, [], ls. split; [lia|]. split; cbn [with_cursor rd_cursor rd_seen rd_entries rd_turns]; try done.
  + by rewrite app_nil_r.
  + lia.
  + apply Hlines. by rewrite Hl.
  + unfold at_end. cbn. rewrite lines_rest_app, HP. cbn. by rewrite Hl.
  + split; [by intros ?%elem_of_nil|]. cbn. lia.
  - exists p, r, ls. split; [rewrite Hchunk, length_app; lia|]. split; try done.
  + rewrite Hchunk, length_app. lia.
  + apply Hlines. by rewrite Hp.
  + unfold at_end. rewrite Hs. cbn [rd_cursor st]. rewrite Hc, lines_rest_app, HP. cbn. by rewrite Hp.
Qed.

Lemma chunk_goes_over c P chunk ids : at_end c P →
  let '(rest, at_, c1) := skip_line chunk c in
  let '(at', st') := scan kind today (length rest) rest at_ (mkReading ids c1 [] []) in
  ∃ Q r ls, goes_over c P chunk Q r ls at' (mkReading ids c [] []) st'.
Proof.
  intros Hend. unfold skip_line. unfold at_end in Hend. destruct (skipping c) eqn:Hc.
  2: { pose proof (scan_goes_over c P chunk 0 ids Hend Hc) as Hscan.
     destruct (scan _ _ _ _ _ _) as [at' st']. destruct Hscan as (Q & r & ls & _ & Hgo).
     rewrite N.sub_0_r in Hgo. by exists Q, r, ls. }
  pose proof (split_line_no chunk) as Hno. pose proof (lines_rest_split P) as (p & HP & Hp).
  pose proof (rest_no P) as HPno. destruct (lines_rest P) as [lsP rP] eqn:HlP. cbn [fst snd] in *.
  destruct (split_line chunk) as [[x after]|] eqn:Hs.
  - apply split_line_some in Hs as (Hchunk & _ & _).
  assert (lines_rest (P ++ x ++ [NEWLINE]) = (lsP ++ [rP ++ x], [])) as Hline.
  { rewrite HP, <- app_assoc, lines_rest_app, Hp. cbn [fst snd]. rewrite ?app_nil_l.
    rewrite (app_assoc rP), lines_rest_line by (rewrite elem_of_app; tauto). done. }
  pose proof (scan_goes_over (set_skipping false c) (P ++ x ++ [NEWLINE]) after (N.of_nat (length x) + 1) ids)
    as Hscan. rewrite Hline in Hscan. specialize (Hscan eq_refl eq_refl).
  destruct (scan _ _ _ _ _ _) as [at' st']. destruct Hscan as (Q & r & ls & Hle & [Ha Hat Hl Hcore Hpl He Hr]).
  exists (x ++ [NEWLINE] ++ Q), r, ls. split; try done.
  + rewrite Hchunk, Ha. by rewrite <- !app_assoc.
  + rewrite !length_app. cbn [length]. lia.
  + intros s. rewrite <- !app_assoc in Hl. rewrite Hl, Hline. cbn [fst]. rewrite steps_app.
    cbn [steps foldl]. rewrite line_step_long; [by rewrite HlP|]. rewrite length_app. lia.
  + rewrite Hcore, <- !steps_core. done.
  + by rewrite <- !app_assoc in He.
  - cbn. exists chunk, [], []. split; try done.
  + by rewrite app_nil_r.
  + intros s. rewrite HP, <- app_assoc, lines_rest_app, Hp. cbn [fst snd]. rewrite ?app_nil_l.
    rewrite lines_rest_no by (rewrite elem_of_app; tauto). cbn [fst].
    rewrite app_nil_r, <- HP, HlP. done.
  + unfold at_end. cbn [rd_cursor]. rewrite Hc, HP, <- app_assoc, lines_rest_app, Hp. cbn [fst snd]. rewrite ?app_nil_l.
    rewrite lines_rest_no by (rewrite elem_of_app; tauto). cbn [snd]. rewrite length_app. lia.
  + split; [by intros ?%elem_of_nil|cbn; lia].
Qed.

(** The reading from a cursor on whole lines. *)
Definition fresh_reading (c : TokenCursor) : Reading := mkReading (list_to_set (seen c)) c [] [].

(** [c] is a cursor after the bytes [P], which began where [c0] is. *)
Record placed (c0 : TokenCursor) (P : list N) (c : TokenCursor) : Prop := {
  pl_offset : offset c = offset c0 + N.of_nat (length P);
  pl_day : seen_day c = Some today;
  pl_end : at_end c P }.

(** [es] and [ts] are what the lines of [P] count. *)
Record reads (c0 : TokenCursor) (P : list N) (c : TokenCursor) (es : list TokenEntry)
  (ts : list TurnStart) : Prop := {
  rd_placed : placed c0 P c;
  rd_core : with_cursor core (prepend es ts (fresh_reading c)) =
          with_cursor core (steps (lines_rest P).1 (fresh_reading c0)) }.

Lemma reads_start c0 : skipping c0 = false → seen_day c0 = Some today → reads c0 [] c0 [] [].
Proof.
  intros Hs Hd. split; [|done]. split; [cbn; lia|done|]. unfold at_end. by rewrite Hs.
Qed.

(** The entries are those of the lines. *)
Lemma reads_entries c0 P c es ts :
  reads c0 P c es ts →
  es = rd_entries (steps (lines_rest P).1 (fresh_reading c0)) ∧
  ts = rd_turns (steps (lines_rest P).1 (fresh_reading c0)).
Proof.
  intros [_ Hcore].
  pose proof (f_equal rd_entries Hcore) as He. pose proof (f_equal rd_turns Hcore) as Ht.
  cbn in He, Ht. by rewrite !app_nil_r in *.
Qed.

Lemma pass_spec path c0 P c before more len now_ms :
  placed c0 P c → N.of_nat (length before) = offset c0 → day now_ms = today →
  offset c ≤ len → N.of_nat (length (before ++ P ++ more)) < 2 ^ 64 →
  ∃ p Q r, read_tokens path kind c (Some (len, before ++ P ++ more)) now_ms = Some (Some p) ∧
  pass_path p = path ∧ start p = c ∧ more = Q ++ r ∧
  (length (seen c) ≤ length (seen (cursor p)))%nat ∧
  placed c0 (P ++ Q) (cursor p) ∧
  (∀ es ts, reads c0 P c es ts → (length (seen (cursor p)) < MAX_SEEN_IDS)%nat →
   reads c0 (P ++ Q) (cursor p) (es ++ entries p) (ts ++ turn_starts p)) ∧
  (N.of_nat (length more) ≤ MAX_PASS_BYTES ∨ Q = [] →
   NEWLINE ∉ r ∧ N.of_nat (length r) ≤ MAX_LINE_BYTES).
Proof.
  intros [Hoff Hday Hend] Hbefore Hnow Hlen Hmax. unfold read_tokens.
  rewrite (proj2 (N.ltb_ge _ _) Hlen), Hnow, bool_decide_true by done.
  assert (skip_bytes (offset c) (before ++ P ++ more) = more) as ->.
  { rewrite app_assoc. replace (offset c) with (N.of_nat (length (before ++ P))); [apply skip_bytes_app|].
  rewrite length_app. lia. }
  destruct (take_bytes_split MAX_PASS_BYTES more) as (later & Hmore & Hchunk & Hall).
  set (chunk := take_bytes MAX_PASS_BYTES more) in *.
  pose proof (chunk_goes_over c P chunk (list_to_set (seen c)) Hend) as Hgo.
  destruct (skip_line chunk c) as [[rest at0] c1].
  destruct (scan kind today (length rest) rest at0 _) as [at_ st].
  destruct Hgo as (Q & r & ls & [Hc Hat Hlines Hgocore [Hgo Hgd] Hge [Hnr Hlr]]).
  rewrite Hgo, add_u64_some.
  2: { rewrite !length_app in Hmax. rewrite Hmore, Hc, !length_app in Hmax. lia. }
  cbn [mbind option_bind].
  exists (mkPass path c (set_touched now_ms (set_offset (offset c + at_) (rd_cursor st)))
  (rd_entries st) (rd_turns st)), Q, (r ++ later).
  fold (fresh_reading c) in Hgocore.
  pose proof (f_equal (λ s, seen (rd_cursor s)) Hgocore) as Hseen. cbn in Hseen.
  destruct (steps_place ls (fresh_reading c)) as (_ & Hmono & Hset).
  assert (placed c0 (P ++ Q) (set_touched now_ms (set_offset (offset c + at_) (rd_cursor st)))) as Hplaced.
  { split; [|by rewrite <- Hday|exact Hge]. cbn. rewrite Hat, length_app. lia. }
  split_and!; try done; cbn [cursor seen offset set_touched set_offset].
  - rewrite Hmore, Hc. by rewrite app_assoc.
  - rewrite Hseen. exact Hmono.
  - intros es ts [_ Hcore] Hlt. split; [exact Hplaced|].
  cbn [entries turn_starts]. rewrite Hlines, <- steps_core, <- Hcore, steps_core, steps_prepend.
    assert (with_cursor core (prepend es ts st) = with_cursor core (prepend es ts (steps ls (fresh_reading c)))) as <-.
    { pose proof (f_equal (prepend es ts) Hgocore) as Hp. exact Hp. }
    unfold with_cursor, prepend, fresh_reading. cbn. rewrite !app_nil_r. f_equal.
    pose proof (f_equal rd_seen Hgocore) as Hs. cbn in Hs. rewrite Hs, Hseen. symmetry.
    apply Hset; [by rewrite <- Hseen|exact Hday|done].
  - intros Hcase.
  assert (later = []) as ->; [|by rewrite app_nil_r].
  destruct Hall as [|Hfull]; [done|]. apply length_zero_iff_nil.
  destruct Hcase as [Hle| ->].
  + rewrite Hmore, length_app in Hle. lia.
  + rewrite Hc in Hfull. cbn [app] in Hfull. unfold MAX_PASS_BYTES, MAX_LINE_BYTES in *. simpl in Hfull. lia.
Qed.

(** ** A transcript that grows *)

(** The file as each pass finds it, and the time. *)
Definition grown := (list N * N)%type.

(** Passes over a growing file, each from the cursor of the one before. *)
Fixpoint run_passes (path : str) (c : TokenCursor) (files : list grown) :
  option (TokenCursor * list TokenEntry * list TurnStart) :=
  match files with
  | [] => Some (c, [], [])
  | (data, now_ms) :: files =>
    r ← read_tokens path kind c (Some (N.of_nat (length data), data)) now_ms;
    p ← r;
    '(c, es, ts) ← run_passes path (cursor p) files;
    Some (c, entries p ++ es, turn_starts p ++ ts)
  end.

(** Each file continues the one before; the passes are of one day. *)
Fixpoint growing (known : list N) (files : list grown) : Prop :=
  match files with
  | [] => True
  | (data, now_ms) :: files =>
    known `prefix_of` data ∧ N.of_nat (length data) < 2 ^ 64 ∧ day now_ms = today ∧ growing data files
  end.

(** The file as it is found last. *)
Definition latest (known : list N) (files : list grown) : list N := default known (fst <$> last files).

Lemma run_passes_steps path c0 P c before files rest :
  placed c0 P c → N.of_nat (length before) = offset c0 →
  growing (before ++ P ++ rest) files →
  ∃ c' es ts Q, run_passes path c files = Some (c', es, ts) ∧
  (length (seen c) ≤ length (seen c'))%nat ∧ placed c0 (P ++ Q) c' ∧
  before ++ P ++ Q `prefix_of` latest (before ++ P ++ rest) files ∧
  ∀ es0 ts0, reads c0 P c es0 ts0 → (length (seen c') < MAX_SEEN_IDS)%nat →
    reads c0 (P ++ Q) c' (es0 ++ es) (ts0 ++ ts).
Proof.
  revert P c rest. induction files as [|[data now_ms] files IH]; intros P c rest Hp Hbefore Hg.
  { exists c, [], [], []. rewrite !app_nil_r. split_and!; try done.
  - exists rest. by rewrite app_assoc.
  - intros es0 ts0. by rewrite !app_nil_r. }
  destruct Hg as ([more Hdata] & Hmax & Hnow & Hg). cbn [run_passes].
  assert (data = before ++ P ++ (rest ++ more)) as Heq by (rewrite Hdata, <- !app_assoc; done).
  destruct (pass_spec path c0 P c before (rest ++ more) (N.of_nat (length data)) now_ms Hp Hbefore Hnow)
  as (p & Q & r & Hread & _ & _ & HQ & Hseen & Hplaced & Hreads & _).
  { rewrite (pl_offset _ _ _ Hp), Heq, !length_app. lia. }
  { by rewrite <- Heq. }
  rewrite <- Heq in Hread. rewrite Hread. cbn [mbind option_bind].
  assert (data = before ++ (P ++ Q) ++ r) as Heq' by (rewrite Heq, HQ, <- !app_assoc; done).
  rewrite Heq' in Hg.
  destruct (IH (P ++ Q) (cursor p) r Hplaced Hbefore Hg) as (c' & es & ts & Q' & -> & Hs & Hpl & Hpre & Hr).
  exists c', (entries p ++ es), (turn_starts p ++ ts), (Q ++ Q'). cbn.
  split_and!; [done|lia|by rewrite app_assoc| |].
  - rewrite <- !app_assoc in Hpre. unfold latest in *. rewrite last_cons.
  destruct (last files); cbn in *; [done|]. by rewrite Heq', <- !app_assoc.
  - intros es0 ts0 H0 Hlt. rewrite !app_assoc. apply Hr; [|done]. apply Hreads; [done|lia].
Qed.
End decoding.

(** ** Booking the passes of a transcript *)

Section booking.
Context {D : Decoding} {C : Calendar}.
Context (kind : TranscriptKind) (account : LedgerAccount) (path : str).

(** The worker reads from the cursor of the ledger and records what it read. *)
Definition read_and_record (file : grown) (b : TurnBook) : option TurnBook :=
  r ← read_tokens path kind (TurnBook.token_cursor b path) (Some (N.of_nat (length file.1), file.1)) file.2;
  match r with
  | Some pass => snd <$> TurnBook.record_tokens account pass b
  | None => Some b
  end.

Lemma with_tokens_app d l k t : with_tokens d (l ++ k) t = with_tokens d k (with_tokens d l t).
Proof. unfold with_tokens. by rewrite foldl_app. Qed.

Lemma read_tokens_pass c file now_ms p :
  read_tokens path kind c file now_ms = Some (Some p) → pass_path p = path ∧ start p = c.
Proof.
  unfold read_tokens. destruct file as [[len data]|]; [|done].
  destruct (skip_line _ _) as [[rest at0] c1]. destruct (scan _ _ _ _ _ _) as [at_ st].
  destruct (add_u64 _ _); [|done]. by intros [= <-].
Qed.

(** The cursor of the ledger is that of the passes, and their entries are booked. *)
Lemma read_and_record_spec files b c' es ts n :
  book_ok b → (length (cursors b) < MAX_CURSORS)%nat ∨ is_Some (BTreeMap.get (cursors b) path) →
  run_passes kind path (TurnBook.token_cursor b path) files = Some (c', es, ts) →
  room (tokens_of es + N.of_nat (length es) + N.of_nat (length files) + n) b →
  runs (for_each files read_and_record b) (λ b', book_ok b' ∧ room n b' ∧
  TurnBook.token_cursor b' path = c' ∧ open b' = open b ∧ imported b' = imported b ∧
  ∀ d a, TurnBook.tally b' d a =
    if bool_decide (a = account) && negb (TurnBook.is_imported b d a)
    then with_tokens d es (TurnBook.tally b d a) else TurnBook.tally b d a).
Proof.
  revert b es ts. induction files as [|[data now_ms] files IH]; intros b es ts Hok Hheld Hrun Hroom.
  { injection Hrun as <- <- <-. cbn. split_and!; try done.
  intros d a. cbn. by destruct (_ && _). }
  cbn [run_passes] in Hrun.
  destruct (read_tokens _ _ _ _ _) as [[p|]|] eqn:Hread; cbn [mbind option_bind] in Hrun; try done.
  destruct (run_passes kind path (cursor p) files) as [[[c1 es1] ts1]|] eqn:Hrest; cbn in Hrun; [|done].
  injection Hrun as -> <- <-. rewrite tokens_of_app, length_app in Hroom. cbn [length] in Hroom.
  destruct (read_tokens_pass _ _ _ _ Hread) as [Hpath Hstart].
  cbn [for_each]. eapply (runs_bind _ _ (λ b1, book_ok b1 ∧
  room (tokens_of es1 + N.of_nat (length es1) + N.of_nat (length files) + n) b1 ∧
  TurnBook.token_cursor b1 path = cursor p ∧
  ((length (cursors b1) < MAX_CURSORS)%nat ∨ is_Some (BTreeMap.get (cursors b1) path)) ∧
  open b1 = open b ∧ imported b1 = imported b ∧
  ∀ d a, TurnBook.tally b1 d a =
    if bool_decide (a = account) && negb (TurnBook.is_imported b d a)
    then with_tokens d (entries p) (TurnBook.tally b d a) else TurnBook.tally b d a)).
  - unfold read_and_record. cbn [fst snd]. rewrite Hread. cbn [mbind option_bind].
  pose proof (record_tokens_spec account p b
    (tokens_of es1 + N.of_nat (length es1) + N.of_nat (length files) + n) Hok) as Hrec.
  rewrite Hpath, Hstart in Hrec. specialize (Hrec eq_refl).
  apply runs_some in Hrec as ([changed b1] & -> & Hok1 & Hroom1 & _ & Ho & _ & Hi & _ & Hc & Ht);
    [|eapply room_mono; [|done]; lia].
  cbn. split_and!; try done.
  + unfold TurnBook.token_cursor at 1. rewrite Hc. case_bool_decide as Heq; [by rewrite Heq|].
    destruct (moved_spec p (cursors b)) as (_ & _ & _ & Hm); [apply Hok..|]. rewrite Hpath in Hm.
    by rewrite Hm.
  + rewrite Hc. case_bool_decide; [done|]. right.
    destruct (moved_spec p (cursors b)) as (_ & _ & _ & Hm); [apply Hok..|]. rewrite Hpath in Hm.
    rewrite Hm by done. by eexists.
  - intros b1 (Hok1 & Hroom1 & Hcur & Hheld1 & Ho1 & Hi1 & Ht1). rewrite <- Hcur in Hrest.
  eapply runs_mono; [by eapply IH|]. intros b' (Hok' & Hroom' & Hc' & Ho' & Hi' & Ht').
  split_and!; try done; [congruence|congruence|].
  intros d a. rewrite Ht', Ht1. unfold TurnBook.is_imported. rewrite Hi1.
  destruct (bool_decide (a = account)); cbn [andb]; [|done].
  destruct (bool_decide (a ∈ _)); cbn [negb]; [done|]. by rewrite with_tokens_app.
Qed.
End booking.

(** ** The first pass of a day *)

Section first.
Context {D : Decoding} {C : Calendar}.
Context (kind : TranscriptKind) (today : NaiveDate) (path : str).

(** The cursor as a pass of a day takes it up. *)
Definition of_day (c : TokenCursor) : TokenCursor :=
  if bool_decide (seen_day c = Some today) then c else set_seen (Some today) [] c.

Lemma of_day_day c : seen_day (of_day c) = Some today.
Proof. unfold of_day. by case_bool_decide. Qed.

(** All of a pass but where it started. *)
Definition outcome (r : option (option TokenPass)) :
  option (option (TokenCursor * list TokenEntry * list TurnStart)) :=
  match r with
  | Some (Some p) => Some (Some (cursor p, entries p, turn_starts p))
  | Some None => Some None
  | None => None
  end.

Lemma read_tokens_of_day c file now_ms : day now_ms = today →
  outcome (read_tokens path kind c file now_ms) = outcome (read_tokens path kind (of_day c) file now_ms).
Proof.
  intros Hnow. unfold of_day. case_bool_decide as Hd; [done|]. unfold read_tokens.
  destruct file as [[len data]|]; [|done]. rewrite Hnow.
  change (offset (set_seen (Some today) [] c)) with (offset c).
  assert (seen_day (if len <? offset c then set_skipping false (set_offset 0 c) else c) ≠ Some today) as Hd'
  by (by destruct (len <? offset c)).
  assert (seen_day (if len <? offset c then set_skipping false (set_offset 0 (set_seen (Some today) [] c))
  else set_seen (Some today) [] c) = Some today) as Hd2 by (by destruct (len <? offset c)).
  rewrite (bool_decide_false _ Hd'), (bool_decide_true _ Hd2).
  destruct (len <? offset c); cbn [seen set_seen offset set_skipping set_offset];
  destruct (skip_line _ _) as [[rest at0] c1]; destruct (scan _ _ _ _ _ _) as [at_ st];
  by destruct (add_u64 _ _).
Qed.

Lemma run_passes_of_day c data now_ms files : day now_ms = today →
  run_passes kind path c ((data, now_ms) :: files) = run_passes kind path (of_day c) ((data, now_ms) :: files).
Proof.
  intros Hnow. cbn [run_passes].
  pose proof (read_tokens_of_day c (Some (N.of_nat (length data), data)) now_ms Hnow) as Heq.
  destruct (read_tokens _ _ c _ _) as [[p|]|], (read_tokens _ _ (of_day c) _ _) as [[p'|]|]; cbn in *; try done.
  by injection Heq as -> -> ->.
Qed.

(** What the lines of some bytes count, read from a cursor. *)
Definition counts (c : TokenCursor) (bytes : list N) : Reading :=
  steps kind today (lines_rest bytes).1 (fresh_reading (of_day c)).

(** However the growth is cut into passes, their entries are those of the lines. *)
Lemma run_passes_spec c before files :
  skipping c = false → N.of_nat (length before) = offset c → files ≠ [] →
  growing today before files →
  ∃ c' es ts Q, run_passes kind path c files = Some (c', es, ts) ∧
  offset c' = offset c + N.of_nat (length Q) ∧ before ++ Q `prefix_of` latest before files ∧
  ((length (seen c') < MAX_SEEN_IDS)%nat →
   es = rd_entries (counts c Q) ∧ ts = rd_turns (counts c Q)).
Proof.
  intros Hskip Hbefore Hne Hg. destruct files as [|[data now_ms] files]; [done|].
  rewrite run_passes_of_day by (by destruct Hg as (_ & _ & ? & _)).
  assert (skipping (of_day c) = false ∧ offset (of_day c) = offset c) as [Hs Ho]
  by (unfold of_day; by case_bool_decide).
  pose proof (reads_start kind today (of_day c) Hs (of_day_day c)) as Hstart.
  destruct (run_passes_steps kind today path (of_day c) [] (of_day c) before ((data, now_ms) :: files) [])
  as (c' & es & ts & Q & Hrun & _ & Hpl & Hpre & Hr);
  [apply Hstart|by rewrite Ho|by rewrite !app_nil_r|].
  exists c', es, ts, Q. split; [done|]. split; [rewrite (pl_offset _ _ _ _ Hpl), Ho; cbn; lia|].
  split; [by rewrite !app_nil_r in Hpre|]. intros Hlt.
  by apply (reads_entries kind today (of_day c) Q c'), (Hr [] []).
Qed.
End first.

(** ** Cumulative totals *)

Section totals.
Context {D : Decoding} {C : Calendar}.

Definition input_sum (es : list TokenEntry) : N := foldr (λ e n, input e + n) 0 es.
Definition output_sum (es : list TokenEntry) : N := foldr (λ e n, output e + n) 0 es.

Lemma sums_app l k :
  input_sum (l ++ k) = input_sum l + input_sum k ∧ output_sum (l ++ k) = output_sum l + output_sum k.
Proof. induction l as [|e l [IH1 IH2]]; simpl; [done|]. rewrite IH1, IH2. lia. Qed.

Lemma entry_of_sums at_ms i o key :
  input_sum (entry_of (Some (at_ms, i, o)) key) = i ∧ output_sum (entry_of (Some (at_ms, i, o)) key) = o.
Proof.
  unfold entry_of. destruct (N.ltb_spec 0 i), (N.ltb_spec 0 o); cbn; lia.
Qed.

(** The totals of a rollout that were read. *)
Definition read_totals (c : TokenCursor) : N * N := default (0, 0) (totals c).

(** What was counted, and the totals that go with it. *)
Definition accounts (st st' : Reading) : Prop :=
  let t := read_totals (rd_cursor st) in let t' := read_totals (rd_cursor st') in
  t.1 ≤ t'.1 ∧ t.2 ≤ t'.2 ∧
  input_sum (rd_entries st') + t.1 = input_sum (rd_entries st) + t'.1 ∧
  output_sum (rd_entries st') + t.2 = output_sum (rd_entries st) + t'.2.

Lemma line_step_accounts today line st : accounts st (line_step CodexRollout today line st).
Proof.
  unfold line_step, accounts. destruct (MAX_LINE_BYTES <? _); [lia|].
  destruct (from_slice _) as [value|]; [|lia]. unfold value_step, codex_entry.
  destruct (if bool_decide (text_at _ _ = _) then _ else None) as [[total at_ms]|]; cbn [rd_cursor rd_entries].
  2: { cbn [entry_of]. rewrite app_nil_r. lia. }
  fold (read_totals (rd_cursor st)). destruct (read_totals (rd_cursor st)) as [li lo].
  set (i := count total _ - _). set (o := count total _).
  destruct (sums_app (rd_entries st) (entry_of (Some (at_ms, i - li, o - lo)) None)) as [Hi Ho].
  destruct (entry_of_sums at_ms (i - li) (o - lo) None) as [Hi' Ho'].
  cbn [rd_cursor rd_entries read_totals totals set_totals default fst snd].
  unfold read_totals. cbn [totals set_totals default fst snd]. rewrite Hi, Ho, Hi', Ho'. cbn. lia.
Qed.

Lemma steps_accounts today ls st : accounts st (steps CodexRollout today ls st).
Proof.
  revert st. induction ls as [|l ls IH]; intros st; [unfold accounts; cbn; lia|]. cbn [steps foldl].
  pose proof (line_step_accounts today l st) as H1. specialize (IH (line_step CodexRollout today l st)).
  unfold accounts, steps in *. cbn in *. lia.
Qed.

(** A pass over a rollout counts by how much its totals grew. *)
Lemma read_tokens_accounts path c file now_ms p :
  read_tokens path CodexRollout c file now_ms = Some (Some p) →
  let t := read_totals c in let t' := read_totals (cursor p) in
  t.1 ≤ t'.1 ∧ t.2 ≤ t'.2 ∧
  input_sum (entries p) = t'.1 - t.1 ∧ output_sum (entries p) = t'.2 - t.2.
Proof.
  unfold read_tokens. destruct file as [[len data]|]; [|done].
  set (c1 := if len <? offset c then _ else _). set (c2 := if bool_decide _ then c1 else _).
  assert (read_totals c2 = read_totals c) as Ht.
  { unfold c2, c1. case_bool_decide; by destruct (len <? offset c). }
  destruct (skip_line _ c2) as [[rest at0] c3] eqn:Hs.
  assert (read_totals c3 = read_totals c2) as Ht3.
  { revert Hs. unfold skip_line. destruct (skipping c2); [|by intros [= _ _ <-]].
  destruct (split_line _) as [[x after]|]; by intros [= _ _ <-]. }
  rewrite scan_lines by done. destruct (lines_rest rest) as [ls r].
  pose proof (steps_accounts (day now_ms) ls (mkReading (list_to_set (seen c2)) c3 [] [])) as Hacc.
  unfold accounts in Hacc. cbn [rd_cursor rd_entries input_sum output_sum foldr] in Hacc.
  rewrite Ht3, Ht in Hacc.
  destruct (MAX_LINE_BYTES <? _); destruct (add_u64 _ _); try done; intros [= <-];
  cbn [cursor entries with_cursor rd_cursor rd_entries];
  unfold read_totals in *; cbn [totals set_touched set_offset set_skipping] in *; lia.
Qed.
End totals.

(** ** What a transcript counts *)

Section messages.
Context {D : Decoding} {C : Calendar}.

(** What a line holds, if it is not too long. *)
Definition line_value (line : list N) : option Value :=
  if MAX_LINE_BYTES <? N.of_nat (length line) then None else from_slice (trim_ascii line).

(** The usage in a line: when, and how much input and output. *)
Notation Usage := (N * N * N)%type (only parsing).

(** A message of Claude: its id and its usage. *)
Definition message_of (value : Value) : option (str * Usage) :=
  _ ← assert (bool_decide (text_at value "type"%string = Some ("assistant"%string : str)));
  message ← Value.get value "message"%string;
  id ← text_at message "id"%string;
  usage ← Value.get message "usage"%string;
  _ ← assert (is_object usage);
  at_ms ← entry_ms value;
  Some (id, (at_ms, count usage "input_tokens"%string, count usage "output_tokens"%string)).

(** The totals that a rollout of Codex reports; input from the cache is not counted. *)
Definition totals_of (value : Value) : option Usage :=
  _ ← assert (bool_decide (text_at value "type"%string = Some ("event_msg"%string : str)));
  payload ← Value.get value "payload"%string;
  _ ← assert (bool_decide (text_at payload "type"%string = Some ("token_count"%string : str)));
  info ← Value.get payload "info"%string;
  _ ← assert (is_object info);
  total ← Value.get info "total_token_usage"%string;
  _ ← assert (is_object total);
  at_ms ← entry_ms value;
  Some (at_ms, count total "input_tokens"%string - count total "cached_input_tokens"%string,
        count total "output_tokens"%string).

(** The messages whose id is not held and was not in an earlier message. *)
Fixpoint first_seen (held : gset str) (messages : list (str * Usage)) : list (str * Usage) :=
  match messages with
  | [] => []
  | (id, usage) :: messages =>
      if decide (id ∈ held) then first_seen held messages
      else (id, usage) :: first_seen ({[id]} ∪ held) messages
  end.

(** By how much each total exceeds the largest before it. *)
Fixpoint growths (largest : N * N) (totals : list Usage) : list Usage :=
  match totals with
  | [] => []
  | (at_ms, i, o) :: totals =>
      (at_ms, i - largest.1, o - largest.2) :: growths (N.max largest.1 i, N.max largest.2 o) totals
  end.

(** The entry of a usage that is not zero, on its day. *)
Definition usage_entry (key : option N) (usage : Usage) : list TokenEntry :=
  let '(at_ms, i, o) := usage in
  if decide (i = 0 ∧ o = 0) then [] else [mkEntry (day at_ms) i o key].

(** What the lines of a transcript count, with the ids of the day and the totals that a
    cursor holds. *)
Definition line_entries (kind : TranscriptKind) (today : NaiveDate) (c : TokenCursor) (ls : list (list N)) :
  list TokenEntry :=
  match kind with
  | Claude =>
      let held := if decide (seen_day c = Some today) then seen c else [] in
      '(id, usage) ← first_seen (list_to_set held) (omap (λ l, v ← line_value l; message_of v) ls);
      usage_entry (Some (hash_str id)) usage
  | CodexRollout =>
      growths (read_totals c) (omap (λ l, v ← line_value l; totals_of v) ls) ≫= usage_entry None
  end.

Lemma entry_of_usage key u : entry_of (Some u) key = usage_entry key u.
Proof.
  destruct u as [[at_ms i] o]. cbn. case_decide as Hz.
  - by destruct Hz as [-> ->].
  - destruct (N.ltb_spec 0 i); [done|]. destruct (N.ltb_spec 0 o); [done|lia].
Qed.

Lemma claude_step today line st :
  let st' := line_step Claude today line st in
  match (v ← line_value line; message_of v) with
  | Some (id, usage) =>
      if decide (id ∈ rd_seen st) then rd_entries st' = rd_entries st ∧ rd_seen st' = rd_seen st
      else rd_entries st' = rd_entries st ++ usage_entry (Some (hash_str id)) usage ∧
        rd_seen st' = {[id]} ∪ rd_seen st
  | None => rd_entries st' = rd_entries st ∧ rd_seen st' = rd_seen st
  end.
Proof.
  cbv zeta. unfold line_step, line_value. destruct (MAX_LINE_BYTES <? _); [done|].
  destruct (from_slice (trim_ascii line)) as [value|]; [|done]. cbn [mbind option_bind].
  unfold value_step, claude_entry, message_of, line_key, text_at. cbn [pointer].
  case_bool_decide; cbn [assert mbind option_bind]; [|by rewrite app_nil_r].
  destruct (Value.get value "message"%string) as [message|]; cbn [mbind option_bind]; [|by rewrite app_nil_r].
  destruct (Value.get message "id"%string) as [v|]; cbn [mbind option_bind]; [|by rewrite app_nil_r].
  destruct (Value.as_str v) as [id|]; cbn [mbind option_bind]; [|by rewrite app_nil_r].
  destruct (Value.get message "usage"%string) as [usage|]; cbn [mbind option_bind]; [|by rewrite app_nil_r].
  destruct (is_object usage); cbn [assert mbind option_bind]; [|by rewrite app_nil_r].
  destruct (entry_ms value) as [at_ms|]; cbn [mbind option_bind]; [|by rewrite app_nil_r].
  destruct (decide (id ∈ rd_seen st)) as [Hin|Hin].
  - rewrite bool_decide_eq_true_2 by done. by rewrite app_nil_r.
  - rewrite bool_decide_eq_false_2 by done. cbn [rd_entries rd_seen]. by rewrite entry_of_usage.
Qed.

Lemma claude_steps today ls st :
  rd_entries (steps Claude today ls st) = rd_entries st ++
    ('(id, usage) ← first_seen (rd_seen st) (omap (λ l, v ← line_value l; message_of v) ls);
     usage_entry (Some (hash_str id)) usage).
Proof.
  revert st. induction ls as [|l ls IH]; intros st; [by rewrite app_nil_r|].
  cbn [steps foldl]. fold (steps Claude today ls (line_step Claude today l st)). rewrite IH.
  pose proof (claude_step today l st) as Hl. cbv zeta in Hl. simpl.
  destruct (v ← line_value l; message_of v) as [[id usage]|]; [|by destruct Hl as [-> ->]].
  cbn [first_seen]. destruct (decide (id ∈ rd_seen st)); destruct Hl as [-> ->]; [done|].
  by rewrite bind_cons, <- app_assoc.
Qed.

Lemma codex_step today line st :
  let st' := line_step CodexRollout today line st in let t := read_totals (rd_cursor st) in
  match (v ← line_value line; totals_of v) with
  | Some (at_ms, i, o) =>
      rd_entries st' = rd_entries st ++ usage_entry None (at_ms, i - t.1, o - t.2) ∧
      read_totals (rd_cursor st') = (N.max t.1 i, N.max t.2 o)
  | None => rd_entries st' = rd_entries st ∧ read_totals (rd_cursor st') = t
  end.
Proof.
  cbv zeta. unfold line_step, line_value. destruct (MAX_LINE_BYTES <? _); [done|].
  destruct (from_slice (trim_ascii line)) as [value|]; [|done]. cbn [mbind option_bind].
  unfold value_step, codex_entry, totals_of.
  case_bool_decide; cbn [assert mbind option_bind]; [|by rewrite app_nil_r].
  destruct (Value.get value "payload"%string) as [payload|]; cbn [mbind option_bind]; [|by rewrite app_nil_r].
  case_bool_decide; cbn [assert mbind option_bind]; [|by rewrite app_nil_r].
  destruct (Value.get payload "info"%string) as [info|]; cbn [mbind option_bind]; [|by rewrite app_nil_r].
  destruct (is_object info); cbn [assert mbind option_bind]; [|by rewrite app_nil_r].
  destruct (Value.get info "total_token_usage"%string) as [total|]; cbn [mbind option_bind]; [|by rewrite app_nil_r].
  destruct (is_object total); cbn [assert mbind option_bind]; [|by rewrite app_nil_r].
  destruct (entry_ms value) as [at_ms|]; cbn [mbind option_bind]; [|by rewrite app_nil_r].
  fold (read_totals (rd_cursor st)). destruct (read_totals (rd_cursor st)) as [li lo].
  cbn [rd_entries rd_cursor fst snd]. by rewrite entry_of_usage.
Qed.

Lemma codex_steps today ls st :
  rd_entries (steps CodexRollout today ls st) = rd_entries st ++
    (growths (read_totals (rd_cursor st)) (omap (λ l, v ← line_value l; totals_of v) ls) ≫= usage_entry None).
Proof.
  revert st. induction ls as [|l ls IH]; intros st; [by rewrite app_nil_r|].
  cbn [steps foldl]. fold (steps CodexRollout today ls (line_step CodexRollout today l st)). rewrite IH.
  pose proof (codex_step today l st) as Hl. cbv zeta in Hl. simpl.
  destruct (v ← line_value l; totals_of v) as [[[at_ms i] o]|]; destruct Hl as [-> ->]; [|done].
  cbn [growths]. by rewrite bind_cons, <- app_assoc.
Qed.

(** The entries of some lines that are read at once are what they count. *)
Lemma counts_entries kind today c bytes :
  rd_entries (counts kind today c bytes) = line_entries kind today c (lines_rest bytes).1.
Proof.
  unfold counts, line_entries, of_day, fresh_reading. destruct kind.
  - rewrite claude_steps. cbn [rd_entries rd_seen app]. by case_bool_decide; case_decide.
  - rewrite codex_steps. cbn [rd_entries rd_cursor app]. by case_bool_decide.
Qed.
End messages.
