(* ===== verification/UsageProperties.v ===== *)
(** * The usage ledger: properties

    What a signal, a sweep, a pass over a transcript, an import and a restart do to
    the days, stated against the milliseconds that lie in each day; and that nothing
    is counted twice. *)

From stdpp Require Import gmap list strings sorting.
From S2P Require Import Prelude DiffText OrderedMap AgentActivity AgentSession AgentWorker.
From S2P Require Import UsageLedger UsageLedgerCorrect UsageLedgerBatches UsageTokens UsageTokensCorrect.

Local Open Scope N_scope.

Section calendar.
Context {C : Calendar} {CL : CalendarLaws C}.

(** C34: A span of work that is booked adds to the active time of each day exactly the
milliseconds of the span that lie in that day, to nothing else and to no other
account; the loop over its midnights ends and nothing overflows while there is
room for its length.  Imported days are left as they are. *)
Theorem span_split_at_midnights account start stop b :
  start ≤ stop → stop ≤ MAX_AT → room (stop - start) b →
  ∃ b', TurnBook.book_span account start stop b = Some b' ∧ same_rest b b' ∧
  ∀ d a, TurnBook.tally b' d a =
  if bool_decide (a = account) && negb (TurnBook.is_imported b d a)
  then with_active (overlap d start stop) (TurnBook.tally b d a) else TurnBook.tally b d a.
Proof.
  intros Hle Hmax Hroom.
  pose proof (book_span_spec account start stop b Hle Hmax Hroom) as (b' & Hrun & Hb)%runs_some.
  exists b'. split; [done|]. split; [apply Hb|]. intros d a. rewrite (bk_tally _ _ _ _ _ Hb).
  by destruct (bool_decide_reflect (a = account)) as [->|].
Qed.

(** When a signal ends the turn of [tr]. *)
Definition ended_at (signal : TurnSignal) (tr : list TurnSignal) : N :=
  match ts_input signal with Vanished => last_at 0 tr | _ => ts_at_ms signal end.

(** What a signal books, by the signals of its session's open turn. *)
Definition booked_by (signal : TurnSignal) (tr : list TurnSignal) :
    option (LedgerAccount * (NaiveDate → DayTally → DayTally)) :=
  match ts_input signal, tr with
  | Prompt, [] | Working, [] =>
      Some (ts_account signal, λ d t, if bool_decide (d = day (ts_at_ms signal)) then with_turn t else t)
  | Settled, first :: _ | StopInput, first :: _ | Ended, first :: _ | Vanished, first :: _ =>
      Some (ts_account first, λ d, with_active
        (worked_in d (worked tr) MAX_TURN_ACTIVE_MS (ts_at_ms first)
          (N.to_nat (ended_at signal tr - ts_at_ms first))))
  | _, _ => None
  end.

Lemma turn_change_booked signal b tr d a (im : bool) t :
  held tr (BTreeMap.get (open b) (ts_session signal)) →
  in_order 0 tr → last_at 0 tr ≤ ended_at signal tr → (times_working tr ≤ MAX_TURN_INTERVALS)%nat →
  (if bool_decide (a = (turn_change signal b).1) && im then (turn_change signal b).2 d t else t) =
  match booked_by signal tr with
  | Some (account, change) => if bool_decide (a = account) && im then change d t else t
  | None => t
  end.
Proof.
  intros Hheld Horder Hend Hcount. unfold turn_change, booked_by, ended_at in *.
  destruct tr as [|first tr].
  - cbn in Hheld. rewrite Hheld. destruct (ts_input signal); cbn [fst snd]; try by destruct (_ && _).
  - destruct Hheld as (turn & Heq & _ & Ht). rewrite Heq. specialize (Ht Horder Hcount).
    pose proof (tc_last _ _ _ Ht) as Hlast. rewrite (last_at_cons _ 0) in Hlast.
    assert (Htime : ∀ stop, last_event_ms turn ≤ default (last_event_ms turn) stop → overlaps d (turn_time stop turn) =
      worked_in d (worked (first :: tr)) MAX_TURN_ACTIVE_MS (ts_at_ms first)
        (N.to_nat (default (last_event_ms turn) stop - ts_at_ms first))) by (intros; by apply turn_time_traced).
    destruct (ts_input signal); cbn [fst snd]; try by destruct (_ && _).
    all: rewrite (tc_account _ _ _ Ht), Htime; [|cbn; lia]; cbn [default]; try done.
    by rewrite Hlast.
Qed.

(** C29: After any run of signals, sweeps, passes and imports that begins with no open
    turn of a session, a signal of the session that is new - of a hook: newer than its
    watermark - counts a turn on its day if it is a prompt or work and no turn is open,
    and, if it ends one, the time of it, for the account that opened it: on each day the
    milliseconds of that day between the turn's first signal and its end at which the
    last signal of work or of a blocker was of work - all of them, when none of its
    signals was of work - of at most the first four hours of such.  The other signals
    count nothing; every other tally, the imports and the cursors stay.  The session's
    turn is open after it if a prompt or work has come since the last end, and the other
    sessions' turns are as they were.  A signal that is not new changes no tally and no
    turn.  This is for turns whose signals come in the order of their times, with at
    most 256 of work, and while the sums stay below 2^64. *)
Theorem signal_counts_exactly es signal b0 tr b :
  Forall event_ok es → book_ok b0 → BTreeMap.get (open b0) (ts_session signal) = None →
  run_traced (ts_session signal) es [] b0 = Some (tr, b) →
  room (MAX_TURN_ACTIVE_MS + 1) b → ts_at_ms signal ≤ MAX_AT →
  in_order 0 tr → last_at 0 tr ≤ ended_at signal tr → (times_working tr ≤ MAX_TURN_INTERVALS)%nat →
  ∃ b', TurnBook.apply signal b = Some b' ∧ book_ok b' ∧
  imported b' = imported b ∧ cursors b' = cursors b ∧
  (∀ s, s ≠ ts_session signal → BTreeMap.get (open b') s = BTreeMap.get (open b) s) ∧
  (is_Some (BTreeMap.get (open b') (ts_session signal)) ↔ trace_signal signal b tr ≠ []) ∧
  (fresh signal b = false → open b' = open b) ∧
  ∀ d a, TurnBook.tally b' d a =
    match (if fresh signal b then booked_by signal tr else None) with
    | Some (account, change) =>
        if bool_decide (a = account) && negb (TurnBook.is_imported b d a)
        then change d (TurnBook.tally b d a) else TurnBook.tally b d a
    | None => TurnBook.tally b d a
    end.
Proof.
  intros Hes Hok0 Hnone Hrun Hroom Hat Horder Hend Hcount.
  destruct (run_traced_held _ es [] b0 tr b Hes Hok0 Hnone Hrun) as [Hok Hheld].
  pose proof (apply_spec signal b Hok Hroom Hat)
    as (b' & Happly & Hok' & Hopen & _ & Him & Hcur & _ & _ & Ht)%runs_some.
  exists b'. split_and!; [done..| | | |].
  - intros s Hs. by rewrite (apply_open _ _ _ _ Happly), bool_decide_false.
  - pose proof (held_signal _ _ _ _ Happly Hheld) as Hheld'. destruct (trace_signal signal b tr) as [|first tr'].
    + cbn in Hheld'. rewrite Hheld'. split; [by intros [? ?]|done].
    + destruct Hheld' as (t & -> & _). split; [done|by eexists].
  - intros Hf. by rewrite Hf in Hopen.
  - intros d a. rewrite Ht. destruct (fresh signal b); [|done]. cbn [andb].
    by apply turn_change_booked.
Qed.

(** A hook's signal that is delivered again changes nothing: the days, the open
turns and the revision stay. *)
Theorem hook_replay_harmless signal b b1 :
  book_ok b → room (MAX_TURN_ACTIVE_MS + 1) b → ts_at_ms signal ≤ MAX_AT →
  from_hook (ts_input signal) = true → TurnBook.apply signal b = Some b1 →
  ∃ b2, TurnBook.apply signal b1 = Some b2 ∧
  days b2 = days b1 ∧ open b2 = open b1 ∧ revision b2 = revision b1.
Proof.
  intros Hok Hroom Hat Hhook Happly.
  by pose proof (apply_again signal b b1 Hok Hroom Hat Hhook Happly) as (b2 & ? & ?)%runs_some; exists b2.
Qed.

(** A sweep ends exactly the turns whose session is not running, that declared
work and are no longer in a turn, or that are idle for four hours; it books their
time and nothing else, and a second sweep finds none. *)
Theorem sweep_ends_expired running in_turn now_ms b :
  book_ok b → now_ms ≤ MAX_AT →
  room ((MAX_TURN_ACTIVE_MS + 1) * N.of_nat (length (open b))) b →
  ∃ b', TurnBook.expire running in_turn now_ms b =
      Some (length (expired running in_turn now_ms b), b') ∧ book_ok b' ∧
  (∀ s t, BTreeMap.get (open b') s = Some t ↔
   BTreeMap.get (open b) s = Some t ∧ TurnBook.expired_end running in_turn now_ms s t = None) ∧
  (∀ d a, TurnBook.tally b' d a =
   if TurnBook.is_imported b d a then TurnBook.tally b d a
   else with_active (ended_time (open b) (expired running in_turn now_ms b) d a)
          (TurnBook.tally b d a)) ∧
  TurnBook.expire running in_turn now_ms b' = Some (O, b').
Proof.
  intros Hok Hnow Hroom.
  pose proof (expire_spec running in_turn now_ms b 0 Hok Hnow) as Hspec. rewrite N.add_0_r in Hspec.
  apply runs_some in Hspec as ([n b'] & Hrun & -> & Hends & _); [|done]. exists b'.
  split; [done|]. split; [apply Hends|]. split; [|split; [apply Hends|]].
  - intros s t. rewrite (en_open _ _ _ Hends). pose proof (bo_open _ Hok) as Hs. case_bool_decide as Hin.
  + split; [done|]. intros [Hget Hnone]. apply list_elem_of_fmap in Hin as ([s' e] & -> & Hin).
  apply elem_expired in Hin as (t' & Hget' & He); [|done].
  cbn [fst] in Hget, Hnone. rewrite Hget in Hget'. injection Hget' as ->. congruence.
  + split; [|tauto]. intros Hget. split; [done|].
  destruct (TurnBook.expired_end running in_turn now_ms s t) as [e|] eqn:He; [|done].
  destruct Hin. apply list_elem_of_fmap. exists (s, e). split; [done|]. apply elem_expired; [done|].
  by exists t.
  - unfold TurnBook.expire. fold (expired running in_turn now_ms b').
  by rewrite (expire_settles _ _ _ _ _ Hok Hends).
Qed.

(** C30: Over any run of signals, sweeps, passes and imports that does not overflow, a
book stays well formed - no day is empty, what is marked as imported is there,
the maps are sorted, there are at most 200 cursors and each open turn is
consistent - and a tally that was imported is never changed again. *)
Theorem history_is_sound es b b' :
  Forall event_ok es → book_ok b → run_events es b = Some b' →
  book_ok b' ∧ ∀ d a, TurnBook.is_imported b d a = true →
  TurnBook.is_imported b' d a = true ∧ TurnBook.tally b' d a = TurnBook.tally b d a.
Proof.
  intros Hes Hok Hrun. destruct (run_events_sound es b b' Hes Hok Hrun) as [Hok' Hk].
  split; [done|]. intros d a [Hi Ht]%Hk. split; [done|]. unfold TurnBook.tally. by rewrite Ht.
Qed.
End calendar.

(** An import books a tally of a past day exactly where the account had none that
    day, and marks it; what was held stays.  Importing the same days again changes no
    day and marks nothing more. *)
Theorem import_counts_once new today record b :
  revision b + 2 < 2 ^ 64 →
  ∃ b1 n1 b2 n2, TurnBook.import_days new today record b = Some (b1, n1) ∧
    (∀ d a, tallies_of b1 d !! a = tallies_of b d !! a ∪ brought new today d a) ∧
    (∀ d a, TurnBook.is_imported b1 d a = TurnBook.is_imported b d a
       || bool_decide (tallies_of b d !! a = None) && bool_decide (is_Some (brought new today d a))) ∧
    TurnBook.import_days new today record b1 = Some (b2, n2) ∧
    ∀ d a, tallies_of b2 d !! a = tallies_of b1 d !! a ∧
           TurnBook.is_imported b2 d a = TurnBook.is_imported b1 d a.
Proof.
  intros Hrev.
  assert (Himport : ∀ b b' n, TurnBook.import_days new today record b = Some (b', n) →
    revision b' = revision b + 1 ∧
    (∀ d a, tallies_of b' d !! a = tallies_of b d !! a ∪ brought new today d a) ∧
    (∀ d a, TurnBook.is_imported b' d a = TurnBook.is_imported b d a
       || bool_decide (tallies_of b d !! a = None) && bool_decide (is_Some (brought new today d a)))).
  { intros c c' n (_ & Hr & c0 & Hadds & Hrest & Hdays)%import_days_some. split; [done|]. split; intros d a.
    - unfold tallies_of at 1. rewrite Hdays. apply (ad_tally _ _ _ Hadds).
    - rewrite (same_rest_imported _ _ d a Hrest). apply (ad_imported _ _ _ Hadds). }
  destruct (import_days_runs new today record b) as [[b1 n1] H1]; [lia|].
  destruct (Himport _ _ _ H1) as (Hr1 & Ht1 & Hi1).
  destruct (import_days_runs new today record b1) as [[b2 n2] H2]; [lia|].
  destruct (Himport _ _ _ H2) as (_ & Ht2 & Hi2).
  exists b1, n1, b2, n2. split_and!; [done..|]. intros d a. rewrite Ht2, Hi2, Ht1.
  destruct (tallies_of b d !! a), (brought new today d a); cbn; split; try done; by rewrite orb_false_r.
Qed.

(** C31: A pass over a transcript that starts where the ledger's cursor is adds the
    tokens of each entry to its day, and nothing else, and moves the cursor; delivered
    again it is refused and changes nothing.  A pass that starts elsewhere is refused.
    (A new transcript's cursor may be the one dropped when there are 200.) *)
Theorem tokens_counted_once account pass b :
  book_ok b → cursor pass ≠ start pass →
  room (tokens_of (entries pass) + N.of_nat (length (entries pass)) + 1) b →
  (length (cursors b) < MAX_CURSORS)%nat ∨ is_Some (BTreeMap.get (cursors b) (pass_path pass))
    ∨ start pass ≠ TokenCursor_default →
  if bool_decide (TurnBook.token_cursor b (pass_path pass) = start pass) then
    ∃ b', TurnBook.record_tokens account pass b = Some (true, b') ∧ book_ok b' ∧
      (∀ d a, TurnBook.tally b' d a =
         if bool_decide (a = account) && negb (TurnBook.is_imported b d a)
         then with_tokens d (entries pass) (TurnBook.tally b d a) else TurnBook.tally b d a) ∧
      TurnBook.record_tokens account pass b' = Some (false, b')
  else TurnBook.record_tokens account pass b = Some (false, b).
Proof.
  intros Hok Hne Hroom Hkept. case_bool_decide as Hstart; [|by apply record_tokens_refused].
  pose proof (record_tokens_spec account pass b 0 Hok Hstart) as Hspec. rewrite N.add_0_r in Hspec.
  apply runs_some in Hspec as ([changed b'] & Hrun & Hok' & _ & Hch & _ & _ & _ & _ & _ & Ht); [|done].
  rewrite bool_decide_true in Hch by tauto. subst changed.
  exists b'. split_and!; [done..|].
  exact (record_tokens_once account account pass b b' true Hok Hstart Hroom Hne Hkept Hrun).
Qed.

Section file.
Context `{E : LedgerEncoding, EL : !LedgerEncodingLaws E} `{TimeZone}.

(** C33: A ledger that [flush] has written, in a file of at most 8 MiB, is read again
    at the next start and not moved aside: it has the tallies and the imports of the
    last 400 days, the watermarks, the cursors and the import's record as they were;
    its open turns are those that were open, their working time ended with their last
    event.  (A larger file is written too, and is not read: [large_ledger_is_lost].) *)
Theorem ledger_survives_restart l l' now force written data now_ms :
  book_ok (l_book l) → Ledger.flush now force written l = (true, l', Some data) →
  N.of_nat (length data) ≤ MAX_LEDGER_BYTES →
  let b := l_book l in let b' := l_book (Ledger.load (holds data) now_ms).1 in
  (Ledger.load (holds data) now_ms).2 = false ∧ book_ok b' ∧
  (∀ s, BTreeMap.get (open b') s = resumed <$> BTreeMap.get (open b) s) ∧
  watermarks b' = watermarks b ∧ cursors b' = cursors b ∧ import_record b' = import_record b ∧
  ∀ d a, (zone_day now_ms - RETAINED_DAYS < d)%Z →
    TurnBook.tally b' d a = TurnBook.tally b d a ∧
    TurnBook.is_imported b' d a = TurnBook.is_imported b d a.
Proof.
  intros Hok (Hdata & _)%flush_writes Hsize. cbv zeta.
  rewrite (load_written _ _ _ Hdata), (proj2 (N.leb_le _ _) Hsize). cbn [fst snd l_book negb].
  destruct (restored_book (l_book l) now_ms Hok) as (? & Ho & ? & ? & ? & ?).
  split_and!; try done. intros s. by rewrite Ho, get_map_values.
Qed.

(** A ledger of more than 8 MiB is written, and taken for written; at the next start
    it is moved aside and an empty one takes its place. *)
Lemma large_ledger_is_lost l l' now force written data now_ms :
  Ledger.flush now force written l = (true, l', Some data) →
  MAX_LEDGER_BYTES < N.of_nat (length data) →
  written_revision l' = revision (l_book l) ∧ (Ledger.load (holds data) now_ms).2 = true ∧
  l_book (Ledger.load (holds data) now_ms).1 = TurnBook_default.
Proof.
  intros (Hdata & _ & Hrev & _)%flush_writes Hsize. split; [done|].
  assert (read_regular_capped (holds data) MAX_LEDGER_BYTES = inr IoFileTooLarge) as Hread.
  { unfold read_regular_capped, open_regular_for_reading. cbn. by rewrite (proj2 (N.ltb_lt _ _)). }
  split; [|apply load_unreadable; by rewrite Hread].
  unfold Ledger.load, Ledger.read_book. by rewrite Hread.
Qed.
End file.

(** ** Transcripts *)

Section transcripts.
Context {D : Decoding} {C : Calendar}.


(** A pass makes progress: it goes over bytes of the file from where it starts, and
what it leaves of the at most 8 MiB it reads is a line that is not finished and not
longer than 1 MiB.  A pass that goes over nothing leaves nothing else either, so
that no line, however long, holds up a transcript. *)
Theorem pass_makes_progress kind path c before more now_ms :
  skipping c = false → N.of_nat (length before) = offset c →
  N.of_nat (length (before ++ more)) < 2 ^ 64 →
  ∃ p Q r, read_tokens path kind c (Some (N.of_nat (length (before ++ more)), before ++ more)) now_ms
           = Some (Some p) ∧
  more = Q ++ r ∧ offset (cursor p) = offset c + N.of_nat (length Q) ∧
  (N.of_nat (length more) ≤ MAX_PASS_BYTES ∨ Q = [] →
   NEWLINE ∉ r ∧ N.of_nat (length r) ≤ MAX_LINE_BYTES).
Proof.
  intros Hskip Hbefore Hmax. set (today := day now_ms).
  assert (skipping (of_day today c) = false ∧ offset (of_day today c) = offset c) as [Hs Ho]
  by (unfold of_day; by case_bool_decide).
  destruct (pass_spec kind today path (of_day today c) [] (of_day today c) before more
  (N.of_nat (length (before ++ more))) now_ms) as (p & Q & r & Hread & _ & _ & HQ & _ & Hpl & _ & Hr);
  [by apply (reads_start kind today), of_day_day|by rewrite Ho|done|rewrite length_app; lia|done|].
  pose proof (read_tokens_of_day kind today path c
  (Some (N.of_nat (length (before ++ more)), before ++ more)) now_ms eq_refl) as Heq.
  rewrite app_nil_l in Hread. rewrite Hread in Heq.
  destruct (read_tokens path kind c _ now_ms) as [[p'|]|]; cbn in Heq; try done.
  injection Heq as Hcur _ _. exists p', Q, r. split_and!; [done..| |done].
  rewrite Hcur, (pl_offset _ _ _ _ Hpl), Ho. done.
Qed.

(** A pass over a rollout counts exactly by how much the largest totals it has seen
grew, whatever is in the file and wherever it starts: the entries' sums are the
differences of the cursor's totals, which never fall. *)
Theorem rollout_counts_growth path c file now_ms p :
  read_tokens path CodexRollout c file now_ms = Some (Some p) →
  (read_totals c).1 ≤ (read_totals (cursor p)).1 ∧ (read_totals c).2 ≤ (read_totals (cursor p)).2 ∧
  input_sum (entries p) = (read_totals (cursor p)).1 - (read_totals c).1 ∧
  output_sum (entries p) = (read_totals (cursor p)).2 - (read_totals c).2.
Proof. apply read_tokens_accounts. Qed.
End transcripts.

(** ** A zone *)

(** A zone of [chrono] with a fixed offset, in milliseconds, and [chrono]'s bounds of dates. *)
Definition DAY_MS : Z := 86400000.

Definition FixedOffset (offset_ms : Z) : TimeZone := {|
  date_MIN := -96465292;
  date_MAX := 95026236;
  date_at at_ms :=
    let d := ((Z.of_N at_ms + offset_ms) / DAY_MS)%Z in
    if (d <=? 95026236)%Z then Some d else None;
  earliest_at d hour := Some (d * DAY_MS + Z.of_nat hour * 3600000 - offset_ms)%Z |}.

Lemma fixed_day offset_ms at_ms : (Z.abs offset_ms < DAY_MS)%Z → at_ms < MAX_AT →
  @zone_day (FixedOffset offset_ms) at_ms = ((Z.of_N at_ms + offset_ms) / DAY_MS)%Z ∧
  ((Z.of_N at_ms + offset_ms) / DAY_MS < 95026236)%Z.
Proof.
  intros Hoff Hat. unfold MAX_AT in Hat. unfold DAY_MS in *.
  assert ((Z.of_N at_ms + offset_ms) / 86400000 < 95026236)%Z as Hd.
  { apply Z.div_lt_upper_bound; lia. }
  split; [|done]. unfold zone_day. rewrite (proj2 (N.leb_le at_ms I64_MAX)).
  - cbn [date_at date_MIN FixedOffset]. unfold DAY_MS. by rewrite (proj2 (Z.leb_le _ _)) by lia.
  - unfold I64_MAX. lia.
Qed.

Lemma fixed_midnight offset_ms at_ms : (Z.abs offset_ms < DAY_MS)%Z → at_ms < MAX_AT →
  let midnight := (((Z.of_N at_ms + offset_ms) / DAY_MS + 1) * DAY_MS - offset_ms)%Z in
  (Z.of_N at_ms < midnight)%Z ∧
  @zone_next_midnight_ms (FixedOffset offset_ms) at_ms = Z.to_N midnight.
Proof.
  intros Hoff Hat. destruct (fixed_day offset_ms at_ms Hoff Hat) as [Hday Hmax].
  unfold zone_next_midnight_ms. rewrite Hday. unfold DAY_MS, MAX_AT in *.
  pose proof (Z.div_mod (Z.of_N at_ms + offset_ms) 86400000 ltac:(lia)).
  pose proof (Z.mod_pos_bound (Z.of_N at_ms + offset_ms) 86400000 ltac:(lia)).
  set (d := ((Z.of_N at_ms + offset_ms) / 86400000)%Z) in *.
  assert (Z.of_N at_ms < (d + 1) * 86400000 - offset_ms)%Z as Hlt by lia.
  split; [done|]. cbn [date_MAX FixedOffset]. rewrite (proj2 (Z.leb_gt _ _)) by done.
  cbn [seq find_map earliest_at FixedOffset]. cbn [mbind option_bind]. unfold u64_try_from, DAY_MS.
  change (Z.of_nat 0 * 3600000)%Z with 0%Z. rewrite Z.add_0_r.
  rewrite (proj2 (Z.leb_le _ _)), (proj2 (Z.ltb_lt _ _)) by lia. cbn [andb mbind option_bind].
  rewrite (proj2 (N.ltb_lt _ _)) by lia. done.
Qed.

Lemma fixed_laws offset_ms : (Z.abs offset_ms < DAY_MS)%Z →
  CalendarLaws (@ZoneCalendar (FixedOffset offset_ms)).
Proof.
  intros Hoff. split; cbn [day next_midnight_ms ZoneCalendar].
  - intros t Ht. destruct (fixed_midnight offset_ms t Hoff Ht) as [? ->]. lia.
  - intros t t' Hle Ht' Hlt. assert (t < MAX_AT) as Ht by lia.
    destruct (fixed_midnight offset_ms t Hoff Ht) as [Hm Hnext]. rewrite Hnext in Hlt.
    destruct (fixed_day offset_ms t Hoff Ht) as [-> _], (fixed_day offset_ms t' Hoff Ht') as [-> _].
    unfold DAY_MS in *.
    pose proof (Z.div_mod (Z.of_N t + offset_ms) 86400000 ltac:(lia)).
    pose proof (Z.mod_pos_bound (Z.of_N t + offset_ms) 86400000 ltac:(lia)).
    set (d := ((Z.of_N t + offset_ms) / 86400000)%Z) in *.
    symmetry. apply (Z.div_unique _ _ _ (Z.of_N t' + offset_ms - 86400000 * d)%Z); lia.
Qed.

(** Paris in winter. *)
Definition Paris : TimeZone := FixedOffset 3600000.
#[local] Existing Instance Paris.
#[local] Instance calendar : Calendar := ZoneCalendar.
#[local] Instance calendar_laws : CalendarLaws calendar.
Proof. apply fixed_laws. unfold DAY_MS. lia. Qed.

(** ** Sample runs *)

Definition claude : LedgerAccount := mkAccount [99] [100].

Definition sample (i : TurnInput) (at_ms : N) : TurnSignal := mkSignal [115] claude i at_ms 0 None.

Lemma default_room n : n < 2 ^ 64 → room n TurnBook_default.
Proof.
  intros Hn. split; [done|..]; intros d a;
    (assert (TurnBook.tally TurnBook_default d a = DayTally_default) as -> by
      (unfold TurnBook.tally, tallies_of; cbn; by rewrite lookup_empty)); cbn; lia.
Qed.

(** Ten milliseconds before midnight in Paris, and ten after. *)
Lemma span_split_at_midnights_witness :
  ∃ b', TurnBook.book_span claude 82799990 82800010 TurnBook_default = Some b' ∧
    active_ms (TurnBook.tally b' 0 claude) = 10 ∧ active_ms (TurnBook.tally b' 1 claude) = 10.
Proof.
  destruct (span_split_at_midnights claude 82799990 82800010 TurnBook_default) as (b' & Hrun & _ & Ht);
    [lia|unfold MAX_AT; lia|apply default_room; lia|].
  exists b'. split; [exact Hrun|]. rewrite !Ht. split; vm_compute; reflexivity.
Defined.

Lemma room_held n b :
  revision b + n < 2 ^ 64 → n < 2 ^ 64 →
  map_Forall (λ _ (ts : Tallies), map_Forall (λ _ t, N.max (N.max (turns t) (active_ms t))
    (N.max (tokens_in t) (tokens_out t)) + n < 2 ^ 64) ts) (days b) → room n b.
Proof.
  intros Hrev Hn Hall.
  assert (∀ d a, let t := TurnBook.tally b d a in
    N.max (N.max (turns t) (active_ms t)) (N.max (tokens_in t) (tokens_out t)) + n < 2 ^ 64) as Hd.
  { intros d a. unfold TurnBook.tally, tallies_of. destruct (days b !! d) as [ts|] eqn:Hts; cbn.
    - destruct (ts !! a) as [t|] eqn:Ht; cbn; [by apply (Hall d ts Hts a t Ht)|lia].
    - rewrite lookup_empty. cbn. lia. }
  split; [done|..]; intros d a; specialize (Hd d a); cbv zeta in Hd; lia.
Qed.

(** A prompt, work from 2000 to 5000 and from 9000 on. *)
Definition sample_trace : list TurnSignal :=
  [sample Prompt 1000; sample Working 2000; sample Blocked 5000; sample Working 9000].
Definition at_9000 : TurnBook :=
  default TurnBook_default (run_events (Signal <$> sample_trace) TurnBook_default).

(** The work ends at 9500. *)
Lemma signal_counts_exactly_witness :
  ∃ b', TurnBook.apply (sample Settled 9500) at_9000 = Some b' ∧
    TurnBook.tally b' 0 claude = mkTally 1 3500 0 0.
Proof.
  assert (room (MAX_TURN_ACTIVE_MS + 1) at_9000) as Hroom.
  { apply room_held; [vm_compute; reflexivity..|].
    apply (bool_decide_eq_true_1 _). vm_compute. reflexivity. }
  destruct (signal_counts_exactly (Signal <$> sample_trace) (sample Settled 9500) TurnBook_default sample_trace at_9000)
    as (b' & Happly & _ & _ & _ & _ & _ & _ & Ht);
    [apply Forall_fmap; unfold sample_trace; repeat (apply Forall_cons_2; [vm_compute; discriminate|]); apply Forall_nil_2
    |apply default_ok|reflexivity|vm_compute; reflexivity|exact Hroom|cbn; unfold MAX_AT; lia|cbn; lia|cbn; lia
    |apply Nat.leb_le; vm_compute; reflexivity|].
  exists b'. split; [exact Happly|]. rewrite Ht. vm_compute. reflexivity.
Defined.

Lemma hook_replay_harmless_witness :
  ∃ b1 b2, TurnBook.apply (sample Prompt 1000) TurnBook_default = Some b1 ∧
    TurnBook.apply (sample Prompt 1000) b1 = Some b2 ∧ days b2 = days b1.
Proof.
  destruct (TurnBook.apply (sample Prompt 1000) TurnBook_default) as [b1|] eqn:Hrun;
    [|exfalso; vm_compute in Hrun; discriminate].
  destruct (hook_replay_harmless (sample Prompt 1000) TurnBook_default b1) as (b2 & H2 & Hd & _);
    [apply default_ok|apply default_room; unfold MAX_TURN_ACTIVE_MS; lia|cbn; unfold MAX_AT; lia
    |reflexivity|exact Hrun|].
  exists b1, b2. by split_and!.
Defined.

(** A session that is not running, and whose turn was prompted at 1000. *)
Definition one_open : TurnBook := set_open [([115], TurnBook.new_turn (sample Prompt 1000))] TurnBook_default.

Lemma one_open_ok : book_ok one_open.
Proof.
  apply book_ok_set_open; [apply default_ok|repeat constructor|].
  intros s t. cbn [BTreeMap.get]. case_bool_decide; [|done]. intros [= <-]. by apply new_turn_ok.
Qed.

Lemma sweep_ends_expired_witness :
  ∃ b', TurnBook.expire [] [] 5000 one_open = Some (1%nat, b') ∧ BTreeMap.get (open b') [115] = None.
Proof.
  destruct (sweep_ends_expired [] [] 5000 one_open) as (b' & Hrun & _ & Ho & _);
    [apply one_open_ok|unfold MAX_AT; lia|apply room_set_open, default_room; vm_compute; reflexivity|].
  exists b'. split; [exact Hrun|]. destruct (BTreeMap.get (open b') [115]) as [t|] eqn:Hget; [|done].
  apply Ho in Hget as [_ He]. vm_compute in He. discriminate.
Defined.

(** A transcript's first pass, and a day that is imported. *)
Definition sample_cursor : TokenCursor := mkCursor 40 1000 false None None [].
Definition sample_pass : TokenPass := mkPass [116] TokenCursor_default sample_cursor [mkEntry 0 7 3 None; mkEntry 0 1 2 None] [].
Definition sample_days : ImportedDays := {[ 0%Z := {[ claude := mkTally 2 60000 0 0 ]} ]}.
Definition sample_record : ImportRecord := mkImport 5000 1 None.

Definition imported_book : TurnBook :=
  match TurnBook.import_days sample_days 3 sample_record TurnBook_default with
  | Some (b, _) => b | None => TurnBook_default end.

Lemma imported_book_ok : book_ok imported_book.
Proof.
  unfold imported_book. destruct (TurnBook.import_days _ _ _ _) as [[b n]|] eqn:Hi; [|apply default_ok].
  eapply import_days_sound; [apply default_ok|exact Hi|apply default_ok].
Qed.

Lemma history_is_sound_witness :
  let es := [Signal (sample Prompt 1000); Pass claude sample_pass; Sweep [] [] 5000] in
  ∃ b', run_events es imported_book = Some b' ∧ TurnBook.tally b' 0 claude = mkTally 2 60000 0 0.
Proof.
  cbv zeta.
  destruct (run_events [Signal (sample Prompt 1000); Pass claude sample_pass; Sweep [] [] 5000] imported_book)
    as [b'|] eqn:Hrun; [|exfalso; vm_compute in Hrun; discriminate].
  destruct (history_is_sound [Signal (sample Prompt 1000); Pass claude sample_pass; Sweep [] [] 5000]
    imported_book b') as [_ Hk];
    [repeat constructor; cbn; unfold MAX_AT; lia|apply imported_book_ok|exact Hrun|].
  exists b'. split; [reflexivity|].
  destruct (Hk 0%Z claude) as [_ ->]; vm_compute; reflexivity.
Defined.

Lemma import_counts_once_witness :
  ∃ b1 n1, TurnBook.import_days sample_days 3 sample_record TurnBook_default = Some (b1, n1) ∧
    TurnBook.is_imported b1 0 claude = true.
Proof.
  destruct (import_counts_once sample_days 3 sample_record TurnBook_default)
    as (b1 & n1 & _ & _ & Hrun & _ & Hi & _); [cbn; lia|].
  exists b1, n1. split; [exact Hrun|]. rewrite Hi. vm_compute. reflexivity.
Defined.

Lemma tokens_counted_once_witness :
  ∃ b', TurnBook.record_tokens claude sample_pass TurnBook_default = Some (true, b') ∧
    TurnBook.tally b' 0 claude = mkTally 0 0 8 5 ∧
    TurnBook.record_tokens claude sample_pass b' = Some (false, b').
Proof.
  pose proof (tokens_counted_once claude sample_pass TurnBook_default default_ok) as Hspec.
  rewrite bool_decide_true in Hspec by reflexivity.
  destruct Hspec as (b' & Hrun & _ & Ht & Hagain);
    [discriminate|apply default_room; vm_compute; reflexivity|left; cbn; unfold MAX_CURSORS; lia|].
  exists b'. split; [exact Hrun|]. split; [|exact Hagain]. rewrite Ht. vm_compute. reflexivity.
Defined.

(** An encoding that knows one file. *)
#[local] Instance OpenTurn_eq_dec : EqDecision OpenTurn.
Proof. solve_decision. Defined.
#[local] Instance DayEntry_eq_dec : EqDecision DayEntry.
Proof. solve_decision. Defined.
#[local] Instance ImportRecord_eq_dec : EqDecision ImportRecord.
Proof. solve_decision. Defined.
#[local] Instance LedgerFile_eq_dec : EqDecision LedgerFile.
Proof. solve_decision. Defined.

Definition encoding_of (file : LedgerFile) (data : list N) : LedgerEncoding := {|
  to_vec f := if decide (f = file) then Some data else None;
  file_from_slice bytes := if decide (bytes = data) then Some file else None |}.

Lemma encoding_laws file data : LedgerEncodingLaws (encoding_of file data).
Proof.
  split. intros f bytes. cbn. destruct (decide (f = file)) as [->|]; [|done]. intros [= <-]. by rewrite decide_True.
Qed.

Definition braces : list N := [123; 125].

Lemma ledger_survives_restart_witness :
  let E := encoding_of (to_file imported_book) braces in
  Ledger.flush 0 false true (mkLedger imported_book 0 None) =
    (true, mkLedger imported_book (revision imported_book) (Some 0), Some braces) ∧
  TurnBook.tally (l_book (Ledger.load (holds braces) 90000000).1) 0 claude = mkTally 2 60000 0 0.
Proof.
  intros E.
  assert (Ledger.flush 0 false true (mkLedger imported_book 0 None) =
    (true, mkLedger imported_book (revision imported_book) (Some 0), Some braces)) as Hflush
    by (vm_compute; reflexivity).
  split; [exact Hflush|].
  destruct (ledger_survives_restart (EL := encoding_laws _ braces) (mkLedger imported_book 0 None) _ _ _ _ braces 90000000 imported_book_ok Hflush)
    as (_ & _ & _ & _ & _ & _ & Ht); [vm_compute; discriminate|].
  destruct (Ht 0%Z claude) as [Heq _]; [vm_compute; reflexivity|]. etrans; [exact Heq|vm_compute; reflexivity].
Defined.

(** A decoder that knows one line of each kind: a message, and a count of tokens. *)
Definition sample_stamp : list (str * Value) := [("timestamp"%string : str, VString [1])].
Definition sample_usage (i o : Z) : Value :=
  VObject [("input_tokens"%string : str, VInt i); ("output_tokens"%string : str, VInt o)].
Definition sample_message (id : N) : Value :=
  VObject (sample_stamp ++
    [("type"%string : str, VString ("assistant"%string : str));
     ("message"%string : str, VObject [("id"%string : str, VString [id]); ("usage"%string : str, sample_usage 7 3)])]).
Definition sample_count (n : N) : Value :=
  VObject (sample_stamp ++
    [("type"%string : str, VString ("event_msg"%string : str));
     ("payload"%string : str, VObject
       [("type"%string : str, VString ("token_count"%string : str));
        ("info"%string : str, VObject [("total_token_usage"%string : str, sample_usage (Z.of_N n) 1)])])]).

#[local] Instance sample_decoding : Decoding := {|
  from_slice line := match line with [109; id] => Some (sample_message id)
                                | [116; n] => Some (sample_count n) | _ => None end;
  rfc3339_ms _ := Some 1000%Z;
  hash_str _ := 0 |}.



Lemma pass_makes_progress_witness :
  ∃ p Q r, read_tokens [116] Claude TokenCursor_default (Some (4, [109; 1; 10; 109])) 2000 = Some (Some p) ∧
    [109; 1; 10; 109] = Q ++ r ∧ NEWLINE ∉ r.
Proof.
  destruct (pass_makes_progress Claude [116] TokenCursor_default [] [109; 1; 10; 109] 2000)
    as (p & Q & r & Hread & HQ & _ & Hr); [reflexivity|reflexivity|reflexivity|].
  exists p, Q, r. split; [exact Hread|]. split; [exact HQ|]. apply Hr. left. cbn. unfold MAX_PASS_BYTES. lia.
Defined.

(** Totals of 5, 20 and then 4 input tokens. *)
Lemma rollout_counts_growth_witness :
  ∃ p, read_tokens [116] CodexRollout TokenCursor_default
         (Some (9, [116; 5; 10; 116; 20; 10; 116; 4; 10])) 2000 = Some (Some p) ∧
    input_sum (entries p) = 20.
Proof.
  destruct (read_tokens [116] CodexRollout TokenCursor_default
    (Some (9, [116; 5; 10; 116; 20; 10; 116; 4; 10])) 2000) as [[p|]|] eqn:Hread;
    [|exfalso; vm_compute in Hread; discriminate..].
  destruct (rollout_counts_growth _ _ _ _ _ Hread) as (_ & _ & Hi & _).
  exists p. split; [reflexivity|]. rewrite Hi. vm_compute in Hread. injection Hread as <-.
  vm_compute. reflexivity.
Defined.

(** ** Work that is not written *)

(** What the ledger books for a turn when its worker is stopped while it works. *)
Definition signals (l : list TurnSignal) (b : TurnBook) : option TurnBook :=
  run_events (Signal <$> l) b.

(** A turn is prompted and the ledger written.  Then the agent works for a minute.  The
    flush at the worker's end writes nothing, since work on an open turn does not count
    as a change, and the minute is missing after the restart; without one it counts. *)
Lemma work_is_not_written :
  ∃ b1 b2, signals [sample Prompt 1000] TurnBook_default = Some b1 ∧
    signals [sample Working 2000; sample Blocked 62000] b1 = Some b2 ∧
    (λ b, TurnBook.tally b 0 claude) <$> signals [sample Vanished 70000] b2 = Some (mkTally 1 60000 0 0) ∧
    ∀ (E : LedgerEncoding) (EL : LedgerEncodingLaws E) l data,
      Ledger.flush 0 false true (mkLedger b1 0 None) = (true, l, Some data) →
      N.of_nat (length data) ≤ MAX_LEDGER_BYTES →
      (Ledger.flush (LEDGER_WRITE_INTERVAL + 1) true true (mkLedger b2 (written_revision l) (last_write l))).2 = None ∧
      (λ b, TurnBook.tally b 0 claude) <$> signals [sample Vanished 70000] (l_book (Ledger.load (holds data) 65000).1)
        = Some (mkTally 1 0 0 0).
Proof.
  eexists _, _. split; [vm_compute; reflexivity|]. split; [vm_compute; reflexivity|].
  split; [vm_compute; reflexivity|]. intros E EL l data (Hdata & _ & Hrev & Hlast)%flush_writes Hsize.
  unfold Ledger.flush. rewrite Hrev. split; [vm_compute; reflexivity|].
  rewrite (load_written _ _ _ Hdata), (proj2 (N.leb_le _ _) Hsize). vm_compute. reflexivity.
Qed.

(** ** A session that is resumed *)

(** A message is in a transcript, and copied into that of the resumed session: it is
    booked twice. *)
Lemma resumed_session_counts_again :
  (b ← read_and_record Claude claude [116] ([109; 1; 10], 2000) TurnBook_default;
   b ← read_and_record Claude claude [117] ([109; 1; 10; 109; 2; 10], 3000) b;
   Some (TurnBook.tally b 0 claude)) = Some (mkTally 0 0 21 9).
Proof. vm_compute. reflexivity. Qed.
