(* ===== verification/FlowSpec.v ===== *)
(** * Flow specifications ([cli/flow_spec.rs] of [src-app])

    A flow is a file of steps with dependencies, each a pane to open or a text to send;
    it is validated and expanded into units, one per item of a step's [foreach].  The
    fields of panes are those of [cli/workspace_spec.rs].  Times are seconds, the
    compiler of regular expressions is the class [Regexes].  [None] is a panic, or a
    recursion deeper than its fuel. *)

From stdpp Require Import gmap list strings.
From S2P Require Import Prelude DiffText AgentActivity.

Local Open Scope N_scope.

(** ** Text *)

(** What follows the first [${]. *)
Fixpoint after_open (s : str) : option str :=
  match s with
  | c :: rest =>
      match rest with
      | d :: after => if (c =? 36) && (d =? 123) then Some after else after_open rest
      | [] => None
      end
  | [] => None
  end.

(** What is before and after the first [c]. *)
Fixpoint split_once (c : N) (s : str) : option (str * str) :=
  match s with
  | d :: rest =>
      if d =? c then Some ([], rest)
      else '(before, after) ← split_once c rest; Some (d :: before, after)
  | [] => None
  end.

Fixpoint tokens_from (fuel : nat) (rest : str) : option (list str) :=
  match fuel with
  | O => None
  | S fuel =>
      match after_open rest with
      | None => Some []
      | Some after =>
          '(token, rest) ← split_once 125 after;
          tokens ← tokens_from fuel rest; Some (token :: tokens)
      end
  end.

(** [extract_tokens] of [up_cmd.rs]; [None] is its error, a [${] that is not closed. *)
Definition extract_tokens (value : str) : option (list str) :=
  tokens_from (S (length value)) value.

Fixpoint strip_prefix (prefix s : str) : option str :=
  match prefix, s with
  | [], _ => Some s
  | c :: prefix, d :: s => if c =? d then strip_prefix prefix s else None
  | _ :: _, [] => None
  end.

(** [str::replace] of a pattern that is not empty. *)
Fixpoint replace_from (fuel : nat) (from to s : str) : str :=
  match fuel with
  | O => s
  | S fuel =>
      match strip_prefix from s with
      | Some rest => to ++ replace_from fuel from to rest
      | None => match s with c :: rest => c :: replace_from fuel from to rest | [] => [] end
      end
  end.

Definition replace (from to s : str) : str := replace_from (S (length s)) from to s.

Definition starts_with (c : N) (s : str) : bool :=
  match s with d :: _ => d =? c | [] => false end.

Definition is_empty {A} (l : list A) : bool := match l with [] => true | _ => false end.

(** [${token}]. *)
Definition token_text (token : str) : str := ("${"%string : str) ++ token ++ ("}"%string : str).

Definition ITEM : str := "item"%string.
Definition PORT_OFFSET : str := "port_offset"%string.

(** ** Panes ([workspace_spec.rs]) *)

Inductive LayoutPreset := EvenH | EvenV | MainVertical | Tiled.

Definition as_ipc (l : LayoutPreset) : str :=
  match l with
  | EvenH => "even_h"%string
  | EvenV => "even_v"%string
  | MainVertical => "main_vertical"%string
  | Tiled => "tiled"%string
  end.

(** [env] is a map: its pairs in the order in which it is iterated. *)
Record PaneSpec := mkPane {
  cwd : option str; agent : option str; command : option str; prompt : option str;
  focus : option bool; env : option (list (str * str)); pane_name : option str;
  worktree : option str; from : option str; copy_env : option bool; setup : option str;
  setup_timeout_secs : option N; worktree_teardown : option str }.

Inductive PaneError :=
| AgentAndCommand
| EmptyWorktree
| DashWorktree (branch : str)
| UnsafeWorktree (branch : str)
| WorktreeNeedsCwd
| BadFrom
| NeedsWorktree (field : str)
| BadTeardown (policy : str).

Definition is_ascii_alphanumeric (c : N) : bool :=
  ((48 <=? c) && (c <=? 57)) || ((65 <=? c) && (c <=? 90)) || ((97 <=? c) && (c <=? 122)).

Fixpoint trim_start_by (p : N → bool) (s : str) : str :=
  match s with c :: rest => if p c then trim_start_by p rest else s | [] => [] end.

Definition trim_matches (p : N → bool) (s : str) : str :=
  reverse (trim_start_by p (reverse (trim_start_by p s))).

(** [branch_slug] of [workspace/worktree.rs]. *)
Definition branch_slug (branch : str) : str :=
  trim_matches (λ c, (c =? 45) || (c =? 46))
    ((λ c, if is_ascii_alphanumeric c || (c =? 46) || (c =? 95) || (c =? 45) then c else 45)
       <$> branch).

(** [if !b { return Err(e) }]. *)
Definition require {E} (b : bool) (e : E) : E + () := if b then inr () else inl e.

Definition is_some {A} (o : option A) : bool := match o with Some _ => true | None => false end.

Definition validate_worktree_fields (pane : PaneSpec) : PaneError + () :=
  _ ← match worktree pane with
      | Some branch =>
          _ ← require (negb (is_empty branch)) EmptyWorktree;
          _ ← require (negb (starts_with 45 branch)) (DashWorktree branch);
          _ ← require (negb (is_empty (branch_slug branch))) (UnsafeWorktree branch);
          _ ← require (is_some (cwd pane)) WorktreeNeedsCwd;
          match from pane with
          | Some from => require (negb (is_empty (trim from) || starts_with 45 from)) BadFrom
          | None => inr ()
          end
      | None =>
          _ ← require (negb (is_some (from pane))) (NeedsWorktree "from"%string);
          _ ← require (negb (is_some (copy_env pane))) (NeedsWorktree "copy_env"%string);
          _ ← require (negb (is_some (setup pane))) (NeedsWorktree "setup"%string);
          _ ← require (negb (is_some (setup_timeout_secs pane)))
                (NeedsWorktree "setup_timeout_secs"%string);
          require (negb (is_some (worktree_teardown pane)))
            (NeedsWorktree "worktree_teardown"%string)
      end;
  match worktree_teardown pane with
  | Some policy =>
      require (bool_decide (policy = "auto"%string :> str)
               || bool_decide (policy = "keep"%string :> str)) (BadTeardown policy)
  | None => inr ()
  end.

Definition validate_pane (pane : PaneSpec) : PaneError + () :=
  _ ← require (negb (is_some (agent pane) && is_some (command pane))) AgentAndCommand;
  validate_worktree_fields pane.

(** ** The specification *)

Definition MAX_CAPTURE_LINES : N := 500.
(** [MAX_LAYOUT_LEAVES]. *)
Definition MAX_PANES : nat := 32.
Definition DEFAULT_PORT_BASE : N := 3000.

Record SendSpec := mkSend { send_target : str; send_text : str; send_submit : option bool }.
Record ReadySpec := mkReady { pattern : str; timeout_secs : option N }.
Record CaptureSpec := mkCapture { var : str; capture_lines : N }.

Record StepSpec := mkStep {
  step_id : str; needs : list str; foreach : option (list str); pane : option PaneSpec;
  send : option SendSpec; ready : option ReadySpec; capture : option CaptureSpec;
  step_submit : option bool }.

Record FlowDefaults := mkDefaults { default_timeout : option N; on_failure : option str }.

Record FlowSpec := mkFlow {
  flow_name : option str; layout : LayoutPreset; port_base : option N;
  defaults : FlowDefaults; steps : list StepSpec }.

Inductive TokenError :=
| Unclosed
| ItemOutsideForeach
| OnlyAllowed (env : bool) (token : str)
| UnknownVariable (token : str)
| NotSubmitting (token : str)
| NotAnItem (token : str) (owner : str)
| PerItem (token : str) (owner : str)
| NotPerItem (token : str)
| NotDependency (token : str) (owner : str).

Inductive FlowError :=
| NoStep
| EmptyId
| BracketId (id : str)
| DuplicateId (id : str)
| BadPolicy (policy : str)
| BadCaptureVar (id : str)
| BadCaptureLines (id : str)
| CaptureNeedsReady (id : str)
| DuplicateVar (var first second : str)
| PaneAndSend (id : str)
| NeitherPaneNorSend (id : str)
| SelfDependency (id : str)
| UnknownDependency (id need : str)
| EmptyPattern (id : str)
| InvalidPattern (id : str)
| NoTimeout (id : str)
| EmptyForeach (id : str)
| DuplicateItem (id item : str)
| InvalidPane (id : str) (e : PaneError)
| EmptyTarget (id : str)
| SendWithoutNeeds (id : str)
| SubmitOutsideSend (id : str)
| InvalidToken (id label : str) (e : TokenError)
| TooManyPanes (units : nat)
| Cycle (path : list str)
| NoRootSpawn
| DuplicatePaneName (name unit : str)
| InvalidUnitPane (unit : str) (e : PaneError)
| InvalidUnitPattern (unit : str).

(** ** Results that may be errors or panics *)

Definition outcome (A : Type) : Type := option (FlowError + A).
Definition ok {A} (a : A) : outcome A := Some (inr a).
Definition err {A} (e : FlowError) : outcome A := Some (inl e).

Definition obind {A B} (m : outcome A) (f : A → outcome B) : outcome B :=
  match m with Some (inr a) => f a | Some (inl e) => Some (inl e) | None => None end.

Declare Scope flow_scope.
Notation "x ⇠ m ; k" := (obind m (λ x, k))
  (at level 20, m at level 100, k at level 200, only parsing) : flow_scope.
Notation "' x ⇠ m ; k" := (obind m (λ x, k))
  (at level 20, x pattern, m at level 100, k at level 200, only parsing) : flow_scope.
Local Open Scope flow_scope.

Definition ensure (b : bool) (e : FlowError) : outcome () := Some (require b e).

(** [map_err(f)?] of a result. *)
Definition lift {E A} (f : E → FlowError) (r : E + A) : outcome A :=
  match r with inr a => ok a | inl e => err (f e) end.

(** [expect]. *)
Definition expect {A} (o : option A) : outcome A := inr <$> o.

(** A [for] loop whose body may return from the function. *)
Fixpoint try_each {A S} (xs : list A) (body : A → S → outcome S) (st : S) : outcome S :=
  match xs with
  | [] => ok st
  | x :: xs => st ⇠ body x st; try_each xs body st
  end.

(** The loop whose body keeps no state. *)
Definition for_all {A} (xs : list A) (body : A → outcome ()) : outcome () :=
  try_each xs (λ x _, body x) ().

(** ** Dependencies *)

(** [steps.iter().map(|s| (s.id, s)).collect()]: a later step replaces an earlier one. *)
Definition index (spec : FlowSpec) : gmap str StepSpec :=
  foldl (λ m s, <[step_id s := s]> m) ∅ (steps spec).

Section depends.
Context (index : gmap str StepSpec) (dependency : str).

(** [needs.iter().any(..)], whose calls share [seen]. *)
Fixpoint any_need (needs : list str) (visit : str → gset str → option (bool * gset str))
    (seen : gset str) : option (bool * gset str) :=
  match needs with
  | [] => Some (false, seen)
  | need :: needs =>
      if bool_decide (need = dependency) then Some (true, seen)
      else
        '(found, seen) ← visit need seen;
        if (found : bool) then Some (true, seen) else any_need needs visit seen
  end.

Fixpoint depends_visit (fuel : nat) (id : str) (seen : gset str) : option (bool * gset str) :=
  match fuel with
  | O => None
  | S fuel =>
      if bool_decide (id ∈ seen) then Some (false, seen)
      else
        let seen := {[id]} ∪ seen in
        match index !! id with
        | None => Some (false, seen)
        | Some step => any_need (needs step) (depends_visit fuel) seen
        end
  end.
End depends.

Definition step_depends_on (spec : FlowSpec) (id dependency : str) : option bool :=
  fst <$> depends_visit (index spec) dependency (S (S (length (steps spec)))) id ∅.

Inductive Mark := White | Grey | Black.

(** The marks and the path of nodes being visited. *)
Definition Walk : Type := gmap str Mark * list str.

(** [path.iter().position(|p| *p == id)]. *)
Definition position (id : str) (path : list str) : option nat :=
  fst <$> list_find (λ p, p = id) path.

Fixpoint cycle_visit (index : gmap str StepSpec) (fuel : nat) (id : str) (walk : Walk)
  : outcome Walk :=
  match fuel with
  | O => None
  | S fuel =>
      let '(marks, path) := walk in
      mark ⇠ expect (marks !! id);
      match mark with
      | Black => ok (marks, path)
      | Grey => err (Cycle (drop (default O (position id path)) path ++ [id]))
      | White =>
          step ⇠ expect (index !! id);
          '(marks, path) ⇠ try_each (needs step) (cycle_visit index fuel)
                             (<[id := Grey]> marks, path ++ [id]);
          ok (<[id := Black]> marks, removelast path)
      end
  end.

Definition detect_cycles (spec : FlowSpec) : outcome () :=
  let marks := foldl (λ m s, <[step_id s := White]> m) ∅ (steps spec) in
  _ ⇠ try_each (steps spec)
        (λ s, cycle_visit (index spec) (S (length (steps spec))) (step_id s)) (marks, []);
  ok ().

(** ** Validation *)

Definition capture_var_char (c : N) : bool := is_ascii_alphanumeric c || (c =? 95).

(** The ids of the steps. *)
Definition validate_ids (spec : FlowSpec) : outcome (gset str) :=
  try_each (steps spec) (λ step ids,
    _ ⇠ ensure (negb (is_empty (step_id step))) EmptyId;
    _ ⇠ ensure (negb (existsb (λ c, (c =? 91) || (c =? 93)) (step_id step)))
          (BracketId (step_id step));
    _ ⇠ ensure (bool_decide (step_id step ∉ ids)) (DuplicateId (step_id step));
    ok ({[step_id step]} ∪ ids)) ∅.

Definition validate_policy (spec : FlowSpec) : outcome () :=
  match on_failure (defaults spec) with
  | Some policy =>
      ensure (bool_decide (policy = "fail_fast"%string :> str)
              || bool_decide (policy = "continue"%string :> str)) (BadPolicy policy)
  | None => ok ()
  end.

(** The captured variables, with the step that captures each. *)
Definition validate_captures (spec : FlowSpec) : outcome (gmap str StepSpec) :=
  try_each (steps spec) (λ step vars,
    match capture step with
    | None => ok vars
    | Some cap =>
        _ ⇠ ensure (negb (is_empty (var cap)) && forallb capture_var_char (var cap))
              (BadCaptureVar (step_id step));
        _ ⇠ ensure (negb ((capture_lines cap =? 0) || (MAX_CAPTURE_LINES <? capture_lines cap)))
              (BadCaptureLines (step_id step));
        _ ⇠ ensure (is_some (ready step)) (CaptureNeedsReady (step_id step));
        match vars !! var cap with
        | Some prev => err (DuplicateVar (var cap) (step_id prev) (step_id step))
        | None => ok (<[var cap := step]> vars)
        end
    end) ∅.

Definition PANE_ENV : str := "pane.env"%string.
Definition PANE_PROMPT : str := "pane.prompt"%string.

(** A label and a value, when there is one. *)
Definition labelled (label : str) (value : option str) : list (str * str) :=
  match value with Some v => [(label, v)] | None => [] end.

(** The fields in which only [${item}] is replaced. *)
Definition item_only_fields (step : StepSpec) : list (str * str) :=
  match pane step with
  | Some p =>
      labelled "pane.cwd"%string (cwd p) ++ labelled "pane.name"%string (pane_name p)
      ++ labelled "pane.worktree"%string (worktree p) ++ labelled "pane.from"%string (from p)
      ++ ((λ kv : str * str, (PANE_ENV, snd kv)) <$> default [] (env p))
  | None => []
  end
  ++ labelled "send.target"%string (send_target <$> send step)
  ++ labelled "ready.pattern"%string (pattern <$> ready step).

(** The fields in which captured variables are replaced as well. *)
Definition runtime_fields (step : StepSpec) : list (str * str) :=
  labelled PANE_PROMPT (pane step ≫= prompt)
  ++ labelled "send.text"%string (send_text <$> send step).

Definition validate_item_token (step : StepSpec) (label token : str) : outcome () :=
  let invalid e := InvalidToken (step_id step) label e in
  if bool_decide (token = ITEM) then ensure (is_some (foreach step)) (invalid ItemOutsideForeach)
  else
    ensure (bool_decide (label = PANE_ENV) && bool_decide (token = PORT_OFFSET))
      (invalid (OnlyAllowed (bool_decide (label = PANE_ENV)) token)).

Definition validate_runtime_token (spec : FlowSpec) (step : StepSpec)
    (vars : gmap str StepSpec) (label token : str) : outcome () :=
  let invalid e := InvalidToken (step_id step) label e in
  if bool_decide (token = ITEM) then ensure (is_some (foreach step)) (invalid ItemOutsideForeach)
  else
    let '(v, suffix) :=
      match split_once 46 token with Some (v, s) => (v, Some s) | None => (token, None) end in
    match vars !! v with
    | None => err (invalid (UnknownVariable token))
    | Some owner =>
        _ ⇠ ensure (negb (bool_decide (label = PANE_PROMPT)
                          && negb (default false (step_submit step))))
              (invalid (NotSubmitting token));
        _ ⇠ match foreach owner, suffix with
            | Some items, Some s =>
                ensure (bool_decide (s ∈ items)) (invalid (NotAnItem token (step_id owner)))
            | Some _, None => err (invalid (PerItem token (step_id owner)))
            | None, Some _ => err (invalid (NotPerItem token))
            | None, None => ok ()
            end;
        depends ⇠ expect (step_depends_on spec (step_id step) (step_id owner));
        ensure depends (invalid (NotDependency token (step_id owner)))
    end.

(** The loop over the tokens of some fields. *)
Definition validate_fields (step : StepSpec) (fields : list (str * str))
    (validate_token : str → str → outcome ()) : outcome () :=
  for_all fields (λ '(label, value),
    match extract_tokens value with
    | None => err (InvalidToken (step_id step) label Unclosed)
    | Some tokens => for_all tokens (validate_token label)
    end).

Definition validate_tokens (spec : FlowSpec) (step : StepSpec) (vars : gmap str StepSpec)
  : outcome () :=
  _ ⇠ validate_fields step (item_only_fields step) (validate_item_token step);
  validate_fields step (runtime_fields step) (validate_runtime_token spec step vars).

(** The regular expressions of the crate [regex]. *)
Class Regexes := {
  Regex : Type;
  regex_new : str → option Regex;
  is_match : Regex → str → bool }.

Section regexes.
Context {R : Regexes}.

Definition validate_needs (ids : gset str) (step : StepSpec) : outcome () :=
  for_all (needs step) (λ need,
    _ ⇠ ensure (negb (bool_decide (need = step_id step))) (SelfDependency (step_id step));
    ensure (bool_decide (need ∈ ids)) (UnknownDependency (step_id step) need)).

Definition validate_ready (spec : FlowSpec) (step : StepSpec) : outcome () :=
  match ready step with
  | None => ok ()
  | Some r =>
      _ ⇠ ensure (negb (is_empty (pattern r))) (EmptyPattern (step_id step));
      _ ⇠ ensure (is_some (regex_new (replace (token_text ITEM) "x"%string (pattern r))))
            (InvalidPattern (step_id step));
      ensure (is_some (or_else (timeout_secs r) (default_timeout (defaults spec))))
        (NoTimeout (step_id step))
  end.

Definition validate_foreach (step : StepSpec) : outcome () :=
  match foreach step with
  | None => ok ()
  | Some items =>
      _ ⇠ ensure (negb (is_empty items)) (EmptyForeach (step_id step));
      _ ⇠ try_each items (λ item seen,
            _ ⇠ ensure (bool_decide (item ∉ (seen : gset str))) (DuplicateItem (step_id step) item);
            ok ({[item]} ∪ seen)) ∅;
      ok ()
  end.

(** A step of the main loop; the number of panes, and whether one is a root. *)
Definition validate_step (spec : FlowSpec) (ids : gset str) (vars : gmap str StepSpec)
    (step : StepSpec) (st : nat * bool) : outcome (nat * bool) :=
  let '(spawn_units, has_root_spawn) := st in
  _ ⇠ match pane step, send step with
      | Some _, Some _ => err (PaneAndSend (step_id step))
      | None, None => err (NeitherPaneNorSend (step_id step))
      | _, _ => ok ()
      end;
  _ ⇠ validate_needs ids step;
  _ ⇠ validate_ready spec step;
  _ ⇠ validate_foreach step;
  '(spawn_units, has_root_spawn) ⇠
    match pane step with
    | None => ok (spawn_units, has_root_spawn)
    | Some p =>
        _ ⇠ lift (InvalidPane (step_id step)) (validate_pane p);
        ok ((spawn_units + match foreach step with Some items => length items | None => 1 end)%nat,
            if is_empty (needs step) then true else has_root_spawn)
    end;
  _ ⇠ match send step with
      | None => ok ()
      | Some s =>
          _ ⇠ ensure (negb (is_empty (send_target s))) (EmptyTarget (step_id step));
          _ ⇠ ensure (negb (is_empty (needs step))) (SendWithoutNeeds (step_id step));
          ensure (negb (is_some (step_submit step))) (SubmitOutsideSend (step_id step))
      end;
  _ ⇠ validate_tokens spec step vars;
  ok (spawn_units, has_root_spawn).

Definition validate (spec : FlowSpec) : outcome () :=
  _ ⇠ ensure (negb (is_empty (steps spec))) NoStep;
  ids ⇠ validate_ids spec;
  _ ⇠ validate_policy spec;
  vars ⇠ validate_captures spec;
  '(spawn_units, has_root_spawn) ⇠ try_each (steps spec) (validate_step spec ids vars) (O, false);
  _ ⇠ ensure (negb (MAX_PANES <? spawn_units)%nat) (TooManyPanes spawn_units);
  _ ⇠ detect_cycles spec;
  ensure has_root_spawn NoRootSpawn.

(** ** Expansion *)

Inductive OnFailure := FailFast | Continue.

Record SpawnUnit := mkSpawn { unit_pane : PaneSpec; spawn_name : str }.

Inductive UnitAction :=
| Spawn (s : SpawnUnit)
| Send (target text : str).

Record Unit := mkUnit {
  unit_id : str; group : str; unit_needs : list str; action : UnitAction;
  unit_ready : option (str * N); unit_capture : option (str * N); submit : bool }.

Record FlowPlan := mkPlan {
  plan_name : str; plan_layout : LayoutPreset; plan_port_base : N; plan_on_failure : OnFailure;
  units : list Unit }.

Definition requires_submit (plan : FlowPlan) : bool := existsb submit (units plan).

(** The closure [sub]. *)
Definition sub (item : option str) (s : str) : str :=
  match item with Some it => replace (token_text ITEM) it s | None => s end.

Definition sub_pane (item : option str) (p : PaneSpec) : PaneSpec :=
  mkPane (sub item <$> cwd p) (agent p) (command p) (sub item <$> prompt p) (focus p)
    ((λ pairs : list (str * str), (λ kv : str * str, (fst kv, sub item (snd kv))) <$> pairs) <$> env p)
    (sub item <$> pane_name p) (sub item <$> worktree p) (sub item <$> from p) (copy_env p)
    (setup p) (setup_timeout_secs p) (worktree_teardown p).

Definition set_pane_name (name : str) (p : PaneSpec) : PaneSpec :=
  mkPane (cwd p) (agent p) (command p) (prompt p) (focus p) (env p) (Some name) (worktree p)
    (from p) (copy_env p) (setup p) (setup_timeout_secs p) (worktree_teardown p).

(** [format!("{}[{}]", ..)] and the like, for the unit of an item. *)
Definition item_name (before between after : str) (item : option str) : str :=
  match item with Some it => before ++ between ++ it ++ after | None => before end.

Definition instantiate (spec : FlowSpec) (step : StepSpec) (item : option str) : outcome Unit :=
  let id := item_name (step_id step) "["%string "]"%string item in
  action ⇠
    match pane step with
    | Some p =>
        let p := sub_pane item p in
        _ ⇠ lift (InvalidUnitPane id) (validate_pane p);
        let name := default (item_name (step_id step) "-"%string [] item) (pane_name p) in
        ok (Spawn (mkSpawn (set_pane_name name p) name))
    | None =>
        s ⇠ expect (send step);
        ok (Send (sub item (send_target s)) (sub item (send_text s)))
    end;
  ready ⇠
    match ready step with
    | Some r =>
        timeout ⇠ expect (or_else (timeout_secs r) (default_timeout (defaults spec)));
        let pattern := sub item (pattern r) in
        _ ⇠ ensure (is_some (regex_new pattern)) (InvalidUnitPattern id);
        ok (Some (pattern, timeout))
    | None => ok None
    end;
  ok (mkUnit id (step_id step) (needs step) action ready
        ((λ c, (item_name (var c) "."%string [] item, capture_lines c)) <$> capture step)
        (default false (or_else (step_submit step) (send step ≫= send_submit)))).

Definition items_of (step : StepSpec) : list (option str) :=
  match foreach step with Some items => Some <$> items | None => [None] end.

Definition expand_item (spec : FlowSpec) (step : StepSpec) (item : option str)
    (st : list Unit * gset str) : outcome (list Unit * gset str) :=
  let '(units, pane_names) := st in
  unit ⇠ instantiate spec step item;
  match action unit with
  | Spawn s =>
      _ ⇠ ensure (bool_decide (spawn_name s ∉ pane_names))
            (DuplicatePaneName (spawn_name s) (unit_id unit));
      ok (units ++ [unit], {[spawn_name s]} ∪ pane_names)
  | Send _ _ => ok (units ++ [unit], pane_names)
  end.

Definition expand (spec : FlowSpec) : outcome FlowPlan :=
  '(units, _) ⇠ try_each (steps spec)
                  (λ step, try_each (items_of step) (expand_item spec step)) ([], ∅);
  ok (mkPlan (default ("flow"%string : str) (flow_name spec)) (layout spec)
        (default DEFAULT_PORT_BASE (port_base spec))
        (if bool_decide (on_failure (defaults spec) = Some ("continue"%string : str))
         then Continue else FailFast)
        units).

(** [load], after the file has been parsed. *)
Definition load (spec : FlowSpec) : outcome FlowPlan :=
  _ ⇠ validate spec;
  expand spec.
End regexes.
