(* ===== verification/FlowEngine.v ===== *)
(** * Running a flow ([cli/flow_cmd.rs], [surface_read.rs], parts of [up_cmd.rs] and
    [send_cmd.rs] of [src-app])

    The engine opens the panes of a flow's units, waits until a pane has settled before
    it feeds a text, and until a pattern appears before a unit is ready.  What it asks of
    the running instance, the clock and [git] is the class [Client], on a state [W] of
    the outside.  Times are milliseconds.  [None] is a panic; running out of the fuel of
    [execute_loop] is [None] too.  What is printed is left out. *)

From stdpp Require Import gmap list strings.
From S2P Require Import Prelude DiffText DiffUtf8 AgentActivity FlowSpec.

Local Open Scope N_scope.

(** ** Reading a surface ([surface_read.rs]) *)

Definition READ_WINDOW_LINES : N := 500.
Definition TRANSIENT_RETRIES : nat := 3.
Definition TICK : N := 500.
Definition SETTLE_FLOOR : N := 1800.
Definition SETTLE_MAX : N := 8000.
Definition SETTLE_WINDOW_LINES : N := 50.
Definition MAX_SEND_LEN : N := 64 * 1024.

Record ReadSnapshot := mkSnapshot { text : str; output_generation : option N }.

Inductive SurfaceRead := Snapshot (s : ReadSnapshot) | Gone | SkippedRead.

Inductive IpcCallError :=
| Unreachable (message : str)
| TimedOut (message : str)
| Busy (message : str)
| CallFailed (message : str).

Definition is_transient (e : IpcCallError) : bool :=
  match e with TimedOut _ | Busy _ => true | _ => false end.

(** [to_string()]. *)
Definition error_text (e : IpcCallError) : str :=
  match e with Unreachable m | TimedOut m | Busy m | CallFailed m => m end.

Definition to_ascii_lowercase (s : str) : str :=
  (λ c, if (65 <=? c) && (c <=? 90) then c + 32 else c) <$> s.

Fixpoint contains (sub s : str) : bool :=
  is_some (strip_prefix sub s) || match s with _ :: s => contains sub s | [] => false end.

Definition is_surface_gone_error (message : str) : bool :=
  let lower := to_ascii_lowercase message in
  contains "not found"%string lower || contains "-32602"%string lower.

Definition is_send_text_disabled_error (error : str) : bool :=
  let lower := to_ascii_lowercase error in
  contains "-32601"%string lower && contains "surface.send_text"%string lower
  && contains "disabled"%string lower.

Definition transient_backoff (attempt : nat) : N :=
  N.min (N.min (250 * N.min (4 ^ N.of_nat attempt) (2 ^ 64 - 1)) (2 ^ 64 - 1)) 2000.

(** [str::lines]. *)
Fixpoint str_lines (s : str) : list str :=
  match s with
  | [] => []
  | c :: rest =>
      if c =? 10 then [] :: str_lines rest
      else if (c =? 13) && starts_with 10 rest then str_lines rest
      else match str_lines rest with l :: ls => (c :: l) :: ls | [] => [[c]] end
  end.

Definition join_lines (ls : list str) : str :=
  match ls with [] => [] | l :: ls => l ++ mjoin ((λ l, 10 :: l) <$> ls) end.

(** The row of the table [common] for one more line of [old]; [below] is the row
    after it.  Rows have one cell more than [new] has lines. *)
Fixpoint common_row (l : str) (new : list str) (below : list nat) : list nat :=
  match new, below with
  | n :: new, b :: ((b' :: _) as below) =>
      let row := common_row l new below in
      (if bool_decide (l = n) then S b' else Nat.max b (default O (head row))) :: row
  | _, _ => [O]
  end.

Fixpoint common (old new : list str) : list (list nat) :=
  match old with
  | [] => [replicate (S (length new)) O]
  | l :: old =>
      let rows := common old new in
      common_row l new (default [] (head rows)) :: rows
  end.

(** The loop of [new_text_since_baseline] over the two indices. *)
Fixpoint added_lines (fuel : nat) (table : list (list nat)) (old new : list str) (i j : nat)
  : option (list str) :=
  match fuel with
  | O => None
  | S fuel =>
      match new !! j with
      | None => Some []
      | Some n =>
          match old !! i with
          | Some o =>
              if bool_decide (o = n) then added_lines fuel table old new (S i) (S j)
              else
                skip ← table !! S i ≫= (.!! j);
                take ← table !! i ≫= (.!! S j);
                if (take <=? skip)%nat then added_lines fuel table old new (S i) j
                else cons n <$> added_lines fuel table old new i (S j)
          | None => cons n <$> added_lines fuel table old new i (S j)
          end
      end
  end.

Definition new_lines (old new : list str) : option (list str) :=
  added_lines (S (length old + length new)) (common old new) old new O O.

Definition new_text_since_baseline (baseline current : str) : option str :=
  if bool_decide (current = baseline) then Some []
  else match strip_prefix baseline current with
       | Some rest => Some rest
       | None => join_lines <$> new_lines (str_lines baseline) (str_lines current)
       end.

(** The inner option is that of the code. *)
Definition text_after_baseline (baseline current : ReadSnapshot) : option (option str) :=
  match output_generation current, output_generation baseline with
  | Some c, Some p =>
      if c <=? p then Some None
      else Some <$> new_text_since_baseline (text baseline) (text current)
  | _, _ => Some <$> new_text_since_baseline (text baseline) (text current)
  end.

(** ** Texts *)

Fixpoint substitute_tokens (tokens : list str) (vars : gmap str str) (out : str) : str + str :=
  match tokens with
  | [] => inr out
  | token :: tokens =>
      match vars !! token with
      | None => inl token
      | Some value => substitute_tokens tokens vars (replace (token_text token) value out)
      end
  end.

(** The characters that end within the first [limit] bytes. *)
Fixpoint truncate (limit : N) (s : str) : str :=
  match s with
  | [] => []
  | c :: s =>
      let n := N.of_nat (length (utf8 c)) in
      if n <=? limit then c :: truncate (limit - n) s else []
  end.

Definition TRUNCATED : str := 0x2026 :: ("[truncated]"%string : str).

Definition substitute_vars (text : str) (vars : gmap str str) : str + str :=
  match extract_tokens text with
  | None => inl ("unclosed `${`"%string : str)
  | Some tokens =>
      out ← substitute_tokens tokens vars text;
      inr (if MAX_SEND_LEN <? N.of_nat (byte_len out)
           then truncate (MAX_SEND_LEN - N.of_nat (byte_len TRUNCATED)) out ++ TRUNCATED
           else out)
  end.

Definition last_lines (text : str) (n : N) : str :=
  let lines := str_lines text in
  join_lines (drop (length lines - N.to_nat n)%nat lines).

(** ** Ports ([up_cmd.rs]) *)

Definition PORT_STRIDE : N := 10.

Definition checked_u16 (n : N) : option N := if n <? 2 ^ 16 then Some n else None.

Definition port_stride_is_free (is_free : N → bool) (base : N) : bool :=
  forallb (λ offset,
      match checked_u16 (base + offset) with Some p => is_free p | None => false end)
    [0; 1; 2; 3; 4; 5; 6; 7; 8; 9].

(** The inner loop of [allocate_port_offsets]: a free stride and the next one to try;
    [None] is [port_exhausted], and a sum that leaves 16 bits. *)
Fixpoint find_stride (fuel : nat) (is_free : N → bool) (port_base next_stride : N)
  : option (N * N) :=
  match fuel with
  | O => None
  | S fuel =>
      offset ← checked_u16 (next_stride * PORT_STRIDE);
      candidate ← checked_u16 (port_base + offset);
      if 2 ^ 16 - 1 - (PORT_STRIDE - 1) <? candidate then None
      else
        next ← checked_u16 (next_stride + 1);
        if port_stride_is_free is_free candidate then Some (candidate, next)
        else find_stride fuel is_free port_base next
  end.

(** Six thousand strides leave 16 bits. *)
Definition STRIDE_FUEL : nat := N.to_nat 6555.

Fixpoint allocate_from (refs : list bool) (is_free : N → bool) (port_base next_stride : N)
  : option (list (option N)) :=
  match refs with
  | [] => Some []
  | true :: refs =>
      '(candidate, next) ← find_stride STRIDE_FUEL is_free port_base next_stride;
      cons (Some candidate) <$> allocate_from refs is_free port_base next
  | false :: refs => cons None <$> allocate_from refs is_free port_base next_stride
  end.

Definition allocate_port_offsets (refs : list bool) (port_base : N) (is_free : N → bool)
  : option (list (option N)) := allocate_from refs is_free port_base 0.

(** The decimal digits of a number ([u16::to_string]). *)
Fixpoint digits (fuel : nat) (n : N) (acc : str) : str :=
  match fuel with
  | O => acc
  | S fuel =>
      let acc := (48 + n mod 10) :: acc in
      if n / 10 =? 0 then acc else digits fuel (n / 10) acc
  end.

Definition port_text (port : N) : str := digits 5 port [].

Definition substitute_env (env : option (list (str * str))) (offset : option N)
  : option (list (str * str)) :=
  match env, offset with
  | Some env, Some offset =>
      Some ((λ kv : str * str,
               (fst kv, replace (token_text PORT_OFFSET) (port_text offset) (snd kv))) <$> env)
  | _, _ => env
  end.

(** [inl] is the name of the variable it does not know, or [None] for a [${] that is not
    closed. *)
Fixpoint env_tokens (tokens : list str) (references : bool) : option str + bool :=
  match tokens with
  | [] => inr references
  | token :: tokens =>
      if bool_decide (token = PORT_OFFSET) then env_tokens tokens true else inl (Some token)
  end.

Fixpoint validate_env (pairs : list (str * str)) (references : bool) : option str + bool :=
  match pairs with
  | [] => inr references
  | (key, value) :: pairs =>
      match extract_tokens value with
      | None => inl None
      | Some tokens =>
          references ← env_tokens tokens references;
          validate_env pairs references
      end
  end.

Definition validate_pane_env_tokens (pane : PaneSpec) : option str + bool :=
  validate_env (default [] (env pane)) false.

(** ** The engine's state *)

Inductive Message :=
| Said (text : str)
| InstanceUnreachable (e : str)
| GateOff (e : str)
| BaselineUnread (surface : N) (e : option str)
| InterruptedRun
| SurfaceCount (ids panes : nat)
| AmbiguousTarget (target : str)
| OrchestrationOff
| ScriptingOff
| UnknownEnvVariable (key_error : option str)
| PortsExhausted
| InvalidFlow (e : FlowError).

Record CliError := mkCli { code : Z; message : Message }.
Definition EXIT_OK : Z := 0.
Definition EXIT_RUNTIME : Z := 1.
Definition EXIT_TARGET : Z := 3.
Definition EXIT_TIMEOUT : Z := 4.
Definition runtime (m : Message) : CliError := mkCli EXIT_RUNTIME m.

Inductive RunError :=
| ClosedBeforePattern
| TimedOutAfter (timeout : N) (pattern : str)
| ClosedBeforeFeed
| UndefinedVariable (var : str)
| Refused (message : str)
| TurnNotStarted (surface : N) (reason : str)
| NoSurfaceId
| UnresolvedTarget (e : Message)
| DeadDependency (dep : str)
| EarlierStepFailed.

(** The fields of a [WorktreePlan] that the engine reads. *)
Record WorktreePlan := mkWorktree {
  worktree_path : str; create : option bool; managed_json : Value }.

Definition creates_worktree (plan : WorktreePlan) : bool := is_some (create plan).

Record TurnStart := mkTurnStart { turn_started : option bool; reason : str }.

(** What the engine calls outside: [IpcTransport], [Instant::now], [Instant + Duration], which
    panics on a sum the clock cannot hold, [thread::sleep], the flag of the interrupt handler,
    the worktrees of [up_cmd.rs], [selector::resolve_target] and
    [send_cmd::confirm_turn_start]. *)
Class Client (W : Type) := {
  call : str → Value → W → (str + Value) * W;
  try_call : str → Value → W → (IpcCallError + Value) * W;
  now : W → N * W;
  later : N → N → option N;
  sleep : N → W → W;
  interrupted : W → bool * W;
  execute_worktree_plan : WorktreePlan → W → (CliError + ()) * W;
  rollback_created_worktrees : list WorktreePlan → W → W;
  resolve_target : str → W → (CliError + N) * W;
  confirm_turn_start : N → option Value → W → TurnStart * W }.

Section engine.
Context {R : Regexes}.

Inductive State :=
| Pending
| Settling (last_generation : option N) (stable : N) (since : N)
| Polling (deadline : N) (re : Regex) (baseline : option ReadSnapshot)
| Ready
| Failed (timeout : bool)
| Skipped.

Definition label (s : State) : str :=
  match s with
  | Pending => "PENDING"%string
  | Settling _ _ _ | Polling _ _ _ => "RUNNING"%string
  | Ready => "READY"%string
  | Failed _ => "FAILED"%string
  | Skipped => "SKIPPED"%string
  end.

Definition is_terminal (s : State) : bool :=
  match s with Ready | Failed _ | Skipped => true | _ => false end.
Definition is_failed (s : State) : bool := match s with Failed _ => true | _ => false end.
Definition is_pending (s : State) : bool := match s with Pending => true | _ => false end.
Definition is_ready (s : State) : bool := match s with Ready => true | _ => false end.

Record UnitRun := mkRun {
  unit_of : Unit; run_command : option str; run_worktree : option WorktreePlan; state : State;
  surface_id : option N; started : option N; finished : option N; error : option RunError;
  outside_flow : bool }.

(** [UnitRun::new]. *)
Definition new_run (u : Unit) (command : option str) (worktree : option WorktreePlan) : UnitRun :=
  mkRun u command worktree Pending None None None None false.

Definition set_state v (r : UnitRun) : UnitRun :=
  mkRun (unit_of r) (run_command r) (run_worktree r) v (surface_id r) (started r) (finished r)
    (error r) (outside_flow r).
Definition set_surface v (r : UnitRun) : UnitRun :=
  mkRun (unit_of r) (run_command r) (run_worktree r) (state r) v (started r) (finished r)
    (error r) (outside_flow r).
Definition set_started v (r : UnitRun) : UnitRun :=
  mkRun (unit_of r) (run_command r) (run_worktree r) (state r) (surface_id r) v (finished r)
    (error r) (outside_flow r).
Definition set_finished v (r : UnitRun) : UnitRun :=
  mkRun (unit_of r) (run_command r) (run_worktree r) (state r) (surface_id r) (started r) v
    (error r) (outside_flow r).
Definition set_error v (r : UnitRun) : UnitRun :=
  mkRun (unit_of r) (run_command r) (run_worktree r) (state r) (surface_id r) (started r)
    (finished r) v (outside_flow r).
Definition set_outside v (r : UnitRun) : UnitRun :=
  mkRun (unit_of r) (run_command r) (run_worktree r) (state r) (surface_id r) (started r)
    (finished r) (error r) v.

(** [on_failure], [name], [layout], [caller] and [scope_all] never change. *)
Record Engine := mkEngine {
  engine_on_failure : OnFailure; engine_name : str; engine_layout : LayoutPreset;
  caller : option str; scope_all : bool;
  runs_ : list UnitRun; vars : gmap str str; split_count : N; anchor : option N }.

Definition set_runs v (e : Engine) : Engine :=
  mkEngine (engine_on_failure e) (engine_name e) (engine_layout e) (caller e) (scope_all e) v
    (vars e) (split_count e) (anchor e).
Definition set_vars v (e : Engine) : Engine :=
  mkEngine (engine_on_failure e) (engine_name e) (engine_layout e) (caller e) (scope_all e)
    (runs_ e) v (split_count e) (anchor e).
Definition set_split v (e : Engine) : Engine :=
  mkEngine (engine_on_failure e) (engine_name e) (engine_layout e) (caller e) (scope_all e)
    (runs_ e) (vars e) v (anchor e).
Definition set_anchor v (e : Engine) : Engine :=
  mkEngine (engine_on_failure e) (engine_name e) (engine_layout e) (caller e) (scope_all e)
    (runs_ e) (vars e) (split_count e) v.

Definition any_failed (e : Engine) : bool := existsb (λ r, is_failed (state r)) (runs_ e).

(** [self.on_failure == OnFailure::FailFast && self.any_failed()]. *)
Definition stops (e : Engine) : bool :=
  match engine_on_failure e with FailFast => any_failed e | Continue => false end.

(** ** Calls on the engine *)

Context {W : Type} {C : Client W}.

(** A call on [&mut self] that may return an error of [E]. *)
Definition M (E A : Type) : Type := Engine * W → option ((E + A) * (Engine * W)).

Definition m_ret {E} : MRet (M E) := λ A a st, Some (inr a, st).
Definition m_bind {E} : MBind (M E) := λ A B f m st,
  match m st with
  | Some (inr a, st) => f a st
  | Some (inl e, st) => Some (inl e, st)
  | None => None
  end.

#[local] Existing Instances m_ret m_bind.

Definition throw {E A} (e : E) : M E A := λ st, Some (inl e, st).
Definition get {E} : M E Engine := λ st, Some (inr (fst st), st).
Definition modify {E} (f : Engine → Engine) : M E () := λ '(e, w), Some (inr (), (f e, w)).
(** A call outside. *)
Definition ask {E A} (f : W → A * W) : M E A := λ '(e, w),
  let '(a, w) := f w in Some (inr a, (e, w)).
Definition outside {E} (f : W → W) : M E () := λ '(e, w), Some (inr (), (e, f w)).
(** [expect], an index, a checked sum. *)
Definition unwrap {E A} (o : option A) : M E A := λ st, (λ a, (inr a, st)) <$> o.
(** [map_err(f)?] of a result. *)
Definition check {E E' A} (f : E' → E) (r : E' + A) : M E A :=
  match r with inr a => mret a | inl e => throw (f e) end.
(** A call whose result the caller looks at. *)
Definition attempt {E E' A} (m : M E A) : M E' (E + A) := λ st,
  match m st with Some (r, st) => Some (inr r, st) | None => None end.

Definition get_run {E} (i : nat) : M E UnitRun := e ← get; unwrap (runs_ e !! i).
Definition update {E} (i : nat) (f : UnitRun → UnitRun) : M E () :=
  modify (λ e, set_runs (alter f i (runs_ e)) e).

Fixpoint for_each_m {E A} (xs : list A) (body : A → M E ()) : M E () :=
  match xs with [] => mret () | x :: xs => _ ← body x; for_each_m xs body end.

(** [self.transition(i, next)], without the line it prints. *)
Definition transition {E} (i : nat) (next : State) : M E () :=
  _ ← (if is_terminal next then t ← ask now; update i (set_finished (Some t)) else mret ());
  update i (set_state next).

Definition fail {E} (i : nat) (e : RunError) (timeout : bool) : M E () :=
  _ ← update i (set_error (Some e));
  transition i (Failed timeout).

Definition barrier_or_ready {E} (i : nat) (baseline : option ReadSnapshot) : M E State :=
  r ← get_run i;
  match unit_ready (unit_of r) with
  | Some (pattern, timeout) =>
      t ← ask now;
      deadline ← unwrap (later t (timeout * 1000));
      re ← unwrap (regex_new pattern);
      mret (Polling deadline re baseline)
  | None => mret Ready
  end.

Definition needs_settle (u : Unit) : bool :=
  match action u with
  | Spawn s => submit u && is_some (prompt (unit_pane s))
  | Send _ _ => true
  end.

Definition enter_post_action_state {E} (i : nat) : M E () :=
  r ← get_run i;
  next ← (if needs_settle (unit_of r) then t ← ask now; mret (Settling None 0 t)
          else barrier_or_ready i None);
  transition i next.

(** ** Reading *)

Definition VN (n : N) : Value := VInt (Z.of_N n).
Definition json_opt {A} (f : A → Value) (o : option A) : Value :=
  match o with Some a => f a | None => Null end.

Definition read_surface_once (sid lines : N) (w : W) : (IpcCallError + SurfaceRead) * W :=
  match try_call "surface.read"%string
          (VObject [("surface_id"%string : str, VN sid); ("lines"%string : str, VN lines);
                    ("fenced"%string : str, VBool false)]) w with
  | (inr result, w) =>
      (inr (Snapshot (mkSnapshot
         (default [] (Value.get result "text"%string ≫= Value.as_str))
         (Value.get result "output_generation"%string ≫= Value.as_u64))), w)
  | (inl (CallFailed m), w) =>
      if is_surface_gone_error m then (inr Gone, w) else (inl (CallFailed m), w)
  | (inl e, w) => (inl e, w)
  end.

(** [retries] retries are left. *)
Fixpoint read_retrying (retries : nat) (sid lines : N) (w : W) : (IpcCallError + SurfaceRead) * W :=
  match read_surface_once sid lines w with
  | (inl e, w) =>
      if is_transient e then
        match retries with
        | O => (inr SkippedRead, w)
        | S retries =>
            read_retrying retries sid lines
              (sleep (transient_backoff (TRANSIENT_RETRIES - S retries)) w)
        end
      else (inl e, w)
  | outcome => outcome
  end.

Definition read_surface (sid lines : N) : W → (IpcCallError + SurfaceRead) * W :=
  read_retrying TRANSIENT_RETRIES sid lines.

Fixpoint baseline_retrying (retries : nat) (sid lines : N) (w : W)
  : (Message + option ReadSnapshot) * W :=
  match read_surface sid lines w with
  | (inr (Snapshot s), w) => (inr (Some s), w)
  | (inr Gone, w) => (inr None, w)
  | (inr SkippedRead, w) => (inl (BaselineUnread sid None), w)
  | (inl e, w) =>
      match e, retries with
      | Unreachable _, _ | _, O => (inl (BaselineUnread sid (Some (error_text e))), w)
      | _, S retries =>
          baseline_retrying retries sid lines
            (sleep (transient_backoff (TRANSIENT_RETRIES - S retries)) w)
      end
  end.

Definition read_baseline (sid lines : N) : W → (Message + option ReadSnapshot) * W :=
  baseline_retrying TRANSIENT_RETRIES sid lines.

Definition read_window (sid lines : N) : M Message SurfaceRead :=
  r ← ask (read_surface sid lines);
  check (λ e, InstanceUnreachable (error_text e)) r.

Definition status_of (sid : N) (w : W) : option Value * W :=
  match call "surface.status"%string (VObject [("surface_id"%string : str, VN sid)]) w with
  | (inr status, w) =>
      (if is_some (Value.get status "error"%string) then None else Some status, w)
  | (inl _, w) => (None, w)
  end.

Definition should_wait_for_submit_start (result : Value) : bool :=
  if negb (default false (Value.as_bool (Value.index result "submitted"%string))) then false
  else default false (Value.as_bool (Value.index result "agent_target"%string))
       || bool_decide (Value.as_str (Value.index result "submit_mode"%string)
                       = Some ("deferred_paste_cr"%string : str)).

(** The text of the member [error]. *)
Definition error_of (result : Value) : option str :=
  Value.get result "error"%string ≫= Value.as_str.

(** ** Feeding *)

Definition feed_params (e : Engine) (r : UnitRun) (sid : N) (text : str) (submit : bool) : Value :=
  VObject
    ([("surface_id"%string : str, VN sid); ("text"%string : str, VString text);
      ("submit"%string : str, VBool submit)]
     ++ (if outside_flow r then
           match caller e with
           | Some c => [("scope_session"%string : str, VString c)]
           | None => []
           end
           ++ (if scope_all e then [("scope"%string : str, VString "all"%string)] else [])
         else [])).

Definition raw_text (u : Unit) : str :=
  match action u with
  | Send _ text => text
  | Spawn s => default [] (prompt (unit_pane s))
  end.

(** What follows the delivery of the text. *)
Definition after_feed (i : nat) (sid : N) (baseline : option ReadSnapshot)
    (before_submit : option Value) (result : Value) : M Message () :=
  let deliver := next ← barrier_or_ready i baseline; transition i next in
  match error_of result with
  | Some msg => fail i (Refused msg) false
  | None =>
      if should_wait_for_submit_start result then
        start ← ask (confirm_turn_start sid before_submit);
        if bool_decide (turn_started start = Some false)
        then fail i (TurnNotStarted sid (reason start)) false
        else deliver
      else deliver
  end.

Definition fire_feed (i : nat) : M Message () :=
  e ← get;
  r ← get_run i;
  match substitute_vars (raw_text (unit_of r)) (vars e) with
  | inl var => fail i (UndefinedVariable var) false
  | inr text =>
      sid ← unwrap (surface_id r);
      b ← ask (read_baseline sid READ_WINDOW_LINES);
      baseline ← check (λ e, e) b;
      match baseline with
      | None => fail i ClosedBeforeFeed false
      | Some snapshot =>
          let submit := submit (unit_of r) in
          before_submit ← (if submit then ask (status_of sid) else mret None);
          sent ← ask (call "surface.send_text"%string (feed_params e r sid text submit));
          match sent with
          | inr result => after_feed i sid (Some snapshot) before_submit result
          | inl e =>
              if is_send_text_disabled_error e then throw (GateOff e)
              else throw (InstanceUnreachable e)
          end
      end
  end.

(** ** A round over the running units *)

Definition timed_out (i : nat) : M Message () :=
  r ← get_run i;
  '(pattern, timeout) ← unwrap (unit_ready (unit_of r));
  fail i (TimedOutAfter timeout pattern) true.

(** [if Instant::now() >= deadline]. *)
Definition unless_late (i : nat) (deadline : N) : M Message () :=
  t ← ask now;
  if deadline <=? t then timed_out i else mret ().

Definition matched (i : nat) (text : str) : M Message () :=
  r ← get_run i;
  _ ← match unit_capture (unit_of r) with
      | Some (var, lines) => modify (λ e, set_vars (<[var := last_lines text lines]> (vars e)) e)
      | None => mret ()
      end;
  transition i Ready.

Definition poll (i : nat) (deadline : N) (re : Regex) (baseline : option ReadSnapshot)
  : M Message () :=
  r ← get_run i;
  sid ← unwrap (surface_id r);
  read ← read_window sid READ_WINDOW_LINES;
  match read with
  | Gone => fail i ClosedBeforePattern false
  | SkippedRead => unless_late i deadline
  | Snapshot snapshot =>
      text ← match baseline with
             | Some base => t ← unwrap (text_after_baseline base snapshot); mret (default [] t)
             | None => mret (text snapshot)
             end;
      if is_match re text then matched i text else unless_late i deadline
  end.

Definition settle_fire (elapsed stable : N) : bool :=
  (SETTLE_MAX <=? elapsed) || ((2 <=? stable) && (SETTLE_FLOOR <=? elapsed)).

Definition checked_u8 (n : N) : option N := if n <? 2 ^ 8 then Some n else None.

Definition settle (i : nat) (last_generation : option N) (stable since : N) : M Message () :=
  r ← get_run i;
  sid ← unwrap (surface_id r);
  t ← ask now;
  let elapsed := t - since in
  if SETTLE_MAX <=? elapsed then fire_feed i
  else
    read ← read_window sid SETTLE_WINDOW_LINES;
    match read with
    | Gone => fail i ClosedBeforeFeed false
    | SkippedRead => mret ()
    | Snapshot snapshot =>
        stable ← (if bool_decide (last_generation = output_generation snapshot)
                  then unwrap (checked_u8 (stable + 1)) else mret 0);
        if settle_fire elapsed stable then fire_feed i
        else update i (set_state (Settling (output_generation snapshot) stable since))
    end.

Definition progress_unit (i : nat) : M Message () :=
  r ← get_run i;
  match state r with
  | Polling deadline re baseline => poll i deadline re baseline
  | Settling last_generation stable since => settle i last_generation stable since
  | _ => mret ()
  end.

Fixpoint progress_from (idxs : list nat) : M Message () :=
  match idxs with
  | [] => mret ()
  | i :: idxs =>
      e ← get;
      if stops e then mret () else _ ← progress_unit i; progress_from idxs
  end.

Definition progress : M Message () := e ← get; progress_from (seq 0 (length (runs_ e))).

(** ** Scheduling *)

(** A group is ready when all its units are, and dead when one has failed or was skipped.  No
  group with the name: [None]. *)
Definition group_state (runs : list UnitRun) (g : str) : option (bool * bool) :=
  foldl (λ acc r,
    if bool_decide (group (unit_of r) = g) then
      let '(ready, dead) := default (true, false) acc in
      Some (match state r with
            | Ready => (ready, dead)
            | Failed _ | Skipped => (false, true)
            | _ => (false, dead)
            end)
    else acc) None runs.

(** The loop over the needs of a unit: whether all are ready, and the last dead one. *)
Definition needs_state (snapshot : str → option (bool * bool)) (needs : list str)
  : bool * option str :=
  foldl (λ '(all_ready, dead_dep) need,
    let '(ready, dead) := default (false, false) (snapshot need) in
    (all_ready && ready, if dead then Some need else dead_dep)) (true, None) needs.

Definition resolve_flow_target (e : Engine) (target : str) : option (CliError + N) :=
  let matches :=
    omap (λ r,
      match action (unit_of r) with
      | Spawn s =>
          if bool_decide (spawn_name s = target) || bool_decide (unit_id (unit_of r) = target)
             || bool_decide (group (unit_of r) = target)
          then surface_id r else None
      | Send _ _ => None
      end) (runs_ e) in
  match matches with
  | [] => None
  | [sid] => Some (inr sid)
  | _ => Some (inl (mkCli EXIT_TARGET (AmbiguousTarget target)))
  end.

Definition rollback_unit_worktree {E} (i : nat) (created : bool) : M E () :=
  if created then
    r ← get_run i;
    match run_worktree r with
    | Some plan => outside (rollback_created_worktrees [plan])
    | None => mret ()
    end
  else mret ().

(** The directory of a pane: that of its worktree, when it has one. *)
Definition pane_cwd (r : UnitRun) (p : PaneSpec) : option str :=
  match run_worktree r with Some w => Some (worktree_path w) | None => cwd p end.

Definition profile (p : PaneSpec) : str :=
  if is_some (agent p) then "agent"%string else "normal"%string.

Definition env_json (p : PaneSpec) : Value :=
  json_opt (λ pairs : list (str * str),
    VObject ((λ kv : str * str, (fst kv, VString (snd kv))) <$> pairs)) (env p).

(** The members that [workspace.up] and [surface.split] share. *)
Definition pane_members (r : UnitRun) (s : SpawnUnit) : list (str * Value) :=
  let p := unit_pane s in
  [("cwd"%string : str, json_opt VString (pane_cwd r p));
   ("command"%string : str, json_opt VString (run_command r));
   ("profile"%string : str, VString (profile p));
   ("prompt"%string : str, if submit (unit_of r) then Null else json_opt VString (prompt p));
   ("env"%string : str, env_json p);
   ("name"%string : str, VString (spawn_name s));
   ("managed_worktree"%string : str, json_opt managed_json (run_worktree r))].

Definition split_params (e : Engine) (r : UnitRun) (s : SpawnUnit) : Value :=
  VObject
    (("direction"%string : str,
      VString (if split_count e mod 2 =? 0 then "vertical"%string else "horizontal"%string))
     :: ("surface_id"%string : str, json_opt VN (anchor e)) :: pane_members r s).

(** The pane of a unit has been asked for. *)
Definition after_split (i : nat) (created : bool) (answer : str + Value) : M CliError () :=
  match answer with
  | inr result =>
      match error_of result with
      | Some msg =>
          _ ← rollback_unit_worktree i created;
          fail i (Refused msg) false
      | None =>
          let sid := Value.get result "surface_id"%string ≫= Value.as_u64 in
          _ ← update i (set_surface sid);
          if is_some sid then enter_post_action_state i
          else
            _ ← rollback_unit_worktree i created;
            fail i NoSurfaceId false
      end
  | inl e =>
      _ ← rollback_unit_worktree i created;
      throw (runtime (Said e))
  end.

Definition start_spawn (i : nat) (s : SpawnUnit) : M CliError () :=
  r ← get_run i;
  created ← match run_worktree r with
            | Some plan =>
                done ← ask (execute_worktree_plan plan);
                _ ← check (λ e, e) done;
                mret (creates_worktree plan)
            | None => mret false
            end;
  e ← get;
  _ ← modify (set_split (split_count e + 1));
  answer ← ask (call "surface.split"%string (split_params e r s));
  after_split i created answer.

Definition start_send (i : nat) (target : str) : M CliError () :=
  e ← get;
  sid ← match resolve_flow_target e target with
        | Some result => mret result
        | None =>
            _ ← update i (set_outside true);
            ask (resolve_target target)
        end;
  match sid with
  | inr sid =>
      _ ← update i (set_surface (Some sid));
      enter_post_action_state i
  | inl e => fail i (UnresolvedTarget (message e)) false
  end.

Definition start_unit (i : nat) : M CliError () :=
  t ← ask now;
  _ ← update i (set_started (Some t));
  r ← get_run i;
  match action (unit_of r) with
  | Spawn s => start_spawn i s
  | Send target _ => start_send i target
  end.

(** A pending unit, with the states of the groups when the round began. *)
Definition schedule_unit (snapshot : str → option (bool * bool)) (i : nat) : M CliError () :=
  r ← get_run i;
  if negb (is_pending (state r)) then mret ()
  else
    let '(all_ready, dead_dep) := needs_state snapshot (unit_needs (unit_of r)) in
    match dead_dep with
    | Some dep =>
        _ ← update i (set_error (Some (DeadDependency dep)));
        transition i Skipped
    | None => if all_ready then start_unit i else mret ()
    end.

Definition propagate_and_schedule : M CliError () :=
  e ← get;
  for_each_m (seq 0 (length (runs_ e))) (schedule_unit (group_state (runs_ e))).

Definition skip_pending_after_fail_fast {E} : M E () :=
  modify (λ e, set_runs
    ((λ r, if is_pending (state r) then set_error (Some EarlierStepFailed) (set_state Skipped r)
           else r) <$> runs_ e) e).

(** ** Opening the panes of the roots *)

Definition roots (runs : list UnitRun) : list nat :=
  filter (λ i, is_empty (default [] (unit_needs ∘ unit_of <$> runs !! i)) = true)
    (seq 0 (length runs)).

(** The worktrees of the roots, then the parameters of their panes. *)
Fixpoint bootstrap_panes (idxs : list nat) (panes : list Value) (created : list WorktreePlan)
  : M CliError (list Value * list WorktreePlan) :=
  match idxs with
  | [] => mret (panes, created)
  | i :: idxs =>
      r ← get_run i;
      created ←
        match run_worktree r with
        | None => mret created
        | Some plan =>
            done ← ask (execute_worktree_plan plan);
            match done with
            | inl e =>
                _ ← outside (rollback_created_worktrees created);
                throw e
            | inr _ => mret (if creates_worktree plan then created ++ [plan] else created)
            end
        end;
      s ← unwrap (match action (unit_of r) with Spawn s => Some s | Send _ _ => None end);
      let members :=
        ("focus"%string : str, json_opt VBool (focus (unit_pane s))) :: pane_members r s in
      bootstrap_panes idxs (panes ++ [VObject members]) created
  end.

Definition surface_ids (result : Value) : list N :=
  match Value.get result "surface_ids"%string with
  | Some (VArray vs) => omap Value.as_u64 vs
  | _ => []
  end.

(** Each root with its surface. *)
Fixpoint start_roots (pairs : list (nat * N)) (t : N) : M CliError () :=
  match pairs with
  | [] => mret ()
  | (i, sid) :: pairs =>
      _ ← update i (set_surface (Some sid));
      _ ← update i (set_started (Some t));
      _ ← enter_post_action_state i;
      start_roots pairs t
  end.

Definition bootstrap_wave0 : M CliError () :=
  e ← get;
  let roots := roots (runs_ e) in
  '(panes, created) ← bootstrap_panes roots [] [];
  answer ← ask (call "workspace.up"%string
    (VObject [("name"%string : str, VString (engine_name e));
              ("layout"%string : str, VString (as_ipc (engine_layout e)));
              ("panes"%string : str, VArray panes)]));
  let undo e := _ ← outside (rollback_created_worktrees created); throw (runtime (Said e)) in
  match answer with
  | inl e => undo e
  | inr result =>
      match error_of result with
      | Some e => undo e
      | None =>
          let ids := surface_ids result in
          if negb (length ids =? length roots)%nat
          then throw (runtime (SurfaceCount (length ids) (length roots)))
          else
            _ ← modify (set_anchor (head ids));
            t ← ask now;
            start_roots (zip roots ids) t
      end
  end.

(** ** The run *)

(** [Some e]: the run was aborted. *)
Fixpoint execute_loop (fuel : nat) : M CliError (option Message) :=
  match fuel with
  | O => unwrap None
  | S fuel =>
      stop ← ask interrupted;
      if (stop : bool) then mret (Some InterruptedRun)
      else
        p ← attempt progress;
        match p with
        | inl e => mret (Some e)
        | inr _ =>
            e ← get;
            if stops e then _ ← skip_pending_after_fail_fast; mret None
            else
              _ ← propagate_and_schedule;
              e ← get;
              if stops e then _ ← skip_pending_after_fail_fast; mret None
              else if forallb (λ r, is_terminal (state r)) (runs_ e) then mret None
              else
                _ ← outside (sleep TICK);
                execute_loop fuel
        end
  end.

Record StepReport := mkStepReport {
  report_id : str; report_status : str; duration_ms : option N; report_surface : option N;
  report_error : option RunError }.

Record Report := mkReport {
  exit_code : Z; status : str; aborted : option Message; report_steps : list StepReport }.

Definition report (e : Engine) (aborted : option Message) : Report :=
  let any_timeout :=
    existsb (λ r, match state r with Failed true => true | _ => false end) (runs_ e) in
  let all_ready := forallb (λ r, is_ready (state r)) (runs_ e) in
  mkReport
    (if is_some aborted then EXIT_RUNTIME
     else if all_ready then EXIT_OK else if any_timeout then EXIT_TIMEOUT else EXIT_RUNTIME)
    (if is_some aborted then "aborted"%string
     else if all_ready then "ready"%string else "failed"%string)
    aborted
    ((λ r, mkStepReport (unit_id (unit_of r)) (label (state r))
             (s ← started r; f ← finished r; Some (f - s)) (surface_id r) (error r)) <$> runs_ e).

Definition execute (fuel : nat) : M CliError Report :=
  _ ← bootstrap_wave0;
  aborted ← execute_loop fuel;
  e ← get;
  mret (report e aborted).

(** ** From a plan to its run *)

Definition capability (caps : Value) (key : str) : option bool :=
  Value.get caps key ≫= Value.as_bool.

Definition check_orchestration_gate (dry_run : bool) (w : W) : (CliError + ()) * W :=
  match call "system.capabilities"%string (VObject []) w with
  | (inr caps, w) =>
      (match capability caps "orchestration"%string, capability caps "scripting"%string with
       | Some true, _ | _, Some true | None, _ => inr ()
       | Some false, _ => inl (runtime OrchestrationOff)
       end, w)
  | (inl e, w) => (if dry_run then inr () else inl (runtime (Said e)), w)
  end.

Definition check_scripting_gate (dry_run : bool) (w : W) : (CliError + ()) * W :=
  match call "system.capabilities"%string (VObject []) w with
  | (inr caps, w) =>
      (match capability caps "scripting"%string with
       | Some false => inl (runtime ScriptingOff)
       | _ => inr ()
       end, w)
  | (inl e, w) => (if dry_run then inr () else inl (runtime (Said e)), w)
  end.

Definition set_env v (p : PaneSpec) : PaneSpec :=
  mkPane (cwd p) (agent p) (command p) (prompt p) (focus p) v (pane_name p) (worktree p)
    (from p) (copy_env p) (setup p) (setup_timeout_secs p) (worktree_teardown p).

Definition substitute_unit_env (u : Unit) (port_offset : option N) : Unit :=
  match action u with
  | Spawn s =>
      let p := unit_pane s in
      mkUnit (unit_id u) (group u) (unit_needs u)
        (Spawn (mkSpawn (set_env (substitute_env (env p) port_offset) p) (spawn_name s)))
        (unit_ready u) (unit_capture u) (submit u)
  | Send _ _ => u
  end.

(** What [prepare_runs] asks of the configuration and of [git]: [resolve_command],
  [plan_worktree] and [check_worktree_conflicts] of [up_cmd.rs]. *)
Class Preparation := {
  resolve_command : nat → PaneSpec → CliError + option str;
  plan_worktree : nat → PaneSpec → CliError + option WorktreePlan;
  check_worktree_conflicts :
    list (option WorktreePlan) → CliError + list (option WorktreePlan);
  port_is_free : N → bool }.

Context {P : Preparation}.

Definition prepare_unit (i : nat) (u : Unit)
  : CliError + (option str * option WorktreePlan * bool) :=
  match action u with
  | Spawn s =>
      command ← resolve_command i (unit_pane s);
      worktree ← plan_worktree i (unit_pane s);
      match validate_pane_env_tokens (unit_pane s) with
      | inr references => inr (command, worktree, references)
      | inl e => inl (runtime (UnknownEnvVariable e))
      end
  | Send _ _ => inr (None, None, false)
  end.

Fixpoint prepare_units (i : nat) (us : list Unit)
  : CliError + list (option str * option WorktreePlan * bool) :=
  match us with
  | [] => inr []
  | u :: us =>
      x ← prepare_unit i u;
      xs ← prepare_units (S i) us;
      inr (x :: xs)
  end.

Definition prepare_runs (plan : FlowPlan) : CliError + list UnitRun :=
  prepared ← prepare_units 0 (units plan);
  worktrees ← check_worktree_conflicts (prepared.*1.*2);
  match allocate_port_offsets (prepared.*2) (plan_port_base plan) port_is_free with
  | None => inl (runtime PortsExhausted)
  | Some offsets =>
      inr ((λ '(u, (command, worktree, offset)),
              new_run (substitute_unit_env u offset) command worktree)
           <$> zip (units plan) (zip (zip prepared.*1.*1 worktrees) offsets))
  end.

(** [run], after the file has been read and parsed.  A dry run only shows the plan: [None]. *)
Definition run (fuel : nat) (spec : FlowSpec) (dry_run : bool) (caller : option str)
    (scope_all : bool) (w : W) : option ((CliError + option Report) * W) :=
  match load spec with
  | None => None
  | Some (inl e) => Some (inl (runtime (InvalidFlow e)), w)
  | Some (inr plan) =>
      match prepare_runs plan with
      | inl e => Some (inl e, w)
      | inr runs =>
          let '(gate, w) := if dry_run then (inr (), w) else check_orchestration_gate dry_run w in
          match gate with
          | inl e => Some (inl e, w)
          | inr _ =>
              let '(gate, w) :=
                if requires_submit plan then check_scripting_gate dry_run w else (inr (), w) in
              match gate with
              | inl e => Some (inl e, w)
              | inr _ =>
                  if dry_run then Some (inr None, w)
                  else
                    let engine :=
                      mkEngine (plan_on_failure plan) (plan_name plan) (plan_layout plan) caller
                        scope_all runs ∅ 0 None in
                    '(r, (_, w)) ← execute fuel (engine, w);
                    Some (match r with inr report => inr (Some report) | inl e => inl e end, w)
              end
          end
      end
  end.
End engine.
