(* ===== verification/FlowSpecCorrect.v ===== *)
(** * Flow specifications: proofs

    Dependencies ([step_depends_on] is the transitive closure of [needs], [detect_cycles]
    finds a cycle exactly when there is one), validation, tokens and expansion. *)

From stdpp Require Import gmap list strings relations well_founded.
From S2P Require Import Prelude DiffText AgentActivity FlowSpec.

Local Open Scope flow_scope.

(** ** Results *)

(** [m] does not panic; its error is in [E], its result in [P]. *)
Definition yields {A} (E : FlowError → Prop) (m : outcome A) (P : A → Prop) : Prop :=
  match m with Some (inr a) => P a | Some (inl e) => E e | None => False end.

Section yields.
Context (E : FlowError → Prop).

Lemma yields_ok {A} (a : A) (P : A → Prop) : P a → yields E (ok a) P.
Proof. done. Qed.

Lemma yields_err {A} (e : FlowError) (P : A → Prop) : E e → yields E (err e) P.
Proof. done. Qed.

Lemma yields_bind {A B} (m : outcome A) (f : A → outcome B) P Q :
  yields E m P → (∀ a, P a → yields E (f a) Q) → yields E (obind m f) Q.
Proof. destruct m as [[e|a]|]; simpl; auto. Qed.

Lemma yields_mono {A} (m : outcome A) (P Q : A → Prop) :
  yields E m P → (∀ a, P a → Q a) → yields E m Q.
Proof. destruct m as [[e|a]|]; simpl; auto. Qed.

Lemma yields_ensure (b : bool) e (P : () → Prop) :
  (b = true → P ()) → (b = false → E e) → yields E (ensure b e) P.
Proof. unfold ensure, require. destruct b; simpl; auto. Qed.

Lemma yields_ensure_dec (Q : Prop) `{Decision Q} e (P : () → Prop) :
  (Q → P ()) → (¬ Q → E e) → yields E (ensure (bool_decide Q) e) P.
Proof.
  intros HQ HE. apply yields_ensure; [by intros ?%bool_decide_eq_true; auto|].
  by intros ?%bool_decide_eq_false; auto.
Qed.

Lemma yields_try_each {A S} (xs : list A) (body : A → S → outcome S)
    (Inv : list A → S → Prop) st (Q : S → Prop) :
  Inv [] st →
  (∀ done x rest st, xs = done ++ x :: rest → Inv done st →
     yields E (body x st) (Inv (done ++ [x]))) →
  (∀ st, Inv xs st → Q st) →
  yields E (try_each xs body st) Q.
Proof.
  intros H0 Hstep HQ.
  assert (∀ rest dn st, xs = dn ++ rest → Inv dn st →
            yields E (try_each rest body st) (Inv xs)) as Hgen.
  { induction rest as [|x rest IH]; intros dn s Hxs Hinv; simpl.
    - rewrite app_nil_r in Hxs. by subst.
    - eapply yields_bind; [by eapply Hstep|]. intros s' Hs'.
      apply (IH (dn ++ [x])); [by rewrite <- app_assoc|done]. }
  eapply yields_mono; [by apply (Hgen xs [])|done].
Qed.

(** A loop without a state: every item is checked. *)
Lemma yields_for_all {A} (xs : list A) (body : A → outcome ()) (P : A → Prop) (Q : () → Prop) :
  (∀ x, x ∈ xs → yields E (body x) (λ _, P x)) → ((∀ x, x ∈ xs → P x) → Q ()) →
  yields E (for_all xs body) Q.
Proof.
  intros Hbody HQ. unfold for_all.
  apply (yields_try_each _ _ (λ done _, ∀ x, x ∈ done → P x)).
  - by intros x ?%elem_of_nil.
  - intros dn x rest [] -> Hdn. eapply yields_mono; [apply Hbody; set_solver|]. set_solver.
  - intros []. auto.
Qed.
End yields.

(** ** Lists *)

Lemma length_filter_mono {A} (P Q : A → Prop) `{∀ x, Decision (P x), ∀ x, Decision (Q x)} (l : list A) :
  (∀ x, P x → Q x) → length (filter P l) ≤ length (filter Q l).
Proof.
  intros HPQ. induction l as [|x l IH]; [done|]. rewrite !filter_cons.
  destruct (decide (P x)), (decide (Q x)); simpl; naive_solver lia.
Qed.

Lemma length_filter_strict {A} (P Q : A → Prop) `{∀ x, Decision (P x), ∀ x, Decision (Q x)}
    (a : A) (l : list A) :
  (∀ x, P x → Q x) → a ∈ l → ¬ P a → Q a → length (filter P l) < length (filter Q l).
Proof.
  intros HPQ Ha HPa HQa. apply list_elem_of_split in Ha as (l1&l2&->).
  rewrite !filter_app, !length_app, !filter_cons, decide_False, decide_True by done. simpl.
  pose proof (length_filter_mono P Q l1 HPQ). pose proof (length_filter_mono P Q l2 HPQ). lia.
Qed.

(** ** Dependencies *)

(** Step [a] needs step [b]. *)
Definition needs_step (spec : FlowSpec) (a b : str) : Prop :=
  ∃ s, s ∈ steps spec ∧ step_id s = a ∧ b ∈ needs s.

Definition step_ids (spec : FlowSpec) : list str := step_id <$> steps spec.

Lemma foldl_insert_lookup {A B} `{Countable K} (key : A → K) (val : A → B) (l : list A) k b :
  NoDup (key <$> l) →
  foldl (λ m a, <[key a := val a]> m) (∅ : gmap K B) l !! k = Some b ↔
  ∃ a, a ∈ l ∧ key a = k ∧ val a = b.
Proof.
  induction l as [|x l IH] using rev_ind; intros Hnd.
  - simpl. rewrite lookup_empty. split; [done|]. by intros (a&?%elem_of_nil&_).
  - rewrite fmap_app, NoDup_app in Hnd. destruct Hnd as (Hnd&Hx&_).
    rewrite foldl_app. simpl. destruct (decide (key x = k)) as [<-|Hne].
    + rewrite lookup_insert_eq. split.
      * intros [= <-]. exists x. set_solver.
      * intros (a&Ha&Hk&<-). apply elem_of_app in Ha as [Ha|Ha%list_elem_of_singleton]; [|by subst].
        exfalso. apply (Hx (key a)); [by apply list_elem_of_fmap_2|].
        simpl. rewrite Hk. by left.
    + rewrite lookup_insert_ne, IH by done. set_solver.
Qed.

Section dependencies.
Context (spec : FlowSpec) (Hids : NoDup (step_ids spec)).

Lemma index_lookup id s : index spec !! id = Some s ↔ s ∈ steps spec ∧ step_id s = id.
Proof.
  unfold index. rewrite (foldl_insert_lookup step_id (λ s, s)) by done.
  split; [intros (a&?&?&->)|intros [??]]; eauto.
Qed.

Lemma step_unique s s' : s ∈ steps spec → s' ∈ steps spec → step_id s = step_id s' → s = s'.
Proof.
  intros H1 H2 He. assert (index spec !! step_id s = Some s) as Hi by (by apply index_lookup).
  assert (index spec !! step_id s = Some s') as Hi' by (by apply index_lookup). congruence.
Qed.

Lemma needs_step_of s b : s ∈ steps spec → needs_step spec (step_id s) b ↔ b ∈ needs s.
Proof.
  intros Hs. split; [|by exists s]. intros (s'&Hs'&He&Hb). by rewrite (step_unique s s').
Qed.

(** *** [step_depends_on] *)

(** The known steps not yet seen. *)
Definition unseen (seen : gset str) : nat :=
  length (filter (λ s, step_id s ∉ seen) (steps spec)).

Lemma unseen_mono seen seen' : seen ⊆ seen' → unseen seen' ≤ unseen seen.
Proof. intros Hsub. apply length_filter_mono. set_solver. Qed.

Lemma unseen_insert seen s :
  s ∈ steps spec → step_id s ∉ seen → unseen ({[step_id s]} ∪ seen) < unseen seen.
Proof. intros Hs Hn. apply (length_filter_strict _ _ s); set_solver. Qed.

Section visit.
Context (dep : str).

(** What a visit has seen is closed under [needs], and does not need [dep]. *)
Definition closed_from (seen seen' : gset str) : Prop :=
  ∀ x y, x ∈ seen' → x ∉ seen → needs_step spec x y → y ≠ dep ∧ y ∈ seen'.

Lemma closed_from_trans seen seen1 seen2 :
  closed_from seen seen1 → closed_from seen1 seen2 → seen1 ⊆ seen2 → closed_from seen seen2.
Proof.
  intros H1 H2 Hsub x y Hx Hn Hy. destruct (decide (x ∈ seen1)) as [Hx1|Hx1].
  - destruct (H1 x y Hx1 Hn Hy). set_solver.
  - by apply (H2 x y).
Qed.

Definition visit_spec (id : str) (seen : gset str) (r : bool * gset str) : Prop :=
  seen ⊆ r.2 ∧ if r.1 then tc (needs_step spec) id dep else id ∈ r.2 ∧ closed_from seen r.2.

Lemma any_need_spec visit bound ns seen :
  (∀ n seen, unseen seen ≤ bound → runs (visit n seen) (visit_spec n seen)) →
  unseen seen ≤ bound →
  runs (any_need dep ns visit seen) (λ r, seen ⊆ r.2 ∧
  if r.1 then ∃ n, n ∈ ns ∧ (n = dep ∨ tc (needs_step spec) n dep)
  else (∀ n, n ∈ ns → n ≠ dep ∧ n ∈ r.2) ∧ closed_from seen r.2).
Proof.
  intros Hvisit. revert seen. induction ns as [|n ns IH]; intros seen Hb; simpl.
  { split; [done|]. split; [by intros ? ?%elem_of_nil|]. by intros x y. }
  case_bool_decide as Hn; [subst; simpl; set_solver|].
  eapply runs_bind; [by apply Hvisit|]. intros [found seen1] [Hsub Hfound]. simpl in *.
  destruct found.
  - split; [done|]. exists n. set_solver.
  - destruct Hfound as [Hin Hcl].
  eapply runs_mono; [apply IH; etrans; [by apply unseen_mono|done]|].
  intros [found seen2] [Hsub2 Hfound2]. simpl in *. split; [set_solver|]. destruct found.
  + destruct Hfound2 as (m&?&?). exists m. set_solver.
  + destruct Hfound2 as [Hall Hcl2]. split; [set_solver|]. by eapply closed_from_trans.
Qed.

Lemma depends_visit_spec fuel id seen :
  unseen seen < fuel → runs (depends_visit (index spec) dep fuel id seen) (visit_spec id seen).
Proof.
  revert id seen. induction fuel as [|fuel IH]; intros id seen Hf; [lia|]. simpl.
  case_bool_decide as Hseen; [by split; [|split; [|intros x y]]|].
  destruct (index spec !! id) as [s|] eqn:Hs; simpl.
  - apply index_lookup in Hs as [Hs <-].
  eapply runs_mono; [apply (any_need_spec _ (pred fuel))|].
  + intros n seen' Hb. apply IH. pose proof (unseen_insert seen s Hs Hseen). lia.
  + pose proof (unseen_insert seen s Hs Hseen). lia.
  + intros [found seen'] [Hsub Hr]. simpl in *. split; [set_solver|]. destruct found; simpl in *.
    * destruct Hr as (n&Hn&[->|Ht]); [apply tc_once|eapply tc_l; [|done]]; by exists s.
    * destruct Hr as [Hall Hcl]. split; [set_solver|]. intros x y Hx Hnx Hxy.
      destruct (decide (x = step_id s)) as [->|Hne].
      -- apply Hall. by apply needs_step_of.
      -- apply (Hcl x y); set_solver.
  - split; simpl; [set_solver|]. split; [set_solver|]. intros x y Hx Hnx (s&Hs'&He&_).
  assert (x = id) as -> by set_solver.
  assert (index spec !! id = Some s) as Hi by (by apply index_lookup). congruence.
Qed.

Lemma closed_no_path seen x z :
  closed_from ∅ seen → tc (needs_step spec) x z → x ∈ seen → z ≠ dep.
Proof.
  intros Hcl. induction 1 as [x y Hxy|x y z Hxy _ IH]; intros Hx.
  - by destruct (Hcl x y Hx (not_elem_of_empty _) Hxy).
  - apply IH. by destruct (Hcl x y Hx (not_elem_of_empty _) Hxy).
Qed.
End visit.

Lemma step_depends_on_spec id dep :
  ∃ b, step_depends_on spec id dep = Some b ∧ (b = true ↔ tc (needs_step spec) id dep).
Proof.
  assert (unseen ∅ < S (S (length (steps spec)))) as Hf.
  { eapply Nat.le_lt_trans; [apply length_filter|]. lia. }
  pose proof (depends_visit_spec dep _ id ∅ Hf) as Hv.
  unfold step_depends_on. apply runs_some in Hv as ([b seen]&->&_&Hb). exists b. split; [done|].
  destruct b; simpl in *; [done|]. split; [done|]. intros Ht. destruct Hb as [Hin Hcl].
  by destruct (closed_no_path dep seen id dep Hcl Ht Hin).
Qed.
End dependencies.

(** ** Cycles *)

Section chain.
Context {A : Type} (R : A → A → Prop).

(** Consecutive elements are related. *)
Definition chain (l : list A) : Prop :=
  ∀ i a b, l !! i = Some a → l !! S i = Some b → R a b.

Lemma chain_extend l a : chain l → (∀ x, last l = Some x → R x a) → chain (l ++ [a]).
Proof.
  intros Hc Hl i x y Hx Hy. apply lookup_app_Some in Hy as [Hy|[Hle Hy]].
  - apply (Hc i); [|done]. apply lookup_lt_Some in Hy. by rewrite lookup_app_l in Hx by lia.
  - apply list_lookup_singleton_Some in Hy as [Hy <-]. apply Hl.
    rewrite last_lookup, <- Hx, lookup_app_l by lia. f_equal. lia.
Qed.

Lemma chain_drop n l : chain l → chain (drop n l).
Proof. intros Hc i a b. rewrite !lookup_drop, Nat.add_succ_r. apply Hc. Qed.

Lemma chain_tc a l b : chain (a :: l ++ [b]) → tc R a b.
Proof.
  revert a. induction l as [|x l IH]; intros a Hc.
  - apply tc_once. by apply (Hc 0).
  - eapply tc_l; [by apply (Hc 0)|]. apply IH. by apply (chain_drop 1) in Hc.
Qed.
End chain.

(** The steps of [c], the last of which is the first, need one another. *)
Definition is_cycle (spec : FlowSpec) (c : list str) : Prop :=
  ∃ a l, c = a :: l ++ [a] ∧ chain (needs_step spec) c.

Lemma is_cycle_tc spec c : is_cycle spec c → ∃ a, tc (needs_step spec) a a.
Proof. intros (a&l&->&Hc). exists a. by eapply chain_tc. Qed.

Lemma acc_no_cycle {A} (R : A → A → Prop) a : Acc (λ y x, R x y) a → ¬ tc R a a.
Proof.
  intros Hacc Ht.
  assert (∀ x, Acc (λ y x, tc R x y) x → ¬ tc R x x) as Hirr.
  { induction 1 as [x _ IH]. intros Hx. by apply (IH x Hx). }
  apply (Hirr a); [|done]. clear Hirr Ht. induction Hacc as [x _ IH]. constructor.
  intros y Hy. destruct Hy as [x y Hxy|x y z Hxy Hyz]; [by apply IH|].
  destruct (IH y Hxy) as [Hinv]. by apply Hinv.
Qed.

Section cycles.
Context (spec : FlowSpec) (Hids : NoDup (step_ids spec)).
Context (Hclosed : ∀ s n, s ∈ steps spec → n ∈ needs s → n ∈ step_ids spec).
Local Notation below := (λ b a, needs_step spec a b).

Record walk_ok (walk : Walk) : Prop := {
  walk_dom id : id ∈ step_ids spec → is_Some (walk.1 !! id);
  walk_grey id : walk.1 !! id = Some Grey ↔ id ∈ walk.2;
  walk_nodup : NoDup walk.2;
  walk_ids id : id ∈ walk.2 → id ∈ step_ids spec;
  walk_chain : chain (needs_step spec) walk.2;
  walk_black id : walk.1 !! id = Some Black → Acc below id }.

Definition keeps_black (marks marks' : gmap str Mark) : Prop :=
  ∀ x, marks !! x = Some Black → marks' !! x = Some Black.

Definition cycle_error (e : FlowError) : Prop := ∃ c, e = Cycle c ∧ is_cycle spec c.

(** A visit ends on the same path, or with a cycle. *)
Definition walk_spec (id : str) (walk : Walk) (m : outcome Walk) : Prop :=
  yields cycle_error m (λ walk', walk_ok walk' ∧ walk'.2 = walk.2 ∧
    walk'.1 !! id = Some Black ∧ keeps_black walk.1 walk'.1).

Lemma walk_path_length walk : walk_ok walk → length walk.2 ≤ length (steps spec).
Proof.
  intros Hw. rewrite <- (length_fmap step_id (steps spec)).
  apply submseteq_length, NoDup_submseteq; [by apply walk_nodup|]. intros x. by apply walk_ids.
Qed.

Lemma grey_cycle id marks path :
  walk_ok (marks, path) → id ∈ path → (∀ x, last path = Some x → needs_step spec x id) →
  is_cycle spec (drop (default 0 (position id path)) path ++ [id]).
Proof.
  intros Hw Hin Hlink. unfold position.
  destruct (list_find (λ p, p = id) path) as [[i p]|] eqn:Hf.
  - apply list_find_Some in Hf as (Hi&->&_). simpl. rewrite (drop_S _ _ _ Hi).
    exists id, (drop (S i) path). split; [done|]. simpl.
    change (id :: drop (S i) path ++ [id]) with ((id :: drop (S i) path) ++ [id]).
    apply lookup_lt_Some in Hi as Hlt.
    rewrite <- (drop_S _ _ _ Hi), <- drop_app_le by lia.
    by apply chain_drop, chain_extend; [apply (walk_chain _ Hw)|].
  - apply list_find_None, Forall_forall with (x := id) in Hf; done.
Qed.

(** Entering a white step. *)
Lemma walk_enter id marks path :
  walk_ok (marks, path) → marks !! id = Some White → id ∈ step_ids spec →
  (∀ x, last path = Some x → needs_step spec x id) →
  walk_ok (<[id := Grey]> marks, path ++ [id]).
Proof.
  intros Hw Hm Hid Hlink. pose proof (walk_grey _ Hw id) as Hg. simpl in Hg. split; simpl.
  - intros x Hx. rewrite lookup_insert_is_Some'. right. by apply (walk_dom _ Hw).
  - intros x. destruct (decide (x = id)) as [->|Hne].
    + rewrite lookup_insert_eq. set_solver.
    + rewrite lookup_insert_ne by done. rewrite (walk_grey _ Hw x). set_solver.
  - apply NoDup_app. split; [by apply (walk_nodup _ Hw)|].
    split; [|by apply NoDup_singleton]. intros x Hx ->%list_elem_of_singleton.
    apply Hg in Hx. congruence.
  - intros x [Hx| ->%list_elem_of_singleton]%elem_of_app; [by apply (walk_ids _ Hw)|done].
  - by apply chain_extend; [apply (walk_chain _ Hw)|].
  - intros x. destruct (decide (x = id)) as [->|Hne]; [by rewrite lookup_insert_eq|].
    rewrite lookup_insert_ne by done. apply (walk_black _ Hw).
Qed.

(** Leaving it when all it needs is black. *)
Lemma walk_leave s marks path :
  s ∈ steps spec → walk_ok (marks, path ++ [step_id s]) →
  (∀ n, n ∈ needs s → marks !! n = Some Black) →
  walk_ok (<[step_id s := Black]> marks, path).
Proof.
  intros Hs Hw Hb. pose proof (walk_nodup _ Hw) as Hnd. simpl in Hnd.
  apply NoDup_app in Hnd as (Hnd&Hni&_). split; simpl.
  - intros x Hx. rewrite lookup_insert_is_Some'. right. by apply (walk_dom _ Hw).
  - intros x. destruct (decide (x = step_id s)) as [->|Hne].
    + rewrite lookup_insert_eq. split; [done|]. intros Hx. exfalso. apply (Hni _ Hx). by left.
    + rewrite lookup_insert_ne by done. rewrite (walk_grey _ Hw x). simpl. set_solver.
  - done.
  - intros x Hx. apply (walk_ids _ Hw). simpl. set_solver.
  - intros i a b Ha Hb'. apply (walk_chain _ Hw i); simpl.
    + by apply lookup_app_l_Some.
    + by apply lookup_app_l_Some.
  - intros x. destruct (decide (x = step_id s)) as [->|Hne].
    + intros _. constructor. intros y Hy. apply (walk_black _ Hw). simpl. apply Hb.
      by apply needs_step_of in Hy.
    + rewrite lookup_insert_ne by done. apply (walk_black _ Hw).
Qed.

Lemma cycle_visit_spec fuel id walk :
  length (steps spec) < fuel + length walk.2 → walk_ok walk → id ∈ step_ids spec →
  (∀ x, last walk.2 = Some x → needs_step spec x id) →
  walk_spec id walk (cycle_visit (index spec) fuel id walk).
Proof.
  revert id walk. induction fuel as [|fuel IH]; intros id [marks path] Hf Hw Hid Hlink.
  { pose proof (walk_path_length _ Hw). simpl in *. lia. }
  unfold walk_spec. simpl. destruct (walk_dom _ Hw id Hid) as [mark Hmark]. simpl in Hmark.
  rewrite Hmark. simpl. destruct mark; simpl.
  - apply list_elem_of_fmap in Hid as Hid'. destruct Hid' as (s&->&Hs).
    assert (index spec !! step_id s = Some s) as -> by (by apply index_lookup). simpl.
    eapply yields_bind.
    + apply (yields_try_each _ _ _ (λ done walk', walk_ok walk' ∧ walk'.2 = path ++ [step_id s] ∧
        (∀ n, n ∈ done → walk'.1 !! n = Some Black) ∧ keeps_black marks walk'.1) _
        (λ walk', walk_ok walk' ∧ walk'.2 = path ++ [step_id s] ∧
        (∀ n, n ∈ needs s → walk'.1 !! n = Some Black) ∧ keeps_black marks walk'.1)); [| |done].
      * split_and!; [by apply walk_enter|done|by intros ? ?%elem_of_nil|].
        intros x Hx. simpl. destruct (decide (x = step_id s)) as [->|]; [congruence|].
        by rewrite lookup_insert_ne.
      * intros done n rest [m p] Hsplit (Hw'&Hp&Hdone&Hkeep). simpl in *. subst p.
        eapply yields_mono; [apply (IH n (m, path ++ [step_id s]))|]; simpl.
        -- rewrite length_app. simpl. lia.
        -- done.
        -- apply (Hclosed s); [done|]. rewrite Hsplit. set_solver.
        -- intros x. rewrite last_snoc. intros [= <-]. exists s. rewrite Hsplit. set_solver.
        -- intros [m' p'] (Hw2&Hp2&Hb2&Hk2). simpl in *. split_and!; [done|done| |].
           ++ intros x [Hx| ->%list_elem_of_singleton]%elem_of_app; [|done]. by apply Hk2, Hdone.
           ++ intros x Hx. by apply Hk2, Hkeep.
    + intros [m p] (Hw'&Hp&Hdone&Hkeep). simpl in *. subst p. rewrite removelast_last.
      split_and!; simpl; [by apply walk_leave|done|by rewrite lookup_insert_eq|].
      intros x Hx. destruct (decide (x = step_id s)) as [->|].
      * by rewrite lookup_insert_eq.
      * rewrite lookup_insert_ne by done. by apply Hkeep.
  - eexists. split; [done|]. apply grey_cycle with (marks := marks); [done| |done].
    by apply (walk_grey _ Hw).
  - split_and!; [done|done|done|]. by intros x.
Qed.

Lemma detect_cycles_spec :
  yields cycle_error (detect_cycles spec) (λ _, ∀ id, Acc below id).
Proof.
  unfold detect_cycles. eapply yields_bind.
  - set (white := foldl _ _ _).
    assert (∀ id m, white !! id = Some m ↔ id ∈ step_ids spec ∧ m = White) as Hwhite.
    { intros id m. unfold white. rewrite (foldl_insert_lookup step_id (λ _, White)) by done.
      unfold step_ids. rewrite list_elem_of_fmap. naive_solver. }
    apply (yields_try_each _ _ _ (λ done walk, walk_ok walk ∧ walk.2 = [] ∧
      ∀ s, s ∈ done → walk.1 !! step_id s = Some Black) _
      (λ walk, walk_ok walk ∧ ∀ s, s ∈ steps spec → walk.1 !! step_id s = Some Black)).
    + split_and!; [|done|by intros ? ?%elem_of_nil]. split; simpl.
      * intros id Hid. exists White. by apply Hwhite.
      * intros id. rewrite Hwhite. set_solver.
      * constructor.
      * by intros id ?%elem_of_nil.
      * by intros i a b Hi.
      * by intros id [_ ?]%Hwhite.
    + intros done s rest [m p] Hsplit (Hw&Hp&Hdone). simpl in *. subst p.
      assert (s ∈ steps spec) as Hs by (rewrite Hsplit; set_solver).
      eapply yields_mono; [apply (cycle_visit_spec (S (length (steps spec))) (step_id s) (m, []))|].
      * simpl. lia.
      * done.
      * by apply list_elem_of_fmap_2.
      * done.
      * intros [m' p'] (Hw'&Hp'&Hb&Hk). simpl in *. split_and!; [done|done|].
        intros x [Hx| ->%list_elem_of_singleton]%elem_of_app; [|done]. by apply Hk, Hdone.
    + intros walk (Hw&_&Hall). by split.
  - intros walk [Hw Hall] id. destruct (decide (id ∈ step_ids spec)) as [Hid|Hn].
    + apply list_elem_of_fmap in Hid as (s&->&Hs). by apply (walk_black _ Hw), Hall.
    + constructor. intros y (s&Hs&<-&_). exfalso. apply Hn. by apply list_elem_of_fmap_2.
Qed.
End cycles.

(** ** Checks that decide a property *)

(** [m] does not panic; it is an error exactly when [P] does not hold, and its result is in
    [Q]. *)
Definition decides {A} (P : Prop) (m : outcome A) (Q : A → Prop) : Prop :=
  yields (λ _, ¬ P) m (λ a, P ∧ Q a).

Lemma decides_bind {A B} (P P' : Prop) (m : outcome A) (f : A → outcome B) Q Q' :
  decides P m Q → (∀ a, P → Q a → decides P' (f a) Q') → decides (P ∧ P') (obind m f) Q'.
Proof.
  unfold decides. destruct m as [[e|a]|]; cbn; [by intros Hn _ [? _]; apply Hn| |done].
  intros [HP HQ] Hf. specialize (Hf a HP HQ). destruct (f a) as [[e|b]|]; cbn in *; [|by destruct Hf|done].
  intros [_ ?]. by apply Hf.
Qed.

Lemma decides_mono {A} (P P' : Prop) (m : outcome A) (Q Q' : A → Prop) :
  decides P m Q → (P ↔ P') → (∀ a, P → Q a → Q' a) → decides P' m Q'.
Proof.
  unfold decides. destruct m as [[e|a]|]; simpl; [by intros ? <-| |done].
  intros [HP HQ] Hiff Himp. split; [by apply Hiff|auto].
Qed.

Lemma decides_iff {A} (P P' : Prop) (m : outcome A) Q : decides P m Q → (P ↔ P') → decides P' m Q.
Proof. intros Hm HP. by eapply decides_mono. Qed.

Lemma decides_ok {A} (a : A) (P : Prop) (Q : A → Prop) : P → Q a → decides P (ok a) Q.
Proof. done. Qed.

Lemma decides_err {A} e (P : Prop) (Q : A → Prop) : ¬ P → decides P (err e) Q.
Proof. done. Qed.

Lemma decides_ensure (b : bool) e (P : Prop) :
  (b = true ↔ P) → decides P (ensure b e) (λ _, True).
Proof.
  unfold decides, ensure, require. intros [H1 H2]. destruct b; simpl; [auto|].
  intros HP. by specialize (H2 HP).
Qed.

Lemma decides_ensure_dec (P : Prop) `{Decision P} e :
  decides P (ensure (bool_decide P) e) (λ _, True).
Proof. apply decides_ensure, bool_decide_eq_true. Qed.

Lemma decides_for_all {A} (xs : list A) (body : A → outcome ()) (P : A → Prop) :
  (∀ x, x ∈ xs → decides (P x) (body x) (λ _, True)) →
  decides (∀ x, x ∈ xs → P x) (for_all xs body) (λ _, True).
Proof.
  intros Hbody. apply (yields_for_all _ _ _ P); [|by auto].
  intros x Hx. specialize (Hbody x Hx). unfold decides in Hbody.
  destruct (body x) as [[e|[]]|]; simpl in *; [auto|by destruct Hbody|done].
Qed.

Lemma decides_yields {A} (P : Prop) (m : outcome A) Q :
  decides P m Q → yields (λ _, ¬ P) m (λ a, P ∧ Q a).
Proof. done. Qed.

#[local] Arguments decides {A} _ _ _ : simpl never.
#[local] Arguments ensure _ _ : simpl never.
#[local] Arguments obind {A B} _ _ : simpl never.

(** ** What is valid *)

Lemma NoDup_snoc {A} (l : list A) x : NoDup (l ++ [x]) ↔ NoDup l ∧ x ∉ l.
Proof.
  rewrite NoDup_app. split.
  - intros (?&Hx&_). split; [done|]. intros Hin. apply (Hx _ Hin). by left.
  - intros [? Hx]. split_and!; [done| |apply NoDup_singleton].
    by intros y Hy ->%list_elem_of_singleton.
Qed.

Lemma forall_snoc {A} (P : A → Prop) (l : list A) x :
  (∀ y, y ∈ l ++ [x] → P y) ↔ (∀ y, y ∈ l → P y) ∧ P x.
Proof.
  setoid_rewrite elem_of_app. setoid_rewrite list_elem_of_singleton. split.
  - intros H. split; auto.
  - intros [? ?] y [?| ->]; auto.
Qed.

Lemma list_is_empty_true {A} (l : list A) : is_empty l = true ↔ l = [].
Proof. by destruct l. Qed.

Lemma list_is_empty_false {A} (l : list A) : negb (is_empty l) = true ↔ l ≠ [].
Proof. by destruct l. Qed.

Lemma is_some_true {A} (o : option A) : is_some o = true ↔ is_Some o.
Proof. destruct o; simpl; naive_solver. Qed.

Lemma split_once_spec c s :
  match split_once c s with Some (a, b) => s = a ++ c :: b ∧ c ∉ a | None => c ∉ s end.
Proof.
  induction s as [|d s IH]; simpl; [by apply not_elem_of_nil|].
  destruct (N.eqb_spec d c) as [->|Hne]; [split; [done|apply not_elem_of_nil]|].
  destruct (split_once c s) as [[a b]|]; simpl.
  - destruct IH as [-> Ha]. split; [done|]. apply not_elem_of_cons. auto.
  - apply not_elem_of_cons. auto.
Qed.

Lemma app_sep_inj {A} (c : A) (a a' b b' : list A) :
  c ∉ a → c ∉ a' → a ++ c :: b = a' ++ c :: b' → a = a' ∧ b = b'.
Proof.
  revert a'. induction a as [|x a IH]; intros [|x' a']; simpl; intros Ha Ha' He; simplify_eq.
  - done.
  - set_solver.
  - set_solver.
  - destruct (IH a') as [-> ->]; set_solver.
Qed.

(** The token that stands for what step [owner] captures. *)
Definition names_capture (token : str) (owner : StepSpec) (c : CaptureSpec) : Prop :=
  match foreach owner with
  | None => token = var c
  | Some items => ∃ it, it ∈ items ∧ token = var c ++ 46%N :: it
  end.

Definition item_token (s : StepSpec) (label token : str) : Prop :=
  if decide (token = ITEM) then is_Some (foreach s) else label = PANE_ENV ∧ token = PORT_OFFSET.

Definition runtime_token (spec : FlowSpec) (s : StepSpec) (label token : str) : Prop :=
  if decide (token = ITEM) then is_Some (foreach s)
  else ∃ owner c, owner ∈ steps spec ∧ capture owner = Some c ∧
         (label = PANE_PROMPT → step_submit s = Some true) ∧ names_capture token owner c ∧
         tc (needs_step spec) (step_id s) (step_id owner).

Definition fields_ok (fields : list (str * str)) (token_ok : str → str → Prop) : Prop :=
  ∀ f, f ∈ fields →
    ∃ tokens, extract_tokens f.2 = Some tokens ∧ ∀ t, t ∈ tokens → token_ok f.1 t.

Definition id_ok (s : StepSpec) : Prop := step_id s ≠ [] ∧ 91%N ∉ step_id s ∧ 93%N ∉ step_id s.

Definition capture_ok (s : StepSpec) : Prop :=
  ∀ c, capture s = Some c →
    (var c ≠ [] ∧ Forall (λ x, capture_var_char x = true) (var c)) ∧
    (1 ≤ capture_lines c ≤ MAX_CAPTURE_LINES)%N ∧ is_Some (ready s).

Section valid.
Context {R : Regexes}.

Definition ready_ok (spec : FlowSpec) (s : StepSpec) : Prop :=
  ∀ r, ready s = Some r →
    pattern r ≠ [] ∧ is_Some (regex_new (replace (token_text ITEM) "x"%string (pattern r))) ∧
    is_Some (or_else (timeout_secs r) (default_timeout (defaults spec))).

Definition items_ok (s : StepSpec) : Prop :=
  ∀ items, foreach s = Some items → items ≠ [] ∧ NoDup items.

Definition send_ok (s : StepSpec) : Prop :=
  ∀ x, send s = Some x → send_target x ≠ [] ∧ needs s ≠ [] ∧ step_submit s = None.

Record step_ok (spec : FlowSpec) (s : StepSpec) : Prop := {
  ok_action : is_some (pane s) ≠ is_some (send s);
  ok_needs n : n ∈ needs s → n ≠ step_id s ∧ n ∈ step_ids spec;
  ok_ready : ready_ok spec s;
  ok_items : items_ok s;
  ok_pane p : pane s = Some p → validate_pane p = inr ();
  ok_send : send_ok s;
  ok_item_only : fields_ok (item_only_fields s) (item_token s);
  ok_runtime : fields_ok (runtime_fields s) (runtime_token spec s) }.

Definition captured_vars (spec : FlowSpec) : list str :=
  omap (λ s, var <$> capture s) (steps spec).

Definition pane_units (s : StepSpec) : nat :=
  match pane s with Some _ => length (items_of s) | None => 0 end.

Record valid (spec : FlowSpec) : Prop := {
  valid_nonempty : steps spec ≠ [];
  valid_ids : NoDup (step_ids spec);
  valid_id s : s ∈ steps spec → id_ok s;
  valid_policy p : on_failure (defaults spec) = Some p → p = lit "fail_fast" ∨ p = lit "continue";
  valid_capture s : s ∈ steps spec → capture_ok s;
  valid_vars : NoDup (captured_vars spec);
  valid_step s : s ∈ steps spec → step_ok spec s;
  valid_panes : sum_list_with pane_units (steps spec) ≤ MAX_PANES;
  valid_acyclic id : ¬ tc (needs_step spec) id id;
  valid_root : ∃ s, s ∈ steps spec ∧ is_Some (pane s) ∧ needs s = [] }.

(** The body of a loop with a state that accumulates the items. *)
Lemma decides_try_each {A S} (xs : list A) (body : A → S → outcome S) (P : list A → Prop)
    (Inv : list A → S → Prop) st :
  P [] → Inv [] st → (∀ done rest, xs = done ++ rest → P xs → P done) →
  (∀ done x rest st, xs = done ++ x :: rest → P done → Inv done st →
     decides (P (done ++ [x])) (body x st) (Inv (done ++ [x]))) →
  decides (P xs) (try_each xs body st) (Inv xs).
Proof.
  intros H0 HI Hpre Hbody. apply (yields_try_each _ _ _ (λ done st, P done ∧ Inv done st)).
  - done.
  - intros done x rest st' Hsplit [HP Hinv]. specialize (Hbody done x rest st' Hsplit HP Hinv).
    unfold decides in Hbody. destruct (body x st') as [[e|s]|]; simpl in *; [|done|done].
    intros Hxs. apply Hbody. apply (Hpre _ rest); [|done]. by rewrite <- app_assoc.
  - auto.
Qed.

Lemma validate_ids_spec spec :
  decides (NoDup (step_ids spec) ∧ ∀ s, s ∈ steps spec → id_ok s) (validate_ids spec)
    (λ ids, ids = list_to_set (step_ids spec)).
Proof.
  apply (decides_try_each _ _
    (λ done, NoDup (step_id <$> done) ∧ ∀ s, s ∈ done → id_ok s)
    (λ done ids, ids = list_to_set (step_id <$> done))).
  - split; [constructor|by intros s ?%elem_of_nil].
  - done.
  - intros done rest -> [Hnd Hall]. rewrite fmap_app in Hnd.
    split; [by apply NoDup_app in Hnd as [? _]|set_solver].
  - intros done s rest ids _ [Hnd Hall] ->.
    eapply decides_iff; [eapply decides_bind; [apply decides_ensure, list_is_empty_false|]; intros _ _ _;
      eapply decides_bind; [apply (decides_ensure _ _ (91%N ∉ step_id s ∧ 93%N ∉ step_id s))|];
      [|intros _ _ _; eapply decides_bind; [apply decides_ensure_dec|];
        intros _ _ _; apply (decides_ok _ True); [done|]]|].
    + rewrite negb_true_iff, <- not_true_iff_false, existsb_exists.
      setoid_rewrite <- list_elem_of_In. setoid_rewrite orb_true_iff. setoid_rewrite N.eqb_eq.
      split.
      * intros Hn. split; intros Hin; apply Hn; eauto.
      * intros [H91 H93] (x&Hx&[->| ->]); auto.
    + rewrite fmap_app, list_to_set_app_L. simpl. set_solver.
    + rewrite fmap_app, elem_of_list_to_set. simpl. rewrite NoDup_snoc, forall_snoc.
      unfold id_ok. tauto.
Qed.

Lemma validate_policy_spec spec :
  decides (∀ p, on_failure (defaults spec) = Some p → p = lit "fail_fast" ∨ p = lit "continue")
    (validate_policy spec) (λ _, True).
Proof.
  unfold validate_policy. destruct (on_failure (defaults spec)) as [p|]; [|by apply decides_ok].
  apply decides_ensure. rewrite orb_true_iff, !bool_decide_eq_true. naive_solver.
Qed.

(** The variables and the steps that capture them. *)
Definition vars_of (spec : FlowSpec) (vars : gmap str StepSpec) : Prop :=
  ∀ v s, vars !! v = Some s ↔ s ∈ steps spec ∧ var <$> capture s = Some v.

Lemma capture_var_true c :
  negb (is_empty (var c)) && forallb capture_var_char (var c) = true ↔
  var c ≠ [] ∧ Forall (λ x, capture_var_char x = true) (var c).
Proof.
  rewrite andb_true_iff, list_is_empty_false, forallb_forall, Forall_forall.
  by setoid_rewrite <- list_elem_of_In.
Qed.

Lemma capture_lines_true c :
  negb ((capture_lines c =? 0) || (MAX_CAPTURE_LINES <? capture_lines c))%N = true ↔
  (1 ≤ capture_lines c ≤ MAX_CAPTURE_LINES)%N.
Proof. rewrite negb_true_iff, orb_false_iff, N.eqb_neq, N.ltb_ge. lia. Qed.

Lemma elem_of_vars v (l : list StepSpec) :
  v ∈ omap (λ s, var <$> capture s) l ↔ ∃ s, s ∈ l ∧ var <$> capture s = Some v.
Proof. by rewrite list_elem_of_omap. Qed.

Lemma validate_captures_spec spec :
  decides (NoDup (captured_vars spec) ∧ ∀ s, s ∈ steps spec → capture_ok s)
    (validate_captures spec) (vars_of spec).
Proof.
  apply (decides_try_each _ _
    (λ done, NoDup (omap (λ s, var <$> capture s) done) ∧ ∀ s, s ∈ done → capture_ok s)
    (λ done vars, ∀ v s, vars !! v = Some s ↔ s ∈ done ∧ var <$> capture s = Some v)).
  - split; [constructor|by intros s ?%elem_of_nil].
  - intros v s. rewrite lookup_empty. set_solver.
  - intros done rest -> [Hnd Hall]. rewrite omap_app in Hnd.
    split; [by apply NoDup_app in Hnd as [? _]|set_solver].
  - intros done s rest vars _ [Hnd Hall] Hvars. rewrite omap_app. simpl.
    destruct (capture s) as [c|] eqn:Hc; simpl.
    2: { apply decides_ok.
         - rewrite app_nil_r. split; [done|].
           intros x [Hx| ->%list_elem_of_singleton]%elem_of_app; [auto|]. intros c. congruence.
         - intros v x. rewrite Hvars, elem_of_app, list_elem_of_singleton. split.
           + intros [? ?]. auto.
           + intros [[?| ->] Hv]; [done|]. by rewrite Hc in Hv. }
    eapply decides_iff.
    { eapply decides_bind; [apply decides_ensure, capture_var_true|]. intros _ Hvar _.
      eapply decides_bind; [apply decides_ensure, capture_lines_true|]. intros _ Hlines _.
      eapply decides_bind; [apply decides_ensure, is_some_true|]. intros _ Hready _.
      instantiate (1 := var c ∉ omap (λ s, var <$> capture s) done).
      destruct (vars !! var c) as [prev|] eqn:Hprev.
      - apply decides_err. intros Hn. apply Hn, elem_of_vars. exists prev. by apply Hvars.
      - apply decides_ok.
        + intros (x&Hx)%elem_of_vars. apply Hvars in Hx. congruence.
        + intros v x. rewrite elem_of_app, list_elem_of_singleton.
          destruct (decide (v = var c)) as [->|Hne].
          * rewrite lookup_insert_eq. split; [intros [= <-]; rewrite Hc; auto|].
            intros [[Hx| ->] Hv]; [|done].
            assert (vars !! var c = Some x) by (by apply Hvars). congruence.
          * rewrite lookup_insert_ne, Hvars by done. split; [intros [? ?]; auto|].
            intros [[Hx| ->] Hv]; [done|]. rewrite Hc in Hv. by injection Hv. }
    rewrite NoDup_snoc, forall_snoc. split.
    + intros (Hvar&Hlines&Hready&Hfresh). split_and!; [done|done|done|].
      intros c'. rewrite Hc. by intros [= <-].
    + intros [[_ Hx] [_ Hok]]. by destruct (Hok c Hc) as (?&?&?).
Qed.

Lemma validate_needs_spec spec s :
  decides (∀ n, n ∈ needs s → n ≠ step_id s ∧ n ∈ step_ids spec)
    (validate_needs (list_to_set (step_ids spec)) s) (λ _, True).
Proof.
  apply decides_for_all. intros n _. eapply decides_bind.
  - apply decides_ensure. by rewrite negb_true_iff, bool_decide_eq_false.
  - intros _ _ _. apply decides_ensure. by rewrite bool_decide_eq_true, elem_of_list_to_set.
Qed.

Lemma validate_ready_spec spec s : decides (ready_ok spec s) (validate_ready spec s) (λ _, True).
Proof.
  unfold validate_ready, ready_ok. destruct (ready s) as [r|]; [|by apply decides_ok].
  eapply decides_iff.
  - eapply decides_bind; [apply decides_ensure, list_is_empty_false|]. intros _ _ _.
    eapply decides_bind; [apply decides_ensure, is_some_true|]. intros _ _ _.
    apply decides_ensure, is_some_true.
  - split; [by intros ?? [= <-]|by intros Hr; apply Hr].
Qed.

Lemma validate_foreach_spec s : decides (items_ok s) (validate_foreach s) (λ _, True).
Proof.
  unfold validate_foreach, items_ok. destruct (foreach s) as [items|]; [|by apply decides_ok].
  eapply decides_iff.
  - eapply decides_bind; [apply decides_ensure, list_is_empty_false|]. intros _ _ _.
    eapply decides_bind.
    + apply (decides_try_each _ _ (λ done, NoDup done) (λ done seen, seen = list_to_set done)).
      * constructor.
      * done.
      * by intros done rest -> [? _]%NoDup_app.
      * intros done x rest seen _ Hnd ->. eapply decides_iff.
        -- eapply decides_bind; [apply decides_ensure_dec|]. intros _ _ _.
           apply (decides_ok _ True); [done|]. rewrite list_to_set_app_L. simpl. set_solver.
        -- rewrite NoDup_snoc, elem_of_list_to_set. tauto.
    + intros _ _ _. by apply (decides_ok _ True).
  - split; [by intros (?&?&_) ? [= <-]|]. intros H. by destruct (H items).
Qed.

Lemma validate_fields_spec s fields body token_ok :
  (∀ label token, (∃ v tokens, (label, v) ∈ fields ∧ extract_tokens v = Some tokens ∧ token ∈ tokens) →
     decides (token_ok label token) (body label token) (λ _, True)) →
  decides (fields_ok fields token_ok) (validate_fields s fields body) (λ _, True).
Proof.
  intros Hbody. apply decides_for_all. intros [label v] Hf. simpl.
  destruct (extract_tokens v) as [tokens|] eqn:Ht.
  - eapply decides_iff; [apply decides_for_all with (P := token_ok label)|].
    + intros t Hin. apply Hbody. eauto.
    + split; [by eauto|]. by intros (?&[= <-]&?).
  - apply decides_err. by intros (?&?&_).
Qed.

Lemma item_token_spec s label token :
  decides (item_token s label token) (validate_item_token s label token) (λ _, True).
Proof.
  unfold item_token, validate_item_token. case_decide as Ht.
  - rewrite bool_decide_eq_true_2 by done. apply decides_ensure, is_some_true.
  - rewrite bool_decide_eq_false_2 by done. apply decides_ensure.
    by rewrite andb_true_iff, !bool_decide_eq_true.
Qed.

(** The variable of a step has no dot. *)
Lemma capture_no_dot s c : capture_ok s → capture s = Some c → 46%N ∉ var c.
Proof.
  intros Hok Hc Hin. destruct (Hok c Hc) as [[_ Hall] _].
  rewrite Forall_forall in Hall. by specialize (Hall _ Hin).
Qed.

(** The variable of a token and the item after it are what the code splits. *)
Lemma names_capture_split token owner c :
  46%N ∉ var c →
  names_capture token owner c ↔
  match split_once 46 token with
  | Some (v, it) => var c = v ∧ ∃ items, foreach owner = Some items ∧ it ∈ items
  | None => var c = token ∧ foreach owner = None
  end.
Proof.
  intros Hdot. pose proof (split_once_spec 46 token) as Hs. unfold names_capture.
  destruct (split_once 46 token) as [[v it]|].
  - destruct Hs as [-> Hv]. destruct (foreach owner) as [items|]; split.
    + intros (it'&Hit&He). apply app_sep_inj in He as [<- <-]; eauto.
    + intros (<-&?&[= <-]&?). eauto.
    + intros He. exfalso. apply Hdot. rewrite <- He. apply elem_of_app. right. by left.
    + by intros (_&?&?&_).
  - destruct (foreach owner) as [items|]; split.
    + intros (it&_&->). exfalso. apply Hs, elem_of_app. right. by left.
    + by intros [_ ?].
    + by intros ->.
    + by intros [<- _].
Qed.

Lemma runtime_token_spec spec vars s label token :
  NoDup (step_ids spec) → (∀ s, s ∈ steps spec → capture_ok s) → vars_of spec vars →
  decides (runtime_token spec s label token)
    (validate_runtime_token spec s vars label token) (λ _, True).
Proof.
  intros Hids Hok Hvars. unfold runtime_token, validate_runtime_token. case_decide as Ht.
  { rewrite bool_decide_eq_true_2 by done. apply decides_ensure, is_some_true. }
  rewrite bool_decide_eq_false_2 by done.
  set (parts := match split_once 46 token with
                | Some (v, it) => (v, Some it) | None => (token, None) end).
  assert (∀ owner c, owner ∈ steps spec → capture owner = Some c →
    names_capture token owner c ↔ var c = parts.1 ∧
      match parts.2 with
      | Some it => ∃ items, foreach owner = Some items ∧ it ∈ items
      | None => foreach owner = None
      end) as Hnames.
  { intros owner c Ho Hc. rewrite names_capture_split by (eapply capture_no_dot; eauto).
    unfold parts. by destruct (split_once 46 token) as [[v it]|]. }
  clearbody parts. destruct parts as [v suffix]. simpl in *.
  destruct (vars !! v) as [owner|] eqn:Hv.
  2: { apply decides_err. intros (owner&c&Ho&Hc&_&Hn&_). apply Hnames in Hn as [<- _]; [|done..].
       assert (vars !! var c = Some owner) by (apply Hvars; by rewrite Hc). congruence. }
  apply Hvars in Hv as Hown. destruct Hown as [Ho Hc].
  destruct (capture owner) as [c|] eqn:Hcap; [|done]. injection Hc as Hc.
  eapply decides_iff.
  - eapply decides_bind; [apply (decides_ensure _ _ (label = PANE_PROMPT → step_submit s = Some true))|].
    { rewrite negb_true_iff, andb_false_iff, bool_decide_eq_false.
      destruct (decide (label = PANE_PROMPT)), (step_submit s) as [[]|]; naive_solver. }
    intros _ _ _. eapply decides_bind with (P := names_capture token owner c) (Q := λ _, True).
    { eapply decides_iff with (P := match suffix with
        | Some it => ∃ items, foreach owner = Some items ∧ it ∈ items
        | None => foreach owner = None end).
      2: { rewrite (Hnames _ _ Ho Hcap). split; [done|]. by intros [_ ?]. }
      destruct (foreach owner) as [items|] eqn:Hf, suffix as [it|].
      - apply decides_ensure. rewrite bool_decide_eq_true. split; [eauto|].
        by intros (?&[= <-]&?).
      - by apply decides_err.
      - apply decides_err. by intros (?&?&_).
      - by apply decides_ok. }
    intros _ _ _. destruct (step_depends_on_spec spec Hids (step_id s) (step_id owner)) as (b&->&Hb).
    cbn. apply (decides_ensure _ _ _ Hb).
  - split.
    + intros (?&?&?). exists owner, c. done.
    + intros (owner'&c'&Ho'&Hc'&Hsub&Hn&Ht'). apply Hnames in Hn as Hn'; [|done..].
      destruct Hn' as [Hv' _].
      assert (vars !! v = Some owner') as Heq by (apply Hvars; by rewrite Hc', <- Hv').
      assert (owner' = owner) as -> by congruence. assert (c' = c) as -> by congruence. done.
Qed.

Lemma pane_check_spec s (spawn_units : nat) (root : bool) :
  decides (∀ p, pane s = Some p → validate_pane p = inr ())
    (match pane s with
     | None => ok (spawn_units, root)
     | Some p =>
         _ ⇠ lift (InvalidPane (step_id s)) (validate_pane p);
         ok ((spawn_units + match foreach s with Some items => length items | None => 1 end)%nat,
             if is_empty (needs s) then true else root)
     end)
    (λ st, st = (spawn_units + pane_units s, root || (is_some (pane s) && is_empty (needs s)))).
Proof.
  unfold pane_units, items_of. destruct (pane s) as [p|]; simpl.
  - destruct (validate_pane p) as [e|[]] eqn:Hp; cbn.
    + apply decides_err. intros Hall. by rewrite (Hall p) in Hp.
    + apply decides_ok; [by intros ? [= <-]|]. f_equal.
      * by destruct (foreach s); rewrite ?length_fmap.
      * by destruct (is_empty (needs s)), root.
  - apply decides_ok; [done|]. f_equal; [lia|by destruct root].
Qed.

Lemma send_check_spec s :
  decides (send_ok s)
    (match send s with
     | None => ok ()
     | Some x =>
         _ ⇠ ensure (negb (is_empty (send_target x))) (EmptyTarget (step_id s));
         _ ⇠ ensure (negb (is_empty (needs s))) (SendWithoutNeeds (step_id s));
         ensure (negb (is_some (step_submit s))) (SubmitOutsideSend (step_id s))
     end) (λ _, True).
Proof.
  unfold send_ok. destruct (send s) as [x|]; [|by apply decides_ok].
  eapply decides_iff.
  - eapply decides_bind; [apply decides_ensure, list_is_empty_false|]. intros _ _ _.
    eapply decides_bind; [apply decides_ensure, list_is_empty_false|]. intros _ _ _.
    apply (decides_ensure _ _ (step_submit s = None)). by destruct (step_submit s).
  - split; [by intros ?? [= <-]|auto].
Qed.

Lemma validate_step_spec spec vars s n root :
  NoDup (step_ids spec) → (∀ s, s ∈ steps spec → capture_ok s) → vars_of spec vars →
  decides (step_ok spec s)
    (validate_step spec (list_to_set (step_ids spec)) vars s (n, root))
    (λ st, st = (n + pane_units s, root || (is_some (pane s) && is_empty (needs s)))).
Proof.
  intros Hids Hok Hvars. eapply decides_iff.
  - eapply decides_bind with (P := is_some (pane s) ≠ is_some (send s)) (Q := λ _, True).
    { destruct (pane s), (send s); [|by apply decides_ok..|].
      all: apply decides_err; intros Hne; by apply Hne. }
    intros _ _ _. eapply decides_bind; [apply validate_needs_spec|].
    intros _ _ _. eapply decides_bind; [apply validate_ready_spec|].
    intros _ _ _. eapply decides_bind; [apply validate_foreach_spec|].
    intros _ _ _. eapply decides_bind; [apply pane_check_spec|].
    intros [n' root'] _ Hst. eapply decides_bind; [apply send_check_spec|].
    intros _ _ _. eapply decides_bind with (Q := λ _, True).
    { eapply decides_bind; [apply (validate_fields_spec _ _ _ (item_token s))|].
      { intros. apply item_token_spec. }
      intros _ _ _. apply (validate_fields_spec _ _ _ (runtime_token spec s)).
      intros. by apply runtime_token_spec. }
    intros _ _ _. by apply (decides_ok _ True).
  - split.
    + intros (?&Hneeds&?&?&?&?&[? ?]&_). split; try done; by apply Hneeds.
    + intros []. split_and!; done.
Qed.

Lemma detect_cycles_decides spec :
  NoDup (step_ids spec) →
  (∀ s n, s ∈ steps spec → n ∈ needs s → n ∈ step_ids spec) →
  decides (∀ id, ¬ tc (needs_step spec) id id) (detect_cycles spec) (λ _, True).
Proof.
  intros Hids Hclosed. pose proof (detect_cycles_spec spec Hids Hclosed) as Hd.
  unfold decides, yields in *. destruct (detect_cycles spec) as [[e|[]]|]; [| |done].
  - destruct Hd as (c&_&Hc). apply is_cycle_tc in Hc as [a Ha]. intros Hno. by apply (Hno a).
  - split; [|done]. intros id. by apply (acc_no_cycle (needs_step spec)).
Qed.

Lemma root_spawns (l : list StepSpec) :
  existsb (λ s, is_some (pane s) && is_empty (needs s)) l = true ↔
  ∃ s, s ∈ l ∧ is_Some (pane s) ∧ needs s = [].
Proof.
  rewrite existsb_exists. setoid_rewrite <- list_elem_of_In.
  setoid_rewrite andb_true_iff. setoid_rewrite is_some_true. by setoid_rewrite list_is_empty_true.
Qed.

Lemma validate_steps_spec spec vars :
  NoDup (step_ids spec) → (∀ s, s ∈ steps spec → capture_ok s) → vars_of spec vars →
  decides (∀ s, s ∈ steps spec → step_ok spec s)
    (try_each (steps spec) (validate_step spec (list_to_set (step_ids spec)) vars) (O, false))
    (λ st, st = (sum_list_with pane_units (steps spec),
                 existsb (λ s, is_some (pane s) && is_empty (needs s)) (steps spec))).
Proof.
  intros Hids Hok Hvars.
  apply (decides_try_each _ _ (λ l, ∀ s, s ∈ l → step_ok spec s)
    (λ l st, st = (sum_list_with pane_units l,
                   existsb (λ s, is_some (pane s) && is_empty (needs s)) l))).
  - by intros s ?%elem_of_nil.
  - done.
  - intros l rest -> Hall s Hs. apply Hall, elem_of_app. by left.
  - intros l s rest st _ Hl ->.
    eapply decides_mono; [by apply validate_step_spec|by rewrite forall_snoc; tauto|].
    intros st _ ->. rewrite sum_list_with_app, existsb_app. simpl. f_equal; [lia|].
    by rewrite orb_false_r.
Qed.

Lemma validate_spec spec : decides (valid spec) (validate spec) (λ _, True).
Proof.
  eapply decides_iff.
  - eapply decides_bind; [apply decides_ensure, list_is_empty_false|]. intros _ _ _.
    eapply decides_bind; [apply validate_ids_spec|]. intros ids [Hids _] ->.
    eapply decides_bind; [apply validate_policy_spec|]. intros _ _ _.
    eapply decides_bind; [apply validate_captures_spec|]. intros vars [_ Hcap] Hvars.
    eapply decides_bind; [by apply validate_steps_spec|]. intros st Hsteps ->.
    eapply decides_bind; [apply (decides_ensure _ _ (sum_list_with pane_units (steps spec) ≤ MAX_PANES));
      by rewrite negb_true_iff, Nat.ltb_ge|]. intros _ _ _.
    eapply decides_bind; [apply detect_cycles_decides; [done|]|intros _ _ _].
    { intros s n Hs Hn. by apply (ok_needs _ _ (Hsteps s Hs)). }
    apply decides_ensure, root_spawns.
  - split; [intros (?&[? ?]&?&[? ?]&?&?&?&?); by split|intros []; by split_and!].
Qed.

(** Following the needs of a step ends. *)
Lemma valid_wf spec : valid spec → ∀ id, Acc (λ b a, needs_step spec a b) id.
Proof.
  intros Hv id. pose proof (detect_cycles_spec spec (valid_ids _ Hv)) as Hd.
  unfold yields in Hd. destruct (detect_cycles spec) as [[e|[]]|].
  - destruct Hd as (c&_&Hc).
    { intros s n Hs Hn. by apply (ok_needs _ _ (valid_step _ Hv s Hs)). }
    apply is_cycle_tc in Hc as [a Ha]. by destruct (valid_acyclic _ Hv a).
  - apply Hd. intros s n Hs Hn. by apply (ok_needs _ _ (valid_step _ Hv s Hs)).
  - exfalso. apply Hd. intros s n Hs Hn. by apply (ok_needs _ _ (valid_step _ Hv s Hs)).
Qed.
End valid.

(** ** Expansion *)

Lemma try_each_app {A S} (xs ys : list A) (body : A → S → outcome S) st :
  try_each (xs ++ ys) body st = obind (try_each xs body st) (try_each ys body).
Proof.
  revert st. induction xs as [|x xs IH]; intros st; [done|]. simpl.
  destruct (body x st) as [[e|s]|]; cbn; [done| |done]. apply IH.
Qed.

Lemma try_each_nested {A B S} (xs : list A) (f : A → list B) (g : A → B → S → outcome S) st :
  try_each xs (λ x, try_each (f x) (g x)) st =
  try_each (xs ≫= λ x, pair x <$> f x) (λ '(x, y), g x y) st.
Proof.
  revert st. induction xs as [|x xs IH]; intros st; [done|].
  rewrite bind_cons, try_each_app. simpl.
  assert (∀ ys, try_each (pair x <$> ys) (λ '(x, y), g x y) st = try_each ys (g x) st) as ->.
  { intros ys. revert st. induction ys as [|y ys IHy]; intros st; [done|]. simpl.
    destruct (g x y st) as [[e|s]|]; cbn; [done| |done]. apply IHy. }
  destruct (try_each (f x) (g x) st) as [[e|s]|]; cbn; [done| |done]. apply IH.
Qed.

Lemma obind_expect {A B} (a : A) (f : A → outcome B) : obind (expect (Some a)) f = f a.
Proof. done. Qed.

(** The steps with their items, in order. *)
Definition instances (spec : FlowSpec) : list (StepSpec * option str) :=
  steps spec ≫= λ s, pair s <$> items_of s.

Lemma elem_of_instances spec s it :
  (s, it) ∈ instances spec ↔ s ∈ steps spec ∧ it ∈ items_of s.
Proof.
  unfold instances. rewrite list_elem_of_bind. split.
  - intros (s'&(it'&[= -> ->]&?)%list_elem_of_fmap&?). done.
  - intros [Hs Hit]. exists s. split; [by apply list_elem_of_fmap_2|done].
Qed.

(** The name of the pane of an instance. *)
Definition name_of (i : StepSpec * option str) : option str :=
  p ← pane i.1;
  Some (default (item_name (step_id i.1) "-"%string [] i.2) (sub i.2 <$> pane_name p)).

Definition id_of (i : StepSpec * option str) : str :=
  item_name (step_id i.1) "["%string "]"%string i.2.

Definition capture_key (i : StepSpec * option str) : option str :=
  (λ c, item_name (var c) "."%string [] i.2) <$> capture i.1.

Section expansion.
Context {R : Regexes}.

(** What is checked of an instance. *)
Definition instance_ok (i : StepSpec * option str) : Prop :=
  (∀ p, pane i.1 = Some p → validate_pane (sub_pane i.2 p) = inr ()) ∧
  (∀ r, ready i.1 = Some r → is_Some (regex_new (sub i.2 (pattern r)))).

Definition expandable (spec : FlowSpec) : Prop :=
  (∀ i, i ∈ instances spec → instance_ok i) ∧ NoDup (omap name_of (instances spec)).

(** Unit [u] is made of an instance. *)
Record unit_from (spec : FlowSpec) (i : StepSpec * option str) (u : Unit) : Prop := {
  from_id : unit_id u = id_of i;
  from_group : group u = step_id i.1;
  from_needs : unit_needs u = needs i.1;
  from_action :
    match action u with
    | Spawn x => ∃ p, pane i.1 = Some p ∧ name_of i = Some (spawn_name x) ∧
        unit_pane x = set_pane_name (spawn_name x) (sub_pane i.2 p)
    | Send target text => pane i.1 = None ∧ ∃ x, send i.1 = Some x ∧
        target = sub i.2 (send_target x) ∧ text = sub i.2 (send_text x)
    end;
  from_ready :
    match ready i.1 with
    | Some r => ∃ timeout, unit_ready u = Some (sub i.2 (pattern r), timeout) ∧
        is_Some (regex_new (sub i.2 (pattern r))) ∧
        or_else (timeout_secs r) (default_timeout (defaults spec)) = Some timeout
    | None => unit_ready u = None
    end;
  from_capture : unit_capture u =
    (λ c, (item_name (var c) "."%string [] i.2, capture_lines c)) <$> capture i.1;
  from_submit : submit u =
    default false (or_else (step_submit i.1) (send i.1 ≫= send_submit)) }.

Lemma instantiate_spec spec s it :
  step_ok spec s →
  decides (instance_ok (s, it)) (instantiate spec s it) (unit_from spec (s, it)).
Proof.
  intros Hok. unfold instantiate. eapply decides_iff.
  - eapply decides_bind with (P := ∀ p, pane s = Some p → validate_pane (sub_pane it p) = inr ())
      (Q := λ a, match a with
        | Spawn x => ∃ p, pane s = Some p ∧ name_of (s, it) = Some (spawn_name x) ∧
            unit_pane x = set_pane_name (spawn_name x) (sub_pane it p)
        | Send target text => pane s = None ∧ ∃ x, send s = Some x ∧
            target = sub it (send_target x) ∧ text = sub it (send_text x)
        end).
    { pose proof (ok_action _ _ Hok) as Hact. unfold name_of. simpl.
      destruct (pane s) as [p|]; simpl in *.
      - destruct (validate_pane (sub_pane it p)) as [e|[]] eqn:Hp; cbn.
        + apply decides_err. intros Hall. by rewrite (Hall p) in Hp.
        + apply decides_ok; [by intros ? [= <-]|]. by exists p.
      - destruct (send s) as [x|]; [|done]. cbn. apply decides_ok; [done|]. eauto. }
    intros a _ Ha. eapply decides_bind with
      (P := ∀ r, ready s = Some r → is_Some (regex_new (sub it (pattern r))))
      (Q := λ o, match ready s with
        | Some r => ∃ timeout, o = Some (sub it (pattern r), timeout) ∧
            is_Some (regex_new (sub it (pattern r))) ∧
            or_else (timeout_secs r) (default_timeout (defaults spec)) = Some timeout
        | None => o = None
        end).
    { pose proof (ok_ready _ _ Hok) as Hready. unfold ready_ok in Hready.
      destruct (ready s) as [r|]; [|by apply decides_ok].
      destruct (Hready r) as (_&_&[timeout ->]); [done|]. rewrite obind_expect.
      eapply decides_iff; [eapply decides_bind; [apply decides_ensure, is_some_true|]|].
      - intros _ Hre _. apply (decides_ok _ True); eauto.
      - split; [by intros [? _] ? [= <-]|]. intros H. by split; [apply H|]. }
    intros o _ Ho. apply (decides_ok _ True); [done|]. by split.
  - unfold instance_ok. simpl. tauto.
Qed.

Lemma expand_instances spec :
  (∀ s, s ∈ steps spec → step_ok spec s) →
  decides (expandable spec)
    (try_each (instances spec) (λ '(s, it), expand_item spec s it) ([], ∅))
    (λ st, Forall2 (unit_from spec) (instances spec) st.1).
Proof.
  intros Hok.
  eapply decides_mono; [apply (decides_try_each _ _
    (λ l, (∀ i, i ∈ l → instance_ok i) ∧ NoDup (omap name_of l))
    (λ l st, Forall2 (unit_from spec) l st.1 ∧ st.2 = list_to_set (omap name_of l)))|done|
    by intros st _ [? _]].
  - split; [by intros i ?%elem_of_nil|constructor].
  - done.
  - intros l rest -> [Hall Hnd]. rewrite omap_app in Hnd.
    split; [|by apply NoDup_app in Hnd as [? _]]. intros i Hi. apply Hall, elem_of_app. by left.
  - intros l [s it] rest [us names] Hsplit [Hall Hnd] [Hus Hnames]. simpl in *. subst names.
    assert ((s, it) ∈ instances spec) as Hin.
    { rewrite Hsplit. apply elem_of_app. right. by left. }
    apply elem_of_instances in Hin as [Hs _]. eapply decides_iff.
    + eapply decides_bind; [by apply instantiate_spec, Hok|]. intros u _ Hu.
      instantiate (1 := ∀ name, name_of (s, it) = Some name → name ∉ omap name_of l).
      pose proof (from_action _ _ _ Hu) as Hact. simpl in Hact.
      rewrite omap_app. destruct (action u) as [x|target text].
      * destruct Hact as (p&_&Hname&_). cbn. rewrite Hname. eapply decides_iff.
        -- eapply decides_bind; [apply decides_ensure_dec|]. intros _ _ _.
           apply (decides_ok _ True); [done|]. split.
           ++ apply Forall2_app; [done|by constructor].
           ++ rewrite list_to_set_app_L. simpl. set_solver.
        -- rewrite elem_of_list_to_set. split; [by intros [? _] ? [= <-]|]. intros H. by split; [apply H|].
      * destruct Hact as [Hp _]. assert (name_of (s, it) = None) as Hn.
        { unfold name_of. simpl. by rewrite Hp. }
        cbn. rewrite Hn, app_nil_r. apply decides_ok; [done|]. split; [|done].
        apply Forall2_app; [done|by constructor].
    + rewrite forall_snoc, omap_app. cbn. destruct (name_of (s, it)) as [name|].
      * rewrite NoDup_snoc. split; [intros [? H]; by split_and!; auto|].
        intros [[_ ?] [_ ?]]. split; [done|]. by intros ? [= <-].
      * rewrite app_nil_r. split; [by intros [? _]|]. by intros [[_ ?] _].
Qed.

(** What a loaded plan is made of. *)
Definition plan_from (spec : FlowSpec) (plan : FlowPlan) : Prop :=
  Forall2 (unit_from spec) (instances spec) (units plan).

Lemma load_decides spec :
  decides (valid spec ∧ expandable spec) (load spec) (plan_from spec).
Proof.
  unfold load. eapply decides_bind; [apply validate_spec|]. intros _ Hvalid _.
  unfold expand. rewrite (try_each_nested (steps spec) items_of (expand_item spec)).
  eapply decides_iff.
  - eapply decides_bind; [apply expand_instances|].
    { intros s. by apply valid_step. }
    intros [us names] _ Hus. simpl in Hus. by apply (decides_ok _ True).
  - tauto.
Qed.
End expansion.
