(* ===== verification/FlowPlan.v ===== *)
(** * Flows: new text, tokens and loaded plans

    [new_text_since_baseline] of [surface_read.rs] leaves out a longest common subsequence of
    the lines of both texts.

    What replacing a token does to the tokens of a text, and what holds of the units of a
    plan that has been loaded. *)

From stdpp Require Import gmap list strings relations well_founded sorting.
From S2P Require Import Prelude DiffText AgentActivity FlowSpec FlowEngine FlowSpecCorrect.

(** [n] is the length of a longest common subsequence. *)
Definition is_lcs {A} (old new : list A) (n : nat) : Prop :=
  (∃ l, sublist l old ∧ sublist l new ∧ length l = n) ∧
  ∀ l, sublist l old → sublist l new → length l ≤ n.

Section lcs.
Context {A : Type}.
Implicit Types (old new l : list A) (n : nat).

Lemma is_lcs_nil_l new : is_lcs [] new 0.
Proof.
  split; [exists []; split_and!; [done|apply sublist_nil_l|done]|].
  by intros l ->%sublist_nil_r _.
Qed.

Lemma is_lcs_nil_r old : is_lcs old [] 0.
Proof.
  split; [exists []; split_and!; [apply sublist_nil_l|done|done]|].
  by intros l _ ->%sublist_nil_r.
Qed.

Lemma is_lcs_eq x old new n : is_lcs old new n → is_lcs (x :: old) (x :: new) (S n).
Proof.
  intros [(l&Ho&Hn&<-) Hmax]. split.
  - exists (x :: l). split_and!; [by apply sublist_skip..|done].
  - intros l' [Hl|(k&->&Hk)]%sublist_cons_r Hl'.
    + apply sublist_cons_r in Hl' as [Hl'|(k&->&Hk)]; [by apply Nat.le_le_succ_r, Hmax|].
      simpl. apply le_n_S, Hmax; [|done]. etrans; [|exact Hl]. by apply sublist_cons.
    + apply sublist_cons_r in Hl' as [Hl'|(k'&[= <-]&Hk')]; simpl; apply le_n_S, Hmax; [done| |done|done].
      etrans; [|exact Hl']. by apply sublist_cons.
Qed.

Lemma is_lcs_ne x y old new a b :
  x ≠ y → is_lcs old (y :: new) a → is_lcs (x :: old) new b →
  is_lcs (x :: old) (y :: new) (Nat.max a b).
Proof.
  intros Hne [(l&Ho&Hn&Hl) Hmax] [(l'&Ho'&Hn'&Hl') Hmax']. split.
  - destruct (Nat.max_spec a b) as [[? ->]|[? ->]].
    + exists l'. split_and!; [done|by apply sublist_cons|done].
    + exists l. split_and!; [by apply sublist_cons|done|done].
  - intros k [Hk|(k1&->&Hk)]%sublist_cons_r Hk'.
    + specialize (Hmax k Hk Hk'). lia.
    + apply sublist_cons_r in Hk' as [Hk'|(k2&[= -> _]&_)]; [|done].
      specialize (Hmax' (x :: k1)). rewrite Hmax'; [lia|by apply sublist_skip|done].
Qed.

(** [l] and [k] in the order of a list that has both. *)
Inductive interleaved : list A → list A → list A → Prop :=
| interleaved_nil : interleaved [] [] []
| interleaved_l x l k m : interleaved l k m → interleaved (x :: l) k (x :: m)
| interleaved_r x l k m : interleaved l k m → interleaved l (x :: k) (x :: m).

Lemma interleaved_nil_l l : interleaved [] l l.
Proof. induction l; by constructor. Qed.
End lcs.

(** ** The table *)

(** A row of the table for [old], and the lines from each on. *)
Definition row_ok (old new : list str) (row : list nat) : Prop :=
  length row = S (length new) ∧
  ∀ j n, row !! j = Some n → is_lcs old (drop j new) n.

Lemma common_row_ok l old new below :
  row_ok old new below → row_ok (l :: old) new (common_row l new below).
Proof.
  revert below. induction new as [|n new IH]; intros below [Hlen Hrow].
  - destruct below as [|b [|b' below]]; simpl in Hlen; [lia| |lia]. split; [done|].
    intros [|j] m Hm; [|done]. injection Hm as <-. apply is_lcs_nil_r.
  - destruct below as [|b [|b' below]]; simpl in Hlen; [lia|lia|].
    assert (row_ok old new (b' :: below)) as Hbelow.
    { split; [simpl in *; lia|]. intros j m Hm. by apply (Hrow (S j)). }
    destruct (IH _ Hbelow) as [Hlen' Hrow']. cbn [common_row].
    set (row := common_row l new (b' :: below)) in *. split; [simpl; by rewrite Hlen'|].
    intros [|j] m Hm; [|by apply Hrow'].
    simpl in Hm. injection Hm as <-. case_bool_decide as He.
    + subst. apply is_lcs_eq. by apply (Hrow 1%nat).
    + apply is_lcs_ne; [done|by apply (Hrow 0%nat)|].
      destruct row as [|h row]; [done|]. by apply (Hrow' 0%nat).
Qed.

Lemma common_ok old new :
  length (common old new) = S (length old) ∧
  ∀ i row, common old new !! i = Some row → row_ok (drop i old) new row.
Proof.
  induction old as [|l old [Hlen Hrows]]; simpl.
  - split; [done|]. intros [|i] row Hrow; [|done]. injection Hrow as <-. split; [apply (length_replicate (S (length new)))|].
    intros j n [-> _]%(lookup_replicate_1 (S (length new))). apply is_lcs_nil_l.
  - split; [by rewrite Hlen|]. intros [|i] row Hrow; [|by apply Hrows].
    injection Hrow as <-. apply common_row_ok.
    destruct (common old new) as [|row rows]; [done|]. by apply (Hrows 0%nat).
Qed.

Lemma common_lookup old new i j :
  i ≤ length old → j ≤ length new →
  ∃ n, common old new !! i ≫= (.!! j) = Some n ∧ is_lcs (drop i old) (drop j new) n.
Proof.
  intros Hi Hj. destruct (common_ok old new) as [Hlen Hrows].
  destruct (lookup_lt_is_Some_2 (common old new) i) as [row Hrow]; [lia|].
  destruct (Hrows i row Hrow) as [Hl Hcells].
  destruct (lookup_lt_is_Some_2 row j) as [n Hn]; [lia|].
  exists n. rewrite Hrow. simpl. by split; [|apply Hcells].
Qed.

(** ** The walk *)

Lemma added_lines_spec fuel old new i j :
  i ≤ length old → j ≤ length new → (length old - i) + (length new - j) < fuel →
  ∃ out kept, added_lines fuel (common old new) old new i j = Some out ∧
    interleaved kept out (drop j new) ∧ sublist kept (drop i old) ∧
    is_lcs (drop i old) (drop j new) (length kept).
Proof.
  revert i j. induction fuel as [|fuel IH]; intros i j Hi Hj Hf; [lia|]. simpl.
  destruct (new !! j) as [n|] eqn:Hn.
  2: { apply lookup_ge_None in Hn. rewrite (drop_ge new) by lia. exists [], [].
       split_and!; [done|constructor|apply sublist_nil_l|apply is_lcs_nil_r]. }
  apply lookup_lt_Some in Hn as Hj'. rewrite (drop_S _ _ _ Hn).
  destruct (old !! i) as [o|] eqn:Ho.
  2: { apply lookup_ge_None in Ho. rewrite (drop_ge old) by lia.
       destruct (IH i (S j)) as (out&kept&->&Hint&Hsub&_); [lia..|].
       rewrite (drop_ge old) in Hsub by lia. apply sublist_nil_r in Hsub as ->.
       exists (n :: out), []. split_and!; [done|by constructor|done|apply is_lcs_nil_l]. }
  apply lookup_lt_Some in Ho as Hi'. rewrite (drop_S _ _ _ Ho). case_bool_decide as Hon.
  - subst o. destruct (IH (S i) (S j)) as (out&kept&->&Hint&Hsub&Hmax); [lia..|].
    exists out, (n :: kept).
    split_and!; [done|by constructor|by apply sublist_skip|by apply is_lcs_eq].
  - destruct (common_lookup old new (S i) j) as (a&->&Ha); [lia..|].
    destruct (common_lookup old new i (S j)) as (b&->&Hb); [lia..|]. simpl.
    pose proof Ha as Ha'. pose proof Hb as Hb'.
    rewrite (drop_S _ _ _ Hn) in Ha'. rewrite (drop_S _ _ _ Ho) in Hb'.
    pose proof (is_lcs_ne _ _ _ _ _ _ Hon Ha' Hb') as Hab.
    assert (∀ (l k : list str) n m, is_lcs l k n → is_lcs l k m → n = m) as Huniq.
    { intros l k p q [(x&?&?&<-) Hx] [(y&?&?&<-) Hy]. apply Nat.le_antisymm; auto. }
    destruct (Nat.leb_spec b a).
    + destruct (IH (S i) j) as (out&kept&->&Hint&Hsub&Hmax); [lia..|].
      rewrite (drop_S _ _ _ Hn) in Hint. exists out, kept.
      split_and!; [done|done|by apply sublist_cons|].
      rewrite (Huniq _ _ _ _ Hmax Ha). by rewrite Nat.max_l in Hab by lia.
    + destruct (IH i (S j)) as (out&kept&->&Hint&Hsub&Hmax); [lia..|].
      rewrite (drop_S _ _ _ Ho) in Hsub. exists (n :: out), kept.
      split_and!; [done|by constructor|done|].
      rewrite (Huniq _ _ _ _ Hmax Hb). by rewrite Nat.max_r in Hab by lia.
Qed.

Lemma new_lines_spec old new :
  ∃ out kept, new_lines old new = Some out ∧ interleaved kept out new ∧ sublist kept old ∧
    ∀ l, sublist l old → sublist l new → length l ≤ length kept.
Proof.
  destruct (added_lines_spec (S (length old + length new)) old new 0 0)
    as (out&kept&Hout&Hint&Hsub&_&Hmax); [lia..|]. rewrite !drop_0 in *. by exists out, kept.
Qed.

Lemma new_text_total baseline current : ∃ t, new_text_since_baseline baseline current = Some t.
Proof.
  unfold new_text_since_baseline. case_bool_decide; [by eexists|].
  destruct (strip_prefix baseline current); [by eexists|].
  destruct (new_lines_spec (str_lines baseline) (str_lines current)) as (out&_&->&_). by eexists.
Qed.

Lemma text_after_baseline_total baseline current : ∃ t, text_after_baseline baseline current = Some t.
Proof.
  destruct (new_text_total (text baseline) (text current)) as [t Ht].
  unfold text_after_baseline. rewrite Ht.
  destruct (output_generation current), (output_generation baseline); try by eexists.
  case_match; by eexists.
Qed.

(** * Tokens and loaded plans *)

Local Open Scope N_scope.

(** ** Tokens *)

Lemma after_open_cons c s :
  after_open (c :: s) =
  match s with
  | d :: after => if (c =? 36) && (d =? 123) then Some after else after_open s
  | [] => None
  end.
Proof. done. Qed.

Lemma after_open_length s after : after_open s = Some after → (length after < length s)%nat.
Proof.
  revert after. induction s as [|c s IH]; intros after; [done|]. rewrite after_open_cons.
  destruct s as [|d s]; [done|].
  destruct ((c =? 36) && (d =? 123)); [intros [= <-]; simpl; lia|].
  intros Ha. specialize (IH _ Ha). simpl in *. lia.
Qed.

Lemma split_once_length c s a b : split_once c s = Some (a, b) → (length b < length s)%nat.
Proof.
  intros Hs. pose proof (split_once_spec c s) as H. rewrite Hs in H. destruct H as [-> _].
  rewrite length_app. simpl. lia.
Qed.

Lemma tokens_from_fuel fuel fuel' s :
  (length s < fuel)%nat → (length s < fuel')%nat → tokens_from fuel s = tokens_from fuel' s.
Proof.
  revert fuel' s. induction fuel as [|fuel IH]; intros fuel' s Hf Hf'; [lia|].
  destruct fuel' as [|fuel']; [lia|]. simpl.
  destruct (after_open s) as [after|] eqn:Ha; [|done]. apply after_open_length in Ha.
  destruct (split_once 125 after) as [[t rest]|] eqn:Hs; [|done]. simpl.
  apply split_once_length in Hs. rewrite (IH fuel' rest); [done|lia|lia].
Qed.

Lemma extract_tokens_eq s :
  extract_tokens s =
  match after_open s with
  | None => Some []
  | Some after =>
      match split_once 125 after with
      | None => None
      | Some (t, rest) => cons t <$> extract_tokens rest
      end
  end.
Proof.
  unfold extract_tokens at 1. simpl.
  destruct (after_open s) as [after|] eqn:Ha; [|done]. apply after_open_length in Ha.
  destruct (split_once 125 after) as [[t rest]|] eqn:Hs; [|done]. simpl.
  apply split_once_length in Hs. unfold extract_tokens.
  rewrite (tokens_from_fuel _ (S (length rest))) by lia.
  by destruct (tokens_from (S (length rest)) rest).
Qed.

(** The first [${] of a text. *)
Lemma after_open_Some s after :
  after_open s = Some after ↔ ∃ l, s = l ++ 36 :: 123 :: after ∧ after_open (l ++ [36]) = None.
Proof.
  split.
  - revert after. induction s as [|c s IH]; intros after; [done|]. rewrite after_open_cons.
    destruct s as [|d s]; [done|].
    destruct (N.eqb_spec c 36) as [->|Hc]; simpl; [destruct (N.eqb_spec d 123) as [->|Hd]; simpl|].
    + intros [= <-]. by exists [].
    + intros (l&Hl&Hn)%IH. exists (36 :: l). split; [simpl; by f_equal|].
      rewrite <- app_comm_cons, after_open_cons. destruct (l ++ [36]) as [|x l'] eqn:He; [done|].
      assert (x = d) as ->.
      { destruct l as [|y l]; simpl in *; simplify_eq/=; done. }
      destruct (N.eqb_spec d 123); [done|]. by rewrite andb_false_r.
    + intros (l&Hl&Hn)%IH. exists (c :: l). split; [simpl; by f_equal|].
      rewrite <- app_comm_cons, after_open_cons. destruct (l ++ [36]) as [|x l'] eqn:He; [done|].
      destruct (N.eqb_spec c 36); [done|]. by simpl.
  - intros (l&->&Hn). revert Hn. induction l as [|c l IH]; [done|].
    rewrite <- !app_comm_cons, !after_open_cons.
    destruct l as [|d l]; simpl in *.
    + destruct (N.eqb_spec c 36); done.
    + destruct (N.eqb_spec c 36), (N.eqb_spec d 123); simpl; try done; apply IH.
Qed.

(** A text with no [$] does not matter. *)
Lemma after_open_no_dollar s s' : 36 ∉ s → after_open (s ++ s') = after_open s'.
Proof.
  induction s as [|c s IH]; intros Hn; [done|]. apply not_elem_of_cons in Hn as [Hc Hn].
  specialize (IH Hn). rewrite <- app_comm_cons, after_open_cons.
  destruct (s ++ s') as [|d r] eqn:He.
  - apply app_nil in He as [-> ->]. done.
  - by destruct (N.eqb_spec c 36); [congruence|].
Qed.

(** A text that can stand for a token: no character of the syntax of tokens. *)
Definition plain (s : str) : Prop := s ≠ [] ∧ 36 ∉ s ∧ 123 ∉ s ∧ 125 ∉ s.

Lemma after_open_plain l it s :
  after_open (l ++ [36]) = None → plain it → after_open (l ++ it ++ s) = after_open s.
Proof.
  intros Hn (Hne&Hd&Ho&_). induction l as [|c l IH]; [by apply (after_open_no_dollar it)|].
  rewrite <- app_comm_cons in *. rewrite after_open_cons in Hn. rewrite after_open_cons.
  destruct l as [|d l]; simpl in *.
  - destruct it as [|d it]; [done|]. simpl. apply not_elem_of_cons in Ho as [Hd' _].
    destruct (N.eqb_spec d 123); [congruence|]. rewrite andb_false_r.
    by apply (after_open_no_dollar (d :: it)).
  - destruct (N.eqb_spec c 36), (N.eqb_spec d 123); simpl in *; try done; by apply IH.
Qed.

(** ** Replacing a token *)

Lemma split_once_app c s s' : c ∉ s → split_once c (s ++ c :: s') = Some (s, s').
Proof.
  induction s as [|d s IH]; intros Hn; simpl; [by rewrite N.eqb_refl|].
  apply not_elem_of_cons in Hn as [Hd Hn]. destruct (N.eqb_spec d c); [congruence|].
  by rewrite IH.
Qed.

Lemma strip_prefix_Some p s rest : strip_prefix p s = Some rest ↔ s = p ++ rest.
Proof.
  revert s. induction p as [|c p IH]; intros s; simpl; [naive_solver|].
  destruct s as [|d s]; [done|]. destruct (N.eqb_spec c d) as [->|Hne].
  - rewrite IH. split; [by intros ->|by intros [= ->]].
  - split; [done|]. by intros [= ->].
Qed.

Section replace.
Context (token value : str) (Htoken : 125 ∉ token).
Local Notation pat := (token_text token).

Lemma token_text_cons : pat = 36 :: 123 :: token ++ [125].
Proof. done. Qed.

Lemma replace_from_fuel fuel fuel' s :
  (length s < fuel)%nat → (length s < fuel')%nat →
  replace_from fuel pat value s = replace_from fuel' pat value s.
Proof.
  revert fuel' s. induction fuel as [|fuel IH]; intros fuel' s Hf Hf'; [lia|].
  destruct fuel' as [|fuel']; [lia|]. cbn [replace_from].
  destruct (strip_prefix pat s) as [rest|] eqn:Hs.
  - apply strip_prefix_Some in Hs as ->. rewrite length_app, token_text_cons in *. simpl in *.
    f_equal. apply IH; lia.
  - destruct s as [|c s]; [done|]. simpl in *. f_equal. apply IH; lia.
Qed.

Lemma replace_eq s :
  replace pat value s =
  match strip_prefix pat s with
  | Some rest => value ++ replace pat value rest
  | None => match s with c :: rest => c :: replace pat value rest | [] => [] end
  end.
Proof.
  unfold replace at 1. cbn [replace_from].
  destruct (strip_prefix pat s) as [rest|] eqn:Hs.
  - apply strip_prefix_Some in Hs as ->. f_equal. apply replace_from_fuel; [|lia].
    rewrite length_app, token_text_cons. simpl. lia.
  - by destruct s.
Qed.

Lemma replace_token s : replace pat value (36 :: 123 :: token ++ 125 :: s) = value ++ replace pat value s.
Proof.
  rewrite replace_eq.
  replace (strip_prefix pat _) with (Some s); [done|]. symmetry. apply strip_prefix_Some.
  rewrite token_text_cons. simpl. by rewrite <- app_assoc.
Qed.

(** Outside of a token, replacing goes on. *)
Lemma replace_skip c s : strip_prefix pat (c :: s) = None → replace pat value (c :: s) = c :: replace pat value s.
Proof. intros Hs. by rewrite replace_eq, Hs. Qed.

Lemma not_token_start c s : c ≠ 36 → strip_prefix pat (c :: s) = None.
Proof.
  intros Hc. destruct (strip_prefix pat (c :: s)) eqn:Hs; [|done].
  apply strip_prefix_Some in Hs. by injection Hs as ->.
Qed.

Lemma replace_no_dollar s s' : 36 ∉ s → replace pat value (s ++ s') = s ++ replace pat value s'.
Proof.
  induction s as [|c s IH]; intros Hn; [done|]. apply not_elem_of_cons in Hn as [Hc Hn].
  simpl. rewrite replace_skip, IH; [done|done|]. apply not_token_start. congruence.
Qed.

(** What comes before the first [${] is left as it is. *)
Lemma replace_before l s :
  after_open (l ++ [36]) = None → (∃ r, s = 36 :: r) →
  replace pat value (l ++ s) = l ++ replace pat value s.
Proof.
  intros Hn [r ->]. induction l as [|c l IH]; [done|].
  rewrite <- !app_comm_cons in *. rewrite after_open_cons in Hn.
  rewrite replace_skip.
  - f_equal. apply IH. destruct l as [|d l]; simpl in *; [done|].
    by destruct ((c =? 36) && (d =? 123)).
  - destruct (strip_prefix pat (c :: l ++ 36 :: r)) as [r'|] eqn:Hs; [|done].
    apply strip_prefix_Some in Hs. rewrite token_text_cons in Hs. simpl in Hs.
    injection Hs as -> Hs. destruct l as [|d l]; simpl in *; [by simplify_eq|].
    by injection Hs as -> _.
Qed.

Lemma replace_none s : after_open s = None → replace pat value s = s.
Proof.
  induction s as [|c s IH]; intros Hn; [done|]. rewrite after_open_cons in Hn.
  rewrite replace_skip.
  - f_equal. apply IH. destruct s as [|d s]; [done|]. by destruct ((c =? 36) && (d =? 123)).
  - destruct (strip_prefix pat (c :: s)) as [r'|] eqn:Hs; [|done].
    apply strip_prefix_Some in Hs. rewrite token_text_cons in Hs. simpl in Hs.
    injection Hs as -> ->. done.
Qed.

Lemma replace_other t s :
  t ≠ token → 36 ∉ t → 125 ∉ t →
  replace pat value (36 :: 123 :: t ++ 125 :: s) = 36 :: 123 :: t ++ 125 :: replace pat value s.
Proof.
  intros Hne Hd Hc. rewrite replace_skip.
  - f_equal. change (123 :: t ++ 125 :: s) with ((123 :: t) ++ 125 :: s).
    rewrite replace_no_dollar by (apply not_elem_of_cons; done). simpl.
    rewrite replace_skip by (by apply not_token_start). done.
  - destruct (strip_prefix pat (36 :: 123 :: t ++ 125 :: s)) as [r|] eqn:Hs; [|done].
    apply strip_prefix_Some in Hs. rewrite token_text_cons in Hs. simpl in Hs.
    injection Hs as Hs. rewrite <- app_assoc in Hs. simpl in Hs.
    by apply app_sep_inj in Hs as [-> _].
Qed.

(** The tokens of a text in which a token is replaced by a plain value: the others. *)
Lemma extract_tokens_replace s tokens :
  plain value → extract_tokens s = Some tokens →
  (∀ t, t ∈ tokens → t ≠ token → 36 ∉ t) →
  extract_tokens (replace pat value s) = Some (filter (λ t, t ≠ token) tokens).
Proof.
  intros Hvalue. remember (length s) as n eqn:Hn. revert s Hn tokens.
  induction (lt_wf n) as [n _ IH]. intros s -> tokens Htokens Hclean.
  rewrite extract_tokens_eq in Htokens. destruct (after_open s) as [after|] eqn:Ha.
  2: { injection Htokens as <-. rewrite replace_none by done. by rewrite extract_tokens_eq, Ha. }
  apply after_open_length in Ha as Hlen. apply after_open_Some in Ha as (l&->&Hl).
  destruct (split_once 125 after) as [[t rest]|] eqn:Hs; [|done].
  apply split_once_length in Hs as Hlen'. pose proof (split_once_spec 125 after) as Hsp.
  rewrite Hs in Hsp. destruct Hsp as [-> Ht].
  destruct (extract_tokens rest) as [ts|] eqn:Hts; [|done]. injection Htokens as <-.
  assert (extract_tokens (replace pat value rest) = Some (filter (λ t, t ≠ token) ts)) as IH'.
  { apply (IH (length rest)); [lia|done|done|]. intros x Hx. apply Hclean. by right. }
  rewrite replace_before by eauto. rewrite filter_cons. destruct (decide (t = token)) as [->|Hne].
  - rewrite decide_False by tauto. rewrite replace_token, <- IH', !(extract_tokens_eq (_ ++ _)).
    rewrite after_open_plain by done. by rewrite <- extract_tokens_eq.
  - rewrite decide_True by done. assert (36 ∉ t) by (apply Hclean; [by left|done]).
    rewrite replace_other, extract_tokens_eq by done.
    replace (after_open _) with (Some (t ++ 125 :: replace pat value rest)).
    2: { symmetry. apply after_open_Some. by exists l. }
    replace (split_once 125 _) with (Some (t, replace pat value rest)); [by rewrite IH'|].
    symmetry. by apply split_once_app.
Qed.
End replace.

(** ** Loaded plans *)

Lemma Forall2_fmap_eq {A B C} (P : A → B → Prop) (f : A → C) (g : B → C) l k :
  Forall2 P l k → (∀ x y, P x y → g y = f x) → g <$> k = f <$> l.
Proof.
  intros HP Hfg. induction HP as [|x y l k Hxy _ IH]; [done|]. rewrite !fmap_cons.
  f_equal; [by apply Hfg|exact IH].
Qed.

Lemma Forall2_omap_eq {A B C} (P : A → B → Prop) (f : A → option C) (g : B → option C) l k :
  Forall2 P l k → (∀ x y, P x y → g y = f x) → omap g k = omap f l.
Proof.
  intros HP Hfg. induction HP as [|x y l k Hxy _ IH]; [done|]. simpl. rewrite (Hfg x y) by done.
  destruct (f x); [f_equal|]; exact IH.
Qed.

Lemma NoDup_omap_strong {A B} (f : A → option B) (l : list A) :
  (∀ x y b, x ∈ l → y ∈ l → f x = Some b → f y = Some b → x = y) → NoDup l → NoDup (omap f l).
Proof.
  intros Hinj. induction 1 as [|x l Hx Hnd IH]; [constructor|]. simpl.
  assert (NoDup (omap f l)) as IH' by (apply IH; intros y z b Hy Hz; apply Hinj; by right).
  destruct (f x) as [b|] eqn:Hb; [|done]. constructor; [|done].
  intros (y&Hy&Hyb)%list_elem_of_omap. apply Hx.
  by rewrite (Hinj x y b); [|by left|by right|..].
Qed.

(** Group [a] needs group [b]. *)
Definition needs_group (us : list Unit) (a b : str) : Prop :=
  ∃ u, u ∈ us ∧ group u = a ∧ b ∈ unit_needs u.

Definition pane_of (u : Unit) : option str :=
  match action u with Spawn s => Some (spawn_name s) | Send _ _ => None end.

Section plans.
Context {R : Regexes}.

Record units_ok (us : list Unit) : Prop := {
  units_ids : NoDup (unit_id <$> us);
  units_panes : NoDup (omap pane_of us);
  units_captures : NoDup (omap (λ u, fst <$> unit_capture u) us);
  units_needs u n : u ∈ us → n ∈ unit_needs u → ∃ u', u' ∈ us ∧ group u' = n;
  units_group u u' : u ∈ us → u' ∈ us → group u = group u' → unit_needs u = unit_needs u';
  units_wf g : Acc (λ b a, needs_group us a b) g;
  units_ready u p t : u ∈ us → unit_ready u = Some (p, t) → is_Some (regex_new p);
  units_capture u : u ∈ us → is_Some (unit_capture u) → is_Some (unit_ready u);
  units_send u : u ∈ us → unit_needs u = [] → is_Some (pane_of u);
  units_root : ∃ u, u ∈ us ∧ unit_needs u = [];
  units_size : (length (omap pane_of us) ≤ MAX_PANES)%nat }.

Section loaded.
Context (spec : FlowSpec) (Hvalid : valid spec) (us : list Unit).
Context (Hfrom : Forall2 (unit_from spec) (instances spec) us).

Lemma instance_unit s it :
  s ∈ steps spec → it ∈ items_of s → ∃ u, u ∈ us ∧ unit_from spec (s, it) u.
Proof.
  intros Hs Hit. assert ((s, it) ∈ instances spec) as Hin by (by apply elem_of_instances).
  apply list_elem_of_lookup in Hin as [i Hi].
  destruct (Forall2_lookup_l _ _ _ _ _ Hfrom Hi) as (u&Hu&?).
  exists u. split; [by eapply list_elem_of_lookup_2|done].
Qed.

Lemma unit_instance u :
  u ∈ us → ∃ s it, s ∈ steps spec ∧ it ∈ items_of s ∧ unit_from spec (s, it) u.
Proof.
  intros [i Hi]%list_elem_of_lookup. destruct (Forall2_lookup_r _ _ _ _ _ Hfrom Hi) as ([s it]&Hin&?).
  exists s, it. apply list_elem_of_lookup_2, elem_of_instances in Hin as [??]. done.
Qed.

Lemma items_nonempty s : s ∈ steps spec → ∃ it, it ∈ items_of s.
Proof.
  intros Hs. unfold items_of. destruct (foreach s) as [items|] eqn:Hf; [|exists None; by left].
  destruct (ok_items _ _ (valid_step _ Hvalid s Hs) items Hf) as [Hne _].
  destruct items as [|it items]; [done|]. exists (Some it). by left.
Qed.

Lemma NoDup_instances : NoDup (instances spec).
Proof.
  apply NoDup_bind.
  - intros s s' [t it] Hs Hs' Hin Hin'.
  apply list_elem_of_fmap in Hin as (?&[= -> ->]&_).
  by apply list_elem_of_fmap in Hin' as (?&[= -> ->]&_).
  - intros s Hs. apply NoDup_fmap; [intros ?? [= ->]; done|].
  unfold items_of. destruct (foreach s) as [items|] eqn:Hf; [|apply NoDup_singleton].
  apply NoDup_fmap; [intros ?? [= ->]; done|].
  by apply (ok_items _ _ (valid_step _ Hvalid s Hs) items Hf).
  - eapply NoDup_fmap_1, (valid_ids _ Hvalid).
Qed.

(** A name made of an id without a character, that character, and an item. *)
Lemma item_name_inj c before before' between after it it' :
  c ∉ before → c ∉ before' → between = [c] →
  item_name before between after it = item_name before' between after it' →
  before = before' ∧ it = it'.
Proof.
  intros Hb Hb' -> He. destruct it as [it|], it' as [it'|]; simpl in He.
  - apply app_sep_inj in He as [-> He]; [|done..]. by apply app_inv_tail in He as ->.
  - subst. exfalso. apply Hb', elem_of_app. right. by left.
  - subst. exfalso. apply Hb, elem_of_app. right. by left.
  - done.
Qed.

Lemma id_of_inj i j : i ∈ instances spec → j ∈ instances spec → id_of i = id_of j → i = j.
Proof.
  destruct i as [s it], j as [s' it']. intros [Hs _]%elem_of_instances [Hs' _]%elem_of_instances He.
  destruct (valid_id _ Hvalid s Hs) as (_&Hn&_), (valid_id _ Hvalid s' Hs') as (_&Hn'&_).
  unfold id_of in He. simpl in He. apply (item_name_inj 91) in He as [He <-]; [|done..].
  by rewrite (step_unique _ (valid_ids _ Hvalid) s s').
Qed.

Lemma capture_unique s s' c c' :
  s ∈ steps spec → s' ∈ steps spec → capture s = Some c → capture s' = Some c' →
  var c = var c' → s = s'.
Proof.
  intros Hs Hs' Hc Hc' He. pose proof (valid_vars _ Hvalid) as Hnd. unfold captured_vars in Hnd.
  apply list_elem_of_split in Hs as (l1&l2&Hsplit). rewrite Hsplit in Hs', Hnd.
  rewrite omap_app in Hnd. cbn in Hnd. rewrite Hc in Hnd. cbn in Hnd.
  apply NoDup_app in Hnd as (_&Hl1&Hl2). apply NoDup_cons in Hl2 as [Hl2 _].
  apply elem_of_app in Hs' as [Hin|[->|Hin]%elem_of_cons]; [|done|].
  - exfalso. apply (Hl1 (var c)); [|by left]. apply list_elem_of_omap. exists s'.
  split; [done|]. rewrite Hc'. simpl. by rewrite He.
  - exfalso. apply Hl2, list_elem_of_omap. exists s'. split; [done|]. rewrite Hc'. simpl. by rewrite He.
Qed.

Lemma capture_key_inj i j k :
  i ∈ instances spec → j ∈ instances spec → capture_key i = Some k → capture_key j = Some k → i = j.
Proof.
  destruct i as [s it], j as [s' it']. intros [Hs _]%elem_of_instances [Hs' _]%elem_of_instances.
  unfold capture_key. simpl. destruct (capture s) as [c|] eqn:Hc; [|done].
  destruct (capture s') as [c'|] eqn:Hc'; [|done]. simpl. intros [= <-] [= He].
  symmetry in He. apply (item_name_inj 46) in He as [He <-]; [|..|done].
  - by rewrite (capture_unique s s' c c').
  - by eapply capture_no_dot; [apply (valid_capture _ Hvalid s Hs)|].
  - by eapply capture_no_dot; [apply (valid_capture _ Hvalid s' Hs')|].
Qed.

Lemma needs_group_step a b : needs_group us a b ↔ needs_step spec a b.
Proof.
  split.
  - intros (u&Hu&<-&Hb). destruct (unit_instance u Hu) as (s&it&Hs&Hit&Hf).
  exists s. rewrite (from_needs _ _ _ Hf) in Hb. by rewrite (from_group _ _ _ Hf).
  - intros (s&Hs&<-&Hb). destruct (items_nonempty s Hs) as [it Hit].
  destruct (instance_unit s it Hs Hit) as (u&Hu&Hf). exists u.
  by rewrite (from_needs _ _ _ Hf), (from_group _ _ _ Hf).
Qed.

Lemma tc_needs_group a b : tc (needs_group us) a b ↔ tc (needs_step spec) a b.
Proof.
  split; induction 1 as [x y Hxy|x y z Hxy _ IH];
  [apply tc_once|eapply tc_l; [|exact IH]|apply tc_once|eapply tc_l; [|exact IH]];
  by apply needs_group_step.
Qed.

Lemma pane_of_name i u : unit_from spec i u → pane_of u = name_of i.
Proof.
  intros Hf. pose proof (from_action _ _ _ Hf) as Ha. unfold pane_of.
  destruct (action u) as [x|]; [by destruct Ha as (p&_&->&_)|].
  destruct Ha as [Hp _]. unfold name_of. by rewrite Hp.
Qed.

Lemma names_bound l :
  (length (omap name_of (l ≫= λ s, pair s <$> items_of s)) ≤ sum_list_with pane_units l)%nat.
Proof.
  induction l as [|s l IH]; [done|]. rewrite bind_cons, omap_app, length_app. simpl.
  assert (length (omap name_of (pair s <$> items_of s)) ≤ pane_units s)%nat; [|lia].
  unfold pane_units. induction (items_of s) as [|it its IHi]; [simpl; lia|].
  rewrite fmap_cons. change ((s, it) :: _) with ([(s, it)] ++ (pair s <$> its)).
  rewrite omap_app, length_app. simpl.
  assert (length (default [] ((λ y, [y]) <$> name_of (s, it))) =
  match pane s with Some _ => 1 | None => 0 end)%nat as Hl.
  { unfold name_of. simpl. by destruct (pane s). }
  destruct (name_of (s, it)), (pane s); simpl in *; lia.
Qed.

Lemma units_from_ok : expandable spec → units_ok us.
Proof.
  intros [_ Hnames]. split.
  - rewrite (Forall2_fmap_eq _ id_of unit_id _ _ Hfrom) by (intros ?? []; done).
  apply NoDup_fmap_2_strong; [apply id_of_inj|apply NoDup_instances].
  - by rewrite (Forall2_omap_eq _ name_of pane_of _ _ Hfrom) by (by intros; apply pane_of_name).
  - rewrite (Forall2_omap_eq _ capture_key _ _ _ Hfrom).
  2: { intros i u Hf. rewrite (from_capture _ _ _ Hf). unfold capture_key. by destruct (capture i.1). }
  apply NoDup_omap_strong; [apply capture_key_inj|apply NoDup_instances].
  - intros u n Hu Hn. destruct (unit_instance u Hu) as (s&it&Hs&_&Hf).
  rewrite (from_needs _ _ _ Hf) in Hn.
  destruct (ok_needs _ _ (valid_step _ Hvalid s Hs) n Hn) as [_ Hin].
  apply list_elem_of_fmap in Hin as (s'&->&Hs'). destruct (items_nonempty s' Hs') as [it' Hit'].
  destruct (instance_unit s' it' Hs' Hit') as (u'&?&Hf'). exists u'.
  by rewrite (from_group _ _ _ Hf').
  - intros u u' Hu Hu' He. destruct (unit_instance u Hu) as (s&it&Hs&_&Hf).
  destruct (unit_instance u' Hu') as (s'&it'&Hs'&_&Hf').
  rewrite (from_group _ _ _ Hf), (from_group _ _ _ Hf') in He.
  rewrite (from_needs _ _ _ Hf), (from_needs _ _ _ Hf').
  by rewrite (step_unique _ (valid_ids _ Hvalid) s s').
  - intros g. pose proof (valid_wf _ Hvalid g) as Hacc. induction Hacc as [g _ IH].
  constructor. intros b Hb. by apply IH, needs_group_step.
  - intros u p t Hu Hr. destruct (unit_instance u Hu) as (s&it&Hs&_&Hf).
  pose proof (from_ready _ _ _ Hf) as Hready. destruct (ready (s, it).1); [|congruence].
  destruct Hready as (timeout&Hr'&Hre&_). rewrite Hr in Hr'. by injection Hr' as -> ->.
  - intros u Hu. destruct (unit_instance u Hu) as (s&it&Hs&_&Hf).
  rewrite (from_capture _ _ _ Hf). pose proof (from_ready _ _ _ Hf) as Hready. simpl in *.
  destruct (capture s) as [c|] eqn:Hc; [|by intros []]. intros _.
  destruct (valid_capture _ Hvalid s Hs c Hc) as (_&_&[r Hr]). rewrite Hr in Hready.
  destruct Hready as (?&->&_). eauto.
  - intros u Hu Hn. destruct (unit_instance u Hu) as (s&it&Hs&_&Hf).
  rewrite (from_needs _ _ _ Hf) in Hn. rewrite (pane_of_name _ _ Hf). unfold name_of. simpl in *.
  pose proof (valid_step _ Hvalid s Hs) as Hok. pose proof (ok_action _ _ Hok) as Ha.
  destruct (pane s); [by eexists|]. destruct (send s) as [x|] eqn:Hx; [|done].
  destruct (ok_send _ _ Hok x Hx) as (_&?&_). done.
  - destruct (valid_root _ Hvalid) as (s&Hs&_&Hn). destruct (items_nonempty s Hs) as [it Hit].
  destruct (instance_unit s it Hs Hit) as (u&Hu&Hf). exists u. by rewrite (from_needs _ _ _ Hf).
  - rewrite (Forall2_omap_eq _ name_of pane_of _ _ Hfrom) by (by intros; apply pane_of_name).
  etrans; [apply names_bound|apply (valid_panes _ Hvalid)].
Qed.

(** *** Captured variables *)

(** The items of the steps can stand for tokens. *)
Definition plain_items : Prop :=
  ∀ s items it, s ∈ steps spec → foreach s = Some items → it ∈ items → plain it.

Lemma capture_var_plain s c : s ∈ steps spec → capture s = Some c → 36 ∉ var c.
Proof.
  intros Hs Hc Hin. destruct (valid_capture _ Hvalid s Hs c Hc) as [[_ Hall] _].
  rewrite Forall_forall in Hall. by specialize (Hall _ Hin).
Qed.

Lemma names_capture_plain token s c :
  plain_items → s ∈ steps spec → capture s = Some c → names_capture token s c → 36 ∉ token.
Proof.
  intros Hplain Hs Hc Hn. pose proof (capture_var_plain s c Hs Hc) as Hv. unfold names_capture in Hn.
  destruct (foreach s) as [items|] eqn:Hf; [|by subst].
  destruct Hn as (it&Hit&->). destruct (Hplain s items it Hs Hf Hit) as (_&?&_).
  rewrite elem_of_app, elem_of_cons. by intros [?|[?|?]].
Qed.

(** A token that stands for a capture is the key of a unit. *)
Lemma names_capture_unit token s c :
  s ∈ steps spec → capture s = Some c → names_capture token s c →
  ∃ u, u ∈ us ∧ group u = step_id s ∧ unit_capture u = Some (token, capture_lines c).
Proof.
  intros Hs Hc Hn. unfold names_capture in Hn.
  assert (∃ it, it ∈ items_of s ∧ token = item_name (var c) "."%string [] it) as (it&Hit&->).
  { unfold items_of. destruct (foreach s) as [items|].
  - destruct Hn as (it&Hit&->). exists (Some it). split; [by apply list_elem_of_fmap_2|].
    simpl. by rewrite app_nil_r.
  - exists None. split; [by left|done]. }
  destruct (instance_unit s it Hs Hit) as (u&Hu&Hf). exists u.
  rewrite (from_group _ _ _ Hf), (from_capture _ _ _ Hf). simpl. by rewrite Hc.
Qed.

(** What a text's tokens are once an item has been replaced. *)
Lemma sub_tokens s it v tokens (ok : str → Prop) :
  plain_items → s ∈ steps spec → it ∈ items_of s → extract_tokens v = Some tokens →
  (∀ t, t ∈ tokens → t = ITEM → is_Some (foreach s)) →
  (∀ t, t ∈ tokens → t ≠ ITEM → ok t ∧ 36 ∉ t) →
  ∃ ts, extract_tokens (sub it v) = Some ts ∧ ∀ t, t ∈ ts → ok t.
Proof.
  intros Hplain Hs Hit Hv Hitem Hok. unfold items_of in Hit.
  destruct (foreach s) as [items|] eqn:Hf.
  - apply list_elem_of_fmap in Hit as (x&->&Hx). simpl.
  exists (filter (λ t, t ≠ ITEM) tokens). split.
  + apply extract_tokens_replace; [|by eapply Hplain|done|].
    * by apply (bool_decide_unpack _).
    * intros t Ht Hne. by apply Hok.
  + intros t [Hne Ht]%list_elem_of_filter. by apply Hok.
  - apply list_elem_of_singleton in Hit as ->. exists tokens. split; [done|].
  intros t Ht. apply Hok; [done|]. intros ->. by destruct (Hitem ITEM Ht eq_refl).
Qed.

Lemma fed_field u s it :
  s ∈ steps spec → unit_from spec (s, it) u → needs_settle u = true →
  ∃ label v, (label, v) ∈ runtime_fields s ∧ raw_text u = sub it v.
Proof.
  intros Hs Hf Hfed. pose proof (from_action _ _ _ Hf) as Ha. simpl in Ha.
  unfold needs_settle, raw_text, runtime_fields in *. destruct (action u) as [x|target text].
  - destruct Ha as (p&Hp&_&Hx). rewrite Hx in *. cbn in *. rewrite Hp. cbn.
  destruct (prompt p) as [v|]; [|by rewrite andb_false_r in Hfed].
  exists PANE_PROMPT, v. split; [|done]. apply elem_of_app. left. by left.
  - destruct Ha as (_&x&Hx&_&->). rewrite Hx. cbn.
  exists "send.text"%string, (send_text x). split; [|done]. apply elem_of_app. right. by left.
Qed.

Lemma fed_tokens u :
  plain_items → u ∈ us → needs_settle u = true →
  ∃ ts, extract_tokens (raw_text u) = Some ts ∧ ∀ t, t ∈ ts →
  ∃ u' lines, u' ∈ us ∧ unit_capture u' = Some (t, lines) ∧
    tc (needs_group us) (group u) (group u').
Proof.
  intros Hplain Hu Hfed. destruct (unit_instance u Hu) as (s&it&Hs&Hit&Hf).
  destruct (fed_field u s it Hs Hf Hfed) as (label&v&Hv&->).
  destruct (ok_runtime _ _ (valid_step _ Hvalid s Hs) _ Hv) as (tokens&Ht&Hok). simpl in *.
  apply (sub_tokens s it v tokens); try done.
  - intros t Hin ->. specialize (Hok _ Hin). unfold runtime_token in Hok.
  by rewrite decide_True in Hok.
  - intros t Hin Hne. specialize (Hok _ Hin). unfold runtime_token in Hok.
  rewrite decide_False in Hok by done. destruct Hok as (owner&c&Ho&Hc&_&Hn&Htc).
  split; [|by eapply names_capture_plain].
  destruct (names_capture_unit t owner c Ho Hc Hn) as (u'&Hu'&Hg&Hcap).
  exists u', (capture_lines c). split_and!; [done|done|].
  rewrite Hg, (from_group _ _ _ Hf). by apply tc_needs_group.
Qed.
End loaded.
End plans.

(** ** Ports *)

(** A port at which all ten ports of a stride exist and are free. *)
Definition free_stride (is_free : N → bool) (p : N) : Prop :=
  ∀ o, (o < 10)%N → (p + o < 2 ^ 16)%N ∧ is_free (p + o)%N = true.

(** The free strides from number [k] on, in order. *)
Definition free_strides (is_free : N → bool) (base k : N) : list N :=
  filter (λ p, port_stride_is_free is_free p = true)
    ((λ i : nat, base + PORT_STRIDE * (k + N.of_nat i))%N <$> seq 0 (N.to_nat (6554 - k))).

(** Every unit that wants a stride is given the next one. *)
Fixpoint assign (refs : list bool) (free : list N) : option (list (option N)) :=
  match refs, free with
  | [], _ => Some []
  | true :: refs, p :: free => cons (Some p) <$> assign refs free
  | true :: _, [] => None
  | false :: refs, _ => cons None <$> assign refs free
  end.

Section ports.
Context (is_free : N → bool) (base : N).
Local Open Scope N_scope.

Lemma checked_u16_fits n : n < 2 ^ 16 → checked_u16 n = Some n.
Proof. intros Hn. unfold checked_u16. by rewrite (proj2 (N.ltb_lt _ _) Hn). Qed.

Lemma port_stride_is_free_spec p :
  port_stride_is_free is_free p = true ↔ free_stride is_free p.
Proof.
  unfold port_stride_is_free, free_stride, checked_u16. rewrite forallb_forall. split.
  - intros H o Ho. specialize (H o).
    destruct (N.ltb_spec (p + o) (2 ^ 16)) as [Hlt|Hge].
    + split; [done|]. apply H. simpl. lia.
    + discriminate H. simpl. lia.
  - intros H o Ho. destruct (H o) as [Hlt Hf]; [simpl in Ho; lia|].
    by rewrite (proj2 (N.ltb_lt _ _) Hlt).
Qed.

Lemma free_strides_step k :
  k < 6554 →
  free_strides is_free base k =
    (if port_stride_is_free is_free (base + PORT_STRIDE * k)
     then cons (base + PORT_STRIDE * k) else id) (free_strides is_free base (k + 1)).
Proof.
  intros Hk. unfold free_strides.
  replace (N.to_nat (6554 - k)) with (S (N.to_nat (6554 - (k + 1)))) by lia.
  generalize (N.to_nat (6554 - (k + 1))) as n. intros n.
  cbn [seq fmap list_fmap]. rewrite filter_cons, N.add_0_r.
  assert (((λ i : nat, base + PORT_STRIDE * (k + N.of_nat i)) <$> seq 1 n) =
    ((λ i : nat, base + PORT_STRIDE * (k + 1 + N.of_nat i)) <$> seq 0 n)) as ->.
  { rewrite <- fmap_S_seq, <- list_fmap_compose. apply list_fmap_ext. intros _ i _. cbn. lia. }
  by destruct (port_stride_is_free _ _).
Qed.

Lemma free_strides_none k :
  base + PORT_STRIDE * k + 9 >= 2 ^ 16 → free_strides is_free base k = [].
Proof.
  intros Hk. unfold free_strides. generalize (N.to_nat (6554 - k)) as n. intros n.
  destruct (filter _ _) as [|p l] eqn:Hf; [done|].
  assert (p ∈ p :: l) as Hp by left. rewrite <- Hf in Hp.
  apply list_elem_of_filter in Hp as [Hp (i&->&_)%list_elem_of_fmap].
  apply port_stride_is_free_spec in Hp. destruct (Hp 9) as [Hlt _]; [lia|].
  unfold PORT_STRIDE in *. lia.
Qed.

(** The search finds the first free stride, and goes on behind it. *)
Lemma find_stride_spec fuel k :
  6555 <= N.of_nat fuel + k → k <= 6554 →
  match free_strides is_free base k with
  | [] => find_stride fuel is_free base k = None
  | p :: rest => ∃ next, next <= 6554 ∧ free_strides is_free base next = rest ∧
      find_stride fuel is_free base k = Some (p, next)
  end.
Proof.
  revert k. induction fuel as [|fuel IH]; intros k Hf Hk; [lia|].
  destruct (decide (base + PORT_STRIDE * k + 9 < 2 ^ 16)) as [Hin|Hout].
  - assert (k < 6554) as Hlt by (unfold PORT_STRIDE in *; lia).
    rewrite (free_strides_step _ Hlt). cbn [find_stride].
    rewrite (N.mul_comm k), !checked_u16_fits by (unfold PORT_STRIDE in *; lia).
    cbn -[port_stride_is_free free_strides N.ltb N.sub].
    rewrite !checked_u16_fits by (unfold PORT_STRIDE in *; lia).
    cbn -[port_stride_is_free free_strides N.ltb N.sub].
    rewrite (proj2 (N.ltb_ge _ _)) by (unfold PORT_STRIDE in *; lia).
    destruct (port_stride_is_free _ _); cbn -[free_strides].
    + exists (k + 1). split_and!; [lia|done|done].
    + apply IH; lia.
  - rewrite free_strides_none by lia. cbn [find_stride]. unfold checked_u16.
    destruct (N.ltb_spec (k * PORT_STRIDE) (2 ^ 16)); cbn; [|done].
    destruct (N.ltb_spec (base + k * PORT_STRIDE) (2 ^ 16)); cbn; [|done].
    by rewrite (proj2 (N.ltb_lt _ _)) by (unfold PORT_STRIDE in *; lia).
Qed.

Lemma allocate_from_spec refs k :
  k <= 6554 →
  allocate_from refs is_free base k = assign refs (free_strides is_free base k).
Proof.
  revert k. induction refs as [|[] refs IH]; intros k Hk; [done| |].
  - pose proof (find_stride_spec STRIDE_FUEL k ltac:(unfold STRIDE_FUEL; lia) Hk) as H.
    cbn [allocate_from assign]. destruct (free_strides is_free base k) as [|p rest].
    + by rewrite H.
    + destruct H as (next&Hn&<-&->). cbn. by rewrite IH.
  - cbn [allocate_from assign]. by rewrite IH.
Qed.
Lemma elem_of_free_strides p :
  p ∈ free_strides is_free base 0 ↔ ∃ k, p = base + PORT_STRIDE * k ∧ free_stride is_free p.
Proof.
  unfold free_strides. rewrite list_elem_of_filter, port_stride_is_free_spec, list_elem_of_fmap.
  split.
  - intros [Hp (i&->&_)]. by exists (0 + N.of_nat i).
  - intros (k&->&Hp). split; [done|]. exists (N.to_nat k). split; [by rewrite N2Nat.id|].
    destruct (Hp 9) as [Hlt _]; [lia|]. apply elem_of_seq. unfold PORT_STRIDE in *. lia.
Qed.

Lemma free_strides_sorted : StronglySorted N.lt (free_strides is_free base 0).
Proof.
  unfold free_strides. generalize (N.to_nat (6554 - 0)) as n. intros n. generalize 0%nat as j.
  induction n as [|n IH]; intros j; [constructor|]. cbn [seq fmap list_fmap].
  rewrite filter_cons. case_decide; [|apply IH]. constructor; [apply IH|].
  apply Forall_forall. intros p [_ (i&->&Hi)%list_elem_of_fmap]%list_elem_of_filter.
  apply elem_of_seq in Hi. unfold PORT_STRIDE. lia.
Qed.

(** The number of units that want a stride. *)
Definition wanted (refs : list bool) : nat := length (filter (λ b, b = true) refs).

Lemma assign_spec refs free :
  match assign refs free with
  | Some offsets => is_some <$> offsets = refs ∧ omap id offsets = take (wanted refs) free
  | None => (length free < wanted refs)%nat
  end.
Proof.
  revert free. induction refs as [|[] refs IH]; intros free; [done| |].
  - destruct free as [|p free]; [simpl; unfold wanted; simpl; lia|].
    change (wanted (true :: refs)) with (S (wanted refs)). specialize (IH free). cbn [assign].
    destruct (assign refs free) as [offsets|]; simpl in *; [|lia].
    destruct IH as [Hr Ho]. split; [by f_equal|by f_equal].
  - change (wanted (false :: refs)) with (wanted refs). specialize (IH free). cbn [assign].
    destruct (assign refs free) as [offsets|]; simpl in *; [|done].
    destruct IH as [Hr Ho]. split; [by f_equal|done].
Qed.
End ports.
