(* ===== verification/FlowEngineCorrect.v ===== *)
(** * Running a flow: proofs

    The calls of the engine do not panic; each moves one unit forward, a unit that is
    ready, failed or skipped stays so, and a unit that has started had every unit of the
    groups it needs ready.  [left] bounds the rounds a unit still takes, so that a run ends. *)

From stdpp Require Import gmap list strings relations well_founded.
From S2P Require Import Prelude DiffText DiffUtf8 AgentActivity FlowSpec FlowEngine FlowSpecCorrect FlowPlan.

Local Open Scope N_scope.
#[local] Existing Instances m_ret m_bind.

(** ** The clock *)

(** A clock that does not go back, moves on while the thread sleeps, and can hold a time
    less than four billion seconds ahead. *)
Class ClockLaws (W : Type) {C : Client W} := {
  clock : W → N;
  now_clock w : clock w ≤ (now w).1 ∧ (now w).1 ≤ clock (now w).2;
  later_some t d : d ≤ 2 ^ 32 * 1000 → later t d = Some (t + d);
  sleep_clock d w : clock w + d ≤ clock (sleep d w);
  interrupted_clock w : clock w ≤ clock (interrupted w).2;
  call_clock m v w : clock w ≤ clock (call m v w).2;
  try_call_clock m v w : clock w ≤ clock (try_call m v w).2;
  execute_worktree_plan_clock p w : clock w ≤ clock (execute_worktree_plan p w).2;
  rollback_clock ps w : clock w ≤ clock (rollback_created_worktrees ps w);
  resolve_target_clock t w : clock w ≤ clock (resolve_target t w).2;
  confirm_turn_start_clock s v w : clock w ≤ clock (confirm_turn_start s v w).2 }.

Section engine.
Context {R : Regexes} {W : Type} {C : Client W} {L : ClockLaws W}.

(** ** Reading keeps the clock going *)

(** A call outside that does not turn the clock back. *)
Definition forward {A} (f : W → A * W) : Prop := ∀ w, clock w ≤ clock (f w).2.

Lemma read_surface_once_forward sid lines : forward (read_surface_once sid lines).
Proof.
  intros w. unfold read_surface_once. set (m := "surface.read"%string : str). set (v := VObject _).
  pose proof (try_call_clock m v w) as Hw. destruct (try_call m v w) as [[[]|] w']; simpl in *; try done.
  by destruct (is_surface_gone_error _).
Qed.

Lemma read_retrying_forward n sid lines : forward (read_retrying n sid lines).
Proof.
  induction n as [|n IH]; intros w; simpl; pose proof (read_surface_once_forward sid lines w) as Hw;
    destruct (read_surface_once sid lines w) as [[e|r] w1]; simpl in *; try done;
    destruct (is_transient e); simpl; try done.
  etrans; [exact Hw|]. etrans; [|apply IH].
  pose proof (sleep_clock (transient_backoff (TRANSIENT_RETRIES - S n)) w1). unfold TRANSIENT_RETRIES in *. simpl in *. lia.
Qed.

Lemma baseline_retrying_forward n sid lines : forward (baseline_retrying n sid lines).
Proof.
  induction n as [|n IH]; intros w; simpl; pose proof (read_retrying_forward TRANSIENT_RETRIES sid lines w) as Hw;
    fold (read_surface sid lines) in *;
    destruct (read_surface sid lines w) as [[[]|[]] w1]; simpl in *; try done.
  all: etrans; [exact Hw|]; etrans; [|apply IH];
    match goal with |- _ ≤ clock (sleep ?d ?w) => pose proof (sleep_clock d w) end; lia.
Qed.

Lemma read_surface_forward sid lines : forward (read_surface sid lines).
Proof. apply read_retrying_forward. Qed.

Lemma read_baseline_forward sid lines : forward (read_baseline sid lines).
Proof. apply baseline_retrying_forward. Qed.

Lemma status_of_forward sid : forward (status_of sid).
Proof.
  intros w. unfold status_of. set (m := "surface.status"%string : str). set (v := VObject _).
  pose proof (call_clock m v w). by destruct (call m v w) as [[|] w'].
Qed.

Lemma now_forward : forward now.
Proof. intros w. destruct (now_clock w). lia. Qed.

(** ** Calls on the engine *)

Lemma alter_insert {A} (l : list A) i (f : A → A) x : l !! i = Some x → alter f i l = <[i := f x]> l.
Proof.
  revert i. induction l as [|y l IH]; intros [|i]; simpl; intros Hx; simplify_eq; [done|].
  f_equal. by apply IH.
Qed.

(** From [st], [m] does not panic; it returns in [Q] or throws in [X]. *)
Definition wp {E A} (m : M E A) (e : Engine) (w : W) (Q : A → Engine → W → Prop)
    (X : E → Engine → W → Prop) : Prop :=
  match m (e, w) with
  | Some (inr a, (e, w)) => Q a e w
  | Some (inl x, (e, w)) => X x e w
  | None => False
  end.

(** Replacing the run of a unit. *)
Definition put (i : nat) (r : UnitRun) (e : Engine) : Engine := set_runs (<[i := r]> (runs_ e)) e.

Section rules.
Context {E : Type} (X : E → Engine → W → Prop).

Lemma wp_ret {A} (a : A) e w (Q : A → Engine → W → Prop) : Q a e w → wp (m_ret A a) e w Q X.
Proof. done. Qed.

Lemma wp_bind {A B} (m : M E A) (f : A → M E B) e w Q :
  wp m e w (λ a e w, wp (f a) e w Q X) X → wp (m_bind A B f m) e w Q X.
Proof. unfold wp, m_bind. destruct (m (e, w)) as [[[x|a] [e' w']]|]; done. Qed.

Lemma wp_throw {A} (x : E) e w (Q : A → Engine → W → Prop) : X x e w → wp (throw x) e w Q X.
Proof. done. Qed.

Lemma wp_get e w (Q : Engine → Engine → W → Prop) : Q e e w → wp get e w Q X.
Proof. done. Qed.

Lemma wp_modify f e w (Q : () → Engine → W → Prop) : Q () (f e) w → wp (modify f) e w Q X.
Proof. done. Qed.

Lemma wp_ask {A} (f : W → A * W) e w (Q : A → Engine → W → Prop) :
  forward f → (clock w ≤ clock (f w).2 → Q (f w).1 e (f w).2) → wp (ask f) e w Q X.
Proof.
  intros Hf HQ. unfold wp, ask. specialize (Hf w). destruct (f w) as [a w']. by apply HQ.
Qed.

Lemma wp_outside (f : W → W) e w (Q : () → Engine → W → Prop) : Q () e (f w) → wp (outside f) e w Q X.
Proof. done. Qed.

Lemma wp_unwrap {A} (o : option A) a e w (Q : A → Engine → W → Prop) :
  o = Some a → Q a e w → wp (unwrap o) e w Q X.
Proof. by intros ->. Qed.

Lemma wp_check {E' A} (f : E' → E) (r : E' + A) e w (Q : A → Engine → W → Prop) :
  (∀ a, r = inr a → Q a e w) → (∀ x, r = inl x → X (f x) e w) → wp (check f r) e w Q X.
Proof. destruct r; simpl; [intros _ HX; by apply HX|intros HQ _; by apply HQ]. Qed.

Lemma wp_get_run i r e w (Q : UnitRun → Engine → W → Prop) :
  runs_ e !! i = Some r → Q r e w → wp (get_run i) e w Q X.
Proof. intros Hr HQ. apply wp_bind, wp_get. by eapply wp_unwrap. Qed.

Lemma wp_update i f r e w (Q : () → Engine → W → Prop) :
  runs_ e !! i = Some r → Q () (put i (f r) e) w → wp (update i f) e w Q X.
Proof.
  intros Hr HQ. apply wp_modify. by rewrite (alter_insert _ _ _ _ Hr).
Qed.
End rules.

(** ** What a run keeps *)

Definition in_flight (s : State) : bool :=
  match s with Settling _ _ _ | Polling _ _ _ => true | _ => false end.

(** The rounds a unit can wait for its pattern. *)
Definition budget (u : Unit) : N :=
  match unit_ready u with Some (_, timeout) => 2 * timeout + 2 | None => 0 end.

(** A bound of the rounds a unit still takes, seen at time [c]. *)
Definition left (c : N) (r : UnitRun) : N :=
  match state r with
  | Pending => 19 + budget (unit_of r)
  | Settling _ _ since => 1 + (17 - (c - since) / TICK) + budget (unit_of r)
  | Polling deadline _ _ => (deadline - c + 499) / TICK + 1
  | _ => 0
  end.

(** What loading a plan ensures of a unit. *)
Record unit_good (u : Unit) : Prop := {
  good_ready p t : unit_ready u = Some (p, t) → is_Some (regex_new p) ∧ t ≤ 2 ^ 32;
  good_capture : is_Some (unit_capture u) → is_Some (unit_ready u) }.

Section runs.
(** Whether every variable that a text names is captured by a unit it needs. *)
Context (F : Prop).

(** A run at time [x], when [vs] has been captured. *)
Record run_ok (vs : gmap str str) (x : N) (r : UnitRun) : Prop := {
  run_surface : in_flight (state r) = true → is_Some (surface_id r);
  run_polling d re b : state r = Polling d re b → is_Some (unit_ready (unit_of r));
  run_settling g s t : state r = Settling g s t →
  needs_settle (unit_of r) = true ∧ t ≤ x ∧ s * TICK ≤ x - t;
  run_captured key lines : state r = Ready → unit_capture (unit_of r) = Some (key, lines) →
  is_Some (vs !! key);
  run_error : F → ∀ v, error r ≠ Some (UndefinedVariable v) }.

Lemma left_mono c c' r : c ≤ c' → left c' r ≤ left c r.
Proof.
  intros Hc. unfold left. destruct (state r) as [|g s t|d re b| | |]; [done| | |done..].
  - assert ((c - t) / TICK ≤ (c' - t) / TICK) by (apply N.Div0.div_le_mono; lia). lia.
  - assert ((d - c' + 499) / TICK ≤ (d - c + 499) / TICK) by (apply N.Div0.div_le_mono; lia). lia.
Qed.

Lemma left_pos c r : is_terminal (state r) = false → 0 < left c r.
Proof.
  unfold left. destruct (state r) as [|g s t|d re b| | |]; try done; intros _; [lia|lia|].
  apply N.add_pos_r. lia.
Qed.

Lemma left_settling c r g s t : state r = Settling g s t → left c r ≤ 18 + budget (unit_of r).
Proof. intros Hs. unfold left. rewrite Hs. generalize ((c - t) / TICK). lia. Qed.

Lemma left_terminal c r : is_terminal (state r) = true → left c r = 0.
Proof. unfold left. by destruct (state r). Qed.

Lemma run_ok_mono vs vs' x x' r :
  run_ok vs x r → (∀ k, is_Some (vs !! k) → is_Some (vs' !! k)) → x ≤ x' → run_ok vs' x' r.
Proof.
  intros [] Hvs Hx. split; [done|done| |eauto|done].
  intros g s t Hs. destruct (run_settling0 g s t Hs) as (?&?&?). split_and!; [done|lia|lia].
Qed.

(** Unit [i] has moved forward from run [r], with fewer rounds left at [x] than at [c]. *)
Definition moved (c x : N) (i : nat) (r : UnitRun) (e e' : Engine) : Prop :=
  ∃ r' vs n, e' = put i r' (set_split n (set_vars vs e)) ∧
  (∀ k, is_Some (vars e !! k) → is_Some (vs !! k)) ∧
  unit_of r' = unit_of r ∧ run_ok vs x r' ∧ left x r' < left c r ∧
  is_pending (state r') = false ∧ state r' ≠ Skipped.

Lemma put_lookup i r r' e : runs_ e !! i = Some r → runs_ (put i r' e) !! i = Some r'.
Proof. intros Hr. apply list_lookup_insert_eq. by eapply lookup_lt_Some. Qed.

Lemma put_put i r r' e : put i r' (put i r e) = put i r' e.
Proof. unfold put. destruct e. cbn. unfold set_runs. cbn. by rewrite list_insert_insert_eq. Qed.

Lemma set_vars_put i r vs e : set_vars vs (put i r e) = put i r (set_vars vs e).
Proof. done. Qed.

Lemma set_id e : set_split (split_count e) (set_vars (vars e) e) = e.
Proof. by destruct e. Qed.

(** *** Steps *)

Section steps.
Context {E : Type} (X : E → Engine → W → Prop).

Lemma wp_transition i next r e w (Q : () → Engine → W → Prop) :
  runs_ e !! i = Some r →
  (∀ f w', clock w ≤ clock w' → Q () (put i (set_state next (set_finished f r)) e) w') →
  wp (transition i next) e w Q X.
Proof.
  intros Hr HQ. unfold transition. apply wp_bind. destruct (is_terminal next).
  - apply wp_bind, wp_ask; [apply now_forward|]. intros Hw. eapply wp_update; [done|].
  eapply wp_update; [by eapply put_lookup|]. rewrite put_put. by apply HQ.
  - apply wp_ret. eapply wp_update; [done|]. specialize (HQ (finished r) w).
  by destruct r; apply HQ.
Qed.

Lemma wp_fail i er timeout r e w (Q : () → Engine → W → Prop) :
  runs_ e !! i = Some r →
  (∀ f w', clock w ≤ clock w' →
  Q () (put i (set_state (Failed timeout) (set_finished f (set_error (Some er) r))) e) w') →
  wp (fail i er timeout) e w Q X.
Proof.
  intros Hr HQ. apply wp_bind. eapply wp_update; [done|].
  eapply wp_transition; [by eapply put_lookup|]. intros f w' Hw. rewrite put_put. by apply HQ.
Qed.

Lemma wp_barrier_or_ready i baseline r e w (Q : State → Engine → W → Prop) :
  runs_ e !! i = Some r → unit_good (unit_of r) →
  (∀ next w', clock w ≤ clock w' →
  match unit_ready (unit_of r) with
  | Some (p, t) => ∃ u re, next = Polling (u + t * 1000) re baseline ∧ clock w ≤ u ≤ clock w'
  | None => next = Ready
  end → Q next e w') →
  wp (barrier_or_ready i baseline) e w Q X.
Proof.
  intros Hr Hgood HQ. apply wp_bind. eapply wp_get_run; [done|].
  destruct (unit_ready (unit_of r)) as [[p t]|] eqn:Hu; [|by apply wp_ret, HQ].
  destruct (good_ready _ Hgood p t Hu) as [[re Hre] Ht].
  pose proof (now_clock w) as Hnow.
  apply wp_bind, wp_ask; [apply now_forward|]. intros Hw.
  apply wp_bind. eapply wp_unwrap; [apply later_some; unfold TICK in *; lia|].
  apply wp_bind. eapply wp_unwrap; [done|]. apply wp_ret, HQ; [done|]. eauto.
Qed.
End steps.

(** *** The states a unit moves to *)

Lemma moved_terminal c x i r r' vs n e :
  is_terminal (state r) = false → is_terminal (state r') = true → state r' ≠ Skipped →
  (∀ k, is_Some (vars e !! k) → is_Some (vs !! k)) → unit_of r' = unit_of r →
  (∀ key lines, state r' = Ready → unit_capture (unit_of r) = Some (key, lines) → is_Some (vs !! key)) →
  (F → ∀ v, error r' ≠ Some (UndefinedVariable v)) →
  moved c x i r e (put i r' (set_split n (set_vars vs e))).
Proof.
  intros Hr Hr' Hs Hvs Hu Hcap Herr. exists r', vs, n. split_and!; try done.
  - split; try done.
  + by destruct (state r').
  + intros d re b Hst. by rewrite Hst in Hr'.
  + intros g s t Hst. by rewrite Hst in Hr'.
  + rewrite Hu. done.
  - rewrite left_terminal by done. by apply left_pos.
  - by destruct (state r').
Qed.

Lemma moved_failed c x i r f er timeout e n :
  is_terminal (state r) = false → (F → ∀ v, er ≠ UndefinedVariable v) →
  moved c x i r e (put i (set_state (Failed timeout) (set_finished f (set_error (Some er) r)))
                   (set_split n e)).
Proof.
  intros Hr Her. replace (set_split n e) with (set_split n (set_vars (vars e) e)) by by destruct e.
  apply moved_terminal; try done. intros HF v [= ->]. by apply (Her HF v).
Qed.

(** The state after a delivery: a unit waits for its pattern, or it is ready. *)
Lemma next_ok x r0 next baseline vs (t0 : N) :
  unit_good (unit_of r0) → is_Some (surface_id r0) → (F → ∀ v, error r0 ≠ Some (UndefinedVariable v)) →
  match unit_ready (unit_of r0) with
  | Some (p, t) => ∃ u re, next = Polling (u + t * 1000) re baseline ∧ t0 ≤ u ≤ x
  | None => next = Ready
  end →
  run_ok vs x (set_state next r0) ∧ left x (set_state next r0) ≤ budget (unit_of r0) ∧
  is_pending next = false ∧ next ≠ Skipped.
Proof.
  intros Hgood Hsurf Herr Hnext. unfold budget.
  destruct (unit_ready (unit_of r0)) as [[p t]|] eqn:Hready.
  - destruct Hnext as (u&re&->&Hut). split_and!; try done.
  unfold left. simpl.
  assert ((u + t * 1000 - x + 499) / TICK ≤ (t * 1000 + 499) / TICK).
  { apply N.Div0.div_le_mono. lia. }
  assert ((t * 1000 + 499) / TICK < 2 * t + 1).
  { apply N.Div0.div_lt_upper_bound. unfold TICK. lia. }
  lia.
  - subst. split_and!; try done. split; try done. simpl. intros key lines _ Hc.
  destruct (good_capture _ Hgood) as [? Hsome]; [by rewrite Hc|]. congruence.
Qed.

Lemma moved_next c x i r f next baseline e (t0 : N) :
  unit_good (unit_of r) → budget (unit_of r) < left c r → is_Some (surface_id r) →
  (F → ∀ v, error r ≠ Some (UndefinedVariable v)) →
  match unit_ready (unit_of r) with
  | Some (p, t) => ∃ u re, next = Polling (u + t * 1000) re baseline ∧ t0 ≤ u ≤ x
  | None => next = Ready
  end →
  moved c x i r e (put i (set_state next (set_finished f r)) e).
Proof.
  intros Hgood Hb Hsurf Herr Hnext.
  destruct (next_ok x (set_finished f r) next baseline (vars e) t0) as (Hok&Hl&Hp&Hs); try done.
  exists (set_state next (set_finished f r)), (vars e), (split_count e). rewrite set_id.
  split_and!; try done. simpl in *. lia.
Qed.

(** ** Feeding a text *)

(** Every variable that a text names has been captured. *)
Definition feeds (vs : gmap str str) (raw : str) : Prop :=
  ∃ ts, extract_tokens raw = Some ts ∧ ∀ t, t ∈ ts → is_Some (vs !! t).

Lemma feeds_substitute vs raw : feeds vs raw → ∃ out, substitute_vars raw vs = inr out.
Proof.
  intros (ts&Hts&Hall). unfold substitute_vars. rewrite Hts.
  assert (∀ out, ∃ out', substitute_tokens ts vs out = inr out') as Hsub.
  { clear Hts. induction ts as [|t ts IH]; intros out; simpl; [by eexists|].
  destruct (Hall t) as [v ->]; [by left|]. apply IH. intros t' Ht'. apply Hall. by right. }
  destruct (Hsub raw) as [out ->]. by eexists.
Qed.

(** What a call on unit [i] ends with: it has moved, or the error left the engine as it was. *)
Definition moves (c : N) (i : nat) (r : UnitRun) (e : Engine) (w : W) : () → Engine → W → Prop :=
  λ _ e' w', clock w ≤ clock w' ∧ moved c (clock w' + TICK) i r e e'.
Definition unchanged {E} (e : Engine) : E → Engine → W → Prop := λ _ e' _, e' = e.

Section feed.
Context (c : N) (i : nat) (r : UnitRun) (e : Engine).
Context (Hr : runs_ e !! i = Some r) (Hgood : unit_good (unit_of r)).
Context (Hflight : in_flight (state r) = true).
Context (Herr : F → ∀ v, error r ≠ Some (UndefinedVariable v)).

Lemma in_flight_running : is_terminal (state r) = false.
Proof. by destruct (state r). Qed.
#[local] Hint Resolve in_flight_running : core.

Lemma moves_failed w w' f er timeout :
  clock w ≤ clock w' → (F → ∀ v, er ≠ UndefinedVariable v) →
  moves c i r e w () (put i (set_state (Failed timeout) (set_finished f (set_error (Some er) r))) e) w'.
Proof.
  intros Hw Her. split; [done|].
  replace e with (set_split (split_count e) e) at 2 by by destruct e. by apply moved_failed.
Qed.

Lemma wp_fails {E} w0 w er timeout (X : E → Engine → W → Prop) :
  clock w0 ≤ clock w → (F → ∀ v, er ≠ UndefinedVariable v) →
  wp (fail i er timeout) e w (moves c i r e w0) X.
Proof. intros Hw Her. eapply wp_fail; [done|]. intros f w' Hw'. apply moves_failed; [lia|done]. Qed.

Lemma deliver_moves w0 w baseline :
  budget (unit_of r) < left c r → is_Some (surface_id r) → clock w0 ≤ clock w →
  wp (next ← barrier_or_ready i baseline; transition i next : M Message ()) e w
  (moves c i r e w0) (unchanged e).
Proof.
  intros Hbudget Hsurf Hw. apply wp_bind. eapply wp_barrier_or_ready; [done|done|].
  intros next w1 Hw1 Hnext. eapply wp_transition; [done|]. intros f w2 Hw2. split; [lia|].
  apply moved_next with (baseline := baseline) (t0 := clock w); auto.
  destruct (unit_ready (unit_of r)) as [[p t]|]; [|done].
  destruct Hnext as (u&re&->&Hu). exists u, re. split; [done|]. lia.
Qed.

Lemma fire_feed_moves w0 w :
  budget (unit_of r) < left c r → is_Some (surface_id r) → clock w0 ≤ clock w →
  (F → feeds (vars e) (raw_text (unit_of r))) →
  wp (fire_feed i) e w (moves c i r e w0) (unchanged e).
Proof.
  intros Hbudget [sid Hsurf] Hw Hfeeds. unfold fire_feed.
  apply wp_bind, wp_get, wp_bind. eapply wp_get_run; [done|].
  destruct (substitute_vars (raw_text (unit_of r)) (vars e)) as [v|text] eqn:Hsub.
  { apply wp_fails; [done|]. intros HF v'. destruct (feeds_substitute _ _ (Hfeeds HF)). congruence. }
  apply wp_bind. eapply wp_unwrap; [done|].
  apply wp_bind, wp_ask; [apply read_baseline_forward|]. intros Hw1.
  apply wp_bind, wp_check; [|done]. intros baseline _.
  destruct baseline as [snapshot|]; [|by apply wp_fails; [lia|]].
  apply wp_bind. set (after := λ before e1 w1, wp _ e1 w1 (moves c i r e w0) (unchanged e)).
  assert (∀ before w1, clock w0 ≤ clock w1 → after before e w1) as Hafter.
  { intros before w1 Hw1'. unfold after. apply wp_bind, wp_ask; [intros ?; apply call_clock|].
  intros Hw2. destruct (call _ _ w1).1 as [ex|result].
  { by destruct (is_send_text_disabled_error ex). }
  unfold after_feed. destruct (error_of result); [by apply wp_fails; [lia|]|].
  destruct (should_wait_for_submit_start result); [|by apply deliver_moves; [|eexists|lia]].
  apply wp_bind, wp_ask; [intros ?; apply confirm_turn_start_clock|]. intros Hw3.
  case_bool_decide; [by apply wp_fails; [lia|]|]. by apply deliver_moves; [|eexists|lia]. }
  destruct (submit (unit_of r)).
  - apply wp_ask; [apply status_of_forward|]. intros Hw2. apply Hafter. lia.
  - apply wp_ret, Hafter. lia.
Qed.
End feed.

(** ** A round over one unit *)

Section unit.
Context (c : N) (i : nat) (r : UnitRun) (e : Engine) (w : W).
Context (Hr : runs_ e !! i = Some r) (Hgood : unit_good (unit_of r)).
Context (Hrun : run_ok (vars e) c r) (Hc : c ≤ clock w).

(** The unit stays in flight, with another state. *)
Lemma moves_stays w' r' :
  clock w ≤ clock w' → unit_of r' = unit_of r → in_flight (state r') = true →
  run_ok (vars e) (clock w' + TICK) r' → left (clock w' + TICK) r' < left c r →
  moves c i r e w () (put i r' e) w'.
Proof.
  intros Hw Hu Hf Hok Hl. split; [done|]. exists r', (vars e), (split_count e).
  rewrite set_id. split_and!; try done; by destruct (state r').
Qed.

Lemma moves_same w' :
  clock w ≤ clock w' → in_flight (state r) = true → left (clock w' + TICK) r < left c r →
  moves c i r e w () e w'.
Proof.
  intros Hw Hf Hl. replace e with (put i r e) at 2.
  - apply moves_stays; try done. eapply run_ok_mono; [done|done|lia].
  - unfold put. rewrite list_insert_id by done. by destruct e.
Qed.

Lemma left_settling_stays w' g s t g' s' since :
  state r = Settling g s t → t ≤ c → c - t < SETTLE_MAX → clock w ≤ clock w' → since = t →
  left (clock w' + TICK) (set_state (Settling g' s' since) r) < left c r.
Proof.
  intros Hs Ht Hm Hw ->. unfold left. rewrite Hs. simpl. unfold SETTLE_MAX in Hm.
  assert ((c - t) / TICK + 1 ≤ (clock w' + TICK - t) / TICK).
  { replace ((c - t) / TICK + 1) with ((c - t + 1 * TICK) / TICK) by (by rewrite N.div_add).
  apply N.Div0.div_le_mono. unfold TICK. lia. }
  assert ((c - t) / TICK < 16) by (apply N.Div0.div_lt_upper_bound; unfold TICK; lia). lia.
Qed.

Lemma settle_moves g s t :
  state r = Settling g s t → (F → feeds (vars e) (raw_text (unit_of r))) →
  wp (settle i g s t) e w (moves c i r e w) (unchanged e).
Proof.
  intros Hs Hfeeds. destruct (run_settling _ _ _ Hrun g s t Hs) as (_&Ht&Hst).
  assert (in_flight (state r) = true) as Hf by by rewrite Hs.
  pose proof (run_error _ _ _ Hrun) as Herr.
  destruct (run_surface _ _ _ Hrun Hf) as [sid Hsid].
  assert (budget (unit_of r) < left c r) as Hb.
  { unfold left. rewrite Hs. lia. }
  apply wp_bind. eapply wp_get_run; [done|]. apply wp_bind. eapply wp_unwrap; [done|].
  pose proof (now_clock w) as Hnow. apply wp_bind, wp_ask; [apply now_forward|]. intros Hw1.
  cbv beta zeta. destruct (N.leb_spec SETTLE_MAX ((now w).1 - t)) as [Hmax|Hmax].
  { by apply fire_feed_moves; [..|eexists| |]. }
  apply wp_bind, wp_bind, wp_ask; [apply read_surface_forward|]. intros Hw2.
  apply wp_check; [|done]. intros read _. destruct read as [snapshot| |].
  - apply wp_bind. set (stable := if bool_decide (g = output_generation snapshot) then s + 1 else 0).
  assert (s < 16) as Hs16.
  { unfold SETTLE_MAX, TICK in *. lia. }
  assert (stable * TICK ≤ c + TICK - t ∧ stable < 2 ^ 8) as [Hstable H8].
  { unfold stable, TICK in *. case_bool_decide; lia. }
  assert (∀ Q : N → Engine → W → Prop, ∀ w', Q stable e w' →
  wp (if bool_decide (g = output_generation snapshot)
      then unwrap (checked_u8 (s + 1)) else mret 0) e w' Q (unchanged (E:=Message) e)) as Hcase.
  { intros Q w' HQ. unfold stable in *. case_bool_decide; [|by apply wp_ret].
  eapply wp_unwrap; [|exact HQ]. unfold checked_u8. by rewrite (proj2 (N.ltb_lt _ _) H8). }
  apply Hcase. destruct (settle_fire _ stable).
  + apply fire_feed_moves; try done; first [by eexists|lia].
  + eapply wp_update; [done|]. apply moves_stays; [lia|done|done| |].
  * split; try done.
    intros g' s' t' He. injection He as _ <- <-.
    destruct (run_settling _ _ _ Hrun g s t Hs) as (?&_&_). split_and!; [done|lia|lia].
  * eapply left_settling_stays; try done; [lia|lia].
  - apply wp_fails; first [done|lia].
  - apply wp_ret, moves_same; [lia|done|].
  replace r with (set_state (Settling g s t) r) at 1 by (destruct r; simpl in *; by subst).
  eapply left_settling_stays; try done; lia.
Qed.

Lemma unless_late_moves w1 d re b :
  state r = Polling d re b → clock w ≤ clock w1 →
  wp (unless_late i d) e w1 (moves c i r e w) (unchanged e).
Proof.
  intros Hs Hw. assert (in_flight (state r) = true) as Hf by by rewrite Hs.
  pose proof (run_error _ _ _ Hrun) as Herr. pose proof (now_clock w1) as Hnow.
  apply wp_bind, wp_ask; [apply now_forward|]. intros Hw1. destruct (N.leb_spec d (now w1).1) as [Hd|Hd].
  - apply wp_bind. eapply wp_get_run; [done|].
  destruct (run_polling _ _ _ Hrun d re b Hs) as [[p t] Hp].
  apply wp_bind. eapply wp_unwrap; [done|]. apply wp_fails; first [done|lia].
  - apply wp_ret, moves_same; [lia|done|]. unfold left. rewrite Hs.
  assert (∀ a b, a + 1 ≤ b → a + 1 < b + 1) as Hlt by lia. apply Hlt.
  destruct (N.le_gt_cases d (clock (now w1).2 + TICK)) as [Hle|Hgt].
  + rewrite (proj2 (N.sub_0_le _ _) Hle). change ((0 + 499) / TICK + 1) with (TICK / TICK).
  apply N.Div0.div_le_mono. unfold TICK. lia.
  + replace (_ / TICK + 1) with ((d - (clock (now w1).2 + TICK) + 499 + 1 * TICK) / TICK)
    by (by rewrite N.div_add).
  apply N.Div0.div_le_mono. unfold TICK in *. lia.
Qed.

Lemma matched_moves w1 text d re b :
  state r = Polling d re b → clock w ≤ clock w1 →
  wp (matched i text) e w1 (moves c i r e w) (unchanged e).
Proof.
  intros Hs Hw. pose proof (run_error _ _ _ Hrun) as Herr.
  assert (is_terminal (state r) = false) as Hrunning by by rewrite Hs.
  apply wp_bind. eapply wp_get_run; [done|]. apply wp_bind.
  destruct (unit_capture (unit_of r)) as [[key lines]|] eqn:Hcap.
  - apply wp_modify. eapply wp_transition; [done|]. intros f w2 Hw2. split; [lia|].
  replace (set_vars _ e) with (set_split (split_count e) (set_vars (<[key:=last_lines text lines]> (vars e)) e))
  by by destruct e.
  apply moved_terminal; try done.
  + intros k Hk. destruct (decide (k = key)) as [->|]; [by rewrite lookup_insert_eq|].
  by rewrite lookup_insert_ne.
  + intros k n _. rewrite Hcap. intros [= <- <-]. by rewrite lookup_insert_eq.
  - apply wp_ret. eapply wp_transition; [done|]. intros f w2 Hw2. split; [lia|].
  rewrite <- (set_id e) at 2. apply moved_terminal; try done. intros k n _. by rewrite Hcap.
Qed.

Lemma poll_moves d re b :
  state r = Polling d re b → wp (poll i d re b) e w (moves c i r e w) (unchanged e).
Proof.
  intros Hs. assert (in_flight (state r) = true) as Hf by by rewrite Hs.
  pose proof (run_error _ _ _ Hrun) as Herr.
  destruct (run_surface _ _ _ Hrun Hf) as [sid Hsid].
  apply wp_bind. eapply wp_get_run; [done|]. apply wp_bind. eapply wp_unwrap; [done|].
  apply wp_bind, wp_bind, wp_ask; [apply read_surface_forward|]. intros Hw1.
  apply wp_check; [|done]. intros read _. destruct read as [snapshot| |].
  - apply wp_bind.
  assert (∀ Q : str → Engine → W → Prop, ∀ w', (∀ t, Q t e w') →
  wp (match b with
      | Some base => t ← unwrap (text_after_baseline base snapshot); mret (default [] t)
      | None => mret (text snapshot)
      end) e w' Q (unchanged (E:=Message) e)) as Hcase.
  { intros Q w' HQ. destruct b as [base|]; [|by apply wp_ret].
  destruct (text_after_baseline_total base snapshot) as [t Ht].
  apply wp_bind. eapply wp_unwrap; [done|]. by apply wp_ret. }
  apply Hcase. intros text. destruct (is_match re text).
  + eapply matched_moves; [done|lia].
  + eapply unless_late_moves; [done|lia].
  - apply wp_fails; first [done|lia].
  - eapply unless_late_moves; [done|lia].
Qed.

Lemma progress_unit_moves :
  in_flight (state r) = true →
  (needs_settle (unit_of r) = true → F → feeds (vars e) (raw_text (unit_of r))) →
  wp (progress_unit i) e w (moves c i r e w) (unchanged e).
Proof.
  intros Hf Hfeeds. apply wp_bind. eapply wp_get_run; [done|].
  destruct (state r) as [|g s t|d re b| | |] eqn:Hs; try done.
  - apply settle_moves; [done|]. by apply Hfeeds, (run_settling _ _ _ Hrun g s t).
  - by apply poll_moves.
Qed.
End unit.

(** ** All units *)

(** Unit states only go forward: what is final stays, what is captured stays. *)
Record grows (e e' : Engine) : Prop := {
  grows_policy : engine_on_failure e' = engine_on_failure e;
  grows_runs j r : runs_ e !! j = Some r → ∃ r', runs_ e' !! j = Some r' ∧
  unit_of r' = unit_of r ∧ (is_terminal (state r) = true → r' = r);
  grows_length : length (runs_ e') = length (runs_ e);
  grows_vars k : is_Some (vars e !! k) → is_Some (vars e' !! k) }.

#[local] Instance grows_preorder : PreOrder grows.
Proof.
  split.
  - intros e. split; try done. intros j r Hr. eauto.
  - intros e1 e2 e3 [Hp1 Hr1 Hl1 Hv1] [Hp2 Hr2 Hl2 Hv2]. split; [congruence| |congruence|auto].
  intros j r Hr. destruct (Hr1 j r Hr) as (r'&Hr'&Hu&Hf). destruct (Hr2 j r' Hr') as (r''&?&Hu'&Hf').
  exists r''. split_and!; [done|congruence|]. intros Ht. rewrite <- (Hf Ht). apply Hf'. by rewrite (Hf Ht).
Qed.

(** Every unit of the groups that a unit needs is ready. *)
Definition deps_ready (e : Engine) (r : UnitRun) : Prop :=
  ∀ n r', n ∈ unit_needs (unit_of r) → r' ∈ runs_ e → group (unit_of r') = n → state r' = Ready.

Definition is_dead (s : State) : bool := match s with Failed _ | Skipped => true | _ => false end.

(** Why a unit was skipped: it needs a dead one, or a unit failed and the flow fails fast. *)
Definition explained (e : Engine) (r : UnitRun) : Prop :=
  (∃ n r', n ∈ unit_needs (unit_of r) ∧ r' ∈ runs_ e ∧ group (unit_of r') = n ∧
   is_dead (state r') = true) ∨ stops e = true.

Lemma grows_back e e' j r' :
  grows e e' → runs_ e' !! j = Some r' →
  ∃ r, runs_ e !! j = Some r ∧ unit_of r' = unit_of r ∧ (is_terminal (state r) = true → r' = r).
Proof.
  intros Hg Hr'. destruct (lookup_lt_is_Some_2 (runs_ e) j) as [r Hr].
  { rewrite <- (grows_length _ _ Hg). by eapply lookup_lt_Some. }
  exists r. split; [done|]. destruct (grows_runs _ _ Hg j r Hr) as (r''&Hr''&?). by simplify_eq.
Qed.

Lemma deps_ready_grows e e' r r' :
  grows e e' → unit_of r' = unit_of r → deps_ready e r → deps_ready e' r'.
Proof.
  intros Hg Hu Hd n r1 Hn [j Hj]%list_elem_of_lookup Hgr. rewrite Hu in Hn.
  destruct (grows_back _ _ _ _ Hg Hj) as (r0&Hr0&Hu0&Hf).
  assert (state r0 = Ready) as Hready.
  { apply (Hd n); [done|by eapply list_elem_of_lookup_2|by rewrite <- Hu0]. }
  rewrite Hf; [done|by rewrite Hready].
Qed.

Lemma any_failed_true e : any_failed e = true ↔ ∃ j r, runs_ e !! j = Some r ∧ is_failed (state r) = true.
Proof.
  unfold any_failed. rewrite existsb_exists. setoid_rewrite <- list_elem_of_In.
  setoid_rewrite list_elem_of_lookup. naive_solver.
Qed.

Lemma stops_grows e e' : grows e e' → stops e = true → stops e' = true.
Proof.
  intros Hg. unfold stops. rewrite (grows_policy _ _ Hg). destruct (engine_on_failure e); [|done].
  rewrite !any_failed_true. intros (j&r&Hr&Hf). destruct (grows_runs _ _ Hg j r Hr) as (r'&Hr'&_&Hk).
  exists j, r'. split; [done|]. rewrite Hk; [done|by destruct (state r)].
Qed.

Lemma explained_grows e e' r r' :
  grows e e' → unit_of r' = unit_of r → explained e r → explained e' r'.
Proof.
  intros Hg Hu [(n&r1&Hn&Hr1&Hgr&Hd)|Hs]; [left|right; by eapply stops_grows].
  apply list_elem_of_lookup in Hr1 as [j Hj].
  destruct (grows_runs _ _ Hg j r1 Hj) as (r2&Hr2&_&Hk). exists n, r1. rewrite Hu.
  rewrite <- (Hk ltac:(by destruct (state r1))). split_and!; try done.
  - by eapply list_elem_of_lookup_2.
  - by rewrite (Hk ltac:(by destruct (state r1))).
  - by rewrite (Hk ltac:(by destruct (state r1))).
Qed.

Section flow.
Context (us : list Unit) (Hus : units_ok us).
Context (Hgood : ∀ u, u ∈ us → unit_good u).
Context (Hvars : F → ∀ u, u ∈ us → needs_settle u = true →
  ∃ ts, extract_tokens (raw_text u) = Some ts ∧ ∀ t, t ∈ ts →
  ∃ u' lines, u' ∈ us ∧ unit_capture u' = Some (t, lines) ∧
  tc (needs_group us) (group u) (group u')).

(** A unit that has started. *)
Definition has_started (s : State) : bool := match s with Pending | Skipped => false | _ => true end.

Record inv (x : N) (e : Engine) : Prop := {
  inv_units : unit_of <$> runs_ e = us;
  inv_runs i r : runs_ e !! i = Some r → run_ok (vars e) x r;
  inv_deps i r : runs_ e !! i = Some r → has_started (state r) = true → deps_ready e r;
  inv_skipped i r : runs_ e !! i = Some r → state r = Skipped → explained e r }.

Lemma inv_mono x x' e : inv x e → x ≤ x' → inv x' e.
Proof. intros [] Hx. split; try done. intros i r Hr. by eapply run_ok_mono; [eauto|..]. Qed.

Lemma inv_unit x e i r : inv x e → runs_ e !! i = Some r → unit_of r ∈ us.
Proof.
  intros Hi Hr. rewrite <- (inv_units _ _ Hi). apply list_elem_of_fmap_2. by eapply list_elem_of_lookup_2.
Qed.

Lemma inv_run_of x e u : inv x e → u ∈ us → ∃ j r, runs_ e !! j = Some r ∧ unit_of r = u.
Proof.
  intros Hi Hu. rewrite <- (inv_units _ _ Hi) in Hu. apply list_elem_of_fmap in Hu as (r&->&Hr).
  apply list_elem_of_lookup in Hr as [j Hj]. eauto.
Qed.

(** The run of a unit that is not final may change. *)
Lemma inv_put x i r r' vs n e :
  inv x e → runs_ e !! i = Some r → is_terminal (state r) = false →
  (∀ k, is_Some (vars e !! k) → is_Some (vs !! k)) → unit_of r' = unit_of r → run_ok vs x r' →
  (has_started (state r') = true → deps_ready e r) → (state r' = Skipped → explained e r) →
  grows e (put i r' (set_split n (set_vars vs e))) ∧ inv x (put i r' (set_split n (set_vars vs e))).
Proof.
  intros Hi Hr Hn Hvs Hu Hok Hd Hs. set (e' := put i r' (set_split n (set_vars vs e))).
  assert (∀ j r1, runs_ e' !! j = Some r1 → (j = i ∧ r1 = r') ∨ (j ≠ i ∧ runs_ e !! j = Some r1)) as Hcase.
  { intros j r1 Hj. destruct (decide (j = i)) as [->|Hne].
  - unfold e' in Hj. erewrite put_lookup in Hj by exact Hr. injection Hj as <-. by left.
  - cbn in Hj. rewrite list_lookup_insert_ne in Hj by done. by right. }
  assert (grows e e') as Hg.
  { split; simpl; [done| |by rewrite length_insert|done].
  intros j r0 Hj. destruct (decide (j = i)) as [->|Hne].
  - simplify_eq. exists r'. split_and!; [by eapply put_lookup|done|congruence].
  - exists r0. by rewrite list_lookup_insert_ne. }
  split; [done|]. split.
  - cbn. rewrite list_fmap_insert, Hu, list_insert_id; [apply (inv_units _ _ Hi)|].
  by rewrite list_lookup_fmap, Hr.
  - intros j r1 [[-> ->]|[_ Hj]]%Hcase; [done|].
  by eapply run_ok_mono; [apply (inv_runs _ _ Hi _ _ Hj)|..].
  - intros j r1 [[-> ->]|[_ Hj]]%Hcase Hst; [by eapply deps_ready_grows; [..|apply Hd]|].
  eapply deps_ready_grows; [done|done|]. by eapply (inv_deps _ _ Hi).
  - intros j r1 [[-> ->]|[_ Hj]]%Hcase Hst; [by eapply explained_grows; [..|apply Hs]|].
  eapply explained_grows; [done|done|]. by eapply (inv_skipped _ _ Hi).
Qed.

Lemma inv_moved c x i r e e' :
  inv x e → runs_ e !! i = Some r → is_terminal (state r) = false → deps_ready e r →
  moved c x i r e e' → grows e e' ∧ inv x e'.
Proof. intros Hi Hr Hn Hd (r'&vs&n&->&Hvs&Hu&Hok&_&Hp&Hs). by eapply inv_put. Qed.

(** What a unit needs, however indirectly, is ready once the unit may start. *)
Lemma ready_below x e a g :
  inv x e → tc (needs_group us) a g →
  ∀ r, unit_of r ∈ us → group (unit_of r) = a → deps_ready e r →
  ∀ j r', runs_ e !! j = Some r' → group (unit_of r') = g → state r' = Ready.
Proof.
  intros Hi. induction 1 as [a g (u&Hu&Ha&Hn)|a b g (u&Hu&Ha&Hn) _ IH]; intros r Hr Hra Hd j r' Hj Hg'.
  - apply (Hd g); [|by eapply list_elem_of_lookup_2|done].
  by rewrite (units_group _ Hus (unit_of r) u) by congruence.
  - destruct (units_needs _ Hus u b Hu Hn) as (ub&Hub&Hgb).
  destruct (inv_run_of _ _ _ Hi Hub) as (k&rb&Hk&Hrb).
  assert (state rb = Ready) as Hready.
  { apply (Hd b); [|by eapply list_elem_of_lookup_2|congruence].
  by rewrite (units_group _ Hus (unit_of r) u) by congruence. }
  apply (IH rb) with (j := j); [congruence|congruence| |done|done].
  eapply (inv_deps _ _ Hi); [done|]. by rewrite Hready.
Qed.

Lemma inv_feeds x e i r :
  inv x e → runs_ e !! i = Some r → deps_ready e r → needs_settle (unit_of r) = true → F →
  feeds (vars e) (raw_text (unit_of r)).
Proof.
  intros Hi Hr Hd Hs HF. pose proof (inv_unit _ _ _ _ Hi Hr) as Hu.
  destruct (Hvars HF _ Hu Hs) as (ts&Hts&Hall). exists ts. split; [done|]. intros t Ht.
  destruct (Hall t Ht) as (u'&lines&Hu'&Hcap&Htc).
  destruct (inv_run_of _ _ _ Hi Hu') as (j&r'&Hj&<-).
  apply (run_captured _ _ _ (inv_runs _ _ Hi j r' Hj) t lines); [|done].
  by eapply (ready_below _ _ _ _ Hi Htc r).
Qed.
End flow.
End runs.
End engine.
