(* ===== verification/FlowRun.v ===== *)
(** * Rounds and runs

    A round moves every unit in flight forward and starts or skips the units whose needs are
    final.  The needs have no cycle, so that a round always takes a flow closer to its end.
    What a run that ended, and its report, say of the steps. *)

From stdpp Require Import gmap list strings relations well_founded.
From S2P Require Import Prelude DiffText AgentActivity FlowSpec FlowEngine FlowSpecCorrect FlowPlan FlowEngineCorrect.

Local Open Scope N_scope.
#[local] Existing Instances m_ret m_bind grows_preorder.

Section flow.
Context {R : Regexes} {W : Type} {C : Client W} {L : ClockLaws W}.
Context (F : Prop) (us : list Unit) (Hus : units_ok us).
Context (Hgood : ∀ u, u ∈ us → unit_good u).
Context (Hvars : F → ∀ u, u ∈ us → needs_settle u = true →
  ∃ ts, extract_tokens (raw_text u) = Some ts ∧ ∀ t, t ∈ ts →
    ∃ u' lines, u' ∈ us ∧ unit_capture u' = Some (t, lines) ∧
      tc (needs_group us) (group u) (group u')).
Local Notation inv := (inv F us).

(** An error leaves a flow that keeps its invariant. *)
Definition aborts {E} (e : Engine) : E → Engine → W → Prop := λ _ e' _, ∃ x, inv x e' ∧ grows e e'.

Lemma wp_mono {E A} (m : M E A) e w (Q Q' : A → Engine → W → Prop) (X X' : E → Engine → W → Prop) :
  wp m e w Q X → (∀ a e w, Q a e w → Q' a e w) → (∀ x e w, X x e w → X' x e w) → wp m e w Q' X'.
Proof. unfold wp. destruct (m (e, w)) as [[[x|a] [e' w']]|]; auto. Qed.

(** ** Progress *)

(** Unit [j] after a round from time [c] over the units [idxs]. *)
Definition round_unit (c x : N) (idxs : list nat) (e' : Engine) (j : nat) (r r' : UnitRun) : Prop :=
  left x r' ≤ left c r ∧ (j ∉ idxs ∨ in_flight (state r) = false → r' = r) ∧
  (j ∈ idxs → in_flight (state r) = true → stops e' = false → left x r' < left c r) ∧
  (in_flight (state r) = true → is_pending (state r') = false).

Definition round_over (c x : N) (idxs : list nat) (e e' : Engine) : Prop :=
  ∀ j r, runs_ e !! j = Some r → ∃ r', runs_ e' !! j = Some r' ∧ round_unit c x idxs e' j r r'.

Lemma round_over_refl c x idxs e :
  c ≤ x → (stops e = true ∨ ∀ j r, j ∈ idxs → runs_ e !! j = Some r → in_flight (state r) = false) →
  round_over c x idxs e e.
Proof.
  intros Hc Hidxs j r Hr. exists r. split; [done|]. split_and!; [by apply left_mono|done| |by destruct (state r)].
  intros Hj Hf Hs. destruct Hidxs as [Hst|Hn]; [congruence|]. by rewrite (Hn j r Hj Hr) in Hf.
Qed.

(** One unit, then the others. *)
Lemma round_over_cons c x x' i idxs r e e1 e' :
  i ∉ idxs → c ≤ x → x ≤ x' → runs_ e !! i = Some r → (in_flight (state r) = true → moved F c x i r e e1) →
  (in_flight (state r) = false → e1 = e) → round_over c x' idxs e1 e' → round_over c x' (i :: idxs) e e'.
Proof.
  intros Hi Hcx Hx Hr Hm Hsame Hover. destruct (in_flight (state r)) eqn:Hf.
  2: { rewrite Hsame in Hover by done. intros j r0 Hj. destruct (Hover j r0 Hj) as (r'&Hr'&Hl&Hk&Hs&Hp).
       exists r'. split; [done|]. split_and!; [done| | |done].
       - rewrite not_elem_of_cons. intros H. apply Hk. tauto.
       - intros [->|Hin]%elem_of_cons; [|by apply Hs]. simplify_eq. intros. congruence. }
  destruct (Hm eq_refl) as (r1&vs&n&->&Hvs&Hu&Hok&Hl1&Hp1&Hs1). clear Hm Hsame.
  intros j r0 Hj. destruct (decide (j = i)) as [->|Hne].
  - simplify_eq. destruct (Hover i r1) as (r'&Hr'&Hl&Hk&_&_); [by eapply put_lookup|].
    exists r'. split; [done|]. rewrite (Hk (or_introl Hi)) in *.
    pose proof (left_mono x x' r1 Hx). split_and!; [lia| |intros; lia|done].
    intros [Hn|?]; [|congruence]. exfalso. apply Hn. by left.
  - destruct (Hover j r0) as (r'&Hr'&Hl&Hk&Hs&Hp); [cbn; by rewrite list_lookup_insert_ne|].
    exists r'. split; [done|]. split_and!; [done| | |done].
    + rewrite not_elem_of_cons. intros H. apply Hk. tauto.
    + intros [->|Hin]%elem_of_cons; [done|by apply Hs].
Qed.

Lemma progress_from_spec c idxs e w :
  inv (clock w + TICK) e → c ≤ clock w → NoDup idxs →
  (∀ j, j ∈ idxs → ∃ r, runs_ e !! j = Some r ∧ run_ok F (vars e) c r) →
  wp (progress_from idxs) e w
    (λ _ e' w', inv (clock w' + TICK) e' ∧ clock w ≤ clock w' ∧ grows e e' ∧
       round_over c (clock w' + TICK) idxs e e') (aborts e).
Proof.
  revert e w. induction idxs as [|i idxs IH]; intros e w Hi Hc Hnd Hidxs.
  - apply wp_ret. split_and!; [done|done|done|]. apply round_over_refl; [lia|].
    right. by intros j r ?%elem_of_nil.
  - apply NoDup_cons in Hnd as [Hni Hnd].
    apply wp_bind, wp_get. destruct (stops e) eqn:Hstops.
    { apply wp_ret. split_and!; [done|done|done|]. apply round_over_refl; [lia|by left]. }
    destruct (Hidxs i) as (r&Hr&Hrun); [by left|].
    assert (∀ j e1, j ∈ idxs → (∀ j', j' ≠ i → runs_ e1 !! j' = runs_ e !! j') →
      (∀ k, is_Some (vars e !! k) → is_Some (vars e1 !! k)) →
      ∃ r, runs_ e1 !! j = Some r ∧ run_ok F (vars e1) c r) as Hrest.
    { intros j e1 Hj Hsame Hv. destruct (Hidxs j) as (rj&Hrj&Hokj); [by right|].
      exists rj. rewrite Hsame by (by intros ->). split; [done|]. by eapply run_ok_mono; [done|..]. }
    apply wp_bind. destruct (in_flight (state r)) eqn:Hf.
    + eapply wp_mono.
      * eapply (progress_unit_moves F c i r e w); try done.
        -- by eapply Hgood, inv_unit.
        -- intros Hs HF. eapply (inv_feeds F us Hus Hvars); try done.
           eapply (inv_deps _ _ _ _ Hi); [done|]. by destruct (state r).
      * intros _ e1 w1 [Hw1 Hm].
        assert (is_terminal (state r) = false) as Hterm by by destruct (state r).
        assert (grows e e1 ∧ inv (clock w1 + TICK) e1) as [Hg Hi1].
        { eapply inv_moved; [by eapply inv_mono; [exact Hi|lia]|done|done| |done].
          eapply (inv_deps _ _ _ _ Hi); [done|]. by destruct (state r). }
        eapply wp_mono; [apply IH; [done|lia|done|]|..].
        -- intros j Hj. destruct Hm as (r'&vs&n&->&Hvs&_). apply Hrest; [done| |done].
           intros j' Hj'. cbn. by rewrite list_lookup_insert_ne.
        -- intros _ e' w' (Hi'&Hw'&Hg'&Hover). split_and!; [done|lia|by etrans|].
           eapply (round_over_cons c (clock w1 + TICK)); try done; lia || congruence.
        -- intros x e' w' (x'&?&?). exists x'. split; [done|by etrans].
      * intros x e' w' ->. eexists. by split.
    + apply wp_bind. eapply wp_get_run; [done|].
      assert (∀ s : State, in_flight s = false → (match s with
        | Settling g st t => settle i g st t | Polling d re b => poll i d re b | _ => mret () end : M Message ())
        = mret ()) as Hskip by by intros [].
      rewrite (Hskip (state r) Hf). apply wp_ret.
      eapply wp_mono; [apply IH; [done|done|done|]|..].
      * intros j Hj. by apply Hrest.
      * intros _ e' w' (Hi'&Hw'&Hg'&Hover). split_and!; [done|lia|done|].
        eapply (round_over_cons c (clock w + TICK)); try done; lia || congruence.
      * done.
Qed.

(** ** Starting a unit *)

(** Unit [i] has left its pending run [r]. *)
Definition entered (i : nat) (r : UnitRun) (e : Engine) (w : W) : () → Engine → W → Prop :=
  λ _ e' w', clock w ≤ clock w' ∧ ∃ r' n, e' = put i r' (set_split n e) ∧ unit_of r' = unit_of r ∧
    run_ok F (vars e) (clock w') r' ∧ left (clock w') r' < 19 + budget (unit_of r) ∧
    is_pending (state r') = false ∧ state r' ≠ Skipped.

Section start.
Context {E : Type} (X : E → Engine → W → Prop).
Context (i : nat) (r : UnitRun) (e : Engine) (w0 : W).
Context (Hr : runs_ e !! i = Some r) (Hpending : state r = Pending).
Context (Hgu : unit_good (unit_of r)) (Herr : F → ∀ v, error r ≠ Some (UndefinedVariable v)).

(** A run on the way. *)
Definition current (r1 : UnitRun) : Prop :=
  unit_of r1 = unit_of r ∧ state r1 = Pending ∧ error r1 = error r.

Lemma put_lookup' r1 n : runs_ (put i r1 (set_split n e)) !! i = Some r1.
Proof. by eapply put_lookup. Qed.

Lemma wp_start_fail r1 n w er timeout :
  current r1 → clock w0 ≤ clock w → (∀ v, er ≠ UndefinedVariable v) →
  wp (fail i er timeout) (put i r1 (set_split n e)) w (entered i r e w0) X.
Proof.
  intros (Hu&Hp&He) Hw Her. eapply wp_fail; [apply put_lookup'|]. intros f w' Hw'.
  split; [lia|]. rewrite put_put. eexists _, n. split_and!; try done.
  - split; try done. intros HF v [= ->]. by apply (Her v).
  - unfold left. simpl. lia.
Qed.

Lemma enter_post_action_state_entered r1 n w :
  current r1 → is_Some (surface_id r1) → clock w0 ≤ clock w →
  wp (enter_post_action_state i) (put i r1 (set_split n e)) w (entered i r e w0) X.
Proof.
  intros (Hu&Hp&He) Hs Hw. apply wp_bind. eapply wp_get_run; [apply put_lookup'|].
  apply wp_bind. destruct (needs_settle (unit_of r1)) eqn:Hset.
  - pose proof (now_clock w) as Hnow. apply wp_bind, wp_ask; [apply now_forward|]. intros Hw1.
  apply wp_ret. eapply wp_transition; [apply put_lookup'|]. intros f w2 Hw2.
  split; [lia|]. rewrite put_put. eexists _, n. split_and!; try done.
  + split; try done; [|simpl; by rewrite He]. intros g st t Ht. injection Ht as <- <- <-.
    split_and!; [done|lia|lia].
  + rewrite <- Hu. eapply N.le_lt_trans; [by eapply left_settling|]. simpl. lia.
  - eapply wp_barrier_or_ready; [apply put_lookup'|by rewrite Hu|].
  intros next w1 Hw1 Hnext. eapply wp_transition; [apply put_lookup'|]. intros f w2 Hw2.
  split; [lia|]. rewrite put_put.
  destruct (next_ok F (clock w2) (set_finished f r1) next None (vars e) (clock w))
    as (Hok&Hl&Hn&Hsk); try done; [by simpl; rewrite Hu|by simpl; rewrite He| |].
  + simpl. destruct (unit_ready (unit_of r1)) as [[p t]|]; [|done].
    destruct Hnext as (u&re&->&?). exists u, re. split; [done|lia].
  + eexists _, n. split_and!; try done. simpl in Hl. rewrite Hu in Hl. lia.
Qed.

Lemma wp_rollback r1 n w created (Q : () → Engine → W → Prop) :
  (∀ w', clock w ≤ clock w' → Q () (put i r1 (set_split n e)) w') →
  wp (rollback_unit_worktree i created) (put i r1 (set_split n e)) w Q X.
Proof.
  intros HQ. unfold rollback_unit_worktree. destruct created; [|by apply wp_ret, HQ].
  apply wp_bind. eapply wp_get_run; [apply put_lookup'|].
  destruct (run_worktree r1) as [plan|]; [|by apply wp_ret, HQ].
  apply wp_outside, HQ, rollback_clock.
Qed.

Lemma wp_update_current (f : UnitRun → UnitRun) r1 n w (Q : () → Engine → W → Prop) :
  Q () (put i (f r1) (set_split n e)) w → wp (update i f) (put i r1 (set_split n e)) w Q X.
Proof. intros HQ. eapply wp_update; [apply put_lookup'|]. by rewrite put_put. Qed.
End start.

Lemma after_split_entered i r e w0 r1 n w created answer :
  runs_ e !! i = Some r → state r = Pending → unit_good (unit_of r) →
  (F → ∀ v, error r ≠ Some (UndefinedVariable v)) → current r r1 → clock w0 ≤ clock w →
  wp (after_split i created answer) (put i r1 (set_split n e)) w (entered i r e w0) (λ _ _ _, True).
Proof.
  intros Hr Hp Hg Herr Hcur Hw. unfold after_split. destruct answer as [ex|result].
  { apply wp_bind. eapply wp_rollback; [done|]. intros w' Hw'. by apply wp_throw. }
  destruct (error_of result) as [msg|].
  { apply wp_bind. eapply wp_rollback; [done|]. intros w' Hw'. eapply wp_start_fail; try done. lia. }
  apply wp_bind. eapply wp_update_current; [done|].
  assert (∀ v, current r (set_surface v r1)) as Hcur' by by intros v; destruct Hcur as (?&?&?).
  destruct (_ ≫= Value.as_u64) as [sid|]; simpl.
  - eapply enter_post_action_state_entered; try done.
  - apply wp_bind. eapply wp_rollback; [done|]. intros w' Hw'. eapply wp_start_fail; try done. lia.
Qed.

Lemma start_unit_entered i r e w :
  runs_ e !! i = Some r → state r = Pending → unit_good (unit_of r) →
  (F → ∀ v, error r ≠ Some (UndefinedVariable v)) →
  wp (start_unit i) e w (entered i r e w) (λ _ _ _, True).
Proof.
  intros Hr Hp Hg Herr. apply wp_bind, wp_ask; [apply now_forward|]. intros Hw1.
  set (w1 := (now w).2) in *. set (t := (now w).1).
  replace e with (put i r (set_split (split_count e) e)) at 1.
  2: { unfold put. cbn. rewrite list_insert_id by done. by destruct e. }
  apply wp_bind. eapply wp_update_current; [done|].
  assert (current r (set_started (Some t) r)) as Hcur by done.
  apply wp_bind. eapply wp_get_run; [by eapply put_lookup'|]. simpl.
  destruct (action (unit_of r)) as [s|target text].
  - unfold start_spawn. apply wp_bind. eapply wp_get_run; [by eapply put_lookup'|].
    assert (∀ created w2, clock w ≤ clock w2 →
      wp (e1 ← get; _ ← modify (set_split (split_count e1 + 1));
          answer ← ask (call "surface.split"%string (split_params e1 (set_started (Some t) r) s));
          after_split i created answer : M CliError ())
        (put i (set_started (Some t) r) (set_split (split_count e) e)) w2
        (entered i r e w) (λ _ _ _, True)) as Hsplit.
    { intros created w2 Hw2. apply wp_bind, wp_get, wp_bind, wp_modify, wp_bind, wp_ask;
        [intros ?; apply call_clock|]. intros Hw3.
      apply (after_split_entered i r e w (set_started (Some t) r) (split_count e + 1)); try done. lia. }
    apply wp_bind. simpl. destruct (run_worktree r) as [plan|].
    + apply wp_bind, wp_ask; [intros ?; apply execute_worktree_plan_clock|]. intros Hw2.
      apply wp_bind, wp_check; [|done]. intros _ _. apply wp_ret, Hsplit. lia.
    + by apply wp_ret, Hsplit.
  - unfold start_send. apply wp_bind, wp_get, wp_bind.
    assert (∀ r1 w2 (sid : CliError + N), current r r1 → clock w ≤ clock w2 →
      wp (match sid with
          | inr sid => _ ← update i (set_surface (Some sid)); enter_post_action_state i
          | inl e => fail i (UnresolvedTarget (message e)) false
          end : M CliError ()) (put i r1 (set_split (split_count e) e)) w2
        (entered i r e w) (λ _ _ _, True)) as Hsent.
    { intros r1 w2 [ex|sid] Hc Hw2; [by eapply wp_start_fail|].
      apply wp_bind. eapply wp_update_current; [done|].
      eapply enter_post_action_state_entered; try done; by destruct Hc as (?&?&?). }
    destruct (resolve_flow_target _ target) as [result|].
    + apply wp_ret. by apply Hsent.
    + apply wp_bind. eapply wp_update_current; [done|].
      apply wp_ask; [intros ?; apply resolve_target_clock|]. intros Hw2. apply Hsent; [done|lia].
Qed.

(** ** Scheduling *)

(** The runs of a group. *)
Definition in_group (g : str) (runs : list UnitRun) : list UnitRun :=
  filter (λ r, group (unit_of r) = g) runs.

Lemma group_state_eq runs g :
  group_state runs g =
  match in_group g runs with
  | [] => None
  | rs => Some (forallb (λ r, is_ready (state r)) rs, existsb (λ r, is_dead (state r)) rs)
  end.
Proof.
  induction runs as [|r runs IH] using rev_ind; [done|].
  unfold group_state, in_group in *. rewrite foldl_app, filter_app, filter_cons, filter_nil. simpl.
  rewrite IH. case_bool_decide as Hg.
  - rewrite decide_True by done.
    assert (∀ (b d : bool), match state r with
      | Ready => (b, d) | Failed _ | Skipped => (false, true) | _ => (false, d) end =
      (b && is_ready (state r), d || is_dead (state r))) as Hs.
    { intros [] []; by destruct (state r). }
    destruct (filter _ runs) as [|r0 rs]; simpl; f_equal; rewrite Hs; [by rewrite andb_true_r, orb_false_r|].
    rewrite forallb_app, existsb_app. simpl. by rewrite andb_true_r, orb_false_r, andb_assoc, orb_assoc.
  - rewrite decide_False by done. by rewrite app_nil_r.
Qed.

Lemma elem_of_group g runs r : r ∈ in_group g runs ↔ r ∈ runs ∧ group (unit_of r) = g.
Proof. unfold in_group. rewrite list_elem_of_filter. tauto. Qed.

(** The states of a group that has units. *)
Lemma group_state_ready runs g :
  (default (false, false) (group_state runs g)).1 = true →
  ∀ r, r ∈ runs → group (unit_of r) = g → state r = Ready.
Proof.
  rewrite group_state_eq. intros Hb r Hr Hg.
  assert (r ∈ in_group g runs) as Hin by (by apply elem_of_group).
  destruct (in_group g runs) as [|r0 rs]; [by apply elem_of_nil in Hin|].
  change (forallb (λ r, is_ready (state r)) (r0 :: rs) = true) in Hb.
  rewrite forallb_forall in Hb. apply list_elem_of_In, Hb in Hin. by destruct (state r).
Qed.

Lemma group_state_dead runs g :
  (default (false, false) (group_state runs g)).2 = true →
  ∃ r, r ∈ runs ∧ group (unit_of r) = g ∧ is_dead (state r) = true.
Proof.
  rewrite group_state_eq. intros Hb. destruct (in_group g runs) as [|r0 rs] eqn:Hrs; [done|].
  change (existsb (λ r, is_dead (state r)) (r0 :: rs) = true) in Hb.
  apply existsb_exists in Hb as (r&Hr&Hd). apply list_elem_of_In in Hr. rewrite <- Hrs in Hr.
  apply elem_of_group in Hr as [??]. by exists r.
Qed.

(** A group with units, none of which is dead and all of which are final, is ready. *)
Lemma group_state_settled runs g :
  (∃ r, r ∈ runs ∧ group (unit_of r) = g) →
  (∀ r, r ∈ runs → group (unit_of r) = g → is_terminal (state r) = true) →
  (default (false, false) (group_state runs g)).2 = false →
  (default (false, false) (group_state runs g)).1 = true.
Proof.
  rewrite group_state_eq. intros (r&Hr&Hg) Hall Hd.
  assert (r ∈ in_group g runs) as Hin by (by apply elem_of_group).
  destruct (in_group g runs) as [|r0 rs] eqn:Hrs; [by apply elem_of_nil in Hin|].
  change (existsb (λ r, is_dead (state r)) (r0 :: rs) = false) in Hd.
  change (forallb (λ r, is_ready (state r)) (r0 :: rs) = true).
  apply forallb_forall. intros x Hx. apply list_elem_of_In in Hx as Hx'. rewrite <- Hrs in Hx'.
  apply elem_of_group in Hx' as [Hx1 Hx2]. specialize (Hall x Hx1 Hx2).
  assert (is_dead (state x) = false) as Hnd.
  { destruct (is_dead (state x)) eqn:Hdx; [|done].
    assert (existsb (λ r, is_dead (state r)) (r0 :: rs) = true); [|congruence].
    apply existsb_exists. eauto. }
  by destruct (state x).
Qed.

(** The needs of a unit: whether all are ready, and a dead one. *)
Lemma needs_state_spec snapshot ns :
  let '(all_ready, dead_dep) := needs_state snapshot ns in
  (all_ready = true ↔ ∀ n, n ∈ ns → (default (false, false) (snapshot n)).1 = true) ∧
  match dead_dep with
  | Some n => n ∈ ns ∧ (default (false, false) (snapshot n)).2 = true
  | None => ∀ n, n ∈ ns → (default (false, false) (snapshot n)).2 = false
  end.
Proof.
  induction ns as [|n ns IH] using rev_ind.
  { simpl. split; [|by intros n ?%elem_of_nil]. split; [by intros _ n ?%elem_of_nil|done]. }
  unfold needs_state in *. rewrite foldl_app. simpl.
  destruct (foldl _ _ ns) as [all_ready dead_dep]. destruct IH as [Hready Hdead].
  destruct (default (false, false) (snapshot n)) as [ready dead] eqn:Hn.
  rewrite forall_snoc, Hn, andb_true_iff, Hready. split; [done|]. destruct dead; simpl.
  - rewrite Hn. split; [apply elem_of_app; right; by left|done].
  - destruct dead_dep as [d|].
    + destruct Hdead as [Hd ?]. split; [apply elem_of_app; by left|done].
    + rewrite forall_snoc, Hn. done.
Qed.

(** All that a unit needs is final. *)
Definition settled (e : Engine) (r : UnitRun) : Prop :=
  ∀ n r', n ∈ unit_needs (unit_of r) → r' ∈ runs_ e → group (unit_of r') = n →
    is_terminal (state r') = true.

(** Unit [i] has been scheduled: only its run may have changed. *)
Definition scheduled (e0 : Engine) (i : nat) (r : UnitRun) (e : Engine) (w : W)
    (e' : Engine) (w' : W) : Prop :=
  clock w ≤ clock w' ∧ inv (clock w' + TICK) e' ∧ grows e e' ∧
  (∀ j, j ≠ i → runs_ e' !! j = runs_ e !! j) ∧
  ∃ r', runs_ e' !! i = Some r' ∧ left (clock w' + TICK) r' ≤ left (clock w + TICK) r ∧
    (state r = Pending → settled e0 r → left (clock w' + TICK) r' < left (clock w + TICK) r).

Lemma scheduled_same e0 i r e w :
  inv (clock w + TICK) e → runs_ e !! i = Some r → ¬ (state r = Pending ∧ settled e0 r) →
  scheduled e0 i r e w e w.
Proof. intros Hi Hr Hn. split_and!; try done. exists r. split_and!; try done. tauto. Qed.

Lemma scheduled_put e0 i r r' n e w w' :
  inv (clock w + TICK) e → runs_ e !! i = Some r → state r = Pending → clock w ≤ clock w' →
  unit_of r' = unit_of r → run_ok F (vars e) (clock w') r' →
  (has_started (state r') = true → deps_ready e r) → (state r' = Skipped → explained e r) →
  left (clock w') r' < 19 + budget (unit_of r) →
  scheduled e0 i r e w (put i r' (set_split n e)) w'.
Proof.
  intros Hi Hr Hp Hw Hu Hok Hd Hs Hl.
  destruct (inv_put F us (clock w' + TICK) i r r' (vars e) n e) as [Hg Hi'];
    [eapply inv_mono; [done|lia]|done|by rewrite Hp|done|done|..|done|done|].
  { eapply run_ok_mono; [done|done|lia]. }
  replace (set_split n (set_vars (vars e) e)) with (set_split n e) in * by by destruct e.
  assert (left (clock w' + TICK) r' < left (clock w + TICK) r).
  { unfold left at 2. rewrite Hp. pose proof (left_mono (clock w') (clock w' + TICK) r'). lia. }
  split_and!; [done|done|done| |].
  - intros j Hj. cbn. by rewrite list_lookup_insert_ne.
  - exists r'. split_and!; [by eapply put_lookup|lia|done].
Qed.

Lemma schedule_unit_spec e0 i r e w :
  inv (clock w + TICK) e → unit_of <$> runs_ e0 = us → grows e0 e → runs_ e !! i = Some r →
  wp (schedule_unit (group_state (runs_ e0)) i) e w
    (λ _ e' w', scheduled e0 i r e w e' w') (λ _ _ _, True).
Proof.
  intros Hi Hu0 Hg0 Hr. apply wp_bind. eapply wp_get_run; [done|].
  destruct (is_pending (state r)) eqn:Hp; simpl.
  2: { apply wp_ret, scheduled_same; [done|done|]. intros [Hs _]. by rewrite Hs in Hp. }
  assert (state r = Pending) as Hs by by destruct (state r).
  pose proof (inv_unit _ _ _ _ _ _ Hi Hr) as Hu. pose proof (inv_runs _ _ _ _ Hi i r Hr) as Hrun.
  pose proof (needs_state_spec (group_state (runs_ e0)) (unit_needs (unit_of r))) as Hns.
  destruct (needs_state _ _) as [all_ready [dep|]].
  - destruct Hns as [_ [Hdep Hdead]]. apply group_state_dead in Hdead as (rd&Hrd&Hgd&Hd).
    apply wp_bind. eapply wp_update; [done|]. eapply wp_transition; [by eapply put_lookup|].
    intros f w' Hw'. rewrite put_put.
    replace e with (set_split (split_count e) e) at 2 by by destruct e.
    apply scheduled_put; try done.
    + intros _. eapply (explained_grows e0); [done|done|]. left. by exists dep, rd.
    + unfold left. simpl. lia.
  - destruct Hns as [Hready Hdead]. destruct all_ready.
    + eapply wp_mono; [apply (start_unit_entered i r e w); try done; [by apply Hgood|apply Hrun]| |done].
      intros _ e' w' (Hw'&r'&n&->&Hu'&Hok&Hl&Hp'&Hs'). apply scheduled_put; try done.
      intros _. apply (deps_ready_grows e0 e r r); [done|done|]. intros n' r1 Hn' Hr1 Hg1.
      eapply group_state_ready; [|done|done]. by apply Hready.
    + apply wp_ret, scheduled_same; [done|done|]. intros [_ Hsettled].
      assert (false = true); [|done]. apply Hready. intros n Hn.
      apply group_state_settled; [|by intros; eapply Hsettled|by apply Hdead].
      destruct (units_needs _ Hus _ n Hu Hn) as (u&Hun&Hgn). rewrite <- Hu0 in Hun.
      apply list_elem_of_fmap in Hun as (r1&->&?). by exists r1.
Qed.

(** All units, scheduled one after the other. *)
Definition all_scheduled (e0 : Engine) (w : W) (e' : Engine) (w' : W) : Prop :=
  clock w ≤ clock w' ∧ inv (clock w' + TICK) e' ∧ grows e0 e' ∧
  ∀ j r, runs_ e0 !! j = Some r → ∃ r', runs_ e' !! j = Some r' ∧
    left (clock w' + TICK) r' ≤ left (clock w + TICK) r ∧
    (state r = Pending → settled e0 r → left (clock w' + TICK) r' < left (clock w + TICK) r).

Lemma schedule_from_spec e0 idxs e w :
  inv (clock w + TICK) e → unit_of <$> runs_ e0 = us → grows e0 e → NoDup idxs →
  (∀ j, j ∈ idxs → runs_ e !! j = runs_ e0 !! j ∧ is_Some (runs_ e0 !! j)) →
  wp (for_each_m idxs (schedule_unit (group_state (runs_ e0)))) e w
    (λ _ e' w', clock w ≤ clock w' ∧ inv (clock w' + TICK) e' ∧ grows e0 e' ∧
       (∀ j, j ∉ idxs → runs_ e' !! j = runs_ e !! j) ∧
       ∀ j r, j ∈ idxs → runs_ e0 !! j = Some r → ∃ r', runs_ e' !! j = Some r' ∧
         left (clock w' + TICK) r' ≤ left (clock w + TICK) r ∧
         (state r = Pending → settled e0 r → left (clock w' + TICK) r' < left (clock w + TICK) r))
    (λ _ _ _, True).
Proof.
  revert e w. induction idxs as [|i idxs IH]; intros e w Hi Hu0 Hg Hnd Hidxs.
  { apply wp_ret. split_and!; try done. by intros j r ?%elem_of_nil. }
  apply NoDup_cons in Hnd as [Hni Hnd].
  destruct (Hidxs i) as [Hsame [r Hr0]]; [by left|]. rewrite Hr0 in Hsame.
  apply wp_bind. eapply wp_mono; [by apply (schedule_unit_spec e0 i r)| |done].
  intros _ e1 w1 (Hw1&Hi1&Hg1&Hothers&r1&Hr1&Hl1&Hs1).
  eapply wp_mono; [apply IH; [done|done|by etrans|done|]| |done].
  { intros j Hj. rewrite Hothers by (by intros ->). by apply Hidxs; right. }
  intros _ e' w' (Hw'&Hi'&Hg'&Hout&Hin). split_and!; [lia|done|done| |].
  - intros j [Hne Hj]%not_elem_of_cons. by rewrite Hout, Hothers.
  - intros j rj [->|Hj]%elem_of_cons Hrj.
    + assert (rj = r) as -> by congruence. exists r1. rewrite Hout by done. split; [done|].
      pose proof (left_mono (clock w1 + TICK) (clock w' + TICK) r1).
      split; [lia|]. intros Hp Hst. specialize (Hs1 Hp Hst). lia.
    + destruct (Hin j rj Hj Hrj) as (r'&?&Hl&Hs). exists r'. split; [done|].
      pose proof (left_mono (clock w + TICK) (clock w1 + TICK) rj).
      split; [lia|]. intros Hp Hst. specialize (Hs Hp Hst). lia.
Qed.

Lemma propagate_and_schedule_spec e w :
  inv (clock w + TICK) e →
  wp propagate_and_schedule e w (λ _ e' w', all_scheduled e w e' w') (λ _ _ _, True).
Proof.
  intros Hi. apply wp_bind, wp_get.
  eapply wp_mono; [apply (schedule_from_spec e); [done|by eapply inv_units|done|apply NoDup_seq|]| |done].
  - intros j Hj. split; [done|]. apply lookup_lt_is_Some_2. apply elem_of_seq in Hj. lia.
  - intros _ e' w' (Hw&Hi'&Hg&_&Hin). split_and!; try done. intros j r Hr.
    apply Hin; [|done]. apply elem_of_seq. apply lookup_lt_Some in Hr. lia.
Qed.

(** ** No flow is stuck *)

(** When no unit is in flight, a pending unit needs only units that are final. *)
Lemma no_deadlock x e j r :
  inv x e → (∀ j r, runs_ e !! j = Some r → in_flight (state r) = false) →
  runs_ e !! j = Some r → state r = Pending →
  ∃ j r, runs_ e !! j = Some r ∧ state r = Pending ∧ settled e r.
Proof.
  intros Hi Hidle Hr Hp. remember (group (unit_of r)) as g eqn:Hg.
  pose proof (units_wf _ Hus g) as Hacc. revert j r Hr Hp Hg.
  induction Hacc as [g _ IH]. intros j r Hr Hp ->.
  destruct (decide (Forall (λ r', group (unit_of r') ∈ unit_needs (unit_of r) →
    is_terminal (state r') = true) (runs_ e))) as [Hall|Hnot].
  - exists j, r. split_and!; [done|done|]. intros n r' Hn Hr' Hg.
    rewrite Forall_forall in Hall. apply Hall; [done|]. by rewrite Hg.
  - apply not_Forall_Exists, Exists_exists in Hnot as (r'&Hr'&Hnt); [|apply _].
    apply list_elem_of_lookup in Hr' as [j' Hj'].
    destruct (decide (group (unit_of r') ∈ unit_needs (unit_of r))) as [Hin|Hout].
    2: { exfalso. apply Hnt. by intros ?%Hout. }
    apply (IH (group (unit_of r'))) with (j := j') (r := r'); [|done| |done].
    + exists (unit_of r). split; [by eapply inv_unit|done].
    + destruct (is_terminal (state r')) eqn:Ht; [exfalso; by apply Hnt|].
      pose proof (Hidle j' r' Hj'). by destruct (state r').
Qed.

(** ** The loop *)

(** The rounds that all units still take, at most. *)
Definition total (c : N) (e : Engine) : N := foldr (λ r acc, left c r + acc) 0 (runs_ e).

Lemma foldr_left_le (f g : UnitRun → N) l k :
  Forall2 (λ x y, g y ≤ f x) l k →
  foldr (λ r acc, g r + acc) 0 k ≤ foldr (λ r acc, f r + acc) 0 l.
Proof. induction 1; simpl; lia. Qed.

Lemma foldr_left_lt (f g : UnitRun → N) l k i x y :
  Forall2 (λ x y, g y ≤ f x) l k → l !! i = Some x → k !! i = Some y → g y < f x →
  foldr (λ r acc, g r + acc) 0 k < foldr (λ r acc, f r + acc) 0 l.
Proof.
  intros Hall. revert i. induction Hall as [|x' y' l k Hxy Hall IH]; intros [|i] Hx Hy Hlt; simplify_eq/=.
  - pose proof (foldr_left_le f g l k Hall). lia.
  - specialize (IH i Hx Hy Hlt). lia.
Qed.

(** The runs of two engines, pointwise. *)
Lemma runs_Forall2 e e' (P : UnitRun → UnitRun → Prop) :
  length (runs_ e') = length (runs_ e) →
  (∀ j r, runs_ e !! j = Some r → ∃ r', runs_ e' !! j = Some r' ∧ P r r') →
  Forall2 P (runs_ e) (runs_ e').
Proof.
  intros Hlen Hp. apply Forall2_same_length_lookup_2; [done|]. intros j r r' Hr Hr'.
  destruct (Hp j r Hr) as (r''&?&?). by simplify_eq.
Qed.

Lemma total_left_mono c c' e : c ≤ c' → total c' e ≤ total c e.
Proof.
  intros Hc. apply foldr_left_le, Forall2_same_length_lookup_2; [done|].
  intros j r r' Hr Hr'. simplify_eq. by apply left_mono.
Qed.

(** A run ends with no unit pending, and no unit in flight unless the flow fails fast. *)
Definition finished (aborted : option Message) (e : Engine) : Prop :=
  aborted = None → ∀ r, r ∈ runs_ e →
    is_terminal (state r) = true ∨ (in_flight (state r) = true ∧ stops e = true).

Lemma skip_pending_spec x e (w : W) :
  inv x e → stops e = true →
  wp skip_pending_after_fail_fast e w
    (λ _ e' w', inv x e' ∧ grows e e' ∧ finished None e' ∧ w' = w) (λ (_ : CliError) _ _, True).
Proof.
  intros Hi Hs. apply wp_modify.
  set (skip := λ r, if is_pending (state r) then _ else r).
  assert (∀ r, unit_of (skip r) = unit_of r ∧ (is_pending (state r) = false → skip r = r) ∧
    (is_pending (state r) = true → state (skip r) = Skipped)) as Hskip.
  { intros r. unfold skip. by destruct (is_pending (state r)). }
  assert (grows e (set_runs (skip <$> runs_ e) e)) as Hg.
  { split; simpl; [done| |by rewrite length_fmap|done]. intros j r Hr. exists (skip r).
    rewrite list_lookup_fmap, Hr. destruct (Hskip r) as (?&Hk&_). split_and!; [done|done|].
    intros Ht. apply Hk. by destruct (state r). }
  assert (∀ j r', runs_ (set_runs (skip <$> runs_ e) e) !! j = Some r' →
    ∃ r, runs_ e !! j = Some r ∧ r' = skip r) as Hback.
  { intros j r' Hr'. simpl in Hr'. rewrite list_lookup_fmap in Hr'.
    destruct (runs_ e !! j) as [r|]; [|done]. injection Hr' as <-. eauto. }
  split_and!; [|done| |done].
  - split.
    + simpl. rewrite <- (inv_units _ _ _ _ Hi), <- list_fmap_compose. apply list_fmap_ext.
      intros j r _. apply Hskip.
    + intros j r' Hr'. apply Hback in Hr' as (r&Hr&->). pose proof (inv_runs _ _ _ _ Hi j r Hr) as Hok.
      unfold skip. destruct (is_pending (state r)); [|done]. by split.
    + intros j r' Hr'. apply Hback in Hr' as (r&Hr&->). intros Hst.
      destruct (Hskip r) as (_&Hk&Hk'). destruct (is_pending (state r)) eqn:Hp.
      * by rewrite Hk' in Hst.
      * rewrite Hk in * by done. eapply (deps_ready_grows e); [done|done|]. by eapply inv_deps.
    + intros j r' Hr' _. right. by eapply stops_grows.
  - intros _ r' Hr'. simpl in Hr'. apply list_elem_of_fmap in Hr' as (r&->&_).
    destruct (Hskip r) as (_&Hk&Hk'). destruct (is_pending (state r)) eqn:Hp.
    + left. by rewrite Hk'.
    + rewrite Hk by done. destruct (is_terminal (state r)) eqn:Ht; [by left|]. right.
      split; [by destruct (state r)|]. by eapply stops_grows.
Qed.

Lemma wp_attempt {E E' A} (m : M E A) e w Q (X : E' → Engine → W → Prop) :
  wp m e w (λ a e w, Q (inr a) e w) (λ x e w, Q (inl x) e w) → wp (attempt m) e w Q X.
Proof. unfold wp, attempt. by destruct (m (e, w)) as [[[x|a] [e' w']]|]. Qed.

(** A round that does not end the loop takes the flow closer to its end. *)
Lemma round_decreases c c2 c3 e e2 e3 :
  inv c e → inv c2 e2 → grows e e2 → grows e2 e3 → c2 ≤ c3 → stops e2 = false →
  round_over c c2 (seq 0 (length (runs_ e))) e e2 →
  (∀ j r, runs_ e2 !! j = Some r → ∃ r', runs_ e3 !! j = Some r' ∧ left c3 r' ≤ left c2 r ∧
     (state r = Pending → settled e2 r → left c3 r' < left c2 r)) →
  forallb (λ r, is_terminal (state r)) (runs_ e3) = false → total c3 e3 < total c e.
Proof.
  intros Hi Hi2 Hg Hg2 Hc Hs Hround Hsched Hrunning.
  assert (Forall2 (λ r r', left c3 r' ≤ left c r) (runs_ e) (runs_ e3)) as Hall.
  { apply runs_Forall2; [by rewrite (grows_length _ _ Hg2), (grows_length _ _ Hg)|].
    intros j r Hr. destruct (Hround j r Hr) as (r2&Hr2&Hl&_).
    destruct (Hsched j r2 Hr2) as (r3&?&?&_). exists r3. split; [done|lia]. }
  destruct (decide (Exists (λ r, in_flight (state r) = true) (runs_ e))) as [Hex|Hidle].
  - apply Exists_exists in Hex as (r&Hr&Hf). apply list_elem_of_lookup in Hr as [j Hr].
    destruct (Hround j r Hr) as (r2&Hr2&_&_&Hlt&_).
    destruct (Hsched j r2 Hr2) as (r3&Hr3&Hle&_).
    eapply foldr_left_lt; [exact Hall|exact Hr|exact Hr3|].
    assert (j ∈ seq 0 (length (runs_ e))) as Hj.
    { apply elem_of_seq. apply lookup_lt_Some in Hr. lia. }
    specialize (Hlt Hj Hf Hs). lia.
  - rewrite Exists_exists in Hidle.
    assert (∀ j r, runs_ e !! j = Some r → in_flight (state r) = false) as Hidle1.
    { intros j r Hr. apply not_true_iff_false. intros Hf. apply Hidle. exists r.
      split; [by eapply list_elem_of_lookup_2|done]. }
    assert (∀ j r, runs_ e2 !! j = Some r → runs_ e !! j = Some r) as Hsame.
    { intros j r2 Hr2. destruct (grows_back _ _ _ _ Hg Hr2) as (r&Hr&_).
      destruct (Hround j r Hr) as (r2'&Hr2'&_&Hk&_). rewrite Hk in Hr2' by (right; by eapply Hidle1).
      congruence. }
    assert (∃ j r, runs_ e2 !! j = Some r ∧ state r = Pending) as (j0&r0&Hr0&Hp0).
    { apply not_true_iff_false in Hrunning. rewrite forallb_forall in Hrunning.
      destruct (decide (Exists (λ r, is_pending (state r) = true) (runs_ e2))) as [Hex|Hno].
      - apply Exists_exists in Hex as (r&Hr&Hp). apply list_elem_of_lookup in Hr as [j Hr].
        exists j, r. split; [done|]. by destruct (state r).
      - exfalso. apply Hrunning. intros r3 Hr3. apply list_elem_of_In, list_elem_of_lookup in Hr3 as [j Hr3].
        destruct (grows_back _ _ _ _ Hg2 Hr3) as (r2&Hr2&_&Hk).
        assert (is_terminal (state r2) = true) as Ht; [|by rewrite Hk].
        pose proof (Hidle1 j r2 (Hsame j r2 Hr2)) as Hf. rewrite Exists_exists in Hno.
        assert (is_pending (state r2) = false) as Hp.
        { apply not_true_iff_false. intros Hp. apply Hno. exists r2.
          split; [by eapply list_elem_of_lookup_2|done]. }
        by destruct (state r2). }
    destruct (no_deadlock c2 e2 j0 r0 Hi2) as (j&r2&Hr2&Hp&Hset); [|done|done|].
    { intros j r Hr. by eapply Hidle1, Hsame. }
    destruct (Hsched j r2 Hr2) as (r3&Hr3&_&Hlt). specialize (Hlt Hp Hset).
    destruct (Hround j r2 (Hsame j r2 Hr2)) as (r2'&Hr2'&Hle&_).
    eapply foldr_left_lt; [exact Hall|by eapply Hsame|exact Hr3|].
    assert (r2' = r2) as -> by congruence. lia.
Qed.

Lemma execute_loop_spec fuel e w :
  inv (clock w) e → (N.to_nat (total (clock w) e) < fuel)%nat →
  wp (execute_loop fuel) e w
    (λ aborted e' _, (∃ x, inv x e') ∧ grows e e' ∧ finished aborted e') (λ _ _ _, True).
Proof.
  revert e w. induction fuel as [|fuel IH]; intros e w Hi Hf; [lia|]. cbn [execute_loop].
  apply wp_bind, wp_ask; [intros ?; apply interrupted_clock|]. intros Hw1.
  set (w1 := (interrupted w).2) in *. assert (inv (clock w1) e) as Hi1 by by eapply inv_mono.
  pose proof (total_left_mono _ _ e Hw1) as Ht1.
  destruct (interrupted w).1; [apply wp_ret; split_and!; [by eexists|done|done]|].
  apply wp_bind, wp_attempt. unfold progress. apply wp_bind, wp_get.
  eapply wp_mono; [apply (progress_from_spec (clock w1))|..].
  { eapply inv_mono; [done|lia]. } { done. } { apply NoDup_seq. }
  { intros j Hj. apply elem_of_seq in Hj. destruct (lookup_lt_is_Some_2 (runs_ e) j) as [r Hr]; [lia|].
    exists r. split; [done|]. by apply (inv_runs _ _ _ _ Hi1 j). }
  2: { intros x e' w' (x'&?&?). apply wp_ret. split_and!; [by eexists|done|done]. }
  intros _ e2 w2 (Hi2&Hw2&Hg2&Hround). apply wp_bind, wp_get.
  destruct (stops e2) eqn:Hs2.
  { apply wp_bind. eapply wp_mono; [by apply (skip_pending_spec (clock w2 + TICK))| |done].
    intros _ e' w' (Hi'&Hg'&Hfin&->). apply wp_ret. split_and!; [by eexists|by etrans|done]. }
  apply wp_bind. eapply wp_mono; [by apply propagate_and_schedule_spec| |done].
  intros _ e3 w3 (Hw3&Hi3&Hg3&Hsched). apply wp_bind, wp_get.
  destruct (stops e3) eqn:Hs3.
  { apply wp_bind. eapply wp_mono; [by apply (skip_pending_spec (clock w3 + TICK))| |done].
    intros _ e' w' (Hi'&Hg'&Hfin&->). apply wp_ret.
    split_and!; [by eexists|etrans; [done|]; by etrans|done]. }
  destruct (forallb _ (runs_ e3)) eqn:Hall.
  { apply wp_ret. split_and!; [by eexists|by etrans|]. intros _ r Hr. left.
    rewrite forallb_forall in Hall. by apply Hall, list_elem_of_In. }
  apply wp_bind, wp_outside. set (w4 := sleep TICK w3). pose proof (sleep_clock TICK w3) as Hw4.
  fold w4 in Hw4.
  assert (total (clock w3 + TICK) e3 < total (clock w1) e) as Hlt.
  { eapply (round_decreases (clock w1) (clock w2 + TICK)); try done. lia. }
  pose proof (total_left_mono _ _ e3 Hw4).
  eapply wp_mono; [apply IH; [by eapply inv_mono|lia]| |done].
  intros ab e' _ (Hx&Hg'&Hfin). split_and!; [done| |done]. etrans; [done|]. by etrans.
Qed.

(** ** From the roots to the report *)

(** Nothing has happened yet. *)
Definition fresh (e : Engine) : Prop :=
  unit_of <$> runs_ e = us ∧ ∀ r, r ∈ runs_ e → state r = Pending ∧ error r = None.

(** A bound of the rounds of a run. *)
Definition rounds : N := foldr (λ u acc, 19 + budget u + acc) 0 us.

Lemma fresh_inv x e : fresh e → inv x e.
Proof.
  intros [Hu Hall].
  assert (∀ i r, runs_ e !! i = Some r → state r = Pending ∧ error r = None) as Hr.
  { intros i r Hi. apply Hall. by eapply list_elem_of_lookup_2. }
  split; [done|..]; intros i r Hi; destruct (Hr i r Hi) as [Hs He].
  - split; rewrite ?Hs; try done. intros _ v. by rewrite He.
  - by rewrite Hs.
  - by rewrite Hs.
Qed.

Lemma fresh_total c e : fresh e → total c e = rounds.
Proof.
  intros [Hu Hall]. unfold total, rounds. rewrite <- Hu. clear Hu.
  induction (runs_ e) as [|r rs IH]; [done|]. simpl. rewrite IH by (intros; apply Hall; by right).
  destruct (Hall r) as [Hs _]; [by left|]. unfold left. by rewrite Hs.
Qed.

Lemma bootstrap_panes_spec idxs panes created e w :
  (∀ i, i ∈ idxs → ∃ r s, runs_ e !! i = Some r ∧ action (unit_of r) = Spawn s) →
  wp (bootstrap_panes idxs panes created) e w (λ _ e' w', e' = e ∧ clock w ≤ clock w') (λ _ _ _, True).
Proof.
  revert panes created w. induction idxs as [|i idxs IH]; intros panes created w Hidxs; [by apply wp_ret|].
  destruct (Hidxs i) as (r&s&Hr&Hs); [by left|].
  assert (∀ panes created w1, clock w ≤ clock w1 →
    wp (bootstrap_panes idxs panes created) e w1 (λ _ e' w', e' = e ∧ clock w ≤ clock w') (λ _ _ _, True)) as Hrest.
  { intros ps cr w1 Hw1. eapply wp_mono; [apply IH; intros; apply Hidxs; by right| |done].
    intros _ e' w' [-> Hw']. split; [done|lia]. }
  apply wp_bind. eapply wp_get_run; [done|]. apply wp_bind.
  destruct (run_worktree r) as [plan|].
  - apply wp_bind, wp_ask; [intros ?; apply execute_worktree_plan_clock|]. intros Hw1.
    destruct (execute_worktree_plan plan w).1; [by apply wp_bind, wp_outside, wp_throw|].
    apply wp_ret, wp_bind. rewrite Hs. eapply wp_unwrap; [done|]. by apply Hrest.
  - apply wp_ret, wp_bind. rewrite Hs. eapply wp_unwrap; [done|]. by apply Hrest.
Qed.

(** Units that start without asking for anything. *)
Definition rooted (e : Engine) (w : W) (e' : Engine) (w' : W) : Prop :=
  clock w ≤ clock w' ∧ inv (clock w') e' ∧ grows e e' ∧
  ∀ j r, runs_ e !! j = Some r → ∃ r', runs_ e' !! j = Some r' ∧ left (clock w') r' ≤ left (clock w) r.

Lemma start_roots_spec pairs t e w :
  inv (clock w) e → NoDup pairs.*1 →
  (∀ i, i ∈ pairs.*1 → ∃ r, runs_ e !! i = Some r ∧ state r = Pending ∧ unit_needs (unit_of r) = []) →
  wp (start_roots pairs t) e w (λ _ e' w', rooted e w e' w') (λ _ _ _, True).
Proof.
  revert e w. induction pairs as [|[i sid] pairs IH]; intros e w Hi Hnd Hroots.
  { apply wp_ret. split_and!; [done|done|done|]. intros j r Hr. by exists r. }
  simpl in Hnd. apply NoDup_cons in Hnd as [Hni Hnd].
  destruct (Hroots i) as (r&Hr&Hp&Hn); [by left|].
  pose proof (inv_runs _ _ _ _ Hi i r Hr) as Hrun.
  assert (unit_good (unit_of r)) as Hgu by (by eapply Hgood, inv_unit).
  cbn [start_roots].
  replace e with (put i r (set_split (split_count e) e)) at 1.
  2: { unfold put. cbn. rewrite list_insert_id by done. by destruct e. }
  apply wp_bind. eapply wp_update_current; [done|]. apply wp_bind. eapply wp_update_current; [done|].
  apply wp_bind. eapply wp_mono; [apply (enter_post_action_state_entered (λ _ _ _, True) i r e w); try done; apply Hrun| |done].
  intros _ e1 w1 (Hw1&r'&n&->&Hu&Hok&Hl&Hp'&Hs').
  destruct (inv_put F us (clock w1) i r r' (vars e) n e) as [Hg Hi1]; try done;
    [by eapply inv_mono|by rewrite Hp| |].
  { intros _ n' r1 Hn'. rewrite Hn in Hn'. by apply elem_of_nil in Hn'. }
  replace (set_split n (set_vars (vars e) e)) with (set_split n e) in * by by destruct e.
  eapply wp_mono; [apply IH; [done|done|]| |done].
  { intros j Hj. destruct (Hroots j) as (rj&Hrj&?&?); [by right|]. exists rj. split; [|done].
    cbn. by rewrite list_lookup_insert_ne by (by intros ->). }
  intros _ e' w' (Hw'&Hi'&Hg'&Hleft). split_and!; [lia|done|by etrans|].
  intros j rj Hrj. destruct (decide (j = i)) as [->|Hne].
  - assert (rj = r) as -> by congruence. destruct (Hleft i r') as (r2&?&?); [by eapply put_lookup|].
    exists r2. split; [done|]. unfold left at 2. rewrite Hp. lia.
  - destruct (Hleft j rj) as (r2&?&?); [cbn; by rewrite list_lookup_insert_ne|].
    exists r2. split; [done|]. pose proof (left_mono (clock w) (clock w1) rj Hw1). lia.
Qed.

Lemma elem_of_roots i e :
  i ∈ roots (runs_ e) ↔ ∃ r, runs_ e !! i = Some r ∧ unit_needs (unit_of r) = [].
Proof.
  unfold roots. rewrite list_elem_of_filter, elem_of_seq. split.
  - intros [Hn Hi]. destruct (lookup_lt_is_Some_2 (runs_ e) i) as [r Hr]; [lia|].
    exists r. split; [done|]. rewrite Hr in Hn. by apply list_is_empty_true.
  - intros (r&Hr&Hn). rewrite Hr. simpl. rewrite Hn. split; [done|].
    apply lookup_lt_Some in Hr. lia.
Qed.

Lemma bootstrap_wave0_spec e w :
  fresh e →
  wp bootstrap_wave0 e w
    (λ _ e' w', inv (clock w') e' ∧ grows e e' ∧ total (clock w') e' ≤ rounds) (λ _ _ _, True).
Proof.
  intros Hf. unfold bootstrap_wave0. apply wp_bind, wp_get, wp_bind. pose proof Hf as [_ Hall].
  assert (∀ i, i ∈ roots (runs_ e) →
    ∃ r, runs_ e !! i = Some r ∧ state r = Pending ∧ unit_needs (unit_of r) = []) as Hroots.
  { intros i (r&Hr&Hn)%elem_of_roots. exists r. split_and!; [done| |done].
    apply Hall. by eapply list_elem_of_lookup_2. }
  eapply wp_mono; [apply bootstrap_panes_spec| |done].
  { intros i Hi. destruct (Hroots i Hi) as (r&Hr&_&Hn).
    assert (unit_of r ∈ us) as Hru by (by eapply inv_unit, Hr; apply (fresh_inv 0)).
    destruct (units_send _ Hus _ Hru Hn) as [name Hname]. unfold pane_of in Hname.
    exists r. destruct (action (unit_of r)) as [s|]; [by exists s|done]. }
  intros [panes created] e1 w1 [-> Hw1]. apply wp_bind, wp_ask; [intros ?; apply call_clock|].
  intros Hw2. set (answer := call _ _ w1). destruct answer.1 as [ex|result].
  { by apply wp_bind, wp_outside, wp_throw. }
  destruct (error_of result); [by apply wp_bind, wp_outside, wp_throw|].
  destruct (negb _) eqn:Hlen; [by apply wp_throw|].
  apply wp_bind, wp_modify, wp_bind, wp_ask; [apply now_forward|]. intros Hw3.
  set (e2 := set_anchor _ e). set (w3 := (now answer.2).2) in *.
  apply negb_false_iff, Nat.eqb_eq in Hlen.
  assert (fresh e2) as Hf2 by done.
  eapply wp_mono; [apply start_roots_spec; [by apply fresh_inv|..]| |done].
  - rewrite fst_zip by lia. apply NoDup_filter, NoDup_seq.
  - rewrite fst_zip by lia. exact Hroots.
  - intros _ e' w' (Hw'&Hi'&Hg'&Hleft). split_and!; [done| |].
    + destruct Hg'. by split.
    + rewrite <- (fresh_total (clock w3) e2 Hf2). apply foldr_left_le.
      apply runs_Forall2; [apply (grows_length _ _ Hg')|exact Hleft].
Qed.

(** What holds at the end of a run. *)
Definition ends (e : Engine) (r : Report) (e' : Engine) : Prop :=
  ∃ ab, r = report e' ab ∧ (∃ x, inv x e') ∧ grows e e' ∧ finished ab e'.

Lemma execute_spec fuel e w :
  fresh e → (N.to_nat rounds < fuel)%nat →
  wp (execute fuel) e w (λ r e' _, ends e r e') (λ _ _ _, True).
Proof.
  intros Hf Hfuel. apply wp_bind. eapply wp_mono; [by apply bootstrap_wave0_spec| |done].
  intros _ e1 w1 (Hi&Hg&Ht). apply wp_bind. eapply wp_mono; [apply execute_loop_spec; [done|lia]| |done].
  intros ab e' w' (Hx&Hg'&Hfin). apply wp_bind, wp_get, wp_ret. exists ab.
  split_and!; [done|done|by etrans|done].
Qed.
End flow.

(** ** From a plan to its run *)

(** Two units that differ in the environment of their pane only. *)
Record same_but_env (u u' : Unit) : Prop := {
  same_id : unit_id u' = unit_id u;
  same_group : group u' = group u;
  same_needs : unit_needs u' = unit_needs u;
  same_ready : unit_ready u' = unit_ready u;
  same_capture : unit_capture u' = unit_capture u;
  same_pane : pane_of u' = pane_of u;
  same_settle : needs_settle u' = needs_settle u;
  same_text : raw_text u' = raw_text u }.

Lemma substitute_unit_env_same u offset : same_but_env u (substitute_unit_env u offset).
Proof.
  unfold substitute_unit_env. destruct u as [? ? ? [s|? ?] ? ? ?]; [|by split].
  by destruct s as [[] ?]; split.
Qed.

Lemma Forall2_fmap_same {A B} (P : A → A → Prop) (f : A → B) l l' :
  (∀ x y, P x y → f y = f x) → Forall2 P l l' → f <$> l' = f <$> l.
Proof. intros HP. induction 1; [done|]. cbn. f_equal; auto. Qed.

Lemma Forall2_omap_same {A B} (P : A → A → Prop) (f : A → option B) l l' :
  (∀ x y, P x y → f y = f x) → Forall2 P l l' → omap f l' = omap f l.
Proof. intros HP. induction 1 as [|x y l l' Hxy _ IH]; [done|]. cbn. by rewrite (HP _ _ Hxy), IH. Qed.

Section same.
Context (us us' : list Unit) (Hsame : Forall2 same_but_env us us').

Lemma same_forth u : u ∈ us → ∃ u', u' ∈ us' ∧ same_but_env u u'.
Proof.
  intros [i Hi]%list_elem_of_lookup.
  destruct (Forall2_lookup_l _ _ _ _ _ Hsame Hi) as (u'&Hu'&?).
  exists u'. split; [by eapply list_elem_of_lookup_2|done].
Qed.

Lemma same_back u' : u' ∈ us' → ∃ u, u ∈ us ∧ same_but_env u u'.
Proof.
  intros [i Hi]%list_elem_of_lookup.
  destruct (Forall2_lookup_r _ _ _ _ _ Hsame Hi) as (u&Hu&?).
  exists u. split; [by eapply list_elem_of_lookup_2|done].
Qed.

Lemma needs_group_same a b : needs_group us a b ↔ needs_group us' a b.
Proof.
  split; intros (u&Hu&Ha&Hb).
  - destruct (same_forth u Hu) as (u'&?&[]). exists u'. split_and!; [done|congruence|congruence].
  - destruct (same_back u Hu) as (u'&?&[]). exists u'. split_and!; [done|congruence|congruence].
Qed.

Lemma tc_needs_group_same a b : tc (needs_group us) a b ↔ tc (needs_group us') a b.
Proof.
  split; induction 1 as [a b H%needs_group_same|a b c H%needs_group_same _ IH];
    [by apply tc_once|by eapply tc_l|by apply tc_once|by eapply tc_l].
Qed.

Lemma units_ok_same `{Regexes} : units_ok us → units_ok us'.
Proof.
  intros Hok.
  assert (omap pane_of us' = omap pane_of us) as Hpanes.
  { apply (Forall2_omap_same same_but_env); [|done]. apply same_pane. }
  split.
  - rewrite (Forall2_fmap_same same_but_env _ us); [apply Hok|apply same_id|done].
  - rewrite Hpanes. apply Hok.
  - rewrite (Forall2_omap_same same_but_env _ us); [apply Hok| |done].
    intros x y []. by f_equal.
  - intros u' n (u&Hu&[])%same_back Hn.
    destruct (units_needs _ Hok u n) as (v&Hv&Hg); [done|congruence|].
    destruct (same_forth v Hv) as (v'&?&[]). exists v'. split; [done|congruence].
  - intros u' v' (u&Hu&[])%same_back (v&Hv&[])%same_back Hg.
    assert (unit_needs u = unit_needs v) by (apply (units_group _ Hok); congruence). congruence.
  - intros g. induction (units_wf _ Hok g) as [g _ IH]. constructor. intros b Hb. apply IH.
    by apply needs_group_same.
  - intros u' p t (u&Hu&[])%same_back Hr. apply (units_ready _ Hok u p t Hu). congruence.
  - intros u' (u&Hu&[])%same_back Hc. rewrite same_ready0. apply (units_capture _ Hok u Hu). congruence.
  - intros u' (u&Hu&[])%same_back Hn. rewrite same_pane0. apply (units_send _ Hok u Hu). congruence.
  - destruct (units_root _ Hok) as (u&Hu&Hn). destruct (same_forth u Hu) as (u'&?&[]).
    exists u'. split; [done|congruence].
  - rewrite Hpanes. apply Hok.
Qed.

Lemma rounds_same : rounds us' = rounds us.
Proof.
  unfold rounds. induction Hsame as [|u u' l l' [] _ IH]; [done|]. simpl.
  unfold budget in *. rewrite same_ready0, IH; [done|by inversion Hsame].
Qed.
End same.

(** What is checked of the worktrees does not add or drop one. *)
Class PreparationLaws {P : Preparation} := {
  conflicts_length plans plans' :
    check_worktree_conflicts plans = inr plans' → length plans' = length plans }.

Lemma allocate_from_length refs is_free base k offsets :
  allocate_from refs is_free base k = Some offsets → length offsets = length refs.
Proof.
  revert k offsets. induction refs as [|[] refs IH]; intros k offsets; cbn [allocate_from].
  - by intros [= <-].
  - destruct (find_stride _ _ _ _) as [[p next]|]; [|done]. cbn [mbind option_bind].
    destruct (allocate_from refs is_free base next) eqn:E; [|done]. intros [= <-].
    cbn. f_equal. by eapply IH.
  - destruct (allocate_from refs is_free base k) eqn:E; [|done]. intros [= <-].
    cbn. f_equal. by eapply IH.
Qed.

Section prepare.
Context {P : Preparation} {PL : PreparationLaws} {R : Regexes}.

Lemma prepare_units_length i us xs : prepare_units i us = inr xs → length xs = length us.
Proof.
  revert i xs. induction us as [|u us IH]; intros i xs; simpl; [by intros [= <-]|].
  destruct (prepare_unit i u) as [|x]; [done|]. simpl.
  destruct (prepare_units (S i) us) as [|xs'] eqn:E; [done|]. simpl. intros [= <-]. simpl.
  f_equal. by eapply IH.
Qed.

Lemma zip_runs_same us ys :
  length ys = length us →
  let runs := (λ '(u, (command, worktree, offset)),
    new_run (substitute_unit_env u offset) command worktree) <$> zip us ys in
  Forall2 same_but_env us (unit_of <$> runs) ∧
  ∀ r, r ∈ runs → state r = Pending ∧ error r = None.
Proof.
  intros Hlen. apply symmetry, Forall2_same_length in Hlen. simpl.
  induction Hlen as [|u [[command worktree] offset] us ys _ _ [IH1 IH2]]; simpl.
  - split; [constructor|by intros r ?%elem_of_nil].
  - split; [constructor; [apply substitute_unit_env_same|done]|].
    intros r [->|Hr]%elem_of_cons; [done|by apply IH2].
Qed.

Lemma prepare_runs_spec plan runs :
  prepare_runs plan = inr runs →
  Forall2 same_but_env (units plan) (unit_of <$> runs) ∧
  ∀ r, r ∈ runs → state r = Pending ∧ error r = None.
Proof.
  unfold prepare_runs. destruct (prepare_units 0 (units plan)) as [|prepared] eqn:Hprep; [done|].
  apply prepare_units_length in Hprep. cbn.
  destruct (check_worktree_conflicts _) as [|worktrees] eqn:Hconf; [done|]. cbn.
  apply conflicts_length in Hconf.
  destruct (allocate_port_offsets _ _ _) as [offsets|] eqn:Hports; [|done]. intros [= <-].
  apply allocate_from_length in Hports. apply zip_runs_same.
  rewrite !length_zip_with, !length_fmap in *. lia.
Qed.
End prepare.

(** ** What a report says *)

(** No unit waits for its pattern longer than a century. *)
Definition short_timeouts (spec : FlowSpec) : Prop :=
  ∀ s r t, s ∈ steps spec → ready s = Some r →
    or_else (timeout_secs r) (default_timeout (defaults spec)) = Some t → t ≤ 2 ^ 32.

Definition started_status (s : str) : Prop := s = lit "RUNNING" ∨ s = lit "READY" ∨ s = lit "FAILED".

Section reports.
Context {R : Regexes} {W : Type} {C : Client W} {L : ClockLaws W}.
Context {P : Preparation} {PL : PreparationLaws}.

Lemma load_loaded spec plan :
  load spec = Some (inr plan) → valid spec ∧ expandable spec ∧ plan_from spec plan.
Proof.
  intros Hl. pose proof (load_decides spec) as Hd. rewrite Hl in Hd. by destruct Hd as [[]].
Qed.

Lemma loaded_good spec plan :
  valid spec → plan_from spec plan → units_ok (units plan) → short_timeouts spec →
  ∀ u, u ∈ units plan → unit_good u.
Proof.
  intros Hv Hp Hok Hs u Hu. split; [|by apply (units_capture _ Hok)].
  intros p t Hr. split; [by eapply (units_ready _ Hok)|].
  destruct (unit_instance spec (units plan) Hp u Hu) as (s&it&Hin&_&Hf).
  pose proof (from_ready _ _ _ Hf) as Hready. simpl in Hready.
  destruct (ready s) as [r|] eqn:Er; [|congruence]. destruct Hready as (t'&Ht'&_&Hor).
  apply (Hs s r); congruence.
Qed.

(** The rounds that running a flow may take. *)
Definition run_rounds (spec : FlowSpec) : N :=
  match load spec with Some (inr plan) => rounds (units plan) | _ => 0 end.

(** [rep] reports on a run of [plan] to its end. *)
Definition ran (spec : FlowSpec) (plan : FlowPlan) (rep : Report) : Prop :=
  ∃ us e e', Forall2 same_but_env (units plan) us ∧ engine_on_failure e = plan_on_failure plan ∧
    ends (plain_items spec) us e rep e'.

Lemma execute_ran spec plan runs caller scope fuel w :
  short_timeouts spec → load spec = Some (inr plan) → prepare_runs plan = inr runs →
  (N.to_nat (run_rounds spec) < fuel)%nat →
  wp (execute fuel)
    (mkEngine (plan_on_failure plan) (plan_name plan) (plan_layout plan) caller scope runs ∅ 0 None) w
    (λ rep _ _, ran spec plan rep) (λ _ _ _, True).
Proof.
  intros Hshort Hl Hprep Hfuel. destruct (load_loaded _ _ Hl) as (Hv&Hx&Hplan).
  destruct (prepare_runs_spec _ _ Hprep) as [Hsame Hfresh].
  pose proof (units_from_ok _ Hv _ Hplan Hx) as Hok.
  eapply wp_mono; [apply (execute_spec (plain_items spec) (unit_of <$> runs))|..|done].
  - by eapply units_ok_same.
  - intros u' (u&Hu&[])%(same_back _ _ Hsame).
    destruct (loaded_good _ _ Hv Hplan Hok Hshort u Hu) as [Hr Hc].
    split; [intros p t Hp; apply Hr; congruence|].
    rewrite same_ready0, same_capture0. exact Hc.
  - intros Hplain u' (u&Hu&[])%(same_back _ _ Hsame) Hset. rewrite same_settle0 in Hset.
    destruct (fed_tokens _ Hv _ Hplan u Hplain Hu Hset) as (ts&Hts&Hall).
    exists ts. rewrite same_text0. split; [done|]. intros t (v&lines&Hin&Hcap&Htc)%Hall.
    destruct (same_forth _ _ Hsame v Hin) as (v'&?&[]). exists v', lines.
    rewrite same_group0, same_group1, same_capture1. split_and!; [done|done|].
    by apply (tc_needs_group_same _ _ Hsame).
  - by split.
  - rewrite (rounds_same (units plan)) by done. unfold run_rounds in Hfuel. by rewrite Hl in Hfuel.
  - intros rep e' w' Hends. by exists (unit_of <$> runs), (mkEngine (plan_on_failure plan)
      (plan_name plan) (plan_layout plan) caller scope runs ∅ 0 None), e'.
Qed.

(** [run] does not panic and ends; a report is of a run of the loaded plan. *)
Lemma run_spec spec dry caller scope fuel w :
  short_timeouts spec → (N.to_nat (run_rounds spec) < fuel)%nat →
  ∃ o w', run fuel spec dry caller scope w = Some (o, w') ∧
    ∀ rep, o = inr (Some rep) → dry = false ∧ ∃ plan, load spec = Some (inr plan) ∧ ran spec plan rep.
Proof.
  intros Hshort Hfuel. unfold run. pose proof (load_decides spec) as Hd.
  destruct (load spec) as [[er|plan]|] eqn:Hl; [|clear Hd|done].
  { by eexists _, _. }
  destruct (prepare_runs plan) as [er|runs] eqn:Hprep; [by eexists _, _|].
  destruct (if dry then _ else check_orchestration_gate dry w) as [[er|[]] w1]; [by eexists _, _|].
  destruct (if requires_submit plan then _ else _) as [[er|[]] w2]; [by eexists _, _|].
  destruct dry; [by eexists _, _|].
  pose proof (execute_ran _ _ _ caller scope fuel w2 Hshort Hl Hprep Hfuel) as Hwp.
  unfold wp in Hwp. cbv zeta. destruct (execute _ _) as [[r [e' w']]|]; [|done].
  destruct r as [er|rep]; cbn in *; eexists _, _; split; [done|done|done|].
  intros rep' [= <-]. split; [done|]. exists plan. split; [done|]. by apply Hwp.
Qed.
Lemma run_report spec dry caller scope fuel w rep w' :
  short_timeouts spec → (N.to_nat (run_rounds spec) < fuel)%nat →
  run fuel spec dry caller scope w = Some (inr (Some rep), w') →
  ∃ plan, load spec = Some (inr plan) ∧ ran spec plan rep.
Proof.
  intros Hshort Hfuel Hrun.
  destruct (run_spec spec dry caller scope fuel w Hshort Hfuel) as (o&w1&Hrun'&Hrep).
  apply Hrep. congruence.
Qed.

(** Step [i] of a report is about unit [i] of the plan. *)
Definition reported (plan : FlowPlan) (rep : Report) (i : nat) (u : Unit) (s : StepReport) : Prop :=
  units plan !! i = Some u ∧ report_steps rep !! i = Some s.

Section ran.
Context (spec : FlowSpec) (plan : FlowPlan) (rep : Report).
Context (Hload : load spec = Some (inr plan)) (Hran : ran spec plan rep).

(** The engine at the end of the run. *)
Lemma ran_engine : ∃ us e x, Forall2 same_but_env (units plan) us ∧ units_ok us ∧
  engine_on_failure e = plan_on_failure plan ∧ inv (plain_items spec) us x e ∧
  rep = report e (aborted rep) ∧ FlowRun.finished (aborted rep) e.
Proof.
  destruct Hran as (us&e0&e&Hsame&Hpol&ab&->&[x Hi]&Hg&Hfin). exists us, e, x.
  destruct (load_loaded _ _ Hload) as (Hv&Hx&Hplan).
  split_and!; [done| |by rewrite (grows_policy _ _ Hg)|done|done|done].
  eapply units_ok_same; [done|]. by eapply units_from_ok.
Qed.

Lemma report_lookup e ab i s : report_steps (report e ab) !! i = Some s →
  ∃ r, runs_ e !! i = Some r ∧ report_id s = unit_id (unit_of r) ∧
  report_status s = label (state r) ∧ report_error s = error r.
Proof.
  unfold report. cbn [report_steps]. rewrite list_lookup_fmap.
  destruct (runs_ e !! i) as [r|]; [|done]. intros [= <-]. by exists r.
Qed.

Lemma reported_run us e x i u s :
  Forall2 same_but_env (units plan) us → inv (plain_items spec) us x e →
  rep = report e (aborted rep) → reported plan rep i u s →
  ∃ r, runs_ e !! i = Some r ∧ same_but_env u (unit_of r) ∧ report_id s = unit_id u ∧
  report_status s = label (state r) ∧ report_error s = error r.
Proof.
  intros Hsame Hi Hrep [Hu Hs]. rewrite Hrep in Hs.
  destruct (report_lookup _ _ _ _ Hs) as (r&Hr&Hid&Hst&He). exists r.
  destruct (Forall2_lookup_l _ _ _ _ _ Hsame Hu) as (u'&Hu'&Hsm).
  rewrite <- (inv_units _ _ _ _ Hi), list_lookup_fmap, Hr in Hu'. injection Hu' as <-.
  split_and!; [done|done|by rewrite Hid, (same_id _ _ Hsm)|done|done].
Qed.

(** Every run of the engine is reported. *)
Lemma run_reported us e x i r :
  Forall2 same_but_env (units plan) us → inv (plain_items spec) us x e →
  rep = report e (aborted rep) → runs_ e !! i = Some r →
  ∃ u s, reported plan rep i u s ∧ same_but_env u (unit_of r) ∧ report_status s = label (state r).
Proof.
  intros Hsame Hi Hrep Hr.
  destruct (Forall2_lookup_r _ _ _ i (unit_of r) Hsame) as (u&Hu&Hsm).
  { rewrite <- (inv_units _ _ _ _ Hi). by rewrite list_lookup_fmap, Hr. }
  eexists u, _. split_and!; [split; [done|]|done|].
  - rewrite Hrep. unfold report. cbn [report_steps]. by rewrite list_lookup_fmap, Hr.
  - done.
Qed.

Lemma label_started (st : State) : started_status (label st) → has_started st = true.
Proof. by destruct st; intros [|[|]]. Qed.

(** What a started step needs, however indirectly, is ready. *)
Lemma ran_needs i u s j u' s' :
  reported plan rep i u s → started_status (report_status s) →
  reported plan rep j u' s' → tc (needs_group (units plan)) (group u) (group u') →
  report_status s' = lit "READY".
Proof.
  intros Hi Hst Hj Htc. destruct ran_engine as (us&e&x&Hsame&Hok&_&Hinv&Hrep&_).
  destruct (reported_run _ _ _ _ _ _ Hsame Hinv Hrep Hi) as (r&Hr&Hsm&_&Hl&_).
  destruct (reported_run _ _ _ _ _ _ Hsame Hinv Hrep Hj) as (r'&Hr'&Hsm'&_&Hl'&_).
  rewrite Hl', (ready_below _ us Hok x e (group u) (group u') Hinv) with (r := r) (j := j); try done.
  - by apply (tc_needs_group_same _ _ Hsame).
  - by eapply inv_unit.
  - apply Hsm.
  - eapply inv_deps; [done|done|]. apply label_started. by rewrite <- Hl.
  - apply Hsm'.
Qed.

Lemma ran_defined s v :
  plain_items spec → s ∈ report_steps rep → report_error s ≠ Some (UndefinedVariable v).
Proof.
  intros Hplain [i Hi]%list_elem_of_lookup. destruct ran_engine as (us&e&x&_&_&_&Hinv&Hrep&_).
  rewrite Hrep in Hi. destruct (report_lookup _ _ _ _ Hi) as (r&Hr&_&_&->).
  by apply (run_error _ _ _ _ (inv_runs _ _ _ _ Hinv i r Hr)).
Qed.

(** Why a step was skipped. *)
Lemma ran_skipped i u s :
  reported plan rep i u s → report_status s = lit "SKIPPED" →
  (∃ j u' s', reported plan rep j u' s' ∧ group u' ∈ unit_needs u ∧
   (report_status s' = lit "FAILED" ∨ report_status s' = lit "SKIPPED")) ∨
  (plan_on_failure plan = FailFast ∧ ∃ s', s' ∈ report_steps rep ∧ report_status s' = lit "FAILED").
Proof.
  intros Hi Hst. destruct ran_engine as (us&e&x&Hsame&Hok&Hpol&Hinv&Hrep&_).
  destruct (reported_run _ _ _ _ _ _ Hsame Hinv Hrep Hi) as (r&Hr&Hsm&_&Hl&_).
  destruct (inv_skipped _ _ _ _ Hinv i r Hr) as [(n&r'&Hn&[j Hj]%list_elem_of_lookup&Hg&Hd)|Hs].
  - rewrite Hl in Hst. by destruct (state r).
  - destruct (run_reported _ _ _ _ _ Hsame Hinv Hrep Hj) as (u'&s'&Hrep'&Hsm'&Hl').
  left. exists j, u', s'. split_and!; [done| |].
  + rewrite <- (same_needs _ _ Hsm), <- (same_group _ _ Hsm'). by subst n.
  + rewrite Hl'. destruct (state r'); try done; auto.
  - right. unfold stops in Hs. rewrite Hpol in Hs. destruct (plan_on_failure plan); [|done].
  split; [done|]. apply any_failed_true in Hs as (j&r'&Hj&Hf).
  destruct (run_reported _ _ _ _ _ Hsame Hinv Hrep Hj) as (u'&s'&[_ Hs']&_&Hl').
  exists s'. split; [by eapply list_elem_of_lookup_2|]. rewrite Hl'. by destruct (state r').
Qed.

(** A run that was not aborted leaves nothing pending, and nothing running but what a failure
cut short. *)
Lemma ran_finished s :
  aborted rep = None → s ∈ report_steps rep →
  report_status s = lit "READY" ∨ report_status s = lit "FAILED" ∨ report_status s = lit "SKIPPED" ∨
  (report_status s = lit "RUNNING" ∧ plan_on_failure plan = FailFast ∧
  ∃ s', s' ∈ report_steps rep ∧ report_status s' = lit "FAILED").
Proof.
  intros Hab [i Hi]%list_elem_of_lookup.
  destruct ran_engine as (us&e&x&Hsame&Hok&Hpol&Hinv&Hrep&Hfin).
  rewrite Hrep in Hi. destruct (report_lookup _ _ _ _ Hi) as (r&Hr&_&->&_).
  destruct (Hfin Hab r) as [Ht|[Hf Hs]]; [by eapply list_elem_of_lookup_2| |].
  - destruct (state r); try done; auto.
  - do 3 right. split; [by destruct (state r)|]. unfold stops in Hs. rewrite Hpol in Hs.
  destruct (plan_on_failure plan); [|done].
  split; [done|]. apply any_failed_true in Hs as (j&r'&Hj&Hf').
  destruct (run_reported _ _ _ _ _ Hsame Hinv Hrep Hj) as (u'&s'&[_ Hs']&_&Hl').
  exists s'. split; [by eapply list_elem_of_lookup_2|]. rewrite Hl'. by destruct (state r').
Qed.
Lemma ran_length : length (report_steps rep) = length (units plan).
Proof.
  destruct ran_engine as (us&e&x&Hsame&_&_&Hinv&Hrep&_). rewrite Hrep. unfold report.
  cbn [report_steps]. rewrite (Forall2_length _ _ _ Hsame), <- (inv_units _ _ _ _ Hinv).
  by rewrite !length_fmap.
Qed.

(** Success is that every step is ready. *)
Lemma ran_exit_ok :
  exit_code rep = EXIT_OK ↔
  aborted rep = None ∧ ∀ s, s ∈ report_steps rep → report_status s = lit "READY".
Proof.
  destruct ran_engine as (us&e&x&_&_&_&_&Hrep&_). rewrite Hrep. clear Hrep.
  destruct (aborted rep) as [m|]; cbn; [by split; [|intros [? _]]|].
  destruct (forallb _ (runs_ e)) eqn:Hall.
  - split; [|done]. intros _. split; [done|]. intros s (r&->&Hr)%list_elem_of_fmap.
  rewrite forallb_forall in Hall. specialize (Hall r (proj1 (list_elem_of_In _ _) Hr)).
  cbn. by destruct (state r).
  - split; [by case_match|]. intros [_ Hready]. exfalso. apply not_true_iff_false in Hall.
  apply Hall, forallb_forall. intros r Hr%list_elem_of_In.
  assert (label (state r) = lit "READY") as Hl.
  { exact (Hready _ (list_elem_of_fmap_2 _ _ _ Hr)). }
  by destruct (state r).
Qed.
End ran.
End reports.
