(* ===== verification/FlowProperties.v ===== *)
(** * Flows: properties

    What loading accepts, what running a plan guarantees of the steps, and that the text a
    step waits for and the ports of its panes are the ones meant. *)

From stdpp Require Import gmap list strings relations well_founded sorting.
From S2P Require Import Prelude DiffText DiffUtf8 AgentActivity FlowSpec FlowEngine.
From S2P Require Import FlowSpecCorrect FlowPlan FlowEngineCorrect FlowRun.

Local Open Scope N_scope.

(** ** A world to run flows in *)

(** Patterns that stand for themselves. *)
#[local] Instance plain_regexes : Regexes :=
  {| Regex := str; regex_new := Some; is_match re text := contains re text |}.

(** A time, and the number of panes. *)
Record Sim := mkSim { sim_time : N; sim_panes : N }.

Definition up_answer (panes : nat) : Value :=
  VObject [("surface_ids"%string : str, VArray ((λ i, VInt (Z.of_nat i)) <$> seq 0 panes))].

Definition sim_call (method : str) (params : Value) (w : Sim) : (str + Value) * Sim :=
  if bool_decide (method = "workspace.up"%string :> str) then
    let panes := match Value.get params "panes"%string with Some (VArray l) => length l | _ => O end in
    (inr (up_answer panes), mkSim (sim_time w) (N.of_nat panes))
  else if bool_decide (method = "surface.split"%string :> str) then
    (inr (VObject [("surface_id"%string : str, VN (sim_panes w))]),
     mkSim (sim_time w) (sim_panes w + 1))
  else (inr (VObject []), w).

(** Every pane shows that its tests have passed. *)
#[local] Instance sim_client : Client Sim := {|
  call := sim_call;
  try_call _ _ w := (inr (VObject [("text"%string : str, VString "tests passed"%string);
                                   ("output_generation"%string : str, VN (sim_time w))]), w);
  now w := (sim_time w, w);
  later t d := Some (t + d);
  sleep d w := mkSim (sim_time w + d) (sim_panes w);
  interrupted w := (false, w);
  execute_worktree_plan _ w := (inr (), w);
  rollback_created_worktrees _ w := w;
  resolve_target _ w := (inl (runtime (AmbiguousTarget [])), w);
  confirm_turn_start _ _ w := (mkTurnStart None [], w) |}.

#[local] Instance sim_laws : ClockLaws Sim.
Proof.
  apply (Build_ClockLaws Sim _ sim_time).
  - intros w. simpl. lia.
  - done.
  - intros d w. simpl. lia.
  - intros w. simpl. lia.
  - intros m v w. simpl. unfold sim_call. repeat case_bool_decide; simpl; lia.
  - intros m v w. simpl. lia.
  - intros p w. simpl. lia.
  - intros ps w. simpl. lia.
  - intros t w. simpl. lia.
  - intros s v w. simpl. lia.
Defined.

#[local] Instance sim_preparation : Preparation := {|
  resolve_command _ pane := inr (command pane);
  plan_worktree _ _ := inr None;
  check_worktree_conflicts plans := inr plans;
  port_is_free _ := true |}.

#[local] Instance sim_preparation_laws : PreparationLaws.
Proof. split. by intros plans plans' [= <-]. Defined.

Definition a_pane : PaneSpec :=
  mkPane None None (Some ("cargo test"%string : str)) None None None None None None None None None None.

(** One step runs the tests and another feeds their last line to it. *)
Definition two_steps (pattern : str) (policy : option str) : FlowSpec :=
  mkFlow None Tiled None (mkDefaults (Some 1) policy)
    [mkStep "impl"%string [] None (Some a_pane) None (Some (mkReady pattern None))
       (if bool_decide (policy = None) then Some (mkCapture "sum"%string 1) else None) None;
     mkStep "review"%string ["impl"%string : str] None None
       (Some (mkSend "impl"%string
         (if bool_decide (policy = None) then "check: ${sum}"%string else "check"%string) None)) None None None].
Definition ready_flow : FlowSpec := two_steps "passed"%string None.
Definition failing_flow : FlowSpec := two_steps "done"%string (Some ("continue"%string : str)).

Definition outcome_of (spec : FlowSpec) := run 200 spec false None false (mkSim 0 0).
Definition plan_of (spec : FlowSpec) : option FlowPlan :=
  match load spec with Some (inr plan) => Some plan | _ => None end.
(** ** Running a flow *)

Section run.
Context {R : Regexes} {W : Type} {C : Client W} {L : ClockLaws W}.
Context {P : Preparation} {PL : PreparationLaws}.

(** C21: Running a flow does not panic and ends, whatever the instance answers, as long as its
timeouts are below 2^32 seconds: the rounds of its loop are bounded by the timeouts of its
steps.  A report that was not aborted has a line for every unit of the plan, and each is
READY, FAILED or SKIPPED, except for a step still RUNNING when another one failed and the flow
fails fast. *)
Theorem flow_run_ends spec dry caller scope fuel w :
  short_timeouts spec → (N.to_nat (run_rounds spec) < fuel)%nat →
  ∃ o w', run fuel spec dry caller scope w = Some (o, w') ∧
    ∀ rep, o = inr (Some rep) → aborted rep = None →
      ∃ plan, load spec = Some (inr plan) ∧ length (report_steps rep) = length (units plan) ∧
      ∀ s, s ∈ report_steps rep →
        report_status s = lit "READY" ∨ report_status s = lit "FAILED" ∨
        report_status s = lit "SKIPPED" ∨
        (report_status s = lit "RUNNING" ∧ plan_on_failure plan = FailFast ∧
         ∃ s', s' ∈ report_steps rep ∧ report_status s' = lit "FAILED").
Proof.
  intros Hshort Hfuel.
  destruct (run_spec spec dry caller scope fuel w Hshort Hfuel) as (o&w'&Hrun&Hrep).
  exists o, w'. split; [done|]. intros rep -> Hab. destruct (Hrep rep eq_refl) as (_&plan&Hl&Hran).
  exists plan. split_and!; [done|by eapply ran_length|]. intros s Hs. by eapply ran_finished.
Qed.

(** C22: A step starts only when every step it needs, directly or through others, is READY,
every item of it: in a report on a run, what a READY, FAILED or RUNNING step needs is READY. *)
Theorem flow_needs_before_start spec plan dry caller scope fuel w rep w' i u s j u' s' :
  short_timeouts spec → (N.to_nat (run_rounds spec) < fuel)%nat →
  load spec = Some (inr plan) → run fuel spec dry caller scope w = Some (inr (Some rep), w') →
  reported plan rep i u s → started_status (report_status s) →
  reported plan rep j u' s' → tc (needs_group (units plan)) (group u) (group u') →
  report_status s' = lit "READY".
Proof.
  intros Hshort Hfuel Hl Hrun.
  destruct (run_report _ _ _ _ _ _ _ _ Hshort Hfuel Hrun) as (plan'&Hl'&Hran).
  assert (plan' = plan) as -> by congruence.
  by eapply ran_needs.
Qed.

(** C23: When every item of the flow is non-empty and holds no dollar sign and no brace, each text
that is fed to a pane has tokens that are the captures of units it needs, directly or through
others; and in every report on a run no step fails for a variable that is not defined, so that
these captures were taken before it was fed.  (Timeouts are below 2^32 seconds, as in C21.) *)
Theorem flow_captures_defined spec plan dry caller scope fuel w rep w' :
  short_timeouts spec → (N.to_nat (run_rounds spec) < fuel)%nat →
  (∀ s items it, s ∈ steps spec → foreach s = Some items → it ∈ items →
     it ≠ [] ∧ 36 ∉ it ∧ 123 ∉ it ∧ 125 ∉ it) →
  load spec = Some (inr plan) → run fuel spec dry caller scope w = Some (inr (Some rep), w') →
  (∀ u, u ∈ units plan → needs_settle u = true →
     ∃ tokens, extract_tokens (raw_text u) = Some tokens ∧
       ∀ t, t ∈ tokens → ∃ u' lines, u' ∈ units plan ∧ unit_capture u' = Some (t, lines) ∧
         tc (needs_group (units plan)) (group u) (group u')) ∧
  ∀ s v, s ∈ report_steps rep → report_error s ≠ Some (UndefinedVariable v).
Proof.
  intros Hshort Hfuel Hplain Hl Hrun. split.
  - destruct (load_loaded _ _ Hl) as (Hv&_&Hplan). intros u. by apply (fed_tokens spec).
  - destruct (run_report _ _ _ _ _ _ _ _ Hshort Hfuel Hrun) as (plan'&Hl'&Hran).
    intros s v. by eapply ran_defined.
Qed.

(** C25: The exit code of a report is 0 exactly when the run was not aborted and every step is
READY, and a step is SKIPPED only if a step it needs was not reached or failed, or if a step
failed and the flow fails fast. *)
Theorem flow_report_justified spec plan dry caller scope fuel w rep w' :
  short_timeouts spec → (N.to_nat (run_rounds spec) < fuel)%nat →
  load spec = Some (inr plan) → run fuel spec dry caller scope w = Some (inr (Some rep), w') →
  (exit_code rep = EXIT_OK ↔
    aborted rep = None ∧ ∀ s, s ∈ report_steps rep → report_status s = lit "READY") ∧
  ∀ i u s, reported plan rep i u s → report_status s = lit "SKIPPED" →
    (∃ j u' s', reported plan rep j u' s' ∧ group u' ∈ unit_needs u ∧
       (report_status s' = lit "FAILED" ∨ report_status s' = lit "SKIPPED")) ∨
    (plan_on_failure plan = FailFast ∧ ∃ s', s' ∈ report_steps rep ∧ report_status s' = lit "FAILED").
Proof.
  intros Hshort Hfuel Hl Hrun.
  destruct (run_report _ _ _ _ _ _ _ _ Hshort Hfuel Hrun) as (plan'&Hl'&Hran).
  assert (plan' = plan) as -> by congruence.
  split; [by eapply ran_exit_ok|]. intros i u s. by eapply ran_skipped.
Qed.
End run.

(** ** Loading a flow *)

Section loading.
Context {R : Regexes}.

(** C24: Loading does not panic, and accepts a specification exactly when it is well formed: ids
and captured names that are unique, needs that name other steps and never lead back, a root
that opens a pane, tokens that name captures of needed steps, at most 32 panes, patterns that
compile for every item, and names of panes that differ.  A plan has the units of each step, one
for each item, in order; their ids, panes and captures differ, and following needs ends. *)
Theorem flow_loads_iff_valid spec :
  load spec ≠ None ∧
  ((∃ plan, load spec = Some (inr plan)) ↔ valid spec ∧ expandable spec) ∧
  ∀ plan, load spec = Some (inr plan) →
    Forall2 (unit_from spec) (instances spec) (units plan) ∧ units_ok (units plan).
Proof.
  pose proof (load_decides spec) as Hd.
  unfold decides, yields in Hd. destruct (load spec) as [[er|plan]|]; [| |contradiction].
  - split_and!; [discriminate| |discriminate].
    split; [intros [plan Hp]; discriminate|intros Hwf; by destruct Hd].
  - destruct Hd as [[Hv Hx] Hp]. split_and!; [discriminate| |].
    + split; [intros _; by split|intros _; by exists plan].
    + intros plan' [= <-]. split; [exact Hp|]. by eapply units_from_ok.
Qed.

(** C26: When ids are unique and every need is a step, looking for cycles does not panic, passes
exactly when no step leads back to itself, and else names steps that need one another in turn,
the last of which is the first. *)
Theorem flow_cycles_found spec :
  NoDup (step_ids spec) → (∀ s n, s ∈ steps spec → n ∈ needs s → n ∈ step_ids spec) →
  match detect_cycles spec with
  | Some (inr _) => ∀ id, ¬ tc (needs_step spec) id id
  | Some (inl (Cycle c)) => is_cycle spec c ∧ ∃ id, tc (needs_step spec) id id
  | _ => False
  end.
Proof.
  intros Hids Hclosed. pose proof (detect_cycles_spec spec Hids Hclosed) as Hd.
  unfold yields in Hd. destruct (detect_cycles spec) as [[er|[]]|]; [| |done].
  - destruct Hd as (c&->&Hc). split; [done|]. by eapply is_cycle_tc.
  - intros id. by apply (acc_no_cycle (needs_step spec)).
Qed.
End loading.

(** ** New text and ports *)

(** C27: The text that a step waits in is what the surface gained since the baseline.  When it
continues the baseline, it is exactly the rest, and nothing when nothing was added.  When it
does not, it is its lines, joined, without as many as can be kept in order from the lines of
the baseline: those left out are a longest common subsequence.  The computation does not leave
its table. *)
Theorem new_text_leaves_out_most baseline current :
  ∃ t, new_text_since_baseline baseline current = Some t ∧
    (∀ rest, current = baseline ++ rest → t = rest) ∧
    ((∀ rest, current ≠ baseline ++ rest) →
     ∃ kept added, t = join_lines added ∧ interleaved kept added (str_lines current) ∧
       sublist kept (str_lines baseline) ∧
       ∀ l, sublist l (str_lines baseline) → sublist l (str_lines current) →
         (length l <= length kept)%nat).
Proof.
  unfold new_text_since_baseline. case_bool_decide as Heq.
  { exists []. split_and!; [done| |].
    - intros rest Hr. rewrite Heq in Hr. rewrite <- (app_nil_r baseline) in Hr at 1. by apply app_inv_head in Hr.
    - intros Hno. destruct (Hno []). by rewrite app_nil_r. }
  destruct (strip_prefix baseline current) as [rest|] eqn:Hp.
  { apply strip_prefix_Some in Hp as ->. exists rest. split_and!; [done| |].
    - by intros rest' ->%app_inv_head.
    - intros Hno. by destruct (Hno rest). }
  destruct (new_lines_spec (str_lines baseline) (str_lines current)) as (out&kept&->&Hi&Hs&Hmax).
  exists (join_lines out). split_and!; [done| |].
  - intros rest Hr. apply strip_prefix_Some in Hr. congruence.
  - intros _. by exists kept, out.
Qed.

(** C28: The units that ask for ports get the first strides of ten at or above the base that exist
and are free, in order, so that no two overlap; the allocation fails exactly when there are
not enough of them. *)
Theorem ports_are_first_free refs base is_free :
  match allocate_port_offsets refs base is_free with
  | Some offsets =>
      is_some <$> offsets = refs ∧ omap id offsets = take (wanted refs) (free_strides is_free base 0)
  | None => (length (free_strides is_free base 0) < wanted refs)%nat
  end ∧ StronglySorted N.lt (free_strides is_free base 0) ∧
  ∀ p, p ∈ free_strides is_free base 0 ↔ ∃ k, p = base + PORT_STRIDE * k ∧ free_stride is_free p.
Proof.
  unfold allocate_port_offsets. rewrite allocate_from_spec by lia.
  split_and!; [apply assign_spec|apply free_strides_sorted|apply elem_of_free_strides].
Qed.

(** ** Witnesses *)

Lemma demo_timeouts spec : steps spec = steps ready_flow ∨ steps spec = steps failing_flow →
  default_timeout (defaults spec) = Some 1 → short_timeouts spec.
Proof.
  intros Hs Hd s r t Hin Hr. rewrite Hd.
  assert (timeout_secs r = None) as ->.
  { destruct Hs as [Hs|Hs]; rewrite Hs in Hin; cbn in Hin;
      repeat (apply elem_of_cons in Hin as [->|Hin]; [by simplify_eq/=|]); by apply elem_of_nil in Hin. }
  intros [= <-]. lia.
Qed.

Local Ltac evaluate := first [apply Nat.ltb_lt; vm_compute; reflexivity|vm_compute; reflexivity].

Definition rep_of (spec : FlowSpec) : Report :=
  match outcome_of spec with Some (inr (Some rep), _) => rep | _ => mkReport 0 [] None [] end.
Definition loaded (spec : FlowSpec) : FlowPlan :=
  match load spec with Some (inr plan) => plan | _ => mkPlan [] Tiled 0 FailFast [] end.

Lemma flow_run_ends_witness :
  ∃ o w', run 200 ready_flow false None false (mkSim 0 0) = Some (o, w') ∧
    ∀ rep, o = inr (Some rep) → aborted rep = None →
      ∃ plan, load ready_flow = Some (inr plan) ∧ length (report_steps rep) = length (units plan) ∧
      ∀ s, s ∈ report_steps rep →
        report_status s = lit "READY" ∨ report_status s = lit "FAILED" ∨
        report_status s = lit "SKIPPED" ∨
        (report_status s = lit "RUNNING" ∧ plan_on_failure plan = FailFast ∧
         ∃ s', s' ∈ report_steps rep ∧ report_status s' = lit "FAILED").
Proof.
  apply (flow_run_ends ready_flow false None false 200 (mkSim 0 0)).
  - apply demo_timeouts; [by left|done].
  - evaluate.
Defined.

Lemma flow_needs_before_start_witness :
  ∃ u s u' s', reported (loaded ready_flow) (rep_of ready_flow) 1 u s ∧
    reported (loaded ready_flow) (rep_of ready_flow) 0 u' s' ∧ report_status s' = lit "READY".
Proof.
  eexists _, _, _, _.
  split_and!; [split; vm_compute; reflexivity|split; vm_compute; reflexivity|].
  eapply (flow_needs_before_start ready_flow (loaded ready_flow) false None false 200 (mkSim 0 0)
    (rep_of ready_flow) (mkSim 8000 1) 1 _ _ 0).
  - apply demo_timeouts; [by left|done].
  - evaluate.
  - evaluate.
  - evaluate.
  - split; vm_compute; reflexivity.
  - right. left. reflexivity.
  - split; vm_compute; reflexivity.
  - apply tc_once. eexists. split_and!; [right; left; reflexivity|reflexivity|left; reflexivity].
Defined.

Lemma flow_captures_defined_witness :
  (∃ u tokens, u ∈ units (loaded ready_flow) ∧ extract_tokens (raw_text u) = Some tokens ∧ tokens = [lit "sum"]) ∧
  ∀ s v, s ∈ report_steps (rep_of ready_flow) → report_error s ≠ Some (UndefinedVariable v).
Proof.
  destruct (flow_captures_defined ready_flow (loaded ready_flow) false None false 200 (mkSim 0 0)
    (rep_of ready_flow) (mkSim 8000 1)) as [Htokens Hdef].
  - apply demo_timeouts; [by left|done].
  - evaluate.
  - intros s items it Hs Hi. exfalso.
    repeat (apply elem_of_cons in Hs as [->|Hs]; [discriminate Hi|]). by apply elem_of_nil in Hs.
  - evaluate.
  - evaluate.
  - split; [|exact Hdef].
    assert (∃ u, units (loaded ready_flow) !! 1%nat = Some u ∧ needs_settle u = true ∧
      extract_tokens (raw_text u) = Some [lit "sum"]) as (u&Hu&Hset&Hx).
    { eexists. split; [vm_compute; reflexivity|]. split; vm_compute; reflexivity. }
    apply list_elem_of_lookup_2 in Hu. destruct (Htokens u Hu Hset) as (tokens&Ht&_).
    exists u, tokens. split_and!; [done|done|congruence].
Defined.

(** The step whose dependency timed out was skipped, and the exit code says so. *)
Lemma flow_report_justified_witness :
  exit_code (rep_of failing_flow) ≠ EXIT_OK ∧
  ∃ u s, reported (loaded failing_flow) (rep_of failing_flow) 1 u s ∧
    ((∃ j u' s', reported (loaded failing_flow) (rep_of failing_flow) j u' s' ∧
        group u' ∈ unit_needs u ∧
        (report_status s' = lit "FAILED" ∨ report_status s' = lit "SKIPPED")) ∨
     (plan_on_failure (loaded failing_flow) = FailFast ∧
      ∃ s', s' ∈ report_steps (rep_of failing_flow) ∧ report_status s' = lit "FAILED")).
Proof.
  destruct (flow_report_justified failing_flow (loaded failing_flow) false None false 200 (mkSim 0 0)
    (rep_of failing_flow) (mkSim 1000 1)) as [_ Hskip].
  - apply demo_timeouts; [by right|done].
  - evaluate.
  - evaluate.
  - evaluate.
  - split; [by vm_compute|]. eexists _, _. split; [split; vm_compute; reflexivity|].
    apply (Hskip 1%nat _ (match report_steps (rep_of failing_flow) !! 1%nat with
      Some s => s | None => mkStepReport [] [] None None None end)).
    + split; vm_compute; reflexivity.
    + vm_compute. reflexivity.
Defined.

(** Two steps that need each other. *)
Definition circular : FlowSpec :=
  mkFlow None Tiled None (mkDefaults None None)
    [mkStep "a"%string ["b"%string : str] None (Some a_pane) None None None None;
     mkStep "b"%string ["a"%string : str] None (Some a_pane) None None None None].

Lemma flow_cycles_found_witness :
  ∃ c, detect_cycles circular = Some (inl (Cycle c)) ∧ is_cycle circular c.
Proof.
  assert (NoDup (step_ids circular)) as Hids by (apply (bool_decide_unpack _); by vm_compute).
  pose proof (flow_cycles_found circular Hids) as H.
  assert (detect_cycles circular = Some (inl (Cycle ["a"%string : str; "b"%string : str; "a"%string : str])))
    as Heq by (vm_compute; reflexivity).
  rewrite Heq in H. eexists. split; [exact Heq|]. apply H.
  intros s n Hs Hn.
  repeat (apply elem_of_cons in Hs as [->|Hs];
    [apply list_elem_of_singleton in Hn as ->; apply (bool_decide_unpack _); by vm_compute|]).
  by apply elem_of_nil in Hs.
Defined.

(** ** Texts that are not what they seem *)

(** Tokens are checked before the item is put in: an item with a dollar sign makes a token that
    no check has seen, and the step fails when it is fed. *)
Definition hidden_token : FlowSpec :=
  mkFlow None Tiled None (mkDefaults (Some 1) None)
    [mkStep "impl"%string [] None (Some a_pane) None None None None;
     mkStep "review"%string ["impl"%string : str] (Some ["$"%string : str]) None
       (Some (mkSend "impl"%string "${item}{secret}"%string None)) None None None].

Example hidden_token_fails :
  report_error <$> report_steps (rep_of hidden_token) !! 1%nat = Some (Some (UndefinedVariable "secret"%string)).
Proof. vm_compute. reflexivity. Qed.

(** What a step captured is taken for tokens when a later token of the text is replaced. *)
Example captured_token_is_replaced :
  substitute_vars "${a} ${b}"%string ({[lit "a" := lit "say ${b}"; lit "b" := lit "yes"]} : gmap str str) =
    inr (lit "say yes yes").
Proof. vm_compute. reflexivity. Qed.
